(* ===== verification/_CoqProject ===== *)
-Q . S2P
Prelude.v
Bytes.v
Text.v
Bandwidth.v
BandwidthSpec.v
BandwidthLive.v
Net.v
Identity.v
IdentitySpec.v
ProxyProto.v
ProxyProtoSpec.v
RouteMatch.v
RouteTable.v
RouteConflicts.v
RouteConditions.v
RouteSpec.v
RouteReload.v
RouteConflictsSpec.v
RoutePlan.v
RealIp.v
StaticFast.v
RouteWitness.v
H1Types.v
H1Chunked.v
H1Head.v
H1Engine.v
H1Spec.v
H1Reader.v
H1Framing.v
WtCodec.v
WtCodecSpec.v
WtCodecBounds.v
WtState.v
WtProtocol.v
WtStreams.v
WtDriver.v
WtLedger.v
WtInvariant.v
WtOutputInvariant.v
WtViews.v
WtOutputViews.v
WtSystem.v
WtTrack.v
WtWorld.v
WtTasks.v
WtWriter.v
WtTurns.v
WtTheorems.v
WtWitness.v
F64.v
Base64.v
CtCodec.v
CtWire.v
CtMerkle.v
CtInclusion.v
CtConsistency.v
Rfc6962.v
Rfc6962Codec.v
Rfc9162.v
Rfc9162Codec.v
StaticCt.v
StaticCtCodec.v
StaticCtNote.v
CbConfig.v
CbResources.v
CbBudget.v
CbCircuit.v
CbCircuitSpec.v
CbTypes.v
CbPriority.v
CbQueue.v
CbRuntime.v
CbTasks.v
CbViews.v
CbInvariant.v
CbSystem.v
CbAdmission.v
CbWakeups.v
CbReserved.v
CbWitness.v
