(* ===== verification/Prelude.v ===== *)
(** * OxiBelt verification library

    A shallow embedding of parts of OxiBelt, a reverse proxy written in Rust,
    with the theorems that make them correct.  Sources are named by their path
    under [src/source/].

    ** The program and what is modelled

    OxiBelt accepts client connections, finds out which client a request is
    from, finds its route, admits it against local limits, relays the exchange
    with an upstream within the route's bandwidth, and beside this carries
    WebTransport sessions and serves Certificate Transparency logs.  Seven of
    its parts are modelled, each from the octets or calls at its boundary to
    its state.

    - _Client addresses_, [src/identity.rs], [src/identity/real_ip.rs],
      [src/config/real_ip.rs]: [Identity] has CIDRs, the forwarding headers and
      [resolve_client_addr], [RealIp] the rules that choose a policy by host
      and server name.  [Net] is the standard library's addresses,
      their parser and their text.  [IdentitySpec] proves them.

    - _The PROXY protocol_, [src/proxy_protocol.rs],
      [src/proxy_protocol_egress.rs], [src/proxy_protocol_egress/tls.rs]:
      [ProxyProto] reads and writes the headers of both versions, with the TLS
      assertions, on the octets of the connection.  [ProxyProtoSpec] proves
      them.

    - _Routing_, [src/routes.rs], [src/routes/], [src/config/route.rs],
      [src/config/route/conflicts.rs], [src/server/plain_http.rs]:
      [RouteMatch] compiles and evaluates conditions, [RouteTable] indexes the
      hosts and chooses the best route, [RouteConflicts] validates a
      configuration, [RoutePlan] derives the fast paths of a route, and
      [StaticFast] decides which requests the plain listener answers from
      files.  [RouteConditions] states conditions on the configuration alone,
      [RouteSpec] and [RouteConflictsSpec] hold the theorems, [RouteReload]
      composes the table with the bandwidth limiters over reloads, and
      [RouteWitness] has concrete configurations.

    - _Bandwidth_, [src/bandwidth.rs], [src/bandwidth/flow.rs]: [Bandwidth] is
      the token bucket of a route and direction, the deficit round robin over
      its waiting flows and the critical sections of the limiter, each a
      function of the state and the instant its caller read.  [BandwidthSpec]
      and [BandwidthLive] prove it over all sequences of operations.

    - _Upstream HTTP/1 responses_,
      [src/proxy/http/fast_path/direct_h1/response_protocol/]: the incremental
      parser of the direct HTTP/1 path.  [H1Types] has its data ([types.rs]),
      [H1Chunked] chunk-size lines ([chunked.rs]), [H1Head] heads, framing
      decision and trailers ([head.rs]), [H1Engine] the [decode] loop
      ([engine.rs]).  A [ResponseProtocolEngine] is a record, [decode] returns
      the next event and the next record.  [H1Spec], [H1Reader] and [H1Framing]
      prove it and run it.

    - _WebTransport over HTTP/2_, [src/webtransport/]: [WtCodec] is the
      capsule codec ([codec.rs]), [WtState] the session state, its budget and
      the session handle ([session.rs], [budget.rs]), [WtProtocol] received
      capsules ([protocol.rs]), [WtStreams] the stream handles
      ([streams.rs]), [WtDriver] the reader and writer tasks ([driver.rs]).
      A method of the shared [State] is a computation of the [stm] monad
      below; a task is a state machine whose transitions are the stretches of
      code between two awaits.  [WtSystem] composes application, session,
      tasks and carrier into one transition system in which any interleaving
      is a sequence of actions.  [WtCodecSpec] and [WtCodecBounds] are about
      the codec, [WtLedger] to [WtTurns] establish the invariant of the
      system operation by operation, [WtTheorems] holds the theorems,
      [WtWitness] concrete runs.

    - _Certificate Transparency_, [crates/oxibelt-ct/src/]: [CtCodec] is the
      bounded reader and the writers ([codec.rs]), [CtMerkle] history trees
      and proofs ([merkle.rs]), [Rfc6962] and [Rfc9162] the wire structures
      of the two versions ([rfc6962.rs], [rfc9162.rs]), [StaticCt] tiles and
      checkpoints ([static_ct.rs]).  [CtWire] is a small library of readers
      and writers that agree, with which [Rfc6962Codec], [Rfc9162Codec] and
      [StaticCtCodec] are proved; [CtInclusion], [CtConsistency] and
      [StaticCtNote] are about proofs and signed notes.

    - _Admission_, [crates/oxibelt-admission-policy/src/circuit_breakers.rs]
      with [circuit_breakers/priority.rs], and [src/circuit_breakers/]:
      [CbConfig] is the configured policy and its validation, [CbResources]
      the limits an [auto] setting resolves to and the transport budget
      ([resources.rs]), [CbCircuit] the failure circuit ([circuit.rs]),
      [CbTypes] scopes, allocations and their resolution ([types.rs],
      [configuration.rs]), [CbPriority] the priority classes
      ([priority.rs]), [CbQueue] the waiting lanes ([queue.rs]), [CbRuntime]
      the state under the mutex ([runtime.rs]).  [CbTasks] composes them: the
      callers are tasks that share the state, a step is a stretch of code
      between two points where another task can run, and [Notify] is a
      generation counter.  [CbViews], [CbInvariant] and [CbSystem]
      establish the invariant of that system, [CbAdmission],
      [CbWakeups], [CbReserved], [CbBudget] and [CbCircuitSpec] hold the
      theorems, [CbWitness] concrete runs.  Floating-point
      policy values are IEEE 754 binary64 numbers ([F64]).

    This file has what all of them share: results and the state monad,
    record updates, 64-bit integers and sequences.  [Bytes] has octets,
    big-endian integers, UTF-8 and searches, [Text] the [str] operations.

    ** What the theorems show

    - A request behind trusted proxies is attributed, under a recursive policy
      over a header that lists hops, to the last hop that is not trusted,
      whatever the client wrote; scoped rules are tried in order;
      the check for policies that trust every address is exact.
    - One PROXY header is taken off a connection, only from a trusted peer and
      of a configured version, and gives the source it states; the headers
      written are read back, TLS assertions included.
    - The route table resolves a request to the best of the configured routes
      that match it; the shortcut for plain hosts and the prefilter for files
      never change that; no two routes of a validated configuration tie,
      unless one asks for the absence of certificate names; and what the
      static fast path serves is what the table and the real-IP rules say,
      for a route without rate limits, dynamic policy, external
      authentication, actions, compression or bandwidth limits (that it may
      require authorization is not asked: [protected_files_served]).
    - A bandwidth limiter hands out no more than its rate as long as the
      instants read do not go back, its callers never wait without a deadline
      and are never forgotten, and a route keeps its limiter, under the
      configured policy, over reloads.
    - The HTTP/1 engine delivers the same events however the connection is
      cut into reads, always returns, never changes its mind after a failure,
      bounds what it keeps, accepts one framing per head, and returns the
      content of fixed-length and chunked bodies exactly.
    - The capsule decoder refines an automaton over single octets for every
      fragmentation, inverts the encoders, and bounds what it retains.
    - In every reachable world of a WebTransport session the octets a peer
      can decode from the carrier are those the application wrote, in order;
      reads return what arrived, in order; memory, streams and queues stay
      within their limits; a flush means sent, a shutdown means finished, and
      the writer of a failed session ends in at most three turns.
    - Each Certificate Transparency structure has exactly one encoding; built
      inclusion and consistency proofs verify; a verified proof is right
      unless it exhibits two inputs with the same SHA-256 digest; checkpoints
      are canonical.
    - The counters of admission are what is held and what waits, a lease stays
      within the limits, goes to the first of its lane and passes no older
      caller that could be admitted, no
      wake-up is lost in the generic queues, and reserved capacity stays
      available to its class.
    - The failure circuit keeps its counters and timeouts within the policy,
      opens and closes after the configured runs, and refuses exactly while
      it is open; the transport budget of two overlapping fleets fits the
      process, and the search behind it finds the largest capacity.

    Nine theorems are about behaviour that departs from what the code or its
    documentation is after: two in [WtWitness], three in [CbWitness],
    two in [BandwidthLive] and two in [RouteWitness].

    ** Parameters and hypotheses

    Code outside [src/] is an argument.  [ByteSearch] in [Bytes] is the contract
    of the [memchr] searches, [HttpLib] in [H1Types] that of the [http] and
    [httparse] crates, [Base64] that of the [base64] engine, [Sha256] in
    [CtMerkle] says that a digest has 32 octets (no injectivity is assumed:
    soundness gives a collision instead), [GrantPick] in [WtDriver] leaves
    open which pending grant a hash map yields first.  [HeaderLookup] in
    [Identity] is a header map, [MatchLib] in [RouteMatch] the [regex], [url]
    and [http] crates; whether a certificate parses is an argument of
    [ProxyProto].  Each class has an
    instance on which the witnesses run.  Times and the resources of the
    machine are arguments of the operations that read them.

    ** Bounds and fuel

    Loops that are not structural take fuel, and a theorem says the fuel
    given is enough: five turns for one [decode] of the response engine
    ([decode_total_and_failure_final]), a measure on unread input for the
    capsule decoder ([decoder_refines_automaton]), 65 halvings for the search
    over [usize] ([maximum_auto_waiters_spec]), a turn for every quantum a
    waiter lacks and one more for [dispatch] ([rounds_stuck]), and the length
    of the octets for the TLS assertions of a PROXY header, where no more fuel
    gives another result ([decode_nested_fuel], [decode_tlvs_fuel]).  Integers are [Z] kept within
    the machine type; operators without a [checked_] or [saturating_] prefix
    wrap.

    ** Not modelled

    The WebTransport handshake and the bridges to QUIC, socket and file I/O,
    the runtime that schedules Certificate Transparency logs, TLS, upstream
    pools and discovery, request handling over the HTTP stacks, caching, the
    web application firewall, administration, telemetry, uploads and
    configuration parsing: they are dominated by calls into libraries and the
    operating system, and no theorem here depends on them.  Metrics output,
    timeouts of reads and poisoned locks are left out everywhere. *)

From stdpp Require Export base option list list_numbers numbers gmap strings.
From Stdlib Require Export ZArith Lia Sorted.

#[global] Open Scope Z_scope.

(** ** Fallible results

    Rust's [Result<A, E>], with the [?] operator as monadic bind. *)

Inductive result (E A : Type) : Type :=
  | Ok (a : A)
  | Err (e : E).

Arguments Ok {E A} a.
Arguments Err {E A} e.

#[export] Instance result_ret E : MRet (result E) := λ A a, Ok a.
#[export] Instance result_bind E : MBind (result E) := λ A B f m,
  match m with
  | Ok a => f a
  | Err e => Err e
  end.

(** [Option::ok_or]. *)
Definition ok_or {E A} (o : option A) (e : E) : result E A :=
  match o with
  | Some a => Ok a
  | None => Err e
  end.

(** [Result::map_err]. *)
Definition map_err {E F A} (f : E → F) (r : result E A) : result F A :=
  match r with
  | Ok a => Ok a
  | Err e => Err (f e)
  end.

(** [Option::filter]. *)
Definition filter_opt {A} (p : A → bool) (o : option A) : option A :=
  match o with
  | Some a => if p a then Some a else None
  | None => None
  end.

(** The [std::io::Error] values the modelled code builds, by error kind. *)
Inductive io_error : Type :=
  | InvalidData (message : string)
  | ConnectionAborted (message : string)
  | ConnectionReset (code : Z)
  | BrokenPipe (message : string)
  | UnexpectedEof (message : string)
  | OtherError (message : string).

(** The values of [std::task::Poll]. *)
Inductive poll (A : Type) : Type :=
  | Ready (a : A)
  | Pending.

Arguments Ready {A} a.
Arguments Pending {A}.

(** ** Fallible computations over a mutable state

    A Rust method [fn f(&mut self, ..) -> Result<A, E>] keeps the writes it
    made before it returned an error, so the state is threaded through both
    outcomes. *)

Definition stm (S E A : Type) : Type := S → result E A * S.

#[export] Instance stm_ret S E : MRet (stm S E) := λ A a s, (Ok a, s).
#[export] Instance stm_bind S E : MBind (stm S E) := λ A B f m s,
  match m s with
  | (Ok a, s') => f a s'
  | (Err e, s') => (Err e, s')
  end.

Definition get {S E} : stm S E S := λ s, (Ok s, s).
Definition modify {S E} (f : S → S) : stm S E unit := λ s, (Ok tt, f s).
Definition throw {S E A} (e : E) : stm S E A := λ s, (Err e, s).
Definition lift {S E A} (r : result E A) : stm S E A := λ s, (r, s).

(** [wp m s Q] holds when running [m] from [s] ends in a result and a state
    related by [Q]. *)
Definition wp {S E A} (m : stm S E A) (s : S)
    (Q : result E A → S → Prop) : Prop :=
  Q (m s).1 (m s).2.

Section wp_rules.
Context {S E : Type}.

Lemma wp_bind {A B} (m : stm S E A) (f : A → stm S E B) s Q :
  wp m s (λ r s', match r with
                  | Ok a => wp (f a) s' Q
                  | Err e => Q (Err e) s'
                  end) →
  wp (m ≫= f) s Q.
Proof.
  unfold wp, mbind, stm_bind. destruct (m s) as [[a|e] s'] eqn:?; cbn; auto.
Qed.

Lemma wp_mono {A} (m : stm S E A) s (Q Q' : result E A → S → Prop) :
  wp m s Q → (∀ r s', Q r s' → Q' r s') → wp m s Q'.
Proof. unfold wp. auto. Qed.

Lemma wp_ret {A} (a : A) s (Q : result E A → S → Prop) :
  Q (Ok a) s → wp (mret a) s Q.
Proof. done. Qed.

Lemma wp_throw {A} (e : E) s (Q : result E A → S → Prop) :
  Q (Err e) s → wp (throw e) s Q.
Proof. done. Qed.

Lemma wp_modify f s (Q : result E unit → S → Prop) :
  Q (Ok tt) (f s) → wp (modify f) s Q.
Proof. done. Qed.

Lemma wp_get s (Q : result E S → S → Prop) :
  Q (Ok s) s → wp get s Q.
Proof. done. Qed.

Lemma wp_lift {A} (r : result E A) s (Q : result E A → S → Prop) :
  Q r s → wp (lift r) s Q.
Proof. done. Qed.
End wp_rules.

Create HintDb wpdb.
#[export] Hint Resolve wp_ret wp_throw wp_modify wp_get wp_lift : wpdb.

(** ** Record update

    Assignments to the fields of a Rust struct.  A record type declares its
    eta expansion; the setter of a field is that expansion with the field
    replaced. *)

Class Eta (R : Type) := eta : R → R.
Class Setter {R T : Type} (field : R → T) := over : (T → T) → R → R.
Arguments over {R T} field {_} _ _.

Ltac build_setter :=
  match goal with
  | |- @Setter ?R ?T ?field =>
      let g := fresh "g" in
      let r := fresh "r" in
      refine (λ (g : T → T) (r : R), _);
      let H := constr:(_ : Eta R) in
      let H := eval red in H in
      let e := eval cbv beta in (H r) in
      let p := eval pattern (field r) in e in
      match p with
      | ?f _ => let b := eval cbv beta in (f (g (field r))) in exact b
      end
  end.

#[export] Hint Extern 1 (Setter _) => build_setter : typeclass_instances.

Notation "r <| field := v |>" := (over field (λ _, v) r)
  (at level 1, left associativity, field at next level, v at level 200,
   format "r  <| field  :=  v |>").
Notation "r <| field ::= g |>" := (over field g r)
  (at level 1, left associativity, field at next level, g at level 200,
   format "r  <| field  ::=  g |>").

(** ** Machine integers

    [u64] and, on the 64-bit targets the project builds for, [usize].
    Operators without a [checked_] or [saturating_] prefix wrap around in
    release builds. *)

Definition U32_MAX : Z := 2 ^ 32 - 1.
Definition U64_MAX : Z := 2 ^ 64 - 1.
Definition U128_MAX : Z := 2 ^ 128 - 1.

Definition wrap64 (x : Z) : Z := x mod 2 ^ 64.
Definition add64 (x y : Z) : Z := wrap64 (x + y).
Definition sub64 (x y : Z) : Z := wrap64 (x - y).
Definition mul64 (x y : Z) : Z := wrap64 (x * y).

Definition checked_add64 (x y : Z) : option Z :=
  if x + y <=? U64_MAX then Some (x + y) else None.
Definition checked_mul64 (x y : Z) : option Z :=
  if x * y <=? U64_MAX then Some (x * y) else None.
Definition saturating_add64 (x y : Z) : Z := Z.min (x + y) U64_MAX.
Definition saturating_mul64 (x y : Z) : Z := Z.min (x * y) U64_MAX.
Definition saturating_sub64 (x y : Z) : Z := Z.max (x - y) 0.
Definition saturating_add128 (x y : Z) : Z := Z.min (x + y) U128_MAX.
Definition saturating_mul128 (x y : Z) : Z := Z.min (x * y) U128_MAX.

Definition is_u64 (x : Z) : Prop := 0 ≤ x ≤ U64_MAX.
Definition is_u32 (x : Z) : Prop := 0 ≤ x ≤ U32_MAX.

Lemma U64_MAX_val : U64_MAX = 18446744073709551615.
Proof. reflexivity. Qed.
Lemma U32_MAX_val : U32_MAX = 4294967295.
Proof. reflexivity. Qed.

Lemma wrap64_small x : 0 ≤ x ≤ U64_MAX → wrap64 x = x.
Proof. intros. apply Z.mod_small. rewrite U64_MAX_val in H. lia. Qed.

Lemma wrap64_range x : 0 ≤ wrap64 x ≤ U64_MAX.
Proof.
  unfold wrap64. pose proof (Z.mod_pos_bound x (2 ^ 64)).
  rewrite U64_MAX_val. lia.
Qed.

Lemma add64_small x y : 0 ≤ x + y ≤ U64_MAX → add64 x y = x + y.
Proof. apply wrap64_small. Qed.

Lemma sub64_small x y : 0 ≤ x - y ≤ U64_MAX → sub64 x y = x - y.
Proof. apply wrap64_small. Qed.

Lemma checked_add64_Some x y z :
  checked_add64 x y = Some z ↔ z = x + y ∧ x + y ≤ U64_MAX.
Proof.
  unfold checked_add64. destruct (Z.leb_spec (x + y) U64_MAX); split; intros Hs;
    simplify_eq; try (split; lia); destruct Hs; (congruence || lia).
Qed.

Lemma checked_add64_small x y : x + y ≤ U64_MAX → checked_add64 x y = Some (x + y).
Proof. intros. unfold checked_add64. by rewrite (proj2 (Z.leb_le _ _)). Qed.

(** [x.checked_add(y).filter(|v| v <= max)] *)
Lemma filter_checked_add64 max x y z :
  filter_opt (λ v, v <=? max) (checked_add64 x y) = Some z →
  z = x + y ∧ z ≤ max ∧ z ≤ U64_MAX.
Proof.
  destruct (checked_add64 x y) as [v|] eqn:Hv; cbn; [|done].
  apply checked_add64_Some in Hv as [-> ?]. destruct (Z.leb_spec (x + y) max); [|done].
  intros. simplify_eq. lia.
Qed.

Lemma checked_mul64_small x y : x * y ≤ U64_MAX → checked_mul64 x y = Some (x * y).
Proof. intros. unfold checked_mul64. by rewrite (proj2 (Z.leb_le _ _)). Qed.

(** Linear arithmetic with division and remainder by constants. *)
Ltac div_lia := Z.to_euclidean_division_equations; lia.

(** ** Sequences *)

(** [len] of a slice, [Vec], [VecDeque], [Bytes] or [BytesMut]. *)
Definition len {A} (l : list A) : Z := Z.of_nat (length l).

Definition is_empty {A} (l : list A) : bool :=
  match l with
  | [] => true
  | _ :: _ => false
  end.

Definition is_some {A} (o : option A) : bool :=
  match o with
  | Some _ => true
  | None => false
  end.

(** The pieces before and from position [n]. *)
Definition takeZ {A} (n : Z) (l : list A) : list A := take (Z.to_nat n) l.
Definition dropZ {A} (n : Z) (l : list A) : list A := drop (Z.to_nat n) l.

Section sequences.
Context {A : Type}.
Implicit Types l k : list A.

Lemma len_nil : len (@nil A) = 0.
Proof. done. Qed.
Lemma len_cons x l : len (x :: l) = 1 + len l.
Proof. unfold len. cbn [length]. lia. Qed.
Lemma len_app l k : len (l ++ k) = len l + len k.
Proof. unfold len. rewrite length_app. lia. Qed.
Lemma len_nonneg l : 0 ≤ len l.
Proof. unfold len. lia. Qed.
Lemma len_takeZ n l : 0 ≤ n ≤ len l → len (takeZ n l) = n.
Proof. unfold len, takeZ. intros. rewrite length_take. lia. Qed.
Lemma len_takeZ_min n l : 0 ≤ n → len (takeZ n l) = Z.min n (len l).
Proof. unfold len, takeZ. intros. rewrite length_take. lia. Qed.
Lemma len_dropZ n l : 0 ≤ n ≤ len l → len (dropZ n l) = len l - n.
Proof. unfold len, dropZ. intros. rewrite length_drop. lia. Qed.
Lemma takeZ_dropZ n l : takeZ n l ++ dropZ n l = l.
Proof. apply take_drop. Qed.
Lemma takeZ_app_len l k : takeZ (len l) (l ++ k) = l.
Proof.
  unfold takeZ, len. rewrite Nat2Z.id. apply take_app_length.
Qed.
Lemma dropZ_app_len l k : dropZ (len l) (l ++ k) = k.
Proof.
  unfold dropZ, len. rewrite Nat2Z.id. apply drop_app_length.
Qed.
Lemma takeZ_all n l : len l ≤ n → takeZ n l = l.
Proof. unfold takeZ, len. intros. apply take_ge. lia. Qed.
Lemma dropZ_all n l : len l ≤ n → dropZ n l = [].
Proof. unfold dropZ, len. intros. apply drop_ge. lia. Qed.
Lemma takeZ_app_le n l k : n ≤ len l → takeZ n (l ++ k) = takeZ n l.
Proof. unfold takeZ, len. intros. apply take_app_le. lia. Qed.
Lemma dropZ_app_le n l k : n ≤ len l → dropZ n (l ++ k) = dropZ n l ++ k.
Proof. unfold dropZ, len. intros. apply drop_app_le. lia. Qed.
Lemma len_zero_inv l : len l = 0 → l = [].
Proof. destruct l; [done|]. rewrite len_cons. pose proof (len_nonneg l). lia. Qed.
Lemma is_empty_true l : is_empty l = true ↔ l = [].
Proof. destruct l; naive_solver. Qed.
Lemma is_empty_false l : is_empty l = false ↔ 0 < len l.
Proof.
  destruct l as [|x l]; cbn; [rewrite len_nil; naive_solver lia|].
  rewrite len_cons. pose proof (len_nonneg l). naive_solver lia.
Qed.
End sequences.

Create Rewrite HintDb len.
#[export] Hint Rewrite @len_nil @len_cons @len_app : len.
Ltac len_simpl := autorewrite with len in *.

Lemma is_some_true {A} (o : option A) : is_some o = true ↔ is_Some o.
Proof. destruct o; naive_solver. Qed.
Lemma is_some_false {A} (o : option A) : is_some o = false ↔ o = None.
Proof. destruct o; naive_solver. Qed.

(** ** Sorting *)

Section sort.
Context {A : Type} (cmp : A → A → comparison).

(** After the elements that are not greater. *)
Fixpoint insert_by (x : A) (l : list A) : list A :=
  match l with
  | [] => [x]
  | y :: l =>
      match cmp y x with
      | Gt => x :: y :: l
      | _ => y :: insert_by x l
      end
  end.

(** [sort_by], which is stable. *)
Definition sort_by (l : list A) : list A := foldl (λ sorted x, insert_by x sorted) [] l.

Lemma insert_by_perm x l : insert_by x l ≡ₚ x :: l.
Proof. induction l as [|y l IH]; cbn; [done|]. case_match; rewrite ?IH; [apply perm_swap..|done]. Qed.

Lemma sort_by_perm l : sort_by l ≡ₚ l.
Proof.
  unfold sort_by. rewrite <-(app_nil_l l) at 2. generalize (@nil A).
  induction l as [|x l IH]; intros acc; cbn; [by rewrite app_nil_r|].
  rewrite IH, insert_by_perm. apply Permutation_middle.
Qed.

Lemma sort_by_sorted (R : A → A → Prop) l : Transitive R →
  (∀ x y, cmp y x = Gt → R x y) → (∀ x y, cmp y x ≠ Gt → R y x) → StronglySorted R (sort_by l).
Proof.
  intros HR Hgt Hle. assert (∀ x k, StronglySorted R k → StronglySorted R (insert_by x k)) as Hins.
  { intros x k. induction 1 as [|y k Hk IH Hy]; cbn; [by repeat constructor|]. destruct (cmp y x) eqn:Hc.
    3:{ apply Hgt in Hc. constructor; [by constructor|]. constructor; [done|]. eapply Forall_impl; [done|]. intros z. by etrans. }
    all: constructor; [done|]; rewrite insert_by_perm; constructor; [apply Hle; congruence|done]. }
  unfold sort_by. assert (StronglySorted R []) as Hnil by constructor. revert Hnil. generalize (@nil A).
  induction l as [|x l IH]; intros acc Hacc; cbn; [done|]. by apply IH, Hins.
Qed.
End sort.

(** ** Leading elements *)

Fixpoint drop_while {A} (p : A → bool) (l : list A) : list A :=
  match l with
  | [] => []
  | x :: k => if p x then drop_while p k else l
  end.

(** Without the elements that satisfy [p] at either end. *)
Definition trim_end_list {A} (p : A → bool) (l : list A) : list A := reverse (drop_while p (reverse l)).
Definition trim_list {A} (p : A → bool) (l : list A) : list A := trim_end_list p (drop_while p l).
