(* ===== verification/Bytes.v ===== *)
(** * Octets, big-endian integers and UTF-8

    What the wire codecs use of the Rust standard library and of the [bytes]
    crate's big-endian accessors: octet strings as lists of integers in
    [0, 255], [put_u16]/[put_u32]/[put_u64]/[get_u32], [str::from_utf8] and
    [str::is_char_boundary]; and the contract of the [memchr] searches. *)

From S2P Require Import Prelude.

Abbreviation bytes := (list Z).

Definition is_byte (b : Z) : Prop := 0 ≤ b < 256.

#[export] Instance is_byte_dec b : Decision (is_byte b).
Proof. unfold is_byte. apply _. Defined.

(** ** Big-endian integers *)

(** The low [8 * n] bits of [v], most significant octet first. *)
Fixpoint be_bytes (n : nat) (v : Z) : bytes :=
  match n with
  | O => []
  | S k => Z.land (Z.shiftr v (8 * Z.of_nat k)) 255 :: be_bytes k v
  end.

(** Folding octets into an accumulator with [(acc << 8) | byte]. *)
Definition be_fold (acc : Z) (l : bytes) : Z :=
  foldl (λ acc b, Z.lor (Z.shiftl acc 8) b) acc l.

Lemma land_255 x : Z.land x 255 = x mod 256.
Proof. change 255 with (Z.ones 8). by rewrite Z.land_ones by lia. Qed.

(** An octet or'ed below a shifted accumulator is an addition. *)
Lemma lor_shiftl_add a b n :
  0 ≤ n → 0 ≤ b < 2 ^ n → Z.lor (Z.shiftl a n) b = a * 2 ^ n + b.
Proof.
  intros Hn Hb. rewrite Z.shiftl_mul_pow2 by done.
  symmetry. apply Z.add_nocarry_lor.
  apply Z.bits_inj'. intros i Hi. rewrite Z.land_spec, Z.bits_0.
  destruct (Z.lt_ge_cases i n).
  - rewrite Z.mul_pow2_bits_low by done. done.
  - destruct (decide (b = 0)) as [->|]; [by rewrite Z.bits_0, andb_false_r|].
    rewrite (Z.bits_above_log2 b i); [apply andb_false_r|lia|].
    apply Z.log2_lt_pow2; [lia|]. eapply Z.lt_le_trans; [apply Hb|].
    apply Z.pow_le_mono_r; lia.
Qed.

Lemma be_bytes_length n v : length (be_bytes n v) = n.
Proof. induction n; cbn; congruence. Qed.

Lemma be_bytes_is_byte n v : Forall is_byte (be_bytes n v).
Proof.
  induction n; cbn; constructor; [|done].
  rewrite land_255. red. apply Z.mod_pos_bound. lia.
Qed.

Lemma be_fold_app acc l k : be_fold acc (l ++ k) = be_fold (be_fold acc l) k.
Proof. apply foldl_app. Qed.

(** Reading back what was written, below an accumulator. *)
Lemma be_fold_be_bytes n acc v :
  be_fold acc (be_bytes n v)
  = acc * 2 ^ (8 * Z.of_nat n) + v mod 2 ^ (8 * Z.of_nat n).
Proof.
  revert acc. induction n as [|n IH]; intros acc.
  { cbn. rewrite Z.mod_1_r. lia. }
  cbn [be_bytes be_fold foldl]. fold (be_fold (Z.lor (Z.shiftl acc 8)
    (Z.land (Z.shiftr v (8 * Z.of_nat n)) 255)) (be_bytes n v)).
  rewrite IH, land_255.
  rewrite lor_shiftl_add by (lia || (apply Z.mod_pos_bound; lia)).
  rewrite Z.shiftr_div_pow2 by lia.
  replace (8 * Z.of_nat (S n)) with (8 * Z.of_nat n + 8) by lia.
  rewrite Z.pow_add_r by lia.
  set (m := 2 ^ (8 * Z.of_nat n)). assert (0 < m) by (apply Z.pow_pos_nonneg; lia).
  rewrite (Z.rem_mul_r v m (2 ^ 8)) by lia. change (2 ^ 8) with 256. lia.
Qed.

Lemma be_fold_bound l acc :
  Forall is_byte l → 0 ≤ acc →
  0 ≤ be_fold acc l < (acc + 1) * 2 ^ (8 * len l).
Proof.
  intros Hl. revert acc. induction Hl as [|b l Hb Hl IH]; intros acc Hacc.
  { change (2 ^ (8 * len [])) with 1. cbn [be_fold foldl]. lia. }
  cbn [be_fold foldl]. fold (be_fold (Z.lor (Z.shiftl acc 8) b) l).
  rewrite lor_shiftl_add by (lia || done).
  change (2 ^ 8) with 256. red in Hb.
  specialize (IH (acc * 256 + b) ltac:(lia)). split; [lia|].
  rewrite len_cons. replace (8 * (1 + len l)) with (8 + 8 * len l) by lia.
  pose proof (len_nonneg l). rewrite Z.pow_add_r by lia. change (2 ^ 8) with 256.
  assert (0 < 2 ^ (8 * len l)) by (apply Z.pow_pos_nonneg; lia). nia.
Qed.

Lemma be_fold_split l : ∀ acc,
  Forall is_byte l → 0 ≤ acc → be_fold acc l = acc * 2 ^ (8 * len l) + be_fold 0 l.
Proof.
  induction l as [|b l IH]; intros acc Hl Hacc.
  { change (2 ^ (8 * len (@nil Z))) with 1. cbn. lia. }
  apply Forall_cons in Hl as [Hb Hl]. red in Hb.
  change (be_fold acc (b :: l)) with (be_fold (Z.lor (Z.shiftl acc 8) b) l).
  change (be_fold 0 (b :: l)) with (be_fold b l).
  rewrite lor_shiftl_add by lia. rewrite IH, (IH b) by (done || lia).
  rewrite len_cons. replace (8 * (1 + len l)) with (8 + 8 * len l) by lia.
  pose proof (len_nonneg l). rewrite (Z.pow_add_r 2 8) by lia. change (2 ^ 8) with 256. ring.
Qed.

Lemma be_bytes_be_fold l : ∀ acc,
  Forall is_byte l → 0 ≤ acc → be_bytes (length l) (be_fold acc l) = l.
Proof.
  induction l as [|b l IH]; intros acc Hl Hacc; [done|].
  apply Forall_cons in Hl as [Hb Hl]. red in Hb.
  change (be_fold acc (b :: l)) with (be_fold (Z.lor (Z.shiftl acc 8) b) l).
  rewrite lor_shiftl_add by lia. change (2 ^ 8) with 256.
  cbn [length be_bytes]. f_equal; [|by apply IH; [|lia]].
  rewrite land_255, Z.shiftr_div_pow2 by lia. fold (len l). rewrite be_fold_split by (done || lia).
  pose proof (be_fold_bound l 0 Hl ltac:(lia)) as Hbound.
  assert (0 < 2 ^ (8 * len l)) by (apply Z.pow_pos_nonneg; [lia|pose proof (len_nonneg l); lia]).
  rewrite Z.div_add_l, (Z.div_small (be_fold 0 l)) by lia. rewrite Z.add_0_r, Z.add_comm, Z_mod_plus_full.
  apply Z.mod_small. lia.
Qed.

(** ** UTF-8 *)

Definition in_range (lo hi b : Z) : bool := (lo <=? b) && (b <=? hi).
Definition is_cont (b : Z) : bool := in_range 0x80 0xBF b.

(** The admissible second octets of three- and four-octet sequences. *)
Definition utf8_lead3 (b0 b1 : Z) : bool :=
  (b0 =? 0xE0) && in_range 0xA0 0xBF b1
  || in_range 0xE1 0xEC b0 && is_cont b1
  || (b0 =? 0xED) && in_range 0x80 0x9F b1
  || in_range 0xEE 0xEF b0 && is_cont b1.

Definition utf8_lead4 (b0 b1 : Z) : bool :=
  (b0 =? 0xF0) && in_range 0x90 0xBF b1
  || in_range 0xF1 0xF3 b0 && is_cont b1
  || (b0 =? 0xF4) && in_range 0x80 0x8F b1.

(** [str::from_utf8(l).is_ok()]. *)
Fixpoint utf8_valid (l : bytes) : bool :=
  match l with
  | [] => true
  | b0 :: l1 =>
      if b0 <? 128 then utf8_valid l1
      else
        match l1 with
        | [] => false
        | b1 :: l2 =>
            if in_range 0xC2 0xDF b0 then is_cont b1 && utf8_valid l2
            else
              match l2 with
              | [] => false
              | b2 :: l3 =>
                  if utf8_lead3 b0 b1 then is_cont b2 && utf8_valid l3
                  else
                    match l3 with
                    | [] => false
                    | b3 :: l4 =>
                        utf8_lead4 b0 b1 && is_cont b2 && is_cont b3
                          && utf8_valid l4
                    end
              end
        end
  end.

(** [str::is_char_boundary]. *)
Definition is_char_boundary (l : bytes) (index : nat) : bool :=
  match index with
  | O => true
  | _ =>
      match l !! index with
      | None => Nat.eqb index (length l)
      | Some b => negb (is_cont b)
      end
  end.

Section utf8.
(** Induction over the characters of a valid string. *)
Lemma utf8_ind (P : bytes → Prop) :
  P [] →
  (∀ w l, (0 < length w)%nat →
     (∀ i b, (0 < i < length w)%nat → w !! i = Some b → is_cont b = true) →
     (∀ k, utf8_valid (w ++ k) = utf8_valid k) →
     utf8_valid l = true → P l → P (w ++ l)) →
  ∀ l, utf8_valid l = true → P l.
Proof.
  intros Hnil Hch l. remember (length l) as n eqn:Hn.
  revert l Hn. induction n as [n IH] using lt_wf_ind. intros l -> Hl.
  assert (Hstep : ∀ w k, l = w ++ k → (0 < length w)%nat →
    (∀ i b, (0 < i < length w)%nat → w !! i = Some b → is_cont b = true) →
    (∀ k, utf8_valid (w ++ k) = utf8_valid k) → P l).
  { intros w k -> Hw Hc Hv. rewrite Hv in Hl.
    apply Hch; auto. eapply (IH (length k)); auto. rewrite length_app. lia. }
  destruct l as [|b0 l1]; [done|]. cbn in Hl.
  destruct (b0 <? 128) eqn:E0.
  { apply (Hstep [b0] l1); cbn; try lia; try done.
    intros k. by rewrite E0. }
  destruct l1 as [|b1 l2]; [done|].
  destruct (in_range 0xC2 0xDF b0) eqn:E1.
  { apply andb_prop in Hl as [Hc _]. apply (Hstep [b0; b1] l2); cbn; try lia; try done.
    - intros [|[|i]] b Hi Hb; cbn in *; try lia. by simplify_eq.
    - intros k. by rewrite E0, E1, Hc. }
  destruct l2 as [|b2 l3]; [done|].
  destruct (utf8_lead3 b0 b1) eqn:E2.
  { apply andb_prop in Hl as [Hc _].
    assert (is_cont b1 = true).
    { unfold utf8_lead3, is_cont, in_range in *. lia. }
    apply (Hstep [b0; b1; b2] l3); cbn; try lia; try done.
    - intros [|[|[|i]]] b Hi Hb; cbn in *; try lia; by simplify_eq.
    - intros k. by rewrite E0, E1, E2, Hc. }
  destruct l3 as [|b3 l4]; [done|].
  rewrite !andb_true_iff in Hl. destruct Hl as [[[H4 Hc2] Hc3] _].
  assert (is_cont b1 = true).
  { unfold utf8_lead4, is_cont, in_range in *. lia. }
  apply (Hstep [b0; b1; b2; b3] l4); cbn; try lia; try done.
  - intros [|[|[|[|i]]]] b Hi Hb; cbn in *; try lia; by simplify_eq.
  - intros k. by rewrite E0, E1, E2, H4, Hc2, Hc3.
Qed.

(** Cutting a valid string at a character boundary keeps it valid. *)
Lemma utf8_take_boundary l :
  utf8_valid l = true →
  ∀ e, is_char_boundary l e = true → utf8_valid (take e l) = true.
Proof.
  revert l. apply (utf8_ind (λ l, ∀ e, _ → _)).
  { intros e _. by rewrite take_nil. }
  intros w l Hw Hc Hv Hl IH e He.
  destruct e as [|e]; [done|].
  destruct (decide (S e < length w)%nat) as [Hlt|Hge].
  - exfalso. unfold is_char_boundary in He. rewrite lookup_app_l in He by done.
    destruct (lookup_lt_is_Some_2 w (S e) Hlt) as [b Hb]. rewrite Hb in He.
    rewrite (Hc (S e) b) in He; [done|lia|done].
  - rewrite take_app_ge by lia. rewrite Hv. apply IH.
    unfold is_char_boundary in He. rewrite lookup_app_r in He by lia.
    unfold is_char_boundary. destruct (S e - length w)%nat eqn:E; [done|].
    destruct (l !! S n); [done|]. rewrite length_app in He.
    apply Nat.eqb_eq. apply Nat.eqb_eq in He. lia.
Qed.
End utf8.

(** ** Searching octet strings

    The [memchr] crate's searches the HTTP parsers use.  The crate is a
    parameter; what the parsers rely on is its documented contract, that a
    search returns the index of the first match. *)

(** The least index whose element satisfies [p]. *)
Fixpoint first_index (p : Z → bool) (l : bytes) : option Z :=
  match l with
  | [] => None
  | b :: l => if p b then Some 0 else Z.succ <$> first_index p l
  end.

Fixpoint starts_with (needle l : bytes) : bool :=
  match needle, l with
  | [], _ => true
  | n :: needle, b :: l => (n =? b) && starts_with needle l
  | _ :: _, [] => false
  end.

(** The least index at which [needle] occurs. *)
Fixpoint first_occurrence (needle l : bytes) : option Z :=
  if starts_with needle l then Some 0
  else
    match l with
    | [] => None
    | _ :: l => Z.succ <$> first_occurrence needle l
    end.

Class ByteSearch := {
  memchr : Z → bytes → option Z;
  memchr2 : Z → Z → bytes → option Z;
  memmem_find : bytes → bytes → option Z;
  memchr_first b l : memchr b l = first_index (Z.eqb b) l;
  memchr2_first b c l : memchr2 b c l = first_index (λ x, (b =? x) || (c =? x)) l;
  memmem_find_first l needle : memmem_find l needle = first_occurrence needle l;
}.

Definition naive_search : ByteSearch := {|
  memchr b := first_index (Z.eqb b);
  memchr2 b c := first_index (λ x, (b =? x) || (c =? x));
  memmem_find l needle := first_occurrence needle l;
  memchr_first _ _ := eq_refl;
  memchr2_first _ _ _ := eq_refl;
  memmem_find_first _ _ := eq_refl;
|}.

(** ** What a search result says *)

Lemma first_index_split p l i : first_index p l = Some i →
  ∃ a b k, l = a ++ b :: k ∧ len a = i ∧ p b = true ∧ Forall (λ x, p x = false) a.
Proof.
  revert i. induction l as [|b l IH]; intros i; cbn [first_index]; [done|]. destruct (p b) eqn:Hb.
  - intros [= <-]. by exists [], b, l.
  - destruct (first_index p l) as [j|]; [|done]. intros [= <-]. destruct (IH j eq_refl) as (a & x & k & -> & <- & Hx & Ha).
    exists (b :: a), x, k. split_and!; [done| |done|by constructor]. rewrite len_cons. lia.
Qed.

Lemma first_index_none p l : first_index p l = None → Forall (λ x, p x = false) l.
Proof.
  induction l as [|b l IH]; cbn [first_index]; [constructor|]. destruct (p b) eqn:Hb; [done|].
  destruct (first_index p l); [done|]. intros _. constructor; [done|by apply IH].
Qed.

Lemma first_index_bound p l i : first_index p l = Some i → 0 ≤ i < len l.
Proof.
  revert i. induction l as [|b l IH]; intros i; cbn [first_index]; [done|].
  rewrite len_cons. pose proof (len_nonneg l). destruct (p b); [intros; simplify_eq; lia|].
  destruct (first_index p l) as [j|]; cbn; [|done]. intros ?; simplify_eq.
  specialize (IH j eq_refl). lia.
Qed.

Lemma starts_with_spec needle l :
  starts_with needle l = true ↔ ∃ k, l = needle ++ k.
Proof.
  revert l. induction needle as [|n needle IH]; intros l; cbn [starts_with].
  { split; [|done]. by exists l. }
  destruct l as [|b l]; [split; [done|by intros [k ?]]|]. rewrite andb_true_iff, Z.eqb_eq, IH.
  split; [intros [-> [k ->]]; by exists k|]. intros [k Hk]. injection Hk as -> ->. split; [done|]. by exists k.
Qed.

Lemma starts_with_app needle l k :
  starts_with needle l = true → starts_with needle (l ++ k) = true.
Proof. rewrite !starts_with_spec. intros [k' ->]. exists (k' ++ k). by rewrite app_assoc. Qed.

Lemma starts_with_app_inv needle l k :
  starts_with needle (l ++ k) = true → len needle ≤ len l → starts_with needle l = true.
Proof.
  revert l. induction needle as [|n needle IH]; intros [|b l]; cbn [starts_with app]; try done.
  rewrite !len_cons, !andb_true_iff. intros [? ?] ?. split; [done|]. apply IH; [done|lia].
Qed.

Lemma first_occurrence_bound needle l i :
  first_occurrence needle l = Some i → 0 ≤ i ∧ i + len needle ≤ len l.
Proof.
  revert i. induction l as [|b l IH]; intros i; cbn [first_occurrence].
  - destruct needle; cbn; [|done]. intros; simplify_eq. done.
  - destruct (starts_with needle (b :: l)) eqn:Hs.
    + intros; simplify_eq. apply starts_with_spec in Hs as [k ->]. rewrite len_app.
      pose proof (len_nonneg k). lia.
    + destruct (first_occurrence needle l) as [j|]; cbn; [|done]. intros; simplify_eq.
      rewrite len_cons. specialize (IH j eq_refl). lia.
Qed.

(** A match found in a prefix is the match of the whole. *)
Lemma first_occurrence_app needle l k i :
  first_occurrence needle l = Some i → first_occurrence needle (l ++ k) = Some i.
Proof.
  revert i. induction l as [|b l IH]; intros i; cbn [first_occurrence].
  - destruct needle; [|done]. intros; simplify_eq. by destruct k.
  - destruct (starts_with needle (b :: l)) eqn:Hs.
    + intros; simplify_eq. cbn [app first_occurrence].
      apply (starts_with_app needle (b :: l) k) in Hs. cbn [app] in Hs. by rewrite Hs.
    + destruct (first_occurrence needle l) as [j|] eqn:Hj; cbn; [|done]. intros; simplify_eq.
      cbn [app first_occurrence]. destruct (starts_with needle (b :: l ++ k)) eqn:Hs'.
      * pose proof (first_occurrence_bound _ _ _ Hj) as [? ?].
        apply (starts_with_app_inv needle (b :: l) k) in Hs'; [congruence|].
        rewrite len_cons. lia.
      * by rewrite (IH j eq_refl).
Qed.

(** A match of the whole that ends within a prefix is found there. *)
Lemma first_occurrence_app_inv needle l k i :
  first_occurrence needle (l ++ k) = Some i → i + len needle ≤ len l →
  first_occurrence needle l = Some i.
Proof.
  revert i. induction l as [|b l IH]; intros i.
  - intros Hf Hl. pose proof (first_occurrence_bound _ _ _ Hf) as [? _].
    rewrite len_nil in Hl. pose proof (len_nonneg needle).
    assert (len needle = 0) as Hn by lia. apply len_zero_inv in Hn as ->.
    cbn. f_equal. lia.
  - cbn [app first_occurrence]. destruct (starts_with needle (b :: l ++ k)) eqn:Hs.
    + intros ? Hl. simplify_eq. apply (starts_with_app_inv needle (b :: l) k) in Hs; [|lia].
      by rewrite Hs.
    + destruct (first_occurrence needle (l ++ k)) as [j|] eqn:Hj; cbn; [|done].
      intros ? Hl. simplify_eq. rewrite len_cons in Hl.
      rewrite (IH j eq_refl) by lia.
      destruct (starts_with needle (b :: l)) eqn:Hs'; [|done].
      apply (starts_with_app needle (b :: l) k) in Hs'. cbn [app] in Hs'. congruence.
Qed.

(** Skipping a stretch in which no match starts. *)
Lemma first_occurrence_drop needle l n :
  0 ≤ n ≤ len l →
  (∀ i, first_occurrence needle l = Some i → n ≤ i) →
  first_occurrence needle l = (λ i, n + i) <$> first_occurrence needle (dropZ n l).
Proof.
  intros Hn. rewrite <- (Z2Nat.id n) in * by lia. generalize dependent (Z.to_nat n). clear n.
  intros n. revert l. induction n as [|n IH]; intros l Hn Hmin.
  - unfold dropZ. rewrite Nat2Z.id, drop_0.
    destruct (first_occurrence needle l); cbn; [f_equal; lia|done].
  - destruct l as [|b l]; [unfold len in Hn; cbn in Hn; lia|].
    unfold dropZ. rewrite Nat2Z.id. cbn [drop]. rewrite len_cons in Hn.
    specialize (IH l). unfold dropZ in IH. rewrite Nat2Z.id in IH.
    cbn [first_occurrence] in *. destruct (starts_with needle (b :: l)).
    { specialize (Hmin 0 eq_refl). lia. }
    rewrite IH; [|lia|].
    + destruct (first_occurrence needle (drop n l)); cbn; [f_equal; lia|done].
    + intros i Hi. specialize (Hmin (Z.succ i)). rewrite Hi in Hmin. specialize (Hmin eq_refl). lia.
Qed.
