(* ===== verification/Text.v ===== *)
(** * Rust strings

    What the parsers use of [str]: a string is the list of its UTF-8 octets;
    searching, splitting and trimming at ASCII separators, its characters,
    and decimal numbers ([to_string], zero padding, [parse]). *)

From S2P Require Import Prelude Bytes.
From Stdlib Require Ascii String.

(** The octets of an ASCII literal. *)
Definition ascii (s : string) : bytes :=
  map (λ c, Z.of_N (Ascii.N_of_ascii c)) (String.list_ascii_of_string s).

Definition is_ascii_digit (b : Z) : bool := in_range 48 57 b.

(** ** Splitting *)

(** [slice.split(|byte| *byte == sep)], and [str.split(sep)] for an ASCII
    separator. *)
Fixpoint split_on (sep : Z) (l : bytes) : list bytes :=
  match l with
  | [] => [[]]
  | b :: l =>
      if b =? sep then [] :: split_on sep l
      else
        match split_on sep l with
        | [] => [[b]]
        | part :: parts => (b :: part) :: parts
        end
  end.

(** [parts.join(sep)] *)
Fixpoint join_with (sep : Z) (parts : list bytes) : bytes :=
  match parts with
  | [] => []
  | [part] => part
  | part :: parts => part ++ sep :: join_with sep parts
  end.

(** [str.split_once(sep)] *)
Definition split_once (sep : Z) (l : bytes) : option (bytes * bytes) :=
  i ← first_index (Z.eqb sep) l;
  Some (takeZ i l, dropZ (i + 1) l).

(** [str.rsplit_once(sep)] *)
Definition rsplit_once (sep : Z) (l : bytes) : option (bytes * bytes) :=
  '(back, front) ← split_once sep (reverse l);
  Some (reverse front, reverse back).

Definition ends_with (suffix l : bytes) : bool := starts_with (reverse suffix) (reverse l).

Definition strip_prefix (prefix l : bytes) : option bytes :=
  if starts_with prefix l then Some (dropZ (len prefix) l) else None.
Definition strip_suffix (suffix l : bytes) : option bytes :=
  if ends_with suffix l then Some (takeZ (len l - len suffix) l) else None.

(** [str.rfind(needle)] *)
Fixpoint last_occurrence (needle l : bytes) : option Z :=
  match l with
  | [] => if starts_with needle [] then Some 0 else None
  | _ :: k =>
      match last_occurrence needle k with
      | Some i => Some (i + 1)
      | None => if starts_with needle l then Some 0 else None
      end
  end.

(** [str.lines()]: a line ends with a newline, of which [\r\n] is one; the
    octets after the last newline are a line when there are any. *)
Definition strip_return (line : bytes) : bytes := default line (strip_suffix [13] line).

Fixpoint lines_of (parts : list bytes) : list bytes :=
  match parts with
  | [] => []
  | [part] => if is_empty part then [] else [part]
  | part :: parts => strip_return part :: lines_of parts
  end.

Definition lines (l : bytes) : list bytes := lines_of (split_on 10 l).

(** ** Characters *)

(** [str.chars()] of a valid string. *)
Fixpoint utf8_chars (l : bytes) : list Z :=
  match l with
  | [] => []
  | b0 :: l1 =>
      if b0 <? 0x80 then b0 :: utf8_chars l1
      else
        match l1 with
        | [] => []
        | b1 :: l2 =>
            if b0 <? 0xE0
            then Z.lor (Z.shiftl (Z.land b0 0x1F) 6) (Z.land b1 0x3F) :: utf8_chars l2
            else
              match l2 with
              | [] => []
              | b2 :: l3 =>
                  let low := Z.lor (Z.shiftl (Z.land b1 0x3F) 6) (Z.land b2 0x3F) in
                  if b0 <? 0xF0
                  then Z.lor (Z.shiftl (Z.land b0 0x0F) 12) low :: utf8_chars l3
                  else
                    match l3 with
                    | [] => []
                    | b3 :: l4 =>
                        Z.lor (Z.shiftl (Z.land b0 0x07) 18)
                          (Z.lor (Z.shiftl low 6) (Z.land b3 0x3F)) :: utf8_chars l4
                    end
              end
        end
  end.

(** [char::is_control]: the general category Cc. *)
Definition is_control (c : Z) : bool := in_range 0x00 0x1F c || in_range 0x7F 0x9F c.

(** [char::is_whitespace]: the property White_Space. *)
Definition is_whitespace (c : Z) : bool :=
  in_range 0x09 0x0D c || (c =? 0x20) || (c =? 0x85) || (c =? 0xA0) || (c =? 0x1680)
  || in_range 0x2000 0x200A c || in_range 0x2028 0x2029 c || (c =? 0x202F) || (c =? 0x205F)
  || (c =? 0x3000).

(** The octets of each character. *)
Fixpoint utf8_chunks (l : bytes) : list bytes :=
  match l with
  | [] => []
  | b0 :: l1 =>
      if b0 <? 0x80 then [b0] :: utf8_chunks l1
      else
        match l1 with
        | [] => [l]
        | b1 :: l2 =>
            if b0 <? 0xE0 then [b0; b1] :: utf8_chunks l2
            else
              match l2 with
              | [] => [l]
              | b2 :: l3 =>
                  if b0 <? 0xF0 then [b0; b1; b2] :: utf8_chunks l3
                  else
                    match l3 with
                    | [] => [l]
                    | b3 :: l4 => [b0; b1; b2; b3] :: utf8_chunks l4
                    end
              end
        end
  end.

(** [str.trim()] *)
Definition whitespace_chunk (w : bytes) : bool := forallb is_whitespace (utf8_chars w).
Definition trim (l : bytes) : bytes := concat (trim_list whitespace_chunk (utf8_chunks l)).

(** [str.split_whitespace()] *)
Fixpoint split_chunks (part : bytes) (chunks : list bytes) : list bytes :=
  match chunks with
  | [] => if is_empty part then [] else [part]
  | c :: chunks =>
      if whitespace_chunk c then if is_empty part then split_chunks [] chunks else part :: split_chunks [] chunks
      else split_chunks (part ++ c) chunks
  end.
Definition split_whitespace (l : bytes) : list bytes := split_chunks [] (utf8_chunks l).

(** [str.trim_matches(c)] and [str.trim_end_matches(c)] for an ASCII [c]. *)
Definition trim_matches (c : Z) (l : bytes) : bytes := trim_list (Z.eqb c) l.
Definition trim_end_matches (c : Z) (l : bytes) : bytes := trim_end_list (Z.eqb c) l.

(** [u8::to_ascii_lowercase] and [str.eq_ignore_ascii_case]. *)
Definition to_ascii_lowercase (b : Z) : Z := if in_range 65 90 b then b + 32 else b.
Definition eq_ignore_ascii_case (l k : bytes) : bool :=
  bool_decide (map to_ascii_lowercase l = map to_ascii_lowercase k).

(** [str.contains] of a character and of a string. *)
Definition contains_char (c : Z) (l : bytes) : bool := existsb (Z.eqb c) l.
Definition contains_str (needle l : bytes) : bool := is_some (first_occurrence needle l).

(** ** Decimal numbers *)

(** [to_string] of an unsigned integer; a [u64] has at most 20 digits. *)
Fixpoint decimal_loop (fuel : nat) (n : Z) (digits : bytes) : bytes :=
  match fuel with
  | O => digits
  | S fuel =>
      let digits := (48 + n mod 10) :: digits in
      if n <? 10 then digits else decimal_loop fuel (n / 10) digits
  end.

Definition decimal (n : Z) : bytes := decimal_loop 20 n [].

(** [format!("{n:0width$}")] *)
Definition zero_padded (width n : Z) : bytes :=
  let digits := decimal n in replicate (Z.to_nat (width - len digits)) 48 ++ digits.

(** The digits of [str::parse] for an unsigned type: an error on another
    character or above the type's maximum. *)
Fixpoint parse_digits (max value : Z) (l : bytes) : option Z :=
  match l with
  | [] => Some value
  | b :: l =>
      if negb (is_ascii_digit b) then None
      else
        let value := value * 10 + (b - 48) in
        if max <? value then None else parse_digits max value l
  end.

(** [str::parse]: a plus sign may come first. *)
Definition parse_unsigned (max : Z) (l : bytes) : option Z :=
  match l with
  | [] => None
  | [b] => parse_digits max 0 [b]
  | b :: digits => if b =? 43 then parse_digits max 0 digits else parse_digits max 0 l
  end.

(** ** Separators *)

Definition without (sep : Z) (l : bytes) : Prop := sep ∉ l.

#[export] Instance without_dec sep l : Decision (without sep l).
Proof. unfold without. apply _. Defined.

Lemma without_cons sep b l : without sep (b :: l) ↔ sep ≠ b ∧ without sep l.
Proof. unfold without. apply not_elem_of_cons. Qed.

Lemma without_app sep a b : without sep (a ++ b) ↔ without sep a ∧ without sep b.
Proof. unfold without. apply not_elem_of_app. Qed.

Lemma split_on_nonempty sep l : split_on sep l ≠ [].
Proof. destruct l; cbn; [done|]. case_match; [done|]. by case_match. Qed.

Lemma split_on_without sep l : without sep l → split_on sep l = [l].
Proof.
  induction l as [|b l IH]; [done|]. intros [Hb Hl]%without_cons. cbn.
  rewrite IH by done. by rewrite (proj2 (Z.eqb_neq _ _)).
Qed.

Lemma split_on_app sep a b : without sep a → split_on sep (a ++ sep :: b) = a :: split_on sep b.
Proof.
  induction a as [|x a IH]; cbn; [by rewrite Z.eqb_refl|]. intros [Hx Ha]%without_cons.
  rewrite IH by done. by rewrite (proj2 (Z.eqb_neq _ _)).
Qed.

Lemma split_join sep parts :
  parts ≠ [] → Forall (without sep) parts → split_on sep (join_with sep parts) = parts.
Proof.
  induction parts as [|p [|q parts] IH]; intros Hne Hp; [done| |].
  - apply Forall_cons in Hp as [Hp _]. exact (split_on_without _ _ Hp).
  - apply Forall_cons in Hp as [Hp Hps]. change (join_with sep (p :: q :: parts))
      with (p ++ sep :: join_with sep (q :: parts)).
    rewrite split_on_app, IH by done. done.
Qed.

Lemma join_split sep l : join_with sep (split_on sep l) = l.
Proof.
  induction l as [|b l IH]; [done|]. cbn. pose proof (split_on_nonempty sep l).
  destruct (split_on sep l) as [|p ps]; [done|]. destruct (Z.eqb_spec b sep) as [->|].
  - cbn [join_with app]. by rewrite <- IH.
  - rewrite <- IH. by destruct ps.
Qed.

Lemma split_on_parts sep l : Forall (without sep) (split_on sep l).
Proof.
  assert (without sep []) as Hnil by apply not_elem_of_nil.
  induction l as [|b l IH]; cbn; [by constructor|]. destruct (Z.eqb_spec b sep); [by constructor|].
  destruct IH as [|p ps Hp Hps]; constructor; try done; apply without_cons; naive_solver.
Qed.

Lemma split_once_spec sep l a b :
  split_once sep l = Some (a, b) ↔ l = a ++ sep :: b ∧ without sep a.
Proof.
  unfold split_once. revert a. induction l as [|x l IH]; intros a; cbn.
  { split; [done|]. intros [Heq _]. by destruct a. }
  destruct (Z.eqb_spec sep x) as [<-|Hx]; cbn.
  - split; [intros [= <- <-]; by split; [|apply not_elem_of_nil]|].
    intros [Heq Ha]. destruct a as [|y a]; [by injection Heq as <-|].
    injection Heq as <- _. apply without_cons in Ha as [? _]. done.
  - destruct (first_index (Z.eqb sep) l) as [i|] eqn:Hi; cbn in *.
    + apply first_index_bound in Hi. unfold takeZ, dropZ in *.
      replace (Z.to_nat (Z.succ i)) with (S (Z.to_nat i)) by lia.
      replace (Z.to_nat (Z.succ i + 1)) with (S (Z.to_nat (i + 1))) by lia. cbn [take drop]. split.
      * intros [= <- <-]. destruct (proj1 (IH _) eq_refl) as [Hl Ha]. cbn. rewrite <- Hl.
        split; [done|]. by apply without_cons.
      * intros [Heq Ha]. destruct a as [|y a]; [by injection Heq as <- _|].
        injection Heq as <- Heq. apply without_cons in Ha as [_ Ha].
        by injection (proj2 (IH a) (conj Heq Ha)) as -> ->.
    + split; [done|]. intros [Heq Ha]. destruct a as [|y a]; [by injection Heq as <- _|].
      injection Heq as <- Heq. apply without_cons in Ha as [_ Ha]. discriminate (proj2 (IH a) (conj Heq Ha)).
Qed.

(** ** Prefixes and suffixes *)

Lemma strip_prefix_spec prefix l k : strip_prefix prefix l = Some k ↔ l = prefix ++ k.
Proof.
  unfold strip_prefix. destruct (starts_with prefix l) eqn:Hs.
  - apply starts_with_spec in Hs as [x ->]. rewrite dropZ_app_len. split; [by intros [= <-]|].
    by intros ->%app_inv_head.
  - split; [done|]. intros ->. rewrite (proj2 (starts_with_spec _ _)) in Hs by by exists k. done.
Qed.

Lemma ends_with_spec suffix l : ends_with suffix l = true ↔ ∃ k, l = k ++ suffix.
Proof.
  unfold ends_with. rewrite starts_with_spec. split; intros [k Hk].
  - exists (reverse k). by rewrite <- (reverse_involutive l), Hk, reverse_app, reverse_involutive.
  - exists (reverse k). by rewrite Hk, reverse_app.
Qed.

Lemma strip_suffix_spec suffix l k : strip_suffix suffix l = Some k ↔ l = k ++ suffix.
Proof.
  unfold strip_suffix. destruct (ends_with suffix l) eqn:Hs.
  - apply ends_with_spec in Hs as [x ->]. rewrite len_app, Z.add_simpl_r, takeZ_app_len.
    split; [by intros [= <-]|]. by intros ->%app_inv_tail.
  - split; [done|]. intros ->. rewrite (proj2 (ends_with_spec _ _)) in Hs by by exists k. done.
Qed.

(** ** Last occurrences *)

Lemma last_occurrence_Some needle l i :
  last_occurrence needle l = Some i → ∃ a k, l = a ++ needle ++ k ∧ i = len a.
Proof.
  revert i. induction l as [|x l IH]; intros i.
  { cbn. destruct (starts_with needle []) eqn:Hs; [|done]. intros [= <-].
    apply starts_with_spec in Hs as [k Hk]. by exists [], k. }
  cbn [last_occurrence]. destruct (last_occurrence needle l) as [j|].
  - intros [= <-]. destruct (IH j eq_refl) as (a & k & -> & ->). exists (x :: a), k.
    rewrite len_cons. split; [done|lia].
  - destruct (starts_with needle (x :: l)) eqn:Hs; [|done]. intros [= <-].
    apply starts_with_spec in Hs as [k Hk]. by exists [], k.
Qed.

Lemma last_occurrence_at needle a k x t :
  needle ++ k = x :: t → last_occurrence needle t = None →
  last_occurrence needle (a ++ needle ++ k) = Some (len a).
Proof.
  intros Hk Hn. assert (starts_with needle (x :: t) = true) as Hs by (apply starts_with_spec; by exists k).
  rewrite Hk. induction a as [|y a IH]; cbn [app last_occurrence].
  - by rewrite Hn, Hs.
  - rewrite IH, len_cons. f_equal. lia.
Qed.

(** ** Lines *)

Definition newline_ended (ls : list bytes) : bytes := concat (map (λ l, l ++ [10]) ls).

Lemma newline_ended_cons l ls : newline_ended (l :: ls) = l ++ 10 :: newline_ended ls.
Proof. unfold newline_ended. cbn. by rewrite <- app_assoc. Qed.

Lemma lines_of_cons p parts : parts ≠ [] → lines_of (p :: parts) = strip_return p :: lines_of parts.
Proof. by destruct parts. Qed.

Lemma strip_return_without l : without 13 l → strip_return l = l.
Proof.
  unfold strip_return. destruct (strip_suffix [13] l) as [k|] eqn:Hs; [|done].
  apply strip_suffix_spec in Hs as ->. intros [_ Hc]%without_app. by apply without_cons in Hc as [? _].
Qed.

Lemma lines_newline_ended ls :
  Forall (without 10) ls → Forall (without 13) ls → lines (newline_ended ls) = ls.
Proof.
  intros Hn Hr. unfold lines. induction ls as [|l ls IH]; [done|].
  apply Forall_cons in Hn as [Hl Hn], Hr as [Hl' Hr].
  rewrite newline_ended_cons, split_on_app by done.
  rewrite lines_of_cons by apply split_on_nonempty. by rewrite strip_return_without, IH.
Qed.

(** A text that is empty or ends with a newline, without carriage returns,
    is the text of its lines. *)
Lemma newline_ended_lines l :
  (l = [] ∨ ∃ k, l = k ++ [10]) → without 13 l →
  l = newline_ended (lines l) ∧ Forall (without 10) (lines l).
Proof.
  unfold lines. intros Hend Hr. pose proof (split_on_parts 10 l) as Hp.
  remember (split_on 10 l) as parts eqn:Heq.
  assert (l = join_with 10 parts) as Hl by by rewrite Heq, join_split.
  clear Heq. revert l Hl Hend Hr. induction Hp as [|p parts Hp Hps IH]; intros l -> Hend Hr; [done|].
  destruct parts as [|q parts].
  - cbn in *. destruct Hend as [->|[k ->]]; [done|]. apply without_app in Hp as [_ Hp].
    by apply without_cons in Hp as [? _].
  - change (join_with 10 (p :: q :: parts)) with (p ++ 10 :: join_with 10 (q :: parts)) in *.
    apply without_app in Hr as [Hr [_ Hr']%without_cons]. rewrite lines_of_cons by done.
    rewrite strip_return_without by done. destruct (IH _ eq_refl) as [Heq Hf]; [|done|].
    + destruct Hend as [He|[k Hk]]; [by destruct p|].
      destruct (join_with 10 (q :: parts)) as [|y t] using rev_ind; [by left|]. right. exists t.
      rewrite app_comm_cons, app_assoc in Hk. apply app_inj_tail in Hk as [_ ->]. done.
    + split; [|by constructor]. rewrite newline_ended_cons. by rewrite <- Heq.
Qed.

(** Two newlines meet only at an empty line. *)
Lemma last_occurrence_newlines ls :
  Forall (λ l, l ≠ [] ∧ without 10 l) ls → last_occurrence [10; 10] (10 :: newline_ended ls) = None.
Proof.
  assert (∀ l k, without 10 l → last_occurrence [10; 10] (10 :: k) = None →
    last_occurrence [10; 10] (l ++ 10 :: k) = None) as Hskip.
  { intros l k Hl Hk. induction l as [|x l IH]; [done|]. apply without_cons in Hl as [Hx Hl].
    change ((x :: l) ++ 10 :: k) with (x :: (l ++ 10 :: k)). cbn [last_occurrence].
    rewrite IH by done. cbn [starts_with]. by rewrite (proj2 (Z.eqb_neq 10 x)). }
  induction 1 as [|l ls [Hne Hl] Hls IH]; [done|]. rewrite newline_ended_cons.
  destruct l as [|x l]; [done|]. pose proof (Hskip _ _ Hl IH) as Hs. cbn [last_occurrence].
  cbn [last_occurrence app] in Hs |- *. rewrite Hs. apply without_cons in Hl as [Hx _].
  cbn [starts_with]. by rewrite (proj2 (Z.eqb_neq 10 x)).
Qed.

(** ** Characters of a valid string *)

(** The first character of a valid string: its octets, one below 0x80 or
    several from 0x80. *)
Lemma utf8_first l :
  utf8_valid l = true → l ≠ [] →
  ∃ w c k, l = w ++ k ∧ w ≠ [] ∧ utf8_valid k = true
    ∧ (∀ k', utf8_chars (w ++ k') = c :: utf8_chars k' ∧ utf8_valid (w ++ k') = utf8_valid k')
    ∧ (w = [c] ∧ c < 0x80 ∨ Forall (λ b, 0x80 ≤ b) w).
Proof.
  destruct l as [|b0 l1]; [done|]. intros Hl _. cbn in Hl.
  destruct (Z.ltb_spec b0 128) as [H0|H0].
  { exists [b0], b0, l1. split_and!; [done|done|done| |by left]. intros k'. cbn.
    by rewrite (proj2 (Z.ltb_lt b0 128)). }
  apply Z.ltb_ge in H0 as H0'. destruct l1 as [|b1 l2]; [done|].
  destruct (in_range 0xC2 0xDF b0) eqn:E1.
  { apply andb_prop in Hl as [Hc Hl]. eexists [b0; b1], _, l2.
    split_and!; [done|done|done| |right; unfold is_cont, in_range in *; repeat constructor; lia].
    intros k'. cbn. rewrite H0', E1, Hc, (proj2 (Z.ltb_lt b0 0xE0)) by (unfold in_range in E1; lia). done. }
  destruct l2 as [|b2 l3]; [done|]. destruct (utf8_lead3 b0 b1) eqn:E2.
  { apply andb_prop in Hl as [Hc Hl]. eexists [b0; b1; b2], _, l3.
    split_and!; [done|done|done| |right; unfold utf8_lead3, is_cont, in_range in *; repeat constructor; lia].
    intros k'. cbn. rewrite H0', E1, E2, Hc, (proj2 (Z.ltb_ge b0 0xE0)), (proj2 (Z.ltb_lt b0 0xF0))
      by (unfold utf8_lead3, in_range in E2; lia). done. }
  destruct l3 as [|b3 l4]; [done|]. rewrite !andb_true_iff in Hl. destruct Hl as [[[H4 Hc2] Hc3] Hl].
  eexists [b0; b1; b2; b3], _, l4.
  split_and!; [done|done|done| |right; unfold utf8_lead4, is_cont, in_range in *; repeat constructor; lia].
  intros k'. cbn. rewrite H0', E1, E2, H4, Hc2, Hc3, (proj2 (Z.ltb_ge b0 0xE0)), (proj2 (Z.ltb_ge b0 0xF0))
    by (unfold utf8_lead4, in_range in H4; lia). done.
Qed.

Lemma utf8_app a b :
  utf8_valid a = true →
  utf8_chars (a ++ b) = utf8_chars a ++ utf8_chars b ∧ utf8_valid (a ++ b) = utf8_valid b.
Proof.
  induction a as [a IH] using (induction_ltof1 _ (@length Z)). unfold ltof in IH. intros Ha.
  destruct (decide (a = [])) as [->|Hne]; [done|].
  destruct (utf8_first a Ha Hne) as (w & c & k & -> & Hw & Hk & Hch & _).
  destruct (IH k) as [IHc IHv]; [destruct w; [done|]; rewrite length_app; cbn; lia|done|].
  rewrite <- app_assoc. destruct (Hch (k ++ b)) as [-> ->]. destruct (Hch k) as [-> _].
  by rewrite IHc, IHv.
Qed.

Lemma utf8_ascii l : Forall (λ b, b < 0x80) l → utf8_chars l = l ∧ utf8_valid l = true.
Proof.
  induction 1 as [|b l Hb Hl [IHc IHv]]; [done|]. cbn. rewrite (proj2 (Z.ltb_lt b 128)) by done.
  by rewrite IHc.
Qed.

(** An octet below 0x80 is a character. *)
Lemma utf8_low_char l b : utf8_valid l = true → b ∈ l → b < 0x80 → b ∈ utf8_chars l.
Proof.
  induction l as [l IH] using (induction_ltof1 _ (@length Z)). unfold ltof in IH. intros Hl Hb Hlow.
  destruct (decide (l = [])) as [->|Hne]; [by apply not_elem_of_nil in Hb|].
  destruct (utf8_first l Hl Hne) as (w & c & k & -> & Hw & Hk & Hch & Hsh).
  destruct (Hch k) as [-> _]. apply elem_of_app in Hb as [Hb|Hb].
  - destruct Hsh as [[-> _]|Hge]; [apply list_elem_of_singleton in Hb as ->; by left|].
    pose proof (proj1 (Forall_forall _ _) Hge b Hb). cbn in *. lia.
  - right. apply IH; [destruct w; [done|]; rewrite length_app; cbn; lia|done..].
Qed.

Lemma utf8_chars_nonneg l : Forall is_byte l → Forall (λ c, 0 ≤ c) (utf8_chars l).
Proof.
  assert (∀ x m, is_byte x → 0 ≤ m → 0 ≤ Z.land x m) as Hland by (intros; apply Z.land_nonneg; by right).
  revert l. fix IH 1. intros [|b0 l1] Hl; [constructor|]. cbn. apply Forall_cons in Hl as [H0 Hl1].
  destruct (b0 <? 128); [constructor; [by destruct H0|by apply IH]|]. destruct l1 as [|b1 l2]; [constructor|].
  apply Forall_cons in Hl1 as [H1 Hl2]. destruct (b0 <? 224).
  { constructor; [|by apply IH]. rewrite Z.lor_nonneg, Z.shiftl_nonneg. split; by apply Hland. }
  destruct l2 as [|b2 l3]; [constructor|]. apply Forall_cons in Hl2 as [H2 Hl3]. destruct (b0 <? 240).
  { constructor; [|by apply IH]. rewrite !Z.lor_nonneg, !Z.shiftl_nonneg. split_and!; by apply Hland. }
  destruct l3 as [|b3 l4]; [constructor|]. apply Forall_cons in Hl3 as [H3 Hl4].
  constructor; [|by apply IH]. rewrite !Z.lor_nonneg, !Z.shiftl_nonneg, Z.lor_nonneg, Z.shiftl_nonneg.
  split_and!; by apply Hland.
Qed.

(** What precedes an ASCII octet of a valid string is valid. *)
Lemma utf8_before a b c : utf8_valid (a ++ c :: b) = true → c < 0x80 → utf8_valid a = true.
Proof.
  intros Hv Hc. rewrite <- (take_app_length a (c :: b)). apply utf8_take_boundary; [done|].
  unfold is_char_boundary. destruct (length a) eqn:Hl; [done|]. rewrite <- Hl.
  rewrite lookup_app_r, Nat.sub_diag by done. cbn. unfold is_cont, in_range. lia.
Qed.

(** ** Decimal numbers *)

Definition digits_value (value : Z) (l : bytes) : Z := foldl (λ v b, v * 10 + (b - 48)) value l.

Lemma digits_value_grows value l :
  0 ≤ value → forallb is_ascii_digit l = true → value ≤ digits_value value l.
Proof.
  revert value. induction l as [|b l IH]; intros value Hv; cbn; [lia|].
  intros [Hb Hl]%andb_true_iff. unfold is_ascii_digit, in_range in Hb.
  etrans; [|apply IH; [lia|done]]. lia.
Qed.

Lemma parse_digits_value max value l :
  0 ≤ value → forallb is_ascii_digit l = true → digits_value value l ≤ max →
  parse_digits max value l = Some (digits_value value l).
Proof.
  revert value. induction l as [|b l IH]; intros value Hv; cbn [forallb parse_digits]; [done|].
  intros [Hb Hl]%andb_true_iff Hmax. rewrite Hb. cbn [negb].
  assert (0 ≤ value * 10 + (b - 48)) as Hnext by (unfold is_ascii_digit, in_range in Hb; lia).
  pose proof (digits_value_grows _ l Hnext Hl). cbn in Hmax.
  rewrite (proj2 (Z.ltb_ge _ _)) by (fold (digits_value (value * 10 + (b - 48)) l) in Hmax; lia).
  by apply IH.
Qed.

Lemma parse_unsigned_value max l :
  l ≠ [] → forallb is_ascii_digit l = true → digits_value 0 l ≤ max →
  parse_unsigned max l = Some (digits_value 0 l).
Proof.
  intros Hne Hl Hmax. rewrite <- (parse_digits_value max 0 l) by done.
  destruct l as [|b [|c l]]; [done|done|]. unfold parse_unsigned.
  destruct (Z.eqb_spec b 43) as [->|]; [by apply andb_true_iff in Hl as [? _]|done].
Qed.

Lemma decimal_loop_spec fuel n digits :
  0 ≤ n < 10 ^ Z.of_nat fuel → (0 < fuel)%nat → forallb is_ascii_digit digits = true →
  let l := decimal_loop fuel n digits in
  (length digits < length l ≤ fuel + length digits)%nat ∧ forallb is_ascii_digit l = true
    ∧ digits_value 0 l = digits_value n digits.
Proof.
  revert n digits. induction fuel as [|fuel IH]; intros n digits Hn Hf Hd; [lia|]. cbn [decimal_loop].
  pose proof (Z.mod_pos_bound n 10 ltac:(lia)) as Hm.
  assert (forallb is_ascii_digit (48 + n mod 10 :: digits) = true) as Hd'.
  { cbn. rewrite Hd. unfold is_ascii_digit, in_range. lia. }
  destruct (Z.ltb_spec n 10).
  { split_and!; [cbn; lia|cbn; lia|done|]. cbn. f_equal. rewrite Z.mod_small by lia. lia. }
  assert (n < 10 ^ Z.of_nat fuel * 10) by (rewrite Nat2Z.inj_succ, Z.pow_succ_r in Hn by lia; lia).
  destruct (decide (fuel = 0)%nat) as [->|]; [cbn in *; lia|].
  destruct (IH (n / 10) (48 + n mod 10 :: digits)) as (Hlen & Hall & Hval); [div_lia|lia|done|].
  cbn [length] in Hlen. split_and!; [lia|lia|done|]. rewrite Hval. cbn. f_equal. div_lia.
Qed.

Lemma decimal_loop_head fuel n digits :
  0 < n < 10 ^ Z.of_nat fuel → ∃ d l, decimal_loop fuel n digits = d :: l ∧ d ≠ 48.
Proof.
  revert n digits. induction fuel as [|fuel IH]; intros n digits Hn; [cbn in Hn; lia|]. cbn [decimal_loop].
  destruct (Z.ltb_spec n 10); [eexists _, _; split; [done|]; rewrite Z.mod_small by lia; lia|].
  rewrite Nat2Z.inj_succ, Z.pow_succ_r in Hn by lia. apply IH. div_lia.
Qed.

Lemma decimal_spec n :
  is_u64 n →
  1 ≤ len (decimal n) ≤ 20 ∧ forallb is_ascii_digit (decimal n) = true ∧ digits_value 0 (decimal n) = n.
Proof.
  unfold is_u64. rewrite U64_MAX_val. intros Hn.
  destruct (decimal_loop_spec 20 n []) as (Hl & Hd & Hv); [cbn; lia|lia|done|].
  unfold decimal, len. cbn [length] in Hl. split_and!; [lia|lia|done|done].
Qed.

(** No superfluous zero comes first. *)
Lemma decimal_canonical n :
  is_u64 n → (1 <? len (decimal n)) && starts_with [48] (decimal n) = false.
Proof.
  unfold is_u64. rewrite U64_MAX_val. intros Hn. destruct (decide (n = 0)) as [->|]; [done|].
  destruct (decimal_loop_head 20 n []) as (d & l & Hl & Hd); [cbn; lia|]. unfold decimal. rewrite Hl.
  cbn [starts_with]. rewrite (proj2 (Z.eqb_neq 48 d)) by lia. apply andb_false_r.
Qed.

Lemma parse_decimal_back max n : is_u64 n → n ≤ max → parse_unsigned max (decimal n) = Some n.
Proof.
  intros Hn Hm. destruct (decimal_spec n Hn) as (Hl & Hd & Hv).
  rewrite parse_unsigned_value; [by rewrite Hv|intros He; rewrite He, len_nil in Hl; lia|done|lia].
Qed.

Lemma digits_value_zeros k l : digits_value 0 (replicate k 48 ++ l) = digits_value 0 l.
Proof. by induction k. Qed.

Lemma zero_padded_spec width n :
  is_u64 n → len (decimal n) ≤ width →
  len (zero_padded width n) = width ∧ forallb is_ascii_digit (zero_padded width n) = true
    ∧ digits_value 0 (zero_padded width n) = n.
Proof.
  intros Hn Hw. destruct (decimal_spec n Hn) as (Hl & Hd & Hv). unfold zero_padded. split_and!.
  - rewrite len_app. unfold len at 1. rewrite length_replicate. lia.
  - rewrite forallb_app, Hd, andb_true_r. by induction (Z.to_nat _).
  - by rewrite digits_value_zeros.
Qed.

Lemma digits_without sep l : forallb is_ascii_digit l = true → is_ascii_digit sep = false → without sep l.
Proof.
  intros Hl Hs Hin. apply forallb_forall with (x := sep) in Hl; [congruence|by apply list_elem_of_In].
Qed.

(** ** Splitting at separators anywhere *)

Lemma split_on_glue sep a b : split_on sep (a ++ sep :: b) = split_on sep a ++ split_on sep b.
Proof.
  induction a as [|x a IH]; cbn; [by rewrite Z.eqb_refl|]. rewrite IH. destruct (x =? sep); [done|].
  pose proof (split_on_nonempty sep a). by destruct (split_on sep a).
Qed.

Lemma without_reverse sep l : without sep l → without sep (reverse l).
Proof. unfold without. by rewrite elem_of_reverse. Qed.

Lemma rsplit_once_spec sep l a b : rsplit_once sep l = Some (a, b) ↔ l = a ++ sep :: b ∧ without sep b.
Proof.
  assert (∀ x y : bytes, reverse (x ++ sep :: y) = reverse y ++ sep :: reverse x) as Hr
    by (intros; by rewrite reverse_app, reverse_cons, <- app_assoc).
  unfold rsplit_once. split.
  - destruct (split_once sep (reverse l)) as [[back front]|] eqn:E; [|done]. intros [= <- <-].
    apply split_once_spec in E as [Hl Hb]. split; [by rewrite <- Hr, <- Hl, reverse_involutive|by apply without_reverse].
  - intros [-> Hb]. rewrite (proj2 (split_once_spec sep _ (reverse b) (reverse a))).
    + cbn. by rewrite !reverse_involutive.
    + split; [apply Hr|by apply without_reverse].
Qed.

Lemma utf8_chunks_concat l : concat (utf8_chunks l) = l.
Proof.
  revert l. fix IH 1. intros [|b0 l1]; [done|]. cbn. destruct (b0 <? 128); [cbn; by rewrite IH|].
  destruct l1 as [|b1 l2]; [done|]. destruct (b0 <? 224); [cbn; by rewrite IH|].
  destruct l2 as [|b2 l3]; [done|]. destruct (b0 <? 240); [cbn; by rewrite IH|].
  destruct l3 as [|b3 l4]; [done|]. cbn. by rewrite IH.
Qed.

(** ** Parsed numbers are in range *)

Lemma parse_digits_range max value l v :
  0 ≤ value ≤ max → parse_digits max value l = Some v → 0 ≤ v ≤ max.
Proof.
  revert value. induction l as [|b l IH]; intros value Hv; cbn; [by intros [= <-]|].
  destruct (is_ascii_digit b) eqn:Hb; [|done]. cbn [negb]. unfold is_ascii_digit, in_range in Hb.
  case_match eqn:Hm; [done|]. apply IH. apply Z.ltb_ge in Hm. lia.
Qed.

Lemma parse_unsigned_range max l v : 0 ≤ max → parse_unsigned max l = Some v → 0 ≤ v ≤ max.
Proof.
  intros Hm. destruct l as [|b [|c l]]; [done|..]; unfold parse_unsigned; [|case_match];
    apply parse_digits_range; lia.
Qed.
