(* ===== verification/Bandwidth.v ===== *)
(** * Bandwidth limiters

    [src/source/src/bandwidth.rs] and [bandwidth/flow.rs]: the token bucket of
    a route and direction, its deficit round robin over the waiting flows, and
    the critical sections of the limiter.

    Instants are nanoseconds.  Each critical section is a function of the state
    and of the instant the caller read; [acquire] is one turn of its loop, and
    says whether the other waiters are to be woken and until when the caller
    sleeps.  A poisoned lock ([StateUnavailable]), the measured waiting time of
    a grant and the debug output are not modelled. *)

From stdpp Require Import countable gmap functions.
From S2P Require Import Prelude Bytes.

Definition BANDWIDTH_QUANTUM_BYTES : Z := 16 * 1024.
Definition MAX_PENDING_BANDWIDTH_ACQUISITIONS : Z := 1024.
Definition BYTE_UNITS : Z := 1000000000.

Inductive BandwidthDirection : Type := Upload | Download.

#[export] Instance BandwidthDirection_eq_dec : EqDecision BandwidthDirection.
Proof. solve_decision. Defined.

Inductive BandwidthRate : Type :=
  | Unlimited
  | BytesPerSecond (rate : Z).

#[export] Instance BandwidthRate_eq_dec : EqDecision BandwidthRate.
Proof. solve_decision. Defined.

Definition bytes_per_second (r : BandwidthRate) : option Z :=
  match r with
  | Unlimited => None
  | BytesPerSecond rate => Some rate
  end.

Record BandwidthPolicy : Type := mkPolicy {
  bp_upload : BandwidthRate;
  bp_download : BandwidthRate;
}.

(** [BandwidthPolicy::rate] *)
Definition policy_rate (p : BandwidthPolicy) (direction : BandwidthDirection) : BandwidthRate :=
  match direction with
  | Upload => bp_upload p
  | Download => bp_download p
  end.

Inductive BandwidthError : Type :=
  | ReservationMismatch
  | QueueFull (max_pending : Z)
  | IndivisibleDebtLimit (bytes capacity_bytes max_debt_bytes : Z).

Inductive AcquisitionRequest : Type :=
  | Divisible (bytes : Z)
  | Indivisible (bytes max_debt_bytes : Z).

(** [AcquisitionRequest::bytes] *)
Definition request_bytes (r : AcquisitionRequest) : Z :=
  match r with
  | Divisible bytes | Indivisible bytes _ => bytes
  end.

Definition bounded_for_limited_bucket (r : AcquisitionRequest) : AcquisitionRequest :=
  match r with
  | Divisible bytes => Divisible (if bytes <? BANDWIDTH_QUANTUM_BYTES then bytes else BANDWIDTH_QUANTUM_BYTES)
  | Indivisible _ _ => r
  end.

Record Reservation : Type := mkReservation {
  rv_bytes : Z;
  rv_credit_units : Z;
  rv_debt_units : Z;
}.

Record Waiter : Type := mkWaiter {
  wt_ticket : Z;
  wt_flow_id : Z;
  wt_request : AcquisitionRequest;
  wt_deficit_bytes : Z;
}.

Record BucketState : Type := mkBucket {
  bk_rate : BandwidthRate;
  bk_credit_units : Z;
  bk_debt_units : Z;
  bk_last_refill : Z;
  bk_queue : list Waiter;
  bk_completed : gmap Z (result BandwidthError Reservation);
}.

#[export] Instance Waiter_eta : Eta Waiter := λ w,
  mkWaiter (wt_ticket w) (wt_flow_id w) (wt_request w) (wt_deficit_bytes w).
#[export] Instance BucketState_eta : Eta BucketState := λ b,
  mkBucket (bk_rate b) (bk_credit_units b) (bk_debt_units b) (bk_last_refill b) (bk_queue b) (bk_completed b).

(** ** Buckets *)

(** [BucketState::new] *)
Definition bucket_new (rate : BandwidthRate) (now : Z) : BucketState :=
  mkBucket rate (match bytes_per_second rate with Some r => saturating_mul128 r BYTE_UNITS | None => 0 end) 0 now [] ∅.

Definition capacity_bytes (b : BucketState) : Z := default 0 (bytes_per_second (bk_rate b)).
Definition capacity_units (b : BucketState) : Z := saturating_mul128 (capacity_bytes b) BYTE_UNITS.

(** The test of [validate_request], and of [update] for the waiting. *)
Definition fits_debt (capacity : Z) (bytes max_debt_bytes : Z) : bool :=
  bytes <=? saturating_add128 capacity max_debt_bytes.

(** [LimiterState::validate_request] on the bucket of the direction. *)
Definition validate_request (b : BucketState) (request : AcquisitionRequest) : result BandwidthError unit :=
  match request with
  | Divisible _ => Ok tt
  | Indivisible bytes max_debt_bytes =>
      if fits_debt (capacity_bytes b) bytes max_debt_bytes then Ok tt
      else Err (IndivisibleDebtLimit bytes (capacity_bytes b) max_debt_bytes)
  end.

(** [refill] *)
Definition refill (b : BucketState) (now : Z) : BucketState :=
  let elapsed := Z.max (now - bk_last_refill b) 0 in
  let b := b <| bk_last_refill := now |> in
  match bytes_per_second (bk_rate b) with
  | None => b
  | Some rate =>
      let refill_units := saturating_mul128 elapsed rate in
      let debt_repaid := Z.min refill_units (bk_debt_units b) in
      let b := b <| bk_debt_units ::= λ debt, debt - debt_repaid |> in
      let new_credit := refill_units - debt_repaid in
      b <| bk_credit_units ::= λ credit, Z.min (saturating_add128 credit new_credit) (capacity_units b) |>
  end.

(** One turn of the loop of [update] over the queue. *)
Definition update_waiter (rate : BandwidthRate) (capacity : Z)
    (acc : list Waiter * gmap Z (result BandwidthError Reservation)) (w : Waiter) :=
  let '(retained, completed) := acc in
  match wt_request w with
  | Divisible _ => (retained ++ [w], completed)
  | Indivisible bytes max_debt_bytes =>
      if bool_decide (rate = Unlimited) || fits_debt capacity bytes max_debt_bytes then (retained ++ [w], completed)
      else (retained, <[wt_ticket w := Err (IndivisibleDebtLimit bytes capacity max_debt_bytes)]> completed)
  end.

(** [BucketState::update] *)
Definition bucket_update (b : BucketState) (rate : BandwidthRate) (now : Z) : BucketState :=
  let b := (refill b now) <| bk_rate := rate |> in
  let b := b <| bk_credit_units ::= λ credit, Z.min credit (capacity_units b) |> <| bk_last_refill := now |> in
  let '(retained, completed) := foldl (update_waiter rate (capacity_bytes b)) ([], bk_completed b) (bk_queue b) in
  b <| bk_completed := completed |> <| bk_queue := retained |>.

Definition try_reserve (b : BucketState) (request : AcquisitionRequest) (deficit_bytes : Z) : option (Reservation * BucketState) :=
  match request with
  | Divisible bytes =>
      let available_bytes := bk_credit_units b / BYTE_UNITS in
      let grant := Z.min (Z.min (Z.min bytes BANDWIDTH_QUANTUM_BYTES) deficit_bytes) available_bytes in
      if grant =? 0 then None
      else
        let credit_units := saturating_mul128 grant BYTE_UNITS in
        Some (mkReservation (if grant <=? U64_MAX then grant else BANDWIDTH_QUANTUM_BYTES) credit_units 0,
              b <| bk_credit_units ::= λ credit, credit - credit_units |>)
  | Indivisible bytes max_debt_bytes =>
      if deficit_bytes <? bytes then None
      else
        let requested_units := saturating_mul128 bytes BYTE_UNITS in
        let capacity_units := capacity_units b in
        if requested_units <=? capacity_units then
          if bk_credit_units b <? requested_units then None
          else Some (mkReservation bytes requested_units 0, b <| bk_credit_units ::= λ credit, credit - requested_units |>)
        else if bk_credit_units b <? capacity_units then None
        else
          let debt_units := requested_units - capacity_units in
          if saturating_mul128 max_debt_bytes BYTE_UNITS <? debt_units then None
          else Some (mkReservation bytes capacity_units debt_units, b <| bk_credit_units := 0 |> <| bk_debt_units := debt_units |>)
  end.

(** One waiter's turn: whether it was served, and whether it got further. *)
Definition serve (b : BucketState) (w : Waiter) : BucketState * bool * bool :=
  let previous_deficit := wt_deficit_bytes w in
  let w := w <| wt_deficit_bytes ::= λ d, Z.min (saturating_add64 d BANDWIDTH_QUANTUM_BYTES) (request_bytes (wt_request w)) |> in
  match try_reserve b (wt_request w) (wt_deficit_bytes w) with
  | Some (reservation, b) => (b <| bk_completed ::= <[wt_ticket w := Ok reservation]> |>, true, true)
  | None => (b <| bk_queue ::= λ q, q ++ [w] |>, false, previous_deficit <? wt_deficit_bytes w)
  end.

(** The [for] loop of [dispatch], with what was granted and the progress so
    far. *)
Fixpoint round (turns : nat) (b : BucketState) (granted made_progress : bool) : BucketState * bool * bool :=
  match turns with
  | O => (b, granted, made_progress)
  | S turns =>
      match bk_queue b with
      | [] => (b, granted, made_progress)
      | w :: queue =>
          let '(b, served, progress) := serve (b <| bk_queue := queue |>) w in
          round turns b (granted || served) (made_progress || progress)
      end
  end.

(** The [while] loop of [dispatch]. *)
Fixpoint rounds (fuel : nat) (b : BucketState) (granted : bool) : BucketState * bool :=
  match fuel with
  | O => (b, granted)
  | S fuel =>
      if is_empty (bk_queue b) then (b, granted)
      else
        let '(b, granted, made_progress) := round (length (bk_queue b)) b granted false in
        if made_progress then rounds fuel b granted else (b, granted)
  end.

(** A waiter needs a turn for every quantum it lacks, and one more. *)
Definition turns_left (w : Waiter) : Z :=
  1 + (request_bytes (wt_request w) - wt_deficit_bytes w + BANDWIDTH_QUANTUM_BYTES - 1) / BANDWIDTH_QUANTUM_BYTES.

Definition dispatch_fuel (queue : list Waiter) : nat := S (Z.to_nat (foldr Z.add 0 (map turns_left queue))).

(** The drain of an unlimited bucket. *)
Definition drain (completed : gmap Z (result BandwidthError Reservation)) (w : Waiter) :=
  <[wt_ticket w := Ok (mkReservation (request_bytes (wt_request w)) 0 0)]> completed.

Definition dispatch (b : BucketState) (now : Z) : BucketState * bool :=
  let b := refill b now in
  if is_empty (bk_queue b) then (b, false)
  else if bool_decide (bk_rate b = Unlimited) then
    (b <| bk_completed := foldl drain (bk_completed b) (bk_queue b) |> <| bk_queue := [] |>, true)
  else if 0 <? bk_debt_units b then (b, false)
  else rounds (dispatch_fuel (bk_queue b)) b false.

(** What a waiter lacks to be served. *)
Definition units_lacking (b : BucketState) (w : Waiter) : Z :=
  match wt_request w with
  | Divisible _ => Z.max (BYTE_UNITS - bk_credit_units b) 0
  | Indivisible bytes _ => Z.max (Z.min (saturating_mul128 bytes BYTE_UNITS) (capacity_units b) - bk_credit_units b) 0
  end.

Definition next_deadline (b : BucketState) (now : Z) : option Z :=
  rate ← bytes_per_second (bk_rate b);
  match bk_queue b with
  | [] => None
  | w :: queue =>
      let needed_units :=
        if 0 <? bk_debt_units b then saturating_add128 (bk_debt_units b) BYTE_UNITS
        else foldl (λ least w, Z.min least (units_lacking b w)) (units_lacking b w) queue in
      if needed_units =? 0 then Some now
      else Some (now + Z.min (saturating_add128 needed_units (rate - 1) / rate) U64_MAX)
  end.

(** [BucketState::refund] *)
Definition bucket_refund (b : BucketState) (r : Reservation) : BucketState :=
  let b := b <| bk_debt_units ::= λ debt, Z.max (debt - rv_debt_units r) 0 |> in
  b <| bk_credit_units ::= λ credit, Z.min (saturating_add128 credit (rv_credit_units r)) (capacity_units b) |>.

(** ** The limiter *)

Record LimiterState : Type := mkLimiter {
  lm_upload : BucketState;
  lm_download : BucketState;
  lm_next_ticket : Z;
}.

#[export] Instance LimiterState_eta : Eta LimiterState := λ s,
  mkLimiter (lm_upload s) (lm_download s) (lm_next_ticket s).

Definition limiter_new (policy : BandwidthPolicy) (now : Z) : LimiterState :=
  mkLimiter (bucket_new (bp_upload policy) now) (bucket_new (bp_download policy) now) 1.

Definition bucket (s : LimiterState) (direction : BandwidthDirection) : BucketState :=
  match direction with
  | Upload => lm_upload s
  | Download => lm_download s
  end.

Definition set_bucket (s : LimiterState) (direction : BandwidthDirection) (b : BucketState) : LimiterState :=
  match direction with
  | Upload => s <| lm_upload := b |>
  | Download => s <| lm_download := b |>
  end.

(** [RouteBandwidthLimiter::policy] *)
Definition policy (s : LimiterState) : BandwidthPolicy := mkPolicy (bk_rate (lm_upload s)) (bk_rate (lm_download s)).

(** [RouteBandwidthLimiter::update]; the waiters are always woken. *)
Definition update (s : LimiterState) (p : BandwidthPolicy) (now : Z) : LimiterState :=
  foldl (λ s direction, set_bucket s direction (dispatch (bucket_update (bucket s direction) (policy_rate p direction) now) now).1)
    s [Upload; Download].

(** What a turn of [acquire] ends in: a reservation, an error, or a wait. *)
Inductive acquired : Type :=
  | Acquired (outcome : result BandwidthError Reservation)
  | Waiting (deadline : option Z).

(** The entry into the queue; [inl] returns at once. *)
Definition enqueue (s : LimiterState) (direction : BandwidthDirection) (flow_id : Z) (request : AcquisitionRequest) :
    result BandwidthError Reservation + (LimiterState * Z) :=
  let b := bucket s direction in
  if bool_decide (bk_rate b = Unlimited) then inl (Ok (mkReservation (request_bytes request) 0 0))
  else
    let request := bounded_for_limited_bucket request in
    match validate_request b request with
    | Err e => inl (Err e)
    | Ok _ =>
        if MAX_PENDING_BANDWIDTH_ACQUISITIONS <=? saturating_add64 (len (bk_queue b)) (Z.of_nat (size (bk_completed b)))
        then inl (Err (QueueFull MAX_PENDING_BANDWIDTH_ACQUISITIONS))
        else
          let ticket := lm_next_ticket s in
          let s := s <| lm_next_ticket ::= λ t, wrap64 (t + 1) |> in
          inr (set_bucket s direction (b <| bk_queue ::= λ q, q ++ [mkWaiter ticket flow_id request 0] |>), ticket)
    end.

(** The rest of the turn, once the caller has a ticket. *)
Definition acquire_queued (s : LimiterState) (direction : BandwidthDirection) (ticket : Z) (now : Z) :
    LimiterState * option Z * bool * acquired :=
  let '(b, completed_others) := dispatch (bucket s direction) now in
  match bk_completed b !! ticket with
  | Some completion =>
      (set_bucket s direction (b <| bk_completed ::= delete ticket |>), None, completed_others, Acquired completion)
  | None => (set_bucket s direction b, Some ticket, completed_others, Waiting (next_deadline b now))
  end.

(** One turn of [acquire]: the state, the caller's ticket, whether the waiters
    are woken, and the outcome.  An empty request never enters the loop. *)
Definition acquire (s : LimiterState) (flow_id : Z) (direction : BandwidthDirection) (request : AcquisitionRequest)
    (ticket : option Z) (now : Z) : LimiterState * option Z * bool * acquired :=
  if request_bytes request =? 0 then (s, ticket, false, Acquired (Ok (mkReservation 0 0 0)))
  else
    match ticket with
    | Some ticket => acquire_queued s direction ticket now
    | None =>
        match enqueue s direction flow_id request with
        | inl outcome => (s, None, false, Acquired outcome)
        | inr (s, ticket) => acquire_queued s direction ticket now
        end
    end.

(** [bucket.queue.remove(index)] at the first waiter of the ticket. *)
Fixpoint remove_ticket (ticket : Z) (queue : list Waiter) : list Waiter :=
  match queue with
  | [] => []
  | w :: queue => if wt_ticket w =? ticket then queue else w :: remove_ticket ticket queue
  end.

(** [cancel], when a waiting acquisition is dropped. *)
Definition cancel (s : LimiterState) (direction : BandwidthDirection) (ticket : Z) (now : Z) : LimiterState * bool :=
  let b := (bucket s direction) <| bk_queue ::= remove_ticket ticket |> in
  let b :=
    match bk_completed b !! ticket with
    | Some (Ok reservation) => bucket_refund (b <| bk_completed ::= delete ticket |>) reservation
    | Some (Err _) => b <| bk_completed ::= delete ticket |>
    | None => b
    end in
  let '(b, completed) := dispatch b now in
  (set_bucket s direction b, completed).

Definition refund_reservation (s : LimiterState) (direction : BandwidthDirection) (reservation : Reservation) (now : Z) :
    LimiterState * bool :=
  let '(b, completed) := dispatch (bucket_refund (refill (bucket s direction) now) reservation) now in
  (set_bucket s direction b, completed).

(** ** Flows and refundable grants ([bandwidth/flow.rs]) *)

(** [BandwidthFlow], the limiter by a name. *)
Record BandwidthFlow : Type := mkFlow {
  fl_limiter : Z;
  fl_direction : BandwidthDirection;
  fl_id : Z;
}.

(** [RouteBandwidthLimiter::flow], with the counter it takes the id from. *)
Definition flow (limiter next_flow_id : Z) (direction : BandwidthDirection) : BandwidthFlow * Z :=
  (mkFlow limiter direction next_flow_id, wrap64 (next_flow_id + 1)).

Definition is_limited (s : LimiterState) (f : BandwidthFlow) : bool :=
  negb (bool_decide (policy_rate (policy s) (fl_direction f) = Unlimited)).

Record RefundableBandwidthGrant : Type := mkGrant {
  gr_bytes : Z;
  gr_limiter : Z;
  gr_direction : BandwidthDirection;
  gr_flow_id : Z;
  gr_reservation : option Reservation;
}.

#[export] Instance RefundableBandwidthGrant_eta : Eta RefundableBandwidthGrant := λ g,
  mkGrant (gr_bytes g) (gr_limiter g) (gr_direction g) (gr_flow_id g) (gr_reservation g).

(** What [acquire_refundable] makes of a reservation. *)
Definition refundable (f : BandwidthFlow) (r : Reservation) : RefundableBandwidthGrant :=
  mkGrant (rv_bytes r) (fl_limiter f) (fl_direction f) (fl_id f) (Some r).

(** [commit]: the charge stays; the drop that follows finds nothing. *)
Definition commit (g : RefundableBandwidthGrant) : RefundableBandwidthGrant * Z :=
  (g <| gr_reservation := None |>, gr_bytes g).

(** [refund_inner], which [refund] and the drop of a grant run. *)
Definition refund_inner (s : LimiterState) (g : RefundableBandwidthGrant) (now : Z) :
    LimiterState * bool * RefundableBandwidthGrant :=
  match gr_reservation g with
  | Some r => (refund_reservation s (gr_direction g) r now, g <| gr_reservation := None |>)
  | None => (s, false, g)
  end.

(** [merge]: the merged grant, and what the drop of the other returns. *)
Definition merge (g other : RefundableBandwidthGrant) :
    result BandwidthError RefundableBandwidthGrant * option Reservation :=
  if negb (gr_limiter g =? gr_limiter other) || negb (bool_decide (gr_direction g = gr_direction other))
     || negb (gr_flow_id g =? gr_flow_id other)
  then (Err ReservationMismatch, gr_reservation other)
  else
    match gr_reservation g, gr_reservation other with
    | Some reservation, Some other_reservation =>
        (Ok (mkGrant (saturating_add64 (gr_bytes g) (gr_bytes other)) (gr_limiter g) (gr_direction g) (gr_flow_id g)
               (Some (mkReservation (saturating_add64 (rv_bytes reservation) (rv_bytes other_reservation))
                        (saturating_add128 (rv_credit_units reservation) (rv_credit_units other_reservation))
                        (saturating_add128 (rv_debt_units reservation) (rv_debt_units other_reservation))))),
         None)
    | _, _ => (Err ReservationMismatch, gr_reservation other)
    end.
