(* ===== verification/BandwidthSpec.v ===== *)
(** * What the bandwidth limiters promise

    The limiter of [Bandwidth] as a sequence of critical sections at the
    instants their callers read, well-formed buckets, and the bound on the
    bytes handed out. *)

From stdpp Require Import countable gmap functions.
From S2P Require Import Prelude Bytes Bandwidth.

(** ** Critical sections as steps *)

Inductive op : Type :=
  | OpAcquire (flow_id : Z) (direction : BandwidthDirection) (request : AcquisitionRequest) (ticket : option Z) (now : Z)
  | OpCancel (direction : BandwidthDirection) (ticket : Z) (now : Z)
  | OpRefund (direction : BandwidthDirection) (reservation : Reservation) (now : Z)
  | OpUpdate (policy : BandwidthPolicy) (now : Z).

Definition op_now (o : op) : Z :=
  match o with
  | OpAcquire _ _ _ _ now | OpCancel _ _ now | OpRefund _ _ now | OpUpdate _ now => now
  end.

(** The state, whether the waiters are woken, and the bytes handed out in a
    direction, less those returned. *)
Definition step (d : BandwidthDirection) (s : LimiterState) (o : op) : LimiterState * bool * Z :=
  match o with
  | OpAcquire flow_id direction request ticket now =>
      let '(s, _, notify, outcome) := acquire s flow_id direction request ticket now in
      (s, notify,
       match outcome with
       | Acquired (Ok r) => if bool_decide (direction = d) then rv_bytes r else 0
       | _ => 0
       end)
  | OpCancel direction ticket now => let '(s, notify) := cancel s direction ticket now in (s, notify, 0)
  | OpRefund direction r now =>
      let '(s, notify) := refund_reservation s direction r now in
      (s, notify, if bool_decide (direction = d) then - rv_bytes r else 0)
  | OpUpdate p now => (update s p now, true, 0)
  end.

Fixpoint run (d : BandwidthDirection) (s : LimiterState) (ops : list op) : LimiterState * Z :=
  match ops with
  | [] => (s, 0)
  | o :: ops =>
      let '(s, _, out) := step d s o in
      let '(s, total) := run d s ops in
      (s, out + total)
  end.

(** ** Well-formed buckets *)

(** A charge in units: what a reservation took from the bucket. *)
Definition charge (r : Reservation) : Z := rv_credit_units r + rv_debt_units r.

Definition reservation_ok (r : Reservation) : Prop :=
  0 ≤ rv_credit_units r ∧ 0 ≤ rv_debt_units r ∧ charge r = rv_bytes r * BYTE_UNITS.

Definition request_ok (debt : Z) (q : AcquisitionRequest) : Prop :=
  0 ≤ request_bytes q ≤ U64_MAX ∧
  match q with
  | Divisible _ => True
  | Indivisible _ max_debt_bytes => 0 ≤ max_debt_bytes ≤ debt
  end.

(** Requests as they wait: positive, and within the capacity and the debt. *)
Definition waiter_ok (debt capacity : Z) (w : Waiter) : Prop :=
  request_ok debt (wt_request w) ∧ 0 < request_bytes (wt_request w)
  ∧ 0 ≤ wt_deficit_bytes w ≤ request_bytes (wt_request w)
  ∧ match wt_request w with
    | Divisible _ => True
    | Indivisible bytes max_debt_bytes => bytes ≤ capacity + max_debt_bytes
    end.

Definition completion_ok (c : result BandwidthError Reservation) : Prop :=
  match c with
  | Ok r => reservation_ok r
  | Err _ => True
  end.

(** A bucket limited to at most [top] bytes a second, with debts of at most
    [debt] bytes. *)
Record bucket_ok (top debt : Z) (b : BucketState) : Prop := mkBucketOk {
  ok_rate : ∃ r, bk_rate b = BytesPerSecond r ∧ 0 < r ≤ top;
  ok_credit : 0 ≤ bk_credit_units b ≤ capacity_units b;
  ok_debt : 0 ≤ bk_debt_units b ≤ debt * BYTE_UNITS;
  ok_queue : Forall (waiter_ok debt (capacity_bytes b)) (bk_queue b);
  ok_completed : map_Forall (λ _, completion_ok) (bk_completed b);
}.

Definition completion_charge (c : result BandwidthError Reservation) : Z :=
  match c with
  | Ok r => charge r
  | Err _ => 0
  end.

(** What the completed acquisitions hold. *)
Definition held (m : gmap Z (result BandwidthError Reservation)) : Z :=
  map_fold (λ _ c total, completion_charge c + total) 0 m.

(** What the bucket can still give, counting what is held for callers. *)
Definition level (b : BucketState) : Z := bk_credit_units b - bk_debt_units b + held (bk_completed b).

Lemma completion_charge_nonneg c : completion_ok c → 0 ≤ completion_charge c.
Proof. destruct c as [r|]; [|done]. intros (? & ? & _). cbn. unfold charge. lia. Qed.

Lemma held_insert_fresh m t c : m !! t = None → held (<[t := c]> m) = completion_charge c + held m.
Proof. intros Hm. unfold held. rewrite map_fold_insert_L; [done| |done]. intros. lia. Qed.

Lemma held_delete m t c : m !! t = Some c → held (delete t m) = held m - completion_charge c.
Proof.
  intros Hm. rewrite <- (insert_delete_id m t c) at 2 by done. rewrite held_insert_fresh by apply lookup_delete_eq. lia.
Qed.

(** An entry that replaces another only loses what the other held. *)
Lemma held_insert m t c : map_Forall (λ _, completion_ok) m → held (<[t := c]> m) ≤ completion_charge c + held m.
Proof.
  intros Hm. destruct (m !! t) as [c'|] eqn:Ht; [|by rewrite held_insert_fresh].
  rewrite <- insert_delete_eq, held_insert_fresh by apply lookup_delete_eq. rewrite (held_delete _ _ c') by done.
  pose proof (completion_charge_nonneg c' (Hm _ _ Ht)). lia.
Qed.

Lemma held_nonneg m : map_Forall (λ _, completion_ok) m → 0 ≤ held m.
Proof.
  induction m as [|t c m Ht IH] using map_ind; [done|]. intros [Hc Hm]%map_Forall_insert; [|done].
  rewrite held_insert_fresh by done. pose proof (completion_charge_nonneg c Hc). specialize (IH Hm). lia.
Qed.

Lemma units_exact x : 0 ≤ x ≤ U64_MAX → saturating_mul128 x BYTE_UNITS = x * BYTE_UNITS.
Proof. unfold saturating_mul128, U64_MAX, U128_MAX, BYTE_UNITS. lia. Qed.

Lemma bucket_set s d b : bucket (set_bucket s d b) d = b.
Proof. by destruct d. Qed.

Lemma bucket_set_ne s d d' b : d' ≠ d → bucket (set_bucket s d b) d' = bucket s d'.
Proof. by destruct d, d'. Qed.

Ltac units_lia := unfold reservation_ok, charge; cbn; unfold BYTE_UNITS in *; intros; lia.

(** ** The bucket *)

Section conformance.
Variables (top debt : Z).
Hypotheses (Htop : top ≤ U64_MAX) (Hdebt : 0 ≤ debt ≤ U64_MAX).

Lemma capacity_exact b r : bk_rate b = BytesPerSecond r → 0 < r ≤ top →
  capacity_bytes b = r ∧ capacity_units b = r * BYTE_UNITS.
Proof. intros Hb Hr. unfold capacity_units, capacity_bytes. rewrite Hb. cbn. split; [done|]. apply units_exact. lia. Qed.

(** Between two states of a dispatch: nothing is minted. *)
Record settles (b b' : BucketState) : Prop := mkSettles {
  st_ok : bucket_ok top debt b';
  st_rate : bk_rate b' = bk_rate b;
  st_refill : bk_last_refill b' = bk_last_refill b;
  st_level : level b' ≤ level b;
  st_debt : 0 < bk_debt_units b' → bk_credit_units b' = 0;
}.

Lemma refill_ok b now : bucket_ok top debt b →
  bucket_ok top debt (refill b now) ∧ bk_rate (refill b now) = bk_rate b ∧ bk_last_refill (refill b now) = now
  ∧ level (refill b now) ≤ level b + top * Z.max (now - bk_last_refill b) 0.
Proof.
  intros [(r & Hr & Hpos) Hc Hd Hq Hm]. destruct (capacity_exact b r Hr Hpos) as [Hcap Hunits].
  unfold refill, level. cbn. rewrite Hr. cbn. set (elapsed := Z.max _ 0).
  assert (0 ≤ saturating_mul128 elapsed r ≤ top * elapsed) as Hadd by (unfold saturating_mul128, U128_MAX; nia).
  set (add := saturating_mul128 elapsed r) in *. unfold capacity_units, capacity_bytes in *. cbn. rewrite Hr in *. cbn in *.
  rewrite Hunits in *. assert (0 ≤ r * BYTE_UNITS) by (unfold BYTE_UNITS; lia). unfold saturating_add128.
  split_and!; [split; cbn|done|done|lia].
  - by exists r.
  - unfold capacity_units, capacity_bytes. cbn. rewrite Hr. cbn. rewrite Hunits. unfold U128_MAX. lia.
  - lia.
  - unfold capacity_bytes. cbn. by rewrite Hr.
  - done.
Qed.

(** The credit and the debt may change within their bounds. *)
Lemma bucket_ok_with b b' : bucket_ok top debt b → bk_rate b' = bk_rate b →
  0 ≤ bk_credit_units b' ≤ capacity_units b → 0 ≤ bk_debt_units b' ≤ debt * BYTE_UNITS →
  Forall (waiter_ok debt (capacity_bytes b)) (bk_queue b') → map_Forall (λ _, completion_ok) (bk_completed b') →
  bucket_ok top debt b'.
Proof.
  intros [Hr Hc Hd Hq Hm] Hr' Hc' Hd' Hq' Hm'.
  assert (capacity_bytes b' = capacity_bytes b) as Hcap by (unfold capacity_bytes; by rewrite Hr').
  split; [by rewrite Hr'|unfold capacity_units in *; by rewrite Hcap|done|by rewrite Hcap|done].
Qed.

(** A reservation comes out of the credit, or leaves a debt. *)
Lemma try_reserve_ok b w res b' : bucket_ok top debt b → (0 < bk_debt_units b → bk_credit_units b = 0) →
  waiter_ok debt (capacity_bytes b) w → try_reserve b (wt_request w) (wt_deficit_bytes w) = Some (res, b') →
  bucket_ok top debt b' ∧ reservation_ok res ∧ (0 < bk_debt_units b' → bk_credit_units b' = 0)
  ∧ bk_rate b' = bk_rate b ∧ bk_last_refill b' = bk_last_refill b ∧ bk_queue b' = bk_queue b ∧ bk_completed b' = bk_completed b
  ∧ bk_credit_units b' - bk_debt_units b' + charge res = bk_credit_units b - bk_debt_units b.
Proof.
  intros Hb Hopen ([Hn Hmax] & Hpos & Hdef & Hfit) Hres. pose proof Hb as [(r & Hr & Hrpos) Hc Hd Hq Hm].
  destruct (capacity_exact b r Hr Hrpos) as [Hcap Hunits]. rewrite Hunits in Hc. destruct (wt_request w) as [n|n max]; cbn in *.
  - set (grant := Z.min _ _) in Hres. case_match eqn:Hz; [done|].
    assert (0 < grant ≤ n ∧ grant * BYTE_UNITS ≤ bk_credit_units b) as [Hg Hle]
      by (unfold grant, BYTE_UNITS, BANDWIDTH_QUANTUM_BYTES in *; Z.to_euclidean_division_equations; lia).
    clearbody grant. rewrite units_exact in Hres by lia. rewrite (proj2 (Z.leb_le grant U64_MAX)) in Hres by lia. injection Hres as <- <-.
    assert (0 < grant * BYTE_UNITS) by (unfold BYTE_UNITS; lia).
    split_and!; try done; [apply (bucket_ok_with b); rewrite ?Hunits; try done; units_lia|units_lia..].
  - destruct (wt_deficit_bytes w <? n); [done|]. rewrite !units_exact, Hunits in Hres by lia.
    assert (0 < n * BYTE_UNITS ∧ 0 < r * BYTE_UNITS) as [? ?] by (unfold BYTE_UNITS; lia).
    destruct (Z.leb_spec (n * BYTE_UNITS) (r * BYTE_UNITS)); case_match eqn:Hlt; try done.
    + injection Hres as <- <-. split_and!; try done;
        [apply (bucket_ok_with b); rewrite ?Hunits; try done; units_lia|units_lia..].
    + case_match eqn:Hmd; [done|]. injection Hres as <- <-. assert (bk_credit_units b = r * BYTE_UNITS) by lia.
      split_and!; try done; [apply (bucket_ok_with b); rewrite ?Hunits; try done; units_lia|units_lia..].
Qed.

Lemma serve_ok b w : bucket_ok top debt b → (0 < bk_debt_units b → bk_credit_units b = 0) →
  waiter_ok debt (capacity_bytes b) w → settles b (serve b w).1.1.
Proof.
  intros Hb Hopen Hw. unfold serve. cbv zeta. set (w' := w <| wt_deficit_bytes ::= _ |>).
  assert (waiter_ok debt (capacity_bytes b) w') as Hw'.
  { destruct Hw as (Hreq & Hpos & Hdef & Hfit). split_and!; try done; cbn; unfold saturating_add64, BANDWIDTH_QUANTUM_BYTES, U64_MAX; lia. }
  destruct (try_reserve b _ _) as [[res b']|] eqn:Hres; cbn.
  - destruct (try_reserve_ok b w' res b' Hb Hopen Hw' Hres) as (Hb' & Hr & Hopen' & Hrate & Href & _ & Hcomp & Hlev).
    pose proof Hb' as [_ Hc' Hd' Hq' Hm']. split; try done.
    + apply (bucket_ok_with b'); try done. by apply map_Forall_insert_2.
    + unfold level. cbn. pose proof (held_insert (bk_completed b') (wt_ticket w') (Ok res) Hm') as Hh. cbn in Hh.
      rewrite Hcomp in *. lia.
  - pose proof Hb as [? ? ? Hq ?]. split; try done. apply (bucket_ok_with b); try done. apply Forall_app. split; [done|].
    by apply Forall_singleton.
Qed.

Lemma settles_trans b b' b'' : settles b b' → settles b' b'' → settles b b''.
Proof. intros [] []. split; [done|congruence..|lia|done]. Qed.

Lemma serve_front_ok b w queue : bucket_ok top debt b → (0 < bk_debt_units b → bk_credit_units b = 0) →
  bk_queue b = w :: queue → settles b (serve (b <| bk_queue := queue |>) w).1.1.
Proof.
  intros Hb Hopen Hq. pose proof Hb as [Hr Hc Hd Hw Hm]. rewrite Hq in Hw. apply Forall_cons in Hw as [Hw Hws].
  assert (bucket_ok top debt (b <| bk_queue := queue |>)) as Hb' by by apply (bucket_ok_with b).
  by destruct (serve_ok (b <| bk_queue := queue |>) w Hb' Hopen Hw).
Qed.

Lemma round_ok turns b granted made_progress : bucket_ok top debt b → (0 < bk_debt_units b → bk_credit_units b = 0) →
  settles b (round turns b granted made_progress).1.1.
Proof.
  revert b granted made_progress. induction turns as [|turns IH]; intros b granted made_progress Hb Hopen; [by split|].
  cbn. destruct (bk_queue b) as [|w queue] eqn:Hq; [by split|]. pose proof (serve_front_ok b w queue Hb Hopen Hq) as Hs.
  destruct (serve _ w) as [[b' served] progress]. eapply settles_trans; [done|]. apply IH; apply Hs.
Qed.

Lemma rounds_ok fuel b granted : bucket_ok top debt b → (0 < bk_debt_units b → bk_credit_units b = 0) →
  settles b (rounds fuel b granted).1.
Proof.
  revert b granted. induction fuel as [|fuel IH]; intros b granted Hb Hopen; [by split|].
  cbn. destruct (is_empty _); [by split|]. pose proof (round_ok (length (bk_queue b)) b granted false Hb Hopen) as Hs.
  destruct (round _ _ _ _) as [[b' granted'] progress]. destruct progress; [|done].
  eapply settles_trans; [done|]. apply IH; apply Hs.
Qed.

(** A dispatch refills the bucket and mints nothing. *)
Lemma dispatch_ok b now : bucket_ok top debt b →
  let b' := (dispatch b now).1 in
  bucket_ok top debt b' ∧ bk_rate b' = bk_rate b ∧ bk_last_refill b' = now
  ∧ level b' ≤ level b + top * Z.max (now - bk_last_refill b) 0.
Proof.
  intros Hb. destruct (refill_ok b now Hb) as (Hb' & Hr & Hl & Hlev). pose proof Hb' as [(r & Hr' & _) _ Hd _ _].
  unfold dispatch. rewrite bool_decide_false by (rewrite Hr'; done). case_match; [done|]. case_match eqn:Hdebt0; [done|].
  destruct (rounds_ok (dispatch_fuel (bk_queue (refill b now))) (refill b now) false Hb') as [? ? ? ? _]; [lia|].
  split_and!; [done|congruence..|lia].
Qed.

(** ** The limiter *)

(** An operation a caller may make: requests of any size, debts up to
    [debt], returned reservations, and limits of at most [top]. *)
Definition op_ok (d : BandwidthDirection) (o : op) : Prop :=
  match o with
  | OpAcquire _ _ request _ _ => request_ok debt request
  | OpCancel _ _ _ => True
  | OpRefund _ r _ => reservation_ok r
  | OpUpdate p _ => ∃ r, policy_rate p d = BytesPerSecond r ∧ 0 < r ≤ top
  end.

(** One step of a bucket: it stays in order, and what it hands out lowers its
    level. *)
Definition bucket_step (b b' : BucketState) (now out : Z) : Prop :=
  bucket_ok top debt b' ∧ bk_last_refill b' = now
  ∧ level b' + out * BYTE_UNITS ≤ level b + top * Z.max (now - bk_last_refill b) 0.

Lemma enqueue_ok s direction flow_id request s' t : bucket_ok top debt (bucket s direction) →
  request_ok debt request → request_bytes request ≠ 0 →
  enqueue s direction flow_id request = inr (s', t) →
  bucket_ok top debt (bucket s' direction) ∧ level (bucket s' direction) = level (bucket s direction)
  ∧ bk_last_refill (bucket s' direction) = bk_last_refill (bucket s direction)
  ∧ ∀ d, d ≠ direction → bucket s' d = bucket s d.
Proof.
  intros Hb [Hreq Hmax] Hnz. unfold enqueue. case_bool_decide; [done|].
  destruct (validate_request _ _) as [[]|] eqn:Hv; [|done]. destruct (_ <=? _); [done|].
  intros [= <- <-]. pose proof Hb as [(r & Hr & Hrp) ? ? Hq ?]. destruct (capacity_exact _ r Hr Hrp) as [Hcap _].
  set (q := bounded_for_limited_bucket request) in *. set (w := mkWaiter (lm_next_ticket s) flow_id q 0).
  assert (waiter_ok debt (capacity_bytes (bucket s direction)) w) as Hw.
  { unfold w, q in *. clear w q. destruct request as [n|n max]; cbn in *.
    - unfold waiter_ok, request_ok, BANDWIDTH_QUANTUM_BYTES. cbn. case_match; lia.
    - unfold waiter_ok, request_ok. cbn. revert Hv. unfold fits_debt, saturating_add128.
      destruct (Z.leb_spec n (Z.min (capacity_bytes (bucket s direction) + max) U128_MAX)); [|done]. lia. }
  rewrite bucket_set. split_and!; [|done|done|]; [|intros d Hne; rewrite bucket_set_ne by done; by destruct d].
  apply (bucket_ok_with (bucket s direction)); try done. apply Forall_app. split; [done|by apply Forall_singleton].
Qed.

Lemma acquire_queued_ok s direction ticket now :
  bucket_ok top debt (bucket s direction) →
  let '(s', _, _, outcome) := acquire_queued s direction ticket now in
  bucket_step (bucket s direction) (bucket s' direction) now (match outcome with Acquired (Ok r) => rv_bytes r | _ => 0 end)
  ∧ ∀ d, d ≠ direction → bucket s' d = bucket s d.
Proof.
  intros Hb. destruct (dispatch_ok (bucket s direction) now Hb) as (Hb' & Hr & Hl & Hlev). unfold acquire_queued.
  destruct (dispatch _ now) as [b' others]. cbn in *. pose proof Hb' as [? ? ? ? Hm].
  destruct (bk_completed b' !! ticket) as [c|] eqn:Hc; (split; [|intros; by rewrite bucket_set_ne]); rewrite bucket_set.
  - split_and!; [apply (bucket_ok_with b'); try done; by apply map_Forall_delete|done|].
    unfold level in *. cbn. rewrite (held_delete _ _ c) by done. pose proof (Hm _ _ Hc) as Hok.
    destruct c as [r|]; cbn in *; [destruct Hok as (_ & _ & <-)|]; lia.
  - split_and!; [done..|lia].
Qed.

Lemma refund_level b r : reservation_ok r → bucket_ok top debt b →
  bucket_ok top debt (bucket_refund b r) ∧ level (bucket_refund b r) ≤ level b + charge r
  ∧ bk_last_refill (bucket_refund b r) = bk_last_refill b.
Proof.
  intros (Hc & Hd & _) Hb. pose proof Hb as [(rate & Hr & Hp) ? ? ? ?]. destruct (capacity_exact b rate Hr Hp) as [Hcap Hu].
  split_and!; [|unfold bucket_refund, level, charge, saturating_add128; cbn; lia|done].
  apply (bucket_ok_with b); try done; [|cbn; lia]. change (bk_credit_units (bucket_refund b r)) with
    (Z.min (saturating_add128 (bk_credit_units b) (rv_credit_units r)) (capacity_units b)).
  unfold saturating_add128, U128_MAX. lia.
Qed.

Lemma cancel_ok s direction ticket now : bucket_ok top debt (bucket s direction) →
  let s' := (cancel s direction ticket now).1 in
  bucket_step (bucket s direction) (bucket s' direction) now 0 ∧ ∀ d, d ≠ direction → bucket s' d = bucket s d.
Proof.
  intros Hb. unfold cancel. set (b1 := (bucket s direction) <| bk_queue ::= remove_ticket ticket |>).
  assert (bucket_ok top debt b1) as Hb1.
  { pose proof Hb as [? ? ? Hq ?]. apply (bucket_ok_with (bucket s direction)); try done. revert Hq. unfold b1. cbn.
    induction (bk_queue (bucket s direction)) as [|w q IH]; cbn; [done|]. intros [? ?]%Forall_cons.
    case_match; [done|]. apply Forall_cons. by split; [|apply IH]. }
  assert (∀ t, bk_completed b1 !! ticket = Some t → bucket_ok top debt (b1 <| bk_completed ::= delete ticket |>)
    ∧ level (b1 <| bk_completed ::= delete ticket |>) = level b1 - completion_charge t) as Hdel.
  { intros t Ht. pose proof Hb1 as [? ? ? ? Hm]. split; [apply (bucket_ok_with b1); try done; by apply map_Forall_delete|].
    unfold level. cbn -[b1]. rewrite (held_delete _ _ t) by done. lia. }
  set (b2 := match bk_completed b1 !! ticket with Some _ => _ | None => _ end).
  assert (bucket_ok top debt b2 ∧ level b2 ≤ level b1 ∧ bk_last_refill b2 = bk_last_refill b1) as (Hb2 & Hlev & Hlast).
  { unfold b2. destruct (bk_completed b1 !! ticket) as [[r|]|] eqn:Ht; [| |done].
    - destruct (Hdel _ eq_refl) as [Hok Hl]. pose proof Hb1 as [_ _ _ _ Hm].
      destruct (refund_level _ r (Hm _ _ Ht) Hok) as (? & ? & ?). cbn in Hl. split_and!; [done|lia|done].
    - destruct (Hdel _ eq_refl) as [Hok Hl]. cbn in Hl. split_and!; [done|lia|done]. }
  destruct (dispatch_ok b2 now Hb2) as (Hb' & _ & Hl & Hd). destruct (dispatch b2 now) as [b' completed]. cbn in *.
  split; [|intros; by rewrite bucket_set_ne]. rewrite bucket_set. split_and!; [done..|].
  change (level b1) with (level (bucket s direction)) in Hlev. rewrite Hlast in Hd.
  change (bk_last_refill b1) with (bk_last_refill (bucket s direction)) in Hd. lia.
Qed.

Lemma refund_reservation_ok s direction r now : bucket_ok top debt (bucket s direction) → reservation_ok r →
  let s' := (refund_reservation s direction r now).1 in
  bucket_step (bucket s direction) (bucket s' direction) now (- rv_bytes r) ∧ ∀ d, d ≠ direction → bucket s' d = bucket s d.
Proof.
  intros Hb Hr. unfold refund_reservation. destruct (refill_ok (bucket s direction) now Hb) as (Hb1 & _ & Hl1 & Hlev1).
  destruct (refund_level _ r Hr Hb1) as (Hb2 & Hlev2 & Hl2). set (b2 := bucket_refund _ _) in *.
  destruct (dispatch_ok b2 now Hb2) as (Hb3 & _ & Hl3 & Hlev3). destruct (dispatch b2 now) as [b' completed]. cbn [fst] in *.
  split; [|intros; by rewrite bucket_set_ne]. rewrite bucket_set. split_and!; [done..|].
  destruct Hr as (_ & _ & Hch). rewrite Hl2, Hl1, Z.sub_diag in Hlev3. lia.
Qed.

(** The loop of [update]: the waiters that still fit stay. *)
Lemma update_waiters_ok rate capacity capacity' queue retained completed :
  rate ≠ Unlimited → Forall (waiter_ok debt capacity) queue → Forall (waiter_ok debt capacity') retained →
  map_Forall (λ _, completion_ok) completed →
  let '(retained', completed') := foldl (update_waiter rate capacity') (retained, completed) queue in
  Forall (waiter_ok debt capacity') retained' ∧ map_Forall (λ _, completion_ok) completed' ∧ held completed' ≤ held completed.
Proof.
  intros Hrate. revert retained completed. induction queue as [|w queue IH]; intros retained completed Hq Hret Hm; [done|].
  apply Forall_cons in Hq as [Hw Hq]. cbn. rewrite bool_decide_false by done. cbn.
  assert (Forall (waiter_ok debt capacity') retained → waiter_ok debt capacity' w → Forall (waiter_ok debt capacity') (retained ++ [w])) as Hsnoc
    by (intros; apply Forall_app; split; [done|by apply Forall_singleton]).
  destruct Hw as (Hreq & Hpos & Hdef & Hfit). destruct (wt_request w) as [n|n max] eqn:Hwr.
  - apply IH; [done| |done]. apply Hsnoc; [done|]. unfold waiter_ok. by rewrite Hwr.
  - unfold fits_debt. destruct (Z.leb_spec n (saturating_add128 capacity' max)) as [Hle|_].
    + apply IH; [done| |done]. apply Hsnoc; [done|]. unfold waiter_ok. rewrite Hwr. unfold saturating_add128 in Hle.
      do 3 (split; [done|]). lia.
    + specialize (IH retained (<[wt_ticket w := Err (IndivisibleDebtLimit n capacity' max)]> completed) Hq Hret).
      pose proof (held_insert completed (wt_ticket w) (Err (IndivisibleDebtLimit n capacity' max)) Hm) as Hh. cbn in Hh.
      destruct (foldl _ _ queue) as [retained' completed']. destruct IH as (? & ? & ?); [by apply map_Forall_insert_2|].
      split_and!; [done..|lia].
Qed.

Lemma bucket_update_ok b r now : bucket_ok top debt b → 0 < r ≤ top →
  let b' := bucket_update b (BytesPerSecond r) now in
  bucket_ok top debt b' ∧ bk_last_refill b' = now ∧ level b' ≤ level b + top * Z.max (now - bk_last_refill b) 0.
Proof.
  intros Hb Hr. destruct (refill_ok b now Hb) as (Hb1 & _ & Hl & Hlev). pose proof Hb1 as [_ Hc Hd Hq Hm].
  unfold bucket_update. set (b1 := refill b now) in *. set (b2 := b1 <| bk_rate := BytesPerSecond r |>).
  set (b3 := (b2 <| bk_credit_units ::= _ |>) <| bk_last_refill := now |>).
  pose proof (update_waiters_ok (BytesPerSecond r) (capacity_bytes b1) (capacity_bytes b3) (bk_queue b3) [] (bk_completed b3)
    ltac:(done) Hq (Forall_nil_2 _) Hm) as Hw.
  destruct (foldl _ _ _) as [retained completed]. destruct Hw as (Hq' & Hm' & Hh).
  destruct (capacity_exact b2 r eq_refl Hr) as [_ Hu]. assert (0 ≤ capacity_units b2) by (rewrite Hu; unfold BYTE_UNITS; lia).
  split_and!; [split|done|]; cbn -[capacity_units]; try done.
  - by exists r.
  - change (0 ≤ Z.min (bk_credit_units b1) (capacity_units b2) ≤ capacity_units b2). lia.
  - unfold level in *. cbn -[capacity_units held]. change (bk_completed b3) with (bk_completed b1) in Hh. lia.
Qed.

Lemma update_ok s p now d : bucket_ok top debt (bucket s d) → op_ok d (OpUpdate p now) →
  bucket_step (bucket s d) (bucket (update s p now) d) now 0.
Proof.
  intros Hb (r & Hr & Hpos).
  assert (bucket (update s p now) d = (dispatch (bucket_update (bucket s d) (policy_rate p d) now) now).1) as -> by by destruct d.
  rewrite Hr. destruct (bucket_update_ok _ r now Hb Hpos) as (Hb1 & Hl1 & Hlev1).
  destruct (dispatch_ok _ now Hb1) as (Hb2 & _ & Hl2 & Hlev2). rewrite Hl1, Z.sub_diag in Hlev2. cbn [Z.max] in Hlev2.
  split_and!; [done..|]. cbn in Hlev2. lia.
Qed.

(** What happens in one direction leaves the other as it is. *)
Lemma step_frame d s o : match o with
    | OpAcquire _ direction _ _ _ | OpCancel direction _ _ | OpRefund direction _ _ => direction ≠ d
    | OpUpdate _ _ => False
    end →
  bucket (step d s o).1.1 d = bucket s d ∧ (step d s o).2 = 0.
Proof.
  assert (∀ direction (s s' : LimiterState) b, direction ≠ d → bucket s d = bucket s' d →
    bucket (set_bucket s direction b) d = bucket s' d) as Hset by (intros; by rewrite bucket_set_ne).
  destruct o as [flow_id direction request ticket now|direction ticket now|direction r now|]; intros Hne; [..|done]; cbn.
  - unfold acquire. destruct (_ =? 0); [cbn; split; [done|by rewrite bool_decide_false]|].
    assert (∀ s' t, bucket s' d = bucket s d → bucket (acquire_queued s' direction t now).1.1.1 d = bucket s d) as Hq.
    { intros s' t Hs. unfold acquire_queued. destruct (dispatch _ now). case_match; by apply Hset. }
    rewrite bool_decide_false by done. destruct ticket as [t|].
    + specialize (Hq s t eq_refl). destruct (acquire_queued _ _ _ _) as [[[s' ?] ?] [[]|]]; done.
    + unfold enqueue. case_bool_decide; [done|]. destruct (validate_request _ _) as [[]|]; [|done]. destruct (_ <=? _); [done|].
      match goal with |- context [acquire_queued ?s' _ ?t _] => specialize (Hq s' t) end.
      destruct (acquire_queued _ _ _ _) as [[[s' ?] ?] [[]|]]; (split; [|done]); (apply Hq, Hset; [done|by destruct d]).
  - unfold cancel. destruct (dispatch _ _). by split; [apply Hset|].
  - unfold refund_reservation. destruct (dispatch _ _). cbn. rewrite bool_decide_false by done. by split; [apply Hset|].
Qed.

Lemma step_ok d s o : bucket_ok top debt (bucket s d) → op_ok d o →
  let '(s', _, out) := step d s o in
  bucket_step (bucket s d) (bucket s' d) (op_now o) out ∨ bucket s' d = bucket s d ∧ out = 0.
Proof.
  intros Hb Ho. pose proof (step_frame d s o) as Hframe. destruct (step d s o) as [[s' notify] out] eqn:Hs. cbn in Hframe.
  destruct o as [flow_id direction request ticket now|direction ticket now|direction r now|p now].
  4: { injection Hs as <- <- <-. left. by apply update_ok. }
  all: destruct (decide (direction = d)) as [-> |Hne]; [|right; by apply Hframe]; clear Hframe; cbn in Hs.
  - unfold acquire in Hs. destruct (Z.eqb_spec (request_bytes request) 0) as [_|Hnz].
    { injection Hs as <- _ <-. right. split; [done|]. by case_bool_decide. }
    rewrite bool_decide_true in Hs by done.
    assert (∀ s1 t, bucket_ok top debt (bucket s1 d) → level (bucket s1 d) = level (bucket s d) →
      bk_last_refill (bucket s1 d) = bk_last_refill (bucket s d) →
      (let '(s, _, notify, outcome) := acquire_queued s1 d t now in
        (s, notify, match outcome with Acquired (Ok r) => rv_bytes r | _ => 0 end)) = (s', notify, out) →
      bucket_step (bucket s d) (bucket s' d) now out) as Hq.
    { intros s1 t Hb1 Hl Hr Heq. pose proof (acquire_queued_ok s1 d t now Hb1) as Hst.
      destruct (acquire_queued s1 d t now) as [[[s2 t2] n2] outcome]. injection Heq as <- <- <-.
      destruct Hst as [(? & ? & Hlev) _]. rewrite Hl, Hr in Hlev. by split_and!. }
    destruct ticket as [t|]; [left; by apply (Hq s t)|]. destruct (enqueue s d flow_id request) as [o|[s1 t]] eqn:He.
    + right. pose proof Hb as [(r & Hr & _) _ _ _ _]. unfold enqueue in He. rewrite bool_decide_false in He by by rewrite Hr.
      destruct (validate_request _ _) as [[]|]; [destruct (_ <=? _); [|done]|]; injection He as <-; by injection Hs as <- <- <-.
    + destruct (enqueue_ok s d flow_id request s1 t Hb Ho Hnz He) as (Hb1 & Hl & Hr & _). left. by apply (Hq s1 t).
  - pose proof (cancel_ok s d ticket now Hb) as [Hst _]. destruct (cancel s d ticket now) as [s1 n1].
    injection Hs as <- <- <-. by left.
  - pose proof (refund_reservation_ok s d r now Hb Ho) as [Hst _]. rewrite bool_decide_true in Hs by done.
    destruct (refund_reservation s d r now) as [s1 n1]. injection Hs as <- <- <-. by left.
Qed.

(** Instants that do not go back, from [t] on. *)
Fixpoint in_order (t : Z) (ops : list op) : Prop :=
  match ops with
  | [] => True
  | o :: ops => t ≤ op_now o ∧ in_order (op_now o) ops
  end.

Definition last_instant (t : Z) (ops : list op) : Z := foldl (λ _ o, op_now o) t ops.

Lemma last_instant_le t ops : in_order t ops → t ≤ last_instant t ops.
Proof.
  unfold last_instant. revert t. induction ops as [|o ops IH]; intros t; cbn; [done|]. intros [Ht Ho]. specialize (IH _ Ho). lia.
Qed.

Lemma run_ok d s ops t : bucket_ok top debt (bucket s d) → bk_last_refill (bucket s d) ≤ t → in_order t ops →
  Forall (op_ok d) ops → 0 ≤ top →
  let '(s', total) := run d s ops in
  bucket_ok top debt (bucket s' d)
  ∧ level (bucket s' d) + total * BYTE_UNITS ≤ level (bucket s d) + top * (last_instant t ops - bk_last_refill (bucket s d)).
Proof.
  revert s t. induction ops as [|o ops IH]; intros s t Hb Hl Ho Hops Hpos.
  { cbn. split; [done|]. nia. }
  destruct Ho as [Ht Ho]. apply Forall_cons in Hops as [Hop Hops]. pose proof (step_ok d s o Hb Hop) as Hstep. cbn [run].
  destruct (step d s o) as [[s1 n] out].
  assert (bucket_ok top debt (bucket s1 d) ∧ bk_last_refill (bucket s1 d) ≤ op_now o
    ∧ level (bucket s1 d) + out * BYTE_UNITS ≤
      level (bucket s d) + top * (bk_last_refill (bucket s1 d) - bk_last_refill (bucket s d))) as (Hb1 & Hl1 & Hlev).
  { destruct Hstep as [(Hb1 & Hl1 & Hlev)|[-> ->]]; [|split_and!; [done|lia|lia]].
    rewrite Hl1. split_and!; [done|done|]. rewrite Z.max_l in Hlev by lia. lia. }
  specialize (IH s1 (op_now o) Hb1 Hl1 Ho Hops Hpos). destruct (run d s1 ops) as [s2 total]. destruct IH as [Hb2 Hlev2].
  split; [done|]. unfold last_instant in *. cbn [foldl]. lia.
Qed.
End conformance.

(** ** Merged grants *)

(** As long as no sum of units saturates. *)
Lemma refund_merged b r r' :
  0 ≤ bk_credit_units b → 0 ≤ bk_debt_units b → reservation_ok r → reservation_ok r' →
  bk_credit_units b + rv_credit_units r + rv_credit_units r' ≤ U128_MAX → rv_debt_units r + rv_debt_units r' ≤ U128_MAX →
  bucket_refund b (mkReservation (saturating_add64 (rv_bytes r) (rv_bytes r'))
                     (saturating_add128 (rv_credit_units r) (rv_credit_units r'))
                     (saturating_add128 (rv_debt_units r) (rv_debt_units r')))
  = bucket_refund (bucket_refund b r) r'.
Proof.
  intros Hc Hd (Hr & Hr' & _) (Hs & Hs' & _) Hcs Hds. destruct b as [rate credit debt last queue completed].
  assert (∀ c d x y z, bucket_refund (mkBucket rate c d last queue completed) (mkReservation x y z)
    = mkBucket rate (Z.min (saturating_add128 c y) (saturating_mul128 (default 0 (bytes_per_second rate)) BYTE_UNITS))
        (Z.max (d - z) 0) last queue completed) as Hb by done.
  destruct r as [x y z], r' as [x' y' z']. cbn [rv_bytes rv_credit_units rv_debt_units bk_credit_units bk_debt_units] in *.
  rewrite !Hb. unfold saturating_add128. generalize (saturating_mul128 (default 0 (bytes_per_second rate)) BYTE_UNITS) as cap.
  intros cap. f_equal; lia.
Qed.

(** Merging two grants of a flow loses nothing of what they return: giving
    the merged grant back is giving both back, and a commit or a refund leaves
    nothing to give back again. *)
Lemma merge_conserves f r r' b :
  0 ≤ bk_credit_units b → 0 ≤ bk_debt_units b → reservation_ok r → reservation_ok r' →
  bk_credit_units b + rv_credit_units r + rv_credit_units r' ≤ U128_MAX → rv_debt_units r + rv_debt_units r' ≤ U128_MAX →
  ∃ g merged, merge (refundable f r) (refundable f r') = (Ok g, None) ∧ gr_reservation g = Some merged
    ∧ gr_reservation (commit g).1 = None ∧ bucket_refund b merged = bucket_refund (bucket_refund b r) r'.
Proof.
  intros. unfold merge. cbn. rewrite !Z.eqb_refl, bool_decide_true by done. cbn.
  eexists _, _. split; [reflexivity|]. split; [reflexivity|]. split; [reflexivity|]. by apply refund_merged.
Qed.

(** C5 (safety). A direction limited to at most [top] bytes a second hands
    out, less what is returned, no more than [top] bytes a second from one
    second before it was set up, and the largest debt a caller allows: for
    every sequence of acquisitions, cancellations, refunds and changes of the
    limit, at instants that do not go back. *)
Theorem rate_conformance top debt d p t0 ops :
  top ≤ U64_MAX → 0 ≤ debt ≤ U64_MAX → op_ok top debt d (OpUpdate p t0) → Forall (op_ok top debt d) ops → in_order t0 ops →
  (run d (limiter_new p t0) ops).2 * BYTE_UNITS ≤ top * (BYTE_UNITS + last_instant t0 ops - t0) + debt * BYTE_UNITS.
Proof.
  intros Htop Hdebt (r & Hr & Hpos) Hops Ho. set (s := limiter_new p t0).
  assert (bucket s d = bucket_new (BytesPerSecond r) t0) as Hs by (destruct d; cbn in *; by rewrite Hr).
  assert (bucket_ok top debt (bucket s d)) as Hb.
  { rewrite Hs. unfold bucket_new. cbn. assert (saturating_mul128 r BYTE_UNITS = r * BYTE_UNITS) as Hu by (apply units_exact; lia).
    split; cbn; [by exists r| |unfold BYTE_UNITS; lia|done|done]. unfold capacity_units, capacity_bytes. cbn. rewrite Hu. unfold BYTE_UNITS. lia. }
  assert (level (bucket s d) ≤ top * BYTE_UNITS ∧ bk_last_refill (bucket s d) = t0) as [Hlev Hl].
  { rewrite Hs. split; [|done].
    change (level (bucket_new (BytesPerSecond r) t0)) with (saturating_mul128 r BYTE_UNITS - 0 + 0).
    rewrite units_exact by lia. unfold BYTE_UNITS. lia. }
  pose proof (run_ok top debt Htop Hdebt d s ops t0 Hb ltac:(lia) Ho Hops ltac:(lia)) as Hrun.
  destruct (run d s ops) as [s' total]. destruct Hrun as [[_ Hc Hd _ Hm] Hle]. unfold level in *. cbn [snd].
  pose proof (held_nonneg _ Hm). rewrite Hl in Hle. lia.
Qed.
