(* ===== verification/BandwidthLive.v ===== *)
(** * Waiting for bandwidth

    The dispatch of [Bandwidth] ends with every waiter out of reach of the
    credit; a caller that has to wait has a deadline by which somebody can be
    served; no waiting acquisition is forgotten and every completion wakes the
    waiters.  Concrete runs show two ways in which the limiter falls short. *)

From stdpp Require Import countable gmap functions.
From S2P Require Import Prelude Bytes Bandwidth BandwidthSpec.

(** ** Pending acquisitions *)

Definition pending (b : BucketState) (t : Z) : Prop := t ∈ map wt_ticket (bk_queue b) ∨ is_Some (bk_completed b !! t).

Definition pending_count (b : BucketState) : Z := len (bk_queue b) + Z.of_nat (size (bk_completed b)).

(** Between two states of a dispatch: nothing pending is lost or added, and
    what is completed stays so. *)
Record keeps (b b' : BucketState) : Prop := mkKeeps {
  kp_pending t : pending b t → pending b' t;
  kp_completed t : is_Some (bk_completed b !! t) → is_Some (bk_completed b' !! t);
  kp_count : pending_count b' ≤ pending_count b;
}.

#[export] Instance keeps_preorder : PreOrder keeps.
Proof. split; [by split|]. intros b b' b'' [] []. split; [naive_solver..|lia]. Qed.

Lemma size_insert_le {A} (m : gmap Z A) t a : Z.of_nat (size (<[t := a]> m)) ≤ 1 + Z.of_nat (size m).
Proof. rewrite map_size_insert. case_match; unfold id; lia. Qed.

Lemma insert_keeps {A} (m : gmap Z A) t a t' : is_Some (m !! t') → is_Some (<[t := a]> m !! t').
Proof. intros ?. by rewrite lookup_insert_is_Some'; right. Qed.

(** A reservation touches the credit and the debt only, whatever the queue. *)
Lemma try_reserve_frame b request deficit res b' : try_reserve b request deficit = Some (res, b') →
  bk_queue b' = bk_queue b ∧ bk_completed b' = bk_completed b.
Proof. unfold try_reserve. repeat case_match; by intros [= <- <-]. Qed.

Lemma try_reserve_none b b' request deficit :
  bk_credit_units b = bk_credit_units b' → bk_rate b = bk_rate b' →
  try_reserve b request deficit = None → try_reserve b' request deficit = None.
Proof.
  intros Hc Hr. unfold try_reserve, capacity_units, capacity_bytes. rewrite Hc, Hr. by repeat case_match.
Qed.

Lemma serve_keeps b w queue : bk_queue b = w :: queue → keeps b (serve (b <| bk_queue := queue |>) w).1.1.
Proof.
  intros Hq. unfold serve. cbv zeta. set (w' := w <| wt_deficit_bytes ::= _ |>).
  assert (wt_ticket w' = wt_ticket w) as Ht by done.
  destruct (try_reserve _ _ _) as [[res b']|] eqn:Hres.
  - apply try_reserve_frame in Hres as [Hq' Hc']. cbn in Hq', Hc'.
    split; unfold pending, pending_count; cbn -[size len]; rewrite ?Hq', ?Hc', ?Hq; cbn -[size len]; rewrite ?Ht.
    + intros t [[-> |Hin]%elem_of_cons|Hs]; [right; by rewrite lookup_insert_eq|by left|right; by apply insert_keeps].
    + intros t. apply insert_keeps.
    + pose proof (size_insert_le (bk_completed b) (wt_ticket w) (Ok res)). len_simpl. lia.
  - split; unfold pending, pending_count; cbn -[size len]; rewrite ?Hq.
    + intros t [Hin|Hs]; [left|by right]. cbn in Hin. rewrite map_app. cbn. set_solver.
    + done.
    + len_simpl. lia.
Qed.

Lemma round_keeps turns b granted made_progress : keeps b (round turns b granted made_progress).1.1.
Proof.
  revert b granted made_progress. induction turns as [|turns IH]; intros b granted made_progress; [done|]. cbn.
  destruct (bk_queue b) as [|w queue] eqn:Hq; [done|]. pose proof (serve_keeps b w queue Hq) as Hs.
  destruct (serve _ w) as [[b' served] progress]. by etrans; [|apply IH].
Qed.

Lemma rounds_keeps fuel b granted : keeps b (rounds fuel b granted).1.
Proof.
  revert b granted. induction fuel as [|fuel IH]; intros b granted; [done|]. cbn. destruct (is_empty _); [done|].
  pose proof (round_keeps (length (bk_queue b)) b granted false) as Hs.
  destruct (round _ _ _ _) as [[b' granted'] []]; [|done]. by etrans; [|apply IH].
Qed.

Lemma refill_frame b now : bk_queue (refill b now) = bk_queue b ∧ bk_completed (refill b now) = bk_completed b
  ∧ bk_rate (refill b now) = bk_rate b.
Proof. unfold refill. cbv zeta. by destruct (bytes_per_second _). Qed.

Lemma drain_completes queue m t :
  t ∈ map wt_ticket queue ∨ is_Some (m !! t) → is_Some (foldl drain m queue !! t).
Proof.
  revert m. induction queue as [|w queue IH]; intros m; cbn; [intros [?%not_elem_of_nil|?]; done|].
  intros Ht. apply IH. destruct Ht as [[-> |?]%elem_of_cons|?]; [right|by left|right; by apply insert_keeps].
  unfold drain. by rewrite lookup_insert_eq.
Qed.

Lemma drain_count queue m : Z.of_nat (size (foldl drain m queue)) ≤ len queue + Z.of_nat (size m).
Proof.
  revert m. induction queue as [|w queue IH]; intros m; cbn; [done|]. specialize (IH (drain m w)).
  pose proof (size_insert_le m (wt_ticket w) (Ok (mkReservation (request_bytes (wt_request w)) 0 0))).
  unfold drain in *. len_simpl. lia.
Qed.

Lemma dispatch_keeps b now : keeps b (dispatch b now).1.
Proof.
  destruct (refill_frame b now) as (Hq & Hc & _).
  assert (keeps b (refill b now)) as Hr by (split; unfold pending, pending_count; by rewrite ?Hq, ?Hc).
  unfold dispatch. destruct (is_empty _); [done|]. case_bool_decide.
  - etrans; [done|]. split; cbn.
    + intros t Ht. right. by apply drain_completes.
    + intros t Ht. by apply drain_completes; right.
    + unfold pending_count. cbn. apply drain_count.
  - destruct (0 <? _); [done|]. etrans; [done|apply rounds_keeps].
Qed.

(** [update] completes the waiters it drops. *)
Lemma update_waiters_keep rate capacity queue retained completed t :
  let '(retained', completed') := foldl (update_waiter rate capacity) (retained, completed) queue in
  (t ∈ map wt_ticket retained ∨ t ∈ map wt_ticket queue ∨ is_Some (completed !! t) →
    t ∈ map wt_ticket retained' ∨ is_Some (completed' !! t))
  ∧ (is_Some (completed !! t) → is_Some (completed' !! t))
  ∧ len retained' + Z.of_nat (size completed') ≤ len retained + len queue + Z.of_nat (size completed).
Proof.
  revert retained completed. induction queue as [|w queue IH]; intros retained completed; cbn [foldl].
  { split_and!; [|done|len_simpl; lia]. intros [?|[?%not_elem_of_nil|?]]; [by left|done|by right]. }
  assert (update_waiter rate capacity (retained, completed) w = (retained ++ [w], completed)
    ∨ ∃ e, update_waiter rate capacity (retained, completed) w = (retained, <[wt_ticket w := Err e]> completed)) as [-> |[e ->]]
    by (unfold update_waiter; destruct (wt_request w); [by left|]; destruct (_ || _); [by left|right; by eexists]).
  - specialize (IH (retained ++ [w]) completed). destruct (foldl _ _ queue) as [retained' completed'].
    destruct IH as (Hp & Hc & Hn). split_and!; [|done|len_simpl; lia]. intros Ht. apply Hp. rewrite map_app. cbn. set_solver.
  - specialize (IH retained (<[wt_ticket w := Err e]> completed)). destruct (foldl _ _ queue) as [retained' completed'].
    destruct IH as (Hp & Hc & Hn). pose proof (size_insert_le completed (wt_ticket w) (Err e)). split_and!; [| |len_simpl; lia].
    + intros [?|[[-> |?]%elem_of_cons|?]]; apply Hp; [by left| |by right; left|right; right; by apply insert_keeps].
      right. right. by rewrite lookup_insert_eq.
    + intros ?. by apply Hc, insert_keeps.
Qed.

Lemma bucket_update_keeps b rate now : keeps b (bucket_update b rate now).
Proof.
  destruct (refill_frame b now) as (Hq & Hc & _). unfold bucket_update. set (b3 := (_ <| bk_credit_units ::= _ |>) <| bk_last_refill := now |>).
  assert (bk_queue b3 = bk_queue b ∧ bk_completed b3 = bk_completed b) as [-> ->] by done.
  pose proof (update_waiters_keep rate (capacity_bytes b3) (bk_queue b) [] (bk_completed b)) as Hu.
  destruct (foldl _ _ _) as [retained completed]. split; [intros t Ht|intros t Ht|]; unfold pending, pending_count in *; cbn -[size len].
  - destruct (Hu t) as (Hp & _). apply Hp. by right.
  - destruct (Hu t) as (_ & Hs & _). by apply Hs.
  - destruct (Hu 0) as (_ & _ & Hn). len_simpl. lia.
Qed.

(** ** Dispatches that grant nothing *)

(** Nothing but the deficits and the order of the waiters has changed. *)
Record idle (b b' : BucketState) : Prop := mkIdle {
  id_rate : bk_rate b' = bk_rate b;
  id_credit : bk_credit_units b' = bk_credit_units b;
  id_debt : bk_debt_units b' = bk_debt_units b;
  id_completed : bk_completed b' = bk_completed b;
  id_queue : map wt_request (bk_queue b') ≡ₚ map wt_request (bk_queue b);
}.

#[export] Instance idle_preorder : PreOrder idle.
Proof. split; [by split|]. intros b b' b'' [] []. split; [congruence..|by etrans]. Qed.

Lemma serve_idle b w queue b' progress : bk_queue b = w :: queue →
  serve (b <| bk_queue := queue |>) w = (b', false, progress) → idle b b'.
Proof.
  intros Hq. unfold serve. cbv zeta. destruct (try_reserve _ _ _) as [[res b1]|]; [done|]. intros [= <- <-].
  split; try done. cbn. rewrite Hq, map_app. cbn. symmetry. apply Permutation_cons_append.
Qed.

Lemma round_idle turns b granted made_progress b' progress :
  round turns b granted made_progress = (b', false, progress) → granted = false ∧ idle b b'.
Proof.
  revert b granted made_progress. induction turns as [|turns IH]; intros b granted made_progress; cbn; [by intros [= <- -> <-]|].
  destruct (bk_queue b) as [|w queue] eqn:Hq; [by intros [= <- -> <-]|].
  destruct (serve _ w) as [[b1 served] progress1] eqn:Hs. intros [[-> ->]%orb_false_iff Hi]%IH.
  split; [done|]. by etrans; [eapply serve_idle|].
Qed.

Lemma rounds_idle fuel b granted b' : rounds fuel b granted = (b', false) → granted = false ∧ idle b b'.
Proof.
  revert b granted. induction fuel as [|fuel IH]; intros b granted; cbn; [by intros [= <- ->]|].
  destruct (is_empty _); [by intros [= <- ->]|]. destruct (round _ _ _ _) as [[b1 granted1] progress] eqn:Hr.
  destruct progress.
  - intros [-> Hi]%IH. apply round_idle in Hr as [-> Hi']. split; [done|by etrans].
  - intros [= -> ->]. by apply round_idle in Hr.
Qed.

Lemma dispatch_completions b now : (dispatch b now).2 = false → bk_completed (dispatch b now).1 = bk_completed b.
Proof.
  destruct (refill_frame b now) as (_ & Hc & _). unfold dispatch. destruct (is_empty _); [done|]. case_bool_decide; [done|].
  destruct (0 <? _); [done|]. destruct (rounds _ _ _) as [b' granted] eqn:Hr. intros Hg. cbn [fst snd] in *. rewrite Hg in Hr.
  apply rounds_idle in Hr as [_ [_ _ _ Hi _]]. congruence.
Qed.

(** ** The dispatch ends *)

Section live.
Variables (top debt : Z).
Hypotheses (Htop : top ≤ U64_MAX) (Hdebt : 0 ≤ debt ≤ U64_MAX).

(** All its quanta, and yet out of reach. *)
Definition stuck (b : BucketState) (w : Waiter) : Prop :=
  wt_deficit_bytes w = request_bytes (wt_request w) ∧ try_reserve b (wt_request w) (wt_deficit_bytes w) = None.

Definition work (queue : list Waiter) : Z := foldr Z.add 0 (map turns_left queue).

Lemma work_app q q' : work (q ++ q') = work q + work q'.
Proof. induction q as [|w q IH]; [done|]. unfold work in *. cbn. lia. Qed.

Lemma turns_left_pos capacity w : waiter_ok debt capacity w → 1 ≤ turns_left w.
Proof. intros (_ & _ & ? & _). unfold turns_left, BANDWIDTH_QUANTUM_BYTES. Z.to_euclidean_division_equations; lia. Qed.

Lemma work_nonneg capacity q : Forall (waiter_ok debt capacity) q → 0 ≤ work q.
Proof.
  unfold work. induction 1 as [|w q Hw _ IH]; cbn; [done|]. pose proof (turns_left_pos _ _ Hw). lia.
Qed.

(** A turn serves the waiter, brings it a quantum closer, or finds it stuck. *)
Lemma serve_work b w queue : Forall (waiter_ok debt (capacity_bytes b)) (bk_queue b) → bk_queue b = w :: queue →
  let '(b', served, progress) := serve (b <| bk_queue := queue |>) w in
  if progress then work (bk_queue b') + 1 ≤ work (bk_queue b)
  else stuck b w ∧ b' = b <| bk_queue := queue ++ [w] |>.
Proof.
  intros Hok Hq. rewrite Hq in Hok |- *. apply Forall_cons in Hok as [Hw _]. pose proof (turns_left_pos _ _ Hw) as Hpos.
  destruct Hw as ([Hb _] & Hp & Hd & _). unfold serve. cbv zeta. set (w' := w <| wt_deficit_bytes ::= _ |>).
  assert (wt_deficit_bytes w' = Z.min (saturating_add64 (wt_deficit_bytes w) BANDWIDTH_QUANTUM_BYTES) (request_bytes (wt_request w))) as Hdef by done.
  assert (wt_request w' = wt_request w) as Hreq by done. unfold saturating_add64 in Hdef.
  destruct (try_reserve _ _ _) as [[res b']|] eqn:Hres.
  - apply try_reserve_frame in Hres as [Hq' _]. cbn in Hq' |- *. rewrite Hq'.
    change (work (w :: queue)) with (turns_left w + work queue). lia.
  - destruct (Z.ltb_spec (wt_deficit_bytes w) (wt_deficit_bytes w')) as [Hlt|Hge].
    + change (work (queue ++ [w']) + 1 ≤ turns_left w + work queue). rewrite work_app.
      change (work [w']) with (turns_left w' + 0). assert (turns_left w' + 1 ≤ turns_left w); [|lia]. unfold turns_left. rewrite Hreq, Hdef in *.
      unfold BANDWIDTH_QUANTUM_BYTES, U64_MAX in *. Z.to_euclidean_division_equations; lia.
    + assert (wt_deficit_bytes w = request_bytes (wt_request w)) as Hfull by (unfold BANDWIDTH_QUANTUM_BYTES, U64_MAX in *; lia).
      assert (wt_deficit_bytes w' = wt_deficit_bytes w) as He by (unfold BANDWIDTH_QUANTUM_BYTES, U64_MAX in *; lia).
      assert (w' = mkWaiter (wt_ticket w) (wt_flow_id w) (wt_request w) (wt_deficit_bytes w')) as Hw' by done.
      rewrite He in Hw'. replace (mkWaiter _ _ _ _) with w in Hw' by by destruct w.
      rewrite Hw' in *. split; [|done]. split; [done|]. by eapply try_reserve_none; [..|exact Hres].
Qed.

(** A round makes progress on the work that is left, or finds every waiter
    stuck. *)
Lemma round_work turns b granted made_progress b' granted' progress :
  bucket_ok top debt b → (0 < bk_debt_units b → bk_credit_units b = 0) → (turns ≤ length (bk_queue b))%nat →
  round turns b granted made_progress = (b', granted', progress) →
  work (bk_queue b') ≤ work (bk_queue b)
  ∧ (progress = true → made_progress = true ∨ work (bk_queue b') + 1 ≤ work (bk_queue b))
  ∧ (progress = false → made_progress = false
     ∧ b' = b <| bk_queue := drop turns (bk_queue b) ++ take turns (bk_queue b) |> ∧ Forall (stuck b) (take turns (bk_queue b))).
Proof.
  revert b granted made_progress. induction turns as [|turns IH]; intros b granted made_progress Hb Hopen Hlen; cbn [round].
  { intros [= <- <- <-]. split_and!; [done|naive_solver|]. intros ->. split_and!; [done| |constructor].
    rewrite drop_0, app_nil_r. by destruct b. }
  destruct (bk_queue b) as [|w queue] eqn:Hq; [cbn in Hlen; lia|]. pose proof Hb as [_ _ _ Hws _].
  pose proof (serve_work b w queue Hws Hq) as Hw. pose proof (serve_front_ok top debt Htop Hdebt b w queue Hb Hopen Hq) as Hs.
  destruct (serve _ w) as [[b1 served] progress1] eqn:Hserve. cbn [fst] in Hs. destruct Hs as [Hb1 Hrate _ _ Hopen1].
  assert (turns ≤ length (bk_queue b1))%nat as Hlen1.
  { revert Hserve. unfold serve. cbv zeta. destruct (try_reserve _ _ _) as [[res b2]|] eqn:Hres; intros [= <- _ _]; cbn.
    - apply try_reserve_frame in Hres as [-> _]. cbn in *. lia.
    - rewrite length_app. cbn in *. lia. }
  intros Hr. destruct (IH _ _ _ Hb1 Hopen1 Hlen1 Hr) as (Hle & Hprog & Hstuck). rewrite Hq in Hw. destruct progress1.
  - split_and!; [lia|right; lia|]. intros ->. destruct (Hstuck eq_refl) as [?%orb_false_iff _]. naive_solver.
  - destruct Hw as [Hst ->]. cbn in Hlen.
    change (bk_queue (b <| bk_queue := queue ++ [w] |>)) with (queue ++ [w]) in Hle, Hprog, Hstuck.
    assert (work (queue ++ [w]) = work (w :: queue)) as Hwork
      by (rewrite work_app; unfold work at 2 3; cbn; fold (work queue); lia).
    rewrite orb_false_r in Hprog, Hstuck. rewrite Hwork in Hle, Hprog. split_and!; [done..|]. intros Hp. destruct (Hstuck Hp) as (Hm & -> & Hall). split; [done|].
    rewrite take_app_le, drop_app_le in * by lia. split; [cbn; by rewrite <- app_assoc|].
    constructor; [done|]. eapply Forall_impl; [done|]. intros w1 [Hd1 Ht1]. split; [done|]. by eapply try_reserve_none; [..|exact Ht1].
Qed.

(** With enough fuel the loop ends by itself: with every waiter stuck, or
    none left. *)
Lemma rounds_stuck fuel b granted : bucket_ok top debt b → (0 < bk_debt_units b → bk_credit_units b = 0) →
  work (bk_queue b) < Z.of_nat fuel → let b' := (rounds fuel b granted).1 in Forall (stuck b') (bk_queue b').
Proof.
  revert b granted. induction fuel as [|fuel IH]; intros b granted Hb Hopen Hfuel; pose proof Hb as [_ _ _ Hws _];
    pose proof (work_nonneg _ _ Hws); [lia|]. cbn [rounds]. destruct (is_empty _) eqn:He.
  { apply is_empty_true in He. cbn. by rewrite He. }
  pose proof (round_ok top debt Htop Hdebt (length (bk_queue b)) b granted false Hb Hopen) as [Hb1 _ _ _ Hopen1].
  destruct (round _ _ _ _) as [[b1 granted1] progress] eqn:Hr. cbn [fst] in *.
  destruct (round_work _ _ _ _ _ _ _ Hb Hopen (le_n _) Hr) as (_ & Hprog & Hstuck). destruct progress.
  - apply IH; [done..|]. destruct (Hprog eq_refl); [done|lia].
  - destruct (Hstuck eq_refl) as (_ & -> & Hall). rewrite drop_all, firstn_all in *. cbn.
    eapply Forall_impl; [done|]. intros w [Hd Ht]. split; [done|]. by eapply try_reserve_none; [..|exact Ht].
Qed.

(** A stuck waiter lacks credit. *)
Lemma stuck_lacks b w : bucket_ok top debt b → waiter_ok debt (capacity_bytes b) w → stuck b w → 0 < units_lacking b w.
Proof.
  intros [(r & Hr & Hpos) Hc Hd _ _] ([Hn Hmax] & Hp & _ & Hfit) [Hdef Hnone].
  destruct (capacity_exact top Htop b r Hr Hpos) as [Hcap Hunits]. unfold units_lacking. revert Hnone. rewrite Hdef.
  destruct (wt_request w) as [n|n max]; cbn [request_bytes try_reserve] in *.
  - case_match eqn:Hz; [|done]. intros _. unfold BYTE_UNITS, BANDWIDTH_QUANTUM_BYTES in *.
    Z.to_euclidean_division_equations; lia.
  - rewrite Z.ltb_irrefl, !units_exact, Hunits by lia. repeat case_match; try done; intros _; unfold BYTE_UNITS in *; lia.
Qed.

(** After a dispatch the bucket is in debt, or every waiter lacks credit. *)
Lemma dispatch_settled b now : bucket_ok top debt b →
  let b' := (dispatch b now).1 in 0 < bk_debt_units b' ∨ Forall (λ w, 0 < units_lacking b' w) (bk_queue b').
Proof.
  intros Hb. destruct (refill_ok top debt Htop Hdebt b now Hb) as (Hb1 & _). pose proof Hb1 as [(r & Hr & _) _ Hd Hws _].
  unfold dispatch. destruct (is_empty _) eqn:He; [apply is_empty_true in He; cbn; rewrite He; by right|].
  rewrite bool_decide_false by by rewrite Hr. destruct (Z.ltb_spec 0 (bk_debt_units (refill b now))); [by left|right].
  set (fuel := dispatch_fuel _). assert (work (bk_queue (refill b now)) < Z.of_nat fuel) as Hfuel.
  { pose proof (work_nonneg _ _ Hws). unfold fuel, dispatch_fuel. fold (work (bk_queue (refill b now))). lia. }
  pose proof (rounds_stuck fuel (refill b now) false Hb1 ltac:(lia) Hfuel) as Hst.
  pose proof (rounds_ok top debt Htop Hdebt fuel (refill b now) false Hb1 ltac:(lia)) as [Hb2 _ _ _ _].
  pose proof Hb2 as [_ _ _ Hws2 _]. rewrite Forall_forall in Hst, Hws2 |- *. intros w Hw. apply stuck_lacks; auto.
Qed.

(** ** Deadlines *)

Lemma least_lacking b w queue : ∃ w', w' ∈ w :: queue
  ∧ foldl (λ least w, Z.min least (units_lacking b w)) (units_lacking b w) queue = units_lacking b w'.
Proof.
  revert w. induction queue as [|w1 queue IH]; intros w; cbn; [exists w; split; [by left|done]|].
  destruct (Z.min_spec (units_lacking b w) (units_lacking b w1)) as [[_ ->]|[_ ->]].
  - destruct (IH w) as (w' & Hin & ->). exists w'. split; [set_solver|done].
  - destruct (IH w1) as (w' & Hin & ->). exists w'. split; [by right|done].
Qed.

Lemma lacking_bounds b w r : bk_rate b = BytesPerSecond r → 0 < r ≤ top → 0 ≤ bk_credit_units b →
  0 ≤ units_lacking b w ≤ r * BYTE_UNITS.
Proof.
  intros Hr Hpos Hc. destruct (capacity_exact top Htop b r Hr Hpos) as [_ Hu]. unfold units_lacking. rewrite Hu.
  unfold BYTE_UNITS. destruct (wt_request w); lia.
Qed.

(** Nobody lacks anything once the credit has grown by what was lacking. *)
Lemma refill_lacks_nothing b w now later r : bucket_ok top debt b → bk_rate b = BytesPerSecond r → 0 < r ≤ top →
  bk_debt_units b = 0 → bk_last_refill b = now → units_lacking b w ≤ r * (later - now) ≤ U128_MAX →
  units_lacking (refill b later) w = 0.
Proof.
  intros [_ Hc _ _ _] Hr Hpos Hd Hl Hneed. destruct (capacity_exact top Htop b r Hr Hpos) as [_ Hu].
  destruct (refill_frame b later) as (_ & _ & Hr'). rewrite Hr in Hr'.
  destruct (capacity_exact top Htop (refill b later) r Hr' Hpos) as [_ Hu'].
  assert (bk_credit_units (refill b later) = Z.min (bk_credit_units b + r * Z.max (later - now) 0) (r * BYTE_UNITS)) as Hc'.
  { unfold refill. cbn -[capacity_units saturating_mul128 saturating_add128]. rewrite Hr. cbn -[capacity_units saturating_mul128 saturating_add128].
    rewrite Hd, Hl. change (capacity_units _) with (capacity_units b). rewrite Hu. unfold saturating_mul128, saturating_add128.
    unfold U64_MAX, U128_MAX, BYTE_UNITS in *. destruct (Z.max_spec (later - now) 0) as [[? ->]|[? ->]]; nia. }
  unfold units_lacking in *. rewrite Hc', Hu'. rewrite Hu in *. unfold BYTE_UNITS in *. destruct (wt_request w); nia.
Qed.

Lemma saturating_mul128_nonneg x y : 0 ≤ x → 0 ≤ y → 0 ≤ saturating_mul128 x y.
Proof. unfold saturating_mul128, U128_MAX. nia. Qed.

Lemma refill_debt b later r : bucket_ok top debt b → bk_rate b = BytesPerSecond r → 0 < r ≤ top →
  bk_debt_units (refill b later) = Z.max (bk_debt_units b - saturating_mul128 (Z.max (later - bk_last_refill b) 0) r) 0.
Proof.
  intros [_ _ Hd _ _] Hr Hpos. unfold refill. cbn -[capacity_units saturating_mul128 saturating_add128]. rewrite Hr.
  cbn -[capacity_units saturating_mul128 saturating_add128]. lia.
Qed.

(** The smallest wait after which a rate gives the units needed. *)
Lemma wait_enough r needed : 0 < r → 0 ≤ needed →
  let wait := (needed + (r - 1)) / r in needed ≤ r * wait ≤ needed + r ∧ (0 < needed → 0 < wait).
Proof.
  intros Hr Hn. pose proof (Z.div_mod (needed + (r - 1)) r ltac:(lia)) as Heq. pose proof (Z.mod_pos_bound (needed + (r - 1)) r Hr).
  cbv zeta. split; [lia|]. intros Hpos. apply Z.div_str_pos. lia.
Qed.

(** Who is not served by a dispatch that grants nothing, and is not held up by
    debt, lacks credit. *)
Lemma unserved_lacks b later w : bucket_ok top debt b → bk_debt_units (refill b later) = 0 → w ∈ bk_queue b →
  (dispatch b later).2 = false → 0 < units_lacking (refill b later) w.
Proof.
  intros Hb Hd Hin Hidle. pose proof Hb as [(r & Hr & _) _ _ _ _]. pose proof (dispatch_settled b later Hb) as Hset.
  destruct (refill_frame b later) as (Hq & _ & Hr'). rewrite Hr in Hr'. unfold dispatch in Hidle, Hset. rewrite Hd, Hr' in Hidle, Hset.
  destruct (is_empty _) eqn:He; [apply is_empty_true in He; rewrite Hq in He; rewrite He in Hin; by apply not_elem_of_nil in Hin|].
  rewrite bool_decide_false in Hidle, Hset by done. cbn [Z.ltb Z.compare] in Hidle, Hset.
  destruct (rounds _ _ _) as [b' granted] eqn:Hrounds. cbn [fst snd] in *. subst granted.
  apply rounds_idle in Hrounds as [_ [Hir Hic Hid _ Hiq]]. destruct Hset as [Hpos|Hall]; [lia|].
  assert (wt_request w ∈ map wt_request (bk_queue b')) as (w2 & Heq & Hin2)%list_elem_of_fmap
    by (rewrite Hiq, Hq; by apply list_elem_of_fmap_2).
  rewrite Forall_forall in Hall. specialize (Hall w2 Hin2). revert Hall. unfold units_lacking, capacity_units, capacity_bytes.
  by rewrite Hir, Hic, <- Heq.
Qed.

Lemma deadline_serves b now later : bucket_ok top debt b → bk_debt_units b = 0 → bk_last_refill b = now →
  Forall (λ w, 0 < units_lacking b w) (bk_queue b) → next_deadline b now = Some later →
  now < later ∧ (dispatch b later).2 = true.
Proof.
  intros Hb Hd Hl Hlack. pose proof Hb as [(r & Hr & Hpos) Hc _ _ _]. unfold next_deadline. rewrite Hr. cbn.
  destruct (bk_queue b) as [|w queue] eqn:Hq; [done|]. rewrite Hd. cbn [Z.ltb Z.compare].
  destruct (least_lacking b w queue) as (w' & Hin & ->). pose proof (lacking_bounds b w' r Hr Hpos ltac:(lia)) as Hle.
  rewrite Forall_forall in Hlack. pose proof (Hlack w' Hin) as Hw'. rewrite (proj2 (Z.eqb_neq _ _)) by lia.
  unfold saturating_add128. rewrite (Z.min_l (units_lacking b w' + (r - 1))) by (unfold U64_MAX, U128_MAX, BYTE_UNITS in *; lia).
  destruct (wait_enough r (units_lacking b w')) as [Hwait Hwpos]; [lia..|]. set (wait := _ / r) in *. specialize (Hwpos Hw').
  rewrite Z.min_l by (unfold U64_MAX, BYTE_UNITS in *; nia). intros [= <-]. split; [lia|].
  apply not_false_is_true. intros Hidle.
  pose proof (refill_lacks_nothing b w' now (now + wait) r Hb Hr Hpos Hd Hl) as Hzero. rewrite Z.add_simpl_l in Hzero.
  specialize (Hzero ltac:(unfold U64_MAX, U128_MAX, BYTE_UNITS in *; nia)).
  assert (bk_debt_units (refill b (now + wait)) = 0) as Hnodebt.
  { rewrite (refill_debt b _ r), Hd by done. apply Z.max_r, Z.le_sub_nonneg, saturating_mul128_nonneg; lia. }
  assert (w' ∈ bk_queue b) as Hwq by by rewrite Hq. pose proof (unserved_lacks b _ w' Hb Hnodebt Hwq Hidle). lia.
Qed.

(** A bucket in debt is out of it at the deadline, or after as long as a wait
    can be. *)
Lemma deadline_repays b now later : bucket_ok top debt b → 0 < bk_debt_units b → bk_last_refill b = now →
  next_deadline b now = Some later →
  now < later ∧ (bk_debt_units (refill b later) = 0 ∨ later = now + U64_MAX).
Proof.
  intros Hb Hd Hl. pose proof Hb as [(r & Hr & Hpos) _ Hdb _ _]. unfold next_deadline. rewrite Hr. cbn.
  destruct (bk_queue b) as [|w queue]; [done|]. rewrite (proj2 (Z.ltb_lt _ _)) by done.
  assert (saturating_add128 (bk_debt_units b) BYTE_UNITS = bk_debt_units b + BYTE_UNITS) as ->
    by (unfold saturating_add128, U64_MAX, U128_MAX, BYTE_UNITS in *; lia).
  rewrite (proj2 (Z.eqb_neq _ _)) by (unfold BYTE_UNITS; lia). set (needed := bk_debt_units b + BYTE_UNITS).
  assert (0 < needed ≤ U64_MAX * BYTE_UNITS + BYTE_UNITS) as Hn by (unfold needed, U64_MAX, BYTE_UNITS in *; lia).
  assert (saturating_add128 needed (r - 1) = needed + (r - 1)) as ->
    by (unfold saturating_add128, U64_MAX, U128_MAX, BYTE_UNITS in *; lia).
  destruct (wait_enough r needed) as [Hwait Hwpos]; [lia..|]. specialize (Hwpos ltac:(lia)). set (wait := _ / r) in *.
  intros [= <-]. split; [unfold U64_MAX; lia|]. destruct (Z.le_gt_cases wait U64_MAX); [left|right; lia].
  rewrite Z.min_l by done. rewrite (refill_debt b _ r) by done. rewrite Hl, Z.add_simpl_l, (Z.max_l wait) by lia.
  apply Z.max_r. unfold saturating_mul128. rewrite Z.mul_comm. unfold needed, U64_MAX, U128_MAX, BYTE_UNITS in *. lia.
Qed.

(** C13 (liveness). A caller that has to wait has a deadline, which lies ahead:
    it neither sleeps for good nor spins.  When the bucket is not in debt,
    somebody is served at the deadline; when it is, the debt is repaid by
    then, unless that takes longer than a wait can be. *)
Theorem waiting_has_deadline s direction flow_id request ticket now s' ticket' notify deadline :
  bucket_ok top debt (bucket s direction) → request_ok debt request →
  (∀ t, ticket = Some t → pending (bucket s direction) t) →
  acquire s flow_id direction request ticket now = (s', ticket', notify, Waiting deadline) →
  ∃ later, deadline = Some later ∧ now < later ∧
    let b := bucket s' direction in
    (bk_debt_units b = 0 → (dispatch b later).2 = true)
    ∧ (0 < bk_debt_units b → bk_debt_units (refill b later) = 0 ∨ later = now + U64_MAX).
Proof.
  intros Hb Hreq Hticket. unfold acquire. destruct (Z.eqb_spec (request_bytes request) 0) as [_|Hnz]; [done|].
  assert (∀ s1 t, bucket_ok top debt (bucket s1 direction) → pending (bucket s1 direction) t →
    acquire_queued s1 direction t now = (s', ticket', notify, Waiting deadline) →
    ∃ later, deadline = Some later ∧ now < later ∧ (bk_debt_units (bucket s' direction) = 0 → (dispatch (bucket s' direction) later).2 = true)
    ∧ (0 < bk_debt_units (bucket s' direction) → bk_debt_units (refill (bucket s' direction) later) = 0 ∨ later = now + U64_MAX)) as Hq.
  { intros s1 t Hb1 Ht. apply (dispatch_keeps _ now) in Ht.
    pose proof (dispatch_settled _ now Hb1) as Hset. destruct (dispatch_ok top debt Htop Hdebt _ now Hb1) as (Hb2 & _ & Hl2 & _).
    unfold acquire_queued. destruct (dispatch (bucket s1 direction) now) as [b others]. cbn [fst] in *.
    destruct (bk_completed b !! t) eqn:Hc; [done|]. intros [= <- <- <- <-]. rewrite bucket_set.
    destruct Ht as [Ht|Ht]; [|by rewrite Hc in Ht; destruct Ht].
    assert (∃ later, next_deadline b now = Some later) as [later Hlater].
    { pose proof Hb2 as [(r & Hr & _) _ _ _ _]. unfold next_deadline. rewrite Hr. cbn.
      destruct (bk_queue b); [by apply not_elem_of_nil in Ht|]. case_match; by eexists. }
    exists later. pose proof Hb2 as [_ _ Hd _ _]. destruct (decide (bk_debt_units b = 0)) as [Hz|Hnz'].
    - destruct (deadline_serves b now later Hb2 Hz Hl2) as [? ?]; [destruct Hset; [lia|done]|done|]. split_and!; [done..|lia].
    - destruct (deadline_repays b now later Hb2 ltac:(lia) Hl2 Hlater) as [? ?]. split_and!; [done..|lia|done]. }
  destruct ticket as [t|]; [exact (Hq s t Hb (Hticket t eq_refl))|].
  destruct (enqueue s direction flow_id request) as [o|[s1 t]] eqn:He; [done|].
  destruct (enqueue_ok top debt Htop s direction flow_id request s1 t Hb Hreq Hnz He) as (Hb1 & _). apply (Hq s1 t Hb1).
  revert He. unfold enqueue. case_bool_decide; [done|]. destruct (validate_request _ _) as [[]|]; [|done]. destruct (_ <=? _); [done|].
  intros [= <- <-]. rewrite bucket_set. left. cbn. rewrite map_app. set_solver.
Qed.
End live.

(** ** Nothing is forgotten *)

(** The operation ends the acquisition with this ticket: its cancellation, or
    a turn of its own that hands out the outcome the scheduler has recorded
    under the ticket, which a new acquisition has from [lm_next_ticket]. *)
Definition ends (s : LimiterState) (o : op) (d : BandwidthDirection) (t : Z) : Prop :=
  match o with
  | OpCancel direction t' _ => direction = d ∧ t' = t
  | OpAcquire flow_id direction request ticket now =>
      direction = d ∧ default (lm_next_ticket s) ticket = t
      ∧ ∃ outcome, (acquire s flow_id direction request ticket now).2 = Acquired outcome
        ∧ (is_Some ticket → bk_completed (dispatch (bucket s d) now).1 !! t = Some outcome)
  | OpRefund _ _ _ | OpUpdate _ _ => False
  end.

(** A caller that is told to wait has its ticket, and its place in the queue:
    the one it had, or a new one. *)
Definition holds_place (s : LimiterState) (o : op) : Prop :=
  match o with
  | OpAcquire flow_id direction request ticket now =>
      let '(s', ticket', _, outcome) := acquire s flow_id direction request ticket now in
      let own := default (lm_next_ticket s) ticket in
      ∀ deadline, outcome = Waiting deadline →
        ticket' = Some own
        ∧ (ticket = None ∨ pending (bucket s direction) own → own ∈ map wt_ticket (bk_queue (bucket s' direction)))
  | OpCancel _ _ _ | OpRefund _ _ _ | OpUpdate _ _ => True
  end.

(** From one bucket to the next, and whether the waiters were woken. *)
Definition remembers (b b' : BucketState) (notify : bool) (P : Z → Prop) : Prop :=
  (pending_count b ≤ MAX_PENDING_BANDWIDTH_ACQUISITIONS → pending_count b' ≤ MAX_PENDING_BANDWIDTH_ACQUISITIONS)
  ∧ ∀ t, ¬ P t → (pending b t → pending b' t) ∧ (bk_completed b !! t = None → is_Some (bk_completed b' !! t) → notify = true).

Lemma dispatch_remembers b now P : remembers b (dispatch b now).1 (dispatch b now).2 P.
Proof.
  destruct (dispatch_keeps b now) as [Hp _ Hc]. split; [lia|]. intros t _. split; [apply Hp|]. intros Hn Hs.
  destruct (dispatch b now).2 eqn:Hd; [done|]. apply dispatch_completions in Hd. rewrite Hd, Hn in Hs. by destruct Hs.
Qed.

Lemma acquire_queued_remembers s direction ticket now (P : Z → Prop) :
  (∀ outcome, (acquire_queued s direction ticket now).2 = Acquired outcome →
    bk_completed (dispatch (bucket s direction) now).1 !! ticket = Some outcome → P ticket) →
  let '(s', _, notify, _) := acquire_queued s direction ticket now in
  remembers (bucket s direction) (bucket s' direction) notify P.
Proof.
  intros HP. pose proof (dispatch_remembers (bucket s direction) now P) as [Hn Hr]. revert HP. unfold acquire_queued.
  destruct (dispatch _ now) as [b others]. cbn [fst snd] in *. destruct (bk_completed b !! ticket) as [c|] eqn:Hc; rewrite bucket_set; [|done].
  intros HP. specialize (HP c eq_refl eq_refl).
  assert (size (delete ticket (bk_completed b)) ≤ size (bk_completed b))%nat as Hs
    by apply map_subseteq_size, delete_subseteq.
  split; [unfold pending_count in *; cbn -[size len]; lia|]. intros t Ht. destruct (Hr t Ht) as [H1 H2].
  assert (t ≠ ticket) as Hne by naive_solver. unfold pending in *. cbn. by rewrite !lookup_delete_ne.
Qed.

Lemma acquire_queued_place s direction ticket now :
  let '(s', ticket', _, outcome) := acquire_queued s direction ticket now in
  ∀ deadline, outcome = Waiting deadline →
    ticket' = Some ticket ∧ (pending (bucket s direction) ticket → ticket ∈ map wt_ticket (bk_queue (bucket s' direction))).
Proof.
  pose proof (dispatch_keeps (bucket s direction) now) as [Hp _ _]. unfold acquire_queued.
  destruct (dispatch _ now) as [b others]. cbn [fst] in Hp. destruct (bk_completed b !! ticket) eqn:Hc; [done|].
  intros deadline _. split; [done|]. rewrite bucket_set. intros Ht%Hp. destruct Ht as [Ht|[? Ht]]; [done|congruence].
Qed.

Lemma remembers_later b b1 b2 notify P :
  (pending_count b ≤ MAX_PENDING_BANDWIDTH_ACQUISITIONS → pending_count b1 ≤ MAX_PENDING_BANDWIDTH_ACQUISITIONS) →
  (∀ t, ¬ P t → (pending b t → pending b1 t) ∧ (bk_completed b !! t = None → bk_completed b1 !! t = None)) →
  remembers b1 b2 notify P → remembers b b2 notify P.
Proof. intros Hn Hp [Hc Hr]. split; [auto|]. intros t Ht. specialize (Hp t Ht). specialize (Hr t Ht). tauto. Qed.

Lemma remove_ticket_keeps ticket queue t : t ≠ ticket → t ∈ map wt_ticket queue → t ∈ map wt_ticket (remove_ticket ticket queue).
Proof.
  intros Hne. induction queue as [|w queue IH]; cbn; [done|]. intros [-> |Hin]%elem_of_cons; case_match eqn:Hw; cbn; [lia|set_solver..].
Qed.

Lemma remove_ticket_length ticket queue : len (remove_ticket ticket queue) ≤ len queue.
Proof. induction queue as [|w queue IH]; cbn; [done|]. case_match; len_simpl; lia. Qed.

Lemma cancel_remembers s direction ticket now P : (∀ t, t = ticket → P t) →
  let '(s', notify) := cancel s direction ticket now in remembers (bucket s direction) (bucket s' direction) notify P.
Proof.
  intros HP. unfold cancel. set (b1 := (bucket s direction) <| bk_queue ::= remove_ticket ticket |>).
  set (b2 := match bk_completed b1 !! ticket with Some _ => _ | None => _ end).
  pose proof (dispatch_remembers b2 now P) as Hr. destruct (dispatch b2 now) as [b' completed]. rewrite bucket_set.
  assert (bk_queue b2 = remove_ticket ticket (bk_queue (bucket s direction))
    ∧ bk_completed b2 = delete ticket (bk_completed (bucket s direction))) as [Hq Hc].
  { unfold b2. destruct (bk_completed b1 !! ticket) as [[]|] eqn:Ht; [done..|]. split; [done|].
    symmetry. by apply delete_id. }
  eapply remembers_later; [| |exact Hr]; unfold pending_count, pending; rewrite Hq, Hc.
  - pose proof (remove_ticket_length ticket (bk_queue (bucket s direction))).
    pose proof (map_subseteq_size _ _ (delete_subseteq (bk_completed (bucket s direction)) ticket)). lia.
  - intros t Ht. assert (t ≠ ticket) as Hne by naive_solver. rewrite lookup_delete_ne by done. split; [|done].
    intros [?|?]; [left; by apply remove_ticket_keeps|by right].
Qed.

Lemma enqueue_pending s direction flow_id request s1 ticket : enqueue s direction flow_id request = inr (s1, ticket) →
  ticket = lm_next_ticket s ∧ pending (bucket s1 direction) ticket
  ∧ (pending_count (bucket s direction) ≤ MAX_PENDING_BANDWIDTH_ACQUISITIONS →
     pending_count (bucket s1 direction) ≤ MAX_PENDING_BANDWIDTH_ACQUISITIONS)
  ∧ ∀ t, (pending (bucket s direction) t → pending (bucket s1 direction) t)
    ∧ (bk_completed (bucket s direction) !! t = None → bk_completed (bucket s1 direction) !! t = None).
Proof.
  unfold enqueue. case_bool_decide; [done|]. destruct (validate_request _ _) as [[]|]; [|done].
  destruct (Z.leb_spec MAX_PENDING_BANDWIDTH_ACQUISITIONS
    (saturating_add64 (len (bk_queue (bucket s direction))) (Z.of_nat (size (bk_completed (bucket s direction)))))) as [|Hlt]; [done|].
  intros [= <- <-]. rewrite bucket_set. unfold pending_count, pending in *. cbn -[size len]. rewrite map_app. split_and!; [done|left; set_solver|..].
  - intros _. unfold saturating_add64, MAX_PENDING_BANDWIDTH_ACQUISITIONS, U64_MAX in *. len_simpl. lia.
  - intros t. split; [|done]. set_solver.
Qed.

Lemma acquire_places s flow_id direction request ticket now :
  holds_place s (OpAcquire flow_id direction request ticket now).
Proof.
  cbn. unfold acquire. destruct (_ =? 0); [done|]. destruct ticket as [t|]; cbn [default].
  - pose proof (acquire_queued_place s direction t now) as Hq. destruct (acquire_queued _ _ _ _) as [[[? ?] ?] ?].
    intros deadline He. destruct (Hq deadline He) as [? ?]. split; [done|]. intros [?|?]; [done|auto].
  - destruct (enqueue s direction flow_id request) as [o|[s1 t]] eqn:He; [done|].
    destruct (enqueue_pending _ _ _ _ _ _ He) as (-> & Hp & _).
    pose proof (acquire_queued_place s1 direction (lm_next_ticket s) now) as Hq. destruct (acquire_queued _ _ _ _) as [[[? ?] ?] ?].
    intros deadline Hd. destruct (Hq deadline Hd) as [? ?]. split; [done|auto].
Qed.

Lemma acquire_remembers d s flow_id request ticket now :
  let '(s', _, notify, _) := acquire s flow_id d request ticket now in
  remembers (bucket s d) (bucket s' d) notify (ends s (OpAcquire flow_id d request ticket now) d).
Proof.
  assert (∀ P, remembers (bucket s d) (bucket s d) false P) as Hsame.
  { intros P. split; [done|]. intros t _. split; [done|]. intros -> [? ?]. done. }
  destruct (acquire _ _ _ _ _ _) as [[[s' ticket'] notify] outcome] eqn:Ha. unfold ends. cbv iota. rewrite Ha. revert Ha. cbn [snd].
  unfold acquire. destruct (_ =? 0); [intros [= <- _ <- _]; apply Hsame|]. destruct ticket as [t|].
  - intros Ha. pose proof (acquire_queued_remembers s d t now) as Hr. rewrite Ha in Hr. apply Hr.
    intros o Ho Hc. split; [done|]. split; [done|]. by exists o.
  - destruct (enqueue s d flow_id request) as [o|[s1 t]] eqn:He; [intros [= <- _ <- _]; apply Hsame|].
    destruct (enqueue_pending _ _ _ _ _ _ He) as (-> & _ & Hn & Hp). intros Ha.
    pose proof (acquire_queued_remembers s1 d (lm_next_ticket s) now) as Hr. rewrite Ha in Hr.
    eapply remembers_later; [exact Hn|intros ? _; apply Hp|apply Hr].
    intros o Ho _. split; [done|]. split; [done|]. exists o. split; [done|]. by intros [].
Qed.

(** C23 (invariant). No operation forgets an acquisition that waits, or whose
    outcome is ready: it stays pending until it is cancelled or a turn of its
    own hands it the outcome recorded under its ticket; a caller that is told
    to wait has its ticket and its place in the queue, whether it is new or
    had one; nobody is completed without the waiters being woken, and no more
    than the limit are ever pending in a direction. *)
Theorem no_acquisition_forgotten d s o :
  holds_place s o
  ∧ let '(s', notify, _) := step d s o in remembers (bucket s d) (bucket s' d) notify (ends s o d).
Proof.
  split; [destruct o; [apply acquire_places|done..]|].
  pose proof (step_frame d s o) as Hframe. destruct (step d s o) as [[s' notify] out] eqn:Hs. cbn [fst snd] in Hframe.
  assert (bucket s' d = bucket s d → remembers (bucket s d) (bucket s' d) notify (ends s o d)) as Hsame.
  { intros ->. split; [done|]. intros t _. split; [done|]. intros -> [? ?]. done. }
  destruct o as [flow_id direction request ticket now|direction ticket now|direction r now|p now].
  4: { injection Hs as <- <- <-.
       assert (bucket (update s p now) d = (dispatch (bucket_update (bucket s d) (policy_rate p d) now) now).1) as -> by by destruct d.
       destruct (bucket_update_keeps (bucket s d) (policy_rate p d) now) as [Hp1 _ Hc1].
       destruct (dispatch_keeps (bucket_update (bucket s d) (policy_rate p d) now) now) as [Hp2 _ Hc2].
       split; [lia|]. intros t _. split; [auto|done]. }
  all: destruct (decide (direction = d)) as [-> |Hne]; [|apply Hsame; by apply Hframe]; cbn [step] in Hs.
  - pose proof (acquire_remembers d s flow_id request ticket now) as Hr.
    destruct (acquire _ _ _ _ _ _) as [[[s1 ?] ?] ?]. by injection Hs as <- <- _.
  - pose proof (cancel_remembers s d ticket now (ends s (OpCancel d ticket now) d) ltac:(by intros ? ->)) as Hr.
    destruct (cancel s d ticket now). by injection Hs as <- <- _.
  - revert Hs. unfold refund_reservation. set (b1 := bucket_refund _ _).
    pose proof (dispatch_remembers b1 now (ends s (OpRefund d r now) d)) as Hr. destruct (dispatch b1 now) as [b' completed].
    intros [= <- <- _]. rewrite bucket_set. destruct (refill_frame (bucket s d) now) as (Hq & Hc & _).
    assert (bk_queue b1 = bk_queue (bucket s d) ∧ bk_completed b1 = bk_completed (bucket s d)) as [Hq1 Hc1] by by rewrite <- Hq, <- Hc.
    eapply remembers_later; [| |exact Hr]; unfold pending_count, pending; by rewrite Hq1, Hc1.
Qed.

(** ** Bandwidth: concrete runs

    Runs the theorems of [BandwidthSpec] and [BandwidthLive] apply to, and two
    that show what the scheduler does not promise. *)

Definition kilobyte_policy : BandwidthPolicy := mkPolicy (BytesPerSecond 1000) (BytesPerSecond 1000).
Definition second : Z := 1000000000.
Definition millisecond : Z := 1000000.

Definition upload (flow_id bytes now : Z) : op := OpAcquire flow_id Upload (Divisible bytes) None now.

(** ** Witnesses *)

Lemma rate_conformance_witness :
  (run Upload (limiter_new kilobyte_policy 0) [upload 1 1000 0; upload 1 600 second; OpUpdate kilobyte_policy second]).2 * BYTE_UNITS
  ≤ 1000 * (BYTE_UNITS + second - 0) + 0 * BYTE_UNITS.
Proof.
  apply (rate_conformance 1000 0 Upload kilobyte_policy 0 [upload 1 1000 0; upload 1 600 second; OpUpdate kilobyte_policy second]).
  - vm_compute. discriminate.
  - vm_compute. split; discriminate.
  - exists 1000. split; [reflexivity|lia].
  - repeat constructor; try (vm_compute; discriminate). exists 1000. split; [reflexivity|lia].
  - repeat split; vm_compute; discriminate.
Defined.

Definition drained : LimiterState := (run Upload (limiter_new kilobyte_policy 0) [upload 1 1000 0]).1.

Lemma drained_ok : bucket_ok 1000 0 (bucket drained Upload).
Proof.
  split; [exists 1000; split; [reflexivity|lia]|vm_compute; split; discriminate..|constructor|].
  intros t c. change (bk_completed (bucket drained Upload)) with (delete 1 (<[1 := Ok (mkReservation 1000 (1000 * BYTE_UNITS) 0)]> (∅ : gmap Z (result BandwidthError Reservation)))).
  rewrite delete_insert_id by reflexivity. by rewrite lookup_empty.
Qed.

Lemma waiting_has_deadline_witness :
  ∃ s' ticket' notify deadline later, acquire drained 2 Upload (Divisible 10) None 0 = (s', ticket', notify, Waiting deadline)
    ∧ deadline = Some later ∧ 0 < later.
Proof.
  destruct (acquire drained 2 Upload (Divisible 10) None 0) as [[[s' ticket'] notify] outcome] eqn:He.
  assert (outcome = Waiting (Some millisecond)) as -> by (vm_compute in He; by injection He).
  destruct (waiting_has_deadline 1000 0 ltac:(vm_compute; discriminate) ltac:(vm_compute; split; discriminate) drained Upload 2 (Divisible 10) None 0
    s' ticket' notify (Some millisecond)) as (later & Hl & Hlt & _).
  - exact drained_ok.
  - split; [vm_compute; split; discriminate|exact I].
  - discriminate.
  - exact He.
  - exists s', ticket', notify, (Some millisecond), later. split; [reflexivity|split; [exact Hl|exact Hlt]].
Defined.

(** ** Instants read before the lock *)

(** A caller reads the clock, waits a tenth of a second for the lock while
    another is served, and sets the bucket back to the instant it read. *)
Definition stale_run : list op :=
  [upload 1 1000 0; upload 1 1000 second; upload 2 1000 (second - 100 * millisecond);
   OpAcquire 2 Upload (Divisible 1000) (Some 3) second].

(** C34 (error). An instant that lies behind the last one sets the bucket back,
    and the time between is credited twice: within a second of its set-up a
    direction of a thousand bytes a second hands out more than the two
    thousand it may. *)
Theorem stale_instant_mints_credit :
  (run Upload (limiter_new kilobyte_policy 0) stale_run).2 = 2100
  ∧ 1000 * (BYTE_UNITS + second - 0) < (run Upload (limiter_new kilobyte_policy 0) stale_run).2 * BYTE_UNITS.
Proof. by vm_compute. Qed.

(** ** An indivisible item among divisible ones *)

(** A flow waits for an item of ten bytes while another takes what there is,
    a millisecond at a time. *)
Definition busy_run (n : nat) : list op :=
  upload 1 1000 0 :: OpAcquire 2 Upload (Indivisible 10 0) None 0
  :: concat (map (λ k, [upload 1 1000 (Z.of_nat k * millisecond);
                        OpAcquire 2 Upload (Indivisible 10 0) (Some 2) (Z.of_nat k * millisecond)]) (seq 1 n)).

Definition item : Waiter := mkWaiter 2 2 (Indivisible 10 0) 10.

Definition busy_state (k : nat) : LimiterState :=
  mkLimiter (mkBucket (BytesPerSecond 1000) 0 0 (Z.of_nat k * millisecond) [item] ∅)
    (bucket_new (BytesPerSecond 1000) 0) (3 + Z.of_nat k).

Lemma busy_refill t q : refill (mkBucket (BytesPerSecond 1000) 0 0 t q ∅) (t + millisecond)
  = mkBucket (BytesPerSecond 1000) BYTE_UNITS 0 (t + millisecond) q ∅.
Proof. unfold refill. cbn -[Z.sub Z.add millisecond]. rewrite Z.add_simpl_l. reflexivity. Qed.

Lemma busy_dispatch t ticket : 
  dispatch (mkBucket (BytesPerSecond 1000) 0 0 t [item; mkWaiter ticket 1 (Divisible 1000) 0] ∅) (t + millisecond)
  = (mkBucket (BytesPerSecond 1000) 0 0 (t + millisecond) [item] (<[ticket := Ok (mkReservation 1 BYTE_UNITS 0)]> ∅), true).
Proof.
  unfold dispatch. rewrite busy_refill. generalize (t + millisecond) as now. intros now.
  lazy -[insert empty]. reflexivity.
Qed.

Lemma item_waits now : dispatch (mkBucket (BytesPerSecond 1000) 0 0 now [item] ∅) now
  = (mkBucket (BytesPerSecond 1000) 0 0 now [item] ∅, false).
Proof. unfold dispatch, refill. cbn -[Z.sub rounds]. rewrite Z.sub_diag. lazy -[insert empty]. reflexivity. Qed.

(** The divisible flow takes the byte there is; the item waits on. *)
Lemma busy_turn k : Z.of_nat k < 2 ^ 63 →
  acquire (busy_state k) 1 Upload (Divisible 1000) None (Z.of_nat (S k) * millisecond)
  = (busy_state (S k), None, true, Acquired (Ok (mkReservation 1 BYTE_UNITS 0))).
Proof.
  intros Hk. unfold acquire. cbn [request_bytes Z.eqb].
  assert (enqueue (busy_state k) Upload 1 (Divisible 1000) = inr (mkLimiter
    (mkBucket (BytesPerSecond 1000) 0 0 (Z.of_nat k * millisecond) [item; mkWaiter (3 + Z.of_nat k) 1 (Divisible 1000) 0] ∅)
    (bucket_new (BytesPerSecond 1000) 0) (3 + Z.of_nat (S k)), 3 + Z.of_nat k)) as ->.
  { replace (3 + Z.of_nat (S k)) with (wrap64 (3 + Z.of_nat k + 1)); [reflexivity|].
    rewrite wrap64_small by (unfold U64_MAX; lia). lia. }
  unfold busy_state. replace (Z.of_nat (S k) * millisecond) with (Z.of_nat k * millisecond + millisecond) by lia.
  unfold acquire_queued. cbn [bucket lm_upload]. rewrite busy_dispatch. cbn [bk_completed]. rewrite lookup_insert_eq.
  f_equal. f_equal. f_equal. unfold set_bucket, over. cbn -[insert delete empty Z.add Z.of_nat]. f_equal. f_equal. by apply delete_insert_id.
Qed.

Lemma item_turn k : acquire (busy_state k) 2 Upload (Indivisible 10 0) (Some 2) (Z.of_nat k * millisecond)
  = (busy_state k, Some 2, false, Waiting (Some (Z.of_nat k * millisecond + 10 * millisecond))).
Proof.
  unfold acquire, acquire_queued. cbn [request_bytes Z.eqb bucket lm_upload busy_state]. rewrite item_waits. reflexivity.
Qed.

Lemma busy_rounds k n : Z.of_nat (k + n) < 2 ^ 63 →
  run Upload (busy_state k) (concat (map (λ k, [upload 1 1000 (Z.of_nat k * millisecond);
    OpAcquire 2 Upload (Indivisible 10 0) (Some 2) (Z.of_nat k * millisecond)]) (seq (S k) n)))
  = (busy_state (k + n), Z.of_nat n).
Proof.
  revert k. induction n as [|n IH]; intros k Hk; [by rewrite Nat.add_0_r|]. cbn [seq map concat app run]. unfold upload at 1. cbn [step].
  rewrite busy_turn by lia. cbn [bool_decide]. rewrite item_turn. rewrite IH by lia. rewrite bool_decide_true by done.
  replace (S k + n)%nat with (k + S n)%nat by lia. f_equal. cbn [rv_bytes]. lia.
Qed.

(** C35 (error). An item that fits the bucket waits for as long as another flow
    keeps asking, although both take turns and the item's flow runs whenever
    it is woken: after any number of milliseconds the other has got every byte
    there was, and the item is still queued. *)
Theorem indivisible_starves n : Z.of_nat n < 2 ^ 63 →
  let '(s, total) := run Upload (limiter_new kilobyte_policy 0) (busy_run n) in
  total = 1000 + Z.of_nat n ∧ bk_queue (bucket s Upload) = [item] ∧ request_bytes (wt_request item) = 10.
Proof.
  intros Hn. unfold busy_run.
  assert (∀ ops, run Upload (limiter_new kilobyte_policy 0) (upload 1 1000 0 :: OpAcquire 2 Upload (Indivisible 10 0) None 0 :: ops)
    = let '(s, total) := run Upload (busy_state 0) ops in (s, 1000 + total)) as ->; [|by rewrite (busy_rounds 0 n)].
  intros ops. cbn [run]. replace (step Upload (limiter_new kilobyte_policy 0) (upload 1 1000 0)) with (drained, true, 1000) by by vm_compute.
  replace (step Upload drained (OpAcquire 2 Upload (Indivisible 10 0) None 0)) with (busy_state 0, false, 0) by by vm_compute.
  by destruct (run Upload (busy_state 0) ops).
Qed.

Lemma indivisible_starves_witness :
  (run Upload (limiter_new kilobyte_policy 0) (busy_run 20)).2 = 1020.
Proof.
  pose proof (indivisible_starves 20 eq_refl) as Hs.
  destruct (run Upload (limiter_new kilobyte_policy 0) (busy_run 20)) as [s total]. exact (proj1 Hs).
Defined.
