(* ===== verification/Net.v ===== *)
(** * Network addresses

    [IpAddr] and [SocketAddr] of the Rust standard library, with the parser
    behind [str::parse::<IpAddr>] (dotted quads without leading zeros, and
    IPv6 groups with one [::] and an optional IPv4 tail), their text, and the
    proof that the text parses back. *)

From S2P Require Import Prelude Bytes Text.

(** An address is the big-endian integer of its octets. *)
Inductive IpAddr : Type :=
  | V4 (bits : Z)
  | V6 (bits : Z).

#[export] Instance IpAddr_eq_dec : EqDecision IpAddr.
Proof. solve_decision. Defined.

Definition ip_wf (ip : IpAddr) : Prop :=
  match ip with
  | V4 bits => 0 ≤ bits < 2 ^ 32
  | V6 bits => 0 ≤ bits < 2 ^ 128
  end.

(** [SocketAddr::new]: no flow information, no scope. *)
Record SocketAddr : Type := mkSocketAddr {
  sa_ip : IpAddr;
  sa_port : Z;
}.

#[export] Instance SocketAddr_eq_dec : EqDecision SocketAddr.
Proof. solve_decision. Defined.

Definition addr_wf (a : SocketAddr) : Prop := ip_wf (sa_ip a) ∧ 0 ≤ sa_port a < 2 ^ 16.

(** ** Numbers *)

(** [char::to_digit] *)
Definition to_digit (radix c : Z) : option Z :=
  let digit :=
    if in_range 48 57 c then c - 48
    else if in_range 97 122 c then c - 87
    else if in_range 65 90 c then c - 55
    else radix in
  if digit <? radix then Some digit else None.

(** The digits of a number: its value, how many there are, and the rest;
    [None] when there are too many. *)
Fixpoint read_digits (radix max_digits result count : Z) (l : bytes) : option (Z * Z * bytes) :=
  match l with
  | [] => Some (result, count, [])
  | b :: k =>
      match to_digit radix b with
      | None => Some (result, count, l)
      | Some digit =>
          if max_digits <? count + 1 then None
          else read_digits radix max_digits (result * radix + digit) (count + 1) k
      end
  end.

Definition read_number (radix max_digits max : Z) (allow_zero_prefix : bool) (l : bytes) : option (Z * bytes) :=
  let has_leading_zero := match l with b :: _ => b =? 48 | [] => false end in
  '(result, count, l) ← read_digits radix max_digits 0 0 l;
  if count =? 0 then None
  else if negb allow_zero_prefix && has_leading_zero && (1 <? count) then None
  else if max <? result then None
  else Some (result, l).

(** ** Addresses *)

Definition read_given_char (c : Z) (l : bytes) : option bytes :=
  match l with
  | b :: l => if b =? c then Some l else None
  | [] => None
  end.

(** The separator comes before every item but the first. *)
Definition read_separator {A} (sep index : Z) (inner : bytes → option (A * bytes)) (l : bytes) : option (A * bytes) :=
  if 0 <? index then read_given_char sep l ≫= inner else inner l.

Fixpoint read_octets (remaining : nat) (index : Z) (l : bytes) : option (list Z * bytes) :=
  match remaining with
  | O => Some ([], l)
  | S remaining =>
      '(octet, l) ← read_separator 46 index (read_number 10 3 255 false) l;
      '(octets, l) ← read_octets remaining (index + 1) l;
      Some (octet :: octets, l)
  end.

(** [read_ipv4_addr]: the four octets. *)
Definition read_ipv4_addr (l : bytes) : option (list Z * bytes) := read_octets 4 0 l.

(** Groups of an IPv6 address until one cannot be read, and whether they end
    with an embedded IPv4 address. *)
Fixpoint read_groups (remaining : nat) (index : Z) (l : bytes) : list Z * bool * bytes :=
  match remaining with
  | O => ([], false, l)
  | S rest =>
      let ipv4 :=
        match rest with
        | O => None
        | S _ => read_separator 58 index read_ipv4_addr l
        end in
      match ipv4 with
      | Some (octets, l) => ([be_fold 0 (take 2 octets); be_fold 0 (drop 2 octets)], true, l)
      | None =>
          match read_separator 58 index (read_number 16 4 65535 true) l with
          | Some (group, l) =>
              let '(groups, embedded, l) := read_groups rest (index + 1) l in
              (group :: groups, embedded, l)
          | None => ([], false, l)
          end
      end
  end.

Definition group_bits (groups : list Z) : Z := foldl (λ acc g, Z.lor (Z.shiftl acc 16) g) 0 groups.

Definition read_ipv6_addr (l : bytes) : option (Z * bytes) :=
  let '(head, head_ipv4, l) := read_groups 8 0 l in
  if (length head =? 8)%nat then Some (group_bits head, l)
  else if head_ipv4 then None
  else
    l ← read_given_char 58 l;
    l ← read_given_char 58 l;
    let '(tail, _, l) := read_groups (8 - (length head + 1)) 0 l in
    Some (group_bits (head ++ replicate (8 - length head - length tail) 0 ++ tail), l).

(** [str::parse::<IpAddr>] *)
Definition parse_ip (l : bytes) : option IpAddr :=
  let read :=
    match read_ipv4_addr l with
    | Some (octets, l) => Some (V4 (be_fold 0 octets), l)
    | None => match read_ipv6_addr l with
              | Some (bits, l) => Some (V6 bits, l)
              | None => None
              end
    end in
  match read with
  | Some (ip, []) => Some ip
  | _ => None
  end.

(** [str::parse::<u16>] *)
Definition parse_u16 (l : bytes) : option Z := parse_unsigned 65535 l.

(** ** Display *)

(** The eight groups of an IPv6 address, and the digits of one ([{:x}]). *)
Definition segments (bits : Z) : list Z := map (λ i, Z.land (Z.shiftr bits i) 65535) [112; 96; 80; 64; 48; 32; 16; 0].

Definition hex_digit (d : Z) : Z := if d <? 10 then 48 + d else 87 + d.
Definition hex_group (g : Z) : bytes :=
  let digits := map (λ i, Z.land (Z.shiftr g i) 15) [12; 8; 4; 0] in
  map hex_digit (match drop_while (Z.eqb 0) digits with [] => [0] | digits => digits end).

Definition display_ipv4 (bits : Z) : bytes :=
  join_with 46 (map (λ i, decimal (Z.land (Z.shiftr bits i) 255)) [24; 16; 8; 0]).

(** The longest run of zero groups: the first of those as long. *)
Fixpoint longest_zeros (i start run best_start best : nat) (groups : list Z) : nat * nat :=
  match groups with
  | [] => (best_start, best)
  | g :: groups =>
      if g =? 0 then
        let start := if (run =? 0)%nat then i else start in
        let run := S run in
        if (best <? run)%nat then longest_zeros (S i) start run start run groups
        else longest_zeros (S i) start run best_start best groups
      else longest_zeros (S i) 0 0 best_start best groups
  end.

Definition display_ipv6 (bits : Z) : bytes :=
  let groups := segments bits in
  if bool_decide (take 6 groups = [0; 0; 0; 0; 0; 65535]) then ascii "::ffff:" ++ display_ipv4 (Z.land bits U32_MAX)
  else
    let '(start, run) := longest_zeros 0 0 0 0 0 groups in
    if (1 <? run)%nat
    then join_with 58 (map hex_group (take start groups)) ++ [58; 58] ++ join_with 58 (map hex_group (drop (start + run) groups))
    else join_with 58 (map hex_group groups).

(** [IpAddr::to_string] *)
Definition display_ip (ip : IpAddr) : bytes :=
  match ip with
  | V4 bits => display_ipv4 bits
  | V6 bits => display_ipv6 bits
  end.

(** ** Parsed addresses are addresses *)

Lemma to_digit_range radix c d : to_digit radix c = Some d → 0 ≤ d < radix.
Proof.
  unfold to_digit, in_range. cbv zeta. intros H. repeat case_match; simplify_eq; lia.
Qed.

Lemma read_digits_nonneg radix m result count l r c k : 0 ≤ result → read_digits radix m result count l = Some (r, c, k) →
  0 ≤ r.
Proof.
  revert result count. induction l as [|b l IH]; intros result count Hr; cbn; [by intros [= <- _ _]|].
  destruct (to_digit radix b) as [d|] eqn:E; [|by intros [= <- _ _]]. apply to_digit_range in E.
  case_match; [done|]. apply IH. nia.
Qed.

Lemma read_number_range radix m max z l v k : read_number radix m max z l = Some (v, k) → 0 ≤ v ≤ max.
Proof.
  unfold read_number. destruct (read_digits _ _ _ _ _) as [[[r c] k']|] eqn:E; [|done]. cbn.
  apply read_digits_nonneg in E; [|lia]. case_match; [done|]. case_match; [done|].
  destruct (Z.ltb_spec max r); [done|]. intros [= <- _]. lia.
Qed.

Lemma read_separator_Some {A} sep i inner l (x : A * bytes) : read_separator sep i inner l = Some x →
  ∃ k, inner k = Some x.
Proof.
  unfold read_separator. case_match; [|by exists l]. destruct (read_given_char sep l) as [k|]; [|done]. by exists k.
Qed.

Lemma read_octets_wf n i l os k : read_octets n i l = Some (os, k) → length os = n ∧ Forall is_byte os.
Proof.
  revert i l os. induction n as [|n IH]; intros i l os; cbn; [by intros [= <- _]|].
  destruct (read_separator _ _ _ _) as [[o l1]|] eqn:E; [|done]. cbn.
  apply read_separator_Some in E as [l2 E%read_number_range].
  destruct (read_octets n (i + 1) l1) as [[os' l3]|] eqn:E2; [|done]. cbn. intros [= <- ->].
  destruct (IH _ _ _ E2) as [Hl Hb]. split; [cbn; by rewrite Hl|]. constructor; [red; lia|done].
Qed.

Lemma read_groups_wf n i l gs b k : read_groups n i l = (gs, b, k) → (length gs ≤ n)%nat ∧ Forall (λ g, 0 ≤ g < 65536) gs.
Proof.
  revert i l gs b k. induction n as [|n IH]; intros i l gs b k; cbn; [by intros [= <- _ _]|].
  set (ipv4 := match n with O => None | S _ => _ end).
  destruct ipv4 as [[os l1]|] eqn:E.
  - intros [= <- _ _]. destruct n as [|n]; [done|]. apply read_separator_Some in E as [l2 E%read_octets_wf].
    destruct E as [Hl Hb]. split; [cbn; lia|].
    assert (∀ l, Forall is_byte l → length l = 2%nat → 0 ≤ be_fold 0 l < 65536) as H2.
    { intros o Ho Hlo. pose proof (be_fold_bound o 0 Ho ltac:(lia)) as H. unfold len in H. rewrite Hlo in H. cbn in H. lia. }
    repeat constructor; (apply H2; [by apply Forall_take || by apply Forall_drop|]); rewrite ?length_take, ?length_drop; lia.
  - destruct (read_separator 58 i (read_number 16 4 65535 true) l) as [[g l1]|] eqn:E2; [|intros [= <- _ _]; split; [cbn; lia|constructor]].
    apply read_separator_Some in E2 as [l2 E2%read_number_range].
    destruct (read_groups n (i + 1) l1) as [[gs' b'] l3] eqn:E3. intros [= <- _ _].
    destruct (IH _ _ _ _ _ E3) as [Hl Hg]. split; [cbn; lia|]. constructor; [lia|done].
Qed.

Lemma group_bits_bound gs : Forall (λ g, 0 ≤ g < 65536) gs → 0 ≤ group_bits gs < 2 ^ (16 * len gs).
Proof.
  intros Hg. unfold group_bits. assert (∀ acc, 0 ≤ acc →
    0 ≤ foldl (λ acc g, Z.lor (Z.shiftl acc 16) g) acc gs < (acc + 1) * 2 ^ (16 * len gs)) as H.
  { induction Hg as [|g gs Hb Hg IH]; intros acc Ha; cbn [foldl]; [change (2 ^ (16 * len [])) with 1; lia|].
    rewrite lor_shiftl_add by (done || lia). change (2 ^ 16) with 65536. specialize (IH (acc * 65536 + g) ltac:(lia)).
    rewrite len_cons. replace (16 * (1 + len gs)) with (16 + 16 * len gs) by lia. pose proof (len_nonneg gs).
    rewrite Z.pow_add_r by lia. change (2 ^ 16) with 65536.
    assert (0 < 2 ^ (16 * len gs)) by (apply Z.pow_pos_nonneg; lia). nia. }
  specialize (H 0 ltac:(lia)). lia.
Qed.

Lemma read_ipv6_wf l bits k : read_ipv6_addr l = Some (bits, k) → 0 ≤ bits < 2 ^ 128.
Proof.
  unfold read_ipv6_addr. destruct (read_groups 8 0 l) as [[hd h4] l1] eqn:E1. apply read_groups_wf in E1 as [Hl1 Hg1].
  assert (∀ gs, length gs = 8%nat → Forall (λ g, 0 ≤ g < 65536) gs → 0 ≤ group_bits gs < 2 ^ 128) as Hb.
  { intros gs Hl Hg. pose proof (group_bits_bound gs Hg) as H. unfold len in H. by rewrite Hl in H. }
  destruct (Nat.eqb_spec (length hd) 8) as [He|Hne]; [intros [= <- _]; by apply Hb|]. destruct h4; [done|].
  destruct (read_given_char 58 l1) as [l2|]; [|done]. cbn. destruct (read_given_char 58 l2) as [l3|]; [|done]. cbn.
  destruct (read_groups _ 0 l3) as [[tl t4] l4] eqn:E2. apply read_groups_wf in E2 as [Hl2 Hg2]. intros [= <- _].
  apply Hb; [rewrite !length_app, length_replicate; lia|].
  apply Forall_app. split; [done|]. apply Forall_app. split; [|done]. by apply Forall_replicate.
Qed.

Lemma parse_ip_wf l ip : parse_ip l = Some ip → ip_wf ip.
Proof.
  unfold parse_ip, read_ipv4_addr. destruct (read_octets 4 0 l) as [[os [|]]|] eqn:E; cbn; try done.
  - intros [= <-]. apply read_octets_wf in E as [Hl Hb]. cbn. pose proof (be_fold_bound os 0 Hb ltac:(lia)) as H.
    unfold len in H. rewrite Hl in H. lia.
  - destruct (read_ipv6_addr l) as [[bits [|]]|] eqn:E6; try done. intros [= <-]. by apply read_ipv6_wf in E6.
Qed.

(** ** What is displayed is graphic *)

(** ASCII without the blank and the controls. *)
Definition graphic (b : Z) : Prop := 33 ≤ b < 127.

Lemma decimal_loop_graphic fuel n digits : Forall graphic digits → Forall graphic (decimal_loop fuel n digits).
Proof.
  revert n digits. induction fuel as [|fuel IH]; intros n digits Hd; [done|]. cbn [decimal_loop].
  assert (Forall graphic (48 + n mod 10 :: digits)) by (constructor; [unfold graphic; div_lia|done]).
  case_match; [done|by apply IH].
Qed.

Lemma join_with_Forall (P : Z → Prop) sep parts : P sep → Forall (Forall P) parts → Forall P (join_with sep parts).
Proof.
  intros Hs. induction 1 as [|p parts Hp Hps IH]; cbn; [done|]. destruct parts; [done|]. apply Forall_app. split; [done|].
  by constructor.
Qed.

Lemma display_ipv4_graphic bits : Forall graphic (display_ipv4 bits).
Proof. apply join_with_Forall; [done|]. apply Forall_map, Forall_true. intros i. by apply decimal_loop_graphic. Qed.

Lemma hex_group_Forall (P : Z → Prop) g : (∀ d, 0 ≤ d < 16 → P (hex_digit d)) → Forall P (hex_group g).
Proof.
  intros Hhex. assert (∀ l, Forall (λ d, 0 ≤ d < 16) l → Forall (λ d, 0 ≤ d < 16) (drop_while (Z.eqb 0) l)) as Hdrop.
  { induction 1; cbn; [done|]. case_match; [done|by constructor]. }
  unfold hex_group. cbv zeta. apply Forall_map. eapply Forall_impl; [|exact Hhex].
  set (digits := map _ _). assert (Forall (λ d, 0 ≤ d < 16) digits) as Hd%Hdrop.
  { apply Forall_map, Forall_true. intros i. rewrite (Z.land_ones _ 4) by done. apply Z.mod_pos_bound. done. }
  case_match; [by repeat constructor|done].
Qed.

Lemma hex_group_graphic g : Forall graphic (hex_group g).
Proof. apply hex_group_Forall. intros d. unfold graphic, hex_digit. case_match; lia. Qed.

Lemma display_ip_graphic ip : Forall graphic (display_ip ip).
Proof.
  destruct ip as [bits|bits]; [apply display_ipv4_graphic|]. cbn. unfold display_ipv6.
  assert (∀ gs, Forall graphic (join_with 58 (map hex_group gs))) as Hj
    by (intros gs; apply join_with_Forall; [done|]; apply Forall_map, Forall_true; apply hex_group_graphic).
  cbv zeta. case_bool_decide.
  - apply Forall_app. split; [|apply display_ipv4_graphic]. repeat constructor; done.
  - destruct (longest_zeros _ _ _ _ _ _) as [start run]. destruct (1 <? run)%nat; [|done].
    rewrite !Forall_app. split_and!; [done|by repeat constructor; done|done].
Qed.

(** ** IPv4 addresses are read back *)

Lemma read_digits_back max r c l k : forallb is_ascii_digit l = true → c + len l ≤ max → k = [] ∨ head k = Some 46 →
  read_digits 10 max r c (l ++ k) = Some (digits_value r l, c + len l, k).
Proof.
  revert r c. induction l as [|b l IH]; intros r c Hd Hm Hk; cbn [app].
  { rewrite Z.add_0_r. destruct k as [|b k]; [done|]. destruct Hk as [|[= ->]]; done. }
  cbn in Hd. apply andb_prop in Hd as [Hb Hd]. rewrite len_cons in *. pose proof (len_nonneg l).
  cbn [read_digits]. unfold to_digit. unfold is_ascii_digit in Hb. rewrite Hb. cbv zeta. unfold in_range in Hb.
  rewrite (proj2 (Z.ltb_lt _ _)), (proj2 (Z.ltb_ge _ _)) by lia. rewrite IH by (done || lia). cbn. do 3 f_equal. lia.
Qed.

Lemma decimal_byte_len n : is_byte n → len (decimal n) ≤ 3.
Proof.
  intros Hn. red in Hn. unfold decimal. do 3 (cbn [decimal_loop]; case_match; [unfold len; cbn; lia|]). exfalso.
  repeat match goal with H : (_ <? _) = false |- _ => apply Z.ltb_ge in H end. div_lia.
Qed.

Lemma read_octet_back n k : is_byte n → k = [] ∨ head k = Some 46 →
  read_number 10 3 255 false (decimal n ++ k) = Some (n, k).
Proof.
  intros Hn Hk. assert (is_u64 n) as Hu by (red in Hn; unfold is_u64, U64_MAX; lia).
  destruct (decimal_spec n Hu) as (Hl & Hd & Hv). pose proof (decimal_byte_len n Hn). pose proof (decimal_canonical n Hu) as Hcan.
  unfold read_number. rewrite (read_digits_back 3 0 0 (decimal n) k Hd) by (done || lia). cbn [mbind option_bind].
  rewrite Hv, Z.add_0_l. rewrite (proj2 (Z.eqb_neq _ _)), (proj2 (Z.ltb_ge 255 n)) by (red in Hn; lia).
  destruct (decimal n) as [|b l]; [unfold len in Hl; cbn in Hl; lia|]. cbn [app negb andb]. cbn [starts_with] in Hcan.
  rewrite Z.eqb_sym, andb_true_r in Hcan. by rewrite andb_comm, Hcan.
Qed.

Lemma read_ipv4_back a b c d : is_byte a → is_byte b → is_byte c → is_byte d →
  read_ipv4_addr (join_with 46 (map decimal [a; b; c; d])) = Some ([a; b; c; d], []).
Proof.
  intros Ha Hb Hc Hd. cbn [map join_with]. unfold read_ipv4_addr. cbn [read_octets]. unfold read_separator.
  change (0 <? 0) with false. cbv iota. rewrite read_octet_back by (done || by right). cbn [mbind option_bind].
  change (0 <? 0 + 1) with true. cbn [read_given_char]. rewrite Z.eqb_refl. cbn [mbind option_bind]. rewrite read_octet_back by (done || by right).
  cbn [mbind option_bind]. change (0 <? 0 + 1 + 1) with true. cbn [read_given_char]. rewrite Z.eqb_refl. cbn [mbind option_bind].
  rewrite read_octet_back by (done || by right). cbn [mbind option_bind]. change (0 <? 0 + 1 + 1 + 1) with true. cbn [read_given_char].
  rewrite Z.eqb_refl. cbn [mbind option_bind]. rewrite <- (app_nil_r (decimal d)), read_octet_back by (done || by left). done.
Qed.

Lemma display_ipv4_back bits : 0 ≤ bits < 2 ^ 32 → parse_ip (display_ipv4 bits) = Some (V4 bits).
Proof.
  intros Hb. pose proof (be_bytes_is_byte 4 bits) as Hbytes. pose proof (be_fold_be_bytes 4 0 bits) as Hfold.
  rewrite Z.mod_small in Hfold by done. unfold parse_ip.
  change (display_ipv4 bits) with (join_with 46 (map decimal (be_bytes 4 bits))).
  destruct (be_bytes 4 bits) as [|a [|b [|c [|d [|]]]]] eqn:Hbs; try done. repeat (apply Forall_cons in Hbytes as [? Hbytes]).
  rewrite read_ipv4_back by done. by rewrite Hfold.
Qed.

(** ** Addresses as text

    What [IpAddr::to_string] writes, [str::parse] reads back ([Net]): an
    address in a selector, a header or a log line names the same address. *)

(** ** Hexadecimal groups *)

Lemma read_hex_digits ds r c k : Forall (λ d, 0 ≤ d < 16) ds → c + len ds ≤ 4 → k = [] ∨ head k = Some 58 →
  read_digits 16 4 r c (map hex_digit ds ++ k) = Some (foldl (λ r d, r * 16 + d) r ds, c + len ds, k).
Proof.
  intros Hds. revert r c. induction Hds as [|d ds Hd Hds IH]; intros r c Hm Hk; cbn [map app].
  { rewrite Z.add_0_r. destruct k as [|b k]; [done|]. destruct Hk as [|[= ->]]; done. }
  rewrite len_cons in *. pose proof (len_nonneg ds). cbn [read_digits foldl].
  assert (to_digit 16 (hex_digit d) = Some d) as ->.
  { unfold to_digit, hex_digit, in_range. destruct (Z.ltb_spec d 10).
    - rewrite (proj2 (Z.leb_le _ _)), (proj2 (Z.leb_le _ _)) by lia. cbn. rewrite (proj2 (Z.ltb_lt _ _)) by lia. f_equal. lia.
    - rewrite (proj2 (Z.leb_le 48 _)), (proj2 (Z.leb_gt _ 57)), (proj2 (Z.leb_le 97 _)), (proj2 (Z.leb_le _ 122)) by lia. cbn.
      rewrite (proj2 (Z.ltb_lt _ _)) by lia. f_equal. lia. }
  rewrite (proj2 (Z.ltb_ge _ _)), IH by (done || lia). do 3 f_equal. lia.
Qed.

Lemma drop_zeros_value ds : foldl (λ r d, r * 16 + d) 0 (drop_while (Z.eqb 0) ds) = foldl (λ r d, r * 16 + d) 0 ds.
Proof. induction ds as [|d ds IH]; [done|]. cbn [drop_while foldl]. destruct (Z.eqb_spec 0 d) as [<-|]; [by rewrite IH|done]. Qed.

Lemma drop_while_suffix {A} (p : A → bool) l : ∃ k, l = k ++ drop_while p l.
Proof. induction l as [|a l [k IH]]; [by exists []|]. cbn. destruct (p a); [exists (a :: k); cbn; by rewrite <- IH|by exists []]. Qed.

Lemma read_group_back g k : 0 ≤ g < 65536 → k = [] ∨ head k = Some 58 →
  read_number 16 4 65535 true (hex_group g ++ k) = Some (g, k).
Proof.
  intros Hg Hk. unfold hex_group. cbv zeta. set (ds := map _ [12; 8; 4; 0]).
  assert (Forall (λ d, 0 ≤ d < 16) ds) as Hds.
  { apply Forall_map, Forall_true. intros i. rewrite (Z.land_ones _ 4) by done. apply Z.mod_pos_bound. done. }
  assert (foldl (λ r d, r * 16 + d) 0 ds = g) as Hv.
  { unfold ds. cbn [map foldl]. rewrite !(Z.land_ones _ 4), !Z.shiftr_div_pow2 by done. cbn. div_lia. }
  destruct (drop_while_suffix (Z.eqb 0) ds) as [z Hz].
  set (ds' := match drop_while (Z.eqb 0) ds with [] => [0] | _ => _ end).
  assert (Forall (λ d, 0 ≤ d < 16) ds' ∧ 1 ≤ len ds' ≤ 4 ∧ foldl (λ r d, r * 16 + d) 0 ds' = g) as (Hf & Hl & Hv').
  { rewrite <- drop_zeros_value in Hv. rewrite Hz in Hds. apply Forall_app in Hds as [_ Hds].
    assert (len (drop_while (Z.eqb 0) ds) ≤ 4) as Hlen.
    { assert (len ds = 4) as Hlen by done. rewrite Hz, len_app in Hlen. pose proof (len_nonneg z). lia. }
    unfold ds'. destruct (drop_while (Z.eqb 0) ds) as [|d l].
    - cbn in Hv |- *. split; [repeat constructor; lia|]. split; [done|lia].
    - split; [done|]. split; [|done]. rewrite len_cons in *. pose proof (len_nonneg l). lia. }
  clearbody ds'. unfold read_number. rewrite (read_hex_digits ds' 0 0 k Hf) by (done || lia). cbn [mbind option_bind].
  rewrite Hv', Z.add_0_l, (proj2 (Z.eqb_neq _ _)), (proj2 (Z.ltb_ge 65535 g)) by lia. done.
Qed.

(** ** Groups between colons *)

(** Nothing without a dot reads as an IPv4 address. *)
Lemma read_digits_suffix radix m r c l v n k : read_digits radix m r c l = Some (v, n, k) → ∃ p, l = p ++ k.
Proof.
  revert r c. induction l as [|b l IH]; intros r c; cbn; [intros [= _ _ <-]; by exists []|].
  destruct (to_digit radix b); [|intros [= _ _ <-]; by exists []]. case_match; [done|]. intros [p ->]%IH. by exists (b :: p).
Qed.

Lemma read_number_suffix radix m max z l v k : read_number radix m max z l = Some (v, k) → ∃ p, l = p ++ k.
Proof.
  unfold read_number. destruct (read_digits _ _ _ _ _) as [[[r c] k']|] eqn:E; [|done]. cbn.
  repeat case_match; try done; intros [= _ <-]; by eapply read_digits_suffix.
Qed.

Lemma no_dot_no_ipv4 l : 46 ∉ l → read_ipv4_addr l = None.
Proof.
  intros Hl. unfold read_ipv4_addr. cbn [read_octets]. unfold read_separator. change (0 <? 0) with false. cbv iota.
  destruct (read_number 10 3 255 false l) as [[v k]|] eqn:E; [|done]. apply read_number_suffix in E as [p ->]. cbn [mbind option_bind].
  change (0 <? 0 + 1) with true. cbv iota.
  destruct k as [|b k]; [done|]. cbn [read_given_char]. destruct (Z.eqb_spec b 46) as [-> |]; [|done]. exfalso. set_solver.
Qed.

(** The groups from an index on, a colon before each but the first of all. *)
Fixpoint group_text (index : Z) (gs : list Z) : bytes :=
  match gs with
  | [] => []
  | g :: gs => (if 0 <? index then [58] else []) ++ hex_group g ++ group_text (index + 1) gs
  end.

Lemma group_text_later i gs : 0 < i → group_text i gs = concat (map (λ g, 58 :: hex_group g) gs).
Proof.
  revert i. induction gs as [|g gs IH]; intros i Hi; [done|]. cbn [group_text map concat]. rewrite (proj2 (Z.ltb_lt _ _)), IH by lia. done.
Qed.

Lemma group_text_join gs : join_with 58 (map hex_group gs) = group_text 0 gs.
Proof.
  destruct gs as [|g gs]; [done|]. cbn [group_text map]. cbn [Z.ltb Z.compare app]. rewrite group_text_later by done.
  revert g. induction gs as [|g' gs IH]; intros g; [cbn; by rewrite app_nil_r|]. cbn [map join_with concat app]. f_equal. f_equal. apply IH.
Qed.

(** What may follow the groups: nothing, or the compressed zeros. *)
Definition ends_groups (k : bytes) : Prop := k = [] ∨ ∃ l, k = 58 :: 58 :: l.

Lemma read_separator_back {A} i (inner : bytes → option (A * bytes)) l :
  read_separator 58 i inner ((if 0 <? i then [58] else []) ++ l) = inner l.
Proof. unfold read_separator. by destruct (0 <? i). Qed.

(** No group, and no address, can be read there. *)
Lemma ends_groups_none i k : ends_groups k → 46 ∉ k →
  read_separator 58 i read_ipv4_addr k = None ∧ read_separator 58 i (read_number 16 4 65535 true) k = None.
Proof.
  intros Hk Hdot. unfold read_separator. destruct (0 <? i).
  - destruct Hk as [-> |[l ->]]; [done|]. cbn [read_given_char]. rewrite Z.eqb_refl. cbn [mbind option_bind]. split; [|done].
    apply no_dot_no_ipv4. set_solver.
  - split; [by apply no_dot_no_ipv4|]. by destruct Hk as [-> |[l ->]].
Qed.

Lemma read_groups_back n i gs k : 0 ≤ i → (length gs ≤ n)%nat → Forall (λ g, 0 ≤ g < 65536) gs → 46 ∉ group_text i gs ++ k →
  ends_groups k → read_groups n i (group_text i gs ++ k) = (gs, false, k).
Proof.
  intros Hi Hn Hgs. revert i n Hi Hn. induction Hgs as [|g gs Hg Hgs IH]; intros i n Hi Hn Hdot Hk.
  - cbn [group_text app] in *. destruct n as [|n]; [done|]. cbn [read_groups].
    destruct (ends_groups_none i k Hk Hdot) as [-> ->]. by destruct n.
  - destruct n as [|n]; [cbn in Hn; lia|]. cbn [group_text read_groups]. rewrite <- !app_assoc, !read_separator_back.
    cbn [group_text] in Hdot. rewrite <- !app_assoc in Hdot. rewrite no_dot_no_ipv4 by set_solver.
    rewrite read_group_back; [|done|]; [rewrite IH; [by destruct n|lia|cbn in Hn; lia|set_solver|done]|].
    destruct gs as [|g' gs]; cbn [group_text app]; [destruct Hk as [-> |[l ->]]; auto|].
    rewrite (proj2 (Z.ltb_lt _ _)) by lia. by right.
Qed.

(** ** Zeros *)

(** A run of zeros within the groups. *)
Definition zeros_at (gs : list Z) (start run : nat) : Prop :=
  (start + run ≤ length gs)%nat ∧ take run (drop start gs) = replicate run 0.

Lemma zeros_at_app gs gs' start run : zeros_at gs start run → zeros_at (gs ++ gs') start run.
Proof.
  intros [Hl Hz]. split; [rewrite length_app; lia|]. rewrite drop_app_le, take_app_le by (rewrite ?length_drop; lia). done.
Qed.

Lemma longest_zeros_run before gs start run best_start best s r :
  (run = 0%nat ∨ (start + run = length before)%nat) → zeros_at before start run ∨ run = 0%nat → zeros_at before best_start best →
  longest_zeros (length before) start run best_start best gs = (s, r) → zeros_at (before ++ gs) s r.
Proof.
  revert before start run best_start best. induction gs as [|g gs IH]; intros before start run best_start best He Hr Hb; cbn.
  { intros [= <- <-]. by rewrite app_nil_r. }
  rewrite cons_middle, app_assoc. assert (S (length before) = length (before ++ [g])) as Hlen by (rewrite length_app; cbn; lia).
  destruct (Z.eqb_spec g 0) as [-> |_].
  - set (start' := if (run =? 0)%nat then length before else start).
    assert (start' + run = length before)%nat as Hend by (unfold start'; destruct (Nat.eqb_spec run 0); lia).
    assert (zeros_at (before ++ [0]) start' (S run)) as Hz.
    { split; [rewrite length_app; cbn; lia|]. rewrite drop_app_le, take_ge by (rewrite ?length_app, ?length_drop; cbn; lia).
      rewrite replicate_S_end. f_equal. unfold start' in *. destruct (Nat.eqb_spec run 0) as [-> |]; [by rewrite drop_all|].
      destruct Hr as [[_ Hr]|]; [|done]. rewrite <- Hr. by rewrite take_ge by (rewrite length_drop; lia). }
    rewrite Hlen. destruct (best <=? run)%nat; apply IH; auto using zeros_at_app; right; lia.
  - rewrite Hlen. apply IH; auto using zeros_at_app.
Qed.

(** ** The groups of the bits *)

Lemma shift_group x i : 0 ≤ i → Z.lor (Z.shiftl (Z.shiftr x (i + 16)) 16) (Z.land (Z.shiftr x i) 65535) = Z.shiftr x i.
Proof.
  intros Hi. rewrite <- Z.shiftr_shiftr by lia. set (y := Z.shiftr x i). change 65535 with (Z.ones 16).
  rewrite Z.land_ones, Z.shiftr_div_pow2 by lia. rewrite lor_shiftl_add by (lia || (apply Z.mod_pos_bound; lia)).
  pose proof (Z.div_mod y (2 ^ 16) ltac:(lia)). lia.
Qed.

Lemma segments_back bits : 0 ≤ bits < 2 ^ 128 → group_bits (segments bits) = bits.
Proof.
  intros Hb. unfold group_bits, segments. cbn [map foldl].
  replace 0 with (Z.shiftr bits (112 + 16)) at 1 by (rewrite Z.shiftr_div_pow2 by done; apply Z.div_small; done).
  rewrite shift_group by done. change 112 with (96 + 16) at 1. rewrite shift_group by done. change 96 with (80 + 16) at 1.
  rewrite shift_group by done. change 80 with (64 + 16) at 1. rewrite shift_group by done. change 64 with (48 + 16) at 1.
  rewrite shift_group by done. change 48 with (32 + 16) at 1. rewrite shift_group by done. change 32 with (16 + 16) at 1.
  rewrite shift_group by done. change 16 with (0 + 16) at 1. rewrite shift_group by done. apply Z.shiftr_0_r.
Qed.

Lemma segments_groups bits : length (segments bits) = 8%nat ∧ Forall (λ g, 0 ≤ g < 65536) (segments bits).
Proof.
  split; [done|]. apply Forall_map, Forall_true. intros i. change 65535 with (Z.ones 16). rewrite Z.land_ones by done.
  apply Z.mod_pos_bound. done.
Qed.

Lemma group_text_no_dot i gs : 46 ∉ group_text i gs.
Proof.
  revert i. induction gs as [|g gs IH]; intros i; cbn [group_text]; [apply not_elem_of_nil|].
  assert (46 ∉ hex_group g) as Hg.
  { assert (Forall (λ b, 48 ≤ b) (hex_group g)) as Hf by (apply hex_group_Forall; intros d; unfold hex_digit; case_match; lia).
    intros Hin. rewrite Forall_forall in Hf. specialize (Hf _ Hin). lia. }
  specialize (IH (i + 1)). destruct (0 <? i); set_solver.
Qed.

(** ** Addresses *)

(** The first groups and the last, with zeros between them. *)
Lemma read_compressed hd tl : (length hd + 2 + length tl ≤ 8)%nat →
  Forall (λ g, 0 ≤ g < 65536) hd → Forall (λ g, 0 ≤ g < 65536) tl →
  read_ipv6_addr (group_text 0 hd ++ [58; 58] ++ group_text 0 tl)
  = Some (group_bits (hd ++ replicate (8 - length hd - length tl) 0 ++ tl), []).
Proof.
  intros Hl Hh Ht. pose proof (group_text_no_dot 0 hd). pose proof (group_text_no_dot 0 tl). unfold read_ipv6_addr.
  rewrite (read_groups_back 8 0 hd); [|lia|lia|done|cbn; set_solver|right; by eexists].
  rewrite (proj2 (Nat.eqb_neq _ _)) by lia. cbn [app read_given_char]. rewrite Z.eqb_refl. cbn [mbind option_bind read_given_char].
  rewrite Z.eqb_refl. cbn [mbind option_bind]. rewrite <- (app_nil_r (group_text 0 tl)) at 1.
  rewrite (read_groups_back _ 0 tl); [done|lia|lia|done|by rewrite app_nil_r|by left].
Qed.

Lemma read_full gs : length gs = 8%nat → Forall (λ g, 0 ≤ g < 65536) gs → read_ipv6_addr (group_text 0 gs) = Some (group_bits gs, []).
Proof.
  intros Hl Hg. unfold read_ipv6_addr. rewrite <- (app_nil_r (group_text 0 gs)).
  rewrite (read_groups_back 8 0 gs); [|lia|lia|done|rewrite app_nil_r; apply group_text_no_dot|by left].
  by rewrite (proj2 (Nat.eqb_eq _ _)).
Qed.

(** The last two groups of a mapped address are its IPv4 octets. *)
Lemma mapped_groups bits : 0 ≤ bits →
  let v := Z.land bits U32_MAX in
  be_fold 0 (take 2 (be_bytes 4 v)) = Z.land (Z.shiftr bits 16) 65535 ∧ be_fold 0 (drop 2 (be_bytes 4 v)) = Z.land (Z.shiftr bits 0) 65535.
Proof.
  intros Hb v. unfold v. change U32_MAX with (Z.ones 32). rewrite !Z.land_ones by done. change 65535 with (Z.ones 16).
  rewrite !Z.land_ones, !Z.shiftr_div_pow2 by done.
  change (take 2 (be_bytes 4 (bits mod 2 ^ 32))) with (be_bytes 2 (Z.shiftr (bits mod 2 ^ 32) 16)).
  change (drop 2 (be_bytes 4 (bits mod 2 ^ 32))) with (be_bytes 2 (bits mod 2 ^ 32)).
  rewrite !be_fold_be_bytes, Z.shiftr_div_pow2 by done. change (2 ^ (8 * Z.of_nat 2)) with (2 ^ 16). split; div_lia.
Qed.

Lemma read_mapped v : read_ipv6_addr (ascii "::ffff:" ++ display_ipv4 v)
  = Some (group_bits ([0; 0; 0; 0; 0; 65535] ++ [be_fold 0 (take 2 (be_bytes 4 v)); be_fold 0 (drop 2 (be_bytes 4 v))]), []).
Proof.
  pose proof (be_bytes_is_byte 4 v) as Hbytes. change (display_ipv4 v) with (join_with 46 (map decimal (be_bytes 4 v))).
  destruct (be_bytes 4 v) as [|a [|b [|c [|d [|]]]]] eqn:Hbs; try done. repeat (apply Forall_cons in Hbytes as [? Hbytes]).
  set (y := join_with 46 (map decimal [a; b; c; d])). pose proof (read_ipv4_back a b c d) as Hy. fold y in Hy.
  unfold read_ipv6_addr. change (read_groups 8 0 (ascii "::ffff:" ++ y)) with (@nil Z, false, ascii "::ffff:" ++ y). cbv iota beta.
  change (length [] =? 8)%nat with false. cbv iota. change (read_given_char 58 (ascii "::ffff:" ++ y)) with (Some (ascii ":ffff:" ++ y)).
  cbn [mbind option_bind]. change (read_given_char 58 (ascii ":ffff:" ++ y)) with (Some (ascii "ffff:" ++ y)). cbn [mbind option_bind].
  assert (read_groups (8 - (length (@nil Z) + 1)) 0 (ascii "ffff:" ++ y) = ([65535; be_fold 0 [a; b]; be_fold 0 [c; d]], true, [])) as ->; [|done].
  change (read_groups (8 - (length (@nil Z) + 1)) 0 (ascii "ffff:" ++ y)) with
    (let '(groups, embedded, l) := read_groups 6 1 (58 :: y) in (65535 :: groups, embedded, l)).
  cbn [read_groups]. change (read_separator 58 1 read_ipv4_addr (58 :: y)) with (read_ipv4_addr y). by rewrite Hy.
Qed.

(** The text of an address is read back as the address. *)
Lemma display_ip_back ip : ip_wf ip → parse_ip (display_ip ip) = Some ip.
Proof.
  destruct ip as [bits|bits]; [apply display_ipv4_back|]. intros Hb. cbn in Hb. cbn [display_ip]. unfold display_ipv6. cbv zeta.
  destruct (segments_groups bits) as [Hl Hg]. pose proof (segments_back bits Hb) as Hback. case_bool_decide as Hm.
  - unfold parse_ip. change (read_ipv4_addr (ascii "::ffff:" ++ display_ipv4 (Z.land bits U32_MAX))) with (@None (list Z * bytes)).
    rewrite read_mapped. destruct (mapped_groups bits ltac:(lia)) as [-> ->]. rewrite <- Hback at 3. do 3 f_equal.
    rewrite <- Hm. unfold segments at 2. cbn [map take app]. done.
  - destruct (longest_zeros 0 0 0 0 0 (segments bits)) as [start run] eqn:Hz.
    assert (zeros_at (segments bits) start run) as [Hle Hzeros]
      by (apply (longest_zeros_run [] (segments bits) 0 0 0 0); [by left|by right|by split|done]).
    rewrite !group_text_join. unfold parse_ip.
    destruct (Nat.ltb_spec 1 run) as [Hrun|Hrun].
    + rewrite no_dot_no_ipv4 by (rewrite !not_elem_of_app; split_and!; [apply group_text_no_dot|by apply (bool_decide_unpack _)|apply group_text_no_dot]).
      rewrite read_compressed by (by apply Forall_take || by apply Forall_drop || (rewrite length_take, length_drop; lia)).
      rewrite length_take, length_drop, Nat.min_l by lia. replace (8 - start - (length (segments bits) - (start + run)))%nat with run by lia.
      assert (take run (drop start (segments bits)) ++ drop (start + run) (segments bits) = drop start (segments bits)) as Hmid
        by (rewrite <- (take_drop run (drop start (segments bits))) at 2; by rewrite drop_drop).
      rewrite <- Hzeros, Hmid, take_drop. by rewrite Hback.
    + rewrite no_dot_no_ipv4 by apply group_text_no_dot. rewrite read_full by done. by rewrite Hback.
Qed.

(** ** How long it is *)

Lemma hex_group_len g : len (hex_group g) ≤ 4.
Proof.
  unfold hex_group. cbv zeta. set (ds := map _ [12; 8; 4; 0]). destruct (drop_while_suffix (Z.eqb 0) ds) as [z Hz].
  assert (len ds = 4) as Hl by done. rewrite Hz, len_app in Hl. pose proof (len_nonneg z). unfold len in *. rewrite length_map.
  destruct (drop_while (Z.eqb 0) ds); [cbn|]; lia.
Qed.

Lemma group_text_len i gs : len (group_text i gs) ≤ 5 * len gs.
Proof.
  revert i. induction gs as [|g gs IH]; intros i; cbn [group_text]; [done|]. rewrite !len_app, len_cons.
  specialize (IH (i + 1)). pose proof (hex_group_len g). destruct (0 <? i); [change (len [58]) with 1|change (len (@nil Z)) with 0]; lia.
Qed.

Lemma display_ipv4_len bits : len (display_ipv4 bits) ≤ 15.
Proof.
  unfold display_ipv4. cbn [map join_with]. assert (∀ i, len (decimal (Z.land (Z.shiftr bits i) 255)) ≤ 3) as Hl
    by (intros i; apply decimal_byte_len; rewrite land_255; apply Z.mod_pos_bound; lia).
  rewrite !len_app, !len_cons, !len_app, !len_cons, len_app, len_cons.
  pose proof (Hl 24). pose proof (Hl 16). pose proof (Hl 8). pose proof (Hl 0). lia.
Qed.

Lemma display_ip_len ip : len (display_ip ip) ≤ 40.
Proof.
  destruct ip as [bits|bits]; cbn [display_ip]; [pose proof (display_ipv4_len bits); lia|]. unfold display_ipv6. cbv zeta.
  case_bool_decide; [rewrite len_app; pose proof (display_ipv4_len (Z.land bits U32_MAX)); change (len (ascii "::ffff:")) with 7; lia|].
  destruct (longest_zeros 0 0 0 0 0 (segments bits)) as [start run] eqn:Hz. rewrite !group_text_join.
  assert (zeros_at (segments bits) start run) as [Hle _]
    by (apply (longest_zeros_run [] (segments bits) 0 0 0 0); [by left|by right|by split|done]).
  assert (len (segments bits) = 8) as Hl by done. unfold len in Hl. destruct (Nat.ltb_spec 1 run).
  - rewrite !len_app. pose proof (group_text_len 0 (take start (segments bits))).
    pose proof (group_text_len 0 (drop (start + run) (segments bits))). change (len [58; 58]) with 2. unfold len in *.
    rewrite length_take, length_drop in *. lia.
  - pose proof (group_text_len 0 (segments bits)). unfold len in *. lia.
Qed.
