(* ===== verification/Identity.v ===== *)
(** * Client identity

    [src/source/src/identity.rs]: CIDR matching, whether a list of CIDRs
    covers an address family, and the client address a request is attributed
    to when trusted proxies forward it.

    The [http] crate's header map is a parameter: what is relied on is that
    the values of a name keep their order, of which [get] is the first, and
    that [to_str] yields the value when it is visible ASCII.  Other operations
    are in the [str] and [net] of the standard library ([Text], [Net]). *)

From S2P Require Import Prelude Bytes Text Net.

(** Visible ASCII and the tab. *)
Definition visible (b : Z) : bool := in_range 32 126 b || (b =? 9).

Class HeaderLookup := {
  Headers : Type;
  values_of : bytes → Headers → list bytes;
  to_str : bytes → option bytes;
  to_str_text v : to_str v = if forallb visible v then Some v else None;
}.

Inductive identity_error : Type :=
  | InvalidCidrAddress
  | InvalidCidrPrefix
  | InvalidAddress
  | Ipv4PrefixTooLong
  | Ipv6PrefixTooLong
  | UntrustedForwarded.

Record Cidr : Type := mkCidr {
  network : IpAddr;
  prefix : Z;
}.

#[export] Instance Cidr_eq_dec : EqDecision Cidr.
Proof. solve_decision. Defined.

Inductive RealIpHeader : Type :=
  | XForwardedFor
  | XRealIp
  | Forwarded
  | CfConnectingIp.

(** [RealIpHeader::header_name] *)
Definition real_ip_header_name (h : RealIpHeader) : bytes :=
  match h with
  | XForwardedFor => ascii "x-forwarded-for"
  | XRealIp => ascii "x-real-ip"
  | Forwarded => ascii "forwarded"
  | CfConnectingIp => ascii "cf-connecting-ip"
  end.

(** [RealIpConfig] without its scoped rules, which [RealIp] models. *)
Record RealIpConfig : Type := mkRealIp {
  enabled : bool;
  trusted_proxies : list bytes;
  header : RealIpHeader;
  recursive : bool;
  fail_on_untrusted_forwarded_headers : bool;
}.

(** ** CIDRs *)

(** [!0u32 << count] and [!0u128 << count]. *)
Definition ones_shl (width count : Z) : Z := Z.land (Z.shiftl (Z.ones width) count) (Z.ones width).

Definition mask_v4 (bits prefix : Z) : Z :=
  if prefix =? 0 then 0 else Z.land bits (ones_shl 32 (32 - prefix)).
Definition mask_v6 (bits prefix : Z) : Z :=
  if prefix =? 0 then 0 else Z.land bits (ones_shl 128 (128 - prefix)).

(** [Cidr::parse] *)
Definition cidr_parse (raw : bytes) : result identity_error Cidr :=
  '(ip, prefix) ←
    match split_once 47 raw with
    | Some (ip, prefix) =>
        ip ← ok_or (parse_ip ip) InvalidCidrAddress;
        prefix ← ok_or (parse_unsigned 255 prefix) InvalidCidrPrefix;
        Ok (ip, prefix)
    | None =>
        ip ← ok_or (parse_ip raw) InvalidAddress;
        Ok (ip, match ip with V4 _ => 32 | V6 _ => 128 end)
    end;
  match ip with
  | V4 bits => if prefix <=? 32 then Ok (mkCidr (V4 (mask_v4 bits prefix)) prefix) else Err Ipv4PrefixTooLong
  | V6 bits => if prefix <=? 128 then Ok (mkCidr (V6 (mask_v6 bits prefix)) prefix) else Err Ipv6PrefixTooLong
  end.

(** [Cidr::contains] *)
Definition cidr_contains (c : Cidr) (ip : IpAddr) : bool :=
  match network c, ip with
  | V4 network, V4 ip => mask_v4 ip (prefix c) =? network
  | V6 network, V6 ip => mask_v6 ip (prefix c) =? network
  | _, _ => false
  end.

(** [Cidr::overlaps] *)
Definition cidr_overlaps (c other : Cidr) : bool :=
  match network c, network other with
  | V4 _, V4 bits =>
      if prefix c <=? prefix other then cidr_contains c (V4 bits) else cidr_contains other (network c)
  | V6 _, V6 bits =>
      if prefix c <=? prefix other then cidr_contains c (V6 bits) else cidr_contains other (network c)
  | _, _ => false
  end.

(** [Cidr::canonical] *)
Definition cidr_canonical (c : Cidr) : bytes := display_ip (network c) ++ [47] ++ decimal (prefix c).

(** ** Covering an address family *)

Definition host_mask_v4 (prefix : Z) : Z :=
  if prefix =? 0 then U32_MAX else if prefix =? 32 then 0 else Z.shiftr U32_MAX prefix.
Definition host_mask_v6 (prefix : Z) : Z :=
  if prefix =? 0 then U128_MAX else if prefix =? 128 then 0 else Z.shiftr U128_MAX prefix.

(** The pushes of the loop over the CIDRs. *)
Definition push_range (ranges : list (Z * Z) * list (Z * Z)) (c : Cidr) : list (Z * Z) * list (Z * Z) :=
  let '(ipv4, ipv6) := ranges in
  match network c with
  | V4 start => (ipv4 ++ [(start, Z.lor start (host_mask_v4 (prefix c)))], ipv6)
  | V6 start => (ipv4, ipv6 ++ [(start, Z.lor start (host_mask_v6 (prefix c)))])
  end.

(** The sweep over the sorted ranges. *)
Fixpoint sweep (maximum : Z) (covered_end : option Z) (ranges : list (Z * Z)) : bool :=
  match ranges with
  | [] => false
  | (start, end_) :: ranges =>
      match covered_end with
      | None =>
          if negb (start =? 0) then false
          else if end_ =? maximum then true
          else sweep maximum (Some end_) ranges
      | Some current_end =>
          if saturating_add128 current_end 1 <? start then false
          else
            let end_ := Z.max current_end end_ in
            if end_ =? maximum then true else sweep maximum (Some end_) ranges
      end
  end.

Definition ranges_cover_entire_address_family (ranges : list (Z * Z)) (maximum : Z) : bool :=
  sweep maximum None (sort_by (λ x y, Z.compare x.1 y.1) ranges).

Definition cidrs_cover_entire_address_family (cidrs : list Cidr) : bool :=
  let '(ipv4_ranges, ipv6_ranges) := foldl push_range ([], []) cidrs in
  ranges_cover_entire_address_family ipv4_ranges U32_MAX
  || ranges_cover_entire_address_family ipv6_ranges U128_MAX.

(** ** Trusted proxies *)

(** [TrustedCidrs::parse]: the first error ends it. *)
Fixpoint trusted_parse (values : list bytes) : result identity_error (list Cidr) :=
  match values with
  | [] => Ok []
  | value :: values =>
      c ← cidr_parse value;
      cidrs ← trusted_parse values;
      Ok (c :: cidrs)
  end.

(** [TrustedCidrs::contains] *)
Definition trusted_contains (cidrs : list Cidr) (ip : IpAddr) : bool := existsb (λ c, cidr_contains c ip) cidrs.

(** ** Forwarded addresses *)

Definition parse_ip_token (raw : bytes) : option IpAddr :=
  let token := trim_matches 34 (trim raw) in
  if is_empty token || eq_ignore_ascii_case token (ascii "unknown") then None
  else
    match parse_ip token with
    | Some ip => Some ip
    | None =>
        if starts_with [91] token then
          end_ ← first_index (Z.eqb 93) token;
          parse_ip (takeZ (end_ - 1) (dropZ 1 token))
        else
          match rsplit_once 58 token with
          | Some (host, port) =>
              if negb (contains_char 58 host) && forallb is_ascii_digit port then parse_ip host else None
          | None => None
          end
    end.

Definition parse_csv_ips (raw : bytes) : list IpAddr := omap parse_ip_token (split_on 44 raw).

(** The closure of [parse_forwarded_for_ips]. *)
Definition forwarded_part (part : bytes) : option IpAddr :=
  '(name, value) ← split_once 61 (trim part);
  if negb (eq_ignore_ascii_case (trim name) (ascii "for")) then None
  else parse_ip_token (trim_matches 34 (trim value)).

Definition parse_forwarded_for_ips (raw : bytes) : list IpAddr :=
  omap forwarded_part (concat (map (split_on 59) (split_on 44 raw))).

Section resolution.
Context `{HeaderLookup}.

(** [headers.get(name)] *)
Definition first_value (name : bytes) (headers : Headers) : option bytes := head (values_of name headers).

Definition has_real_ip_header (headers : Headers) (h : RealIpHeader) : bool :=
  negb (is_empty (values_of (real_ip_header_name h) headers)).

Definition header_candidate_ips (headers : Headers) (h : RealIpHeader) : list IpAddr :=
  let text := first_value (real_ip_header_name h) headers ≫= to_str in
  match h with
  | XForwardedFor => default [] (parse_csv_ips <$> text)
  | XRealIp | CfConnectingIp => option_list (text ≫= parse_ip_token)
  | Forwarded => default [] (parse_forwarded_for_ips <$> text)
  end.

(** The address chosen among the forwarded ones. *)
Definition select_candidate (recursive : bool) (trusted : list Cidr) (candidates : list IpAddr) : option IpAddr :=
  if recursive then
    match List.find (λ ip, negb (trusted_contains trusted ip)) (reverse candidates) with
    | Some ip => Some ip
    | None => head candidates
    end
  else head candidates.

Definition resolve_client_addr (headers : Headers) (peer_addr : SocketAddr) (config : RealIpConfig) :
  result identity_error SocketAddr :=
  if negb (enabled config) then Ok peer_addr
  else
    trusted ← trusted_parse (trusted_proxies config);
    let has_forwarded := has_real_ip_header headers (header config) in
    if negb (trusted_contains trusted (sa_ip peer_addr)) then
      if fail_on_untrusted_forwarded_headers config && has_forwarded then Err UntrustedForwarded
      else Ok peer_addr
    else
      let candidates := header_candidate_ips headers (header config) in
      if is_empty candidates then Ok peer_addr
      else
        Ok (match select_candidate (recursive config) trusted candidates with
            | Some ip => mkSocketAddr ip (sa_port peer_addr)
            | None => peer_addr
            end).
End resolution.
