(* ===== verification/IdentitySpec.v ===== *)
(** * What client identity promises

    A CIDR contains the addresses of an interval; two overlap exactly when
    they share an address; a list covers a family exactly when it contains
    every address of it; and a request behind trusted proxies is attributed
    to the last hop that is not trusted, whatever the client wrote before. *)

From S2P Require Import Prelude Bytes Text Net Identity.

(** ** Masks *)

(** The first [p] of [w] bits. *)
Definition mask (w bits p : Z) : Z := bits / 2 ^ (w - p) * 2 ^ (w - p).

Lemma land_ones_shl w bits k : 0 ≤ k ≤ w → 0 ≤ bits < 2 ^ w →
  Z.land bits (ones_shl w k) = bits / 2 ^ k * 2 ^ k.
Proof.
  intros Hk Hb. rewrite <- Z.shiftr_div_pow2, <- Z.shiftl_mul_pow2, <- Z.ldiff_ones_r by lia.
  apply Z.bits_inj'. intros n Hn. unfold ones_shl. rewrite Z.land_spec, Z.ldiff_spec, Z.land_spec by lia.
  destruct (Z.ltb_spec n w) as [Hw|Hw].
  - rewrite Z.shiftl_spec, (Z.ones_spec_low w n), andb_true_r by lia. f_equal. destruct (Z.ltb_spec n k).
    + rewrite Z.testbit_neg_r, Z.ones_spec_low by lia. done.
    + rewrite Z.ones_spec_low, Z.ones_spec_high by lia. done.
  - by rewrite <- (Z.mod_small bits (2 ^ w)), Z.mod_pow2_bits_high by lia.
Qed.

Lemma mask_zero w bits : 0 ≤ bits < 2 ^ w → mask w bits 0 = 0.
Proof. intros. unfold mask. by rewrite Z.sub_0_r, Z.div_small. Qed.

Lemma mask_v4_spec bits p : 0 ≤ p ≤ 32 → 0 ≤ bits < 2 ^ 32 → mask_v4 bits p = mask 32 bits p.
Proof.
  intros. unfold mask_v4. destruct (Z.eqb_spec p 0) as [->|]; [by rewrite mask_zero|].
  by apply land_ones_shl; [lia|].
Qed.

Lemma mask_v6_spec bits p : 0 ≤ p ≤ 128 → 0 ≤ bits < 2 ^ 128 → mask_v6 bits p = mask 128 bits p.
Proof.
  intros. unfold mask_v6. destruct (Z.eqb_spec p 0) as [->|]; [by rewrite mask_zero|].
  by apply land_ones_shl; [lia|].
Qed.

Lemma mask_bounds w bits p : 0 ≤ p ≤ w → 0 ≤ bits < 2 ^ w →
  0 ≤ mask w bits p ∧ mask w bits p + 2 ^ (w - p) ≤ 2 ^ w.
Proof.
  intros Hp Hb. unfold mask. assert (0 < 2 ^ (w - p)) by (apply Z.pow_pos_nonneg; lia).
  assert (2 ^ w = 2 ^ p * 2 ^ (w - p)) as Hw by (rewrite <- Z.pow_add_r by lia; f_equal; lia).
  assert (0 ≤ bits / 2 ^ (w - p) < 2 ^ p).
  { split; [apply Z.div_pos; lia|]. apply Z.div_lt_upper_bound; lia. }
  nia.
Qed.

Lemma mask_idem w bits p : p ≤ w → mask w (mask w bits p) p = mask w bits p.
Proof. intros. unfold mask. rewrite Z.div_mul; [done|]. assert (0 < 2 ^ (w - p)) by (apply Z.pow_pos_nonneg; lia). lia. Qed.

(** The addresses of a network are an interval. *)
Lemma mask_interval w n x p : p ≤ w → mask w n p = n → mask w x p = n ↔ n ≤ x < n + 2 ^ (w - p).
Proof.
  unfold mask. intros Hp Hn. assert (0 < 2 ^ (w - p)) as Hpos by (apply Z.pow_pos_nonneg; lia).
  pose proof (Z.div_mod x (2 ^ (w - p)) ltac:(lia)) as Hd. pose proof (Z.mod_pos_bound x (2 ^ (w - p)) Hpos).
  split; [intros Hx; nia|]. intros Hx. assert (x / 2 ^ (w - p) = n / 2 ^ (w - p)) as ->; [|done].
  symmetry. apply Z.div_unique with (x - n); [left; lia|]. lia.
Qed.

(** A longer prefix that starts inside a network stays inside it. *)
Lemma mask_nested w n m x p q : 0 ≤ p ≤ q → q ≤ w → mask w n p = n → mask w m q = m →
  n ≤ x < n + 2 ^ (w - p) → m ≤ x < m + 2 ^ (w - q) → n ≤ m < n + 2 ^ (w - p).
Proof.
  unfold mask. intros Hp Hq Hn Hm Hx Hy. assert (0 < 2 ^ (w - q)) by (apply Z.pow_pos_nonneg; lia).
  assert (2 ^ (w - p) = 2 ^ (q - p) * 2 ^ (w - q)) as Hw by (rewrite <- Z.pow_add_r by lia; f_equal; lia).
  assert (0 < 2 ^ (q - p)) by (apply Z.pow_pos_nonneg; lia).
  set (s := 2 ^ (w - q)) in *. set (d := 2 ^ (q - p)) in *. rewrite Hw in *.
  set (a := n / (d * s)) in *. set (b := m / s) in *.
  assert (a * d < b + 1) by (apply (Z.mul_lt_mono_pos_r s); lia).
  assert (b < (a + 1) * d) by (apply (Z.mul_lt_mono_pos_r s); lia). nia.
Qed.

(** ** Networks *)

(** What [Cidr::parse] builds: the prefix fits and the network has no host bits. *)
Definition cidr_wf (c : Cidr) : Prop :=
  ip_wf (network c) ∧
  match network c with
  | V4 n => 0 ≤ prefix c ≤ 32 ∧ mask 32 n (prefix c) = n
  | V6 n => 0 ≤ prefix c ≤ 128 ∧ mask 128 n (prefix c) = n
  end.

(** The addresses of the network, an interval of its family. *)
Definition in_cidr (c : Cidr) (ip : IpAddr) : Prop :=
  match network c, ip with
  | V4 n, V4 x => n ≤ x < n + 2 ^ (32 - prefix c)
  | V6 n, V6 x => n ≤ x < n + 2 ^ (128 - prefix c)
  | _, _ => False
  end.

Lemma cidr_parse_wf raw c : cidr_parse raw = Ok c → cidr_wf c.
Proof.
  assert (∀ ip p, ip_wf ip → 0 ≤ p →
    match ip with
    | V4 bits => if p <=? 32 then Ok (mkCidr (V4 (mask_v4 bits p)) p) else Err Ipv4PrefixTooLong
    | V6 bits => if p <=? 128 then Ok (mkCidr (V6 (mask_v6 bits p)) p) else Err Ipv6PrefixTooLong
    end = Ok c → cidr_wf c) as Hbuild.
  { intros [b|b] p Hip Hp; cbn in Hip; case_match; try done; intros [= <-]; unfold cidr_wf; cbn;
      rewrite ?mask_v4_spec, ?mask_v6_spec by lia;
      match goal with |- context [mask ?w ?b ?p] => pose proof (mask_bounds w b p ltac:(lia) Hip);
        assert (0 < 2 ^ (w - p)) by (apply Z.pow_pos_nonneg; lia); rewrite (mask_idem w b p) by lia end; lia. }
  unfold cidr_parse. destruct (split_once 47 raw) as [[a q]|].
  - destruct (parse_ip a) as [ip|] eqn:Ha; [|done]. cbn. destruct (parse_unsigned 255 q) as [p|] eqn:Hq; [|done]. cbn.
    apply Hbuild; [by apply parse_ip_wf in Ha|]. apply parse_unsigned_range in Hq; lia.
  - destruct (parse_ip raw) as [ip|] eqn:Ha; [|done]. cbn. apply Hbuild; [by apply parse_ip_wf in Ha|]. by destruct ip.
Qed.

Lemma cidr_contains_in c ip : cidr_wf c → ip_wf ip → cidr_contains c ip = true ↔ in_cidr c ip.
Proof.
  unfold cidr_wf, cidr_contains, in_cidr. intros [Hn Hc] Hip. destruct (network c) as [n|n], ip as [x|x]; try done.
  - rewrite mask_v4_spec, Z.eqb_eq by (done || lia). apply mask_interval; [lia|tauto].
  - rewrite mask_v6_spec, Z.eqb_eq by (done || lia). apply mask_interval; [lia|tauto].
Qed.

Lemma in_cidr_network c : cidr_wf c → in_cidr c (network c).
Proof.
  unfold cidr_wf, in_cidr. intros [_ Hc]. destruct (network c) as [n|n];
    match goal with |- _ ≤ _ < _ + 2 ^ ?k => assert (0 < 2 ^ k) by (apply Z.pow_pos_nonneg; lia); lia end.
Qed.

Lemma in_cidr_nested c d ip : cidr_wf c → cidr_wf d → prefix c ≤ prefix d → in_cidr c ip → in_cidr d ip →
  in_cidr c (network d).
Proof.
  unfold cidr_wf, in_cidr. intros [_ Hc] [_ Hd] Hp Hi Hj.
  destruct (network c) as [n|n], (network d) as [m|m], ip as [x|x]; try done.
  - by apply (mask_nested 32 n m x (prefix c) (prefix d)); try lia; tauto.
  - by apply (mask_nested 128 n m x (prefix c) (prefix d)); try lia; tauto.
Qed.

(** The comparison of prefixes orders two networks of a family. *)
Lemma cidr_overlaps_nested c d : cidr_wf c → cidr_wf d →
  cidr_overlaps c d = if prefix c <=? prefix d then cidr_contains c (network d) else cidr_contains d (network c).
Proof.
  intros _ _. unfold cidr_overlaps. destruct (network c) as [n|n] eqn:Ec, (network d) as [m|m] eqn:Ed; try done;
    unfold cidr_contains; rewrite Ec, Ed; by case_match.
Qed.

(** Two networks that pass [cidr_parse] overlap exactly when some address is
    in both. *)
Theorem overlaps_common_address left right c d : cidr_parse left = Ok c → cidr_parse right = Ok d →
  cidr_overlaps c d = true ↔ ∃ ip, ip_wf ip ∧ cidr_contains c ip = true ∧ cidr_contains d ip = true.
Proof.
  intros Hc%cidr_parse_wf Hd%cidr_parse_wf. rewrite cidr_overlaps_nested by done.
  assert (∀ c d, cidr_wf c → cidr_wf d → cidr_contains c (network d) = true →
    ip_wf (network d) ∧ cidr_contains c (network d) = true ∧ cidr_contains d (network d) = true) as Hshare.
  { intros c' d' Hc' Hd' H. split_and!; [by apply Hd'|done|]. apply cidr_contains_in; [done|by apply Hd'|by apply in_cidr_network]. }
  split.
  - case_match; intros Ho; [exists (network d); by apply Hshare|exists (network c)].
    destruct (Hshare d c Hd Hc Ho) as (? & ? & ?). by split_and!.
  - intros (ip & Hip & Hi & Hj). apply cidr_contains_in in Hi, Hj; try done.
    destruct (Z.leb_spec (prefix c) (prefix d)); apply cidr_contains_in; try done; try (by apply Hd); try (by apply Hc).
    + by eapply in_cidr_nested.
    + by apply (in_cidr_nested d c ip); try lia.
Qed.

(** ** Covering a family *)

Definition in_range_of (x : Z) (r : Z * Z) : Prop := r.1 ≤ x ≤ r.2.

Lemma sweep_spec m e rs : 0 ≤ e < m → m ≤ U128_MAX → StronglySorted (λ x y : Z * Z, x.1 ≤ y.1) rs →
  Forall (λ r, r.2 ≤ m) rs →
  sweep m (Some e) rs = true ↔ ∀ x, e < x ≤ m → Exists (in_range_of x) rs.
Proof.
  intros He Hm Hs. revert e He. induction Hs as [|[s t] rs Hs IH Hle]; intros e He Hf.
  { split; [done|]. intros H. specialize (H m ltac:(lia)). by apply Exists_nil in H. }
  apply Forall_cons in Hf as [Ht Hf]. cbn [sweep]. cbn in Ht, Hle. unfold saturating_add128.
  rewrite Z.min_l by lia. destruct (Z.ltb_spec (e + 1) s).
  - split; [done|]. intros H0. specialize (H0 (e + 1) ltac:(lia)). rewrite Exists_cons in H0.
    unfold in_range_of in H0. cbn in H0. destruct H0 as [|H0]; [lia|].
    apply Exists_exists in H0 as (r & Hr & Hx). pose proof (proj1 (Forall_forall _ _) Hle r Hr). cbn in *. lia.
  - destruct (Z.eqb_spec (Z.max e t) m) as [Hmax|Hmax].
    + split; [|done]. intros _ x Hx. constructor. unfold in_range_of. cbn. lia.
    + rewrite IH by (done || lia). split; intros H0 x Hx.
      * destruct (Z.leb_spec x t); [constructor; unfold in_range_of; cbn; lia|]. right. apply H0. lia.
      * specialize (H0 x ltac:(lia)). apply Exists_cons in H0 as [[_ ?]|?]; [cbn in *; lia|done].
Qed.

Lemma sweep_start_spec m rs : 0 ≤ m ≤ U128_MAX → StronglySorted (λ x y : Z * Z, x.1 ≤ y.1) rs →
  Forall (λ r : Z * Z, 0 ≤ r.1 ≤ r.2 ∧ r.2 ≤ m) rs →
  sweep m None rs = true ↔ ∀ x, 0 ≤ x ≤ m → Exists (in_range_of x) rs.
Proof.
  intros Hm [|[s t] ks Hs Hle] Hf.
  { split; [done|]. intros H. specialize (H 0 ltac:(lia)). by apply Exists_nil in H. }
  apply Forall_cons in Hf as [[Hs0 Ht] Hf]. cbn in Hs0, Ht, Hle. cbn [sweep].
  destruct (Z.eqb_spec s 0) as [->|Hne]; cbn [negb].
  - destruct (Z.eqb_spec t m) as [->|Htm].
    { split; [|done]. intros _ x Hx. constructor. unfold in_range_of. cbn. lia. }
    assert (Forall (λ r, r.2 ≤ m) ks) by (eapply Forall_impl; [done|cbn; tauto]).
    rewrite sweep_spec by (done || lia). split; intros H0 x Hx.
    + destruct (Z.leb_spec x t); [constructor; unfold in_range_of; cbn; lia|]. right. apply H0. lia.
    + specialize (H0 x ltac:(lia)). apply Exists_cons in H0 as [[_ ?]|?]; [cbn in *; lia|done].
  - split; [done|]. intros H0. specialize (H0 0 ltac:(lia)). apply Exists_exists in H0 as (r & Hr & Hx & _).
    apply elem_of_cons in Hr as [->|Hr]; [cbn in *; lia|].
    pose proof (proj1 (Forall_forall _ _) Hle r Hr). cbn in *. lia.
Qed.

Lemma ranges_cover_spec m rs : 0 ≤ m ≤ U128_MAX → Forall (λ r : Z * Z, 0 ≤ r.1 ≤ r.2 ∧ r.2 ≤ m) rs →
  ranges_cover_entire_address_family rs m = true ↔ ∀ x, 0 ≤ x ≤ m → Exists (in_range_of x) rs.
Proof.
  intros Hm Hf. unfold ranges_cover_entire_address_family. set (cmp := λ x y : Z * Z, Z.compare x.1 y.1).
  pose proof (sort_by_perm cmp rs) as Hperm. rewrite sweep_start_spec; [|done| |by rewrite Hperm].
  - split; intros H x Hx; specialize (H x Hx); [by rewrite Hperm in H|by rewrite Hperm].
  - apply sort_by_sorted; unfold cmp; [intros x y z; lia|intros x y; rewrite Z.compare_gt_iff; lia|].
    intros x y Hc%Z.compare_ngt_iff. lia.
Qed.

(** The interval of a network. *)
Definition range_v4 (c : Cidr) : option (Z * Z) :=
  match network c with
  | V4 n => Some (n, n + 2 ^ (32 - prefix c) - 1)
  | V6 _ => None
  end.
Definition range_v6 (c : Cidr) : option (Z * Z) :=
  match network c with
  | V4 _ => None
  | V6 n => Some (n, n + 2 ^ (128 - prefix c) - 1)
  end.

Lemma ones_shiftr w p : 0 ≤ p ≤ w → Z.shiftr (2 ^ w - 1) p = 2 ^ (w - p) - 1.
Proof.
  intros Hp. rewrite Z.shiftr_div_pow2 by lia. pose proof (Z.ones_div_pow2 w p Hp) as H.
  by rewrite !Z.ones_equiv, <- !Z.sub_1_r in H.
Qed.

Lemma lor_host w n p : 0 ≤ p ≤ w → mask w n p = n → Z.lor n (2 ^ (w - p) - 1) = n + 2 ^ (w - p) - 1.
Proof.
  unfold mask. intros Hp Hn. assert (0 < 2 ^ (w - p)) by (apply Z.pow_pos_nonneg; lia).
  rewrite <- Hn at 1. rewrite <- Z.shiftl_mul_pow2, lor_shiftl_add by lia. lia.
Qed.

Lemma host_mask_spec w p : 0 ≤ p ≤ w →
  (if p =? 0 then 2 ^ w - 1 else if p =? w then 0 else Z.shiftr (2 ^ w - 1) p) = 2 ^ (w - p) - 1.
Proof.
  intros Hp. destruct (Z.eqb_spec p 0) as [->|]; [by rewrite Z.sub_0_r|].
  destruct (Z.eqb_spec p w) as [->|]; [by rewrite Z.sub_diag|]. by apply ones_shiftr.
Qed.

Lemma push_range_spec cidrs r4 r6 : Forall cidr_wf cidrs →
  foldl push_range (r4, r6) cidrs = (r4 ++ omap range_v4 cidrs, r6 ++ omap range_v6 cidrs).
Proof.
  intros H. revert r4 r6. induction H as [|c cidrs [_ Hc] Hcs IH]; intros r4 r6; [cbn; by rewrite !app_nil_r|].
  cbn [foldl]. unfold push_range at 2. destruct (network c) as [n|n] eqn:En; rewrite IH; cbn;
    unfold range_v4, range_v6; rewrite En, <- app_assoc; cbn; do 4 f_equal.
  - rewrite <- lor_host by tauto. f_equal. apply (host_mask_spec 32); tauto.
  - rewrite <- lor_host by tauto. f_equal. apply (host_mask_spec 128); tauto.
Qed.

Lemma range_v4_bounds cidrs : Forall cidr_wf cidrs →
  Forall (λ r : Z * Z, 0 ≤ r.1 ≤ r.2 ∧ r.2 ≤ U32_MAX) (omap range_v4 cidrs).
Proof.
  induction 1 as [|c cidrs [Hn Hc] Hcs IH]; cbn; [done|]. unfold range_v4 at 1.
  destruct (network c) as [n|n]; [|done]. constructor; [|done]. cbn in *. destruct Hc as [Hp Hm].
  pose proof (mask_bounds 32 n _ Hp Hn). assert (0 < 2 ^ (32 - prefix c)) by (apply Z.pow_pos_nonneg; lia).
  unfold U32_MAX. lia.
Qed.

Lemma range_v6_bounds cidrs : Forall cidr_wf cidrs →
  Forall (λ r : Z * Z, 0 ≤ r.1 ≤ r.2 ∧ r.2 ≤ U128_MAX) (omap range_v6 cidrs).
Proof.
  induction 1 as [|c cidrs [Hn Hc] Hcs IH]; cbn; [done|]. unfold range_v6 at 1.
  destruct (network c) as [n|n]; [done|]. constructor; [|done]. cbn in *. destruct Hc as [Hp Hm].
  pose proof (mask_bounds 128 n _ Hp Hn). assert (0 < 2 ^ (128 - prefix c)) by (apply Z.pow_pos_nonneg; lia).
  unfold U128_MAX. lia.
Qed.

Lemma trusted_contains_in cidrs ip : Forall cidr_wf cidrs → ip_wf ip →
  trusted_contains cidrs ip = true ↔ Exists (λ c, in_cidr c ip) cidrs.
Proof.
  intros Hc Hip. unfold trusted_contains. induction Hc as [|c cidrs Hc Hcs IH]; cbn.
  - split; [done|]. by intros ?%Exists_nil.
  - by rewrite orb_true_iff, Exists_cons, IH, cidr_contains_in.
Qed.

Lemma ranges_in cidrs x :
  (Exists (in_range_of x) (omap range_v4 cidrs) ↔ Exists (λ c, in_cidr c (V4 x)) cidrs)
  ∧ (Exists (in_range_of x) (omap range_v6 cidrs) ↔ Exists (λ c, in_cidr c (V6 x)) cidrs).
Proof.
  induction cidrs as [|c cidrs [IH4 IH6]]; cbn; [by rewrite !Exists_nil|]. rewrite !Exists_cons, <- IH4, <- IH6.
  unfold range_v4 at 1, range_v6 at 1, in_cidr. destruct (network c) as [n|n]; cbn; rewrite ?Exists_cons;
    split; split; try tauto; (intros [H|?]; [left; unfold in_range_of in *; cbn in *; lia|by right]).
Qed.

(** The CIDRs cover a family exactly when every address of IPv4, or every
    address of IPv6, is in one of them. *)
Theorem cover_exact values cidrs : trusted_parse values = Ok cidrs →
  cidrs_cover_entire_address_family cidrs = true ↔
    (∀ x, 0 ≤ x < 2 ^ 32 → trusted_contains cidrs (V4 x) = true)
    ∨ (∀ x, 0 ≤ x < 2 ^ 128 → trusted_contains cidrs (V6 x) = true).
Proof.
  intros Hp. assert (Forall cidr_wf cidrs) as Hwf.
  { revert cidrs Hp. induction values as [|v values IH]; intros cidrs; cbn; [by intros [= <-]|].
    destruct (cidr_parse v) as [c|] eqn:Hc; [|done]. cbn. destruct (trusted_parse values) as [cs|]; [|done]. cbn.
    intros [= <-]. constructor; [by apply cidr_parse_wf in Hc|by apply IH]. }
  unfold cidrs_cover_entire_address_family. rewrite push_range_spec by done. rewrite orb_true_iff.
  rewrite !ranges_cover_spec; [|done|by apply range_v6_bounds|done|by apply range_v4_bounds].
  f_equiv; split; intros H x Hx; specialize (H x); unfold U32_MAX, U128_MAX in *.
  - apply trusted_contains_in; [done..|]. apply ranges_in, H. lia.
  - apply ranges_in, trusted_contains_in; [done|cbn; lia|apply H; lia].
  - apply trusted_contains_in; [done..|]. apply ranges_in, H. lia.
  - apply ranges_in, trusted_contains_in; [done|cbn; lia|apply H; lia].
Qed.

(** ** Attribution *)

(** The addresses one comma-separated element of the header gives. *)
Definition hop_ips (h : RealIpHeader) (hop : bytes) : list IpAddr :=
  match h with
  | Forwarded => omap forwarded_part (split_on 59 hop)
  | _ => option_list (parse_ip_token hop)
  end.

Definition lists_hops (h : RealIpHeader) : Prop := h = XForwardedFor ∨ h = Forwarded.

Section attribution.
Context `{HeaderLookup}.

Lemma candidates_of_hops headers h v : lists_hops h → first_value (real_ip_header_name h) headers = Some v →
  forallb visible v = true → header_candidate_ips headers h = concat (map (hop_ips h) (split_on 44 v)).
Proof.
  intros Hh Hv Hvis. unfold header_candidate_ips. rewrite Hv. cbn. rewrite to_str_text, Hvis.
  destruct Hh as [-> | ->]; cbn.
  - unfold parse_csv_ips. induction (split_on 44 v) as [|p ps IH]; [done|]. cbn. rewrite <- IH. by destruct (parse_ip_token p).
  - unfold parse_forwarded_for_ips. induction (split_on 44 v) as [|p ps IH]; [done|]. cbn. by rewrite <- IH, omap_app.
Qed.

Lemma find_reverse_untrusted trusted pre ip post :
  trusted_contains trusted ip = false → Forall (λ i, trusted_contains trusted i = true) post →
  List.find (λ i, negb (trusted_contains trusted i)) (reverse (pre ++ ip :: post)) = Some ip.
Proof.
  intros Hip Hpost. rewrite reverse_app, reverse_cons, <- app_assoc. apply Forall_reverse in Hpost.
  induction Hpost as [|i l Hi Hl IH]; cbn; [by rewrite Hip|]. by rewrite Hi.
Qed.

(** The addresses the first line of the header gives, in order; a header of
    one address has one hop, and a line that is not visible ASCII gives none. *)
Definition forwarded_ips (headers : Headers) (h : RealIpHeader) : list IpAddr :=
  match first_value (real_ip_header_name h) headers with
  | Some v =>
      if forallb visible v then
        concat (map (hop_ips h) (match h with XForwardedFor | Forwarded => split_on 44 v | _ => [v] end))
      else []
  | None => []
  end.

Lemma candidates_forwarded headers h : header_candidate_ips headers h = forwarded_ips headers h.
Proof.
  unfold forwarded_ips. destruct (first_value (real_ip_header_name h) headers) as [v|] eqn:Hv.
  2:{ unfold header_candidate_ips. rewrite Hv. by destruct h. }
  destruct (forallb visible v) eqn:Hvis.
  2:{ unfold header_candidate_ips. rewrite Hv. cbn. rewrite to_str_text, Hvis. by destruct h. }
  destruct h; try (apply candidates_of_hops; [by (left + right)|done..]); unfold header_candidate_ips; rewrite Hv; cbn;
    rewrite to_str_text, Hvis; cbn; by rewrite app_nil_r.
Qed.

(** C7 (safety). With a Real-IP policy in force, a request of a peer that is
    not a trusted proxy is attributed to the peer, or refused when it
    forwards an address and the policy says so.  For a trusted peer the first
    line of the configured header counts, and only when it is visible ASCII.
    Under a recursive policy over a header that lists hops, when the line ends
    with the hops [client, proxy1, ..., proxyn], the client element giving an
    address that is not trusted and the proxies only trusted ones, the request
    is attributed to the client element's address: nothing before it, in
    particular nothing the client sent itself, makes a difference.  Without
    recursion, or when every address is trusted, the first address of the line
    counts, whoever wrote it; and without any address the peer. *)
Theorem attributed_to_last_untrusted headers peer config trusted :
  enabled config = true → trusted_parse (trusted_proxies config) = Ok trusted →
  (trusted_contains trusted (sa_ip peer) = false →
    resolve_client_addr headers peer config
      = if fail_on_untrusted_forwarded_headers config && has_real_ip_header headers (header config)
        then Err UntrustedForwarded else Ok peer)
  ∧ (trusted_contains trusted (sa_ip peer) = true → recursive config = true → lists_hops (header config) →
    ∀ v spoofed client proxies ips ip,
    first_value (real_ip_header_name (header config)) headers = Some v → forallb visible v = true →
    v = join_with 44 (client :: proxies) ∨ v = spoofed ++ 44 :: join_with 44 (client :: proxies) →
    Forall (without 44) (client :: proxies) →
    hop_ips (header config) client = ips ++ [ip] → trusted_contains trusted ip = false →
    Forall (λ hop, Forall (λ i, trusted_contains trusted i = true) (hop_ips (header config) hop)) proxies →
    resolve_client_addr headers peer config = Ok (mkSocketAddr ip (sa_port peer)))
  ∧ (trusted_contains trusted (sa_ip peer) = true →
    recursive config = false ∨ Forall (λ i, trusted_contains trusted i = true) (forwarded_ips headers (header config)) →
    resolve_client_addr headers peer config
      = Ok (match forwarded_ips headers (header config) with
            | ip :: _ => mkSocketAddr ip (sa_port peer)
            | [] => peer
            end)).
Proof.
  intros He Ht. unfold resolve_client_addr. rewrite He, Ht. split; [by cbn; intros ->|].
  cbn [negb mbind result_bind]. split; intros Hpeer; rewrite Hpeer; cbn [negb].
  - intros Hr Hh v spoofed client proxies ips ip Hv Hvis Hform Hw Hc Hip Hpx.
    rewrite (candidates_of_hops _ _ _ Hh Hv Hvis).
    assert (∃ pre, concat (map (hop_ips (header config)) (split_on 44 v))
      = (pre ++ ips) ++ ip :: concat (map (hop_ips (header config)) proxies)) as [pre ->].
    { assert (concat (map (hop_ips (header config)) (client :: proxies))
        = ips ++ ip :: concat (map (hop_ips (header config)) proxies)) as Htail by (cbn; by rewrite Hc, <- app_assoc).
      destruct Hform as [-> | ->].
      - exists []. by rewrite split_join.
      - exists (concat (map (hop_ips (header config)) (split_on 44 spoofed))).
        by rewrite split_on_glue, split_join, map_app, concat_app, Htail, app_assoc. }
    rewrite Hr. unfold select_candidate. rewrite find_reverse_untrusted; [|done|].
    + destruct (is_empty _) eqn:Hemp; [|done]. apply is_empty_true in Hemp. by destruct (pre ++ ips).
    + by apply Forall_concat, Forall_map.
  - intros Hfirst. rewrite candidates_forwarded. destruct (forwarded_ips headers (header config)) as [|ip ips] eqn:Hf; [done|].
    cbn [is_empty]. f_equal. assert (select_candidate (recursive config) trusted (ip :: ips) = Some ip) as ->; [|done].
    unfold select_candidate. destruct (recursive config); [|done]. destruct Hfirst as [?|Hall]; [done|].
    destruct (List.find _ _) as [i|] eqn:Hi; [|done]. apply List.find_some in Hi as [Hin Hn].
    apply list_elem_of_In in Hin. rewrite elem_of_reverse in Hin. rewrite Forall_forall in Hall. by rewrite (Hall _ Hin) in Hn.
Qed.

(** Only the first line of the header counts: the lines a proxy adds below
    it change nothing. *)
Lemma first_line_decides headers headers' peer config :
  first_value (real_ip_header_name (header config)) headers
    = first_value (real_ip_header_name (header config)) headers' →
  resolve_client_addr headers peer config = resolve_client_addr headers' peer config.
Proof.
  intros Hv. assert (has_real_ip_header headers (header config) = has_real_ip_header headers' (header config)) as Hh.
  { unfold has_real_ip_header, first_value in *. by destruct (values_of _ headers), (values_of _ headers'). }
  unfold resolve_client_addr, header_candidate_ips. by rewrite Hv, Hh.
Qed.
End attribution.
