(* ===== verification/ProxyProto.v ===== *)
(** * The PROXY protocol

    [src/source/src/proxy_protocol.rs]: the header a trusted peer sends ahead
    of a connection, in both versions, with the TLS assertions of version 2;
    and [proxy_protocol_egress.rs] with [proxy_protocol_egress/tls.rs]: the
    headers sent to upstreams.

    A connection is the list of octets the peer sends until it closes.  The
    reads follow the code; the time limit on them is not modelled.  Whether a
    certificate is valid DER with the metadata of [tls] is a parameter. *)

From S2P Require Import Prelude Bytes Text Net Identity.

Inductive proxy_error : Type :=
  | BadTrustedSources (e : identity_error)
  | UntrustedPeer
  | UnexpectedEnd
  | V1TooLong
  | V1NotUtf8
  | V1Invalid
  | V1SourceIp
  | V1SourcePort
  | V2Signature
  | V2Command
  | V2NotTcp
  | V2Family
  | TruncatedTlvHeader
  | TruncatedTlvValue
  | SslTooShort
  | DuplicateText (kind : Z)
  | BadText (kind : Z)
  | DuplicateCertificate
  | BadCertificate
  | DuplicateSsl
  | TlvTooLong
  | LocalCaptureFailed
  | NoTlsMetadata
  | ClientMismatch
  | NoDestination
  | NotRepresentable
  | NoSslAssertion
  | HeaderTooLong.

Definition V2_SIGNATURE : bytes := [13; 10; 13; 10; 0; 13; 10; 81; 85; 73; 84; 10].
Definition V2_FIXED_HEADER_LEN : Z := 16.
Definition V2_IPV4_ADDRESS_LEN : Z := 12.
Definition V2_IPV6_ADDRESS_LEN : Z := 36.
Definition MAX_CERTIFICATE_DER_BYTES : Z := 64 * 1024.
Definition PP2_TYPE_SSL : Z := 0x20.
Definition PP2_SUBTYPE_SSL_VERSION : Z := 0x21.
Definition PP2_SUBTYPE_SSL_CN : Z := 0x22.
Definition PP2_SUBTYPE_SSL_CIPHER : Z := 0x23.
Definition PP2_SUBTYPE_SSL_SIG_ALG : Z := 0x24.
Definition PP2_SUBTYPE_SSL_KEY_ALG : Z := 0x25.
Definition PP2_SUBTYPE_SSL_KEY_EXCHANGE_GROUP : Z := 0x26.
Definition PP2_SUBTYPE_SSL_SIGNATURE_SCHEME : Z := 0x27.
Definition PP2_SUBTYPE_SSL_CERT : Z := 0x28.

Inductive ProxyProtocolVersion : Type := V1 | V2 | AnyVersion.

(** [ProxyProtocolSslMetadata]; a certificate is its DER. *)
Record ProxyProtocolSslMetadata : Type := mkSsl {
  ssl_client : Z;
  ssl_verify : Z;
  ssl_version : option bytes;
  ssl_common_name : option bytes;
  ssl_cipher_suite : option bytes;
  ssl_certificate_signature_algorithm : option bytes;
  ssl_certificate_key_algorithm : option bytes;
  ssl_key_exchange_group : option bytes;
  ssl_signature_scheme : option bytes;
  ssl_certificate : option bytes;
}.

#[export] Instance ProxyProtocolSslMetadata_eta : Eta ProxyProtocolSslMetadata := λ m,
  mkSsl (ssl_client m) (ssl_verify m) (ssl_version m) (ssl_common_name m) (ssl_cipher_suite m)
    (ssl_certificate_signature_algorithm m) (ssl_certificate_key_algorithm m) (ssl_key_exchange_group m)
    (ssl_signature_scheme m) (ssl_certificate m).

Record ProxyProtocolMetadata : Type := mkMetadata {
  pm_version : ProxyProtocolVersion;
  pm_source : SocketAddr;
  pm_destination : option SocketAddr;
  pm_ssl : option ProxyProtocolSslMetadata;
}.

Record ProxyProtocolConfig : Type := mkProxyConfig {
  pp_enabled : bool;
  pp_version : ProxyProtocolVersion;
  pp_trusted_sources : list bytes;
  pp_tls_tlvs : bool;
}.

(** ** TLVs *)

(** [read_tlv], on the octets from the offset on. *)
Definition read_tlv (l : bytes) : result proxy_error (Z * bytes * bytes) :=
  match l with
  | kind :: b0 :: b1 :: l =>
      let length := be_fold 0 [b0; b1] in
      if len l <? length then Err TruncatedTlvValue else Ok (kind, takeZ length l, dropZ length l)
  | _ => Err TruncatedTlvHeader
  end.

(** The checks of a text value; an absent octet 0 is one of them. *)
Definition text_ok (value : bytes) : bool :=
  negb (is_empty value) && negb (contains_char 0 value) && utf8_valid value && negb (existsb is_control (utf8_chars value)).

Definition set_unique_text (kind : Z) (slot : option bytes) (value : bytes) : result proxy_error (option bytes) :=
  if is_some slot then Err (DuplicateText kind)
  else if text_ok value then Ok (Some value) else Err (BadText kind).

Section proxy.
Context (certificate_valid : bytes → bool).

(** [ProxyProtocolCertificate::from_der] *)
Definition from_der (der : bytes) : result proxy_error bytes :=
  if is_empty der || (MAX_CERTIFICATE_DER_BYTES <? len der) then Err BadCertificate
  else if certificate_valid der then Ok der else Err BadCertificate.

(** One nested TLV of [decode_ssl_tlv]. *)
Definition decode_nested (m : ProxyProtocolSslMetadata) (kind : Z) (nested : bytes) : result proxy_error ProxyProtocolSslMetadata :=
  if kind =? PP2_SUBTYPE_SSL_VERSION then
    v ← set_unique_text kind (ssl_version m) nested; Ok (m <| ssl_version := v |>)
  else if kind =? PP2_SUBTYPE_SSL_CN then
    v ← set_unique_text kind (ssl_common_name m) nested; Ok (m <| ssl_common_name := v |>)
  else if kind =? PP2_SUBTYPE_SSL_CIPHER then
    v ← set_unique_text kind (ssl_cipher_suite m) nested; Ok (m <| ssl_cipher_suite := v |>)
  else if kind =? PP2_SUBTYPE_SSL_SIG_ALG then
    v ← set_unique_text kind (ssl_certificate_signature_algorithm m) nested; Ok (m <| ssl_certificate_signature_algorithm := v |>)
  else if kind =? PP2_SUBTYPE_SSL_KEY_ALG then
    v ← set_unique_text kind (ssl_certificate_key_algorithm m) nested; Ok (m <| ssl_certificate_key_algorithm := v |>)
  else if kind =? PP2_SUBTYPE_SSL_KEY_EXCHANGE_GROUP then
    v ← set_unique_text kind (ssl_key_exchange_group m) nested; Ok (m <| ssl_key_exchange_group := v |>)
  else if kind =? PP2_SUBTYPE_SSL_SIGNATURE_SCHEME then
    v ← set_unique_text kind (ssl_signature_scheme m) nested; Ok (m <| ssl_signature_scheme := v |>)
  else if kind =? PP2_SUBTYPE_SSL_CERT then
    if is_some (ssl_certificate m) then Err DuplicateCertificate
    else certificate ← from_der nested; Ok (m <| ssl_certificate := Some certificate |>)
  else Ok m.

(** The loop of [decode_ssl_tlv]: every TLV takes three octets at least. *)
Fixpoint decode_nested_tlvs (fuel : nat) (m : ProxyProtocolSslMetadata) (l : bytes) : result proxy_error ProxyProtocolSslMetadata :=
  match fuel, l with
  | _, [] => Ok m
  | O, _ => Ok m
  | S fuel, _ =>
      '(kind, nested, l) ← read_tlv l;
      m ← decode_nested m kind nested;
      decode_nested_tlvs fuel m l
  end.

Definition no_ssl (client verify : Z) : ProxyProtocolSslMetadata :=
  mkSsl client verify None None None None None None None None.

Definition decode_ssl_tlv (value : bytes) : result proxy_error ProxyProtocolSslMetadata :=
  match value with
  | client :: b0 :: b1 :: b2 :: b3 :: l => decode_nested_tlvs (length l) (no_ssl client (be_fold 0 [b0; b1; b2; b3])) l
  | _ => Err SslTooShort
  end.

(** The loop of [decode_ssl_tlvs]. *)
Fixpoint decode_tlvs (fuel : nat) (ssl : option ProxyProtocolSslMetadata) (l : bytes) :
    result proxy_error (option ProxyProtocolSslMetadata) :=
  match fuel, l with
  | _, [] => Ok ssl
  | O, _ => Ok ssl
  | S fuel, _ =>
      '(kind, value, l) ← read_tlv l;
      if kind =? PP2_TYPE_SSL then
        if is_some ssl then Err DuplicateSsl
        else decoded ← decode_ssl_tlv value; decode_tlvs fuel (Some decoded) l
      else decode_tlvs fuel ssl l
  end.

Definition decode_ssl_tlvs (l : bytes) : result proxy_error (option ProxyProtocolSslMetadata) := decode_tlvs (length l) None l.

(** ** Version 2 *)

(** The octets [a..b] of the payload. *)
Definition slice (a b : Z) (l : bytes) : bytes := takeZ (b - a) (dropZ a l).

Definition parse_v2_payload (version_command family_transport : Z) (payload : bytes) (parse_ssl_tlvs : bool) :
    result proxy_error (SocketAddr * option ProxyProtocolMetadata) :=
  if negb (Z.shiftr version_command 4 =? 2) || negb (Z.land version_command 0x0f =? 1) then Err V2Command
  else if negb (Z.land family_transport 0x0f =? 1) then Err V2NotTcp
  else
    '(source, destination, address_len) ←
      (if (Z.shiftr family_transport 4 =? 1) && (V2_IPV4_ADDRESS_LEN <=? len payload) then
         Ok (mkSocketAddr (V4 (be_fold 0 (slice 0 4 payload))) (be_fold 0 (slice 8 10 payload)),
             mkSocketAddr (V4 (be_fold 0 (slice 4 8 payload))) (be_fold 0 (slice 10 12 payload)), V2_IPV4_ADDRESS_LEN)
       else if (Z.shiftr family_transport 4 =? 2) && (V2_IPV6_ADDRESS_LEN <=? len payload) then
         Ok (mkSocketAddr (V6 (be_fold 0 (slice 0 16 payload))) (be_fold 0 (slice 32 34 payload)),
             mkSocketAddr (V6 (be_fold 0 (slice 16 32 payload))) (be_fold 0 (slice 34 36 payload)), V2_IPV6_ADDRESS_LEN)
       else Err V2Family);
    ssl ← (if parse_ssl_tlvs then decode_ssl_tlvs (dropZ address_len payload) else Ok None);
    Ok (source, if parse_ssl_tlvs then Some (mkMetadata V2 source (Some destination) ssl) else None).

(** ** Reading *)

(** [read_exact]: the octets and what is left of the connection. *)
Definition read_exact (n : Z) (stream : bytes) : result proxy_error (bytes * bytes) :=
  if len stream <? n then Err UnexpectedEnd else Ok (takeZ n stream, dropZ n stream).

Definition read_v2_after_signature (stream : bytes) (parse_ssl_tlvs : bool) :
    result proxy_error (SocketAddr * option ProxyProtocolMetadata * bytes) :=
  '(tail, stream) ← read_exact (V2_FIXED_HEADER_LEN - len V2_SIGNATURE) stream;
  match tail with
  | [version_command; family_transport; l0; l1] =>
      '(payload, stream) ← read_exact (be_fold 0 [l0; l1]) stream;
      '(source, metadata) ← parse_v2_payload version_command family_transport payload parse_ssl_tlvs;
      Ok (source, metadata, stream)
  | _ => Err UnexpectedEnd
  end.

Definition read_v2 (stream : bytes) (parse_ssl_tlvs : bool) : result proxy_error (SocketAddr * option ProxyProtocolMetadata * bytes) :=
  '(signature, stream) ← read_exact 12 stream;
  if negb (bool_decide (signature = V2_SIGNATURE)) then Err V2Signature
  else read_v2_after_signature stream parse_ssl_tlvs.

(** The loop of [read_v1_with_prefix], an octet at a time. *)
Fixpoint read_v1_line (line stream : bytes) : result proxy_error (bytes * bytes) :=
  if 107 <? len line then Err V1TooLong
  else if bool_decide (last line = Some 10) then Ok (line, stream)
  else
    match stream with
    | [] => Err UnexpectedEnd
    | b :: stream => read_v1_line (line ++ [b]) stream
    end.

(** What [read_v1_with_prefix] makes of a line. *)
Definition parse_v1_line (line : bytes) : result proxy_error SocketAddr :=
  if negb (utf8_valid line) then Err V1NotUtf8
  else
    match split_whitespace (trim_end_list (λ b, (b =? 13) || (b =? 10)) line) with
    | [proxy; family; source; _; source_port; _] =>
        if negb (bool_decide (proxy = ascii "PROXY")) || bool_decide (family = ascii "UNKNOWN") then Err V1Invalid
        else
          source_ip ← ok_or (parse_ip source) V1SourceIp;
          port ← ok_or (parse_u16 source_port) V1SourcePort;
          Ok (mkSocketAddr source_ip port)
    | _ => Err V1Invalid
    end.

Definition read_v1_with_prefix (stream prefix : bytes) : result proxy_error (SocketAddr * bytes) :=
  '(line, stream) ← read_v1_line prefix stream;
  source ← parse_v1_line line;
  Ok (source, stream).

Definition read_any_with_metadata (stream : bytes) : result proxy_error (SocketAddr * option ProxyProtocolMetadata * bytes) :=
  '(prefix, stream) ← read_exact 12 stream;
  if bool_decide (prefix = V2_SIGNATURE) then read_v2_after_signature stream true
  else
    '(source, stream) ← read_v1_with_prefix stream prefix;
    Ok (source, Some (mkMetadata V1 source None None), stream).

(** What [peek] leaves in its zeroed buffer when [available] octets are there. *)
Definition peeked (available : nat) (stream : bytes) : bytes :=
  let l := take (available `min` 12) stream in l ++ replicate (12 - length l) 0.

(** [accept_proxy_header_inner]; [with_metadata] is a time limit given. *)
Definition accept_proxy_header (config : ProxyProtocolConfig) (with_metadata : bool) (available : nat)
    (peer_addr : SocketAddr) (stream : bytes) : result proxy_error (bytes * SocketAddr * option ProxyProtocolMetadata) :=
  if negb (pp_enabled config) then Ok (stream, peer_addr, None)
  else
    trusted ← map_err BadTrustedSources (trusted_parse (pp_trusted_sources config));
    if negb (trusted_contains trusted (sa_ip peer_addr)) then Err UntrustedPeer
    else
      let metadata_enabled := with_metadata && pp_tls_tlvs config in
      '(source, metadata, stream) ←
        match pp_version config with
        | V1 => '(source, stream) ← read_v1_with_prefix stream []; Ok (source, None, stream)
        | V2 => read_v2 stream metadata_enabled
        | AnyVersion =>
            if metadata_enabled then read_any_with_metadata stream
            else if bool_decide (peeked available stream = V2_SIGNATURE) then read_v2 stream false
            else '(source, stream) ← read_v1_with_prefix stream []; Ok (source, None, stream)
        end;
      Ok (stream, source, metadata).

(** ** Sending *)

Definition encode_tlv (kind : Z) (value : bytes) : result proxy_error bytes :=
  if 65535 <? len value then Err TlvTooLong else Ok (kind :: be_bytes 2 (len value) ++ value).

(** [encode_optional_text]: what it appends.  A [String] is valid UTF-8. *)
Definition encode_optional_text (kind : Z) (value : option bytes) : result proxy_error bytes :=
  match value with
  | None => Ok []
  | Some value =>
      if is_empty value || contains_char 0 value || existsb is_control (utf8_chars value) then Err (BadText kind)
      else encode_tlv kind value
  end.

Definition encode_ssl_tlv (m : ProxyProtocolSslMetadata) (include_certificate : bool) : result proxy_error bytes :=
  version ← encode_optional_text PP2_SUBTYPE_SSL_VERSION (ssl_version m);
  common_name ← encode_optional_text PP2_SUBTYPE_SSL_CN (ssl_common_name m);
  cipher ← encode_optional_text PP2_SUBTYPE_SSL_CIPHER (ssl_cipher_suite m);
  sig_alg ← encode_optional_text PP2_SUBTYPE_SSL_SIG_ALG (ssl_certificate_signature_algorithm m);
  key_alg ← encode_optional_text PP2_SUBTYPE_SSL_KEY_ALG (ssl_certificate_key_algorithm m);
  group ← encode_optional_text PP2_SUBTYPE_SSL_KEY_EXCHANGE_GROUP (ssl_key_exchange_group m);
  scheme ← encode_optional_text PP2_SUBTYPE_SSL_SIGNATURE_SCHEME (ssl_signature_scheme m);
  certificate ← match ssl_certificate m with
                | Some der => if include_certificate then encode_tlv PP2_SUBTYPE_SSL_CERT der else Ok []
                | None => Ok []
                end;
  encode_tlv PP2_TYPE_SSL
    (ssl_client m :: be_bytes 4 (ssl_verify m) ++ version ++ common_name ++ cipher ++ sig_alg ++ key_alg ++ group ++ scheme ++ certificate).

Definition v1_header (source destination : SocketAddr) : bytes :=
  let line family :=
    ascii "PROXY " ++ family ++ [32] ++ display_ip (sa_ip source) ++ [32] ++ display_ip (sa_ip destination) ++ [32]
    ++ decimal (sa_port source) ++ [32] ++ decimal (sa_port destination) ++ [13; 10] in
  match sa_ip source, sa_ip destination with
  | V4 _, V4 _ => line (ascii "TCP4")
  | V6 _, V6 _ => line (ascii "TCP6")
  | _, _ => ascii "PROXY UNKNOWN" ++ [13; 10]
  end.

Definition v2_header (source destination : SocketAddr) : bytes :=
  let ports := be_bytes 2 (sa_port source) ++ be_bytes 2 (sa_port destination) in
  match sa_ip source, sa_ip destination with
  | V4 src, V4 dst => V2_SIGNATURE ++ [0x21; 0x11] ++ be_bytes 2 12 ++ be_bytes 4 src ++ be_bytes 4 dst ++ ports
  | V6 src, V6 dst => V2_SIGNATURE ++ [0x21; 0x21] ++ be_bytes 2 36 ++ be_bytes 16 src ++ be_bytes 16 dst ++ ports
  | _, _ => V2_SIGNATURE ++ [0x21; 0x00] ++ be_bytes 2 0
  end.

Inductive ProxyProtocolTlsSource : Type := LocalTls | ReceivedProxy.

Record ProxyProtocolTlsConfig : Type := mkTlsConfig {
  tc_source : ProxyProtocolTlsSource;
  tc_client_certificate : bool;
}.

Record ConnectionTlsEvidence : Type := mkEvidence {
  ev_local : option ProxyProtocolMetadata;
  ev_received : option ProxyProtocolMetadata;
  ev_local_capture_failed : bool;
}.

Definition is_ipv4 (ip : IpAddr) : bool := match ip with V4 _ => true | V6 _ => false end.
Definition is_unspecified (ip : IpAddr) : bool := match ip with V4 bits | V6 bits => bits =? 0 end.

(** The evidence [prepare] selects. *)
Definition selected_metadata (config : ProxyProtocolTlsConfig) (evidence : ConnectionTlsEvidence) :
    result proxy_error ProxyProtocolMetadata :=
  match tc_source config with
  | LocalTls => if ev_local_capture_failed evidence then Err LocalCaptureFailed else ok_or (ev_local evidence) NoTlsMetadata
  | ReceivedProxy => ok_or (ev_received evidence) NoTlsMetadata
  end.

(** [PreparedTlsHeader::prepare]: the header and whether it carries an
    identity; the digest that keys cached responses is not modelled. *)
Definition prepare (config : ProxyProtocolTlsConfig) (evidence : ConnectionTlsEvidence) (effective_client : SocketAddr) :
    result proxy_error (bytes * bool) :=
  metadata ← selected_metadata config evidence;
  if negb (bool_decide (sa_ip (pm_source metadata) = sa_ip effective_client)) then Err ClientMismatch
  else
    destination ← ok_or (pm_destination metadata) NoDestination;
    if negb (eqb (is_ipv4 (sa_ip (pm_source metadata))) (is_ipv4 (sa_ip destination)))
       || is_unspecified (sa_ip (pm_source metadata)) || is_unspecified (sa_ip destination)
    then Err NotRepresentable
    else
      ssl ← ok_or (pm_ssl metadata) NoSslAssertion;
      tlv ← encode_ssl_tlv ssl (tc_client_certificate config);
      let header := v2_header (pm_source metadata) destination in
      let payload_len := len header - 16 + len tlv in
      if (len header <? 16) || (65535 <? payload_len) then Err HeaderTooLong
      else
        Ok (takeZ 14 header ++ be_bytes 2 payload_len ++ dropZ 16 header ++ tlv,
            negb (Z.land (ssl_client ssl) 0x06 =? 0) || is_some (ssl_common_name ssl)
            || (tc_client_certificate config && is_some (ssl_certificate ssl))).
End proxy.
