(* ===== verification/ProxyProtoSpec.v ===== *)
(** * What the PROXY protocol code promises

    The headers sent to upstreams are read back as they were meant, with the
    TLS assertions they carry, and only trusted peers are listened to. *)

From S2P Require Import Prelude Bytes Text Net Identity ProxyProto.

Lemma be_bytes_back n v : 0 ≤ v < 2 ^ (8 * Z.of_nat n) → be_fold 0 (be_bytes n v) = v.
Proof. intros Hv. rewrite be_fold_be_bytes, Z.mod_small; lia. Qed.

Lemma read_exact_app n l rest : n = len l → read_exact n (l ++ rest) = Ok (l, rest).
Proof.
  intros ->. unfold read_exact. rewrite takeZ_app_len, dropZ_app_len, len_app.
  rewrite (proj2 (Z.ltb_ge _ _)) by (pose proof (len_nonneg rest); lia). done.
Qed.

(** ** TLVs *)

Definition tlv (kind : Z) (value : bytes) : bytes := kind :: be_bytes 2 (len value) ++ value.

Lemma read_tlv_back kind value rest : len value ≤ 65535 → read_tlv (tlv kind value ++ rest) = Ok (kind, value, rest).
Proof.
  intros Hl. unfold tlv. pose proof (be_bytes_back 2 (len value)) as Hb. pose proof (len_nonneg value).
  destruct (be_bytes 2 (len value)) as [|b0 [|b1 [|]]] eqn:Hbs; try done. cbn [read_tlv app]. rewrite Hb by (cbn; lia).
  rewrite takeZ_app_len, dropZ_app_len, len_app. rewrite (proj2 (Z.ltb_ge _ _)) by (pose proof (len_nonneg rest); lia). done.
Qed.

Lemma encode_tlv_ok kind value out : encode_tlv kind value = Ok out → out = tlv kind value ∧ len value ≤ 65535.
Proof. unfold encode_tlv. destruct (Z.ltb_spec 65535 (len value)); [done|]. by intros [= <-]. Qed.

Section spec.
Context (certificate_valid : bytes → bool).

(** The rest of the TLVs is shorter, so the fuel does not run out. *)
Lemma read_tlv_shorter l kind value rest : read_tlv l = Ok (kind, value, rest) → (length rest < length l)%nat.
Proof.
  destruct l as [|k [|b0 [|b1 l]]]; cbn; try done. case_match; [done|]. intros [= _ _ <-]. unfold dropZ.
  rewrite length_drop. lia.
Qed.

Lemma decode_nested_fuel f1 f2 m l : (length l ≤ f1)%nat → (length l ≤ f2)%nat →
  decode_nested_tlvs certificate_valid f1 m l = decode_nested_tlvs certificate_valid f2 m l.
Proof.
  revert f2 m l. induction f1 as [|f1 IH]; intros f2 m l H1 H2; [by destruct l, f2; cbn in *; try lia|].
  destruct f2 as [|f2]; [by destruct l; cbn in *; [|lia]|]. destruct l as [|b l]; [done|]. cbn [decode_nested_tlvs].
  destruct (read_tlv (b :: l)) as [[[kind value] rest]|] eqn:Hr; [|done]. apply read_tlv_shorter in Hr. cbn in Hr, H1, H2 |- *.
  destruct (decode_nested _ _ _ _); [|done]. cbn. apply IH; lia.
Qed.

Lemma decode_tlvs_fuel f1 f2 ssl l : (length l ≤ f1)%nat → (length l ≤ f2)%nat →
  decode_tlvs certificate_valid f1 ssl l = decode_tlvs certificate_valid f2 ssl l.
Proof.
  revert f2 ssl l. induction f1 as [|f1 IH]; intros f2 ssl l H1 H2; [by destruct l, f2; cbn in *; try lia|].
  destruct f2 as [|f2]; [by destruct l; cbn in *; [|lia]|]. destruct l as [|b l]; [done|]. cbn [decode_tlvs].
  destruct (read_tlv (b :: l)) as [[[kind value] rest]|] eqn:Hr; [|done]. apply read_tlv_shorter in Hr. cbn in Hr, H1, H2 |- *.
  destruct (kind =? PP2_TYPE_SSL); [|apply IH; lia]. destruct (is_some ssl); [done|].
  destruct (decode_ssl_tlv _ _); [|done]. cbn. apply IH; lia.
Qed.

(** The nested TLVs, with just the fuel they need. *)
Definition decode (m : ProxyProtocolSslMetadata) (l : bytes) := decode_nested_tlvs certificate_valid (length l) m l.

Lemma decode_tlv m kind value rest : len value ≤ 65535 →
  decode m (tlv kind value ++ rest) = (m' ← decode_nested certificate_valid m kind value; decode m' rest).
Proof.
  intros Hl. unfold decode at 1.
  change (decode_nested_tlvs certificate_valid (length (tlv kind value ++ rest)) m (tlv kind value ++ rest)) with
    ('(kind, nested, l) ← read_tlv (tlv kind value ++ rest); m ← decode_nested certificate_valid m kind nested;
     decode_nested_tlvs certificate_valid (length (be_bytes 2 (len value) ++ value ++ rest)) m l).
  rewrite read_tlv_back by done. cbn [mbind result_bind]. destruct (decode_nested _ m kind value) as [m'|]; [|done].
  cbn [mbind result_bind]. apply decode_nested_fuel; rewrite ?length_app; lia.
Qed.

(** A text that is encoded and read back fills its slot. *)
Lemma decode_text (get : ProxyProtocolSslMetadata → option bytes) set m kind o out rest :
  (∀ v, decode_nested certificate_valid m kind v = (r ← set_unique_text kind (get m) v; Ok (set m r))) →
  get m = None → set m None = m → (∀ v, o = Some v → utf8_valid v = true) →
  encode_optional_text kind o = Ok out → decode m (out ++ rest) = decode (set m o) rest.
Proof.
  intros Hstep Hget Hset Hutf. destruct o as [v|]; cbn; [|intros [= <-]; by rewrite Hset].
  destruct (is_empty v) eqn:He, (contains_char 0 v) eqn:Hz, (existsb is_control (utf8_chars v)) eqn:Hc; try done. cbn.
  intros [-> Hl]%encode_tlv_ok. rewrite decode_tlv, Hstep, Hget by done. unfold set_unique_text, text_ok. cbn.
  rewrite He, Hz, Hc, (Hutf v) by done. done.
Qed.

(** An assertion as the code holds one: integers of their width, texts that
    are strings, a certificate that was accepted. *)
Record ssl_wf (m : ProxyProtocolSslMetadata) : Prop := mkSslWf {
  wf_client : 0 ≤ ssl_client m < 256;
  wf_verify : 0 ≤ ssl_verify m < 2 ^ 32;
  wf_texts : Forall (λ o, ∀ v, o = Some v → utf8_valid v = true)
    [ssl_version m; ssl_common_name m; ssl_cipher_suite m; ssl_certificate_signature_algorithm m;
     ssl_certificate_key_algorithm m; ssl_key_exchange_group m; ssl_signature_scheme m];
  wf_certificate : ∀ der, ssl_certificate m = Some der → from_der certificate_valid der = Ok der;
}.

(** The certificate is sent only when asked for. *)
Definition forwarded (m : ProxyProtocolSslMetadata) (include_certificate : bool) : ProxyProtocolSslMetadata :=
  if include_certificate then m else m <| ssl_certificate := None |>.

Ltac fill_slot get set H :=
  match type of H with
  | encode_optional_text ?kind ?o = Ok ?out =>
      erewrite (decode_text get set _ kind o out); [|done|done|done|eassumption|exact H]
  end.

Lemma decode_ssl_value m b out : ssl_wf m → encode_ssl_tlv m b = Ok out →
  ∃ value, out = tlv PP2_TYPE_SSL value ∧ len value ≤ 65535 ∧ decode_ssl_tlv certificate_valid value = Ok (forwarded m b).
Proof.
  intros [Hc Hv Ht Hcert]. unfold encode_ssl_tlv.
  repeat (match goal with |- context [encode_optional_text ?k ?o] =>
    let out := fresh "out" in let H := fresh "H" in destruct (encode_optional_text k o) as [out|] eqn:H; [|done]; cbn [mbind result_bind] end).
  set (certificate := match ssl_certificate m with Some der => if b then _ else _ | None => _ end).
  destruct certificate as [c|] eqn:Hcc; [|done]. cbn [mbind result_bind]. intros [-> Hl]%encode_tlv_ok.
  eexists. split; [done|]. split; [done|]. cbn [decode_ssl_tlv app].
  pose proof (be_bytes_back 4 (ssl_verify m)) as Hb. destruct (be_bytes 4 (ssl_verify m)) as [|b0 [|b1 [|b2 [|b3 [|]]]]] eqn:Hbs; try done.
  cbn [app]. rewrite Hb by (cbn; lia). clear Hbs Hb Hl. fold (decode (no_ssl (ssl_client m) (ssl_verify m))
    (out0 ++ out1 ++ out2 ++ out3 ++ out4 ++ out5 ++ out6 ++ c)).
  repeat (apply Forall_cons in Ht as [? Ht]).
  fill_slot ssl_version (λ m v, m <| ssl_version := v |>) H.
  fill_slot ssl_common_name (λ m v, m <| ssl_common_name := v |>) H0.
  fill_slot ssl_cipher_suite (λ m v, m <| ssl_cipher_suite := v |>) H1.
  fill_slot ssl_certificate_signature_algorithm (λ m v, m <| ssl_certificate_signature_algorithm := v |>) H2.
  fill_slot ssl_certificate_key_algorithm (λ m v, m <| ssl_certificate_key_algorithm := v |>) H3.
  fill_slot ssl_key_exchange_group (λ m v, m <| ssl_key_exchange_group := v |>) H4.
  fill_slot ssl_signature_scheme (λ m v, m <| ssl_signature_scheme := v |>) H5.
  change (decode (m <| ssl_certificate := None |>) c = Ok (forwarded m b)). unfold certificate in Hcc. unfold forwarded.
  destruct (ssl_certificate m) as [der|] eqn:Hder.
  - destruct b; [|by injection Hcc as <-]. apply encode_tlv_ok in Hcc as [-> Hl].
    rewrite <- (app_nil_r (tlv PP2_SUBTYPE_SSL_CERT der)), decode_tlv by done.
    change (decode_nested certificate_valid (m <| ssl_certificate := None |>) PP2_SUBTYPE_SSL_CERT der) with
      (certificate ← from_der certificate_valid der; Ok (m <| ssl_certificate := Some certificate |>)).
    rewrite (Hcert der) by done. cbn. f_equal. destruct m. cbn in *. by rewrite Hder.
  - injection Hcc as <-. destruct m. cbn in *. rewrite Hder. by destruct b.
Qed.

Lemma decode_ssl_tlvs_back m b out : ssl_wf m → encode_ssl_tlv m b = Ok out →
  decode_ssl_tlvs certificate_valid out = Ok (Some (forwarded m b)).
Proof.
  intros Hm Hout. destruct (decode_ssl_value m b out Hm Hout) as (value & -> & Hl & Hd). unfold decode_ssl_tlvs.
  rewrite <- (app_nil_r (tlv PP2_TYPE_SSL value)) at 2.
  change (decode_tlvs certificate_valid (length (tlv PP2_TYPE_SSL value)) None (tlv PP2_TYPE_SSL value ++ [])) with
    ('(kind, v, l) ← read_tlv (tlv PP2_TYPE_SSL value ++ []);
     if kind =? PP2_TYPE_SSL then
       decoded ← decode_ssl_tlv certificate_valid v; decode_tlvs certificate_valid (length (be_bytes 2 (len value) ++ value)) (Some decoded) l
     else decode_tlvs certificate_valid (length (be_bytes 2 (len value) ++ value)) None l).
  rewrite read_tlv_back by done. cbn [mbind result_bind]. rewrite Z.eqb_refl, Hd. done.
Qed.

(** ** Version 2 *)

Definition same_family (a b : SocketAddr) : Prop := is_ipv4 (sa_ip a) = is_ipv4 (sa_ip b).

#[local] Instance same_family_dec a b : Decision (same_family a b).
Proof. unfold same_family. apply _. Defined.

Definition v2_family (a : SocketAddr) : Z := if is_ipv4 (sa_ip a) then 0x11 else 0x21.

Definition octets (ip : IpAddr) : bytes :=
  match ip with
  | V4 bits => be_bytes 4 bits
  | V6 bits => be_bytes 16 bits
  end.

Definition v2_addresses (source destination : SocketAddr) : bytes :=
  octets (sa_ip source) ++ octets (sa_ip destination) ++ be_bytes 2 (sa_port source) ++ be_bytes 2 (sa_port destination).

Lemma v2_header_shape s d : same_family s d →
  v2_header s d = V2_SIGNATURE ++ [0x21; v2_family s] ++ be_bytes 2 (len (v2_addresses s d)) ++ v2_addresses s d.
Proof. by destruct s as [[|] ?], d as [[|] ?]. Qed.

Lemma parse_v2_addresses s d rest parse_ssl_tlvs : addr_wf s → addr_wf d → same_family s d →
  parse_v2_payload certificate_valid 0x21 (v2_family s) (v2_addresses s d ++ rest) parse_ssl_tlvs
  = (ssl ← (if parse_ssl_tlvs then decode_ssl_tlvs certificate_valid rest else Ok None);
     Ok (s, if parse_ssl_tlvs then Some (mkMetadata V2 s (Some d) ssl) else None)).
Proof.
  destruct s as [[s|s] sp], d as [[d|d] dp]; intros [Hs Hsp] [Hd Hdp]; try done; intros _; cbn in Hs, Hsp, Hd, Hdp.
  - set (payload := v2_addresses _ _ ++ rest). unfold parse_v2_payload.
    assert ((V2_IPV4_ADDRESS_LEN <=? len payload) = true) as Hlen
      by (apply Z.leb_le; unfold payload; rewrite len_app; change (len (v2_addresses _ _)) with 12; pose proof (len_nonneg rest); unfold V2_IPV4_ADDRESS_LEN; lia).
    rewrite Hlen. change (slice 0 4 payload) with (be_bytes 4 s). change (slice 4 8 payload) with (be_bytes 4 d).
    change (slice 8 10 payload) with (be_bytes 2 sp). change (slice 10 12 payload) with (be_bytes 2 dp).
    rewrite !be_bytes_back by (cbn; lia). cbn -[decode_ssl_tlvs]. change (dropZ V2_IPV4_ADDRESS_LEN payload) with rest. done.
  - set (payload := v2_addresses _ _ ++ rest). unfold parse_v2_payload.
    assert ((V2_IPV6_ADDRESS_LEN <=? len payload) = true) as Hlen
      by (apply Z.leb_le; unfold payload; rewrite len_app; change (len (v2_addresses _ _)) with 36; pose proof (len_nonneg rest); unfold V2_IPV6_ADDRESS_LEN; lia).
    rewrite Hlen. change (slice 0 16 payload) with (be_bytes 16 s). change (slice 16 32 payload) with (be_bytes 16 d).
    change (slice 32 34 payload) with (be_bytes 2 sp). change (slice 34 36 payload) with (be_bytes 2 dp).
    rewrite !be_bytes_back by (cbn; lia). cbn -[decode_ssl_tlvs]. change (dropZ V2_IPV6_ADDRESS_LEN payload) with rest. done.
Qed.

Lemma read_v2_tail version_command family payload rest parse_ssl_tlvs : len payload ≤ 65535 →
  read_v2_after_signature certificate_valid ([version_command; family] ++ be_bytes 2 (len payload) ++ payload ++ rest) parse_ssl_tlvs
  = ('(source, metadata) ← parse_v2_payload certificate_valid version_command family payload parse_ssl_tlvs; Ok (source, metadata, rest)).
Proof.
  intros Hl. pose proof (be_bytes_back 2 (len payload)) as Hb. pose proof (len_nonneg payload).
  destruct (be_bytes 2 (len payload)) as [|b0 [|b1 [|]]] eqn:Hbs; try done. unfold read_v2_after_signature.
  change ([version_command; family] ++ [b0; b1] ++ payload ++ rest) with ([version_command; family; b0; b1] ++ payload ++ rest).
  rewrite read_exact_app by done. cbn [mbind result_bind]. rewrite Hb by (cbn; lia). by rewrite read_exact_app.
Qed.

(** ** Accepting *)

(** The listener expects a header of this peer. *)
Definition listens (config : ProxyProtocolConfig) (peer : SocketAddr) : Prop :=
  pp_enabled config = true
  ∧ ∃ trusted, trusted_parse (pp_trusted_sources config) = Ok trusted ∧ trusted_contains trusted (sa_ip peer) = true.

(** It takes a header that begins with the signature for version 2: by
    configuration, or by its first twelve octets. *)
Definition takes_v2 (config : ProxyProtocolConfig) (with_metadata : bool) (available : nat) : Prop :=
  match pp_version config with
  | ProxyProto.V1 => False
  | V2 => True
  | AnyVersion => with_metadata && pp_tls_tlvs config = true ∨ (12 ≤ available)%nat
  end.

Lemma accept_v2 config with_metadata available peer stream : listens config peer → takes_v2 config with_metadata available →
  accept_proxy_header certificate_valid config with_metadata available peer (V2_SIGNATURE ++ stream)
  = ('(source, metadata, stream) ← read_v2_after_signature certificate_valid stream (with_metadata && pp_tls_tlvs config);
     Ok (stream, source, metadata)).
Proof.
  intros (He & trusted & Ht & Hc) Hv. unfold accept_proxy_header. rewrite He, Ht. cbn [negb map_err mbind result_bind]. rewrite Hc. cbn [negb].
  assert (read_v2 certificate_valid (V2_SIGNATURE ++ stream) (with_metadata && pp_tls_tlvs config)
    = read_v2_after_signature certificate_valid stream (with_metadata && pp_tls_tlvs config)) as Hr.
  { unfold read_v2. by rewrite read_exact_app. }
  unfold takes_v2 in Hv. destruct (pp_version config); [done|by rewrite Hr|].
  destruct (with_metadata && pp_tls_tlvs config) eqn:Hm.
  - unfold read_any_with_metadata. rewrite read_exact_app by done. cbn [mbind result_bind]. by rewrite bool_decide_true.
  - destruct Hv as [|Hv]; [done|]. rewrite bool_decide_true; [by rewrite Hr|]. unfold peeked. by rewrite Nat.min_r.
Qed.

(** A version 2 header sent to an upstream that runs the same
    code is taken off the connection exactly, and gives the source and
    destination it was made from; addresses of different families make a
    header that is refused. *)
Theorem v2_header_roundtrip config with_metadata available peer source destination rest :
  listens config peer → takes_v2 config with_metadata available → addr_wf source → addr_wf destination →
  accept_proxy_header certificate_valid config with_metadata available peer (v2_header source destination ++ rest)
  = if decide (same_family source destination)
    then Ok (rest, source, if with_metadata && pp_tls_tlvs config then Some (mkMetadata V2 source (Some destination) None) else None)
    else Err V2NotTcp.
Proof.
  intros Hl Hv Hs Hd. destruct (decide _) as [Hf|Hf].
  - rewrite v2_header_shape, <- !app_assoc, accept_v2, read_v2_tail by (done || by destruct source as [[|] ?], destination as [[|] ?]).
    rewrite <- (app_nil_r (v2_addresses source destination)), parse_v2_addresses by done.
    by destruct (with_metadata && pp_tls_tlvs config).
  - assert (v2_header source destination = V2_SIGNATURE ++ [0x21; 0x00] ++ be_bytes 2 (len (@nil Z)) ++ []) as ->
      by (by destruct source as [[|] ?], destination as [[|] ?]).
    rewrite <- !app_assoc, accept_v2, read_v2_tail by done. done.
Qed.

(** C14 (roundtrip). A header with TLS assertions prepared for an upstream
    gives, read by the same code, the selected evidence of the connection:
    its source, which is the client the request is attributed to, its
    destination, and every assertion, the certificate only when the
    configuration forwards it. *)
Theorem prepared_header_roundtrip tls_config evidence client header identity config available peer rest :
  prepare tls_config evidence client = Ok (header, identity) →
  (∀ m, selected_metadata tls_config evidence = Ok m →
    addr_wf (pm_source m) ∧ (∀ d, pm_destination m = Some d → addr_wf d) ∧ ∀ ssl, pm_ssl m = Some ssl → ssl_wf ssl) →
  listens config peer → takes_v2 config true available → pp_tls_tlvs config = true →
  ∃ m destination ssl, selected_metadata tls_config evidence = Ok m
    ∧ pm_destination m = Some destination ∧ pm_ssl m = Some ssl ∧ sa_ip (pm_source m) = sa_ip client
    ∧ accept_proxy_header certificate_valid config true available peer (header ++ rest)
      = Ok (rest, pm_source m, Some (mkMetadata V2 (pm_source m) (Some destination)
                                       (Some (forwarded ssl (tc_client_certificate tls_config))))).
Proof.
  intros Hp Hwf Hl Hv Htlv. unfold prepare in Hp. destruct (selected_metadata tls_config evidence) as [m|]; [|done].
  destruct (Hwf m eq_refl) as (Hs & Hd & Hssl). cbn [mbind result_bind] in Hp. case_bool_decide as Hip; [|done]. cbn [negb] in Hp.
  destruct (pm_destination m) as [d|] eqn:Hdest; [|done]. cbn [ok_or mbind result_bind] in Hp.
  destruct (eqb _ _) eqn:Hf; [|done]. apply eqb_prop in Hf. destruct (_ || _ || _); [done|].
  destruct (pm_ssl m) as [ssl|] eqn:Hsslm; [|done]. cbn [ok_or mbind result_bind] in Hp.
  destruct (encode_ssl_tlv ssl _) as [tlvs|] eqn:Hssl_out; [|done]. cbn [mbind result_bind] in Hp.
  exists m, d, ssl. split_and!; try done. specialize (Hd d eq_refl). specialize (Hssl ssl eq_refl).
  rewrite v2_header_shape in Hp by done. set (addresses := v2_addresses (pm_source m) d) in *.
  set (start := V2_SIGNATURE ++ [0x21; v2_family (pm_source m)]).
  replace (V2_SIGNATURE ++ [0x21; v2_family (pm_source m)] ++ be_bytes 2 (len addresses) ++ addresses)
    with (start ++ be_bytes 2 (len addresses) ++ addresses) in Hp by (unfold start; by rewrite <- app_assoc).
  assert (takeZ 14 (start ++ be_bytes 2 (len addresses) ++ addresses) = start
    ∧ dropZ 16 (start ++ be_bytes 2 (len addresses) ++ addresses) = addresses) as [Htake Hdrop] by done.
  assert (len (start ++ be_bytes 2 (len addresses) ++ addresses) = 16 + len addresses) as Hlen 
    by (rewrite !len_app; change (len start) with 14; change (len (be_bytes 2 (len addresses))) with 2; lia).
  rewrite Htake, Hdrop, Hlen in Hp. pose proof (len_nonneg addresses). rewrite (proj2 (Z.ltb_ge _ _)) in Hp by lia. cbn [orb] in Hp.
  destruct (Z.ltb_spec 65535 (16 + len addresses - 16 + len tlvs)) as [|Hfit]; [done|].
  assert (header = start ++ be_bytes 2 (16 + len addresses - 16 + len tlvs) ++ addresses ++ tlvs) as -> by congruence. clear Hp.
  replace (16 + len addresses - 16 + len tlvs) with (len (addresses ++ tlvs)) by (rewrite len_app; lia).
  unfold start. rewrite <- !app_assoc, accept_v2 by done. rewrite (app_assoc addresses tlvs rest), read_v2_tail by (rewrite len_app; lia).
  unfold addresses. rewrite parse_v2_addresses, Htlv by done. cbn [andb]. by rewrite (decode_ssl_tlvs_back ssl (tc_client_certificate tls_config) tlvs).
Qed.

(** ** Version 1 *)

(** The line is read up to its end, wherever the reading starts. *)
Lemma read_v1_line_back line before after rest : 10 ∉ line → len line < 107 → line ++ [10] = before ++ after →
  read_v1_line before (after ++ rest) = Ok (line ++ [10], rest).
Proof.
  intros Hnl Hlen. revert before. induction after as [|b after IH]; intros before Heq; cbn [app].
  - rewrite app_nil_r in Heq. subst before. destruct rest as [|r rest]; cbn [read_v1_line]; rewrite len_app; change (len [10]) with 1;
      rewrite (proj2 (Z.ltb_ge _ _)), last_snoc, bool_decide_true by (done || lia); done.
  - assert (∃ k, line = before ++ k) as [k Hk].
    { destruct (exists_last (l := b :: after)) as (k & e & Hk); [done|]. rewrite Hk, app_assoc in Heq.
      apply app_inj_tail in Heq as [-> _]. by exists k. }
    cbn [read_v1_line]. rewrite Hk, len_app in Hlen. pose proof (len_nonneg k). rewrite (proj2 (Z.ltb_ge _ _)) by lia.
    rewrite bool_decide_false.
    + apply IH. by rewrite <- app_assoc.
    + intros [l' ->]%last_Some. apply Hnl. rewrite Hk. set_solver.
Qed.

Lemma chunks_ascii l : Forall (λ b, 0 ≤ b < 128) l → utf8_chunks l = map (λ b, [b]) l.
Proof. induction 1 as [|b l Hb _ IH]; [done|]. cbn. rewrite (proj2 (Z.ltb_lt _ _)) by lia. by rewrite IH. Qed.

Lemma split_word part w chunks : Forall graphic w →
  split_chunks part (map (λ b, [b]) w ++ chunks) = split_chunks (part ++ w) chunks.
Proof.
  intros Hw. revert part. induction Hw as [|b w Hb _ IH]; intros part; cbn [map app]; [by rewrite app_nil_r|].
  cbn [split_chunks]. assert (whitespace_chunk [b] = false) as ->.
  { red in Hb. unfold whitespace_chunk. cbn. rewrite (proj2 (Z.ltb_lt _ _)) by lia. cbn. unfold is_whitespace, in_range. lia. }
  rewrite IH. by rewrite <- app_assoc.
Qed.

(** Words of graphic characters with blanks between them. *)
Lemma split_words ws : Forall (λ w, w ≠ [] ∧ Forall graphic w) ws → split_whitespace (join_with 32 ws) = ws.
Proof.
  intros Hws. unfold split_whitespace. rewrite chunks_ascii.
  2: { apply join_with_Forall; [lia|]. eapply Forall_impl; [done|]. intros w [_ Hw]. eapply Forall_impl; [done|]. unfold graphic. lia. }
  induction Hws as [|w ws [Hne Hw] Hws IH]; [done|]. destruct ws as [|w' ws].
  - cbn [join_with]. rewrite <- (app_nil_r (map _ w)), split_word by done. cbn. by destruct w.
  - cbn [join_with]. rewrite map_app, split_word by done. cbn [map app split_chunks]. change (whitespace_chunk [32]) with true.
    cbn iota. destruct (is_empty w) eqn:He; [by apply is_empty_true in He|]. f_equal. exact IH.
Qed.

Definition v1_words (family : bytes) (source destination : SocketAddr) : list bytes :=
  [ascii "PROXY"; family; display_ip (sa_ip source); display_ip (sa_ip destination); decimal (sa_port source); decimal (sa_port destination)].

Lemma decimal_word n : is_u64 n → decimal n ≠ [] ∧ Forall graphic (decimal n).
Proof.
  intros Hn. destruct (decimal_spec n Hn) as (Hl & _ & _). split; [intros He; rewrite He in Hl; unfold len in Hl; cbn in Hl; lia|].
  by apply decimal_loop_graphic.
Qed.

Lemma v1_words_ok family source destination : family ≠ [] → Forall graphic family → addr_wf source → addr_wf destination →
  Forall (λ w, w ≠ [] ∧ Forall graphic w) (v1_words family source destination).
Proof.
  intros Hne Hg [Hsi Hs] [Hdi Hd].
  assert (∀ ip, ip_wf ip → display_ip ip ≠ []) as Hip by (intros ip Hip%display_ip_back He; by rewrite He in Hip).
  assert (∀ n, 0 ≤ n < 2 ^ 16 → is_u64 n) as Hu by (unfold is_u64, U64_MAX; lia).
  repeat constructor; try done; try apply display_ip_graphic; try apply decimal_word; auto.
Qed.

Lemma port_len n : 0 ≤ n < 2 ^ 16 → len (decimal n) ≤ 5.
Proof.
  intros Hn. unfold decimal. do 5 (cbn [decimal_loop]; case_match; [unfold len; cbn; lia|]). exfalso.
  repeat match goal with H : (_ <? _) = false |- _ => apply Z.ltb_ge in H end. div_lia.
Qed.

Lemma words_line ws : Forall (λ w, w ≠ [] ∧ Forall graphic w) ws → Forall (λ b, b = 32 ∨ graphic b) (join_with 32 ws).
Proof.
  intros Hws. apply join_with_Forall; [by left|]. eapply Forall_impl; [exact Hws|]. intros w [_ Hw].
  eapply Forall_impl; [exact Hw|]. by right.
Qed.

(** What the reading makes of a line of six words. *)
Lemma parse_v1_words family source destination :
  family ≠ ascii "UNKNOWN" → Forall (λ w, w ≠ [] ∧ Forall graphic w) (v1_words family source destination) →
  addr_wf source →
  parse_v1_line (join_with 32 (v1_words family source destination) ++ [13; 10]) = Ok source.
Proof.
  intros Hf Hws [Hip%display_ip_back Hp]. unfold parse_v1_line. set (l := join_with 32 (v1_words family source destination)).
  assert (Forall (λ b, b = 32 ∨ graphic b) l) as Hl by by apply words_line.
  assert (utf8_valid (l ++ [13; 10]) = true) as ->.
  { apply utf8_ascii, Forall_app. split; [|by repeat constructor]. eapply Forall_impl; [exact Hl|]. unfold graphic. lia. }
  assert (trim_end_list (λ b, (b =? 13) || (b =? 10)) (l ++ [13; 10]) = l) as ->.
  { unfold trim_end_list. rewrite reverse_app. change (drop_while _ (reverse [13; 10] ++ reverse l)) with (drop_while (λ b, (b =? 13) || (b =? 10)) (reverse l)).
    rewrite <- (reverse_involutive l) at 2. f_equal. assert (Forall (λ b, b = 32 ∨ graphic b) (reverse l)) as Hr by by rewrite Forall_reverse.
    destruct (reverse l) as [|b k]; [done|]. apply Forall_cons in Hr as [Hb _]. cbn [drop_while].
    rewrite (proj2 (Z.eqb_neq b 13)), (proj2 (Z.eqb_neq b 10)) by (unfold graphic in Hb; lia). done. }
  unfold l. rewrite split_words by done. cbn [v1_words negb]. rewrite bool_decide_true, bool_decide_false by done. cbn [negb orb].
  rewrite Hip. cbn [ok_or mbind result_bind]. unfold parse_u16. rewrite parse_decimal_back by (unfold is_u64, U64_MAX; lia).
  cbn. by destruct source.
Qed.

Definition v1_family (a : SocketAddr) : bytes := if is_ipv4 (sa_ip a) then ascii "TCP4" else ascii "TCP6".

Lemma v1_header_shape s d : same_family s d →
  v1_header s d = join_with 32 (v1_words (v1_family s) s d) ++ [13; 10].
Proof.
  destruct s as [[|] ?], d as [[|] ?]; try done; intros _; unfold v1_header, v1_words; cbn [join_with];
    repeat (rewrite <- app_assoc || rewrite <- app_comm_cons); reflexivity.
Qed.

(** The listener takes a header that begins otherwise for version 1. *)
Lemma accept_v1 config with_metadata available peer line rest :
  listens config peer → pp_version config ≠ V2 →
  10 ∉ line → 12 ≤ len line < 107 → head line = Some 80 →
  accept_proxy_header certificate_valid config with_metadata available peer (line ++ [10] ++ rest)
  = (source ← parse_v1_line (line ++ [10]);
     Ok (rest, source, match pp_version config with
                       | AnyVersion => if with_metadata && pp_tls_tlvs config then Some (mkMetadata V1 source None None) else None
                       | _ => None
                       end)).
Proof.
  intros (He & trusted & Ht & Hc) Hv Hnl Hlen Hhead. unfold accept_proxy_header. rewrite He, Ht. cbn [negb map_err mbind result_bind].
  rewrite Hc. cbn [negb].
  assert (read_v1_with_prefix (line ++ [10] ++ rest) [] = (source ← parse_v1_line (line ++ [10]); Ok (source, rest))) as Hr.
  { unfold read_v1_with_prefix. rewrite app_assoc. by rewrite (read_v1_line_back line [] (line ++ [10])) by (done || lia). }
  destruct line as [|p line]; [done|]. injection Hhead as ->.
  destruct (pp_version config); [|done|].
  - rewrite Hr. by destruct (parse_v1_line _).
  - destruct (with_metadata && pp_tls_tlvs config).
    + unfold read_any_with_metadata. rewrite <- (takeZ_dropZ 12 (80 :: line)) at 1. rewrite <- app_assoc, read_exact_app by (rewrite len_takeZ; lia).
      cbn [mbind result_bind]. rewrite bool_decide_false by (intros Hs; by apply (f_equal head) in Hs).
      unfold read_v1_with_prefix. rewrite app_assoc, (read_v1_line_back (80 :: line)) by (done || lia || by rewrite app_assoc, takeZ_dropZ).
      cbn [mbind result_bind]. by destruct (parse_v1_line ((80 :: line) ++ [10])).
    + rewrite bool_decide_false; [rewrite Hr; by destruct (parse_v1_line _)|]. unfold peeked. intros Hs.
      by destruct (available `min` 12)%nat; apply (f_equal head) in Hs.
Qed.

(** C28 (roundtrip). A version 1 header sent to an upstream that runs the same
    code is taken off the connection exactly and gives the source it was made
    from, whatever the addresses; for addresses of different families the
    header says so and is refused. *)
Theorem v1_header_roundtrip config with_metadata available peer source destination rest :
  listens config peer → pp_version config ≠ V2 → addr_wf source → addr_wf destination →
  accept_proxy_header certificate_valid config with_metadata available peer (v1_header source destination ++ rest)
  = if decide (same_family source destination)
    then Ok (rest, source, match pp_version config with
                           | AnyVersion => if with_metadata && pp_tls_tlvs config then Some (mkMetadata V1 source None None) else None
                           | _ => None
                           end)
    else Err V1Invalid.
Proof.
  intros Hl Hv Hs Hd. destruct (decide _) as [Hf|Hf].
  - rewrite v1_header_shape by done. set (words := v1_words (v1_family source) source destination).
    assert (Forall (λ w, w ≠ [] ∧ Forall graphic w) words) as Hws
      by (apply v1_words_ok; try done; unfold v1_family; destruct (is_ipv4 _); (done || by repeat constructor; done)).
    assert (join_with 32 words ++ [13; 10] = (join_with 32 words ++ [13]) ++ [10]) as Heq by by rewrite <- app_assoc.
    pose proof (words_line words Hws) as Hline. destruct Hs as [Hsi Hsp], Hd as [Hdi Hdp].
    rewrite Heq, <- app_assoc, accept_v1; try done.
    + rewrite <- Heq. unfold words. rewrite parse_v1_words; [done| |done|done]. unfold v1_family. by destruct (is_ipv4 _).
    + rewrite Forall_forall in Hline. intros [Hin|Hin]%elem_of_app; [specialize (Hline 10 Hin); unfold graphic in Hline; lia|].
      by apply list_elem_of_singleton in Hin.
    + assert (len (join_with 32 words) = 14 + len (display_ip (sa_ip source)) + len (display_ip (sa_ip destination))
        + len (decimal (sa_port source)) + len (decimal (sa_port destination))) as Hlen.
      { unfold words, v1_words. cbn [join_with]. repeat (rewrite len_app, len_cons).
        change (len (ascii "PROXY")) with 5. assert (len (v1_family source) = 4) as -> by (unfold v1_family; by destruct (is_ipv4 _)). lia. }
      rewrite len_app, Hlen. change (len [13]) with 1.
      pose proof (display_ip_len (sa_ip source)). pose proof (display_ip_len (sa_ip destination)).
      pose proof (port_len _ Hsp). pose proof (port_len _ Hdp). pose proof (len_nonneg (display_ip (sa_ip source))).
      pose proof (len_nonneg (display_ip (sa_ip destination))). pose proof (len_nonneg (decimal (sa_port source))).
      pose proof (len_nonneg (decimal (sa_port destination))). lia.
  - assert (v1_header source destination = (ascii "PROXY UNKNOWN" ++ [13]) ++ [10]) as -> by by destruct source as [[|] ?], destination as [[|] ?].
    rewrite <- app_assoc, accept_v1; try done. by apply (bool_decide_unpack _).
Qed.

(** ** What is taken off a connection *)

Lemma read_exact_parts n stream l rest : 0 ≤ n → read_exact n stream = Ok (l, rest) → stream = l ++ rest ∧ len l = n.
Proof.
  intros Hn. unfold read_exact. destruct (Z.ltb_spec (len stream) n); [done|]. intros [= <- <-].
  by rewrite takeZ_dropZ, len_takeZ by lia.
Qed.

(** The line ends at the first LF, from where the reading starts. *)
Lemma read_v1_line_parts before stream line rest : read_v1_line before stream = Ok (line, rest) →
  (∃ after, stream = after ++ rest ∧ line = before ++ after) ∧ len line ≤ 107
  ∧ ∃ text, line = text ++ [10] ∧ 10 ∉ dropZ (len before - 1) text.
Proof.
  revert before. induction stream as [|b stream IH]; intros before; cbn [read_v1_line];
    (destruct (Z.ltb_spec 107 (len before)); [done|]); (case_bool_decide as Hl; [|try done]).
  1, 2: intros [= <- <-]; split_and!; [exists []; split; [done|by rewrite app_nil_r]|lia|]; apply last_Some in Hl as [k ->]; exists k; split; [done|];
    rewrite len_app; change (len [10]) with 1; rewrite Z.add_simpl_r, dropZ_all by lia; apply not_elem_of_nil.
  intros ((after & -> & ->) & Hlen & text & Htext & Hnl)%IH. clear IH. split_and!; [exists (b :: after); by rewrite <- app_assoc|done|].
  exists text. split; [done|]. rewrite len_app in Hnl. change (len [b]) with 1 in Hnl. rewrite Z.add_simpl_r in Hnl.
  rewrite <- app_assoc in Htext. cbn [app] in Htext. destruct (exists_last (l := b :: after)) as (t & e & Hte); [done|].
  rewrite Hte, app_assoc in Htext. apply app_inj_tail in Htext as [<- _]. rewrite dropZ_app_len in Hnl.
  destruct before as [|x k _] using rev_ind; [exact Hnl|]. rewrite last_snoc in Hl. rewrite len_app. change (len [x]) with 1.
  rewrite Z.add_simpl_r, <- app_assoc, dropZ_app_len. cbn [app]. intros [<-|]%elem_of_cons; done.
Qed.

Lemma trim_end_split {A} (p : A → bool) (l : list A) : ∃ ending, l = trim_end_list p l ++ ending ∧ Forall (λ x, p x = true) ending.
Proof.
  unfold trim_end_list. assert (∀ k, ∃ start, k = start ++ drop_while p k ∧ Forall (λ x, p x = true) start) as Hd.
  { induction k as [|x k (start & IH & Hs)]; [by exists []|]. cbn. destruct (p x) eqn:Hx; [|by exists []].
    exists (x :: start). split; [by rewrite IH at 1|by constructor]. }
  destruct (Hd (reverse l)) as (start & Heq & Hs). exists (reverse start). rewrite Forall_reverse. split; [|done].
  by rewrite <- reverse_app, <- Heq, reverse_involutive.
Qed.

(** A version 1 header for [source]: one line, the first LF from the octet
    [unseen] on being its last octet, of six words. *)
Record v1_text (unseen : Z) (source : SocketAddr) (header : bytes) : Prop := mkV1Text {
  vt_len : len header ≤ 107;
  vt_line : ∃ text, header = text ++ [10] ∧ 10 ∉ dropZ unseen text;
  vt_utf8 : utf8_valid header = true;
  vt_words : ∃ body ending family ip destination port destination_port,
    header = body ++ ending ∧ Forall (λ b, b = 13 ∨ b = 10) ending
    ∧ split_whitespace body = [ascii "PROXY"; family; ip; destination; port; destination_port] ∧ family ≠ ascii "UNKNOWN"
    ∧ parse_ip ip = Some (sa_ip source) ∧ parse_u16 port = Some (sa_port source);
}.

Lemma read_v1_text stream prefix source rest : read_v1_with_prefix stream prefix = Ok (source, rest) →
  addr_wf source ∧ ∃ header, prefix ++ stream = header ++ rest ∧ v1_text (len prefix - 1) source header.
Proof.
  unfold read_v1_with_prefix. destruct (read_v1_line prefix stream) as [[line k]|] eqn:Hl; [|done]. cbn [mbind result_bind].
  apply read_v1_line_parts in Hl as ((after & -> & Heq) & Hlen & Hline). rewrite app_assoc, <- Heq. unfold parse_v1_line.
  destruct (utf8_valid line) eqn:Hu; [|done]. cbn [negb]. destruct (trim_end_split (λ b, (b =? 13) || (b =? 10)) line) as (ending & Hend & He).
  destruct (split_whitespace _) as [|w1 [|w2 [|w3 [|w4 [|w5 [|w6 [|]]]]]]] eqn:Hw; try done.
  do 2 (case_bool_decide; try done). cbn [negb orb]. subst w1.
  destruct (parse_ip w3) as [ip|] eqn:Hip; [|done]. cbn [ok_or mbind result_bind]. destruct (parse_u16 w5) as [port|] eqn:Hp; [|done].
  cbn [ok_or mbind result_bind]. intros [= <- <-]. split.
  { split; [by eapply parse_ip_wf|]. apply parse_unsigned_range in Hp; cbn; lia. }
  exists line. split; [done|]. split; [done..|]. exists (trim_end_list (λ b, (b =? 13) || (b =? 10)) line), ending, w2, w3, w4, w5, w6.
  split_and!; try done. eapply Forall_impl; [exact He|]. cbn. lia.
Qed.

(** A version 2 header: the signature, version and command, family and
    transport, the length, and a payload of that length that begins with the
    addresses. *)
Record v2_block (source destination : SocketAddr) (tlvs header : bytes) : Prop := mkV2Block {
  vb_family : same_family source destination;
  vb_len : len (v2_addresses source destination ++ tlvs) ≤ 65535;
  vb_header : header = V2_SIGNATURE ++ [0x21; v2_family source] ++ be_bytes 2 (len (v2_addresses source destination ++ tlvs))
    ++ v2_addresses source destination ++ tlvs;
}.

Lemma be_bytes_slice n payload a b : Forall is_byte payload → 0 ≤ a → b - a = Z.of_nat n → b ≤ len payload →
  be_bytes n (be_fold 0 (slice a b payload)) = slice a b payload ∧ 0 ≤ be_fold 0 (slice a b payload) < 2 ^ (8 * Z.of_nat n).
Proof.
  intros Hp Ha Hn Hb. assert (Forall is_byte (slice a b payload)) as Hs by by apply Forall_take, Forall_drop.
  assert (len (slice a b payload) = Z.of_nat n) as Hl by (unfold slice; rewrite len_takeZ by (rewrite len_dropZ; lia); lia).
  pose proof (be_fold_bound _ 0 Hs ltac:(lia)) as Hbound. rewrite Hl in Hbound. split; [|lia].
  replace n with (length (slice a b payload)) by (unfold len in Hl; lia). by apply be_bytes_be_fold.
Qed.

Lemma slices a b c l : 0 ≤ a ≤ b → b ≤ c → slice a b l ++ slice b c l = slice a c l.
Proof.
  intros Ha Hb. unfold slice, takeZ, dropZ. replace (Z.to_nat b) with (Z.to_nat a + Z.to_nat (b - a))%nat by lia.
  rewrite <- drop_drop, take_take_drop. f_equal. lia.
Qed.

Lemma nibbles b hi lo : is_byte b → Z.shiftr b 4 = hi → Z.land b 0x0f = lo → b = hi * 16 + lo.
Proof.
  intros Hb <- <-. change 0x0f with (Z.ones 4). rewrite Z.land_ones, Z.shiftr_div_pow2 by lia. change (2 ^ 4) with 16.
  pose proof (Z.div_mod b 16). lia.
Qed.

(** The TLS assertions of the header, when they are asked for. *)
Definition v2_metadata (parse_ssl_tlvs : bool) (source destination : SocketAddr) (tlvs : bytes)
    (metadata : option ProxyProtocolMetadata) : Prop :=
  if parse_ssl_tlvs
  then ∃ ssl, decode_ssl_tlvs certificate_valid tlvs = Ok ssl ∧ metadata = Some (mkMetadata V2 source (Some destination) ssl)
  else metadata = None.

Lemma parse_v2_block version_command family payload parse_ssl_tlvs source metadata :
  is_byte version_command → is_byte family → Forall is_byte payload →
  parse_v2_payload certificate_valid version_command family payload parse_ssl_tlvs = Ok (source, metadata) →
  version_command = 0x21 ∧ addr_wf source ∧ ∃ destination tlvs, addr_wf destination ∧ same_family source destination
    ∧ family = v2_family source ∧ payload = v2_addresses source destination ++ tlvs
    ∧ v2_metadata parse_ssl_tlvs source destination tlvs metadata.
Proof.
  intros Hvc Hft Hb. unfold parse_v2_payload.
  destruct (Z.eqb_spec (Z.shiftr version_command 4) 2) as [H1|]; [|done]. destruct (Z.eqb_spec (Z.land version_command 0x0f) 1) as [H2|]; [|done].
  destruct (Z.eqb_spec (Z.land family 0x0f) 1) as [H3|]; [|done]. cbn [negb orb]. unfold V2_IPV4_ADDRESS_LEN, V2_IPV6_ADDRESS_LEN.
  pose proof (nibbles _ _ _ Hvc H1 H2) as Hv.
  assert (∀ n tlvs, tlvs = dropZ n payload → slice 0 n payload ++ tlvs = payload) as Hall
    by (intros n tlvs ->; unfold slice; rewrite Z.sub_0_r; apply takeZ_dropZ).
  destruct (_ && (12 <=? len payload)) eqn:H4; [|destruct (_ && (36 <=? len payload)) eqn:H6; [|done]]; cbn [mbind result_bind].
  - apply andb_prop in H4 as [Hf%Z.eqb_eq Hl%Z.leb_le]. pose proof (nibbles _ _ _ Hft Hf H3) as ->.
    destruct (be_bytes_slice 4 payload 0 4) as [E1 B1]; [done|lia..|]. destruct (be_bytes_slice 4 payload 4 8) as [E2 B2]; [done|lia..|].
    destruct (be_bytes_slice 2 payload 8 10) as [E3 B3]; [done|lia..|]. destruct (be_bytes_slice 2 payload 10 12) as [E4 B4]; [done|lia..|].
    destruct (if parse_ssl_tlvs then decode_ssl_tlvs certificate_valid (dropZ 12 payload) else Ok None) as [ssl|] eqn:Hs; [|done].
    cbn [mbind result_bind]. intros [= <- <-]. split; [done|]. split; [done|].
    exists (mkSocketAddr (V4 (be_fold 0 (slice 4 8 payload))) (be_fold 0 (slice 10 12 payload))), (dropZ 12 payload).
    split_and!; [by split|done|done| |].
    + unfold v2_addresses. cbn [sa_ip sa_port octets]. rewrite E1, E2, E3, E4. rewrite !slices by lia. by rewrite Hall.
    + unfold v2_metadata. destruct parse_ssl_tlvs; [by exists ssl|done].
  - apply andb_prop in H6 as [Hf%Z.eqb_eq Hl%Z.leb_le]. pose proof (nibbles _ _ _ Hft Hf H3) as ->.
    destruct (be_bytes_slice 16 payload 0 16) as [E1 B1]; [done|lia..|]. destruct (be_bytes_slice 16 payload 16 32) as [E2 B2]; [done|lia..|].
    destruct (be_bytes_slice 2 payload 32 34) as [E3 B3]; [done|lia..|]. destruct (be_bytes_slice 2 payload 34 36) as [E4 B4]; [done|lia..|].
    destruct (if parse_ssl_tlvs then decode_ssl_tlvs certificate_valid (dropZ 36 payload) else Ok None) as [ssl|] eqn:Hs; [|done].
    cbn [mbind result_bind]. intros [= <- <-]. split; [done|]. split; [done|].
    exists (mkSocketAddr (V6 (be_fold 0 (slice 16 32 payload))) (be_fold 0 (slice 34 36 payload))), (dropZ 36 payload).
    split_and!; [by split|done|done| |].
    + unfold v2_addresses. cbn [sa_ip sa_port octets]. rewrite E1, E2, E3, E4. rewrite !slices by lia. by rewrite Hall.
    + unfold v2_metadata. destruct parse_ssl_tlvs; [by exists ssl|done].
Qed.

Lemma read_v2_block stream parse_ssl_tlvs source metadata rest : Forall is_byte stream →
  read_v2_after_signature certificate_valid stream parse_ssl_tlvs = Ok (source, metadata, rest) →
  addr_wf source ∧ ∃ header destination tlvs, V2_SIGNATURE ++ stream = header ++ rest ∧ addr_wf destination
    ∧ v2_block source destination tlvs header ∧ v2_metadata parse_ssl_tlvs source destination tlvs metadata.
Proof.
  intros Hb. unfold read_v2_after_signature. destruct (read_exact _ stream) as [[tail k]|] eqn:Ht; [|done]. cbn [mbind result_bind].
  apply read_exact_parts in Ht as [-> Hlt]; [|done]. apply Forall_app in Hb as [Hbt Hbk].
  destruct tail as [|vc [|ft [|l0 [|l1 [|]]]]]; try done. apply Forall_cons in Hbt as [Hvc Hbt]. apply Forall_cons in Hbt as [Hft Hbt].
  pose proof (be_fold_bound _ 0 Hbt ltac:(lia)) as Hl. change (2 ^ (8 * len [l0; l1])) with 65536 in Hl.
  destruct (read_exact _ k) as [[payload k']|] eqn:Hp; [|done]. cbn [mbind result_bind]. apply read_exact_parts in Hp as [-> Hlp]; [|lia].
  apply Forall_app in Hbk as [Hbp _]. destruct (parse_v2_payload _ _ _ _ _) as [[a m]|] eqn:Hpv; [|done]. intros [= <- <- <-].
  apply parse_v2_block in Hpv as (-> & Ha & destination & tlvs & Hd & Hf & -> & -> & Hm); [|done..]. split; [done|].
  exists (V2_SIGNATURE ++ [0x21; v2_family a; l0; l1] ++ v2_addresses a destination ++ tlvs), destination, tlvs.
  split_and!; [by rewrite <- !app_assoc|done| |done]. split; [done|lia|]. rewrite Hlp.
  pose proof (be_bytes_be_fold [l0; l1] 0 Hbt ltac:(lia)) as Hback. cbn [length] in Hback. by rewrite Hback.
Qed.

(** ** The header of a connection *)

(** What a listener with this configuration takes for one header, the source
    it gives, and the assertions handed on.  The first twelve octets are read
    at once when both versions are expected and the assertions wanted, so a
    line end before the last of them is not seen. *)
Definition header_taken (config : ProxyProtocolConfig) (with_metadata : bool) (header : bytes) (source : SocketAddr)
    (metadata : option ProxyProtocolMetadata) : Prop :=
  let metadata_enabled := with_metadata && pp_tls_tlvs config in
  let at_once := match pp_version config with AnyVersion => metadata_enabled | _ => false end in
  (pp_version config ≠ V2 ∧ v1_text (if at_once then 11 else 0) source header
    ∧ metadata = if at_once then Some (mkMetadata V1 source None None) else None)
  ∨ (pp_version config ≠ V1 ∧ ∃ destination tlvs, addr_wf destination ∧ v2_block source destination tlvs header
    ∧ v2_metadata metadata_enabled source destination tlvs metadata).

(** C27 (safety). With the PROXY protocol enabled, a connection is accepted
    only from a trusted peer, after exactly one header of a version the
    listener is configured for, and what is left is the stream without it.
    The header is a line of six words that ends at the first line end (not
    looked for in its first eleven octets when those are read at once), or
    the signature, the octets for version, command, family and transport, a
    length, and a payload of just that length; the client is the well-formed
    address it states as its source, and the assertions handed on are those
    it carries.  Disabled, nothing is read and the peer is the client. *)
Theorem accept_takes_one_header config with_metadata available peer stream rest source metadata :
  Forall is_byte stream →
  accept_proxy_header certificate_valid config with_metadata available peer stream = Ok (rest, source, metadata) →
  if pp_enabled config
  then listens config peer ∧ addr_wf source ∧ ∃ header, stream = header ++ rest ∧ header_taken config with_metadata header source metadata
  else rest = stream ∧ source = peer ∧ metadata = None.
Proof.
  intros Hb. unfold accept_proxy_header, listens, header_taken. destruct (pp_enabled config); cbn [negb]; [|by intros [= <- <- <-]].
  destruct (trusted_parse (pp_trusted_sources config)) as [trusted|]; [|done]. cbn [map_err mbind result_bind].
  destruct (trusted_contains trusted (sa_ip peer)) eqn:Hc; [|done]. cbn [negb]. intros Hr. split; [eauto|]. revert Hr.
  assert (∀ a k, read_v1_with_prefix stream [] = Ok (a, k) → addr_wf a ∧ ∃ header, stream = header ++ k ∧ v1_text 0 a header) as Hv1.
  { intros a k (Ha & header & Heq & [])%read_v1_text. split; [done|]. exists header. by split. }
  assert (∀ flag a m k, read_v2 certificate_valid stream flag = Ok (a, m, k) → addr_wf a ∧ ∃ header, stream = header ++ k
    ∧ ∃ destination tlvs, addr_wf destination ∧ v2_block a destination tlvs header ∧ v2_metadata flag a destination tlvs m) as Hv2.
  { intros flag a m k. unfold read_v2. destruct (read_exact 12 stream) as [[sig k']|] eqn:Hs; [|done]. cbn [mbind result_bind].
    apply read_exact_parts in Hs as [-> Hls]; [|done]. apply Forall_app in Hb as [_ Hb']. case_bool_decide as Hsig; [|done]. subst sig.
    intros (Ha & header & destination & tlvs & ? & ? & ? & ?)%read_v2_block; [|done]. split; [done|]. exists header. split; [done|].
    by exists destination, tlvs. }
  destruct (pp_version config).
  - destruct (read_v1_with_prefix stream []) as [[a k]|] eqn:H1; [|done]. intros [= <- <- <-].
    destruct (Hv1 _ _ eq_refl) as (Ha & header & ? & ?). split; [done|]. exists header. split; [done|]. by left.
  - destruct (read_v2 _ stream _) as [[[a m] k]|] eqn:H2; [|done]. intros [= <- <- <-].
    destruct (Hv2 _ _ _ _ H2) as (Ha & header & ? & ?). split; [done|]. exists header. split; [done|]. by right.
  - destruct (with_metadata && _) eqn:Hm.
    + unfold read_any_with_metadata. destruct (read_exact 12 stream) as [[prefix k]|] eqn:Hp; [|done]. cbn [mbind result_bind].
      apply read_exact_parts in Hp as [-> Hlp]; [|done]. apply Forall_app in Hb as [_ Hb]. case_bool_decide as Hsig.
      * subst prefix. destruct (read_v2_after_signature _ k true) as [[[a m] k']|] eqn:H2; [|done]. intros [= <- <- <-].
        apply read_v2_block in H2 as (Ha & header & destination & tlvs & ? & ? & ? & ?); [|done]. split; [done|].
        exists header. split; [done|]. right. split; [done|]. by exists destination, tlvs.
      * destruct (read_v1_with_prefix k prefix) as [[a k']|] eqn:H1; [|done]. intros [= <- <- <-].
        apply read_v1_text in H1 as (Ha & header & ? & Ht). rewrite Hlp in Ht. split; [done|]. exists header. split; [done|]. by left.
    + case_bool_decide.
      * destruct (read_v2 _ stream false) as [[[a m] k]|] eqn:H2; [|done]. intros [= <- <- <-].
        destruct (Hv2 _ _ _ _ H2) as (Ha & header & ? & ?). split; [done|]. exists header. split; [done|]. by right.
      * destruct (read_v1_with_prefix stream []) as [[a k]|] eqn:H1; [|done]. intros [= <- <- <-].
        destruct (Hv1 _ _ eq_refl) as (Ha & header & ? & ?). split; [done|]. exists header. split; [done|]. by left.
Qed.
End spec.

(** ** Witnesses *)

Definition edge_config : ProxyProtocolConfig := mkProxyConfig true AnyVersion [ascii "10.0.0.0/8"] true.
Definition edge_peer : SocketAddr := mkSocketAddr (Net.V4 (10 * 2 ^ 24 + 1)) 40000.
Definition client_v4 : SocketAddr := mkSocketAddr (Net.V4 (203 * 2 ^ 24 + 113 * 2 ^ 8 + 10)) 45678.
Definition service_v4 : SocketAddr := mkSocketAddr (Net.V4 (192 * 2 ^ 24 + 2 * 2 ^ 8 + 10)) 443.

Definition assertion : ProxyProtocolSslMetadata :=
  mkSsl 7 0 (Some (ascii "TLSv1.3")) (Some (ascii "svc")) None None None None None (Some [48; 0]).

Definition evidence : ConnectionTlsEvidence :=
  mkEvidence (Some (mkMetadata V2 client_v4 (Some service_v4) (Some assertion))) None false.

Lemma edge_listens : listens edge_config edge_peer.
Proof. split; [done|]. eexists. split; [vm_compute; reflexivity|done]. Qed.

Lemma edge_addresses : addr_wf client_v4 ∧ addr_wf service_v4.
Proof. done. Qed.

Lemma v2_header_roundtrip_witness :
  accept_proxy_header (λ _, true) edge_config false 12 edge_peer (v2_header client_v4 service_v4 ++ ascii "GET") = Ok (ascii "GET", client_v4, None).
Proof.
  rewrite (v2_header_roundtrip (λ _, true) edge_config false 12 edge_peer client_v4 service_v4 (ascii "GET") edge_listens).
  - reflexivity.
  - right. reflexivity.
  - exact (proj1 edge_addresses).
  - exact (proj2 edge_addresses).
Defined.

Lemma v1_header_roundtrip_witness :
  accept_proxy_header (λ _, true) edge_config false 5 edge_peer (v1_header client_v4 service_v4 ++ ascii "GET") = Ok (ascii "GET", client_v4, None).
Proof.
  rewrite (v1_header_roundtrip (λ _, true) edge_config false 5 edge_peer client_v4 service_v4 (ascii "GET") edge_listens).
  - reflexivity.
  - discriminate.
  - exact (proj1 edge_addresses).
  - exact (proj2 edge_addresses).
Defined.

Lemma prepared_header_roundtrip_witness : ∃ header identity m destination ssl,
  prepare (mkTlsConfig LocalTls false) evidence client_v4 = Ok (header, identity)
  ∧ accept_proxy_header (λ _, true) edge_config true 0 edge_peer (header ++ [])
    = Ok ([], pm_source m, Some (mkMetadata V2 (pm_source m) (Some destination) (Some (forwarded ssl false)))).
Proof.
  destruct (prepare (mkTlsConfig LocalTls false) evidence client_v4) as [[header identity]|] eqn:Hp; [|discriminate Hp].
  destruct (prepared_header_roundtrip (λ _, true) (mkTlsConfig LocalTls false) evidence client_v4 header identity edge_config 0 edge_peer [] Hp)
    as (m & destination & ssl & _ & _ & _ & _ & Ha).
  - intros m [= <-]. split; [exact (proj1 edge_addresses)|]. split; [intros d [= <-]; exact (proj2 edge_addresses)|].
    intros ssl [= <-]. split; [done|done| |intros der [= <-]; reflexivity].
    repeat constructor; (discriminate || intros v [= <-]; reflexivity).
  - exact edge_listens.
  - left. reflexivity.
  - reflexivity.
  - exists header, identity, m, destination, ssl. split; [reflexivity|exact Ha].
Defined.

Lemma accept_takes_one_header_witness :
  listens edge_config edge_peer ∧ addr_wf client_v4
  ∧ ∃ header, v2_header client_v4 service_v4 ++ ascii "GET" = header ++ ascii "GET"
    ∧ header_taken (λ _, true) edge_config false header client_v4 None.
Proof.
  apply (accept_takes_one_header (λ _, true) edge_config false 12 edge_peer (v2_header client_v4 service_v4 ++ ascii "GET") (ascii "GET") client_v4 None).
  - apply (bool_decide_unpack _). vm_compute. exact I.
  - vm_compute. reflexivity.
Defined.
