(* ===== verification/RouteMatch.v ===== *)
(** * Route matchers

    [src/source/src/routes/matchers.rs], with the match part of the route
    configuration ([src/source/src/config/route.rs]): the conditions of a
    route beyond host and path prefix, compiled once and evaluated per
    request.

    The [regex], [url] and [http] crates are parameters, with what is relied
    on of their documentation: a pattern captures when it matches, a method
    keeps its octets and a header name is lower-cased.  Text is octets. *)

From S2P Require Import Prelude Bytes Text Net Identity.

(** [Regex::new], [is_match] and [captures]; [form_urlencoded::parse];
    [Method::from_bytes] and [HeaderName::from_bytes]. *)
Class MatchLib := {
  Regex : Type;
  regex_new : bytes → option Regex;
  is_match : Regex → bytes → bool;
  captures : Regex → bytes → option (list (option bytes));
  form_urlencoded_parse : bytes → list (bytes * bytes);
  method_from_bytes : bytes → option bytes;
  header_name_from_bytes : bytes → option bytes;
  captures_match r text : is_some (captures r text) = is_match r text;
  method_bytes b m : method_from_bytes b = Some m → m = b;
  header_name_bytes b n : header_name_from_bytes b = Some n → n = map to_ascii_lowercase b;
}.

(** ** Configuration *)

Record RouteValueMatchConfig : Type := mkValueMatch {
  vm_present : option bool;
  vm_exact : option bytes;
  vm_prefix : option bytes;
  vm_suffix : option bytes;
  vm_contains : option bytes;
  vm_regex : option bytes;
}.

Definition no_value_match : RouteValueMatchConfig := mkValueMatch None None None None None None.

Record RouteNamedValueMatchConfig : Type := mkNamedMatch {
  nm_name : bytes;
  nm_value : RouteValueMatchConfig;
}.

Record RoutePathMatchConfig : Type := mkPathMatch {
  pm_exact : option bytes;
  pm_prefix : option bytes;
  pm_regex : option bytes;
}.

Record RouteClientCertMatchConfig : Type := mkCertMatch {
  cm_present : option bool;
  cm_fingerprint_sha256 : RouteValueMatchConfig;
  cm_subject_cn : RouteValueMatchConfig;
  cm_san_dns : RouteValueMatchConfig;
  cm_san_ip : RouteValueMatchConfig;
}.

(** [RouteMatchConfig]; [terminal] is not read by the route table, and
    [tls] holds only the certificate conditions. *)
Record RouteMatchConfig : Type := mkMatchConfig {
  mc_methods : list bytes;
  mc_headers : list RouteNamedValueMatchConfig;
  mc_queries : list RouteNamedValueMatchConfig;
  mc_path : RoutePathMatchConfig;
  mc_source_cidrs : list bytes;
  mc_protocols : list bytes;
  mc_priority : Z;
  mc_client_cert : RouteClientCertMatchConfig;
}.

Definition default_match : RouteMatchConfig :=
  mkMatchConfig [] [] [] (mkPathMatch None None None) [] [] 0
    (mkCertMatch None no_value_match no_value_match no_value_match no_value_match).

Definition value_has_conditions (c : RouteValueMatchConfig) : bool :=
  is_some (vm_present c) || is_some (vm_exact c) || is_some (vm_prefix c) || is_some (vm_suffix c)
  || is_some (vm_contains c) || is_some (vm_regex c).

Definition cert_has_conditions (c : RouteClientCertMatchConfig) : bool :=
  is_some (cm_present c) || value_has_conditions (cm_fingerprint_sha256 c)
  || value_has_conditions (cm_subject_cn c) || value_has_conditions (cm_san_dns c)
  || value_has_conditions (cm_san_ip c).

Definition has_additional_conditions (c : RouteMatchConfig) : bool :=
  negb (is_empty (mc_methods c)) || negb (is_empty (mc_headers c)) || negb (is_empty (mc_queries c))
  || is_some (pm_exact (mc_path c)) || is_some (pm_regex (mc_path c))
  || negb (is_empty (mc_source_cidrs c)) || negb (is_empty (mc_protocols c))
  || cert_has_conditions (mc_client_cert c).

(** ** Requests *)

Inductive HttpVersion : Type := HTTP_0_9 | HTTP_1_0 | HTTP_1_1 | HTTP_2 | HTTP_3.
Inductive WafProtocol : Type := WafHttp | WafWebsocket | WafWebrtc | WafWebtransport.

Inductive RouteRequestProtocol : Type :=
  | Http1
  | Http2
  | Http3
  | Websocket
  | Webtransport.

#[export] Instance RouteRequestProtocol_eq_dec : EqDecision RouteRequestProtocol.
Proof. solve_decision. Defined.

(** [RouteRequestProtocol::from_http] *)
Definition from_http (version : HttpVersion) (protocol : WafProtocol) : RouteRequestProtocol :=
  match protocol with
  | WafWebsocket => Websocket
  | WafWebtransport => Webtransport
  | WafHttp | WafWebrtc =>
      match version with
      | HTTP_3 => Http3
      | HTTP_2 => Http2
      | _ => Http1
      end
  end.

Record WafClientCertificateMetadata : Type := mkCertificate {
  fingerprint_sha256 : bytes;
  subject_common_names : list bytes;
  san_dns_names : list bytes;
  san_ip_addresses : list bytes;
}.

(** [WafTlsMetadata], of which only the certificate is read. *)
Record WafTlsMetadata : Type := mkTls { client_certificate : option WafClientCertificateMetadata }.

Record RouteMatchContext `{HeaderLookup} : Type := mkContext {
  ctx_path : bytes;
  ctx_method : option bytes;
  ctx_headers : option Headers;
  ctx_query : option bytes;
  ctx_source_ip : option IpAddr;
  ctx_protocol : option RouteRequestProtocol;
  ctx_tls : option WafTlsMetadata;
}.

Arguments mkContext {_} _ _ _ _ _ _ _.

Definition path_only `{HeaderLookup} (path : bytes) : RouteMatchContext :=
  mkContext path None None None None None None.

(** ** Compiled matchers *)

Inductive CompiledRouteProtocol : Type :=
  | ProtoHttp
  | ProtoHttp1
  | ProtoHttp2
  | ProtoHttp3
  | ProtoWebsocket
  | ProtoWebtransport.

Inductive matcher_error : Type :=
  | InvalidMethod
  | InvalidHeaderName
  | NoValueMatcher
  | InvalidRegex
  | InvalidCidr (e : identity_error)
  | UnsupportedProtocol.

Record RouteMatcherResult : Type := mkMatcherResult { path_captures : list bytes }.
Definition no_captures : RouteMatcherResult := mkMatcherResult [].

Section matchers.
Context `{HeaderLookup} `{MatchLib}.

Inductive CompiledValueMatcher : Type :=
  | Present (present : bool)
  | Exact (expected : bytes)
  | Prefix (prefix : bytes)
  | Suffix (suffix : bytes)
  | Contains (needle : bytes)
  | MatchRegex (regex : Regex).

Record CompiledNamedValueMatcher : Type := mkNamed {
  nv_name : bytes;
  nv_header_name : option bytes;
  nv_value : CompiledValueMatcher;
}.

Record CompiledClientCertMatcher : Type := mkCert {
  cc_present : option bool;
  cc_fingerprint_sha256 : option CompiledValueMatcher;
  cc_subject_cn : option CompiledValueMatcher;
  cc_san_dns : option CompiledValueMatcher;
  cc_san_ip : option CompiledValueMatcher;
}.

Record CompiledRouteMatcher : Type := mkMatcher {
  valid : bool;
  prefix_only : bool;
  methods : list bytes;
  headers : list CompiledNamedValueMatcher;
  queries : list CompiledNamedValueMatcher;
  path_exact : option bytes;
  path_regex : option Regex;
  source_cidrs : list Cidr;
  protocols : list CompiledRouteProtocol;
  client_cert : CompiledClientCertMatcher;
  specificity : Z;
}.

(** *** Values *)

(** [CompiledValueMatcher::from_config]: the first condition set wins. *)
Definition value_from_config (config : RouteValueMatchConfig) : result matcher_error (option CompiledValueMatcher) :=
  match config with
  | mkValueMatch (Some present) _ _ _ _ _ => Ok (Some (Present present))
  | mkValueMatch None (Some exact) _ _ _ _ => Ok (Some (Exact exact))
  | mkValueMatch None None (Some prefix) _ _ _ => Ok (Some (Prefix prefix))
  | mkValueMatch None None None (Some suffix) _ _ => Ok (Some (Suffix suffix))
  | mkValueMatch None None None None (Some contains) _ => Ok (Some (Contains contains))
  | mkValueMatch None None None None None (Some regex) =>
      regex ← ok_or (regex_new regex) InvalidRegex;
      Ok (Some (MatchRegex regex))
  | mkValueMatch None None None None None None => Ok None
  end.

Definition matches_value (m : CompiledValueMatcher) (value : bytes) : bool :=
  match m with
  | Present _ => false
  | Exact expected => bool_decide (value = expected)
  | Prefix prefix => starts_with prefix value
  | Suffix suffix => ends_with suffix value
  | Contains needle => contains_str needle value
  | MatchRegex regex => is_match regex value
  end.

Definition matches_result (m : CompiledValueMatcher) (saw_value matched : bool) : bool :=
  match m with
  | Present true => saw_value
  | Present false => negb saw_value
  | _ => saw_value && matched
  end.

Definition raw_presence_match (m : CompiledValueMatcher) : option bool :=
  match m with
  | Present present => Some present
  | _ => None
  end.

(** The loop of [CompiledValueMatcher::matches]. *)
Definition see_value (m : CompiledValueMatcher) (seen : bool * bool) (value : bytes) : bool * bool :=
  (true, seen.2 || matches_value m value).
Definition value_matches (m : CompiledValueMatcher) (values : list bytes) : bool :=
  let '(saw_value, matched) := foldl (see_value m) (false, false) values in
  matches_result m saw_value matched.

(** *** Headers and queries *)

Definition matches_header (m : CompiledNamedValueMatcher) (hs : Headers) : bool :=
  match nv_header_name m with
  | None => false
  | Some name =>
      match raw_presence_match (nv_value m) with
      | Some present => Bool.eqb (negb (is_empty (values_of name hs))) present
      | None => value_matches (nv_value m) (omap to_str (values_of name hs))
      end
  end.

(** The loop of [matches_query]: pairs of another name are skipped. *)
Definition see_pair (m : CompiledNamedValueMatcher) (seen : bool * bool) (pair : bytes * bytes) : bool * bool :=
  if negb (bool_decide (pair.1 = nv_name m)) then seen
  else (true, seen.2 || matches_value (nv_value m) pair.2).
Definition matches_query (m : CompiledNamedValueMatcher) (query : bytes) : bool :=
  let '(saw_value, matched) := foldl (see_pair m) (false, false) (form_urlencoded_parse query) in
  matches_result (nv_value m) saw_value matched.

Definition compile_named_value_matcher (m : RouteNamedValueMatchConfig) (header_name : bool) :
  result matcher_error CompiledNamedValueMatcher :=
  name ← (if header_name
          then name ← ok_or (header_name_from_bytes (nm_name m)) InvalidHeaderName; Ok (Some name)
          else Ok None);
  value ← value_from_config (nm_value m);
  value ← ok_or value NoValueMatcher;
  Ok (mkNamed (nm_name m) name value).

(** *** Protocols *)

(** [CompiledRouteProtocol::matches] *)
Definition protocol_matches (p : CompiledRouteProtocol) (protocol : RouteRequestProtocol) : bool :=
  match p with
  | ProtoHttp => match protocol with Http1 | Http2 | Http3 => true | _ => false end
  | ProtoHttp1 => bool_decide (protocol = Http1)
  | ProtoHttp2 => bool_decide (protocol = Http2)
  | ProtoHttp3 => bool_decide (protocol = Http3)
  | ProtoWebsocket => bool_decide (protocol = Websocket)
  | ProtoWebtransport => bool_decide (protocol = Webtransport)
  end.

Definition compile_protocol (protocol : bytes) : result matcher_error CompiledRouteProtocol :=
  if bool_decide (protocol = ascii "http") then Ok ProtoHttp
  else if bool_decide (protocol = ascii "http1") then Ok ProtoHttp1
  else if bool_decide (protocol = ascii "http2") then Ok ProtoHttp2
  else if bool_decide (protocol = ascii "http3") then Ok ProtoHttp3
  else if bool_decide (protocol = ascii "websocket") then Ok ProtoWebsocket
  else if bool_decide (protocol = ascii "webtransport") then Ok ProtoWebtransport
  else Err UnsupportedProtocol.

(** *** Client certificates *)

Definition cert_is_empty (m : CompiledClientCertMatcher) : bool :=
  negb (is_some (cc_present m)) && negb (is_some (cc_fingerprint_sha256 m))
  && negb (is_some (cc_subject_cn m)) && negb (is_some (cc_san_dns m)) && negb (is_some (cc_san_ip m)).

Definition cert_specificity (m : CompiledClientCertMatcher) : Z :=
  Z.b2z (is_some (cc_present m)) + Z.b2z (is_some (cc_fingerprint_sha256 m)) * 3
  + Z.b2z (is_some (cc_subject_cn m)) * 2 + Z.b2z (is_some (cc_san_dns m)) * 2
  + Z.b2z (is_some (cc_san_ip m)) * 2.

(** A condition that is not set holds. *)
Definition cert_condition (m : option CompiledValueMatcher) (values : list bytes) : bool :=
  match m with
  | Some m => value_matches m values
  | None => true
  end.

Definition cert_matches (m : CompiledClientCertMatcher) (tls : option WafTlsMetadata)
  (protocol : option RouteRequestProtocol) : bool :=
  if cert_specificity m =? 0 then true
  else
    let cert := tls ≫= client_certificate in
    if negb (is_some cert) && match protocol with Some (Http3 | Webtransport) => true | _ => false end then false
    else if match cc_present m with Some present => negb (Bool.eqb (is_some cert) present) | None => false end then false
    else
      match cert with
      | None => bool_decide (cc_present m = Some false) && (cert_specificity m =? 1)
      | Some cert =>
          cert_condition (cc_fingerprint_sha256 m) [fingerprint_sha256 cert]
          && cert_condition (cc_subject_cn m) (subject_common_names cert)
          && cert_condition (cc_san_dns m) (san_dns_names cert)
          && cert_condition (cc_san_ip m) (san_ip_addresses cert)
      end.

Definition compile_client_cert_matcher (config : RouteClientCertMatchConfig) :
  result matcher_error CompiledClientCertMatcher :=
  fingerprint ← value_from_config (cm_fingerprint_sha256 config);
  subject_cn ← value_from_config (cm_subject_cn config);
  san_dns ← value_from_config (cm_san_dns config);
  san_ip ← value_from_config (cm_san_ip config);
  Ok (mkCert (cm_present config) fingerprint subject_cn san_dns san_ip).

(** *** The route's matcher *)

(** [iter().map(f).collect::<Result<Vec<_>>>()] *)
Fixpoint collect {A B} (f : A → result matcher_error B) (l : list A) : result matcher_error (list B) :=
  match l with
  | [] => Ok []
  | x :: l =>
      y ← f x;
      ys ← collect f l;
      Ok (y :: ys)
  end.

(** [CompiledRouteMatcher::from_route] *)
Definition from_route (config : RouteMatchConfig) : result matcher_error CompiledRouteMatcher :=
  methods ← collect (λ m, ok_or (method_from_bytes m) InvalidMethod) (mc_methods config);
  headers ← collect (λ m, compile_named_value_matcher m true) (mc_headers config);
  queries ← collect (λ m, compile_named_value_matcher m false) (mc_queries config);
  path_regex ← match pm_regex (mc_path config) with
               | Some regex => regex ← ok_or (regex_new regex) InvalidRegex; Ok (Some regex)
               | None => Ok None
               end;
  source_cidrs ← collect (λ c, map_err InvalidCidr (cidr_parse c)) (mc_source_cidrs config);
  protocols ← collect compile_protocol (mc_protocols config);
  client_cert ← compile_client_cert_matcher (mc_client_cert config);
  let specificity :=
    len methods + len headers * 2 + len queries * 2
    + Z.b2z (is_some (pm_exact (mc_path config))) * 4 + Z.b2z (is_some (pm_regex (mc_path config))) * 3
    + len source_cidrs + len protocols + cert_specificity client_cert in
  let prefix_only :=
    is_empty methods && is_empty headers && is_empty queries
    && negb (is_some (pm_exact (mc_path config))) && negb (is_some (pm_regex (mc_path config)))
    && is_empty source_cidrs && is_empty protocols && cert_is_empty client_cert in
  Ok (mkMatcher true prefix_only methods headers queries (pm_exact (mc_path config)) path_regex
        source_cidrs protocols client_cert specificity).

Definition never : CompiledRouteMatcher :=
  mkMatcher false false [] [] [] None None [] [] (mkCert None None None None None) 0.

(** The captured texts, empty for a group that took no part. *)
Definition regex_captures (regex : option Regex) (path : bytes) : option (list bytes) :=
  match regex with
  | None => Some []
  | Some regex => map (default []) <$> captures regex path
  end.

Definition match_request (m : CompiledRouteMatcher) (ctx : RouteMatchContext) : option RouteMatcherResult :=
  if negb (valid m) then None
  else if prefix_only m then Some no_captures
  else if negb (is_empty (methods m))
          && negb (match ctx_method ctx with
                   | Some method => existsb (λ c, bool_decide (c = method)) (methods m)
                   | None => false
                   end) then None
  else if negb (is_empty (headers m))
          && negb (match ctx_headers ctx with
                   | Some hs => forallb (λ h, matches_header h hs) (headers m)
                   | None => false
                   end) then None
  else if negb (is_empty (queries m))
          && negb (forallb (λ q, matches_query q (default [] (ctx_query ctx))) (queries m)) then None
  else if match path_exact m with Some exact => negb (bool_decide (ctx_path ctx = exact)) | None => false end then None
  else if negb (is_empty (source_cidrs m))
          && negb (match ctx_source_ip ctx with
                   | Some ip => existsb (λ c, cidr_contains c ip) (source_cidrs m)
                   | None => false
                   end) then None
  else if negb (is_empty (protocols m))
          && negb (match ctx_protocol ctx with
                   | Some protocol => existsb (λ p, protocol_matches p protocol) (protocols m)
                   | None => false
                   end) then None
  else if negb (cert_matches (client_cert m) (ctx_tls ctx) (ctx_protocol ctx)) then None
  else
    path_captures ← regex_captures (path_regex m) (ctx_path ctx);
    Some (mkMatcherResult path_captures).

Definition is_prefix_only (m : CompiledRouteMatcher) : bool := valid m && prefix_only m.
End matchers.
