(* ===== verification/RouteTable.v ===== *)
(** * The route table

    [src/source/src/routes.rs]: the index from hosts to routes (exact hosts,
    a trie of wildcard suffixes, catch-all routes), the choice of the best
    route for a request, the shortcut for hosts whose routes have only path
    prefixes, and the reuse of bandwidth limiters across reloads.

    A limiter is shared by reference ([Arc]): entries hold its handle, and the
    limiters' states are a separate store.  The execution plan of a route is
    computed by [RoutePlan] and only carried here.  A [HashMap] is a [gmap]. *)

From stdpp Require Import countable gmap functions.
From S2P Require Import Prelude Bytes Text Bandwidth Net Identity RouteMatch.

(** ** Configuration *)

Record RouteBandwidthConfig : Type := mkRouteBandwidth {
  upload_bytes_per_second : option Z;
  download_bytes_per_second : option Z;
}.

Record RouteHeaderModifierConfig : Type := mkModifier {
  hm_set : list (bytes * bytes);
  hm_add : list (bytes * bytes);
  hm_remove : list bytes;
}.

(** [RouteActionsConfig]; of the actions only whether they are set is read. *)
Record RouteActionsConfig : Type := mkActions {
  ac_direct_response : bool;
  ac_rewrite : bool;
  ac_redirect : bool;
  ac_request_headers : RouteHeaderModifierConfig;
  ac_response_headers : RouteHeaderModifierConfig;
  ac_cors : bool;
  ac_request_mirrors : bool;
}.

Inductive BufferingMode : Type := Streaming | Memory | Spool | RejectIfTooLarge.

#[export] Instance BufferingMode_eq_dec : EqDecision BufferingMode.
Proof. solve_decision. Defined.

Inductive RouteWafHttpBodyCompressionMode : Type := RouteInherit | RouteOff | RouteTransform.

(** [RouteConfig], the fields the route table and the execution plan read. *)
Record RouteConfig : Type := mkRoute {
  rc_name : bytes;
  rc_hosts : list bytes;
  rc_path_prefix : bytes;
  rc_match : RouteMatchConfig;
  rc_actions : RouteActionsConfig;
  rc_upstream : option bytes;
  rc_upstream_pool : option bytes;
  rc_static_root : option bytes;
  rc_generic_http_upgrade : bool;
  rc_connect_tunneling : bool;
  rc_grpc_web : bool;
  rc_external_auth : option bytes;
  rc_resumable_upload : option bytes;
  rc_ipm_enabled : bool;
  rc_cache : option bytes;
  rc_compression : option bytes;
  rc_compression_dictionary_profile : option bytes;
  rc_dictionary : option bytes;
  rc_buffering_request : option BufferingMode;
  rc_buffering_response : option BufferingMode;
  rc_bandwidth : RouteBandwidthConfig;
  rc_waf_body_compression : RouteWafHttpBodyCompressionMode;
}.

#[export] Instance RouteConfig_eta : Eta RouteConfig := λ r,
  mkRoute (rc_name r) (rc_hosts r) (rc_path_prefix r) (rc_match r) (rc_actions r) (rc_upstream r)
    (rc_upstream_pool r) (rc_static_root r) (rc_generic_http_upgrade r) (rc_connect_tunneling r)
    (rc_grpc_web r) (rc_external_auth r) (rc_resumable_upload r) (rc_ipm_enabled r) (rc_cache r)
    (rc_compression r) (rc_compression_dictionary_profile r) (rc_dictionary r) (rc_buffering_request r)
    (rc_buffering_response r) (rc_bandwidth r) (rc_waf_body_compression r).

Definition effective_path_prefix (r : RouteConfig) : bytes :=
  default (rc_path_prefix r) (pm_prefix (mc_path (rc_match r))).

(** [UpstreamConfig], of which the name is read. *)
Record UpstreamConfig : Type := mkUpstream { up_name : bytes }.

(** ** Hosts and paths *)

Definition is_ascii_uppercase (b : Z) : bool := in_range 65 90 b.

(** [ascii_lower_cow]: a string without upper case is borrowed as it is. *)
Definition ascii_lower (value : bytes) : bytes :=
  if existsb is_ascii_uppercase value then map to_ascii_lowercase value else value.

(** [normalize_host] *)
Definition normalize_host (raw : bytes) : bytes :=
  let trimmed := trim_end_matches 46 (trim raw) in
  match (if starts_with [91] trimmed then first_index (Z.eqb 93) trimmed else None) with
  | Some end_ => ascii_lower (takeZ (end_ - 1) (dropZ 1 trimmed))
  | None =>
      match rsplit_once 58 trimmed with
      | Some (host, port) =>
          if negb (contains_char 58 host) && negb (is_empty port) && forallb is_ascii_digit port
          then ascii_lower host
          else ascii_lower trimmed
      | None => ascii_lower trimmed
      end
  end.

Definition origin_form_target_path (target : bytes) : option bytes :=
  if negb (starts_with [47] target) || starts_with [47; 47] target || contains_str (ascii "://") target then None
  else Some (match split_once 63 target with Some (path, _) => path | None => target end).

Definition path_prefix_matches (prefix path : bytes) : bool :=
  if bool_decide (prefix = [47]) then true
  else if bool_decide (path = prefix) then true
  else
    match strip_prefix prefix path with
    | Some rest => starts_with [47] rest
    | None => false
    end.

(** ** The wildcard trie *)

Record WildcardHostEntry : Type := mkWildcard {
  suffix_len : Z;
  w_route_index : nat;
}.

#[local] Unset Elimination Schemes.

Inductive WildcardHostTrieNode : Type :=
  mkNode (node_routes : list WildcardHostEntry) (children : gmap bytes WildcardHostTrieNode).

#[local] Set Elimination Schemes.

Definition node_routes (n : WildcardHostTrieNode) : list WildcardHostEntry := let 'mkNode routes _ := n in routes.
Definition children (n : WildcardHostTrieNode) : gmap bytes WildcardHostTrieNode := let 'mkNode _ children := n in children.
Definition empty_node : WildcardHostTrieNode := mkNode [] ∅.

(** The walk of [insert] down the labels, last label first. *)
Fixpoint trie_insert_at (labels : list bytes) (e : WildcardHostEntry) (n : WildcardHostTrieNode) : WildcardHostTrieNode :=
  match labels with
  | [] => mkNode (node_routes n ++ [e]) (children n)
  | label :: labels =>
      let child := default empty_node (children n !! label) in
      mkNode (node_routes n) (<[label := trie_insert_at labels e child]> (children n))
  end.

(** [str.rsplit('.')] *)
Definition rlabels (host : bytes) : list bytes := reverse (split_on 46 host).

Definition trie_insert (suffix : bytes) (route_index : nat) (root : WildcardHostTrieNode) : WildcardHostTrieNode :=
  trie_insert_at (rlabels suffix) (mkWildcard (len suffix) route_index) root.

(** The walk of [for_each_match]: the entries it visits, in order. *)
Fixpoint trie_walk (n : WildcardHostTrieNode) (depth host_label_count : Z) (labels : list bytes) : list WildcardHostEntry :=
  match labels with
  | [] => []
  | label :: labels =>
      match children n !! label with
      | None => []
      | Some child =>
          (if depth + 1 <? host_label_count then node_routes child else [])
          ++ trie_walk child (depth + 1) host_label_count labels
      end
  end.

Definition trie_matches (root : WildcardHostTrieNode) (host : bytes) : list WildcardHostEntry :=
  if existsb is_empty (split_on 46 host) then []
  else trie_walk root 0 (len (split_on 46 host)) (rlabels host).

Definition trie_is_empty (root : WildcardHostTrieNode) : bool :=
  is_empty (node_routes root) && bool_decide (children root = ∅).

(** ** Bandwidth policies *)

(** A rate of zero, which validation refuses, becomes the smallest rate. *)
Definition bandwidth_rate (value : option Z) : BandwidthRate :=
  match value with
  | None => Unlimited
  | Some value => BytesPerSecond (if value =? 0 then 1 else value)
  end.

Definition route_bandwidth_policy (r : RouteConfig) : BandwidthPolicy :=
  mkPolicy (bandwidth_rate (upload_bytes_per_second (rc_bandwidth r)))
    (bandwidth_rate (download_bytes_per_second (rc_bandwidth r))).

(** ** Matches *)

Record RouteMatch : Type := mkRouteMatch {
  route_index : nat;
  match_result : RouteMatcherResult;
  priority : Z;
  host_score : Z;
  path_len : Z;
  matcher_specificity : Z;
}.

Definition is_better_than (self current : RouteMatch) : bool :=
  (priority current <? priority self)
  || ((priority self =? priority current) && (host_score current <? host_score self))
  || ((priority self =? priority current) && (host_score self =? host_score current)
      && (path_len current <? path_len self))
  || ((priority self =? priority current) && (host_score self =? host_score current)
      && (path_len self =? path_len current) && (matcher_specificity current <? matcher_specificity self))
  || ((priority self =? priority current) && (host_score self =? host_score current)
      && (path_len self =? path_len current) && (matcher_specificity self =? matcher_specificity current)
      && (route_index self <? route_index current)%nat).

(** The update of the best match so far. *)
Definition improve (best : option RouteMatch) (candidate : RouteMatch) : option RouteMatch :=
  match best with
  | None => Some candidate
  | Some current => if is_better_than candidate current then Some candidate else best
  end.

Section table.
Context `{HeaderLookup} `{MatchLib} {Plan : Type}.

Record RouteEntry : Type := mkEntry {
  e_route : RouteConfig;
  e_matcher : CompiledRouteMatcher;
  e_execution_plan : Plan;
  e_upstream_index : option nat;
  e_bandwidth : Z;
  e_staged_bandwidth_policy : BandwidthPolicy;
}.

Record RouteTable : Type := mkTable {
  routes : list RouteEntry;
  exact_hosts : gmap bytes (list nat);
  simple_exact_hosts : gmap bytes (list nat);
  wildcard_hosts : WildcardHostTrieNode;
  catch_all_hosts : list nat;
  static_sendfile_prefixes : list bytes;
}.

Definition empty_table : RouteTable := mkTable [] ∅ ∅ empty_node [] [].

(** ** Building *)

(** The arm of the loop over a route's hosts. *)
Definition push_host (route_index : nat) (t : RouteTable) (raw : bytes) : RouteTable :=
  let pattern := normalize_host raw in
  if bool_decide (pattern = ascii "*") then
    mkTable (routes t) (exact_hosts t) (simple_exact_hosts t) (wildcard_hosts t)
      (catch_all_hosts t ++ [route_index]) (static_sendfile_prefixes t)
  else
    match strip_prefix (ascii "*.") pattern with
    | Some suffix =>
        mkTable (routes t) (exact_hosts t) (simple_exact_hosts t)
          (trie_insert suffix route_index (wildcard_hosts t)) (catch_all_hosts t) (static_sendfile_prefixes t)
    | None =>
        mkTable (routes t)
          (<[pattern := default [] (exact_hosts t !! pattern) ++ [route_index]]> (exact_hosts t))
          (simple_exact_hosts t) (wildcard_hosts t) (catch_all_hosts t) (static_sendfile_prefixes t)
    end.

Definition compression_off (r : RouteConfig) : bool :=
  match rc_compression r with
  | None => true
  | Some value => bool_decide (value = ascii "off")
  end.

Definition compiled_matcher (r : RouteConfig) : CompiledRouteMatcher :=
  match from_route (rc_match r) with
  | Ok matcher => matcher
  | Err _ => never
  end.

Definition push_route (t : RouteTable) (r : RouteConfig) (plan : Plan) (upstream_index : option nat)
  (bandwidth : Z) (staged : BandwidthPolicy) : RouteTable :=
  let route_index := length (routes t) in
  let t := foldl (push_host route_index) t (rc_hosts r) in
  let prefixes :=
    if is_some (rc_static_root r) && compression_off r
    then static_sendfile_prefixes t ++ [effective_path_prefix r]
    else static_sendfile_prefixes t in
  mkTable (routes t ++ [mkEntry r (compiled_matcher r) plan upstream_index bandwidth staged])
    (exact_hosts t) (simple_exact_hosts t) (wildcard_hosts t) (catch_all_hosts t) prefixes.

(** Whether every route of a host has no condition but its path prefix;
    indexing past the routes would panic. *)
Definition all_prefix_only (entries : list RouteEntry) (indices : list nat) : bool :=
  forallb (λ i, match entries !! i with Some e => is_prefix_only (e_matcher e) | None => false end) indices.

Definition rebuild_simple_exact_hosts (t : RouteTable) : RouteTable :=
  mkTable (routes t) (exact_hosts t)
    (if negb (trie_is_empty (wildcard_hosts t)) || negb (is_empty (catch_all_hosts t)) then ∅
     else filter (λ host_indices, all_prefix_only (routes t) host_indices.2 = true) (exact_hosts t))
    (wildcard_hosts t) (catch_all_hosts t) (static_sendfile_prefixes t).

(** The map from upstream names to indices: a later upstream of a name
    replaces an earlier one. *)
Definition upstream_indices (upstreams : list UpstreamConfig) : gmap bytes nat :=
  foldl (λ m iu, <[up_name iu.2 := iu.1]> m) ∅ (imap pair upstreams).

Definition bandwidth_for_route_name (t : RouteTable) (route_name : bytes) : option Z :=
  e_bandwidth <$> List.find (λ e, bool_decide (rc_name (e_route e) = route_name)) (routes t).

(** The limiters that exist, by handle, and the instant that is read while a
    table is built or activated. *)
Record Limiters : Type := mkLimiters {
  limiters_by_handle : gmap Z LimiterState;
  next_handle : Z;
  clock : Z;
}.

#[export] Instance Limiters_eta : Eta Limiters := λ l, mkLimiters (limiters_by_handle l) (next_handle l) (clock l).

(** One iteration of [new_with_waf_plan]. *)
Definition add_route (plan_for : RouteConfig → Plan) (indices : gmap bytes nat) (previous : option RouteTable)
  (s : RouteTable * Limiters) (r : RouteConfig) : RouteTable * Limiters :=
  let '(t, limiters) := s in
  let staged := route_bandwidth_policy r in
  let '(bandwidth, limiters) :=
    match previous ≫= λ p, bandwidth_for_route_name p (rc_name r) with
    | Some handle => (handle, limiters)
    | None => (next_handle limiters,
               limiters <| limiters_by_handle ::= <[next_handle limiters := limiter_new staged (clock limiters)]> |>
                 <| next_handle ::= Z.succ |>)
    end in
  (push_route t r (plan_for r) (rc_upstream r ≫= λ name, indices !! name) bandwidth staged, limiters).

Definition new_with_waf_plan (plan_for : RouteConfig → Plan) (upstreams : list UpstreamConfig)
  (configs : list RouteConfig) (previous : option RouteTable) (limiters : Limiters) : RouteTable * Limiters :=
  let '(t, limiters) :=
    foldl (add_route plan_for (upstream_indices upstreams) previous) (empty_table, limiters) configs in
  (rebuild_simple_exact_hosts t, limiters).

(** The limiter of an entry takes the staged policy. *)
Definition activate_entry (now : Z) (m : gmap Z LimiterState) (e : RouteEntry) : gmap Z LimiterState :=
  alter (λ s, update s (e_staged_bandwidth_policy e) now) (e_bandwidth e) m.

Definition activate_bandwidth (t : RouteTable) (limiters : Limiters) : Limiters :=
  limiters <| limiters_by_handle ::= λ m, foldl (activate_entry (clock limiters)) m (routes t) |>.

(** ** Resolving *)

Record ResolvedRoute : Type := mkResolved {
  rr_route_index : nat;
  rr_route : RouteConfig;
  rr_upstream : option UpstreamConfig;
  rr_upstream_index : option nat;
  rr_execution_plan : Plan;
  rr_bandwidth : Z;
  rr_path_captures : list bytes;
}.

Definition candidate_of (e : RouteEntry) (route_index : nat) (host_score : Z) (r : RouteMatcherResult)
  (specificity : Z) : RouteMatch :=
  mkRouteMatch route_index r (mc_priority (rc_match (e_route e))) host_score
    (len (effective_path_prefix (e_route e))) specificity.

Definition consider_route (t : RouteTable) (ctx : RouteMatchContext) (best : option RouteMatch)
  (index_score : nat * Z) : option RouteMatch :=
  let '(route_index, host_score) := index_score in
  match routes t !! route_index with
  | None => best
  | Some e =>
      if negb (path_prefix_matches (effective_path_prefix (e_route e)) (ctx_path ctx)) then best
      else
        match match_request (e_matcher e) ctx with
        | None => best
        | Some r => improve best (candidate_of e route_index host_score r (specificity (e_matcher e)))
        end
  end.

(** The first upstream of a name, with its index. *)
Fixpoint find_upstream (i : nat) (name : bytes) (upstreams : list UpstreamConfig) : option (nat * UpstreamConfig) :=
  match upstreams with
  | [] => None
  | u :: upstreams => if bool_decide (up_name u = name) then Some (i, u) else find_upstream (S i) name upstreams
  end.

Definition unzip_upstream (found : option (nat * UpstreamConfig)) : option nat * option UpstreamConfig :=
  (fst <$> found, snd <$> found).

Definition resolve_upstream (e : RouteEntry) (upstreams : list UpstreamConfig) : option nat * option UpstreamConfig :=
  match e_upstream_index e, rc_upstream (e_route e) with
  | Some index, Some name =>
      match filter_opt (λ u, bool_decide (up_name u = name)) (upstreams !! index) with
      | Some u => (Some index, Some u)
      | None => unzip_upstream (find_upstream 0 name upstreams)
      end
  | Some index, None => ((λ _, index) <$> upstreams !! index, upstreams !! index)
  | None, Some name => unzip_upstream (find_upstream 0 name upstreams)
  | None, None => (None, None)
  end.

(** [resolve_match]; indexing past the routes would panic. *)
Definition resolve_match (t : RouteTable) (m : RouteMatch) (upstreams : list UpstreamConfig) : option ResolvedRoute :=
  e ← routes t !! route_index m;
  let '(upstream_index, upstream) := resolve_upstream e upstreams in
  Some (mkResolved (route_index m) (e_route e) upstream upstream_index (e_execution_plan e) (e_bandwidth e)
          (path_captures (match_result m))).

(** The three loops of [resolve_normalized_host_with_context]. *)
Definition best_match (t : RouteTable) (normalized_host : bytes) (ctx : RouteMatchContext) : option RouteMatch :=
  let best :=
    match exact_hosts t !! normalized_host with
    | Some indices => foldl (consider_route t ctx) None (map (λ i, (i, 10000 + len normalized_host)) indices)
    | None => None
    end in
  let best :=
    foldl (consider_route t ctx) best
      (map (λ w, (w_route_index w, 1000 + suffix_len w)) (trie_matches (wildcard_hosts t) normalized_host)) in
  foldl (consider_route t ctx) best (map (λ i, (i, 1)) (catch_all_hosts t)).

Definition resolve_normalized_host_with_context (t : RouteTable) (normalized_host : bytes) (ctx : RouteMatchContext)
  (upstreams : list UpstreamConfig) : option ResolvedRoute :=
  best ← best_match t normalized_host ctx;
  resolve_match t best upstreams.

Definition resolve_normalized_host (t : RouteTable) (normalized_host path : bytes) (upstreams : list UpstreamConfig) :
  option ResolvedRoute :=
  resolve_normalized_host_with_context t normalized_host (path_only path) upstreams.

Definition resolve (t : RouteTable) (host path : bytes) (upstreams : list UpstreamConfig) : option ResolvedRoute :=
  resolve_normalized_host t (normalize_host host) path upstreams.

(** The loop of [try_resolve_simple_exact_host]; the outer [None] is the
    early return for an index past the routes. *)
Fixpoint simple_best (t : RouteTable) (host_score : Z) (path : bytes) (best : option RouteMatch) (indices : list nat) :
  option (option RouteMatch) :=
  match indices with
  | [] => Some best
  | route_index :: indices =>
      e ← routes t !! route_index;
      if negb (path_prefix_matches (effective_path_prefix (e_route e)) path)
      then simple_best t host_score path best indices
      else simple_best t host_score path (improve best (candidate_of e route_index host_score no_captures 0)) indices
  end.

Definition try_resolve_simple_exact_host (t : RouteTable) (normalized_host path : bytes)
  (upstreams : list UpstreamConfig) : option ResolvedRoute :=
  indices ← simple_exact_hosts t !! normalized_host;
  best ← simple_best t (10000 + len normalized_host) path None indices;
  best ← best;
  resolve_match t best upstreams.

Definition has_static_sendfile_candidates (t : RouteTable) : bool := negb (is_empty (static_sendfile_prefixes t)).

Definition static_sendfile_target_can_match (t : RouteTable) (target : bytes) : bool :=
  match origin_form_target_path target with
  | None => true
  | Some path => existsb (λ prefix, path_prefix_matches prefix path) (static_sendfile_prefixes t)
  end.
End table.

Arguments RouteEntry {_} _.
Arguments RouteTable {_} _.
Arguments ResolvedRoute : clear implicits.
