(* ===== verification/RouteConflicts.v ===== *)
(** * Conflicting routes

    [src/source/src/config/route/conflicts.rs] and the value validation of
    [src/source/src/config/route.rs]: a configuration in which two routes of
    equal precedence could match one request is refused, by an
    over-approximation of the requests a route matches. *)

From S2P Require Import Prelude Bytes Text Net Identity RouteMatch RouteTable.

Inductive conflict_error : Type :=
  | EqualPrecedence (left right : bytes)
  | ConflictRegex
  | ConflictCidr (e : identity_error).

Inductive path_error : Type :=
  | NotRooted
  | ForbiddenOctet
  | DotSegment
  | EncodedSeparator.

Inductive value_error : Type :=
  | WrongConditionCount
  | EmptyRegex
  | BadRegex.

Inductive host_error : Type :=
  | PaddedHost
  | ControlInHost
  | NotLeftmostWildcard
  | NotDnsPattern
  | InvalidHostOctet.

Inductive route_error : Type :=
  | BadHost (e : host_error)
  | BadPath (e : path_error)
  | BadValue (e : value_error)
  | BadCidr (e : identity_error)
  | Duplicate (value : bytes)
  | PrefixMismatch
  | BadMethod
  | PaddedName
  | BadHeaderName
  | ControlInQueryName
  | BadProtocol.

(** ** Validation of one route *)

Definition is_ascii_control (b : Z) : bool := in_range 0 31 b || (b =? 127).

(** [validate_route_path_value] *)
Definition validate_route_path_value (value : bytes) : result path_error unit :=
  if negb (starts_with [47] value) then Err NotRooted
  else if existsb (λ b, is_ascii_control b || (b =? 92) || (b =? 63) || (b =? 35)) value then Err ForbiddenOctet
  else if existsb (λ segment, bool_decide (segment = ascii ".") || bool_decide (segment = ascii "..")) (split_on 47 value)
  then Err DotSegment
  else
    let lower := map to_ascii_lowercase value in
    if contains_str (ascii "%2e") lower || contains_str (ascii "%2f") lower || contains_str (ascii "%5c") lower
    then Err EncodedSeparator
    else Ok tt.

Definition is_ascii_alphanumeric (b : Z) : bool := in_range 48 57 b || in_range 65 90 b || in_range 97 122 b.

(** [value.trim() != value || value.is_empty()] *)
Definition padded_or_empty (value : bytes) : bool := negb (bool_decide (trim value = value)) || is_empty value.

(** A host that may be an address literal: without its brackets. *)
Definition ip_literal (normalized : bytes) : option bytes :=
  if starts_with [91] normalized then
    match first_index (Z.eqb 93) normalized with
    | Some end_ => if end_ =? len normalized - 1 then Some (takeZ (end_ - 1) (dropZ 1 normalized)) else None
    | None => None
    end
  else Some normalized.

(** A DNS name or a wildcard followed by one. *)
Definition check_dns_pattern (normalized : bytes) : result host_error bytes :=
  let dns_pattern := default normalized (strip_prefix (ascii "*.") normalized) in
  if is_empty dns_pattern || contains_char 42 dns_pattern then Err NotLeftmostWildcard
  else if existsb (λ label, is_empty label || starts_with [45] label || ends_with [45] label) (split_on 46 dns_pattern)
  then Err NotDnsPattern
  else if negb (forallb (λ b, is_ascii_alphanumeric b || (b =? 46) || (b =? 45)) dns_pattern) then Err InvalidHostOctet
  else Ok normalized.

Definition validate_route_host_pattern (host : bytes) : result host_error bytes :=
  if padded_or_empty host then Err PaddedHost
  else if existsb is_ascii_control host then Err ControlInHost
  else
    let normalized := map to_ascii_lowercase (trim_end_matches 46 host) in
    if bool_decide (normalized = ascii "*") then Ok normalized
    else
      match ip_literal normalized ≫= parse_ip with
      | Some ip => Ok (display_ip ip)
      | None => check_dns_pattern normalized
      end.

(** The loops that validate items and refuse a repeated key. *)
Fixpoint validate_each {A} (f : A → result route_error bytes) (seen : list bytes) (l : list A) : result route_error unit :=
  match l with
  | [] => Ok tt
  | x :: l =>
      key ← f x;
      if bool_decide (key ∈ seen) then Err (Duplicate key) else validate_each f (key :: seen) l
  end.

Definition known_protocol (protocol : bytes) : bool :=
  existsb (λ name, bool_decide (protocol = ascii name)) ["http"; "http1"; "http2"; "http3"; "websocket"; "webtransport"]%string.

Definition condition_count (c : RouteValueMatchConfig) : Z :=
  Z.b2z (is_some (vm_present c)) + Z.b2z (is_some (vm_exact c)) + Z.b2z (is_some (vm_prefix c))
  + Z.b2z (is_some (vm_suffix c)) + Z.b2z (is_some (vm_contains c)) + Z.b2z (is_some (vm_regex c)).

Section conflicts.
Context `{HeaderLookup} `{MatchLib}.

Definition validate_route_regex (regex : bytes) : result value_error unit :=
  if is_empty regex then Err EmptyRegex
  else match regex_new regex with Some _ => Ok tt | None => Err BadRegex end.

Definition validate_value_match_regex (c : RouteValueMatchConfig) : result value_error unit :=
  match vm_regex c with
  | Some regex => validate_route_regex regex
  | None => Ok tt
  end.

Definition validate_required_value_match (c : RouteValueMatchConfig) : result value_error unit :=
  if negb (condition_count c =? 1) then Err WrongConditionCount else validate_value_match_regex c.

Definition validate_optional_value_match (c : RouteValueMatchConfig) : result value_error unit :=
  if 1 <? condition_count c then Err WrongConditionCount else validate_value_match_regex c.

Definition validate_named_value_match (header_name : bool) (m : RouteNamedValueMatchConfig) : result route_error unit :=
  if padded_or_empty (nm_name m) then Err PaddedName
  else if header_name && negb (is_some (header_name_from_bytes (nm_name m))) then Err BadHeaderName
  else if negb header_name && existsb is_ascii_control (nm_name m) then Err ControlInQueryName
  else map_err BadValue (validate_required_value_match (nm_value m)).

Fixpoint validate_all {A} (f : A → result route_error unit) (l : list A) : result route_error unit :=
  match l with
  | [] => Ok tt
  | x :: l =>
      _ ← f x;
      validate_all f l
  end.

(** An optional path or pattern. *)
Definition validate_set {A} (f : A → result route_error unit) (o : option A) : result route_error unit :=
  match o with
  | Some x => f x
  | None => Ok tt
  end.

Definition validate_route_match_config (r : RouteConfig) : result route_error unit :=
  let m := rc_match r in
  _ ← validate_each (λ host, map_err BadHost (validate_route_host_pattern host)) [] (rc_hosts r);
  _ ← validate_set (λ prefix,
        _ ← map_err BadPath (validate_route_path_value prefix);
        if negb (bool_decide (rc_path_prefix r = [47])) && negb (bool_decide (rc_path_prefix r = prefix))
        then Err PrefixMismatch else Ok tt) (pm_prefix (mc_path m));
  _ ← validate_set (λ exact, map_err BadPath (validate_route_path_value exact)) (pm_exact (mc_path m));
  _ ← validate_set (λ regex, map_err BadValue (validate_route_regex regex)) (pm_regex (mc_path m));
  _ ← validate_each (λ method,
        if padded_or_empty method then Err PaddedName
        else if is_some (method_from_bytes method) then Ok method else Err BadMethod) [] (mc_methods m);
  _ ← validate_all (validate_named_value_match true) (mc_headers m);
  _ ← validate_all (validate_named_value_match false) (mc_queries m);
  _ ← validate_each (λ raw, cidr ← map_err BadCidr (cidr_parse raw); Ok (cidr_canonical cidr)) [] (mc_source_cidrs m);
  _ ← validate_each (λ protocol, if known_protocol protocol then Ok protocol else Err BadProtocol) [] (mc_protocols m);
  _ ← map_err BadValue (validate_optional_value_match (cm_fingerprint_sha256 (mc_client_cert m)));
  _ ← map_err BadValue (validate_optional_value_match (cm_subject_cn (mc_client_cert m)));
  _ ← map_err BadValue (validate_optional_value_match (cm_san_dns (mc_client_cert m)));
  map_err BadValue (validate_optional_value_match (cm_san_ip (mc_client_cert m))).

(** ** Hosts *)

Inductive RouteHostPattern : Type :=
  | CatchAll
  | Wildcard (suffix : bytes)
  | ExactHost (host : bytes).

#[export] Instance RouteHostPattern_eq_dec : EqDecision RouteHostPattern.
Proof. solve_decision. Defined.

(** [RouteHostPattern::parse] *)
Definition pattern_of (raw : bytes) : RouteHostPattern :=
  let pattern := normalize_host raw in
  if bool_decide (pattern = ascii "*") then CatchAll
  else match strip_prefix (ascii "*.") pattern with Some suffix => Wildcard suffix | None => ExactHost pattern end.

Definition tie_overlaps (left right : RouteHostPattern) : bool :=
  match left, right with
  | CatchAll, CatchAll => true
  | ExactHost l, ExactHost r => bool_decide (l = r)
  | Wildcard l, Wildcard r => bool_decide (l = r)
  | _, _ => false
  end.

Definition host_score_tie_can_overlap (left right : RouteConfig) : bool :=
  existsb (λ l, existsb (λ r, tie_overlaps (pattern_of l) (pattern_of r)) (rc_hosts right)) (rc_hosts left).

(** ** Paths *)

(** [route_path_prefix_matches] *)
Definition route_path_prefix_matches (prefix path : bytes) : bool :=
  if bool_decide (prefix = [47]) || bool_decide (path = prefix) then true
  else match strip_prefix prefix path with Some rest => starts_with [47] rest | None => false end.

Definition path_matches_route_path_constraints (r : RouteConfig) (path : bytes) : result conflict_error bool :=
  if negb (route_path_prefix_matches (effective_path_prefix r) path) then Ok false
  else
    match pm_exact (mc_path (rc_match r)), pm_regex (mc_path (rc_match r)) with
    | Some exact, _ => Ok (bool_decide (path = exact))
    | None, Some regex =>
        regex ← ok_or (regex_new regex) ConflictRegex;
        Ok (is_match regex path)
    | None, None => Ok true
    end.

Definition path_domains_overlap (left right : RouteConfig) : result conflict_error bool :=
  if negb (bool_decide (effective_path_prefix left = effective_path_prefix right)) then Ok false
  else
    match pm_exact (mc_path (rc_match left)), pm_exact (mc_path (rc_match right)) with
    | Some left_exact, Some right_exact => Ok (bool_decide (left_exact = right_exact))
    | Some left_exact, None => path_matches_route_path_constraints right left_exact
    | None, Some right_exact => path_matches_route_path_constraints left right_exact
    | None, None => Ok true
    end.

(** ** Conditions *)

Definition client_cert_matcher_specificity (c : RouteClientCertMatchConfig) : Z :=
  Z.b2z (is_some (cm_present c)) + Z.b2z (value_has_conditions (cm_fingerprint_sha256 c)) * 3
  + Z.b2z (value_has_conditions (cm_subject_cn c)) * 2 + Z.b2z (value_has_conditions (cm_san_dns c)) * 2
  + Z.b2z (value_has_conditions (cm_san_ip c)) * 2.

Definition route_matcher_specificity (r : RouteConfig) : Z :=
  let m := rc_match r in
  len (mc_methods m) + len (mc_headers m) * 2 + len (mc_queries m) * 2
  + Z.b2z (is_some (pm_exact (mc_path m))) * 4 + Z.b2z (is_some (pm_regex (mc_path m))) * 3
  + len (mc_source_cidrs m) + len (mc_protocols m) + client_cert_matcher_specificity (mc_client_cert m).

Definition methods_overlap (left right : list bytes) : bool :=
  is_empty left || is_empty right || existsb (λ l, existsb (λ r, bool_decide (l = r)) right) left.

(** The bits of a protocol name. *)
Definition protocol_bits (protocol : bytes) : Z :=
  if bool_decide (protocol = ascii "http") then 7
  else if bool_decide (protocol = ascii "http1") then 1
  else if bool_decide (protocol = ascii "http2") then 2
  else if bool_decide (protocol = ascii "http3") then 4
  else if bool_decide (protocol = ascii "websocket") then 8
  else if bool_decide (protocol = ascii "webtransport") then 16
  else 0.

Definition protocol_mask (protocols : list bytes) : Z :=
  if is_empty protocols then 63 else foldl (λ mask protocol, Z.lor mask (protocol_bits protocol)) 0 protocols.

Definition protocols_overlap (left right : list bytes) : bool :=
  negb (Z.land (protocol_mask left) (protocol_mask right) =? 0).

Definition source_cidrs_overlap (left right : list bytes) : result conflict_error bool :=
  if is_empty left || is_empty right then Ok true
  else
    ls ← map_err ConflictCidr (trusted_parse left);
    rs ← map_err ConflictCidr (trusted_parse right);
    Ok (existsb (λ l, existsb (λ r, cidr_overlaps l r) rs) ls).

Definition optional_presence_overlaps (left right : option bool) : bool :=
  match left, right with
  | Some true, Some false | Some false, Some true => false
  | _, _ => true
  end.

(** [present == Some(false)] *)
Definition absent (present : option bool) : bool := bool_decide (present = Some false).

Definition repeated_metadata_matchers_overlap (left right : RouteValueMatchConfig) : bool :=
  if absent (vm_present left) || absent (vm_present right)
  then absent (vm_present left) && absent (vm_present right)
  else true.

Definition value_matcher_accepts_exact (m : RouteValueMatchConfig) (exact : bytes) : bool :=
  match vm_present m with
  | Some present => present
  | None =>
      if match vm_prefix m with Some prefix => negb (starts_with prefix exact) | None => false end then false
      else if match vm_suffix m with Some suffix => negb (ends_with suffix exact) | None => false end then false
      else if match vm_contains m with Some needle => negb (contains_str needle exact) | None => false end then false
      else
        match vm_regex m with
        | Some regex => match regex_new regex with Some regex => is_match regex exact | None => false end
        | None => true
        end
  end.

Definition non_exact_value_matchers_can_overlap (left right : RouteValueMatchConfig) : bool :=
  if negb (value_has_conditions left) || negb (value_has_conditions right) then true
  else if absent (vm_present left) || absent (vm_present right)
  then absent (vm_present left) && absent (vm_present right)
  else if match vm_prefix left, vm_prefix right with
          | Some l, Some r => negb (starts_with r l) && negb (starts_with l r)
          | _, _ => false
          end then false
  else if match vm_suffix left, vm_suffix right with
          | Some l, Some r => negb (ends_with r l) && negb (ends_with l r)
          | _, _ => false
          end then false
  else true.

Definition value_matchers_overlap (left right : RouteValueMatchConfig) : bool :=
  if negb (optional_presence_overlaps (vm_present left) (vm_present right)) then false
  else
    match vm_exact left, vm_exact right with
    | Some left_exact, Some right_exact => bool_decide (left_exact = right_exact)
    | Some exact, None => value_matcher_accepts_exact right exact
    | None, Some exact => value_matcher_accepts_exact left exact
    | None, None => non_exact_value_matchers_can_overlap left right
    end.

Definition normalized_matcher_name (name : bytes) (header_name : bool) : bytes :=
  if header_name then map to_ascii_lowercase name else name.

Definition named_matchers_overlap (left right : list RouteNamedValueMatchConfig) (header_name : bool) : bool :=
  forallb (λ l, forallb (λ r,
    negb (bool_decide (normalized_matcher_name (nm_name l) header_name = normalized_matcher_name (nm_name r) header_name))
    || repeated_metadata_matchers_overlap (nm_value l) (nm_value r)) right) left.

Definition client_cert_matchers_overlap (left right : RouteClientCertMatchConfig) : bool :=
  optional_presence_overlaps (cm_present left) (cm_present right)
  && value_matchers_overlap (cm_fingerprint_sha256 left) (cm_fingerprint_sha256 right)
  && repeated_metadata_matchers_overlap (cm_subject_cn left) (cm_subject_cn right)
  && repeated_metadata_matchers_overlap (cm_san_dns left) (cm_san_dns right)
  && repeated_metadata_matchers_overlap (cm_san_ip left) (cm_san_ip right).

(** The conjunction stops at its first false or failing part. *)
Definition route_predicates_can_overlap (left right : RouteConfig) : result conflict_error bool :=
  let l := rc_match left in
  let r := rc_match right in
  if negb (methods_overlap (mc_methods l) (mc_methods r) && protocols_overlap (mc_protocols l) (mc_protocols r))
  then Ok false
  else
    cidrs ← source_cidrs_overlap (mc_source_cidrs l) (mc_source_cidrs r);
    Ok (cidrs && named_matchers_overlap (mc_headers l) (mc_headers r) true
        && named_matchers_overlap (mc_queries l) (mc_queries r) false
        && client_cert_matchers_overlap (mc_client_cert l) (mc_client_cert r)).

(** ** The pairs of a configuration *)

Definition route_order_tie_can_match_same_request (left right : RouteConfig) : result conflict_error bool :=
  if negb (mc_priority (rc_match left) =? mc_priority (rc_match right)) then Ok false
  else if negb (host_score_tie_can_overlap left right) then Ok false
  else if negb (len (effective_path_prefix left) =? len (effective_path_prefix right)) then Ok false
  else
    paths ← path_domains_overlap left right;
    if negb paths then Ok false
    else if negb (route_matcher_specificity left =? route_matcher_specificity right) then Ok false
    else route_predicates_can_overlap left right.

(** The inner loop: the routes after [left]. *)
Fixpoint conflicts_with (left : RouteConfig) (later : list RouteConfig) : result conflict_error unit :=
  match later with
  | [] => Ok tt
  | other :: later =>
      tie ← route_order_tie_can_match_same_request left other;
      if (tie : bool) then Err (EqualPrecedence (rc_name left) (rc_name other)) else conflicts_with left later
  end.

Fixpoint validate_route_match_conflicts (routes : list RouteConfig) : result conflict_error unit :=
  match routes with
  | [] => Ok tt
  | first :: later =>
      _ ← conflicts_with first later;
      validate_route_match_conflicts later
  end.
End conflicts.
