(* ===== verification/RouteConditions.v ===== *)
(** * What a route's conditions mean

    The conditions of a route configuration as predicates on a request, and
    that the compiled matcher decides them. *)

From S2P Require Import Prelude Bytes Text Net Identity RouteMatch.

(** ** Searching *)

Lemma contains_str_spec needle l : contains_str needle l = true ↔ ∃ a b, l = a ++ needle ++ b.
Proof.
  unfold contains_str. induction l as [|x l IH]; cbn [first_occurrence].
  - destruct (starts_with needle []) eqn:Hs; cbn; split; try done.
    + apply starts_with_spec in Hs as [k Hk]. exists [], k. done.
    + intros (a & b & Hn). symmetry in Hn. apply app_eq_nil in Hn as [-> Hn]. apply app_eq_nil in Hn as [-> ->]. done.
  - destruct (starts_with needle (x :: l)) eqn:Hs; cbn.
    { split; [|done]. intros _. apply starts_with_spec in Hs as [k Hk]. by exists [], k. }
    transitivity (is_some (first_occurrence needle l) = true); [by destruct (first_occurrence needle l)|]. rewrite IH. split.
    + intros (a & b & ->). by exists (x :: a), b.
    + intros ([|y a] & b & Heq); [|injection Heq as _ ->; by exists a, b].
      rewrite (proj2 (starts_with_spec _ _)) in Hs by by exists b. done.
Qed.

Lemma existsb_eq {A} `{EqDecision A} (x : A) l : existsb (λ y, bool_decide (y = x)) l = true ↔ x ∈ l.
Proof.
  rewrite existsb_exists. setoid_rewrite bool_decide_eq_true. setoid_rewrite <- list_elem_of_In. naive_solver.
Qed.

Section conditions.
Context `{HeaderLookup} `{MatchLib}.

(** ** Values *)

(** The condition a configuration sets on one value, other than presence. *)
Definition value_holds (c : RouteValueMatchConfig) (value : bytes) : Prop :=
  match c with
  | mkValueMatch _ (Some exact) _ _ _ _ => value = exact
  | mkValueMatch _ None (Some prefix) _ _ _ => ∃ k, value = prefix ++ k
  | mkValueMatch _ None None (Some suffix) _ _ => ∃ k, value = k ++ suffix
  | mkValueMatch _ None None None (Some needle) _ => ∃ a b, value = a ++ needle ++ b
  | mkValueMatch _ None None None None (Some regex) => ∃ r, regex_new regex = Some r ∧ is_match r value = true
  | mkValueMatch _ None None None None None => False
  end.

(** Presence asks whether there is a value; any other condition that one
    value meets it. *)
Definition values_hold (c : RouteValueMatchConfig) (values : list bytes) : Prop :=
  match vm_present c with
  | Some true => values ≠ []
  | Some false => values = []
  | None => ∃ v, v ∈ values ∧ value_holds c v
  end.

Lemma value_matches_spec m values :
  value_matches m values = true ↔
  match m with
  | Present true => values ≠ []
  | Present false => values = []
  | _ => ∃ v, v ∈ values ∧ matches_value m v = true
  end.
Proof.
  unfold value_matches. assert (∀ seen, foldl (see_value m) seen values
    = (seen.1 || negb (is_empty values), seen.2 || existsb (matches_value m) values)) as Hf.
  { induction values as [|v values IH]; intros [a b]; cbn; [by rewrite !orb_false_r|].
    rewrite IH. unfold see_value. cbn. by rewrite orb_true_r, orb_assoc. }
  rewrite Hf. cbn. assert (existsb (matches_value m) values = true ↔ ∃ v, v ∈ values ∧ matches_value m v = true) as Hex.
  { rewrite existsb_exists. by setoid_rewrite list_elem_of_In. }
  assert (negb (is_empty values) && existsb (matches_value m) values = existsb (matches_value m) values) as Hand
    by by destruct values.
  destruct m as [[]| | | | |]; cbn; rewrite ?Hand; try done; by destruct values.
Qed.

Lemma value_compiles c m : value_from_config c = Ok (Some m) →
  (∀ values, value_matches m values = true ↔ values_hold c values) ∧ raw_presence_match m = vm_present c.
Proof.
  destruct c as [[p|] [e|] [pr|] [s|] [n|] [r|]]; cbn [value_from_config]; try (intros [= <-]); try done.
  all: try (split; [|done]; intros values; rewrite value_matches_spec; cbn; try by destruct p).
  all: try (f_equiv; intros v; f_equiv; cbn;
    first [by rewrite bool_decide_eq_true | apply starts_with_spec | apply ends_with_spec | apply contains_str_spec]).
  destruct (regex_new r) as [re|] eqn:Hr; [|done]. cbn. intros [= <-]. split; [|done]. intros values. rewrite value_matches_spec. cbn.
  f_equiv. intros v. f_equiv. cbn. naive_solver.
Qed.

Lemma value_compiles_none c : value_from_config c = Ok None ↔ value_has_conditions c = false.
Proof.
  destruct c as [[p|] [e|] [pr|] [s|] [n|] [r|]]; cbn; try done. by destruct (regex_new r).
Qed.

(** ** Headers, queries and protocols *)

(** A header's values are those that are text, unless only presence is asked. *)
Definition header_holds (c : RouteNamedValueMatchConfig) (hs : Headers) : Prop :=
  let values := values_of (map to_ascii_lowercase (nm_name c)) hs in
  values_hold (nm_value c) (if is_some (vm_present (nm_value c)) then values else omap to_str values).

Definition query_values (name query : bytes) : list bytes :=
  omap (λ pair : bytes * bytes, if bool_decide (pair.1 = name) then Some pair.2 else None) (form_urlencoded_parse query).

Definition query_holds (c : RouteNamedValueMatchConfig) (query : bytes) : Prop :=
  values_hold (nm_value c) (query_values (nm_name c) query).

(** The names of a protocol. *)
Definition protocol_names (p : RouteRequestProtocol) : list bytes :=
  match p with
  | Http1 => [ascii "http"; ascii "http1"]
  | Http2 => [ascii "http"; ascii "http2"]
  | Http3 => [ascii "http"; ascii "http3"]
  | Websocket => [ascii "websocket"]
  | Webtransport => [ascii "webtransport"]
  end.

Lemma header_compiles c m hs : compile_named_value_matcher c true = Ok m → matches_header m hs = true ↔ header_holds c hs.
Proof.
  unfold compile_named_value_matcher. destruct (header_name_from_bytes _) as [name|] eqn:Hn; [|done]. cbn.
  apply header_name_bytes in Hn as ->. destruct (value_from_config (nm_value c)) as [[v|]|] eqn:Hv; [|done..]. cbn. intros [= <-].
  unfold matches_header, header_holds. cbn. destruct (value_compiles _ _ Hv) as [Hm ->].
  destruct (vm_present (nm_value c)) as [p|] eqn:Hp; cbn; [|by rewrite Hm]. unfold values_hold. rewrite Hp.
  destruct p, (values_of _ hs); cbn; naive_solver.
Qed.

Lemma query_compiles c m query : compile_named_value_matcher c false = Ok m → matches_query m query = true ↔ query_holds c query.
Proof.
  unfold compile_named_value_matcher. cbn. destruct (value_from_config (nm_value c)) as [[v|]|] eqn:Hv; [|done..]. cbn. intros [= <-].
  destruct (value_compiles _ _ Hv) as [Hm _]. unfold query_holds. rewrite <- Hm. unfold matches_query, value_matches, query_values. cbn.
  enough (∀ seen pairs, foldl (see_pair (mkNamed (nm_name c) None v)) seen pairs
    = foldl (see_value v) seen (omap (λ pair : bytes * bytes, if bool_decide (pair.1 = nm_name c) then Some pair.2 else None) pairs))
    as -> by done.
  intros seen pairs. revert seen. induction pairs as [|[n x] pairs IH]; intros seen; [done|]. cbn. rewrite IH. unfold see_pair. cbn.
  by case_bool_decide.
Qed.

Lemma protocol_compiles name m p : compile_protocol name = Ok m → protocol_matches m p = true ↔ name ∈ protocol_names p.
Proof.
  unfold compile_protocol. repeat case_bool_decide; intros [= <-]; subst name; destruct p; vm_compute; split; try done;
    intros Hin; repeat (apply elem_of_cons in Hin as [Hin|Hin]; [try done|]); try by apply not_elem_of_nil in Hin.
  all: repeat first [left; done | right].
Qed.

(** ** Certificates *)

Definition set_holds (c : RouteValueMatchConfig) (values : list bytes) : Prop :=
  value_has_conditions c = true → values_hold c values.

(** Without conditions nothing is asked.  Otherwise a certificate the
    transport does not show is no match, its presence is as configured, and
    it meets the conditions set; without one the only condition is its
    absence. *)
Definition cert_holds (c : RouteClientCertMatchConfig) (tls : option WafTlsMetadata) (protocol : option RouteRequestProtocol) : Prop :=
  cert_has_conditions c = true →
  (∀ present, cm_present c = Some present → is_some (tls ≫= client_certificate) = present)
  ∧ match tls ≫= client_certificate with
    | None => cm_present c = Some false ∧ protocol ≠ Some Http3 ∧ protocol ≠ Some Webtransport
        ∧ Forall (λ v, value_has_conditions v = false)
            [cm_fingerprint_sha256 c; cm_subject_cn c; cm_san_dns c; cm_san_ip c]
    | Some cert =>
        set_holds (cm_fingerprint_sha256 c) [fingerprint_sha256 cert] ∧ set_holds (cm_subject_cn c) (subject_common_names cert)
        ∧ set_holds (cm_san_dns c) (san_dns_names cert) ∧ set_holds (cm_san_ip c) (san_ip_addresses cert)
    end.

Lemma condition_compiles c m : value_from_config c = Ok m →
  is_some m = value_has_conditions c ∧ ∀ values, cert_condition m values = true ↔ set_holds c values.
Proof.
  intros Hv. unfold set_holds, cert_condition. destruct m as [m|].
  - destruct (value_has_conditions c) eqn:Hc; [|by apply value_compiles_none in Hc; congruence]. split; [done|].
    intros values. destruct (value_compiles _ _ Hv) as [Hm _]. rewrite Hm. naive_solver.
  - apply value_compiles_none in Hv as Hc. rewrite Hc. done.
Qed.

Lemma cert_compiles c m tls protocol : compile_client_cert_matcher c = Ok m →
  cert_matches m tls protocol = true ↔ cert_holds c tls protocol.
Proof.
  unfold compile_client_cert_matcher.
  destruct (value_from_config (cm_fingerprint_sha256 c)) as [f|] eqn:Hf; [|done]. cbn.
  destruct (value_from_config (cm_subject_cn c)) as [s|] eqn:Hs; [|done]. cbn.
  destruct (value_from_config (cm_san_dns c)) as [d|] eqn:Hd; [|done]. cbn.
  destruct (value_from_config (cm_san_ip c)) as [i|] eqn:Hi; [|done]. cbn. intros [= <-].
  apply condition_compiles in Hf as [Hf Hf'], Hs as [Hs Hs'], Hd as [Hd Hd'], Hi as [Hi Hi'].
  set (m := mkCert _ _ _ _ _).
  assert ((cert_specificity m =? 0) = negb (cert_has_conditions c)
    ∧ bool_decide (cm_present c = Some false) && (cert_specificity m =? 1)
      = bool_decide (cm_present c = Some false) && negb (value_has_conditions (cm_fingerprint_sha256 c))
        && negb (value_has_conditions (cm_subject_cn c)) && negb (value_has_conditions (cm_san_dns c))
        && negb (value_has_conditions (cm_san_ip c))) as [Hzero Hone].
  { unfold cert_specificity, cert_has_conditions, m. cbn [cc_present cc_fingerprint_sha256 cc_subject_cn cc_san_dns cc_san_ip].
    rewrite Hf, Hs, Hd, Hi. clear.
    destruct (cm_present c) as [[]|], (value_has_conditions (cm_fingerprint_sha256 c)), (value_has_conditions (cm_subject_cn c)),
      (value_has_conditions (cm_san_dns c)), (value_has_conditions (cm_san_ip c)); by split. }
  unfold cert_matches, cert_holds. rewrite Hzero. cbn [cc_present m]. rewrite Hone.
  destruct (cert_has_conditions c); cbn [negb]; [|done].
  destruct (tls ≫= client_certificate) as [cert|]; cbn [is_some negb andb].
  - cbn [cc_fingerprint_sha256 cc_subject_cn cc_san_dns cc_san_ip m]. unfold m. cbn. rewrite <- Hf', <- Hs', <- Hd', <- Hi'.
    rewrite <- !andb_true_iff, !andb_assoc. generalize (cert_condition f [fingerprint_sha256 cert] && cert_condition s (subject_common_names cert)
      && cert_condition d (san_dns_names cert) && cert_condition i (san_ip_addresses cert)) as b. clear.
    intros b. destruct (cm_present c) as [[]|]; cbn; naive_solver.
  - unfold m. cbn. rewrite !Forall_cons, Forall_nil.
    generalize (value_has_conditions (cm_fingerprint_sha256 c)) (value_has_conditions (cm_subject_cn c))
      (value_has_conditions (cm_san_dns c)) (value_has_conditions (cm_san_ip c)) (cm_present c). clear.
    intros b1 b2 b3 b4 [[]|]; destruct protocol as [[]|]; cbn; rewrite ?andb_true_iff, ?negb_true_iff, ?bool_decide_eq_true;
      intuition congruence.
Qed.

(** ** Routes *)

(** The conditions of a route on a request: all of them hold, and a condition
    on something the request does not show does not. *)
Record conditions_hold (c : RouteMatchConfig) (ctx : RouteMatchContext) : Prop := mkConditions {
  on_method : mc_methods c = [] ∨ ∃ m, ctx_method ctx = Some m ∧ m ∈ mc_methods c;
  on_headers : mc_headers c = [] ∨ ∃ hs, ctx_headers ctx = Some hs ∧ Forall (λ h, header_holds h hs) (mc_headers c);
  on_queries : Forall (λ q, query_holds q (default [] (ctx_query ctx))) (mc_queries c);
  on_exact : ∀ exact, pm_exact (mc_path c) = Some exact → ctx_path ctx = exact;
  on_source : mc_source_cidrs c = [] ∨
    ∃ ip raw n, ctx_source_ip ctx = Some ip ∧ raw ∈ mc_source_cidrs c ∧ cidr_parse raw = Ok n ∧ cidr_contains n ip = true;
  on_protocol : mc_protocols c = [] ∨
    ∃ p name, ctx_protocol ctx = Some p ∧ name ∈ mc_protocols c ∧ name ∈ protocol_names p;
  on_certificate : cert_holds (mc_client_cert c) (ctx_tls ctx) (ctx_protocol ctx);
  on_regex : ∀ raw, pm_regex (mc_path c) = Some raw → ∃ r, regex_new raw = Some r ∧ is_match r (ctx_path ctx) = true;
}.

Lemma collect_Forall2 {A B} (f : A → result matcher_error B) l k : collect f l = Ok k → Forall2 (λ x y, f x = Ok y) l k.
Proof.
  revert k. induction l as [|x l IH]; intros k; cbn; [intros [= <-]; constructor|].
  destruct (f x) as [y|] eqn:Hx; [|done]. cbn. destruct (collect f l) as [ys|]; [|done]. cbn. intros [= <-].
  constructor; [done|by apply IH].
Qed.

(** Elementwise equivalence lifts to some and to all. *)
Lemma Forall2_existsb {A B} (R : A → B → Prop) (P : A → Prop) (p : B → bool) l k : Forall2 R l k →
  (∀ x y, R x y → p y = true ↔ P x) → existsb p k = true ↔ ∃ x, x ∈ l ∧ P x.
Proof.
  intros Hl Hp. induction Hl as [|x y l k Hx Hl IH]; cbn; [split; [done|]; by intros (x & ?%not_elem_of_nil & _)|].
  rewrite orb_true_iff, (Hp _ _ Hx), IH. setoid_rewrite elem_of_cons. naive_solver.
Qed.

Lemma Forall2_forallb {A B} (R : A → B → Prop) (P : A → Prop) (p : B → bool) l k : Forall2 R l k →
  (∀ x y, R x y → p y = true ↔ P x) → forallb p k = true ↔ Forall P l.
Proof.
  intros Hl Hp. induction Hl as [|x y l k Hx Hl IH]; cbn; [done|]. by rewrite andb_true_iff, (Hp _ _ Hx), IH, Forall_cons.
Qed.

Lemma Forall2_is_empty {A B} (R : A → B → Prop) l k : Forall2 R l k → is_empty k = is_empty l.
Proof. by destruct 1. Qed.

Lemma bind_Ok {E A B} (x : result E A) (f : A → result E B) b : (x ≫= f) = Ok b → ∃ a, x = Ok a ∧ f a = Ok b.
Proof. destruct x; [|done]. cbn. eauto. Qed.

(** A guarded condition: an empty list asks nothing. *)
Lemma guard_spec {A} (l : list A) (b : bool) (P : Prop) : (l ≠ [] → b = true ↔ P) →
  negb (is_empty l) && negb b = false ↔ l = [] ∨ P.
Proof. destruct l; cbn; [naive_solver|]. intros H1. rewrite negb_false_iff, H1 by done. naive_solver. Qed.

(** The checks of [match_request], in its order. *)
Definition checks (m : CompiledRouteMatcher) (ctx : RouteMatchContext) : list bool :=
  [negb (is_empty (methods m))
    && negb (match ctx_method ctx with Some method => existsb (λ c, bool_decide (c = method)) (methods m) | None => false end);
   negb (is_empty (headers m))
    && negb (match ctx_headers ctx with Some hs => forallb (λ h, matches_header h hs) (headers m) | None => false end);
   negb (is_empty (queries m)) && negb (forallb (λ q, matches_query q (default [] (ctx_query ctx))) (queries m));
   match path_exact m with Some exact => negb (bool_decide (ctx_path ctx = exact)) | None => false end;
   negb (is_empty (source_cidrs m))
    && negb (match ctx_source_ip ctx with Some ip => existsb (λ c, cidr_contains c ip) (source_cidrs m) | None => false end);
   negb (is_empty (protocols m))
    && negb (match ctx_protocol ctx with Some protocol => existsb (λ p, protocol_matches p protocol) (protocols m) | None => false end);
   negb (cert_matches (client_cert m) (ctx_tls ctx) (ctx_protocol ctx));
   negb (is_some (regex_captures (path_regex m) (ctx_path ctx)))].

Lemma match_request_checks m ctx : valid m = true →
  is_some (match_request m ctx) = prefix_only m || forallb negb (checks m ctx).
Proof.
  intros Hv. unfold match_request, checks. rewrite Hv. cbn [negb]. destruct (prefix_only m); [done|]. cbn [orb forallb].
  repeat match goal with |- is_some (if ?b then None else _) = _ => destruct b; cbn [negb andb]; [done|] end.
  by destruct (regex_captures _ _).
Qed.

Record compiled (c : RouteMatchConfig) (m : CompiledRouteMatcher) : Prop := mkCompiled {
  cp_valid : valid m = true;
  cp_methods : Forall2 (λ x y, ok_or (method_from_bytes x) InvalidMethod = Ok y) (mc_methods c) (methods m);
  cp_headers : Forall2 (λ x y, compile_named_value_matcher x true = Ok y) (mc_headers c) (headers m);
  cp_queries : Forall2 (λ x y, compile_named_value_matcher x false = Ok y) (mc_queries c) (queries m);
  cp_exact : path_exact m = pm_exact (mc_path c);
  cp_cidrs : Forall2 (λ x y, map_err InvalidCidr (cidr_parse x) = Ok y) (mc_source_cidrs c) (source_cidrs m);
  cp_protocols : Forall2 (λ x y, compile_protocol x = Ok y) (mc_protocols c) (protocols m);
  cp_cert : compile_client_cert_matcher (mc_client_cert c) = Ok (client_cert m);
  cp_regex : match pm_regex (mc_path c) with
    | Some raw => ∃ r, regex_new raw = Some r ∧ path_regex m = Some r
    | None => path_regex m = None
    end;
  cp_prefix_only : prefix_only m = true →
    mc_methods c = [] ∧ mc_headers c = [] ∧ mc_queries c = [] ∧ pm_exact (mc_path c) = None ∧ pm_regex (mc_path c) = None
    ∧ mc_source_cidrs c = [] ∧ mc_protocols c = [] ∧ cert_has_conditions (mc_client_cert c) = false;
}.

Lemma cert_compiled_empty c m : compile_client_cert_matcher c = Ok m → cert_is_empty m = negb (cert_has_conditions c).
Proof.
  unfold compile_client_cert_matcher. intros Hc. apply bind_Ok in Hc as (f & Hf & Hc). apply bind_Ok in Hc as (s & Hs & Hc).
  apply bind_Ok in Hc as (d & Hd & Hc). apply bind_Ok in Hc as (i & Hi & Hc). injection Hc as <-.
  apply condition_compiles in Hf as [Hf _], Hs as [Hs _], Hd as [Hd _], Hi as [Hi _].
  unfold cert_is_empty, cert_has_conditions. cbn. rewrite Hf, Hs, Hd, Hi, !negb_orb. done.
Qed.

Lemma from_route_compiled c m : from_route c = Ok m → compiled c m.
Proof.
  unfold from_route. intros Hm. apply bind_Ok in Hm as (ms & Hms & Hm). apply bind_Ok in Hm as (hs & Hhs & Hm).
  apply bind_Ok in Hm as (qs & Hqs & Hm). apply bind_Ok in Hm as (re & Hre & Hm). apply bind_Ok in Hm as (cs & Hcs & Hm).
  apply bind_Ok in Hm as (ps & Hps & Hm). apply bind_Ok in Hm as (cc & Hcc & Hm). injection Hm as <-.
  apply collect_Forall2 in Hms, Hhs, Hqs, Hcs, Hps. split; cbn; try done.
  - destruct (pm_regex (mc_path c)) as [raw|]; [|by injection Hre as <-].
    destruct (regex_new raw) as [r|]; [|done]. injection Hre as <-. by exists r.
  - rewrite (Forall2_is_empty _ _ _ Hms), (Forall2_is_empty _ _ _ Hhs), (Forall2_is_empty _ _ _ Hqs),
      (Forall2_is_empty _ _ _ Hcs), (Forall2_is_empty _ _ _ Hps), (cert_compiled_empty _ _ Hcc).
    rewrite !andb_true_iff, !is_empty_true, !negb_true_iff, !is_some_false. tauto.
Qed.

Lemma regex_captures_some r path : is_some (regex_captures (Some r) path) = is_match r path.
Proof. rewrite <- captures_match. cbn. by destruct (captures r path). Qed.

Lemma and_iff_proper (A B C D : Prop) : (A ↔ B) → (C ↔ D) → A ∧ C ↔ B ∧ D.
Proof. tauto. Qed.

Lemma checks_decided c m ctx : compiled c m →
  forallb negb (checks m ctx) = true ↔
  (mc_methods c = [] ∨ ∃ m, ctx_method ctx = Some m ∧ m ∈ mc_methods c)
  ∧ (mc_headers c = [] ∨ ∃ hs, ctx_headers ctx = Some hs ∧ Forall (λ h, header_holds h hs) (mc_headers c))
  ∧ Forall (λ q, query_holds q (default [] (ctx_query ctx))) (mc_queries c)
  ∧ (∀ exact, pm_exact (mc_path c) = Some exact → ctx_path ctx = exact)
  ∧ (mc_source_cidrs c = [] ∨
      ∃ ip raw n, ctx_source_ip ctx = Some ip ∧ raw ∈ mc_source_cidrs c ∧ cidr_parse raw = Ok n ∧ cidr_contains n ip = true)
  ∧ (mc_protocols c = [] ∨ ∃ p name, ctx_protocol ctx = Some p ∧ name ∈ mc_protocols c ∧ name ∈ protocol_names p)
  ∧ cert_holds (mc_client_cert c) (ctx_tls ctx) (ctx_protocol ctx)
  ∧ (∀ raw, pm_regex (mc_path c) = Some raw → ∃ r, regex_new raw = Some r ∧ is_match r (ctx_path ctx) = true).
Proof.
  intros [_ Hms Hhs Hqs He Hcs Hps Hcc Hre _]. unfold checks. cbn [forallb].
  rewrite !andb_true_iff, !negb_true_iff, (Forall2_is_empty _ _ _ Hms), (Forall2_is_empty _ _ _ Hhs), (Forall2_is_empty _ _ _ Hqs),
    (Forall2_is_empty _ _ _ Hcs), (Forall2_is_empty _ _ _ Hps), He.
  apply and_iff_proper; [|apply and_iff_proper; [|apply and_iff_proper; [|apply and_iff_proper; [|apply and_iff_proper;
    [|apply and_iff_proper; [|apply and_iff_proper]]]]]].
  - apply guard_spec. intros _. destruct (ctx_method ctx) as [meth|]; [|naive_solver].
    rewrite (Forall2_existsb _ (λ x, x = meth) _ _ _ Hms); [naive_solver|]. intros x y Hx.
    destruct (method_from_bytes x) as [z|] eqn:Hz; [|done]. injection Hx as <-. apply method_bytes in Hz as ->.
    apply bool_decide_eq_true.
  - apply guard_spec. intros _. destruct (ctx_headers ctx) as [hs|]; [|naive_solver].
    rewrite (Forall2_forallb _ (λ h, header_holds h hs) _ _ _ Hhs); [naive_solver|]. intros x y. apply header_compiles.
  - rewrite (guard_spec _ _ (Forall (λ q, query_holds q (default [] (ctx_query ctx))) (mc_queries c))).
    + split; [intros [-> |?]; done|by right].
    + intros _. apply (Forall2_forallb _ _ _ _ _ Hqs). intros x y. apply query_compiles.
  - destruct (pm_exact (mc_path c)) as [exact|]; [|naive_solver]. rewrite negb_false_iff, bool_decide_eq_true. naive_solver.
  - apply guard_spec. intros _. destruct (ctx_source_ip ctx) as [ip|]; [|naive_solver].
    rewrite (Forall2_existsb _ (λ x, ∃ n, cidr_parse x = Ok n ∧ cidr_contains n ip = true) _ _ _ Hcs); [naive_solver|].
    intros x y. destruct (cidr_parse x) as [n|]; [|done]. intros [= <-]. naive_solver.
  - apply guard_spec. intros _. destruct (ctx_protocol ctx) as [p|]; [|naive_solver].
    rewrite (Forall2_existsb _ (λ x, x ∈ protocol_names p) _ _ _ Hps); [naive_solver|]. intros x y. apply protocol_compiles.
  - rewrite negb_false_iff. by apply cert_compiles.
  - rewrite negb_false_iff. destruct (pm_regex (mc_path c)) as [raw|].
    + destruct Hre as (r & Hr & ->). rewrite regex_captures_some. naive_solver.
    + rewrite Hre. naive_solver.
Qed.

(** The compiled matcher of a configuration decides its conditions. *)
Lemma conditions_decided c m ctx : compiled c m → is_some (match_request m ctx) = true ↔ conditions_hold c ctx.
Proof.
  intros Hc. rewrite match_request_checks by by destruct Hc.
  assert (prefix_only m = true → conditions_hold c ctx) as Hplain.
  { intros Hp. destruct (cp_prefix_only _ _ Hc Hp) as (H1 & H2 & H3 & H4 & H5 & H6 & H7 & H8).
    split; rewrite ?H1, ?H2, ?H3, ?H4, ?H5, ?H6, ?H7; try done; try by left. intros Hcert. congruence. }
  assert (forallb negb (checks m ctx) = true ↔ conditions_hold c ctx) as Hchecks;
    [|rewrite orb_true_iff; destruct (prefix_only m); naive_solver].
  rewrite (checks_decided c m ctx Hc). split; [intros (? & ? & ? & ? & ? & ? & ? & ?); by split|]. intros []. by split_and!.
Qed.

(** ** Configurations that compile *)

(** The pattern of a value condition is well formed, when it counts. *)
Definition value_compilable (v : RouteValueMatchConfig) : Prop :=
  match v with
  | mkValueMatch None None None None None (Some raw) => is_Some (regex_new raw)
  | _ => True
  end.

Record compilable (c : RouteMatchConfig) : Prop := mkCompilable {
  ok_methods : Forall (λ m, is_Some (method_from_bytes m)) (mc_methods c);
  ok_headers : Forall (λ h, is_Some (header_name_from_bytes (nm_name h)) ∧ nm_value h ≠ no_value_match
    ∧ value_compilable (nm_value h)) (mc_headers c);
  ok_queries : Forall (λ q, nm_value q ≠ no_value_match ∧ value_compilable (nm_value q)) (mc_queries c);
  ok_regex : ∀ raw, pm_regex (mc_path c) = Some raw → is_Some (regex_new raw);
  ok_cidrs : Forall (λ raw, ∃ n, cidr_parse raw = Ok n) (mc_source_cidrs c);
  ok_protocols : Forall (λ name, ∃ p, name ∈ protocol_names p) (mc_protocols c);
  ok_certificate : Forall value_compilable
    [cm_fingerprint_sha256 (mc_client_cert c); cm_subject_cn (mc_client_cert c);
     cm_san_dns (mc_client_cert c); cm_san_ip (mc_client_cert c)];
}.

(** How much a route asks of a request besides host and path prefix. *)
Definition set_weight (weight : Z) (v : RouteValueMatchConfig) : Z := if value_has_conditions v then weight else 0.
Definition condition_weight (c : RouteMatchConfig) : Z :=
  len (mc_methods c) + 2 * len (mc_headers c) + 2 * len (mc_queries c)
  + (if is_some (pm_exact (mc_path c)) then 4 else 0) + (if is_some (pm_regex (mc_path c)) then 3 else 0)
  + len (mc_source_cidrs c) + len (mc_protocols c)
  + (if is_some (cm_present (mc_client_cert c)) then 1 else 0)
  + set_weight 3 (cm_fingerprint_sha256 (mc_client_cert c)) + set_weight 2 (cm_subject_cn (mc_client_cert c))
  + set_weight 2 (cm_san_dns (mc_client_cert c)) + set_weight 2 (cm_san_ip (mc_client_cert c)).

Lemma value_compiles_iff v : (∃ m, value_from_config v = Ok m) ↔ value_compilable v.
Proof.
  destruct v as [[p|] [e|] [pr|] [s|] [n|] [r|]]; cbn; try (split; [done|]; eauto).
  destruct (regex_new r); cbn; split; eauto; [by intros [? ?]|by intros [? ?]].
Qed.

Lemma collect_iff {A B} (f : A → result matcher_error B) l : (∃ k, collect f l = Ok k) ↔ Forall (λ x, ∃ y, f x = Ok y) l.
Proof.
  induction l as [|x l IH]; cbn; [split; [constructor|eauto]|]. rewrite Forall_cons, <- IH. split.
  - intros (k & Hk). apply bind_Ok in Hk as (y & Hy & Hk). apply bind_Ok in Hk as (ys & Hys & _). eauto.
  - intros ((y & ->) & ys & ->). cbn. eauto.
Qed.

Lemma ok_or_iff {E A} (x : option A) (e : E) : (∃ y, ok_or x e = Ok y) ↔ is_Some x.
Proof. destruct x; cbn; split; eauto; by intros [? ?]. Qed.

Lemma named_compiles_iff h header_name : (∃ m, compile_named_value_matcher h header_name = Ok m) ↔
  (header_name = true → is_Some (header_name_from_bytes (nm_name h))) ∧ nm_value h ≠ no_value_match ∧ value_compilable (nm_value h).
Proof.
  rewrite <- value_compiles_iff. unfold compile_named_value_matcher. transitivity
    ((header_name = true → is_Some (header_name_from_bytes (nm_name h))) ∧ ∃ m, value_from_config (nm_value h) = Ok (Some m)).
  - destruct header_name; [destruct (header_name_from_bytes _) as [n|]|]; cbn;
      try (destruct (value_from_config (nm_value h)) as [[m|]|]; cbn; naive_solver).
  - split; intros [Hn Hv]; (split; [done|]).
    + destruct Hv as [m Hm]. split; [|eauto]. intros He. by rewrite He in Hm.
    + destruct Hv as (Hne & [m|] & Hm); [eauto|]. destruct Hne. apply value_compiles_none in Hm.
      destruct (nm_value h) as [[] [] [] [] [] []]; done.
Qed.

Lemma protocol_compiles_iff name : (∃ m, compile_protocol name = Ok m) ↔ ∃ p, name ∈ protocol_names p.
Proof.
  split.
  - intros [m Hm]. assert (∃ p, protocol_matches m p = true) as [p Hp].
    { destruct m; [exists Http1|exists Http1|exists Http2|exists Http3|exists Websocket|exists Webtransport]; done. }
    exists p. by apply (protocol_compiles _ _ _ Hm).
  - intros [p Hp]. destruct p; repeat (apply elem_of_cons in Hp as [->|Hp]; [by eexists|]); by apply not_elem_of_nil in Hp.
Qed.

Lemma cert_compiles_iff c : (∃ m, compile_client_cert_matcher c = Ok m) ↔
  Forall value_compilable [cm_fingerprint_sha256 c; cm_subject_cn c; cm_san_dns c; cm_san_ip c].
Proof.
  rewrite !Forall_cons, <- !value_compiles_iff. unfold compile_client_cert_matcher. split.
  - intros (m & Hm). apply bind_Ok in Hm as (? & ? & Hm). apply bind_Ok in Hm as (? & ? & Hm).
    apply bind_Ok in Hm as (? & ? & Hm). apply bind_Ok in Hm as (? & ? & Hm). eauto 10.
  - intros ((? & ->) & (? & ->) & (? & ->) & (? & ->) & _). cbn. eauto.
Qed.

Lemma from_route_iff c : (∃ m, from_route c = Ok m) ↔ compilable c.
Proof.
  transitivity ((∃ k, collect (λ m, ok_or (method_from_bytes m) InvalidMethod) (mc_methods c) = Ok k)
    ∧ (∃ k, collect (λ m, compile_named_value_matcher m true) (mc_headers c) = Ok k)
    ∧ (∃ k, collect (λ m, compile_named_value_matcher m false) (mc_queries c) = Ok k)
    ∧ (∀ raw, pm_regex (mc_path c) = Some raw → is_Some (regex_new raw))
    ∧ (∃ k, collect (λ c, map_err InvalidCidr (cidr_parse c)) (mc_source_cidrs c) = Ok k)
    ∧ (∃ k, collect compile_protocol (mc_protocols c) = Ok k) ∧ ∃ m, compile_client_cert_matcher (mc_client_cert c) = Ok m).
  - unfold from_route. split.
    + intros (m & Hm). do 3 apply bind_Ok in Hm as (? & ? & Hm). apply bind_Ok in Hm as (re & Hre & Hm).
      do 3 apply bind_Ok in Hm as (? & ? & Hm). split_and!; eauto. intros raw Hraw. rewrite Hraw in Hre.
      destruct (regex_new raw); [eauto|done].
    + intros ((? & ->) & (? & ->) & (? & ->) & Hre & (? & ->) & (? & ->) & (? & ->)). cbn.
      destruct (pm_regex (mc_path c)) as [raw|]; [|cbn; eauto]. destruct (Hre raw eq_refl) as [r ->]. cbn. eauto.
  - rewrite !collect_iff, cert_compiles_iff. setoid_rewrite ok_or_iff. setoid_rewrite named_compiles_iff.
    setoid_rewrite protocol_compiles_iff.
    assert (Forall (λ x, ∃ y, map_err InvalidCidr (cidr_parse x) = Ok y) (mc_source_cidrs c)
      ↔ Forall (λ raw, ∃ n, cidr_parse raw = Ok n) (mc_source_cidrs c)) as ->.
    { apply Forall_proper; [|done]. intros x. destruct (cidr_parse x); cbn; naive_solver. }
    split; [intros (? & Hh & Hq & ? & ? & ? & ?); split|intros [? Hh Hq ? ? ? ?]; split_and!]; try done.
    all: first [apply (Forall_impl _ _ _ Hh)|apply (Forall_impl _ _ _ Hq)]; naive_solver.
Qed.

Lemma from_route_weight c m : from_route c = Ok m → specificity m = condition_weight c.
Proof.
  intros Hm. pose proof (from_route_compiled _ _ Hm) as [_ Hms Hhs Hqs _ Hcs Hps Hcc _ _]. revert Hm. unfold from_route. intros Hm.
  do 7 apply bind_Ok in Hm as (? & _ & Hm). injection Hm as <-. cbn in *. apply Forall2_length in Hms, Hhs, Hqs, Hcs, Hps.
  unfold condition_weight, len. rewrite Hms, Hhs, Hqs, Hcs, Hps. clear Hms Hhs Hqs Hcs Hps. revert Hcc. unfold compile_client_cert_matcher.
  intros Hc. apply bind_Ok in Hc as (f & Hf & Hc). apply bind_Ok in Hc as (s & Hs & Hc).
  apply bind_Ok in Hc as (d & Hd & Hc). apply bind_Ok in Hc as (i & Hi & Hc). injection Hc as <-.
  apply condition_compiles in Hf as [Hf _], Hs as [Hs _], Hd as [Hd _], Hi as [Hi _].
  unfold cert_specificity, set_weight. cbn. rewrite Hf, Hs, Hd, Hi. unfold Z.b2z.
  repeat match goal with |- context [if ?b then _ else _] => destruct b end; lia.
Qed.
End conditions.
