(* ===== verification/RouteSpec.v ===== *)
(** * What the route table promises

    Among the routes that match a request the table finds the one that is
    best in the order of priority, host, path prefix, conditions and
    configuration order; the shortcut for plain hosts and the prefilter for
    static files never change that; and a resolved upstream is one of the
    route's name.  The routes are described by the configuration alone,
    without the table's indices. *)

From stdpp Require Import countable gmap functions.
From S2P Require Import Prelude Bytes Text Net Identity RouteMatch RouteTable RouteConflicts RouteConditions.

(** ** Labels *)

Definition no_empty_label (host : bytes) : bool := negb (existsb is_empty (split_on 46 host)).

(** A wildcard [*.suffix] matches the hosts that continue the suffix to the
    left, label by label. *)
Definition wildcard_covers (suffix host : bytes) : bool := no_empty_label host && ends_with (46 :: suffix) host.

Lemma labels_suffix host suffix :
  (∃ pre, host = pre ++ 46 :: suffix) ↔ ∃ front, front ≠ [] ∧ split_on 46 host = front ++ split_on 46 suffix.
Proof.
  split.
  - intros [pre ->]. exists (split_on 46 pre). split; [apply split_on_nonempty|apply split_on_glue].
  - intros (front & Hne & Hs). exists (join_with 46 front). rewrite <- (join_split 46 host), Hs.
    pose proof (split_on_parts 46 host) as Hp. rewrite Hs in Hp. apply Forall_app in Hp as [Hp _].
    rewrite <- (split_join 46 front) at 1 by done. by rewrite <- split_on_glue, join_split.
Qed.

Lemma rlabels_prefix host suffix :
  (∃ k, (1 ≤ k < length (rlabels host))%nat ∧ rlabels suffix = take k (rlabels host))
  ↔ ∃ pre, host = pre ++ 46 :: suffix.
Proof.
  rewrite labels_suffix. unfold rlabels. rewrite length_reverse. split.
  - intros (k & Hk & Hr). exists (reverse (drop k (reverse (split_on 46 host)))).
    apply (f_equal reverse) in Hr. rewrite reverse_involutive in Hr. rewrite Hr, <- reverse_app, take_drop, reverse_involutive.
    split; [|done]. intros Hn. apply (f_equal length) in Hn. rewrite length_reverse, length_drop, length_reverse in Hn. cbn in Hn. lia.
  - intros (front & Hne & Hs). exists (length (split_on 46 suffix)). rewrite Hs, length_app, reverse_app.
    rewrite take_app_length' by by rewrite length_reverse. split; [|done].
    pose proof (split_on_nonempty 46 suffix). destruct front, (split_on 46 suffix); try done. cbn. lia.
Qed.

(** ** The trie *)

(** The entries at the end of a path. *)
Fixpoint entries_at (n : WildcardHostTrieNode) (path : list bytes) : list WildcardHostEntry :=
  match path with
  | [] => node_routes n
  | label :: path =>
      match children n !! label with
      | Some child => entries_at child path
      | None => []
      end
  end.

Lemma entries_at_empty path : entries_at empty_node path = [].
Proof. destruct path; [done|]. cbn. by rewrite lookup_empty. Qed.

Lemma entries_at_insert q e n p :
  entries_at (trie_insert_at q e n) p = if decide (p = q) then entries_at n p ++ [e] else entries_at n p.
Proof.
  revert n p. induction q as [|l q IH]; intros n [|l' p]; cbn; try done.
  destruct (decide (l = l')) as [<-|Hne].
  - rewrite lookup_insert_eq, IH. destruct (children n !! l) as [c|]; cbn; rewrite ?entries_at_empty;
      destruct (decide (p = q)) as [->|]; case_decide; done || congruence.
  - rewrite lookup_insert_ne by done. case_decide; [congruence|done].
Qed.

Lemma trie_walk_elem n d c labels w :
  w ∈ trie_walk n d c labels ↔
  ∃ k, (1 ≤ k ≤ length labels)%nat ∧ d + Z.of_nat k < c ∧ w ∈ entries_at n (take k labels).
Proof.
  revert n d. induction labels as [|l labels IH]; intros n d; cbn [trie_walk].
  { split; [by intros ?%not_elem_of_nil|]. intros (k & Hk & _). cbn in Hk. lia. }
  destruct (children n !! l) as [child|] eqn:Hc.
  - rewrite elem_of_app, IH. split.
    + intros [Hw|(k & Hk & Hd & Hw)].
      * exists 1%nat. destruct (Z.ltb_spec (d + 1) c); [|by apply not_elem_of_nil in Hw]. cbn. rewrite Hc.
        split_and!; [lia..|]. by destruct labels.
      * exists (S k). cbn. rewrite Hc. split_and!; [lia..|done].
    + intros ([|k] & Hk & Hd & Hw); [lia|]. cbn in Hw. rewrite Hc in Hw. destruct k as [|k].
      * left. rewrite (proj2 (Z.ltb_lt (d + 1) c)) by lia. by destruct labels.
      * right. exists (S k). cbn in Hk. split_and!; [lia..|done].
  - split; [by intros ?%not_elem_of_nil|]. intros ([|k] & Hk & Hd & Hw); [lia|]. cbn in Hw. rewrite Hc in Hw.
    by apply not_elem_of_nil in Hw.
Qed.

Lemma trie_matches_elem root host w :
  w ∈ trie_matches root host ↔
  no_empty_label host = true
  ∧ ∃ k, (1 ≤ k < length (rlabels host))%nat ∧ w ∈ entries_at root (take k (rlabels host)).
Proof.
  unfold trie_matches, no_empty_label. destruct (existsb is_empty (split_on 46 host)); cbn [negb].
  { split; [by intros ?%not_elem_of_nil|]. by intros [? _]. }
  rewrite trie_walk_elem. unfold len, rlabels. rewrite length_reverse. split.
  - intros (k & Hk & Hd & Hw). split; [done|]. exists k. split; [lia|done].
  - intros (_ & k & Hk & Hw). exists k. split_and!; [lia..|done].
Qed.

(** ** The order of matches *)

Definition same_rank (a b : RouteMatch) : Prop :=
  priority a = priority b ∧ host_score a = host_score b ∧ path_len a = path_len b
  ∧ matcher_specificity a = matcher_specificity b.

(** Lexicographic: priority, host, path, conditions, then the lower index. *)
Definition outranks (a b : RouteMatch) : Prop :=
  priority b < priority a
  ∨ priority a = priority b ∧ (host_score b < host_score a
  ∨ host_score a = host_score b ∧ (path_len b < path_len a
  ∨ path_len a = path_len b ∧ (matcher_specificity b < matcher_specificity a
  ∨ matcher_specificity a = matcher_specificity b ∧ (route_index a < route_index b)%nat))).

Lemma better_outranks a b : is_better_than a b = true ↔ outranks a b.
Proof.
  unfold is_better_than, outranks. rewrite !orb_true_iff, !andb_true_iff, !Z.ltb_lt, !Z.eqb_eq, Nat.ltb_lt. tauto.
Qed.

Lemma not_better_outranks a b : is_better_than a b = false ↔ ¬ outranks a b.
Proof. by rewrite <- better_outranks, not_true_iff_false. Qed.

Lemma better_irrefl a : is_better_than a a = false.
Proof. apply not_better_outranks. unfold outranks. lia. Qed.

Lemma better_trans a b c : is_better_than a b = true → is_better_than b c = true → is_better_than a c = true.
Proof. rewrite !better_outranks. unfold outranks. lia. Qed.

(** A match that is not better is worse, or has the same rank and index. *)
Lemma better_total a b : is_better_than a b = false →
  is_better_than b a = true ∨ same_rank a b ∧ route_index a = route_index b.
Proof. rewrite not_better_outranks, better_outranks. unfold outranks, same_rank. lia. Qed.

Lemma improve_elem best l m : foldl improve best l = Some m → m ∈ option_list best ++ l.
Proof.
  revert best. induction l as [|x l IH]; intros best; cbn [foldl]; [intros ->; cbn; set_solver|].
  intros Hm. apply IH in Hm. destruct best as [b|]; cbn in *; [|set_solver].
  destruct (is_better_than x b); cbn in *; set_solver.
Qed.

Lemma improve_unbeaten best l m m' : foldl improve best l = Some m → m' ∈ option_list best ++ l →
  is_better_than m' m = false.
Proof.
  revert best m'. induction l as [|x l IH]; intros best m'; cbn [foldl].
  { intros -> Hm. cbn in Hm. apply list_elem_of_singleton in Hm as ->. apply better_irrefl. }
  intros Hm Hin. assert (∀ y, y ∈ option_list (improve best x) → is_better_than y m = false) as Hkeep
    by (intros y Hy; apply (IH _ y Hm); set_solver).
  apply elem_of_app in Hin as [Hin|Hin]; [|apply elem_of_cons in Hin as [->|Hin]].
  - destruct best as [b|]; [|by apply not_elem_of_nil in Hin]. apply list_elem_of_singleton in Hin as ->.
    cbn in Hkeep. destruct (is_better_than x b) eqn:Hx; [|apply Hkeep; cbn; set_solver].
    destruct (is_better_than b m) eqn:Hb; [|done]. 
    pose proof (better_trans _ _ _ Hx Hb) as Hc. rewrite Hkeep in Hc; [done|]. cbn. set_solver.
  - destruct best as [b|]; cbn in Hkeep; [|apply Hkeep; set_solver].
    destruct (is_better_than x b) eqn:Hx; [apply Hkeep; set_solver|].
    pose proof (Hkeep b ltac:(set_solver)) as Hb. destruct (is_better_than x m) eqn:Hxm; [|done].
    apply better_total in Hx as [Hx|Hx].
    + rewrite (better_trans _ _ _ Hx Hxm) in Hb. done.
    + rewrite not_better_outranks in Hb. rewrite better_outranks in Hxm. unfold same_rank, outranks in *. lia.
  - apply (IH _ m' Hm). set_solver.
Qed.

Lemma improve_none best l : foldl improve best l = None → best = None ∧ l = [].
Proof.
  revert best. induction l as [|x l IH]; intros best; cbn; [done|]. intros [Hn _]%IH.
  destruct best; cbn in Hn; [by case_match|done].
Qed.

(** ** Patterns *)

(** The score a host pattern gives a host it matches. *)
Definition pattern_score (raw host : bytes) : option Z :=
  let pattern := normalize_host raw in
  if bool_decide (pattern = ascii "*") then Some 1
  else
    match strip_prefix (ascii "*.") pattern with
    | Some suffix => if wildcard_covers suffix host then Some (1000 + len suffix) else None
    | None => if bool_decide (pattern = host) then Some (10000 + len host) else None
    end.

Lemma pattern_score_Some raw host s :
  pattern_score raw host = Some s ↔
  match pattern_of raw with
  | CatchAll => s = 1
  | Wildcard suffix => wildcard_covers suffix host = true ∧ s = 1000 + len suffix
  | ExactHost h => h = host ∧ s = 10000 + len host
  end.
Proof.
  unfold pattern_score, pattern_of. case_bool_decide; [naive_solver|]. destruct (strip_prefix _ _) as [suffix|].
  - destruct (wildcard_covers suffix host); naive_solver.
  - case_bool_decide; naive_solver.
Qed.

(** A pattern covers a host: any, one that continues the suffix, or itself. *)
Definition pattern_covers (p : RouteHostPattern) (host : bytes) : Prop :=
  match p with
  | CatchAll => True
  | Wildcard suffix => wildcard_covers suffix host = true
  | ExactHost h => h = host
  end.

(** An exact host before a wildcard, a longer suffix before a shorter one,
    anything before the catch-all. *)
Definition more_specific (p q : RouteHostPattern) : Prop :=
  match p, q with
  | ExactHost _, (Wildcard _ | CatchAll) => True
  | Wildcard suffix, Wildcard suffix' => len suffix' < len suffix
  | Wildcard _, CatchAll => True
  | _, _ => False
  end.

Definition host_rank (p : RouteHostPattern) (host : bytes) : Z :=
  match p with
  | CatchAll => 1
  | Wildcard suffix => 1000 + len suffix
  | ExactHost _ => 10000 + len host
  end.

Lemma pattern_score_rank raw host s :
  pattern_score raw host = Some s ↔ pattern_covers (pattern_of raw) host ∧ s = host_rank (pattern_of raw) host.
Proof. rewrite pattern_score_Some. destruct (pattern_of raw); cbn; naive_solver. Qed.

(** Patterns that cover one host are ranked as they are specific. *)
Lemma host_rank_order p q host : pattern_covers p host → pattern_covers q host →
  (host_rank q host < host_rank p host ↔ more_specific p q) ∧ (host_rank p host = host_rank q host ↔ p = q).
Proof.
  assert (∀ suffix, wildcard_covers suffix host = true → ∃ pre, host = pre ++ 46 :: suffix) as Hw.
  { intros suffix [_ Hs]%andb_prop. by apply ends_with_spec in Hs. }
  assert (∀ suffix, wildcard_covers suffix host = true → len suffix < len host) as Hlen.
  { intros suffix [pre ->]%Hw. rewrite len_app, len_cons. pose proof (len_nonneg pre). lia. }
  destruct p as [|s|h], q as [|s'|h']; cbn; intros Hp Hq; try (apply Hlen in Hp as Hp'); try (apply Hlen in Hq as Hq');
    try (pose proof (len_nonneg s)); try (pose proof (len_nonneg s')); pose proof (len_nonneg host);
    (split; [split; intros; done || lia|split; intros; done || lia || congruence || idtac]).
  apply Hw in Hp as [pre Hp], Hq as [pre' Hq]. rewrite Hq in Hp. f_equal. assert (length s = length s') as Hl by (unfold len in *; lia).
  apply app_inj_2 in Hp as [_ [= ->]]; [done|cbn; lia].
Qed.

(** The host patterns of a configuration with the index of their route. *)
Definition hosts_of (configs : list RouteConfig) : list (nat * bytes) :=
  concat (imap (λ i r, map (pair i) (rc_hosts r)) configs).

Lemma hosts_of_snoc configs r : hosts_of (configs ++ [r]) = hosts_of configs ++ map (pair (length configs)) (rc_hosts r).
Proof. unfold hosts_of. rewrite imap_app, concat_app. cbn. by rewrite Nat.add_0_r, app_nil_r. Qed.

Lemma hosts_of_elem configs i raw : (i, raw) ∈ hosts_of configs ↔ ∃ r, configs !! i = Some r ∧ raw ∈ rc_hosts r.
Proof.
  induction configs as [|r configs IH] using rev_ind.
  { split; [by intros ?%not_elem_of_nil|]. intros (r & Hr & _). by rewrite lookup_nil in Hr. }
  rewrite hosts_of_snoc, elem_of_app, IH, list_elem_of_fmap. split.
  - intros [(r' & Hr & Hin)|(raw' & [= -> ->] & Hin)].
    + exists r'. split; [by apply lookup_app_l_Some|done].
    + exists r. by rewrite list_lookup_middle.
  - intros (r' & Hr & Hin). apply lookup_app_Some in Hr as [Hr|[Hge Hr]]; [left; by exists r'|]. right.
    apply list_lookup_singleton_Some in Hr as [Hi <-]. exists raw. split; [|done]. f_equal. lia.
Qed.

Section correctness.
Context `{HeaderLookup} `{MatchLib} {Plan : Type}.

Implicit Types (t : RouteTable Plan) (ps : list (nat * bytes)).

(** ** The indices *)

(** A trie entry for the pattern [raw] at the end of its labels. *)
Definition wildcard_at (path : list bytes) (w : WildcardHostEntry) (raw : bytes) : Prop :=
  ∃ suffix, pattern_of raw = Wildcard suffix ∧ path = rlabels suffix ∧ suffix_len w = len suffix.

(** The indices hold exactly the patterns [ps]. *)
Record indexed ps t : Prop := mkIndexed {
  idx_exact host i : i ∈ default [] (exact_hosts t !! host) ↔ ∃ raw, (i, raw) ∈ ps ∧ pattern_of raw = ExactHost host;
  idx_wild path w : w ∈ entries_at (wildcard_hosts t) path ↔
    ∃ raw, (w_route_index w, raw) ∈ ps ∧ wildcard_at path w raw;
  idx_catch i : i ∈ catch_all_hosts t ↔ ∃ raw, (i, raw) ∈ ps ∧ pattern_of raw = CatchAll;
}.

Lemma push_host_pattern i t raw :
  push_host i t raw =
  match pattern_of raw with
  | CatchAll =>
      mkTable (routes t) (exact_hosts t) (simple_exact_hosts t) (wildcard_hosts t)
        (catch_all_hosts t ++ [i]) (static_sendfile_prefixes t)
  | Wildcard suffix =>
      mkTable (routes t) (exact_hosts t) (simple_exact_hosts t)
        (trie_insert suffix i (wildcard_hosts t)) (catch_all_hosts t) (static_sendfile_prefixes t)
  | ExactHost h =>
      mkTable (routes t) (<[h := default [] (exact_hosts t !! h) ++ [i]]> (exact_hosts t))
        (simple_exact_hosts t) (wildcard_hosts t) (catch_all_hosts t) (static_sendfile_prefixes t)
  end.
Proof. unfold push_host, pattern_of. case_bool_decide; [done|]. by destruct (strip_prefix _ _). Qed.

Lemma snoc_pattern ps i raw j (P : bytes → Prop) :
  (∃ raw', (j, raw') ∈ ps ++ [(i, raw)] ∧ P raw') ↔ (∃ raw', (j, raw') ∈ ps ∧ P raw') ∨ j = i ∧ P raw.
Proof.
  setoid_rewrite elem_of_app. setoid_rewrite list_elem_of_singleton. split.
  - intros (raw' & [Hin|[= -> ->]] & HP); [left; by exists raw'|by right].
  - intros [(raw' & Hin & HP)|[-> HP]]; [exists raw'|exists raw]; (split; [|done]); [by left|by right].
Qed.

Lemma indexed_push_host ps t i raw : indexed ps t → indexed (ps ++ [(i, raw)]) (push_host i t raw).
Proof.
  intros [He Hw Hc]. rewrite push_host_pattern.
  destruct (pattern_of raw) as [|suffix|h] eqn:Hp; split; intros; cbn; rewrite snoc_pattern;
    rewrite <- ?He, <- ?Hw, <- ?Hc, ?Hp.
  all: try (split; [by left|]; intros [?|[_ Hx]]; [done|]; try discriminate Hx; destruct Hx as (? & Hx & _); congruence).
  - rewrite elem_of_app, list_elem_of_singleton. intuition.
  - unfold trie_insert. rewrite entries_at_insert. case_decide as Hd.
    + rewrite elem_of_app, list_elem_of_singleton. split; (intros [?|Hx]; [by left|right]).
      * rewrite Hx. split; [done|]. by exists suffix.
      * destruct Hx as [Hi (s & Hs & _ & Hl)]. destruct w as [wl wi]. cbn in *. congruence.
    + split; [by left|]. intros [?|[_ (s & Hs & Hpath & _)]]; [done|congruence].
  - destruct (decide (host = h)) as [->|Hne].
    + rewrite lookup_insert_eq. cbn. rewrite elem_of_app, list_elem_of_singleton. intuition.
    + rewrite lookup_insert_ne by done. split; [by left|]. intros [?|[_ Hx]]; [done|congruence].
Qed.

Lemma indexed_push_hosts ps t i raws :
  indexed ps t → indexed (ps ++ map (pair i) raws) (foldl (push_host i) t raws).
Proof.
  revert ps t. induction raws as [|raw raws IH]; intros ps t Ht; cbn; [by rewrite app_nil_r|].
  rewrite cons_middle, app_assoc. by apply IH, indexed_push_host.
Qed.

Lemma push_hosts_frame t i raws :
  routes (foldl (push_host i) t raws) = routes t
  ∧ static_sendfile_prefixes (foldl (push_host i) t raws) = static_sendfile_prefixes t.
Proof.
  revert t. induction raws as [|raw raws IH]; intros t; [done|]. cbn. destruct (IH (push_host i t raw)) as [-> ->].
  rewrite push_host_pattern. by destruct (pattern_of raw).
Qed.

Definition static_candidate (r : RouteConfig) : bool := is_some (rc_static_root r) && compression_off r.

(** The table of the routes [configs]. *)
Record built (indices : gmap bytes nat) (configs : list RouteConfig) t : Prop := mkBuilt {
  b_routes : map e_route (routes t) = configs;
  b_entries : Forall (λ e, e_matcher e = compiled_matcher (e_route e)
    ∧ e_upstream_index e = rc_upstream (e_route e) ≫= λ name, indices !! name) (routes t);
  b_index : indexed (hosts_of configs) t;
  b_static : static_sendfile_prefixes t = map effective_path_prefix (List.filter static_candidate configs);
}.

Lemma built_push_route indices configs t r plan bandwidth staged : built indices configs t →
  built indices (configs ++ [r])
    (push_route t r plan (rc_upstream r ≫= λ name, indices !! name) bandwidth staged).
Proof.
  intros [Hr He Hi Hs]. unfold push_route. destruct (push_hosts_frame t (length (routes t)) (rc_hosts r)) as [-> ->].
  assert (length (routes t) = length configs) as Hlen by by rewrite <- Hr, length_map.
  split; cbn.
  - by rewrite map_app, Hr.
  - apply Forall_app. split; [done|]. by constructor.
  - rewrite hosts_of_snoc, <- Hlen. apply indexed_push_hosts with (i := length (routes t)) (raws := rc_hosts r) in Hi.
    by destruct Hi.
  - rewrite List.filter_app, map_app, <- Hs. cbn. unfold static_candidate.
    destruct (_ && _); cbn; by rewrite ?app_nil_r.
Qed.

Lemma built_empty indices : built indices [] empty_table.
Proof.
  split; [done..| |done]. split; cbn.
  - intros host i. rewrite lookup_empty. cbn. split; [by intros ?%not_elem_of_nil|]. by intros (raw & ?%not_elem_of_nil & _).
  - intros path w. rewrite entries_at_empty. split; [by intros ?%not_elem_of_nil|]. by intros (raw & ?%not_elem_of_nil & _).
  - intros i. split; [by intros ?%not_elem_of_nil|]. by intros (raw & ?%not_elem_of_nil & _).
Qed.

Lemma add_route_built plan_for indices previous configs done t limiters : built indices done t →
  built indices (done ++ configs) (foldl (add_route plan_for indices previous) (t, limiters) configs).1.
Proof.
  revert done t limiters. induction configs as [|r configs IH]; intros done t limiters Hb; cbn [foldl]; [by rewrite app_nil_r|].
  rewrite cons_middle, app_assoc. unfold add_route at 2. destruct (previous ≫= _) as [handle|]; by apply IH, built_push_route.
Qed.

(** The table [new_with_waf_plan] builds. *)
Definition table_of plan_for upstreams configs previous limiters : RouteTable Plan :=
  (new_with_waf_plan plan_for upstreams configs previous limiters).1.

Lemma table_of_built plan_for upstreams configs previous limiters :
  built (upstream_indices upstreams) configs (table_of plan_for upstreams configs previous limiters).
Proof.
  unfold table_of, new_with_waf_plan.
  pose proof (add_route_built plan_for (upstream_indices upstreams) previous configs [] empty_table limiters (built_empty _)) as Hb.
  destruct (foldl _ _ _) as [t limiters']. by destruct Hb as [Hr He [Hi1 Hi2 Hi3] Hs].
Qed.

(** Every entry carries the plan of its route. *)
Definition planned (plan_for : RouteConfig → Plan) t : Prop := Forall (λ e, e_execution_plan e = plan_for (e_route e)) (routes t).

Lemma planned_push_route plan_for t r index bandwidth staged :
  planned plan_for t → planned plan_for (push_route t r (plan_for r) index bandwidth staged).
Proof.
  intros Hp. unfold planned, push_route. destruct (push_hosts_frame t (length (routes t)) (rc_hosts r)) as [-> _].
  apply Forall_app. split; [done|]. by repeat constructor.
Qed.

Lemma table_of_planned plan_for upstreams configs previous limiters :
  planned plan_for (table_of plan_for upstreams configs previous limiters).
Proof.
  assert (∀ t limiters, planned plan_for t → planned plan_for
    (foldl (add_route plan_for (upstream_indices upstreams) previous) (t, limiters) configs).1) as Hfold.
  { induction configs as [|r configs IH]; intros t limiters' Ht; [done|]. cbn [foldl]. unfold add_route at 2.
    destruct (previous ≫= _); by apply IH, planned_push_route. }
  specialize (Hfold empty_table limiters (Forall_nil_2 _)). unfold table_of, new_with_waf_plan.
  by destruct (foldl _ _ _) as [t limiters'].
Qed.

Lemma resolved_planned plan_for upstreams configs previous limiters host ctx current resolved :
  resolve_normalized_host_with_context (table_of plan_for upstreams configs previous limiters) host ctx current = Some resolved →
  rr_execution_plan resolved = plan_for (rr_route resolved).
Proof.
  pose proof (table_of_planned plan_for upstreams configs previous limiters) as Hp.
  unfold resolve_normalized_host_with_context. destruct (best_match _ _ _) as [m|]; [|done]. cbn. unfold resolve_match.
  destruct (routes _ !! route_index m) as [e|] eqn:He; [|done]. cbn. destruct (resolve_upstream e current).
  intros [= <-]. exact (Forall_lookup_1 _ _ _ _ Hp He).
Qed.

(** ** The best match *)

(** What the loops consider of a route index and host score. *)
Definition candidate_at t ctx (index_score : nat * Z) : option RouteMatch :=
  e ← routes t !! index_score.1;
  if path_prefix_matches (effective_path_prefix (e_route e)) (ctx_path ctx) then
    r ← match_request (e_matcher e) ctx;
    Some (candidate_of e index_score.1 index_score.2 r (specificity (e_matcher e)))
  else None.

Lemma consider_fold t ctx best l :
  foldl (consider_route t ctx) best l = foldl improve best (omap (candidate_at t ctx) l).
Proof.
  revert best. induction l as [|[i s] l IH]; intros best; [done|]. cbn [foldl omap list_omap]. rewrite IH. clear IH.
  unfold consider_route, candidate_at. cbn. destruct (routes t !! i) as [e|]; [|done]. cbn.
  destruct (path_prefix_matches _ _); [|done]. cbn. by destruct (match_request _ _).
Qed.

(** The route indices the loops visit, with their scores. *)
Definition visits t (host : bytes) : list (nat * Z) :=
  map (λ i, (i, 10000 + len host)) (default [] (exact_hosts t !! host))
  ++ map (λ w, (w_route_index w, 1000 + suffix_len w)) (trie_matches (wildcard_hosts t) host)
  ++ map (λ i, (i, 1)) (catch_all_hosts t).

Lemma best_match_visits t host ctx : best_match t host ctx = foldl improve None (omap (candidate_at t ctx) (visits t host)).
Proof.
  unfold best_match, visits. rewrite !consider_fold, !omap_app, !foldl_app. f_equal. f_equal.
  destruct (exact_hosts t !! host); [apply consider_fold|done].
Qed.

Lemma visits_elem indices configs t host i s : built indices configs t →
  (i, s) ∈ visits t host ↔ ∃ r raw, configs !! i = Some r ∧ raw ∈ rc_hosts r ∧ pattern_score raw host = Some s.
Proof.
  intros [_ _ [He Hw Hc] _]. unfold visits. rewrite !elem_of_app, !list_elem_of_fmap.
  transitivity (∃ raw, (i, raw) ∈ hosts_of configs ∧ pattern_score raw host = Some s).
  2:{ setoid_rewrite hosts_of_elem. split; [intros (raw & (r & ? & ?) & ?)|intros (r & raw & ? & ? & ?)]; eauto 6. }
  setoid_rewrite pattern_score_Some. split.
  - intros [(j & [= -> ->] & Hj)|[(w & [= -> ->] & Hj)|(j & [= -> ->] & Hj)]].
    + apply He in Hj as (raw & Hin & Hp). exists raw. by rewrite Hp.
    + apply trie_matches_elem in Hj as (Hne & k & Hk & Hj). apply Hw in Hj as (raw & Hin & suffix & Hp & Hpath & Hl).
      exists raw. rewrite Hp, Hl. split_and!; [done| |done]. unfold wildcard_covers. rewrite Hne. apply ends_with_spec.
      apply rlabels_prefix. eauto.
    + apply Hc in Hj as (raw & Hin & Hp). exists raw. by rewrite Hp.
  - intros (raw & Hin & Hs). destruct (pattern_of raw) as [|suffix|h] eqn:Hp.
    + right; right. exists i. subst s. split; [done|]. apply Hc. eauto.
    + destruct Hs as [[Hne Hend]%andb_prop ->]. right; left. exists (mkWildcard (len suffix) i). split; [done|].
      apply trie_matches_elem. split; [done|]. apply ends_with_spec, rlabels_prefix in Hend as (k & Hk & Hr).
      exists k. split; [done|]. rewrite <- Hr. apply Hw. exists raw. split; [done|]. by exists suffix.
    + destruct Hs as [-> ->]. left. exists i. split; [done|]. apply He. eauto.
Qed.

(** The matches of a request, by the configuration alone: a route one of
    whose host patterns matches the host, whose path prefix holds the path and
    whose conditions hold. *)
Definition candidate (configs : list RouteConfig) (host : bytes) ctx (m : RouteMatch) : Prop :=
  ∃ r raw score captured,
    configs !! route_index m = Some r ∧ raw ∈ rc_hosts r ∧ pattern_score raw host = Some score
    ∧ path_prefix_matches (effective_path_prefix r) (ctx_path ctx) = true
    ∧ match_request (compiled_matcher r) ctx = Some captured
    ∧ m = mkRouteMatch (route_index m) captured (mc_priority (rc_match r)) score
            (len (effective_path_prefix r)) (specificity (compiled_matcher r)).

Lemma built_entry indices configs t i r : built indices configs t → configs !! i = Some r →
  ∃ e, routes t !! i = Some e ∧ e_route e = r ∧ e_matcher e = compiled_matcher r
    ∧ e_upstream_index e = rc_upstream r ≫= λ name, indices !! name.
Proof.
  intros [Hr He _ _] Hi. rewrite <- Hr in Hi. apply list_lookup_fmap_Some in Hi as (e & He' & Hi). exists e.
  pose proof (Forall_lookup_1 _ _ _ _ He Hi) as [Hm Hu]. by rewrite He', Hm, Hu.
Qed.

Lemma built_route indices configs t i e : built indices configs t → routes t !! i = Some e → configs !! i = Some (e_route e).
Proof. intros [<- _ _ _] Hi. by rewrite list_lookup_fmap, Hi. Qed.

Lemma candidates_elem indices configs t host ctx m : built indices configs t →
  m ∈ omap (candidate_at t ctx) (visits t host) ↔ candidate configs host ctx m.
Proof.
  intros Hb. rewrite list_elem_of_omap. unfold candidate_at, candidate. split.
  - intros ([i s] & Hv & Hm). apply (visits_elem _ _ _ _ _ _ Hb) in Hv as (r & raw & Hi & Hin & Hs).
    destruct (built_entry _ _ _ _ _ Hb Hi) as (e & Ht & He & Hmt & _). cbn in Hm. rewrite Ht in Hm. cbn in Hm.
    rewrite He, Hmt in Hm. destruct (path_prefix_matches _ _) eqn:Hp; [|done].
    destruct (match_request _ _) as [captured|] eqn:Hr; [|done]. cbn in Hm. injection Hm as <-.
    exists r, raw, s, captured. cbn. unfold candidate_of. rewrite He. by split_and!.
  - intros (r & raw & s & captured & Hi & Hin & Hs & Hp & Hr & Hm). exists (route_index m, s). split.
    { apply (visits_elem _ _ _ _ _ _ Hb). eauto 6. }
    destruct (built_entry _ _ _ _ _ Hb Hi) as (e & Ht & He & Hmt & _). cbn. rewrite Ht. cbn. rewrite He, Hmt, Hp, Hr. cbn.
    unfold candidate_of. rewrite He. by rewrite Hm.
Qed.

(** Candidates of one rank and index are one. *)
Lemma candidate_unique configs host ctx a b : candidate configs host ctx a → candidate configs host ctx b →
  same_rank a b → route_index a = route_index b → a = b.
Proof.
  intros (r & raw & s & c & Hi & _ & _ & _ & Hc & Ha) (r' & raw' & s' & c' & Hi' & _ & _ & _ & Hc' & Hb) [_ [Hs _]] Heq.
  rewrite Heq, Hi' in Hi. injection Hi as <-. rewrite Hc in Hc'. injection Hc' as <-.
  rewrite Ha, Hb in Hs. cbn in Hs. subst s'. by rewrite Ha, Hb, Heq.
Qed.

Lemma best_match_spec indices configs t host ctx : built indices configs t →
  match best_match t host ctx with
  | Some m => candidate configs host ctx m
      ∧ ∀ m', candidate configs host ctx m' → m' = m ∨ is_better_than m m' = true
  | None => ∀ m, ¬ candidate configs host ctx m
  end.
Proof.
  intros Hb. rewrite best_match_visits. destruct (foldl improve None _) as [m|] eqn:Hm.
  - pose proof (improve_elem _ _ _ Hm) as Hin. cbn in Hin. apply (candidates_elem _ _ _ _ _ _ Hb) in Hin as Hc.
    split; [done|]. intros m' Hc'. apply (candidates_elem _ _ _ _ _ _ Hb) in Hc' as Hin'.
    pose proof (improve_unbeaten _ _ _ m' Hm Hin') as Hn. apply better_total in Hn as [?|[Hrank Heq]]; [by right|left].
    by apply (candidate_unique configs host ctx).
  - apply improve_none in Hm as [_ Hn]. intros m Hc. apply (candidates_elem _ _ _ _ _ _ Hb) in Hc. rewrite Hn in Hc.
    by apply not_elem_of_nil in Hc.
Qed.

(** ** Upstreams *)

Lemma find_upstream_spec k name upstreams :
  match find_upstream k name upstreams with
  | Some (i, u) => (k ≤ i)%nat ∧ upstreams !! (i - k)%nat = Some u ∧ up_name u = name
  | None => ∀ u, u ∈ upstreams → up_name u ≠ name
  end.
Proof.
  revert k. induction upstreams as [|u upstreams IH]; intros k; cbn; [by intros u ?%not_elem_of_nil|].
  case_bool_decide as Hn; [by rewrite Nat.sub_diag|]. specialize (IH (S k)). destruct (find_upstream _ _ _) as [[i v]|].
  - destruct IH as (Hk & Hl & Hv). split_and!; [lia| |done]. by replace (i - k)%nat with (S (i - S k))%nat by lia.
  - intros v [->|Hv]%elem_of_cons; [done|by apply IH].
Qed.

(** The upstream of a resolved route is the one its index names and bears the
    name the route gives; without one no upstream bears that name. *)
Definition upstream_of_name (upstreams : list UpstreamConfig) (name : bytes) (index : option nat) (u : option UpstreamConfig) : Prop :=
  match u with
  | Some u => up_name u = name ∧ ∃ i, index = Some i ∧ upstreams !! i = Some u
  | None => index = None ∧ ∀ u, u ∈ upstreams → up_name u ≠ name
  end.

Lemma resolve_upstream_spec (e : RouteEntry Plan) (indices : gmap bytes nat) upstreams :
  e_upstream_index e = rc_upstream (e_route e) ≫= (λ name, indices !! name) →
  match rc_upstream (e_route e) with
  | Some name => upstream_of_name upstreams name (resolve_upstream e upstreams).1 (resolve_upstream e upstreams).2
  | None => resolve_upstream e upstreams = (None, None)
  end.
Proof.
  intros He. unfold resolve_upstream. destruct (rc_upstream (e_route e)) as [name|]; [|by rewrite He].
  assert (upstream_of_name upstreams name (unzip_upstream (find_upstream 0 name upstreams)).1
    (unzip_upstream (find_upstream 0 name upstreams)).2) as Hfind.
  { unfold unzip_upstream, upstream_of_name. pose proof (find_upstream_spec 0 name upstreams) as Hf.
    destruct (find_upstream _ _ _) as [[i u]|]; cbn; [|done]. destruct Hf as (_ & Hl & Hn). rewrite Nat.sub_0_r in Hl. eauto. }
  destruct (e_upstream_index e) as [i|]; [|done]. destruct (upstreams !! i) as [u|] eqn:Hu; cbn; [|done].
  case_bool_decide; [cbn; eauto|done].
Qed.

(** ** What a resolution is *)

(** A path lies within a prefix at a segment boundary. *)
Definition within (prefix path : bytes) : Prop := prefix = [47] ∨ path = prefix ∨ ∃ rest, path = prefix ++ 47 :: rest.

Lemma path_prefix_within prefix path : path_prefix_matches prefix path = true ↔ within prefix path.
Proof.
  unfold path_prefix_matches, within. case_bool_decide; [naive_solver|]. case_bool_decide; [naive_solver|].
  destruct (strip_prefix prefix path) as [k|] eqn:Hk.
  - apply strip_prefix_spec in Hk as ->. rewrite starts_with_spec. split.
    + intros [rest ->]. right; right. by exists rest.
    + intros [?|[?|[rest Hr]]]; [done..|]. apply app_inv_head in Hr as ->. by exists rest.
  - split; [done|]. intros [?|[?|[rest ->]]]; [done..|]. by rewrite (proj2 (strip_prefix_spec _ _ (47 :: rest))) in Hk.
Qed.

(** A route of the configuration that matches a request, and the pattern by
    which it does. *)
Record Matched : Type := mkMatched {
  mt_index : nat;
  mt_route : RouteConfig;
  mt_pattern : RouteHostPattern;
}.

(** The request's host is covered, its path lies within the route's prefix,
    and it meets the conditions, which are well formed. *)
Record matched (configs : list RouteConfig) (host : bytes) ctx (x : Matched) : Prop := mkMatches {
  mx_route : configs !! mt_index x = Some (mt_route x);
  mx_pattern : ∃ raw, raw ∈ rc_hosts (mt_route x) ∧ pattern_of raw = mt_pattern x;
  mx_host : pattern_covers (mt_pattern x) host;
  mx_path : within (effective_path_prefix (mt_route x)) (ctx_path ctx);
  mx_compilable : compilable (rc_match (mt_route x));
  mx_conditions : conditions_hold (rc_match (mt_route x)) ctx;
}.

(** Higher priority, then the more specific pattern, then the longer prefix,
    then the more conditions, then the earlier route. *)
Definition precedes (x y : Matched) : Prop :=
  let weigh z := condition_weight (rc_match (mt_route z)) in
  let depth z := len (effective_path_prefix (mt_route z)) in
  let rank z := mc_priority (rc_match (mt_route z)) in
  rank y < rank x
  ∨ rank x = rank y ∧ (more_specific (mt_pattern x) (mt_pattern y)
  ∨ mt_pattern x = mt_pattern y ∧ (depth y < depth x
  ∨ depth x = depth y ∧ (weigh y < weigh x
  ∨ weigh x = weigh y ∧ (mt_index x < mt_index y)%nat))).

(** The texts the path pattern of a route captures. *)
Definition captured_texts (c : RouteMatchConfig) (path : bytes) : list bytes :=
  map (default []) (default [] (raw ← pm_regex (mc_path c); r ← regex_new raw; captures r path)).

Lemma match_request_captures c m ctx result : compiled c m → match_request m ctx = Some result →
  path_captures result = captured_texts c (ctx_path ctx).
Proof.
  intros Hc. unfold match_request. rewrite (cp_valid _ _ Hc). cbn [negb]. unfold captured_texts. destruct (prefix_only m) eqn:Hp.
  { destruct (cp_prefix_only _ _ Hc Hp) as (_ & _ & _ & _ & -> & _). by intros [= <-]. }
  repeat match goal with |- (if ?b then None else _) = _ → _ => destruct b; [done|] end.
  pose proof (cp_regex _ _ Hc) as Hr. destruct (pm_regex (mc_path c)) as [raw|]; [destruct Hr as (r & Hr & ->)|rewrite Hr; by intros [= <-]].
  cbn. rewrite Hr. cbn. destruct (captures r (ctx_path ctx)); [by intros [= <-]|done].
Qed.

(** The entry of the table's comparison for a matching route. *)
Definition entry_of (host : bytes) ctx (x : Matched) : RouteMatch :=
  let c := rc_match (mt_route x) in
  mkRouteMatch (mt_index x) (mkMatcherResult (captured_texts c (ctx_path ctx))) (mc_priority c) (host_rank (mt_pattern x) host)
    (len (effective_path_prefix (mt_route x))) (condition_weight c).

Lemma candidate_matched configs host ctx m :
  candidate configs host ctx m ↔ ∃ x, matched configs host ctx x ∧ m = entry_of host ctx x.
Proof.
  split.
  - intros (r & raw & s & captured & Hi & Hin & Hs & Hp & Hm & Ha). unfold compiled_matcher in Hm, Ha.
    destruct (from_route (rc_match r)) as [cm|] eqn:Hf; [|done]. pose proof (from_route_compiled _ _ Hf) as Hc.
    apply pattern_score_rank in Hs as [Hcov ->]. exists (mkMatched (route_index m) r (pattern_of raw)). split.
    + split; cbn; [done|eauto|done|by apply path_prefix_within|apply from_route_iff; eauto|].
      apply (conditions_decided _ _ _ Hc). by rewrite Hm.
    + rewrite Ha at 1. unfold entry_of. cbn. rewrite (from_route_weight _ _ Hf).
      pose proof (match_request_captures _ _ _ _ Hc Hm) as Hcap. destruct captured. cbn in Hcap. by rewrite Hcap.
  - intros ([i r p] & [Hi (raw & Hin & Hraw) Hcov Hp Hok Hcond] & ->). cbn in *. subst p. unfold candidate. cbn.
    apply from_route_iff in Hok as [cm Hf]. pose proof (from_route_compiled _ _ Hf) as Hc.
    apply (conditions_decided _ _ _ Hc) in Hcond. destruct (match_request cm ctx) as [captured|] eqn:Hm; [|done].
    exists r, raw, (host_rank (pattern_of raw) host), captured. unfold compiled_matcher. rewrite Hf. split_and!; try done.
    + by apply pattern_score_rank.
    + by apply path_prefix_within.
    + rewrite (from_route_weight _ _ Hf). pose proof (match_request_captures _ _ _ _ Hc Hm) as Hcap.
      destruct captured. cbn in Hcap. by rewrite Hcap.
Qed.

Lemma better_precedes configs host ctx x y : matched configs host ctx x → matched configs host ctx y →
  is_better_than (entry_of host ctx x) (entry_of host ctx y) = true → precedes x y.
Proof.
  intros Hx Hy. rewrite better_outranks. unfold outranks, precedes. cbn.
  destruct (host_rank_order (mt_pattern x) (mt_pattern y) host) as [<- <-]; [by destruct Hx|by destruct Hy|]. tauto.
Qed.

Lemma entry_of_inj configs host ctx x y : matched configs host ctx x → matched configs host ctx y →
  entry_of host ctx y = entry_of host ctx x → y = x.
Proof.
  intros Hx Hy Heq. pose proof (f_equal route_index Heq) as Hi. pose proof (f_equal host_score Heq) as Hs. cbn in Hi, Hs.
  destruct (host_rank_order (mt_pattern y) (mt_pattern x) host) as [_ Hp]; [by destruct Hy|by destruct Hx|]. apply Hp in Hs.
  destruct Hx as [Hx _ _ _ _ _], Hy as [Hy _ _ _ _ _]. rewrite Hi, Hx in Hy. destruct x, y; cbn in *. congruence.
Qed.

(** C3 (refinement). The table resolves a request exactly when some route of
    the configuration matches it (a host pattern covers the host, the path
    lies within the prefix, the conditions hold), to the match that precedes
    every other one: higher priority, then the more specific host pattern,
    then the longer path prefix, then the greater weight of conditions, then
    the earlier route.  The path captures are those of the route's pattern,
    and the upstream it returns is one of the name the route gives. *)
Theorem resolve_picks_best plan_for upstreams configs previous limiters host ctx current :
  let t := table_of plan_for upstreams configs previous limiters in
  match resolve_normalized_host_with_context t host ctx current with
  | None => ∀ x, ¬ matched configs host ctx x
  | Some resolved =>
      ∃ x, matched configs host ctx x
        ∧ (∀ y, matched configs host ctx y → y = x ∨ precedes x y)
        ∧ rr_route_index resolved = mt_index x
        ∧ rr_route resolved = mt_route x
        ∧ rr_path_captures resolved = captured_texts (rc_match (mt_route x)) (ctx_path ctx)
        ∧ match rc_upstream (mt_route x) with
          | Some name => upstream_of_name current name (rr_upstream_index resolved) (rr_upstream resolved)
          | None => rr_upstream_index resolved = None ∧ rr_upstream resolved = None
          end
  end.
Proof.
  intros t. pose proof (table_of_built plan_for upstreams configs previous limiters) as Hb. fold t in Hb.
  pose proof (best_match_spec _ _ _ host ctx Hb) as Hm. unfold resolve_normalized_host_with_context.
  destruct (best_match t host ctx) as [m|]; [|intros x Hx; apply (Hm (entry_of host ctx x)), candidate_matched; eauto].
  cbn. destruct Hm as [(x & Hx & ->)%candidate_matched Hbest].
  destruct (built_entry _ _ _ _ _ Hb (mx_route _ _ _ _ Hx)) as (e & Ht & He & _ & Hu). unfold resolve_match. cbn. rewrite Ht. cbn.
  rewrite <- He in Hu. pose proof (resolve_upstream_spec e _ current Hu) as Hup. rewrite He in Hup.
  destruct (resolve_upstream e current) as [ui u] eqn:Hru. exists x. cbn. split_and!; try done.
  - intros y Hy. destruct (Hbest (entry_of host ctx y)) as [Heq|Hbetter]; [apply candidate_matched; eauto|left|right].
    + by apply (entry_of_inj configs host ctx).
    + by apply (better_precedes configs host ctx).
  - destruct (rc_upstream (mt_route x)); [done|]. by injection Hup as -> ->.
Qed.

(** ** The shortcut for plain hosts *)

Lemma simple_hosts_lookup plan_for upstreams configs previous limiters host is_ :
  let t := table_of plan_for upstreams configs previous limiters in
  simple_exact_hosts t !! host = Some is_ →
  exact_hosts t !! host = Some is_ ∧ children (wildcard_hosts t) = ∅ ∧ catch_all_hosts t = []
  ∧ all_prefix_only (routes t) is_ = true.
Proof.
  unfold table_of, new_with_waf_plan. destruct (foldl _ _ _) as [t limiters']. cbn.
  destruct (trie_is_empty _) eqn:Ht, (is_empty _) eqn:Hc; cbn; rewrite ?lookup_empty; try done.
  intros [Hl Ha]%map_lookup_filter_Some. apply andb_prop in Ht as [_ Ht%bool_decide_eq_true]. apply is_empty_true in Hc. done.
Qed.

(** A route without conditions matches with no captures and no specificity. *)
Lemma prefix_only_plain r ctx : is_prefix_only (compiled_matcher r) = true →
  specificity (compiled_matcher r) = 0 ∧ match_request (compiled_matcher r) ctx = Some no_captures.
Proof.
  intros Hp. split.
  - revert Hp. unfold compiled_matcher. destruct (from_route _) as [m|] eqn:Hf; [|done]. unfold from_route in Hf.
    repeat (apply bind_Ok in Hf as (? & _ & Hf)). injection Hf as <-.
    unfold is_prefix_only, cert_is_empty. cbn [valid prefix_only specificity]. rewrite !andb_true_iff. intros Hp.
    unfold cert_specificity. repeat match goal with H : _ ∧ _ |- _ => destruct H end.
    repeat match goal with
    | H : is_empty ?l = true |- _ => apply is_empty_true in H; rewrite H; clear H
    | H : negb ?b = true |- _ => apply negb_true_iff in H; rewrite H; clear H
    end. done.
  - apply andb_prop in Hp as [Hv Hp]. unfold match_request. by rewrite Hv, Hp.
Qed.

Lemma simple_best_agrees t ctx score is_ best indices configs : built indices configs t →
  all_prefix_only (routes t) is_ = true →
  simple_best t score (ctx_path ctx) best is_
    = Some (foldl (consider_route t ctx) best (map (λ i, (i, score)) is_)).
Proof.
  intros Hb. revert best. induction is_ as [|i is_ IH]; intros best Ha; [done|]. cbn in Ha. apply andb_prop in Ha as [Hi Ha].
  cbn [simple_best map foldl]. unfold consider_route at 2. destruct (routes t !! i) as [e|] eqn:He; [|done]. cbn [mbind option_bind].
  destruct (path_prefix_matches _ _); cbn [negb]; [|by apply IH].
  destruct (built_entry _ _ _ _ _ Hb (built_route _ _ _ _ _ Hb He)) as (e' & He' & _ & Hm & _).
  rewrite He in He'. injection He' as <-. rewrite Hm in *. destruct (prefix_only_plain (e_route e) ctx Hi) as [-> ->]. by apply IH.
Qed.

Lemma trie_matches_leaf root host : children root = ∅ → trie_matches root host = [].
Proof.
  intros Hc. unfold trie_matches. case_match; [done|]. destruct (rlabels host); [done|]. cbn. by rewrite Hc, lookup_empty.
Qed.

(** Asking the shortcut for hosts with only path-prefix
    routes first, and the full table when it has no answer, is the same as
    asking the full table. *)
Lemma shortcut_agrees plan_for upstreams configs previous limiters host ctx current :
  let t := table_of plan_for upstreams configs previous limiters in
  match try_resolve_simple_exact_host t host (ctx_path ctx) current with
  | Some resolved => Some resolved
  | None => resolve_normalized_host_with_context t host ctx current
  end = resolve_normalized_host_with_context t host ctx current.
Proof.
  intros t. pose proof (table_of_built plan_for upstreams configs previous limiters) as Hb. fold t in Hb.
  unfold try_resolve_simple_exact_host. destruct (simple_exact_hosts t !! host) as [is_|] eqn:Hs; [|done].
  destruct (simple_hosts_lookup _ _ _ _ _ _ _ Hs) as (He & Hw & Hc & Ha). fold t in He, Hw, Hc, Ha. cbn.
  rewrite (simple_best_agrees t ctx _ _ None _ _ Hb Ha). cbn. unfold resolve_normalized_host_with_context, best_match.
  rewrite He, trie_matches_leaf, Hc by done. cbn. destruct (foldl _ _ _) as [m|]; [|done]. cbn. by destruct (resolve_match _ _ _).
Qed.

(** ** The prefilter for static files *)

(** A request line whose path resolves to a route that serves
    static files without compression passes the prefilter. *)
Theorem prefilter_keeps_static_routes plan_for upstreams configs previous limiters host ctx current resolved target :
  let t := table_of plan_for upstreams configs previous limiters in
  resolve_normalized_host_with_context t host ctx current = Some resolved →
  static_candidate (rr_route resolved) = true →
  origin_form_target_path target = Some (ctx_path ctx) →
  static_sendfile_target_can_match t target = true.
Proof.
  intros t Hr Hs Ht. pose proof (table_of_built plan_for upstreams configs previous limiters) as Hb. fold t in Hb.
  unfold resolve_normalized_host_with_context in Hr. pose proof (best_match_spec _ _ _ host ctx Hb) as Hm.
  destruct (best_match t host ctx) as [m|]; [|done]. cbn in Hr. unfold resolve_match in Hr.
  destruct (routes t !! route_index m) as [e|] eqn:He; [|done]. cbn in Hr. destruct (resolve_upstream e current) as [ui u].
  injection Hr as <-. cbn in Hs. pose proof (built_route _ _ _ _ _ Hb He) as Hi.
  destruct Hm as [(r & raw & s & c & Hi' & _ & _ & Hp & _) _]. rewrite Hi in Hi'. injection Hi' as <-.
  unfold static_sendfile_target_can_match. rewrite Ht, (b_static _ _ _ Hb). apply existsb_exists.
  exists (effective_path_prefix (e_route e)). split; [|done]. apply in_map, filter_In. split; [|done].
  apply list_elem_of_In. by eapply list_elem_of_lookup_2.
Qed.
End correctness.
