(* ===== verification/RouteReload.v ===== *)
(** * Bandwidth limiters across reloads

    [RouteTable] and [Bandwidth] together: a process in which tables are built
    from the active one, published or discarded, while traffic works on any
    limiter that exists.  A published route is limited by its configured
    policy, in the limiter, with the credit, debt and waiters, that the route
    of its name had before.  [AppHandle::replace] of
    [src/source/src/state/handle.rs] activates a table before it publishes
    it. *)

From stdpp Require Import countable gmap functions.
From S2P Require Import Prelude Bytes Text Bandwidth BandwidthSpec BandwidthLive Net Identity RouteMatch RouteTable RouteSpec.

(** ** Policies of limiters *)

Lemma try_reserve_rate b request deficit r b' : try_reserve b request deficit = Some (r, b') → bk_rate b' = bk_rate b.
Proof. unfold try_reserve. intros Ht. repeat (case_match; simplify_eq/=; try done). Qed.

Lemma round_rate turns b granted made_progress : bk_rate (round turns b granted made_progress).1.1 = bk_rate b.
Proof.
  revert b granted made_progress. induction turns as [|turns IH]; intros b granted made_progress; [done|]. cbn [round].
  destruct (bk_queue b) as [|w queue]; [done|].
  assert (bk_rate (serve (b <| bk_queue := queue |>) w).1.1 = bk_rate b) as Hs.
  { unfold serve. destruct (try_reserve _ _ _) as [[r b']|] eqn:Ht; [|done]. by apply try_reserve_rate in Ht. }
  destruct (serve _ w) as [[b' served] progress]. by rewrite IH.
Qed.

Lemma rounds_rate fuel b granted : bk_rate (rounds fuel b granted).1 = bk_rate b.
Proof.
  revert b granted. induction fuel as [|fuel IH]; intros b granted; [done|]. cbn [rounds].
  destruct (is_empty _); [done|]. pose proof (round_rate (length (bk_queue b)) b granted false) as Hr.
  destruct (round _ _ _ _) as [[b' granted'] []]; [by rewrite IH|done].
Qed.

Lemma dispatch_rate b now : bk_rate (dispatch b now).1 = bk_rate b.
Proof.
  destruct (refill_frame b now) as (_ & _ & Hr). unfold dispatch. destruct (is_empty _); [done|].
  destruct (bool_decide (bk_rate _ = Unlimited)); [done|]. destruct (0 <? _); [done|]. by rewrite rounds_rate.
Qed.

Lemma bucket_update_rate b rate now : bk_rate (bucket_update b rate now) = rate.
Proof. unfold bucket_update. by destruct (foldl _ _ _) as [retained completed]. Qed.

Lemma policy_update s p now : policy (update s p now) = p.
Proof.
  unfold policy, update. cbn [foldl set_bucket bucket lm_upload lm_download].
  destruct p. cbn -[dispatch bucket_update]. by rewrite !dispatch_rate, !bucket_update_rate.
Qed.

Section reload.
Context `{HeaderLookup} `{MatchLib} {Plan : Type}.
Implicit Types (t : RouteTable Plan) (limiters : Limiters).

(** ** The process *)

Record Process : Type := mkProcess {
  active : option (RouteTable Plan);
  store : Limiters;
}.

(** Validation refuses two routes of a name. *)
Definition distinct_names (configs : list RouteConfig) : bool := bool_decide (NoDup (map rc_name configs)).

Inductive event : Type :=
  | Publish (plan_for : RouteConfig → Plan) (upstreams : list UpstreamConfig) (configs : list RouteConfig)
  | Discard (plan_for : RouteConfig → Plan) (upstreams : list UpstreamConfig) (configs : list RouteConfig)
  | Traffic (handle : Z) (o : op)
  | Elapse (now : Z).

(** A table is built from the active one; its limiters exist from then on. *)
Definition build plan_for upstreams configs (p : Process) : RouteTable Plan * Limiters :=
  new_with_waf_plan plan_for upstreams configs (active p) (store p).

Definition publish plan_for upstreams configs (p : Process) : Process :=
  let '(t, limiters) := build plan_for upstreams configs p in
  mkProcess (Some t) (activate_bandwidth t limiters).

Definition happen (p : Process) (e : event) : Process :=
  match e with
  | Publish plan_for upstreams configs =>
      if distinct_names configs then publish plan_for upstreams configs p else p
  | Discard plan_for upstreams configs => mkProcess (active p) (build plan_for upstreams configs p).2
  | Traffic handle o =>
      mkProcess (active p) ((store p) <| limiters_by_handle ::= alter (λ s, (step Upload s o).1.1) handle |>)
  | Elapse now => mkProcess (active p) ((store p) <| clock := now |>)
  end.

(** The limiter a route of the active table answers to. *)
Definition handle_of (p : Process) (name : bytes) : option Z :=
  active p ≫= λ t, bandwidth_for_route_name t name.
Definition limiter_of (p : Process) (name : bytes) : option LimiterState :=
  handle_of p name ≫= λ handle, limiters_by_handle (store p) !! handle.

(** ** Handles *)

Record handles_ok (entries : list (RouteEntry Plan)) (limiters : Limiters) : Prop := mkHandlesOk {
  h_distinct : NoDup (map e_bandwidth entries);
  h_exist : Forall (λ e, is_Some (limiters_by_handle limiters !! e_bandwidth e)) entries;
  h_fresh : ∀ handle, is_Some (limiters_by_handle limiters !! handle) → handle < next_handle limiters;
}.

Definition entries_of (p : Process) : list (RouteEntry Plan) := default [] (routes <$> active p).

Lemma handle_entry p name handle : handle_of p name = Some handle →
  ∃ e, e ∈ entries_of p ∧ rc_name (e_route e) = name ∧ e_bandwidth e = handle.
Proof.
  unfold handle_of, entries_of. destruct (active p) as [t|]; [|done]. cbn. unfold bandwidth_for_route_name.
  destruct (List.find _ _) as [e|] eqn:Hf; [|done]. intros [= <-]. apply List.find_some in Hf as [Hin Hn].
  exists e. split; [by apply list_elem_of_In|]. by apply bool_decide_eq_true in Hn.
Qed.

Lemma handle_of_inj p name name' handle : NoDup (map e_bandwidth (entries_of p)) →
  handle_of p name = Some handle → handle_of p name' = Some handle → name = name'.
Proof.
  intros Hnd (e & He & <- & Hh)%handle_entry (e' & He' & <- & Hh')%handle_entry.
  apply list_elem_of_lookup in He as [i Hi]. apply list_elem_of_lookup in He' as [j Hj].
  assert (i = j) as <-; [|congruence]. eapply (NoDup_lookup _ _ _ handle Hnd).
  - change map with (@fmap list _). rewrite list_lookup_fmap, Hi. cbn. by rewrite Hh.
  - change map with (@fmap list _). rewrite list_lookup_fmap, Hj. cbn. by rewrite Hh'.
Qed.

(** ** Building *)

(** The entries built so far: a route has the limiter of its name, or a new
    one with its own policy. *)
Record staged (p : Process) (configs : list RouteConfig) (entries : list (RouteEntry Plan)) limiters : Prop := mkStaged {
  s_routes : map e_route entries = configs;
  s_entries : Forall (λ e, e_staged_bandwidth_policy e = route_bandwidth_policy (e_route e) ∧
    match handle_of p (rc_name (e_route e)) with
    | Some handle => e_bandwidth e = handle
    | None => next_handle (store p) ≤ e_bandwidth e < next_handle limiters ∧
        limiters_by_handle limiters !! e_bandwidth e
          = Some (limiter_new (e_staged_bandwidth_policy e) (clock (store p)))
    end) entries;
  s_clock : clock limiters = clock (store p);
  s_next : next_handle (store p) ≤ next_handle limiters;
  s_kept : ∀ handle, handle < next_handle (store p) →
    limiters_by_handle limiters !! handle = limiters_by_handle (store p) !! handle;
  s_ok : NoDup (map rc_name configs) → handles_ok entries limiters;
  s_bound : ∀ handle, is_Some (limiters_by_handle limiters !! handle) → handle < next_handle limiters;
}.

Lemma staged_empty p : handles_ok (entries_of p) (store p) → staged p [] [] (store p).
Proof. intros [_ _ Hf]. split; try done. split; [by constructor|done|done]. Qed.

Lemma push_route_entries t r plan index bandwidth policy :
  routes (push_route t r plan index bandwidth policy)
  = routes t ++ [mkEntry r (compiled_matcher r) plan index bandwidth policy].
Proof. unfold push_route. cbn. by destruct (push_hosts_frame t (length (routes t)) (rc_hosts r)) as [-> _]. Qed.

(** A new entry has a handle of no other one. *)
Lemma handle_unused p configs entries limiters name handle : handles_ok (entries_of p) (store p) →
  staged p configs entries limiters → name ∉ map rc_name configs →
  handle_of p name = Some handle ∨ (handle_of p name = None ∧ handle = next_handle limiters) →
  handle ∉ map e_bandwidth entries.
Proof.
  intros [Hd He Hf] [Hr Hs _ Hn _ _ _] Hname Hh (e & Heq & Hin)%list_elem_of_In%List.in_map_iff.
  apply list_elem_of_In in Hin. rewrite Forall_forall in Hs. destruct (Hs e Hin) as [_ Hb].
  assert (rc_name (e_route e) ≠ name) as Hne.
  { intros <-. apply Hname. rewrite <- Hr. apply list_elem_of_In, List.in_map, List.in_map, list_elem_of_In, Hin. }
  destruct (handle_of p (rc_name (e_route e))) as [h|] eqn:Hhe.
  - destruct Hh as [Hh|[_ ->]]; [by destruct Hne; apply (handle_of_inj p _ _ h); congruence|].
    destruct (handle_entry p _ _ Hhe) as (e' & Hin' & _ & Hb'). rewrite Forall_forall in He.
    specialize (Hf _ (He e' Hin')). lia.
  - destruct Hb as [Hb _]. destruct Hh as [Hh|[_ ->]]; [|lia].
    destruct (handle_entry p _ _ Hh) as (e' & Hin' & _ & Hb'). rewrite Forall_forall in He.
    specialize (Hf _ (He e' Hin')). lia.
Qed.

Lemma NoDup_map_snoc {A B} (f : A → B) l x : NoDup (map f (l ++ [x])) ↔ NoDup (map f l) ∧ f x ∉ map f l.
Proof.
  rewrite map_app, NoDup_app. cbn. split.
  - intros (? & Hx & _). split; [done|]. intros Hin. by apply (Hx _ Hin), list_elem_of_singleton.
  - intros (? & Hx). split; [done|]. split; [|by apply NoDup_singleton]. by intros y Hy ->%list_elem_of_singleton.
Qed.

(** A route of a known name takes its limiter. *)
Lemma staged_reuse p configs entries limiters r e h : handles_ok (entries_of p) (store p) →
  staged p configs entries limiters → handle_of p (rc_name r) = Some h →
  e_route e = r → e_bandwidth e = h → e_staged_bandwidth_policy e = route_bandwidth_policy r →
  staged p (configs ++ [r]) (entries ++ [e]) limiters.
Proof.
  intros Hp Hst Hh He Hb Hpol. pose proof Hst as [Hr Hs Hc Hn Hk Ho Hf].
  split; [by rewrite map_app, Hr; cbn; rewrite He| |done..| |done].
  - apply Forall_app. split; [done|]. repeat constructor; rewrite He; [done|]. by rewrite Hh.
  - intros (Hnc & Hni)%NoDup_map_snoc. destruct (Ho Hnc) as [Hod Hoe Hof].
    pose proof (handle_unused p configs entries limiters (rc_name r) h Hp Hst Hni (or_introl Hh)).
    destruct (handle_entry p _ _ Hh) as (e' & Hin' & _ & Hb'). destruct Hp as [_ Hpe Hpf]. rewrite Forall_forall in Hpe.
    pose proof (Hpe e' Hin') as Hex. rewrite Hb' in Hex. split; [by apply NoDup_map_snoc; rewrite Hb| |done].
    apply Forall_app. split; [done|]. repeat constructor. rewrite Hb, Hk by auto. done.
Qed.

(** Another one gets a limiter of its own. *)
Lemma staged_fresh p configs entries limiters r e : handles_ok (entries_of p) (store p) →
  staged p configs entries limiters → handle_of p (rc_name r) = None →
  e_route e = r → e_bandwidth e = next_handle limiters → e_staged_bandwidth_policy e = route_bandwidth_policy r →
  staged p (configs ++ [r]) (entries ++ [e])
    (limiters <| limiters_by_handle ::= <[next_handle limiters := limiter_new (route_bandwidth_policy r) (clock limiters)]> |>
       <| next_handle ::= Z.succ |>).
Proof.
  intros Hp Hst Hh He Hb Hpol. pose proof Hst as [Hr Hs Hc Hn Hk Ho Hf].
  set (m := limiters_by_handle limiters) in *. set (new := limiter_new _ _).
  assert (∀ h, h < next_handle limiters → <[next_handle limiters := new]> m !! h = m !! h) as Hold
    by (intros; apply lookup_insert_ne; lia).
  assert (∀ h, is_Some (<[next_handle limiters := new]> m !! h) → h < Z.succ (next_handle limiters)) as Hfresh.
  { intros h. destruct (decide (h = next_handle limiters)) as [->|Hne]; [lia|]. rewrite lookup_insert_ne by done.
    intros ?%Hf. lia. }
  split; [by rewrite map_app, Hr; cbn; rewrite He| |done|cbn; lia| | |done].
  - apply Forall_app. split.
    + apply (Forall_impl _ _ _ Hs). intros e' [He' Hm]. split; [done|]. revert Hm. destruct (handle_of p (rc_name (e_route e'))); [done|].
      intros [Hm Hl]. cbn. fold m. rewrite Hold by lia. split; [lia|done].
    + repeat constructor; rewrite He; [done|]. rewrite Hh, Hb, Hpol. split; [cbn; lia|]. cbn. by rewrite lookup_insert_eq, <- Hc.
  - intros h Hlt. cbn. fold m. rewrite Hold by lia. by apply Hk.
  - intros (Hnc & Hni)%NoDup_map_snoc. destruct (Ho Hnc) as [Hod Hoe Hof].
    pose proof (handle_unused p configs entries limiters (rc_name r) _ Hp Hst Hni (or_intror (conj Hh eq_refl))).
    split; [by apply NoDup_map_snoc; rewrite Hb| |done]. apply Forall_app. split.
    + apply (Forall_impl _ _ _ Hoe). intros e' Hse. cbn. fold m. rewrite Hold; [done|]. by apply Hof.
    + repeat constructor. rewrite Hb. cbn. by rewrite lookup_insert_eq.
Qed.

Lemma build_staged plan_for upstreams configs p : handles_ok (entries_of p) (store p) →
  let '(t, limiters) := build plan_for upstreams configs p in staged p configs (routes t) limiters.
Proof.
  intros Hp. assert (∀ done t limiters, staged p done (routes t) limiters →
    let s := foldl (add_route plan_for (upstream_indices upstreams) (active p)) (t, limiters) configs in
    staged p (done ++ configs) (routes s.1) s.2) as Hfold.
  { induction configs as [|r configs IH]; intros done t limiters Hs; cbn [foldl]; [by rewrite app_nil_r|].
    rewrite cons_middle, app_assoc. unfold add_route at 2 4. fold (handle_of p (rc_name r)).
    destruct (handle_of p (rc_name r)) as [h|] eqn:Hh; apply IH; rewrite push_route_entries;
      [by eapply staged_reuse|by eapply staged_fresh]. }
  specialize (Hfold [] empty_table (store p) (staged_empty p Hp)). unfold build, new_with_waf_plan.
  by destruct (foldl _ _ _) as [t limiters].
Qed.

(** ** Activation *)

Lemma activate_other now entries m h : h ∉ map e_bandwidth entries →
  foldl (activate_entry (Plan := Plan) now) m entries !! h = m !! h.
Proof.
  revert m. induction entries as [|e entries IH]; intros m; [done|]. cbn. intros [Hne Hni]%not_elem_of_cons.
  rewrite IH by done. unfold activate_entry. by rewrite lookup_alter_ne.
Qed.

Lemma activate_each now entries m e : NoDup (map e_bandwidth entries) → e ∈ entries →
  foldl (activate_entry (Plan := Plan) now) m entries !! e_bandwidth e
  = (λ s, update s (e_staged_bandwidth_policy e) now) <$> m !! e_bandwidth e.
Proof.
  revert m. induction entries as [|e' entries IH]; intros m; [by intros _ ?%not_elem_of_nil|]. cbn.
  intros [Hni Hnd]%NoDup_cons [<-|Hin]%elem_of_cons.
  - rewrite activate_other by done. unfold activate_entry. by rewrite lookup_alter_eq.
  - rewrite IH by done. unfold activate_entry. rewrite lookup_alter_ne; [done|].
    intros Heq. apply Hni. rewrite Heq. apply list_elem_of_In, List.in_map, list_elem_of_In, Hin.
Qed.

Lemma activate_exists now entries m h :
  is_Some (foldl (activate_entry (Plan := Plan) now) m entries !! h) ↔ is_Some (m !! h).
Proof.
  revert m. induction entries as [|e entries IH]; intros m; [done|]. cbn. rewrite IH. unfold activate_entry.
  by rewrite lookup_alter_is_Some.
Qed.

Lemma publish_ok plan_for upstreams configs p : NoDup (map rc_name configs) → handles_ok (entries_of p) (store p) →
  handles_ok (entries_of (publish plan_for upstreams configs p)) (store (publish plan_for upstreams configs p)).
Proof.
  intros Hnd Hp. pose proof (build_staged plan_for upstreams configs p Hp) as Hs. unfold publish.
  destruct (build _ _ _ _) as [t limiters]. destruct (s_ok _ _ _ _ Hs Hnd) as [Hd He Hf]. split; [done|..]; cbn.
  - apply (Forall_impl _ _ _ He). intros e. by rewrite activate_exists.
  - intros h. rewrite activate_exists. apply Hf.
Qed.

Lemma happen_ok p e : handles_ok (entries_of p) (store p) → handles_ok (entries_of (happen p e)) (store (happen p e)).
Proof.
  intros Hp. pose proof Hp as [Hd He Hf]. destruct e as [plan_for upstreams configs|plan_for upstreams configs|h o|now]; cbn [happen].
  - unfold distinct_names. case_bool_decide; [by apply publish_ok|done].
  - pose proof (build_staged plan_for upstreams configs p Hp) as Hs. destruct (build _ _ _ _) as [t limiters].
    split; [done| |exact (s_bound _ _ _ _ Hs)]. apply (Forall_impl _ _ _ He). intros e Hx.
    cbn [store snd]. by rewrite (s_kept _ _ _ _ Hs) by (by apply Hf).
  - split; [done|..]; cbn.
    + apply (Forall_impl _ _ _ He). intros e. by rewrite lookup_alter_is_Some.
    + intros h'. rewrite lookup_alter_is_Some. apply Hf.
  - by split.
Qed.

Definition process_start (now : Z) : Process := mkProcess None (mkLimiters ∅ 0 now).

Lemma events_ok now events : let p := foldl happen (process_start now) events in handles_ok (entries_of p) (store p).
Proof.
  assert (handles_ok (entries_of (process_start now)) (store (process_start now))) as Hp.
  { split; [by constructor|by constructor|]. cbn. intros h. rewrite lookup_empty. by intros []. }
  revert Hp. generalize (process_start now). induction events as [|e events IH]; intros p Hp; [done|]. by apply IH, happen_ok.
Qed.

Lemma entry_handle t e : NoDup (map rc_name (map e_route (routes t))) → e ∈ routes t →
  bandwidth_for_route_name t (rc_name (e_route e)) = Some (e_bandwidth e).
Proof.
  unfold bandwidth_for_route_name. induction (routes t) as [|e' entries IH]; [by intros _ ?%not_elem_of_nil|]. cbn.
  intros [Hni Hnd]%NoDup_cons [<-|Hin]%elem_of_cons; [by rewrite bool_decide_true|].
  rewrite bool_decide_false; [by apply IH|]. intros Heq. apply Hni. rewrite Heq.
  apply list_elem_of_In, List.in_map, List.in_map, list_elem_of_In, Hin.
Qed.

(** C19 (invariant). Whatever was published, discarded and transferred before,
    a published route is limited by its configured policy, in the very
    limiter, with its credit, debt and waiters, that the route of its name
    had, or in one of its own; and no two routes share one. *)
Theorem bandwidth_survives_reload now events plan_for upstreams configs : NoDup (map rc_name configs) →
  let p := foldl happen (process_start now) events in
  let p' := publish plan_for upstreams configs p in
  (∀ r, r ∈ configs →
    let wanted := route_bandwidth_policy r in
    let before := default (limiter_new wanted (clock (store p))) (limiter_of p (rc_name r)) in
    (∀ handle, handle_of p (rc_name r) = Some handle → handle_of p' (rc_name r) = Some handle)
    ∧ limiter_of p' (rc_name r) = Some (update before wanted (clock (store p)))
    ∧ policy <$> limiter_of p' (rc_name r) = Some wanted) ∧
  (∀ name name' handle, handle_of p' name = Some handle → handle_of p' name' = Some handle → name = name').
Proof.
  intros Hnd p p'. pose proof (events_ok now events) as Hp. fold p in Hp.
  split; [|intros; eapply handle_of_inj; [apply (publish_ok plan_for upstreams configs p Hnd Hp)|done..]].
  intros r Hr wanted before.
  pose proof (build_staged plan_for upstreams configs p Hp) as Hs. subst p'. unfold publish.
  destruct (build plan_for upstreams configs p) as [t limiters]. pose proof Hs as [Hm Hse Hc Hn Hk Ho _].
  destruct (Ho Hnd) as [Hd _ _]. rewrite <- Hm in Hr, Hnd.
  apply list_elem_of_In, List.in_map_iff in Hr as (e & Her & Hin%list_elem_of_In).
  rewrite Forall_forall in Hse. destruct (Hse e Hin) as [Hpol Hb]. pose proof (entry_handle t e Hnd Hin) as Hhe.
  rewrite Her in Hpol, Hb, Hhe.
  assert (limiters_by_handle limiters !! e_bandwidth e = Some before) as Hbefore.
  { unfold before, limiter_of. destruct (handle_of p (rc_name r)) as [h|] eqn:Hh; cbn.
    - destruct (handle_entry p _ _ Hh) as (e' & Hin' & _ & Hb'). destruct Hp as [_ Hpe Hpf]. rewrite Forall_forall in Hpe.
      destruct (Hpe e' Hin') as [s Hls]. rewrite Hb' in Hls. rewrite Hb, Hk by (apply Hpf; by rewrite Hls). by rewrite Hls.
    - destruct Hb as [_ ->]. by rewrite Hpol. }
  assert (limiter_of (mkProcess (Some t) (activate_bandwidth t limiters)) (rc_name r)
    = Some (update before wanted (clock (store p)))) as Hafter.
  { unfold limiter_of, handle_of. cbn [active mbind option_bind]. rewrite Hhe. cbn.
    by rewrite activate_each, Hbefore, Hpol, Hc. }
  split; [|split; [done|rewrite Hafter; exact (f_equal Some (policy_update before wanted _))]].
  intros h Hh. rewrite Hh in Hb. unfold handle_of. cbn. by rewrite Hhe, Hb.
Qed.
End reload.
