(* ===== verification/RouteConflictsSpec.v ===== *)
(** * Validated routes never tie

    In a configuration that passes the conflict validation no request has two
    matching routes of equal precedence, so that the choice never falls to
    the order of the configuration: the overlap the validation computes is an
    over-approximation.  The one kind of condition it gets wrong is stated as
    a hypothesis, and [missed_conflict] shows what happens without it. *)

From stdpp Require Import countable gmap functions.
From S2P Require Import Prelude Bytes Text Net Identity IdentitySpec RouteMatch RouteTable RouteConflicts RouteConditions RouteSpec.

(** ** Hosts and paths *)

Lemma same_length_suffix {A} (a b s t : list A) : a ++ s = b ++ t → length s = length t → s = t.
Proof. intros Heq Hl. apply app_inj_2 in Heq as [_ ?]; [done|congruence]. Qed.

Lemma same_score_tie raw raw' host s :
  pattern_score raw host = Some s → pattern_score raw' host = Some s → tie_overlaps (pattern_of raw) (pattern_of raw') = true.
Proof.
  rewrite !pattern_score_Some. assert (∀ suffix, wildcard_covers suffix host = true →
    0 ≤ len suffix < len host ∧ ∃ pre, host = pre ++ 46 :: suffix) as Hw.
  { intros suffix [_ [pre ->]%ends_with_spec]%andb_prop. split; [|by exists pre]. rewrite len_app, len_cons.
    pose proof (len_nonneg pre). pose proof (len_nonneg suffix). lia. }
  pose proof (len_nonneg host).
  destruct (pattern_of raw) as [|w|h], (pattern_of raw') as [|w'|h']; cbn; try done.
  - intros -> [[Hl _]%Hw ?]. lia.
  - intros -> [_ ?]. lia.
  - intros [[Hl _]%Hw ->] ?. lia.
  - intros [[_ [pre Hp]]%Hw ->] [[_ [pre' Hp']]%Hw Hlen]. apply bool_decide_eq_true.
    rewrite Hp in Hp'. apply same_length_suffix in Hp'; [congruence|]. cbn. unfold len in Hlen. lia.
  - intros [[Hl _]%Hw ->] [_ ?]. lia.
  - intros [_ ->] ?. lia.
  - intros [_ ->] [[Hl _]%Hw ?]. lia.
  - intros [-> _] [-> _]. by apply bool_decide_eq_true.
Qed.

Lemma route_path_prefix_matches_same prefix path : route_path_prefix_matches prefix path = path_prefix_matches prefix path.
Proof. unfold route_path_prefix_matches, path_prefix_matches. by repeat case_bool_decide. Qed.

(** A rooted prefix is the beginning of every path it holds, or is [/]. *)
Lemma path_prefix_begins prefix path : path_prefix_matches prefix path = true → prefix = [47] ∨ ∃ rest, path = prefix ++ rest.
Proof.
  unfold path_prefix_matches. case_bool_decide; [by left|]. case_bool_decide as Hp; [right; exists []; by rewrite app_nil_r|].
  destruct (strip_prefix prefix path) as [rest|] eqn:Hs; [|done]. intros _. right. exists rest. by apply strip_prefix_spec.
Qed.

Lemma same_length_prefix prefix prefix' path :
  starts_with [47] prefix = true → starts_with [47] prefix' = true →
  path_prefix_matches prefix path = true → path_prefix_matches prefix' path = true → len prefix = len prefix' → prefix = prefix'.
Proof.
  assert (∀ p, starts_with [47] p = true → len p = 1 → p = [47]) as Hroot.
  { intros p [k ->]%starts_with_spec Hl. rewrite len_app in Hl. change (len [47]) with 1 in Hl. by destruct k as [|? k]; [|unfold len in Hl; cbn in Hl; lia]. }
  intros Hp Hp' [-> |[k ->]]%path_prefix_begins [-> |[k' Hk]]%path_prefix_begins Hl; try done.
  - symmetry. by apply Hroot.
  - by apply Hroot.
  - apply app_inj_1 in Hk as [? _]; [done|]. unfold len in Hl. lia.
Qed.

(** ** Pairs *)

Section ties.
Context `{HeaderLookup} `{MatchLib}.

Lemma conflicts_pair configs i j left right : validate_route_match_conflicts configs = Ok tt → (i < j)%nat →
  configs !! i = Some left → configs !! j = Some right → route_order_tie_can_match_same_request left right = Ok false.
Proof.
  revert i j. induction configs as [|first configs IH]; intros i j Hv Hij Hi Hj; [by rewrite lookup_nil in Hi|].
  cbn in Hv. destruct (conflicts_with first configs) as [[]|] eqn:Hc; [|done]. cbn in Hv.
  destruct j as [|j]; [lia|]. cbn in Hj. destruct i as [|i]; [|cbn in Hi; apply (IH i j); done || lia].
  injection Hi as ->. clear IH Hv Hij. revert j Hj Hc. induction configs as [|other configs IH]; intros j Hj Hc; [by destruct j|].
  cbn in Hc. destruct (route_order_tie_can_match_same_request left other) as [[]|] eqn:Ht; [done| |done]. cbn in Hc.
  destruct j as [|j]; [by injection Hj as ->|]. by apply (IH j).
Qed.

(** What the validation of a route has checked of it. *)
Definition route_checked (r : RouteConfig) : Prop :=
  validate_route_path_value (rc_path_prefix r) = Ok tt ∧ validate_route_match_config r = Ok tt.

(** No condition that a certificate has no common name or alternative name. *)
Definition no_absent_names (r : RouteConfig) : Prop :=
  Forall (λ v, vm_present v ≠ Some false)
    [cm_subject_cn (mc_client_cert (rc_match r)); cm_san_dns (mc_client_cert (rc_match r)); cm_san_ip (mc_client_cert (rc_match r))].

Lemma map_err_Ok {E F A} (f : E → F) (x : result E A) a : map_err f x = Ok a → x = Ok a.
Proof. destruct x; cbn; congruence. Qed.

Lemma path_value_rooted value : validate_route_path_value value = Ok tt → starts_with [47] value = true.
Proof. unfold validate_route_path_value. by destruct (starts_with [47] value). Qed.

Lemma checked_rooted r : route_checked r → starts_with [47] (effective_path_prefix r) = true.
Proof.
  intros [Hp Hm]. unfold effective_path_prefix. unfold validate_route_match_config in Hm.
  apply bind_Ok in Hm as (? & _ & Hm). apply bind_Ok in Hm as (? & Hset & _).
  destruct (pm_prefix (mc_path (rc_match r))) as [prefix|]; cbn in Hset |- *; [|by apply path_value_rooted].
  apply bind_Ok in Hset as ([] & Hv%map_err_Ok & _). by apply path_value_rooted.
Qed.

Lemma checked_count r : route_checked r → condition_count (cm_fingerprint_sha256 (mc_client_cert (rc_match r))) ≤ 1.
Proof.
  intros [_ Hm]. unfold validate_route_match_config in Hm. do 9 apply bind_Ok in Hm as (? & _ & Hm).
  apply bind_Ok in Hm as ([] & Hv%map_err_Ok & _). unfold validate_optional_value_match in Hv.
  destruct (Z.ltb_spec 1 (condition_count (cm_fingerprint_sha256 (mc_client_cert (rc_match r))))); [done|lia].
Qed.

(** ** Conditions that both hold *)

Lemma methods_overlap_common left right : (left = [] ∨ right = [] ∨ ∃ m, m ∈ left ∧ m ∈ right) → methods_overlap left right = true.
Proof.
  unfold methods_overlap. intros [-> |[-> |(m & Hl & Hr)]]; [done|by rewrite orb_true_r|].
  rewrite !orb_true_iff. right. apply existsb_exists. exists m. split; [by apply list_elem_of_In|].
  apply existsb_exists. exists m. split; [by apply list_elem_of_In|by apply bool_decide_eq_true].
Qed.

(** The bit of a protocol in the masks. *)
Definition protocol_bit (p : RouteRequestProtocol) : Z :=
  match p with Http1 => 0 | Http2 => 1 | Http3 => 2 | Websocket => 3 | Webtransport => 4 end.

Lemma protocol_mask_bit protocols p : (protocols = [] ∨ ∃ name, name ∈ protocols ∧ name ∈ protocol_names p) →
  Z.testbit (protocol_mask protocols) (protocol_bit p) = true.
Proof.
  assert (∀ l mask, Z.testbit mask (protocol_bit p) = true →
    Z.testbit (foldl (λ mask protocol, Z.lor mask (protocol_bits protocol)) mask l) (protocol_bit p) = true) as Hkeep.
  { induction l as [|x l IH]; intros mask Hm; [done|]. cbn. apply IH. by rewrite Z.lor_spec, Hm. }
  assert (∀ name, name ∈ protocol_names p → Z.testbit (protocol_bits name) (protocol_bit p) = true) as Hbits.
  { intros name Hn. destruct p; cbn in Hn; repeat (apply elem_of_cons in Hn as [->|Hn]; [done|]); by apply not_elem_of_nil in Hn. }
  intros [-> |(name & Hin & Hn)]; [by destruct p|]. unfold protocol_mask. destruct (is_empty protocols) eqn:He.
  { apply is_empty_true in He as ->. by apply not_elem_of_nil in Hin. }
  clear He. generalize 0 as mask. induction protocols as [|x l IH]; intros mask; [by apply not_elem_of_nil in Hin|]. cbn.
  apply elem_of_cons in Hin as [<-|Hin]; [|by apply IH]. apply Hkeep. rewrite Z.lor_spec, (Hbits _ Hn). apply orb_true_r.
Qed.

Lemma protocols_overlap_common left right p : 
  (left = [] ∨ ∃ name, name ∈ left ∧ name ∈ protocol_names p) → (right = [] ∨ ∃ name, name ∈ right ∧ name ∈ protocol_names p) →
  protocols_overlap left right = true.
Proof.
  intros Hl%protocol_mask_bit Hr%protocol_mask_bit. unfold protocols_overlap. apply negb_true_iff, Z.eqb_neq. intros Hz.
  apply (f_equal (λ z, Z.testbit z (protocol_bit p))) in Hz. rewrite Z.land_spec, Hl, Hr, Z.bits_0 in Hz. done.
Qed.

Lemma trusted_parse_all raws cidrs : Forall2 (λ x y, map_err InvalidCidr (cidr_parse x) = Ok y) raws cidrs →
  trusted_parse raws = Ok cidrs.
Proof.
  induction 1 as [|x y raws cidrs Hx Hl IH]; [done|]. cbn. destruct (cidr_parse x) as [c|]; [|done]. injection Hx as <-.
  cbn. by rewrite IH.
Qed.

Lemma source_cidrs_overlap_common left right lcs rcs ip : ip_wf ip →
  Forall2 (λ x y, map_err InvalidCidr (cidr_parse x) = Ok y) left lcs →
  Forall2 (λ x y, map_err InvalidCidr (cidr_parse x) = Ok y) right rcs →
  (∃ raw n, raw ∈ left ∧ cidr_parse raw = Ok n ∧ cidr_contains n ip = true) →
  (∃ raw n, raw ∈ right ∧ cidr_parse raw = Ok n ∧ cidr_contains n ip = true) →
  source_cidrs_overlap left right = Ok true.
Proof.
  intros Hip Hl Hr (x & n & Hx & Hn & Hc) (y & m & Hy & Hm & Hd). unfold source_cidrs_overlap.
  destruct left; [by apply not_elem_of_nil in Hx|]. destruct right; [by apply not_elem_of_nil in Hy|]. cbn [is_empty orb].
  assert (∀ raws cs raw k, Forall2 (λ x y, map_err InvalidCidr (cidr_parse x) = Ok y) raws cs → raw ∈ raws → cidr_parse raw = Ok k →
    k ∈ cs) as Hmem.
  { intros raws cs raw k Hf Hin Hk. apply list_elem_of_lookup_1 in Hin as [i Hi].
    destruct (Forall2_lookup_l _ _ _ _ _ Hf Hi) as (z & Hz & Hp). rewrite Hk in Hp. injection Hp as <-. by eapply list_elem_of_lookup_2. }
  pose proof (Hmem _ _ _ _ Hl Hx Hn) as Hin. pose proof (Hmem _ _ _ _ Hr Hy Hm) as Hin'.
  rewrite (trusted_parse_all _ _ Hl), (trusted_parse_all _ _ Hr). cbn. f_equal. apply existsb_exists. exists n.
  split; [by apply list_elem_of_In|]. apply existsb_exists. exists m. split; [by apply list_elem_of_In|].
  apply (overlaps_common_address _ _ _ _ Hn Hm). by exists ip.
Qed.

(** Presence and absence of one name exclude each other. *)
Lemma repeated_overlap_common (c d : RouteValueMatchConfig) (raw text : list bytes) : (raw = [] → text = []) →
  values_hold c (if is_some (vm_present c) then raw else text) →
  values_hold d (if is_some (vm_present d) then raw else text) → repeated_metadata_matchers_overlap c d = true.
Proof.
  unfold values_hold, repeated_metadata_matchers_overlap, absent. intros Ht Hc Hd.
  destruct (vm_present c) as [[]|], (vm_present d) as [[]|]; cbn in *; try done.
  - rewrite (Ht Hc) in Hd. by destruct Hd as (v & ?%not_elem_of_nil & _).
  - rewrite (Ht Hd) in Hc. by destruct Hc as (v & ?%not_elem_of_nil & _).
Qed.

Lemma named_overlap left right header (P : RouteNamedValueMatchConfig → Prop) :
  (∀ l r, P l → P r → normalized_matcher_name (nm_name l) header = normalized_matcher_name (nm_name r) header →
    repeated_metadata_matchers_overlap (nm_value l) (nm_value r) = true) →
  Forall P left → Forall P right → named_matchers_overlap left right header = true.
Proof.
  intros HP Hl Hr. unfold named_matchers_overlap. apply forallb_forall. intros l Hin. apply forallb_forall. intros r Hin'.
  apply list_elem_of_In in Hin, Hin'. case_bool_decide as Hn; [|done]. cbn. apply HP; [|..|done].
  - by apply (proj1 (Forall_forall _ _) Hl).
  - by apply (proj1 (Forall_forall _ _) Hr).
Qed.

Lemma headers_overlap_common left right hs : Forall (λ h, header_holds h hs) left → Forall (λ h, header_holds h hs) right →
  named_matchers_overlap left right true = true.
Proof.
  apply named_overlap. intros l r Hl Hr Hn. cbn in Hn. unfold header_holds in Hl, Hr. rewrite Hn in Hl.
  eapply repeated_overlap_common; [|exact Hl|exact Hr]. by intros ->.
Qed.

Lemma queries_overlap_common left right query : Forall (λ q, query_holds q query) left → Forall (λ q, query_holds q query) right →
  named_matchers_overlap left right false = true.
Proof.
  apply named_overlap. intros l r Hl Hr Hn. cbn in Hn. unfold query_holds in Hl, Hr. rewrite Hn in Hl.
  apply (repeated_overlap_common _ _ (query_values (nm_name r) query) (query_values (nm_name r) query)); [done|by case_match..].
Qed.

(** A configuration with at most one condition. *)
Inductive single : RouteValueMatchConfig → Prop :=
  | single_none : single no_value_match
  | single_present b : single (mkValueMatch (Some b) None None None None None)
  | single_exact e : single (mkValueMatch None (Some e) None None None None)
  | single_prefix p : single (mkValueMatch None None (Some p) None None None)
  | single_suffix s : single (mkValueMatch None None None (Some s) None None)
  | single_contains n : single (mkValueMatch None None None None (Some n) None)
  | single_regex r : single (mkValueMatch None None None None None (Some r)).

Lemma count_single c : condition_count c ≤ 1 → single c.
Proof.
  destruct c as [[] [] [] [] [] []]; unfold condition_count; cbn; intros Hc; first [exfalso; lia|constructor].
Qed.

Lemma common_prefix (p q value : bytes) : (∃ k, value = p ++ k) → (∃ k, value = q ++ k) →
  negb (starts_with q p) && negb (starts_with p q) = false.
Proof.
  intros [k Hk] [k' Hk']. rewrite Hk in Hk'. clear Hk value. revert q Hk'.
  induction p as [|x p IH]; intros [|y q] Heq; try done. injection Heq as -> Heq. cbn. rewrite Z.eqb_refl. by apply IH.
Qed.

Lemma common_suffix (p q value : bytes) : (∃ k, value = k ++ p) → (∃ k, value = k ++ q) →
  negb (ends_with q p) && negb (ends_with p q) = false.
Proof.
  intros [k ->] [k' Hk']. unfold ends_with. apply (common_prefix (reverse p) (reverse q) (reverse (k ++ p))).
  - exists (reverse k). by rewrite reverse_app.
  - exists (reverse k'). by rewrite Hk', reverse_app.
Qed.

(** What a single condition says of the one value that meets it. *)
Lemma single_holds c value : single c → set_holds c [value] →
  c = no_value_match ∨ vm_present c = Some true ∧ vm_exact c = None ∨ vm_present c = None ∧ value_holds c value.
Proof.
  intros Hs Hc. destruct Hs as [|b| | | | |]; [by left|..]; right; specialize (Hc eq_refl); unfold values_hold in Hc; cbn in Hc;
    [left; by destruct b|..]; destruct Hc as (x & ->%list_elem_of_singleton & Hx); by right.
Qed.

(** An exact value that meets a single condition is accepted by it. *)
Lemma accepts_exact_common c value : single c → set_holds c [value] → vm_exact c = None → value_matcher_accepts_exact c value = true.
Proof.
  intros Hs Hc He. destruct (single_holds c value Hs Hc) as [-> |[[Hp _]|[_ Hv]]]; [done|unfold value_matcher_accepts_exact; by rewrite Hp|].
  destruct Hs; try done; cbn in Hv |- *.
  - by rewrite (proj2 (starts_with_spec _ _)).
  - by rewrite (proj2 (ends_with_spec _ _)).
  - by rewrite (proj2 (contains_str_spec _ _)).
  - by destruct Hv as (re & -> & ->).
Qed.

(** One value that meets two single conditions is in their overlap. *)
Lemma value_overlap_common c d value : single c → single d → set_holds c [value] → set_holds d [value] →
  value_matchers_overlap c d = true.
Proof.
  intros Sc Sd Hc Hd. pose proof (single_holds c value Sc Hc) as Fc. pose proof (single_holds d value Sd Hd) as Fd.
  assert (optional_presence_overlaps (vm_present c) (vm_present d) = true ∧ absent (vm_present c) = false ∧ absent (vm_present d) = false)
    as (Ho & Ac & Ad).
  { destruct Fc as [-> |[[-> _]|[-> _]]], Fd as [-> |[[-> _]|[-> _]]]; done. }
  unfold value_matchers_overlap. rewrite Ho. cbn [negb].
  assert (∀ v, single v → set_holds v [value] → ∀ e, vm_exact v = Some e → value = e) as Hexact.
  { intros v Sv Hv e He. destruct (single_holds v value Sv Hv) as [-> |[[_ ?]|[_ Hx]]]; [done|congruence|]. destruct Sv; try done. by injection He as <-. }
  destruct (vm_exact c) as [e|] eqn:Ec, (vm_exact d) as [e'|] eqn:Ed.
  - apply bool_decide_eq_true. rewrite <- (Hexact c Sc Hc e Ec). by apply (Hexact d).
  - rewrite <- (Hexact c Sc Hc e Ec). by apply accepts_exact_common.
  - rewrite <- (Hexact d Sd Hd e' Ed). by apply accepts_exact_common.
  - unfold non_exact_value_matchers_can_overlap. rewrite Ac, Ad.
    destruct (value_has_conditions c) eqn:Wc; [|done]. destruct (value_has_conditions d) eqn:Wd; [|done]. cbn [negb orb].
    destruct Fc as [-> |[[Pc _]|[_ Vc]]]; [done|by destruct Sc; try done; destruct Sd|].
    destruct Fd as [-> |[[Pd _]|[_ Vd]]]; [done|by destruct Sd; try done; destruct Sc|].
    destruct Sc, Sd; try done; cbn in Vc, Vd |- *.
    + by rewrite (common_prefix _ _ value).
    + by rewrite (common_suffix _ _ value).
Qed.

Definition names_of (c : RouteClientCertMatchConfig) : list RouteValueMatchConfig := [cm_subject_cn c; cm_san_dns c; cm_san_ip c].

Lemma fingerprint_holds c tls protocol : cert_holds c tls protocol →
  set_holds (cm_fingerprint_sha256 c) [match tls ≫= client_certificate with Some cert => fingerprint_sha256 cert | None => [] end].
Proof.
  intros Hc Hv. assert (cert_has_conditions c = true) as Hh by (unfold cert_has_conditions; rewrite Hv; by destruct (is_some _)).
  destruct (Hc Hh) as [_ Hcert]. destruct (tls ≫= client_certificate) as [cert|]; [by apply Hcert|].
  destruct Hcert as (_ & _ & _ & Hf). apply Forall_cons in Hf as [Hf _]. congruence.
Qed.

Lemma cert_overlap_common c d tls protocol : cert_holds c tls protocol → cert_holds d tls protocol →
  single (cm_fingerprint_sha256 c) → single (cm_fingerprint_sha256 d) →
  Forall (λ v, vm_present v ≠ Some false) (names_of c) → Forall (λ v, vm_present v ≠ Some false) (names_of d) →
  client_cert_matchers_overlap c d = true.
Proof.
  intros Hc Hd Sc Sd Nc Nd. unfold client_cert_matchers_overlap.
  rewrite (value_overlap_common _ _ _ Sc Sd (fingerprint_holds _ _ _ Hc) (fingerprint_holds _ _ _ Hd)).
  assert (∀ v w, vm_present v ≠ Some false → vm_present w ≠ Some false → repeated_metadata_matchers_overlap v w = true) as Hrep.
  { intros v w Hv Hw. unfold repeated_metadata_matchers_overlap, absent. by rewrite !bool_decide_false. }
  repeat (apply Forall_cons in Nc as [? Nc]; apply Forall_cons in Nd as [? Nd]). rewrite !Hrep, !andb_true_r by done.
  assert (∀ k b, cert_holds k tls protocol → cm_present k = Some b → is_some (tls ≫= client_certificate) = b) as Hpres.
  { intros k b Hk Hb. apply Hk; [unfold cert_has_conditions; by rewrite Hb|done]. }
  destruct (cm_present c) as [b|] eqn:Pc, (cm_present d) as [b'|] eqn:Pd; [|by destruct b|done..].
  rewrite <- (Hpres c b), <- (Hpres d b') by done. by destruct (is_some _).
Qed.

(** ** Ties are found *)

Lemma cert_compiled_specificity c m : compile_client_cert_matcher c = Ok m → cert_specificity m = client_cert_matcher_specificity c.
Proof.
  unfold compile_client_cert_matcher. intros Hc. apply bind_Ok in Hc as (f & Hf & Hc). apply bind_Ok in Hc as (s & Hs & Hc).
  apply bind_Ok in Hc as (d & Hd & Hc). apply bind_Ok in Hc as (i & Hi & Hc). injection Hc as <-.
  apply condition_compiles in Hf as [Hf _], Hs as [Hs _], Hd as [Hd _], Hi as [Hi _].
  unfold cert_specificity, client_cert_matcher_specificity. cbn. by rewrite Hf, Hs, Hd, Hi.
Qed.

Lemma compiled_specificity r m : from_route (rc_match r) = Ok m → specificity m = route_matcher_specificity r.
Proof.
  intros Hm. pose proof (from_route_compiled _ _ Hm) as [_ Hms Hhs Hqs _ Hcs Hps Hcc _ _]. revert Hm. unfold from_route. intros Hm.
  apply bind_Ok in Hm as (ms & _ & Hm). apply bind_Ok in Hm as (hs & _ & Hm). apply bind_Ok in Hm as (qs & _ & Hm).
  apply bind_Ok in Hm as (re & _ & Hm). apply bind_Ok in Hm as (cs & _ & Hm). apply bind_Ok in Hm as (ps & _ & Hm).
  apply bind_Ok in Hm as (cc & _ & Hm). injection Hm as <-. cbn in *. unfold route_matcher_specificity, len. cbn.
  apply Forall2_length in Hms, Hhs, Hqs, Hcs, Hps. rewrite Hms, Hhs, Hqs, Hcs, Hps. by rewrite (cert_compiled_specificity _ _ Hcc).
Qed.

(** What a candidate says of its route. *)
Lemma candidate_matches configs host ctx a : candidate configs host ctx a →
  ∃ r raw m, configs !! route_index a = Some r ∧ raw ∈ rc_hosts r ∧ pattern_score raw host = Some (host_score a)
    ∧ path_prefix_matches (effective_path_prefix r) (ctx_path ctx) = true ∧ compiled (rc_match r) m
    ∧ conditions_hold (rc_match r) ctx ∧ priority a = mc_priority (rc_match r) ∧ path_len a = len (effective_path_prefix r)
    ∧ matcher_specificity a = route_matcher_specificity r.
Proof.
  intros (r & raw & s & captured & Hi & Hin & Hs & Hp & Hm & Ha). unfold compiled_matcher in Hm, Ha.
  destruct (from_route (rc_match r)) as [m|] eqn:Hf; [|done]. pose proof (from_route_compiled _ _ Hf) as Hc.
  exists r, raw, m. rewrite <- (compiled_specificity _ _ Hf). assert (conditions_hold (rc_match r) ctx)
    by (apply (conditions_decided _ _ _ Hc); by rewrite Hm). rewrite Ha. cbn. by split_and!.
Qed.

Lemma paths_overlap_common left right path m m' ctx :
  effective_path_prefix left = effective_path_prefix right → path = ctx_path ctx →
  path_prefix_matches (effective_path_prefix left) path = true →
  compiled (rc_match left) m → compiled (rc_match right) m' →
  conditions_hold (rc_match left) ctx → conditions_hold (rc_match right) ctx → path_domains_overlap left right = Ok true.
Proof.
  intros Hpre -> Hp Hm Hm' Hl Hr. unfold path_domains_overlap. rewrite bool_decide_true by done. cbn [negb].
  assert (∀ r, path_prefix_matches (effective_path_prefix r) (ctx_path ctx) = true → conditions_hold (rc_match r) ctx →
    pm_exact (mc_path (rc_match r)) = None → path_matches_route_path_constraints r (ctx_path ctx) = Ok true) as Hcon.
  { intros r Hpr Hc He. unfold path_matches_route_path_constraints. rewrite route_path_prefix_matches_same, Hpr, He. cbn [negb].
    destruct (pm_regex (mc_path (rc_match r))) as [raw|] eqn:Hre; [|done].
    destruct (on_regex _ _ Hc raw Hre) as (re & Hn & Hmatch). rewrite Hn. cbn. by rewrite Hmatch. }
  destruct (pm_exact (mc_path (rc_match left))) as [e|] eqn:El, (pm_exact (mc_path (rc_match right))) as [e'|] eqn:Er; try done.
  - f_equal. apply bool_decide_eq_true. rewrite <- (on_exact _ _ Hl e El). by apply (on_exact _ _ Hr).
  - rewrite <- (on_exact _ _ Hl e El). apply Hcon; [by rewrite <- Hpre|done..].
  - rewrite <- (on_exact _ _ Hr e' Er). by apply Hcon.
Qed.

Lemma predicates_overlap_common left right m m' ctx :
  compiled (rc_match left) m → compiled (rc_match right) m' →
  conditions_hold (rc_match left) ctx → conditions_hold (rc_match right) ctx →
  route_checked left → route_checked right → no_absent_names left → no_absent_names right →
  (∀ ip, ctx_source_ip ctx = Some ip → ip_wf ip) → route_predicates_can_overlap left right = Ok true.
Proof.
  intros Hm Hm' [L1 L2 L3 _ L5 L6 L7 _] [R1 R2 R3 _ R5 R6 R7 _] Cl Cr Nl Nr Hip. unfold route_predicates_can_overlap.
  rewrite methods_overlap_common; [|destruct L1 as [->|(x & Hx & ?)], R1 as [->|(y & Hy & ?)]; [by left..|by right; left|right; right]; exists x;
    rewrite Hx in Hy; injection Hy as <-; done].
  assert (∃ p, (mc_protocols (rc_match left) = [] ∨ ∃ name, name ∈ mc_protocols (rc_match left) ∧ name ∈ protocol_names p)
    ∧ (mc_protocols (rc_match right) = [] ∨ ∃ name, name ∈ mc_protocols (rc_match right) ∧ name ∈ protocol_names p)) as (p & Pl & Pr).
  { destruct L6 as [L6|(p & n & Hp & ? & ?)], R6 as [R6|(q & n' & Hq & ? & ?)]; 
      [exists Http1; by split; left|exists q; split; [by left|right; by exists n']|exists p; split; [right; by exists n|by left]|].
    rewrite Hp in Hq. injection Hq as <-. exists p. split; right; [by exists n|by exists n']. }
  rewrite (protocols_overlap_common _ _ p) by done. cbn [andb negb].
  assert (source_cidrs_overlap (mc_source_cidrs (rc_match left)) (mc_source_cidrs (rc_match right)) = Ok true) as ->.
  { destruct L5 as [-> |(ip & raw & n & Hi & Hl)]; [done|]. destruct R5 as [-> |(ip' & raw' & n' & Hi' & Hr)];
      [unfold source_cidrs_overlap; by rewrite orb_true_r|]. rewrite Hi in Hi'. injection Hi' as <-.
    apply (source_cidrs_overlap_common _ _ _ _ ip (Hip _ Hi) (cp_cidrs _ _ Hm) (cp_cidrs _ _ Hm')); eauto. }
  cbn. f_equal. rewrite (queries_overlap_common _ _ _ L3 R3).
  rewrite (cert_overlap_common _ _ _ _ L7 R7) by (try done; by apply count_single, checked_count).
  rewrite !andb_true_r. destruct L2 as [-> |(hs & Hh & Hl)]; [done|]. destruct R2 as [-> |(hs' & Hh' & Hr)].
  - apply forallb_forall. done.
  - rewrite Hh in Hh'. injection Hh' as <-. by apply (headers_overlap_common _ _ hs).
Qed.

(** Two candidates of one rank are a tie the validation finds. *)
Lemma tie_detected configs host ctx a b left right :
  candidate configs host ctx a → candidate configs host ctx b → same_rank a b →
  configs !! route_index a = Some left → configs !! route_index b = Some right →
  route_checked left → route_checked right → no_absent_names left → no_absent_names right →
  (∀ ip, ctx_source_ip ctx = Some ip → ip_wf ip) → route_order_tie_can_match_same_request left right = Ok true.
Proof.
  intros (r & raw & m & Hi & Hin & Hs & Hp & Hm & Hc & Hpr & Hl & Hsp)%candidate_matches
    (r' & raw' & m' & Hi' & Hin' & Hs' & Hp' & Hm' & Hc' & Hpr' & Hl' & Hsp')%candidate_matches (E1 & E2 & E3 & E4) Ha Hb Cl Cr Nl Nr Hip.
  rewrite Hi in Ha. injection Ha as ->. rewrite Hi' in Hb. injection Hb as ->.
  unfold route_order_tie_can_match_same_request. rewrite <- Hpr, <- Hpr', E1, Z.eqb_refl. cbn [negb].
  assert (host_score_tie_can_overlap left right = true) as ->.
  { apply existsb_exists. exists raw. split; [by apply list_elem_of_In|]. apply existsb_exists. exists raw'.
    split; [by apply list_elem_of_In|]. rewrite <- E2 in Hs'. by apply (same_score_tie _ _ host (host_score a)). }
  rewrite <- Hl, <- Hl', E3, Z.eqb_refl. cbn [negb].
  assert (effective_path_prefix left = effective_path_prefix right) as Hpre
    by (apply (same_length_prefix _ _ (ctx_path ctx)); try done; [by apply checked_rooted..|congruence]).
  rewrite (paths_overlap_common left right (ctx_path ctx) m m' ctx) by done. cbn.
  rewrite <- Hsp, <- Hsp', E4, Z.eqb_refl. cbn. by apply (predicates_overlap_common _ _ m m' ctx).
Qed.

(** C10 (safety). In a configuration that passes validation, without conditions
    that a certificate has no common or alternative name, no request has two
    matching routes of equal priority, host, path and condition precedence:
    the order of the routes in the configuration never decides. *)
Theorem validated_routes_never_tie configs host ctx a b :
  validate_route_match_conflicts configs = Ok tt → Forall route_checked configs → Forall no_absent_names configs →
  (∀ ip, ctx_source_ip ctx = Some ip → ip_wf ip) →
  candidate configs host ctx a → candidate configs host ctx b → same_rank a b → a = b.
Proof.
  intros Hv Hck Hna Hip Ha Hb Hrank. apply (candidate_unique configs host ctx); try done.
  pose proof Ha as (left & _ & _ & _ & Hl & _). pose proof Hb as (right & _ & _ & _ & Hr & _).
  assert (∀ i r, configs !! i = Some r → route_checked r ∧ no_absent_names r) as Hok
    by (intros i r Hir; split; eapply Forall_lookup_1; done).
  destruct (Hok _ _ Hl), (Hok _ _ Hr). destruct (Nat.lt_trichotomy (route_index a) (route_index b)) as [Hlt|[Heq|Hlt]]; [|done|].
  - pose proof (conflicts_pair _ _ _ _ _ Hv Hlt Hl Hr) as Hno. rewrite (tie_detected configs host ctx a b) in Hno; done.
  - pose proof (conflicts_pair _ _ _ _ _ Hv Hlt Hr Hl) as Hno. rewrite (tie_detected configs host ctx b a) in Hno; try done.
    unfold same_rank in *. intuition congruence.
Qed.
End ties.
