(* ===== verification/RoutePlan.v ===== *)
(** * Route execution plans

    [src/source/src/routes/plan.rs]: which fast paths a route may use and
    which features its requests need, derived from the configuration once.

    The plan of the web application firewall for the route is an argument, as
    in the code; the fingerprint of the No-Vary-Search scope is a hash of the
    configuration's debug form and a parameter. *)

From stdpp Require Import countable gmap functions.
From S2P Require Import Prelude Bytes Text Bandwidth Net Identity RouteMatch RouteTable.

Inductive StaticFilesSendfileMode : Type := SendfileOff | SendfileAuto.
Inductive ErrorResponseMode : Type := LegacyPlain | Plain | Json.
Inductive WafHttpBodyCompressionMode : Type := WafOff | WafTransform.

(** The parts of [Config] the plan reads; of the rate limits only whether
    there are any. *)
Record PlanConfig : Type := mkPlanConfig {
  pc_rate_limits : list bytes;
  pc_dynamic_policy_enabled : bool;
  pc_waf_body_compression : WafHttpBodyCompressionMode;
  pc_compression_enabled : bool;
  pc_cache_enabled : bool;
  pc_cache_no_vary_search : bool;
  pc_buffering_request : BufferingMode;
  pc_buffering_response : BufferingMode;
  pc_error_mode : ErrorResponseMode;
  pc_sendfile : StaticFilesSendfileMode;
  pc_upstreams : list UpstreamConfig;
}.

Inductive BodyNeed : Type := NeedNone | NeedSizeOnly | NeedPrefixBytes.
Inductive WafExecutionPlan : Type := WafNone | HeaderOnly | SizeOnly | PrefixBody | FullBody.

Record RouteWafExecutionPlan : Type := mkWafPlan {
  wp_request : WafExecutionPlan;
  wp_response : WafExecutionPlan;
  wp_stream_enabled : bool;
  wp_plain_proxy_fast_path_safe : bool;
  wp_static_sendfile_fast_path_safe : bool;
}.

Record FastPathPlan : Type := mkFastPath {
  plain_proxy_h1 : bool;
  plain_proxy_h2 : bool;
  plain_proxy_h3 : bool;
  static_small_object : bool;
  static_sendfile_like : bool;
  cache_hit : bool;
}.

Record RouteFeaturePlan : Type := mkFeatures {
  ft_cache : bool;
  ft_compression : bool;
  ft_connect_tunneling : bool;
  ft_direct_response_action : bool;
  ft_external_auth : bool;
  ft_generic_http_upgrade : bool;
  ft_grpc_web : bool;
  ft_ipm : bool;
  ft_redirect_action : bool;
  ft_resumable_upload : bool;
  ft_rewrite_action : bool;
  ft_static_files : bool;
  ft_upstream_pool : bool;
}.

(** [RouteWafExecutionPlan::disabled] *)
Definition waf_disabled : RouteWafExecutionPlan := mkWafPlan WafNone WafNone false true true.

Definition waf_execution_plan (enabled : bool) (body_need : BodyNeed) : WafExecutionPlan :=
  match enabled, body_need with
  | false, NeedNone => WafNone
  | _, NeedNone => HeaderOnly
  | _, NeedSizeOnly => SizeOnly
  | _, NeedPrefixBytes => PrefixBody
  end.

(** [WafExecutionPlan::enabled] and [body_need]. *)
Definition waf_enabled (p : WafExecutionPlan) : bool := match p with WafNone => false | _ => true end.
Definition waf_body_need (p : WafExecutionPlan) : BodyNeed :=
  match p with
  | WafNone | HeaderOnly => NeedNone
  | SizeOnly => NeedSizeOnly
  | PrefixBody | FullBody => NeedPrefixBytes
  end.

Definition modifier_has_actions (m : RouteHeaderModifierConfig) : bool :=
  negb (is_empty (hm_set m)) || negb (is_empty (hm_add m)) || negb (is_empty (hm_remove m)).

Definition has_actions (a : RouteActionsConfig) : bool :=
  ac_direct_response a || ac_rewrite a || ac_redirect a || modifier_has_actions (ac_request_headers a)
  || modifier_has_actions (ac_response_headers a) || ac_cors a || ac_request_mirrors a.

(** [effective_mode] and [transform_enabled]. *)
Definition route_http_body_compression_transform_enabled (config : PlanConfig) (r : RouteConfig) : bool :=
  match rc_waf_body_compression r with
  | RouteInherit => match pc_waf_body_compression config with WafTransform => true | WafOff => false end
  | RouteOff => false
  | RouteTransform => true
  end.

(** [route.compression.as_deref() == Some("off")] *)
Definition compression_says_off (r : RouteConfig) : bool := bool_decide (rc_compression r = Some (ascii "off")).

Definition route_feature_plan (config : PlanConfig) (r : RouteConfig) : RouteFeaturePlan := {|
  ft_cache := pc_cache_enabled config && negb (is_some (rc_static_root r));
  ft_compression := pc_compression_enabled config && negb (compression_says_off r);
  ft_connect_tunneling := rc_connect_tunneling r;
  ft_direct_response_action := ac_direct_response (rc_actions r);
  ft_external_auth := is_some (rc_external_auth r);
  ft_generic_http_upgrade := rc_generic_http_upgrade r;
  ft_grpc_web := rc_grpc_web r;
  ft_ipm := rc_ipm_enabled r;
  ft_redirect_action := ac_redirect (rc_actions r);
  ft_resumable_upload := is_some (rc_resumable_upload r);
  ft_rewrite_action := ac_rewrite (rc_actions r);
  ft_static_files := is_some (rc_static_root r);
  ft_upstream_pool := is_some (rc_upstream_pool r);
|}.

Definition is_streaming (mode : BufferingMode) : bool := bool_decide (mode = Streaming).

Definition can_plain_proxy_fast_path (config : PlanConfig) (r : RouteConfig) : bool :=
  is_empty (pc_rate_limits config)
  && negb (pc_dynamic_policy_enabled config)
  && negb (route_http_body_compression_transform_enabled config r)
  && negb (is_some (rc_external_auth r))
  && negb (is_some (rc_resumable_upload r))
  && negb (is_some (rc_compression_dictionary_profile r))
  && negb (is_some (rc_dictionary r))
  && (negb (pc_compression_enabled config) || compression_says_off r)
  && negb (is_some (rc_static_root r))
  && negb (has_actions (rc_actions r))
  && negb (rc_grpc_web r)
  && negb (rc_generic_http_upgrade r)
  && negb (rc_connect_tunneling r)
  && negb (is_some (rc_buffering_request r))
  && negb (is_some (rc_buffering_response r))
  && is_streaming (pc_buffering_request config)
  && is_streaming (pc_buffering_response config)
  && match pc_error_mode config with Json => false | _ => true end.

Definition can_static_sendfile_fast_path (config : PlanConfig) (r : RouteConfig) : bool :=
  match pc_sendfile config with SendfileAuto => true | SendfileOff => false end
  && negb (is_some (rc_compression_dictionary_profile r))
  && is_empty (pc_rate_limits config)
  && negb (pc_dynamic_policy_enabled config)
  && negb (route_http_body_compression_transform_enabled config r)
  && negb (is_some (rc_external_auth r))
  && negb (pc_compression_enabled config)
  && is_some (rc_static_root r)
  && negb (has_actions (rc_actions r))
  && compression_off r.

Definition bandwidth_unlimited (r : RouteConfig) : bool :=
  negb (is_some (upload_bytes_per_second (rc_bandwidth r))) && negb (is_some (download_bytes_per_second (rc_bandwidth r))).

Section plan.
Context {Digest : Type} (nvs_fingerprint : PlanConfig → RouteConfig → Digest).

Record RouteExecutionPlan : Type := mkExecutionPlan {
  fast_path : FastPathPlan;
  features : RouteFeaturePlan;
  waf : RouteWafExecutionPlan;
  nvs_context_fingerprint : option Digest;
}.

Definition route_execution_plan (config : PlanConfig) (r : RouteConfig) (w : RouteWafExecutionPlan) : RouteExecutionPlan :=
  let can_plain_proxy :=
    bandwidth_unlimited r && can_plain_proxy_fast_path config r && wp_plain_proxy_fast_path_safe w in
  let can_static_sendfile :=
    bandwidth_unlimited r && can_static_sendfile_fast_path config r && wp_static_sendfile_fast_path_safe w in
  let can_static_small_object :=
    bandwidth_unlimited r && is_some (rc_static_root r)
    && negb (route_http_body_compression_transform_enabled config r)
    && negb (has_actions (rc_actions r)) && compression_off r && wp_static_sendfile_fast_path_safe w in
  {| fast_path := {|
       plain_proxy_h1 := can_plain_proxy;
       plain_proxy_h2 := can_plain_proxy;
       plain_proxy_h3 := can_plain_proxy;
       static_small_object := can_static_small_object;
       static_sendfile_like := can_static_sendfile;
       cache_hit := bandwidth_unlimited r && is_some (rc_cache r) |};
     features := route_feature_plan config r;
     waf := w;
     nvs_context_fingerprint :=
       if pc_cache_enabled config && pc_cache_no_vary_search config && negb (is_some (rc_static_root r))
       then Some (nvs_fingerprint config r) else None |}.

(** ** What the plans promise *)

(** A route that may use the static fast path: what the plan's gate has
    established of its configuration. *)
Record statically_served (config : PlanConfig) (r : RouteConfig) (w : RouteWafExecutionPlan) : Prop := mkServed {
  sv_sendfile : pc_sendfile config = SendfileAuto;
  sv_rate_limits : pc_rate_limits config = [];
  sv_dynamic_policy : pc_dynamic_policy_enabled config = false;
  sv_external_auth : rc_external_auth r = None;
  sv_actions : rc_actions r = mkActions false false false (mkModifier [] [] []) (mkModifier [] [] []) false false;
  sv_compression : pc_compression_enabled config = false ∧ rc_compression_dictionary_profile r = None
    ∧ (rc_compression r = None ∨ rc_compression r = Some (ascii "off"));
  sv_body_transform : rc_waf_body_compression r = RouteOff
    ∨ rc_waf_body_compression r = RouteInherit ∧ pc_waf_body_compression config = WafOff;
  sv_bandwidth : rc_bandwidth r = mkRouteBandwidth None None;
  sv_firewall : wp_static_sendfile_fast_path_safe w = true;
}.

Lemma no_modifications m : modifier_has_actions m = false → m = mkModifier [] [] [].
Proof. by destruct m as [[] [] []]. Qed.

Lemma actions_none a : has_actions a = false →
  a = mkActions false false false (mkModifier [] [] []) (mkModifier [] [] []) false false.
Proof.
  destruct a as [d rw rd q p c m]. unfold has_actions. cbn. rewrite !orb_false_iff.
  intros ((((((-> & ->) & ->) & Hq) & Hp) & ->) & ->). by rewrite (no_modifications q), (no_modifications p).
Qed.

Lemma sendfile_plan_served config r w :
  static_sendfile_like (fast_path (route_execution_plan config r w)) = true → statically_served config r w.
Proof.
  cbn. unfold can_static_sendfile_fast_path, bandwidth_unlimited, compression_off, route_http_body_compression_transform_enabled.
  rewrite !andb_true_iff, !negb_true_iff, !is_some_false. intros H.
  repeat match goal with H : _ ∧ _ |- _ => destruct H end. split; try done.
  - by destruct (pc_sendfile config).
  - by apply is_empty_true.
  - by apply actions_none.
  - split_and!; [done..|]. destruct (rc_compression r); [right|by left]. f_equal. by eapply bool_decide_eq_true_1.
  - destruct (rc_waf_body_compression r), (pc_waf_body_compression config); auto; done.
  - destruct (rc_bandwidth r). cbn in *. by subst.
Qed.
End plan.
