(* ===== verification/RealIp.v ===== *)
(** * Scoped Real-IP policies

    [src/source/src/identity/real_ip.rs] with the selectors of
    [src/source/src/config/real_ip.rs]: a request's Real-IP policy is that of
    the first rule whose host and server-name selectors match, else the
    global one. *)

From S2P Require Import Prelude Bytes Text Net Identity RouteMatch RouteTable RouteConflicts.

(** [RealIpRuleConfig] *)
Record RealIpRuleConfig : Type := mkRule {
  ru_name : bytes;
  ru_hosts : list bytes;
  ru_server_names : list bytes;
  ru_policy : RealIpConfig;
}.

Inductive rule_error : Type :=
  | BadRuleName
  | DuplicateRule (name : bytes)
  | NoSelector
  | BadSelector (e : host_error)
  | BareWildcard
  | SniIsAddress
  | DuplicateSelector (selector : bytes).

(** [validate_runtime_identifier] *)
Definition runtime_identifier (value : bytes) : bool :=
  negb (padded_or_empty value)
  && forallb (λ b, is_ascii_alphanumeric b || (b =? 45) || (b =? 95) || (b =? 46)) value.

Definition normalize_real_ip_host_selector (host : bytes) : result rule_error bytes :=
  if padded_or_empty host then Err (BadSelector PaddedHost)
  else if existsb is_ascii_control host then Err (BadSelector ControlInHost)
  else
    let normalized := map to_ascii_lowercase (trim_end_matches 46 host) in
    if bool_decide (normalized = ascii "*") then Err BareWildcard
    else
      match ip_literal normalized ≫= parse_ip with
      | Some ip => Ok (display_ip ip)
      | None => map_err BadSelector (check_dns_pattern normalized)
      end.

Definition normalize_real_ip_server_name_selector (name : bytes) : result rule_error bytes :=
  if padded_or_empty name then Err (BadSelector PaddedHost)
  else if existsb is_ascii_control name then Err (BadSelector ControlInHost)
  else
    let normalized := map to_ascii_lowercase (trim_end_matches 46 name) in
    if is_some (parse_ip normalized) then Err SniIsAddress
    else map_err BadSelector (check_dns_pattern normalized).

(** A selector list without repetition. *)
Fixpoint validate_selectors (normalize : bytes → result rule_error bytes) (seen selectors : list bytes) : result rule_error unit :=
  match selectors with
  | [] => Ok tt
  | selector :: selectors =>
      normalized ← normalize selector;
      if bool_decide (normalized ∈ seen) then Err (DuplicateSelector selector)
      else validate_selectors normalize (normalized :: seen) selectors
  end.

Fixpoint validate_rules (names : list bytes) (rules : list RealIpRuleConfig) : result rule_error unit :=
  match rules with
  | [] => Ok tt
  | rule :: rules =>
      if negb (runtime_identifier (ru_name rule)) then Err BadRuleName
      else if bool_decide (ru_name rule ∈ names) then Err (DuplicateRule (ru_name rule))
      else if is_empty (ru_hosts rule) && is_empty (ru_server_names rule) then Err NoSelector
      else
        _ ← validate_selectors normalize_real_ip_host_selector [] (ru_hosts rule);
        _ ← validate_selectors normalize_real_ip_server_name_selector [] (ru_server_names rule);
        validate_rules (ru_name rule :: names) rules
  end.

Definition validate_real_ip_rules (rules : list RealIpRuleConfig) : result rule_error unit := validate_rules [] rules.

(** ** Patterns *)

Inductive NamePattern : Type :=
  | NameExact (exact : bytes)
  | NameSuffix (suffix : bytes)
  | NameIp (ip : IpAddr).

(** [NamePattern::new] *)
Definition name_pattern (normalized : bytes) (host : bool) : NamePattern :=
  match (if host then parse_ip normalized else None) with
  | Some ip => NameIp ip
  | None =>
      match strip_prefix (ascii "*.") normalized with
      | Some suffix => NameSuffix suffix
      | None => NameExact normalized
      end
  end.

(** [str.get(..i)] with [str.get(i..)]: both sides of a character boundary. *)
Definition split_at_char (i : Z) (l : bytes) : option (bytes * bytes) :=
  if (i <=? len l) && is_char_boundary l (Z.to_nat i) then Some (takeZ i l, dropZ i l) else None.

(** [NamePattern::matches] *)
Definition pattern_matches (p : NamePattern) (name : bytes) : bool :=
  match p with
  | NameExact exact => eq_ignore_ascii_case exact name
  | NameSuffix suffix =>
      if len name <? len suffix then false
      else
        match split_at_char (len name - len suffix) name with
        | Some (prefix, tail) => (1 <? len prefix) && ends_with [46] prefix && eq_ignore_ascii_case tail suffix
        | None => false
        end
  | NameIp ip => bool_decide (parse_ip name = Some ip)
  end.

(** ** The selector *)

Record CompiledRule : Type := mkCompiledRule {
  cr_hosts : list NamePattern;
  cr_server_names : list NamePattern;
  cr_policy : RealIpConfig;
}.

Fixpoint compile_names (normalize : bytes → result rule_error bytes) (host : bool) (names : list bytes) :
  result rule_error (list NamePattern) :=
  match names with
  | [] => Ok []
  | name :: names =>
      normalized ← normalize name;
      patterns ← compile_names normalize host names;
      Ok (name_pattern normalized host :: patterns)
  end.

Definition compile_rule (rule : RealIpRuleConfig) : result rule_error CompiledRule :=
  hosts ← compile_names normalize_real_ip_host_selector true (ru_hosts rule);
  server_names ← compile_names normalize_real_ip_server_name_selector false (ru_server_names rule);
  Ok (mkCompiledRule hosts server_names (ru_policy rule)).

Fixpoint compile_rules (rules : list RealIpRuleConfig) : result rule_error (list CompiledRule) :=
  match rules with
  | [] => Ok []
  | rule :: rules =>
      compiled ← compile_rule rule;
      compiled_rules ← compile_rules rules;
      Ok (compiled :: compiled_rules)
  end.

(** [RealIpPolicySelector::new] *)
Definition selector_new (rules : list RealIpRuleConfig) : result rule_error (list CompiledRule) :=
  _ ← validate_real_ip_rules rules;
  compile_rules rules.

Definition rule_matches (host : bytes) (sni : option bytes) (rule : CompiledRule) : bool :=
  (is_empty (cr_hosts rule) || existsb (λ p, pattern_matches p host) (cr_hosts rule))
  && (is_empty (cr_server_names rule)
      || match sni with Some sni => existsb (λ p, pattern_matches p sni) (cr_server_names rule) | None => false end).

Section selector.
Context `{HeaderLookup}.

(** [RealIpPolicySelector::resolve_client_addr] *)
Definition selector_resolve (rules : list CompiledRule) (headers : Headers) (peer_addr : SocketAddr) (host : bytes)
  (sni : option bytes) (default_policy : RealIpConfig) : result identity_error SocketAddr :=
  if is_empty rules then resolve_client_addr headers peer_addr default_policy
  else
    let host := trim_end_matches 46 (normalize_host host) in
    let sni := trim_end_matches 46 <$> sni in
    let policy :=
      match List.find (rule_matches host sni) rules with
      | Some rule => cr_policy rule
      | None => default_policy
      end in
    resolve_client_addr headers peer_addr policy.
End selector.

(** ** Selection *)

(** Validation is what makes a selector compile. *)
Lemma selectors_compile normalize host seen names : validate_selectors normalize seen names = Ok tt →
  ∃ patterns, compile_names normalize host names = Ok patterns.
Proof.
  revert seen. induction names as [|name names IH]; intros seen; cbn; [by exists []|].
  destruct (normalize name) as [n|]; [|done]. cbn. case_bool_decide; [done|]. intros [patterns ->]%IH. cbn. eauto.
Qed.

Lemma rules_compile names rules : validate_rules names rules = Ok tt → ∃ compiled, compile_rules rules = Ok compiled.
Proof.
  revert names. induction rules as [|rule rules IH]; intros names; cbn; [by exists []|].
  case_match; [done|]. case_bool_decide; [done|]. case_match; [done|].
  destruct (validate_selectors normalize_real_ip_host_selector [] (ru_hosts rule)) as [[]|] eqn:Hh; [|done]. cbn.
  destruct (validate_selectors normalize_real_ip_server_name_selector [] (ru_server_names rule)) as [[]|] eqn:Hs; [|done]. cbn.
  intros [compiled ->]%IH. apply selectors_compile with (host := true) in Hh as [hs Hh]. apply selectors_compile with (host := false) in Hs as [ss Hs].
  unfold compile_rule. rewrite Hh. cbn. rewrite Hs. cbn. eauto.
Qed.

(** A wildcard matches the names that continue it to the left by at least one
    octet and a dot, whatever the case. *)
Lemma suffix_matches suffix name : Forall (λ b, 0 ≤ b < 128) suffix →
  pattern_matches (NameSuffix suffix) name = true
  ↔ ∃ front tail, front ≠ [] ∧ name = front ++ 46 :: tail ∧ eq_ignore_ascii_case tail suffix = true.
Proof.
  intros Hascii. cbn [pattern_matches]. split.
  - destruct (len name <? len suffix); [done|]. unfold split_at_char. destruct (_ && _); [|done].
    rewrite !andb_true_iff. intros [[Hlen [front Hf]%ends_with_spec] Htail].
    exists front, (dropZ (len name - len suffix) name). split_and!; [|by rewrite <- (takeZ_dropZ (len name - len suffix)) at 1; rewrite Hf, <- app_assoc|done].
    intros ->. by rewrite Hf in Hlen.
  - intros (front & tail & Hne & -> & Htail). pose proof Htail as Heq%bool_decide_eq_true.
    assert (len tail = len suffix) as Hlen by (unfold len; f_equal; by apply (f_equal length) in Heq; rewrite !length_map in Heq).
    replace (front ++ 46 :: tail) with ((front ++ [46]) ++ tail) by by rewrite <- app_assoc.
    rewrite (len_app (front ++ [46]) tail), Hlen, Z.add_simpl_r. rewrite (proj2 (Z.ltb_ge _ _)) by (pose proof (len_nonneg (front ++ [46])); lia).
    unfold split_at_char. rewrite (proj2 (Z.leb_le _ _)) by (rewrite (len_app (front ++ [46]) tail), Hlen; pose proof (len_nonneg suffix); lia).
    assert (is_char_boundary ((front ++ [46]) ++ tail) (Z.to_nat (len (front ++ [46]))) = true) as ->.
    { unfold len. rewrite Nat2Z.id. unfold is_char_boundary. rewrite length_app. destruct (length front + _)%nat eqn:Hn; [done|].
      rewrite <- Hn, lookup_app_r by (rewrite length_app; done). rewrite length_app, Nat.sub_diag. destruct tail as [|c tail]; cbn.
      - rewrite app_nil_r, length_app. by apply Nat.eqb_refl.
      - destruct suffix as [|d suffix]; [done|]. injection Heq as Hc _. apply Forall_cons in Hascii as [Hd _].
        unfold to_ascii_lowercase, is_cont, in_range in *. repeat case_match; lia. }
    cbn [andb]. rewrite takeZ_app_len, dropZ_app_len, Htail, len_app. rewrite (proj2 (ends_with_spec _ _)) by by exists front.
    rewrite (proj2 (Z.ltb_lt _ _)); [done|]. destruct front; [done|]. rewrite len_cons. pose proof (len_nonneg front). change (len [46]) with 1. lia.
Qed.

(** ** The rule of a request *)

(** What a normalized selector names. *)
Definition selects (host : bool) (normalized name : bytes) : Prop :=
  match (if host then parse_ip normalized else None) with
  | Some ip => parse_ip name = Some ip
  | None =>
      match strip_prefix (ascii "*.") normalized with
      | Some suffix => ∃ front tail, front ≠ [] ∧ name = front ++ 46 :: tail ∧ eq_ignore_ascii_case tail suffix = true
      | None => eq_ignore_ascii_case normalized name = true
      end
  end.

(** One of the selectors names it. *)
Definition selected (normalize : bytes → result rule_error bytes) (host : bool) (selectors : list bytes) (name : bytes) : Prop :=
  ∃ raw normalized, raw ∈ selectors ∧ normalize raw = Ok normalized ∧ selects host normalized name.

(** A rule applies when each kind of selector it has names the request. *)
Definition applies (rule : RealIpRuleConfig) (host : bytes) (sni : option bytes) : Prop :=
  (ru_hosts rule = [] ∨ selected normalize_real_ip_host_selector true (ru_hosts rule) host)
  ∧ (ru_server_names rule = []
     ∨ ∃ name, sni = Some name ∧ selected normalize_real_ip_server_name_selector false (ru_server_names rule) name).

Lemma dns_pattern_ascii normalized n suffix : check_dns_pattern normalized = Ok n → strip_prefix (ascii "*.") n = Some suffix →
  Forall (λ b, 0 ≤ b < 128) suffix.
Proof.
  unfold check_dns_pattern. cbv zeta. destruct (is_empty _ || _); [done|]. destruct (existsb _ _); [done|].
  destruct (negb _) eqn:Hf; [done|]. intros [= <-] Hs. rewrite Hs in Hf. cbn [default] in Hf. apply negb_false_iff in Hf.
  induction suffix as [|b suffix IH] in Hf |- *; [constructor|]. cbn in Hf. apply andb_prop in Hf as [Hb Hf].
  constructor; [unfold is_ascii_alphanumeric, in_range in Hb; lia|by apply IH].
Qed.

Lemma strip_prefix_ascii prefix l suffix : strip_prefix prefix l = Some suffix → Forall (λ b, 0 ≤ b < 128) l →
  Forall (λ b, 0 ≤ b < 128) suffix.
Proof. intros ->%strip_prefix_spec [_ ?]%Forall_app. done. Qed.

(** Both normalizations leave a wildcard of ASCII labels. *)
Lemma host_selector_ascii raw n suffix : normalize_real_ip_host_selector raw = Ok n →
  strip_prefix (ascii "*.") n = Some suffix → Forall (λ b, 0 ≤ b < 128) suffix.
Proof.
  unfold normalize_real_ip_host_selector. destruct (padded_or_empty raw), (existsb is_ascii_control raw); try done.
  cbv zeta. case_bool_decide; [done|]. destruct (_ ≫= parse_ip) as [ip|].
  - intros [= <-] Hs. eapply strip_prefix_ascii; [done|]. eapply Forall_impl; [apply display_ip_graphic|]. unfold graphic. lia.
  - destruct (check_dns_pattern _) as [n'|] eqn:Hd; [|done]. intros [= <-]. by eapply dns_pattern_ascii.
Qed.

Lemma server_name_selector_ascii raw n suffix : normalize_real_ip_server_name_selector raw = Ok n →
  strip_prefix (ascii "*.") n = Some suffix → Forall (λ b, 0 ≤ b < 128) suffix.
Proof.
  unfold normalize_real_ip_server_name_selector. destruct (padded_or_empty raw), (existsb is_ascii_control raw); try done.
  cbv zeta. destruct (is_some _); [done|]. destruct (check_dns_pattern _) as [n'|] eqn:Hd; [|done]. intros [= <-].
  by eapply dns_pattern_ascii.
Qed.

Lemma pattern_selects host n name :
  (∀ suffix, strip_prefix (ascii "*.") n = Some suffix → Forall (λ b, 0 ≤ b < 128) suffix) →
  pattern_matches (name_pattern n host) name = true ↔ selects host n name.
Proof.
  intros Hascii. unfold name_pattern, selects. destruct (if host then parse_ip n else None) as [ip|]; [apply bool_decide_eq_true|].
  destruct (strip_prefix (ascii "*.") n) as [suffix|]; [|done]. by apply suffix_matches, Hascii.
Qed.

Lemma names_selected normalize host names patterns name :
  (∀ raw n suffix, normalize raw = Ok n → strip_prefix (ascii "*.") n = Some suffix → Forall (λ b, 0 ≤ b < 128) suffix) →
  compile_names normalize host names = Ok patterns →
  (patterns = [] ↔ names = []) ∧ (existsb (λ p, pattern_matches p name) patterns = true ↔ selected normalize host names name).
Proof.
  intros Hascii. revert patterns. induction names as [|raw names IH]; intros patterns; cbn.
  { intros [= <-]. split; [done|]. split; [done|]. intros (? & ? & []%not_elem_of_nil & _). }
  destruct (normalize raw) as [n|] eqn:Hn; [|done]. cbn. destruct (compile_names _ _ _) as [ps|]; [|done]. cbn.
  intros [= <-]. split; [done|]. cbn. rewrite orb_true_iff, (pattern_selects host n name) by eauto.
  destruct (IH ps eq_refl) as [_ ->]. unfold selected. setoid_rewrite elem_of_cons. split.
  - intros [?|(raw' & n' & ? & ? & ?)]; [exists raw, n|exists raw', n']; naive_solver.
  - intros (raw' & n' & [-> |?] & Hn' & ?); [left; congruence|right; eauto].
Qed.

Lemma compiled_rule_applies rule compiled host sni : compile_rule rule = Ok compiled →
  cr_policy compiled = ru_policy rule ∧ (rule_matches host sni compiled = true ↔ applies rule host sni).
Proof.
  unfold compile_rule. destruct (compile_names _ _ (ru_hosts rule)) as [hs|] eqn:Hh; [|done]. cbn.
  destruct (compile_names _ _ (ru_server_names rule)) as [ss|] eqn:Hs; [|done]. cbn. intros [= <-]. split; [done|].
  unfold rule_matches, applies. cbn. destruct (names_selected _ _ _ _ host host_selector_ascii Hh) as [Hh1 Hh2].
  pose proof (λ name, names_selected _ _ _ _ name server_name_selector_ascii Hs) as Hs'.
  rewrite andb_true_iff, !orb_true_iff, !is_empty_true, Hh1, Hh2. destruct (Hs' []) as [-> _]. f_equiv. f_equiv.
  destruct sni as [name|]; [|naive_solver]. destruct (Hs' name) as [_ ->]. naive_solver.
Qed.

(** The policy of the first rule that applies, or the global one. *)
Inductive policy_of (host : bytes) (sni : option bytes) (default : RealIpConfig) : list RealIpRuleConfig → RealIpConfig → Prop :=
  | policy_default : policy_of host sni default [] default
  | policy_here rule rules : applies rule host sni → policy_of host sni default (rule :: rules) (ru_policy rule)
  | policy_later rule rules p : ¬ applies rule host sni → policy_of host sni default rules p →
      policy_of host sni default (rule :: rules) p.

Lemma find_policy rules compiled host sni default : compile_rules rules = Ok compiled →
  policy_of host sni default rules
    (match List.find (rule_matches host sni) compiled with Some rule => cr_policy rule | None => default end).
Proof.
  revert compiled. induction rules as [|rule rules IH]; intros compiled; cbn; [intros [= <-]; constructor|].
  destruct (compile_rule rule) as [c|] eqn:Hc; [|done]. cbn. destruct (compile_rules rules) as [cs|]; [|done]. cbn.
  intros [= <-]. destruct (compiled_rule_applies rule c host sni Hc) as [Hp Ha]. cbn.
  destruct (rule_matches host sni c) eqn:Hm; [rewrite Hp; constructor; by apply Ha|].
  apply policy_later; [|by apply IH]. by rewrite <- Ha.
Qed.

Section selection.
Context `{HeaderLookup}.

(** Rules that pass validation compile, and a request is
    attributed under the policy of the first rule whose host selectors and
    server-name selectors, where it has any, each name the request (exactly,
    by a wildcard, or as an address, in any case), and under the global policy
    when there is none. *)
Theorem first_rule_decides rules headers peer host sni default :
  validate_real_ip_rules rules = Ok tt →
  ∃ selector policy, selector_new rules = Ok selector
    ∧ policy_of (trim_end_matches 46 (normalize_host host)) (trim_end_matches 46 <$> sni) default rules policy
    ∧ selector_resolve selector headers peer host sni default = resolve_client_addr headers peer policy.
Proof.
  intros Hv. unfold selector_new. rewrite Hv. cbn. destruct (rules_compile [] rules Hv) as [selector Hc]. rewrite Hc.
  eexists selector, _. split; [done|]. split; [by apply find_policy|]. unfold selector_resolve. by destruct selector.
Qed.
End selection.
