(* ===== verification/StaticFast.v ===== *)
(** * The static file fast path of the plain listener

    [eligible_static_plan] of [src/source/src/server/plain_http.rs], with its
    helpers of [plain_http/static_helpers.rs] and [plain_http/parse.rs], up to
    the point where the file is opened: which requests the listener answers
    itself, and for which route, without the request pipeline.

    Whether a request negotiates a digest ([DigestRequest::requested]) is an
    argument; reading the file, the security headers and the firewall's
    verdict on the response come after and are not modelled. *)

From stdpp Require Import countable gmap functions.
From S2P Require Import Prelude Bytes Text Bandwidth Net Identity RouteMatch RouteTable RouteSpec RoutePlan RealIp.

(** [HttpListenerMode::Proxy] and [ConnectionLimitIdentityMode::ProxyProtocol]
    are the modes the fast path asks for. *)
Record SendfileConfig : Type := mkSendfile {
  sf_web_bot_auth : bool;
  sf_certificate_forwarding_headers : list bytes;
  sf_http_mode_proxy : bool;
  sf_identity_mode_proxy_protocol : bool;
}.

Section fast.
Context `{HeaderLookup} `{MatchLib} {Digest : Type}.

(** [ParsedPlainRequest], without the octets it was read from. *)
Record ParsedPlainRequest : Type := mkPlainRequest {
  pr_method : bytes;
  pr_target : bytes;
  pr_version : Z;
  pr_headers : Headers;
}.

(** The parts of [AppSnapshot] the decision reads. *)
Record Snapshot : Type := mkSnapshot {
  sn_config : PlanConfig;
  sn_sendfile : SendfileConfig;
  sn_real_ip : RealIpConfig;
  sn_real_ip_rules : list CompiledRule;
  sn_route_table : RouteTable (@RouteExecutionPlan Digest);
}.

Definition header_count (r : ParsedPlainRequest) (name : bytes) : Z := len (values_of name (pr_headers r)).

Definition header_has_token (headers : Headers) (name token : bytes) : bool :=
  existsb (λ value, match to_str value with
                    | Some text => existsb (λ candidate, eq_ignore_ascii_case (trim candidate) token) (split_on 44 text)
                    | None => false
                    end) (values_of name headers).

Definition static_fast_path_request_has_body (headers : Headers) : bool :=
  match values_of (ascii "content-length") headers with
  | [] => false
  | [value] => match to_str value with Some text => negb (bool_decide (trim text = ascii "0")) | None => true end
  | _ => true
  end.

(** [sendfile_disabled_reason] is [None]. *)
Definition sendfile_enabled (s : Snapshot) (kernel_sendfile_available : bool) : bool :=
  negb (sf_web_bot_auth (sn_sendfile s)) && is_empty (sf_certificate_forwarding_headers (sn_sendfile s))
  && sf_http_mode_proxy (sn_sendfile s)
  && match pc_sendfile (sn_config s) with SendfileAuto => true | SendfileOff => false end
  && has_static_sendfile_candidates (sn_route_table s) && kernel_sendfile_available
  && is_empty (pc_rate_limits (sn_config s)) && negb (pc_dynamic_policy_enabled (sn_config s))
  && negb (pc_compression_enabled (sn_config s)) && sf_identity_mode_proxy_protocol (sn_sendfile s).

(** What becomes of a request: back to the pipeline, refused for its
    forwarding metadata, or answered from the route's files. *)
Inductive static_outcome : Type :=
  | Pipeline
  | BadRequest
  | ServeStatic (resolved : ResolvedRoute (@RouteExecutionPlan Digest)) (client : SocketAddr) (root : bytes).

(** The guards on the shape of the request. *)
Definition plain_static_request (r : ParsedPlainRequest) : bool :=
  (pr_version r =? 1)
  && (bool_decide (pr_method r = ascii "GET") || bool_decide (pr_method r = ascii "HEAD"))
  && starts_with [47] (pr_target r) && negb (starts_with [47; 47] (pr_target r))
  && negb (contains_str (ascii "://") (pr_target r))
  && (header_count r (ascii "host") =? 1)
  && negb (static_fast_path_request_has_body (pr_headers r))
  && (header_count r (ascii "transfer-encoding") =? 0)
  && (header_count r (ascii "upgrade") =? 0)
  && negb (header_has_token (pr_headers r) (ascii "connection") (ascii "upgrade")).

(** The context of the request for the route table. *)
Definition request_context (r : ParsedPlainRequest) (client_addr : SocketAddr) : RouteMatchContext :=
  let '(request_path, request_query) :=
    match split_once 63 (pr_target r) with
    | Some (path, query) => (path, Some query)
    | None => (pr_target r, None)
    end in
  mkContext request_path (Some (pr_method r)) (Some (pr_headers r)) request_query
    (Some (sa_ip client_addr)) (Some Http1) None.

(** The shortcut first, [or_else] the full table. *)
Definition resolve_static_route (s : Snapshot) (host : bytes) (ctx : RouteMatchContext) : option (ResolvedRoute (@RouteExecutionPlan Digest)) :=
  match try_resolve_simple_exact_host (sn_route_table s) host (ctx_path ctx) (pc_upstreams (sn_config s)) with
  | Some resolved => Some resolved
  | None => resolve_normalized_host_with_context (sn_route_table s) host ctx (pc_upstreams (sn_config s))
  end.

Definition eligible_static_plan (digest_requested : bool) (s : Snapshot) (r : ParsedPlainRequest) (peer_addr : SocketAddr) : static_outcome :=
  if digest_requested then Pipeline
  else if negb (plain_static_request r) then Pipeline
  else
    match first_value (ascii "host") (pr_headers r) ≫= to_str with
    | None => Pipeline
    | Some raw =>
        let host := normalize_host raw in
        match selector_resolve (sn_real_ip_rules s) (pr_headers r) peer_addr host None (sn_real_ip s) with
        | Err _ => BadRequest
        | Ok client_addr =>
            let ctx := request_context r client_addr in
            match resolve_static_route s host ctx with
            | None => Pipeline
            | Some resolved =>
                if negb (static_sendfile_like (fast_path (rr_execution_plan resolved))) then Pipeline
                else
                  match rc_static_root (rr_route resolved) with
                  | None => Pipeline
                  | Some root =>
                      if negb (compression_off (rr_route resolved)) then Pipeline
                      else ServeStatic resolved client_addr root
                  end
            end
        end
    end.

(** ** What is served *)

Lemma serve_static_inv digest_requested s r peer resolved client root :
  eligible_static_plan digest_requested s r peer = ServeStatic resolved client root →
  digest_requested = false ∧ plain_static_request r = true ∧
  ∃ raw, first_value (ascii "host") (pr_headers r) ≫= to_str = Some raw ∧
  let host := normalize_host raw in
  let ctx := request_context r client in
  selector_resolve (sn_real_ip_rules s) (pr_headers r) peer host None (sn_real_ip s) = Ok client
  ∧ resolve_static_route s host ctx = Some resolved
  ∧ static_sendfile_like (fast_path (rr_execution_plan resolved)) = true ∧ rc_static_root (rr_route resolved) = Some root.
Proof.
  unfold eligible_static_plan. destruct digest_requested; [done|].
  destruct (plain_static_request r); cbn [negb]; [|done]. destruct (first_value _ _ ≫= to_str) as [raw|]; [|done].
  cbv zeta. destruct (selector_resolve _ _ _ _ _ _) as [client'|] eqn:Hc; [|done].
  destruct (resolve_static_route s _ _) as [resolved'|] eqn:Hr; [|done].
  destruct (static_sendfile_like (fast_path (rr_execution_plan resolved'))) eqn:Hs; cbn [negb]; [|done]. destruct (rc_static_root (rr_route resolved')) as [root'|] eqn:Hroot; [|done].
  destruct (compression_off (rr_route resolved')); cbn [negb]; [|done]. intros [= -> -> ->]. split_and!; [done..|]. by exists raw.
Qed.

Lemma header_count_none r name : (header_count r name =? 0) = true → values_of name (pr_headers r) = [].
Proof. unfold header_count, len. rewrite Z.eqb_eq. by destruct (values_of name (pr_headers r)). Qed.

Lemma plain_static_inv r : plain_static_request r = true →
  pr_version r = 1 ∧ (pr_method r = ascii "GET" ∨ pr_method r = ascii "HEAD")
  ∧ static_fast_path_request_has_body (pr_headers r) = false
  ∧ values_of (ascii "transfer-encoding") (pr_headers r) = [] ∧ values_of (ascii "upgrade") (pr_headers r) = []
  ∧ ∃ value, values_of (ascii "host") (pr_headers r) = [value].
Proof.
  unfold plain_static_request. rewrite !andb_true_iff, orb_true_iff, !bool_decide_eq_true, !negb_true_iff.
  intros (((((((((Hv%Z.eqb_eq & Hm) & _) & _) & _) & Hh%Z.eqb_eq) & Hb) & Hte) & Hu) & _).
  split_and!; [done..|by apply header_count_none|by apply header_count_none|]. unfold header_count in Hh.
  destruct (values_of (ascii "host") (pr_headers r)) as [|v [|v' l]]; [done|by exists v|]. unfold len in Hh. cbn [length] in Hh. lia.
Qed.

(** C15 (safety). A file the fast path serves answers a plain GET or HEAD
    request without a body or an upgrade; the client is the one the real-IP
    rules give, the route is the route table's answer for the host and that
    client, the files are that route's, and the configuration asks for none
    of: a content digest, rate limits, dynamic policy, external
    authentication, route actions (direct responses, redirects, rewrites,
    header modifiers, CORS, mirrors), compression, transformed bodies,
    bandwidth limits, or firewall rules the fast path cannot apply.  Whether
    the route requires authorization is not asked. *)
Theorem static_fast_path_faithful nvs_fingerprint waf_of configs previous limiters digest_requested s r peer resolved client root :
  sn_route_table s = table_of (λ route, route_execution_plan nvs_fingerprint (sn_config s) route (waf_of route))
                       (pc_upstreams (sn_config s)) configs previous limiters →
  eligible_static_plan digest_requested s r peer = ServeStatic resolved client root →
  digest_requested = false ∧ pr_version r = 1 ∧ (pr_method r = ascii "GET" ∨ pr_method r = ascii "HEAD")
  ∧ static_fast_path_request_has_body (pr_headers r) = false
  ∧ values_of (ascii "transfer-encoding") (pr_headers r) = [] ∧ values_of (ascii "upgrade") (pr_headers r) = []
  ∧ (∃ raw, values_of (ascii "host") (pr_headers r) = [raw]
    ∧ ∃ host, to_str raw = Some host
    ∧ selector_resolve (sn_real_ip_rules s) (pr_headers r) peer (normalize_host host) None (sn_real_ip s) = Ok client
    ∧ resolve_normalized_host_with_context (sn_route_table s) (normalize_host host) (request_context r client)
        (pc_upstreams (sn_config s)) = Some resolved)
  ∧ rc_static_root (rr_route resolved) = Some root
  ∧ statically_served (sn_config s) (rr_route resolved) (waf_of (rr_route resolved)).
Proof.
  intros Ht Hs. apply serve_static_inv in Hs as (Hd & Hplain & raw & Hraw & Hc & Hr & Hp & Hroot).
  unfold resolve_static_route in Hr. rewrite Ht, shortcut_agrees, <- Ht in Hr. pose proof Hr as Hplan. rewrite Ht in Hplan.
  apply resolved_planned in Hplan. rewrite Hplan in Hp. apply sendfile_plan_served in Hp.
  apply plain_static_inv in Hplain as (Hv & Hm & Hb & Hte & Hu & value & Hh). split_and!; try done.
  exists value. split; [done|]. unfold first_value in Hraw. rewrite Hh in Hraw. cbn in Hraw. by exists raw.
Qed.
End fast.
