(* ===== verification/RouteWitness.v ===== *)
(** * Routing: concrete configurations

    Instances of the interfaces of [Identity] and [RouteMatch], concrete
    configurations and requests the theorems on identity and routing apply
    to, and two behaviours that depart from what the configuration asks for. *)

From stdpp Require Import countable gmap functions.
From S2P Require Import Prelude Bytes Text Bandwidth BandwidthSpec Net Identity IdentitySpec RouteMatch RouteTable RouteConflicts RouteConditions RouteSpec RouteReload RouteConflictsSpec RoutePlan RealIp StaticFast.

(** ** Instances *)

(** A header map as its lines, with lower-case names. *)
#[export] Program Instance line_headers : HeaderLookup := {|
  Headers := list (bytes * bytes);
  values_of name lines := map snd (List.filter (λ line, bool_decide (line.1 = name)) lines);
  to_str v := if forallb visible v then Some v else None;
|}.
Next Obligation. done. Qed.

(** Regular expressions without operators: a pattern matches the texts that
    contain it. *)
#[export] Program Instance literal_lib : MatchLib := {|
  Regex := bytes;
  regex_new p := Some p;
  is_match p text := contains_str p text;
  captures p text := if contains_str p text then Some [Some p] else None;
  form_urlencoded_parse query :=
    map (λ pair, match split_once 61 pair with Some (k, v) => (k, v) | None => (pair, []) end) (split_on 38 query);
  method_from_bytes b := if is_empty b then None else Some b;
  header_name_from_bytes b := if is_empty b then None else Some (map to_ascii_lowercase b);
|}.
Next Obligation. intros p text. cbn. by destruct (contains_str p text). Qed.
Next Obligation. intros b m. cbn. by destruct (is_empty b); intros [= <-]. Qed.
Next Obligation. intros b m. cbn. by destruct (is_empty b); intros [= <-]. Qed.

(** ** Configurations *)

Definition no_actions : RouteActionsConfig :=
  mkActions false false false (mkModifier [] [] []) (mkModifier [] [] []) false false.

Definition plain_route (name host path : bytes) : RouteConfig :=
  mkRoute name [host] path default_match no_actions (Some (ascii "app")) None None false false false None None false
    None None None None None None (mkRouteBandwidth None None) RouteInherit.

(** A route that requires authorization and serves files. *)
Definition files_route (protected : bool) : RouteConfig :=
  mkRoute (ascii "files") [ascii "files.example"] (ascii "/static") default_match no_actions None None
    (Some (ascii "/srv/files")) false false false None None protected None None None None None None
    (mkRouteBandwidth None None) RouteInherit.

Definition with_cert (r : RouteConfig) (cn san : RouteValueMatchConfig) : RouteConfig :=
  r <| rc_match := mkMatchConfig [] [] [] (mkPathMatch None None None) [] [] 0
                     (mkCertMatch None no_value_match cn san no_value_match) |>.

Definition absent_value : RouteValueMatchConfig := mkValueMatch (Some false) None None None None None.
Definition exact_value (v : bytes) : RouteValueMatchConfig := mkValueMatch None (Some v) None None None None.

(** Two routes of one host: one for certificates without a common name, one
    for certificates with a given alternative name. *)
Definition anonymous_route : RouteConfig :=
  with_cert (plain_route (ascii "anonymous") (ascii "api.example") (ascii "/")) absent_value no_value_match.
Definition service_route : RouteConfig :=
  with_cert (plain_route (ascii "service") (ascii "api.example") (ascii "/")) no_value_match (exact_value (ascii "svc")).

Definition two_routes : list RouteConfig :=
  [plain_route (ascii "api") (ascii "*.example") (ascii "/api"); plain_route (ascii "all") (ascii "*") (ascii "/")].

Definition plan_config : PlanConfig :=
  mkPlanConfig [] false WafOff false false false Streaming Streaming LegacyPlain SendfileAuto [mkUpstream (ascii "app")].

Definition real_ip_config : RealIpConfig :=
  mkRealIp true [ascii "10.0.0.0/8"] XForwardedFor true false.

Definition files_snapshot (protected : bool) : Snapshot (Digest := unit) :=
  mkSnapshot plan_config (mkSendfile false [] true true) real_ip_config []
    (table_of (λ route, route_execution_plan (λ _ _, tt) plan_config route waf_disabled)
       (pc_upstreams plan_config) [files_route protected] None (mkLimiters ∅ 0 0)).

Definition files_request : ParsedPlainRequest :=
  mkPlainRequest (ascii "GET") (ascii "/static/report.txt") 1
    [(ascii "host", ascii "Files.Example:8080"); (ascii "x-forwarded-for", ascii "1.1.1.1, 192.0.2.7, 10.0.0.9")].

Definition proxy_addr : SocketAddr := mkSocketAddr (V4 (10 * 2 ^ 24 + 1)) 4242.
Definition client_addr : SocketAddr := mkSocketAddr (V4 (192 * 2 ^ 24 + 2 * 2 ^ 8 + 7)) 4242.

(** ** Departures *)

Section departures.
Context `{HeaderLookup} `{MatchLib}.

(** C32 (error). The validation takes a condition that a certificate has no
    common name to exclude every route without a condition on common names:
    two routes it accepts both match a certificate with the alternative name
    and no common name, with equal precedence, and the order of the
    configuration decides. *)
Theorem missed_conflict :
  let configs := [anonymous_route; service_route] in
  validate_route_match_conflicts configs = Ok tt ∧ Forall route_checked configs ∧
  ∃ ctx a b,
    candidate configs (ascii "api.example") ctx a ∧ candidate configs (ascii "api.example") ctx b
    ∧ same_rank a b ∧ a ≠ b.
Proof.
  split; [vm_compute; done|]. split; [repeat constructor|].
  exists (mkContext (ascii "/") None None None None None (Some (mkTls (Some (mkCertificate [] [] [ascii "svc"] []))))).
  exists (mkRouteMatch 0 no_captures 0 (10000 + len (ascii "api.example")) 1 2).
  exists (mkRouteMatch 1 no_captures 0 (10000 + len (ascii "api.example")) 1 2).
  split_and!; [..|done|done].
  - exists anonymous_route, (ascii "api.example"), (10000 + len (ascii "api.example")), no_captures.
    split_and!; [done|by left|vm_compute; done..].
  - exists service_route, (ascii "api.example"), (10000 + len (ascii "api.example")), no_captures.
    split_and!; [done|by left|vm_compute; done..].
Qed.
End departures.

(** C33 (error). The plain listener serves the files of a route that requires
    authorization (IPM) to a request that carries no credentials: neither the
    plan of the route nor the fast path asks whether it does. *)
Theorem protected_files_served :
  let s := files_snapshot true in
  sendfile_enabled s true = true ∧
  ∃ resolved, eligible_static_plan false s files_request proxy_addr = ServeStatic resolved client_addr (ascii "/srv/files")
    ∧ rc_ipm_enabled (rr_route resolved) = true ∧ ft_ipm (features (rr_execution_plan resolved)) = true
    ∧ values_of (ascii "authorization") (pr_headers files_request) = [].
Proof. split; [by vm_compute|]. eexists. split; [vm_compute; reflexivity|]. by vm_compute. Qed.

(** ** Witnesses *)

Lemma static_fast_path_faithful_witness :
  ∃ resolved, eligible_static_plan false (files_snapshot false) files_request proxy_addr
      = ServeStatic resolved client_addr (ascii "/srv/files")
    ∧ statically_served plan_config (files_route false) waf_disabled.
Proof.
  eexists. split; [vm_compute; reflexivity|].
  destruct (static_fast_path_faithful (λ _ _, tt) (λ _, waf_disabled) [files_route false] None (mkLimiters ∅ 0 0) false
    (files_snapshot false) files_request proxy_addr
    (mkResolved 0 (files_route false) None None
      (route_execution_plan (λ _ _, tt) plan_config (files_route false) waf_disabled) 0 []) client_addr (ascii "/srv/files"))
    as (_ & _ & _ & _ & _ & _ & _ & _ & Hserved); [reflexivity|vm_compute; reflexivity|]. exact Hserved.
Defined.

Lemma attributed_to_last_untrusted_witness :
  resolve_client_addr (pr_headers files_request) proxy_addr real_ip_config = Ok client_addr.
Proof.
  destruct (attributed_to_last_untrusted (pr_headers files_request) proxy_addr real_ip_config
    [mkCidr (V4 (10 * 2 ^ 24)) 8] eq_refl eq_refl) as (_ & Hhops & _).
  apply (Hhops eq_refl eq_refl (or_introl eq_refl) (ascii "1.1.1.1, 192.0.2.7, 10.0.0.9") (ascii "1.1.1.1") (ascii " 192.0.2.7")
    [ascii " 10.0.0.9"] [] (sa_ip client_addr)).
  - reflexivity.
  - reflexivity.
  - right. reflexivity.
  - repeat constructor; apply (bool_decide_unpack _); reflexivity.
  - reflexivity.
  - reflexivity.
  - repeat constructor.
Defined.

Lemma cover_exact_witness :
  cidrs_cover_entire_address_family [mkCidr (V4 0) 1; mkCidr (V4 (2 ^ 31)) 1] = true
  ↔ (∀ x, 0 ≤ x < 2 ^ 32 → trusted_contains [mkCidr (V4 0) 1; mkCidr (V4 (2 ^ 31)) 1] (V4 x) = true)
    ∨ (∀ x, 0 ≤ x < 2 ^ 128 → trusted_contains [mkCidr (V4 0) 1; mkCidr (V4 (2 ^ 31)) 1] (V6 x) = true).
Proof. apply (cover_exact [ascii "0.0.0.0/1"; ascii "128.0.0.0/1"]). reflexivity. Defined.

Lemma prefilter_keeps_static_routes_witness :
  static_sendfile_target_can_match (sn_route_table (files_snapshot false)) (pr_target files_request) = true.
Proof.
  apply (prefilter_keeps_static_routes (λ route, route_execution_plan (λ _ _, tt) plan_config route waf_disabled)
    (pc_upstreams plan_config) [files_route false] None (mkLimiters ∅ 0 0) (ascii "files.example")
    (request_context files_request client_addr) (pc_upstreams plan_config)
    (mkResolved 0 (files_route false) None None
      (route_execution_plan (λ _ _, tt) plan_config (files_route false) waf_disabled) 0 [])); vm_compute; reflexivity.
Defined.

Lemma validated_routes_never_tie_witness :
  let m := mkRouteMatch 0 no_captures 0 (1000 + len (ascii "example")) (len (ascii "/api")) 0 in
  candidate two_routes (ascii "www.example") (path_only (ascii "/api/v1")) m
  ∧ ∀ m', candidate two_routes (ascii "www.example") (path_only (ascii "/api/v1")) m' → same_rank m m' → m = m'.
Proof.
  intros m. assert (candidate two_routes (ascii "www.example") (path_only (ascii "/api/v1")) m) as Hm.
  { exists (plain_route (ascii "api") (ascii "*.example") (ascii "/api")), (ascii "*.example"), (1000 + len (ascii "example")), no_captures.
    split_and!; [done|by left|vm_compute; done..]. }
  split; [done|]. intros m' Hm' Hrank.
  apply (validated_routes_never_tie two_routes (ascii "www.example") (path_only (ascii "/api/v1"))).
  - vm_compute. reflexivity.
  - repeat constructor.
  - repeat constructor; discriminate.
  - discriminate.
  - exact Hm.
  - exact Hm'.
  - exact Hrank.
Defined.

Definition scoped_rules : list RealIpRuleConfig :=
  [mkRule (ascii "cdn") [ascii "*.Files.example"; ascii "2001:DB8::1"] [] real_ip_config].

Lemma first_rule_decides_witness : ∃ selector policy, selector_new scoped_rules = Ok selector
  ∧ policy_of (ascii "www.files.example") None (mkRealIp false [] XRealIp false false) scoped_rules policy
  ∧ selector_resolve selector (pr_headers files_request) proxy_addr (ascii "WWW.files.example.") None (mkRealIp false [] XRealIp false false)
    = resolve_client_addr (pr_headers files_request) proxy_addr policy.
Proof.
  apply (first_rule_decides scoped_rules (pr_headers files_request) proxy_addr (ascii "WWW.files.example.") None
    (mkRealIp false [] XRealIp false false)). vm_compute. reflexivity.
Defined.

(** A limited route, published again with another rate while a download
    waits. *)
Definition limited_route (rate : Z) : RouteConfig :=
  (plain_route (ascii "api") (ascii "api.example") (ascii "/")) <| rc_bandwidth := mkRouteBandwidth None (Some rate) |>.

Definition reload_events : list (event (Plan := unit)) :=
  [Publish (λ _, tt) [] [limited_route 1000];
   Traffic 0 (OpAcquire 7 Download (Divisible 4000) None 5);
   Traffic 0 (OpAcquire 8 Download (Divisible 4000) None 6);
   Elapse 9].

Lemma bandwidth_survives_reload_witness :
  let p := foldl happen (process_start 0) reload_events in
  let p' := publish (λ _, tt) [] [limited_route 2000] p in
  handle_of p (ascii "api") = Some 0 ∧ handle_of p' (ascii "api") = Some 0
  ∧ policy <$> limiter_of p' (ascii "api") = Some (mkPolicy Unlimited (BytesPerSecond 2000)).
Proof.
  intros p p'. assert (handle_of p (ascii "api") = Some 0) as Hh by (vm_compute; reflexivity).
  destruct (bandwidth_survives_reload 0 reload_events (λ _, tt) [] [limited_route 2000]
    (NoDup_singleton (ascii "api"))) as [Hr _].
  destruct (Hr (limited_route 2000) (list_elem_of_here _ _)) as (Hk & _ & Hp).
  split; [exact Hh|]. split; [exact (Hk 0 Hh)|exact Hp].
Defined.
