(* ===== verification/H1Types.v ===== *)
(** * Upstream HTTP/1 response engine: data

    [src/source/src/proxy/http/fast_path/direct_h1/response_protocol/types.rs]:
    limits, states, events and failures of the incremental response parser,
    and the parts of the [http] and [httparse] crates it is built on. *)

From S2P Require Import Prelude Bytes.

(** ** Limits *)

Definition DEFAULT_RESPONSE_HEAD_BYTES : Z := 64 * 1024.
Definition DEFAULT_RESPONSE_HEADER_FIELDS : Z := 128.
Definition DEFAULT_RESPONSE_HEADER_FIELD_BYTES : Z := 8 * 1024.
Definition DEFAULT_INTERIM_RESPONSES : Z := 8.
Definition DEFAULT_CHUNK_SIZE_LINE_BYTES : Z := 8 * 1024.
Definition DEFAULT_CHUNK_EXTENSION_BYTES : Z := 8 * 1024.
Definition DEFAULT_TRAILER_BLOCK_BYTES : Z := 64 * 1024.
Definition DEFAULT_TRAILER_FIELDS : Z := 128.
Definition DEFAULT_TRAILER_FIELD_BYTES : Z := 8 * 1024.
Definition MAX_VALIDATED_METADATA_BYTES : Z := 1024 * 1024.
Definition MAX_VALIDATED_FIELDS : Z := 4096.
Definition MAX_VALIDATED_INTERIMS : Z := 256.

Record ResponseProtocolLimits : Type := mkLimits {
  max_response_head_bytes : Z;
  max_response_header_fields : Z;
  max_response_header_field_bytes : Z;
  max_interim_responses : Z;
  max_chunk_size_line_bytes : Z;
  max_chunk_extension_bytes : Z;
  max_trailer_block_bytes : Z;
  max_trailer_fields : Z;
  max_trailer_field_bytes : Z;
}.

Definition limits_default : ResponseProtocolLimits := {|
  max_response_head_bytes := DEFAULT_RESPONSE_HEAD_BYTES;
  max_response_header_fields := DEFAULT_RESPONSE_HEADER_FIELDS;
  max_response_header_field_bytes := DEFAULT_RESPONSE_HEADER_FIELD_BYTES;
  max_interim_responses := DEFAULT_INTERIM_RESPONSES;
  max_chunk_size_line_bytes := DEFAULT_CHUNK_SIZE_LINE_BYTES;
  max_chunk_extension_bytes := DEFAULT_CHUNK_EXTENSION_BYTES;
  max_trailer_block_bytes := DEFAULT_TRAILER_BLOCK_BYTES;
  max_trailer_fields := DEFAULT_TRAILER_FIELDS;
  max_trailer_field_bytes := DEFAULT_TRAILER_FIELD_BYTES;
|}.

Inductive ResponseProtocolLimitsError : Type := LimitsError.

Definition limits_validate (l : ResponseProtocolLimits)
    : result ResponseProtocolLimitsError ResponseProtocolLimits :=
  let byte_limits :=
    [max_response_head_bytes l; max_response_header_field_bytes l;
     max_chunk_size_line_bytes l; max_chunk_extension_bytes l;
     max_trailer_block_bytes l; max_trailer_field_bytes l] in
  if existsb (λ value, (value =? 0) || (MAX_VALIDATED_METADATA_BYTES <? value)) byte_limits
     || (max_response_header_fields l =? 0)
     || (MAX_VALIDATED_FIELDS <? max_response_header_fields l)
     || (max_trailer_fields l =? 0)
     || (MAX_VALIDATED_FIELDS <? max_trailer_fields l)
     || (max_interim_responses l =? 0)
     || (MAX_VALIDATED_INTERIMS <? max_interim_responses l)
  then Err LimitsError
  else Ok l.

(** ** States and failures *)

Inductive ResponseBodyMode : Type :=
  | NoBody
  | ContentLength (n : Z)
  | ChunkedBody
  | CloseDelimitedBody.

Inductive ResponseState : Type :=
  | ReadingHead
  | ProcessingInterim
  | WaitingForFinalHead
  | FixedLength (remaining : Z)
  | ChunkSizeLine
  | ChunkData (remaining : Z)
  | ChunkTerminator
  | Trailers
  | CloseDelimited
  | Completed
  | FailedNonReusable.

Inductive ResponseStateLabel : Type :=
  | LReadingHead
  | LProcessingInterim
  | LWaitingForFinalHead
  | LFixedLength
  | LChunkSizeLine
  | LChunkData
  | LChunkTerminator
  | LTrailers
  | LCloseDelimited
  | LCompleted
  | LFailedNonReusable.

Definition label (s : ResponseState) : ResponseStateLabel :=
  match s with
  | ReadingHead => LReadingHead
  | ProcessingInterim => LProcessingInterim
  | WaitingForFinalHead => LWaitingForFinalHead
  | FixedLength _ => LFixedLength
  | ChunkSizeLine => LChunkSizeLine
  | ChunkData _ => LChunkData
  | ChunkTerminator => LChunkTerminator
  | Trailers => LTrailers
  | CloseDelimited => LCloseDelimited
  | Completed => LCompleted
  | FailedNonReusable => LFailedNonReusable
  end.

Inductive ResponseProtocolFailureReason : Type :=
  | HeadTooLarge
  | TooManyHeaders
  | HeaderFieldTooLarge
  | TooManyInterimResponses
  | InvalidStatusLine
  | InvalidHeaderSyntax
  | InvalidTransferCodingSequence
  | ChunkLineTooLarge
  | InvalidChunkSize
  | InvalidChunkExtension
  | InvalidChunkTerminator
  | ChunkExtensionTooLarge
  | TrailerBlockTooLarge
  | TooManyTrailers
  | InvalidTrailerField
  | TrailerFieldTooLarge
  | UnexpectedEnd
  | IdleTimeout
  | DownstreamCancellation
  | UnsupportedUpgrade.

Record ResponseProtocolError : Type := mkError {
  error_reason : ResponseProtocolFailureReason;
  error_state : ResponseStateLabel;
}.

(** ** The HTTP libraries

    [http::HeaderMap] is a multimap that keeps the order of the values of a
    name; [HeaderName::from_bytes] yields the canonical lower-case name;
    [httparse] parses a whole head into raw fields. *)

Inductive Version : Type := HTTP_10 | HTTP_11.

Inductive httparse_error : Type :=
  | HPTooManyHeaders
  | HPStatus
  | HPVersion
  | HPOther.

Record httparse_response : Type := mkParsed {
  hp_version : option Z;
  hp_code : option Z;
  hp_headers : list (bytes * bytes);
}.

Class HttpLib := {
  HeaderMap : Type;
  headers_new : HeaderMap;
  headers_append : bytes → bytes → HeaderMap → HeaderMap;
  get_all : bytes → HeaderMap → list bytes;
  header_name : bytes → option bytes;
  header_value : bytes → option bytes;
  (** [Response::parse] with room for that many fields: [None] is a partial head. *)
  httparse_parse : Z → bytes → result httparse_error (option httparse_response);
  get_all_new n : get_all n headers_new = [];
  get_all_append n m v h :
    get_all n (headers_append m v h)
      = if decide (n = m) then get_all n h ++ [v] else get_all n h;
}.

(** [StatusCode::from_u16] *)
Definition status_from_u16 (code : Z) : option Z :=
  if (100 <=? code) && (code <? 1000) then Some code else None.
Definition is_informational (status : Z) : bool := (100 <=? status) && (status <? 200).
Definition SWITCHING_PROTOCOLS : Z := 101.
Definition NO_CONTENT : Z := 204.
Definition NOT_MODIFIED : Z := 304.

Section events.
  Context `{HttpLib}.

Inductive ResponseEvent : Type :=
  | InterimHead (status : Z) (headers : HeaderMap)
  | FinalHead (version : Version) (status : Z) (headers : HeaderMap)
      (body_mode : ResponseBodyMode)
  | Body (data : bytes)
  | TrailersEvent (trailers : HeaderMap)
  | Complete.

Inductive ResponseStep : Type :=
  | StepEvent (e : ResponseEvent)
  | NeedInput.
End events.
