(* ===== verification/H1Chunked.v ===== *)
(** * Chunk-size lines

    [src/source/src/proxy/http/fast_path/direct_h1/response_protocol/chunked.rs]:
    the hexadecimal size and the extensions of a chunk. *)

From S2P Require Import Prelude Bytes Text H1Types.

(** [b'!' | b'#'..=b'\'' | b'*' | b'+' | b'-' | b'.' | digits | letters | ..] *)
Definition is_token_byte (b : Z) : bool :=
  (b =? 33) || in_range 35 39 b || (b =? 42) || (b =? 43) || (b =? 45) || (b =? 46)
  || in_range 48 57 b || in_range 65 90 b || (b =? 94) || (b =? 95) || (b =? 96)
  || in_range 97 122 b || (b =? 124) || (b =? 126).

Definition is_ascii_hexdigit (b : Z) : bool :=
  in_range 48 57 b || in_range 97 102 b || in_range 65 70 b.

(** [(byte < b' ' && byte != b'\t') || byte == 0x7f] *)
Definition is_control (b : Z) : bool := ((b <? 32) && negb (b =? 9)) || (b =? 127).

Definition hex_digit (b : Z) : option Z :=
  if in_range 48 57 b then Some (b - 48)
  else if in_range 97 102 b then Some (b - 97 + 10)
  else if in_range 65 70 b then Some (b - 65 + 10)
  else None.

(** The loop over the size digits, overflow checked at every digit. *)
Fixpoint parse_hex (parsed : Z) (size : bytes) : option Z :=
  match size with
  | [] => Some parsed
  | b :: size =>
      digit ← hex_digit b;
      shifted ← checked_mul64 parsed 16;
      next ← checked_add64 shifted digit;
      parse_hex next size
  end.

(** The scan of a quoted string from its second octet, at [index]. *)
Fixpoint quoted_end (escaped : bool) (index : Z) (l : bytes) : option Z :=
  match l with
  | [] => None
  | b :: l =>
      if escaped then
        if is_control b then None else quoted_end false (index + 1) l
      else if b =? 92 then quoted_end true (index + 1) l
      else if b =? 34 then Some (index + 1)
      else if is_control b then None
      else quoted_end false (index + 1) l
  end.

(** [iter().take_while(is_token_byte).count()] *)
Fixpoint token_length (l : bytes) : Z :=
  match l with
  | b :: l => if is_token_byte b then 1 + token_length l else 0
  | [] => 0
  end.

Definition parse_token_or_quoted (l : bytes) : option Z :=
  let token := let n := token_length l in if 0 <? n then Some n else None in
  match l with
  | b :: rest => if b =? 34 then quoted_end false 1 rest else token
  | [] => token
  end.

Section chunked.
  Context `{ByteSearch}.

(** The loop over [;name[=value]] extensions; every turn drops an octet. *)
Fixpoint validate_chunk_extensions (fuel : nat) (l : bytes)
    : result ResponseProtocolFailureReason unit :=
  match fuel with
  | O => Err InvalidChunkExtension
  | S fuel =>
      let name_end := default (len l) (memchr2 61 59 l) in
      if (name_end =? 0) || negb (forallb is_token_byte (takeZ name_end l))
      then Err InvalidChunkExtension
      else
        let l := dropZ name_end l in
        l ← match l with
            | b :: value =>
                if b =? 61 then
                  consumed ← ok_or (parse_token_or_quoted value) InvalidChunkExtension;
                  Ok (dropZ consumed value)
                else Ok l
            | [] => Ok l
            end;
        match l with
        | [] => Ok tt
        | b :: l =>
            if b =? 59 then validate_chunk_extensions fuel l
            else Err InvalidChunkExtension
        end
  end.

Definition parse_chunk_size_line (line : bytes) (max_extension_bytes : Z)
    : result ResponseProtocolFailureReason Z :=
  let '(size, extension) :=
    match memchr 59 line with
    | Some index => (takeZ index line, Some (dropZ (index + 1) line))
    | None => (line, None)
    end in
  if is_empty size || negb (forallb is_ascii_hexdigit size) then Err InvalidChunkSize
  else
    parsed ← ok_or (parse_hex 0 size) InvalidChunkSize;
    match extension with
    | None => Ok parsed
    | Some extension =>
        if max_extension_bytes <? len extension then Err ChunkExtensionTooLarge
        else
          validate_chunk_extensions (S (length extension)) extension;;
          Ok parsed
    end.
End chunked.
