(* ===== verification/H1Head.v ===== *)
(** * Response heads and trailers

    [src/source/src/proxy/http/fast_path/direct_h1/response_protocol/head.rs]:
    validation of the raw head, the framing decision from
    [Transfer-Encoding] and [Content-Length], and the trailer section. *)

From S2P Require Import Prelude Bytes Text H1Types H1Chunked.

Definition CRLF : bytes := [13; 10].
Definition CRLFCRLF : bytes := [13; 10; 13; 10].

Definition MAX_HEADER_NAME_BYTES : Z := 128.

Definition not_ows (b : Z) : bool := negb (b =? 32) && negb (b =? 9).

Definition trim_ows (l : bytes) : bytes :=
  let start := default (len l) (first_index not_ows l) in
  let end_ := match first_index not_ows (reverse l) with
              | Some i => len l - i
              | None => start
              end in
  takeZ (end_ - start) (dropZ start l).

Definition validate_status_line (line : bytes) : result ResponseProtocolFailureReason unit :=
  let valid_version :=
    starts_with (ascii "HTTP/1.0 ") line || starts_with (ascii "HTTP/1.1 ") line in
  if negb valid_version || (len line <? 12) then Err InvalidStatusLine
  else
    let status := takeZ 3 (dropZ 9 line) in
    let rest := dropZ 12 line in
    if negb (forallb is_ascii_digit status)
       || match rest with b :: _ => negb (b =? 32) | [] => false end
       || existsb is_control rest
    then Err InvalidStatusLine
    else Ok tt.

(** The scan of [split_quoted_commas]: [cur] is the part since the last comma. *)
Fixpoint quoted_commas (quoted escaped : bool) (cur : bytes) (parts : list bytes) (l : bytes)
    : option (list bytes) :=
  match l with
  | [] =>
      if quoted || escaped then None
      else
        let part := trim_ows cur in
        if is_empty part then None else Some (parts ++ [part])
  | b :: l =>
      if escaped then quoted_commas quoted false (cur ++ [b]) parts l
      else if (b =? 92) && quoted then quoted_commas quoted true (cur ++ [b]) parts l
      else if b =? 34 then quoted_commas (negb quoted) false (cur ++ [b]) parts l
      else if (b =? 44) && negb quoted then
        let part := trim_ows cur in
        if is_empty part then None else quoted_commas quoted false [] (parts ++ [part]) l
      else quoted_commas quoted false (cur ++ [b]) parts l
  end.

Definition split_quoted_commas (l : bytes) : option (list bytes) :=
  quoted_commas false false [] [] l.

(** The loop over [;name=value] parameters; every turn drops an octet. *)
Fixpoint coding_parameters (fuel : nat) (count : Z) (rest : bytes) : option Z :=
  match fuel with
  | O => None
  | S fuel =>
      match rest with
      | [] => Some count
      | b :: rest =>
          if negb (b =? 59) then None
          else
            let rest := trim_ows rest in
            let name_len := token_length rest in
            if name_len =? 0 then None
            else
              match trim_ows (dropZ name_len rest) with
              | b :: rest =>
                  if negb (b =? 61) then None
                  else
                    let rest := trim_ows rest in
                    value_len ← parse_token_or_quoted rest;
                    coding_parameters fuel (saturating_add64 count 1)
                      (trim_ows (dropZ value_len rest))
              | [] => None
              end
      end
  end.

(** The loop over the digits of one [Content-Length] member. *)
Fixpoint parse_decimal (parsed : Z) (digits : bytes) : option Z :=
  match digits with
  | [] => Some parsed
  | b :: digits =>
      shifted ← checked_mul64 parsed 10;
      next ← checked_add64 shifted (b - 48);
      parse_decimal next digits
  end.

Fixpoint content_length_members (observed : option Z) (members : list bytes)
    : result ResponseProtocolFailureReason (option Z) :=
  match members with
  | [] => Ok observed
  | member :: members =>
      let member := trim_ows member in
      if is_empty member || negb (forallb is_ascii_digit member) then Err InvalidHeaderSyntax
      else
        parsed ← ok_or (parse_decimal 0 member) InvalidHeaderSyntax;
        if match observed with Some existing => negb (existing =? parsed) | None => false end
        then Err InvalidHeaderSyntax
        else content_length_members (Some parsed) members
  end.

Definition is_forbidden_trailer_name (name : bytes) : bool :=
  bool_decide (name ∈ [ascii "content-length"; ascii "transfer-encoding"; ascii "host";
                       ascii "connection"; ascii "te"; ascii "trailer"; ascii "upgrade";
                       ascii "keep-alive"; ascii "proxy-connection"]).

Section head.
  Context `{ByteSearch} `{HttpLib}.

(** Lines separated by CRLF; every line but the last drops two octets. *)
Fixpoint split_crlf (fuel : nat) (l : bytes) : list bytes :=
  match fuel with
  | O => []
  | S fuel =>
      if is_empty l then []
      else
        match memmem_find l CRLF with
        | Some index => takeZ index l :: split_crlf fuel (dropZ (index + 2) l)
        | None => [l]
        end
  end.

Definition crlf_lines (l : bytes) : list bytes := split_crlf (length l) l.

Fixpoint validate_lines (max_fields max_field_bytes : Z)
    (count_reason size_reason syntax_reason : ResponseProtocolFailureReason)
    (fields : Z) (lines : list bytes) : result ResponseProtocolFailureReason unit :=
  match lines with
  | [] => Ok tt
  | line :: lines =>
      if is_empty line then Err syntax_reason
      else
        let fields := saturating_add64 fields 1 in
        if max_fields <? fields then Err count_reason
        else if max_field_bytes <? len line then Err size_reason
        else
          colon ← ok_or (memchr 58 line) syntax_reason;
          if (colon =? 0) || (MAX_HEADER_NAME_BYTES <? colon)
             || negb (forallb is_token_byte (takeZ colon line))
          then Err syntax_reason
          else validate_lines max_fields max_field_bytes count_reason size_reason
                 syntax_reason fields lines
  end.

Definition validate_raw_fields (l : bytes) (max_fields max_field_bytes : Z)
    (count_reason size_reason syntax_reason : ResponseProtocolFailureReason)
    : result ResponseProtocolFailureReason unit :=
  if is_empty l then Ok tt
  else validate_lines max_fields max_field_bytes count_reason size_reason syntax_reason
         0 (crlf_lines l).

(** The loop that copies the parsed fields into a [HeaderMap]. *)
Fixpoint collect_headers (headers : HeaderMap) (fields : list (bytes * bytes))
    : result ResponseProtocolFailureReason HeaderMap :=
  match fields with
  | [] => Ok headers
  | (n, v) :: fields =>
      name ← ok_or (header_name n) InvalidHeaderSyntax;
      value ← ok_or (header_value v) InvalidHeaderSyntax;
      collect_headers (headers_append name value headers) fields
  end.

Definition parse_head (l : bytes) (limits : ResponseProtocolLimits)
    : result ResponseProtocolFailureReason (Version * Z * HeaderMap) :=
  status_line_end ← ok_or (memmem_find l CRLF) InvalidStatusLine;
  validate_status_line (takeZ status_line_end l);;
  validate_raw_fields
    (takeZ (len l - 2 - (status_line_end + 2)) (dropZ (status_line_end + 2) l))
    (max_response_header_fields limits) (max_response_header_field_bytes limits)
    TooManyHeaders HeaderFieldTooLarge InvalidHeaderSyntax;;
  parsed ← map_err (λ error,
      match error with
      | HPTooManyHeaders => TooManyHeaders
      | HPStatus | HPVersion => InvalidStatusLine
      | HPOther => InvalidHeaderSyntax
      end) (httparse_parse (max_response_header_fields limits) l);
  response ← ok_or parsed InvalidHeaderSyntax;
  version ← match hp_version response with
            | Some 0 => Ok HTTP_10
            | Some 1 => Ok HTTP_11
            | _ => Err InvalidStatusLine
            end;
  code ← ok_or (hp_code response) InvalidStatusLine;
  status ← ok_or (status_from_u16 code) InvalidStatusLine;
  headers ← collect_headers headers_new (hp_headers response);
  Ok (version, status, headers).

(** All the values of a repeated field as one comma-separated list. *)
Definition combine_values (values : list bytes) : bytes :=
  foldl (λ combined value,
    (if is_empty combined then combined else combined ++ [44]) ++ value) [] values.

Definition split_coding_parameters (l : bytes) : option (bytes * Z) :=
  let semicolon := memchr 59 l in
  let name := trim_ows (takeZ (default (len l) semicolon) l) in
  if is_empty name || negb (forallb is_token_byte name) then None
  else
    let rest := match semicolon with Some index => dropZ index l | None => [] end in
    count ← coding_parameters (S (length rest)) 0 rest;
    Some (name, count).

Definition parse_transfer_encoding (headers : HeaderMap)
    : result ResponseProtocolFailureReason bool :=
  let combined := combine_values (get_all (ascii "transfer-encoding") headers) in
  if is_empty combined then Ok false
  else
    codings ← ok_or (split_quoted_commas combined) InvalidTransferCodingSequence;
    match codings with
    | [coding] =>
        '(name, parameter_count) ← ok_or (split_coding_parameters (trim_ows coding))
                                     InvalidTransferCodingSequence;
        if negb (eq_ignore_ascii_case name (ascii "chunked")) || negb (parameter_count =? 0)
        then Err InvalidTransferCodingSequence
        else Ok true
    | _ => Err InvalidTransferCodingSequence
    end.

Definition parse_content_length (headers : HeaderMap)
    : result ResponseProtocolFailureReason (option Z) :=
  content_length_members None
    (concat (map (split_on 44) (get_all (ascii "content-length") headers))).

Definition response_body_mode (request_method : bytes) (version : Version) (status : Z)
    (headers : HeaderMap) : result ResponseProtocolFailureReason ResponseBodyMode :=
  transfer_encoding ← parse_transfer_encoding headers;
  content_length ← parse_content_length headers;
  if transfer_encoding && match version with HTTP_11 => false | HTTP_10 => true end
  then Err InvalidTransferCodingSequence
  else if transfer_encoding && is_some content_length
  then Err InvalidTransferCodingSequence
  else if bool_decide (request_method = ascii "HEAD")
          || (status =? NO_CONTENT) || (status =? NOT_MODIFIED)
  then Ok NoBody
  else if transfer_encoding then Ok ChunkedBody
  else
    match content_length with
    | Some length => Ok (ContentLength length)
    | None => Ok CloseDelimitedBody
    end.

Fixpoint collect_trailers (trailers : HeaderMap) (lines : list bytes)
    : result ResponseProtocolFailureReason HeaderMap :=
  match lines with
  | [] => Ok trailers
  | line :: lines =>
      colon ← ok_or (memchr 58 line) InvalidTrailerField;
      name ← ok_or (header_name (takeZ colon line)) InvalidTrailerField;
      if is_forbidden_trailer_name name then Err InvalidTrailerField
      else
        value ← ok_or (header_value (trim_ows (dropZ (colon + 1) line))) InvalidTrailerField;
        collect_trailers (headers_append name value trailers) lines
  end.

(** [bytes.strip_suffix(suffix)] *)
Definition strip_suffix (suffix l : bytes) : option bytes :=
  if starts_with (reverse suffix) (reverse l) then Some (takeZ (len l - len suffix) l)
  else None.

Definition parse_trailers (l : bytes) (limits : ResponseProtocolLimits)
    : result ResponseProtocolFailureReason HeaderMap :=
  if bool_decide (l = CRLF) then Ok headers_new
  else
    fields ← ok_or (strip_suffix CRLFCRLF l) InvalidTrailerField;
    validate_raw_fields fields (max_trailer_fields limits) (max_trailer_field_bytes limits)
      TooManyTrailers TrailerFieldTooLarge InvalidTrailerField;;
    collect_trailers headers_new (crlf_lines fields).
End head.
