(* ===== verification/H1Engine.v ===== *)
(** * The response engine

    [src/source/src/proxy/http/fast_path/direct_h1/response_protocol/engine.rs]:
    one call of [decode] takes what it can from the input and yields one
    event, or asks for more input.  A call makes at most five turns of its
    loop, which [decode] provides for. *)

From S2P Require Import Prelude Bytes Text H1Types H1Chunked H1Head.

Section engine.
  Context `{ByteSearch} `{HttpLib}.

Record ResponseProtocolEngine : Type := mkEngine {
  request_method : bytes;
  limits : ResponseProtocolLimits;
  state : ResponseState;
  interim_responses : Z;
  terminal_error : option ResponseProtocolError;
  saw_eof : bool;
  complete_emitted : bool;
  head_search_start : Z;
  chunk_line_search_start : Z;
  trailer_search_start : Z;
}.

#[global] Instance ResponseProtocolEngine_eta : Eta ResponseProtocolEngine := λ e,
  mkEngine (request_method e) (limits e) (state e) (interim_responses e) (terminal_error e)
    (saw_eof e) (complete_emitted e) (head_search_start e) (chunk_line_search_start e)
    (trailer_search_start e).

Definition engine_new (method : bytes) (l : ResponseProtocolLimits)
    : result ResponseProtocolLimitsError ResponseProtocolEngine :=
  l ← limits_validate l;
  Ok (mkEngine method l ReadingHead 0 None false false 0 0 0).

(** The result of a method, with the engine and the input it leaves. *)
Definition outcome (A : Type) : Type :=
  result ResponseProtocolError A * (ResponseProtocolEngine * bytes).

Definition fail {A} (reason : ResponseProtocolFailureReason) (e : ResponseProtocolEngine)
    (input : bytes) : outcome A :=
  match terminal_error e with
  | Some error => (Err error, (e, input))
  | None =>
      let error := mkError reason (label (state e)) in
      (Err error, (e <| state := FailedNonReusable |> <| terminal_error := Some error |>, input))
  end.

Definition need_input_or_eof (e : ResponseProtocolEngine) (input : bytes)
    : outcome ResponseStep :=
  if saw_eof e then fail UnexpectedEnd e input
  else (Ok NeedInput, (e, input)).

(** The match and the next search start. *)
Definition find_incremental (haystack needle : bytes) (search_start : Z) : option Z * Z :=
  let start := if search_start <=? len haystack then search_start else 0 in
  match memmem_find (dropZ start haystack) needle with
  | Some relative => (Some (start + relative), search_start)
  | None => (None, saturating_sub64 (len haystack) (saturating_sub64 (len needle) 1))
  end.

Definition decode_head (e : ResponseProtocolEngine) (input : bytes) : outcome ResponseStep :=
  let '(found, start) := find_incremental input CRLFCRLF (head_search_start e) in
  let e := e <| head_search_start := start |> in
  match found with
  | None =>
      if max_response_head_bytes (limits e) <=? len input then fail HeadTooLarge e input
      else need_input_or_eof e input
  | Some index =>
      let head_end := index + 4 in
      if max_response_head_bytes (limits e) <? head_end then fail HeadTooLarge e input
      else
        let head := takeZ head_end input in
        let input := dropZ head_end input in
        let e := e <| head_search_start := 0 |> in
        match parse_head head (limits e) with
        | Err reason => fail reason e input
        | Ok (version, status, headers) =>
            if status =? SWITCHING_PROTOCOLS then fail UnsupportedUpgrade e input
            else if is_informational status then
              let e := e <| interim_responses ::= λ n, saturating_add64 n 1 |> in
              if max_interim_responses (limits e) <? interim_responses e
              then fail TooManyInterimResponses e input
              else (Ok (StepEvent (InterimHead status headers)),
                    (e <| state := ProcessingInterim |>, input))
            else
              match response_body_mode (request_method e) version status headers with
              | Err reason => fail reason e input
              | Ok body_mode =>
                  let next :=
                    match body_mode with
                    | NoBody => Completed
                    | ContentLength remaining => FixedLength remaining
                    | ChunkedBody => ChunkSizeLine
                    | CloseDelimitedBody => CloseDelimited
                    end in
                  (Ok (StepEvent (FinalHead version status headers body_mode)),
                   (e <| state := next |>, input))
              end
        end
  end.

Definition decode_trailers (e : ResponseProtocolEngine) (input : bytes)
    : outcome ResponseStep :=
  let '(found, e) :=
    if starts_with CRLF input then (Some 2, e)
    else
      let '(found, start) := find_incremental input CRLFCRLF (trailer_search_start e) in
      (Z.add 4 <$> found, e <| trailer_search_start := start |>) in
  match found with
  | None =>
      if max_trailer_block_bytes (limits e) <=? len input then fail TrailerBlockTooLarge e input
      else need_input_or_eof e input
  | Some trailer_end =>
      if max_trailer_block_bytes (limits e) <? trailer_end then fail TrailerBlockTooLarge e input
      else
        let block := takeZ trailer_end input in
        let input := dropZ trailer_end input in
        let e := e <| trailer_search_start := 0 |> in
        match parse_trailers block (limits e) with
        | Err reason => fail reason e input
        | Ok trailers =>
            (Ok (StepEvent (TrailersEvent trailers)), (e <| state := Completed |>, input))
        end
  end.

(** [decode_chunk_size] up to its call of [decode]: the engine and input that
    call starts from, or the outcome. *)
Definition decode_chunk_size (e : ResponseProtocolEngine) (input : bytes)
    : outcome ResponseStep + ResponseProtocolEngine * bytes :=
  let '(found, start) := find_incremental input CRLF (chunk_line_search_start e) in
  let e := e <| chunk_line_search_start := start |> in
  match found with
  | None =>
      let overflow := dropZ (max_chunk_size_line_bytes (limits e)) input in
      if negb (is_empty overflow) && negb (bool_decide (overflow = [13]))
      then inl (fail ChunkLineTooLarge e input)
      else inl (need_input_or_eof e input)
  | Some line_end =>
      if max_chunk_size_line_bytes (limits e) <? line_end
      then inl (fail ChunkLineTooLarge e input)
      else
        let line := takeZ line_end input in
        let input := dropZ (line_end + 2) input in
        let e := e <| chunk_line_search_start := 0 |> in
        match parse_chunk_size_line line (max_chunk_extension_bytes (limits e)) with
        | Err reason => inl (fail reason e input)
        | Ok size =>
            inr (e <| state := if size =? 0 then Trailers else ChunkData size |>, input)
        end
  end.

(** The octets a body state takes, and the state it leaves. *)
Definition take_body (remaining : Z) (more done : Z → ResponseState)
    (e : ResponseProtocolEngine) (input : bytes) : outcome ResponseStep :=
  let take := Z.min remaining (len input) in
  let data := takeZ take input in
  let remaining := saturating_sub64 remaining take in
  (Ok (StepEvent (Body data)),
   (e <| state := if remaining =? 0 then done remaining else more remaining |>,
    dropZ take input)).

(** One turn of the loop: the outcome, or the engine and input of the next turn. *)
Definition decode_turn (e : ResponseProtocolEngine) (input : bytes)
    : outcome ResponseStep + ResponseProtocolEngine * bytes :=
  match state e with
  | ReadingHead | WaitingForFinalHead => inl (decode_head e input)
  | ProcessingInterim => inr (e <| state := WaitingForFinalHead |>, input)
  | FixedLength remaining =>
      if remaining =? 0 then inr (e <| state := Completed |>, input)
      else if is_empty input then inl (need_input_or_eof e input)
      else inl (take_body remaining FixedLength (λ _, Completed) e input)
  | ChunkSizeLine => decode_chunk_size e input
  | ChunkData remaining =>
      if remaining =? 0 then inr (e <| state := ChunkTerminator |>, input)
      else if is_empty input then inl (need_input_or_eof e input)
      else inl (take_body remaining ChunkData (λ _, ChunkTerminator) e input)
  | ChunkTerminator =>
      match input with
      | [] => inl (need_input_or_eof e input)
      | b :: rest =>
          if negb (b =? 13) then inl (fail InvalidChunkTerminator e input)
          else
            match rest with
            | [] => inl (need_input_or_eof e input)
            | c :: rest =>
                if negb (c =? 10) then inl (fail InvalidChunkTerminator e input)
                else inr (e <| state := ChunkSizeLine |>, rest)
            end
      end
  | Trailers => inl (decode_trailers e input)
  | CloseDelimited =>
      if negb (is_empty input) then inl (Ok (StepEvent (Body input)), (e, []))
      else if saw_eof e then inr (e <| state := Completed |>, input)
      else inl (Ok NeedInput, (e, input))
  | Completed =>
      if complete_emitted e then inl (Ok NeedInput, (e, input))
      else inl (Ok (StepEvent Complete), (e <| complete_emitted := true |>, input))
  | FailedNonReusable => inl (fail UnexpectedEnd e input)
  end.

Fixpoint decode_loop (fuel : nat) (e : ResponseProtocolEngine) (input : bytes)
    : option (outcome ResponseStep) :=
  match fuel with
  | O => None
  | S fuel =>
      match decode_turn e input with
      | inl o => Some o
      | inr (e, input) => decode_loop fuel e input
      end
  end.

Definition decode (e : ResponseProtocolEngine) (input : bytes) (eof : bool)
    : option (outcome ResponseStep) :=
  match terminal_error e with
  | Some error => Some (Err error, (e, input))
  | None => decode_loop 5 (e <| saw_eof ::= λ b, b || eof |>) input
  end.
End engine.
