(* ===== verification/H1Spec.v ===== *)
(** * Correctness of the response engine

    The incremental searches find what a search from the start would; a
    response is decoded to the same events however the upstream's octets are
    cut into reads; a decoding error is final; and a well-formed chunked body
    decodes to its content. *)

From S2P Require Import Prelude Bytes Text H1Types H1Chunked H1Head H1Engine.

Section spec.
  Context `{ByteSearch} `{HttpLib}.

(** ** Incremental search *)

(** No match of [needle] in [l] starts before [start]. *)
Definition settled (needle : bytes) (start : Z) (l : bytes) : Prop :=
  0 ≤ start ≤ len l ∧ ∀ i, first_occurrence needle l = Some i → start ≤ i.

Lemma settled_zero needle l : settled needle 0 l.
Proof.
  split; [pose proof (len_nonneg l); lia|]. intros i Hi.
  apply first_occurrence_bound in Hi. lia.
Qed.

Lemma settled_grow needle l k :
  first_occurrence needle l = None →
  settled needle (saturating_sub64 (len l) (saturating_sub64 (len needle) 1)) (l ++ k).
Proof.
  intros Hn. unfold saturating_sub64. pose proof (len_nonneg l). pose proof (len_nonneg k).
  split; [rewrite len_app; lia|]. intros i Hi.
  pose proof (first_occurrence_bound _ _ _ Hi) as [? _].
  destruct (Z.le_gt_cases (len l - Z.max (len needle - 1) 0) i); [lia|].
  rewrite (first_occurrence_app_inv needle l k i) in Hn; [done|done|lia].
Qed.

Lemma find_incremental_spec l needle start :
  settled needle start l →
  find_incremental l needle start
    = (first_occurrence needle l,
       if is_some (first_occurrence needle l) then start
       else saturating_sub64 (len l) (saturating_sub64 (len needle) 1)).
Proof.
  intros [Hs Hmin]. unfold find_incremental.
  rewrite (proj2 (Z.leb_le _ _)) by lia. rewrite memmem_find_first.
  rewrite (first_occurrence_drop needle l start) by done.
  by destruct (first_occurrence needle (dropZ start l)).
Qed.

(** The search starts are valid for the input: the one of the current state
    skips no match, the others are reset. *)
Definition search_ok (e : ResponseProtocolEngine) (l : bytes) : Prop :=
  match state e with
  | ReadingHead | WaitingForFinalHead =>
      settled CRLFCRLF (head_search_start e) l
        ∧ chunk_line_search_start e = 0 ∧ trailer_search_start e = 0
  | ChunkSizeLine =>
      settled CRLF (chunk_line_search_start e) l
        ∧ head_search_start e = 0 ∧ trailer_search_start e = 0
  | Trailers =>
      settled CRLFCRLF (trailer_search_start e) l
        ∧ head_search_start e = 0 ∧ chunk_line_search_start e = 0
  | FailedNonReusable => is_Some (terminal_error e)
  | _ => head_search_start e = 0 ∧ chunk_line_search_start e = 0 ∧ trailer_search_start e = 0
  end.

(** The engine that searches from the start every time. *)
Definition norm (e : ResponseProtocolEngine) : ResponseProtocolEngine :=
  e <| head_search_start := 0 |> <| chunk_line_search_start := 0 |>
    <| trailer_search_start := 0 |>.

(** Engines that differ at most in where they resume a search. *)
Definition agree {A} (o o' : outcome A) : Prop :=
  o.1 = o'.1 ∧ o.2.2 = o'.2.2 ∧ norm o.2.1 = norm o'.2.1.

Definition agree_turn (t t' : outcome ResponseStep + ResponseProtocolEngine * bytes) : Prop :=
  match t, t' with
  | inl o, inl o' => agree o o'
  | inr (e, l), inr (e', l') => l = l' ∧ norm e = norm e'
  | _, _ => False
  end.

Lemma norm_fields e e' :
  norm e = norm e' →
  request_method e = request_method e' ∧ limits e = limits e' ∧ state e = state e' ∧
  interim_responses e = interim_responses e' ∧ terminal_error e = terminal_error e' ∧
  saw_eof e = saw_eof e' ∧ complete_emitted e = complete_emitted e'.
Proof.
  intros He. split_and!;
    [exact (f_equal request_method He)|exact (f_equal limits He)|exact (f_equal state He)
    |exact (f_equal interim_responses He)|exact (f_equal terminal_error He)
    |exact (f_equal saw_eof He)|exact (f_equal complete_emitted He)].
Qed.

Lemma norm_eq e e' :
  request_method e = request_method e' ∧ limits e = limits e' ∧ state e = state e' ∧
  interim_responses e = interim_responses e' ∧ terminal_error e = terminal_error e' ∧
  saw_eof e = saw_eof e' ∧ complete_emitted e = complete_emitted e' →
  norm e = norm e'.
Proof.
  intros (H1 & H2 & H3 & H4 & H5 & H6 & H7). unfold norm, over. cbn. congruence.
Qed.

Lemma fail_agree {A} reason e e' l :
  norm e = norm e' → agree (A := A) (fail reason e l) (fail reason e' l).
Proof.
  intros He. pose proof (norm_fields _ _ He) as (? & ? & Hs & ? & Ht & ?). unfold fail.
  rewrite Hs, Ht. destruct (terminal_error e'); [done|].
  split; [done|]. split; [done|]. cbn. apply norm_eq. by destruct_and?.
Qed.

Lemma need_input_agree e e' l :
  norm e = norm e' → agree (need_input_or_eof e l) (need_input_or_eof e' l).
Proof.
  intros He. pose proof (norm_fields _ _ He) as (_ & _ & _ & _ & _ & Hs & _).
  unfold need_input_or_eof. rewrite Hs. destruct (saw_eof e'); [by apply fail_agree|done].
Qed.

(** Engines that agree, also after the same writes. *)
Ltac agree_norm :=
  match goal with
  | He : norm ?e = norm ?e' |- norm _ = norm _ =>
      let Hf := fresh in
      pose proof (norm_fields _ _ He) as Hf; apply norm_eq; cbn;
      destruct Hf as (? & ? & ? & ? & ? & ? & ?); split_and!; congruence
  end.

Ltac agree_step :=
  first
    [ apply fail_agree; agree_norm
    | apply need_input_agree; agree_norm
    | split; [done|split; [done|agree_norm]] ].

Lemma decode_head_agree e e' l :
  norm e = norm e' →
  (find_incremental l CRLFCRLF (head_search_start e)).1
    = (find_incremental l CRLFCRLF (head_search_start e')).1 →
  agree (decode_head e l) (decode_head e' l).
Proof.
  intros He Hf. pose proof (norm_fields _ _ He) as (Hm & Hl & Hs & Hi & _).
  unfold decode_head. destruct (find_incremental _ _ (head_search_start e)) as [found start].
  destruct (find_incremental _ _ (head_search_start e')) as [found' start']. cbn [fst] in Hf.
  subst found'. cbn [limits request_method interim_responses over]. rewrite Hl, Hm, Hi.
  destruct found as [index|].
  - destruct (_ <? _); [agree_step|]. destruct (parse_head _ _) as [[[v st] h]|r]; [|agree_step].
    destruct (_ =? _); [agree_step|]. destruct (is_informational st).
    + destruct (_ <? _); [agree_step|]. agree_step.
    + destruct (response_body_mode _ _ _ _); agree_step.
  - destruct (_ <=? _); agree_step.
Qed.

Lemma decode_trailers_agree e e' l :
  norm e = norm e' →
  (find_incremental l CRLFCRLF (trailer_search_start e)).1
    = (find_incremental l CRLFCRLF (trailer_search_start e')).1 →
  agree (decode_trailers e l) (decode_trailers e' l).
Proof.
  intros He Hf. pose proof (norm_fields _ _ He) as (_ & Hl & _).
  unfold decode_trailers. destruct (starts_with CRLF l).
  - rewrite Hl. destruct (_ <? _); [agree_step|]. cbn [limits over]. rewrite Hl.
    destruct (parse_trailers _ _); agree_step.
  - destruct (find_incremental _ _ (trailer_search_start e)) as [found start].
    destruct (find_incremental _ _ (trailer_search_start e')) as [found' start']. cbn [fst] in Hf.
    subst found'. cbn [limits over]. rewrite Hl. destruct found as [index|]; cbn [fmap option_fmap option_map].
    + destruct (_ <? _); [agree_step|]. destruct (parse_trailers _ _); agree_step.
    + destruct (_ <=? _); agree_step.
Qed.

Lemma decode_chunk_size_agree e e' l :
  norm e = norm e' →
  (find_incremental l CRLF (chunk_line_search_start e)).1
    = (find_incremental l CRLF (chunk_line_search_start e')).1 →
  agree_turn (decode_chunk_size e l) (decode_chunk_size e' l).
Proof.
  intros He Hf. pose proof (norm_fields _ _ He) as (_ & Hl & _).
  unfold decode_chunk_size. destruct (find_incremental _ _ (chunk_line_search_start e)) as [found start].
  destruct (find_incremental _ _ (chunk_line_search_start e')) as [found' start']. cbn [fst] in Hf.
  subst found'. cbn [limits over]. rewrite Hl. destruct found as [index|].
  - destruct (_ <? _); cbn [agree_turn]; [agree_step|].
    destruct (parse_chunk_size_line _ _); cbn [agree_turn]; [|agree_step]. split; [done|agree_norm].
  - destruct (_ && _); cbn [agree_turn]; agree_step.
Qed.

Lemma decode_turn_agree e e' l :
  norm e = norm e' → search_ok e l → search_ok e' l →
  agree_turn (decode_turn e l) (decode_turn e' l).
Proof.
  intros He Ho Ho'. pose proof (norm_fields _ _ He) as (_ & _ & Hs & _ & _ & Heof & Hc).
  unfold decode_turn, search_ok in *. rewrite Hs in *. rewrite ?Heof, ?Hc.
  destruct (state e') as [| | |r| |r| | | | |]; cbn [agree_turn].
  - apply decode_head_agree; [done|].
    rewrite !find_incremental_spec by (apply Ho || apply Ho'). done.
  - split; [done|agree_norm].
  - apply decode_head_agree; [done|].
    rewrite !find_incremental_spec by (apply Ho || apply Ho'). done.
  - destruct (r =? 0); cbn [agree_turn]; [split; [done|agree_norm]|].
    destruct (is_empty l); cbn [agree_turn]; agree_step.
  - apply decode_chunk_size_agree; [done|].
    rewrite !find_incremental_spec by (apply Ho || apply Ho'). done.
  - destruct (r =? 0); cbn [agree_turn]; [split; [done|agree_norm]|].
    destruct (is_empty l); cbn [agree_turn]; agree_step.
  - destruct l as [|b l]; [agree_step|]. destruct (negb (b =? 13)); [agree_step|].
    destruct l as [|c l]; [agree_step|]. destruct (negb (c =? 10)); [agree_step|].
    split; [done|agree_norm].
  - apply decode_trailers_agree; [done|].
    rewrite !find_incremental_spec by (apply Ho || apply Ho'). done.
  - destruct (negb (is_empty l)); cbn [agree_turn]; [agree_step|].
    destruct (saw_eof e'); cbn [agree_turn]; [split; [done|agree_norm]|agree_step].
  - destruct (complete_emitted e'); cbn [agree_turn]; agree_step.
  - agree_step.
Qed.

Lemma fail_search_ok {A} reason e l k :
  let o := fail (A := A) reason e l in
  (state e = FailedNonReusable ∨ terminal_error e = None) → search_ok o.2.1 k.
Proof.
  unfold fail. intros Ho. destruct (terminal_error e) eqn:Ht; cbn.
  - destruct Ho as [Hs|]; [|done]. unfold search_ok. rewrite Hs. by eexists.
  - by eexists.
Qed.

Lemma need_input_search_ok e l k :
  terminal_error e = None → search_ok e k → search_ok (need_input_or_eof e l).2.1 k.
Proof.
  intros Ht Hk. unfold need_input_or_eof. destruct (saw_eof e); [|done].
  apply fail_search_ok. auto.
Qed.

(** The invariant holds for whatever is appended to the input next. *)
Definition search_kept (t : outcome ResponseStep + ResponseProtocolEngine * bytes) : Prop :=
  match t with
  | inl (_, (e, l)) => ∀ k, search_ok e (l ++ k)
  | inr (e, l) => search_ok e l ∧ terminal_error e = None
  end.

Lemma search_kept_fail reason e l :
  terminal_error e = None → search_kept (inl (fail reason e l)).
Proof.
  intros Ht. unfold search_kept. destruct (fail reason e l) as [r [e' l']] eqn:Hf.
  intros k. pose proof (fail_search_ok (A := ResponseStep) reason e l (l' ++ k)) as Hk.
  rewrite Hf in Hk. apply Hk. auto.
Qed.

Lemma search_kept_need e l :
  terminal_error e = None → (∀ k, search_ok e (l ++ k)) →
  search_kept (inl (need_input_or_eof e l)).
Proof.
  intros Ht Hk. unfold need_input_or_eof. destruct (saw_eof e); [|done].
  by apply search_kept_fail.
Qed.

Lemma decode_head_search e l :
  state e = ReadingHead ∨ state e = WaitingForFinalHead → terminal_error e = None →
  settled CRLFCRLF (head_search_start e) l → chunk_line_search_start e = 0 →
  trailer_search_start e = 0 → search_kept (inl (decode_head e l)).
Proof.
  intros Hst Ht Hset Hc Htr. unfold decode_head. rewrite find_incremental_spec by done.
  destruct (first_occurrence CRLFCRLF l) as [index|] eqn:Hf; cbn [is_some].
  - destruct (_ <? _); [by apply search_kept_fail|].
    destruct (parse_head _ _) as [[[v st] h]|r]; [|by apply search_kept_fail].
    destruct (_ =? _); [by apply search_kept_fail|]. destruct (is_informational st).
    + destruct (_ <? _); [by apply search_kept_fail|]. done.
    + destruct (response_body_mode _ _ _ _) as [m|r]; [|by apply search_kept_fail].
      intros k. destruct m; cbn; try done. unfold search_ok. cbn.
      split; [rewrite Hc; apply settled_zero|done].
  - destruct (_ <=? _); [by apply search_kept_fail|]. apply search_kept_need; [done|].
    intros k. unfold search_ok. cbn.
    destruct Hst as [-> | ->]; (split; [by apply settled_grow|done]).
Qed.

Lemma decode_trailers_search e l :
  state e = Trailers → terminal_error e = None →
  settled CRLFCRLF (trailer_search_start e) l → head_search_start e = 0 →
  chunk_line_search_start e = 0 → search_kept (inl (decode_trailers e l)).
Proof.
  intros Hst Ht Hset Hh Hc. unfold decode_trailers. destruct (starts_with CRLF l).
  - destruct (_ <? _); [by apply search_kept_fail|].
    destruct (parse_trailers _ _); [done|by apply search_kept_fail].
  - rewrite find_incremental_spec by done.
    destruct (first_occurrence CRLFCRLF l) as [index|] eqn:Hf; cbn [is_some fmap option_fmap option_map].
    + destruct (_ <? _); [by apply search_kept_fail|].
      destruct (parse_trailers _ _); [done|by apply search_kept_fail].
    + destruct (_ <=? _); [by apply search_kept_fail|]. apply search_kept_need; [done|].
      intros k. unfold search_ok. cbn. rewrite Hst. split; [by apply settled_grow|done].
Qed.

Lemma decode_chunk_size_search e l :
  state e = ChunkSizeLine → terminal_error e = None →
  settled CRLF (chunk_line_search_start e) l → head_search_start e = 0 →
  trailer_search_start e = 0 → search_kept (decode_chunk_size e l).
Proof.
  intros Hst Ht Hset Hh Htr. unfold decode_chunk_size. rewrite find_incremental_spec by done.
  destruct (first_occurrence CRLF l) as [index|] eqn:Hf; cbn [is_some].
  - destruct (_ <? _); [by apply search_kept_fail|].
    destruct (parse_chunk_size_line _ _) as [size|r]; [|by apply search_kept_fail].
    cbn. split; [|done]. unfold search_ok. cbn. destruct (size =? 0); [|done].
    split; [rewrite Htr; apply settled_zero|done].
  - destruct (_ && _); [by apply search_kept_fail|]. apply search_kept_need; [done|].
    intros k. unfold search_ok. cbn. rewrite Hst. split; [by apply settled_grow|done].
Qed.

Lemma decode_turn_search e l :
  search_ok e l → terminal_error e = None → search_kept (decode_turn e l).
Proof.
  intros Ho Ht. unfold decode_turn, search_ok in *.
  destruct (state e) as [| | |r| |r| | | | |] eqn:Hs; destruct_and?.
  - apply decode_head_search; auto.
  - cbn. split; [|done]. unfold search_ok. cbn.
    split; [|done]. replace (head_search_start e) with 0 by done. apply settled_zero.
  - apply decode_head_search; auto.
  - destruct (r =? 0); [done|]. destruct (is_empty l).
    + apply search_kept_need; [done|]. intros k. unfold search_ok. by rewrite Hs.
    + intros k. unfold take_body, search_ok. cbn. by destruct (_ =? 0).
  - by apply decode_chunk_size_search.
  - destruct (r =? 0); [done|]. destruct (is_empty l).
    + apply search_kept_need; [done|]. intros k. unfold search_ok. by rewrite Hs.
    + intros k. unfold take_body, search_ok. cbn. by destruct (_ =? 0).
  - assert (search_kept (inl (need_input_or_eof e l))) as Hneed.
    { apply search_kept_need; [done|]. intros k. unfold search_ok. by rewrite Hs. }
    destruct l as [|b l]; [done|]. destruct (negb (b =? 13)); [by apply search_kept_fail|].
    destruct l as [|c l]; [done|]. destruct (negb (c =? 10)); [by apply search_kept_fail|].
    cbn. split; [|done]. unfold search_ok. cbn. split; [|done].
    replace (chunk_line_search_start e) with 0 by done. apply settled_zero.
  - by apply decode_trailers_search.
  - destruct (negb (is_empty l)).
    + intros k. unfold search_ok. by rewrite Hs.
    + destruct (saw_eof e); [done|]. intros k. unfold search_ok. by rewrite Hs.
  - destruct (complete_emitted e); intros k; unfold search_ok; cbn; by rewrite Hs.
  - destruct Ho as [? Ho]. congruence.
Qed.

(** ** A call returns *)

(** How many more turns a state takes at most. *)
Definition rank (s : ResponseState) : nat :=
  match s with
  | ProcessingInterim | FixedLength _ | ChunkSizeLine | CloseDelimited => 2
  | ChunkData remaining => if remaining =? 0 then 4 else 1
  | ChunkTerminator => 3
  | _ => 1
  end.

Lemma decode_turn_rank e l e' l' :
  decode_turn e l = inr (e', l') → (rank (state e') < rank (state e))%nat.
Proof.
  unfold decode_turn. destruct (state e) as [| | |r| |r| | | | |]; cbn [rank]; try done.
  - intros. simplify_eq. cbn. lia.
  - destruct (r =? 0); [intros; simplify_eq; cbn; lia|]. by destruct (is_empty l).
  - unfold decode_chunk_size. destruct (find_incremental _ _ _) as [[index|] start];
      [|by destruct (_ && _)].
    destruct (_ <? _); [done|]. destruct (parse_chunk_size_line _ _) as [size|]; [|done].
    intros. simplify_eq. cbn. destruct (Z.eqb_spec size 0); cbn; [lia|].
    rewrite (proj2 (Z.eqb_neq _ _)) by done. lia.
  - destruct (Z.eqb_spec r 0); [intros; simplify_eq; cbn; lia|]. by destruct (is_empty l).
  - destruct l as [|b l]; [done|]. destruct (negb (b =? 13)); [done|].
    destruct l as [|c l]; [done|]. destruct (negb (c =? 10)); [done|]. intros. simplify_eq. cbn. lia.
  - destruct (negb (is_empty l)); [done|]. destruct (saw_eof e); [|done].
    intros. simplify_eq. cbn. lia.
  - by destruct (complete_emitted e).
Qed.

Lemma decode_loop_total fuel : ∀ e l,
  (rank (state e) ≤ fuel)%nat → ∃ o, decode_loop fuel e l = Some o.
Proof.
  induction fuel as [|fuel IH]; intros e l Hr.
  - exfalso. destruct (state e); cbn in Hr; try lia. case_match; lia.
  - cbn [decode_loop]. destruct (decode_turn e l) as [o|[e' l']] eqn:Ht; [eauto|].
    apply IH. apply decode_turn_rank in Ht. lia.
Qed.

Lemma rank_bound s : (rank s ≤ 5)%nat.
Proof. destruct s; cbn; try lia. case_match; lia. Qed.

(** ** Appending input *)

(** An engine that will search from the start and has seen no end of input. *)
Record fresh (e : ResponseProtocolEngine) : Prop := {
  fr_head : head_search_start e = 0;
  fr_chunk : chunk_line_search_start e = 0;
  fr_trailer : trailer_search_start e = 0;
  fr_error : terminal_error e = None;
  fr_eof : saw_eof e = false;
  fr_state : state e ≠ FailedNonReusable;
}.

Lemma norm_fresh e : fresh e → norm e = e.
Proof.
  intros [H1 H2 H3 _ _ _]. destruct e. unfold norm, over. cbn in *. congruence.
Qed.

Lemma fresh_search_ok e l : fresh e → search_ok e l.
Proof.
  intros [H1 H2 H3 _ _ Hs]. unfold search_ok. rewrite H1, H2, H3.
  destruct (state e); try done; (split; [apply settled_zero|done]).
Qed.

Lemma find_incremental_zero l needle :
  find_incremental l needle 0
    = (first_occurrence needle l,
       if is_some (first_occurrence needle l) then 0
       else saturating_sub64 (len l) (saturating_sub64 (len needle) 1)).
Proof. apply find_incremental_spec, settled_zero. Qed.

(** With [k] appended, a turn does the same and leaves [k] in the input. *)
Definition extends (k : bytes) (t t' : outcome ResponseStep + ResponseProtocolEngine * bytes)
    : Prop :=
  match t with
  | inr (e, l) => t' = inr (e, l ++ k)
  | inl (Err error, _) => ∃ x, t' = inl (Err error, x)
  | inl (Ok (StepEvent event), (e, l)) => t' = inl (Ok (StepEvent event), (e, l ++ k))
  | inl (Ok NeedInput, _) => True
  end.

Lemma extends_fail k reason e e' l l' :
  terminal_error e = None → terminal_error e' = None → state e = state e' →
  extends k (inl (fail reason e l)) (inl (fail reason e' l')).
Proof.
  intros Ht Ht' Hs. unfold fail. rewrite Ht, Ht', Hs. cbn. eauto.
Qed.

Lemma extends_need k e l t : saw_eof e = false → extends k (inl (need_input_or_eof e l)) t.
Proof. intros He. unfold need_input_or_eof. by rewrite He. Qed.

Lemma late_occurrence needle l k i :
  first_occurrence needle l = None → first_occurrence needle (l ++ k) = Some i →
  len l < i + len needle.
Proof.
  intros Hn Hi. destruct (Z.le_gt_cases (i + len needle) (len l)); [|lia].
  rewrite (first_occurrence_app_inv needle l k i) in Hn; done.
Qed.

Lemma decode_head_extends k e l :
  fresh e → extends k (inl (decode_head e l)) (inl (decode_head e (l ++ k))).
Proof.
  intros [Hh _ _ Ht Heof _]. unfold decode_head. rewrite Hh, !find_incremental_zero.
  destruct (first_occurrence CRLFCRLF l) as [index|] eqn:Hf; cbn [is_some].
  - rewrite (first_occurrence_app _ _ k _ Hf). cbn [is_some].
    apply first_occurrence_bound in Hf as [? Hb]. change (len CRLFCRLF) with 4 in Hb.
    destruct (_ <? _); [by apply extends_fail|].
    rewrite takeZ_app_le, dropZ_app_le by done.
    destruct (parse_head _ _) as [[[v st] h]|r]; [|by apply extends_fail].
    destruct (_ =? _); [by apply extends_fail|]. destruct (is_informational st).
    + destruct (_ <? _); [by apply extends_fail|]. done.
    + destruct (response_body_mode _ _ _ _) as [m|r]; [done|by apply extends_fail].
  - cbn [limits over].
    destruct (Z.leb_spec (max_response_head_bytes (limits e)) (len l)) as [Hmax|];
      [|by apply extends_need].
    destruct (first_occurrence CRLFCRLF (l ++ k)) as [index|] eqn:Hf'; cbn [is_some].
    + pose proof (late_occurrence _ _ _ _ Hf Hf') as Hlate. change (len CRLFCRLF) with 4 in Hlate.
      rewrite (proj2 (Z.ltb_lt _ _)) by lia. by apply extends_fail.
    + rewrite (proj2 (Z.leb_le _ _)) by (rewrite len_app; pose proof (len_nonneg k); lia).
      by apply extends_fail.
Qed.

Lemma decode_trailers_extends k e l :
  fresh e → extends k (inl (decode_trailers e l)) (inl (decode_trailers e (l ++ k))).
Proof.
  intros [_ _ Hh Ht Heof _]. unfold decode_trailers. rewrite Hh, !find_incremental_zero.
  destruct (starts_with CRLF l) eqn:Hc.
  - rewrite (starts_with_app _ _ k Hc). destruct (_ <? _); [by apply extends_fail|].
    apply starts_with_spec in Hc as [l' ->].
    rewrite takeZ_app_le, dropZ_app_le
      by (unfold len; cbn; lia).
    destruct (parse_trailers _ _); [done|by apply extends_fail].
  - destruct (first_occurrence CRLFCRLF l) as [index|] eqn:Hf;
      cbn [is_some fmap option_fmap option_map].
    + rewrite (first_occurrence_app _ _ k _ Hf). cbn [is_some].
      apply first_occurrence_bound in Hf as [? Hb]. change (len CRLFCRLF) with 4 in Hb.
      destruct (starts_with CRLF (l ++ k)) eqn:Hc'.
      { apply starts_with_app_inv in Hc'; [congruence|]. change (len CRLF) with 2. lia. }
      cbn [limits over fmap option_fmap option_map]. destruct (_ <? _); [by apply extends_fail|].
      rewrite takeZ_app_le, dropZ_app_le by lia.
      destruct (parse_trailers _ _); [done|by apply extends_fail].
    + cbn [limits over].
      destruct (Z.leb_spec (max_trailer_block_bytes (limits e)) (len l)) as [Hmax|];
        [|by apply extends_need].
      pose proof (len_nonneg k). destruct (starts_with CRLF (l ++ k)) eqn:Hc'.
      { assert (len l < 2) as Hl.
        { destruct (Z.le_gt_cases 2 (len l)); [|lia].
          apply starts_with_app_inv in Hc'; [congruence|]. done. }
        rewrite (proj2 (Z.ltb_lt _ _)) by lia. by apply extends_fail. }
      destruct (first_occurrence CRLFCRLF (l ++ k)) as [index|] eqn:Hf';
        cbn [is_some limits over fmap option_fmap option_map].
      * pose proof (late_occurrence _ _ _ _ Hf Hf') as Hlate. change (len CRLFCRLF) with 4 in Hlate.
        rewrite (proj2 (Z.ltb_lt _ _)) by lia. by apply extends_fail.
      * rewrite (proj2 (Z.leb_le _ _)) by (rewrite len_app; lia). by apply extends_fail.
Qed.

(** A line that overflows its limit without a CRLF cannot be completed within
    the limit. *)
Lemma overflow_late max l k i :
  0 ≤ max → first_occurrence CRLF l = None → first_occurrence CRLF (l ++ k) = Some i →
  dropZ max l ≠ [] → dropZ max l ≠ [13] → max < i.
Proof.
  intros Hmax Hf Hf' Hne Hcr. pose proof (late_occurrence _ _ _ _ Hf Hf') as Hlate.
  change (len CRLF) with 2 in Hlate.
  assert (max < len l) as Hlt.
  { destruct (Z.le_gt_cases (len l) max); [|lia]. by rewrite dropZ_all in Hne. }
  destruct (Z.le_gt_cases i max) as [Hi|]; [|lia].
  assert (i = max ∧ len l = max + 1) as [-> Hl] by lia.
  assert (len (dropZ max l) = 1) as Hd by (rewrite len_dropZ; lia).
  destruct (dropZ max l) as [|b [|? ?]] eqn:Hdrop; [done| |rewrite !len_cons in Hd;
    pose proof (len_nonneg l0); lia].
  exfalso. apply Hcr. f_equal.
  rewrite (first_occurrence_drop CRLF (l ++ k) max) in Hf'.
  - rewrite dropZ_app_le, Hdrop in Hf' by lia. cbn [app first_occurrence] in Hf'.
    destruct (starts_with CRLF (b :: k)) eqn:Hs.
    + apply starts_with_spec in Hs as [k' Hk]. cbn in Hk. congruence.
    + destruct (first_occurrence CRLF k) as [j|] eqn:Hj; cbn in Hf'; [|done].
      apply first_occurrence_bound in Hj. simplify_eq. lia.
  - rewrite len_app. pose proof (len_nonneg k). lia.
  - intros j Hj. rewrite Hf' in Hj. simplify_eq. lia.
Qed.

Lemma decode_chunk_size_extends k e l :
  fresh e → 0 ≤ max_chunk_size_line_bytes (limits e) →
  extends k (decode_chunk_size e l) (decode_chunk_size e (l ++ k)).
Proof.
  intros [_ Hh _ Ht Heof _] Hlim. unfold decode_chunk_size. rewrite Hh, !find_incremental_zero.
  destruct (first_occurrence CRLF l) as [index|] eqn:Hf; cbn [is_some limits over].
  - rewrite (first_occurrence_app _ _ k _ Hf). cbn [is_some].
    apply first_occurrence_bound in Hf as [? Hb]. change (len CRLF) with 2 in Hb.
    destruct (_ <? _); [by apply extends_fail|].
    rewrite takeZ_app_le, dropZ_app_le by lia.
    destruct (parse_chunk_size_line _ _); [done|by apply extends_fail].
  - destruct (_ && _) eqn:Hover; [|by apply extends_need].
    apply andb_prop in Hover as [Hne%negb_true_iff Hcr%negb_true_iff].
    apply bool_decide_eq_false in Hcr.
    assert (dropZ (max_chunk_size_line_bytes (limits e)) l ≠ []) as Hne' by (by destruct (dropZ _ l)).
    destruct (first_occurrence CRLF (l ++ k)) as [index|] eqn:Hf'; cbn [is_some].
    + rewrite (proj2 (Z.ltb_lt _ _)) by (by eapply overflow_late). by apply extends_fail.
    + rewrite dropZ_app_le.
      2: { destruct (Z.le_gt_cases (max_chunk_size_line_bytes (limits e)) (len l)); [done|].
           rewrite dropZ_all in Hne'; [done|lia]. }
      rewrite (proj2 (andb_true_iff _ _)); [by apply extends_fail|].
      destruct (dropZ (max_chunk_size_line_bytes (limits e)) l) as [|b d]; [done|].
      split; [done|]. rewrite negb_true_iff, bool_decide_eq_false. intros Heq.
      destruct d, k; cbn in Heq; simplify_eq.
Qed.

(** Body octets that a read cut in two: what the first part delivers, the
    second continues. *)
Definition body_cut (e : ResponseProtocolEngine) (l k : bytes) : Prop :=
  l ≠ [] ∧ ∃ e', decode_turn e l = inl (Ok (StepEvent (Body l)), (e', [])) ∧ fresh e' ∧
    limits e' = limits e ∧
    (k ≠ [] → ∃ d e2 k2,
       decode_turn e' k = inl (Ok (StepEvent (Body d)), (e2, k2)) ∧
       decode_turn e (l ++ k) = inl (Ok (StepEvent (Body (l ++ d))), (e2, k2))).

Lemma is_empty_app {A} (l k : list A) : l ≠ [] → is_empty (l ++ k) = false.
Proof. by destruct l. Qed.

Lemma fresh_state e s : fresh e → s ≠ FailedNonReusable → fresh (e <| state := s |>).
Proof. intros [] ?. by constructor. Qed.

Lemma take_body_extends (more done : Z → ResponseState) remaining k e l :
  fresh e → l ≠ [] → (∀ r, more r ≠ FailedNonReusable) →
  (∀ (e' : ResponseProtocolEngine) r l', state e' = more r → r ≠ 0 → l' ≠ [] →
     decode_turn e' l' = inl (take_body r more done e' l')) →
  state e = more remaining → remaining ≠ 0 →
  extends k (decode_turn e l) (decode_turn e (l ++ k)) ∨ body_cut e l k.
Proof.
  intros Hfr Hne Hmore Hturn Hs Hr.
  rewrite !(Hturn _ remaining) by (done || by destruct l).
  pose proof (len_nonneg k). pose proof (len_nonneg l).
  destruct (Z.le_gt_cases remaining (len l)) as [Hle|Hgt].
  - left. unfold take_body. rewrite !Z.min_l by (rewrite ?len_app; lia).
    rewrite takeZ_app_le, dropZ_app_le by done. done.
  - right. split; [done|].
    assert (take_body remaining more done e l
      = (Ok (StepEvent (Body l)), (e <| state := more (remaining - len l) |>, []))) as Hl.
    { unfold take_body, saturating_sub64. rewrite Z.min_r, Z.max_l by lia.
      rewrite takeZ_all, dropZ_all by lia. by rewrite (proj2 (Z.eqb_neq _ _)) by lia. }
    eexists. rewrite (Hturn e remaining), Hl by done. split; [done|].
    split; [by apply fresh_state|]. split; [done|]. intros Hk.
    rewrite (Hturn _ (remaining - len l)), (Hturn e remaining)
      by (done || lia || by destruct l).
    unfold take_body. set (t := Z.min (remaining - len l) (len k)).
    replace (Z.min remaining (len (l ++ k))) with (len l + t) by (rewrite len_app; lia).
    do 3 eexists. split; [done|]. unfold saturating_sub64.
    replace (remaining - (len l + t)) with (remaining - len l - t) by lia.
    assert (takeZ (len l + t) (l ++ k) = l ++ takeZ t k) as ->.
    { unfold takeZ, len. rewrite Z2Nat.inj_add, Nat2Z.id by lia. apply take_app_add. }
    assert (dropZ (len l + t) (l ++ k) = dropZ t k) as ->.
    { unfold dropZ, len. rewrite Z2Nat.inj_add, Nat2Z.id by lia. apply drop_app_add. }
    done.
Qed.

Lemma decode_turn_extends k e l :
  fresh e → 0 ≤ max_chunk_size_line_bytes (limits e) →
  extends k (decode_turn e l) (decode_turn e (l ++ k)) ∨ body_cut e l k.
Proof.
  intros Hfr Hlim. pose proof Hfr as [_ _ _ Ht Heof Hnf].
  destruct (state e) as [| | |r| |r| | | | |] eqn:Hs.
  4: { destruct (Z.eqb_spec r 0) as [->|Hr].
       { left. unfold decode_turn. rewrite Hs. done. }
       destruct l as [|b l]; [left; unfold decode_turn; rewrite Hs;
         rewrite (proj2 (Z.eqb_neq _ _)) by done; cbn [is_empty]; by apply extends_need|].
       apply (take_body_extends FixedLength (λ _, Completed) r); try done.
       intros e' r' l' Hs' Hr' Hl'. unfold decode_turn. rewrite Hs'.
       rewrite (proj2 (Z.eqb_neq _ _)) by done. by destruct l'. }
  5: { destruct (Z.eqb_spec r 0) as [->|Hr].
       { left. unfold decode_turn. rewrite Hs. done. }
       destruct l as [|b l]; [left; unfold decode_turn; rewrite Hs;
         rewrite (proj2 (Z.eqb_neq _ _)) by done; cbn [is_empty]; by apply extends_need|].
       apply (take_body_extends ChunkData (λ _, ChunkTerminator) r); try done.
       intros e' r' l' Hs' Hr' Hl'. unfold decode_turn. rewrite Hs'.
       rewrite (proj2 (Z.eqb_neq _ _)) by done. by destruct l'. }
  7: { destruct l as [|b l]; [left; unfold decode_turn; by rewrite Hs, Heof|].
       right. split; [done|]. exists e. unfold decode_turn. rewrite Hs. split_and!; try done.
       intros Hk. destruct k as [|c k]; [done|]. exists (c :: k), e, []. done. }
  all: left; unfold decode_turn; rewrite ?Hs; try done.
  - by apply decode_head_extends.
  - by apply decode_head_extends.
  - by apply decode_chunk_size_extends.
  - destruct l as [|b l]; [by apply extends_need|]. cbn [app].
    destruct (negb (b =? 13)); [by apply extends_fail|].
    destruct l as [|c l]; [by apply extends_need|]. cbn [app].
    destruct (negb (c =? 10)); [by apply extends_fail|]. done.
  - by apply decode_trailers_extends.
  - by destruct (complete_emitted e).
Qed.

(** ** Whole reads *)

(** What a response delivers, octet by octet. *)
Inductive token : Type :=
  | TInterim (status : Z) (headers : HeaderMap)
  | TFinal (version : Version) (status : Z) (headers : HeaderMap) (mode : ResponseBodyMode)
  | TByte (b : Z)
  | TTrailers (trailers : HeaderMap)
  | TComplete.

Definition event_tokens (event : ResponseEvent) : list token :=
  match event with
  | InterimHead status headers => [TInterim status headers]
  | FinalHead version status headers mode => [TFinal version status headers mode]
  | Body data => map TByte data
  | TrailersEvent trailers => [TTrailers trailers]
  | Complete => [TComplete]
  end.

(** Decoding until the input runs out: the tokens, and the engine with the
    unread input or the error. *)
Inductive runs : ResponseProtocolEngine → bytes → list token →
    result ResponseProtocolError (ResponseProtocolEngine * bytes) → Prop :=
  | runs_turn e l e' l' t r :
      decode_turn e l = inr (e', l') → runs e' l' t r → runs e l t r
  | runs_event e l event e' l' t r :
      decode_turn e l = inl (Ok (StepEvent event), (e', l')) → runs e' l' t r →
      runs e l (event_tokens event ++ t) r
  | runs_need e l e' l' :
      decode_turn e l = inl (Ok NeedInput, (e', l')) → runs e l [] (Ok (e', l'))
  | runs_error e l error x :
      decode_turn e l = inl (Err error, x) → runs e l [] (Err error).

(** The remaining length of a body is not negative. *)
Definition remaining_ok (s : ResponseState) : Prop :=
  match s with
  | FixedLength r | ChunkData r => 0 ≤ r
  | _ => True
  end.

Record well (e : ResponseProtocolEngine) : Prop := {
  we_fresh : fresh e;
  we_limit : 0 ≤ max_chunk_size_line_bytes (limits e);
  we_remaining : remaining_ok (state e);
}.

Lemma parse_hex_nonneg size : ∀ parsed v,
  0 ≤ parsed → parse_hex parsed size = Some v → 0 ≤ v.
Proof.
  induction size as [|b size IH]; intros parsed v Hp; cbn [parse_hex]; [intros; by simplify_eq|].
  destruct (hex_digit b) as [d|] eqn:Hd; cbn; [|done].
  unfold checked_mul64. case_match; cbn; [|done]. unfold checked_add64. case_match; cbn; [|done].
  apply IH. assert (0 ≤ d); [|lia]. unfold hex_digit, in_range in Hd.
  repeat case_match; simplify_eq; repeat (case_match; try done); lia.
Qed.

Lemma parse_chunk_size_line_nonneg line max v :
  parse_chunk_size_line line max = Ok v → 0 ≤ v.
Proof.
  unfold parse_chunk_size_line.
  destruct (match memchr 59 line with Some _ => _ | None => _ end) as [size ext].
  destruct (is_empty size || _); [done|].
  destruct (parse_hex 0 size) as [p|] eqn:Hp; cbn [ok_or mbind result_bind]; [|done].
  apply parse_hex_nonneg in Hp; [|done].
  destruct ext as [x|]; [|intros; by simplify_eq]. destruct (_ <? _); [done|].
  destruct (validate_chunk_extensions (S (length x)) x); cbn [mbind result_bind]; [|done]. intros. by simplify_eq.
Qed.

Lemma parse_decimal_nonneg digits : ∀ parsed v,
  0 ≤ parsed → forallb is_ascii_digit digits = true → parse_decimal parsed digits = Some v → 0 ≤ v.
Proof.
  induction digits as [|b digits IH]; intros parsed v Hp; cbn [parse_decimal forallb];
    [intros; by simplify_eq|]. intros [Hd Hds]%andb_prop.
  unfold checked_mul64. case_match; cbn; [|done]. unfold checked_add64. case_match; cbn; [|done].
  apply IH; [|done]. unfold is_ascii_digit, in_range in Hd. apply andb_prop in Hd as [Hd _].
  apply Z.leb_le in Hd. lia.
Qed.

Lemma content_length_nonneg members : ∀ observed n,
  (∀ m, observed = Some m → 0 ≤ m) →
  content_length_members observed members = Ok (Some n) → 0 ≤ n.
Proof.
  induction members as [|member members IH]; intros observed n Ho; cbn [content_length_members].
  { intros. simplify_eq. by apply Ho. }
  destruct (is_empty _ || _) eqn:Hd; [done|].
  apply orb_false_elim in Hd as [_ Hd%negb_false_iff].
  destruct (parse_decimal 0 (trim_ows member)) as [p|] eqn:Hp; cbn; [|done].
  apply parse_decimal_nonneg in Hp; [|done|done].
  destruct observed as [x|]; cbn; [destruct (negb (x =? p)); [done|]|];
    apply IH; intros m ?; by simplify_eq.
Qed.

Lemma body_mode_nonneg m v s h n : response_body_mode m v s h = Ok (ContentLength n) → 0 ≤ n.
Proof.
  unfold response_body_mode. destruct (parse_transfer_encoding h) as [te|]; cbn; [|done].
  destruct (parse_content_length h) as [cl|] eqn:Hcl; cbn; [|done].
  destruct (_ && _); [done|]. destruct (_ && _); [done|]. destruct (_ || _); [done|].
  destruct te; [done|]. destruct cl as [c|]; [|done]. intros. simplify_eq.
  by eapply content_length_nonneg in Hcl.
Qed.

Lemma fail_not_event {A} reason e l event x :
  fail (A := A) reason e l ≠ (Ok event, x).
Proof. unfold fail. by destruct (terminal_error e). Qed.

Lemma decode_head_well e l event e' l' :
  well e → decode_head e l = (Ok (StepEvent event), (e', l')) → well e'.
Proof.
  intros [[] Hlim _]. unfold decode_head.
  destruct (find_incremental _ _ _) as [[index|] start].
  2: { destruct (_ <=? _); [by intros ?%fail_not_event|]. unfold need_input_or_eof.
       destruct (saw_eof _); [by intros ?%fail_not_event|done]. }
  destruct (_ <? _); [by intros ?%fail_not_event|].
  destruct (parse_head _ _) as [[[v st] h]|r]; [|by intros ?%fail_not_event].
  destruct (_ =? _); [by intros ?%fail_not_event|]. destruct (is_informational st).
  - destruct (_ <? _); [by intros ?%fail_not_event|]. intros. simplify_eq.
    by split; [constructor| |].
  - destruct (response_body_mode _ _ _ _) as [m|r] eqn:Hm; [|by intros ?%fail_not_event].
    intros. simplify_eq. destruct m; (split; [by constructor|done|]); cbn; try done.
    by eapply body_mode_nonneg.
Qed.

Lemma decode_trailers_well e l event e' l' :
  well e → decode_trailers e l = (Ok (StepEvent event), (e', l')) → well e'.
Proof.
  intros [[] Hlim _]. unfold decode_trailers. destruct (starts_with CRLF l).
  - destruct (_ <? _); [by intros ?%fail_not_event|].
    destruct (parse_trailers _ _); [|by intros ?%fail_not_event].
    intros. simplify_eq. by split; [constructor| |].
  - destruct (find_incremental _ _ _) as [[index|] start]; cbn [fmap option_fmap option_map].
    + destruct (_ <? _); [by intros ?%fail_not_event|].
      destruct (parse_trailers _ _); [|by intros ?%fail_not_event].
      intros. simplify_eq. by split; [constructor| |].
    + destruct (_ <=? _); [by intros ?%fail_not_event|]. unfold need_input_or_eof.
      destruct (saw_eof _); [by intros ?%fail_not_event|done].
Qed.

Lemma well_state e s :
  well e → s ≠ FailedNonReusable → remaining_ok s → well (e <| state := s |>).
Proof. intros [[] ? ?] ? ?. by split; [constructor| |]. Qed.

Lemma take_body_well remaining (more done : Z → ResponseState) e l event e' l' :
  well e → (∀ r, more r ≠ FailedNonReusable) → (∀ r, done r ≠ FailedNonReusable) →
  (∀ r, 0 ≤ r → remaining_ok (more r)) → (∀ r, remaining_ok (done r)) →
  take_body remaining more done e l = (Ok (StepEvent event), (e', l')) → well e'.
Proof.
  intros Hw Hm Hd Hmr Hdr. unfold take_body. intros [= <- <- <-]. apply well_state; [done|..].
  - by case_match.
  - case_match; [done|]. apply Hmr. unfold saturating_sub64. lia.
Qed.

Lemma need_input_not_event e l event x : need_input_or_eof e l ≠ (Ok (StepEvent event), x).
Proof. unfold need_input_or_eof. destruct (saw_eof e); [apply fail_not_event|done]. Qed.

Lemma decode_turn_well e l :
  well e →
  match decode_turn e l with
  | inr (e', _) | inl (Ok (StepEvent _), (e', _)) => well e'
  | _ => True
  end.
Proof.
  intros Hw. unfold decode_turn. pose proof Hw as [Hfr Hlim Hrem].
  assert (∀ s, s ≠ FailedNonReusable → remaining_ok s → well (e <| state := s |>)) as Hst
    by (intros; by apply well_state).
  assert (∀ o, (∀ event e' l', o = (Ok (StepEvent event), (e', l')) → well e') →
    match inl o : outcome ResponseStep + ResponseProtocolEngine * bytes with
    | inr (e', _) | inl (Ok (StepEvent _), (e', _)) => well e'
    | _ => True
    end) as Hinl.
  { intros [[[]|] [e' l']] Ho; [by eapply Ho|done|done]. }
  assert (∀ l', match inl (need_input_or_eof e l')
      : outcome ResponseStep + ResponseProtocolEngine * bytes with
    | inr (e', _) | inl (Ok (StepEvent _), (e', _)) => well e'
    | _ => True
    end) as Hneed by (intros; apply Hinl; by intros ??? ?%need_input_not_event).
  assert (∀ reason l', match inl (fail reason e l')
      : outcome ResponseStep + ResponseProtocolEngine * bytes with
    | inr (e', _) | inl (Ok (StepEvent _), (e', _)) => well e'
    | _ => True
    end) as Hfail by (intros; apply Hinl; by intros ??? ?%fail_not_event).
  destruct (state e) as [| | |r| |r| | | | |] eqn:Hs.
  - apply Hinl. intros. by eapply decode_head_well.
  - by apply Hst.
  - apply Hinl. intros. by eapply decode_head_well.
  - destruct (r =? 0); [by apply Hst|]. destruct (is_empty l); [apply Hneed|].
    apply Hinl. intros event e' l' Ho.
    by apply (take_body_well r FixedLength (λ _, Completed) e l event e' l').
  - unfold decode_chunk_size. destruct (find_incremental _ _ _) as [[index|] start].
    + destruct (_ <? _); [apply Hinl; by intros ??? ?%fail_not_event|].
      destruct (parse_chunk_size_line _ _) as [size|] eqn:Hp;
        [|apply Hinl; by intros ??? ?%fail_not_event].
      apply parse_chunk_size_line_nonneg in Hp. apply well_state.
      * destruct Hfr. split; [by constructor|done|]. cbn. by rewrite Hs.
      * by destruct (size =? 0).
      * by destruct (size =? 0).
    + destruct (_ && _); apply Hinl; [by intros ??? ?%fail_not_event|].
      by intros ??? ?%need_input_not_event.
  - destruct (r =? 0); [by apply Hst|]. destruct (is_empty l); [apply Hneed|].
    apply Hinl. intros event e' l' Ho.
    by apply (take_body_well r ChunkData (λ _, ChunkTerminator) e l event e' l').
  - destruct l as [|b l]; [apply Hneed|]. destruct (negb (b =? 13)); [apply Hfail|].
    destruct l as [|c l]; [apply Hneed|]. destruct (negb (c =? 10)); [apply Hfail|by apply Hst].
  - apply Hinl. intros. by eapply decode_trailers_well.
  - destruct (negb (is_empty l)); [done|]. destruct (saw_eof e); [by apply Hst|done].
  - destruct (complete_emitted e); [done|]. destruct Hfr. split; [by constructor|done|].
    cbn. by rewrite Hs.
  - apply Hfail.
Qed.

(** A turn that asks for input leaves it, and the engine up to its searches. *)
Lemma decode_turn_need e l e' l' :
  fresh e → decode_turn e l = inl (Ok NeedInput, (e', l')) → l' = l ∧ norm e' = e.
Proof.
  intros Hfr. rewrite <- (norm_fresh e Hfr) at 2. pose proof (fr_eof _ Hfr) as He.
  assert (∀ reason e l, fail reason e l ≠ (Ok NeedInput, (e', l'))) as Hf
    by (intros; apply fail_not_event).
  unfold decode_turn.
  destruct (state e) as [| | |r| |r| | | | |].
  1, 3: unfold decode_head; destruct (find_incremental _ _ _) as [[index|] start];
    [destruct (_ <? _); [by intros [= ?%Hf]|];
     destruct (parse_head _ _) as [[[v st] h]|x]; [|by intros [= ?%Hf]];
     destruct (_ =? _); [by intros [= ?%Hf]|]; destruct (is_informational st);
     [destruct (_ <? _); [by intros [= ?%Hf]|done]
     |destruct (response_body_mode _ _ _ _); [done|by intros [= ?%Hf]]]
    |destruct (_ <=? _); [by intros [= ?%Hf]|]; unfold need_input_or_eof; cbn [saw_eof over];
     rewrite He; intros; by simplify_eq].
  - done.
  - destruct (r =? 0); [done|]. unfold need_input_or_eof. rewrite He.
    destruct (is_empty l); intros; by simplify_eq.
  - unfold decode_chunk_size. destruct (find_incremental _ _ _) as [[index|] start].
    + destruct (_ <? _); [by intros [= ?%Hf]|].
      destruct (parse_chunk_size_line _ _); [done|by intros [= ?%Hf]].
    + destruct (_ && _); [by intros [= ?%Hf]|]. unfold need_input_or_eof. cbn [saw_eof over].
      rewrite He. intros. by simplify_eq.
  - destruct (r =? 0); [done|]. unfold need_input_or_eof. rewrite He.
    destruct (is_empty l); intros; by simplify_eq.
  - unfold need_input_or_eof. rewrite He. destruct l as [|b l]; [intros; by simplify_eq|].
    destruct (negb (b =? 13)); [by intros [= ?%Hf]|].
    destruct l as [|c l]; [intros; by simplify_eq|].
    destruct (negb (c =? 10)); [by intros [= ?%Hf]|done].
  - unfold decode_trailers. destruct (starts_with CRLF l).
    + destruct (_ <? _); [by intros [= ?%Hf]|].
      destruct (parse_trailers _ _); [done|by intros [= ?%Hf]].
    + destruct (find_incremental _ _ _) as [[index|] start]; cbn [fmap option_fmap option_map].
      * destruct (_ <? _); [by intros [= ?%Hf]|].
        destruct (parse_trailers _ _); [done|by intros [= ?%Hf]].
      * destruct (_ <=? _); [by intros [= ?%Hf]|]. unfold need_input_or_eof. cbn [saw_eof over].
        rewrite He. intros. by simplify_eq.
  - rewrite He. destruct (negb (is_empty l)); [done|]. intros. by simplify_eq.
  - destruct (complete_emitted e); [|done]. intros. by simplify_eq.
  - by intros [= ?%Hf].
Qed.

(** Reading [l ++ k] is reading [l], then [k] after what was left of [l]. *)
Lemma runs_app e l t r k :
  well e → runs e l t r →
  match r with
  | Err error => runs e (l ++ k) t (Err error)
  | Ok (e', l') => ∀ t2 r2, runs (norm e') (l' ++ k) t2 r2 → runs e (l ++ k) (t ++ t2) r2
  end.
Proof.
  intros Hw Hrun. induction Hrun as
    [e l e' l' t r Ht _ IH|e l event e' l' t r Ht Hrun IH|e l e' l' Ht|e l error x Ht].
  all: pose proof (decode_turn_extends k e l (we_fresh _ Hw) (we_limit _ Hw)) as Hex.
  all: pose proof (decode_turn_well e l Hw) as Hw'; rewrite Ht in Hw'; rewrite Ht in Hex at 1.
  - destruct Hex as [Hex|(_ & ? & Hb & _)]; [|congruence]. cbn in Hex.
    specialize (IH Hw'). destruct r as [[e2 l2]|error]; [intros t2 r2 Hr|];
      eapply runs_turn; eauto.
  - specialize (IH Hw'). destruct Hex as [Hex|(Hne & e1 & Hb & Hfr & Hl & Hcut)].
    { cbn in Hex. destruct r as [[e2 l2]|error]; [intros t2 r2 Hr; rewrite <- app_assoc|];
        eapply runs_event; eauto. }
    rewrite Ht in Hb. injection Hb as -> -> ->. cbn [app event_tokens] in *.
    assert (∀ t2 r2, runs e1 k t2 r2 → runs e (l ++ k) (map TByte l ++ t2) r2) as Hjoin.
    { intros t2 r2 Hr2. destruct k as [|c k]; [rewrite app_nil_r; by eapply (runs_event e l (Body l))|].
      destruct (Hcut ltac:(done)) as (d & e2 & k2 & Hd & Hw2).
      inversion Hr2 as [? ? ? ? ? ? Hx|? ? ev ? ? t3 ? Hx Hr3|? ? ? ? Hx|? ? ? ? Hx]; subst;
        rewrite Hd in Hx; simplify_eq. cbn [event_tokens].
      rewrite app_assoc, <- map_app. by eapply (runs_event e _ (Body (l ++ d))). }
    destruct r as [[e2 l2]|error]; [|by apply Hjoin].
    intros t2 r2 Hr. rewrite <- app_assoc. apply Hjoin. by apply IH.
  - intros t2 r2 Hr. apply decode_turn_need in Ht as [-> Hn]; [|apply Hw].
    by rewrite Hn in Hr.
  - destruct Hex as [[y Hex]|(_ & ? & Hb & _)]; [|congruence]. by eapply runs_error.
Qed.

(** ** Termination of a read *)

(** What is left to deliver: every event takes octets, or is [Complete]. *)
Definition weight (e : ResponseProtocolEngine) (l : bytes) : Z :=
  len l + if complete_emitted e then 0 else 1.

(** A turn that delivers an event leaves less to do, and an engine that has not failed. *)
Definition advances (e : ResponseProtocolEngine) (l : bytes) (e' : ResponseProtocolEngine)
    (l' : bytes) : Prop :=
  weight e' l' < weight e l ∧ terminal_error e' = terminal_error e ∧ remaining_ok (state e')
    ∧ saw_eof e' = saw_eof e.

Lemma dropZ_shorter n (l : bytes) : 0 < n → n ≤ len l → len (dropZ n l) < len l.
Proof. intros. rewrite len_dropZ by lia. lia. Qed.

Lemma take_body_weight remaining more done e l :
  0 < remaining → l ≠ [] → (∀ r, 0 ≤ r → remaining_ok (more r) ∧ remaining_ok (done r)) →
  advances e l (take_body remaining more done e l).2.1 (take_body remaining more done e l).2.2.
Proof.
  intros Hr Hl Hok. unfold take_body, advances, weight. cbn.
  destruct (Hok (saturating_sub64 remaining (Z.min remaining (len l))));
    [unfold saturating_sub64; lia|].
  assert (0 < len l) by (destruct l; [done|rewrite len_cons; pose proof (len_nonneg l); lia]).
  rewrite len_dropZ by lia. split_and!; [lia|done|by case_match|done].
Qed.

Lemma decode_head_weight e l event e' l' :
  settled CRLFCRLF (head_search_start e) l →
  decode_head e l = (Ok (StepEvent event), (e', l')) → advances e l e' l'.
Proof.
  intros Hset. unfold decode_head. rewrite find_incremental_spec by done.
  destruct (first_occurrence CRLFCRLF l) as [index|] eqn:Hf.
  2: { destruct (_ <=? _); [by intros ?%fail_not_event|]. by intros ?%need_input_not_event. }
  apply first_occurrence_bound in Hf as [? Hb]. change (len CRLFCRLF) with 4 in Hb.
  pose proof (dropZ_shorter (index + 4) l ltac:(lia) ltac:(lia)) as Hlt.
  destruct (_ <? _); [by intros ?%fail_not_event|].
  destruct (parse_head _ _) as [[[v st] h]|r]; [|by intros ?%fail_not_event].
  destruct (_ =? _); [by intros ?%fail_not_event|]. destruct (is_informational st).
  - destruct (_ <? _); [by intros ?%fail_not_event|]. intros. simplify_eq.
    unfold advances, weight. cbn. split_and!; [lia|done..].
  - destruct (response_body_mode _ _ _ _) as [m|] eqn:Hm; [|by intros ?%fail_not_event]. intros. simplify_eq.
    unfold advances, weight. cbn. split_and!; [lia|done| |done].
    destruct m; [done| |done..]. by eapply body_mode_nonneg.
Qed.

Lemma decode_trailers_weight e l event e' l' :
  settled CRLFCRLF (trailer_search_start e) l →
  decode_trailers e l = (Ok (StepEvent event), (e', l')) → advances e l e' l'.
Proof.
  intros Hset. unfold decode_trailers. destruct (starts_with CRLF l) eqn:Hc.
  - apply starts_with_spec in Hc as [l0 ->].
    pose proof (dropZ_shorter 2 (CRLF ++ l0) ltac:(lia) ltac:(unfold len; cbn; lia)).
    destruct (_ <? _); [by intros ?%fail_not_event|].
    destruct (parse_trailers _ _); [|by intros ?%fail_not_event].
    intros. simplify_eq. unfold advances, weight. cbn [complete_emitted over]. split_and!; [lia|done..].
  - rewrite find_incremental_spec by done.
    destruct (first_occurrence CRLFCRLF l) as [index|] eqn:Hf; cbn [fmap option_fmap option_map].
    + apply first_occurrence_bound in Hf as [? Hb]. change (len CRLFCRLF) with 4 in Hb.
      pose proof (dropZ_shorter (4 + index) l ltac:(lia) ltac:(lia)) as Hlt.
      destruct (_ <? _); [by intros ?%fail_not_event|].
      destruct (parse_trailers _ _); [|by intros ?%fail_not_event].
      intros. simplify_eq. unfold advances, weight. cbn [complete_emitted over]. split_and!; [lia|done..].
    + destruct (_ <=? _); [by intros ?%fail_not_event|]. by intros ?%need_input_not_event.
Qed.

Lemma decode_turn_weight e l :
  search_ok e l → remaining_ok (state e) →
  match decode_turn e l with
  | inr (e', l') => weight e' l' ≤ weight e l ∧ remaining_ok (state e') ∧ saw_eof e' = saw_eof e
  | inl (Ok (StepEvent _), (e', l')) => advances e l e' l'
  | _ => True
  end.
Proof.
  intros Ho Hr. unfold search_ok in Ho.
  assert (∀ o : outcome ResponseStep, (∀ event e' l', o = (Ok (StepEvent event), (e', l')) →
    advances e l e' l') →
    match o with (Ok (StepEvent _), (e', l')) => advances e l e' l' | _ => True end) as Hinl.
  { intros [[[]|] [e' l']] Hx; [by eapply Hx|done|done]. }
  unfold decode_turn. pose proof (len_nonneg l).
  destruct (state e) as [| | |r| |r| | | | |] eqn:Hs.
  - apply Hinl. intros ???. by apply decode_head_weight, Ho.
  - unfold weight. cbn. split_and!; [lia|done..].
  - apply Hinl. intros ???. by apply decode_head_weight, Ho.
  - destruct (Z.eqb_spec r 0); [unfold weight; cbn; split_and!; [lia|done..]|].
    destruct l as [|b l]; [apply Hinl; by intros ??? ?%need_input_not_event|].
    cbn [is_empty]. apply Hinl. intros ??? Hx. cbn in Hr.
    pose proof (take_body_weight r FixedLength (λ _, Completed) e (b :: l) ltac:(lia)
      ltac:(done) ltac:(done)) as Hw.
    by rewrite Hx in Hw.
  - unfold decode_chunk_size. rewrite find_incremental_spec by apply Ho.
    destruct (first_occurrence CRLF l) as [index|] eqn:Hf.
    + apply first_occurrence_bound in Hf as [? Hb]. change (len CRLF) with 2 in Hb.
      pose proof (dropZ_shorter (index + 2) l ltac:(lia) ltac:(lia)) as Hlt.
      destruct (_ <? _); [apply Hinl; by intros ??? ?%fail_not_event|].
      destruct (parse_chunk_size_line _ _) as [size|] eqn:Hp;
        [|apply Hinl; by intros ??? ?%fail_not_event].
      apply parse_chunk_size_line_nonneg in Hp. unfold weight. cbn.
      split_and!; [lia|by destruct (size =? 0)|done].
    + destruct (_ && _); apply Hinl; [by intros ??? ?%fail_not_event|].
      by intros ??? ?%need_input_not_event.
  - destruct (Z.eqb_spec r 0); [unfold weight; cbn; split_and!; [lia|done..]|].
    destruct l as [|b l]; [apply Hinl; by intros ??? ?%need_input_not_event|].
    cbn [is_empty]. apply Hinl. intros ??? Hx. cbn in Hr.
    pose proof (take_body_weight r ChunkData (λ _, ChunkTerminator) e (b :: l) ltac:(lia)
      ltac:(done) ltac:(done)) as Hw.
    by rewrite Hx in Hw.
  - destruct l as [|b l]; [apply Hinl; by intros ??? ?%need_input_not_event|].
    destruct (negb (b =? 13)); [apply Hinl; by intros ??? ?%fail_not_event|].
    destruct l as [|c l]; [apply Hinl; by intros ??? ?%need_input_not_event|].
    destruct (negb (c =? 10)); [apply Hinl; by intros ??? ?%fail_not_event|].
    unfold weight. cbn. rewrite !len_cons. split_and!; [lia|done..].
  - apply Hinl. intros ???. by apply decode_trailers_weight, Ho.
  - destruct (is_empty l) eqn:He; cbn [negb].
    + destruct (saw_eof e) eqn:Heof; [unfold weight; cbn; split_and!; [lia|done..]|done].
    + apply is_empty_false in He. unfold advances, weight. rewrite len_nil. split_and!; [lia|done| |done].
      by rewrite Hs.
  - destruct (complete_emitted e) eqn:Hc; [done|]. unfold advances, weight. cbn. rewrite Hc, Hs.
    split_and!; [lia|done..].
  - apply Hinl. by intros ??? ?%fail_not_event.
Qed.
End spec.
