(* ===== verification/H1Reader.v ===== *)
(** * Reading a response in fragments

    A reader hands the engine the octets of a connection as they arrive and
    drains the events after every arrival.  What it delivers depends only on
    the octets, not on how the network cut them. *)

From S2P Require Import Prelude Bytes Text H1Types H1Chunked H1Head H1Engine H1Spec.

Section reader.
  Context `{ByteSearch} `{HttpLib}.

Definition reading : Type :=
  result ResponseProtocolError (ResponseProtocolEngine * bytes).

(** Calls of [decode] until it asks for input or fails. *)
Fixpoint drain_events (fuel : nat) (e : ResponseProtocolEngine) (input : bytes) (eof : bool)
    : option (list ResponseEvent * reading) :=
  match fuel with
  | O => None
  | S fuel =>
      match decode e input eof with
      | Some (Ok (StepEvent event), (e, input)) =>
          '(events, r) ← drain_events fuel e input eof; Some (event :: events, r)
      | Some (Ok NeedInput, (e, input)) => Some ([], Ok (e, input))
      | Some (Err error, _) => Some ([], Err error)
      | None => None
      end
  end.

Definition drain (e : ResponseProtocolEngine) (input : bytes) (eof : bool) :=
  drain_events (S (Z.to_nat (weight e input))) e input eof.

(** The arrivals, then the end of the connection. *)
Fixpoint read_fragments (e : ResponseProtocolEngine) (unread : bytes) (fragments : list bytes)
    : option (list ResponseEvent * reading) :=
  match fragments with
  | [] => drain e unread true
  | fragment :: fragments =>
      '(events, r) ← drain e (unread ++ fragment) false;
      match r with
      | Err error => Some (events, Err error)
      | Ok (e, unread) =>
          '(more, r) ← read_fragments e unread fragments; Some (events ++ more, r)
      end
  end.

Definition tokens (events : list ResponseEvent) : list token :=
  concat (map event_tokens events).

(** ** Runs *)

Lemma runs_deterministic e l t r :
  runs e l t r → ∀ t' r', runs e l t' r' → t' = t ∧ r' = r.
Proof.
  induction 1 as [e l e' l' t r Ht _ IH|e l event e' l' t r Ht _ IH|e l e' l' Ht|e l error x Ht];
    intros t' r' Hr';
    inversion Hr' as [????? ? Hx|?? ev ?? t1 ? Hx Hrest|???? Hx|???? Hx]; subst; rewrite Hx in Ht;
    simplify_eq; try done.
  - by apply IH.
  - by destruct (IH _ _ Hrest) as [-> ->].
Qed.

(** Two outcomes of a read that differ at most in where searches resume. *)
Definition same_reading (r r' : reading) : Prop :=
  match r, r' with
  | Ok (e, l), Ok (e', l') => l = l' ∧ norm e = norm e'
  | Err error, Err error' => error = error'
  | _, _ => False
  end.

#[global] Instance same_reading_equivalence : Equivalence same_reading.
Proof.
  split.
  - by intros [[]|].
  - intros [[]|] [[]|]; cbn; intuition congruence.
  - intros [[]|] [[]|] [[]|]; cbn; intuition congruence.
Qed.

Lemma runs_agree e l t r :
  runs e l t r → ∀ e', norm e = norm e' → search_ok e l → search_ok e' l →
  terminal_error e = None → remaining_ok (state e) →
  ∃ r', runs e' l t r' ∧ same_reading r r'.
Proof.
  induction 1 as [e l e1 l1 t r Ht _ IH|e l event e1 l1 t r Ht _ IH|e l e1 l1 Ht|e l error x Ht];
    intros e' Hn Ho Ho' He Hrem.
  all: pose proof (decode_turn_agree e e' l Hn Ho Ho') as Ha; rewrite Ht in Ha.
  all: pose proof (decode_turn_search e l Ho He) as Hk; rewrite Ht in Hk.
  all: assert (terminal_error e' = None) as He' by (rewrite <- He; symmetry; by apply norm_fields).
  all: pose proof (decode_turn_search e' l Ho' He') as Hk'.
  - destruct (decode_turn e' l) as [|[e2 l2]] eqn:Ht'; [done|]. destruct Ha as [<- Hn1].
    pose proof (decode_turn_weight e l Ho Hrem) as Hw. rewrite Ht in Hw. destruct Hw as (_ & ? & _).
    destruct Hk, Hk'. destruct (IH e2) as (r' & Hr & Hs); [done..|].
    exists r'. split; [|done]. by eapply runs_turn.
  - destruct (decode_turn e' l) as [[o [e2 l2]]|] eqn:Ht'; [|by destruct p].
    destruct Ha as (Ha1 & Ha2 & Ha3). cbn in Ha1, Ha2, Ha3. subst o l2.
    specialize (Hk []). specialize (Hk' []). rewrite app_nil_r in Hk, Hk'.
    pose proof (decode_turn_weight e l Ho Hrem) as Hw. rewrite Ht in Hw.
    destruct Hw as (_ & Hw & Hrem1 & _). rewrite He in Hw.
    destruct (IH e2) as (r' & Hr & Hs); [done..|].
    exists r'. split; [|done]. by eapply runs_event.
  - destruct (decode_turn e' l) as [[o [e2 l2]]|] eqn:Ht'; [|by destruct p].
    destruct Ha as (Ha1 & Ha2 & Ha3). cbn in Ha1, Ha2, Ha3. subst o l2.
    exists (Ok (e2, l1)). split; [by eapply runs_need|done].
  - destruct (decode_turn e' l) as [[o [e2 l2]]|] eqn:Ht'; [|by destruct p].
    destruct Ha as (Ha1 & _). cbn in Ha1. subst o.
    exists (Err error). split; [by eapply runs_error|done].
Qed.

(** ** The reader follows the run *)

Definition with_eof (e : ResponseProtocolEngine) (eof : bool) : ResponseProtocolEngine :=
  e <| saw_eof ::= λ b, b || eof |>.

Lemma with_eof_id e eof : saw_eof e || eof = saw_eof e → with_eof e eof = e.
Proof. intros He. destruct e. unfold with_eof, over. cbn in *. by rewrite He. Qed.

(** What the engine keeps between calls. *)
Record ready (e : ResponseProtocolEngine) (l : bytes) : Prop := {
  rd_search : search_ok e l;
  rd_alive : terminal_error e = None;
  rd_remaining : remaining_ok (state e);
}.

Lemma ready_eof e l eof : ready e l → ready (with_eof e eof) l.
Proof. by intros [? ? ?]. Qed.

Lemma decode_loop_runs fuel : ∀ e l o,
  ready e l → decode_loop fuel e l = Some o →
  match o with
  | (Ok (StepEvent event), (e', l')) =>
      ready e' l' ∧ weight e' l' < weight e l ∧ saw_eof e' = saw_eof e
        ∧ ∀ t r, runs e' l' t r → runs e l (event_tokens event ++ t) r
  | (Ok NeedInput, (e', l')) => runs e l [] (Ok (e', l')) ∧ ∀ k, search_ok e' (l' ++ k)
  | (Err error, _) => runs e l [] (Err error)
  end.
Proof.
  induction fuel as [|fuel IH]; intros e l o [Ho He Hrem] Hl; [done|]. cbn [decode_loop] in Hl.
  pose proof (decode_turn_search e l Ho He) as Hk.
  pose proof (decode_turn_weight e l Ho Hrem) as Hw.
  destruct (decode_turn e l) as [o'|[e1 l1]] eqn:Ht; simplify_eq.
  - destruct o as [[[event|]|error] [e' l']].
    + destruct Hw as (Hw & He' & Hr' & Heof). rewrite He in He'. split_and!; [|done..|].
      * split; [|done..]. specialize (Hk []). by rewrite app_nil_r in Hk.
      * intros t r Hr. by eapply runs_event.
    + split; [by eapply runs_need|done].
    + by eapply runs_error.
  - destruct Hw as (Hw & Hr1 & Heof), Hk as [Ho1 He1].
    specialize (IH e1 l1 o ltac:(done) Hl).
    destruct o as [[[event|]|error] [e' l']].
    + destruct IH as (? & ? & ? & Hr). split_and!; [done|lia|congruence|].
      intros t r Hx. eapply runs_turn; [done|]. by apply Hr.
    + destruct IH. split; [by eapply runs_turn|done].
    + by eapply runs_turn.
Qed.

Lemma decode_unfold e l eof :
  terminal_error e = None → ∃ o, decode e l eof = Some o ∧ decode_loop 5 (with_eof e eof) l = Some o.
Proof.
  intros He. unfold decode. rewrite He.
  destruct (decode_loop_total 5 (with_eof e eof) l) as [o Ho]; [apply rank_bound|]. eauto.
Qed.

Lemma drain_events_runs fuel : ∀ e l eof,
  ready e l → weight e l < Z.of_nat fuel →
  ∃ events r, drain_events fuel e l eof = Some (events, r)
    ∧ runs (with_eof e eof) l (tokens events) r
    ∧ ∀ e' l', r = Ok (e', l') → ∀ k, search_ok e' (l' ++ k).
Proof.
  induction fuel as [|fuel IH]; intros e l eof Hrd Hw.
  { unfold weight in Hw. pose proof (len_nonneg l). destruct (complete_emitted e); lia. }
  cbn [drain_events]. destruct (decode_unfold e l eof (rd_alive _ _ Hrd)) as (o & -> & Ho).
  pose proof (decode_loop_runs _ _ _ _ (ready_eof _ _ eof Hrd) Ho) as Hd.
  destruct o as [[[event|]|error] [e' l']].
  - destruct Hd as (Hrd' & Hw' & Heof & Hr).
    change (weight (with_eof e eof) l) with (weight e l) in Hw'.
    destruct (IH e' l' eof Hrd' ltac:(lia)) as (events & r & -> & Hruns & Hk). cbn.
    exists (event :: events), r. split_and!; [done| |done]. apply Hr.
    rewrite with_eof_id in Hruns; [done|]. rewrite Heof. cbn. by destruct (saw_eof e), eof.
  - destruct Hd as [Hr Hk]. exists [], (Ok (e', l')). split_and!; [done..|].
    intros ? ? ?. by simplify_eq.
  - exists [], (Err error). split_and!; [done..|]. done.
Qed.

Lemma drain_runs e l eof :
  ready e l →
  ∃ events r, drain e l eof = Some (events, r)
    ∧ runs (with_eof e eof) l (tokens events) r
    ∧ ∀ e' l', r = Ok (e', l') → ∀ k, search_ok e' (l' ++ k).
Proof.
  intros. apply drain_events_runs; [done|]. unfold weight. pose proof (len_nonneg l).
  destruct (complete_emitted e); lia.
Qed.

(** ** Fragments *)

(** The engine has drained its input. *)
Definition blocked (e : ResponseProtocolEngine) (l : bytes) : Prop :=
  ∃ x, runs e l [] (Ok (x, l)) ∧ norm x = e.

Lemma runs_end e l t r :
  runs e l t r → well e → ∀ e' l', r = Ok (e', l') → well (norm e') ∧ blocked (norm e') l'.
Proof.
  induction 1 as [e l e1 l1 t r Ht _ IH|e l event e1 l1 t r Ht _ IH|e l e1 l1 Ht|e l error x Ht];
    intros Hw e' l' Hr; try done.
  1, 2: apply IH; [|done]; pose proof (decode_turn_well e l Hw) as Hx; by rewrite Ht in Hx.
  simplify_eq. pose proof Ht as Hn. apply decode_turn_need in Hn as [-> Hn]; [|apply Hw].
  rewrite Hn. split; [done|]. exists e'. split; [by apply runs_need|done].
Qed.

(** The run over a whole connection: its octets, then its end. *)
Inductive whole (e : ResponseProtocolEngine) (l : bytes) : list token → reading → Prop :=
  | whole_error t error : runs e l t (Err error) → whole e l t (Err error)
  | whole_end e' l' t t' r :
      runs e l t (Ok (e', l')) → runs (with_eof (norm e') true) l' t' r →
      whole e l (t ++ t') r.

Lemma whole_deterministic e l t r t' r' :
  whole e l t r → whole e l t' r' → t' = t ∧ r' = r.
Proof.
  intros [t1 error Hr|e1 l1 t1 t2 r1 Hr He] [t3 error' Hr'|e3 l3 t3 t4 r3 Hr' He'];
    destruct (runs_deterministic _ _ _ _ Hr _ _ Hr') as [-> Hx]; simplify_eq; [done|].
  by destruct (runs_deterministic _ _ _ _ He _ _ He') as [-> ->].
Qed.

Lemma norm_ready e l : well (norm e) → search_ok e l → ready e l.
Proof. intros [Hfr _ Hrem] Ho. split; [done|exact (fr_error _ Hfr)|exact Hrem]. Qed.

Lemma read_fragments_whole fragments : ∀ e unread,
  well (norm e) → (∀ k, search_ok e (unread ++ k)) → blocked (norm e) unread →
  ∃ events r r', read_fragments e unread fragments = Some (events, r)
    ∧ whole (norm e) (unread ++ concat fragments) (tokens events) r' ∧ same_reading r r'.
Proof.
  induction fragments as [|f fragments IH]; intros e unread Hw Hs Hb; cbn [read_fragments concat].
  - rewrite app_nil_r. assert (ready e unread) as Hrd.
    { apply norm_ready; [done|]. specialize (Hs []). by rewrite app_nil_r in Hs. }
    destruct (drain_runs e unread true Hrd) as (events & r & Hd & Hr & _).
    destruct (runs_agree _ _ _ _ Hr (with_eof (norm e) true)) as (r' & Hr' & Hsame);
      [done|apply ready_eof, Hrd|apply (ready_eof (norm e))|apply Hrd..|].
    { apply norm_ready; [done|]. apply fresh_search_ok, Hw. }
    destruct Hb as (x & Hx & Hn). exists events, r, r'. split_and!; [done| |done].
    eapply (whole_end _ _ x unread []); [done|by rewrite Hn].
  - assert (ready e (unread ++ f)) as Hrd by (apply norm_ready; auto).
    destruct (drain_runs e (unread ++ f) false Hrd) as (events & r & -> & Hr & Hk).
    rewrite with_eof_id in Hr by (by rewrite orb_false_r).
    destruct (runs_agree _ _ _ _ Hr (norm e)) as (r' & Hr' & Hsame);
      [done|apply Hrd|apply fresh_search_ok, Hw|apply Hrd..|].
    pose proof (runs_app _ _ _ _ (concat fragments) Hw Hr') as Happ.
    rewrite <- app_assoc in Happ. cbn.
    destruct r as [[e1 l1]|error], r' as [[e2 l2]|error']; cbn in Hsame; try done.
    2: { subst error'. exists events, (Err error), (Err error). split_and!; [done| |done].
         by apply whole_error. }
    destruct Hsame as [<- Hn]. destruct (runs_end _ _ _ _ Hr' Hw e2 l1 eq_refl) as [Hw' Hb'].
    rewrite <- Hn in Hw', Hb', Happ.
    destruct (IH e1 l1 Hw' (Hk _ _ eq_refl) Hb') as (more & r & r' & -> & Hwh & Hsame). cbn.
    exists (events ++ more), r, r'. split_and!; [done| |done].
    unfold tokens. rewrite map_app, concat_app.
    inversion Hwh as [? error He|e3 l3 t3 t4 ? H3 H4]; subst.
    + apply whole_error. by apply Happ.
    + change (concat (map event_tokens more)) with (tokens more). replace (tokens more) with (t3 ++ t4).
      rewrite (app_assoc _ t3 t4). eapply whole_end; [|done]. by apply Happ.
Qed.

Lemma engine_new_start method l e :
  engine_new method l = Ok e → 0 ≤ max_response_head_bytes l → 0 ≤ max_chunk_size_line_bytes l →
  well (norm e) ∧ (∀ k, search_ok e k) ∧ blocked (norm e) [].
Proof.
  unfold engine_new, limits_validate. intros He Hh Hc.
  destruct (_ || _) eqn:Hv in He; cbn in He; [done|]. simplify_eq.
  assert (max_response_head_bytes l ≠ 0) as Hh0.
  { intros Hz. cbn in Hv. by rewrite Hz in Hv. }
  split_and!.
  - by split.
  - intros k. unfold search_ok. cbn. split; [apply settled_zero|done].
  - eexists. split; [apply runs_need|].
    + unfold decode_turn, decode_head. cbn [state norm over].
      rewrite find_incremental_spec by apply settled_zero.
      change (first_occurrence CRLFCRLF []) with (@None Z). cbn. rewrite len_nil.
      rewrite (proj2 (Z.leb_gt _ _)) by lia. done.
    + done.
Qed.

(** C4: the response engine is independent of fragmentation.  However a
    connection's octets are cut into arrivals, draining the engine after each
    arrival and at the end of the connection terminates, delivers the same
    heads, body octets, trailers and completion in the same order, and ends
    in the same error, or in the same engine state with the same octets left
    unread. *)
Theorem fragmentation_independent method l e fragments fragments' :
  engine_new method l = Ok e → 0 ≤ max_response_head_bytes l → 0 ≤ max_chunk_size_line_bytes l →
  concat fragments = concat fragments' →
  ∃ events r events' r',
    read_fragments e [] fragments = Some (events, r)
    ∧ read_fragments e [] fragments' = Some (events', r')
    ∧ tokens events = tokens events' ∧ same_reading r r'.
Proof.
  intros He Hh Hc Hsame. destruct (engine_new_start _ _ _ He Hh Hc) as (Hw & Hs & Hb).
  destruct (read_fragments_whole fragments e [] Hw Hs Hb) as (events & r & r0 & -> & Hwh & Hr).
  destruct (read_fragments_whole fragments' e [] Hw Hs Hb) as (events' & r' & r1 & -> & Hwh' & Hr').
  rewrite Hsame in Hwh. destruct (whole_deterministic _ _ _ _ _ _ Hwh Hwh') as [Ht ->].
  exists events, r, events', r'. split_and!; [done..|]. by rewrite Hr, Hr'.
Qed.
End reader.
