(* ===== verification/H1Framing.v ===== *)
(** * Framing of upstream responses

    Which body a head announces, where a body ends, what a failure and a
    request for input leave behind; and concrete instances of the crates and
    of the theorems. *)

From S2P Require Import Prelude Bytes Text H1Types H1Chunked H1Head H1Engine H1Spec.
From S2P Require Import H1Reader.

(** ** Chunks on the wire *)

Definition hex_char (d : Z) : Z := if d <? 10 then 48 + d else 97 + (d - 10).

Fixpoint hex_digits (fuel : nat) (n : Z) : bytes :=
  match fuel with
  | O => []
  | S fuel =>
      if n <? 16 then [hex_char n] else hex_digits fuel (n / 16) ++ [hex_char (n mod 16)]
  end.

(** The shortest lower-case hexadecimal of a 64-bit number. *)
Definition hex (n : Z) : bytes := hex_digits 16 n.

Definition chunk_wire (data : bytes) : bytes := hex (len data) ++ CRLF ++ data ++ CRLF.

(** The chunks, the last chunk and an empty trailer section. *)
Definition chunked_wire (chunks : list bytes) : bytes :=
  concat (map chunk_wire chunks) ++ [48] ++ CRLF ++ CRLF.

Lemma hex_char_digit d : 0 ≤ d < 16 → hex_digit (hex_char d) = Some d.
Proof.
  intros. unfold hex_char, hex_digit, in_range.
  destruct (Z.ltb_spec d 10); repeat (case_match; try (f_equal; lia)); exfalso; lia.
Qed.

Lemma parse_hex_app p l k : parse_hex p (l ++ k) = parse_hex p l ≫= λ q, parse_hex q k.
Proof.
  revert p. induction l as [|b l IH]; intros p; cbn; [done|].
  destruct (hex_digit b); cbn; [|done]. destruct (checked_mul64 p 16); cbn; [|done].
  destruct (checked_add64 _ _); cbn; [apply IH|done].
Qed.

Lemma parse_hex_char p d :
  0 ≤ d < 16 → 16 * p + d ≤ U64_MAX → parse_hex p [hex_char d] = Some (16 * p + d).
Proof.
  intros. cbn [parse_hex]. rewrite hex_char_digit by lia. cbn.
  rewrite checked_mul64_small by lia. cbn. rewrite checked_add64_small by lia. cbn. f_equal. lia.
Qed.

Lemma parse_hex_digits fuel : ∀ n,
  0 ≤ n < 16 ^ Z.of_nat fuel → n ≤ U64_MAX → parse_hex 0 (hex_digits fuel n) = Some n.
Proof.
  induction fuel as [|fuel IH]; intros n Hn Hu; [cbn in *; f_equal; lia|]. cbn [hex_digits].
  destruct (Z.ltb_spec n 16).
  - by rewrite parse_hex_char by lia.
  - rewrite Nat2Z.inj_succ, Z.pow_succ_r in Hn by lia.
    pose proof (Z.mod_pos_bound n 16 ltac:(lia)). pose proof (Z.div_mod n 16 ltac:(lia)).
    rewrite parse_hex_app, IH; [|split; [lia|apply Z.div_lt_upper_bound; lia]|lia].
    cbn [mbind option_bind]. rewrite parse_hex_char by lia. f_equal. lia.
Qed.

Lemma parse_hex_hex n : 0 ≤ n ≤ U64_MAX → parse_hex 0 (hex n) = Some n.
Proof. intros [? ?]. apply parse_hex_digits; [|done]. change (16 ^ Z.of_nat 16) with (U64_MAX + 1). lia. Qed.

Lemma hex_digits_text fuel n :
  0 ≤ n → forallb is_ascii_hexdigit (hex_digits fuel n) = true ∧ len (hex_digits fuel n) ≤ Z.of_nat fuel.
Proof.
  assert (∀ d, 0 ≤ d < 16 → is_ascii_hexdigit (hex_char d) = true) as Hd.
  { intros d ?. unfold hex_char, is_ascii_hexdigit, in_range.
    destruct (Z.ltb_spec d 10); rewrite ?orb_true_iff, ?andb_true_iff, ?Z.leb_le; lia. }
  revert n. induction fuel as [|fuel IH]; intros n Hn; cbn [hex_digits]; [done|].
  destruct (Z.ltb_spec n 16).
  - cbn [forallb]. rewrite Hd by lia. split; [done|]. rewrite len_cons, len_nil. lia.
  - pose proof (Z.mod_pos_bound n 16 ltac:(lia)).
    destruct (IH (n / 16)) as [Ht Hl]; [apply Z.div_pos; lia|].
    rewrite forallb_app, Ht, len_app. cbn [forallb]. rewrite Hd by lia.
    split; [done|]. rewrite len_cons, len_nil. lia.
Qed.

Lemma hex_nonempty n : is_empty (hex n) = false.
Proof.
  unfold hex. change 16%nat with (S 15). generalize 15%nat as fuel. intros. cbn [hex_digits].
  case_match; [done|]. by destruct (hex_digits fuel (n / 16)).
Qed.

Lemma hexdigit_not b c : is_ascii_hexdigit b = true → is_ascii_hexdigit c = false → (c =? b) = false.
Proof. intros Hb Hc. apply Z.eqb_neq. congruence. Qed.

Lemma hex_no_separator l : forallb is_ascii_hexdigit l = true → first_index (Z.eqb 59) l = None.
Proof.
  induction l as [|b l IH]; cbn [forallb first_index]; [done|]. intros [Hb Hl]%andb_true_iff.
  rewrite (hexdigit_not b 59 Hb) by done. by rewrite IH.
Qed.

Lemma hex_line_end l k :
  forallb is_ascii_hexdigit l = true → first_occurrence CRLF (l ++ CRLF ++ k) = Some (len l).
Proof.
  induction l as [|b l IH]; intros Hl; [done|]. cbn [forallb] in Hl.
  apply andb_true_iff in Hl as [Hb Hl]. cbn [app first_occurrence starts_with CRLF].
  rewrite (hexdigit_not b 13 Hb) by done. cbn [andb].
  change (13 :: 10 :: k) with (CRLF ++ k). rewrite (IH Hl), len_cons. cbn. f_equal. lia.
Qed.


Section framing.
  Context `{ByteSearch} `{HttpLib}.

Lemma parse_chunk_size_hex n max :
  0 ≤ n ≤ U64_MAX → parse_chunk_size_line (hex n) max = Ok n.
Proof.
  intros Hn. unfold parse_chunk_size_line. destruct (hex_digits_text 16 n) as [Ht _]; [lia|].
  change (hex_digits 16 n) with (hex n) in Ht.
  rewrite memchr_first, hex_no_separator by done. rewrite hex_nonempty, Ht. cbn [negb orb].
  rewrite parse_hex_hex by lia. done.
Qed.

(** The turns over one chunk. *)
Lemma runs_chunk e data rest t r :
  fresh e → state e = ChunkSizeLine → 16 ≤ max_chunk_size_line_bytes (limits e) →
  0 < len data ≤ U64_MAX → runs e rest t r →
  runs e (chunk_wire data ++ rest) (map TByte data ++ t) r.
Proof.
  intros Hfr Hs Hm Hd Hr. destruct (hex_digits_text 16 (len data)) as [Ht Hl]; [lia|].
  change (hex_digits 16 (len data)) with (hex (len data)) in *.
  assert (e <| state := ChunkSizeLine |> = e) as He by (destruct e; unfold over; cbn in *; by subst).
  unfold chunk_wire. rewrite <- !app_assoc.
  apply (runs_turn _ _ (e <| state := ChunkData (len data) |>) (data ++ CRLF ++ rest)).
  { unfold decode_turn. rewrite Hs. unfold decode_chunk_size.
    rewrite (fr_chunk _ Hfr), find_incremental_zero, hex_line_end by done.
    cbn [limits over]. rewrite (proj2 (Z.ltb_ge _ _)) by lia.
    rewrite takeZ_app_len, parse_chunk_size_hex by lia. rewrite (proj2 (Z.eqb_neq _ _)) by lia.
    do 2 f_equal; [|].
    - destruct e. unfold over. cbn. destruct Hfr. cbn in *. by subst.
    - replace (len (hex (len data)) + 2) with (len (hex (len data) ++ CRLF)) by by rewrite len_app.
      rewrite app_assoc. apply dropZ_app_len. }
  apply (runs_event _ _ (Body data) (e <| state := ChunkTerminator |>) (CRLF ++ rest)).
  { unfold decode_turn. cbn [state over]. rewrite (proj2 (Z.eqb_neq _ _)) by lia.
    rewrite is_empty_app by (intros ->; unfold len in Hd; cbn in Hd; lia). unfold take_body. cbn [over].
    rewrite len_app, Z.min_l by (pose proof (len_nonneg (CRLF ++ rest)); lia).
    rewrite takeZ_app_len, dropZ_app_len. unfold saturating_sub64. by rewrite Z.sub_diag. }
  eapply runs_turn; [done|]. by change (runs (e <| state := ChunkSizeLine |>) rest t r); rewrite He.
Qed.

(** A completed engine delivers [Complete] once and takes nothing more. *)
Lemma runs_completed e rest :
  state e = Completed → complete_emitted e = false →
  runs e rest [TComplete] (Ok (e <| complete_emitted := true |>, rest)).
Proof.
  intros Hs Hc. apply (runs_event _ _ Complete (e <| complete_emitted := true |>) rest).
  { unfold decode_turn. by rewrite Hs, Hc. }
  apply runs_need. unfold decode_turn. cbn. by rewrite Hs.
Qed.

Lemma runs_last_chunk e rest :
  fresh e → state e = ChunkSizeLine → complete_emitted e = false →
  16 ≤ max_chunk_size_line_bytes (limits e) → 2 ≤ max_trailer_block_bytes (limits e) →
  runs e ([48] ++ CRLF ++ CRLF ++ rest) [TTrailers headers_new; TComplete]
    (Ok (e <| state := Completed |> <| complete_emitted := true |>, rest)).
Proof.
  intros Hfr Hs Hc Hm Ht. apply (runs_turn _ _ (e <| state := Trailers |>) (CRLF ++ rest)).
  { unfold decode_turn. rewrite Hs. unfold decode_chunk_size.
    rewrite (fr_chunk _ Hfr), find_incremental_zero, (hex_line_end [48]) by done.
    cbn [limits over]. change (len [48]) with 1. rewrite (proj2 (Z.ltb_ge _ _)) by lia.
    change (takeZ 1 ([48] ++ CRLF ++ CRLF ++ rest)) with (hex 0).
    rewrite parse_chunk_size_hex by (rewrite U64_MAX_val; lia). cbn. do 2 f_equal.
    destruct e. unfold over. cbn. destruct Hfr. cbn in *. by subst. }
  apply (runs_event _ _ (TrailersEvent headers_new) (e <| state := Completed |>) rest).
  { unfold decode_turn, decode_trailers. cbn [state over].
    rewrite (proj2 (starts_with_spec CRLF (CRLF ++ rest))) by eauto.
    cbn [limits over]. rewrite (proj2 (Z.ltb_ge _ _)) by lia.
    change (takeZ 2 (CRLF ++ rest)) with CRLF. change (dropZ 2 (CRLF ++ rest)) with rest.
    unfold parse_trailers. rewrite bool_decide_true by done. do 3 f_equal.
    destruct e. unfold over. cbn. destruct Hfr. cbn in *. by subst. }
  by apply (runs_completed (e <| state := Completed |>)).
Qed.

(** Draining is what the run says, up to the start of searches. *)
Lemma drain_determined e l eof t r :
  ready e l → runs (with_eof e eof) l t r →
  ∃ events, drain e l eof = Some (events, r) ∧ tokens events = t.
Proof.
  intros Hrd Hr. destruct (drain_runs e l eof Hrd) as (events & r' & Hd & Hr' & _).
  destruct (runs_deterministic _ _ _ _ Hr _ _ Hr') as [? ->]. eauto.
Qed.

Lemma fresh_ready e l : fresh e → remaining_ok (state e) → ready e l.
Proof. intros Hfr Hr. split; [by apply fresh_search_ok|apply Hfr|done]. Qed.

Lemma fresh_no_eof e : fresh e → with_eof e false = e.
Proof. intros. apply with_eof_id. by rewrite orb_false_r. Qed.

(** C25: a chunked body is read back exactly.  From the state after a chunked
    head, the chunked encoding of any non-empty chunks delivers their octets
    in order, an empty trailer section and completion, and leaves the octets
    of the next response unread. *)
Theorem chunked_body_roundtrip e chunks rest :
  fresh e → state e = ChunkSizeLine → complete_emitted e = false →
  16 ≤ max_chunk_size_line_bytes (limits e) → 2 ≤ max_trailer_block_bytes (limits e) →
  Forall (λ data, 0 < len data ≤ U64_MAX) chunks →
  ∃ events,
    drain e (chunked_wire chunks ++ rest) false
      = Some (events, Ok (e <| state := Completed |> <| complete_emitted := true |>, rest))
    ∧ tokens events = map TByte (concat chunks) ++ [TTrailers headers_new; TComplete].
Proof.
  intros Hfr Hs Hc Hm Ht Hch. apply drain_determined.
  { apply fresh_ready; [done|]. by rewrite Hs. }
  rewrite fresh_no_eof by done. unfold chunked_wire. rewrite <- !app_assoc.
  induction Hch as [|data chunks Hd _ IH]; cbn [map concat]; [by apply runs_last_chunk|].
  rewrite map_app, <- !app_assoc. by apply runs_chunk.
Qed.

Lemma runs_exact_body e n l :
  state e = FixedLength n → complete_emitted e = false → 0 ≤ n ≤ len l →
  runs e l (map TByte (takeZ n l) ++ [TComplete])
    (Ok (e <| state := Completed |> <| complete_emitted := true |>, dropZ n l)).
Proof.
  intros Hs Hc Hn. pose proof (runs_completed (e <| state := Completed |>)) as Hdone.
  destruct (Z.eqb_spec n 0) as [->|Hn0].
  - eapply runs_turn; [unfold decode_turn; by rewrite Hs|]. by apply Hdone.
  - eapply (runs_event _ _ (Body (takeZ n l))); [|by apply Hdone]. unfold decode_turn.
    rewrite Hs, (proj2 (Z.eqb_neq _ _)), (proj2 (is_empty_false l)) by lia.
    unfold take_body. rewrite Z.min_l by lia. unfold saturating_sub64. by rewrite Z.sub_diag.
Qed.

Lemma runs_short_body e n l :
  state e = FixedLength n → saw_eof e = true → terminal_error e = None → len l < n →
  runs e l (map TByte l) (Err (mkError UnexpectedEnd LFixedLength)).
Proof.
  intros Hs He Ht Hn. pose proof (len_nonneg l).
  assert (∀ m, 0 < m → runs (e <| state := FixedLength m |>) [] []
    (Err (mkError UnexpectedEnd LFixedLength))) as Hend.
  { intros m Hm. eapply runs_error. unfold decode_turn. cbn [state over].
    rewrite (proj2 (Z.eqb_neq _ _)) by lia. cbn. unfold need_input_or_eof, fail. cbn.
    by rewrite He, Ht. }
  destruct l as [|b l].
  { replace e with (e <| state := FixedLength n |>); [apply Hend; lia|].
    destruct e. cbn in Hs. by subst. }
  rewrite <- (app_nil_r (map TByte _)). eapply (runs_event _ _ (Body (b :: l))); [|apply Hend].
  - unfold decode_turn. rewrite Hs, (proj2 (Z.eqb_neq _ _)) by lia.
    cbn [is_empty]. unfold take_body. rewrite Z.min_r, takeZ_all, dropZ_all by lia.
    rewrite (proj2 (Z.eqb_neq _ _)) by (unfold saturating_sub64; lia). done.
  - unfold saturating_sub64. lia.
Qed.

(** a body of announced length takes exactly that many octets: with enough
    input it delivers them and completes, leaving the rest unread; when the
    connection ends first it delivers what came and fails with
    [UnexpectedEnd], never completing. *)
Theorem fixed_length_body_exact e n l :
  fresh e → state e = FixedLength n → complete_emitted e = false → 0 ≤ n →
  ∃ events,
    tokens events = map TByte (takeZ n l) ++ (if n <=? len l then [TComplete] else [])
    ∧ if n <=? len l then
        drain e l false
          = Some (events, Ok (e <| state := Completed |> <| complete_emitted := true |>, dropZ n l))
      else drain e l true = Some (events, Err (mkError UnexpectedEnd LFixedLength)).
Proof.
  intros Hfr Hs Hc Hn. assert (ready e l) as Hrd by (apply fresh_ready; [done|by rewrite Hs]).
  destruct (Z.leb_spec n (len l)) as [Hle|Hlt].
  - edestruct (drain_determined e l false) as (events & Hd & Ht); [done| |eauto].
    rewrite fresh_no_eof by done. by apply runs_exact_body.
  - edestruct (drain_determined e l true) as (events & Hd & Ht);
      [done| |exists events; by rewrite takeZ_all, app_nil_r by lia].
    apply (runs_short_body _ n); [done| |apply Hfr|done]. cbn. by rewrite orb_true_r.
Qed.

(** ** Failures and requests for input *)

Lemma fail_terminal {A} reason e l : ∃ error e', fail (A := A) reason e l = (Err error, (e', l))
    ∧ terminal_error e' = Some error.
Proof. unfold fail. destruct (terminal_error e) eqn:He; eauto. Qed.

(** What a turn leaves when it ends a call without an event: a failed engine
    remembers the error, and the octets it asks to extend are few. *)
Definition unread_limit (e : ResponseProtocolEngine) : Z :=
  match state e with
  | ReadingHead | WaitingForFinalHead => max_response_head_bytes (limits e) - 1
  | ChunkSizeLine => max_chunk_size_line_bytes (limits e) + 1
  | ChunkTerminator => 1
  | Trailers => max_trailer_block_bytes (limits e) - 1
  | _ => 0
  end.

Definition settles (o : outcome ResponseStep) : Prop :=
  match o with
  | (Err error, (e', _)) => terminal_error e' = Some error
  | (Ok NeedInput, (e', l')) => state e' = Completed ∨ len l' ≤ unread_limit e'
  | _ => True
  end.

Lemma settles_fail reason e l : settles (fail reason e l).
Proof. destruct (fail_terminal (A := ResponseStep) reason e l) as (error & e' & -> & ?). done. Qed.

Lemma settles_need e l : len l ≤ unread_limit e → settles (need_input_or_eof e l).
Proof. intros. unfold need_input_or_eof. destruct (saw_eof e); [apply settles_fail|by right]. Qed.

Lemma chunk_line_unread max l :
  0 ≤ max → negb (is_empty (dropZ max l)) && negb (bool_decide (dropZ max l = [13])) = false →
  len l ≤ max + 1.
Proof.
  intros Hmax Ho. destruct (decide (len l ≤ max)); [lia|].
  assert (len (dropZ max l) = len l - max) as Hl by (apply len_dropZ; lia).
  destruct (is_empty (dropZ max l)) eqn:He.
  { apply is_empty_true in He. rewrite He in Hl. change (len []) with 0 in Hl. lia. }
  cbn in Ho. apply negb_false_iff, bool_decide_eq_true in Ho. rewrite Ho in Hl.
  change (len [13]) with 1 in Hl. lia.
Qed.

Lemma decode_turn_settles e l :
  0 ≤ max_chunk_size_line_bytes (limits e) →
  match decode_turn e l with inl o => settles o | inr (e', _) => limits e' = limits e end.
Proof.
  intros Hmax. unfold decode_turn. destruct (state e) as [| | |r| |r| | | | |] eqn:Hs.
  1, 3: unfold decode_head; destruct (find_incremental _ _ _) as [[index|] start];
    [destruct (_ <? _); [apply settles_fail|];
     destruct (parse_head _ _) as [[[v st] h]|x]; [|apply settles_fail];
     destruct (_ =? _); [apply settles_fail|]; destruct (is_informational st);
     [by destruct (_ <? _); [apply settles_fail|]
     |by destruct (response_body_mode _ _ _ _); [|apply settles_fail]]
    |destruct (Z.leb_spec (max_response_head_bytes (limits e)) (len l)) as [?|Hl];
     cbn [limits over]; [rewrite (proj2 (Z.leb_le _ _)) by done; apply settles_fail
     |rewrite (proj2 (Z.leb_gt _ _)) by done; apply settles_need; unfold unread_limit; cbn;
      rewrite Hs; lia]].
  - done.
  - destruct (r =? 0); [done|]. destruct (is_empty l) eqn:He; [|done].
    apply is_empty_true in He as ->. apply settles_need. unfold unread_limit. by rewrite Hs.
  - unfold decode_chunk_size. destruct (find_incremental _ _ _) as [[index|] start].
    + destruct (_ <? _); [apply settles_fail|].
      by destruct (parse_chunk_size_line _ _); [|apply settles_fail].
    + cbn [limits over]. destruct (_ && _) eqn:Ho; [apply settles_fail|].
      apply settles_need. unfold unread_limit. cbn. rewrite Hs. by apply chunk_line_unread.
  - destruct (r =? 0); [done|]. destruct (is_empty l) eqn:He; [|done].
    apply is_empty_true in He as ->. apply settles_need. unfold unread_limit. by rewrite Hs.
  - assert (∀ l', len l' ≤ 1 → settles (need_input_or_eof e l')) as Hneed.
    { intros. apply settles_need. unfold unread_limit. by rewrite Hs. }
    destruct l as [|b l]; [by apply Hneed|]. destruct (negb (b =? 13)); [apply settles_fail|].
    destruct l as [|c l]; [by apply Hneed|]. by destruct (negb (c =? 10)); [apply settles_fail|].
  - unfold decode_trailers. destruct (starts_with CRLF l).
    + destruct (_ <? _); [apply settles_fail|].
      by destruct (parse_trailers _ _); [|apply settles_fail].
    + destruct (find_incremental _ _ _) as [[index|] start]; cbn [fmap option_fmap option_map].
      * destruct (_ <? _); [apply settles_fail|].
        by destruct (parse_trailers _ _); [|apply settles_fail].
      * cbn [limits over]. destruct (Z.leb_spec (max_trailer_block_bytes (limits e)) (len l));
          [apply settles_fail|]. apply settles_need. unfold unread_limit. cbn. rewrite Hs. lia.
  - destruct (is_empty l) eqn:He; [|done]. cbn. destruct (saw_eof e); [done|].
    apply is_empty_true in He as ->. right. unfold unread_limit. by rewrite Hs.
  - destruct (complete_emitted e); [by left|done].
  - apply settles_fail.
Qed.

Lemma decode_loop_settles fuel : ∀ e l o,
  0 ≤ max_chunk_size_line_bytes (limits e) → decode_loop fuel e l = Some o → settles o.
Proof.
  induction fuel as [|fuel IH]; intros e l o Hm Hl; [done|]. cbn [decode_loop] in Hl.
  pose proof (decode_turn_settles e l Hm) as Ht.
  destruct (decode_turn e l) as [o'|[e' l']]; [by simplify_eq|].
  eapply IH; [|done]. by rewrite Ht.
Qed.

(** C31: every call of [decode] returns, from any state of the engine and on
    any input; and a failure is final: after it every call reports the same
    error and takes no input. *)
Theorem decode_total_and_failure_final e l eof :
  0 ≤ max_chunk_size_line_bytes (limits e) →
  ∃ o, decode e l eof = Some o
    ∧ ∀ error e' l', o = (Err error, (e', l')) →
      ∀ l2 eof2, decode e' l2 eof2 = Some (Err error, (e', l2)).
Proof.
  intros Hm. assert (∃ o, decode e l eof = Some o ∧ settles o) as (o & Ho & Hs).
  { unfold decode. destruct (terminal_error e) as [error|] eqn:He; [by eexists|].
    destruct (decode_loop_total 5 (with_eof e eof) l) as [o Ho]; [apply rank_bound|].
    exists o. split; [done|]. by eapply decode_loop_settles in Ho. }
  exists o. split; [done|]. intros error e' l' -> l2 eof2. cbn in Hs. unfold decode. by rewrite Hs.
Qed.

(** Bounded buffering.  When [decode] asks for more input, the octets it
    leaves unread are fewer than the limit of the element it is reading: the
    head, the chunk-size line (one octet more, a lone CR), the trailer block,
    one octet of a chunk terminator, and none of a body. *)
Theorem unread_input_bounded e l eof e' l' :
  0 ≤ max_chunk_size_line_bytes (limits e) →
  decode e l eof = Some (Ok NeedInput, (e', l')) →
  state e' = Completed ∨ len l' ≤ unread_limit e'.
Proof.
  intros Hm. unfold decode. destruct (terminal_error e); [done|].
  intros Hl. by eapply decode_loop_settles in Hl.
Qed.

(** ** The framing decision *)

(** A text with optional white space around it. *)
Definition padded (text l : bytes) : Prop :=
  ∃ a b, l = a ++ text ++ b ∧ Forall (λ x, not_ows x = false) (a ++ b).

Lemma padded_trans x y z : padded x y → padded y z → padded x z.
Proof.
  intros (a & b & -> & Hab) (c & d & -> & Hcd). exists (c ++ a), (b ++ d). rewrite <- !app_assoc. split; [done|].
  rewrite Forall_app in Hab, Hcd. rewrite !Forall_app. tauto.
Qed.

Lemma trim_ows_padded l : padded (trim_ows l) l.
Proof.
  unfold trim_ows. cbv zeta. destruct (first_index not_ows l) as [i|] eqn:Hi; cbn [from_option id].
  - apply first_index_split in Hi as (a & x & k & Hl & <- & Hx & Ha).
    destruct (first_index not_ows (reverse l)) as [j|] eqn:Hj.
    2:{ apply first_index_none in Hj. rewrite Hl, Forall_reverse, Forall_app, Forall_cons in Hj. destruct Hj as (_ & ? & _). congruence. }
    apply first_index_split in Hj as (a' & x' & k' & Hr & <- & Hx' & Ha').
    assert (l = (reverse k' ++ [x']) ++ reverse a') as Hl'.
    { rewrite <- (reverse_involutive l), Hr, reverse_app, reverse_cons. done. }
    assert (length a ≤ length k')%nat as Hle.
    { destruct (decide (length a ≤ length k')%nat); [done|]. assert (l !! length k' = Some x') as H1.
      { rewrite Hl', <- app_assoc, lookup_app_r by (rewrite length_reverse; lia). by rewrite length_reverse, Nat.sub_diag. }
      rewrite Hl, lookup_app_l in H1 by lia. apply (Forall_lookup_1 _ _ _ _ Ha) in H1. congruence. }
    set (n := (S (length k') - length a)%nat).
    assert (len l - len a' - len a = Z.of_nat n) as ->.
    { apply (f_equal len) in Hl'. unfold len in *. rewrite !length_app, !length_reverse in Hl'. cbn in Hl'. lia. }
    assert (dropZ (len a) l = x :: k) as -> by (rewrite Hl; apply dropZ_app_len).
    exists a, (reverse a'). split; [|by rewrite Forall_app, Forall_reverse].
    unfold takeZ. rewrite Nat2Z.id, Hl. f_equal. rewrite <- (take_drop n (x :: k)) at 1. f_equal.
    assert (drop (length a + n) l = reverse a') as <-.
    { replace (length a + n)%nat with (length (reverse k' ++ [x'])) by (rewrite length_app, length_reverse; cbn; lia).
      rewrite Hl' at 1. by rewrite drop_app_length. }
    by rewrite Hl, drop_app_add.
  - apply first_index_none in Hi. exists l, []. rewrite dropZ_all by lia. unfold takeZ. by rewrite take_nil, !app_nil_r.
Qed.

(** The number a digit string denotes. *)
Definition decimal_value (digits : bytes) : Z := foldl (λ n b, 10 * n + (b - 48)) 0 digits.

Lemma parse_decimal_value digits : ∀ m n, 0 ≤ m ≤ U64_MAX → forallb is_ascii_digit digits = true →
  parse_decimal m digits = Some n → n = foldl (λ n b, 10 * n + (b - 48)) m digits ∧ 0 ≤ n ≤ U64_MAX.
Proof.
  induction digits as [|b digits IH]; intros m n Hm Hd; cbn; [by intros [= ->]|].
  apply andb_prop in Hd as [Hb Hd]. apply andb_prop in Hb as [Hb1%Z.leb_le Hb2%Z.leb_le].
  unfold checked_mul64 at 1. destruct (m * 10 <=? U64_MAX) eqn:H1; [|done]. cbn.
  unfold checked_add64 at 1. destruct (m * 10 + (b - 48) <=? U64_MAX) eqn:H2; [|done]. cbn.
  replace (10 * m + (b - 48)) with (m * 10 + (b - 48)) by lia. apply IH; [lia|done].
Qed.

(** A list whose members, padded, are digits that all denote [n]. *)
Definition length_member (n : Z) (member : bytes) : Prop :=
  ∃ digits, padded digits member ∧ digits ≠ [] ∧ forallb is_ascii_digit digits = true ∧ decimal_value digits = n.

Lemma content_length_members_spec members : ∀ observed n,
  content_length_members observed members = Ok n →
  match n with
  | None => observed = None ∧ members = []
  | Some n => (∀ m, observed = Some m → m = n) ∧ (observed = None → members ≠ [] ∧ 0 ≤ n ≤ U64_MAX) ∧ Forall (length_member n) members
  end.
Proof.
  induction members as [|member members IH]; intros observed n; cbn [content_length_members].
  { intros. simplify_eq. destruct n; [|done]. split_and!; [congruence|done|constructor]. }
  destruct (is_empty (trim_ows member)) eqn:He; [done|]. cbn [orb].
  destruct (forallb is_ascii_digit (trim_ows member)) eqn:Hd; [|done]. cbn [negb].
  destruct (parse_decimal 0 (trim_ows member)) as [parsed|] eqn:Hp; cbn [ok_or mbind result_bind]; [|done].
  destruct (match observed with Some _ => _ | None => _ end) eqn:Hobs; [done|]. intros Hr.
  apply IH in Hr. destruct n as [n|]; [|by destruct Hr]. destruct Hr as (Hn & _ & Hall).
  specialize (Hn parsed eq_refl) as ->. destruct (parse_decimal_value _ 0 _ ltac:(done) Hd Hp) as [Hval Hb]. split_and!; [|done|].
  - intros m ->. apply negb_false_iff, Z.eqb_eq in Hobs. done.
  - constructor; [|done]. exists (trim_ows member). split_and!; [apply trim_ows_padded| |done|done]. intros Hx. by rewrite Hx in He.
Qed.

Lemma no_members headers :
  concat (map (split_on 44) (get_all (ascii "content-length") headers)) = [] →
  get_all (ascii "content-length") headers = [].
Proof.
  destruct (get_all _ headers) as [|v values]; [done|]. cbn. intros [Hx _]%app_nil.
  by apply split_on_nonempty in Hx.
Qed.

(** No transfer coding is announced: there is no [Transfer-Encoding] field, or
    only ones with an empty value. *)
Definition no_coding (headers : HeaderMap) : Prop := Forall (λ v, v = []) (get_all (ascii "transfer-encoding") headers).

(** The only coding announced is [chunked], without parameters: one field
    that has a value, with nothing after it. *)
Definition only_chunked (headers : HeaderMap) : Prop :=
  ∃ k value name, get_all (ascii "transfer-encoding") headers = replicate k [] ++ [value]
    ∧ padded name value ∧ map to_ascii_lowercase name = ascii "chunked".

Lemma combine_values_nil values : combine_values values = [] → Forall (λ v, v = []) values.
Proof.
  induction values as [|v values IH]; [constructor|]. unfold combine_values. cbn. destruct v as [|b v]; [by constructor; [|apply IH]|].
  assert (∀ acc, acc ≠ [] → foldl (λ combined value, (if is_empty combined then combined else combined ++ [44]) ++ value) acc values ≠ []) as Hne.
  { clear. induction values as [|v values IH]; intros acc Hacc; [done|]. cbn. apply IH. by destruct acc. }
  intros Hn. by apply Hne in Hn.
Qed.

(** Values combined without a comma are one value after empty ones. *)
Lemma combine_values_single values : combine_values values ≠ [] → Forall (λ b, b ≠ 44) (combine_values values) →
  ∃ k, values = replicate k [] ++ [combine_values values].
Proof.
  induction values as [|v values IH]; [done|]. destruct v as [|b v].
  { intros Hne Hc. destruct (IH Hne Hc) as [k Hk]. exists (S k). cbn. f_equal. exact Hk. }
  intros _. destruct values as [|v' values]; [intros _; by exists 0%nat|]. intros Hc. exfalso. revert Hc. unfold combine_values. cbn [foldl].
  assert (∀ acc, 44 ∈ acc →
    44 ∈ foldl (λ combined value, (if is_empty combined then combined else combined ++ [44]) ++ value) acc values) as Hin.
  { clear. induction values as [|v values IH]; intros acc Hacc; [done|]. cbn. apply IH, elem_of_app. left.
    destruct (is_empty acc); [done|]. apply elem_of_app. by left. }
  rewrite Forall_forall. intros Hc. apply (Hc 44); [|done]. apply Hin. cbn. rewrite !elem_of_cons, !elem_of_app. right. left. right. by left.
Qed.

(** A scan that finds one part has trimmed the whole text. *)
Lemma quoted_commas_single l : ∀ quoted escaped cur parts ps, quoted_commas quoted escaped cur parts l = Some ps →
  (length parts < length ps)%nat ∧ (length ps = S (length parts) → ps = parts ++ [trim_ows (cur ++ l)]).
Proof.
  induction l as [|b l IH]; intros quoted escaped cur parts ps; cbn [quoted_commas].
  - destruct (quoted || escaped); [done|]. destruct (is_empty (trim_ows cur)); [done|]. intros [= <-].
    rewrite length_app, app_nil_r. cbn. split; [lia|done].
  - rewrite (cons_middle b cur l), app_assoc. destruct escaped; [apply IH|]. destruct ((b =? 92) && quoted); [apply IH|].
    destruct (b =? 34); [apply IH|]. destruct ((b =? 44) && negb quoted); [|apply IH].
    destruct (is_empty (trim_ows cur)); [done|]. intros [Hlt _]%IH. rewrite length_app in Hlt. cbn in Hlt. lia.
Qed.

Lemma coding_parameters_count fuel : ∀ count rest c, 0 ≤ count → coding_parameters fuel count rest = Some c →
  (0 < count → 0 < c) ∧ (rest ≠ [] → 0 < c).
Proof.
  induction fuel as [|fuel IH]; intros count rest c Hc; cbn [coding_parameters]; [done|].
  destruct rest as [|b rest]; [by intros [= <-]|]. destruct (negb (b =? 59)); [done|]. cbv zeta. destruct (_ =? 0); [done|].
  destruct (trim_ows _) as [|b' rest']; [done|]. destruct (negb (b' =? 61)); [done|].
  destruct (parse_token_or_quoted _) as [n|]; [|done]. cbn [mbind option_bind]. intros Hr.
  apply IH in Hr as [Hr _]; unfold saturating_add64, U64_MAX in *; [|lia]. split; intros _; apply Hr; lia.
Qed.

Lemma coding_without_parameters l name : split_coding_parameters l = Some (name, 0) →
  padded name l ∧ forallb is_token_byte name = true.
Proof.
  unfold split_coding_parameters. cbv zeta. destruct (is_empty _ || _) eqn:Hn; [done|]. apply orb_false_iff in Hn as [_ Hn%negb_false_iff].
  rewrite memchr_first in *. destruct (first_index (Z.eqb 59) l) as [i|] eqn:Hi; cbn [from_option id] in *.
  - destruct (coding_parameters _ _ _) as [c|] eqn:Hc; [|done]. cbn. intros [= <- ->].
    apply coding_parameters_count in Hc as [_ Hc]; [|done]. apply first_index_split in Hi as (a & b & k & -> & <- & _).
    rewrite dropZ_app_len in Hc. specialize (Hc ltac:(done)). lia.
  - cbn. intros [= <-]. rewrite takeZ_all in * by lia. split; [apply trim_ows_padded|done].
Qed.

Lemma transfer_encoding_spec headers te : parse_transfer_encoding headers = Ok te →
  if te then only_chunked headers else no_coding headers.
Proof.
  unfold parse_transfer_encoding. cbv zeta. set (values := get_all _ headers).
  destruct (is_empty (combine_values values)) eqn:He.
  { intros [= <-]. apply combine_values_nil. by apply is_empty_true in He. }
  destruct (split_quoted_commas _) as [codings|] eqn:Hs; cbn [ok_or mbind result_bind]; [|done].
  destruct codings as [|coding []]; [done| |done]. apply quoted_commas_single in Hs as [_ Hs]. specialize (Hs eq_refl).
  destruct (split_coding_parameters _) as [[name count]|] eqn:Hp; cbn [ok_or mbind result_bind]; [|done].
  destruct (eq_ignore_ascii_case name _) eqn:Hn; [|done]. cbn [negb orb]. destruct (Z.eqb_spec count 0) as [->|]; [|done].
  intros [= <-]. apply coding_without_parameters in Hp as [Hp Htok]. cbn in Hs. injection Hs as ->.
  assert (padded name (combine_values values)) as Hpad.
  { eapply padded_trans; [exact Hp|]. eapply padded_trans; apply trim_ows_padded. }
  destruct (combine_values_single values) as [k Hk].
  - intros Hx. by rewrite Hx in He.
  - destruct Hpad as (a & b & -> & Hab). rewrite Forall_app in Hab. rewrite !Forall_app. destruct Hab as [Ha Hb]. split_and!.
    + apply (Forall_impl _ _ _ Ha). intros x Hx ->. done.
    + apply Forall_forall. intros x Hx%list_elem_of_In ->. by apply (proj1 (forallb_forall _ _) Htok 44) in Hx.
    + apply (Forall_impl _ _ _ Hb). intros x Hx ->. done.
  - exists k, (combine_values values), name. split_and!; [done|done|]. by apply bool_decide_eq_true in Hn.
Qed.

(** C9 (safety). The framing of a response is unambiguous.  A chunked body is
    accepted only from an HTTP/1.1 head without any [Content-Length] whose
    only transfer coding is [chunked], in one field with a value and without
    parameters; a body of length [n] only from a head that names no transfer
    coding and in which every member of every [Content-Length] field is a
    decimal numeral of [n], a 64-bit number; a body that lasts until the
    connection closes only from a head that names no transfer coding and has
    no [Content-Length].  A [Transfer-Encoding] field with an empty value
    names no coding. *)
Theorem framing_unambiguous method version status headers mode :
  response_body_mode method version status headers = Ok mode →
  match mode with
  | NoBody => method = ascii "HEAD" ∨ status = NO_CONTENT ∨ status = NOT_MODIFIED
  | ChunkedBody =>
      version = HTTP_11 ∧ only_chunked headers ∧ get_all (ascii "content-length") headers = []
  | ContentLength n =>
      no_coding headers ∧ get_all (ascii "content-length") headers ≠ [] ∧ 0 ≤ n ≤ U64_MAX
        ∧ ∀ value member, value ∈ get_all (ascii "content-length") headers →
            member ∈ split_on 44 value → length_member n member
  | CloseDelimitedBody => no_coding headers ∧ get_all (ascii "content-length") headers = []
  end.
Proof.
  unfold response_body_mode. destruct (parse_transfer_encoding headers) as [te|] eqn:Hte;
    cbn [mbind result_bind]; [|done]. apply transfer_encoding_spec in Hte.
  destruct (parse_content_length headers) as [cl|] eqn:Hcl; cbn [mbind result_bind]; [|done].
  apply content_length_members_spec in Hcl.
  destruct (te && match version with _ => _ end) eqn:Hv; [done|].
  destruct (te && is_some cl) eqn:Hboth; [done|]. destruct (_ || _) eqn:Hno.
  { intros. simplify_eq. rewrite !orb_true_iff, bool_decide_eq_true, !Z.eqb_eq in Hno. tauto. }
  destruct te; cbn [andb] in Hv, Hboth.
  - intros. simplify_eq. destruct cl; [done|]. destruct version; [done|].
    split_and!; [done|done|]. apply no_members, Hcl.
  - destruct cl as [n|]; intros; simplify_eq; [|split; [done|apply no_members, Hcl]].
    destruct Hcl as (_ & Hsome & Hall). destruct (Hsome eq_refl) as [Hne Hn]. split_and!; [done| |lia|lia|].
    + intros Hnil. by rewrite Hnil in Hne.
    + intros value member Hv1 Hm. rewrite Forall_forall in Hall. apply Hall, list_elem_of_In, in_concat.
      exists (split_on 44 value). split; [by apply in_map, list_elem_of_In|by apply list_elem_of_In].
Qed.

Lemma collect_trailers_clean name lines : ∀ trailers trailers',
  is_forbidden_trailer_name name = true → get_all name trailers = [] →
  collect_trailers trailers lines = Ok trailers' → get_all name trailers' = [].
Proof.
  induction lines as [|line lines IH]; intros trailers trailers' Hf Hn; cbn [collect_trailers].
  { intros. by simplify_eq. }
  destruct (memchr 58 line) as [colon|]; cbn [ok_or mbind result_bind]; [|done].
  destruct (header_name _) as [n|]; cbn [ok_or mbind result_bind]; [|done].
  destruct (is_forbidden_trailer_name n) eqn:Hb; [done|].
  destruct (header_value _) as [v|]; cbn [ok_or mbind result_bind]; [|done].
  apply IH; [done|]. rewrite get_all_append. destruct (decide (name = n)); [congruence|done].
Qed.

(** a trailer section never supplies framing, routing or connection
    fields: an accepted one has no [Content-Length], [Transfer-Encoding],
    [Host], [Connection], [TE], [Trailer], [Upgrade], [Keep-Alive] or
    [Proxy-Connection]. *)
Theorem trailers_carry_no_framing block l trailers name :
  parse_trailers block l = Ok trailers → is_forbidden_trailer_name name = true →
  get_all name trailers = [].
Proof.
  unfold parse_trailers. intros Hp Hf. destruct (bool_decide _).
  { simplify_eq. apply get_all_new. }
  destruct (strip_suffix _ _) as [fields|]; cbn [ok_or mbind result_bind] in Hp; [|done].
  destruct (validate_raw_fields _ _ _ _ _ _); cbn [mbind result_bind] in Hp; [|done].
  eapply collect_trailers_clean; [done|apply get_all_new|done].
Qed.
End framing.

(** ** The response engine on concrete responses

    The theorems on the response engine hold for any [memchr] and [http]
    library that keeps its contract.  Here they meet a list of fields as the
    header map and a direct head parser, on concrete responses. *)

(** Closes an equation by evaluating both sides. *)
Ltac by_vm := match goal with |- _ = ?r => vm_cast_no_check (eq_refl r) end.

Definition list_get_all (name : bytes) (h : list (bytes * bytes)) : list bytes :=
  map snd (filter (λ field, name = field.1) h).

Definition simple_field (line : bytes) : bytes * bytes :=
  let colon := default (len line) (first_index (Z.eqb 58) line) in
  (takeZ colon line, trim_ows (dropZ (colon + 1) line)).

Definition simple_parse (room : Z) (l : bytes) : result httparse_error (option httparse_response) :=
  let lines := crlf_lines (H := naive_search) l in
  match lines with
  | status :: fields =>
      let fields := filter (λ line, line ≠ []) fields in
      if room <? len fields then Err HPTooManyHeaders
      else Ok (Some (mkParsed (Some (default 0 (status !! 7%nat) - 48))
             (parse_decimal 0 (takeZ 3 (dropZ 9 status))) (map simple_field fields)))
  | [] => Ok None
  end.

Lemma list_get_all_append n m v h :
  list_get_all n (h ++ [(m, v)])
    = if decide (n = m) then list_get_all n h ++ [v] else list_get_all n h.
Proof.
  unfold list_get_all. rewrite filter_app, map_app, filter_cons. cbn [fst].
  destruct (decide (n = m)); [done|]. by rewrite app_nil_r.
Qed.

Definition simple_http : HttpLib := {|
  HeaderMap := list (bytes * bytes);
  headers_new := [];
  headers_append n v h := h ++ [(n, v)];
  get_all := list_get_all;
  header_name n :=
    if is_empty n || negb (forallb is_token_byte n) then None else Some (map to_ascii_lowercase n);
  header_value v := if existsb is_control v then None else Some v;
  httparse_parse := simple_parse;
  get_all_new n := eq_refl;
  get_all_append := list_get_all_append;
|}.

#[local] Existing Instance naive_search.
#[local] Existing Instance simple_http.

Definition line (s : string) : bytes := ascii s ++ CRLF.

Definition engine_in (s : ResponseState) : ResponseProtocolEngine :=
  mkEngine (ascii "GET") limits_default s 0 None false false 0 0 0.

Lemma engine_in_fresh s : s ≠ FailedNonReusable → fresh (engine_in s).
Proof. by split. Qed.

Definition chunked_response : bytes :=
  line "HTTP/1.1 200 OK" ++ line "Transfer-Encoding: chunked" ++ CRLF
  ++ chunked_wire [ascii "hello, "; ascii "world"].

(** The response, delivered whole. *)
Example chunked_response_read :
  (λ '(events, r), tokens events) <$> read_fragments (engine_in ReadingHead) [] [chunked_response]
    = Some ([TFinal HTTP_11 200 [(ascii "transfer-encoding", ascii "chunked")] ChunkedBody]
            ++ map TByte (ascii "hello, world") ++ [TTrailers []; TComplete]).
Proof.
  by_vm.
Qed.

Lemma fragmentation_independent_witness :
  ∃ events r events' r',
    read_fragments (engine_in ReadingHead) [] [chunked_response] = Some (events, r)
    ∧ read_fragments (engine_in ReadingHead) [] (map (λ b, [b]) chunked_response)
        = Some (events', r')
    ∧ tokens events = tokens events' ∧ same_reading r r'.
Proof.
  apply (fragmentation_independent (ascii "GET") limits_default);
    [vm_compute; reflexivity|vm_compute; discriminate|vm_compute; discriminate|vm_compute; reflexivity].
Defined.

Lemma chunked_body_roundtrip_witness :
  ∃ events,
    drain (engine_in ChunkSizeLine) (chunked_wire [ascii "ab"; ascii "c"] ++ ascii "HTTP") false
      = Some (events, Ok ((engine_in ChunkSizeLine) <| state := Completed |>
                            <| complete_emitted := true |>, ascii "HTTP"))
    ∧ tokens events
        = map TByte (concat [ascii "ab"; ascii "c"]) ++ [TTrailers headers_new; TComplete].
Proof.
  apply chunked_body_roundtrip; [by apply engine_in_fresh|reflexivity|reflexivity
    |vm_compute; discriminate|vm_compute; discriminate|].
  repeat constructor; vm_compute; discriminate.
Defined.

Lemma fixed_length_body_exact_witness :
  ∃ events,
    tokens events = map TByte (takeZ 3 (ascii "ab")) ++ []
    ∧ drain (engine_in (FixedLength 3)) (ascii "ab") true
        = Some (events, Err (mkError UnexpectedEnd LFixedLength)).
Proof.
  apply (fixed_length_body_exact (engine_in (FixedLength 3)) 3 (ascii "ab"));
    [by apply engine_in_fresh|reflexivity|reflexivity|vm_compute; discriminate].
Defined.

Lemma decode_total_and_failure_final_witness :
  ∃ o, decode (engine_in ChunkTerminator) (ascii "xy") false = Some o
    ∧ ∀ error e' l', o = (Err error, (e', l')) →
      ∀ l2 eof2, decode e' l2 eof2 = Some (Err error, (e', l2)).
Proof. apply decode_total_and_failure_final. vm_compute. discriminate. Defined.

Lemma unread_input_bounded_witness :
  state ((engine_in ReadingHead) <| head_search_start := 5 |>) = Completed
    ∨ len (ascii "HTTP/1.1") ≤ unread_limit ((engine_in ReadingHead) <| head_search_start := 5 |>).
Proof.
  apply (unread_input_bounded (engine_in ReadingHead) (ascii "HTTP/1.1") false);
    [vm_compute; discriminate|].
  by_vm.
Defined.

Definition one_field (name value : string) : HeaderMap (HttpLib := simple_http) :=
  headers_append (ascii name) (ascii value) headers_new.

Lemma framing_unambiguous_witness :
  HTTP_11 = HTTP_11 ∧ only_chunked (one_field "transfer-encoding" "chunked")
    ∧ get_all (ascii "content-length") (one_field "transfer-encoding" "chunked") = [].
Proof.
  apply (framing_unambiguous (ascii "GET") HTTP_11 200
    (one_field "transfer-encoding" "chunked") ChunkedBody). by_vm.
Defined.

Lemma trailers_carry_no_framing_witness :
  get_all (ascii "host") (one_field "digest" "x") = [].
Proof.
  apply (trailers_carry_no_framing (line "Digest: x" ++ CRLF) limits_default).
  - by_vm.
  - vm_compute. reflexivity.
Defined.
