(* ===== verification/WtCodec.v ===== *)
(** * WebTransport capsule framing

    [src/source/src/webtransport/codec.rs]: variable-length integers, the
    capsule encoders and the incremental capsule [Decoder].  The decoder is
    fed fragments of the carrier stream and yields bounded events. *)

From S2P Require Import Prelude Bytes.

(** ** Constants *)

Definition VARINT_MAX : Z := 2 ^ 62 - 1.
Definition PADDING : Z := 0x190b4d38.
Definition RESET_STREAM : Z := 0x190b4d39.
Definition STOP_SENDING : Z := 0x190b4d3a.
Definition STREAM_FIN : Z := 0x190b4d3b.
Definition STREAM : Z := 0x190b4d3c.
Definition MAX_DATA : Z := 0x190b4d3d.
Definition MAX_STREAM_DATA : Z := 0x190b4d3e.
Definition MAX_STREAMS_BIDI : Z := 0x190b4d3f.
Definition MAX_STREAMS_UNI : Z := 0x190b4d40.
Definition DATA_BLOCKED : Z := 0x190b4d41.
Definition STREAM_DATA_BLOCKED : Z := 0x190b4d42.
Definition STREAMS_BLOCKED_BIDI : Z := 0x190b4d43.
Definition STREAMS_BLOCKED_UNI : Z := 0x190b4d44.
Definition DATAGRAM : Z := 0.
Definition CLOSE_SESSION : Z := 0x2843.
Definition DRAIN_SESSION : Z := 0x78ae.
Definition QUANTUM : Z := 16 * 1024.
Definition MAX_DATAGRAM : Z := 65535.
Definition MAX_CLOSE_REASON : Z := 1024.

(** ** Data *)

Inductive Event : Type :=
  | EStream (id : Z) (data : bytes) (fin start : bool)
  | EControl (kind : Z) (values : list Z)
  | EDatagram (data : bytes)
  | EClose (code : Z) (reason : bytes)
  | EDrain.

Record Capsule : Type := mkCapsule {
  kind : Z;
  remaining : Z;
  small : bytes;
  stream_id : option Z;
  started : bool;
  discard : bool;
}.

Record Decoder : Type := mkDecoder {
  header : bytes;
  capsule : option Capsule;
}.

#[export] Instance Capsule_eta : Eta Capsule := λ c,
  mkCapsule (kind c) (remaining c) (small c) (stream_id c) (started c) (discard c).
#[export] Instance Decoder_eta : Eta Decoder := λ d,
  mkDecoder (header d) (capsule d).

Definition Decoder_default : Decoder := mkDecoder [] None.

Definition invalid (message : string) : io_error := InvalidData message.

(** ** Variable-length integers *)

Definition read_varint (b : bytes) : option (Z * Z) :=
  match b with
  | [] => None
  | first :: _ =>
      let size := Z.shiftl 1 (Z.shiftr first 6) in
      if len b <? size then None
      else
        let value := Z.land first 0x3f in
        let value :=
          foldl (λ value byte, Z.lor (wrap64 (Z.shiftl value 8)) byte) value
            (takeZ (size - 1) (dropZ 1 b)) in
        Some (value, size)
  end.

Definition put_varint (out : bytes) (value : Z) : result io_error bytes :=
  if value <? Z.shiftl 1 6 then Ok (out ++ be_bytes 1 value)
  else if value <? Z.shiftl 1 14 then
    Ok (out ++ be_bytes 2 (Z.lor (value mod 2 ^ 16) 0x4000))
  else if value <? Z.shiftl 1 30 then
    Ok (out ++ be_bytes 4 (Z.lor (value mod 2 ^ 32) 0x80000000))
  else if value <=? VARINT_MAX then
    Ok (out ++ be_bytes 8 (Z.lor value 0xc000000000000000))
  else Err (invalid "WebTransport integer overflow").

(** ** Encoders *)

Definition encode (kind : Z) (payload : bytes) : result io_error bytes :=
  out ← put_varint [] kind;
  out ← put_varint out (len payload);
  Ok (out ++ payload).

Fixpoint put_varints (payload : bytes) (values : list Z) : result io_error bytes :=
  match values with
  | [] => Ok payload
  | value :: values =>
      payload ← put_varint payload value;
      put_varints payload values
  end.

Definition control (kind : Z) (values : list Z) : result io_error bytes :=
  payload ← put_varints [] values;
  encode kind payload.

Definition stream (id : Z) (data : bytes) (fin : bool) : result io_error bytes :=
  payload ← put_varint [] id;
  encode (if fin then STREAM_FIN else STREAM) (payload ++ data).

(** [while !reason.is_char_boundary(end) { end -= 1 }] *)
Fixpoint boundary_below (reason : bytes) (end_ : nat) : nat :=
  if is_char_boundary reason end_ then end_
  else
    match end_ with
    | O => O
    | S e => boundary_below reason e
    end.

Definition close (code : Z) (reason : bytes) : result io_error bytes :=
  if negb (utf8_valid reason) then Err (invalid "invalid close reason UTF-8")
  else
    let end_ := Z.to_nat (Z.min (len reason) MAX_CLOSE_REASON) in
    let end_ := boundary_below reason end_ in
    encode CLOSE_SESSION (be_bytes 4 code ++ take end_ reason).

Definition control_values (kind : Z) : option Z :=
  if kind =? RESET_STREAM then Some 3
  else if (kind =? STOP_SENDING) || (kind =? MAX_STREAM_DATA)
          || (kind =? STREAM_DATA_BLOCKED) then Some 2
  else if (kind =? MAX_DATA) || (kind =? MAX_STREAMS_BIDI)
          || (kind =? MAX_STREAMS_UNI) || (kind =? DATA_BLOCKED)
          || (kind =? STREAMS_BLOCKED_BIDI) || (kind =? STREAMS_BLOCKED_UNI)
  then Some 1
  else None.

(** ** The incremental decoder *)

(** Both integers of a capsule header, and the octets they take. *)
Definition parse_header (header : bytes) : option (Z * Z * Z) :=
  match read_varint header with
  | None => None
  | Some (kind, n) =>
      match read_varint (dropZ n header) with
      | None => None
      | Some (length, m) => Some (kind, length, n + m)
      end
  end.

(** Whether the value of a capsule is skipped, or why its header is refused. *)
Definition header_discard (kind length : Z) : result io_error bool :=
  if (kind =? STREAM) || (kind =? STREAM_FIN) then Ok false
  else if kind =? DATAGRAM then Ok (MAX_DATAGRAM <? length)
  else if kind =? CLOSE_SESSION then
    if negb ((4 <=? length) && (length <=? 4 + MAX_CLOSE_REASON))
    then Err (invalid "invalid WebTransport close length")
    else Ok false
  else if kind =? DRAIN_SESSION then
    if negb (length =? 0) then Err (invalid "nonempty drain capsule")
    else Ok false
  else if is_some (control_values kind) then
    if 24 <? length then Err (invalid "oversized WebTransport control")
    else Ok false
  else if kind =? PADDING then Ok true
  else Ok true.

Definition open_capsule (kind length : Z) : result io_error Capsule :=
  discard ← header_discard kind length;
  Ok (mkCapsule kind length [] None false discard).

(** The loop that collects the stream identifier, one octet at a time:
    [Ok true] once it is known, [Ok false] when the input ran out. *)
Fixpoint stream_id_loop (c : Capsule) (input : bytes)
    : result io_error bool * (Capsule * bytes) :=
  match stream_id c with
  | Some _ => (Ok true, (c, input))
  | None =>
      match read_varint (small c) with
      | Some (id, size) =>
          (Ok true, (c <| small ::= dropZ size |> <| stream_id := Some id |>, input))
      | None =>
          if remaining c =? 0
          then (Err (invalid "missing WebTransport stream ID"), (c, input))
          else
            match input with
            | [] => (Ok false, (c, input))
            | b :: input' =>
                stream_id_loop
                  (c <| small ::= λ s, s ++ [b] |>
                     <| remaining ::= λ r, sub64 r 1 |>) input'
            end
      end
  end.

(** The values of a control capsule. *)
Fixpoint read_values (count : nat) (rest : bytes) : result io_error (list Z * bytes) :=
  match count with
  | O => Ok ([], rest)
  | S count =>
      '(value, size) ← ok_or (read_varint rest) (invalid "truncated control capsule");
      '(values, rest) ← read_values count (dropZ size rest);
      Ok (value :: values, rest)
  end.

(** The event of a completely received capsule. *)
Definition capsule_event (c : Capsule) : result io_error Event :=
  if kind c =? DATAGRAM then Ok (EDatagram (small c))
  else if kind c =? DRAIN_SESSION then Ok EDrain
  else if kind c =? CLOSE_SESSION then
    let code := be_fold 0 (takeZ 4 (small c)) in
    let reason := dropZ 4 (small c) in
    if utf8_valid reason then Ok (EClose code reason)
    else Err (invalid "invalid close reason UTF-8")
  else
    count ← ok_or (control_values (kind c)) (invalid "unknown control capsule");
    '(values, rest) ← read_values (Z.to_nat count) (small c);
    if negb (is_empty rest) then Err (invalid "trailing control capsule bytes")
    else Ok (EControl (kind c) values).

(** How an iteration of the decoder's loop ends. *)
Inductive flow : Type :=
  | Continue
  | Return (event : option Event).

Definition iteration : Type := result io_error flow * (Decoder * bytes).

(** A [STREAM] or [STREAM_FIN] capsule in progress. *)
Definition next_stream (d : Decoder) (c : Capsule) (input : bytes) : iteration :=
  match stream_id_loop c input with
  | (Err e, (c, input)) => (Err e, (d <| capsule := Some c |>, input))
  | (Ok false, (c, input)) => (Ok (Return None), (d <| capsule := Some c |>, input))
  | (Ok true, (c, input)) =>
      if is_empty input && negb (remaining c =? 0)
      then (Ok (Return None), (d <| capsule := Some c |>, input))
      else
        let count := Z.min (remaining c) (Z.min (len input) QUANTUM) in
        let data := takeZ count input in
        let input := dropZ count input in
        let c := c <| remaining ::= λ r, sub64 r count |> in
        match stream_id c with
        | None =>
            (Err (invalid "missing WebTransport stream ID"),
             (d <| capsule := Some c |>, input))
        | Some id =>
            let start := negb (started c) in
            let c := c <| started := true |> in
            let fin := (kind c =? STREAM_FIN) && (remaining c =? 0) in
            let capsule' := if remaining c =? 0 then None else Some c in
            (Ok (Return (Some (EStream id data fin start))),
             (d <| capsule := capsule' |>, input))
        end
  end.

(** Any other capsule in progress. *)
Definition next_other (d : Decoder) (c : Capsule) (input : bytes) : iteration :=
  if negb (remaining c =? 0) && is_empty input
  then (Ok (Return None), (d <| capsule := Some c |>, input))
  else
    let '(c, input) :=
      if negb (remaining c =? 0) then
        let count := Z.min (remaining c) (len input) in
        let taken := takeZ count input in
        let input := dropZ count input in
        let c := c <| remaining ::= λ r, sub64 r count |> in
        (if negb (discard c) then c <| small ::= λ s, s ++ taken |> else c, input)
      else (c, input) in
    if negb (remaining c =? 0) then (Ok Continue, (d <| capsule := Some c |>, input))
    else
      let d := d <| capsule := None |> in
      if discard c then (Ok Continue, (d, input))
      else
        match capsule_event c with
        | Err e => (Err e, (d, input))
        | Ok event => (Ok (Return (Some event)), (d, input))
        end.

Definition next_capsule (d : Decoder) (c : Capsule) (input : bytes) : iteration :=
  if (kind c =? STREAM) || (kind c =? STREAM_FIN)
  then next_stream d c input
  else next_other d c input.

(** One iteration of the loop of [Decoder::next]. *)
Definition next_iter (d : Decoder) (input : bytes) : iteration :=
  match capsule d with
  | Some c => next_capsule d c input
  | None =>
      match parse_header (header d) with
      | Some (kind, length, header_len) =>
          let d := d <| header ::= dropZ header_len |> in
          match open_capsule kind length with
          | Err e => (Err e, (d, input))
          | Ok c => next_capsule (d <| capsule := Some c |>) c input
          end
      | None =>
          match input with
          | [] => (Ok (Return None), (d, input))
          | b :: input' =>
              if 16 <=? len (header d)
              then (Err (invalid "invalid capsule header"), (d, input))
              else (Ok Continue, (d <| header ::= λ h, h ++ [b] |>, input'))
          end
      end
  end.

Fixpoint next_fuel (fuel : nat) (d : Decoder) (input : bytes)
    : option (result io_error (option Event) * (Decoder * bytes)) :=
  match fuel with
  | O => None
  | S fuel =>
      match next_iter d input with
      | (Err e, s) => Some (Err e, s)
      | (Ok (Return event), s) => Some (Ok event, s)
      | (Ok Continue, (d, input)) => next_fuel fuel d input
      end
  end.

(** A bound on the iterations of one call: every [continue] moves an input
    octet to the header, or consumes input, buffered header octets or the
    capsule in progress. *)
Definition work (d : Decoder) (input : bytes) : nat :=
  length (header d) + 2 * length input + (if is_some (capsule d) then 1 else 0).

Definition next (d : Decoder) (input : bytes)
    : option (result io_error (option Event) * (Decoder * bytes)) :=
  next_fuel (S (work d input)) d input.

Definition decoder_finish (d : Decoder) : result io_error unit :=
  if is_some (capsule d) || negb (is_empty (header d))
  then Err (invalid "truncated WebTransport capsule stream")
  else Ok tt.

(** ** Feeding the decoder

    The inner loop of [read] in [driver.rs]: one carrier fragment is decoded
    until [next] asks for more input. *)

Fixpoint events_fuel (fuel : nat) (d : Decoder) (input : bytes)
    : option (list Event * result io_error Decoder) :=
  match fuel with
  | O => None
  | S fuel =>
      match next d input with
      | None => None
      | Some (Err e, _) => Some ([], Err e)
      | Some (Ok None, (d, _)) => Some ([], Ok d)
      | Some (Ok (Some event), (d, input)) =>
          match events_fuel fuel d input with
          | None => None
          | Some (events, r) => Some (event :: events, r)
          end
      end
  end.

Definition decode_fragment (d : Decoder) (input : bytes)
    : option (list Event * result io_error Decoder) :=
  events_fuel (S (work d input)) d input.

(** The successive fragments of a carrier stream. *)
Fixpoint decode_fragments (d : Decoder) (parts : list bytes)
    : option (list Event * result io_error Decoder) :=
  match parts with
  | [] => Some ([], Ok d)
  | part :: parts =>
      match decode_fragment d part with
      | None => None
      | Some (events, Err e) => Some (events, Err e)
      | Some (events, Ok d) =>
          match decode_fragments d parts with
          | None => None
          | Some (events', r) => Some (events ++ events', r)
          end
      end
  end.

(** ** Variable-length integers: lemmas *)

Lemma fold_wrap_be_fold l acc :
  Forall is_byte l → 0 ≤ acc → (acc + 1) * 2 ^ (8 * len l) ≤ 2 ^ 64 →
  foldl (λ value byte, Z.lor (wrap64 (Z.shiftl value 8)) byte) acc l = be_fold acc l.
Proof.
  intros Hl. revert acc. induction Hl as [|b l Hb Hl IH]; intros acc Hacc Hb2; [done|].
  cbn [foldl be_fold]. fold (be_fold (Z.lor (Z.shiftl acc 8) b) l).
  rewrite len_cons in Hb2. pose proof (len_nonneg l).
  replace (8 * (1 + len l)) with (8 + 8 * len l) in Hb2 by lia.
  rewrite Z.pow_add_r in Hb2 by lia. change (2 ^ 8) with 256 in Hb2.
  assert (1 ≤ 2 ^ (8 * len l)) by (pose proof (Z.pow_pos_nonneg 2 (8 * len l)); lia).
  red in Hb. rewrite wrap64_small.
  - rewrite IH; [done| |]; rewrite lor_shiftl_add by (lia || done);
      change (2 ^ 8) with 256; nia.
  - rewrite Z.shiftl_mul_pow2 by lia. rewrite U64_MAX_val. change (2 ^ 8) with 256.
    change (2 ^ 64) with 18446744073709551616 in Hb2. nia.
Qed.

(** The length announced by the first octet. *)
Definition varint_size (first : Z) : Z := 2 ^ (first / 64).

Lemma varint_size_cases f :
  is_byte f →
  (f < 64 ∧ varint_size f = 1) ∨ (64 ≤ f < 128 ∧ varint_size f = 2) ∨
  (128 ≤ f < 192 ∧ varint_size f = 4) ∨ (192 ≤ f ∧ varint_size f = 8).
Proof.
  unfold is_byte, varint_size. intros Hf.
  assert (f / 64 = 0 ∨ f / 64 = 1 ∨ f / 64 = 2 ∨ f / 64 = 3) as [E|[E|[E|E]]]
    by div_lia; rewrite E; cbn; div_lia.
Qed.

Lemma varint_size_bound f : is_byte f → 1 ≤ varint_size f ≤ 8.
Proof. intros Hf. destruct (varint_size_cases f Hf) as [|[|[|]]]; lia. Qed.

Lemma read_varint_cons f t :
  Forall is_byte (f :: t) →
  read_varint (f :: t) =
    if len (f :: t) <? varint_size f then None
    else Some (be_fold (f mod 64) (takeZ (varint_size f - 1) t), varint_size f).
Proof.
  intros Hft. apply Forall_cons in Hft as [Hf Ht]. unfold read_varint.
  assert (Z.shiftl 1 (Z.shiftr f 6) = varint_size f) as ->.
  { rewrite Z.shiftr_div_pow2 by lia. change (2 ^ 6) with 64.
    rewrite Z.shiftl_mul_pow2 by (red in Hf; apply Z.div_pos; lia). apply Z.mul_1_l. }
  destruct (Z.ltb_spec (len (f :: t)) (varint_size f)) as [|Hlen]; [done|].
  change 0x3f with (Z.ones 6). rewrite Z.land_ones by lia. change (2 ^ 6) with 64.
  change (dropZ 1 (f :: t)) with t. pose proof (varint_size_bound f Hf).
  rewrite fold_wrap_be_fold; [done| | |].
  - by apply Forall_take.
  - apply Z.mod_pos_bound. lia.
  - rewrite len_cons in Hlen. rewrite len_takeZ by lia.
    pose proof (Z.mod_pos_bound f 64 ltac:(lia)).
    transitivity (64 * 2 ^ 56); [|done].
    apply Z.mul_le_mono_nonneg; [lia|lia|apply Z.pow_nonneg; lia|].
    apply Z.pow_le_mono_r; lia.
Qed.

Lemma read_varint_size b v n :
  Forall is_byte b → read_varint b = Some (v, n) → 1 ≤ n ≤ 8 ∧ n ≤ len b.
Proof.
  destruct b as [|f t]; [done|]. intros Hb. rewrite read_varint_cons by done.
  apply Forall_cons in Hb as [Hf _]. pose proof (varint_size_bound f Hf).
  case_match eqn:E; [done|]. intros ?; simplify_eq. lia.
Qed.

Lemma read_varint_short b :
  Forall is_byte b → read_varint b = None → len b < 8.
Proof.
  destruct b as [|f t]; [done|]. intros Hb. rewrite read_varint_cons by done.
  apply Forall_cons in Hb as [Hf _]. pose proof (varint_size_bound f Hf).
  case_match eqn:E; [|done]. intros _. lia.
Qed.

(** Octets after the integer are not looked at. *)
Lemma read_varint_app b k v n :
  Forall is_byte (b ++ k) → read_varint b = Some (v, n) →
  read_varint (b ++ k) = Some (v, n).
Proof.
  destruct b as [|f t]; [done|]. intros Hbk Hb.
  assert (Forall is_byte (f :: t)) as Hft by (by apply Forall_app in Hbk as [? _]).
  cbn [app] in *. rewrite read_varint_cons in Hb by done.
  rewrite read_varint_cons by done.
  apply Forall_cons in Hft as [Hf _]. pose proof (varint_size_bound f Hf).
  case_match eqn:E; [done|]. apply Z.ltb_ge in E. rewrite len_cons in E.
  assert ((len (f :: t ++ k) <? varint_size f) = false) as ->.
  { apply Z.ltb_ge. rewrite len_cons, len_app. pose proof (len_nonneg k). lia. }
  rewrite <- Hb. do 2 f_equal. unfold takeZ. rewrite take_app_le; [done|].
  unfold len in E. lia.
Qed.

(** Conversely, an integer found in a longer string is found as soon as its
    octets are there. *)
Lemma read_varint_app_inv b k v n :
  Forall is_byte (b ++ k) → read_varint (b ++ k) = Some (v, n) → n ≤ len b →
  read_varint b = Some (v, n).
Proof.
  destruct b as [|f t].
  { intros Hbk Hr Hn. rewrite app_nil_l in *.
    apply read_varint_size in Hr; [|done]. change (len []) with 0 in Hn. lia. }
  intros Hbk Hr Hn.
  assert (Forall is_byte (f :: t)) as Hft by (by apply Forall_app in Hbk as [? _]).
  destruct (read_varint (f :: t)) as [[v' n']|] eqn:E.
  { apply (read_varint_app _ k) in E; [|done]. congruence. }
  exfalso. cbn [app] in *. rewrite read_varint_cons in Hr, E by done.
  destruct (Z.ltb_spec (len (f :: t ++ k)) (varint_size f)); [done|].
  destruct (Z.ltb_spec (len (f :: t)) (varint_size f)); [|done]. simplify_eq. lia.
Qed.

(** Writing an integer appends the same octets whatever precedes them; they
    read back as the integer, and no proper prefix of them reads. *)
Record varint_wire (v : Z) (w : bytes) : Prop := {
  vw_put : ∀ out, put_varint out v = Ok (out ++ w);
  vw_bytes : Forall is_byte w;
  vw_len : 1 ≤ len w ≤ 8;
  vw_read : read_varint w = Some (v, len w);
}.

Lemma varint_wire_intro n tag v :
  (n = 1 ∧ tag = 0 ∨ n = 2 ∧ tag = 1 ∨ n = 4 ∧ tag = 2 ∨ n = 8 ∧ tag = 3)%nat →
  0 ≤ v < 2 ^ (8 * Z.of_nat n - 2) →
  let w := be_bytes n (Z.of_nat tag * 2 ^ (8 * Z.of_nat n - 2) + v) in
  Forall is_byte w ∧ 1 ≤ len w ≤ 8 ∧ read_varint w = Some (v, len w).
Proof.
  intros Hn Hv w. assert (Forall is_byte w) as Hw by apply be_bytes_is_byte.
  assert (len w = Z.of_nat n) as Hlw by (unfold len, w; by rewrite be_bytes_length).
  split; [done|]. split; [lia|].
  destruct n as [|m]; [lia|]. subst w. cbn [be_bytes] in *.
  replace (8 * Z.of_nat (S m) - 2) with (8 * Z.of_nat m + 6) in * by lia.
  set (x := Z.of_nat tag * 2 ^ (8 * Z.of_nat m + 6) + v) in *.
  set (f := Z.land (Z.shiftr x (8 * Z.of_nat m)) 255) in *.
  assert (f = Z.of_nat tag * 64 + v / 2 ^ (8 * Z.of_nat m)
          ∧ 0 ≤ v / 2 ^ (8 * Z.of_nat m) < 64) as [Hf Hq].
  { assert (0 < 2 ^ (8 * Z.of_nat m)) by (apply Z.pow_pos_nonneg; lia).
    assert (0 ≤ v / 2 ^ (8 * Z.of_nat m) < 64).
    { split; [apply Z.div_pos; lia|]. apply Z.div_lt_upper_bound; [lia|].
      rewrite Z.pow_add_r in Hv by lia. change (2 ^ 6) with 64 in Hv. lia. }
    split; [|done]. subst f x. rewrite land_255, Z.shiftr_div_pow2 by lia.
    rewrite Z.pow_add_r by lia. change (2 ^ 6) with 64.
    replace (Z.of_nat tag * (2 ^ (8 * Z.of_nat m) * 64) + v)
      with (v + Z.of_nat tag * 64 * 2 ^ (8 * Z.of_nat m)) by ring.
    rewrite Z.div_add by lia. rewrite Z.mod_small; lia. }
  rewrite read_varint_cons by done.
  assert (varint_size f = Z.of_nat (S m)) as Hs.
  { unfold varint_size. assert (f / 64 = Z.of_nat tag) as -> by div_lia.
    destruct Hn as [[? ->]|[[? ->]|[[? ->]|[? ->]]]]; simplify_eq; done. }
  rewrite Hs, Hlw, Z.ltb_irrefl. do 2 f_equal.
  rewrite takeZ_all by (unfold len; rewrite be_bytes_length; lia).
  rewrite be_fold_be_bytes. assert (f mod 64 = v / 2 ^ (8 * Z.of_nat m)) as ->.
  { rewrite Hf, Z.add_comm, Z.mod_add by lia. apply Z.mod_small. lia. }
  subst x. rewrite Z.pow_add_r by lia.
  replace (Z.of_nat tag * (2 ^ (8 * Z.of_nat m) * 2 ^ 6) + v)
    with (v + Z.of_nat tag * 2 ^ 6 * 2 ^ (8 * Z.of_nat m)) by ring.
  rewrite Z.mod_add by (apply Z.pow_nonzero; lia).
  rewrite (Z.div_mod v (2 ^ (8 * Z.of_nat m))) at 3 by (apply Z.pow_nonzero; lia). ring.
Qed.

Lemma lor_tag v n tag :
  0 ≤ n → 0 ≤ v < 2 ^ n → Z.lor v (tag * 2 ^ n) = tag * 2 ^ n + v.
Proof.
  intros. rewrite Z.lor_comm, <- Z.shiftl_mul_pow2 by done.
  by rewrite lor_shiftl_add, Z.shiftl_mul_pow2.
Qed.

Lemma varint_wire_exists v : 0 ≤ v ≤ VARINT_MAX → ∃ w, varint_wire v w.
Proof.
  intros Hv. unfold VARINT_MAX in Hv.
  assert (Hput : ∀ out, put_varint out v =
    if v <? 2 ^ 6 then Ok (out ++ be_bytes 1 (0 * 2 ^ 6 + v))
    else if v <? 2 ^ 14 then Ok (out ++ be_bytes 2 (1 * 2 ^ 14 + v))
    else if v <? 2 ^ 30 then Ok (out ++ be_bytes 4 (2 * 2 ^ 30 + v))
    else Ok (out ++ be_bytes 8 (3 * 2 ^ 62 + v))).
  { intros out. unfold put_varint, VARINT_MAX.
    change (Z.shiftl 1 6) with (2 ^ 6). change (Z.shiftl 1 14) with (2 ^ 14).
    change (Z.shiftl 1 30) with (2 ^ 30).
    destruct (Z.ltb_spec v (2 ^ 6)); [done|].
    destruct (Z.ltb_spec v (2 ^ 14)).
    { rewrite (Z.mod_small v) by lia. change 0x4000 with (1 * 2 ^ 14).
      by rewrite lor_tag by lia. }
    destruct (Z.ltb_spec v (2 ^ 30)).
    { rewrite (Z.mod_small v) by lia. change 0x80000000 with (2 * 2 ^ 30).
      by rewrite lor_tag by lia. }
    destruct (Z.leb_spec v (2 ^ 62 - 1)); [|lia].
    change 0xc000000000000000 with (3 * 2 ^ 62). by rewrite lor_tag by lia. }
  assert (Hw : ∀ n tag,
    (n = 1 ∧ tag = 0 ∨ n = 2 ∧ tag = 1 ∨ n = 4 ∧ tag = 2 ∨ n = 8 ∧ tag = 3)%nat →
    0 ≤ v < 2 ^ (8 * Z.of_nat n - 2) →
    let w := be_bytes n (Z.of_nat tag * 2 ^ (8 * Z.of_nat n - 2) + v) in
    (∀ out, put_varint out v = Ok (out ++ w)) → ∃ w, varint_wire v w).
  { intros n tag Hn Hb w Hp. destruct (varint_wire_intro n tag v Hn Hb) as (?&?&?).
    exists w. by split. }
  destruct (Z.ltb_spec v (2 ^ 6)); [by apply (Hw 1%nat 0%nat); [lia|lia|]|].
  destruct (Z.ltb_spec v (2 ^ 14)); [by apply (Hw 2%nat 1%nat); [lia|cbn; lia|]|].
  destruct (Z.ltb_spec v (2 ^ 30)); [by apply (Hw 4%nat 2%nat); [lia|cbn; lia|]|].
  by apply (Hw 8%nat 3%nat); [lia|cbn; lia|].
Qed.

Lemma put_varint_too_large out v :
  VARINT_MAX < v → put_varint out v = Err (invalid "WebTransport integer overflow").
Proof.
  unfold VARINT_MAX, put_varint. intros Hv.
  change (Z.shiftl 1 6) with (2 ^ 6). change (Z.shiftl 1 14) with (2 ^ 14).
  change (Z.shiftl 1 30) with (2 ^ 30). unfold VARINT_MAX.
  by repeat (rewrite (proj2 (Z.ltb_ge _ _)) by lia);
    rewrite (proj2 (Z.leb_gt _ _)) by lia.
Qed.

(** Octets before the last do not read as an integer. *)
Lemma varint_wire_prefix v w p k :
  varint_wire v w → w = p ++ k → k ≠ [] → read_varint p = None.
Proof.
  intros Hw -> Hk. destruct (read_varint p) as [[v' n]|] eqn:E; [exfalso|done].
  pose proof (vw_bytes _ _ Hw) as Hb. pose proof (vw_read _ _ Hw) as Hr.
  pose proof E as E'. apply (read_varint_app _ k) in E'; [|done].
  apply read_varint_size in E; [|by apply Forall_app in Hb as [? _]].
  rewrite Hr in E'. simplify_eq. rewrite len_app in E.
  destruct k; [done|]. rewrite len_cons in E. pose proof (len_nonneg k). lia.
Qed.
