(* ===== verification/WtCodecSpec.v ===== *)
(** * The capsule decoder refines an octet automaton

    [Decoder::next] works on fragments: it copies runs of octets, cuts stream
    data at [QUANTUM] and stops after each event.  The abstract decoder below
    takes one octet at a time and emits tokens.  The theorems relate the two
    for every fragmentation of the carrier stream, and give the round trip of
    the encoders through the decoder. *)

From S2P Require Import Prelude Bytes WtCodec.

(** ** Tokens: what a sequence of events delivers, whatever its cuts *)

Inductive token : Type :=
  | TStart (id : Z)
  | TByte (id b : Z)
  | TFin (id : Z)
  | TEvent (event : Event).

Definition tokens_of (e : Event) : list token :=
  match e with
  | EStream id data fin start =>
      (if start then [TStart id] else []) ++ map (TByte id) data
        ++ (if fin then [TFin id] else [])
  | e => [TEvent e]
  end.

Definition tokens (es : list Event) : list token := concat (map tokens_of es).

(** ** The automaton *)

Definition outcome : Type := list token * result io_error Decoder.

Definition is_stream (c : Capsule) : bool :=
  (kind c =? STREAM) || (kind c =? STREAM_FIN).

Definition start_token (c : Capsule) (id : Z) : list token :=
  if started c then [] else [TStart id].

(** A stream capsule whose identifier is known ends when nothing remains. *)
Definition settle_known (c : Capsule) (id : Z) : outcome :=
  if remaining c =? 0 then
    (start_token c id ++ (if kind c =? STREAM_FIN then [TFin id] else []),
     Ok (mkDecoder [] None))
  else ([], Ok (mkDecoder [] (Some c))).

(** The moves a capsule makes without further input. *)
Definition settle (c : Capsule) : outcome :=
  if is_stream c then
    match stream_id c with
    | Some id => settle_known c id
    | None =>
        match read_varint (small c) with
        | Some (id, size) =>
            settle_known (c <| small ::= dropZ size |> <| stream_id := Some id |>) id
        | None =>
            if remaining c =? 0
            then ([], Err (invalid "missing WebTransport stream ID"))
            else ([], Ok (mkDecoder [] (Some c)))
        end
    end
  else if negb (remaining c =? 0) then ([], Ok (mkDecoder [] (Some c)))
  else if discard c then ([], Ok (mkDecoder [] None))
  else
    match capsule_event c with
    | Err e => ([], Err e)
    | Ok event => ([TEvent event], Ok (mkDecoder [] None))
    end.

Definition resume (d : Decoder) : outcome :=
  match capsule d with
  | Some c => settle c
  | None =>
      match parse_header (header d) with
      | None => ([], Ok d)
      | Some (kind, length, _) =>
          match open_capsule kind length with
          | Err e => ([], Err e)
          | Ok c => settle c
          end
      end
  end.

(** Taking one octet. *)
Definition push (d : Decoder) (b : Z) : list token * Decoder :=
  match capsule d with
  | None => ([], mkDecoder (header d ++ [b]) None)
  | Some c =>
      let c' := c <| remaining ::= λ r, r - 1 |> in
      if is_stream c then
        match stream_id c with
        | None => ([], mkDecoder [] (Some (c' <| small ::= λ s, s ++ [b] |>)))
        | Some id =>
            (start_token c id ++ [TByte id b],
             mkDecoder [] (Some (c' <| started := true |>)))
        end
      else
        ([], mkDecoder [] (Some (if discard c then c'
                                 else c' <| small ::= λ s, s ++ [b] |>)))
  end.

Definition prepend (t : list token) (o : outcome) : outcome := (t ++ o.1, o.2).

Definition absorb (d : Decoder) (b : Z) : outcome :=
  let '(t, d) := push d b in prepend t (resume d).

Definition continue_with (o : outcome) (k : Decoder → outcome) : outcome :=
  match o with
  | (t, Err e) => (t, Err e)
  | (t, Ok d) => prepend t (k d)
  end.

Fixpoint absorb_all (d : Decoder) (input : bytes) : outcome :=
  match input with
  | [] => ([], Ok d)
  | b :: input => continue_with (absorb d b) (λ d, absorb_all d input)
  end.

(** The automaton started in the middle of a call to [next]. *)
Definition run (d : Decoder) (input : bytes) : outcome :=
  continue_with (resume d) (λ d, absorb_all d input).

(** ** Properties of the automaton *)

Lemma prepend_nil o : prepend [] o = o.
Proof. by destruct o. Qed.

Lemma prepend_app t t' o : prepend t (prepend t' o) = prepend (t ++ t') o.
Proof. unfold prepend. cbn. by rewrite app_assoc. Qed.

Lemma continue_prepend t o k :
  continue_with (prepend t o) k = prepend t (continue_with o k).
Proof.
  destruct o as [t' [d|e]]; cbn; [|done]. unfold prepend. cbn. by rewrite app_assoc.
Qed.

Lemma continue_assoc o k k' :
  continue_with (continue_with o k) k'
  = continue_with o (λ d, continue_with (k d) k').
Proof. destruct o as [t [d|e]]; [apply continue_prepend|done]. Qed.

Lemma continue_ext o k k' :
  (∀ d, k d = k' d) → continue_with o k = continue_with o k'.
Proof. intros Hk. destruct o as [t [d|e]]; cbn; [by rewrite Hk|done]. Qed.

Lemma absorb_all_app d l k :
  absorb_all d (l ++ k) = continue_with (absorb_all d l) (λ d, absorb_all d k).
Proof.
  revert d. induction l as [|b l IH]; intros d; cbn.
  { by rewrite prepend_nil. }
  rewrite continue_assoc. apply continue_ext. intros d'. apply IH.
Qed.

(** A decoder waiting for input: no further move without an octet. *)
Definition quiescent (d : Decoder) : Prop := resume d = ([], Ok d).

Lemma run_quiescent d input : quiescent d → run d input = absorb_all d input.
Proof. unfold run. intros ->. cbn. by rewrite prepend_nil. Qed.

Lemma absorb_all_cons d b l :
  absorb_all d (b :: l) = prepend (push d b).1 (run (push d b).2 l).
Proof.
  cbn [absorb_all]. unfold absorb, run. destruct (push d b) as [t d'].
  apply continue_prepend.
Qed.

(** ** Headers *)

Lemma parse_header_bounds h k l n :
  Forall is_byte h → parse_header h = Some (k, l, n) → 2 ≤ n ≤ 16 ∧ n ≤ len h.
Proof.
  intros Hh. unfold parse_header.
  destruct (read_varint h) as [[v a]|] eqn:E1; [|done].
  destruct (read_varint (dropZ a h)) as [[v' b]|] eqn:E2; [|done].
  intros ?; simplify_eq. apply read_varint_size in E1; [|done].
  apply read_varint_size in E2; [|by apply Forall_drop].
  rewrite len_dropZ in E2 by lia. lia.
Qed.

(** An incomplete header is shorter than the 16 octets two integers take. *)
Lemma parse_header_short h :
  Forall is_byte h → parse_header h = None → len h < 16.
Proof.
  intros Hh. unfold parse_header.
  destruct (read_varint h) as [[v a]|] eqn:E1.
  2: { intros _. apply read_varint_short in E1; [lia|done]. }
  destruct (read_varint (dropZ a h)) as [[v' b]|] eqn:E2; [done|]. intros _.
  apply read_varint_size in E1; [|done].
  apply read_varint_short in E2; [|by apply Forall_drop].
  rewrite len_dropZ in E2 by lia. lia.
Qed.

Lemma parse_header_app h k x :
  Forall is_byte (h ++ k) → parse_header h = Some x → parse_header (h ++ k) = Some x.
Proof.
  intros Hhk. pose proof Hhk as [Hh Hk]%Forall_app. unfold parse_header.
  destruct (read_varint h) as [[v a]|] eqn:E1; [|done].
  rewrite (read_varint_app _ _ _ _ Hhk E1).
  apply read_varint_size in E1; [|done].
  assert (dropZ a (h ++ k) = dropZ a h ++ k) as ->.
  { unfold dropZ. rewrite drop_app_le; [done|]. unfold len in E1. lia. }
  destruct (read_varint (dropZ a h)) as [[v' b]|] eqn:E2; [|done].
  rewrite (read_varint_app _ k v' b); [done| |done].
  apply Forall_app; split; [by apply Forall_drop|done].
Qed.

Lemma parse_header_app_inv h k kd l n :
  Forall is_byte (h ++ k) → parse_header (h ++ k) = Some (kd, l, n) → n ≤ len h →
  parse_header h = Some (kd, l, n).
Proof.
  intros Hhk. pose proof Hhk as [Hh Hk]%Forall_app. unfold parse_header.
  destruct (read_varint (h ++ k)) as [[v a]|] eqn:E1; [|done].
  pose proof (read_varint_size _ _ _ Hhk E1) as Ha.
  destruct (read_varint (dropZ a (h ++ k))) as [[v' b]|] eqn:E2; [|done].
  intros ? Hn; simplify_eq.
  assert (1 ≤ b) by (apply read_varint_size in E2; [lia|by apply Forall_drop]).
  rewrite (read_varint_app_inv h k kd a) by (done || lia).
  assert (dropZ a (h ++ k) = dropZ a h ++ k) as Hd.
  { unfold dropZ. rewrite drop_app_le; [done|]. unfold len in *. lia. }
  rewrite Hd in E2. rewrite (read_varint_app_inv _ k l b); [done| |done|].
  - apply Forall_app; split; [by apply Forall_drop|done].
  - rewrite len_dropZ by lia. lia.
Qed.

(** A header that has just become complete is used up entirely. *)
Lemma parse_header_exact h b k l n :
  Forall is_byte (h ++ [b]) → parse_header h = None →
  parse_header (h ++ [b]) = Some (k, l, n) → n = len (h ++ [b]).
Proof.
  intros Hh Hn Hs. pose proof (parse_header_bounds _ _ _ _ Hh Hs) as [_ Hle].
  destruct (Z.le_gt_cases n (len h)) as [Hc|Hc].
  - apply parse_header_app_inv in Hs; [congruence|done|done].
  - rewrite len_app, len_cons, len_nil in *. lia.
Qed.

(** ** Well-formed decoder states *)

Record wf_capsule (c : Capsule) : Prop := {
  wfc_remaining : 0 ≤ remaining c ≤ U64_MAX;
  wfc_small : Forall is_byte (small c);
}.

Definition wf (d : Decoder) : Prop :=
  Forall is_byte (header d) ∧
  match capsule d with
  | Some c => header d = [] ∧ wf_capsule c
  | None => header d = [] ∨ ∃ h b, header d = h ++ [b] ∧ parse_header h = None
  end.

Lemma wf_default : wf Decoder_default.
Proof. split; [constructor|by left]. Qed.

Lemma parse_header_wf d k l n :
  wf d → capsule d = None → parse_header (header d) = Some (k, l, n) →
  dropZ n (header d) = [] ∧ 2 ≤ len (header d).
Proof.
  intros [Hb Hd] Hc Hp. rewrite Hc in Hd.
  pose proof (parse_header_bounds _ _ _ _ Hb Hp). destruct Hd as [Hd|(h & b & Hd & Hn)].
  { rewrite Hd in *. done. }
  rewrite Hd in *. rewrite (parse_header_exact h b k l n) by done.
  split; [by apply dropZ_all|]. rewrite (parse_header_exact h b k l n) in H by done. lia.
Qed.

(** ** Runs of octets *)

Abbreviation busy c := (mkDecoder [] (Some c)).

Lemma run_waiting c input :
  settle c = ([], Ok (busy c)) → run (busy c) input = absorb_all (busy c) input.
Proof. intros Hs. apply run_quiescent. exact Hs. Qed.

Lemma run_idle input : run Decoder_default input = absorb_all Decoder_default input.
Proof. by apply run_quiescent. Qed.

Lemma run_settle c c' input :
  settle c = settle c' → run (busy c) input = run (busy c') input.
Proof. unfold run, resume. cbn [capsule]. by intros ->. Qed.

Lemma run_settle_err c e input :
  settle c = ([], Err e) → run (busy c) input = ([], Err e).
Proof. unfold run, resume. cbn [capsule]. by intros ->. Qed.

Lemma settle_stream c :
  is_stream c = true →
  settle c =
    match stream_id c with
    | Some id => settle_known c id
    | None =>
        match read_varint (small c) with
        | Some (id, size) =>
            settle_known (c <| small ::= dropZ size |> <| stream_id := Some id |>) id
        | None =>
            if remaining c =? 0
            then ([], Err (invalid "missing WebTransport stream ID"))
            else ([], Ok (busy c))
        end
    end.
Proof. unfold settle. by intros ->. Qed.

(** Two runs agree when their capsules do. *)
Lemma run_capsule_eq c c' input : c = c' → run (busy c) input = run (busy c') input.
Proof. by intros ->. Qed.

Lemma sub64_pred r n : 0 ≤ n ≤ r → r ≤ U64_MAX → sub64 r n = r - n.
Proof. intros. apply sub64_small. lia. Qed.

Lemma stream_id_loop_run input : ∀ c,
  is_stream c = true → wf_capsule c → Forall is_byte input →
  match stream_id_loop c input with
  | (Err e, _) => run (busy c) input = ([], Err e)
  | (Ok false, (c', input')) =>
      input' = [] ∧ run (busy c) input = ([], Ok (busy c')) ∧ wf_capsule c'
      ∧ settle c' = ([], Ok (busy c'))
  | (Ok true, (c', input')) =>
      run (busy c) input = run (busy c') input' ∧ is_Some (stream_id c')
      ∧ wf_capsule c' ∧ is_stream c' = true ∧ Forall is_byte input'
      ∧ (length input' ≤ length input)%nat
  end.
Proof.
  induction input as [|b input IH]; intros c Hs [Hr Hsm] Hi; cbn [stream_id_loop].
  - destruct (stream_id c) as [id|] eqn:Eid; [by split_and!; eauto|].
    destruct (read_varint (small c)) as [[id size]|] eqn:Ev.
    + split_and!; eauto.
      * apply run_settle. by rewrite !settle_stream, Eid, Ev.
      * split; [done|]. by apply Forall_drop.
    + destruct (Z.eqb_spec (remaining c) 0) as [E0|E0].
      * apply run_settle_err. by rewrite settle_stream, Eid, Ev, E0.
      * assert (settle c = ([], Ok (busy c))) as Hq.
        { rewrite settle_stream, Eid, Ev by done. by destruct (Z.eqb_spec (remaining c) 0). }
        split_and!; try done. by rewrite run_waiting.
  - destruct (stream_id c) as [id|] eqn:Eid; [by split_and!; eauto|].
    destruct (read_varint (small c)) as [[id size]|] eqn:Ev.
    + split_and!; eauto.
      * apply run_settle. by rewrite !settle_stream, Eid, Ev.
      * split; [done|]. by apply Forall_drop.
    + apply Forall_cons in Hi as [Hb Hi].
      destruct (Z.eqb_spec (remaining c) 0) as [E0|E0].
      * apply run_settle_err. by rewrite settle_stream, Eid, Ev, E0.
      * set (c1 := c <| small ::= λ s, s ++ [b] |> <| remaining ::= λ r, sub64 r 1 |>).
        assert (run (busy c) (b :: input) = run (busy c1) input) as Hrun.
        { rewrite run_waiting.
          - rewrite absorb_all_cons. unfold push. cbn [capsule]. rewrite Hs, Eid.
            cbn [fst snd]. rewrite prepend_nil. apply run_capsule_eq. subst c1.
            unfold over. cbn. by rewrite sub64_pred by lia.
          - rewrite settle_stream, Eid, Ev by done. by destruct (Z.eqb_spec (remaining c) 0). }
        rewrite Hrun. assert (wf_capsule c1) as Hw1.
        { split; cbn; [rewrite sub64_pred by lia; lia|].
          apply Forall_app; split; [done|by constructor]. }
        specialize (IH c1 Hs Hw1 Hi).
        destruct (stream_id_loop c1 input) as [[[]|e] [c' input']]; try done.
        destruct IH as (?&?&?&?&?&?). split_and!; try done. cbn. lia.
Qed.

(** Stream data: a run of octets within the capsule. *)
Lemma run_stream_data l : ∀ c id k,
  is_stream c = true → stream_id c = Some id → wf_capsule c →
  l ≠ [] → len l ≤ remaining c →
  run (busy c) (l ++ k) =
    prepend (start_token c id ++ map (TByte id) l
             ++ (if (kind c =? STREAM_FIN) && (remaining c - len l =? 0)
                 then [TFin id] else []))
      (run (if remaining c - len l =? 0 then Decoder_default
            else busy (c <| remaining := remaining c - len l |>
                         <| started := true |>)) k).
Proof.
  induction l as [|b l IH]; [done|]. intros c id k Hs Eid [Hr Hsm] _ Hl.
  rewrite len_cons in Hl. pose proof (len_nonneg l).
  set (c1 := c <| remaining := remaining c - 1 |> <| started := true |>).
  assert (run (busy c) (b :: l ++ k)
          = prepend (start_token c id ++ [TByte id b]) (run (busy c1) (l ++ k))) as Hrun.
  { rewrite run_waiting.
    - rewrite absorb_all_cons. unfold push. cbn [capsule]. by rewrite Hs, Eid.
    - unfold settle, settle_known. rewrite Hs, Eid.
      destruct (Z.eqb_spec (remaining c) 0); [lia|done]. }
  cbn [app]. rewrite Hrun. destruct l as [|b' l].
  - cbn [app map]. rewrite len_cons, len_nil.
    replace (remaining c - (1 + 0)) with (remaining c - 1) by lia.
    destruct (Z.eqb_spec (remaining c - 1) 0) as [E|E].
    + rewrite run_idle. unfold run. unfold resume. cbn [capsule].
      unfold settle. change (is_stream c1) with (is_stream c). rewrite Hs.
      change (stream_id c1) with (stream_id c). rewrite Eid.
      unfold settle_known. change (remaining c1) with (remaining c - 1). rewrite E. cbn [Z.eqb].
      unfold start_token at 2. change (started c1) with true.
      change (kind c1) with (kind c). rewrite andb_true_r, app_nil_l.
      cbn [continue_with]. rewrite prepend_app, <- app_assoc. done.
    + by rewrite andb_false_r.
  - rewrite (IH c1 id k); try done.
    + rewrite prepend_app. change (start_token c1 id) with (@nil token).
      change (remaining c1) with (remaining c - 1).
      change (kind c1) with (kind c). rewrite (len_cons b (b' :: l)).
      replace (remaining c - (1 + len (b' :: l))) with (remaining c - 1 - len (b' :: l))
        by lia.
      f_equal. cbn [map app]. rewrite <- !app_assoc. done.
    + split; cbn; [lia|done].
    + cbn. lia.
Qed.

(** Any other capsule: a run of octets within it. *)
Lemma run_other_data l : ∀ c k,
  is_stream c = false → wf_capsule c → Forall is_byte l → len l ≤ remaining c →
  run (busy c) (l ++ k) =
    run (busy (c <| remaining := remaining c - len l |>
                 <| small := if discard c then small c else small c ++ l |>)) k.
Proof.
  induction l as [|b l IH]; intros c k Hs [Hr Hsm] Hb Hl.
  { cbn [app]. rewrite len_nil, Z.sub_0_r, app_nil_r. apply run_capsule_eq.
    by destruct c as [????? []]. }
  apply Forall_cons in Hb as [Hb Hbl].
  rewrite len_cons in *. pose proof (len_nonneg l). cbn [app]. rewrite run_waiting.
  - rewrite absorb_all_cons. unfold push. cbn [capsule]. rewrite Hs.
    cbn [fst snd]. rewrite prepend_nil.
    set (c1 := if discard c then _ else _).
    assert (is_stream c1 = false ∧ remaining c1 = remaining c - 1 ∧ wf_capsule c1)
      as (Hs1 & Hr1 & Hw1).
    { subst c1. destruct (discard c); (split; [done|]; split; [done|]; split; cbn; [lia|]);
        [done|]. apply Forall_app. split; [done|]. by constructor. }
    rewrite (IH c1 k); [|done..|lia]. apply run_capsule_eq. subst c1.
    unfold over. destruct (discard c) eqn:Ed; cbn; rewrite ?Ed, <- ?app_assoc; f_equal; lia.
  - unfold settle. rewrite Hs. destruct (Z.eqb_spec (remaining c) 0); [lia|done].
Qed.

(** ** One iteration of the decoder's loop *)

Definition iter_sound (d : Decoder) (input : bytes) (it : iteration) : Prop :=
  match it with
  | (Err e, _) => run d input = ([], Err e)
  | (Ok Continue, (d', input')) =>
      run d input = run d' input' ∧ wf d' ∧ Forall is_byte input'
      ∧ (work d' input' < work d input)%nat
  | (Ok (Return None), (d', _)) =>
      run d input = ([], Ok d') ∧ wf d' ∧ quiescent d'
  | (Ok (Return (Some event)), (d', input')) =>
      run d input = prepend (tokens_of event) (run d' input') ∧ wf d'
      ∧ Forall is_byte input' ∧ (work d' input' < work d input)%nat
  end.

Lemma wf_busy c : wf_capsule c → wf (busy c).
Proof. split; [constructor|done]. Qed.

Lemma wf_idle : wf (mkDecoder [] None).
Proof. apply wf_default. Qed.

Lemma settle_known_waits c id :
  stream_id c = Some id → is_stream c = true → remaining c ≠ 0 →
  settle c = ([], Ok (busy c)).
Proof.
  intros Hid Hs Hr. rewrite settle_stream, Hid by done. unfold settle_known.
  by destruct (Z.eqb_spec (remaining c) 0).
Qed.

Lemma next_stream_sound c input :
  is_stream c = true → wf_capsule c → Forall is_byte input →
  iter_sound (busy c) input (next_stream (busy c) c input).
Proof.
  intros Hs Hw Hi. unfold next_stream.
  pose proof (stream_id_loop_run input c Hs Hw Hi) as Hloop.
  destruct (stream_id_loop c input) as [[[]|e] [c' input']]; cbn [fst snd] in *.
  2: { destruct Hloop as (-> & ? & ? & ?). split_and!; [done|by apply wf_busy|done]. }
  2: { exact Hloop. }
  destruct Hloop as (Hrun & [id Hid] & Hw' & Hs' & Hi' & Hlen).
  pose proof (wfc_remaining _ Hw') as Hr. pose proof (len_nonneg input').
  destruct (is_empty input' && negb (remaining c' =? 0)) eqn:Ee.
  { apply andb_prop in Ee as [->%is_empty_true Hne].
    assert (settle c' = ([], Ok (busy c'))).
    { eapply settle_known_waits; [done..|]. by destruct (Z.eqb_spec (remaining c') 0). }
    split_and!; [|by apply wf_busy|done]. rewrite Hrun, run_waiting; done. }
  set (count := Z.min (remaining c') (Z.min (len input') QUANTUM)).
  assert (0 ≤ count ≤ remaining c' ∧ count ≤ len input') as [Hc1 Hc2].
  { subst count. unfold QUANTUM. lia. }
  unfold over. cbn [remaining kind started stream_id small discard header].
  rewrite Hid, sub64_pred by lia. unfold iter_sound.
  rewrite Hrun. rewrite <- (takeZ_dropZ count input') at 1.
  assert (len (takeZ count input') = count) as Hlt by (apply len_takeZ; lia).
  assert (Forall is_byte (dropZ count input')) as Hd by by apply Forall_drop.
  destruct (decide (count = 0)) as [E0|E0].
  - assert (remaining c' = 0) as Er.
    { destruct (Z.eqb_spec (remaining c') 0) as [|Hn]; [done|exfalso].
      rewrite andb_true_r in Ee. apply is_empty_false in Ee.
      subst count. unfold QUANTUM in E0. lia. }
    rewrite (len_zero_inv (takeZ count input')) by lia.
    rewrite Er, E0. change (0 - 0 =? 0) with true. cbn [app].
    rewrite andb_true_r. split_and!; [|apply wf_idle|done|].
    + unfold run at 1. unfold resume. cbn [capsule]. rewrite settle_stream, Hid by done.
      unfold settle_known. rewrite Er. cbn [Z.eqb continue_with].
      change (mkDecoder [] None) with Decoder_default. rewrite run_idle.
      unfold start_token. by destruct (started c').
    + unfold work. cbn [header capsule is_some length].
      unfold dropZ. rewrite length_drop. lia.
  - rewrite run_stream_data with (id := id); [|done..| |lia].
    2: { intros Hnil. rewrite Hnil in Hlt. change (len []) with 0 in Hlt. lia. }
    rewrite Hlt. split_and!.
    + cbn [tokens_of]. unfold start_token, Decoder_default, over.
      cbn [kind remaining small stream_id started discard]. rewrite Hid.
      by destruct (started c'), (remaining c' - count =? 0).
    + destruct (remaining c' - count =? 0); [apply wf_idle|apply wf_busy].
      split; cbn; [lia|]. apply Hw'.
    + done.
    + unfold work. cbn [header capsule length]. unfold dropZ, len in *.
      rewrite length_drop. destruct (remaining c' - count =? 0); cbn [is_some]; lia.
Qed.

Lemma capsule_event_tokens c event :
  capsule_event c = Ok event → tokens_of event = [TEvent event].
Proof.
  unfold capsule_event, ok_or. intros H.
  destruct (kind c =? DATAGRAM); [by simplify_eq|].
  destruct (kind c =? DRAIN_SESSION); [by simplify_eq|].
  destruct (kind c =? CLOSE_SESSION); [by destruct (utf8_valid _); simplify_eq|].
  destruct (control_values (kind c)) as [n|]; cbn in H; [|done].
  destruct (read_values (Z.to_nat n) (small c)) as [[vs rest]|]; cbn in H; [|done].
  by destruct (negb (is_empty rest)); simplify_eq.
Qed.

Lemma read_varint_value b v n :
  Forall is_byte b → read_varint b = Some (v, n) → 0 ≤ v ≤ VARINT_MAX.
Proof.
  destruct b as [|f t]; [done|]. intros Hb. rewrite read_varint_cons by done.
  apply Forall_cons in Hb as [Hf Ht]. pose proof (varint_size_bound f Hf).
  destruct (Z.ltb_spec (len (f :: t)) (varint_size f)) as [|Hl]; [done|].
  intros ?; simplify_eq. rewrite len_cons in Hl.
  pose proof (Z.mod_pos_bound f 64 ltac:(lia)).
  pose proof (be_fold_bound (takeZ (varint_size f - 1) t) (f mod 64)
    ltac:(by apply Forall_take) ltac:(lia)) as Hfold.
  rewrite len_takeZ in Hfold by lia.
  assert ((f mod 64 + 1) * 2 ^ (8 * (varint_size f - 1)) ≤ 64 * 2 ^ 56).
  { apply Z.mul_le_mono_nonneg; [lia|lia|apply Z.pow_nonneg; lia|].
    apply Z.pow_le_mono_r; lia. }
  unfold VARINT_MAX. change (64 * 2 ^ 56) with (2 ^ 62) in *. lia.
Qed.

Lemma parse_header_length h k l n :
  Forall is_byte h → parse_header h = Some (k, l, n) → 0 ≤ l ≤ U64_MAX.
Proof.
  intros Hh. unfold parse_header.
  destruct (read_varint h) as [[v a]|] eqn:E1; [|done].
  destruct (read_varint (dropZ a h)) as [[v' b]|] eqn:E2; [|done].
  intros ?; simplify_eq. apply read_varint_value in E2; [|by apply Forall_drop].
  unfold VARINT_MAX in E2. rewrite U64_MAX_val. lia.
Qed.

Lemma next_other_sound c input :
  is_stream c = false → wf_capsule c → Forall is_byte input →
  iter_sound (busy c) input (next_other (busy c) c input).
Proof.
  intros Hs Hw Hi. unfold next_other. pose proof (wfc_remaining _ Hw) as Hr.
  destruct (negb (remaining c =? 0) && is_empty input) eqn:Ee.
  { apply andb_prop in Ee as [Hne ->%is_empty_true].
    assert (settle c = ([], Ok (busy c))).
    { unfold settle. by rewrite Hs, Hne. }
    split_and!; [|by apply wf_busy|done]. by rewrite run_waiting. }
  set (count := Z.min (remaining c) (len input)).
  set (p := if negb (remaining c =? 0) then _ else _).
  assert (∃ c' input', p = (c', input') ∧ run (busy c) input = run (busy c') input'
    ∧ is_stream c' = false ∧ wf_capsule c' ∧ Forall is_byte input'
    ∧ (length input' ≤ length input)%nat
    ∧ (remaining c' ≠ 0 → (length input' < length input)%nat)) as (c' & input' & -> & H').
  { subst p. destruct (Z.eqb_spec (remaining c) 0) as [E|E]; cbn [negb].
    { exists c, input. split_and!; [done..|lia]. }
    cbn [negb andb] in Ee. apply is_empty_false in Ee.
    assert (0 < count ≤ remaining c ∧ count ≤ len input) as [Hc1 Hc2] by lia.
    assert (len (takeZ count input) = count) as Hlt by (apply len_takeZ; lia).
    eexists _, _. split; [reflexivity|]. split_and!.
    - rewrite <- (takeZ_dropZ count input) at 1.
      rewrite run_other_data; [|done..|by apply Forall_take|lia].
      apply run_capsule_eq. unfold over.
      destruct c as [k r sm sid st di]. cbn in *. rewrite Hlt, sub64_pred by lia.
      by destruct di.
    - by destruct c as [k r sm sid st []].
    - destruct c as [k r sm sid st di]; cbn in *. destruct Hw as [_ Hsm]; cbn in Hsm.
      destruct di; split; cbn; rewrite ?sub64_pred by lia; try lia; [done|].
      apply Forall_app; split; [done|by apply Forall_take].
    - by apply Forall_drop.
    - unfold dropZ. rewrite length_drop. lia.
    - intros _. unfold dropZ, len in *. rewrite length_drop. lia. }
  destruct H' as (Hrun & Hs' & Hw' & Hi' & Hl1 & Hl2).
  unfold iter_sound, over. cbn [capsule header]. rewrite Hrun.
  destruct (Z.eqb_spec (remaining c') 0) as [E0|E0]; cbn [negb].
  2: { specialize (Hl2 E0). split_and!; [done|by apply wf_busy|done|].
       unfold work. cbn. lia. }
  assert (settle c' = if discard c' then ([], Ok Decoder_default) else
    match capsule_event c' with
    | Err e => ([], Err e)
    | Ok event => ([TEvent event], Ok Decoder_default)
    end) as Hset.
  { unfold settle. by rewrite Hs', E0. }
  destruct (discard c').
  { split_and!; [|apply wf_idle|done|unfold work; cbn; lia].
    unfold run at 1, resume. cbn [capsule]. rewrite Hset. cbn [continue_with].
    rewrite prepend_nil. symmetry. apply run_idle. }
  destruct (capsule_event c') as [event|e] eqn:Eev.
  2: { by apply run_settle_err. }
  split_and!; [|apply wf_idle|done|unfold work; cbn; lia].
  unfold run at 1, resume. cbn [capsule]. rewrite Hset. cbn [continue_with].
  rewrite <- run_idle. f_equal. symmetry. by apply (capsule_event_tokens c').
Qed.

Lemma next_capsule_sound c input :
  wf_capsule c → Forall is_byte input →
  iter_sound (busy c) input (next_capsule (busy c) c input).
Proof.
  intros Hw Hi. unfold next_capsule. fold (is_stream c).
  destruct (is_stream c) eqn:Es; [by apply next_stream_sound|by apply next_other_sound].
Qed.

Lemma next_iter_sound d input :
  wf d → Forall is_byte input → iter_sound d input (next_iter d input).
Proof.
  intros Hd Hi. unfold next_iter. destruct (capsule d) as [c|] eqn:Ec.
  { destruct Hd as [_ Hd]. rewrite Ec in Hd. destruct Hd as [Hh Hw].
    destruct d as [h cap]. cbn in *. subst. by apply next_capsule_sound. }
  destruct (parse_header (header d)) as [[[k l] n]|] eqn:Ep.
  - pose proof (parse_header_wf _ _ _ _ Hd Ec Ep) as [Hdrop Hlen].
    assert (resume d = match open_capsule k l with
                       | Err e => ([], Err e)
                       | Ok c => settle c
                       end) as Hres by (unfold resume; by rewrite Ec, Ep).
    destruct (open_capsule k l) as [c|e] eqn:Eo.
    2: { unfold iter_sound, run. by rewrite Hres. }
    assert (d <| header ::= dropZ n |> <| capsule := Some c |> = busy c) as ->.
    { unfold over. cbn. by rewrite Hdrop. }
    assert (run d input = run (busy c) input) as Hrun by (unfold run; by rewrite Hres).
    assert (wf_capsule c) as Hw.
    { unfold open_capsule in Eo. destruct (header_discard k l); cbn in Eo; [|done].
      simplify_eq. split; cbn; [|constructor]. eapply parse_header_length; [|done].
      apply Hd. }
    assert (work (busy c) input < work d input)%nat as Hwork.
    { unfold work. rewrite Ec. cbn. unfold len in Hlen. lia. }
    pose proof (next_capsule_sound c input Hw Hi) as Hs. unfold iter_sound in *.
    rewrite Hrun. destruct (next_capsule (busy c) c input) as [[[|[ev|]]|e] [d' i']];
      destruct_and?; split_and?; try done; lia.
  - assert (quiescent d) as Hq by (unfold quiescent, resume; by rewrite Ec, Ep).
    destruct input as [|b input].
    { split_and!; [|done..]. by rewrite run_quiescent. }
    pose proof Hd as [Hh _]. pose proof (parse_header_short _ Hh Ep).
    destruct (Z.leb_spec 16 (len (header d))); [lia|].
    apply Forall_cons in Hi as [Hb Hi]. unfold over. split_and!.
    + rewrite run_quiescent, absorb_all_cons by done. unfold push. rewrite Ec.
      cbn [fst snd]. by rewrite prepend_nil.
    + split; cbn; [apply Forall_app; split; [done|by constructor]|].
      rewrite Ec. right. eauto.
    + done.
    + unfold work. cbn [header capsule]. rewrite length_app, Ec. cbn [length is_some]. lia.
Qed.

(** ** The decoder on fragments *)

Lemma next_fuel_sound fuel : ∀ d input,
  wf d → Forall is_byte input → (work d input < fuel)%nat →
  ∃ r s, next_fuel fuel d input = Some (r, s) ∧
  match r with
  | Err e => run d input = ([], Err e)
  | Ok None => run d input = ([], Ok s.1) ∧ wf s.1 ∧ quiescent s.1
  | Ok (Some event) =>
      run d input = prepend (tokens_of event) (run s.1 s.2) ∧ wf s.1
      ∧ Forall is_byte s.2 ∧ (work s.1 s.2 < work d input)%nat
  end.
Proof.
  induction fuel as [|fuel IH]; intros d input Hd Hi Hf; [lia|]. cbn [next_fuel].
  pose proof (next_iter_sound d input Hd Hi) as Hs. unfold iter_sound in Hs.
  destruct (next_iter d input) as [[[|[event|]]|e] [d' input']].
  - destruct Hs as (-> & Hd' & Hi' & Hw).
    destruct (IH d' input') as (r & s & -> & Hr); [done..|lia|].
    exists r, s. split; [done|]. destruct r as [[event|]|e]; [|done..].
    destruct Hr as (?&?&?&?). split_and!; [done..|lia].
  - eexists _, (d', input'). split; [reflexivity|done].
  - eexists _, (d', input'). split; [reflexivity|done].
  - by eexists _, (d', input').
Qed.

Lemma tokens_cons e es : tokens (e :: es) = tokens_of e ++ tokens es.
Proof. done. Qed.

Lemma tokens_app es es' : tokens (es ++ es') = tokens es ++ tokens es'.
Proof. unfold tokens. by rewrite map_app, concat_app. Qed.

Lemma events_fuel_sound fuel : ∀ d input,
  wf d → Forall is_byte input → (work d input < fuel)%nat →
  ∃ es r, events_fuel fuel d input = Some (es, r) ∧ run d input = (tokens es, r) ∧
    (∀ d', r = Ok d' → wf d' ∧ quiescent d').
Proof.
  induction fuel as [|fuel IH]; intros d input Hd Hi Hf; [lia|]. cbn [events_fuel].
  destruct (next_fuel_sound (S (work d input)) d input) as (r & [d' i'] & Hn & Hr);
    [done..|lia|].
  unfold next. rewrite Hn. destruct r as [[event|]|e]; cbn [fst snd] in Hr.
  - destruct Hr as (Hr & ? & ? & ?).
    destruct (IH d' i') as (es & r & -> & Hrun & Hq); [done..|lia|].
    eexists _, _. split; [reflexivity|]. split; [|done].
    by rewrite Hr, Hrun.
  - destruct Hr as (? & ? & ?). eexists _, _. split; [reflexivity|].
    split; [done|]. intros ? [= <-]. done.
  - eexists _, _. split; [reflexivity|]. done.
Qed.

Lemma decode_fragments_run parts : ∀ d,
  wf d → quiescent d → Forall (Forall is_byte) parts →
  ∃ es r, decode_fragments d parts = Some (es, r) ∧
    absorb_all d (concat parts) = (tokens es, r).
Proof.
  induction parts as [|part parts IH]; intros d Hd Hq Hp; cbn [decode_fragments concat].
  { by eexists _, _. }
  apply Forall_cons in Hp as [Hp Hps].
  destruct (events_fuel_sound (S (work d part)) d part) as (es & r & He & Hr & Hk);
    [done..|lia|].
  rewrite run_quiescent in Hr by done.
  unfold decode_fragment. rewrite He, absorb_all_app, Hr. destruct r as [d'|e].
  - destruct (Hk d') as [Hd' Hq']; [done|].
    destruct (IH d') as (es' & r' & -> & Hr'); [done..|].
    eexists _, _. split; [reflexivity|]. cbn [continue_with]. rewrite Hr'.
    unfold prepend. cbn. by rewrite tokens_app.
  - by eexists _, _.
Qed.

(** ** Encoded capsules *)

(** What a session sends, with the encoder it calls for it. *)
Inductive Message : Type :=
  | MStream (id : Z) (data : bytes) (fin : bool)
  | MControl (kind : Z) (values : list Z)
  | MDatagram (data : bytes)
  | MClose (code : Z) (reason : bytes)
  | MDrain.

Definition message_wire (m : Message) : result io_error bytes :=
  match m with
  | MStream id data fin => stream id data fin
  | MControl kind values => control kind values
  | MDatagram data => encode DATAGRAM data
  | MClose code reason => close code reason
  | MDrain => control DRAIN_SESSION []
  end.

(** The longest prefix of a close reason that is at most [MAX_CLOSE_REASON]
    octets long and ends at a character boundary. *)
Definition close_reason (reason : bytes) : bytes :=
  take (boundary_below reason (Z.to_nat (Z.min (len reason) MAX_CLOSE_REASON))) reason.

Definition message_tokens (m : Message) : list token :=
  match m with
  | MStream id data fin => tokens_of (EStream id data fin true)
  | MControl kind values => [TEvent (EControl kind values)]
  | MDatagram data => [TEvent (EDatagram data)]
  | MClose code reason => [TEvent (EClose code (close_reason reason))]
  | MDrain => [TEvent EDrain]
  end.

Definition is_varint (v : Z) : Prop := 0 ≤ v ≤ VARINT_MAX.

Definition sendable (m : Message) : Prop :=
  match m with
  | MStream id data _ => is_varint id ∧ Forall is_byte data ∧ len data + 8 ≤ VARINT_MAX
  | MControl kind values =>
      control_values kind = Some (len values) ∧ Forall is_varint values
  | MDatagram data => Forall is_byte data ∧ len data ≤ MAX_DATAGRAM
  | MClose code reason => is_u32 code ∧ Forall is_byte reason ∧ utf8_valid reason = true
  | MDrain => True
  end.

Lemma varint_wires_header w1 w2 kd l :
  varint_wire kd w1 → varint_wire l w2 →
  parse_header (w1 ++ w2) = Some (kd, l, len (w1 ++ w2)).
Proof.
  intros H1 H2. unfold parse_header.
  rewrite (read_varint_app w1 w2 kd (len w1)).
  - rewrite dropZ_app_len, (vw_read _ _ H2), len_app. done.
  - apply Forall_app; split; [apply H1|apply H2].
  - apply H1.
Qed.

(** Absorbing a complete header opens the capsule. *)
Lemma absorb_header kd w1 w2 l c rest :
  varint_wire kd w1 → varint_wire l w2 → open_capsule kd l = Ok c →
  absorb_all Decoder_default ((w1 ++ w2) ++ rest) = run (busy c) rest.
Proof.
  intros H1 H2 Ho. pose proof (varint_wires_header _ _ _ _ H1 H2) as Hp.
  assert (Forall is_byte (w1 ++ w2)) as Hb by (apply Forall_app; split; [apply H1|apply H2]).
  enough (∀ k h, h ++ k = w1 ++ w2 → k ≠ [] →
    absorb_all (mkDecoder h None) (k ++ rest) = run (busy c) rest) as Hgen.
  { apply (Hgen (w1 ++ w2) []); [done|]. pose proof (vw_len _ _ H1) as Hl.
    destruct w1; [|done]. rewrite len_nil in Hl. lia. }
  induction k as [|b k IH]; [done|]. intros h Hh _. cbn [app].
  rewrite absorb_all_cons. unfold push. cbn [capsule header fst snd].
  rewrite prepend_nil. rewrite (cons_middle b h k), app_assoc in Hh.
  destruct k as [|b' k].
  - rewrite app_nil_r in Hh. unfold run, resume. cbn [capsule header].
    rewrite Hh, Hp, Ho. done.
  - rewrite <- (IH (h ++ [b])); [|done..]. apply run_quiescent.
    unfold quiescent, resume. cbn [capsule header].
    destruct (parse_header (h ++ [b])) as [[[k' l'] n]|] eqn:E; [exfalso|done].
    rewrite <- Hh in Hb, Hp. pose proof E as E2.
    apply (parse_header_app _ (b' :: k)) in E2; [|done].
    apply parse_header_bounds in E; [|by apply Forall_app in Hb as [? _]].
    rewrite Hp in E2. simplify_eq. rewrite len_app, (len_cons b') in E.
    pose proof (len_nonneg k). lia.
Qed.

(** Collecting a stream identifier. *)
Lemma run_stream_id id w rest : ∀ k c,
  varint_wire id w → is_stream c = true → stream_id c = None →
  small c ++ k = w → k ≠ [] → wf_capsule c → len k ≤ remaining c →
  run (busy c) (k ++ rest) =
    run (busy (c <| small := [] |> <| stream_id := Some id |>
                 <| remaining := remaining c - len k |>)) rest.
Proof.
  intros k c Hw. revert c. induction k as [|b k IH]; [done|].
  intros c Hs Eid Hsm _ [Hr Hb] Hl. rewrite len_cons in *. pose proof (len_nonneg k).
  assert (read_varint (small c) = None) as Hnone.
  { by eapply varint_wire_prefix; [exact Hw|symmetry; exact Hsm|]. }
  set (c1 := c <| remaining ::= λ r, r - 1 |> <| small ::= λ s, s ++ [b] |>).
  assert (small c1 ++ k = w) as Hsm1 by (cbn; by rewrite <- app_assoc).
  assert (run (busy c) ((b :: k) ++ rest) = run (busy c1) (k ++ rest)) as Hrun.
  { cbn [app]. rewrite run_waiting.
    - rewrite absorb_all_cons. unfold push. cbn [capsule]. rewrite Hs, Eid.
      cbn [fst snd]. by rewrite prepend_nil.
    - rewrite settle_stream, Eid, Hnone by done.
      destruct (Z.eqb_spec (remaining c) 0); [lia|done]. }
  rewrite Hrun. destruct k as [|b' k].
  - cbn [app]. rewrite len_nil. rewrite app_nil_r in Hsm1.
    transitivity (run (busy (c1 <| small := [] |> <| stream_id := Some id |>)) rest).
    + apply run_settle. rewrite !settle_stream by done. cbn [stream_id c1].
      change (stream_id c1) with (stream_id c). rewrite Eid, Hsm1, (vw_read _ _ Hw).
      f_equal. unfold over. cbn. f_equal.
      subst w. by apply dropZ_all.
    + apply run_capsule_eq. unfold over. cbn. f_equal; lia.
  - rewrite (IH c1); try done.
    + apply run_capsule_eq. unfold over. cbn. f_equal. rewrite len_cons. lia.
    + split; cbn; [lia|]. pose proof (vw_bytes _ _ Hw) as Hwb.
      rewrite <- Hsm1 in Hwb. by apply Forall_app in Hwb as [? _].
    + cbn. lia.
Qed.

(** A complete capsule that is not a stream capsule. *)
Lemma absorb_other kd w1 w2 payload event k :
  varint_wire kd w1 → varint_wire (len payload) w2 →
  Forall is_byte payload → is_varint (len payload) →
  header_discard kd (len payload) = Ok false →
  is_stream (mkCapsule kd 0 payload None false false) = false →
  capsule_event (mkCapsule kd 0 payload None false false) = Ok event →
  absorb_all Decoder_default ((w1 ++ w2) ++ payload ++ k)
  = prepend [TEvent event] (absorb_all Decoder_default k).
Proof.
  intros H1 H2 Hb Hl Hd Hs He. set (c := mkCapsule kd (len payload) [] None false false).
  rewrite (absorb_header kd w1 w2 (len payload) c); [|done..|by unfold open_capsule; rewrite Hd].
  rewrite run_other_data; [|done| |done|cbn; lia].
  2: { split; cbn; [|constructor]. unfold is_varint, VARINT_MAX in Hl.
       rewrite U64_MAX_val. lia. }
  subst c. unfold over. cbn [kind remaining small stream_id started discard].
  rewrite Z.sub_diag, app_nil_l. unfold run, resume. cbn [capsule].
  unfold settle. rewrite Hs. cbn [remaining discard Z.eqb negb]. rewrite He. done.
Qed.

Lemma encode_wires kd payload :
  is_varint kd → is_varint (len payload) →
  ∃ w1 w2, varint_wire kd w1 ∧ varint_wire (len payload) w2 ∧
    encode kd payload = Ok ((w1 ++ w2) ++ payload).
Proof.
  intros Hk Hl. destruct (varint_wire_exists kd Hk) as [w1 H1].
  destruct (varint_wire_exists _ Hl) as [w2 H2]. exists w1, w2. split_and!; [done..|].
  unfold encode. rewrite (vw_put _ _ H1). cbn. by rewrite (vw_put _ _ H2).
Qed.

(** The values of a control capsule read back. *)
Lemma put_varints_read values :
  Forall is_varint values →
  ∃ ws, (∀ out, put_varints out values = Ok (out ++ ws)) ∧ Forall is_byte ws
    ∧ len ws ≤ 8 * len values ∧ read_values (length values) ws = Ok (values, []).
Proof.
  induction 1 as [|v vs Hv Hvs (ws & Hp & Hb & Hl & Hr)].
  { exists []. split_and!; [|done..]. intros out. by rewrite app_nil_r. }
  destruct (varint_wire_exists v Hv) as [w Hw]. exists (w ++ ws).
  pose proof (vw_len _ _ Hw). split_and!.
  - intros out. cbn. rewrite (vw_put _ _ Hw). cbn. rewrite Hp. by rewrite app_assoc.
  - apply Forall_app; split; [apply Hw|done].
  - rewrite len_app, len_cons. lia.
  - cbn. rewrite (read_varint_app w ws v (len w)); [|apply Forall_app; split; [apply Hw|done]|apply Hw].
    cbn. rewrite dropZ_app_len, Hr. done.
Qed.

Lemma control_values_cases kd n :
  control_values kd = Some n →
  n ≤ 3 ∧ is_varint kd ∧ kd ≠ STREAM ∧ kd ≠ STREAM_FIN ∧ kd ≠ DATAGRAM
  ∧ kd ≠ CLOSE_SESSION ∧ kd ≠ DRAIN_SESSION.
Proof.
  unfold control_values. intros Hc.
  assert (kd ∈ [RESET_STREAM; STOP_SENDING; MAX_STREAM_DATA; STREAM_DATA_BLOCKED; MAX_DATA;
                MAX_STREAMS_BIDI; MAX_STREAMS_UNI; DATA_BLOCKED; STREAMS_BLOCKED_BIDI;
                STREAMS_BLOCKED_UNI] ∧ n ≤ 3) as [Hk Hn].
  { repeat match type of Hc with context [kd =? ?x] =>
      destruct (Z.eqb_spec kd x) as [->|]; [split; [set_solver|cbn in Hc; simplify_eq; lia]|]
    end. done. }
  split; [done|]. rewrite !elem_of_cons in Hk. unfold is_varint.
  destruct_or? Hk; try set_solver; subst; vm_compute; intuition congruence.
Qed.

Lemma boundary_below_ok reason e :
  is_char_boundary reason (boundary_below reason e) = true
  ∧ (boundary_below reason e ≤ e)%nat.
Proof.
  induction e as [|e IH]; cbn [boundary_below]; [done|].
  destruct (is_char_boundary reason (S e)) eqn:E; [done|]. split; [apply IH|].
  destruct IH. lia.
Qed.

Lemma close_reason_ok reason :
  utf8_valid reason = true →
  utf8_valid (close_reason reason) = true ∧ len (close_reason reason) ≤ MAX_CLOSE_REASON.
Proof.
  intros Hv. unfold close_reason.
  destruct (boundary_below_ok reason (Z.to_nat (Z.min (len reason) MAX_CLOSE_REASON)))
    as [Hb Hle].
  split; [by apply utf8_take_boundary|]. unfold len at 1. rewrite length_take.
  unfold MAX_CLOSE_REASON, len in *. lia.
Qed.

Lemma stream_roundtrip id data fin :
  sendable (MStream id data fin) →
  ∃ wire, stream id data fin = Ok wire ∧ Forall is_byte wire ∧
    ∀ k, absorb_all Decoder_default (wire ++ k)
         = prepend (message_tokens (MStream id data fin)) (absorb_all Decoder_default k).
Proof.
  intros (Hid & Hb & Hl). destruct (varint_wire_exists id Hid) as [w Hw].
  pose proof (vw_len _ _ Hw) as Hwl. pose proof (len_nonneg data).
  set (kd := if fin then STREAM_FIN else STREAM).
  destruct (encode_wires kd (w ++ data)) as (w1 & w2 & H1 & H2 & He).
  { subst kd. by destruct fin. }
  { split; rewrite len_app; lia. }
  exists ((w1 ++ w2) ++ w ++ data). split_and!.
  - unfold stream. rewrite (vw_put _ _ Hw). cbn. exact He.
  - rewrite !Forall_app. split_and!; try done; [apply H1|apply H2|apply Hw].
  - intros k. set (c := mkCapsule kd (len (w ++ data)) [] None false false).
    assert (is_stream c = true) as Hs by (subst c kd; by destruct fin).
    rewrite <- !app_assoc, (app_assoc w1).
    rewrite (absorb_header kd w1 w2 (len (w ++ data)) c); [|done..|].
    2: { subst kd c. by destruct fin. }
    assert (wf_capsule c) as Hwc.
    { split; cbn; [|constructor]. rewrite len_app. unfold VARINT_MAX in Hl.
      rewrite U64_MAX_val. lia. }
    rewrite (run_stream_id id w) by
      (done || (subst c; cbn [remaining]; rewrite ?len_app; lia) ||
       (intros ->; rewrite len_nil in Hwl; lia)).
    set (c1 := c <| small := [] |> <| stream_id := Some id |> <| remaining := _ |>).
    assert (remaining c1 = len data) as Hr1.
    { subst c1 c. cbn. rewrite len_app. lia. }
    assert (wf_capsule c1) as Hwc1.
    { split; [rewrite Hr1, U64_MAX_val; unfold VARINT_MAX in Hl; lia|constructor]. }
    destruct data as [|b data].
    + cbn [app]. unfold run, resume. cbn [capsule]. rewrite settle_stream by done.
      unfold settle_known. cbn [stream_id c1 over]. rewrite Hr1.
      cbn. subst kd. by destruct fin.
    + rewrite (run_stream_data _ c1 id) by (done || lia).
      rewrite Hr1, Z.sub_diag. cbn [Z.eqb]. rewrite run_idle. subst c1 c kd. by destruct fin.
Qed.

Lemma other_roundtrip kd payload event :
  is_varint kd → Forall is_byte payload → is_varint (len payload) →
  header_discard kd (len payload) = Ok false →
  is_stream (mkCapsule kd 0 payload None false false) = false →
  capsule_event (mkCapsule kd 0 payload None false false) = Ok event →
  ∃ wire, encode kd payload = Ok wire ∧ Forall is_byte wire ∧
    ∀ k, absorb_all Decoder_default (wire ++ k)
         = prepend [TEvent event] (absorb_all Decoder_default k).
Proof.
  intros Hk Hb Hl Hd Hs He. destruct (encode_wires kd payload) as (w1 & w2 & H1 & H2 & Hw);
    [done..|]. exists ((w1 ++ w2) ++ payload). split_and!; [done| |].
  - rewrite !Forall_app. split_and!; try done; [apply H1|apply H2].
  - intros k. rewrite <- app_assoc. by apply (absorb_other kd).
Qed.

Lemma control_roundtrip kd values :
  sendable (MControl kd values) →
  ∃ wire, control kd values = Ok wire ∧ Forall is_byte wire ∧
    ∀ k, absorb_all Decoder_default (wire ++ k)
         = prepend [TEvent (EControl kd values)] (absorb_all Decoder_default k).
Proof.
  intros [Hc Hv]. destruct (put_varints_read values Hv) as (ws & Hp & Hb & Hl & Hr).
  pose proof (control_values_cases _ _ Hc) as (Hn & Hk & Hk1%Z.eqb_neq & Hk2%Z.eqb_neq
    & Hk3%Z.eqb_neq & Hk4%Z.eqb_neq & Hk5%Z.eqb_neq).
  unfold control. rewrite Hp. cbn [mbind result_bind app].
  pose proof (len_nonneg ws). apply other_roundtrip; try done.
  - unfold is_varint, VARINT_MAX. lia.
  - unfold header_discard. rewrite Hc, Hk1, Hk2, Hk3, Hk4, Hk5. cbn [is_some orb].
    destruct (Z.ltb_spec 24 (len ws)); [lia|done].
  - unfold is_stream. cbn [kind]. by rewrite Hk1, Hk2.
  - unfold capsule_event. cbn [kind small]. rewrite Hk3, Hk4, Hk5.
    rewrite Hc. cbn [ok_or mbind result_bind]. unfold len. rewrite Nat2Z.id, Hr. done.
Qed.

Lemma message_roundtrip m :
  sendable m →
  ∃ wire, message_wire m = Ok wire ∧ Forall is_byte wire ∧
    ∀ k, absorb_all Decoder_default (wire ++ k)
         = prepend (message_tokens m) (absorb_all Decoder_default k).
Proof.
  destruct m as [id data fin|kd values|data|code reason|]; cbn [message_wire message_tokens].
  - apply stream_roundtrip.
  - apply control_roundtrip.
  - intros [Hb Hl]. pose proof (len_nonneg data). unfold MAX_DATAGRAM in Hl.
    apply other_roundtrip; try done.
    + unfold is_varint, VARINT_MAX. lia.
    + unfold header_discard, MAX_DATAGRAM. cbn.
      destruct (Z.ltb_spec 65535 (len data)); [lia|done].
  - intros (Hc & Hb & Hv). unfold close. rewrite Hv. cbn [negb].
    fold (close_reason reason). destruct (close_reason_ok reason Hv) as [Hrv Hrl].
    pose proof (len_nonneg (close_reason reason)).
    assert (len (be_bytes 4 code ++ close_reason reason) = 4 + len (close_reason reason))
      as Hlen by (by rewrite len_app). unfold MAX_CLOSE_REASON in Hrl.
    apply other_roundtrip; try done.
    + apply Forall_app. split; [apply be_bytes_is_byte|]. by apply Forall_take.
    + rewrite Hlen. unfold is_varint, VARINT_MAX. lia.
    + rewrite Hlen. unfold header_discard, MAX_CLOSE_REASON. cbn -[Z.leb].
      destruct (Z.leb_spec 4 (4 + len (close_reason reason))); [|lia].
      by destruct (Z.leb_spec (4 + len (close_reason reason)) (4 + 1024)); [|lia].
    + unfold capsule_event. cbn [kind small].
      change (CLOSE_SESSION =? DATAGRAM) with false.
      change (CLOSE_SESSION =? DRAIN_SESSION) with false. rewrite Z.eqb_refl.
      change 4 with (len (be_bytes 4 code)) at 1 2.
      rewrite takeZ_app_len, dropZ_app_len, Hrv.
      do 2 f_equal. rewrite be_fold_be_bytes. cbn. apply Z.mod_small.
      unfold is_u32 in Hc. rewrite U32_MAX_val in Hc. lia.
  - intros _. unfold control. cbn [put_varints mbind result_bind].
    by apply other_roundtrip.
Qed.

Fixpoint messages_wire (ms : list Message) : result io_error (list bytes) :=
  match ms with
  | [] => Ok []
  | m :: ms =>
      wire ← message_wire m;
      wires ← messages_wire ms;
      Ok (wire :: wires)
  end.

Lemma messages_absorb ms :
  Forall sendable ms →
  ∃ wires, messages_wire ms = Ok wires ∧ Forall (Forall is_byte) wires ∧
    absorb_all Decoder_default (concat wires)
    = (concat (map message_tokens ms), Ok Decoder_default).
Proof.
  induction 1 as [|m ms Hm Hms (wires & Hw & Hb & Ha)]; [by exists []|].
  destruct (message_roundtrip m Hm) as (wire & Hwire & Hwb & Habs).
  exists (wire :: wires). cbn [messages_wire]. rewrite Hwire. cbn. rewrite Hw.
  split_and!; [done|by constructor|]. rewrite Habs, Ha. done.
Qed.

(** ** Theorems *)

(** C18 (refinement).  Whatever the fragments of the carrier stream, the
    decoder's loops terminate and deliver, token by token, exactly what the
    octet automaton delivers on the whole stream, and end in its outcome: the
    same decoder state or the same error. *)
Theorem decoder_refines_automaton parts :
  Forall (Forall is_byte) parts →
  ∃ es r, decode_fragments Decoder_default parts = Some (es, r) ∧
    absorb_all Decoder_default (concat parts) = (tokens es, r).
Proof. intros Hp. by apply decode_fragments_run; [apply wf_default| |]. Qed.

Lemma decoder_refines_automaton_witness :
  ∃ es r, decode_fragments Decoder_default [[0]; [2; 7]; [8; 0]] = Some (es, r) ∧
    absorb_all Decoder_default [0; 2; 7; 8; 0] = (tokens es, r).
Proof.
  apply (decoder_refines_automaton [[0]; [2; 7]; [8; 0]]).
  repeat constructor; unfold is_byte; lia.
Defined.

(** Two fragmentations of the same octets deliver the same
    stream data, the same stream starts and ends and the same other events, in
    the same order, and end in the same decoder state or error. *)
Theorem fragmentation_irrelevant parts parts' :
  Forall (Forall is_byte) parts → Forall (Forall is_byte) parts' →
  concat parts = concat parts' →
  ∃ es es' r, decode_fragments Decoder_default parts = Some (es, r) ∧
    decode_fragments Decoder_default parts' = Some (es', r) ∧ tokens es = tokens es'.
Proof.
  intros Hp Hp' Hc.
  destruct (decode_fragments_run parts Decoder_default) as (es & r & He & Hr);
    [apply wf_default|done|done|].
  destruct (decode_fragments_run parts' Decoder_default) as (es' & r' & He' & Hr');
    [apply wf_default|done|done|].
  rewrite Hc, Hr' in Hr. simplify_eq. by exists es, es', r.
Qed.

Lemma fragmentation_irrelevant_witness :
  ∃ es es' r, decode_fragments Decoder_default [[0; 2; 7]; [8]] = Some (es, r) ∧
    decode_fragments Decoder_default [[0]; [2]; [7; 8]] = Some (es', r) ∧
    tokens es = tokens es'.
Proof.
  apply (fragmentation_irrelevant [[0; 2; 7]; [8]] [[0]; [2]; [7; 8]]);
    [repeat constructor; unfold is_byte; lia..|reflexivity].
Defined.

(** Any sequence of messages a session may send encodes; and
    however the carrier cuts the octets, the peer's decoder delivers exactly
    those messages and is left clean, so the stream may end there. *)
Theorem messages_decode_back ms :
  Forall sendable ms →
  ∃ wires, messages_wire ms = Ok wires ∧
    ∀ parts, concat parts = concat wires →
      ∃ es d, decode_fragments Decoder_default parts = Some (es, Ok d) ∧
        tokens es = concat (map message_tokens ms) ∧ decoder_finish d = Ok tt.
Proof.
  intros Hms. destruct (messages_absorb ms Hms) as (wires & Hw & Hb & Ha).
  exists wires. split; [done|]. intros parts Hc.
  assert (Forall (Forall is_byte) parts) as Hp.
  { apply Forall_concat. rewrite Hc. by apply Forall_concat. }
  destruct (decode_fragments_run parts Decoder_default) as (es & r & He & Hr);
    [apply wf_default|done|done|].
  rewrite Hc, Ha in Hr. simplify_eq. by exists es, Decoder_default.
Qed.

Lemma messages_decode_back_witness :
  ∃ wires, messages_wire [MStream 70 [1; 2] true; MControl MAX_DATA [17]] = Ok wires ∧
    ∀ parts, concat parts = concat wires →
      ∃ es d, decode_fragments Decoder_default parts = Some (es, Ok d) ∧
        tokens es = [TStart 70; TByte 70 1; TByte 70 2; TFin 70;
                     TEvent (EControl MAX_DATA [17])] ∧ decoder_finish d = Ok tt.
Proof.
  apply (messages_decode_back [MStream 70 [1; 2] true; MControl MAX_DATA [17]]).
  repeat constructor; unfold is_varint, is_byte, VARINT_MAX, len; cbn; lia.
Defined.

(** The four integer widths: every value up to [VARINT_MAX]
    is appended as one to eight octets that read back as that value whatever
    follows, and no proper prefix of them is taken for an integer; larger
    values are refused without writing. *)
Theorem varint_roundtrip out v :
  0 ≤ v →
  (v ≤ VARINT_MAX →
     ∃ w, put_varint out v = Ok (out ++ w) ∧ 1 ≤ len w ≤ 8 ∧
       (∀ k, Forall is_byte k → read_varint (w ++ k) = Some (v, len w)) ∧
       (∀ p k, w = p ++ k → k ≠ [] → read_varint p = None)) ∧
  (VARINT_MAX < v → put_varint out v = Err (invalid "WebTransport integer overflow")).
Proof.
  intros Hv. split; [|apply put_varint_too_large]. intros Hm.
  destruct (varint_wire_exists v ltac:(lia)) as [w Hw]. exists w.
  split; [apply Hw|]. split; [apply Hw|]. split.
  - intros k Hk. apply read_varint_app; [|apply Hw].
    apply Forall_app; split; [apply Hw|done].
  - intros p k. by apply (varint_wire_prefix v).
Qed.

Lemma varint_roundtrip_witness :
  ∃ w, put_varint [9] 16384 = Ok ([9] ++ w) ∧ 1 ≤ len w ≤ 8 ∧
    (∀ k, Forall is_byte k → read_varint (w ++ k) = Some (16384, len w)) ∧
    (∀ p k, w = p ++ k → k ≠ [] → read_varint p = None).
Proof. apply (varint_roundtrip [9] 16384); [lia|unfold VARINT_MAX; lia]. Defined.
