(* ===== verification/WtCodecBounds.v ===== *)
(** * What the capsule decoder retains and delivers is bounded

    [Decoder] keeps at most one capsule's worth of octets between calls, and
    every event it yields is within the limits of [codec.rs]: stream data in
    pieces of at most [QUANTUM], datagrams of at most [MAX_DATAGRAM], close
    reasons of at most [MAX_CLOSE_REASON] octets of valid UTF-8. *)

From S2P Require Import Prelude Bytes WtCodec WtCodecSpec.

Definition bounded_event (e : Event) : Prop :=
  match e with
  | EStream id data _ _ => is_varint id ∧ len data ≤ QUANTUM
  | EControl kind values => control_values kind = Some (len values) ∧ Forall is_varint values
  | EDatagram data => len data ≤ MAX_DATAGRAM
  | EClose code reason =>
      is_u32 code ∧ utf8_valid reason = true ∧ len reason ≤ MAX_CLOSE_REASON
  | EDrain => True
  end.

(** The octets held between two calls. *)
Definition retained (d : Decoder) : Z :=
  len (header d) + match capsule d with Some c => len (small c) | None => 0 end.

(** The longest value of a capsule that is kept whole. *)
Definition value_limit (kd : Z) : Z :=
  if kd =? DATAGRAM then MAX_DATAGRAM
  else if kd =? CLOSE_SESSION then 4 + MAX_CLOSE_REASON
  else 24.

Definition lean_capsule (c : Capsule) : Prop :=
  if is_stream c then len (small c) ≤ 8 ∧ ∀ id, stream_id c = Some id → is_varint id
  else if discard c then small c = []
  else len (small c) + remaining c ≤ value_limit (kind c)
       ∧ (kind c = CLOSE_SESSION → 4 ≤ len (small c) + remaining c).

Definition lean (d : Decoder) : Prop :=
  match capsule d with
  | Some c => lean_capsule c
  | None => True
  end.

Lemma open_capsule_lean kd l c :
  0 ≤ l → open_capsule kd l = Ok c → lean_capsule c ∧ remaining c = l ∧ small c = []
    ∧ kind c = kd.
Proof.
  unfold open_capsule. intros Hl.
  destruct (header_discard kd l) as [di|] eqn:E; cbn; [|done]. intros ?; simplify_eq.
  split; [|done]. unfold lean_capsule, is_stream. cbn [kind small remaining discard stream_id].
  rewrite len_nil, Z.add_0_l. unfold header_discard in E.
  destruct ((kd =? STREAM) || (kd =? STREAM_FIN)); [split; [lia|done]|].
  unfold value_limit. destruct (Z.eqb_spec kd DATAGRAM) as [->|].
  { simplify_eq. destruct (Z.ltb_spec MAX_DATAGRAM l); [done|]. split; [lia|done]. }
  destruct (Z.eqb_spec kd CLOSE_SESSION) as [->|].
  { destruct (Z.leb_spec 4 l), (Z.leb_spec l (4 + MAX_CLOSE_REASON)); cbn in E;
      simplify_eq. lia. }
  destruct (Z.eqb_spec kd DRAIN_SESSION) as [->|].
  { destruct (Z.eqb_spec l 0); cbn in E; simplify_eq. split; [lia|done]. }
  destruct (is_some (control_values kd)).
  { destruct (Z.ltb_spec 24 l); simplify_eq. split; [lia|done]. }
  destruct (kd =? PADDING); simplify_eq; done.
Qed.

Lemma read_values_length n : ∀ l vs rest,
  Forall is_byte l → read_values n l = Ok (vs, rest) →
  length vs = n ∧ Forall is_varint vs.
Proof.
  induction n as [|n IH]; intros l vs rest Hb; cbn; [intros; by simplify_eq|].
  destruct (read_varint l) as [[v s]|] eqn:Ev; cbn; [|done].
  destruct (read_values n (dropZ s l)) as [[vs' rest']|] eqn:E; cbn; [|done].
  intros ?; simplify_eq. apply IH in E as [<- ?]; [|by apply Forall_drop].
  split; [done|]. constructor; [by eapply read_varint_value|done].
Qed.

Lemma capsule_event_bounded c event :
  is_stream c = false → discard c = false → wf_capsule c → lean_capsule c →
  remaining c = 0 → capsule_event c = Ok event → bounded_event event.
Proof.
  intros Hs Hd [_ Hb] Hlean Hr. unfold lean_capsule in Hlean.
  rewrite Hs, Hd, Hr, Z.add_0_r in Hlean. destruct Hlean as [Hl Hcl].
  unfold value_limit in Hl. unfold capsule_event.
  destruct (Z.eqb_spec (kind c) DATAGRAM); [intros ?; by simplify_eq|].
  destruct (Z.eqb_spec (kind c) DRAIN_SESSION); [intros ?; by simplify_eq|].
  destruct (Z.eqb_spec (kind c) CLOSE_SESSION) as [E|].
  { specialize (Hcl E). destruct (utf8_valid _) eqn:Ev; [|done].
    intros ?; simplify_eq. cbn [bounded_event]. split_and!; [|done|].
    - pose proof (be_fold_bound (takeZ 4 (small c)) 0 ltac:(by apply Forall_take)
        ltac:(lia)) as Hf. rewrite len_takeZ in Hf by lia.
      unfold is_u32. rewrite U32_MAX_val. change (2 ^ (8 * 4)) with 4294967296 in Hf. lia.
    - rewrite len_dropZ by lia. lia. }
  destruct (control_values (kind c)) as [cnt|] eqn:En; cbn [ok_or mbind result_bind]; [|done].
  destruct (read_values (Z.to_nat cnt) (small c)) as [[vs rest]|] eqn:Er; cbn; [|done].
  destruct (negb (is_empty rest)); [done|]. intros ?; simplify_eq. cbn [bounded_event].
  apply read_values_length in Er as [Er ?]; [|done]. split; [|done].
  rewrite En. f_equal. unfold len. rewrite Er.
  assert (0 ≤ cnt); [|lia]. unfold control_values in En. repeat case_match; simplify_eq; lia.
Qed.

Definition iteration_lean (it : iteration) : Prop :=
  lean it.2.1 ∧
  match it.1 with
  | Ok (Return (Some event)) => bounded_event event
  | _ => True
  end.

Lemma stream_id_loop_lean input : ∀ c,
  is_stream c = true → wf_capsule c → Forall is_byte input → lean_capsule c →
  let c' := (stream_id_loop c input).2.1 in
  lean_capsule c' ∧ is_stream c' = true ∧ wf_capsule c'.
Proof.
  induction input as [|b input IH]; intros c Hs Hw Hi Hl; cbn [stream_id_loop];
    (destruct (stream_id c) as [id|] eqn:Eid; [done|]);
    (destruct (read_varint (small c)) as [[id size]|] eqn:Ev);
    try (destruct (Z.eqb_spec (remaining c) 0) as [E0|E0]; [done|]); try done.
  1, 2: (assert (is_stream (c <| small ::= dropZ size |> <| stream_id := Some id |>) = true)
      as Hs' by done; cbn [fst snd]; split_and!; [|done|];
    [unfold lean_capsule in *; rewrite Hs'; rewrite Hs in Hl; destruct Hl as [Hl _];
     unfold over; cbn; split;
     [unfold len, dropZ in *; rewrite length_drop; lia
     |intros ? [= <-]; by eapply read_varint_value; [apply Hw|]]
    |destruct Hw; split; [done|by apply Forall_drop]]).
  apply Forall_cons in Hi as [Hb Hi]. pose proof Hw as [Hr Hsm]. apply IH; [done| |done|].
  - split; unfold over; cbn; [rewrite sub64_pred by lia; lia|].
    apply Forall_app; split; [done|by constructor].
  - set (c1 := c <| small ::= _ |> <| remaining ::= _ |>).
    unfold lean_capsule. change (is_stream c1) with (is_stream c). rewrite Hs.
    change (small c1) with (small c ++ [b]). rewrite len_app.
    apply read_varint_short in Ev; [|done]. change (len [b]) with 1.
    split; [lia|]. change (stream_id c1) with (stream_id c). by rewrite Eid.
Qed.

Lemma next_stream_lean c input :
  is_stream c = true → wf_capsule c → Forall is_byte input → lean_capsule c →
  iteration_lean (next_stream (busy c) c input).
Proof.
  intros Hs Hw Hi Hl. unfold next_stream.
  pose proof (stream_id_loop_lean input c Hs Hw Hi Hl) as Hloop.
  destruct (stream_id_loop c input) as [[[]|e] [c' input']];
    cbn [fst snd] in Hloop; destruct Hloop as (Hl' & Hs' & Hw'); try done.
  destruct (is_empty input' && negb (remaining c' =? 0)); [done|].
  unfold over. cbn [kind remaining small stream_id started discard].
  assert (Hlean : ∀ r st,
    lean_capsule (mkCapsule (kind c') r (small c') (stream_id c') st (discard c'))).
  { intros. unfold lean_capsule, is_stream in *. cbn. by rewrite Hs' in *. }
  assert (∀ id, stream_id c' = Some id → is_varint id) as Hid.
  { unfold lean_capsule in Hl'. rewrite Hs' in Hl'. apply Hl'. }
  destruct (stream_id c') as [id|]; [|split; [apply Hlean|done]].
  split; cbn [fst snd].
  - unfold lean. cbn [capsule]. destruct (sub64 _ _ =? 0); [done|apply Hlean].
  - unfold bounded_event. split; [by apply Hid|]. rewrite len_takeZ_min.
    + unfold QUANTUM. lia.
    + pose proof (wfc_remaining _ Hw'). pose proof (len_nonneg input'). unfold QUANTUM. lia.
Qed.

Lemma next_other_lean c input :
  is_stream c = false → wf_capsule c → Forall is_byte input → lean_capsule c →
  iteration_lean (next_other (busy c) c input).
Proof.
  intros Hs Hw Hi Hl. unfold next_other. pose proof (wfc_remaining _ Hw) as Hr.
  destruct (negb (remaining c =? 0) && is_empty input) eqn:Ee; [done|].
  set (count := Z.min (remaining c) (len input)).
  set (p := if negb (remaining c =? 0) then _ else _).
  assert (∃ c' input', p = (c', input') ∧ is_stream c' = false ∧ wf_capsule c'
    ∧ lean_capsule c') as (c' & input' & -> & Hs' & Hw' & Hl').
  { subst p. destruct (Z.eqb_spec (remaining c) 0) as [E|E]; cbn [negb]; [by exists c, input|].
    pose proof (len_nonneg input).
    assert (0 ≤ count ≤ remaining c ∧ count ≤ len input) as [Hc1 Hc2] by lia.
    assert (len (takeZ count input) = count) as Hlt by (apply len_takeZ; lia).
    eexists _, _. split; [reflexivity|]. destruct Hw as [_ Hsm].
    unfold lean_capsule in Hl. rewrite Hs in Hl.
    unfold over. cbn [discard]. destruct (discard c) eqn:Ed; cbn [negb]; split_and!; try done.
    - split; cbn; [rewrite sub64_pred by lia; lia|done].
    - unfold lean_capsule. change (is_stream _) with (is_stream c). rewrite Hs. cbn. by rewrite ?Ed.
    - split; cbn; [rewrite sub64_pred by lia; lia|].
      apply Forall_app; split; [done|by apply Forall_take].
    - unfold lean_capsule. change (is_stream _) with (is_stream c). rewrite Hs. cbn.
      rewrite ?Ed, len_app, Hlt, sub64_pred by lia.
      replace (len (small c) + count + (remaining c - count))
        with (len (small c) + remaining c) by lia. exact Hl. }
  destruct (Z.eqb_spec (remaining c') 0) as [E0|E0]; cbn [negb]; [|done].
  destruct (discard c') eqn:Ed; [done|].
  destruct (capsule_event c') as [event|e] eqn:Eev; [|done].
  split; [done|]. by eapply (capsule_event_bounded c').
Qed.

Lemma next_capsule_lean c input :
  wf_capsule c → Forall is_byte input → lean_capsule c →
  iteration_lean (next_capsule (busy c) c input).
Proof.
  intros. unfold next_capsule. fold (is_stream c).
  destruct (is_stream c) eqn:Es; [by apply next_stream_lean|by apply next_other_lean].
Qed.

Lemma next_iter_lean d input :
  wf d → Forall is_byte input → lean d → iteration_lean (next_iter d input).
Proof.
  intros Hd Hi Hl. unfold next_iter. destruct (capsule d) as [c|] eqn:Ec.
  { destruct Hd as [_ Hd]. unfold lean in Hl. rewrite Ec in *. destruct Hd as [Hh Hw].
    destruct d as [h cap]. cbn in *. subst. by apply next_capsule_lean. }
  destruct (parse_header (header d)) as [[[k l] n]|] eqn:Ep.
  - pose proof (parse_header_wf _ _ _ _ Hd Ec Ep) as [Hdrop Hlen].
    pose proof (parse_header_length _ _ _ _ (proj1 Hd) Ep) as Hll.
    destruct (open_capsule k l) as [c|e] eqn:Eo.
    2: { split; [|done]. unfold lean, over. cbn. by rewrite Ec. }
    assert (d <| header ::= dropZ n |> <| capsule := Some c |> = busy c) as ->.
    { unfold over. cbn. by rewrite Hdrop. }
    apply open_capsule_lean in Eo as (? & Hr & Hsm & _); [|lia].
    apply next_capsule_lean; [|done..]. split; [lia|]. rewrite Hsm. constructor.
  - unfold iteration_lean, lean. destruct input as [|b input]; [by cbn; rewrite Ec|].
    destruct (16 <=? len (header d)); cbn; unfold lean, over; cbn; by rewrite Ec.
Qed.

(** ** Whole carrier streams *)

Lemma next_fuel_lean fuel : ∀ d input r s,
  wf d → Forall is_byte input → lean d → next_fuel fuel d input = Some (r, s) →
  lean s.1 ∧ ∀ event, r = Ok (Some event) → bounded_event event.
Proof.
  induction fuel as [|fuel IH]; intros d input r s Hd Hi Hl; cbn [next_fuel]; [done|].
  pose proof (next_iter_lean d input Hd Hi Hl) as [Hl' Hev].
  pose proof (next_iter_sound d input Hd Hi) as Hs. unfold iter_sound in Hs.
  destruct (next_iter d input) as [[[|event]|e] [d' input']]; cbn [fst snd] in *.
  - destruct Hs as (_ & ? & ? & _). eauto.
  - intros ?; simplify_eq. split; [done|]. intros ev ?. by simplify_eq.
  - intros ?; simplify_eq. done.
Qed.

Lemma events_fuel_lean fuel : ∀ d input es r,
  wf d → Forall is_byte input → lean d → events_fuel fuel d input = Some (es, r) →
  Forall bounded_event es ∧ ∀ d', r = Ok d' → lean d'.
Proof.
  induction fuel as [|fuel IH]; intros d input es r Hd Hi Hl; cbn [events_fuel]; [done|].
  destruct (next_fuel_sound (S (work d input)) d input) as (r1 & [d1 i1] & Hn & Hr);
    [done..|lia|].
  unfold next. rewrite Hn.
  pose proof (next_fuel_lean _ _ _ _ _ Hd Hi Hl Hn) as [Hl1 Hev].
  destruct r1 as [[event|]|e]; cbn [fst snd] in *.
  - destruct Hr as (_ & ? & ? & _).
    destruct (events_fuel fuel d1 i1) as [[es1 r1]|] eqn:E; [|done].
    intros ?; simplify_eq. destruct (IH d1 i1 es1 r) as [? ?]; [done..|].
    split; [|done]. constructor; [by apply Hev|done].
  - intros ?; simplify_eq. split; [constructor|]. intros d' ?. by simplify_eq.
  - intros ?; simplify_eq. split; [constructor|done].
Qed.

Lemma decode_fragments_lean parts : ∀ d es r,
  wf d → quiescent d → lean d → Forall (Forall is_byte) parts →
  decode_fragments d parts = Some (es, r) →
  Forall bounded_event es ∧ ∀ d', r = Ok d' → wf d' ∧ quiescent d' ∧ lean d'.
Proof.
  induction parts as [|part parts IH]; intros d es r Hd Hq Hl Hp; cbn [decode_fragments].
  { intros ?; simplify_eq. split; [constructor|]. intros d' ?. by simplify_eq. }
  apply Forall_cons in Hp as [Hp Hps].
  destruct (events_fuel_sound (S (work d part)) d part) as (es1 & r1 & He & _ & Hk);
    [done..|lia|].
  unfold decode_fragment. rewrite He.
  destruct (events_fuel_lean _ _ _ _ _ Hd Hp Hl He) as [Hb1 Hl1].
  destruct r1 as [d1|e]; [|by intros ?; simplify_eq].
  destruct (Hk d1) as [Hd1 Hq1]; [done|]. specialize (Hl1 d1 eq_refl).
  destruct (decode_fragments d1 parts) as [[es2 r2]|] eqn:E; [|done].
  intros ?; simplify_eq. destruct (IH d1 es2 r) as [? ?]; [done..|].
  split; [by apply Forall_app|done].
Qed.

Lemma quiescent_retained d :
  wf d → quiescent d → lean d → retained d ≤ MAX_DATAGRAM.
Proof.
  intros [Hb Hd] Hq Hl. unfold retained, lean, quiescent, resume in *.
  destruct (capsule d) as [c|] eqn:Ec.
  - destruct Hd as [-> [Hr _]]. rewrite len_nil, Z.add_0_l. unfold lean_capsule in Hl.
    unfold MAX_DATAGRAM. destruct (is_stream c); [destruct Hl; lia|].
    destruct (discard c); [rewrite Hl, len_nil; lia|]. destruct Hl as [Hl _].
    unfold value_limit, MAX_DATAGRAM, MAX_CLOSE_REASON in Hl.
    destruct (kind c =? DATAGRAM), (kind c =? CLOSE_SESSION); lia.
  - destruct (parse_header (header d)) as [[[k l] n]|] eqn:Ep.
    + exfalso. destruct (open_capsule k l) as [c|] eqn:Eo; [|done].
      pose proof (parse_header_wf d k l n) as Hpw.
      assert (len (header d) = 0) as Hz.
      { destruct d as [h cap]. cbn in *. subst. unfold settle, settle_known in Hq.
        repeat (case_match; simplify_eq/=; try done). }
      destruct Hpw; [by split; [|rewrite Ec]|done|done|]. lia.
    + apply parse_header_short in Ep; [|done]. unfold MAX_DATAGRAM. lia.
Qed.

(**  On any octets, in any fragmentation, every event is within
    its limit (stream data in pieces of at most 16 KiB, datagrams of at most
    65535 octets, close reasons of at most 1024 octets of valid UTF-8 with a
    32-bit code, control capsules with exactly the values of their kind, identifiers
    and values of at most 62 bits), and
    between fragments the decoder holds at most 65535 octets. *)
Theorem decoder_bounded parts :
  Forall (Forall is_byte) parts →
  ∃ es r, decode_fragments Decoder_default parts = Some (es, r) ∧
    Forall bounded_event es ∧ (∀ d, r = Ok d → retained d ≤ MAX_DATAGRAM).
Proof.
  intros Hp. destruct (decode_fragments_run parts Decoder_default) as (es & r & He & _);
    [apply wf_default|done|done|].
  destruct (decode_fragments_lean parts Decoder_default es r) as [Hb Hd];
    [apply wf_default|done..|].
  exists es, r. split; [done|]. split; [done|]. intros d ->.
  destruct (Hd d eq_refl) as (?&?&?). by apply quiescent_retained.
Qed.

Lemma decoder_bounded_witness :
  ∃ es r, decode_fragments Decoder_default [[0; 2; 7]; [8; 0]] = Some (es, r) ∧
    Forall bounded_event es ∧ (∀ d, r = Ok d → retained d ≤ MAX_DATAGRAM).
Proof.
  apply (decoder_bounded [[0; 2; 7]; [8; 0]]). repeat constructor; unfold is_byte; lia.
Defined.
