(* ===== verification/WtState.v ===== *)
(** * WebTransport session state

    [src/source/src/webtransport/session.rs] and [budget.rs]: the shared
    [State] of one CONNECT session with its credit ledgers, the helpers every
    operation uses ([check], [wake_streams], [queue_control], [ready],
    [new_stream], [reap]), the admission budget, session start, and the
    session handle's operations.

    Methods run under the session mutex, so each is one atomic step on
    [Shared].  Wake-ups of tasks and notifications do not change the state;
    they are logged in [signals] in the order they are raised.  The async
    methods poll in a loop and await a notification when they cannot proceed;
    [open], [accept], [read_datagram] and [closed] below are one iteration of
    those loops, [Pending] standing for the await. *)

From S2P Require Import Prelude Bytes WtCodec.

(** ** Fixed-size arrays *)

Definition at2 {A} (p : A * A) (k : Z) : A := if k =? 0 then p.1 else p.2.
Definition set2 {A} (k : Z) (v : A) (p : A * A) : A * A :=
  if k =? 0 then (v, p.2) else (p.1, v).
Definition at3 {A} (p : A * A * A) (k : Z) : A :=
  if k =? 0 then p.1.1 else if k =? 1 then p.1.2 else p.2.

(** ** Configuration *)

Inductive Role : Type := Client | Server.

Definition bit (r : Role) : Z :=
  match r with
  | Client => 0
  | Server => 1
  end.

Record H2WebTransportConfig : Type := mkConfig {
  max_concurrent_uni_streams : Z;
  max_concurrent_bidi_streams : Z;
  max_stream_buffer_bytes : Z;
  max_session_buffer_bytes : Z;
  max_total_buffer_bytes : Z;
}.

Definition H2WebTransportConfig_default : H2WebTransportConfig :=
  mkConfig 100 100 65536 1048576 67108864.

(** Conservative memory admission for both endpoints' live directions. *)
Definition session_reservation_bytes (c : H2WebTransportConfig) : option Z :=
  let uni := max_concurrent_uni_streams c in
  let bidi := max_concurrent_bidi_streams c in
  uni2 ← checked_mul64 uni 2;
  bidi4 ← checked_mul64 bidi 4;
  staging ← checked_add64 uni2 bidi4;
  staging ← checked_mul64 staging 16384;
  metadata ← checked_add64 uni bidi;
  metadata ← checked_mul64 metadata 2;
  metadata ← checked_mul64 metadata 1024;
  total ← checked_mul64 (max_session_buffer_bytes c) 2;
  total ← checked_add64 total staging;
  total ← checked_add64 total metadata;
  checked_add64 total 196608.

Definition config_validate (c : H2WebTransportConfig) : result string unit :=
  if negb ((0 <? max_concurrent_uni_streams c) && (0 <? max_concurrent_bidi_streams c))
  then Err "proxy.http2.webtransport stream limits must be positive"%string
  else if negb ((0 <? max_stream_buffer_bytes c)
             && (max_stream_buffer_bytes c <=? max_session_buffer_bytes c)
             && (max_session_buffer_bytes c <=? max_total_buffer_bytes c)
             && (max_total_buffer_bytes c <=? U32_MAX))
  then Err "proxy.http2.webtransport requires 0 < stream <= session <= total buffer bytes <= 4294967295"%string
  else if negb (match session_reservation_bytes c with
                | Some bytes => bytes <=? max_total_buffer_bytes c
                | None => false
                end)
  then Err "proxy.http2.webtransport total budget must hold both session directions, stream staging, and protocol overhead"%string
  else Ok tt.

Record SessionOptions : Type := mkOptions {
  role : Role;
  limits : H2WebTransportConfig;
  outbound_auxiliary_bytes : Z;
  receive_application : bool;
  peer_stream_limits : option (Z * Z * Z);
}.

Definition options_proxy (limits : H2WebTransportConfig) (role : Role) : SessionOptions :=
  mkOptions role limits 0 true None.

Definition options_admin (per_session total : Z) : SessionOptions :=
  let chunk := Z.max (Z.min per_session (16 * 1024) / 8) 1 in
  let auxiliary := saturating_mul64 chunk 3 in
  let payload := saturating_sub64 per_session auxiliary in
  mkOptions Server (mkConfig 1 0 payload payload total) auxiliary false None.

Definition outbound_chunk_bytes (o : SessionOptions) : Z :=
  outbound_auxiliary_bytes o / 3.

(** ** State *)

Abbreviation Waker := Z (only parsing).

Record StreamState : Type := mkStream {
  ss_input : list bytes;
  ss_input_staging : bytes;
  ss_input_bytes : Z;
  ss_output : list bytes;
  ss_output_staging : bytes;
  ss_output_bytes : Z;
  ss_received : Z;
  ss_consumed : Z;
  ss_sent : Z;
  ss_wire_sent : Z;
  ss_receive_max : Z;
  ss_send_max : Z;
  ss_receive_fin : bool;
  ss_receive_reset : option Z;
  ss_send_fin : bool;
  ss_fin_requested : bool;
  ss_reset_requested : option Z;
  ss_send_reset : option Z;
  ss_stop_sent : bool;
  ss_stop_received : bool;
  ss_stop_code : option Z;
  ss_ready : bool;
  ss_opened_on_wire : bool;
  ss_read_handle : bool;
  ss_write_handle : bool;
  ss_read_waker : option Waker;
  ss_write_waker : option Waker;
  ss_grant_pending : bool;
}.

#[export] Instance StreamState_eta : Eta StreamState := λ s,
  mkStream (ss_input s) (ss_input_staging s) (ss_input_bytes s) (ss_output s)
    (ss_output_staging s) (ss_output_bytes s) (ss_received s) (ss_consumed s)
    (ss_sent s) (ss_wire_sent s) (ss_receive_max s) (ss_send_max s)
    (ss_receive_fin s) (ss_receive_reset s) (ss_send_fin s) (ss_fin_requested s)
    (ss_reset_requested s) (ss_send_reset s) (ss_stop_sent s) (ss_stop_received s)
    (ss_stop_code s) (ss_ready s) (ss_opened_on_wire s) (ss_read_handle s)
    (ss_write_handle s) (ss_read_waker s) (ss_write_waker s) (ss_grant_pending s).

Record PendingStreamOutput : Type := mkPending {
  po_id : Z;
  po_bytes : bytes;
  po_fin : bool;
}.

Record Failure : Type := mkFailure {
  reset_code : Z;
  message : string;
}.

Definition failure_state (m : string) : Failure := mkFailure 1 m.
Definition failure_flow (m : string) : Failure := mkFailure 3 m.
Definition failure_resource (m : string) : Failure := mkFailure 11 m.
Definition failure_error (f : Failure) : io_error := invalid (message f).

Record State : Type := mkState {
  options : SessionOptions;
  streams : gmap Z StreamState;
  accepted : list Z * list Z;
  peer_opened : Z * Z;
  own_opened : Z * Z;
  peer_active : Z * Z;
  own_active : Z * Z;
  receive_max_streams : Z * Z;
  send_max_streams : Z * Z;
  initial_send_stream : Z * Z * Z;
  initial_receive_stream : Z * Z * Z;
  send_max_data : Z;
  sent : Z;
  receive_max_data : Z;
  received : Z;
  consumed : Z;
  queued_send : Z;
  controls : list bytes;
  send_datagram : option bytes;
  receive_datagram : option bytes;
  ready_streams : list Z;
  pending_output : option PendingStreamOutput;
  closing : option bytes;
  finish : bool;
  failure : option Failure;
  ended : bool;
  remote_close : option (Z * bytes);
  draining : bool;
  receive_grant_pending : bool;
  streams_grant_pending : bool * bool;
}.

#[export] Instance State_eta : Eta State := λ s,
  mkState (options s) (streams s) (accepted s) (peer_opened s) (own_opened s)
    (peer_active s) (own_active s) (receive_max_streams s) (send_max_streams s)
    (initial_send_stream s) (initial_receive_stream s) (send_max_data s) (sent s)
    (receive_max_data s) (received s) (consumed s) (queued_send s) (controls s)
    (send_datagram s) (receive_datagram s) (ready_streams s) (pending_output s)
    (closing s) (finish s) (failure s) (ended s) (remote_close s) (draining s)
    (receive_grant_pending s) (streams_grant_pending s).

Inductive Signal : Type :=
  | Wake (w : Waker)
  | NotifyChanged
  | NotifyOutput.

Record Shared : Type := mkShared {
  state : State;
  signals : list Signal;
}.

#[export] Instance Shared_eta : Eta Shared := λ sh, mkShared (state sh) (signals sh).

(** ** Atomic steps on the shared state *)

Abbreviation step E A := (stm Shared E A).

Definition get_state {E} : step E State := λ sh, (Ok (state sh), sh).
Definition update {E} (f : State → State) : step E unit :=
  modify (λ sh, sh <| state ::= f |>).
Definition raise_signals {E} (l : list Signal) : step E unit :=
  modify (λ sh, sh <| signals ::= λ k, k ++ l |>).

(** [if let Err(error) = m { handler }] *)
Definition on_error {E F} (m : step E unit) (handler : E → step F unit) : step F unit :=
  λ sh, match m sh with
        | (Ok _, sh) => (Ok tt, sh)
        | (Err e, sh) => handler e sh
        end.

(** [m.map_err(f)?] *)
Definition with_error {E F A} (f : E → F) (m : step E A) : step F A :=
  λ sh, match m sh with
        | (r, sh) => (map_err f r, sh)
        end.

(** [let _ = m;] *)
Definition ignore_result {E F A} (m : step E A) : step F unit :=
  λ sh, (Ok tt, (m sh).2).

(** A possibly absent waker that is taken and woken. *)
Definition waking (w : option Waker) : list Signal :=
  match w with
  | Some w => [Wake w]
  | None => []
  end.

(** [Shared::wake] *)
Definition shared_wake {E} : step E unit := raise_signals [NotifyChanged; NotifyOutput].

Definition notify_output {E} : step E unit := raise_signals [NotifyOutput].

Definition check : step io_error unit :=
  s ← get_state;
  match failure s with
  | Some f => throw (failure_error f)
  | None =>
      if ended s || finish s || is_some (closing s)
      then throw (ConnectionAborted "WebTransport session closed")
      else mret tt
  end.

Definition take_wakers (st : StreamState) : StreamState :=
  st <| ss_read_waker := None |> <| ss_write_waker := None |>.

(** Wakes every reader and writer; the map is walked in its own order. *)
Definition wake_streams {E} : step E unit :=
  s ← get_state;
  update (λ s, s <| streams ::= fmap take_wakers |>);;
  raise_signals (concat (map (λ p : Z * StreamState,
    waking (ss_read_waker p.2) ++ waking (ss_write_waker p.2)) (map_to_list (streams s)))).

(** [Shared::fail] *)
Definition fail {E} (f : Failure) : step E unit :=
  update (λ s, if is_some (failure s) then s else s <| failure := Some f |>);;
  wake_streams;;
  shared_wake.

Definition queue_control (kind : Z) (values : list Z) : step Failure unit :=
  s ← get_state;
  if 256 <=? len (controls s)
  then throw (failure_resource "WebTransport control queue full")
  else
    wire ← lift (map_err (λ _, failure_state "invalid control integer")
                   (control kind values));
    update (λ s, s <| controls ::= λ l, l ++ [wire] |>).

Definition mark_ready (id : Z) (s : State) : State :=
  match streams s !! id with
  | Some st =>
      if ss_ready st then s
      else s <| streams ::= <[id := st <| ss_ready := true |>]> |>
             <| ready_streams ::= λ l, l ++ [id] |>
  | None => s
  end.

Definition ready {E} (id : Z) : step E unit := update (mark_ready id).

Definition new_stream (s : State) (id : Z) (local : bool) : StreamState :=
  let uni := negb (Z.land id 2 =? 0) in
  let send_index := if uni then 0 else if local then 2 else 1 in
  let receive_index := if uni then 0 else if local then 1 else 2 in
  {| ss_input := []; ss_input_staging := []; ss_input_bytes := 0;
     ss_output := []; ss_output_staging := []; ss_output_bytes := 0;
     ss_received := 0; ss_consumed := 0; ss_sent := 0; ss_wire_sent := 0;
     ss_receive_max := at3 (initial_receive_stream s) receive_index;
     ss_send_max := at3 (initial_send_stream s) send_index;
     ss_receive_fin := uni && local;
     ss_receive_reset := None;
     ss_send_fin := uni && negb local;
     ss_fin_requested := false;
     ss_reset_requested := None;
     ss_send_reset := None;
     ss_stop_sent := false;
     ss_stop_received := false;
     ss_stop_code := None;
     ss_ready := false;
     ss_opened_on_wire := negb local;
     ss_read_handle := negb uni || negb local;
     ss_write_handle := negb uni || local;
     ss_read_waker := None;
     ss_write_waker := None;
     ss_grant_pending := false |}.

(** [((id & 2) >> 1) as usize]: 0 for bidirectional, 1 for unidirectional. *)
Definition stream_kind (id : Z) : Z := Z.shiftr (Z.land id 2) 1.

(** [id & 1 == self.options.role.bit()] *)
Definition is_own (s : State) (id : Z) : bool := Z.land id 1 =? bit (role (options s)).

(** Both directions have ended and no handle is left. *)
Definition stream_done (st : StreamState) : bool :=
  (ss_receive_fin st || is_some (ss_receive_reset st))
    && (ss_send_fin st || is_some (ss_send_reset st))
    && negb (ss_read_handle st) && negb (ss_write_handle st).

Definition reap (id : Z) : step Failure unit :=
  s ← get_state;
  if negb (match streams s !! id with Some st => stream_done st | None => false end)
  then mret tt
  else
    update (λ s, s <| streams ::= delete id |>);;
    let k := stream_kind id in
    if is_own s id then
      update (λ s, s <| own_active ::= λ p, set2 k (saturating_sub64 (at2 p k) 1) p |>)
    else
      update (λ s, s <| peer_active ::= λ p, set2 k (saturating_sub64 (at2 p k) 1) p |>);;
      match filter_opt (λ v, v <=? 2 ^ 60)
              (checked_add64 (at2 (receive_max_streams s) k) 1) with
      | None => throw (failure_flow "stream credit overflow")
      | Some v =>
          update (λ s, s <| receive_max_streams ::= set2 k v |>
                         <| streams_grant_pending ::= set2 k true |>)
      end.

(** ** Buffer budget *)

(** [Budget::reserve]: the new value of [used]; the reservation holds [bytes]. *)
Definition budget_reserve (used bytes ceiling : Z) : result io_error Z :=
  match filter_opt (λ next, next <=? ceiling) (checked_add64 used bytes) with
  | Some next => Ok next
  | None => Err (OtherError "WebTransport buffer capacity exhausted")
  end.

(** [Drop for Reservation] *)
Definition reservation_drop (used bytes : Z) : Z := sub64 used bytes.

(** The octets [Session::reserve] asks the budget for. *)
Definition reserve_bytes (o : SessionOptions) : result io_error Z :=
  if negb (receive_application o) then
    Ok (saturating_add64 (max_session_buffer_bytes (limits o)) (outbound_auxiliary_bytes o))
  else
    ok_or (session_reservation_bytes (limits o)) (invalid "session allocation overflow").

(** [Session::reserve]: the new [used] and the reserved octets. *)
Definition session_reserve (o : SessionOptions) (used : Z) : result io_error (Z * Z) :=
  bytes ← reserve_bytes o;
  used ← budget_reserve used bytes (max_total_buffer_bytes (limits o));
  Ok (used, bytes).

(** ** Session start *)

(** The WebTransport SETTINGS of a carrier endpoint. *)
Record WebTransportSettings : Type := mkSettings {
  enabled : bool;
  initial_max_data : option Z;
  initial_max_stream_data_uni : option Z;
  initial_max_stream_data_bidi_local : option Z;
  initial_max_stream_data_bidi_remote : option Z;
  initial_max_streams_uni : option Z;
  initial_max_streams_bidi : option Z;
}.

Definition or_zero (o : option Z) : Z := default 0 o.

Definition stream_settings (w : WebTransportSettings) : Z * Z * Z :=
  (or_zero (initial_max_stream_data_uni w),
   or_zero (initial_max_stream_data_bidi_local w),
   or_zero (initial_max_stream_data_bidi_remote w)).

Definition max3 (p q : Z * Z * Z) : Z * Z * Z :=
  (Z.max p.1.1 q.1.1, Z.max p.1.2 q.1.2, Z.max p.2 q.2).

(** The ledgers of a new session, before its first credit is announced. *)
Definition initial_state (o : SessionOptions) (peer local : WebTransportSettings) : State :=
  let receive_max_data :=
    if receive_application o then max_session_buffer_bytes (limits o) else 0 in
  let receive_max_streams :=
    if receive_application o
    then (max_concurrent_bidi_streams (limits o), max_concurrent_uni_streams (limits o))
    else (0, 0) in
  let initial_send_stream :=
    match peer_stream_limits o with
    | Some values => max3 (stream_settings peer) values
    | None => stream_settings peer
    end in
  {| options := o; streams := ∅; accepted := ([], []);
     peer_opened := (0, 0); own_opened := (0, 0);
     peer_active := (0, 0); own_active := (0, 0);
     receive_max_streams := receive_max_streams;
     send_max_streams := (or_zero (initial_max_streams_bidi peer),
                          or_zero (initial_max_streams_uni peer));
     initial_send_stream := initial_send_stream;
     initial_receive_stream := stream_settings local;
     send_max_data := or_zero (initial_max_data peer);
     sent := 0; receive_max_data := receive_max_data; received := 0; consumed := 0;
     queued_send := 0; controls := []; send_datagram := None; receive_datagram := None;
     ready_streams := []; pending_output := None; closing := None; finish := false;
     failure := None; ended := false; remote_close := None; draining := false;
     receive_grant_pending := false; streams_grant_pending := (false, false) |}.

(** The local SETTINGS promise no more credit than the session reserves. *)
Definition advertised_exceeds (o : SessionOptions) (local : WebTransportSettings)
    (s : State) : bool :=
  let '(u, bl, br) := initial_receive_stream s in
  let cap := max_stream_buffer_bytes (limits o) in
  (receive_max_data s <? or_zero (initial_max_data local))
    || ((receive_max_streams s).1 <? or_zero (initial_max_streams_bidi local))
    || ((receive_max_streams s).2 <? or_zero (initial_max_streams_uni local))
    || (cap <? u) || (cap <? bl) || (cap <? br).

Definition announce (kind value : Z) : step io_error unit :=
  if 0 <? value then with_error failure_error (queue_control kind [value]) else mret tt.

(** [Session::start_reserved]: the shared state handed to the driver. *)
Definition start_reserved (o : SessionOptions) (peer local : option WebTransportSettings)
    : result io_error Shared :=
  peer ← ok_or peer (invalid "missing peer WebTransport settings");
  local ← ok_or local (invalid "missing local WebTransport settings");
  let server_enabled :=
    match role o with Client => enabled peer | Server => enabled local end in
  if negb server_enabled then Err (invalid "server WebTransport SETTINGS are not enabled")
  else
    let s := initial_state o peer local in
    if advertised_exceeds o local s
    then Err (invalid "advertised WebTransport credit exceeds reservation")
    else
      let '(r, sh) :=
        (announce MAX_DATA (receive_max_data s);;
         announce MAX_STREAMS_BIDI (receive_max_streams s).1;;
         announce MAX_STREAMS_UNI (receive_max_streams s).2) (mkShared s []) in
      _ ← r; Ok sh.

(** ** Session handle *)

Definition concurrency_cap (s : State) (uni : bool) : Z :=
  if uni then max_concurrent_uni_streams (limits (options s))
  else max_concurrent_bidi_streams (limits (options s)).

(** One iteration of [Session::open]: the identifier of the new stream. *)
Definition open (uni : bool) : step io_error (poll Z) :=
  check;;
  s ← get_state;
  let k := if uni then 1 else 0 in
  if (at2 (own_opened s) k <? at2 (send_max_streams s) k)
     && (at2 (own_active s) k <? concurrency_cap s uni)
  then
    id ← lift (ok_or
      (filter_opt (λ n, n <=? VARINT_MAX)
        (n ← checked_mul64 (at2 (own_opened s) k) 4;
         checked_add64 n (bit (role (options s)) + if uni then 2 else 0)))
      (invalid "stream ID overflow"));
    update (λ s, s <| own_opened ::= λ p, set2 k (add64 (at2 p k) 1) p |>
                   <| own_active ::= λ p, set2 k (add64 (at2 p k) 1) p |>);;
    update (λ s,
      let st := new_stream s id true in
      let st := if negb uni then st <| ss_grant_pending := true |> else st in
      s <| streams ::= <[id := st]> |>);;
    ready id;;
    shared_wake;;
    mret (Ready id)
  else mret Pending.

(** One iteration of [Session::accept]. *)
Definition accept (uni : bool) : step io_error (poll Z) :=
  check;;
  s ← get_state;
  let k := if uni then 1 else 0 in
  match at2 (accepted s) k with
  | [] => mret Pending
  | id :: rest =>
      update (λ s, s <| accepted ::= set2 k rest |>);;
      mret (Ready id)
  end.

Definition session_send_datagram (payload : bytes) : step io_error unit :=
  if MAX_DATAGRAM <? len payload
  then throw (invalid "WebTransport datagram too large")
  else
    check;;
    update (λ s, if is_some (send_datagram s) then s
                 else s <| send_datagram := Some payload |>);;
    shared_wake.

(** One iteration of [Session::read_datagram]. *)
Definition read_datagram : step io_error (poll bytes) :=
  check;;
  s ← get_state;
  match receive_datagram s with
  | Some bytes =>
      update (λ s, s <| receive_datagram := None |>);;
      mret (Ready bytes)
  | None => mret Pending
  end.

Definition silent_close : step io_error unit :=
  fail (mkFailure 8 "WebTransport session cancelled").

Definition session_close (code : Z) (reason : bytes) : step io_error unit :=
  match close code reason with
  | Err _ => silent_close
  | Ok close =>
      s ← get_state;
      (if negb (ended s) && negb (is_some (closing s)) then
         update (λ s, s <| closing := Some close |>);;
         wake_streams
       else mret tt);;
      shared_wake
  end.

Definition session_drain : step io_error unit :=
  s ← get_state;
  (if negb (draining s) then
     update (λ s, s <| draining := true |>);;
     on_error (queue_control DRAIN_SESSION [])
       (λ error, update (λ s, s <| failure := Some error |>))
   else mret tt);;
  shared_wake.

(** One iteration of [Session::closed]. *)
Definition closed : step io_error (poll (Z * bytes)) :=
  s ← get_state;
  match remote_close s with
  | Some close => mret (Ready close)
  | None =>
      match failure s with
      | Some f => throw (failure_error f)
      | None => if ended s then mret (Ready (0, [])) else mret Pending
      end
  end.
