(* ===== verification/WtProtocol.v ===== *)
(** * WebTransport capsule transitions

    [src/source/src/webtransport/protocol.rs]: what a received capsule does to
    the session state.  Stream identifiers encode the opener in bit 0 and the
    direction in bit 1; a higher identifier implicitly opens the lower ones of
    its kind. *)

From S2P Require Import Prelude Bytes WtCodec WtState.

Definition put_stream {E} (id : Z) (st : StreamState) : step E unit :=
  update (λ s, s <| streams ::= <[id := st]> |>).

(** [streams.get_mut(&id).ok_or_else(..)?] *)
Definition live_stream {E} (id : Z) (e : E) : step E StreamState :=
  s ← get_state;
  lift (ok_or (streams s !! id) e).

(** [id & 2 != 0 && id & 1 != self.options.role.bit()] *)
Definition receive_only (s : State) (id : Z) : bool :=
  negb (Z.land id 2 =? 0) && negb (is_own s id).

(** One turn of the loop that opens the peer's streams in order. *)
Definition open_peer (k : Z) (s : State) (index : Z) : State :=
  let stream_id :=
    add64 (add64 (mul64 index 4) (1 - bit (role (options s)))) (k * 2) in
  let st := (new_stream s stream_id false) <| ss_grant_pending := true |> in
  s <| streams ::= <[stream_id := st]> |>
    <| accepted ::= λ p, set2 k (at2 p k ++ [stream_id]) p |>.

Definition peer_limit (s : State) (k : Z) : Z :=
  if k =? 1 then max_concurrent_uni_streams (limits (options s))
  else max_concurrent_bidi_streams (limits (options s)).

(** Whether [id] was unknown, after opening it for the peer if allowed. *)
Definition peer_stream (id : Z) : step Failure bool :=
  s ← get_state;
  if is_some (streams s !! id) then mret false
  else if is_own s id then throw (failure_state "peer referred to unopened local stream")
  else
    let k := stream_kind id in
    let count := add64 (id / 4) 1 in
    let opened := at2 (peer_opened s) k in
    if count <=? opened then throw (failure_state "peer reused a closed stream")
    else if at2 (receive_max_streams s) k <? count
    then throw (failure_flow "peer exceeded stream count credit")
    else
      let new := sub64 count opened in
      if negb (receive_application (options s))
         || (peer_limit s k <? saturating_add64 (at2 (peer_active s) k) new)
      then throw (failure_flow "peer exceeded concurrent stream budget")
      else
        update (λ s, foldl (open_peer k) s (seqZ opened (count - opened)));;
        update (λ s, s <| peer_opened ::= set2 k count |>
                       <| peer_active ::= λ p, set2 k (add64 (at2 p k) new) p |>);;
        mret true.

(** ** STREAM capsules *)

(** [stream.input.push_back(std::mem::take(&mut stream.input_staging).freeze())] *)
Definition seal_input (st : StreamState) : StreamState :=
  st <| ss_input ::= λ q, q ++ [ss_input_staging st] |> <| ss_input_staging := [] |>.

(** Coalescing of received octets into blocks of at most [QUANTUM]. *)
Definition store_input (data : bytes) (st : StreamState) : StreamState :=
  let st := st <| ss_input_bytes ::= λ n, add64 n (len data) |> in
  let st := if QUANTUM <? add64 (len (ss_input_staging st)) (len data)
            then seal_input st else st in
  let st := st <| ss_input_staging ::= λ b, b ++ data |> in
  if len (ss_input_staging st) =? QUANTUM then seal_input st else st.

(** The octets are dropped when the application stopped reading, and buffered
    otherwise. *)
Definition accept_data (id : Z) (data : bytes) : step Failure unit :=
  s ← get_state;
  st ← live_stream id (failure_state "missing stream state");
  if ss_stop_sent st then
    put_stream id (st <| ss_consumed ::= λ n, add64 n (len data) |>);;
    update (λ s, s <| consumed ::= λ n, add64 n (len data) |>
                   <| receive_grant_pending := true |>)
  else if negb (is_empty data) then
    if max_stream_buffer_bytes (limits (options s))
         <? saturating_add64 (ss_input_bytes st) (len data)
    then throw (failure_flow "stream receive storage exhausted")
    else put_stream id (store_input data st)
  else mret tt.

Definition wake_reader (id : Z) : step Failure unit :=
  st ← live_stream id (failure_state "missing stream state");
  put_stream id (st <| ss_read_waker := None |>);;
  raise_signals (waking (ss_read_waker st)).

Definition stream_received (id : Z) (data : bytes) (fin : bool) : step Failure unit :=
  peer_stream id;;
  s ← get_state;
  st ← live_stream id (failure_state "missing stream state");
  if ss_receive_fin st || is_some (ss_receive_reset st)
  then throw (failure_state "data after FIN/reset or on send-only stream")
  else
    received' ← lift (ok_or
      (filter_opt (λ v, v <=? ss_receive_max st) (checked_add64 (ss_received st) (len data)))
      (failure_flow "stream receive credit exceeded"));
    total ← lift (ok_or
      (filter_opt (λ v, v <=? receive_max_data s) (checked_add64 (received s) (len data)))
      (failure_flow "session receive credit exceeded"));
    put_stream id (st <| ss_received := received' |>);;
    update (λ s, s <| received := total |>);;
    accept_data id data;;
    (if fin then
       st ← live_stream id (failure_state "missing stream state");
       put_stream id (st <| ss_receive_fin := true |> <| ss_grant_pending := false |>)
     else mret tt);;
    wake_reader id;;
    reap id.

(** ** Control capsules *)

(** [values[i]]; the decoder yields every integer the capsule type has. *)
Definition value_at (values : list Z) (i : nat) : Z := nth i values 0.

(** [u32::try_from(value)] *)
Definition u32_of (value : Z) (e : Failure) : result Failure Z :=
  if value <=? U32_MAX then Ok value else Err e.

Definition max_data_received (value : Z) : step Failure unit :=
  s ← get_state;
  if value <? send_max_data s then throw (failure_flow "decreasing session send credit")
  else
    update (λ s, s <| send_max_data := value |>);;
    wake_streams.

Definition max_streams_received (k value : Z) : step Failure unit :=
  s ← get_state;
  if (value <? at2 (send_max_streams s) k) || (2 ^ 60 <? value)
  then throw (failure_flow "invalid cumulative stream credit")
  else update (λ s, s <| send_max_streams ::= set2 k value |>).

Definition reset_received (id code size : Z) : step Failure unit :=
  peer_stream id;;
  code ← lift (u32_of code (failure_state "application reset code exceeds u32"));
  st ← live_stream id (failure_state "reset unknown stream");
  if ss_receive_fin st || is_some (ss_receive_reset st) || negb (ss_received st =? size)
  then throw (failure_state "invalid stream reset state or reliable size")
  else
    put_stream id (st <| ss_receive_reset := Some code |> <| ss_grant_pending := false |>);;
    wake_reader id;;
    reap id.

(** Everything queued for the stream is dropped and a RESET is requested. *)
Definition discard_output (code : Z) (st : StreamState) : StreamState :=
  st <| ss_output := [] |> <| ss_output_staging := [] |> <| ss_output_bytes := 0 |>
     <| ss_sent := ss_wire_sent st |> <| ss_reset_requested := Some code |>.

Definition stop_received (id code : Z) : step Failure unit :=
  peer_stream id;;
  code ← lift (u32_of code (failure_state "application stop code exceeds u32"));
  s ← get_state;
  st ← live_stream id (failure_state "stop unknown stream");
  if ss_stop_received st || receive_only s id
  then throw (failure_state "duplicate stop or stop on receive-only stream")
  else
    let st' := st <| ss_stop_received := true |> <| ss_stop_code := Some code |>
                  <| ss_write_waker := None |> in
    put_stream id st';;
    raise_signals (waking (ss_write_waker st));;
    if negb (ss_send_fin st) && negb (is_some (ss_send_reset st)) then
      let discarded := ss_output_bytes st in
      put_stream id (discard_output code st');;
      update (λ s, s <| queued_send ::= λ n, sub64 n discarded |>
                     <| sent ::= λ n, sub64 n discarded |>);;
      ready id;;
      wake_streams
    else mret tt.

Definition max_stream_data_received (id value : Z) : step Failure unit :=
  s ← get_state;
  if receive_only s id then throw (failure_state "credit for receive-only stream")
  else
    let k := stream_kind id in
    let opened := if is_own s id then at2 (own_opened s) k else at2 (peer_opened s) k in
    if negb (is_some (streams s !! id)) && (id / 4 <? opened) then mret tt
    else
      peer_stream id;;
      st ← live_stream id (failure_state "credit for unknown stream");
      if ss_stop_received st || receive_only s id
      then throw (failure_state "credit for stopped/receive-only stream")
      else if value <? ss_send_max st then throw (failure_flow "decreasing stream credit")
      else
        put_stream id (st <| ss_send_max := value |> <| ss_write_waker := None |>);;
        raise_signals (waking (ss_write_waker st)).

Definition stream_data_blocked_received (id : Z) : step Failure unit :=
  peer_stream id;;
  st ← live_stream id (failure_state "blocked unknown stream");
  if ss_receive_fin st || is_some (ss_receive_reset st)
  then throw (failure_state "blocked signal after FIN/reset")
  else mret tt.

Definition control_received (kind : Z) (values : list Z) : step Failure unit :=
  let v := value_at values in
  if kind =? MAX_DATA then max_data_received (v 0%nat)
  else if (kind =? MAX_STREAMS_BIDI) || (kind =? MAX_STREAMS_UNI) then
    max_streams_received (if kind =? MAX_STREAMS_UNI then 1 else 0) (v 0%nat)
  else if kind =? RESET_STREAM then reset_received (v 0%nat) (v 1%nat) (v 2%nat)
  else if kind =? STOP_SENDING then stop_received (v 0%nat) (v 1%nat)
  else if kind =? MAX_STREAM_DATA then max_stream_data_received (v 0%nat) (v 1%nat)
  else if kind =? STREAM_DATA_BLOCKED then stream_data_blocked_received (v 0%nat)
  else if (kind =? STREAMS_BLOCKED_BIDI) || (kind =? STREAMS_BLOCKED_UNI) then
    if 2 ^ 60 <? v 0%nat then throw (failure_flow "invalid blocked stream count")
    else mret tt
  else if kind =? DATA_BLOCKED then mret tt
  else throw (failure_state "unexpected control capsule").

(** [State::receive] *)
Definition receive (event : Event) : step Failure unit :=
  s ← get_state;
  if finish s || is_some (remote_close s)
  then throw (failure_state "capsule after session close")
  else
    match event with
    | EStream id data fin _ => stream_received id data fin
    | EDatagram data =>
        update (λ s,
          if receive_application (options s) && negb (is_some (receive_datagram s))
          then s <| receive_datagram := Some data |> else s)
    | EClose code reason =>
        update (λ s, s <| remote_close := Some (code, reason) |> <| finish := true |>);;
        wake_streams
    | EDrain => update (λ s, s <| draining := true |>)
    | EControl kind values => control_received kind values
    end.
