(* ===== verification/WtStreams.v ===== *)
(** * WebTransport stream handles

    [src/source/src/webtransport/streams.rs]: the application's send and
    receive handles.  Each call locks the session once, except for the two
    [Drop] implementations, which lock it once for the cancellation and once
    for the bookkeeping; [cx] identifies the waker of the polling task. *)

From S2P Require Import Prelude Bytes WtCodec WtState WtProtocol.

(** [stream_reset_code] *)
Definition stream_reset_code (e : io_error) : option Z :=
  match e with
  | ConnectionReset code => Some code
  | _ => None
  end.

(** ** Send half *)

Definition send_reset_stream (id code : Z) : step io_error unit :=
  s ← get_state;
  match streams s !! id with
  | None => mret tt
  | Some st =>
      if ss_send_fin st || is_some (ss_send_reset st) || is_some (ss_reset_requested st)
      then mret tt
      else
        let discarded := ss_output_bytes st in
        put_stream id (discard_output code st);;
        update (λ s, s <| queued_send ::= λ n, saturating_sub64 n discarded |>
                       <| sent ::= λ n, saturating_sub64 n discarded |>);;
        ready id;;
        wake_streams;;
        shared_wake
  end.

Definition poll_stopped (id : Z) (cx : Waker) : step io_error (poll Z) :=
  check;;
  st ← live_stream id (invalid "unknown send stream");
  match ss_stop_code st with
  | Some code => mret (Ready code)
  | None =>
      put_stream id (st <| ss_write_waker := Some cx |>);;
      mret Pending
  end.

(** How many of [n] octets fit the block, the buffers and both credits. *)
Definition write_size (s : State) (st : StreamState) (n : Z) : Z :=
  let available_session :=
    saturating_sub64 (max_session_buffer_bytes (limits (options s))) (queued_send s) in
  let session_credit := saturating_sub64 (send_max_data s) (sent s) in
  let stream_cap := max_stream_buffer_bytes (limits (options s)) in
  let block_space := saturating_sub64 QUANTUM (len (ss_output_staging st)) in
  Z.min (Z.min (Z.min (Z.min (Z.min n block_space)
    (saturating_sub64 stream_cap (ss_output_bytes st)))
    available_session)
    (Z.min session_credit U64_MAX))
    (Z.min (saturating_sub64 (ss_send_max st) (ss_sent st)) U64_MAX).

Definition poll_write (id : Z) (cx : Waker) (bytes : bytes) : step io_error (poll Z) :=
  if is_empty bytes then mret (Ready 0)
  else
    check;;
    s ← get_state;
    st ← live_stream id (invalid "unknown send stream");
    if ss_send_fin st || ss_fin_requested st || is_some (ss_send_reset st)
       || is_some (ss_reset_requested st)
    then throw (BrokenPipe "WebTransport stream send side closed")
    else
      let size := write_size s st (len bytes) in
      if size =? 0 then
        put_stream id (st <| ss_write_waker := Some cx |>);;
        mret Pending
      else
        put_stream id
          (st <| ss_output_staging ::= λ b, b ++ takeZ size bytes |>
              <| ss_output_bytes ::= λ n, add64 n size |>
              <| ss_sent ::= λ n, add64 n size |>);;
        update (λ s, s <| sent ::= λ n, add64 n size |>
                       <| queued_send ::= λ n, add64 n size |>);;
        ready id;;
        notify_output;;
        mret (Ready size).

Definition poll_flush (id : Z) (cx : Waker) : step io_error (poll unit) :=
  check;;
  st ← live_stream id (invalid "unknown send stream");
  if is_some (ss_send_reset st) || is_some (ss_reset_requested st)
  then throw (BrokenPipe "WebTransport stream reset")
  else if ss_output_bytes st =? 0 then mret (Ready tt)
  else
    put_stream id (st <| ss_write_waker := Some cx |>);;
    mret Pending.

Definition poll_shutdown (id : Z) (cx : Waker) : step io_error (poll unit) :=
  check;;
  st ← live_stream id (invalid "unknown send stream");
  if ss_send_fin st then mret (Ready tt)
  else if is_some (ss_send_reset st) || is_some (ss_reset_requested st)
  then throw (BrokenPipe "WebTransport stream reset")
  else
    put_stream id (st <| ss_fin_requested := true |> <| ss_write_waker := Some cx |>);;
    ready id;;
    notify_output;;
    mret Pending.

(** The handle is gone: [release] clears its flag, and the stream is reaped
    if both halves are over. *)
Definition release_handle (id : Z) (release : StreamState → StreamState)
    : step io_error unit :=
  s ← get_state;
  match streams s !! id with
  | Some st => put_stream id (release st)
  | None => mret tt
  end;;
  on_error (reap id) (λ error, update (λ s, s <| failure := Some error |>));;
  shared_wake.

(** [Drop for SendStream]; [send_reset_stream id 0] runs first. *)
Definition send_release (id : Z) : step io_error unit :=
  release_handle id (λ st, st <| ss_write_handle := false |>).

Definition send_drop (id : Z) : step io_error unit :=
  ignore_result (send_reset_stream id 0);;
  send_release id.

(** ** Receive half *)

(** [RecvStream::reset_code] *)
Definition recv_reset_code (s : State) (id : Z) : option Z :=
  st ← streams s !! id;
  ss_receive_reset st.

Definition recv_stop (id code : Z) : step io_error unit :=
  s ← get_state;
  match streams s !! id with
  | None => mret tt
  | Some st =>
      let discarded := ss_input_bytes st in
      let send_stop :=
        negb (ss_receive_fin st) && negb (is_some (ss_receive_reset st))
          && negb (ss_stop_sent st) in
      let st := st <| ss_input := [] |> <| ss_input_staging := [] |>
                   <| ss_input_bytes := 0 |>
                   <| ss_consumed ::= λ n, add64 n discarded |> in
      let st := if send_stop then st <| ss_stop_sent := true |> else st in
      put_stream id (st <| ss_grant_pending := false |>);;
      update (λ s, s <| consumed ::= λ n, add64 n discarded |>
                     <| receive_grant_pending ::= λ b, b || (0 <? discarded) |>);;
      (if send_stop then with_error failure_error (queue_control STOP_SENDING [id; code])
       else mret tt);;
      shared_wake
  end.

(** The octets a read of at most [room] takes from the buffers: the front
    block if there is one, and the staging area otherwise. *)
Definition take_input (room : Z) (st : StreamState) : bytes * StreamState :=
  match ss_input st with
  | block :: blocks =>
      let count := Z.min room (len block) in
      let rest := dropZ count block in
      (takeZ count block,
       st <| ss_input := if is_empty rest then blocks else rest :: blocks |>)
  | [] =>
      let count := Z.min room (len (ss_input_staging st)) in
      (takeZ count (ss_input_staging st),
       st <| ss_input_staging ::= dropZ count |>)
  end.

(** [poll_read] into a buffer with [room] free octets: the octets put there. *)
Definition poll_read (id : Z) (cx : Waker) (room : Z) : step io_error (poll bytes) :=
  if room =? 0 then mret (Ready [])
  else
    s ← get_state;
    let is_ended := ended s || finish s || is_some (closing s) in
    st ← live_stream id (invalid "unknown receive stream");
    if negb (is_empty (ss_input st)) || negb (is_empty (ss_input_staging st)) then
      let '(data, st) := take_input room st in
      let count := len data in
      let st := st <| ss_input_bytes ::= λ n, sub64 n count |>
                   <| ss_consumed ::= λ n, add64 n count |> in
      let st :=
        if negb (ss_stop_sent st) && negb (ss_receive_fin st)
           && negb (is_some (ss_receive_reset st))
        then st <| ss_grant_pending := true |> else st in
      put_stream id st;;
      update (λ s, s <| consumed ::= λ n, add64 n count |>
                     <| receive_grant_pending := true |>);;
      notify_output;;
      mret (Ready data)
    else
      match ss_receive_reset st with
      | Some code => throw (ConnectionReset code)
      | None =>
          if ss_receive_fin st then mret (Ready [])
          else
            match failure s with
            | Some error => throw (failure_error error)
            | None =>
                if is_ended
                then throw (UnexpectedEof "WebTransport session ended before stream FIN")
                else
                  put_stream id (st <| ss_read_waker := Some cx |>);;
                  mret Pending
            end
      end.

(** [Drop for RecvStream]; [recv_stop id 0] runs first. *)
Definition recv_release (id : Z) : step io_error unit :=
  release_handle id (λ st, st <| ss_read_handle := false |>).

Definition recv_drop (id : Z) : step io_error unit :=
  ignore_result (recv_stop id 0);;
  recv_release id.
