(* ===== verification/WtDriver.v ===== *)
(** * WebTransport session driver

    [src/source/src/webtransport/driver.rs]: selection of the next capsule to
    send, its commit or cancellation, and the reader and writer tasks of one
    session.  The tasks are state machines whose transitions are the stretches
    of code between two awaits; the carrier's answers (received data, send
    readiness, acceptance of a frame) are arguments of the transitions. *)

From S2P Require Import Prelude Bytes WtCodec WtState WtProtocol.

Inductive Output : Type :=
  | OClose (wire : bytes)
  | OBytes (wire : bytes) (stream : option (Z * bool))
  | OFinish.

Definition output_is_cancelled (s : State) (stream : option (Z * bool)) : bool :=
  is_some (failure s) || finish s || ended s
    || match stream with
       | None => false
       | Some (id, _) =>
           match streams s !! id with
           | None => true
           | Some st =>
               is_some (ss_reset_requested st) || is_some (ss_send_reset st)
                 || ss_stop_received st
           end
       end.

(** ** Selection of output *)

(** [streams.iter_mut().find(|(_, stream)| stream.grant_pending)]: the order
    of a hash map's iteration is unspecified, so any choice rule with these
    two laws will do. *)
Class GrantPick := {
  grant_pick : gmap Z StreamState → option Z;
  grant_pick_some m id :
    grant_pick m = Some id → ∃ st, m !! id = Some st ∧ ss_grant_pending st = true;
  grant_pick_none m :
    grant_pick m = None → map_Forall (λ _ st, ss_grant_pending st = false) m;
}.

(** [codec::control(kind, values).map(..).map_err(..)] as a capsule to send. *)
Definition send_control (kind : Z) (values : list Z) (e : Failure)
    : step Failure (option Output) :=
  wire ← lift (map_err (λ _, e) (control kind values));
  mret (Some (OBytes wire None)).

Definition next_session_grant : step Failure (option Output) :=
  s ← get_state;
  if receive_grant_pending s then
    update (λ s, s <| receive_grant_pending := false |>);;
    next ← lift (ok_or
      (filter_opt (λ n, n <=? VARINT_MAX)
        (checked_add64 (consumed s) (max_session_buffer_bytes (limits (options s)))))
      (failure_flow "receive credit overflow"));
    if receive_application (options s) && (receive_max_data s <? next) then
      update (λ s, s <| receive_max_data := next |>);;
      send_control MAX_DATA [next] (failure_flow "invalid receive credit")
    else mret None
  else mret None.

Definition next_streams_grant (k kind : Z) : step Failure (option Output) :=
  s ← get_state;
  if at2 (streams_grant_pending s) k then
    update (λ s, s <| streams_grant_pending ::= set2 k false |>);;
    send_control kind [at2 (receive_max_streams s) k] (failure_flow "invalid stream credit")
  else mret None.

(** The credit of one stream, if it has grown. *)
Definition stream_grant (id : Z) : step Failure (option Output) :=
  s ← get_state;
  st ← live_stream id (failure_state "missing stream state");
  put_stream id (st <| ss_grant_pending := false |>);;
  if negb (ss_stop_sent st) && negb (ss_receive_fin st)
     && negb (is_some (ss_receive_reset st))
  then
    next ← lift (ok_or
      (filter_opt (λ n, n <=? VARINT_MAX)
        (checked_add64 (ss_consumed st) (max_stream_buffer_bytes (limits (options s)))))
      (failure_flow "receive stream credit overflow"));
    if ss_receive_max st <? next then
      put_stream id (st <| ss_grant_pending := false |> <| ss_receive_max := next |>);;
      send_control MAX_STREAM_DATA [id; next] (failure_flow "invalid receive stream credit")
    else mret None
  else mret None.

(** Every turn clears one [grant_pending], so one turn per stream suffices. *)
Fixpoint grant_loop `{GrantPick} (fuel : nat) : step Failure (option Output) :=
  match fuel with
  | O => mret None
  | S fuel =>
      s ← get_state;
      match grant_pick (streams s) with
      | None => mret None
      | Some id =>
          o ← stream_grant id;
          match o with
          | Some o => mret (Some o)
          | None => grant_loop fuel
          end
      end
  end.

Definition next_stream_grant `{GrantPick} : step Failure (option Output) :=
  s ← get_state;
  grant_loop (size (streams s)).

Definition next_datagram : step Failure (option Output) :=
  s ← get_state;
  match send_datagram s with
  | None => mret None
  | Some payload =>
      update (λ s, s <| send_datagram := None |>);;
      wire ← lift (map_err (λ _, failure_state "invalid outgoing datagram")
                     (encode DATAGRAM payload));
      mret (Some (OBytes wire None))
  end.

(** The block to send: the queue's front, or the staging area. *)
Definition take_output (st : StreamState) : option bytes * StreamState :=
  match ss_output st with
  | block :: blocks => (Some block, st <| ss_output := blocks |>)
  | [] =>
      if is_empty (ss_output_staging st) then (None, st)
      else (Some (ss_output_staging st), st <| ss_output_staging := [] |>)
  end.

(** The body of the round-robin loop for a live stream. *)
Definition stream_output (id : Z) (st : StreamState) : step Failure (option Output) :=
  let st := st <| ss_ready := false |> in
  match ss_reset_requested st with
  | Some code =>
      put_stream id (st <| ss_reset_requested := None |> <| ss_send_reset := Some code |>);;
      wire ← lift (map_err (λ _, failure_state "invalid outgoing reset")
                     (control RESET_STREAM [id; code; ss_wire_sent st]));
      put_stream id (st <| ss_reset_requested := None |> <| ss_send_reset := Some code |>
                        <| ss_write_waker := None |>);;
      raise_signals (waking (ss_write_waker st));;
      reap id;;
      mret (Some (OBytes wire None))
  | None =>
      put_stream id st;;
      if ss_send_fin st || is_some (ss_send_reset st) then mret None
      else
        let '(block, st) := take_output st in
        if negb (is_some block) && ss_opened_on_wire st && negb (ss_fin_requested st)
        then mret None
        else
          let data := default [] block in
          let st := st <| ss_opened_on_wire := true |> in
          let fin := ss_fin_requested st && is_empty (ss_output st) in
          put_stream id st;;
          wire ← lift (map_err (λ _, failure_state "invalid outgoing stream")
                         (stream id data fin));
          update (λ s, s <| pending_output := Some (mkPending id data fin) |>);;
          mret (Some (OBytes wire (Some (id, fin))))
  end.

(** [while let Some(id) = self.ready_streams.pop_front()] *)
Fixpoint ready_loop (queue : list Z) : step Failure (option Output) :=
  match queue with
  | [] => mret None
  | id :: queue =>
      update (λ s, s <| ready_streams := queue |>);;
      s ← get_state;
      match streams s !! id with
      | None => ready_loop queue
      | Some st =>
          o ← stream_output id st;
          match o with
          | Some o => mret (Some o)
          | None => ready_loop queue
          end
      end
  end.

Definition next_stream_output : step Failure (option Output) :=
  s ← get_state;
  ready_loop (ready_streams s).

Definition next_close : step Failure (option Output) :=
  s ← get_state;
  match closing s with
  | Some close =>
      update (λ s, s <| closing := None |> <| finish := true |>);;
      mret (Some (OClose close))
  | None => mret None
  end.

(** The first of [m] and [n] that yields output. *)
Definition or_else {E} (m n : step E (option Output)) : step E (option Output) :=
  o ← m;
  match o with
  | Some o => mret (Some o)
  | None => n
  end.

Definition next_output `{GrantPick} : step Failure (option Output) :=
  s ← get_state;
  if is_some (pending_output s)
  then throw (failure_state "WebTransport stream output was not committed")
  else if finish s then mret (Some OFinish)
  else
    match controls s with
    | wire :: rest =>
        update (λ s, s <| controls := rest |>);;
        mret (Some (OBytes wire None))
    | [] =>
        or_else next_session_grant
        (or_else (next_streams_grant 0 MAX_STREAMS_BIDI)
        (or_else (next_streams_grant 1 MAX_STREAMS_UNI)
        (or_else next_stream_grant
        (or_else next_datagram
        (or_else next_stream_output
        next_close)))))
    end.

(** ** Commit and cancellation *)

Definition commit_pending_output (id : Z) (fin : bool) : step Failure unit :=
  s ← get_state;
  update (λ s, s <| pending_output := None |>);;
  p ← lift (ok_or (pending_output s) (failure_state "missing stream output receipt"));
  if negb (po_id p =? id) || negb (Bool.eqb (po_fin p) fin)
  then throw (failure_state "mismatched stream output receipt")
  else
    let n := len (po_bytes p) in
    st ← live_stream id (failure_state "stream disappeared before output receipt");
    put_stream id
      (st <| ss_output_bytes ::= λ m, saturating_sub64 m n |>
          <| ss_wire_sent ::= λ m, saturating_add64 m n |>
          <| ss_send_fin := fin |> <| ss_write_waker := None |>);;
    update (λ s, s <| queued_send ::= λ m, saturating_sub64 m n |>);;
    raise_signals (waking (ss_write_waker st));;
    (if negb (is_empty (ss_output st)) then ready id else mret tt);;
    wake_streams;;
    reap id.

Definition discard_pending_output {E} : step E unit :=
  s ← get_state;
  match pending_output s with
  | None => mret tt
  | Some p =>
      update (λ s, s <| pending_output := None |>);;
      let n := len (po_bytes p) in
      match streams s !! po_id p with
      | None => mret tt
      | Some st =>
          if is_some (ss_reset_requested st) then
            put_stream (po_id p) (st <| ss_write_waker := None |>);;
            ready (po_id p);;
            raise_signals (waking (ss_write_waker st))
          else
            put_stream (po_id p)
              (st <| ss_output_bytes ::= λ m, saturating_sub64 m n |>
                  <| ss_sent ::= λ m, saturating_sub64 m n |>
                  <| ss_write_waker := None |>);;
            update (λ s, s <| queued_send ::= λ m, saturating_sub64 m n |>
                           <| sent ::= λ m, saturating_sub64 m n |>);;
            raise_signals (waking (ss_write_waker st))
      end
  end.

(** ** The carrier and the two tasks *)

Inductive WebTransportReset : Type :=
  | NoError | ProtocolError | InternalError | FlowControlError | StreamClosed
  | Cancel | RefusedStream | EnhanceYourCalm | InadequateSecurity.

Definition reset_reason (code : Z) : WebTransportReset :=
  if code =? 3 then FlowControlError
  else if code =? 8 then Cancel
  else if code =? 11 then EnhanceYourCalm
  else if code =? 2 then InternalError
  else ProtocolError.

(** What the writer handed to the carrier's send half. *)
Record Carrier : Type := mkCarrier {
  sent_data : list bytes;
  sent_finish : bool;
  sent_reset : option WebTransportReset;
}.

#[export] Instance Carrier_eta : Eta Carrier := λ c,
  mkCarrier (sent_data c) (sent_finish c) (sent_reset c).

Inductive Writer : Type :=
  | WriteTop                        (* top of the loop, or awaiting [output] *)
  | WriteWait (o : Output)          (* awaiting readiness of the carrier *)
  | WritePreempted                  (* about to discard the selected output *)
  | WriteDone (r : result io_error unit).

Inductive Reader : Type :=
  | ReadWait (d : Decoder)          (* awaiting carrier data *)
  | ReadData (d : Decoder) (data : bytes)
  | ReadDone (r : result io_error unit).

Record Session : Type := mkSession {
  shared : Shared;
  carrier : Carrier;
  writer : Writer;
  reader : Reader;
}.

#[export] Instance Session_eta : Eta Session := λ x,
  mkSession (shared x) (carrier x) (writer x) (reader x).

Definition session_start (sh : Shared) : Session :=
  mkSession sh (mkCarrier [] false None) WriteTop (ReadWait Decoder_default).

(** The state after an operation whose result is not looked at. *)
Definition exec {E A} (m : step E A) (sh : Shared) : Shared := (m sh).2.

(** The writer's exit: an error is reported through [Shared::fail] by [run]. *)
Definition write_exit (r : result io_error unit) (x : Session) : Session :=
  match r with
  | Ok _ => x <| writer := WriteDone r |>
  | Err _ =>
      x <| writer := WriteDone r |>
        <| shared ::= exec (E := Failure)
             (fail (mkFailure 2 "WebTransport carrier writer failed")) |>
  end.

Definition finish_session : step Failure unit :=
  update (λ s, s <| ended := true |>);;
  wake_streams;;
  shared_wake.

(** The top of the writer's loop. *)
Definition write_top `{GrantPick} (x : Session) : Session :=
  match failure (state (shared x)) with
  | Some f =>
      write_exit (Err (failure_error f))
        (x <| carrier ::= λ c, c <| sent_reset := Some (reset_reason (reset_code f)) |> |>
           <| shared ::= exec finish_session |>)
  | None =>
      match next_output (shared x) with
      | (Ok None, sh) => x <| shared := sh |>
      | (Ok (Some o), sh) => x <| shared := sh |> <| writer := WriteWait o |>
      | (Err e, sh) => x <| shared := exec (E := Failure) (fail e) sh |>
      end
  end.

(** The check before every wait for the carrier. *)
Definition write_poll (o : Output) (x : Session) : Session :=
  let s := state (shared x) in
  match o with
  | OBytes _ stream =>
      if output_is_cancelled s stream then x <| writer := WritePreempted |> else x
  | OClose _ | OFinish =>
      if is_some (failure s) || ended s then x <| writer := WriteTop |> else x
  end.

Definition write_discard (x : Session) : Session :=
  x <| shared ::= exec (E := Failure) discard_pending_output |> <| writer := WriteTop |>.

Definition send_data (wire : bytes) (x : Session) : Session :=
  x <| carrier ::= λ c, c <| sent_data ::= λ l, l ++ [wire] |> |>.

(** The carrier reports readiness ([ready]) and takes what it is given
    ([accepts]); either can fail with an error of the carrier. *)
Definition write_ready (ready accepts : result string unit) (o : Output) (x : Session)
    : Session :=
  match o, ready with
  | OBytes _ _, Err e =>
      write_exit (Err (OtherError e))
        (x <| shared ::= exec (E := Failure)
                (fail (mkFailure 2 "WebTransport carrier send failed")) |>)
  | _, Err e => write_exit (Err (OtherError e)) x
  | OClose wire, Ok _ =>
      match accepts with
      | Err e => write_exit (Err (OtherError e)) x
      | Ok _ => send_data wire x <| writer := WriteTop |>
      end
  | OFinish, Ok _ =>
      match accepts with
      | Err e => write_exit (Err (OtherError e)) x
      | Ok _ => write_exit (Ok tt) (x <| carrier ::= λ c, c <| sent_finish := true |> |>)
      end
  | OBytes wire stream, Ok _ =>
      if output_is_cancelled (state (shared x)) stream then write_discard x
      else
        match accepts with
        | Err e => write_exit (Err (OtherError e)) x
        | Ok _ =>
            let x := send_data wire x in
            match stream with
            | None => x <| shared ::= exec (E := Failure) shared_wake |> <| writer := WriteTop |>
            | Some (id, fin) =>
                match commit_pending_output id fin (shared x) with
                | (Err f, sh) => write_exit (Err (failure_error f)) (x <| shared := sh |>)
                | (Ok _, sh) =>
                    x <| shared := exec (E := Failure) shared_wake sh |> <| writer := WriteTop |>
                end
            end
        end
  end.

(** One decoded event; a failure is recorded and ends the reader. *)
Definition deliver (event : Event) : step io_error unit :=
  s ← get_state;
  (if negb (finish s && negb (is_some (remote_close s))) then
     λ sh, match receive event sh with
           | (Ok _, sh) => (Ok tt, sh)
           | (Err f, sh) =>
               (update (λ s, s <| failure := Some f |>);;
                wake_streams;;
                shared_wake;;
                throw (failure_error f)) sh
           end
   else mret tt);;
  shared_wake.

(** The reader's exit: every error is also reported through [Shared::fail]. *)
Definition read_exit (r : result io_error unit) (x : Session) : Session :=
  match r with
  | Ok _ => x <| reader := ReadDone r |>
  | Err _ =>
      x <| reader := ReadDone r |>
        <| shared ::= exec (E := Failure)
             (fail (failure_state "invalid or interrupted WebTransport capsule stream")) |>
  end.

(** The check at the top of the reader's loop. *)
Definition read_top (x : Session) : Session :=
  let s := state (shared x) in
  if is_some (failure s) || ended s then read_exit (Ok tt) x else x.

(** What [poll_data] yields: the end of the carrier stream, an error, or data. *)
Definition read_arrival (data : option (result string bytes)) (d : Decoder) (x : Session)
    : Session :=
  match data with
  | None =>
      match decoder_finish d with
      | Err e => read_exit (Err e) x
      | Ok _ =>
          read_exit (Ok tt)
            (x <| shared ::= exec (E := Failure)
                    (update (λ s, s <| finish := true |>);; wake_streams;; shared_wake) |>)
      end
  | Some (Err e) => read_exit (Err (OtherError e)) x
  | Some (Ok data) => x <| reader := ReadData d data |>
  end.

(** One turn of the inner loop; [released] is the carrier's answer to
    [release_capacity]. *)
Definition read_next (released : result string unit) (d : Decoder) (data : bytes)
    (x : Session) : Session :=
  match next d data with
  | None => x
  | Some (Err e, _) => read_exit (Err e) x
  | Some (Ok event, (d, data)) =>
      match released, event with
      | Err e, _ => read_exit (Err (OtherError e)) x
      | Ok _, None => x <| reader := ReadWait d |>
      | Ok _, Some event =>
          match deliver event (shared x) with
          | (Ok _, sh) => x <| shared := sh |> <| reader := ReadData d data |>
          | (Err e, sh) => read_exit (Err e) (x <| shared := sh |>)
          end
      end
  end.
