(* ===== verification/WtLedger.v ===== *)
(** * Ledgers of a WebTransport session

    The invariants behind the credit and buffer accounting of
    [session.rs], [protocol.rs], [streams.rs] and [driver.rs]: what every
    counter of [State] stands for, and the rules by which an operation is
    shown to keep them.  [credit] is about octets and flow-control windows,
    [registry] about which streams exist and how many. *)

From S2P Require Import Prelude Bytes WtCodec WtState WtProtocol WtDriver.

(** ** Reasoning about steps

    [swp m s Q]: the step [m], run in the state [s] whatever was signalled
    before, ends with a result and a state that satisfy [Q]. *)

Definition swp {E A} (m : step E A) (s : State) (Q : result E A → State → Prop) : Prop :=
  ∀ sg, wp m (mkShared s sg) (λ r sh, Q r (state sh)).

Section swp_rules.
Context {E : Type}.

Lemma swp_mono {A} (m : step E A) s (Q Q' : result E A → State → Prop) :
  swp m s Q → (∀ r s', Q r s' → Q' r s') → swp m s Q'.
Proof. intros Hm HQ sg. eapply wp_mono; [apply Hm|]. auto. Qed.

Lemma swp_and {A} (m : step E A) s (Q Q' : result E A → State → Prop) :
  swp m s Q → swp m s Q' → swp m s (λ r s', Q r s' ∧ Q' r s').
Proof. intros H1 H2 sg. split; [apply H1|apply H2]. Qed.

Lemma swp_bind {A B} (m : step E A) (f : A → step E B) s Q :
  swp m s (λ r s', match r with
                   | Ok a => swp (f a) s' Q
                   | Err e => Q (Err e) s'
                   end) →
  swp (m ≫= f) s Q.
Proof.
  intros Hm sg. apply wp_bind. eapply wp_mono; [apply Hm|].
  intros [a|e] [s' sg']; cbn; auto.
Qed.

Lemma swp_ret {A} (a : A) s (Q : result E A → State → Prop) :
  Q (Ok a) s → swp (mret a) s Q.
Proof. by intros ? ?. Qed.

Lemma swp_throw {A} (e : E) s (Q : result E A → State → Prop) :
  Q (Err e) s → swp (throw e) s Q.
Proof. by intros ? ?. Qed.

Lemma swp_get s (Q : result E State → State → Prop) : Q (Ok s) s → swp get_state s Q.
Proof. by intros ? ?. Qed.

Lemma swp_update f s (Q : result E unit → State → Prop) :
  Q (Ok tt) (f s) → swp (update f) s Q.
Proof. by intros ? ?. Qed.

Lemma swp_signals l s (Q : result E unit → State → Prop) :
  Q (Ok tt) s → swp (raise_signals l) s Q.
Proof. by intros ? ?. Qed.

Lemma swp_lift {A} (r : result E A) s (Q : result E A → State → Prop) :
  Q r s → swp (lift r) s Q.
Proof. by intros ? ?. Qed.

Lemma swp_put id st s (Q : result E unit → State → Prop) :
  Q (Ok tt) (s <| streams ::= <[id := st]> |>) → swp (put_stream id st) s Q.
Proof. by intros ? ?. Qed.

Lemma swp_live id (e : E) s (Q : result E StreamState → State → Prop) :
  Q (ok_or (streams s !! id) e) s → swp (live_stream id e) s Q.
Proof. by intros ? ?. Qed.

Lemma swp_wake_streams s (Q : result E unit → State → Prop) :
  Q (Ok tt) (s <| streams ::= fmap take_wakers |>) → swp wake_streams s Q.
Proof. by intros ? ?. Qed.

Lemma swp_ready id s (Q : result E unit → State → Prop) :
  Q (Ok tt) (mark_ready id s) → swp (ready id) s Q.
Proof. by intros ? ?. Qed.

Lemma swp_on_error {F} (m : step F unit) (h : F → step E unit) s Q :
  swp m s (λ r s', match r with
                   | Ok _ => Q (Ok tt) s'
                   | Err e => swp (h e) s' Q
                   end) →
  swp (on_error m h) s Q.
Proof.
  intros Hm sg. specialize (Hm sg). unfold wp, on_error in *.
  destruct (m (mkShared s sg)) as [[a|e] [s' sg']]; cbn in *; [done|apply Hm].
Qed.

Lemma swp_with_error {F A} (f : F → E) (m : step F A) s Q :
  swp m s (λ r s', Q (map_err f r) s') → swp (with_error f m) s Q.
Proof.
  intros Hm sg. specialize (Hm sg). unfold wp, with_error in *.
  by destruct (m (mkShared s sg)) as [r [s' sg']].
Qed.

Lemma swp_ignore {F A} (m : step F A) s (Q : result E unit → State → Prop) :
  swp m s (λ _ s', Q (Ok tt) s') → swp (ignore_result m) s Q.
Proof. intros Hm sg. apply Hm. Qed.
End swp_rules.

(** One syntax-directed step of a weakest-precondition goal. *)
Ltac swp_step :=
  lazymatch goal with
  | |- swp (_ ≫= _) _ _ => apply swp_bind
  | |- swp (mret _) _ _ => apply swp_ret
  | |- swp (throw _) _ _ => apply swp_throw
  | |- swp get_state _ _ => apply swp_get
  | |- swp (update _) _ _ => apply swp_update
  | |- swp (raise_signals _) _ _ => apply swp_signals
  | |- swp shared_wake _ _ => apply swp_signals
  | |- swp notify_output _ _ => apply swp_signals
  | |- swp (lift _) _ _ => apply swp_lift
  | |- swp (put_stream _ _) _ _ => apply swp_put
  | |- swp (live_stream _ _) _ _ => apply swp_live
  | |- swp wake_streams _ _ => apply swp_wake_streams
  | |- swp (ready _) _ _ => apply swp_ready
  | |- swp (on_error _ _) _ _ => apply swp_on_error
  | |- swp (with_error _ _) _ _ => apply swp_with_error
  | |- swp (ignore_result _) _ _ => apply swp_ignore
  end; cbn beta iota.

Ltac swp_steps := repeat swp_step.

(** ** Sums over the stream table *)

Definition msum (f : StreamState → Z) (m : gmap Z StreamState) : Z :=
  map_fold (λ _ st n, f st + n) 0 m.

Section msum.
Context (f : StreamState → Z).

Lemma msum_empty : msum f ∅ = 0.
Proof. apply map_fold_empty. Qed.

Lemma msum_insert m id st : m !! id = None → msum f (<[id := st]> m) = f st + msum f m.
Proof. intros. unfold msum. rewrite map_fold_insert_L; [done|lia|done]. Qed.

Lemma msum_delete m id st : m !! id = Some st → msum f (delete id m) = msum f m - f st.
Proof.
  intros Hm. rewrite <- (insert_delete_id m id st) at 2 by done.
  rewrite msum_insert by apply lookup_delete_eq. lia.
Qed.

Lemma msum_update m id st st' :
  m !! id = Some st → msum f (<[id := st']> m) = msum f m + (f st' - f st).
Proof.
  intros Hm. rewrite <- insert_delete_eq, msum_insert by apply lookup_delete_eq.
  rewrite (msum_delete _ _ _ Hm). lia.
Qed.

Lemma msum_fmap g m : (∀ st, f (g st) = f st) → msum f (g <$> m) = msum f m.
Proof.
  intros Hg. induction m as [|id st m Hm IH] using map_ind.
  - by rewrite fmap_empty.
  - rewrite fmap_insert, !msum_insert, Hg, IH; [done|done|].
    by rewrite lookup_fmap, Hm.
Qed.

Lemma msum_nonneg m : map_Forall (λ _ st, 0 ≤ f st) m → 0 ≤ msum f m.
Proof.
  induction m as [|id st m Hm IH] using map_ind; intros Hall.
  - rewrite msum_empty. lia.
  - rewrite msum_insert by done. apply map_Forall_insert in Hall as [? Hall]; [|done].
    specialize (IH Hall). lia.
Qed.

Lemma msum_member m id st :
  map_Forall (λ _ st, 0 ≤ f st) m → m !! id = Some st → f st ≤ msum f m.
Proof.
  intros Hall Hm. pose proof (msum_delete _ _ _ Hm).
  pose proof (msum_nonneg (delete id m)).
  pose proof (map_Forall_delete _ _ id Hall). intuition lia.
Qed.
End msum.

(** ** Octet accounting *)

Definition stream_cap (s : State) : Z := max_stream_buffer_bytes (limits (options s)).
Definition session_cap (s : State) : Z := max_session_buffer_bytes (limits (options s)).

Definition send_over (st : StreamState) : bool :=
  ss_send_fin st || is_some (ss_send_reset st).
Definition receive_over (st : StreamState) : bool :=
  ss_receive_fin st || is_some (ss_receive_reset st).

(** Octets of [id] that were selected for sending and not yet committed. *)
Definition pending_len (s : State) (id : Z) : Z :=
  match pending_output s with
  | Some p => if po_id p =? id then len (po_bytes p) else 0
  | None => 0
  end.

(** The accounts of one stream, [pend] octets of which await their commit. *)
Record stream_ok (cap pend : Z) (st : StreamState) : Prop := {
  so_output : ss_output st = [];
  so_output_staging : len (ss_output_staging st) ≤ QUANTUM;
  so_output_bytes :
    ss_output_bytes st =
      if is_some (ss_reset_requested st) then 0 else len (ss_output_staging st) + pend;
  so_discarded :
    is_some (ss_reset_requested st) || send_over st = true → ss_output_staging st = [];
  so_output_cap : ss_output_bytes st ≤ cap;
  so_sent : ss_sent st = ss_wire_sent st + ss_output_bytes st;
  so_wire_sent : 0 ≤ ss_wire_sent st;
  so_send_credit : ss_sent st ≤ ss_send_max st ≤ U64_MAX;
  so_input_bytes :
    ss_input_bytes st = len (concat (ss_input st)) + len (ss_input_staging st);
  so_blocks : Forall (λ b : bytes, 0 < len b) (ss_input st);
  so_input_staging : len (ss_input_staging st) ≤ QUANTUM;
  so_received : ss_received st = ss_consumed st + ss_input_bytes st;
  so_consumed : 0 ≤ ss_consumed st;
  so_receive_credit : ss_received st ≤ ss_receive_max st ≤ U64_MAX;
  so_receive_window : ss_receive_max st ≤ ss_consumed st + cap;
  so_stopped : ss_stop_sent st = true → ss_input_bytes st = 0;
  so_no_reader :
    ss_read_handle st = false →
    ss_input_bytes st = 0 ∧ ss_stop_sent st || receive_over st = true;
}.

(** The selected output belongs to a live stream whose send side is open; a
    selected FIN is the last thing that stream sends. *)
Definition pending_ok (s : State) : Prop :=
  match pending_output s with
  | None => True
  | Some p =>
      len (po_bytes p) ≤ QUANTUM ∧
      ∃ st, streams s !! po_id p = Some st ∧ send_over st = false ∧
        (po_fin p = true → ss_fin_requested st = true ∧ ss_output_staging st = [])
  end.

(** The accounts of the session, [out] octets being queued for sending and
    [inp] buffered for the application. *)
Record totals (s : State) (out inp : Z) : Prop := {
  t_queued : queued_send s = out;
  t_queued_cap : out ≤ session_cap s;
  t_sent : out ≤ sent s ≤ send_max_data s;
  t_send_max : send_max_data s ≤ U64_MAX;
  t_received : received s = consumed s + inp;
  t_consumed : 0 ≤ consumed s;
  t_receive_credit : received s ≤ receive_max_data s ≤ VARINT_MAX;
  t_receive_window : receive_max_data s ≤ consumed s + session_cap s;
}.

Definition triple_within (lo hi : Z) (p : Z * Z * Z) : Prop :=
  lo ≤ p.1.1 ≤ hi ∧ lo ≤ p.1.2 ≤ hi ∧ lo ≤ p.2 ≤ hi.

(** The configured limits are values of their Rust types. *)
Definition limits_typed (c : H2WebTransportConfig) : Prop :=
  is_u32 (max_concurrent_uni_streams c) ∧ is_u32 (max_concurrent_bidi_streams c) ∧
  is_u64 (max_stream_buffer_bytes c) ∧ is_u64 (max_session_buffer_bytes c) ∧
  is_u64 (max_total_buffer_bytes c).

Record credit (s : State) : Prop := {
  c_limits : limits_typed (limits (options s));
  c_initial_send : triple_within 0 U64_MAX (initial_send_stream s);
  c_initial_receive : triple_within 0 (stream_cap s) (initial_receive_stream s);
  c_streams : map_Forall (λ id, stream_ok (stream_cap s) (pending_len s id)) (streams s);
  c_pending : pending_ok s;
  c_totals : totals s (msum ss_output_bytes (streams s)) (msum ss_input_bytes (streams s));
}.

(** ** Which streams exist *)

Definition is_kind (k : Z) : Prop := k = 0 ∨ k = 1.

(** A live identifier was opened by its side. *)
Definition id_ok (s : State) (id : Z) : Prop :=
  0 ≤ id ≤ VARINT_MAX ∧
  id / 4 < at2 (if is_own s id then own_opened s else peer_opened s) (stream_kind id).

Definition opened_by (r : Role) (own : bool) (k id : Z) : Prop :=
  (Z.land id 1 =? bit r) = own ∧ stream_kind id = k.

#[export] Instance opened_by_dec r own k id : Decision (opened_by r own k id).
Proof. unfold opened_by. apply _. Defined.

(** How many live streams of kind [k] one side opened. *)
Definition population (s : State) (own : bool) (k : Z) : Z :=
  Z.of_nat (size (filter (opened_by (role (options s)) own k) (dom (streams s)))).

Record registry (s : State) : Prop := {
  r_ids : set_Forall (id_ok s) (dom (streams s));
  r_own_active k : is_kind k → at2 (own_active s) k = population s true k;
  r_peer_active k : is_kind k → at2 (peer_active s) k = population s false k;
  r_own_cap k : is_kind k → at2 (own_active s) k ≤ peer_limit s k;
  r_own_opened k :
    is_kind k → 0 ≤ at2 (own_opened s) k ≤ at2 (send_max_streams s) k
                ∧ at2 (send_max_streams s) k ≤ 2 ^ 60;
  r_peer_opened k :
    is_kind k → 0 ≤ at2 (peer_opened s) k ≤ at2 (receive_max_streams s) k
                ∧ at2 (receive_max_streams s) k ≤ 2 ^ 60;
  r_peer_credit k :
    is_kind k → at2 (receive_max_streams s) k + at2 (peer_active s) k
                ≤ peer_limit s k + at2 (peer_opened s) k;
  r_receives k :
    is_kind k → receive_application (options s) = false →
    at2 (receive_max_streams s) k = 0;
}.

Definition inv (s : State) : Prop := credit s ∧ registry s.

(** ** Keeping the invariants *)

(** The fields [inv] depends on, apart from the stream table. *)
Definition accounts (s : State) :=
  (options s, initial_send_stream s, initial_receive_stream s,
   (queued_send s, sent s, send_max_data s), (received s, consumed s, receive_max_data s)).
Definition membership (s : State) :=
  (options s, (own_opened s, own_active s, send_max_streams s),
   (peer_opened s, peer_active s, receive_max_streams s)).

Lemma registry_frame s s' :
  membership s' = membership s → dom (streams s') = dom (streams s) →
  registry s → registry s'.
Proof.
  destruct s, s'. unfold membership. cbn. intros ? Hd [Hi Ho Hp ????]. simplify_eq.
  constructor; unfold population in *; cbn in *; try rewrite Hd; done.
Qed.

Lemma credit_frame s s' :
  accounts s' = accounts s → streams s' = streams s → pending_output s' = pending_output s →
  credit s → credit s'.
Proof.
  destruct s, s'. unfold accounts. cbn. intros ???[? ? ? ? ? []]. simplify_eq. by constructor.
Qed.

Lemma inv_frame s s' :
  accounts s' = accounts s → membership s' = membership s → streams s' = streams s →
  pending_output s' = pending_output s → inv s → inv s'.
Proof.
  intros ?? Hs ? [??]. split; [by eapply credit_frame|].
  eapply registry_frame; [done| |done]. by rewrite Hs.
Qed.

Lemma pending_len_nonneg s id : 0 ≤ pending_len s id.
Proof.
  unfold pending_len. destruct (pending_output s) as [p|]; [|done].
  destruct (_ =? _); [apply len_nonneg|done].
Qed.

Lemma stream_ok_bounds cap pend st :
  0 ≤ pend → stream_ok cap pend st →
  0 ≤ ss_output_bytes st ∧ 0 ≤ ss_input_bytes st ∧ ss_input_bytes st ≤ cap.
Proof.
  intros Hp []. pose proof (len_nonneg (ss_output_staging st)).
  pose proof (len_nonneg (concat (ss_input st))). pose proof (len_nonneg (ss_input_staging st)).
  destruct (is_some (ss_reset_requested st)); lia.
Qed.

Lemma credit_lookup s id st :
  credit s → streams s !! id = Some st → stream_ok (stream_cap s) (pending_len s id) st.
Proof. intros Hc Hs. exact (c_streams _ Hc id st Hs). Qed.

Lemma credit_nonneg s :
  credit s → map_Forall (λ _ st, 0 ≤ ss_output_bytes st) (streams s)
             ∧ map_Forall (λ _ st, 0 ≤ ss_input_bytes st) (streams s).
Proof.
  intros Hc. split; intros id st Hs; pose proof (credit_lookup _ _ _ Hc Hs) as Ho;
    apply stream_ok_bounds in Ho; try apply pending_len_nonneg; tauto.
Qed.

(** The share of one stream is part of the totals. *)
Lemma credit_share s id st :
  credit s → streams s !! id = Some st →
  0 ≤ ss_output_bytes st ≤ msum ss_output_bytes (streams s) ∧
  0 ≤ ss_input_bytes st ≤ msum ss_input_bytes (streams s).
Proof.
  intros Hc Hs. destruct (credit_nonneg _ Hc) as [Ho Hi].
  pose proof (msum_member _ _ _ _ Ho Hs). pose proof (msum_member _ _ _ _ Hi Hs).
  pose proof (Ho _ _ Hs). pose proof (Hi _ _ Hs). cbn in *. lia.
Qed.

(** A step that rewrites one stream and moves the totals with it. *)
Lemma inv_rewrite s s' id st st' :
  inv s → streams s !! id = Some st → streams s' = <[id := st']> (streams s) →
  options s' = options s → membership s' = membership s →
  (initial_send_stream s', initial_receive_stream s') =
    (initial_send_stream s, initial_receive_stream s) →
  (∀ j, j ≠ id → pending_len s' j = pending_len s j) →
  pending_ok s' →
  stream_ok (stream_cap s) (pending_len s' id) st' →
  totals s' (msum ss_output_bytes (streams s) + (ss_output_bytes st' - ss_output_bytes st))
            (msum ss_input_bytes (streams s) + (ss_input_bytes st' - ss_input_bytes st)) →
  inv s'.
Proof.
  intros [Hc Hr] Hs Hs' Ho Hm Hi Hj Hp Hst Ht. split.
  - destruct Hc. simplify_eq. constructor; unfold stream_cap in *; rewrite ?Ho, ?Hs'; try done.
    + congruence.
    + congruence.
    + intros j st2 [[<- <-]|[Hne Hl]]%lookup_insert_Some; [done|].
      rewrite (Hj j) by done. by apply c_streams0.
    + by rewrite !(msum_update _ _ _ _ _ Hs).
  - eapply registry_frame; [done| |done]. rewrite Hs'. apply dom_insert_lookup_L. by eexists.
Qed.

(** Writes that leave the selected output's stream open for it. *)
Definition pending_kept (st st' : StreamState) : Prop :=
  send_over st' = send_over st ∧
  (ss_fin_requested st = true → ss_fin_requested st' = true) ∧
  (ss_fin_requested st = true → ss_output_staging st = [] → ss_output_staging st' = []).

Lemma pending_ok_kept s s' id st st' :
  pending_ok s → streams s !! id = Some st → streams s' = <[id := st']> (streams s) →
  pending_output s' = pending_output s → pending_kept st st' → pending_ok s'.
Proof.
  unfold pending_ok. intros Hp Hs Hs' Ho (Hk1 & Hk2 & Hk3). rewrite Ho, Hs'.
  destruct (pending_output s) as [p|]; [|done]. destruct Hp as (? & st0 & Hl & Hso & Hf).
  split; [done|]. destruct (decide (po_id p = id)) as [<-|Hne].
  - exists st'. rewrite lookup_insert_eq. simplify_eq. rewrite Hk1. split_and!; [done|done|]. intros Hfin. destruct (Hf Hfin). auto.
  - exists st0. by rewrite lookup_insert_ne by done.
Qed.

Lemma inv_put s s' id st st' :
  inv s → streams s !! id = Some st → streams s' = <[id := st']> (streams s) →
  options s' = options s → membership s' = membership s →
  (initial_send_stream s', initial_receive_stream s', pending_output s') =
    (initial_send_stream s, initial_receive_stream s, pending_output s) →
  pending_kept st st' →
  stream_ok (stream_cap s) (pending_len s id) st' →
  totals s' (msum ss_output_bytes (streams s) + (ss_output_bytes st' - ss_output_bytes st))
            (msum ss_input_bytes (streams s) + (ss_input_bytes st' - ss_input_bytes st)) →
  inv s'.
Proof.
  intros Hinv Hs Hs' Ho Hm [= Hi1 Hi2 Hi3] Hk Hst Ht.
  assert (∀ j, pending_len s' j = pending_len s j) as Hj.
  { intros j. unfold pending_len. by rewrite Hi3. }
  eapply (inv_rewrite s); try done; [congruence|..].
  - eapply pending_ok_kept; try done. apply Hinv.
  - by rewrite Hj.
Qed.

Lemma inv_wake s : inv s → inv (s <| streams ::= fmap take_wakers |>).
Proof.
  intros [[Hl His Hir Hs Hp Ht] Hr]. split.
  - constructor; cbn; try done.
    + intros id st'. rewrite lookup_fmap_Some. intros (st & <- & Hst).
      destruct (Hs id st Hst). by constructor.
    + unfold pending_ok in *. cbn. destruct (pending_output s) as [p|]; [|done].
      destruct Hp as (? & st & Hst & ?). split; [done|]. exists (take_wakers st).
      by rewrite lookup_fmap, Hst.
    + rewrite !msum_fmap by done. destruct Ht. by constructor.
  - apply (registry_frame s); [done| |done]. cbn. apply dom_fmap_L.
Qed.

Lemma inv_mark_ready id s : inv s → inv (mark_ready id s).
Proof.
  intros Hinv. unfold mark_ready. destruct (streams s !! id) as [st|] eqn:Hst; [|done].
  destruct (ss_ready st); [done|]. pose proof (credit_lookup _ _ _ (proj1 Hinv) Hst) as [].
  eapply (inv_put s); try done. cbn. rewrite !Z.sub_diag, !Z.add_0_r.
  destruct (c_totals _ (proj1 Hinv)). by constructor.
Qed.

Lemma at2_set2 {A} k j (v : A) p :
  is_kind k → is_kind j → at2 (set2 k v p) j = if k =? j then v else at2 p j.
Proof. by intros [-> | ->] [-> | ->]. Qed.

Lemma land_one id : Z.land id 1 = id mod 2.
Proof. apply (Z.land_ones id 1). lia. Qed.

Lemma stream_kind_mod id : stream_kind id = (id / 2) mod 2.
Proof.
  unfold stream_kind. rewrite Z.shiftr_land, Z.shiftr_div_pow2 by lia. apply land_one.
Qed.

Lemma stream_kind_is_kind id : is_kind (stream_kind id).
Proof.
  rewrite stream_kind_mod. unfold is_kind. pose proof (Z.mod_pos_bound (id / 2) 2). lia.
Qed.

Lemma land_two id : Z.land id 2 = 2 * stream_kind id.
Proof.
  rewrite stream_kind_mod. replace (Z.land id 2) with (Z.land (id mod 4) 2).
  - assert (id mod 4 = 0 ∨ id mod 4 = 1 ∨ id mod 4 = 2 ∨ id mod 4 = 3) as Hm
      by (pose proof (Z.mod_pos_bound id 4); lia).
    destruct Hm as [Hm|[Hm|[Hm|Hm]]]; rewrite Hm;
      [change (Z.land 0 2) with 0|change (Z.land 1 2) with 0|change (Z.land 2 2) with 2
      |change (Z.land 3 2) with 2]; div_lia.
  - change 4 with (2 ^ 2). rewrite <- Z.land_ones, <- Z.land_assoc by lia. done.
Qed.

(** A stream identifier is its index, direction and opener. *)
Lemma id_parts id : id = id / 4 * 4 + stream_kind id * 2 + Z.land id 1.
Proof. rewrite stream_kind_mod, land_one. div_lia. Qed.

(** ** Removing and adding streams *)

Definition one_if (P : Prop) `{Decision P} : Z := if decide P then 1 else 0.

Lemma size_filter_insert (P : Z → Prop) `{∀ x, Decision (P x)} (X : gset Z) id :
  id ∉ X → Z.of_nat (size (filter P ({[id]} ∪ X))) = one_if (P id) + Z.of_nat (size (filter P X)).
Proof.
  intros Hid. unfold one_if. rewrite filter_union_L, filter_singleton_L by apply _.
  destruct (decide (P id)); [|by rewrite union_empty_l_L].
  rewrite size_union, size_singleton; [lia|].
  apply disjoint_singleton_l. by intros [_ ?]%elem_of_filter.
Qed.

Lemma population_insert s s' id st own k :
  options s' = options s → streams s' = <[id := st]> (streams s) → streams s !! id = None →
  population s' own k
    = one_if (opened_by (role (options s)) own k id) + population s own k.
Proof.
  intros Ho Hs Hn. unfold population. rewrite Hs, Ho, dom_insert_L.
  apply size_filter_insert. by apply not_elem_of_dom.
Qed.

Lemma population_delete s s' id st own k :
  options s' = options s → streams s' = delete id (streams s) → streams s !! id = Some st →
  population s own k
    = one_if (opened_by (role (options s)) own k id) + population s' own k.
Proof.
  intros Ho Hs Hn. unfold population. rewrite Hs, Ho, <- size_filter_insert.
  - do 3 f_equal. rewrite <- dom_insert_L with (x := st).
    by rewrite insert_delete_id.
  - rewrite dom_delete_L. intros [_ []]%elem_of_difference. by apply elem_of_singleton.
Qed.

Lemma credit_delete s s' id st :
  credit s → streams s !! id = Some st → send_over st = true → ss_read_handle st = false →
  streams s' = delete id (streams s) → accounts s' = accounts s →
  pending_output s' = pending_output s → credit s'.
Proof.
  intros Hc Hst Hso Hrh Hs Ha Hp. pose proof (credit_lookup _ _ _ Hc Hst) as Hok.
  pose proof Hc as [Hl His Hir Hss Hpo Ht]. unfold accounts in Ha. simplify_eq.
  assert (pending_len s id = 0 ∧ pending_ok s') as [Hpl Hpo'].
  { unfold pending_len, pending_ok in *. rewrite Hp, Hs.
    destruct (pending_output s) as [p|]; [|done]. destruct Hpo as (? & st0 & Hl0 & Hso0 & ?).
    assert (po_id p ≠ id) as Hne by (intros <-; simplify_eq; congruence).
    split; [by apply Z.eqb_neq in Hne as ->|]. split; [done|]. exists st0.
    by rewrite lookup_delete_ne. }
  destruct Hok. assert (ss_output_bytes st = 0) as Hob.
  { rewrite so_output_bytes0, so_discarded0, Hpl by (rewrite Hso; apply orb_true_r).
    by destruct (is_some _). }
  destruct (so_no_reader0 Hrh) as [Hib _].
  destruct Ht. constructor; unfold stream_cap in *; rewrite ?Hs; try congruence.
  - intros j st' [Hj Hl']%lookup_delete_Some. destruct (Hss j st' Hl').
    replace (pending_len s' j) with (pending_len s j) by (unfold pending_len; by rewrite Hp).
    replace (options s') with (options s) by congruence. by constructor.
  - rewrite !(msum_delete _ _ _ _ Hst), Hob, Hib, !Z.sub_0_r.
    constructor; unfold session_cap in *; congruence.
Qed.

Lemma stream_done_spec st :
  stream_done st = true →
  receive_over st = true ∧ send_over st = true ∧ ss_read_handle st = false
  ∧ ss_write_handle st = false.
Proof.
  unfold stream_done, receive_over, send_over.
  intros [[[? ?]%andb_prop ?%negb_true_iff]%andb_prop ?%negb_true_iff]%andb_prop. done.
Qed.

Lemma opened_by_one_if r own k id :
  one_if (opened_by r own k id)
    = if Bool.eqb (Z.land id 1 =? bit r) own && (stream_kind id =? k) then 1 else 0.
Proof.
  unfold one_if, opened_by. destruct (decide _) as [[-> ->]|Hn].
  - by rewrite eqb_reflx, Z.eqb_refl.
  - destruct (Bool.eqb_spec (Z.land id 1 =? bit r) own), (Z.eqb_spec (stream_kind id) k);
      cbn; tauto.
Qed.

Lemma population_nonneg s own k : 0 ≤ population s own k.
Proof. unfold population. lia. Qed.

(** What a step that removes [id] must do to the membership counters. *)
Lemma registry_delete s s' id st :
  registry s → streams s !! id = Some st → streams s' = delete id (streams s) →
  options s' = options s →
  (own_opened s', send_max_streams s', peer_opened s')
    = (own_opened s, send_max_streams s, peer_opened s) →
  (∀ k, is_kind k →
     let gone own := one_if (opened_by (role (options s)) own k id) in
     at2 (own_active s') k = at2 (own_active s) k - gone true ∧
     at2 (peer_active s') k = at2 (peer_active s) k - gone false ∧
     at2 (receive_max_streams s) k ≤ at2 (receive_max_streams s') k
       ≤ at2 (receive_max_streams s) k + gone false ∧
     at2 (receive_max_streams s') k ≤ 2 ^ 60) →
  registry s'.
Proof.
  intros Hr Hst Hs Ho [= Hoo Hsm Hpo] Hk. pose proof Hr as [Hi Hoa Hpa Hoc Hop Hpp Hpc Hra].
  assert (∀ own k, population s own k = one_if (opened_by (role (options s)) own k id)
    + population s' own k) as Hpop by (intros; by eapply population_delete).
  assert (∀ own k, 0 ≤ one_if (opened_by (role (options s)) own k id)) as Hone
    by (intros; unfold one_if; case_match; lia).
  constructor; unfold peer_limit in *; rewrite ?Hs, ?Ho, ?Hoo, ?Hsm, ?Hpo.
  - rewrite dom_delete_L. intros j [Hj _]%elem_of_difference. unfold id_ok, is_own.
    rewrite Ho, Hoo, Hpo. by apply Hi.
  - intros k Hki. specialize (Hk k Hki). specialize (Hpop true k). specialize (Hoa k Hki).
    cbn in Hk. lia.
  - intros k Hki. specialize (Hk k Hki). specialize (Hpop false k). specialize (Hpa k Hki).
    cbn in Hk. lia.
  - intros k Hki. destruct (Hk k Hki) as (? & _). specialize (Hoc k Hki).
    specialize (Hone true k). lia.
  - intros k Hki. by apply Hop.
  - intros k Hki. destruct (Hk k Hki) as (_ & _ & ? & ?). specialize (Hpp k Hki). lia.
  - intros k Hki. destruct (Hk k Hki) as (_ & ? & ? & ?). specialize (Hpc k Hki). lia.
  - intros k Hki Hno. destruct (Hk k Hki) as (_ & _ & ? & _). specialize (Hra k Hki Hno).
    specialize (Hpp k Hki). specialize (Hpa k Hki). specialize (Hpop false k).
    pose proof (population_nonneg s' false k).
    assert (one_if (opened_by (role (options s)) false k id) = 0) as Hnot.
    { unfold one_if. apply decide_False. intros [Hown <-]. assert (id ∈ dom (streams s)) as Hid by (apply elem_of_dom; by eexists).
      destruct (Hi id Hid) as [? Hlt]. unfold is_own in Hlt. rewrite Hown in Hlt.
      pose proof (Z.div_pos id 4). lia. }
    lia.
Qed.

(** [reap] changes nothing, or removes a finished stream and its count. *)
Lemma reap_spec id s :
  swp (reap id) s (λ r s',
    (r = Ok tt ∧ s' = s) ∨
    ∃ st oa pa rm gp, streams s !! id = Some st ∧ stream_done st = true ∧
      s' = s <| streams ::= delete id |> <| own_active := oa |> <| peer_active := pa |>
             <| receive_max_streams := rm |> <| streams_grant_pending := gp |>).
Proof.
  unfold reap. swp_steps. destruct (streams s !! id) as [st|] eqn:Hst; [|cbn; swp_steps; auto].
  destruct (stream_done st) eqn:Hd; [|cbn; swp_steps; auto]. cbn [negb]. swp_steps.
  destruct (is_own s id); swp_steps.
  - right. by exists st, (set2 (stream_kind id) (saturating_sub64 (at2 (own_active s)
      (stream_kind id)) 1) (own_active s)), (peer_active s), (receive_max_streams s),
      (streams_grant_pending s).
  - destruct (filter_opt _ _) as [v|]; swp_steps; right;
      exists st, (own_active s), (set2 (stream_kind id) (saturating_sub64 (at2 (peer_active s)
        (stream_kind id)) 1) (peer_active s)).
    + by exists (set2 (stream_kind id) v (receive_max_streams s)),
        (set2 (stream_kind id) true (streams_grant_pending s)).
    + by exists (receive_max_streams s), (streams_grant_pending s).
Qed.

Lemma reap_inv id s : inv s → swp (reap id) s (λ _ s', inv s').
Proof.
  intros [Hc Hr]. unfold reap. swp_steps. destruct (streams s !! id) as [st|] eqn:Hst;
    [|by cbn; swp_steps].
  destruct (stream_done st) eqn:Hd; [|by cbn; swp_steps].
  apply stream_done_spec in Hd as (_ & Hso & Hrh & _). cbn [negb]. swp_steps.
  pose proof (stream_kind_is_kind id) as Hki.
  assert (id ∈ dom (streams s)) as Hid by (apply elem_of_dom; by eexists).
  destruct (r_ids _ Hr id Hid) as [_ _].
  assert (∀ own, (Z.land id 1 =? bit (role (options s))) = own →
    1 ≤ population s own (stream_kind id)) as Hpos.
  { intros own Hown. rewrite (population_delete s (s <| streams ::= delete id |>) id st) by done.
    rewrite opened_by_one_if, Hown, eqb_reflx, Z.eqb_refl.
    pose proof (population_nonneg (s <| streams ::= delete id |>) own (stream_kind id)).
    cbn. lia. }
  assert (∀ s', streams s' = delete id (streams s) → accounts s' = accounts s →
    pending_output s' = pending_output s → credit s') as Hc'
    by (intros; by eapply credit_delete).
  destruct (is_own s id) eqn:Hown; unfold is_own in Hown; swp_steps.
  - split; [by apply Hc'|]. eapply (registry_delete s _ id st); try done.
    intros k Hk. cbv beta zeta. rewrite !opened_by_one_if, Hown. cbn. rewrite at2_set2 by done.
    pose proof (r_own_active _ Hr _ Hki) as Ha. specialize (Hpos true Hown).
    pose proof (r_peer_opened _ Hr _ Hk). unfold saturating_sub64.
    destruct (Z.eqb_spec (stream_kind id) k) as [<-|]; lia.
  - pose proof (r_peer_active _ Hr _ Hki) as Ha. specialize (Hpos false Hown).
    unfold checked_add64, U64_MAX. rewrite (proj2 (Z.leb_le _ _)).
    2: { pose proof (r_peer_opened _ Hr _ Hki). lia. }
    cbn [filter_opt]. destruct (Z.leb_spec (at2 (receive_max_streams s) (stream_kind id) + 1) (2 ^ 60));
      swp_steps; (split; [by apply Hc'|]); eapply (registry_delete s _ id st); try done;
      intros k Hk; cbv beta zeta; rewrite !opened_by_one_if, Hown; cbn; rewrite !at2_set2 by done;
      pose proof (r_peer_opened _ Hr _ Hk); unfold saturating_sub64;
      destruct (Z.eqb_spec (stream_kind id) k) as [<-|]; lia.
Qed.

Lemma land_two_zero id : negb (Z.land id 2 =? 0) = (stream_kind id =? 1).
Proof.
  rewrite land_two. destruct (stream_kind_is_kind id) as [-> | ->]; done.
Qed.

Lemma at3_within lo hi p i : triple_within lo hi p → lo ≤ at3 p i ≤ hi.
Proof. unfold triple_within, at3. intros (?&?&?). by repeat case_match. Qed.

Lemma new_stream_ok s id local g :
  credit s → stream_ok (stream_cap s) 0 ((new_stream s id local) <| ss_grant_pending := g |>).
Proof.
  intros [(_ & _ & Hcap & _) His Hir _ _ _].
  pose proof (at3_within _ _ _ (if negb (Z.land id 2 =? 0) then 0 else if local then 2 else 1) His).
  pose proof (at3_within _ _ _ (if negb (Z.land id 2 =? 0) then 0 else if local then 1 else 2) Hir).
  unfold is_u64, stream_cap in *.
  constructor; unfold new_stream; cbn; rewrite ?len_nil; try done; try lia.
  by destruct (negb (Z.land id 2 =? 0)), local.
Qed.

Lemma credit_insert s s' id st :
  credit s → streams s !! id = None → streams s' = <[id := st]> (streams s) →
  accounts s' = accounts s → pending_output s' = pending_output s →
  stream_ok (stream_cap s) 0 st → ss_input_bytes st = 0 → ss_output_bytes st = 0 → credit s'.
Proof.
  intros Hc Hn Hs Ha Hp Hok Hi Ho. pose proof Hc as [Hl His Hir Hss Hpo Ht].
  unfold accounts in Ha. simplify_eq.
  assert (pending_len s' id = 0 ∧ pending_ok s') as [Hpl Hpo'].
  { unfold pending_len, pending_ok in *. rewrite Hp, Hs.
    destruct (pending_output s) as [p|]; [|done]. destruct Hpo as (? & st0 & Hl0 & ?).
    assert (po_id p ≠ id) as Hne by (intros <-; congruence).
    split; [by apply Z.eqb_neq in Hne as ->|]. split; [done|]. exists st0.
    by rewrite lookup_insert_ne. }
  destruct Ht. constructor; unfold stream_cap in *; rewrite ?Hs; try congruence.
  - intros j st' [[<- <-]|[Hne Hl']]%lookup_insert_Some.
    + rewrite Hpl. by replace (options s') with (options s) by congruence.
    + replace (options s') with (options s) by congruence.
      unfold pending_len. rewrite Hp. by apply Hss.
  - rewrite !msum_insert, Hi, Ho, !Z.add_0_l by done.
    constructor; unfold session_cap in *; congruence.
Qed.

(** The stream with the next index of a kind is new; [own] says who opens it. *)
Lemma registry_insert s s' id st own k :
  registry s → is_kind k → opened_by (role (options s)) own k id → 0 ≤ id ≤ VARINT_MAX →
  id / 4 = at2 (if own then own_opened s else peer_opened s) k →
  streams s' = <[id := st]> (streams s) → options s' = options s →
  (send_max_streams s', receive_max_streams s') = (send_max_streams s, receive_max_streams s) →
  (∀ j, is_kind j →
     let more b := if Bool.eqb b own && (k =? j) then 1 else 0 in
     at2 (own_opened s') j = at2 (own_opened s) j + more true ∧
     at2 (own_active s') j = at2 (own_active s) j + more true ∧
     at2 (peer_opened s') j = at2 (peer_opened s) j + more false ∧
     at2 (peer_active s') j = at2 (peer_active s) j + more false) →
  (if own then at2 (own_opened s) k < at2 (send_max_streams s) k
               ∧ at2 (own_active s) k < peer_limit s k
   else at2 (peer_opened s) k < at2 (receive_max_streams s) k) →
  streams s !! id = None ∧ registry s'.
Proof.
  intros Hr Hk Hby Hid Hnew Hs Ho [= Hsm Hrm] Hj Hroom.
  pose proof Hr as [Hi Hoa Hpa Hoc Hop Hpp Hpc Hra]. pose proof Hby as [Hown Hkind].
  assert (streams s !! id = None) as Hn.
  { apply not_elem_of_dom. intros Hin. destruct (Hi id Hin) as [_ Hlt].
    unfold is_own in Hlt. rewrite Hown, Hkind in Hlt. lia. }
  split; [done|].
  assert (∀ b j, population s' b j
    = (if Bool.eqb b own && (k =? j) then 1 else 0) + population s b j) as Hpop.
  { intros b j. rewrite (population_insert s s' id st) by done.
    rewrite opened_by_one_if, Hown, Hkind. by destruct b, own. }
  constructor; unfold peer_limit in *; rewrite ?Hs, ?Ho, ?Hsm, ?Hrm.
  - rewrite dom_insert_L. intros j [->%elem_of_singleton|Hin]%elem_of_union.
    + split; [done|]. unfold is_own. rewrite Ho, Hown, Hkind, Hnew.
      destruct (Hj k Hk) as (E1 & _ & E2 & _).
      destruct own; rewrite ?E1, ?E2, Z.eqb_refl; cbn; lia.
    + destruct (Hi j Hin) as [? Hlt]. split; [done|]. unfold is_own in *. rewrite Ho.
      destruct (Hj _ (stream_kind_is_kind j)) as (E1 & _ & E2 & _).
      destruct (Z.land j 1 =? bit (role (options s))); rewrite ?E1, ?E2; repeat case_match; lia.
  - intros j Hkj. rewrite Hpop, <- (Hoa j Hkj). destruct (Hj j Hkj) as (_ & -> & _). lia.
  - intros j Hkj. rewrite Hpop, <- (Hpa j Hkj). destruct (Hj j Hkj) as (_ & _ & _ & ->). lia.
  - intros j Hkj. destruct (Hj j Hkj) as (_ & -> & _). specialize (Hoc j Hkj).
    destruct own, (Z.eqb_spec k j) as [->|]; cbn; lia.
  - intros j Hkj. destruct (Hj j Hkj) as (-> & _). specialize (Hop j Hkj).
    destruct own, (Z.eqb_spec k j) as [->|]; cbn; lia.
  - intros j Hkj. destruct (Hj j Hkj) as (_ & _ & -> & _). specialize (Hpp j Hkj).
    destruct own, (Z.eqb_spec k j) as [->|]; cbn; lia.
  - intros j Hkj. destruct (Hj j Hkj) as (_ & _ & -> & ->). specialize (Hpc j Hkj).
    destruct own, (Z.eqb_spec k j) as [->|]; cbn; lia.
  - done.
Qed.
