(* ===== verification/WtInvariant.v ===== *)
(** * Every operation keeps the ledgers

    The operations of [WtState], [WtProtocol], [WtStreams] and [WtDriver]
    preserve [inv], also when they return an error. *)

From S2P Require Import Prelude Bytes WtCodec WtCodecSpec WtCodecBounds WtState WtProtocol.
From S2P Require Import WtDriver WtLedger.

(** A step after which [inv] holds, whatever its result. *)
Abbreviation keeps m s := (swp m s (λ _ s', inv s')).

Lemma keeps_seq {E A B} (m : step E A) (f : A → step E B) s :
  keeps m s → (∀ a s', inv s' → keeps (f a) s') → keeps (m ≫= f) s.
Proof.
  intros Hm Hf. apply swp_bind. eapply swp_mono; [apply Hm|].
  intros [a|e] s' Hs; [by apply Hf|done].
Qed.

(** The operation writes no field [inv] depends on. *)
Ltac inv_frame s := apply (inv_frame s); done.

Lemma check_inv s : inv s → keeps check s.
Proof.
  intros. unfold check. swp_steps. destruct (failure s); swp_steps; [done|].
  destruct (_ || _ || _); by swp_steps.
Qed.

(** The queue grows by one encoded capsule or is left alone. *)
Lemma queue_control_spec kind values s :
  swp (queue_control kind values) s (λ r s',
    match r with
    | Ok _ => ∃ wire, control kind values = Ok wire ∧ len (controls s) < 256 ∧
                      s' = s <| controls ::= λ l, l ++ [wire] |>
    | Err _ => s' = s ∧ (256 ≤ len (controls s) ∨ ∃ e, control kind values = Err e)
    end).
Proof.
  unfold queue_control. swp_steps. destruct (Z.leb_spec 256 (len (controls s))); swp_steps; [auto|].
  destruct (control kind values) as [wire|e]; cbn [map_err]; swp_steps; eauto.
Qed.

Lemma queue_control_inv kind values s :
  inv s → swp (queue_control kind values) s (λ _ s', inv s' ∧ streams s' = streams s).
Proof.
  intros Hs. eapply swp_mono; [apply queue_control_spec|].
  intros [a|e] s'; [intros (wire & _ & _ & ->)|by intros [-> _]]. split; [inv_frame s|done].
Qed.

Lemma fail_inv {E} f s : inv s → keeps (fail (E := E) f) s.
Proof.
  intros. unfold fail. swp_steps. apply inv_wake. destruct (is_some _); [done|inv_frame s].
Qed.

Lemma silent_close_inv s : inv s → keeps silent_close s.
Proof. apply fail_inv. Qed.

Lemma session_close_inv code reason s : inv s → keeps (session_close code reason) s.
Proof.
  intros. unfold session_close. destruct (close code reason); [|by apply silent_close_inv].
  swp_steps. destruct (_ && _); swp_steps; [|done]. apply inv_wake. inv_frame s.
Qed.

Lemma session_drain_inv s : inv s → keeps session_drain s.
Proof.
  intros Hs. unfold session_drain. apply swp_bind, swp_get.
  apply keeps_seq; [|intros; by swp_steps]. destruct (negb _); swp_steps; [|done].
  eapply swp_mono; [apply queue_control_inv; inv_frame s|].
  intros [[]|e] s' [Hs' _]; [done|]. swp_steps. inv_frame s'.
Qed.

Lemma session_send_datagram_inv payload s : inv s → keeps (session_send_datagram payload) s.
Proof.
  intros Hs. unfold session_send_datagram. destruct (_ <? _); [by swp_steps|].
  apply keeps_seq; [by apply check_inv|]. intros _ s' Hs'. swp_steps.
  destruct (is_some _); [done|inv_frame s'].
Qed.

Lemma read_datagram_inv s : inv s → keeps read_datagram s.
Proof.
  intros Hs. unfold read_datagram. apply keeps_seq; [by apply check_inv|].
  intros _ s' Hs'. swp_steps. destruct (receive_datagram s'); swp_steps; [inv_frame s'|done].
Qed.

Lemma accept_inv uni s : inv s → keeps (accept uni) s.
Proof.
  intros Hs. unfold accept. apply keeps_seq; [by apply check_inv|].
  intros _ s' Hs'. swp_steps. case_match; swp_steps; [done|inv_frame s'].
Qed.

Lemma closed_inv s : inv s → keeps closed s.
Proof.
  intros Hs. unfold closed. swp_steps. destruct (remote_close s); swp_steps; [done|].
  destruct (failure s); swp_steps; [done|]. destruct (ended s); by swp_steps.
Qed.

(** ** Opening streams *)

Lemma stream_id_parts n b k :
  0 ≤ n → 0 ≤ b ≤ 1 → is_kind k →
  let id := n * 4 + b + k * 2 in
  id / 4 = n ∧ Z.land id 1 = b ∧ stream_kind id = k.
Proof. intros ?? [-> | ->]; cbn; rewrite stream_kind_mod, land_one; div_lia. Qed.

Lemma bit_range r : 0 ≤ bit r ≤ 1.
Proof. destruct r; cbn; lia. Qed.

Lemma peer_limit_u32 s k : credit s → 0 ≤ peer_limit s k ≤ 4294967295.
Proof.
  intros Hc. destruct (c_limits _ Hc) as (?&?&_). rewrite <- U32_MAX_val.
  unfold peer_limit, is_u32 in *. case_match; lia.
Qed.

Lemma concurrency_cap_limit s uni : concurrency_cap s uni = peer_limit s (if uni then 1 else 0).
Proof. by destruct uni. Qed.

(** The stream table and the counters grow together. *)
Lemma inv_insert s s' id st own k :
  inv s → is_kind k → opened_by (role (options s)) own k id → 0 ≤ id ≤ VARINT_MAX →
  id / 4 = at2 (if own then own_opened s else peer_opened s) k →
  streams s' = <[id := st]> (streams s) → accounts s' = accounts s →
  pending_output s' = pending_output s →
  (send_max_streams s', receive_max_streams s') = (send_max_streams s, receive_max_streams s) →
  stream_ok (stream_cap s) 0 st → ss_input_bytes st = 0 → ss_output_bytes st = 0 →
  (∀ j, is_kind j →
     let more b := if Bool.eqb b own && (k =? j) then 1 else 0 in
     at2 (own_opened s') j = at2 (own_opened s) j + more true ∧
     at2 (own_active s') j = at2 (own_active s) j + more true ∧
     at2 (peer_opened s') j = at2 (peer_opened s) j + more false ∧
     at2 (peer_active s') j = at2 (peer_active s) j + more false) →
  (if own then at2 (own_opened s) k < at2 (send_max_streams s) k
               ∧ at2 (own_active s) k < peer_limit s k
   else at2 (peer_opened s) k < at2 (receive_max_streams s) k) →
  inv s'.
Proof.
  intros [Hc Hr] Hk Hby Hid Hnew Hs Ha Hp Hm Hok Hi Ho Hj Hroom.
  destruct (registry_insert s s' id st own k) as [Hn Hr']; try done.
  - unfold accounts in Ha. congruence.
  - split; [|done]. by eapply credit_insert.
Qed.

Lemma open_inv uni s : inv s → keeps (open uni) s.
Proof.
  intros Hs. unfold open. apply keeps_seq; [by apply check_inv|].
  clear s Hs. intros _ s Hs. set (k := if uni then 1 else 0).
  assert (is_kind k) as Hk by (destruct uni; [by right|by left]).
  swp_steps. destruct (Z.ltb_spec (at2 (own_opened s) k) (at2 (send_max_streams s) k)) as [Hlt|];
    [|by cbn; swp_steps].
  destruct (Z.ltb_spec (at2 (own_active s) k) (concurrency_cap s uni)) as [Hcap|];
    [|by cbn; swp_steps].
  cbn [andb]. swp_steps.
  replace (bit (role (options s)) + (if uni then 2 else 0)) with (bit (role (options s)) + k * 2)
    by (by destruct uni).
  pose proof (r_own_opened _ (proj2 Hs) k Hk) as Ho.
  pose proof (bit_range (role (options s))) as Hb. pose proof (r_own_active _ (proj2 Hs) k Hk).
  pose proof (population_nonneg s true k) as Hpop.
  pose proof (peer_limit_u32 s k (proj1 Hs)) as Hlim. pose proof U64_MAX_val as HU.
  rewrite checked_mul64_small by lia. cbn [mbind option_bind].
  assert (0 ≤ k ≤ 1) by (destruct uni; subst k; lia).
  rewrite checked_add64_small by lia. cbn [filter_opt].
  assert (at2 (own_opened s) k * 4 + (bit (role (options s)) + k * 2) ≤ VARINT_MAX)
    by (unfold VARINT_MAX; lia).
  rewrite (proj2 (Z.leb_le _ _)) by done. cbn [ok_or]. swp_steps.
  apply inv_mark_ready. rewrite Z.add_assoc.
  destruct (stream_id_parts (at2 (own_opened s) k) (bit (role (options s))) k)
    as (Hi1 & Hi2 & Hi3); [lia..|done|].
  set (id := at2 (own_opened s) k * 4 + bit (role (options s)) + k * 2) in *.
  rewrite concurrency_cap_limit in Hcap. fold k in Hcap.
  eapply (inv_insert s _ id _ true k); try done.
  - split; [|done]. rewrite Hi2. apply Z.eqb_refl.
  - lia.
  - destruct (negb uni); exact (new_stream_ok s id true _ (proj1 Hs)).
  - by destruct (negb uni).
  - by destruct (negb uni).
  - intros j Hj. cbn. rewrite !at2_set2 by done. rewrite !add64_small by (rewrite HU; lia).
    destruct (Z.eqb_spec k j) as [->|]; lia.
Qed.

(** The fields an operation of the peer's opening does not write. *)
Definition unopened (s : State) :=
  (accounts s, membership s, pending_output s, (controls s, ready_streams s, failure s),
   (finish s, ended s, closing s), remote_close s).

Lemma open_peers_frame k l : ∀ s, unopened (foldl (open_peer k) s l) = unopened s.
Proof. induction l as [|i l IH]; [done|]. intros s. cbn. by rewrite IH. Qed.

(** The state once [n] streams are opened and counted. *)
Definition opened_peers (k : Z) (s : State) (n : nat) : State :=
  (foldl (open_peer k) s (seqZ (at2 (peer_opened s) k) (Z.of_nat n)))
    <| peer_opened ::= set2 k (at2 (peer_opened s) k + Z.of_nat n) |>
    <| peer_active ::= set2 k (at2 (peer_active s) k + Z.of_nat n) |>.

Lemma opened_peers_S k s n :
  opened_peers k s (S n) =
    (open_peer k (opened_peers k s n) (at2 (peer_opened s) k + Z.of_nat n))
      <| peer_opened ::= set2 k (at2 (peer_opened s) k + Z.of_nat (S n)) |>
      <| peer_active ::= set2 k (at2 (peer_active s) k + Z.of_nat (S n)) |>.
Proof.
  unfold opened_peers. rewrite Nat2Z.inj_succ, <- Z.add_1_r, seqZ_app by lia.
  rewrite foldl_app. cbn [seqZ foldl].
  replace (seqZ (at2 (peer_opened s) k + Z.of_nat n) 1)
    with [at2 (peer_opened s) k + Z.of_nat n] by (rewrite seqZ_cons by lia; done).
  unfold open_peer, set2. cbn. by destruct (k =? 0).
Qed.

Lemma opened_peers_0 k s : is_kind k → opened_peers k s 0 = s.
Proof.
  intros [-> | ->]; destruct s as [? ? ? [? ?] ? [? ?]]; unfold opened_peers; cbn;
    by rewrite !Z.add_0_r.
Qed.

Lemma opened_peers_frame k s n :
  (accounts (opened_peers k s n), pending_output (opened_peers k s n),
   send_max_streams (opened_peers k s n), receive_max_streams (opened_peers k s n))
  = (accounts s, pending_output s, send_max_streams s, receive_max_streams s).
Proof.
  pose proof (open_peers_frame k (seqZ (at2 (peer_opened s) k) (Z.of_nat n)) s) as Hf.
  unfold unopened, membership, accounts in *. simplify_eq. unfold opened_peers. cbn. congruence.
Qed.

Lemma opened_peers_counts k s n j :
  is_kind k → is_kind j →
  let more := if k =? j then Z.of_nat n else 0 in
  at2 (own_opened (opened_peers k s n)) j = at2 (own_opened s) j ∧
  at2 (own_active (opened_peers k s n)) j = at2 (own_active s) j ∧
  at2 (peer_opened (opened_peers k s n)) j = at2 (peer_opened s) j + more ∧
  at2 (peer_active (opened_peers k s n)) j = at2 (peer_active s) j + more.
Proof.
  intros Hk Hj.
  pose proof (open_peers_frame k (seqZ (at2 (peer_opened s) k) (Z.of_nat n)) s) as Hf.
  unfold unopened, membership, accounts in *. simplify_eq. unfold opened_peers. cbn.
  rewrite !at2_set2 by done. destruct (Z.eqb_spec k j) as [->|]; split_and!; try congruence.
  - rewrite Z.add_0_r. congruence.
  - rewrite Z.add_0_r. congruence.
Qed.

Lemma opened_peers_inv k s n :
  inv s → is_kind k → at2 (peer_opened s) k + Z.of_nat n ≤ at2 (receive_max_streams s) k →
  inv (opened_peers k s n).
Proof.
  intros Hs Hk. induction n as [|n IH]; intros Hn; [by rewrite opened_peers_0|].
  specialize (IH ltac:(lia)). rewrite opened_peers_S. set (s' := opened_peers k s n) in *.
  pose proof (r_peer_opened _ (proj2 Hs) k Hk) as Hpo.
  assert (0 ≤ k ≤ 1) as Hk01 by (destruct Hk; lia).
  pose proof (opened_peers_frame k s n) as Hf. fold s' in Hf.
  pose proof (λ j, opened_peers_counts k s n j Hk) as Hc. fold s' in Hc.
  assert (options s' = options s) as Ho by (unfold accounts in Hf; congruence).
  remember (at2 (peer_opened s) k + Z.of_nat n) as i eqn:Hi in *.
  assert (0 ≤ i < 2 ^ 60) as Hi60 by lia.
  pose proof (bit_range (role (options s))) as Hb. pose proof U64_MAX_val as HU.
  assert (add64 (add64 (mul64 i 4) (1 - bit (role (options s')))) (k * 2)
    = i * 4 + (1 - bit (role (options s))) + k * 2) as Hid.
  { unfold mul64. rewrite Ho, wrap64_small by lia.
    rewrite (add64_small (i * 4)), add64_small; lia. }
  unfold open_peer. rewrite Hid.
  destruct (stream_id_parts i (1 - bit (role (options s))) k) as (Hi1 & Hi2 & Hi3); [lia..|done|].
  set (id := i * 4 + (1 - bit (role (options s))) + k * 2) in *.
  eapply (inv_insert s' _ id _ false k); try done.
  - split; [|done]. rewrite Hi2, Ho. apply Z.eqb_neq. lia.
  - unfold VARINT_MAX. lia.
  - destruct (Hc k Hk) as (_ & _ & -> & _). rewrite Z.eqb_refl. lia.
  - exact (new_stream_ok s' id false _ (proj1 IH)).
  - intros j Hj. destruct (Hc j Hj) as (_ & _ & E3 & E4). cbn. rewrite !at2_set2 by done.
    destruct (Z.eqb_spec k j) as [->|]; lia.
  - destruct (Hc k Hk) as (_ & _ & -> & _). rewrite Z.eqb_refl.
    replace (receive_max_streams s') with (receive_max_streams s) by congruence. lia.
Qed.

(** The stream a peer opens: its own credit is announced first. *)
Definition peer_new_stream (s : State) (id : Z) : StreamState :=
  (new_stream s id false) <| ss_grant_pending := true |>.

Lemma peer_id_parts s id :
  0 ≤ id → is_own s id = false →
  id = id / 4 * 4 + (1 - bit (role (options s))) + stream_kind id * 2.
Proof.
  intros Hid Hown. pose proof (id_parts id). unfold is_own in Hown. apply Z.eqb_neq in Hown.
  rewrite land_one in *. pose proof (Z.mod_pos_bound id 2). destruct (role (options s)); cbn in *; lia.
Qed.

(** [peer_stream] either refuses without a change, finds the stream, or opens
    the streams of its kind up to [id]; its concurrency check never fails,
    because the stream credit already implies it. *)
Lemma peer_stream_spec id s :
  inv s → 0 ≤ id ≤ VARINT_MAX →
  swp (peer_stream id) s (λ r s',
    match r with
    | Err e => s' = s ∧ e ≠ failure_flow "peer exceeded concurrent stream budget"
    | Ok false => s' = s ∧ is_Some (streams s !! id)
    | Ok true =>
        let k := stream_kind id in
        let n := Z.to_nat (id / 4 + 1 - at2 (peer_opened s) k) in
        streams s !! id = None ∧ is_own s id = false ∧ (0 < n)%nat ∧
        at2 (peer_opened s) k + Z.of_nat n ≤ at2 (receive_max_streams s) k ∧
        s' = opened_peers k s n
    end).
Proof.
  intros Hs Hid. unfold peer_stream. swp_steps.
  destruct (streams s !! id) as [st|] eqn:Hst; cbn [is_some]; swp_steps; [eauto|].
  destruct (is_own s id) eqn:Hown; swp_steps; [done|].
  pose proof (stream_kind_is_kind id) as Hk. set (k := stream_kind id) in *.
  pose proof U64_MAX_val as HU. pose proof (r_peer_opened _ (proj2 Hs) k Hk) as Hpo.
  pose proof (r_peer_credit _ (proj2 Hs) k Hk) as Hpc.
  pose proof (r_receives _ (proj2 Hs) k Hk) as Hra. pose proof (peer_limit_u32 s k (proj1 Hs)).
  pose proof (r_peer_active _ (proj2 Hs) k Hk) as Hpa. pose proof (population_nonneg s false k).
  assert (0 ≤ id / 4 ∧ id / 4 < 2 ^ 60) as Hq by (unfold VARINT_MAX in Hid; div_lia).
  rewrite add64_small by lia.
  destruct (Z.leb_spec (id / 4 + 1) (at2 (peer_opened s) k)); swp_steps; [done|].
  destruct (Z.ltb_spec (at2 (receive_max_streams s) k) (id / 4 + 1)); swp_steps; [done|].
  rewrite sub64_small by lia. unfold saturating_add64.
  destruct (receive_application (options s)) eqn:Happ; cbn [negb orb]; [|specialize (Hra eq_refl); lia].
  rewrite (proj2 (Z.ltb_ge _ _)) by lia. swp_steps. cbn zeta.
  set (n := Z.to_nat (id / 4 + 1 - at2 (peer_opened s) k)).
  replace (id / 4 + 1 - at2 (peer_opened s) k) with (Z.of_nat n) by lia.
  split_and!; [done..|lia|lia|].
  pose proof (open_peers_frame k (seqZ (at2 (peer_opened s) k) (Z.of_nat n)) s) as Hf.
  unfold unopened, membership in Hf. simplify_eq.
  unfold opened_peers. unfold over. cbn. f_equal.
  - f_equal; lia.
  - replace (peer_active (foldl _ _ _)) with (peer_active s) by congruence.
    rewrite add64_small by lia. done.
Qed.

Lemma opened_peers_lookup k s n :
  is_kind k → (0 < n)%nat → 0 ≤ at2 (peer_opened s) k →
  at2 (peer_opened s) k + Z.of_nat n ≤ 2 ^ 60 →
  let id := (at2 (peer_opened s) k + Z.of_nat n - 1) * 4 + (1 - bit (role (options s))) + k * 2 in
  streams (opened_peers k s n) !! id = Some (peer_new_stream s id).
Proof.
  intros Hk Hn Hpo Hmax id. destruct n as [|n]; [lia|]. rewrite opened_peers_S. cbn.
  pose proof (opened_peers_frame k s n) as Hf. unfold accounts in Hf. simplify_eq.
  pose proof (bit_range (role (options s))). assert (0 ≤ k ≤ 1) by (destruct Hk; lia).
  pose proof U64_MAX_val as HU.
  replace (add64 _ _) with id.
  - rewrite lookup_insert_eq. unfold peer_new_stream. do 2 f_equal. unfold new_stream.
    f_equal; congruence.
  - subst id. assert (options (opened_peers k s n) = options s) as Ho by congruence.
    cbn in Ho. rewrite Ho. unfold mul64. rewrite wrap64_small by lia.
    rewrite (add64_small ((at2 (peer_opened s) k + Z.of_nat n) * 4)), add64_small; lia.
Qed.

(** A stream the peer referred to is live afterwards, and as it was before or
    just opened; the rest of the accounts is untouched. *)
Lemma peer_stream_inv id s :
  inv s → 0 ≤ id ≤ VARINT_MAX →
  swp (peer_stream id) s (λ r s',
    inv s' ∧
    match r with
    | Err _ => True
    | Ok _ =>
        options s' = options s ∧
        ∃ st, streams s' !! id = Some st ∧
          (streams s !! id = Some st ∨ streams s !! id = None ∧ st = peer_new_stream s id)
    end).
Proof.
  intros Hs Hid. eapply swp_mono; [by apply peer_stream_spec|].
  intros [[]|e] s'; [|intros [-> [st Hst]]; eauto 10|by intros [-> _]].
  cbn zeta. intros (Hn & Hown & Hpos & Hmax & ->).
  pose proof (stream_kind_is_kind id) as Hk. split; [by apply opened_peers_inv|].
  pose proof (opened_peers_frame (stream_kind id) s
    (Z.to_nat (id / 4 + 1 - at2 (peer_opened s) (stream_kind id)))) as Hf.
  split; [unfold accounts in Hf; congruence|].
  pose proof (r_peer_opened _ (proj2 Hs) _ Hk) as Hpo.
  pose proof (opened_peers_lookup _ s _ Hk Hpos ltac:(lia) ltac:(lia)) as Hl. cbn zeta in Hl.
  replace (at2 (peer_opened s) (stream_kind id) + Z.of_nat (Z.to_nat (id / 4 + 1 -
    at2 (peer_opened s) (stream_kind id))) - 1) with (id / 4) in Hl by lia.
  rewrite <- peer_id_parts in Hl by (done || lia). eauto.
Qed.

(** ** STREAM capsules *)

(** What the application has still to read. *)
Definition buffered (st : StreamState) : bytes := concat (ss_input st) ++ ss_input_staging st.

Lemma seal_input_buffered st : buffered (seal_input st) = buffered st.
Proof. unfold buffered, seal_input. cbn. by rewrite concat_app, app_nil_r, concat_cons, concat_nil, app_nil_r. Qed.

Definition blocks_ok (l : list bytes) : Prop := Forall (λ b : bytes, 0 < len b) l.

(** Appending to a block that has room for the octets. *)
Lemma fill_block_spec data st :
  len (ss_input_staging st) + len data ≤ QUANTUM → blocks_ok (ss_input st) →
  let st' := st <| ss_input_staging ::= λ b, b ++ data |> in
  ∃ i g, (if len (ss_input_staging st') =? QUANTUM then seal_input st' else st')
           = st <| ss_input := i |> <| ss_input_staging := g |> ∧
    concat i ++ g = buffered st ++ data ∧ blocks_ok i ∧ len g ≤ QUANTUM.
Proof.
  intros Hl Hb st'. change (ss_input_staging st') with (ss_input_staging st ++ data).
  rewrite len_app. destruct (Z.eqb_spec (len (ss_input_staging st) + len data) QUANTUM) as [HQ|].
  - exists (ss_input st ++ [ss_input_staging st ++ data]), []. split; [reflexivity|].
    unfold buffered. rewrite concat_app, concat_cons, concat_nil, !app_nil_r, app_assoc.
    split; [reflexivity|]. split; [|change (len (A := Z) []) with 0; unfold QUANTUM; lia].
    apply Forall_app. split; [done|]. constructor; [|constructor].
    rewrite len_app, HQ. reflexivity.
  - exists (ss_input st), (ss_input_staging st ++ data). split; [reflexivity|].
    unfold buffered. rewrite app_assoc, len_app. split; [reflexivity|]. by split.
Qed.

(** Coalescing appends the octets, in blocks that are never empty. *)
Lemma store_input_spec data st :
  len data ≤ QUANTUM → len (ss_input_staging st) ≤ QUANTUM → blocks_ok (ss_input st) →
  ∃ i g, store_input data st
           = st <| ss_input_bytes ::= λ n, add64 n (len data) |>
                <| ss_input := i |> <| ss_input_staging := g |> ∧
    concat i ++ g = buffered st ++ data ∧ blocks_ok i ∧ len g ≤ QUANTUM.
Proof.
  intros Hd Hg Hb. pose proof (len_nonneg (ss_input_staging st)). pose proof (len_nonneg data).
  assert (QUANTUM = 16384) as HQ by reflexivity. pose proof U64_MAX_val.
  set (st1 := st <| ss_input_bytes ::= λ n, add64 n (len data) |>).
  unfold store_input. fold st1. cbv zeta.
  change (ss_input_staging st1) with (ss_input_staging st).
  rewrite add64_small by lia.
  destruct (Z.ltb_spec QUANTUM (len (ss_input_staging st) + len data)).
  - destruct (fill_block_spec data (seal_input st1)) as (i & g & He & Hc & ?).
    + change (ss_input_staging (seal_input st1)) with (@nil Z). rewrite len_nil. lia.
    + change (ss_input (seal_input st1)) with (ss_input st ++ [ss_input_staging st]).
      apply Forall_app. split; [exact Hb|]. constructor; [lia|constructor].
    + cbv zeta in He. exists i, g. split; [exact He|]. rewrite seal_input_buffered in Hc. by split.
  - destruct (fill_block_spec data st1) as (i & g & He & Hc & ?); [done..|].
    cbv zeta in He. exists i, g. split; [exact He|]. by split.
Qed.

(** Reads of the stream table after writes to it. *)
Ltac lookups :=
  repeat (cbn [streams options ok_or over]; rewrite ?lookup_insert_eq, ?insert_insert_eq).

(** One stream is rewritten: what is left is its account and the totals. *)
Ltac inv_put_stream s id st :=
  eapply (inv_put s _ id st);
    [eassumption|eassumption|by lookups|done|done|done|try done|..].

Ltac settle_totals :=
  constructor; unfold session_cap in *; cbn; rewrite ?add64_small, ?sub64_small; lia.

(** The fields of a stream the accounts are about: not its wakers, nor
    [ready], [grant_pending], [opened_on_wire] and the stop code. *)
Definition account (st : StreamState) :=
  ((ss_output st, ss_output_staging st, ss_output_bytes st, ss_sent st, ss_wire_sent st,
    ss_send_max st),
   (ss_input st, ss_input_staging st, ss_input_bytes st, ss_received st, ss_consumed st,
    ss_receive_max st),
   (ss_send_fin st, ss_send_reset st, ss_reset_requested st, ss_fin_requested st),
   (ss_receive_fin st, ss_receive_reset st, ss_stop_sent st, ss_read_handle st)).

Lemma inv_put_neutral s s' id st st' :
  inv s → streams s !! id = Some st → streams s' = <[id := st']> (streams s) →
  accounts s' = accounts s → membership s' = membership s →
  pending_output s' = pending_output s → account st' = account st → inv s'.
Proof.
  intros Hs Hst Hs' Ha Hm Hp Hst'. destruct st, st'. unfold account in Hst'. cbn in Hst'.
  revert Ha Hm. simplify_eq. intros Ha Hm.
  pose proof (credit_lookup _ _ _ (proj1 Hs) Hst) as [].
  pose proof (c_totals _ (proj1 Hs)) as []. unfold accounts in Ha. injection Ha; intros.
  eapply (inv_put s s'); [done|exact Hst|exact Hs'|congruence|done|congruence|done| |].
  { by constructor. }
  cbn. rewrite !Z.sub_diag, !Z.add_0_r. constructor; unfold session_cap in *; congruence.
Qed.

Ltac inv_put_neutral s id st :=
  eapply (inv_put_neutral s _ id st); [eassumption|eassumption|by lookups|done..].

(** Once both credits are checked, the octets are stored or dropped and every
    account is settled: the storage check cannot fail. *)
Lemma accept_data_inv id data s st r t :
  inv s → streams s !! id = Some st → len data ≤ QUANTUM → receive_over st = false →
  r = ss_received st + len data → r ≤ ss_receive_max st →
  t = received s + len data → t ≤ receive_max_data s →
  swp (accept_data id data)
    (s <| streams ::= <[id := st <| ss_received := r |>]> |> <| received := t |>)
    (λ res s', inv s' ∧ res = Ok tt ∧ is_Some (streams s' !! id)).
Proof.
  intros Hs Hst Hd Hover -> Hr -> Ht. unfold accept_data. swp_steps. lookups.
  pose proof (credit_lookup _ _ _ (proj1 Hs) Hst) as Hok.
  pose proof (credit_share _ _ _ (proj1 Hs) Hst) as Hsh.
  destruct Hok. pose proof (c_totals _ (proj1 Hs)) as [].
  pose proof (len_nonneg data). pose proof U64_MAX_val. assert (VARINT_MAX ≤ U64_MAX) by done.
  cbn [ss_stop_sent over]. destruct (ss_stop_sent st) eqn:Hstop; swp_steps.
  - split; [|split; [done|by lookups; eexists]]. specialize (so_stopped eq_refl).
    inv_put_stream s id st.
    + constructor; cbn; rewrite ?Hstop; try done; rewrite ?add64_small; lia.
    + settle_totals.
  - destruct (is_empty data) eqn:He; cbn [negb]; swp_steps.
    + apply is_empty_true in He as ->. rewrite len_nil, !Z.add_0_r in *.
      split; [|split; [done|by lookups; eexists]]. inv_put_stream s id st.
      * constructor; cbn; rewrite ?Hstop; done.
      * settle_totals.
    + rewrite (proj2 (Z.ltb_ge _ _)).
      2: { unfold saturating_add64. cbn. unfold stream_cap in *. lia. }
      swp_steps.
      destruct (store_input_spec data (st <| ss_received := ss_received st + len data |>))
        as (i & g & -> & Hc & Hb & Hg); [done..|].
      assert (len (concat i) + len g = ss_input_bytes st + len data) as Hlen
        by (rewrite <- len_app, Hc; unfold buffered; rewrite !len_app; cbn; lia).
      split; [|split; [done|by lookups; eexists]]. inv_put_stream s id st.
      * constructor; cbn; rewrite ?Hstop; try done; rewrite ?add64_small; try lia.
        intros Hrh. destruct (so_no_reader Hrh) as [_ Hx]. by rewrite Hover in Hx.
      * settle_totals.
Qed.

Lemma wake_reader_inv id s :
  inv s → keeps (wake_reader id) s.
Proof.
  intros Hs. unfold wake_reader. swp_steps.
  destruct (streams s !! id) as [st|] eqn:Hst; cbn [ok_or]; [|done]. swp_steps.
  inv_put_neutral s id st.
Qed.

Lemma stream_received_inv id data fin s :
  inv s → 0 ≤ id ≤ VARINT_MAX → len data ≤ QUANTUM → keeps (stream_received id data fin) s.
Proof.
  intros Hs Hid Hd. unfold stream_received. apply swp_bind.
  eapply swp_mono; [by apply peer_stream_inv|].
  intros [b|e] s1 [Hs1 Hlive]; [|done]. destruct Hlive as (_ & st & Hst & _). clear s Hs.
  rename s1 into s, Hs1 into Hs. swp_steps. rewrite Hst. cbn [ok_or].
  destruct (_ || _) eqn:Hover; swp_steps; [done|].
  destruct (filter_opt _ (checked_add64 (ss_received st) _)) as [r|] eqn:Hr; cbn [ok_or];
    swp_steps; [|done].
  destruct (filter_opt _ (checked_add64 (received s) _)) as [t|] eqn:Ht; cbn [ok_or];
    swp_steps; [|done].
  apply filter_checked_add64 in Hr as (Hr & ? & _). apply filter_checked_add64 in Ht as (Ht & ? & _).
  eapply swp_mono; [by eapply (accept_data_inv id data s st r t)|].
  intros res s1 (Hs1 & -> & [st1 Hst1]). apply keeps_seq.
  - destruct fin; swp_steps; [|done]. rewrite Hst1. cbn [ok_or]. swp_steps.
    destruct (credit_lookup _ _ _ (proj1 Hs1) Hst1).
    pose proof (c_totals _ (proj1 Hs1)) as [].
    inv_put_stream s1 id st1.
    + constructor; cbn; try done. intros Hrh. split; [by apply so_no_reader|apply orb_true_r].
    + settle_totals.
  - intros _ s2 Hs2. apply keeps_seq; [by apply wake_reader_inv|].
    intros _ s3 Hs3. by apply reap_inv.
Qed.

(** ** Control capsules *)

(** Like [keeps_seq], for a step that looks up or opens the peer's stream. *)
Lemma keeps_peer_stream {B} id (f : bool → step Failure B) s :
  inv s → 0 ≤ id ≤ VARINT_MAX →
  (∀ b s' st, inv s' → streams s' !! id = Some st → options s' = options s → keeps (f b) s') →
  keeps (peer_stream id ≫= f) s.
Proof.
  intros Hs Hid Hf. apply swp_bind. eapply swp_mono; [by apply peer_stream_inv|].
  intros [b|e] s' [Hs' Hl]; [|done]. destruct Hl as (? & st & ? & _). by eapply Hf.
Qed.

Lemma max_data_received_inv value s :
  inv s → value ≤ VARINT_MAX → keeps (max_data_received value) s.
Proof.
  intros Hs Hv. unfold max_data_received. swp_steps.
  destruct (Z.ltb_spec value (send_max_data s)); swp_steps; [done|].
  apply inv_wake. destruct Hs as [[? ? ? ? ? []] Hr]. split.
  - constructor; try done. constructor; cbn; try done; [lia|].
    assert (VARINT_MAX ≤ U64_MAX) by done. lia.
  - by apply (registry_frame s).
Qed.

Lemma max_streams_received_inv k value s :
  inv s → is_kind k → keeps (max_streams_received k value) s.
Proof.
  intros Hs Hk. unfold max_streams_received. swp_steps.
  destruct (Z.ltb_spec value (at2 (send_max_streams s) k)); cbn [orb]; swp_steps; [done|].
  destruct (Z.ltb_spec (2 ^ 60) value); swp_steps; [done|].
  destruct Hs as [Hc [? ? ? ? Hown ? ? ?]]. split; [by apply (credit_frame s)|].
  constructor; try done. intros j Hj. specialize (Hown j Hj). cbn [send_max_streams own_opened over].
  rewrite at2_set2 by done. destruct (Z.eqb_spec k j) as [->|]; lia.
Qed.

Lemma reset_received_inv id code size s :
  inv s → 0 ≤ id ≤ VARINT_MAX → keeps (reset_received id code size) s.
Proof.
  intros Hs Hid. unfold reset_received. apply keeps_peer_stream; [done..|].
  intros _ s' st Hs' Hst _. clear s Hs. rename s' into s, Hs' into Hs. swp_steps. unfold u32_of.
  destruct (_ <=? _); swp_steps; [|done]. rewrite Hst. cbn [ok_or].
  destruct (_ || _); swp_steps; [done|].
  destruct (credit_lookup _ _ _ (proj1 Hs) Hst). pose proof (c_totals _ (proj1 Hs)) as [].
  eapply swp_mono; [apply wake_reader_inv|intros [] s' Hs'; [by apply reap_inv|done]].
  inv_put_stream s id st; [|settle_totals].
  constructor; cbn; try done. intros Hrh. split; [by apply so_no_reader|].
  unfold receive_over. cbn. by rewrite !orb_true_r.
Qed.

(** Dropping a stream's output gives its octets back to both credits. *)
Lemma discard_output_inv id code s st st' :
  inv s → streams s !! id = Some st → account st' = account st →
  inv (s <| streams ::= <[id := discard_output code st']> |>
         <| queued_send ::= λ n, n - ss_output_bytes st |>
         <| sent ::= λ n, n - ss_output_bytes st |>).
Proof.
  intros Hs Hst Ha. destruct (credit_lookup _ _ _ (proj1 Hs) Hst).
  pose proof (credit_share _ _ _ (proj1 Hs) Hst) as Hsh.
  pose proof (c_totals _ (proj1 Hs)) as []. destruct st, st'. unfold account in Ha. cbn in Ha.
  simplify_eq. eapply (inv_put s); [done|exact Hst|done..|by split_and!| |].
  - constructor; cbn in *; try done; lia.
  - cbn in *. settle_totals.
Qed.

Lemma stop_received_inv id code s :
  inv s → 0 ≤ id ≤ VARINT_MAX → keeps (stop_received id code) s.
Proof.
  intros Hs Hid. unfold stop_received. apply keeps_peer_stream; [done..|].
  intros _ s' st Hs' Hst _. clear s Hs. rename s' into s, Hs' into Hs. swp_steps. unfold u32_of.
  destruct (_ <=? _); swp_steps; [|done]. rewrite Hst. cbn [ok_or].
  destruct (_ || _); swp_steps; [done|]. destruct (_ && _); swp_steps.
  - apply inv_wake, inv_mark_ready.
    pose proof (credit_share _ _ _ (proj1 Hs) Hst) as Hsh.
    pose proof (c_totals _ (proj1 Hs)) as []. assert (VARINT_MAX ≤ U64_MAX) by done.
    match goal with |- context [discard_output ?c ?x] => set (st' := x) end.
    pose proof (discard_output_inv id code s st st' Hs Hst eq_refl) as Hd.
    eapply inv_frame; [..|exact Hd]; try done; [|by lookups].
    unfold accounts. cbn. rewrite !sub64_small by lia. done.
  - inv_put_neutral s id st.
Qed.

Lemma max_stream_data_received_inv id value s :
  inv s → 0 ≤ id ≤ VARINT_MAX → value ≤ VARINT_MAX →
  keeps (max_stream_data_received id value) s.
Proof.
  intros Hs Hid Hv. unfold max_stream_data_received. apply swp_bind, swp_get.
  destruct (receive_only s id); [by swp_steps|]. destruct (_ && _); [by swp_steps|].
  apply keeps_peer_stream; [done..|]. intros _ s' st Hs' Hst _. swp_steps.
  rewrite Hst. cbn [ok_or]. destruct (_ || _); swp_steps; [done|].
  destruct (Z.ltb_spec value (ss_send_max st)); swp_steps; [done|].
  destruct (credit_lookup _ _ _ (proj1 Hs') Hst). pose proof (c_totals _ (proj1 Hs')) as [].
  assert (VARINT_MAX ≤ U64_MAX) by done.
  inv_put_stream s' id st; [constructor; cbn; try done; lia|settle_totals].
Qed.

Lemma stream_data_blocked_received_inv id s :
  inv s → 0 ≤ id ≤ VARINT_MAX → keeps (stream_data_blocked_received id) s.
Proof.
  intros Hs Hid. unfold stream_data_blocked_received. apply keeps_peer_stream; [done..|].
  intros _ s' st Hs' Hst _. swp_steps. rewrite Hst. cbn [ok_or]. destruct (_ || _); by swp_steps.
Qed.

Lemma value_at_varint values i : Forall is_varint values → is_varint (value_at values i).
Proof.
  intros Hv. unfold value_at. destruct (nth_in_or_default i values 0) as [Hin| ->].
  - rewrite Forall_forall in Hv. apply Hv. by apply list_elem_of_In.
  - by split.
Qed.

Lemma control_received_inv kind values s :
  inv s → Forall is_varint values → keeps (control_received kind values) s.
Proof.
  intros Hs Hv. unfold control_received.
  pose proof (value_at_varint values 0 Hv) as H0. pose proof (value_at_varint values 1 Hv) as H1.
  destruct (kind =? MAX_DATA); [apply max_data_received_inv; [done|apply H0]|].
  destruct (_ || _).
  { apply max_streams_received_inv; [done|]. destruct (kind =? _); [by right|by left]. }
  destruct (kind =? RESET_STREAM); [by apply reset_received_inv|].
  destruct (kind =? STOP_SENDING); [by apply stop_received_inv|].
  destruct (kind =? MAX_STREAM_DATA); [apply max_stream_data_received_inv; [done..|apply H1]|].
  destruct (kind =? STREAM_DATA_BLOCKED); [by apply stream_data_blocked_received_inv|].
  destruct (_ || _); [destruct (_ <? _); by swp_steps|].
  destruct (kind =? DATA_BLOCKED); by swp_steps.
Qed.

Lemma receive_inv event s : inv s → bounded_event event → keeps (receive event) s.
Proof.
  intros Hs He. unfold receive. apply swp_bind, swp_get. destruct (_ || _); [by swp_steps|].
  destruct event as [id data fin start|kind values|data|code reason|]; cbn in He.
  - destruct He. by apply stream_received_inv.
  - destruct He. by apply control_received_inv.
  - swp_steps. destruct (_ && _); [inv_frame s|done].
  - swp_steps. apply inv_wake. inv_frame s.
  - swp_steps. inv_frame s.
Qed.
