(* ===== verification/WtOutputInvariant.v ===== *)
(** * Stream handles and output keep the ledgers

    The operations of [WtStreams] and the output side of [WtDriver] preserve
    [inv]. *)

From S2P Require Import Prelude Bytes WtCodec WtCodecSpec WtState WtProtocol WtStreams WtDriver.
From S2P Require Import WtLedger WtInvariant.

(** ** Send handles *)

Lemma send_reset_stream_inv id code s : inv s → keeps (send_reset_stream id code) s.
Proof.
  intros Hs. unfold send_reset_stream. swp_steps.
  destruct (streams s !! id) as [st|] eqn:Hst; [|by swp_steps].
  destruct (_ || _); [by swp_steps|]. swp_steps. apply inv_wake, inv_mark_ready.
  pose proof (credit_share _ _ _ (proj1 Hs) Hst) as Hsh.
  pose proof (c_totals _ (proj1 Hs)) as [].
  pose proof (discard_output_inv id code s st st Hs Hst eq_refl) as Hd.
  eapply inv_frame; [..|exact Hd]; try done.
  unfold accounts. cbn. unfold saturating_sub64. rewrite !Z.max_l by lia. done.
Qed.

(** A check followed by a look at the caller's stream. *)
Lemma keeps_checked {B} id e (f : StreamState → step io_error B) s :
  inv s → (∀ s' st, inv s' → streams s' !! id = Some st → keeps (f st) s') →
  keeps (check;; live_stream id e ≫= f) s.
Proof.
  intros Hs Hf. apply keeps_seq; [by apply check_inv|]. intros _ s' Hs'. swp_steps.
  destruct (streams s' !! id) as [st|] eqn:Hst; cbn [ok_or]; [by apply Hf|done].
Qed.

Lemma poll_stopped_inv id cx s : inv s → keeps (poll_stopped id cx) s.
Proof.
  intros Hs. unfold poll_stopped. apply keeps_checked; [done|]. intros s' st Hs' Hst.
  destruct (ss_stop_code st); swp_steps; [done|]. inv_put_neutral s' id st.
Qed.

Lemma poll_flush_inv id cx s : inv s → keeps (poll_flush id cx) s.
Proof.
  intros Hs. unfold poll_flush. apply keeps_checked; [done|]. intros s' st Hs' Hst.
  destruct (_ || _); [by swp_steps|]. destruct (_ =? _); swp_steps; [done|].
  inv_put_neutral s' id st.
Qed.

Lemma poll_shutdown_inv id cx s : inv s → keeps (poll_shutdown id cx) s.
Proof.
  intros Hs. unfold poll_shutdown. apply keeps_checked; [done|]. intros s' st Hs' Hst.
  destruct (ss_send_fin st); [by swp_steps|]. destruct (_ || _); [by swp_steps|]. swp_steps.
  apply inv_mark_ready. destruct (credit_lookup _ _ _ (proj1 Hs') Hst).
  pose proof (c_totals _ (proj1 Hs')) as [].
  inv_put_stream s' id st; [by constructor|settle_totals].
Qed.

Lemma saturating_sub64_spec x y :
  0 ≤ saturating_sub64 x y ∧ (0 < saturating_sub64 x y → saturating_sub64 x y = x - y).
Proof. unfold saturating_sub64. lia. Qed.

Lemma min6_spec a b c d e f :
  let m := Z.min (Z.min (Z.min (Z.min (Z.min a b) c) d) e) f in
  0 ≤ a → 0 ≤ b → 0 ≤ c → 0 ≤ d → 0 ≤ e → 0 ≤ f →
  0 ≤ m ∧ m ≤ a ∧ m ≤ b ∧ m ≤ c ∧ m ≤ d ∧ m ≤ e ∧ m ≤ f.
Proof. intros m **. subst m. split_and!; lia. Qed.

(** A write takes no more than every limit has room for. *)
Lemma write_size_spec s st n :
  0 ≤ n →
  let size := write_size s st n in
  0 ≤ size ≤ n ∧
  (0 < size →
   len (ss_output_staging st) + size ≤ QUANTUM ∧ ss_output_bytes st + size ≤ stream_cap s ∧
   queued_send s + size ≤ session_cap s ∧ sent s + size ≤ send_max_data s ∧
   ss_sent st + size ≤ ss_send_max st).
Proof.
  intros Hn. unfold write_size. fold (stream_cap s) (session_cap s). cbv zeta.
  repeat match goal with
  | |- context [saturating_sub64 ?x ?y] =>
      pose proof (saturating_sub64_spec x y); generalize dependent (saturating_sub64 x y); intros
  end.
  assert (0 < U64_MAX) as HU by done.
  match goal with |- context [Z.min (Z.min (Z.min (Z.min (Z.min ?a ?b) ?c) ?d) ?e) ?f] =>
    pose proof (min6_spec a b c d e f) as Hm; cbv zeta in Hm;
    generalize dependent (Z.min (Z.min (Z.min (Z.min (Z.min a b) c) d) e) f)
  end.
  intros m Hm. destruct Hm as (? & ? & ? & ? & ? & ? & ?); [lia..|]. split; [lia|].
  intros. split_and!; lia.
Qed.

Lemma poll_write_inv id cx bytes s : inv s → keeps (poll_write id cx bytes) s.
Proof.
  intros Hs. unfold poll_write. destruct (is_empty bytes); [by swp_steps|].
  apply keeps_seq; [by apply check_inv|]. clear s Hs. intros _ s Hs. swp_steps.
  destruct (streams s !! id) as [st|] eqn:Hst; cbn [ok_or]; [|done].
  destruct (_ || _) eqn:Hclosed; swp_steps; [done|].
  pose proof (write_size_spec s st (len bytes) (len_nonneg bytes)) as [Hsize Hroom].
  set (size := write_size s st (len bytes)) in *.
  destruct (Z.eqb_spec size 0); swp_steps; [inv_put_neutral s id st|].
  specialize (Hroom ltac:(lia)). destruct Hroom as (Hr1 & Hr2 & Hr3 & Hr4 & Hr5).
  apply inv_mark_ready. pose proof (credit_share _ _ _ (proj1 Hs) Hst) as Hsh.
  destruct (credit_lookup _ _ _ (proj1 Hs) Hst). pose proof (c_totals _ (proj1 Hs)) as [].
  apply orb_false_elim in Hclosed as [[[Hc1 Hc2]%orb_false_elim Hc3]%orb_false_elim Hc4].
  pose proof U64_MAX_val. inv_put_stream s id st.
  - split_and!; [done|cbn; congruence..].
  - assert (len (takeZ size bytes) = size) as Hlt by (apply len_takeZ; lia).
    constructor; cbn; rewrite ?Hc4, ?len_app, ?Hlt, ?add64_small; try done; try lia.
    + rewrite so_output_bytes, Hc4. lia.
    + unfold send_over. cbn. by rewrite Hc1, Hc3.
  - settle_totals.
Qed.

Lemma release_handle_inv id release s :
  inv s →
  (∀ st, streams s !! id = Some st → inv (s <| streams ::= <[id := release st]> |>)) →
  keeps (release_handle id release) s.
Proof.
  intros Hs Hrel. unfold release_handle. apply swp_bind, swp_get. apply keeps_seq.
  - destruct (streams s !! id) as [st|]; swp_steps; [by apply Hrel|done].
  - intros _ s' Hs'. swp_steps. eapply swp_mono; [by apply reap_inv|].
    intros [[]|e] s2 Hs2; swp_steps; [done|inv_frame s2].
Qed.

Lemma send_release_inv id s : inv s → keeps (send_release id) s.
Proof.
  intros Hs. apply release_handle_inv; [done|]. intros st Hst. inv_put_neutral s id st.
Qed.

(** ** Receive handles *)

(** Nothing is buffered for the application, and nothing will be. *)
Definition drained (st : StreamState) : Prop :=
  ss_input_bytes st = 0 ∧ ss_stop_sent st || receive_over st = true.

Lemma recv_release_inv id s :
  inv s → (∀ st, streams s !! id = Some st → drained st) → keeps (recv_release id) s.
Proof.
  intros Hs Hd. apply release_handle_inv; [done|]. intros st Hst.
  destruct (credit_lookup _ _ _ (proj1 Hs) Hst). pose proof (c_totals _ (proj1 Hs)) as [].
  inv_put_stream s id st; [|settle_totals]. constructor; cbn; try done. intros _. exact (Hd st Hst).
Qed.

Lemma recv_stop_inv id code s :
  inv s →
  swp (recv_stop id code) s
    (λ _ s', inv s' ∧ ∀ st, streams s' !! id = Some st → drained st).
Proof.
  intros Hs. unfold recv_stop. swp_steps.
  destruct (streams s !! id) as [st|] eqn:Hst; [|swp_steps; by rewrite Hst].
  set (send_stop := negb _ && _ && _).
  set (st' := over ss_grant_pending _ (if send_stop then _ else _)).
  set (s1 := s <| streams ::= <[id := st']> |>
               <| consumed ::= λ n, add64 n (ss_input_bytes st) |>
               <| receive_grant_pending ::= λ b, b || (0 <? ss_input_bytes st) |>).
  pose proof (credit_share _ _ _ (proj1 Hs) Hst) as Hsh.
  destruct (credit_lookup _ _ _ (proj1 Hs) Hst). pose proof (c_totals _ (proj1 Hs)) as [].
  pose proof U64_MAX_val. assert (VARINT_MAX = 2 ^ 62 - 1) by done.
  assert (drained st') as Hd.
  { split; [subst st'; by destruct send_stop|]. subst st' send_stop. unfold receive_over.
    destruct (ss_receive_fin st) eqn:E1, (ss_receive_reset st) eqn:E2, (ss_stop_sent st) eqn:E3;
      cbn; by rewrite ?E1, ?E2, ?E3. }
  assert (inv s1) as Hs1.
  { subst s1. inv_put_stream s id st.
    - subst st'. by destruct send_stop.
    - subst st'. constructor; destruct send_stop; cbn in *; try done;
        rewrite ?add64_small; try done; try lia.
    - subst st'. replace (ss_output_bytes _) with (ss_output_bytes st) by (by destruct send_stop).
      replace (ss_input_bytes (over _ _ _)) with 0 by (by destruct send_stop). settle_totals. }
  assert (∀ s2, streams s2 = streams s1 → ∀ st2, streams s2 !! id = Some st2 → drained st2) as Hd'.
  { intros s2 -> st2. subst s1. lookups. by intros [= <-]. }
  swp_steps. fold s1. destruct send_stop; swp_steps; [|split; [done|by apply (Hd' s1)]].
  eapply swp_mono; [by apply queue_control_inv|]. intros [a|e] s2 [Hs2 He]; cbn; swp_steps;
    (split; [done|by apply Hd']).
Qed.

(** A read takes a prefix of what is buffered: at least one octet if there is
    any and the buffer has room. *)
Lemma take_input_spec room st :
  0 < room → len (ss_input_staging st) ≤ QUANTUM → blocks_ok (ss_input st) →
  let '(data, st') := take_input room st in
  ∃ i g, st' = st <| ss_input := i |> <| ss_input_staging := g |> ∧
    buffered st = data ++ concat i ++ g ∧ blocks_ok i ∧ len g ≤ QUANTUM ∧
    len data ≤ room ∧ (buffered st ≠ [] → data ≠ []).
Proof.
  intros Hroom Hg Hb. unfold take_input, buffered.
  destruct (ss_input st) as [|block blocks] eqn:Hi.
  - pose proof (len_nonneg (ss_input_staging st)).
    exists [], (dropZ (Z.min room (len (ss_input_staging st))) (ss_input_staging st)).
    split_and!; [| |constructor|..].
    + unfold over. cbn. by rewrite Hi.
    + cbn. by rewrite takeZ_dropZ.
    + rewrite len_dropZ by lia. lia.
    + rewrite len_takeZ by lia. lia.
    + cbn. intros Hne He. apply (f_equal len) in He. rewrite len_takeZ, len_nil in He by lia.
      destruct (ss_input_staging st); [done|]. rewrite len_cons in He.
      pose proof (len_nonneg l). lia.
  - apply Forall_cons in Hb as [Hb Hbs]. set (count := Z.min room (len block)).
    exists (if is_empty (dropZ count block) then blocks else dropZ count block :: blocks),
      (ss_input_staging st).
    split_and!; [done| | |done|..].
    + rewrite concat_cons, <- !app_assoc. rewrite <- (takeZ_dropZ count block) at 1.
      rewrite <- app_assoc. f_equal. destruct (dropZ count block) eqn:Hd; [done|].
      cbn [is_empty]. by rewrite concat_cons, <- app_assoc.
    + destruct (is_empty (dropZ count block)) eqn:He; [done|]. constructor; [|done].
      by apply is_empty_false.
    + rewrite len_takeZ by lia. lia.
    + intros _ He. apply (f_equal len) in He. rewrite len_takeZ, len_nil in He by lia. lia.
Qed.

Lemma buffered_empty st :
  negb (is_empty (ss_input st)) || negb (is_empty (ss_input_staging st)) = false →
  buffered st = [].
Proof.
  unfold buffered. destruct (ss_input st), (ss_input_staging st); cbn; done.
Qed.

Lemma poll_read_inv id cx room s : 0 ≤ room → inv s → keeps (poll_read id cx room) s.
Proof.
  intros Hroom Hs. unfold poll_read. destruct (Z.eqb_spec room 0); [by swp_steps|]. swp_steps.
  destruct (streams s !! id) as [st|] eqn:Hst; cbn [ok_or]; [|done].
  destruct (negb _ || negb _) eqn:Hdata.
  - destruct (credit_lookup _ _ _ (proj1 Hs) Hst). pose proof (c_totals _ (proj1 Hs)) as [].
    pose proof (credit_share _ _ _ (proj1 Hs) Hst) as Hsh.
    pose proof (take_input_spec room st ltac:(lia) so_input_staging so_blocks) as Ht.
    destruct (take_input room st) as [data st'].
    destruct Ht as (i & g & -> & Hbuf & Hi & Hg & Hlen & _). swp_steps.
    pose proof (f_equal len Hbuf) as Hcount. unfold buffered in Hcount. rewrite !len_app in Hcount.
    pose proof (len_nonneg data). pose proof (len_nonneg (concat i)). pose proof (len_nonneg g).
    pose proof U64_MAX_val. assert (VARINT_MAX = 2 ^ 62 - 1) by done.
    match goal with |- context [if ?b then _ else _] => destruct b end;
      (inv_put_stream s id st; [|settle_totals]);
      constructor; cbn; try done; rewrite ?add64_small, ?sub64_small; try done; try lia;
      intros Hx; try (specialize (so_stopped Hx); lia);
      (destruct (so_no_reader Hx); split; [lia|done]).
  - destruct (ss_receive_reset st); [by swp_steps|]. destruct (ss_receive_fin st); [by swp_steps|].
    destruct (failure s); [by swp_steps|].
    destruct (ended s || finish s || is_some (closing s)); swp_steps; [done|].
    inv_put_neutral s id st.
Qed.

(** ** Output selection *)

(** No selected output awaits its commit. *)
Definition idle (s : State) : Prop := inv s ∧ pending_output s = None.

Abbreviation keeps_idle m s := (swp m s (λ _ s', idle s')).

Lemma idle_seq {E A B} (m : step E A) (f : A → step E B) s Q :
  keeps_idle m s → (∀ a s', idle s' → swp (f a) s' Q) → (∀ e s', idle s' → Q (Err e) s') →
  swp (m ≫= f) s Q.
Proof.
  intros Hm Hf He. apply swp_bind. eapply swp_mono; [apply Hm|].
  intros [a|e] s' Hs; [by apply Hf|by apply He].
Qed.

Lemma next_session_grant_idle s : idle s → keeps_idle next_session_grant s.
Proof.
  intros [Hs Hp]. unfold next_session_grant. swp_steps.
  destruct (receive_grant_pending s); swp_steps; [|done].
  destruct (filter_opt _ _) as [n|] eqn:Hn; cbn [ok_or]; swp_steps; [|split; [inv_frame s|done]].
  apply filter_checked_add64 in Hn as (-> & Hmax & _).
  destruct (_ && _) eqn:Hgrant; swp_steps; [|split; [inv_frame s|done]].
  apply andb_prop in Hgrant as [_ Hlt%Z.ltb_lt]. unfold send_control. swp_steps.
  match goal with |- context [idle ?x] => assert (idle x) as Hx end.
  { split; [|done]. destruct Hs as [[? ? ? ? ? []] Hr]. split; [|by apply (registry_frame s)].
    constructor; try done. constructor; cbn; try done; unfold session_cap in *; cbn; lia. }
  destruct (map_err _ _); by swp_steps.
Qed.

Lemma next_streams_grant_idle k kind s : idle s → keeps_idle (next_streams_grant k kind) s.
Proof.
  intros [Hs Hp]. unfold next_streams_grant, send_control. swp_steps.
  destruct (at2 (streams_grant_pending s) k); swp_steps; [|done].
  destruct (map_err _ _); swp_steps; (split; [inv_frame s|done]).
Qed.

Lemma stream_grant_idle id s : idle s → keeps_idle (stream_grant id) s.
Proof.
  intros [Hs Hp]. unfold stream_grant. swp_steps.
  destruct (streams s !! id) as [st|] eqn:Hst; cbn [ok_or]; [|done]. swp_steps.
  assert (idle (s <| streams ::= <[id := st <| ss_grant_pending := false |>]> |>)) as Hs1
    by (split; [inv_put_neutral s id st|done]).
  destruct (_ && _) eqn:Hopen; swp_steps; [|done].
  destruct (filter_opt _ _) as [n|] eqn:Hn; cbn [ok_or]; swp_steps; [|done].
  apply filter_checked_add64 in Hn as (-> & Hmax & _).
  destruct (Z.ltb_spec (ss_receive_max st)
    (ss_consumed st + max_stream_buffer_bytes (limits (options s)))); swp_steps; [|done].
  unfold send_control. swp_steps.
  destruct (credit_lookup _ _ _ (proj1 Hs) Hst). pose proof (c_totals _ (proj1 Hs)) as [].
  match goal with |- context [idle ?x] => assert (idle x) as Hx end.
  { split; [|done]. inv_put_stream s id st; [|settle_totals]. assert (VARINT_MAX ≤ U64_MAX) by done.
    constructor; cbn; try done; unfold stream_cap; lia. }
  destruct (map_err _ _); by swp_steps.
Qed.

Lemma grant_loop_idle `{GrantPick} fuel : ∀ s, idle s → keeps_idle (grant_loop fuel) s.
Proof.
  induction fuel as [|fuel IH]; intros s Hs; cbn [grant_loop]; [by swp_steps|]. swp_steps.
  destruct (grant_pick (streams s)) as [id|]; [|by swp_steps].
  apply idle_seq; [by apply stream_grant_idle| |done].
  intros [o|] s' Hs'; [by swp_steps|by apply IH].
Qed.

Lemma next_datagram_idle s : idle s → keeps_idle next_datagram s.
Proof.
  intros [Hs Hp]. unfold next_datagram. swp_steps. destruct (send_datagram s); swp_steps; [|done].
  destruct (map_err _ _); swp_steps; (split; [inv_frame s|done]).
Qed.

Lemma next_close_idle s : idle s → keeps_idle next_close s.
Proof.
  intros [Hs Hp]. unfold next_close. swp_steps. destruct (closing s); swp_steps; [|done].
  split; [inv_frame s|done].
Qed.

(** A stream is rewritten while no output is selected, and possibly selected. *)
Lemma inv_select s s' id st st' :
  idle s → streams s !! id = Some st → streams s' = <[id := st']> (streams s) →
  accounts s' = accounts s → membership s' = membership s →
  (∀ j, j ≠ id → pending_len s' j = 0) → pending_ok s' →
  stream_ok (stream_cap s) (pending_len s' id) st' →
  ss_output_bytes st' = ss_output_bytes st → ss_input_bytes st' = ss_input_bytes st → inv s'.
Proof.
  intros [Hs Hp] Hst Hs' Ha Hm Hj Hpo Hok Ho Hi. pose proof (c_totals _ (proj1 Hs)) as [].
  unfold accounts in Ha. injection Ha; intros.
  eapply (inv_rewrite s s' id st st'); try done; [congruence| |].
  - intros j Hne. rewrite Hj by done. unfold pending_len. by rewrite Hp.
  - rewrite Ho, Hi, !Z.sub_diag, !Z.add_0_r. constructor; unfold session_cap in *; congruence.
Qed.

(** The writer's view of the selected output. *)
Definition selected (o : option Output) (s : State) : Prop :=
  match o with
  | Some (OBytes wire (Some (id, fin))) =>
      ∃ data, pending_output s = Some (mkPending id data fin) ∧ stream id data fin = Ok wire
  | _ => pending_output s = None
  end.

Definition ok_output {E} (r : result E (option Output)) : option Output :=
  match r with
  | Ok o => o
  | Err _ => None
  end.

Abbreviation selects m s := (swp m s (λ r s', inv s' ∧ selected (ok_output r) s')).

Lemma stream_encodes id data fin :
  0 ≤ id ≤ VARINT_MAX → len data ≤ QUANTUM → ∃ wire, stream id data fin = Ok wire.
Proof.
  intros Hid Hd. unfold stream. destruct (varint_wire_exists id Hid) as [w Hw].
  rewrite (vw_put _ _ Hw []). cbn [mbind result_bind].
  pose proof (vw_len _ _ Hw). pose proof (len_nonneg data).
  destruct (encode_wires (if fin then STREAM_FIN else STREAM) (([] ++ w) ++ data))
    as (w1 & w2 & _ & _ & ->); [by destruct fin| |by eexists].
  rewrite !len_app. change (len (A := Z) []) with 0. unfold is_varint, VARINT_MAX, QUANTUM in *. lia.
Qed.

Lemma live_id s id st : inv s → streams s !! id = Some st → 0 ≤ id ≤ VARINT_MAX.
Proof.
  intros [_ Hr] Hst. assert (id ∈ dom (streams s)) as Hin by (apply elem_of_dom; by eexists).
  apply (r_ids _ Hr id Hin).
Qed.

Lemma idle_lookup s id st :
  idle s → streams s !! id = Some st → stream_ok (stream_cap s) 0 st.
Proof.
  intros [Hs Hp] Hst. pose proof (credit_lookup _ _ _ (proj1 Hs) Hst) as Hok.
  unfold pending_len in Hok. by rewrite Hp in Hok.
Qed.

Lemma idle_put s s' id st st' :
  idle s → streams s !! id = Some st → streams s' = <[id := st']> (streams s) →
  accounts s' = accounts s → membership s' = membership s → pending_output s' = None →
  stream_ok (stream_cap s) 0 st' → ss_output_bytes st' = ss_output_bytes st →
  ss_input_bytes st' = ss_input_bytes st → idle s'.
Proof.
  intros Hidle Hst H1 H2 H3 H4 H5 H6 H7. split; [|done].
  eapply (inv_select s s' id st st'); try done; unfold pending_len, pending_ok; by rewrite H4.
Qed.

Ltac idle_put s id st := eapply (idle_put s _ id st); [done|done|by lookups|done|done|done|..].

Lemma reap_idle id s : idle s → keeps_idle (reap id) s.
Proof.
  intros [Hs Hp]. eapply swp_mono; [apply swp_and; [by apply reap_inv|apply reap_spec]|].
  intros r s' [Hs' [[_ ->]|(st & ? & ? & ? & ? & _ & _ & ->)]]; by split.
Qed.

(** The RESET of a stream whose output was dropped. *)
Lemma stream_output_reset id st code s :
  idle s → streams s !! id = Some st → ss_reset_requested st = Some code →
  selects (stream_output id st) s.
Proof.
  intros Hidle Hst Hreset. pose proof Hidle as [Hs Hp]. unfold stream_output.
  cbv zeta. cbn [ss_reset_requested over]. rewrite Hreset. swp_steps.
  destruct (idle_lookup _ _ _ Hidle Hst). rewrite Hreset in *. cbn [is_some orb] in *.
  specialize (so_discarded eq_refl).
  assert (∀ w, stream_ok (stream_cap s) 0 (st <| ss_ready := false |>
    <| ss_reset_requested := None |> <| ss_send_reset := Some code |>
    <| ss_write_waker := w |>)) as Hok.
  { intros w. constructor; cbn; try done. by rewrite so_discarded. }
  destruct (map_err _ _) as [wire|e]; swp_steps.
  - eapply swp_mono; [apply reap_idle|].
    + idle_put s id st; [apply Hok|done|done].
    + intros [[]|e] s' Hs'; swp_steps; apply Hs'.
  - idle_put s id st; [|done|done]. apply (Hok (ss_write_waker st)).
Qed.

(** The queue of sealed output blocks stays empty. *)
Ltac no_output :=
  match goal with
  | H : ss_output ?st = [] |- context [is_empty (ss_output ?x)] =>
      change (ss_output x) with (ss_output st); rewrite H; cbn [is_empty]
  end.

(** STREAM data, the opening of a stream on the wire, or its FIN. *)
Lemma stream_output_data id st s :
  idle s → streams s !! id = Some st → ss_reset_requested st = None →
  selects (stream_output id st) s.
Proof.
  intros Hidle Hst Hreset. pose proof Hidle as [Hs Hp]. unfold stream_output.
  cbv zeta. cbn [ss_reset_requested over]. rewrite Hreset. swp_steps.
  cbn [ss_send_fin ss_send_reset over]. destruct (idle_lookup _ _ _ Hidle Hst).
  assert (idle (s <| streams ::= <[id := st <| ss_ready := false |>]> |>)) as Hs1
    by (idle_put s id st; [by constructor|done|done]).
  destruct (ss_send_fin st || is_some (ss_send_reset st)) eqn:Hover; swp_steps; [apply Hs1|].
  unfold take_output. cbn [ss_output over]. rewrite so_output.
  set (data := ss_output_staging st). rewrite Hreset in so_output_bytes.
  cbn [is_some] in so_output_bytes.
  assert (∀ st', st' = st <| ss_ready := false |> <| ss_output_staging := [] |>
      <| ss_opened_on_wire := true |> → selects
    (put_stream id st';;
     wire ← lift (map_err (λ _, failure_state "invalid outgoing stream")
       (stream id data (ss_fin_requested st && true)));
     update (λ s, s <| pending_output := Some (mkPending id data (ss_fin_requested st && true)) |>);;
     mret (Some (OBytes wire (Some (id, ss_fin_requested st && true)))))
    (s <| streams ::= <[id := st <| ss_ready := false |>]> |>)) as Hsel.
  { intros st' ->. swp_steps.
    destruct (stream_encodes id data (ss_fin_requested st && true)) as [wire Hw];
      [by eapply live_id|done|]. rewrite Hw. cbn [map_err]. swp_steps.
    split; [|by exists data]. rewrite andb_true_r in *.
    eapply (inv_select s _ id st); [done|done|by lookups|done|done| | | |done|done].
    - intros j Hne. unfold pending_len. cbn. by rewrite (proj2 (Z.eqb_neq _ _)).
    - unfold pending_ok. cbn. split; [done|]. lookups. eexists. split; [done|]. by split.
    - unfold pending_len. cbn. rewrite Z.eqb_refl. constructor; cbn; try done; try lia.
      rewrite Hreset, so_output_bytes. cbn [is_some]. change (len (A := Z) []) with 0. subst data. lia. }
  destruct (is_empty (ss_output_staging (st <| ss_ready := false |>))) eqn:He;
    cbn [ss_output_staging over is_some negb andb default] in *.
  - apply is_empty_true in He. cbn [ss_opened_on_wire ss_fin_requested over].
    destruct (ss_opened_on_wire st && negb (ss_fin_requested st)); [swp_steps; apply Hs1|].
    subst data. rewrite He in Hsel.
    repeat no_output. apply Hsel. unfold over. cbn. by rewrite He.
  - repeat no_output. by apply Hsel.
Qed.

Lemma stream_output_spec id st s :
  idle s → streams s !! id = Some st → selects (stream_output id st) s.
Proof.
  intros. destruct (ss_reset_requested st) eqn:?; [by eapply stream_output_reset|].
  by apply stream_output_data.
Qed.

Lemma ready_loop_spec queue : ∀ s, idle s → selects (ready_loop queue) s.
Proof.
  induction queue as [|id queue IH]; intros s Hs; cbn [ready_loop]; [swp_steps; apply Hs|].
  swp_steps. assert (idle (s <| ready_streams := queue |>)) as Hs1.
  { destruct Hs. split; [inv_frame s|done]. }
  destruct (streams _ !! id) as [st|] eqn:Hst; [|by apply IH]. apply swp_bind.
  eapply swp_mono; [by apply stream_output_spec|].
  intros [[o|]|e] s' Hs'; [by swp_steps|by apply IH|done].
Qed.

(** The result is not STREAM output, which would await a commit. *)
Definition plain {E} (r : result E (option Output)) : Prop :=
  ∀ wire id fin, ok_output r ≠ Some (OBytes wire (Some (id, fin))).

(** A stage that leaves the session idle, followed by the other stages. *)
Lemma selects_or_else (m n : step Failure (option Output)) s :
  keeps_idle m s →
  swp m s (λ r _, plain r) →
  (∀ s', idle s' → selects n s') → selects (or_else m n) s.
Proof.
  intros Hm Hr Hn. unfold or_else. apply swp_bind.
  eapply swp_mono; [exact (swp_and _ _ _ _ Hm Hr)|].
  intros [[o|]|e] s' [[Hs' Hp] Ho]; [|by apply Hn|done]. swp_steps. split; [done|].
  destruct o as [|wire [[id fin]|]|]; cbn in *; try done. by destruct (Ho wire id fin).
Qed.

Lemma send_control_plain kind values e s :
  swp (send_control kind values e) s
    (λ r _, plain r).
Proof. unfold send_control. swp_steps. by destruct (map_err _ _). Qed.

Lemma stream_grant_plain id s :
  swp (stream_grant id) s
    (λ r _, plain r).
Proof.
  unfold stream_grant. swp_steps. destruct (ok_or _ _); swp_steps; [|done].
  destruct (_ && _); swp_steps; [|done]. destruct (ok_or _ _); swp_steps; [|done].
  destruct (_ <? _); swp_steps; [|done]. apply send_control_plain.
Qed.

Lemma grant_loop_plain `{GrantPick} fuel : ∀ s,
  swp (grant_loop fuel) s
    (λ r _, plain r).
Proof.
  induction fuel as [|fuel IH]; intros s; cbn [grant_loop]; [by swp_steps|]. swp_steps.
  destruct (grant_pick (streams s)) as [id|]; [|by swp_steps]. apply swp_bind.
  eapply swp_mono; [apply stream_grant_plain|].
  intros [[o|]|e] s' Ho; [by swp_steps|apply IH|done].
Qed.

Lemma next_output_spec `{GrantPick} s : idle s → selects next_output s.
Proof.
  intros Hs. pose proof Hs as [Hi Hp]. unfold next_output. swp_steps. rewrite Hp. cbn [is_some].
  destruct (finish s); [by swp_steps|].
  destruct (controls s) as [|wire rest]; [|swp_steps; split; [inv_frame s|done]].
  apply selects_or_else; [by apply next_session_grant_idle| |].
  { unfold next_session_grant. swp_steps. destruct (receive_grant_pending s); swp_steps; [|done].
    destruct (ok_or _ _); swp_steps; [|done]. destruct (_ && _); swp_steps; [|done].
    apply send_control_plain. }
  clear s Hs Hi Hp. intros s Hs.
  apply selects_or_else; [by apply next_streams_grant_idle| |].
  { unfold next_streams_grant. swp_steps. destruct (at2 _ _); swp_steps; [|done].
    apply send_control_plain. }
  clear s Hs. intros s Hs. apply selects_or_else; [by apply next_streams_grant_idle| |].
  { unfold next_streams_grant. swp_steps. destruct (at2 _ _); swp_steps; [|done].
    apply send_control_plain. }
  clear s Hs. intros s Hs. apply selects_or_else.
  { unfold next_stream_grant. swp_steps. by apply grant_loop_idle. }
  { unfold next_stream_grant. swp_steps. apply grant_loop_plain. }
  clear s Hs. intros s Hs. apply selects_or_else; [by apply next_datagram_idle| |].
  { unfold next_datagram. swp_steps. destruct (send_datagram s); swp_steps; [|done].
    by destruct (map_err _ _). }
  clear s Hs. intros s Hs. unfold or_else. apply swp_bind.
  eapply swp_mono; [unfold next_stream_output; apply swp_bind, swp_get, ready_loop_spec; apply Hs|].
  intros [[o|]|e] s' Ho; [by swp_steps| |done]. unfold next_close. swp_steps.
  destruct (closing s'); swp_steps; [|done]. destruct Ho. split; [inv_frame s'|done].
Qed.

(** ** Commit and cancellation *)

(** The stream of the selected output. *)
Lemma pending_stream s p :
  inv s → pending_output s = Some p →
  ∃ st, streams s !! po_id p = Some st ∧ send_over st = false ∧ len (po_bytes p) ≤ QUANTUM ∧
    (po_fin p = true → ss_fin_requested st = true ∧ ss_output_staging st = []) ∧
    stream_ok (stream_cap s) (len (po_bytes p)) st.
Proof.
  intros [Hc _] Hp. pose proof (c_pending _ Hc) as Hpo. unfold pending_ok in Hpo.
  rewrite Hp in Hpo. destruct Hpo as (Hl & st & Hst & Hso & Hfin).
  pose proof (credit_lookup _ _ _ Hc Hst) as Hok. unfold pending_len in Hok.
  rewrite Hp, Z.eqb_refl in Hok. eauto 10.
Qed.

(** The selected output leaves the session: its stream's account [st'] and
    the totals are settled without it. *)
Lemma inv_resolve s s' p st st' :
  inv s → pending_output s = Some p → pending_output s' = None →
  streams s !! po_id p = Some st → streams s' = <[po_id p := st']> (streams s) →
  options s' = options s → membership s' = membership s →
  (initial_send_stream s', initial_receive_stream s') =
    (initial_send_stream s, initial_receive_stream s) →
  stream_ok (stream_cap s) 0 st' →
  totals s' (msum ss_output_bytes (streams s) + (ss_output_bytes st' - ss_output_bytes st))
            (msum ss_input_bytes (streams s) + (ss_input_bytes st' - ss_input_bytes st)) →
  idle s'.
Proof.
  intros Hs Hp Hp' Hst Hs' Ho Hm Hi Hok Ht. split; [|done].
  eapply (inv_rewrite s s'); try done; unfold pending_len, pending_ok; rewrite ?Hp, ?Hp'; try done.
  intros j Hne. by rewrite (proj2 (Z.eqb_neq _ _)).
Qed.

(** The carrier took the selected output, which was not cancelled. *)
Lemma commit_pending_output_inv s id fin data :
  inv s → pending_output s = Some (mkPending id data fin) →
  output_is_cancelled s (Some (id, fin)) = false →
  swp (commit_pending_output id fin) s (λ _ s', idle s').
Proof.
  intros Hs Hp Hcan. destruct (pending_stream _ _ Hs Hp) as (st & Hst & Hso & Hl & Hfin & Hok).
  cbn [po_id po_bytes po_fin] in *. unfold output_is_cancelled in Hcan. rewrite Hst in Hcan.
  apply orb_false_elim in Hcan as [_ [[Hr _]%orb_false_elim _]%orb_false_elim].
  unfold commit_pending_output. swp_steps. rewrite Hp. cbn [ok_or po_id po_fin po_bytes].
  rewrite Z.eqb_refl, eqb_reflx. cbn [negb orb]. swp_steps. cbn [streams over]. rewrite Hst.
  cbn [ok_or]. swp_steps.
  pose proof (credit_share _ _ _ (proj1 Hs) Hst) as Hsh. pose proof (c_totals _ (proj1 Hs)) as [].
  destruct Hok. rewrite so_output, Hr in *. cbn [is_empty negb is_some orb] in *. swp_steps.
  pose proof (len_nonneg data). pose proof (len_nonneg (ss_output_staging st)).
  eapply swp_mono; [apply reap_idle|done].
  match goal with |- idle (over streams _ ?x) => enough (idle x) as [Hi Hn] end.
  { split; [by apply inv_wake|done]. }
  eapply (inv_resolve s _ _ st); [done|exact Hp|done|done|reflexivity|done|done|done|..].
  - constructor; cbn; try done; unfold saturating_sub64, saturating_add64; rewrite ?Hr;
      cbn [is_some]; try lia. unfold send_over in *. cbn.
    apply orb_false_elim in Hso as [_ ->]. destruct fin; [intros _; by apply Hfin|done].
  - constructor; unfold session_cap in *; cbn; unfold saturating_sub64; lia.
Qed.

(** Cancelled output is forgotten, its octets refunded unless the RESET or
    STOP that cancelled it already did. *)
Lemma discard_pending_output_inv {E} s :
  inv s → swp (discard_pending_output (E := E)) s (λ _ s', idle s').
Proof.
  intros Hs. unfold discard_pending_output. swp_steps.
  destruct (pending_output s) as [p|] eqn:Hp; [|by swp_steps].
  destruct (pending_stream _ _ Hs Hp) as (st & Hst & Hso & Hl & Hfin & Hok).
  swp_steps. rewrite Hst.
  pose proof (credit_share _ _ _ (proj1 Hs) Hst) as Hsh. pose proof (c_totals _ (proj1 Hs)) as [].
  pose proof (len_nonneg (po_bytes p)). pose proof (len_nonneg (ss_output_staging st)).
  destruct Hok. destruct (is_some (ss_reset_requested st)) eqn:Hr; swp_steps.
  - match goal with |- idle (mark_ready _ ?x) => enough (idle x) as [Hi Hn] end.
    { split; [by apply inv_mark_ready|]. unfold mark_ready. repeat case_match; done. }
    eapply (inv_resolve s _ _ st); [done|exact Hp|done|done|reflexivity|done|done|done|..].
    + constructor; cbn; rewrite ?Hr; done.
    + settle_totals.
  - eapply (inv_resolve s _ _ st); [done|exact Hp|done|done|reflexivity|done|done|done|..].
    + constructor; cbn; rewrite ?Hr; try done; unfold saturating_sub64; lia.
    + constructor; unfold session_cap in *; cbn; unfold saturating_sub64; lia.
Qed.
