(* ===== verification/WtViews.v ===== *)
(** * What each operation does to the streams

    The abstract view of a stream: the octets that wait on either side, how
    each direction has ended, and which handles are left.  Credits, wakers,
    readiness and grants are bookkeeping the view leaves out.  Every operation
    of the session gets its effect on the views of all streams, which is all
    the end-to-end arguments need. *)

From S2P Require Import Prelude Bytes WtCodec WtCodecSpec WtCodecBounds WtState WtProtocol.
From S2P Require Import WtStreams WtDriver WtLedger WtInvariant WtOutputInvariant.

Record View : Type := mkView {
  v_staging : bytes;
  v_wire_sent : Z;
  v_reset_requested : option Z;
  v_send_reset : option Z;
  v_send_fin : bool;
  v_fin_requested : bool;
  v_stop_received : bool;
  v_buffered : bytes;
  v_receive_fin : bool;
  v_receive_reset : option Z;
  v_stop_sent : bool;
  v_read_handle : bool;
  v_write_handle : bool;
}.

#[export] Instance View_eta : Eta View := λ v,
  mkView (v_staging v) (v_wire_sent v) (v_reset_requested v) (v_send_reset v) (v_send_fin v)
    (v_fin_requested v) (v_stop_received v) (v_buffered v) (v_receive_fin v) (v_receive_reset v) (v_stop_sent v)
    (v_read_handle v) (v_write_handle v).

Definition view (st : StreamState) : View :=
  mkView (ss_output_staging st) (ss_wire_sent st) (ss_reset_requested st) (ss_send_reset st)
    (ss_send_fin st) (ss_fin_requested st) (ss_stop_received st) (buffered st) (ss_receive_fin st)
    (ss_receive_reset st) (ss_stop_sent st) (ss_read_handle st) (ss_write_handle st).

Definition views (s : State) : gmap Z View := view <$> streams s.

Definition v_receive_over (v : View) : bool := v_receive_fin v || is_some (v_receive_reset v).
Definition v_send_over (v : View) : bool := v_send_fin v || is_some (v_send_reset v).
Definition v_done (v : View) : bool :=
  v_receive_over v && v_send_over v && negb (v_read_handle v) && negb (v_write_handle v).

Lemma lookup_views s id : views s !! id = view <$> streams s !! id.
Proof. apply lookup_fmap. Qed.

Lemma lookup_views_Some s id st : streams s !! id = Some st → views s !! id = Some (view st).
Proof. rewrite lookup_views. by intros ->. Qed.

(** ** Operations that move no stream data *)

(** The capsules that wait to be sent are encodings of control messages, none
    of them the reset of a stream. *)
Definition queued_capsule (wire : bytes) : Prop :=
  ∃ m, message_wire m = Ok wire ∧ sendable m ∧
    match m with
    | MControl kind _ => kind ≠ RESET_STREAM
    | MDrain => True
    | _ => False
    end.

Definition close_capsule (wire : bytes) : Prop :=
  ∃ code reason, close code reason = Ok wire ∧ sendable (MClose code reason).

Record queues (s : State) : Prop := {
  q_controls : Forall queued_capsule (controls s);
  q_closing wire : closing s = Some wire → close_capsule wire;
  q_datagram payload :
    send_datagram s = Some payload → Forall is_byte payload ∧ len payload ≤ MAX_DATAGRAM;
}.

(** The parts of the state only few operations write. *)
Definition roster (s : State) :=
  (options s, accepted s, own_opened s, peer_opened s, pending_output s, ended s).

(** Session-wide facts that never go back. *)
Record onward (s s' : State) : Prop := {
  on_options : options s' = options s;
  on_failure : is_some (failure s) = true → is_some (failure s') = true;
  on_finish : finish s = true → finish s' = true;
  on_queues : queues s → queues s';
}.

Record still (s s' : State) : Prop := {
  st_views : views s' = views s;
  st_roster : roster s' = roster s;
  st_onward : onward s s';
}.

#[export] Instance onward_preorder : PreOrder onward.
Proof. split; [by intros s|]. intros x y z [] []. constructor; auto. congruence. Qed.

#[export] Instance still_preorder : PreOrder still.
Proof.
  split; [by intros s|]. intros x y z [? ? ?] [? ? ?].
  constructor; [congruence|congruence|by etrans].
Qed.

Abbreviation quiet m s := (swp m s (λ _ s', still s s')).

Lemma queues_frame s s' :
  (controls s', closing s', send_datagram s') = (controls s, closing s, send_datagram s) →
  queues s → queues s'.
Proof.
  intros [= H1 H2 H3] [? ? ?]. constructor; [by rewrite H1|by rewrite H2|by rewrite H3].
Qed.

Lemma onward_frame s s' :
  (options s', failure s', finish s', controls s', closing s', send_datagram s')
    = (options s, failure s, finish s, controls s, closing s, send_datagram s) → onward s s'.
Proof.
  intros [= H0 H1 H2 H3 H4 H5]. constructor; [done|by rewrite H1|by rewrite H2|].
  apply queues_frame. congruence.
Qed.

Lemma still_frame s s' :
  streams s' = streams s → roster s' = roster s →
  (options s', failure s', finish s', controls s', closing s', send_datagram s')
    = (options s, failure s, finish s, controls s, closing s, send_datagram s) → still s s'.
Proof.
  intros Hs Hr Hq. constructor; [unfold views; congruence|done|by apply onward_frame].
Qed.

(** Putting back a stream with the same view. *)
Lemma views_put s s' id st st' :
  streams s !! id = Some st → streams s' = <[id := st']> (streams s) → view st' = view st →
  views s' = views s.
Proof.
  intros Hst Hs' Hv. unfold views. rewrite Hs', fmap_insert, Hv. apply insert_id.
  by apply lookup_views_Some.
Qed.

Lemma still_put s s' id st st' :
  streams s !! id = Some st → streams s' = <[id := st']> (streams s) → view st' = view st →
  roster s' = roster s →
  (options s', failure s', finish s', controls s', closing s', send_datagram s')
    = (options s, failure s, finish s, controls s, closing s, send_datagram s) → still s s'.
Proof.
  intros Hst Hs' Hv Hr Hq. constructor; [by eapply views_put|done|by apply onward_frame].
Qed.

(** The state is rewritten outside the streams and the queues. *)
Ltac still_frame := apply still_frame; reflexivity.
Ltac still_put id st := eapply (still_put _ _ id st); [done|reflexivity|reflexivity|reflexivity|reflexivity].

Lemma views_wake s : views (s <| streams ::= fmap take_wakers |>) = views s.
Proof. unfold views. cbn. rewrite <- map_fmap_compose. by apply map_fmap_ext. Qed.

Lemma still_wake s : still s (s <| streams ::= fmap take_wakers |>).
Proof. constructor; [apply views_wake|done|by apply onward_frame]. Qed.

Lemma still_mark_ready id s : still s (mark_ready id s).
Proof.
  unfold mark_ready. destruct (streams s !! id) as [st|] eqn:Hst; [|done].
  destruct (ss_ready st); [done|]. still_put id st.
Qed.

Lemma quiet_bind {E A B} (m : step E A) (f : A → step E B) s :
  quiet m s → (∀ a s', still s s' → quiet (f a) s') → quiet (m ≫= f) s.
Proof.
  intros Hm Hf. apply swp_bind. eapply swp_mono; [apply Hm|]. intros [a|e] s' Hs'; [|done].
  eapply swp_mono; [by apply Hf|]. intros r s2 Hs2. by etrans.
Qed.

Lemma still_refl s : still s s.
Proof. done. Qed.

Lemma check_quiet s : quiet check s.
Proof.
  unfold check. swp_steps. destruct (failure s); swp_steps; [done|].
  by destruct (_ || _ || _); swp_steps.
Qed.

Lemma still_failure s f : still s (s <| failure := Some f |>).
Proof. constructor; [done|done|]. constructor; [done|done|done|by apply queues_frame]. Qed.

Lemma fail_quiet {E} f s : quiet (fail (E := E) f) s.
Proof.
  unfold fail. swp_steps. etrans; [|apply still_wake].
  destruct (is_some (failure s)); [done|apply still_failure].
Qed.

Lemma queue_control_quiet kind values s :
  (∀ wire, control kind values = Ok wire → queued_capsule wire) →
  quiet (queue_control kind values) s.
Proof.
  intros Hq. eapply swp_mono; [apply queue_control_spec|]. intros [|] s'.
  - intros (wire & Hw & _ & ->). constructor; [done|done|]. constructor; [done|done|done|].
    intros [? ? ?]. constructor; [|done|done]. cbn. apply Forall_app. auto.
  - by intros [-> _].
Qed.

Lemma session_close_quiet code reason s :
  is_u32 code → Forall is_byte reason → quiet (session_close code reason) s.
Proof.
  intros Hc Hr. unfold session_close. destruct (close code reason) as [wire|] eqn:Hw;
    [|apply fail_quiet]. swp_steps.
  destruct (_ && _); swp_steps; [|done]. etrans; [|apply still_wake].
  constructor; [done|done|]. constructor; [done|done|done|]. intros [? ? ?].
  constructor; [done| |done]. intros wire' [= <-]. exists code, reason. split; [done|].
  split_and!; [done|done|]. unfold close in Hw. by destruct (utf8_valid reason).
Qed.

Lemma session_drain_quiet s : quiet session_drain s.
Proof.
  unfold session_drain. swp_steps. destruct (negb (draining s)); swp_steps; [|done].
  eapply swp_mono; [apply queue_control_quiet|].
  { intros wire Hw. by exists MDrain. }
  intros [|e] s' Hs'; swp_steps.
  - etrans; [|exact Hs']. still_frame.
  - etrans; [|apply still_failure]. etrans; [|exact Hs']. still_frame.
Qed.

Lemma session_send_datagram_quiet payload s :
  Forall is_byte payload → quiet (session_send_datagram payload) s.
Proof.
  intros Hb. unfold session_send_datagram. destruct (Z.ltb_spec MAX_DATAGRAM (len payload));
    [by swp_steps|]. apply quiet_bind; [apply check_quiet|]. intros _ s' _. swp_steps.
  destruct (is_some (send_datagram s')) eqn:Hd; [done|].
  constructor; [done|done|]. constructor; [done|done|done|]. intros [? ? ?]. constructor; [done|done|].
  intros payload' [= <-]. done.
Qed.

Lemma read_datagram_quiet s : quiet read_datagram s.
Proof.
  unfold read_datagram. apply quiet_bind; [apply check_quiet|]. intros _ s' _. swp_steps.
  destruct (receive_datagram s'); swp_steps; [still_frame|done].
Qed.

Lemma closed_quiet s : quiet closed s.
Proof.
  unfold closed. swp_steps. destruct (remote_close s); [by swp_steps|].
  destruct (failure s); swp_steps; [done|]. by destruct (ended s); swp_steps.
Qed.

Lemma live_stream_quiet {E B} id (e : E) (f : StreamState → step E B) s :
  (∀ st, streams s !! id = Some st → quiet (f st) s) → quiet (live_stream id e ≫= f) s.
Proof.
  intros Hf. swp_steps. destruct (streams s !! id) as [st|] eqn:Hst; cbn [ok_or]; [|done].
  by apply Hf.
Qed.

Lemma poll_stopped_quiet id cx s : quiet (poll_stopped id cx) s.
Proof.
  unfold poll_stopped. apply quiet_bind; [apply check_quiet|]. intros _ s' _.
  apply live_stream_quiet. intros st Hst. destruct (ss_stop_code st); swp_steps; [done|].
  still_put id st.
Qed.

Lemma poll_flush_quiet id cx s : quiet (poll_flush id cx) s.
Proof.
  unfold poll_flush. apply quiet_bind; [apply check_quiet|]. intros _ s' _.
  apply live_stream_quiet. intros st Hst. destruct (_ || _); [by swp_steps|].
  destruct (_ =? _); swp_steps; [done|]. still_put id st.
Qed.

(** ** Operations on one stream *)

(** One stream's view changes by [f], the others stay. *)
Record changes (id : Z) (f : View → View) (s s' : State) : Prop := {
  ch_views : views s' = alter f id (views s);
  ch_roster : roster s' = roster s;
  ch_onward : onward s s';
}.

Lemma changes_still id f s s1 s2 s3 :
  still s s1 → changes id f s1 s2 → still s2 s3 → changes id f s s3.
Proof.
  intros [Hv1 Hr1 Ho1] [Hv2 Hr2 Ho2] [Hv3 Hr3 Ho3]. constructor; [congruence|congruence|].
  by etrans; [|etrans].
Qed.

Lemma changes_put id f s s' st st' :
  streams s !! id = Some st → streams s' = <[id := st']> (streams s) → view st' = f (view st) →
  roster s' = roster s →
  (options s', failure s', finish s', controls s', closing s', send_datagram s')
    = (options s, failure s, finish s, controls s, closing s, send_datagram s) → changes id f s s'.
Proof.
  intros Hst Hs' Hv Hr Hq. constructor; [|done|by apply onward_frame].
  unfold views. rewrite Hs', fmap_insert, Hv. symmetry. apply map_eq. intros j.
  destruct (decide (j = id)) as [->|Hj].
  - rewrite lookup_alter_eq, lookup_insert_eq, lookup_fmap, Hst. done.
  - by rewrite lookup_alter_ne, lookup_insert_ne by done.
Qed.

Ltac changes_put id st :=
  eapply (changes_put id _ _ _ st); [done|reflexivity|reflexivity|reflexivity|reflexivity].

(** The stream goes away once both directions have ended without handles. *)
Definition reaped (id : Z) (m : gmap Z View) : gmap Z View :=
  if match m !! id with Some v => v_done v | None => false end then delete id m else m.

Record reaps (id : Z) (s s' : State) : Prop := {
  rp_views : views s' = reaped id (views s);
  rp_roster : roster s' = roster s;
  rp_onward : onward s s';
}.

Lemma reap_views id s : swp (reap id) s (λ _ s', reaps id s s').
Proof.
  unfold reap. swp_steps.
  assert (match streams s !! id with Some st => stream_done st | None => false end
    = match views s !! id with Some v => v_done v | None => false end) as ->.
  { rewrite lookup_views. by destruct (streams s !! id). }
  assert (∀ s', views s' = reaped id (views s) → roster s' = roster s →
    (options s', failure s', finish s', controls s', closing s', send_datagram s')
      = (options s, failure s, finish s, controls s, closing s, send_datagram s) → reaps id s s') as Hr.
  { intros s' ? ? ?. constructor; [done|done|by apply onward_frame]. }
  destruct (match views s !! id with Some _ => _ | None => _ end) eqn:Hd; cbn [negb]; swp_steps;
    [|apply Hr; [|done|done]; unfold reaped; by rewrite Hd].
  assert (view <$> delete id (streams s) = reaped id (views s)) as Hv.
  { unfold reaped. rewrite Hd. apply fmap_delete. }
  destruct (is_own s id); swp_steps; [by apply Hr|].
  destruct (filter_opt _ _); swp_steps; by apply Hr.
Qed.

(** ** Send handles *)

Definition discard_view (code : Z) (v : View) : View :=
  v <| v_staging := [] |> <| v_reset_requested := Some code |>.

Lemma send_reset_stream_views id code s :
  swp (send_reset_stream id code) s (λ r s', r = Ok tt ∧
    (still s s' ∨ ∃ v, views s !! id = Some v ∧ v_send_over v = false
      ∧ v_reset_requested v = None ∧ changes id (discard_view code) s s')).
Proof.
  unfold send_reset_stream. swp_steps.
  destruct (streams s !! id) as [st|] eqn:Hst; [|swp_steps; by split; [|left]].
  destruct (_ || _ || _) eqn:Hover; swp_steps; (split; [done|]); [by left|right].
  apply orb_false_elim in Hover as [Hover Hreq]. apply is_some_false in Hreq.
  exists (view st). split_and!; [by apply lookup_views_Some|done|done|].
  eapply changes_still; [done| |].
  2: { etrans; [apply still_mark_ready|apply still_wake]. }
  changes_put id st.
Qed.

(** The session still runs. *)
Record open_session (s : State) : Prop := {
  os_failure : failure s = None;
  os_finish : finish s = false;
  os_ended : ended s = false;
}.

Lemma check_open s :
  swp check s (λ r s', s' = s ∧ (r = Ok tt → open_session s ∧ closing s = None)).
Proof.
  unfold check. swp_steps. destruct (failure s) eqn:Hf; swp_steps; [by split|].
  destruct (_ || _ || _) eqn:Ho; swp_steps; (split; [done|]); [done|intros _].
  apply orb_false_elim in Ho as [[? ?]%orb_false_elim ?%is_some_false]. by split.
Qed.

Definition writable (v : View) : Prop :=
  v_send_over v = false ∧ v_fin_requested v = false ∧ v_reset_requested v = None.

Definition write_view (data : bytes) (v : View) : View := v <| v_staging ::= λ b, b ++ data |>.

Lemma poll_write_views id cx data s :
  swp (poll_write id cx data) s (λ r s',
    match r with
    | Ok (Ready n) =>
        0 ≤ n ≤ len data ∧ (data ≠ [] → 0 < n) ∧
        (n = 0 ∧ still s s' ∨
         ∃ v, views s !! id = Some v ∧ writable v ∧ open_session s
           ∧ changes id (write_view (takeZ n data)) s s')
    | Ok Pending => still s s' ∧ open_session s
    | Err _ => still s s'
    end).
Proof.
  unfold poll_write. destruct (is_empty data) eqn:He.
  { apply is_empty_true in He as ->. swp_steps. split_and!; [done|done|done|by left]. }
  apply swp_bind. eapply swp_mono; [apply check_open|].
  intros [[]|] s' [-> Hopen]; [|done]. destruct (Hopen eq_refl) as [Hs _]. swp_steps.
  destruct (streams s !! id) as [st|] eqn:Hst; cbn [ok_or]; [|done].
  destruct (_ || _) eqn:Hclosed; swp_steps; [done|].
  apply orb_false_elim in Hclosed as [[[Hf Hfr]%orb_false_elim Hsr]%orb_false_elim Hrr%is_some_false].
  pose proof (write_size_spec s st (len data) (len_nonneg data)) as [Hsize _].
  set (size := write_size s st (len data)) in *.
  destruct (Z.eqb_spec size 0); swp_steps; [split; [still_put id st|done]|].
  split_and!; [lia|lia|lia|]. right. exists (view st).
  split_and!; [by apply lookup_views_Some| |done|].
  - split_and!; [|done|done]. unfold v_send_over. cbn. by rewrite Hf, Hsr.
  - eapply changes_still; [done| |apply still_mark_ready]. changes_put id st.
Qed.

Definition shutdown_view (v : View) : View := v <| v_fin_requested := true |>.

Lemma poll_shutdown_views id cx s :
  swp (poll_shutdown id cx) s (λ _ s', still s s' ∨
    ∃ v, views s !! id = Some v ∧ v_send_over v = false ∧ changes id shutdown_view s s').
Proof.
  unfold poll_shutdown. apply swp_bind. eapply swp_mono; [apply check_open|].
  intros [[]|] s' [-> _]; [|by left]. swp_steps.
  destruct (streams s !! id) as [st|] eqn:Hst; cbn [ok_or]; [|by left].
  destruct (ss_send_fin st) eqn:Hf; [swp_steps; by left|].
  destruct (is_some (ss_send_reset st)) eqn:Hsr; [swp_steps; by left|]. cbn [orb].
  destruct (is_some (ss_reset_requested st)); swp_steps; [by left|right].
  exists (view st). split_and!; [by apply lookup_views_Some| |].
  - unfold v_send_over. cbn. by rewrite Hf, Hsr.
  - eapply changes_still; [done| |apply still_mark_ready]. changes_put id st.
Qed.

(** Clearing a handle flag, then reaping. *)
Record releases (id : Z) (f : View → View) (s s' : State) : Prop := {
  rl_views : views s' = reaped id (alter f id (views s));
  rl_roster : roster s' = roster s;
  rl_onward : onward s s';
}.

Lemma release_handle_views id release f s :
  (∀ st, view (release st) = f (view st)) →
  swp (release_handle id release) s (λ r s', r = Ok tt ∧ releases id f s s').
Proof.
  intros Hf. unfold release_handle. swp_steps.
  assert (∀ s1, changes id f s s1 → swp (reap id) s1 (λ r s',
    releases id f s (match r with Ok _ => s' | Err e => s' <| failure := Some e |> end))) as Hreap.
  { intros s1 [Hv Hr Ho]. eapply swp_mono; [apply reap_views|].
    intros [|e] s2 [Hv2 Hr2 Ho2].
    - constructor; [congruence|congruence|by etrans].
    - destruct (still_failure s2 e) as [Hv3 Hr3 Ho3].
      constructor; [congruence|congruence|]. by etrans; [|etrans]. }
  destruct (streams s !! id) as [st|] eqn:Hst; swp_steps; (eapply swp_mono; [apply Hreap|]).
  - eapply (changes_put id f _ _ st); [done|reflexivity|apply Hf|reflexivity|reflexivity].
  - intros [|] s' ?; by swp_steps.
  - constructor; [|done|done]. symmetry. apply map_eq. intros j.
    destruct (decide (j = id)) as [->|]; [|by rewrite lookup_alter_ne].
    rewrite lookup_alter_eq, lookup_views, Hst. done.
  - intros [|] s' ?; by swp_steps.
Qed.

(** ** Receive handles *)

Definition stop_view (v : View) : View :=
  v <| v_buffered := [] |> <| v_stop_sent ::= λ b, b || negb (v_receive_over v) |>.

Lemma recv_stop_views id code s :
  is_u32 code → inv s →
  swp (recv_stop id code) s (λ _ s', views s !! id = None ∧ still s s' ∨ changes id stop_view s s').
Proof.
  intros Hcode Hs. unfold recv_stop. swp_steps.
  destruct (streams s !! id) as [st|] eqn:Hst.
  2: { swp_steps. left. split; [|done]. by rewrite lookup_views, Hst. }
  pose proof (live_id _ _ _ Hs Hst) as Hid.
  set (send_stop := negb _ && _ && _).
  set (st' := over ss_grant_pending _ (if send_stop then _ else _)).
  assert (view st' = stop_view (view st)) as Hv.
  { transitivity ((view st) <| v_buffered := [] |>
      <| v_stop_sent := if send_stop then true else ss_stop_sent st |>).
    - unfold st'. by destruct send_stop.
    - unfold stop_view, v_receive_over, send_stop. cbn [v_receive_fin v_receive_reset view].
      by destruct (ss_receive_fin st), (ss_receive_reset st), (ss_stop_sent st) eqn:Hss;
        unfold over; cbn; rewrite ?Hss. }
  swp_steps. match goal with |- swp _ ?x _ => set (s1 := x) end.
  assert (changes id stop_view s s1) as Hc
    by (eapply (changes_put id _ _ _ st); [done|reflexivity|done|reflexivity|reflexivity]).
  destruct send_stop; swp_steps; [|by right].
  eapply swp_mono; [apply queue_control_quiet|].
  - intros wire Hw. exists (MControl STOP_SENDING [id; code]). split_and!; [done| |done].
    split; [done|]. repeat constructor; unfold is_u32, U32_MAX, VARINT_MAX, is_varint in *; lia.
  - intros [|] s2 H2; cbn [map_err]; swp_steps; right; by eapply changes_still.
Qed.

Lemma poll_read_views id cx room s :
  0 ≤ room → inv s →
  swp (poll_read id cx room) s (λ r s',
    match r with
    | Ok (Ready data) =>
        room = 0 ∧ data = [] ∧ still s s' ∨
        ∃ v, views s !! id = Some v ∧
          (data = [] ∧ still s s' ∧ v_buffered v = [] ∧ v_receive_fin v = true
             ∧ v_receive_reset v = None
           ∨ data ≠ [] ∧ len data ≤ room ∧
             ∃ rest, v_buffered v = data ++ rest
               ∧ changes id (λ v, v <| v_buffered := rest |>) s s')
    | _ => still s s'
    end).
Proof.
  intros Hroom Hs. unfold poll_read. destruct (Z.eqb_spec room 0); [swp_steps; by left|]. swp_steps.
  destruct (streams s !! id) as [st|] eqn:Hst; cbn [ok_or]; [|done].
  pose proof (lookup_views_Some _ _ _ Hst) as Hv.
  destruct (negb _ || negb _) eqn:Hdata.
  - destruct (credit_lookup _ _ _ (proj1 Hs) Hst).
    pose proof (take_input_spec room st ltac:(lia) so_input_staging so_blocks) as Ht.
    destruct (take_input room st) as [data st'].
    destruct Ht as (i & g & -> & Hb & Hi & Hg & Hlen & Hne). swp_steps. right. exists (view st).
    split; [done|right]. split_and!; [|done|].
    + apply Hne. intros Hnil. unfold buffered in Hnil. apply app_nil in Hnil as [Hc Hstg].
      rewrite Hstg in Hdata. destruct (ss_input st) as [|b blocks]; [done|].
      cbn in Hc. apply app_nil in Hc as [-> _]. inversion so_blocks. done.
    + exists (concat i ++ g). split; [done|].
      eapply (changes_put id _ _ _ st); [done|reflexivity| |reflexivity|reflexivity].
      by destruct (_ && _).
  - apply buffered_empty in Hdata. destruct (ss_receive_reset st) eqn:Hrr; [by swp_steps|].
    destruct (ss_receive_fin st) eqn:Hf.
    { swp_steps. right. exists (view st). split; [done|]. left. done. }
    destruct (failure s); [by swp_steps|]. destruct (_ || _); swp_steps; [done|]. still_put id st.
Qed.

(** ** New streams *)

Definition uni_id (id : Z) : bool := negb (Z.land id 2 =? 0).

(** A stream nothing has happened on; [own] if this side opened it. *)
Definition new_view (uni own : bool) : View := {|
  v_staging := []; v_wire_sent := 0; v_reset_requested := None; v_send_reset := None;
  v_send_fin := uni && negb own; v_fin_requested := false; v_stop_received := false; v_buffered := [];
  v_receive_fin := uni && own; v_receive_reset := None; v_stop_sent := false;
  v_read_handle := negb uni || negb own; v_write_handle := negb uni || own;
|}.

Definition opened_count (s : State) (own : bool) : Z * Z :=
  if own then own_opened s else peer_opened s.

Record opens (own : bool) (id : Z) (s s' : State) : Prop := {
  op_own : is_own s id = own;
  op_id : id / 4 = at2 (opened_count s own) (stream_kind id);
  op_views : views s' = <[id := new_view (uni_id id) own]> (views s);
  op_count side : opened_count s' side
    = if Bool.eqb side own
      then set2 (stream_kind id) (id / 4 + 1) (opened_count s side) else opened_count s side;
  op_accepted : accepted s'
    = if own then accepted s
      else set2 (stream_kind id) (at2 (accepted s) (stream_kind id) ++ [id]) (accepted s);
  op_rest : (options s', pending_output s', ended s') = (options s, pending_output s, ended s);
  op_onward : onward s s';
}.

Lemma view_new_stream s id own : view (new_stream s id own) = new_view (uni_id id) own.
Proof. reflexivity. Qed.

Lemma open_views uni s :
  inv s →
  swp (open uni) s (λ r s',
    match r with
    | Ok (Ready id) =>
        open_session s ∧ stream_kind id = (if uni then 1 else 0)
          ∧ ∃ s1, opens true id s s1 ∧ still s1 s'
    | _ => still s s'
    end).
Proof.
  intros Hs. unfold open. apply swp_bind. eapply swp_mono; [apply check_open|].
  intros [[]|] s' [-> Hopen]; [|done]. destruct (Hopen eq_refl) as [Hrun _]. clear Hopen.
  set (k := if uni then 1 else 0). assert (is_kind k) as Hk by (destruct uni; [by right|by left]).
  swp_steps. destruct (Z.ltb_spec (at2 (own_opened s) k) (at2 (send_max_streams s) k)) as [Hlt|];
    [|by cbn; swp_steps].
  destruct (Z.ltb_spec (at2 (own_active s) k) (concurrency_cap s uni)) as [Hcap|];
    [|by cbn; swp_steps].
  cbn [andb]. swp_steps.
  replace (bit (role (options s)) + (if uni then 2 else 0)) with (bit (role (options s)) + k * 2)
    by (by destruct uni).
  pose proof (r_own_opened _ (proj2 Hs) k Hk) as Ho.
  pose proof (bit_range (role (options s))) as Hb. pose proof U64_MAX_val as HU.
  rewrite checked_mul64_small by lia. cbn [mbind option_bind].
  assert (0 ≤ k ≤ 1) by (destruct uni; subst k; lia).
  rewrite checked_add64_small by lia. cbn [filter_opt].
  rewrite (proj2 (Z.leb_le _ _)) by (unfold VARINT_MAX; lia). cbn [ok_or]. swp_steps.
  rewrite Z.add_assoc.
  destruct (stream_id_parts (at2 (own_opened s) k) (bit (role (options s))) k)
    as (Hi1 & Hi2 & Hi3); [lia..|done|].
  set (id := at2 (own_opened s) k * 4 + bit (role (options s)) + k * 2) in *.
  split_and!; [done|done|].
  match goal with |- context [mark_ready id ?x] => exists x end.
  split; [|apply still_mark_ready]. constructor; try done.
  - unfold is_own. rewrite Hi2. apply Z.eqb_refl.
  - by rewrite Hi3, Hi1.
  - unfold views. cbn. rewrite fmap_insert. f_equal. by destruct uni.
  - rewrite Hi3, Hi1. intros []; cbn; [|done]. by rewrite add64_small by lia.
  - by apply onward_frame.
Qed.

Lemma accept_views uni s :
  swp (accept uni) s (λ r s',
    match r with
    | Ok (Ready id) =>
        let k := if uni then 1 else 0 in
        ∃ rest, at2 (accepted s) k = id :: rest ∧ s' = s <| accepted ::= set2 k rest |>
    | _ => still s s'
    end).
Proof.
  unfold accept. apply swp_bind. eapply swp_mono; [apply check_open|].
  intros [[]|] s' [-> _]; [|done]. swp_steps.
  destruct (at2 (accepted s) _) as [|id rest] eqn:Ha; swp_steps; [done|]. cbn zeta. eauto.
Qed.

(** The peer's streams, opened one after the other. *)
Definition peers (s s' : State) : Prop :=
  rtc (λ s s', inv s ∧ ∃ id, opens false id s s') s s' ∧ inv s'.

Lemma peers_refl s : inv s → peers s s.
Proof. by split. Qed.

Lemma opened_peers_step k s n :
  inv s → is_kind k → at2 (peer_opened s) k + Z.of_nat (S n) ≤ at2 (receive_max_streams s) k →
  ∃ id, opens false id (opened_peers k s n) (opened_peers k s (S n)).
Proof.
  intros Hs Hk Hn. rewrite opened_peers_S. set (s' := opened_peers k s n) in *.
  pose proof (r_peer_opened _ (proj2 Hs) k Hk) as Hpo.
  assert (0 ≤ k ≤ 1) as Hk01 by (destruct Hk; lia).
  pose proof (opened_peers_frame k s n) as Hf. fold s' in Hf.
  pose proof (λ j, opened_peers_counts k s n j Hk) as Hc. fold s' in Hc.
  assert (options s' = options s) as Ho by (unfold accounts in Hf; congruence).
  destruct (Hc k Hk) as (_ & _ & Hcount & _). rewrite Z.eqb_refl in Hcount.
  replace (at2 (peer_opened s) k + Z.of_nat (S n)) with (at2 (peer_opened s') k + 1) by lia.
  rewrite <- Hcount. remember (at2 (peer_opened s') k) as i eqn:Hi in *.
  pose proof (bit_range (role (options s))) as Hb. pose proof U64_MAX_val as HU.
  assert (add64 (add64 (mul64 i 4) (1 - bit (role (options s')))) (k * 2)
    = i * 4 + (1 - bit (role (options s))) + k * 2) as Hid.
  { unfold mul64. rewrite Ho, wrap64_small by lia.
    rewrite (add64_small (i * 4)), add64_small; lia. }
  unfold open_peer. rewrite Hid.
  destruct (stream_id_parts i (1 - bit (role (options s))) k) as (Hi1 & Hi2 & Hi3); [lia..|done|].
  set (id := i * 4 + (1 - bit (role (options s))) + k * 2) in *. exists id.
  constructor; try done.
  - unfold is_own. rewrite Hi2, Ho. apply Z.eqb_neq. lia.
  - rewrite Hi3, Hi1. done.
  - unfold views. cbn. by rewrite fmap_insert.
  - rewrite Hi3, Hi1. by intros [].
  - by rewrite Hi3.
  - by apply onward_frame.
Qed.

Lemma opened_peers_peers k s n :
  inv s → is_kind k → at2 (peer_opened s) k + Z.of_nat n ≤ at2 (receive_max_streams s) k →
  peers s (opened_peers k s n).
Proof.
  intros Hs Hk Hn. split; [|by apply opened_peers_inv]. revert Hn.
  induction n as [|n IH]; intros Hn; [by rewrite opened_peers_0|].
  eapply rtc_r; [apply IH; lia|]. split; [apply opened_peers_inv; [done|done|lia]|].
  by apply opened_peers_step.
Qed.

Lemma peer_stream_views id s :
  inv s → 0 ≤ id ≤ VARINT_MAX →
  swp (peer_stream id) s (λ r s', peers s s' ∧ (r = Ok true ∨ r = Ok false → is_Some (streams s' !! id))).
Proof.
  intros Hs Hid. eapply swp_mono; [exact (swp_and _ _ _ _ (peer_stream_spec id s Hs Hid)
    (peer_stream_inv id s Hs Hid))|].
  intros r s' [Hspec [_ Hlive]]. split.
  - destruct r as [[]|]; [|destruct Hspec as [-> _]; by apply peers_refl
      |destruct Hspec as [-> _]; by apply peers_refl].
    cbn zeta in Hspec. destruct Hspec as (_ & _ & _ & Hmax & ->).
    apply opened_peers_peers; [done|apply stream_kind_is_kind|done].
  - destruct r as [b|]; [|by intros [|]]. destruct Hlive as (_ & st & Hst & _). eauto.
Qed.

(** ** Received capsules *)

Definition store_view (data : bytes) (v : View) : View :=
  v <| v_buffered ::= λ b, if v_stop_sent v then b else b ++ data |>.

Definition fin_view (fin : bool) (v : View) : View := v <| v_receive_fin ::= λ b, b || fin |>.

Definition arrive_view (data : bytes) (fin : bool) : View → View := fin_view fin ∘ store_view data.

Lemma changes_trans id f g s s1 s2 :
  changes id f s s1 → changes id g s1 s2 → changes id (g ∘ f) s s2.
Proof.
  intros [Hv1 Hr1 Ho1] [Hv2 Hr2 Ho2]. constructor; [|congruence|by etrans].
  rewrite Hv2, Hv1. apply map_eq. intros j. destruct (decide (j = id)) as [->|].
  - rewrite !lookup_alter_eq. by destruct (views s !! id).
  - by rewrite !lookup_alter_ne.
Qed.

Lemma changes_reaps id f s s1 s2 : changes id f s s1 → reaps id s1 s2 → releases id f s s2.
Proof.
  intros [Hv1 Hr1 Ho1] [Hv2 Hr2 Ho2]. constructor; [congruence|congruence|by etrans].
Qed.

Lemma changes_live id f s s' : changes id f s s' → is_Some (views s !! id) → is_Some (streams s' !! id).
Proof.
  intros [Hv _ _] [v Hl]. apply (f_equal (lookup id)) in Hv.
  rewrite lookup_views, lookup_alter_eq, Hl in Hv. by destruct (streams s' !! id).
Qed.

Lemma wake_reader_views id s :
  is_Some (streams s !! id) → swp (wake_reader id) s (λ r s', r = Ok tt ∧ still s s').
Proof.
  intros [st Hst]. unfold wake_reader. swp_steps. rewrite Hst. cbn [ok_or]. swp_steps.
  split; [done|]. still_put id st.
Qed.

Lemma accept_data_views id data s st r t :
  inv s → streams s !! id = Some st → len data ≤ QUANTUM → receive_over st = false →
  r = ss_received st + len data → r ≤ ss_receive_max st →
  t = received s + len data → t ≤ receive_max_data s →
  swp (accept_data id data)
    (s <| streams ::= <[id := st <| ss_received := r |>]> |> <| received := t |>)
    (λ res s', res = Ok tt ∧ changes id (store_view data) s s').
Proof.
  intros Hs Hst Hd Hover Hr1 Hr2 Ht1 Ht2.
  eapply swp_mono; [apply (swp_and _ _ _ (λ res s', res = Ok tt → changes id (store_view data) s s')
    (accept_data_inv id data s st r t Hs Hst Hd Hover Hr1 Hr2 Ht1 Ht2))|].
  2: { intros res s' [(_ & Hres & _) Hc]. auto. }
  unfold accept_data. swp_steps. lookups. cbn [ss_stop_sent over].
  assert (∀ s' st', streams s' = <[id := st']> (streams s) → view st' = store_view data (view st) →
    roster s' = roster s → (options s', failure s', finish s', controls s', closing s', send_datagram s')
      = (options s, failure s, finish s, controls s, closing s, send_datagram s) →
    changes id (store_view data) s s') as Hput by (intros; by eapply changes_put).
  destruct (credit_lookup _ _ _ (proj1 Hs) Hst).
  destruct (ss_stop_sent st) eqn:Hstop; swp_steps; [|destruct (is_empty data) eqn:He; cbn [negb]; swp_steps].
  - intros _. eapply Hput; [by lookups| |done|done].
    unfold store_view. unfold over. cbn. by rewrite Hstop.
  - intros _. apply is_empty_true in He as ->. eapply Hput; [by lookups| |done|done].
    unfold store_view. unfold over. cbn. by rewrite Hstop, app_nil_r.
  - destruct (_ <? _); swp_steps; [done|]. intros _.
    destruct (store_input_spec data (st <| ss_received := r |>)) as (i & g & -> & Hc & _); [done..|].
    eapply Hput; [by lookups| |done|done].
    unfold store_view. unfold over. cbn. rewrite Hstop.
    unfold view, buffered. cbn. by rewrite Hc.
Qed.

Lemma stream_received_views id data fin s :
  inv s → 0 ≤ id ≤ VARINT_MAX → len data ≤ QUANTUM →
  swp (stream_received id data fin) s (λ r s', ∃ s1, peers s s1 ∧
    (s' = s1 ∧ r ≠ Ok tt ∨
     ∃ v, views s1 !! id = Some v ∧ v_receive_over v = false
       ∧ releases id (arrive_view data fin) s1 s')).
Proof.
  intros Hs Hid Hd. unfold stream_received. apply swp_bind.
  eapply swp_mono; [exact (swp_and _ _ _ _ (peer_stream_views id s Hs Hid) (peer_stream_inv id s Hs Hid))|].
  intros [b|e] s1 [[Hp Hsome] [Hs1 Hlive]]; [|by exists s1; split; [|left]].
  destruct Hlive as (_ & st & Hst & _). swp_steps. rewrite Hst. cbn [ok_or].
  destruct (_ || _) eqn:Hover; swp_steps; [by exists s1; split; [|left]|].
  destruct (filter_opt _ (checked_add64 (ss_received st) _)) as [r|] eqn:Hr; cbn [ok_or];
    swp_steps; [|by exists s1; split; [|left]].
  destruct (filter_opt _ (checked_add64 (received s1) _)) as [t|] eqn:Ht; cbn [ok_or];
    swp_steps; [|by exists s1; split; [|left]].
  apply filter_checked_add64 in Hr as (Hr & ? & _). apply filter_checked_add64 in Ht as (Ht & ? & _).
  pose proof (lookup_views_Some _ _ _ Hst) as Hv.
  eapply swp_mono; [by eapply (accept_data_views id data s1 st r t)|].
  intros res s2 (-> & Hc). apply swp_bind.
  eapply (swp_mono _ _ (λ r s', r = Ok tt ∧ changes id (arrive_view data fin) s1 s')).
  - destruct (changes_live _ _ _ _ Hc) as [st2 Hst2]; [by eexists|]. destruct fin; swp_steps.
    + rewrite Hst2. cbn [ok_or]. swp_steps. split; [done|].
      eapply changes_trans; [exact Hc|].
      eapply (changes_put id _ _ _ st2); [done|reflexivity| |reflexivity|reflexivity].
      unfold fin_view. unfold over. cbn. by rewrite orb_true_r.
    + split; [done|]. destruct Hc as [Hcv Hcr Hco]. constructor; [|done|done]. rewrite Hcv.
      apply alter_ext. intros v _. unfold arrive_view, fin_view. unfold over. cbn. by rewrite orb_false_r.
  - intros r2 s3 [-> H3]. apply swp_bind. eapply swp_mono.
    { apply wake_reader_views. eapply changes_live; [exact H3|by eexists]. }
    intros r4 s4 [-> H4]. eapply swp_mono; [apply reap_views|]. intros r5 s5 H5.
    exists s1. split; [done|right]. exists (view st). split_and!; [done|done|].
    eapply changes_reaps; [|exact H5]. by eapply changes_still.
Qed.

Definition reset_in_view (code : Z) (v : View) : View := v <| v_receive_reset := Some code |>.

(** STOP_SENDING drops the output, unless the send side is already over. *)
Definition stop_in_view (code : Z) (send_over : bool) (v : View) : View :=
  (if send_over then v else discard_view code v) <| v_stop_received := true |>.

(** What a control capsule does once its stream is known. *)
Inductive inbound (s s' : State) : Prop :=
  | in_still : still s s' → inbound s s'
  | in_reset id code v :
      views s !! id = Some v → v_receive_over v = false →
      releases id (reset_in_view code) s s' → inbound s s'
  | in_stop id code v :
      views s !! id = Some v → is_u32 code →
      changes id (stop_in_view code (v_send_over v)) s s' → inbound s s'.

Abbreviation inbounds m s := (swp m s (λ _ s', ∃ s1, peers s s1 ∧ inbound s1 s')).

Lemma inbounds_quiet {E A} (m : step E A) s : inv s → quiet m s → inbounds m s.
Proof.
  intros Hi Hm. eapply swp_mono; [exact Hm|]. intros r s' Hs'. exists s.
  split; [by apply peers_refl|by apply in_still].
Qed.

(** A step that looks up or opens the peer's stream, then acts on it. *)
Lemma inbounds_peer_stream {B} id (f : bool → step Failure B) s :
  inv s → 0 ≤ id ≤ VARINT_MAX →
  (∀ b s1 st, inv s1 → streams s1 !! id = Some st → swp (f b) s1 (λ _ s', inbound s1 s')) →
  inbounds (peer_stream id ≫= f) s.
Proof.
  intros Hs Hid Hf. apply swp_bind.
  eapply swp_mono; [exact (swp_and _ _ _ _ (peer_stream_views id s Hs Hid) (peer_stream_inv id s Hs Hid))|].
  intros [b|e] s1 [[Hp _] [Hs1 Hlive]].
  - destruct Hlive as (_ & st & Hst & _). eapply swp_mono; [by eapply Hf|]. eauto.
  - exists s1. split; [done|by apply in_still].
Qed.

Lemma u32_of_range value e code : 0 ≤ value → u32_of value e = Ok code → is_u32 code.
Proof. unfold u32_of. destruct (Z.leb_spec value U32_MAX); intros; by simplify_eq. Qed.

Lemma reset_received_views id code size s :
  inv s → 0 ≤ id ≤ VARINT_MAX → inbounds (reset_received id code size) s.
Proof.
  intros Hs Hid. apply inbounds_peer_stream; [done|done|]. intros b s1 st Hs1 Hst. swp_steps.
  destruct (u32_of code _) as [c|]; swp_steps; [|by apply in_still]. rewrite Hst. cbn [ok_or].
  destruct (_ || _) eqn:Hover; swp_steps; [by apply in_still|].
  apply orb_false_elim in Hover as [Hover _].
  match goal with |- swp _ ?x _ => assert (changes id (reset_in_view c) s1 x) as Hc by changes_put id st end.
  pose proof (lookup_views_Some _ _ _ Hst) as Hv.
  eapply swp_mono.
  { apply wake_reader_views. eapply changes_live; [exact Hc|by eexists]. }
  intros r4 s4 [-> H4]. eapply swp_mono; [apply reap_views|]. intros r5 s5 H5.
  eapply (in_reset _ _ id c (view st)); [done|done|].
  eapply changes_reaps; [|exact H5]. by eapply changes_still.
Qed.

Lemma stop_received_views id code s :
  inv s → 0 ≤ id ≤ VARINT_MAX → 0 ≤ code → inbounds (stop_received id code) s.
Proof.
  intros Hs Hid Hcode. apply inbounds_peer_stream; [done|done|]. intros b s1 st Hs1 Hst. swp_steps.
  destruct (u32_of code _) as [c|] eqn:Hc; swp_steps; [|by apply in_still].
  apply u32_of_range in Hc; [|done]. rewrite Hst. cbn [ok_or].
  destruct (_ || _); swp_steps; [by apply in_still|]. cbn [ss_send_fin ss_send_reset over].
  pose proof (lookup_views_Some _ _ _ Hst) as Hv.
  assert (negb (ss_send_fin st) && negb (is_some (ss_send_reset st)) = negb (v_send_over (view st)))
    as -> by (symmetry; apply negb_orb).
  destruct (v_send_over (view st)) eqn:Hover; cbn [negb]; swp_steps;
    (eapply (in_stop _ _ id c (view st)); [done|done|]; rewrite Hover).
  - changes_put id st.
  - eapply changes_still; [done| |etrans; [apply still_mark_ready|apply still_wake]].
    eapply (changes_put id _ _ _ st); [done|by lookups|reflexivity|reflexivity|reflexivity].
Qed.

Lemma max_stream_data_received_views id value s :
  inv s → 0 ≤ id ≤ VARINT_MAX → inbounds (max_stream_data_received id value) s.
Proof.
  intros Hs Hid. unfold max_stream_data_received. apply swp_bind, swp_get.
  destruct (receive_only s id); [by apply inbounds_quiet; [done|swp_steps]|].
  destruct (_ && _); [by apply inbounds_quiet; [done|swp_steps]|].
  apply inbounds_peer_stream; [done|done|]. intros b s1 st Hs1 Hst. swp_steps.
  rewrite Hst. cbn [ok_or]. destruct (_ || _); swp_steps; [by apply in_still|].
  destruct (_ <? _); swp_steps; [by apply in_still|]. apply in_still. still_put id st.
Qed.

Lemma stream_data_blocked_received_views id s :
  inv s → 0 ≤ id ≤ VARINT_MAX → inbounds (stream_data_blocked_received id) s.
Proof.
  intros Hs Hid. apply inbounds_peer_stream; [done|done|]. intros b s1 st Hs1 Hst. swp_steps.
  rewrite Hst. cbn [ok_or]. destruct (_ || _); swp_steps; by apply in_still.
Qed.

Lemma control_received_views kind values s :
  inv s → Forall is_varint values → inbounds (control_received kind values) s.
Proof.
  intros Hs Hv. unfold control_received. cbv zeta.
  pose proof (value_at_varint values 0 Hv) as H0. pose proof (value_at_varint values 1 Hv) as H1.
  destruct (kind =? MAX_DATA).
  { apply inbounds_quiet; [done|]. unfold max_data_received. swp_steps.
    destruct (_ <? _); swp_steps; [done|]. etrans; [|apply still_wake]. still_frame. }
  destruct (_ || _).
  { apply inbounds_quiet; [done|]. unfold max_streams_received. swp_steps.
    destruct (_ || _); swp_steps; [done|still_frame]. }
  destruct (kind =? RESET_STREAM); [by apply reset_received_views|].
  destruct (kind =? STOP_SENDING); [apply stop_received_views; [done|done|apply H1]|].
  destruct (kind =? MAX_STREAM_DATA); [by apply max_stream_data_received_views|].
  destruct (kind =? STREAM_DATA_BLOCKED); [by apply stream_data_blocked_received_views|].
  apply inbounds_quiet; [done|]. destruct (_ || _).
  - destruct (_ <? _); by swp_steps.
  - destruct (kind =? DATA_BLOCKED); by swp_steps.
Qed.

(** [State::receive] *)
Lemma receive_views event s :
  inv s → bounded_event event →
  swp (receive event) s (λ r s', ∃ s1, peers s s1 ∧
    match event with
    | EStream id data fin _ =>
        still s1 s' ∧ r ≠ Ok tt ∨
        ∃ v, views s1 !! id = Some v ∧ v_receive_over v = false
          ∧ releases id (arrive_view data fin) s1 s'
    | _ => inbound s1 s'
    end).
Proof.
  intros Hs He. unfold receive. apply swp_bind, swp_get. destruct (_ || _).
  { swp_steps. exists s. split; [by apply peers_refl|]. destruct event; first [by apply in_still|by left]. }
  destruct event as [id data fin start|kind values|data|code reason|]; cbn in He.
  - destruct He. eapply swp_mono; [by apply stream_received_views|].
    intros r s' (s1 & Hp & Hx). exists s1. split; [done|].
    destruct Hx as [[-> Hr]|Hx]; [left; done|by right].
  - destruct He. by apply control_received_views.
  - apply inbounds_quiet; [done|]. swp_steps. destruct (_ && _); [still_frame|done].
  - apply inbounds_quiet; [done|]. swp_steps. etrans; [|apply still_wake].
    constructor; [done|done|]. constructor; [done|done|done|by apply queues_frame].
  - apply inbounds_quiet; [done|]. swp_steps. still_frame.
Qed.
