(* ===== verification/WtOutputViews.v ===== *)
(** * What output does to the streams

    The effect of [next_output], [commit_pending_output] and
    [discard_pending_output] on the views, and what is on the wire: every
    selected capsule is the encoding of a message. *)

From S2P Require Import Prelude Bytes WtCodec WtCodecSpec WtCodecBounds WtState WtProtocol.
From S2P Require Import WtStreams WtDriver WtLedger WtInvariant WtOutputInvariant WtViews.

Definition reset_out_view (code : Z) (v : View) : View :=
  v <| v_reset_requested := None |> <| v_send_reset := Some code |>.

Definition select_view (v : View) : View := v <| v_staging := [] |>.

(** A message that is about no stream's data or reset. *)
Definition neutral (m : Message) : Prop :=
  match m with
  | MControl kind _ => kind ≠ RESET_STREAM
  | MDatagram _ | MDrain => True
  | _ => False
  end.

(** The stream's octets become the selected output. *)
Record takes (id : Z) (data : bytes) (fin : bool) (s s' : State) : Prop := {
  tk_views : views s' = alter select_view id (views s);
  tk_roster : (options s', accepted s', own_opened s', peer_opened s', ended s')
    = (options s, accepted s, own_opened s, peer_opened s, ended s);
  tk_pending : pending_output s' = Some (mkPending id data fin);
  tk_onward : onward s s';
}.

Inductive emitted (s s' : State) : option Output → Prop :=
  | em_none : still s s' → emitted s s' None
  | em_close wire :
      close_capsule wire → finish s' = true → still s s' → emitted s s' (Some (OClose wire))
  | em_neutral m wire :
      message_wire m = Ok wire → sendable m → neutral m → still s s' →
      emitted s s' (Some (OBytes wire None))
  | em_reset id code v wire :
      views s !! id = Some v → v_reset_requested v = Some code →
      control RESET_STREAM [id; code; v_wire_sent v] = Ok wire →
      releases id (reset_out_view code) s s' → emitted s s' (Some (OBytes wire None))
  | em_data id v fin wire :
      views s !! id = Some v → v_reset_requested v = None → v_send_over v = false →
      (fin = true → v_fin_requested v = true) → stream id (v_staging v) fin = Ok wire →
      takes id (v_staging v) fin s s' → emitted s s' (Some (OBytes wire (Some (id, fin)))).

(** A failed selection may have consumed the request for a reset. *)
Inductive stuck (s s' : State) : Prop :=
  | sk_still : still s s' → stuck s s'
  | sk_reset id code v :
      views s !! id = Some v → v_reset_requested v = Some code →
      changes id (reset_out_view code) s s' ∨ releases id (reset_out_view code) s s' → stuck s s'.

Abbreviation emits m s :=
  (swp m s (λ r s', match r with Ok o => emitted s s' o | Err _ => stuck s s' end)).

Lemma still_changes id f s s1 s2 : still s s1 → changes id f s1 s2 → changes id f s s2.
Proof. intros H1 H2. by eapply changes_still. Qed.

Lemma still_releases id f s s1 s2 : still s s1 → releases id f s1 s2 → releases id f s s2.
Proof.
  intros [Hv Hr Ho] [Hv2 Hr2 Ho2]. constructor; [congruence|congruence|by etrans].
Qed.

Lemma still_takes id data fin s s1 s2 : still s s1 → takes id data fin s1 s2 → takes id data fin s s2.
Proof.
  intros [Hv Hr Ho] [Hv2 Hr2 Hp2 Ho2]. unfold roster in Hr.
  constructor; [congruence|congruence|done|by etrans].
Qed.

Lemma emitted_still s s1 s2 o : still s s1 → emitted s1 s2 o → emitted s s2 o.
Proof.
  intros H1 Ho. pose proof (st_views _ _ H1) as Hv. destruct Ho.
  - apply em_none. by etrans.
  - apply em_close; [done|done|by etrans].
  - eapply em_neutral; [done..|by etrans].
  - eapply em_reset; [by rewrite <- Hv|done|done|by eapply still_releases].
  - eapply em_data; [by rewrite <- Hv|done|done|done|done|by eapply still_takes].
Qed.

Lemma stuck_still s s1 s2 : still s s1 → stuck s1 s2 → stuck s s2.
Proof.
  intros H1 Ho. pose proof (st_views _ _ H1) as Hv. destruct Ho as [|id code v Hl Hr [Hc|Hc]].
  - apply sk_still. by etrans.
  - eapply sk_reset; [by rewrite <- Hv|done|left; by eapply still_changes].
  - eapply sk_reset; [by rewrite <- Hv|done|right; by eapply still_releases].
Qed.

Lemma emits_quiet_bind {A} (m : step Failure A) (f : A → step Failure (option Output)) s :
  quiet m s → (∀ a s', still s s' → emits (f a) s') → emits (m ≫= f) s.
Proof.
  intros Hm Hf. apply swp_bind. eapply swp_mono; [exact Hm|].
  intros [a|e] s' Hs'; [|by apply sk_still]. eapply swp_mono; [by apply Hf|].
  intros [o|e] s2 H2; [by eapply emitted_still|by eapply stuck_still].
Qed.

Lemma send_control_emits kind values e s :
  sendable (MControl kind values) → kind ≠ RESET_STREAM → emits (send_control kind values e) s.
Proof.
  intros Hs Hk. unfold send_control. swp_steps.
  destruct (control kind values) as [wire|] eqn:Hw; cbn [map_err]; swp_steps; [|by apply sk_still].
  by eapply (em_neutral _ _ (MControl kind values)).
Qed.

Lemma sendable_one kind v :
  control_values kind = Some 1 → is_varint v → sendable (MControl kind [v]).
Proof. intros ? ?. split; [done|]. constructor; [done|constructor]. Qed.

Lemma next_session_grant_emits s : inv s → emits next_session_grant s.
Proof.
  intros Hs. unfold next_session_grant. swp_steps.
  destruct (receive_grant_pending s); swp_steps; [|by apply em_none].
  assert (still s (s <| receive_grant_pending := false |>)) as Hst by still_frame.
  destruct (filter_opt _ _) as [n|] eqn:Hn; cbn [ok_or]; swp_steps; [|by apply sk_still].
  apply filter_checked_add64 in Hn as (-> & Hmax & _).
  destruct (_ && _); swp_steps; [|by apply em_none].
  pose proof (c_totals _ (proj1 Hs)) as []. destruct (c_limits _ (proj1 Hs)) as (_&_&_&Hcap&_).
  eapply swp_mono; [apply send_control_emits; [apply sendable_one|done]|]; [done| |].
  { unfold is_varint, is_u64 in *. lia. }
  intros [o|e] s' H'; [eapply emitted_still|eapply stuck_still]; [|done| |done]; still_frame.
Qed.

Lemma next_streams_grant_emits k kind s :
  inv s → is_kind k → control_values kind = Some 1 → kind ≠ RESET_STREAM →
  emits (next_streams_grant k kind) s.
Proof.
  intros Hs Hk Hkind Hne. unfold next_streams_grant. swp_steps.
  destruct (at2 (streams_grant_pending s) k); swp_steps; [|by apply em_none].
  eapply swp_mono; [apply send_control_emits; [apply sendable_one; [done|]|done]|].
  { pose proof (r_peer_opened _ (proj2 Hs) k Hk). unfold is_varint, VARINT_MAX. cbn. lia. }
  intros [o|e] s' H'; [eapply emitted_still|eapply stuck_still]; [|done| |done]; still_frame.
Qed.

Lemma stream_grant_emits id s : inv s → emits (stream_grant id) s.
Proof.
  intros Hs. unfold stream_grant. swp_steps.
  destruct (streams s !! id) as [st|] eqn:Hst; cbn [ok_or]; [|by apply sk_still]. swp_steps.
  assert (still s (s <| streams ::= <[id := st <| ss_grant_pending := false |>]> |>)) as H1
    by still_put id st.
  destruct (_ && _) eqn:Hopen; swp_steps; [|by apply em_none].
  destruct (filter_opt _ _) as [n|] eqn:Hn; cbn [ok_or]; swp_steps; [|by apply sk_still].
  apply filter_checked_add64 in Hn as (-> & Hmax & _).
  destruct (_ <? _); swp_steps; [|by apply em_none].
  pose proof (live_id _ _ _ Hs Hst). destruct (credit_lookup _ _ _ (proj1 Hs) Hst).
  destruct (c_limits _ (proj1 Hs)) as (_&_&Hcap&_).
  eapply swp_mono; [apply send_control_emits; [|done]|].
  { split; [done|]. repeat constructor; unfold is_varint, is_u64 in *; lia. }
  assert (∀ s', streams s' = <[id := st <| ss_grant_pending := false |> <| ss_receive_max :=
    ss_consumed st + max_stream_buffer_bytes (limits (options s)) |>]> (streams s) →
    roster s' = roster s → (options s', failure s', finish s', controls s', closing s', send_datagram s')
      = (options s, failure s, finish s, controls s, closing s, send_datagram s) → still s s') as H2.
  { intros. by eapply (still_put s _ id st). }
  intros [o|e] s' H'; [eapply emitted_still|eapply stuck_still]; [|done| |done];
    (apply H2; [by lookups|done|done]).
Qed.

(** A stage that yields nothing leaves everything to the next one. *)
Lemma emits_or_else (m n : step Failure (option Output)) s :
  idle s → queues s → keeps_idle m s → emits m s →
  (∀ s1, idle s1 → queues s1 → emits n s1) → emits (or_else m n) s.
Proof.
  intros Hs Hq Hi Hm Hn. unfold or_else. apply swp_bind.
  eapply swp_mono; [exact (swp_and _ _ _ _ Hi Hm)|].
  intros [[o|]|e] s1 [Hi1 H1]; [by swp_steps| |done].
  inversion H1 as [Hst| | | |]; subst. eapply swp_mono.
  { apply Hn; [done|]. by eapply on_queues; [apply Hst|]. }
  intros [o|e] s2 H2; [by eapply emitted_still|by eapply stuck_still].
Qed.

Lemma grant_loop_emits `{GrantPick} fuel : ∀ s, idle s → emits (grant_loop fuel) s.
Proof.
  induction fuel as [|fuel IH]; intros s Hs; cbn [grant_loop]; [swp_steps; by apply em_none|].
  swp_steps. destruct (grant_pick (streams s)) as [id|]; [|swp_steps; by apply em_none].
  apply swp_bind. eapply swp_mono; [exact (swp_and _ _ _ _ (stream_grant_idle id s Hs)
    (stream_grant_emits id s (proj1 Hs)))|].
  intros [[o|]|e] s1 [Hi1 H1]; [by swp_steps| |done].
  inversion H1 as [Hst| | | |]; subst. eapply swp_mono; [by apply IH|].
  intros [o|e] s2 H2; [by eapply emitted_still|by eapply stuck_still].
Qed.

Lemma next_datagram_emits s : queues s → emits next_datagram s.
Proof.
  intros Hq. unfold next_datagram. swp_steps.
  destruct (send_datagram s) as [payload|] eqn:Hd; swp_steps; [|by apply em_none].
  destruct (q_datagram _ Hq payload Hd) as [Hb Hl].
  assert (still s (s <| send_datagram := None |>)) as Hst.
  { constructor; [done|done|]. constructor; [done|done|done|]. intros [? ? ?]. by constructor. }
  destruct (encode DATAGRAM payload) as [wire|] eqn:Hw; cbn [map_err]; swp_steps; [|by apply sk_still].
  by eapply (em_neutral _ _ (MDatagram payload)).
Qed.

Lemma stream_output_reset_emits id st code s :
  streams s !! id = Some st → ss_reset_requested st = Some code → emits (stream_output id st) s.
Proof.
  intros Hst Hreset. unfold stream_output. cbv zeta. cbn [ss_reset_requested over].
  rewrite Hreset. swp_steps. pose proof (lookup_views_Some _ _ _ Hst) as Hv.
  assert (∀ s' w, streams s' = <[id := st <| ss_ready := false |> <| ss_reset_requested := None |>
      <| ss_send_reset := Some code |> <| ss_write_waker := w |>]> (streams s) →
    roster s' = roster s → (options s', failure s', finish s', controls s', closing s', send_datagram s')
      = (options s, failure s, finish s, controls s, closing s, send_datagram s) →
    changes id (reset_out_view code) s s') as Hc.
  { intros. by eapply (changes_put id _ s s' st). }
  change (ss_wire_sent (st <| ss_ready := false |>)) with (v_wire_sent (view st)).
  destruct (control _ _) as [wire|] eqn:Hw; cbn [map_err]; swp_steps.
  - eapply swp_mono; [apply reap_views|]. intros r s' Hr.
    assert (releases id (reset_out_view code) s s') as Hrl.
    { eapply changes_reaps; [|exact Hr]. apply (Hc _ None); [by lookups|done|done]. }
    destruct r; swp_steps.
    + by eapply (em_reset _ _ id code (view st)).
    + eapply (sk_reset _ _ id code (view st)); [done|done|by right].
  - eapply (sk_reset _ _ id code (view st)); [done|done|left].
    apply (Hc _ (ss_write_waker st)); [by lookups|done|done].
Qed.

Lemma stream_output_data_emits id st s :
  idle s → streams s !! id = Some st → ss_reset_requested st = None → emits (stream_output id st) s.
Proof.
  intros Hidle Hst Hreset. pose proof Hidle as [Hs Hp]. unfold stream_output.
  cbv zeta. cbn [ss_reset_requested over]. rewrite Hreset. swp_steps.
  cbn [ss_send_fin ss_send_reset over]. destruct (idle_lookup _ _ _ Hidle Hst).
  pose proof (lookup_views_Some _ _ _ Hst) as Hv.
  assert (still s (s <| streams ::= <[id := st <| ss_ready := false |>]> |>)) as Hs1 by still_put id st.
  destruct (ss_send_fin st || is_some (ss_send_reset st)) eqn:Hover; swp_steps; [by apply em_none|].
  unfold take_output. cbn [ss_output over]. rewrite so_output.
  set (data := ss_output_staging st).
  assert (∀ st', st' = st <| ss_ready := false |> <| ss_output_staging := [] |>
      <| ss_opened_on_wire := true |> → swp
    (put_stream id st';;
     wire ← lift (map_err (λ _, failure_state "invalid outgoing stream")
       (stream id data (ss_fin_requested st && true)));
     update (λ s, s <| pending_output := Some (mkPending id data (ss_fin_requested st && true)) |>);;
     mret (Some (OBytes wire (Some (id, ss_fin_requested st && true)))))
    (s <| streams ::= <[id := st <| ss_ready := false |>]> |>)
    (λ r s', match r with Ok o => emitted s s' o | Err _ => stuck s s' end)) as Hsel.
  { intros st' ->. swp_steps.
    destruct (stream_encodes id data (ss_fin_requested st && true)) as [wire Hw];
      [by eapply live_id|done|]. rewrite Hw. cbn [map_err]. swp_steps.
    rewrite andb_true_r in *.
    eapply (em_data _ _ id (view st)); [done|done|done|done|done|].
    constructor; [|done|done|by apply onward_frame]. unfold views. cbn.
    rewrite insert_insert_eq, fmap_insert. apply map_eq. intros j.
    destruct (decide (j = id)) as [->|]; [|by rewrite lookup_alter_ne, lookup_insert_ne].
    by rewrite lookup_alter_eq, lookup_insert_eq, lookup_fmap, Hst. }
  destruct (is_empty (ss_output_staging (st <| ss_ready := false |>))) eqn:He;
    cbn [ss_output_staging over is_some negb andb default] in *.
  - apply is_empty_true in He. cbn [ss_opened_on_wire ss_fin_requested over].
    destruct (ss_opened_on_wire st && negb (ss_fin_requested st)); [swp_steps; by apply em_none|].
    subst data. rewrite He in Hsel. repeat no_output.
    apply Hsel. unfold over. cbn. by rewrite He.
  - repeat no_output. by apply Hsel.
Qed.

Lemma stream_output_emits id st s :
  idle s → streams s !! id = Some st → emits (stream_output id st) s.
Proof.
  intros. destruct (ss_reset_requested st) eqn:?; [by eapply stream_output_reset_emits|].
  by apply stream_output_data_emits.
Qed.

Lemma selected_none_idle s : inv s → selected None s → idle s.
Proof. intros ? ?. by split. Qed.

Lemma ready_loop_emits queue : ∀ s, idle s → emits (ready_loop queue) s.
Proof.
  induction queue as [|id queue IH]; intros s Hs; cbn [ready_loop]; [swp_steps; by apply em_none|].
  swp_steps. assert (idle (s <| ready_streams := queue |>)) as Hs1.
  { destruct Hs. split; [inv_frame s|done]. }
  assert (still s (s <| ready_streams := queue |>)) as Hst1 by still_frame.
  assert (∀ s1, idle s1 → still s s1 → swp (ready_loop queue) s1
    (λ r s', match r with Ok o => emitted s s' o | Err _ => stuck s s' end)) as Hgo.
  { intros s1 Hi1 H1. eapply swp_mono; [by apply IH|].
    intros [o|e] s2 H2; [by eapply emitted_still|by eapply stuck_still]. }
  destruct (streams _ !! id) as [st|] eqn:Hst; [|by apply Hgo]. apply swp_bind.
  eapply swp_mono; [exact (swp_and _ _ _ _ (stream_output_spec id st _ Hs1 Hst)
    (stream_output_emits id st _ Hs1 Hst))|].
  intros [[o|]|e] s' [[Hinv Hsel] H']; [swp_steps; by eapply emitted_still| |by eapply stuck_still].
  apply Hgo; [by split|]. inversion H' as [Hx| | | |]; subst. by etrans.
Qed.

Lemma next_output_emits `{GrantPick} s :
  idle s → queues s → finish s = false → emits next_output s.
Proof.
  intros Hs Hq Hf. pose proof Hs as [Hi Hp]. unfold next_output. swp_steps. rewrite Hp, Hf.
  cbn [is_some]. destruct (controls s) as [|wire rest] eqn:Hc.
  2: { swp_steps. pose proof (q_controls _ Hq) as Hall. rewrite Hc in Hall.
       inversion Hall as [|? ? (m & Hw & Hsm & Hm) Hrest]; subst.
       eapply (em_neutral _ _ m); [done|done|by destruct m|].
       constructor; [done|done|]. constructor; [done|done|done|]. intros [? ? ?]. by constructor. }
  apply emits_or_else; [done|done|by apply next_session_grant_idle|by apply next_session_grant_emits|].
  clear s Hs Hq Hf Hi Hp Hc. intros s Hs Hq.
  apply emits_or_else; [done|done|by apply next_streams_grant_idle| |].
  { apply next_streams_grant_emits; [apply Hs|by left|done|done]. }
  clear s Hs Hq. intros s Hs Hq.
  apply emits_or_else; [done|done|by apply next_streams_grant_idle| |].
  { apply next_streams_grant_emits; [apply Hs|by right|done|done]. }
  clear s Hs Hq. intros s Hs Hq. apply emits_or_else; [done|done| | |].
  { unfold next_stream_grant. swp_steps. by apply grant_loop_idle. }
  { unfold next_stream_grant. swp_steps. by apply grant_loop_emits. }
  clear s Hs Hq. intros s Hs Hq.
  apply emits_or_else; [done|done|by apply next_datagram_idle|by apply next_datagram_emits|].
  clear s Hs Hq. intros s Hs Hq. unfold or_else. apply swp_bind.
  unfold next_stream_output. apply swp_bind, swp_get.
  eapply swp_mono; [by apply ready_loop_emits|].
  intros [[o|]|e] s' Ho; [by swp_steps| |done]. inversion Ho as [Hx| | | |]; subst.
  unfold next_close. swp_steps. destruct (closing s') as [wire|] eqn:Hcl; swp_steps; [|by apply em_none].
  pose proof (on_queues _ _ (st_onward _ _ Hx) Hq) as Hq'. apply em_close; [by apply (q_closing _ Hq')|done|].
  etrans; [exact Hx|]. constructor; [done|done|]. constructor; [done|done|done|]. intros [? ? ?]. by constructor.
Qed.

(** ** Commit and cancellation *)

Definition commit_view (n : Z) (fin : bool) (v : View) : View :=
  v <| v_wire_sent ::= λ m, m + n |> <| v_send_fin := fin |>.

(** The selected output leaves the session. *)
Record resolves (m : gmap Z View) (s s' : State) : Prop := {
  rs_views : views s' = m;
  rs_roster : (options s', accepted s', own_opened s', peer_opened s', ended s')
    = (options s, accepted s, own_opened s, peer_opened s, ended s);
  rs_pending : pending_output s' = None;
  rs_onward : onward s s';
}.

Lemma commit_pending_output_views s id fin data :
  inv s → pending_output s = Some (mkPending id data fin) →
  output_is_cancelled s (Some (id, fin)) = false →
  ∃ v, views s !! id = Some v ∧ v_reset_requested v = None ∧ v_send_over v = false
    ∧ (fin = true → v_fin_requested v = true ∧ v_staging v = []) ∧ open_session s ∧
  swp (commit_pending_output id fin) s (λ _ s',
    resolves (reaped id (alter (commit_view (len data) fin) id (views s))) s s').
Proof.
  intros Hs Hp Hcan. destruct (pending_stream _ _ Hs Hp) as (st & Hst & Hso & Hl & Hfin & Hok).
  cbn [po_id po_bytes po_fin] in *. unfold output_is_cancelled in Hcan. rewrite Hst in Hcan.
  apply orb_false_elim in Hcan as [Hrun [[Hr%is_some_false _]%orb_false_elim _]%orb_false_elim].
  apply orb_false_elim in Hrun as [[Hfail%is_some_false ?]%orb_false_elim ?].
  exists (view st). split_and!; [by apply lookup_views_Some|done|done|done|done|].
  unfold commit_pending_output. swp_steps. rewrite Hp. cbn [ok_or po_id po_fin po_bytes].
  rewrite Z.eqb_refl, eqb_reflx. cbn [negb orb]. swp_steps. cbn [streams over]. rewrite Hst.
  cbn [ok_or]. swp_steps. destruct Hok. rewrite so_output. cbn [is_empty negb]. swp_steps.
  rewrite Hr in so_output_bytes. cbn [is_some] in so_output_bytes.
  pose proof (len_nonneg data). pose proof (len_nonneg (ss_output_staging st)).
  eapply swp_mono; [apply reap_views|]. intros r s' [Hv' Hr' Ho'].
  unfold roster in Hr'. cbn in Hr'. injection Hr' as ? ? ? ? ? ?.
  constructor; [|congruence|done|].
  - rewrite Hv', views_wake. f_equal. unfold views. cbn. rewrite fmap_insert.
    apply map_eq. intros j. destruct (decide (j = id)) as [->|].
    + rewrite lookup_alter_eq, lookup_insert_eq, lookup_fmap, Hst. cbn [fmap option_fmap option_map].
      f_equal. transitivity ((view st) <| v_wire_sent := saturating_add64 (ss_wire_sent st) (len data) |>
        <| v_send_fin := fin |>); [reflexivity|].
      replace (saturating_add64 _ _) with (v_wire_sent (view st) + len data); [reflexivity|].
      unfold saturating_add64. cbn. lia.
    + by rewrite lookup_alter_ne, lookup_insert_ne.
  - etrans; [|exact Ho']. by apply onward_frame.
Qed.

Lemma discard_pending_output_views {E} s :
  inv s → swp (discard_pending_output (E := E)) s (λ _ s', resolves (views s) s s').
Proof.
  intros Hs. unfold discard_pending_output. swp_steps.
  destruct (pending_output s) as [p|] eqn:Hp; [|by swp_steps].
  destruct (pending_stream _ _ Hs Hp) as (st & Hst & _). swp_steps. rewrite Hst.
  assert (∀ s' st', streams s' = <[po_id p := st']> (streams s) → view st' = view st →
    (options s', accepted s', own_opened s', peer_opened s', ended s')
      = (options s, accepted s, own_opened s, peer_opened s, ended s) →
    pending_output s' = None → (options s', failure s', finish s', controls s', closing s', send_datagram s')
      = (options s, failure s, finish s, controls s, closing s, send_datagram s) →
    resolves (views s) s s') as Hput.
  { intros s' st' ? ? ? ? ?. constructor; [by eapply views_put|done|done|by apply onward_frame]. }
  destruct (is_some (ss_reset_requested st)); swp_steps; [|by eapply Hput].
  match goal with |- resolves _ _ (mark_ready _ ?x) =>
    assert (resolves (views s) s x) as [Hv Hr Hn Ho] by (by eapply Hput);
    destruct (still_mark_ready (po_id p) x) as [Hv2 Hr2 Ho2] end.
  unfold roster in Hr2. constructor; [congruence|congruence|congruence|by etrans].
Qed.
