(* ===== verification/WtSystem.v ===== *)
(** * A WebTransport session with its application and its carrier

    The whole session as a transition system: the application's calls on the
    session and on the stream handles it holds, the turns of the reader and
    writer tasks, and the end of [run].  Each action is one stretch of code
    under the session lock, so any interleaving of the tasks is a sequence of
    actions.  Next to the session, the world records what the theorems speak
    about: the handles that exist, what the application wrote and read, and
    the events the reader delivered. *)

From S2P Require Import Prelude Bytes WtCodec WtState WtProtocol WtStreams WtDriver.

Record World : Type := mkWorld {
  session : Session;
  send_handles : gset Z;
  recv_handles : gset Z;
  send_dropping : gset Z;       (* send handles inside their [drop] *)
  recv_dropping : gset Z;       (* receive handles inside their [drop] *)
  stopped : gset Z;             (* streams the application stopped reading *)
  written : gmap Z bytes;       (* octets [poll_write] took, by stream *)
  got : gmap Z bytes;           (* octets [poll_read] gave, by stream *)
  inbox : list Event;           (* events handed to [State::receive] *)
}.

#[export] Instance World_eta : Eta World := λ w,
  mkWorld (session w) (send_handles w) (recv_handles w) (send_dropping w) (recv_dropping w)
    (stopped w) (written w) (got w) (inbox w).

Definition start_world (sh : Shared) : World :=
  mkWorld (session_start sh) ∅ ∅ ∅ ∅ ∅ ∅ ∅ [].

Definition world_state (w : World) : State := state (shared (session w)).

Inductive action : Type :=
  (* the session handle *)
  | AOpen (uni : bool)
  | AAccept (uni : bool)
  | ASendDatagram (payload : bytes)
  | AReadDatagram
  | AClose (code : Z) (reason : bytes)
  | ASilentClose
  | ADrain
  | AClosed
  (* send handles *)
  | AReset (id code : Z)
  | APollStopped (id cx : Z)
  | AWrite (id cx : Z) (data : bytes)
  | AFlush (id cx : Z)
  | AShutdown (id cx : Z)
  | ADropSend (id : Z)
  | AReleaseSend (id : Z)
  (* receive handles *)
  | AStop (id code : Z)
  | ARead (id cx room : Z)
  | ADropRecv (id : Z)
  | AReleaseRecv (id : Z)
  (* the reader task *)
  | RTop
  | RArrival (data : option (result string bytes))
  | RNext (released : result string unit)
  (* the writer task *)
  | WTop
  | WPoll
  | WDiscard
  | WReady (ready accepts : result string unit)
  (* both tasks have returned *)
  | RunEnd.

(** The arguments are values of their Rust types. *)
Definition typed (a : action) : Prop :=
  match a with
  | ASendDatagram payload => Forall is_byte payload
  | AClose code reason => is_u32 code ∧ Forall is_byte reason
  | AReset _ code | AStop _ code => is_u32 code
  | AWrite _ _ data => Forall is_byte data
  | ARead _ _ room => 0 ≤ room
  | RArrival (Some (Ok data)) => Forall is_byte data
  | _ => True
  end.

Definition put_shared (sh : Shared) (w : World) : World :=
  w <| session ::= λ x, x <| shared := sh |> |>.

(** A call whose result does not matter here. *)
Definition call {E A} (m : step E A) (w : World) : World :=
  put_shared (exec m (shared (session w))) w.

Definition log_octets (id : Z) (data : bytes) (m : gmap Z bytes) : gmap Z bytes :=
  <[id := default [] (m !! id) ++ data]> m.

Definition guard (b : bool) (w : World) : option World := if b then Some w else None.

(** The event the reader's next turn hands to [State::receive]. *)
Definition next_event (released : result string unit) (d : Decoder) (data : bytes) (s : State)
    : option Event :=
  match next d data, released with
  | Some (Ok (Some event), _), Ok _ =>
      if finish s && negb (is_some (remote_close s)) then None else Some event
  | _, _ => None
  end.

Definition run_end : step Failure unit :=
  update (λ s, s <| ended := true |>);;
  wake_streams;;
  shared_wake.

Definition perform `{GrantPick} (a : action) (w : World) : option World :=
  let x := session w in
  let holds_send id := bool_decide (id ∈ send_handles w) in
  let holds_recv id := bool_decide (id ∈ recv_handles w) in
  match a with
  | AOpen uni =>
      Some (let '(r, sh) := open uni (shared x) in
            let w := put_shared sh w in
            match r with
            | Ok (Ready id) =>
                w <| send_handles ::= union {[id]} |>
                  <| recv_handles ::= λ h, if uni then h else {[id]} ∪ h |>
            | _ => w
            end)
  | AAccept uni =>
      Some (let '(r, sh) := accept uni (shared x) in
            let w := put_shared sh w in
            match r with
            | Ok (Ready id) =>
                w <| recv_handles ::= union {[id]} |>
                  <| send_handles ::= λ h, if uni then h else {[id]} ∪ h |>
            | _ => w
            end)
  | ASendDatagram payload => Some (call (session_send_datagram payload) w)
  | AReadDatagram => Some (call read_datagram w)
  | AClose code reason => Some (call (session_close code reason) w)
  | ASilentClose => Some (call silent_close w)
  | ADrain => Some (call session_drain w)
  | AClosed => Some (call closed w)
  | AReset id code => guard (holds_send id) (call (send_reset_stream id code) w)
  | APollStopped id cx => guard (holds_send id) (call (poll_stopped id cx) w)
  | AWrite id cx data =>
      guard (holds_send id)
        (let '(r, sh) := poll_write id cx data (shared x) in
         let w := put_shared sh w in
         match r with
         | Ok (Ready n) => w <| written ::= log_octets id (takeZ n data) |>
         | _ => w
         end)
  | AFlush id cx => guard (holds_send id) (call (poll_flush id cx) w)
  | AShutdown id cx => guard (holds_send id) (call (poll_shutdown id cx) w)
  | ADropSend id =>
      guard (holds_send id)
        (call (send_reset_stream id 0) w
           <| send_handles ::= λ h, h ∖ {[id]} |> <| send_dropping ::= union {[id]} |>)
  | AReleaseSend id =>
      guard (bool_decide (id ∈ send_dropping w))
        (call (send_release id) w <| send_dropping ::= λ h, h ∖ {[id]} |>)
  | AStop id code =>
      guard (holds_recv id) (call (recv_stop id code) w <| stopped ::= union {[id]} |>)
  | ARead id cx room =>
      guard (holds_recv id)
        (let '(r, sh) := poll_read id cx room (shared x) in
         let w := put_shared sh w in
         match r with
         | Ok (Ready data) => w <| got ::= log_octets id data |>
         | _ => w
         end)
  | ADropRecv id =>
      guard (holds_recv id)
        (call (recv_stop id 0) w <| stopped ::= union {[id]} |>
           <| recv_handles ::= λ h, h ∖ {[id]} |> <| recv_dropping ::= union {[id]} |>)
  | AReleaseRecv id =>
      guard (bool_decide (id ∈ recv_dropping w))
        (call (recv_release id) w <| recv_dropping ::= λ h, h ∖ {[id]} |>)
  | RTop =>
      match reader x with
      | ReadWait _ => Some (w <| session ::= read_top |>)
      | _ => None
      end
  | RArrival data =>
      match reader x with
      | ReadWait d => Some (w <| session ::= read_arrival data d |>)
      | _ => None
      end
  | RNext released =>
      match reader x with
      | ReadData d data =>
          Some (w <| inbox ::= λ l, l ++ option_list (next_event released d data (world_state w)) |>
                  <| session ::= read_next released d data |>)
      | _ => None
      end
  | WTop =>
      match writer x with
      | WriteTop => Some (w <| session ::= write_top |>)
      | _ => None
      end
  | WPoll =>
      match writer x with
      | WriteWait o => Some (w <| session ::= write_poll o |>)
      | _ => None
      end
  | WDiscard =>
      match writer x with
      | WritePreempted => Some (w <| session ::= write_discard |>)
      | _ => None
      end
  | WReady ready accepts =>
      match writer x with
      | WriteWait o => Some (w <| session ::= write_ready ready accepts o |>)
      | _ => None
      end
  | RunEnd =>
      match writer x, reader x with
      | WriteDone _, ReadDone _ => Some (call run_end w)
      | _, _ => None
      end
  end.

Definition wstep `{GrantPick} (w w' : World) : Prop := ∃ a, typed a ∧ perform a w = Some w'.

(** The SETTINGS of an endpoint are 32-bit numbers, and so on: the arguments
    of a session's start are values of their Rust types. *)
Definition settings_typed (w : WebTransportSettings) : Prop :=
  Forall (λ o, is_u32 (or_zero o))
    [initial_max_data w; initial_max_stream_data_uni w; initial_max_stream_data_bidi_local w;
     initial_max_stream_data_bidi_remote w; initial_max_streams_uni w; initial_max_streams_bidi w].

Definition options_typed (o : SessionOptions) : Prop :=
  is_u32 (max_concurrent_uni_streams (limits o)) ∧ is_u32 (max_concurrent_bidi_streams (limits o)) ∧
  is_u64 (max_stream_buffer_bytes (limits o)) ∧ is_u64 (max_session_buffer_bytes (limits o)) ∧
  is_u64 (max_total_buffer_bytes (limits o)) ∧
  ∀ a b c, peer_stream_limits o = Some (a, b, c) → is_u64 a ∧ is_u64 b ∧ is_u64 c.

(** The worlds a session can get into. *)
Definition reachable `{GrantPick} (o : SessionOptions) (peer local : WebTransportSettings)
    (w : World) : Prop :=
  options_typed o ∧ settings_typed peer ∧ settings_typed local ∧
  ∃ sh, start_reserved o (Some peer) (Some local) = Ok sh ∧ rtc wstep (start_world sh) w.
