(* ===== verification/WtTrack.v ===== *)
(** * The life of a stream

    What holds of one stream identifier at any time: before it is opened,
    while it is live, and after it is gone.  The octets the application wrote
    are those sent, selected and staged; the octets that arrived are those
    read and buffered; each direction ends at most once; a handle keeps its
    stream alive. *)

From S2P Require Import Prelude Bytes WtCodec WtCodecSpec WtCodecBounds WtState WtProtocol.
From S2P Require Import WtStreams WtDriver WtLedger WtInvariant WtOutputInvariant WtViews.
From S2P Require Import WtOutputViews WtSystem.

(** ** Messages by stream *)

Definition data_of (id : Z) (m : Message) : bytes :=
  match m with
  | MStream j data _ => if j =? id then data else []
  | _ => []
  end.

Definition fin_of (id : Z) (m : Message) : bool :=
  match m with
  | MStream j _ fin => (j =? id) && fin
  | _ => false
  end.

(** The final size of a RESET_STREAM of [id]. *)
Definition reset_of (id : Z) (m : Message) : option Z :=
  match m with
  | MControl kind [j; _; size] => if (kind =? RESET_STREAM) && (j =? id) then Some size else None
  | _ => None
  end.

Definition concerns (id : Z) (m : Message) : bool :=
  match m with
  | MStream j _ _ => j =? id
  | _ => is_some (reset_of id m)
  end.

Definition ends (id : Z) (m : Message) : bool := fin_of id m || is_some (reset_of id m).

Definition stream_data (id : Z) (log : list Message) : bytes := concat (map (data_of id) log).
Definition fin_sent (id : Z) (log : list Message) : bool := existsb (fin_of id) log.
Definition resets (id : Z) (log : list Message) : list Z := omap (reset_of id) log.

(** Nothing about a stream follows its FIN or RESET. *)
Definition ends_once (log : list Message) : Prop :=
  ∀ id before m after, log = before ++ m :: after → ends id m = true →
    existsb (concerns id) after = false.

Definition arrival (id : Z) (e : Event) : bytes :=
  match e with
  | EStream j data _ _ => if j =? id then data else []
  | _ => []
  end.

Definition arrival_fin (id : Z) (e : Event) : bool :=
  match e with
  | EStream j _ fin _ => (j =? id) && fin
  | _ => false
  end.

Definition arrived (id : Z) (events : list Event) : bytes := concat (map (arrival id) events).
Definition fin_arrived (id : Z) (events : list Event) : bool := existsb (arrival_fin id) events.

#[global] Arguments stream_data _ _ : simpl never.
#[global] Arguments fin_sent _ _ : simpl never.
#[global] Arguments resets _ _ : simpl never.
#[global] Arguments arrived _ _ : simpl never.
#[global] Arguments fin_arrived _ _ : simpl never.

(** ** What is recorded of one stream *)

Record Flow : Type := mkFlow {
  f_sent : bytes;
  f_fin : bool;
  f_resets : list Z;
  f_written : bytes;
  f_cancelled : bool;          (* the selected output is about to be dropped *)
  f_arrived : bytes;
  f_arrived_fin : bool;
  f_got : bytes;
  f_stopped : bool;
  f_refused : bool;            (* the reader has failed *)
  f_send_handle : bool;
  f_recv_handle : bool;
  f_recv_dropping : bool;
  f_accepted : nat;            (* how often it waits to be accepted *)
}.

#[export] Instance Flow_eta : Eta Flow := λ f,
  mkFlow (f_sent f) (f_fin f) (f_resets f) (f_written f) (f_cancelled f) (f_arrived f)
    (f_arrived_fin f) (f_got f) (f_stopped f) (f_refused f) (f_send_handle f) (f_recv_handle f)
    (f_recv_dropping f) (f_accepted f).

Record live_ok (id : Z) (v : View) (pend : bytes) (over : bool) (f : Flow) : Prop := {
  (* sending *)
  lo_bytes : Forall is_byte (f_written f);
  lo_prefix : f_sent f `prefix_of` f_written f;
  lo_wire_sent : v_wire_sent v = len (f_sent f);
  lo_intact :
    over = false → v_reset_requested v = None → v_send_reset v = None →
    f_written f = f_sent f ++ pend ++ v_staging v;
  lo_fin : f_fin f = true → v_send_fin v = true ∧ f_written f = f_sent f;
  lo_send_fin : v_send_fin v = true → v_write_handle v = true → f_fin f = true;
  lo_resets : Forall (eq (len (f_sent f))) (f_resets f);
  lo_reset_sent : f_resets f ≠ [] → is_some (v_send_reset v) = true ∧ f_fin f = false;
  lo_reset code : v_reset_requested v = Some code → v_send_over v = false ∧ is_u32 code;
  lo_stop :
    v_stop_received v = true → is_some (v_reset_requested v) || v_send_over v = true;
  lo_cancelled :
    f_cancelled f = true →
    over = true ∨ is_some (v_reset_requested v) = true ∨ is_some (v_send_reset v) = true;
  (* receiving *)
  lo_input : f_got f ++ v_buffered v `prefix_of` f_arrived f;
  lo_complete :
    f_stopped f = false → f_refused f = false → f_got f ++ v_buffered v = f_arrived f;
  lo_eof : v_receive_fin v = true → v_read_handle v = true → f_arrived_fin f = true;
  lo_stopped : v_stop_sent v = true → f_stopped f = true;
  lo_stopped_for : f_stopped f = true → v_stop_sent v || v_receive_over v = true;
  (* handles *)
  lo_send_handle : f_send_handle f = true → v_write_handle v = true ∧ f_accepted f = 0%nat;
  lo_recv_handle : f_recv_handle f = true → v_read_handle v = true ∧ f_accepted f = 0%nat;
  lo_dropping :
    f_recv_dropping f = true →
    v_buffered v = [] ∧ v_stop_sent v || v_receive_over v = true;
  lo_accepted :
    f_accepted f ≠ 0%nat →
    f_accepted f = 1%nat ∧ v_read_handle v = true ∧ (uni_id id = false → v_write_handle v = true);
}.

(** Without handles; nothing more will be sent, written or read. *)
Record gone_ok (f : Flow) : Prop := {
  go_bytes : Forall is_byte (f_written f);
  go_prefix : f_sent f `prefix_of` f_written f;
  go_fin : f_fin f = true → f_written f = f_sent f;
  go_resets : Forall (eq (len (f_sent f))) (f_resets f);
  go_reset_sent : f_resets f ≠ [] → f_fin f = false;
  go_input : f_got f `prefix_of` f_arrived f;
  go_handles : f_send_handle f = false ∧ f_recv_handle f = false ∧ f_accepted f = 0%nat;
}.

Record unopened_ok (f : Flow) : Prop := {
  uo_sent : f_sent f = [] ∧ f_fin f = false ∧ f_resets f = [] ∧ f_written f = [];
  uo_cancelled : f_cancelled f = false;
  uo_input : f_got f = [] ∧ (f_refused f = false → f_arrived f = []);
  uo_stopped : f_stopped f = false;
  uo_handles : f_send_handle f = false ∧ f_recv_handle f = false ∧ f_recv_dropping f = false
    ∧ f_accepted f = 0%nat;
}.

Definition track (id : Z) (life : option View) (opened : bool) (pend : bytes) (over : bool)
    (f : Flow) : Prop :=
  match life with
  | Some v => live_ok id v pend over f
  | None => if opened then gone_ok f else unopened_ok f
  end.

(** ** The streams of a world *)

Definition over_session (s : State) : bool := is_some (failure s) || finish s || ended s.

Definition opened (s : State) (id : Z) : bool :=
  id / 4 <? at2 (opened_count s (is_own s id)) (stream_kind id).

Definition pending_of (s : State) (id : Z) : bytes :=
  match pending_output s with
  | Some p => if po_id p =? id then po_bytes p else []
  | None => []
  end.

Definition octets_of (id : Z) (m : gmap Z bytes) : bytes := default [] (m !! id).

(** What is recorded outside the session's state. *)
Record Ghost : Type := mkGhost {
  g_log : list Message;
  g_written : gmap Z bytes;
  g_dropping : bool;
  g_inbox : list Event;
  g_got : gmap Z bytes;
  g_stopped : gset Z;
  g_refused : bool;
  g_send : gset Z;
  g_recv : gset Z;
  g_recv_dropping : gset Z;
}.

#[export] Instance Ghost_eta : Eta Ghost := λ g,
  mkGhost (g_log g) (g_written g) (g_dropping g) (g_inbox g) (g_got g) (g_stopped g)
    (g_refused g) (g_send g) (g_recv g) (g_recv_dropping g).

Definition flow (s : State) (g : Ghost) (id : Z) : Flow := {|
  f_sent := stream_data id (g_log g);
  f_fin := fin_sent id (g_log g);
  f_resets := resets id (g_log g);
  f_written := octets_of id (g_written g);
  f_cancelled := g_dropping g
    && match pending_output s with Some p => po_id p =? id | None => false end;
  f_arrived := arrived id (g_inbox g);
  f_arrived_fin := fin_arrived id (g_inbox g);
  f_got := octets_of id (g_got g);
  f_stopped := bool_decide (id ∈ g_stopped g);
  f_refused := g_refused g;
  f_send_handle := bool_decide (id ∈ g_send g);
  f_recv_handle := bool_decide (id ∈ g_recv g);
  f_recv_dropping := bool_decide (id ∈ g_recv_dropping g);
  f_accepted := count_occ Z.eq_dec (at2 (accepted s) (stream_kind id)) id;
|}.

Definition tracked (s : State) (g : Ghost) (id : Z) : Prop :=
  track id (views s !! id) (opened s id) (pending_of s id) (over_session s) (flow s g id).

Definition tracks (s : State) (g : Ghost) : Prop := ∀ id, tracked s g id.

(** ** Moving from one state to the next *)

Lemma live_ok_over id v pend over over' f :
  (over = true → over' = true) → live_ok id v pend over f → live_ok id v pend over' f.
Proof.
  intros Hover []. constructor; try done.
  - intros Ho. apply lo_intact0. destruct over; [|done]. by rewrite Hover in Ho.
  - intros Hc. destruct (lo_cancelled0 Hc) as [Ho|]; [left; auto|by right].
Qed.

Lemma onward_over s s' :
  onward s s' → (ended s = true → ended s' = true) →
  over_session s = true → over_session s' = true.
Proof.
  intros [_ Hf Hn _] He. unfold over_session. rewrite !orb_true_iff. tauto.
Qed.

(** A stream that is not concerned. *)
Lemma tracked_same s s' g g' id :
  views s' !! id = views s !! id → opened s' id = opened s id →
  pending_of s' id = pending_of s id → flow s' g' id = flow s g id →
  (over_session s = true → over_session s' = true) →
  tracked s g id → tracked s' g' id.
Proof.
  intros Hv Ho Hp Hf Hover. unfold tracked. rewrite Hv, Ho, Hp, Hf.
  destruct (views s !! id) as [v|]; [|done]. by apply live_ok_over.
Qed.

(** The end of a live stream. *)
Lemma live_gone id v pend over f : live_ok id v pend over f → v_done v = true → gone_ok f.
Proof.
  intros [] Hd. unfold v_done in Hd. rewrite !andb_true_iff, !negb_true_iff in Hd.
  destruct Hd as [[[_ _] Hr] Hw]. constructor; try done.
  - intros Hf. by apply lo_fin0.
  - intros Hne. by apply lo_reset_sent0.
  - by eapply prefix_app_l.
  - split_and!.
    + destruct (f_send_handle f) eqn:E; [|done]. destruct lo_send_handle0; congruence.
    + destruct (f_recv_handle f) eqn:E; [|done]. destruct lo_recv_handle0; congruence.
    + destruct (f_accepted f) eqn:E; [done|].
      destruct lo_accepted0 as (_ & ? & _); [done|congruence].
Qed.

Lemma live_opened s id v : inv s → views s !! id = Some v → opened s id = true.
Proof.
  intros [_ Hr] Hv. rewrite lookup_views in Hv.
  destruct (streams s !! id) as [st|] eqn:Hst; [|done].
  assert (id ∈ dom (streams s)) as Hd by (apply elem_of_dom; eauto).
  destruct (r_ids _ Hr id Hd) as [_ Hlt]. unfold opened, opened_count.
  apply Z.ltb_lt. by destruct (is_own s id).
Qed.

Lemma roster_frame s s' id :
  roster s' = roster s →
  opened s' id = opened s id ∧ pending_of s' id = pending_of s id
    ∧ (ended s = true → ended s' = true) ∧ ∀ g, flow s' g id = flow s g id.
Proof.
  unfold roster. intros [= Ho Ha Hown Hpeer Hp He].
  assert (is_own s' id = is_own s id) as Hi by (unfold is_own; by rewrite Ho).
  split_and!.
  - unfold opened, opened_count. by rewrite Hi, Hown, Hpeer.
  - unfold pending_of. by rewrite Hp.
  - by rewrite He.
  - intros g. unfold flow. by rewrite Ha, Hp.
Qed.

Lemma tracks_still s s' g : still s s' → tracks s g → tracks s' g.
Proof.
  intros [Hv Hr Ho] Ht id. destruct (roster_frame s s' id Hr) as (? & ? & He & Hf).
  eapply tracked_same; [by rewrite Hv|done|done|apply Hf|by apply onward_over|apply Ht].
Qed.

(** One stream changes, and what is recorded of it. *)
Lemma tracks_change id f s s' g g' :
  changes id f s s' → (∀ j, j ≠ id → flow s g' j = flow s g j) →
  (∀ v, views s !! id = Some v → live_ok id v (pending_of s id) (over_session s) (flow s g id) →
    live_ok id (f v) (pending_of s id) (over_session s) (flow s g' id)) →
  (views s !! id = None → flow s g' id = flow s g id) →
  tracks s g → tracks s' g'.
Proof.
  intros [Hv Hr Ho] Hj Hlive Hnone Ht j. destruct (roster_frame s s' j Hr) as (Hop & Hp & He & Hf).
  specialize (Ht j). destruct (decide (j = id)) as [->|Hne].
  - unfold tracked in *. rewrite Hv, lookup_alter_eq, Hop, Hp, Hf.
    destruct (views s !! id) as [v|]; cbn.
    + eapply live_ok_over; [by apply onward_over|]. by apply Hlive.
    + by rewrite Hnone.
  - eapply tracked_same; [by rewrite Hv, lookup_alter_ne|done|done|by rewrite Hf, Hj
      |by apply onward_over|done].
Qed.

(** One stream changes and is reaped if that was its end. *)
Lemma tracks_release id f s s' g g' :
  inv s → releases id f s s' → (∀ j, j ≠ id → flow s g' j = flow s g j) →
  (∀ v, views s !! id = Some v → live_ok id v (pending_of s id) (over_session s) (flow s g id) →
    live_ok id (f v) (pending_of s id) (over_session s) (flow s g' id)) →
  (views s !! id = None → flow s g' id = flow s g id) →
  tracks s g → tracks s' g'.
Proof.
  intros Hs [Hv Hr Ho] Hj Hlive Hnone Ht j. destruct (roster_frame s s' j Hr) as (Hop & Hp & He & Hf).
  specialize (Ht j). unfold reaped in Hv. rewrite lookup_alter_eq in Hv.
  destruct (decide (j = id)) as [->|Hne].
  - unfold tracked in *. rewrite Hop, Hp, Hf, Hv. destruct (views s !! id) as [v|] eqn:Hl; cbn.
    + specialize (Hlive v eq_refl Ht). destruct (v_done (f v)) eqn:Hd.
      * rewrite lookup_delete_eq. cbn. rewrite (live_opened s id v Hs Hl). by eapply live_gone.
      * rewrite lookup_alter_eq, Hl. cbn. eapply live_ok_over; [by apply onward_over|done].
    + rewrite lookup_alter_eq, Hl. cbn. by rewrite Hnone.
  - eapply tracked_same; [|done|done|by rewrite Hf, Hj|by apply onward_over|done].
    rewrite Hv. by case_match; rewrite ?lookup_delete_ne, ?lookup_alter_ne by done.
Qed.

(** ** What each effect does to a live stream *)

Section effects.
  Context (id : Z) (v : View) (pend : bytes) (over : bool) (f : Flow).
  Hypothesis Hlive : live_ok id v pend over f.

Lemma live_write data :
  Forall is_byte data → writable v → over = false →
  live_ok id (write_view data v) pend over (f <| f_written ::= λ l, l ++ data |>).
Proof.
  intros Hb (Hover & Hfin & Hreset) Hrun. destruct Hlive. constructor; cbn; try done.
  - by apply Forall_app.
  - by apply prefix_app_r.
  - intros _ _ Hsr. rewrite lo_intact0 by done. by rewrite <- !app_assoc.
  - intros Hf. destruct (lo_fin0 Hf) as [Hx _]. unfold v_send_over in Hover. by rewrite Hx in Hover.
Qed.

Lemma live_shutdown : live_ok id (shutdown_view v) pend over f.
Proof. destruct Hlive. by constructor. Qed.

Lemma live_discard code :
  v_send_over v = false → is_u32 code → live_ok id (discard_view code v) pend over f.
Proof.
  intros Hover Hc. destruct Hlive. constructor; cbn; try done.
  - intros c [= <-]. done.
  - intros _. right. by left.
Qed.

Lemma live_stop_in code :
  is_u32 code → live_ok id (stop_in_view code (v_send_over v) v) pend over f.
Proof.
  intros Hc. unfold stop_in_view. destruct (v_send_over v) eqn:Hover.
  - destruct Hlive. constructor; try done. intros _. rewrite orb_true_iff. by right.
  - destruct (live_discard code Hover Hc). by constructor.
Qed.

Lemma live_stop :
  live_ok id (stop_view v) pend over (f <| f_stopped := true |>).
Proof.
  destruct Hlive. constructor; cbn; try done.
  - rewrite app_nil_r. by eapply prefix_app_l.
  - intros _. unfold v_receive_over. cbn.
    by destruct (v_receive_fin v), (is_some (v_receive_reset v)), (v_stop_sent v).
  - intros _. split; [done|]. unfold v_receive_over. cbn.
    by destruct (v_receive_fin v), (is_some (v_receive_reset v)), (v_stop_sent v).
Qed.

(** A handle whose [drop] has stopped the stream. *)
Lemma live_dropping :
  f_stopped f = true → v_buffered v = [] →
  live_ok id v pend over (f <| f_recv_dropping := true |>).
Proof. intros Hs Hb. destruct Hlive. constructor; try done. auto. Qed.

Lemma live_read data rest :
  v_buffered v = data ++ rest →
  live_ok id (v <| v_buffered := rest |>) pend over (f <| f_got ::= λ l, l ++ data |>).
Proof.
  intros Hb. destruct Hlive. rewrite Hb in *. constructor; cbn; try done.
  - by rewrite <- app_assoc.
  - by rewrite <- app_assoc.
  - intros Hd. destruct (lo_dropping0 Hd) as [Hnil ?]. by apply app_nil in Hnil as [_ ->].
Qed.

Lemma live_release_recv :
  f_recv_handle f = true →
  live_ok id (v <| v_read_handle := false |>) pend over
    (f <| f_recv_handle := false |> <| f_recv_dropping := false |>).
Proof.
  intros Hh. destruct Hlive. destruct (lo_recv_handle0 Hh) as [_ Ha]. by constructor.
Qed.

Lemma live_release_send :
  f_send_handle f = true →
  live_ok id (v <| v_write_handle := false |>) pend over (f <| f_send_handle := false |>).
Proof.
  intros Hh. destruct Hlive. destruct (lo_send_handle0 Hh) as [_ Ha]. by constructor.
Qed.

Lemma live_arrive data fin :
  v_receive_over v = false → f_refused f = false →
  live_ok id (arrive_view data fin v) pend over
    (f <| f_arrived ::= λ l, l ++ data |> <| f_arrived_fin ::= λ b, b || fin |>).
Proof.
  intros Hover Hr. destruct Hlive.
  assert (f_stopped f = v_stop_sent v) as Hst.
  { destruct (f_stopped f) eqn:E, (v_stop_sent v) eqn:E'; try done.
    - specialize (lo_stopped_for0 eq_refl). by rewrite Hover in lo_stopped_for0.
    - by specialize (lo_stopped0 eq_refl). }
  constructor; cbn; try done.
  - destruct (v_stop_sent v) eqn:E; [by apply prefix_app_r|].
    rewrite app_assoc, lo_complete0; done.
  - intros Hns _. rewrite <- Hst, Hns, app_assoc, lo_complete0; done.
  - intros [Hf|Hf]%orb_true_iff Hrh; rewrite orb_true_iff; [left; auto|by right].
  - intros Hs. specialize (lo_stopped_for0 Hs). unfold v_receive_over in *. cbn.
    destruct (v_stop_sent v); [done|]. cbn in *. by rewrite Hover in lo_stopped_for0.
  - intros Hd. destruct (lo_dropping0 Hd) as [Hb Hx]. unfold v_receive_over in *. cbn.
    destruct (v_stop_sent v); [done|]. cbn in *. by rewrite Hover in Hx.
Qed.

Lemma live_reset_in code : live_ok id (reset_in_view code v) pend over f.
Proof.
  destruct Hlive. constructor; try done.
  - intros _. unfold v_receive_over. cbn. by rewrite !orb_true_r.
  - intros Hd. destruct (lo_dropping0 Hd). split; [done|].
    unfold v_receive_over. cbn. by rewrite !orb_true_r.
Qed.

(** The request for a reset becomes a RESET_STREAM with the final size. *)
Lemma live_reset_out code :
  v_reset_requested v = Some code →
  live_ok id (reset_out_view code v) pend over (f <| f_resets := [v_wire_sent v] |>).
Proof.
  intros Hr. destruct Hlive. destruct (lo_reset0 code Hr) as [Hover Hc].
  assert (f_fin f = false) as Hf.
  { destruct (f_fin f) eqn:E; [|done]. destruct (lo_fin0 eq_refl) as [Hx _].
    unfold v_send_over in Hover. by rewrite Hx in Hover. }
  constructor; cbn; try done.
  - constructor; [done|constructor].
  - intros _. unfold v_send_over. cbn. by rewrite orb_true_r.
  - intros _. right. by right.
Qed.

(** ... or is lost with the session. *)
Lemma live_reset_lost code :
  v_reset_requested v = Some code → live_ok id (reset_out_view code v) pend over f.
Proof.
  intros Hr. destruct Hlive. destruct (lo_reset0 code Hr) as [Hover Hc].
  constructor; cbn; try done.
  - intros Hne. destruct (lo_reset_sent0 Hne). done.
  - intros _. unfold v_send_over. cbn. by rewrite orb_true_r.
  - intros _. right. by right.
Qed.

(** The staged octets become the selected output. *)
Lemma live_select :
  pend = [] → f_cancelled f = false → live_ok id (select_view v) (v_staging v) over f.
Proof.
  intros -> Hc. destruct Hlive. constructor; cbn; try done.
  intros. rewrite app_nil_r. by apply lo_intact0.
Qed.

Lemma live_commit data fin :
  pend = data → v_reset_requested v = None → v_send_over v = false → over = false →
  (fin = true → v_staging v = []) →
  live_ok id (commit_view (len data) fin v) [] over
    (f <| f_sent ::= λ l, l ++ data |> <| f_fin ::= λ b, b || fin |> <| f_cancelled := false |>).
Proof.
  intros -> Hr Hover Hrun Hfin. destruct Hlive.
  unfold v_send_over in Hover. apply orb_false_elim in Hover as [Hf Hsr%is_some_false].
  specialize (lo_intact0 Hrun Hr Hsr).
  assert (f_fin f = false) as Hff.
  { destruct (f_fin f) eqn:E; [|done]. destruct (lo_fin0 eq_refl). congruence. }
  assert (f_resets f = []) as Hres.
  { destruct (f_resets f) eqn:E; [done|]. destruct lo_reset_sent0; [done|]. by rewrite Hsr in H. }
  constructor; cbn; rewrite ?Hff, ?Hres, ?Hr; try done.
  - rewrite lo_intact0, app_assoc. by apply prefix_app_r.
  - rewrite len_app. lia.
  - intros _ _ _. by rewrite lo_intact0, app_assoc.
  - cbn. intros ->. split; [done|]. by rewrite lo_intact0, Hfin, app_nil_r by done.
  - intros Hst. specialize (lo_stop0 Hst). rewrite Hr in lo_stop0. unfold v_send_over in *.
    cbn in *. by rewrite Hf, Hsr in lo_stop0.
Qed.
End effects.

(** ** Opening and accepting *)

Lemma live_new id own over f :
  unopened_ok f →
  live_ok id (new_view (uni_id id) own) [] over (f <| f_accepted := if own then 0%nat else 1%nat |>).
Proof.
  intros [(Hs & Hf & Hr & Hw) Hc (Hg & Ha) Hst (Hsh & Hrh & Hrd & _)].
  constructor; cbn; rewrite ?Hs, ?Hf, ?Hr, ?Hw, ?Hg, ?Hst, ?Hsh, ?Hrh, ?Hrd, ?Hc; try done.
  - by destruct (uni_id id), own.
  - apply prefix_nil.
  - intros _ Href. by rewrite Ha.
  - by destruct (uni_id id), own.
  - destruct own; [done|]. intros _. split; [done|]. split; [by destruct (uni_id id)|].
    by intros ->.
Qed.

Lemma id_unique s j id :
  is_own s j = is_own s id → stream_kind j = stream_kind id → j / 4 = id / 4 → j = id.
Proof.
  unfold is_own. intros Ho Hk Hq. rewrite (id_parts j), (id_parts id), Hk, Hq.
  rewrite !land_one in *. pose proof (Z.mod_pos_bound j 2). pose proof (Z.mod_pos_bound id 2).
  destruct (role (options s)); cbn in Ho;
    destruct (Z.eqb_spec (j mod 2) 0), (Z.eqb_spec (id mod 2) 0), (Z.eqb_spec (j mod 2) 1),
      (Z.eqb_spec (id mod 2) 1); try done; lia.
Qed.

Lemma pending_live s id : inv s → views s !! id = None → pending_of s id = [].
Proof.
  intros Hs Hn. unfold pending_of. destruct (pending_output s) as [p|] eqn:Hp; [|done].
  destruct (Z.eqb_spec (po_id p) id) as [<-|]; [|done].
  destruct (pending_stream _ _ Hs Hp) as (st & Hst & _). rewrite lookup_views, Hst in Hn. done.
Qed.

Lemma opens_opened own id j s s' :
  opens own id s s' → j ≠ id → opened s' j = opened s j.
Proof.
  intros [Hown Hid _ Hcount _ Hrest _] Hne. unfold opened.
  assert (is_own s' j = is_own s j) as Hj by (unfold is_own; congruence).
  rewrite Hj, Hcount. destruct (Bool.eqb (is_own s j) own) eqn:E; [|done].
  apply eqb_prop in E. rewrite at2_set2 by apply stream_kind_is_kind.
  destruct (Z.eqb_spec (stream_kind id) (stream_kind j)) as [Hk|]; [|done].
  rewrite <- Hk, E, <- Hid. apply Bool.eq_iff_eq_true. rewrite !Z.ltb_lt.
  split; [|lia]. intros. destruct (decide (j / 4 = id / 4)); [|lia].
  exfalso. apply Hne. apply (id_unique s); congruence.
Qed.

Lemma opens_unopened own id s s' g :
  inv s → opens own id s s' → tracks s g →
  views s !! id = None ∧ opened s id = false ∧ unopened_ok (flow s g id).
Proof.
  intros Hs [Hown Hid _ _ _ _ _] Ht.
  assert (opened s id = false) as Ho.
  { unfold opened. rewrite Hown, <- Hid. apply Z.ltb_irrefl. }
  assert (views s !! id = None) as Hn.
  { destruct (views s !! id) as [v|] eqn:E; [|done]. apply live_opened in E; [|done]. congruence. }
  split_and!; [done|done|]. specialize (Ht id). unfold tracked in Ht. by rewrite Hn, Ho in Ht.
Qed.

Lemma tracks_opens own id s s' g :
  inv s → opens own id s s' → tracks s g → tracks s' g.
Proof.
  intros Hs Hop Ht j. pose proof Hop as [Hown Hid Hv Hcount Ha Hrest Hon].
  injection Hrest as Ho Hp He.
  destruct (opens_unopened _ _ _ _ _ Hs Hop Ht) as (Hnone & Hopn & Hun).
  destruct (decide (j = id)) as [->|Hne].
  - unfold tracked. rewrite Hv, lookup_insert_eq. cbn [track].
    replace (pending_of s' id) with (@nil Z)
      by (unfold pending_of; rewrite Hp; symmetry; by apply pending_live).
    replace (flow s' g id) with ((flow s g id) <| f_accepted := if own then 0%nat else 1%nat |>).
    { by apply live_new. }
    unfold flow. unfold over. cbn. rewrite Hp, Ha. f_equal.
    destruct Hun as [_ _ _ _ (_ & _ & _ & Hc)]. cbn in Hc.
    destruct own; [done|]. rewrite at2_set2, Z.eqb_refl by apply stream_kind_is_kind.
    rewrite count_occ_app, Hc. cbn. by destruct (Z.eq_dec id id).
  - eapply tracked_same; [by rewrite Hv, lookup_insert_ne|by eapply opens_opened| | | |apply Ht].
    + unfold pending_of. by rewrite Hp.
    + unfold flow. rewrite Hp, Ha. f_equal. destruct own; [done|].
      rewrite at2_set2 by apply stream_kind_is_kind.
      destruct (Z.eqb_spec (stream_kind id) (stream_kind j)) as [Hk|]; [|done].
      rewrite count_occ_app, Hk. cbn. destruct (Z.eq_dec id j); [congruence|lia].
    + apply onward_over; [done|]. by rewrite He.
Qed.

(** The next stream in line is handed out. *)
Lemma tracks_accept s g k id rest :
  is_kind k → stream_kind id = k → at2 (accepted s) k = id :: rest → tracks s g →
  let s' := s <| accepted ::= set2 k rest |> in
  tracks s' g ∧ ∃ v, views s' !! id = Some v ∧ v_read_handle v = true
    ∧ (uni_id id = false → v_write_handle v = true) ∧ f_accepted (flow s' g id) = 0%nat.
Proof.
  intros Hk Hid Hacc Ht s'. subst k.
  assert (∀ j, f_accepted (flow s g j)
    = (if Z.eq_dec id j then 1 else 0) + f_accepted (flow s' g j))%nat as Hcount.
  { intros j. subst s'. cbn. rewrite at2_set2 by (done || apply stream_kind_is_kind).
    destruct (Z.eqb_spec (stream_kind id) (stream_kind j)) as [Hj|Hj].
    - rewrite <- Hj, Hacc. cbn. by destruct (Z.eq_dec id j).
    - by destruct (Z.eq_dec id j) as [->|]. }
  pose proof (Ht id) as Hme. unfold tracked in Hme. specialize (Hcount id) as Hc.
  destruct (Z.eq_dec id id) as [_|]; [|done].
  destruct (views s !! id) as [v|] eqn:Hv; cbn [track] in Hme.
  2: { destruct (opened s id); [destruct Hme as [_ _ _ _ _ _ (_ & _ & Hz)]
       |destruct Hme as [_ _ _ _ (_ & _ & _ & Hz)]]; lia. }
  destruct (lo_accepted _ _ _ _ _ Hme) as (Hone & Hrd & Hwr); [lia|].
  split; [|exists v; split_and!; [done|done|done|lia]].
  intros j. destruct (decide (j = id)) as [->|Hne].
  - unfold tracked. change (views s' !! id) with (views s !! id). rewrite Hv. cbn [track].
    destruct Hme. constructor; try done.
    + intros Hh. destruct (lo_send_handle0 Hh). split; [done|lia].
    + intros Hh. destruct (lo_recv_handle0 Hh). split; [done|lia].
    + intros Hnz. lia.
  - apply (tracked_same s s' g g j); [done|done|done| |done|apply Ht].
    unfold flow. f_equal. specialize (Hcount j). destruct (Z.eq_dec id j); [congruence|]. done.
Qed.
