(* ===== verification/WtWorld.v ===== *)
(** * The invariant of a WebTransport session

    What holds in every world a session can get into: the ledgers, the life
    of every stream, and the correspondence between the capsules on the
    carrier and a list of messages.  Every action keeps it. *)

From S2P Require Import Prelude Bytes WtCodec WtCodecSpec WtCodecBounds WtState WtProtocol.
From S2P Require Import WtStreams WtDriver WtLedger WtInvariant WtOutputInvariant WtViews.
From S2P Require Import WtOutputViews WtSystem WtTrack.

Definition reader_failed (r : Reader) : bool :=
  match r with
  | ReadDone (Err _) => true
  | _ => false
  end.

Definition dropping_output (w : Writer) : bool :=
  match w with
  | WritePreempted => true
  | _ => false
  end.

Definition ghost (w : World) (log : list Message) : Ghost := {|
  g_log := log;
  g_written := written w;
  g_dropping := dropping_output (writer (session w));
  g_inbox := inbox w;
  g_got := got w;
  g_stopped := stopped w;
  g_refused := reader_failed (reader (session w));
  g_send := send_handles w ∪ send_dropping w;
  g_recv := recv_handles w ∪ recv_dropping w;
  g_recv_dropping := recv_dropping w;
|}.

(** A message that carries no stream data. *)
Definition streamless (m : Message) : Prop := ∀ id, data_of id m = [] ∧ fin_of id m = false.

(** What the writer is busy with; [extra] is the control message it holds. *)
Definition writer_ok (wr : Writer) (s : State) (extra : list Message) : Prop :=
  match wr with
  | WriteTop => pending_output s = None ∧ extra = []
  | WriteWait (OBytes wire None) =>
      pending_output s = None
        ∧ ∃ m, extra = [m] ∧ message_wire m = Ok wire ∧ streamless m
  | WriteWait (OBytes wire (Some (id, fin))) =>
      extra = []
        ∧ ∃ data, pending_output s = Some (mkPending id data fin) ∧ stream id data fin = Ok wire
  | WriteWait (OClose wire) =>
      pending_output s = None ∧ extra = [] ∧ close_capsule wire ∧ finish s = true
  | WriteWait OFinish => pending_output s = None ∧ extra = [] ∧ finish s = true
  | WritePreempted => extra = []
  | WriteDone _ => extra = []
  end.

Definition reader_ok (r : Reader) : Prop :=
  match r with
  | ReadWait d => wf d ∧ lean d
  | ReadData d data => wf d ∧ lean d ∧ Forall is_byte data
  | ReadDone _ => True
  end.

Definition accepted_kinds (s : State) : Prop :=
  ∀ k, is_kind k → Forall (λ id, stream_kind id = k) (at2 (accepted s) k).

(** The options a session was started with. *)
Class Config := config : SessionOptions.

Record sound `{Config} (w : World) (log extra : list Message) : Prop := {
  sd_options : options (world_state w) = config;
  sd_inv : inv (world_state w);
  sd_queues : queues (world_state w);
  sd_accepted : accepted_kinds (world_state w);
  sd_tracks : tracks (world_state w) (ghost w (log ++ extra));
  sd_handles : send_handles w ## send_dropping w ∧ recv_handles w ## recv_dropping w;
  sd_ends : ends_once (log ++ extra);
  sd_sendable : Forall sendable (log ++ extra);
  sd_wire : messages_wire log = Ok (sent_data (carrier (session w)));
  sd_writer : writer_ok (writer (session w)) (world_state w) extra;
  sd_ended : ended (world_state w) = true → ∃ r, writer (session w) = WriteDone r;
  sd_reader : reader_ok (reader (session w));
}.

Section application.
Context `{Config}.

(** ** Actions of the application *)

Lemma swp_run {E A} (m : step E A) sh Q :
  swp m (state sh) Q → Q (m sh).1 (state (m sh).2).
Proof. intros Hm. destruct sh as [s sg]. apply Hm. Qed.

(** The tasks and the carrier are left alone. *)
Lemma app_sound w w' log extra s' :
  sound w log extra →
  (carrier (session w'), writer (session w'), reader (session w'))
    = (carrier (session w), writer (session w), reader (session w)) →
  world_state w' = s' →
  (pending_output s', ended s') = (pending_output (world_state w), ended (world_state w)) →
  onward (world_state w) s' → inv s' → accepted_kinds s' →
  send_handles w' ## send_dropping w' ∧ recv_handles w' ## recv_dropping w' →
  tracks s' (ghost w' (log ++ extra)) → sound w' log extra.
Proof.
  intros [Hopt Hi Hq Ha Ht Hh He Hs Hw Hwr Hend Hr] [= Hc1 Hc2 Hc3] <- [= Hp Hd] Ho Hi' Ha' Hh' Ht'.
  constructor; try done.
  - by rewrite (on_options _ _ Ho).
  - by apply (on_queues _ _ Ho).
  - by rewrite Hc1.
  - rewrite Hc2. destruct (writer (session w)) as [|[wire|wire [[id fin]|]|]| |]; cbn in *;
      rewrite ?Hp; try done; destruct_and?; split_and?; try done; by apply (on_finish _ _ Ho).
  - rewrite Hd, Hc2. done.
  - by rewrite Hc3.
Qed.

Lemma roster_rest s s' :
  roster s' = roster s →
  (pending_output s', ended s') = (pending_output s, ended s) ∧ accepted s' = accepted s.
Proof. unfold roster. intros [=]. split; congruence. Qed.

Lemma accepted_kinds_frame s s' :
  accepted s' = accepted s → accepted_kinds s → accepted_kinds s'.
Proof. unfold accepted_kinds. by intros ->. Qed.

(** A call that moves no stream data. *)
Lemma call_still {E A} (m : step E A) w log extra :
  sound w log extra → swp m (world_state w) (λ _ s', inv s') →
  quiet m (world_state w) → sound (call m w) log extra.
Proof.
  intros Hw Hi Hq. apply (swp_run m (shared (session w))) in Hi.
  apply (swp_run m (shared (session w))) in Hq. destruct (roster_rest _ _ (st_roster _ _ Hq)).
  eapply app_sound; [exact Hw|done|reflexivity|done|apply Hq|done| |apply Hw|].
  - by eapply accepted_kinds_frame; [|apply Hw].
  - eapply tracks_still; [exact Hq|apply Hw].
Qed.

(** A call with an effect on one stream. *)
Lemma changes_sound w w' log extra id f :
  sound w log extra → inv (world_state w') →
  (carrier (session w'), writer (session w'), reader (session w'))
    = (carrier (session w), writer (session w), reader (session w)) →
  send_handles w' ## send_dropping w' ∧ recv_handles w' ## recv_dropping w' →
  changes id f (world_state w) (world_state w') →
  (∀ j, j ≠ id → flow (world_state w) (ghost w' (log ++ extra)) j
                 = flow (world_state w) (ghost w (log ++ extra)) j) →
  (∀ v, views (world_state w) !! id = Some v →
    live_ok id v (pending_of (world_state w) id) (over_session (world_state w))
      (flow (world_state w) (ghost w (log ++ extra)) id) →
    live_ok id (f v) (pending_of (world_state w) id) (over_session (world_state w))
      (flow (world_state w) (ghost w' (log ++ extra)) id)) →
  (views (world_state w) !! id = None →
    flow (world_state w) (ghost w' (log ++ extra)) id
    = flow (world_state w) (ghost w (log ++ extra)) id) →
  sound w' log extra.
Proof.
  intros Hw Hi Hf Hh Hc Hj Hl Hn. destruct (roster_rest _ _ (ch_roster _ _ _ _ Hc)).
  eapply app_sound; [exact Hw|done|reflexivity|done|apply Hc|done| |done|].
  - by eapply accepted_kinds_frame; [|apply Hw].
  - eapply tracks_change; [exact Hc|done|done|done|apply Hw].
Qed.

(** Handing out, and recording of octets. *)
Lemma octets_log id j data m :
  octets_of j (log_octets id data m) = octets_of j m ++ (if decide (j = id) then data else []).
Proof.
  unfold octets_of, log_octets. destruct (decide (j = id)) as [->|].
  - by rewrite lookup_insert_eq.
  - by rewrite lookup_insert_ne, app_nil_r.
Qed.

Lemma tracks_flow s g g' : (∀ j, flow s g' j = flow s g j) → tracks s g → tracks s g'.
Proof. intros Hf Ht j. unfold tracked. rewrite Hf. apply Ht. Qed.

Lemma still_sound w w' log extra :
  sound w log extra → inv (world_state w') →
  (carrier (session w'), writer (session w'), reader (session w'))
    = (carrier (session w), writer (session w), reader (session w)) →
  send_handles w' ## send_dropping w' ∧ recv_handles w' ## recv_dropping w' →
  still (world_state w) (world_state w') →
  (∀ j, flow (world_state w) (ghost w' (log ++ extra)) j
        = flow (world_state w) (ghost w (log ++ extra)) j) →
  sound w' log extra.
Proof.
  intros Hw Hi Hf Hh Hc Hj. destruct (roster_rest _ _ (st_roster _ _ Hc)).
  eapply app_sound; [exact Hw|done|reflexivity|done|apply Hc|done| |done|].
  - by eapply accepted_kinds_frame; [|apply Hw].
  - eapply tracks_still; [exact Hc|]. eapply tracks_flow; [exact Hj|apply Hw].
Qed.

(** A step's result and state, with what is known of them. *)
Ltac run m w H1 H2 :=
  apply (swp_run m (shared (session w))) in H1;
  apply (swp_run m (shared (session w))) in H2;
  destruct (m (shared (session w))) as [?r ?sh]; cbn [fst snd] in H1, H2.

Lemma reset_sound w log extra id code :
  sound w log extra → is_u32 code → sound (call (send_reset_stream id code) w) log extra.
Proof.
  intros Hw Hc. pose proof (sd_inv _ _ _ Hw) as Hi.
  pose proof (send_reset_stream_inv id code _ Hi) as H1.
  pose proof (send_reset_stream_views id code (world_state w)) as H2.
  apply (swp_run (send_reset_stream id code) (shared (session w))) in H1.
  apply (swp_run (send_reset_stream id code) (shared (session w))) in H2.
  destruct H2 as [_ [Hst|(v & Hv & Hover & Hreq & Hch)]].
  - eapply still_sound; [exact Hw|exact H1|done|apply Hw|exact Hst|done].
  - eapply changes_sound; [exact Hw|exact H1|done|apply Hw|exact Hch|done| |by rewrite Hv].
    intros v' Hv' Hl. apply live_discard; [done|congruence|done].
Qed.

Lemma write_sound w log extra id cx data :
  sound w log extra → Forall is_byte data →
  sound (let '(r, sh) := poll_write id cx data (shared (session w)) in
         let w := put_shared sh w in
         match r with
         | Ok (Ready n) => w <| written ::= log_octets id (takeZ n data) |>
         | _ => w
         end) log extra.
Proof.
  intros Hw Hb. pose proof (sd_inv _ _ _ Hw) as Hi.
  pose proof (poll_write_inv id cx data _ Hi) as H1.
  pose proof (poll_write_views id cx data (world_state w)) as H2.
  run (poll_write id cx data) w H1 H2.
  destruct r as [[n|]|e].
  2, 3: eapply still_sound; [exact Hw|exact H1|done|apply Hw| |done]; apply H2.
  destruct H2 as (Hn & _ & [[-> Hst]|(v & Hv & Hwr & Hopen & Hch)]).
  - eapply still_sound; [exact Hw|exact H1|done|apply Hw|exact Hst|].
    intros j. unfold flow. cbn. f_equal. rewrite octets_log. by destruct (decide _); rewrite app_nil_r.
  - eapply changes_sound; [exact Hw|exact H1|done|apply Hw|exact Hch| | |by rewrite Hv].
    + intros j Hj. unfold flow. cbn. f_equal. rewrite octets_log, decide_False by done. apply app_nil_r.
    + intros v' Hv' Hl. rewrite Hv in Hv'. injection Hv' as <-.
      pose proof (live_write id v _ _ _ Hl (takeZ n data)) as Hx.
      replace (flow _ _ id) with ((flow (world_state w) (ghost w (log ++ extra)) id)
        <| f_written ::= λ l, l ++ takeZ n data |>).
      * apply Hx; [by apply Forall_take|done|]. destruct Hopen as [Hf Hfi He].
        unfold over_session. by rewrite Hf, Hfi, He.
      * unfold flow. unfold over. cbn. by rewrite octets_log, decide_True.
Qed.

Lemma shutdown_sound w log extra id cx :
  sound w log extra → sound (call (poll_shutdown id cx) w) log extra.
Proof.
  intros Hw. pose proof (sd_inv _ _ _ Hw) as Hi.
  pose proof (poll_shutdown_inv id cx _ Hi) as H1.
  pose proof (poll_shutdown_views id cx (world_state w)) as H2.
  apply (swp_run (poll_shutdown id cx) (shared (session w))) in H1.
  apply (swp_run (poll_shutdown id cx) (shared (session w))) in H2.
  destruct H2 as [Hst|(v & Hv & Hover & Hch)].
  - eapply still_sound; [exact Hw|exact H1|done|apply Hw|exact Hst|done].
  - eapply changes_sound; [exact Hw|exact H1|done|apply Hw|exact Hch|done| |by rewrite Hv].
    intros v' Hv' Hl. by apply live_shutdown.
Qed.

(** Handles change hands without a call. *)
Lemma rehandle_sound w w' log extra :
  sound w log extra → session w' = session w →
  (written w', got w', inbox w', stopped w') = (written w, got w, inbox w, stopped w) →
  send_handles w' ## send_dropping w' ∧ recv_handles w' ## recv_dropping w' →
  (∀ j, bool_decide (j ∈ send_handles w' ∪ send_dropping w')
        = bool_decide (j ∈ send_handles w ∪ send_dropping w)) →
  (recv_handles w', recv_dropping w') = (recv_handles w, recv_dropping w) →
  sound w' log extra.
Proof.
  intros Hw Hs [= H1 H2 H3 H4] Hd Hsend [= H5 H6].
  assert (world_state w' = world_state w) as Hst by (unfold world_state; by rewrite Hs).
  eapply still_sound; [exact Hw|rewrite Hst; apply Hw|by rewrite Hs|done|by rewrite Hst|].
  intros j. unfold flow, ghost. cbn. by rewrite H1, H2, H3, H4, H5, H6, Hs, Hsend.
Qed.

Lemma drop_send_sound w log extra id :
  sound w log extra → id ∈ send_handles w →
  sound (call (send_reset_stream id 0) w <| send_handles ::= λ h, h ∖ {[id]} |>
           <| send_dropping ::= union {[id]} |>) log extra.
Proof.
  intros Hw Hid. pose proof (reset_sound w log extra id 0 Hw ltac:(by split)) as Hw1.
  eapply rehandle_sound; [exact Hw1|done|done| | |done].
  - destruct (sd_handles _ _ _ Hw). cbn. split; [set_solver|done].
  - intros j. cbn. apply bool_decide_ext. destruct (decide (j = id)); set_solver.
Qed.

(** A call that ends with the reaping of one stream. *)
Lemma releases_sound w w' log extra id f :
  sound w log extra → inv (world_state w') →
  (carrier (session w'), writer (session w'), reader (session w'))
    = (carrier (session w), writer (session w), reader (session w)) →
  send_handles w' ## send_dropping w' ∧ recv_handles w' ## recv_dropping w' →
  releases id f (world_state w) (world_state w') →
  (∀ j, j ≠ id → flow (world_state w) (ghost w' (log ++ extra)) j
                 = flow (world_state w) (ghost w (log ++ extra)) j) →
  (∀ v, views (world_state w) !! id = Some v →
    live_ok id v (pending_of (world_state w) id) (over_session (world_state w))
      (flow (world_state w) (ghost w (log ++ extra)) id) →
    live_ok id (f v) (pending_of (world_state w) id) (over_session (world_state w))
      (flow (world_state w) (ghost w' (log ++ extra)) id)) →
  (views (world_state w) !! id = None →
    flow (world_state w) (ghost w' (log ++ extra)) id
    = flow (world_state w) (ghost w (log ++ extra)) id) →
  sound w' log extra.
Proof.
  intros Hw Hi Hf Hh Hc Hj Hl Hn. destruct (roster_rest _ _ (rl_roster _ _ _ _ Hc)).
  eapply app_sound; [exact Hw|done|reflexivity|done|apply Hc|done| |done|].
  - by eapply accepted_kinds_frame; [|apply Hw].
  - eapply tracks_release; [apply Hw|exact Hc|done|done|done|apply Hw].
Qed.

(** A handle keeps its stream alive. *)
Lemma send_handle_live w log extra id :
  sound w log extra → id ∈ send_handles w ∪ send_dropping w →
  ∃ v, views (world_state w) !! id = Some v ∧ v_write_handle v = true.
Proof.
  intros Hw Hid. pose proof (sd_tracks _ _ _ Hw id) as Ht. unfold tracked in Ht.
  apply (bool_decide_eq_true_2 _) in Hid. destruct (views (world_state w) !! id) as [v|].
  - exists v. split; [done|]. by apply (lo_send_handle _ _ _ _ _ Ht).
  - destruct (opened _ id); [destruct Ht as [_ _ _ _ _ _ (Hx & _)]
      |destruct Ht as [_ _ _ _ (Hx & _)]]; cbn in Hx; congruence.
Qed.

Lemma recv_handle_live w log extra id :
  sound w log extra → id ∈ recv_handles w ∪ recv_dropping w →
  ∃ v, views (world_state w) !! id = Some v ∧ v_read_handle v = true.
Proof.
  intros Hw Hid. pose proof (sd_tracks _ _ _ Hw id) as Ht. unfold tracked in Ht.
  apply (bool_decide_eq_true_2 _) in Hid. destruct (views (world_state w) !! id) as [v|].
  - exists v. split; [done|]. by apply (lo_recv_handle _ _ _ _ _ Ht).
  - destruct (opened _ id); [destruct Ht as [_ _ _ _ _ _ (_ & Hx & _)]
      |destruct Ht as [_ _ _ _ (_ & Hx & _)]]; cbn in Hx; congruence.
Qed.

Lemma release_send_sound w log extra id :
  sound w log extra → id ∈ send_dropping w →
  sound (call (send_release id) w <| send_dropping ::= λ h, h ∖ {[id]} |>) log extra.
Proof.
  intros Hw Hid. pose proof (sd_inv _ _ _ Hw) as Hi.
  destruct (send_handle_live w log extra id Hw ltac:(set_solver)) as (v & Hv & _).
  pose proof (send_release_inv id _ Hi) as H1.
  pose proof (release_handle_views id (λ st, st <| ss_write_handle := false |>)
    (λ v, v <| v_write_handle := false |>) (world_state w) ltac:(done)) as H2.
  apply (swp_run (send_release id) (shared (session w))) in H1.
  apply (swp_run (send_release id) (shared (session w))) in H2. destruct H2 as [_ H2].
  destruct (sd_handles _ _ _ Hw) as [Hds Hdr].
  eapply releases_sound; [exact Hw|exact H1|done| |exact H2| | |by rewrite Hv].
  - cbn. split; [set_solver|done].
  - intros j Hj. unfold flow. cbn. f_equal. apply bool_decide_ext. set_solver.
  - intros v' _ Hl. replace (flow _ _ id) with ((flow (world_state w) (ghost w (log ++ extra)) id)
      <| f_send_handle := false |>).
    + apply live_release_send; [done|]. apply bool_decide_eq_true_2. set_solver.
    + unfold flow. unfold over. cbn. f_equal. symmetry. apply bool_decide_eq_false_2. set_solver.
Qed.

Lemma stop_flow w log id (drop : bool) :
  let w' := w <| stopped ::= union {[id]} |>
              <| recv_handles ::= λ h, if drop then h ∖ {[id]} else h |>
              <| recv_dropping ::= λ h, if drop then {[id]} ∪ h else h |> in
  id ∈ recv_handles w →
  (∀ s j, j ≠ id → flow s (ghost w' log) j = flow s (ghost w log) j) ∧
  ∀ s, flow s (ghost w' log) id
    = (flow s (ghost w log) id) <| f_stopped := true |>
        <| f_recv_dropping ::= λ b, drop || b |>.
Proof.
  intros w' Hid. split.
  - intros s j Hj. unfold flow. cbn. f_equal; apply bool_decide_ext; destruct drop; set_solver.
  - intros s. unfold flow. unfold over. cbn. f_equal.
    + apply bool_decide_eq_true_2. set_solver.
    + apply bool_decide_ext. destruct drop; [|done]. set_solver.
    + destruct drop; [|done]. apply bool_decide_eq_true_2. set_solver.
Qed.

Lemma stop_sound w log extra id code (drop : bool) :
  sound w log extra → is_u32 code → id ∈ recv_handles w →
  sound (call (recv_stop id code) w <| stopped ::= union {[id]} |>
           <| recv_handles ::= λ h, if drop then h ∖ {[id]} else h |>
           <| recv_dropping ::= λ h, if drop then {[id]} ∪ h else h |>) log extra.
Proof.
  intros Hw Hc Hid. pose proof (sd_inv _ _ _ Hw) as Hi.
  destruct (recv_handle_live w log extra id Hw ltac:(set_solver)) as (v & Hv & _).
  pose proof (recv_stop_inv id code _ Hi) as H1.
  pose proof (recv_stop_views id code _ Hc Hi) as H2.
  apply (swp_run (recv_stop id code) (shared (session w))) in H1. destruct H1 as [H1 _].
  apply (swp_run (recv_stop id code) (shared (session w))) in H2.
  destruct H2 as [[Hn _]|H2]; [by rewrite Hv in Hn|].
  destruct (stop_flow w (log ++ extra) id drop Hid) as [Hj Hme].
  eapply changes_sound; [exact Hw|exact H1|done| |exact H2|apply Hj| |by rewrite Hv].
  - destruct (sd_handles _ _ _ Hw). cbn. split; [done|]. destruct drop; [|done]. set_solver.
  - intros v' Hv' Hl. change (ghost _ (log ++ extra)) with (ghost (w <| stopped ::= union {[id]} |>
      <| recv_handles ::= λ h, if drop then h ∖ {[id]} else h |>
      <| recv_dropping ::= λ h, if drop then {[id]} ∪ h else h |>) (log ++ extra)).
    rewrite Hme. apply live_stop in Hl. destruct drop; [|by destruct Hl].
    by apply live_dropping in Hl.
Qed.

Lemma read_sound w log extra id cx room :
  sound w log extra → 0 ≤ room →
  sound (let '(r, sh) := poll_read id cx room (shared (session w)) in
         let w := put_shared sh w in
         match r with
         | Ok (Ready data) => w <| got ::= log_octets id data |>
         | _ => w
         end) log extra.
Proof.
  intros Hw Hr. pose proof (sd_inv _ _ _ Hw) as Hi.
  pose proof (poll_read_inv id cx room _ Hr Hi) as H1.
  pose proof (poll_read_views id cx room _ Hr Hi) as H2.
  run (poll_read id cx room) w H1 H2.
  destruct r as [[data|]|e].
  2, 3: eapply still_sound; [exact Hw|exact H1|done|apply Hw|exact H2|done].
  assert (data = [] → still (world_state w) (state sh) →
    sound (put_shared sh w <| got ::= log_octets id data |>) log extra) as Hnil.
  { intros -> Hst. eapply still_sound; [exact Hw|exact H1|done|apply Hw|exact Hst|].
    intros j. unfold flow. cbn. f_equal. rewrite octets_log. by destruct (decide _); rewrite app_nil_r. }
  destruct H2 as [(_ & Hn & Hst)|(v & Hv & [(Hn & Hst & _)|(_ & _ & rest & Hb & Hch)])]; [auto..|].
  eapply changes_sound; [exact Hw|exact H1|done|apply Hw|exact Hch| | |].
  - intros j Hj. unfold flow. cbn. f_equal. rewrite octets_log, decide_False by done. apply app_nil_r.
  - intros v' Hv' Hl. rewrite Hv in Hv'. injection Hv' as <-.
    replace (flow _ _ id) with ((flow (world_state w) (ghost w (log ++ extra)) id)
      <| f_got ::= λ l, l ++ data |>); [by apply live_read|].
    unfold flow. unfold over. cbn. by rewrite octets_log, decide_True.
  - by rewrite Hv.
Qed.

Lemma dropping_drained w log extra id st :
  sound w log extra → id ∈ recv_dropping w →
  streams (world_state w) !! id = Some st → drained st.
Proof.
  intros Hw Hid Hst. pose proof (sd_tracks _ _ _ Hw id) as Ht. unfold tracked in Ht.
  pose proof (lookup_views_Some _ _ _ Hst) as Hv. rewrite Hv in Ht.
  destruct (lo_dropping _ _ _ _ _ Ht) as [Hb Hs]; [by apply bool_decide_eq_true_2|].
  destruct (credit_lookup _ _ _ (proj1 (sd_inv _ _ _ Hw)) Hst). split; [|exact Hs].
  rewrite so_input_bytes, <- len_app. change (concat (ss_input st) ++ ss_input_staging st) with
    (v_buffered (view st)). by rewrite Hb.
Qed.

Lemma release_recv_sound w log extra id :
  sound w log extra → id ∈ recv_dropping w →
  sound (call (recv_release id) w <| recv_dropping ::= λ h, h ∖ {[id]} |>) log extra.
Proof.
  intros Hw Hid. pose proof (sd_inv _ _ _ Hw) as Hi.
  destruct (recv_handle_live w log extra id Hw ltac:(set_solver)) as (v & Hv & _).
  pose proof (recv_release_inv id _ Hi (λ st, dropping_drained w log extra id st Hw Hid)) as H1.
  pose proof (release_handle_views id (λ st, st <| ss_read_handle := false |>)
    (λ v, v <| v_read_handle := false |>) (world_state w) ltac:(done)) as H2.
  apply (swp_run (recv_release id) (shared (session w))) in H1.
  apply (swp_run (recv_release id) (shared (session w))) in H2. destruct H2 as [_ H2].
  destruct (sd_handles _ _ _ Hw) as [Hds Hdr].
  eapply releases_sound; [exact Hw|exact H1|done| |exact H2| | |by rewrite Hv].
  - cbn. split; [done|set_solver].
  - intros j Hj. unfold flow. cbn. f_equal; apply bool_decide_ext; set_solver.
  - intros v' _ Hl. replace (flow _ _ id) with ((flow (world_state w) (ghost w (log ++ extra)) id)
      <| f_recv_handle := false |> <| f_recv_dropping := false |>).
    + apply live_release_recv; [done|]. apply bool_decide_eq_true_2. set_solver.
    + unfold flow. unfold over. cbn.
      f_equal; symmetry; apply bool_decide_eq_false_2; set_solver.
Qed.

(** ** New handles *)

(** [id] is given a send handle, a receive handle or both. *)
Definition give (send recv : bool) (id : Z) (w : World) : World :=
  w <| send_handles ::= λ h, if send then {[id]} ∪ h else h |>
    <| recv_handles ::= λ h, if recv then {[id]} ∪ h else h |>.

Lemma tracks_give s w send recv id v log :
  tracks s (ghost w log) → views s !! id = Some v →
  f_accepted (flow s (ghost w log) id) = 0%nat →
  (send = true → v_write_handle v = true) → (recv = true → v_read_handle v = true) →
  tracks s (ghost (give send recv id w) log).
Proof.
  intros Ht Hv Ha Hs Hr j. destruct (decide (j = id)) as [->|Hne].
  - specialize (Ht id). unfold tracked in *. rewrite Hv in *. cbn [track] in *.
    destruct Ht. constructor; try done.
    + intros Hx. split; [|done]. destruct send; [auto|]. by apply lo_send_handle.
    + intros Hx. split; [|done]. destruct recv; [auto|]. by apply lo_recv_handle.
  - eapply tracked_same; [done|done|done| |done|apply Ht].
    unfold flow. cbn. f_equal; apply bool_decide_ext; destruct send, recv; set_solver.
Qed.

Lemma give_sound w w1 log extra send recv id v s' :
  sound w log extra →
  (carrier (session w1), writer (session w1), reader (session w1))
    = (carrier (session w), writer (session w), reader (session w)) →
  (send_handles w1, send_dropping w1, recv_handles w1, recv_dropping w1)
    = (send_handles w, send_dropping w, recv_handles w, recv_dropping w) →
  world_state w1 = s' →
  (pending_output s', ended s') = (pending_output (world_state w), ended (world_state w)) →
  onward (world_state w) s' → inv s' → accepted_kinds s' →
  tracks s' (ghost w1 (log ++ extra)) → views s' !! id = Some v →
  f_accepted (flow s' (ghost w1 (log ++ extra)) id) = 0%nat →
  id ∉ send_dropping w → id ∉ recv_dropping w →
  (send = true → v_write_handle v = true) → (recv = true → v_read_handle v = true) →
  sound (give send recv id w1) log extra.
Proof.
  intros Hw Hf [= H1 H2 H3 H4] <- Hp Ho Hi Ha Ht Hv Hz Hns Hnr Hs Hr.
  eapply app_sound; [exact Hw|done|reflexivity|done|done|done|done| |by eapply tracks_give].
  destruct (sd_handles _ _ _ Hw). cbn. rewrite H1, H2, H3, H4.
  split; [destruct send|destruct recv]; set_solver.
Qed.

Lemma uni_id_kind id : uni_id id = (stream_kind id =? 1).
Proof. apply land_two_zero. Qed.

Lemma opens_accepted own id s s' : opens own id s s' → accepted_kinds s → accepted_kinds s'.
Proof.
  intros [_ _ _ _ Ha _ _] Hk k Hkk. rewrite Ha. destruct own; [by apply Hk|].
  rewrite at2_set2 by (done || apply stream_kind_is_kind).
  destruct (Z.eqb_spec (stream_kind id) k) as [<-|]; [|by apply Hk].
  apply Forall_app. split; [apply Hk, stream_kind_is_kind|by constructor].
Qed.

Lemma open_sound w log extra uni :
  sound w log extra →
  sound (let '(r, sh) := open uni (shared (session w)) in
         let w := put_shared sh w in
         match r with
         | Ok (Ready id) =>
             w <| send_handles ::= union {[id]} |>
               <| recv_handles ::= λ h, if uni then h else {[id]} ∪ h |>
         | _ => w
         end) log extra.
Proof.
  intros Hw. pose proof (sd_inv _ _ _ Hw) as Hi.
  pose proof (open_inv uni _ Hi) as H1. pose proof (open_views uni _ Hi) as H2.
  run (open uni) w H1 H2. destruct r as [[id|]|e].
  2, 3: eapply still_sound; [exact Hw|exact H1|done|apply Hw|exact H2|done].
  destruct H2 as (_ & Hk & s1 & Hop & Hst).
  destruct (opens_unopened _ _ _ _ _ Hi Hop (sd_tracks _ _ _ Hw)) as (_ & _ & Hun).
  pose proof (tracks_opens _ _ _ _ _ Hi Hop (sd_tracks _ _ _ Hw)) as Ht1.
  pose proof (tracks_still _ _ _ Hst Ht1) as Ht.
  pose proof (op_accepted _ _ _ _ Hop) as Ha. pose proof (op_rest _ _ _ _ Hop) as Hrest.
  destruct (roster_rest _ _ (st_roster _ _ Hst)) as [Hr1 Hr2]. cbn in Ha.
  destruct Hun as [_ _ _ _ (Hsh & Hrh & Hrd & Hacc)]. cbn in Hsh, Hrh, Hrd, Hacc.
  apply bool_decide_eq_false in Hsh, Hrh, Hrd.
  pose proof (uni_id_kind id) as Hu. rewrite Hk in Hu.
  replace (_ <| recv_handles ::= _ |>) with (give true (negb uni) id (put_shared sh w))
    by (by destruct uni).
  eapply (give_sound w (put_shared sh w) _ _ _ _ _ (new_view (uni_id id) true));
    [exact Hw|done|done|reflexivity| | |exact H1| |exact Ht| | |set_solver|set_solver| |].
  - etrans; [exact Hr1|]. congruence.
  - etrans; [apply Hop|apply Hst].
  - eapply accepted_kinds_frame; [exact Hr2|]. eapply opens_accepted; [exact Hop|apply Hw].
  - change (views (state sh) !! id = Some (new_view (uni_id id) true)).
    rewrite (st_views _ _ Hst), (op_views _ _ _ _ Hop). apply lookup_insert_eq.
  - cbn. change (world_state (put_shared sh w)) with (state sh). by rewrite Hr2, Ha.
  - intros _. cbn. apply orb_true_r.
  - intros Hn. cbn. rewrite Hu. by destruct uni.
Qed.

Lemma accept_sound w log extra uni :
  sound w log extra →
  sound (let '(r, sh) := accept uni (shared (session w)) in
         let w := put_shared sh w in
         match r with
         | Ok (Ready id) =>
             w <| recv_handles ::= union {[id]} |>
               <| send_handles ::= λ h, if uni then h else {[id]} ∪ h |>
         | _ => w
         end) log extra.
Proof.
  intros Hw. pose proof (sd_inv _ _ _ Hw) as Hi.
  pose proof (accept_inv uni _ Hi) as H1. pose proof (accept_views uni (world_state w)) as H2.
  run (accept uni) w H1 H2. destruct r as [[id|]|e].
  2, 3: eapply still_sound; [exact Hw|exact H1|done|apply Hw|exact H2|done].
  cbn zeta in H2. set (k := if uni then 1 else 0) in *. destruct H2 as (rest & Hacc & Hs').
  assert (is_kind k) as Hk by (subst k; destruct uni; [by right|by left]).
  pose proof (sd_accepted _ _ _ Hw k Hk) as Hkinds.
  change (state (shared (session w))) with (world_state w) in Hacc, Hs'.
  rewrite Hacc in Hkinds. inversion Hkinds as [|? ? Hid Hrest]; subst.
  destruct (tracks_accept _ _ k id rest Hk Hid Hacc (sd_tracks _ _ _ Hw))
    as (Ht & v & Hv & Hrd & Hwr & Hz).
  pose proof (sd_tracks _ _ _ Hw id) as Hme. unfold tracked in Hme.
  change (views ((world_state w) <| accepted ::= set2 k rest |>)) with (views (world_state w)) in Hv.
  rewrite Hv in Hme. cbn [track] in Hme.
  assert (f_accepted (flow (world_state w) (ghost w (log ++ extra)) id) ≠ 0%nat) as Hnz.
  { cbn. rewrite Hid, Hacc. cbn. by destruct (Z.eq_dec id id). }
  assert ((id ∉ send_dropping w) ∧ (id ∉ recv_dropping w)) as [Hns Hnr].
  { split; intros Hx; [destruct (lo_send_handle _ _ _ _ _ Hme)|destruct (lo_recv_handle _ _ _ _ _ Hme)];
      try done; apply bool_decide_eq_true_2; set_solver. }
  replace (_ <| send_handles ::= _ |>) with (give (negb uni) true id (put_shared sh w))
    by (by destruct uni).
  eapply (give_sound w (put_shared sh w) _ _ _ _ _ v);
    [exact Hw|done|done|exact Hs'|done|by apply onward_frame|rewrite <- Hs'; exact H1| |exact Ht
    |exact Hv|exact Hz|done|done| |done].
  - intros j Hj. cbn. rewrite at2_set2 by done.
    destruct (Z.eqb_spec k j) as [<-|]; [done|]. by apply (sd_accepted _ _ _ Hw).
  - intros Hu. apply Hwr. rewrite uni_id_kind, Hid. subst k. by destruct uni.
Qed.

End application.
