(* ===== verification/WtTasks.v ===== *)
(** * The reader and writer tasks keep the session's invariant *)

From S2P Require Import Prelude Bytes WtCodec WtCodecSpec WtCodecBounds WtState WtProtocol.
From S2P Require Import WtStreams WtDriver WtLedger WtInvariant WtOutputInvariant WtViews.
From S2P Require Import WtOutputViews WtSystem WtTrack WtWorld.

Section reader.
Context `{Config}.

(** ** The reader *)

(** What a step of the reader leaves for the writer and the queues. *)
Record proceeds (s s' : State) : Prop := {
  pr_rest : (pending_output s', ended s') = (pending_output s, ended s);
  pr_onward : onward s s';
  pr_accepted : accepted_kinds s → accepted_kinds s';
}.

#[export] Instance proceeds_preorder : PreOrder proceeds.
Proof.
  split; [by intros s|]. intros x y z [H1 ? ?] [H2 ? ?].
  constructor; [congruence|by etrans|auto].
Qed.

Lemma roster_proceeds s s' : roster s' = roster s → onward s s' → proceeds s s'.
Proof.
  intros Hr Ho. destruct (roster_rest _ _ Hr) as [H1 H2]. constructor; [done|done|].
  by apply accepted_kinds_frame.
Qed.

Lemma still_proceeds s s' : still s s' → proceeds s s'.
Proof. intros [_ Hr Ho]. by apply roster_proceeds. Qed.

Lemma opens_proceeds own id s s' : opens own id s s' → proceeds s s'.
Proof.
  intros Hop. constructor; [|apply Hop|by eapply opens_accepted].
  pose proof (op_rest _ _ _ _ Hop). congruence.
Qed.

Lemma peers_proceeds s s' : peers s s' → proceeds s s'.
Proof.
  intros [Hp _]. induction Hp as [|x y z [_ [id Hop]] _ IH]; [done|].
  etrans; [by eapply opens_proceeds|done].
Qed.

Lemma tracks_peers s s' g : peers s s' → tracks s g → tracks s' g.
Proof.
  intros [Hp _]. induction Hp as [|x y z [Hi [id Hop]] _ IH]; [done|].
  intros Ht. by eapply IH, tracks_opens.
Qed.

Lemma arrived_snoc id l e : arrived id (l ++ [e]) = arrived id l ++ arrival id e.
Proof. unfold arrived. rewrite map_app, concat_app. cbn. by rewrite app_nil_r. Qed.

Lemma fin_arrived_snoc id l e : fin_arrived id (l ++ [e]) = fin_arrived id l || arrival_fin id e.
Proof. unfold fin_arrived. rewrite existsb_app. cbn. by rewrite orb_false_r. Qed.

Definition deliver_ghost (e : Event) (g : Ghost) : Ghost := g <| g_inbox ::= λ l, l ++ [e] |>.
Definition refuse_ghost (g : Ghost) : Ghost := g <| g_refused := true |>.

(** A reader that has failed promises nothing about what is still to come. *)
Lemma tracks_refuse s g : tracks s g → tracks s (refuse_ghost g).
Proof.
  intros Ht id. specialize (Ht id). unfold tracked in *. destruct (views s !! id) as [v|].
  - destruct Ht. by constructor.
  - destruct (opened s id); destruct Ht; constructor; try done. by destruct uo_input.
Qed.

Lemma flow_deliver s g e id :
  flow s (deliver_ghost e g) id = (flow s g id)
    <| f_arrived ::= λ l, l ++ arrival id e |> <| f_arrived_fin ::= λ b, b || arrival_fin id e |>.
Proof.
  unfold flow, deliver_ghost. unfold over. cbn. by rewrite arrived_snoc, fin_arrived_snoc.
Qed.

(** The event was refused, wholly or after it was stored. *)
Lemma tracks_refuse_event s g e : tracks s g → tracks s (refuse_ghost (deliver_ghost e g)).
Proof.
  intros Ht id. specialize (Ht id). unfold tracked in *.
  replace (flow s (refuse_ghost (deliver_ghost e g)) id)
    with ((flow s (deliver_ghost e g) id) <| f_refused := true |>) by reflexivity.
  rewrite flow_deliver. generalize dependent (flow s g id). intros f Ht.
  destruct (views s !! id) as [v|].
  - destruct Ht. constructor; try done; cbn [f_got f_arrived f_arrived_fin over].
    + by apply prefix_app_r.
    + intros. rewrite orb_true_iff. left. auto.
  - destruct (opened s id); destruct Ht; constructor; try done.
    + by apply prefix_app_r.
    + by destruct uo_input.
Qed.

(** An event that is about no stream's data. *)
Lemma deliver_flow s g e :
  match e with EStream _ _ _ _ => False | _ => True end →
  ∀ id, flow s (deliver_ghost e g) id = flow s g id.
Proof.
  intros He id. rewrite flow_deliver. destruct e; try done; unfold over; cbn;
    by rewrite app_nil_r, orb_false_r.
Qed.

Lemma tracks_inbound s s' g : inv s → inbound s s' → tracks s g → tracks s' g.
Proof.
  intros Hi [Hst|id code v Hv Hover Hrl|id code v Hv Hc Hch] Ht.
  - by eapply tracks_still.
  - eapply tracks_release; [exact Hi|exact Hrl|done| |done|exact Ht].
    intros v' _ Hl. by apply live_reset_in.
  - eapply tracks_change; [exact Hch|done| |done|exact Ht].
    intros v' Hv' Hl. rewrite Hv in Hv'. injection Hv' as <-. by apply live_stop_in.
Qed.

Lemma inbound_proceeds s s' : inbound s s' → proceeds s s'.
Proof.
  intros [Hst|id code v _ _ [_ Hr Ho]|id code v _ _ [_ Hr Ho]];
    [by apply still_proceeds|by apply roster_proceeds..].
Qed.

Lemma receive_tracks e s g :
  inv s → bounded_event e → g_refused g = false → tracks s g →
  swp (receive e) s (λ r s', inv s' ∧ proceeds s s' ∧
    tracks s' (if r is Ok _ then deliver_ghost e g else refuse_ghost (deliver_ghost e g))).
Proof.
  intros Hi He Hg Ht. eapply swp_mono; [exact (swp_and _ _ _ _ (receive_inv e s Hi He)
    (receive_views e s Hi He))|].
  intros r s' [Hi' (s1 & Hp & Hx)]. split; [done|].
  assert (∀ g', tracks s' g' → tracks s' (if r is Ok _ then g' else refuse_ghost g')) as Href.
  { intros g' Hg'. destruct r; [done|by apply tracks_refuse]. }
  pose proof (tracks_peers _ _ _ Hp Ht) as Ht1. pose proof (peers_proceeds _ _ Hp) as Hp1.
  assert (match e with EStream _ _ _ _ => False | _ => True end → inbound s1 s' →
    proceeds s s' ∧ tracks s' (if r is Ok _ then deliver_ghost e g
      else refuse_ghost (deliver_ghost e g))) as Hother.
  { intros He' Hin. split; [etrans; [done|by apply inbound_proceeds]|]. apply Href.
    eapply tracks_flow; [by apply deliver_flow|]. by eapply tracks_inbound; [apply Hp| |]. }
  destruct e as [id data fin start| | | |]; [|by apply Hother..]. clear Hother.
  destruct Hx as [[Hst Hr]|(v & Hv & Hover & Hrl)].
  - split; [etrans; [done|by apply still_proceeds]|]. destruct r as [[]|]; [done|].
    eapply tracks_still; [exact Hst|]. by apply tracks_refuse_event.
  - split; [etrans; [done|]; apply roster_proceeds; apply Hrl|]. apply Href.
    apply (tracks_release id (arrive_view data fin) s1 s' g);
      [apply Hp|exact Hrl| | |by rewrite Hv|exact Ht1].
    + intros j Hj. rewrite flow_deliver. cbn. rewrite (proj2 (Z.eqb_neq _ _)) by done.
      unfold over. cbn. by rewrite app_nil_r, orb_false_r.
    + intros v' Hv' Hl. rewrite Hv in Hv'. injection Hv' as <-.
      rewrite flow_deliver. cbn [arrival arrival_fin]. rewrite Z.eqb_refl. by apply live_arrive.
Qed.

Lemma task_sound w w' log extra :
  sound w log extra →
  (carrier (session w'), writer (session w')) = (carrier (session w), writer (session w)) →
  (send_handles w', send_dropping w', recv_handles w', recv_dropping w')
    = (send_handles w, send_dropping w, recv_handles w, recv_dropping w) →
  inv (world_state w') → proceeds (world_state w) (world_state w') →
  tracks (world_state w') (ghost w' (log ++ extra)) → reader_ok (reader (session w')) →
  sound w' log extra.
Proof.
  intros [Hopt Hi Hq Ha Ht Hh He Hs Hw Hwr Hend Hr] [= Hc1 Hc2] [= H1 H2 H3 H4] Hi' [Hp Ho Hacc] Ht' Hr'.
  injection Hp as Hp Hd. constructor; try done.
  - by rewrite (on_options _ _ Ho).
  - by apply (on_queues _ _ Ho).
  - by apply Hacc.
  - by rewrite H1, H2, H3, H4.
  - by rewrite Hc1.
  - rewrite Hc2. destruct (writer (session w)) as [|[wire|wire [[id fin]|]|]| |]; cbn in *;
      rewrite ?Hp; try done; destruct_and?; split_and?; try done; by apply (on_finish _ _ Ho).
  - rewrite Hd, Hc2. done.
Qed.

Lemma exec_still (m : step Failure unit) sh :
  swp m (state sh) (λ _ s', inv s') → quiet m (state sh) →
  inv (state (exec m sh)) ∧ still (state sh) (state (exec m sh)).
Proof. intros H1 H2. split; [apply (swp_run _ _ _ H1)|apply (swp_run _ _ _ H2)]. Qed.

Lemma read_exit_sound w log extra r :
  sound w log extra → reader_failed (reader (session w)) = false →
  sound (w <| session ::= read_exit r |>) log extra.
Proof.
  intros Hw Hrd. pose proof (sd_tracks _ _ _ Hw) as Ht. destruct r as [[]|e]; cbn [read_exit].
  - eapply task_sound; [exact Hw|done|done|apply Hw|done| |done].
    eapply tracks_flow; [|exact Ht]. intros j. unfold flow, ghost. cbn. by rewrite Hrd.
  - destruct (exec_still (fail (failure_state "invalid or interrupted WebTransport capsule stream"))
      (shared (session w))) as [Hi Hst]; [apply fail_inv, Hw|apply fail_quiet|].
    eapply task_sound; [exact Hw|done|done|exact Hi|by apply still_proceeds| |done].
    eapply tracks_still; [exact Hst|]. exact (tracks_refuse _ _ Ht).
Qed.

Lemma deliver_tracks e s g :
  inv s → bounded_event e → g_refused g = false → tracks s g →
  swp (deliver e) s (λ r s', inv s' ∧ proceeds s s' ∧
    tracks s' (if finish s && negb (is_some (remote_close s)) then g
               else if r is Ok _ then deliver_ghost e g else refuse_ghost (deliver_ghost e g)) ∧
    (finish s && negb (is_some (remote_close s)) = true → r = Ok tt)).
Proof.
  intros Hi He Hg Ht. unfold deliver. swp_steps.
  destruct (finish s && negb (is_some (remote_close s))); cbn [negb]; swp_steps; [done|].
  intros sg. unfold wp. pose proof (receive_tracks e s g Hi He Hg Ht sg) as Hr. unfold wp in Hr.
  destruct (receive e (mkShared s sg)) as [[[]|f] [s1 sg1]]; cbn in *;
    destruct Hr as (Hi1 & Hp1 & Ht1).
  - by swp_steps.
  - assert (still s1 (s1 <| failure := Some f |> <| streams ::= fmap take_wakers |>)) as Hst
      by (etrans; [apply still_failure|apply still_wake]).
    split_and!; [|etrans; [exact Hp1|by apply still_proceeds]|by eapply tracks_still|done].
    apply inv_wake. inv_frame s1.
Qed.

Lemma next_ok d data :
  wf d → lean d → Forall is_byte data →
  match next d data with
  | Some (Ok None, (d', _)) => wf d' ∧ lean d'
  | Some (Ok (Some event), (d', data')) =>
      bounded_event event ∧ wf d' ∧ lean d' ∧ Forall is_byte data'
  | _ => True
  end.
Proof.
  intros Hd Hl Hb. unfold next.
  destruct (next_fuel_sound (S (work d data)) d data) as (r & [d' data'] & Hn & Hr); [done..|lia|].
  rewrite Hn. destruct (next_fuel_lean _ _ _ _ _ Hd Hb Hl Hn) as [Hl' Hev].
  destruct r as [[event|]|]; cbn in *; [|tauto|done]. destruct Hr as (_ & ? & ? & _). auto.
Qed.

Lemma read_next_sound w log extra released d data :
  sound w log extra → reader (session w) = ReadData d data →
  sound (w <| inbox ::= λ l, l ++ option_list (next_event released d data (world_state w)) |>
           <| session ::= read_next released d data |>) log extra.
Proof.
  intros Hw Hr. pose proof (sd_reader _ _ _ Hw) as Hok. rewrite Hr in Hok.
  destruct Hok as (Hd & Hl & Hb). pose proof (next_ok d data Hd Hl Hb) as Hn.
  pose proof (sd_tracks _ _ _ Hw) as Ht. pose proof (sd_inv _ _ _ Hw) as Hi.
  assert (reader_failed (reader (session w)) = false) as Hnf by (by rewrite Hr).
  assert (w <| inbox ::= λ l, l ++ option_list None |> = w) as Hin
    by (destruct w; unfold over; cbn; by rewrite app_nil_r).
  change (w <| inbox ::= λ l, l ++ option_list (next_event released d data (world_state w)) |>
    <| session ::= read_next released d data |>)
    with (w <| inbox ::= λ l, l ++ option_list (next_event released d data (world_state w)) |>
      <| session := read_next released d data (session w) |>).
  unfold next_event, read_next. destruct (next d data) as [[[[event|]|e] [d' data']]|] eqn:Hnext.
  2: { destruct released as [|e]; rewrite Hin; [|by apply (read_exit_sound w)].
       eapply task_sound; [exact Hw|done|done|exact Hi|done| |done].
       eapply tracks_flow; [|exact Ht]. intros j. unfold flow, ghost. cbn. by rewrite Hnf. }
  2: { rewrite Hin. by apply (read_exit_sound w). }
  2: { rewrite Hin. by destruct w. }
  destruct Hn as (Hev & Hd' & Hl' & Hb').
  destruct released as [[]|e]; [|rewrite Hin; by apply (read_exit_sound w)].
  pose proof (deliver_tracks event (world_state w) (ghost w (log ++ extra)) Hi Hev Hnf Ht) as Hdel.
  apply (swp_run (deliver event) (shared (session w))) in Hdel.
  destruct (deliver event (shared (session w))) as [r sh]. cbn [fst snd] in Hdel.
  destruct Hdel as (Hi' & Hp & Ht' & Hskip). change (state (shared (session w))) with (world_state w) in *.
  destruct (finish (world_state w) && negb (is_some (remote_close (world_state w)))).
  - rewrite Hskip by done. rewrite Hin.
    eapply task_sound; [exact Hw|done|done|exact Hi'|exact Hp| |done].
    eapply tracks_flow; [|exact Ht']. intros j. unfold flow, ghost. cbn. by rewrite Hnf.
  - destruct r as [[]|e].
    + eapply task_sound; [exact Hw|done|done|exact Hi'|exact Hp| |done].
      eapply tracks_flow; [|exact Ht']. intros j. unfold flow, ghost. cbn. by rewrite Hnf.
    + destruct (exec_still (fail (failure_state "invalid or interrupted WebTransport capsule stream"))
        sh) as [Hi2 Hst]; [by apply fail_inv|apply fail_quiet|].
      eapply task_sound; [exact Hw|done|done|exact Hi2|etrans; [exact Hp|by apply still_proceeds]| |done].
      eapply tracks_still; [exact Hst|]. exact Ht'.
Qed.

Lemma read_top_sound w log extra d :
  sound w log extra → reader (session w) = ReadWait d →
  sound (w <| session ::= read_top |>) log extra.
Proof.
  intros Hw Hr. change (w <| session ::= read_top |>) with (w <| session := read_top (session w) |>).
  unfold read_top. destruct (_ || _); [apply (read_exit_sound w); [done|by rewrite Hr]|].
  by destruct w.
Qed.

Lemma read_arrival_sound w log extra data d :
  sound w log extra → reader (session w) = ReadWait d → typed (RArrival data) →
  sound (w <| session ::= read_arrival data d |>) log extra.
Proof.
  intros Hw Hr Hty. pose proof (sd_tracks _ _ _ Hw) as Ht.
  assert (reader_failed (reader (session w)) = false) as Hnf by (by rewrite Hr).
  change (w <| session ::= read_arrival data d |>)
    with (w <| session := read_arrival data d (session w) |>).
  destruct data as [[data|e]|]; cbn [read_arrival].
  - pose proof (sd_reader _ _ _ Hw) as Hok. rewrite Hr in Hok. destruct Hok.
    eapply task_sound; [exact Hw|done|done|apply Hw|done| |done].
    eapply tracks_flow; [|exact Ht]. intros j. unfold flow, ghost. cbn. by rewrite Hnf.
  - by apply (read_exit_sound w).
  - destruct (decoder_finish d); [|by apply (read_exit_sound w)].
    destruct (exec_still (update (λ s, s <| finish := true |>);; wake_streams;; shared_wake)
      (shared (session w))) as [Hi Hst].
    { swp_steps. apply inv_wake. pose proof (sd_inv _ _ _ Hw) as Hi. unfold world_state in Hi.
      inv_frame (state (shared (session w))). }
    { swp_steps. etrans; [|apply still_wake]. constructor; [done|done|].
      constructor; [done|done|done|by apply queues_frame]. }
    eapply task_sound; [exact Hw|done|done|exact Hi|by apply still_proceeds| |done].
    eapply tracks_still; [exact Hst|].
    eapply tracks_flow; [|exact Ht]. intros j. unfold flow, ghost. cbn. by rewrite Hnf.
Qed.

End reader.
