(* ===== verification/WtWriter.v ===== *)
(** * The writer task keeps the session's invariant

    Selection, sending, commit and cancellation, and with them the messages
    on the carrier. *)

From S2P Require Import Prelude Bytes WtCodec WtCodecSpec WtCodecBounds WtState WtProtocol.
From S2P Require Import WtStreams WtDriver WtLedger WtInvariant WtOutputInvariant WtViews.
From S2P Require Import WtOutputViews WtSystem WtTrack WtWorld WtTasks.

Section writer.
Context `{Config}.

(** ** The log of messages *)

Lemma stream_data_snoc id log m : stream_data id (log ++ [m]) = stream_data id log ++ data_of id m.
Proof. unfold stream_data. rewrite map_app, concat_app. cbn. by rewrite app_nil_r. Qed.

Lemma fin_sent_snoc id log m : fin_sent id (log ++ [m]) = fin_sent id log || fin_of id m.
Proof. unfold fin_sent. rewrite existsb_app. cbn. by rewrite orb_false_r. Qed.

Lemma resets_snoc id log m : resets id (log ++ [m]) = resets id log ++ option_list (reset_of id m).
Proof. unfold resets. rewrite omap_app. cbn. by destruct (reset_of id m). Qed.

Definition log_ghost (m : Message) (g : Ghost) : Ghost := g <| g_log ::= λ l, l ++ [m] |>.

Lemma flow_log s g m id :
  flow s (log_ghost m g) id = (flow s g id)
    <| f_sent ::= λ l, l ++ data_of id m |> <| f_fin ::= λ b, b || fin_of id m |>
    <| f_resets ::= λ l, l ++ option_list (reset_of id m) |>.
Proof.
  unfold flow, log_ghost. unfold over. cbn. by rewrite stream_data_snoc, fin_sent_snoc, resets_snoc.
Qed.

Lemma neutral_of m id :
  neutral m → data_of id m = [] ∧ fin_of id m = false ∧ reset_of id m = None ∧ concerns id m = false.
Proof.
  destruct m as [| kind values| | |]; cbn; try done. intros Hk.
  rewrite (proj2 (Z.eqb_neq _ _)) by done. cbn. by destruct values as [|? [|? [|? []]]].
Qed.

Lemma flow_neutral s g m id : neutral m → flow s (log_ghost m g) id = flow s g id.
Proof.
  intros Hm. destruct (neutral_of m id Hm) as (H1 & H2 & H3 & _).
  rewrite flow_log, H1, H2, H3. unfold flow, over. cbn. by rewrite !app_nil_r, orb_false_r.
Qed.

Lemma ends_log id log : existsb (ends id) log = fin_sent id log || negb (is_empty (resets id log)).
Proof.
  induction log as [|m log IH] using rev_ind; [done|].
  rewrite existsb_app, IH, fin_sent_snoc, resets_snoc. cbn. unfold ends.
  destruct (fin_sent id log), (fin_of id m), (resets id log), (reset_of id m); done.
Qed.

Lemma ends_once_snoc log m :
  ends_once log → (∀ id, concerns id m = true → existsb (ends id) log = false) →
  ends_once (log ++ [m]).
Proof.
  intros Hlog Hm id before m' after Heq Hends.
  destruct after as [|m'' after _] using rev_ind; [done|].
  rewrite app_comm_cons, app_assoc in Heq. apply app_inj_tail in Heq as [-> ->].
  rewrite existsb_app, (Hlog id before m' after eq_refl Hends). cbn. rewrite orb_false_r.
  destruct (concerns id m'') eqn:Hc; [|done]. specialize (Hm id Hc).
  rewrite existsb_app in Hm. cbn in Hm. rewrite Hends in Hm.
  by rewrite !orb_true_r in Hm.
Qed.

Lemma ends_once_init log m : ends_once (log ++ [m]) → ends_once log.
Proof.
  intros Hlog id before m' after -> Hends.
  specialize (Hlog id before m' (after ++ [m])). rewrite <- app_assoc in Hlog.
  specialize (Hlog eq_refl Hends). rewrite existsb_app in Hlog. by apply orb_false_elim in Hlog as [? _].
Qed.

(** Dropping a control message that was not sent. *)
Lemma tracks_unlog s g m : streamless m → tracks s (log_ghost m g) → tracks s g.
Proof.
  intros Hm Ht id. specialize (Ht id). destruct (Hm id) as [H1 H2]. unfold tracked in *.
  rewrite flow_log, H1, H2 in Ht. generalize dependent (flow s g id). intros f Ht.
  destruct (views s !! id) as [v|]; [|destruct (opened s id)]; destruct Ht; constructor; try done;
    cbn [f_sent f_fin f_resets f_written over] in *; rewrite ?app_nil_r, ?orb_false_r in *; try done.
  all: try by apply Forall_app in lo_resets as [].
  all: try by apply Forall_app in go_resets as [].
  - intros Hne. apply lo_reset_sent. intros [? _]%app_nil. done.
  - intros Hne. apply go_reset_sent. intros [? _]%app_nil. done.
  - destruct uo_sent as (? & ? & [? _]%app_nil & ?). done.
Qed.

Lemma messages_wire_snoc log wires m wire :
  messages_wire log = Ok wires → message_wire m = Ok wire →
  messages_wire (log ++ [m]) = Ok (wires ++ [wire]).
Proof.
  revert wires. induction log as [|m0 log IH]; intros wires Hl Hm; cbn in *.
  - injection Hl as <-. by rewrite Hm.
  - destruct (message_wire m0); cbn in *; [|done].
    destruct (messages_wire log) as [ws|]; cbn in *; [|done]. injection Hl as <-.
    by rewrite (IH ws).
Qed.

(** ** Selected, committed and discarded output *)

Lemma tracks_takes id v fin s s' g :
  inv s → views s !! id = Some v → takes id (v_staging v) fin s s' → pending_output s = None →
  g_dropping g = false → tracks s g → tracks s' g.
Proof.
  intros Hi Hv [Htv Hr Hp Ho] Hn Hg Ht j. injection Hr as Hopt Ha Hown Hpeer He.
  assert (opened s' j = opened s j) as Hop.
  { unfold opened, opened_count, is_own. by rewrite Hopt, Hown, Hpeer. }
  assert (∀ i, flow s' g i = flow s g i) as Hf.
  { intros i. unfold flow. by rewrite Ha, Hg. }
  assert (over_session s = true → over_session s' = true) as Hov
    by (apply onward_over; [done|by rewrite He]).
  destruct (decide (j = id)) as [->|Hne].
  - specialize (Ht id). unfold tracked in *. rewrite Htv, lookup_alter_eq, Hv, Hf in *. cbn in Ht |- *.
    replace (pending_of s' id) with (v_staging v) by (unfold pending_of; rewrite Hp; cbn; by rewrite Z.eqb_refl).
    eapply live_ok_over; [exact Hov|]. eapply live_select; [exact Ht| |].
    + unfold pending_of. by rewrite Hn.
    + cbn. by rewrite Hg.
  - eapply tracked_same; [by rewrite Htv, lookup_alter_ne|done| |apply Hf|done|apply Ht].
    unfold pending_of. rewrite Hp, Hn. cbn. by rewrite (proj2 (Z.eqb_neq _ _)).
Qed.

Lemma resolves_frame m s s' :
  resolves m s s' →
  (∀ id, opened s' id = opened s id) ∧ accepted s' = accepted s
    ∧ (over_session s = true → over_session s' = true).
Proof.
  intros [_ Hr _ Ho]. injection Hr as Hopt Ha Hown Hpeer He. split_and!; [|done|].
  - intros id. unfold opened, opened_count, is_own. by rewrite Hopt, Hown, Hpeer.
  - apply onward_over; [done|by rewrite He].
Qed.

Lemma tracks_commit id v data fin s s' g :
  inv s → pending_output s = Some (mkPending id data fin) →
  views s !! id = Some v → v_reset_requested v = None → v_send_over v = false → open_session s →
  (fin = true → v_staging v = []) →
  resolves (reaped id (alter (commit_view (len data) fin) id (views s))) s s' →
  tracks s g → tracks s' (log_ghost (MStream id data fin) g).
Proof.
  intros Hi Hp Hv Hreq Hover Hopen Hfin Hres Ht j.
  destruct (resolves_frame _ _ _ Hres) as (Hop & Ha & Hov). destruct Hres as [Hv' _ Hp' _].
  assert (over_session s = false) as Hrun.
  { destruct Hopen as [H1 H2 H3]. unfold over_session. by rewrite H1, H2, H3. }
  unfold reaped in Hv'. rewrite lookup_alter_eq, Hv in Hv'. cbn in Hv'.
  destruct (decide (j = id)) as [->|Hne].
  - pose proof (Ht id) as Hme. unfold tracked in Hme. rewrite Hv in Hme. cbn in Hme.
    assert (live_ok id (commit_view (len data) fin v) [] (over_session s')
      (flow s' (log_ghost (MStream id data fin) g) id)) as Hl.
    { eapply live_ok_over; [exact Hov|].
      pose proof (live_commit id v _ _ _ Hme data fin) as Hc. rewrite flow_log.
      cbn [data_of fin_of reset_of option_list]. rewrite Z.eqb_refl. cbn [andb].
      replace (_ <| f_resets ::= _ |>) with ((flow s g id) <| f_sent ::= λ l, l ++ data |>
        <| f_fin ::= λ b, b || fin |> <| f_cancelled := false |>).
      - apply Hc; [|done..]. unfold pending_of. rewrite Hp. cbn. by rewrite Z.eqb_refl.
      - unfold flow. unfold over. cbn. by rewrite Hp', Ha, andb_false_r, app_nil_r. }
    unfold tracked. rewrite Hv'. destruct (v_done (commit_view (len data) fin v)) eqn:Hd.
    + rewrite lookup_delete_eq. cbn. rewrite Hop, (live_opened s id v Hi Hv). by eapply live_gone.
    + rewrite lookup_alter_eq, Hv. cbn. unfold pending_of. by rewrite Hp'.
  - eapply tracked_same; [|apply Hop| | |exact Hov|apply Ht].
    + rewrite Hv'. by case_match; rewrite ?lookup_delete_ne, ?lookup_alter_ne by done.
    + unfold pending_of. rewrite Hp, Hp'. cbn. by rewrite (proj2 (Z.eqb_neq _ _)).
    + rewrite flow_log. cbn [data_of fin_of reset_of option_list].
      rewrite (proj2 (Z.eqb_neq _ _)) by done. unfold flow. unfold over. cbn.
      rewrite Hp, Hp', Ha. cbn. by rewrite (proj2 (Z.eqb_neq _ _)), !app_nil_r, orb_false_r.
Qed.

(** The stream of the selected output can be dropped. *)
Definition droppable (s : State) : Prop :=
  ∀ p, pending_output s = Some p → over_session s = true
    ∨ ∃ v, views s !! po_id p = Some v
        ∧ (is_some (v_reset_requested v) = true ∨ is_some (v_send_reset v) = true).

Lemma tracks_discard s s' g :
  resolves (views s) s s' → droppable s → tracks s g → tracks s' (g <| g_dropping := false |>).
Proof.
  intros Hres Hd Ht j. destruct (resolves_frame _ _ _ Hres) as (Hop & Ha & Hov).
  destruct Hres as [Hv' _ Hp' _]. specialize (Ht j). unfold tracked in *. rewrite Hv', Hop.
  replace (flow s' (g <| g_dropping := false |>) j) with ((flow s g j) <| f_cancelled := false |>)
    by (unfold flow; unfold over; cbn; by rewrite Ha).
  destruct (views s !! j) as [v|] eqn:Hv; cbn [track] in *.
  2: { destruct (opened s j); destruct Ht; by constructor. }
  eapply live_ok_over; [exact Hov|]. destruct Ht. constructor; try done.
  cbn in lo_intact |- *. unfold pending_of in *. rewrite Hp'. intros Ho Hr Hs. rewrite lo_intact by done.
  destruct (pending_output s) as [p|] eqn:Hp; [|done].
  destruct (Z.eqb_spec (po_id p) j) as [<-|]; [|done].
  destruct (Hd p Hp) as [Hx|(v' & Hv2 & Hx)]; [congruence|].
  rewrite Hv in Hv2. injection Hv2 as <-. rewrite Hr, Hs in Hx. by destruct Hx.
Qed.

(** The writer has decided to drop the selected output. *)
Lemma tracks_dropping s g :
  inv s → droppable s → tracks s g → tracks s (g <| g_dropping := true |>).
Proof.
  intros Hi Hd Ht j. specialize (Ht j). unfold tracked in *.
  set (b := match pending_output s with Some p => po_id p =? j | None => false end).
  replace (flow s (g <| g_dropping := true |>) j) with ((flow s g j) <| f_cancelled := b |>)
    by reflexivity.
  destruct (views s !! j) as [v|] eqn:Hv; cbn [track] in *.
  - destruct Ht. constructor; try done. cbn. subst b. intros Hb.
    destruct (pending_output s) as [p|] eqn:Hp; [|done]. apply Z.eqb_eq in Hb as <-.
    destruct (Hd p Hp) as [Hx|(v' & Hv2 & Hx)]; [by left|].
    rewrite Hv in Hv2. injection Hv2 as <-. by right.
  - destruct (opened s j); destruct Ht; constructor; try done. cbn. subst b.
    destruct (pending_output s) as [p|] eqn:Hp; [|done].
    destruct (Z.eqb_spec (po_id p) j) as [<-|]; [|done].
    destruct (pending_stream _ _ Hi Hp) as (st & Hst & _). by rewrite lookup_views, Hst in Hv.
Qed.

Lemma tracks_undrop s g : tracks s g → tracks s (g <| g_dropping := false |>).
Proof.
  intros Ht j. specialize (Ht j). unfold tracked in *. destruct (views s !! j); cbn [track] in *.
  - destruct Ht. by constructor.
  - destruct (opened s j); destruct Ht; by constructor.
Qed.

(** While output is being dropped it stays droppable. *)
Lemma dropping_droppable s g :
  inv s → tracks s g → g_dropping g = true → droppable s.
Proof.
  intros Hi Ht Hg p Hp. destruct (pending_stream _ _ Hi Hp) as (st & Hst & _).
  apply lookup_views_Some in Hst. specialize (Ht (po_id p)). unfold tracked in Ht. rewrite Hst in Ht.
  destruct (lo_cancelled _ _ _ _ _ Ht) as [Hx|Hx]; [|by left|right; eauto].
  cbn. by rewrite Hg, Hp, Z.eqb_refl.
Qed.

(** The check the writer makes says so. *)
Lemma cancelled_droppable s g id fin data :
  inv s → tracks s g → pending_output s = Some (mkPending id data fin) →
  output_is_cancelled s (Some (id, fin)) = true → droppable s.
Proof.
  intros Hi Ht Hp Hc p Hp'. rewrite Hp in Hp'. injection Hp' as <-. cbn [po_id].
  destruct (pending_stream _ _ Hi Hp) as (st & Hst & Hso & _). cbn [po_id] in Hst.
  unfold output_is_cancelled in Hc. rewrite Hst in Hc.
  apply orb_true_iff in Hc as [Hc|Hc]; [by left|right].
  pose proof (lookup_views_Some _ _ _ Hst) as Hv. exists (view st). split; [done|].
  specialize (Ht id). unfold tracked in Ht. rewrite Hv in Ht.
  apply orb_true_iff in Hc as [[Hc|Hc]%orb_true_iff|Hc]; [by left|by right|left].
  pose proof (lo_stop _ _ _ _ _ Ht Hc) as [Hx|Hx]%orb_true_iff; [done|].
  unfold send_over in Hso. unfold v_send_over in Hx. cbn in Hx. by rewrite Hso in Hx.
Qed.

(** ** Turns of the writer *)

Lemma writer_sound w x log extra log' extra' :
  sound w log extra → reader x = reader (session w) →
  inv (state (shared x)) → onward (world_state w) (state (shared x)) →
  accepted (state (shared x)) = accepted (world_state w) →
  tracks (state (shared x)) (ghost (w <| session := x |>) (log' ++ extra')) →
  ends_once (log' ++ extra') → Forall sendable (log' ++ extra') →
  messages_wire log' = Ok (sent_data (carrier x)) →
  writer_ok (writer x) (state (shared x)) extra' →
  (ended (state (shared x)) = true → ∃ r, writer x = WriteDone r) →
  sound (w <| session := x |>) log' extra'.
Proof.
  intros [Hopt Hi Hq Ha Ht Hh He Hs Hw Hwr Hend Hr] Hrd Hi' Ho Hacc Ht' He' Hs' Hw' Hwr' Hend'.
  constructor; try done.
  - etrans; [exact (on_options _ _ Ho)|done].
  - by apply (on_queues _ _ Ho).
  - by eapply accepted_kinds_frame.
  - cbn. by rewrite Hrd.
Qed.

(** A control message that was not sent may be forgotten. *)
Lemma drop_extra w log extra :
  sound w log extra →
  tracks (world_state w) (ghost w log) ∧ ends_once log ∧ Forall sendable log.
Proof.
  intros [_ _ _ _ Ht _ He Hs _ Hwr _ _].
  assert (extra = [] ∨ ∃ m, extra = [m] ∧ streamless m) as [->|(m & -> & Hm)].
  { destruct (writer (session w)) as [|[|? [[]|]|]| |]; cbn in Hwr; try (left; tauto).
    destruct Hwr as (_ & m & ? & _ & ?). eauto. }
  - by rewrite app_nil_r in *.
  - apply Forall_app in Hs as [Hs _]. apply ends_once_init in He. split; [|done].
    apply (tracks_unlog _ _ m Hm). exact Ht.
Qed.

Lemma writer_done_sound w log extra r :
  sound w log extra → sound (w <| session := (session w) <| writer := WriteDone r |> |>) log [].
Proof.
  intros Hw. destruct (drop_extra _ _ _ Hw) as (Ht & He & Hs).
  eapply writer_sound; rewrite ?app_nil_r; [exact Hw|done|apply Hw|done|done| |done|done|apply Hw|done|].
  - exact (tracks_undrop _ _ Ht).
  - intros _. by exists r.
Qed.

Lemma writer_still_sound w log extra (m : step Failure unit) :
  sound w log extra → swp m (world_state w) (λ _ s', inv s') → quiet m (world_state w) →
  sound (w <| session := (session w) <| shared ::= exec m |> |>) log extra.
Proof. exact (call_still m w log extra). Qed.

Lemma write_exit_sound w log extra r :
  sound w log extra → sound (w <| session := write_exit r (session w) |>) log [].
Proof.
  intros Hw. apply (writer_done_sound _ _ _ r) in Hw. destruct r as [[]|e]; [done|].
  apply (writer_still_sound _ _ _ (fail (mkFailure 2 "WebTransport carrier writer failed"))) in Hw;
    [done|apply fail_inv, Hw|apply fail_quiet].
Qed.

Lemma carrier_sound w log extra c :
  sound w log extra → sent_data c = sent_data (carrier (session w)) →
  sound (w <| session := (session w) <| carrier := c |> |>) log extra.
Proof.
  intros Hw Hc. eapply writer_sound; [exact Hw|done|apply Hw|done|done|apply Hw|apply Hw|apply Hw| |apply Hw|apply Hw].
  cbn. rewrite Hc. apply Hw.
Qed.

Lemma finish_session_sound w log extra :
  sound w log extra → (∃ r, writer (session w) = WriteDone r) →
  sound (w <| session := (session w) <| shared ::= exec finish_session |> |>) log extra.
Proof.
  intros Hw [r Hr]. set (s := world_state w).
  assert (swp finish_session s (λ _ s', s' = s <| ended := true |> <| streams ::= fmap take_wakers |>))
    as Hx by (unfold finish_session; swp_steps; reflexivity).
  apply (swp_run _ (shared (session w))) in Hx. pose proof (sd_inv _ _ _ Hw) as Hi.
  change (state (finish_session (shared (session w))).2)
    with (state (exec finish_session (shared (session w)))) in Hx.
  eapply writer_sound; [exact Hw|done|cbn; rewrite Hx..|apply Hw|apply Hw|apply Hw| |].
  - apply inv_wake. subst s. inv_frame (world_state w).
  - by apply onward_frame.
  - done.
  - intros j. pose proof (sd_tracks _ _ _ Hw j) as Ht.
    eapply (tracked_same s); [by rewrite views_wake|done..| |exact Ht].
    intros _. unfold over_session. cbn. by rewrite !orb_true_r.
  - cbn. pose proof (sd_writer _ _ _ Hw) as Hwr. by rewrite Hr in *.
  - intros _. by exists r.
Qed.

(** ** Selection *)

Lemma live_unended id v pend over f :
  live_ok id v pend over f → v_send_over v = false → f_fin f = false ∧ f_resets f = [].
Proof.
  intros [] Hover. unfold v_send_over in Hover. apply orb_false_elim in Hover as [Hf Hr]. split.
  - destruct (f_fin f); [|done]. destruct lo_fin; [done|]. congruence.
  - destruct (f_resets f); [done|]. destruct lo_reset_sent; [done|]. congruence.
Qed.

(** A stream whose send side is open has not ended on the wire. *)
Lemma open_unended s g id v :
  tracks s g → views s !! id = Some v → v_send_over v = false →
  existsb (ends id) (g_log g) = false.
Proof.
  intros Ht Hv Hover. specialize (Ht id). unfold tracked in Ht. rewrite Hv in Ht.
  destruct (live_unended _ _ _ _ _ Ht Hover) as [Hf Hr]. cbn in Hf, Hr.
  by rewrite ends_log, Hf, Hr.
Qed.

Lemma tracks_reset_out id code v s s' g :
  inv s → views s !! id = Some v → v_reset_requested v = Some code →
  releases id (reset_out_view code) s s' → tracks s g →
  tracks s' (log_ghost (MControl RESET_STREAM [id; code; v_wire_sent v]) g).
Proof.
  intros Hi Hv Hr Hrl Ht. eapply tracks_release; [exact Hi|exact Hrl| | |congruence|exact Ht].
  - intros j Hne. rewrite flow_log. cbn. rewrite (proj2 (Z.eqb_neq _ _)) by done.
    unfold flow. unfold over. cbn. by rewrite !app_nil_r, orb_false_r.
  - intros v' Hv' Hl. rewrite Hv in Hv'. injection Hv' as <-.
    destruct (lo_reset _ _ _ _ _ Hl code Hr) as [Hover _].
    destruct (live_unended _ _ _ _ _ Hl Hover) as [_ Hnr].
    pose proof (live_reset_out _ _ _ _ _ Hl code Hr) as Hx. rewrite flow_log.
    cbn [data_of fin_of reset_of option_list]. rewrite !Z.eqb_refl. cbn [andb option_list].
    replace (_ <| f_resets ::= _ |>) with ((flow s g id) <| f_resets := [v_wire_sent v] |>); [done|].
    cbn in Hnr. unfold flow. unfold over. cbn. by rewrite Hnr, app_nil_r, orb_false_r.
Qed.

Lemma tracks_stuck s s' g : inv s → stuck s s' → tracks s g → tracks s' g.
Proof.
  intros Hi [Hst|id code v Hv Hr [Hc|Hc]] Ht; [by eapply tracks_still| |].
  - eapply tracks_change; [exact Hc|done| |congruence|exact Ht].
    intros v' Hv' Hl. rewrite Hv in Hv'. injection Hv' as <-. by apply live_reset_lost.
  - eapply tracks_release; [exact Hi|exact Hc|done| |congruence|exact Ht].
    intros v' Hv' Hl. rewrite Hv in Hv'. injection Hv' as <-. by apply live_reset_lost.
Qed.

Lemma put_varints_bounded values : ∀ out payload,
  put_varints out values = Ok payload → Forall (λ v, v ≤ VARINT_MAX) values.
Proof.
  induction values as [|v values IH]; intros out payload Hp; [constructor|]. cbn in Hp.
  destruct (put_varint out v) as [out'|] eqn:Hv; cbn in Hp; [|done].
  constructor; [|by eapply IH]. assert (VARINT_MAX = 4611686018427387903) by done.
  unfold put_varint in Hv. change (Z.shiftl 1 6) with 64 in Hv.
  change (Z.shiftl 1 14) with 16384 in Hv. change (Z.shiftl 1 30) with 1073741824 in Hv.
  destruct (Z.ltb_spec v 64), (Z.ltb_spec v 16384), (Z.ltb_spec v 1073741824),
    (Z.leb_spec v VARINT_MAX); try done; lia.
Qed.

Lemma reset_sendable s g id code v wire :
  inv s → tracks s g → views s !! id = Some v → v_reset_requested v = Some code →
  control RESET_STREAM [id; code; v_wire_sent v] = Ok wire →
  sendable (MControl RESET_STREAM [id; code; v_wire_sent v]).
Proof.
  intros Hi Ht Hv Hr Hw. specialize (Ht id). unfold tracked in Ht. rewrite Hv in Ht.
  destruct (lo_reset _ _ _ _ _ Ht code Hr) as [_ Hc].
  unfold control in Hw. destruct (put_varints _ _) as [payload|] eqn:Hp; [|done].
  apply put_varints_bounded in Hp. inversion_clear Hp as [|? ? _ Hp1].
  inversion_clear Hp1 as [|? ? _ Hp2]. inversion_clear Hp2 as [|? ? Hs _].
  rewrite lookup_views in Hv. destruct (streams s !! id) as [st|] eqn:Hst; [|done].
  pose proof (live_id _ _ _ Hi Hst). pose proof (lo_wire_sent _ _ _ _ _ Ht) as Hl.
  pose proof (len_nonneg (f_sent (flow s g id))). unfold is_u32, U32_MAX in Hc.
  split; [done|]. rewrite !Forall_cons. unfold is_varint, VARINT_MAX in *.
  split_and!; [lia..|constructor].
Qed.

(** The invariant after a selection. *)
Definition holding (x : Session) (o : option Output) : Session :=
  if o is Some o then x <| writer := WriteWait o |> else x.

Lemma neutral_streamless m : neutral m → streamless m.
Proof. intros Hm id. by destruct (neutral_of m id Hm) as (? & ? & _). Qed.

Lemma emitted_onward s s' o : emitted s s' o → onward s s' ∧ accepted s' = accepted s ∧ ended s' = ended s.
Proof.
  intros [[? Hr ?]|? ? ? [? Hr ?]|? ? ? ? ? [? Hr ?]|? ? ? ? ? ? ? [? Hr ?]|? ? ? ? ? ? ? ? ? [? Hr ? ?]];
    (split; [done|]); unfold roster in *; split; congruence.
Qed.

Lemma emitted_sound w log x o :
  sound w log [] → writer (session w) = WriteTop → ended (world_state w) = false →
  (carrier x, reader x, writer x) = (carrier (session w), reader (session w), WriteTop) →
  inv (state (shared x)) → selected o (state (shared x)) →
  emitted (world_state w) (state (shared x)) o →
  ∃ extra, sound (w <| session := holding x o |>) log extra.
Proof.
  intros Hw Hwr Hend [= Hc Hr Hx] Hi Hsel Hem. pose proof (sd_inv _ _ _ Hw) as Hi0.
  pose proof (sd_writer _ _ _ Hw) as Hpend. rewrite Hwr in Hpend. destruct Hpend as [Hpend _].
  pose proof (sd_tracks _ _ _ Hw) as Ht. pose proof (sd_ends _ _ _ Hw) as He.
  pose proof (sd_sendable _ _ _ Hw) as Hs. rewrite app_nil_r in *.
  destruct (emitted_onward _ _ _ Hem) as (Hon & Hacc & Hended).
  assert (∀ extra, tracks (state (shared x)) ((ghost w (log ++ extra)) <| g_dropping := false |>) →
    ends_once (log ++ extra) → Forall sendable (log ++ extra) →
    writer_ok (writer (holding x o)) (state (shared x)) extra →
    sound (w <| session := holding x o |>) log extra) as Hdone.
  { intros extra Ht' He' Hs' Hwr'.
    assert (shared (holding x o) = shared x) as Hsh by (by destruct o).
    eapply writer_sound; rewrite ?Hsh; [exact Hw|by destruct o|done..| |done|done| |done|congruence].
    - eapply tracks_flow; [|exact Ht']. intros j. unfold flow, ghost. cbn.
      destruct o; cbn; by rewrite ?Hx, Hr.
    - transitivity (Ok (E:=io_error) (sent_data (carrier (session w)))); [apply Hw|].
      by destruct o; cbn; rewrite Hc. }
  assert (g_dropping (ghost w log) = false) as Hgd by (cbn; by rewrite Hwr).
  apply tracks_undrop in Ht.
  destruct Hem as [Hst|wire Hcl Hf Hst|m wire Hm Hsm Hnm Hst|id code v wire Hv Hrq Hct Hrl
    |id v fin wire Hv Hrq Hov Hfin Hst Htk]; cbn [selected holding] in *.
  - exists []. apply Hdone; rewrite ?app_nil_r; [by eapply tracks_still|done|done|].
    cbn. by rewrite Hx.
  - exists []. apply Hdone; rewrite ?app_nil_r; [by eapply tracks_still|done..].
  - exists [m]. apply Hdone.
    + eapply (tracks_flow _ ((ghost w log) <| g_dropping := false |>)); [|by eapply tracks_still].
      intros j. exact (flow_neutral _ ((ghost w log) <| g_dropping := false |>) m j Hnm).
    + apply ends_once_snoc; [done|]. intros id. by destruct (neutral_of m id Hnm) as (_ & _ & _ & ->).
    + apply Forall_app; split; [done|by constructor].
    + split; [done|]. exists m. split_and!; [done|done|by apply neutral_streamless].
  - exists [MControl RESET_STREAM [id; code; v_wire_sent v]]. apply Hdone.
    + exact (tracks_reset_out _ _ _ _ _ ((ghost w log) <| g_dropping := false |>) Hi0 Hv Hrq Hrl Ht).
    + apply ends_once_snoc; [done|]. intros j. cbn. destruct (Z.eqb_spec id j) as [<-|]; [|done].
      intros _. pose proof (Ht id) as Hl. unfold tracked in Hl. rewrite Hv in Hl.
      destruct (lo_reset _ _ _ _ _ Hl code Hrq) as [Hover _]. exact (open_unended _ _ _ _ Ht Hv Hover).
    + apply Forall_app; split; [done|]. constructor; [|constructor]. by eapply reset_sendable.
    + split; [done|]. eexists. split_and!; [done|done|]. by intros j.
  - exists []. apply Hdone; rewrite ?app_nil_r; [|done|done|].
    + by eapply (tracks_takes id v).
    + by split.
Qed.

End writer.
