(* ===== verification/WtTurns.v ===== *)
(** * Every action keeps the session's invariant

    The turns of the writer task, the start of a session, and with them every
    world a session can get into. *)

From S2P Require Import Prelude Bytes WtCodec WtCodecSpec WtCodecBounds WtState WtProtocol.
From S2P Require Import WtStreams WtDriver WtLedger WtInvariant WtOutputInvariant WtViews.
From S2P Require Import WtOutputViews WtSystem WtTrack WtWorld WtTasks WtWriter.

Section turns.
Context `{Config}.

(** ** Turns of the writer *)

Lemma unended w log extra :
  sound w log extra → (∀ r, writer (session w) ≠ WriteDone r) → ended (world_state w) = false.
Proof.
  intros Hw Hwr. destruct (ended (world_state w)) eqn:He; [|done].
  destruct (sd_ended _ _ _ Hw He) as [r Hr]. by destruct (Hwr r).
Qed.

Lemma stuck_sound w log s sg f :
  sound w log [] → writer (session w) = WriteTop → stuck (world_state w) s → inv s →
  pending_output s = None →
  sound (w <| session := (session w) <| shared := exec (E := Failure) (fail f) (mkShared s sg) |> |>)
    log [].
Proof.
  intros Hw Hwr Hst Hi Hp. pose proof (tracks_stuck _ _ _ (sd_inv _ _ _ Hw) Hst (sd_tracks _ _ _ Hw)) as Ht.
  assert (onward (world_state w) s ∧ roster s = roster (world_state w)) as [Ho Hr].
  { by destruct Hst as [[]|? ? ? ? ? [[]|[]]]. }
  unfold roster in Hr. injection Hr as Hr1 Hr2 Hr3 Hr4 Hr5 Hr6.
  assert (sound (w <| session := (session w) <| shared := mkShared s sg |> |>) log []) as Hw'.
  { eapply writer_sound; [exact Hw|done|done|done|done|exact Ht|apply Hw|apply Hw|apply Hw| |].
    - cbn. by rewrite Hwr.
    - cbn. rewrite Hr6. apply Hw. }
  apply (writer_still_sound _ _ _ (fail f)) in Hw'; [done|by apply fail_inv|apply fail_quiet].
Qed.

Lemma write_top_sound `{GrantPick} w log extra :
  sound w log extra → writer (session w) = WriteTop →
  ∃ extra', sound (w <| session ::= write_top |>) log extra'.
Proof.
  intros Hw Hwr. change (w <| session ::= write_top |>) with (w <| session := write_top (session w) |>).
  pose proof (sd_writer _ _ _ Hw) as Hok. rewrite Hwr in Hok. destruct Hok as [Hp ->].
  assert (ended (world_state w) = false) as Hend by (eapply unended; [exact Hw|by rewrite Hwr]).
  unfold write_top. fold (world_state w). destruct (failure (world_state w)) as [f|].
  - exists []. apply (writer_done_sound _ _ _ (Ok tt)) in Hw.
    set (c := (carrier (session w)) <| sent_reset := Some (reset_reason (reset_code f)) |>).
    apply (carrier_sound _ _ _ c) in Hw; [|done]. apply finish_session_sound in Hw; [|by eexists].
    exact (write_exit_sound _ _ _ (Err (failure_error f)) Hw).
  - assert (swp next_output (world_state w) (λ r s', (inv s' ∧ selected (ok_output r) s') ∧
      (if finish (world_state w) then r = Ok (Some OFinish) ∧ s' = world_state w
       else match r with Ok o => emitted (world_state w) s' o | Err _ => stuck (world_state w) s' end)))
      as Hn.
    { apply swp_and; [apply next_output_spec; split; [apply Hw|done]|].
      destruct (finish (world_state w)) eqn:Hf.
      - unfold next_output. swp_steps. rewrite Hp, Hf. cbn [is_some]. by swp_steps.
      - apply next_output_emits; [split; [apply Hw|done]|apply Hw|done]. }
    apply (swp_run _ (shared (session w))) in Hn.
    destruct (next_output (shared (session w))) as [r [s sg]]. cbn [fst snd state] in Hn.
    destruct Hn as [[Hi Hsel] Hem]. destruct (finish (world_state w)) eqn:Hf.
    + destruct Hem as [-> ->]. exists [].
      eapply writer_sound; [exact Hw|done|apply Hw|done|done| |apply Hw|apply Hw|apply Hw|done|by intros Hx; pose proof (eq_trans (eq_sym Hend) Hx)].
      eapply tracks_flow; [|apply Hw]. intros j. unfold flow, ghost. cbn. by rewrite Hwr.
    + destruct r as [o|f].
      * assert (∃ extra, sound (w <| session := holding ((session w) <| shared := mkShared s sg |>) o |>)
          log extra) as Hx by (eapply emitted_sound; try done; cbn; by rewrite Hwr).
        by destruct o.
      * exists []. by apply stuck_sound.
Qed.

Lemma writer_move_sound w log extra wr :
  sound w log extra → dropping_output wr = dropping_output (writer (session w)) →
  writer_ok wr (world_state w) extra → ended (world_state w) = false →
  sound (w <| session := (session w) <| writer := wr |> |>) log extra.
Proof.
  intros Hw Hd Hwr He.
  eapply writer_sound; [exact Hw|done|apply Hw|done|done| |apply Hw|apply Hw|apply Hw|exact Hwr|by intros Hx; pose proof (eq_trans (eq_sym He) Hx)].
  eapply tracks_flow; [|apply Hw]. intros j. unfold flow, ghost. cbn. by rewrite Hd.
Qed.

Lemma wait_droppable w log extra wire stream :
  sound w log extra → writer (session w) = WriteWait (OBytes wire stream) →
  output_is_cancelled (world_state w) stream = true → droppable (world_state w).
Proof.
  intros Hw Hwr Hc. pose proof (sd_writer _ _ _ Hw) as Hok. rewrite Hwr in Hok.
  destruct stream as [[id fin]|].
  - destruct Hok as (_ & data & Hp & _).
    eapply cancelled_droppable; [apply Hw|apply Hw|exact Hp|exact Hc].
  - destruct Hok as (Hp & _). intros p Hp'. congruence.
Qed.

Lemma write_poll_sound w log extra o :
  sound w log extra → writer (session w) = WriteWait o →
  ∃ extra', sound (w <| session ::= write_poll o |>) log extra'.
Proof.
  intros Hw Hwr. change (w <| session ::= write_poll o |>) with (w <| session := write_poll o (session w) |>).
  assert (ended (world_state w) = false) as Hend by (eapply unended; [exact Hw|by rewrite Hwr]).
  pose proof (sd_writer _ _ _ Hw) as Hok. rewrite Hwr in Hok. unfold write_poll. fold (world_state w).
  assert (w <| session := session w |> = w) as Hid by (by destruct w).
  destruct o as [wire|wire stream|]; (case_match eqn:Hc; [|exists extra; by rewrite Hid]).
  - exists extra. apply writer_move_sound; [done|by rewrite Hwr| |done]. cbn in *. tauto.
  - exists []. pose proof (wait_droppable _ _ _ _ _ Hw Hwr Hc) as Hd.
    destruct (drop_extra _ _ _ Hw) as (Ht & He & Hs).
    eapply writer_sound; rewrite ?app_nil_r; [exact Hw|done|apply Hw|done|done| |done|done|apply Hw|done|by intros Hx; pose proof (eq_trans (eq_sym Hend) Hx)].
    exact (tracks_dropping _ _ (sd_inv _ _ _ Hw) Hd Ht).
  - exists extra. apply writer_move_sound; [done|by rewrite Hwr| |done]. cbn in *. tauto.
Qed.

Lemma discard_sound w log extra :
  sound w log extra → (∀ r, writer (session w) ≠ WriteDone r) → droppable (world_state w) →
  sound (w <| session ::= write_discard |>) log [].
Proof.
  intros Hw Hwr Hd. change (w <| session ::= write_discard |>) with (w <| session := write_discard (session w) |>).
  pose proof (unended _ _ _ Hw Hwr) as Hend. destruct (drop_extra _ _ _ Hw) as (Ht & He & Hs).
  pose proof (swp_and _ _ _ _ (discard_pending_output_inv (E := Failure) _ (sd_inv _ _ _ Hw))
    (discard_pending_output_views _ (sd_inv _ _ _ Hw))) as Hx.
  apply (swp_run _ (shared (session w))) in Hx. destruct Hx as [[Hi Hp] Hres].
  pose proof Hres as [_ Hr _ Ho]. injection Hr as _ Ha _ _ He'.
  eapply writer_sound; rewrite ?app_nil_r; [exact Hw|done|exact Hi|exact Ho|exact Ha| |done|done|apply Hw| |].
  - exact (tracks_discard _ _ _ Hres Hd Ht).
  - by split.
  - intros Hx. by pose proof (eq_trans (eq_sym Hend) (eq_trans (eq_sym He') Hx)).
Qed.

Lemma commit_sound w log id fin data wire :
  sound w log [] → writer (session w) = WriteWait (OBytes wire (Some (id, fin))) →
  pending_output (world_state w) = Some (mkPending id data fin) → stream id data fin = Ok wire →
  output_is_cancelled (world_state w) (Some (id, fin)) = false →
  sound (w <| session := (send_data wire (session w))
                 <| shared := (commit_pending_output id fin (shared (session w))).2 |>
                 <| writer := WriteTop |> |>)
    (log ++ [MStream id data fin]) [].
Proof.
  intros Hw Hwr Hp Hwire Hc. pose proof (sd_inv _ _ _ Hw) as Hi.
  assert (ended (world_state w) = false) as Hend by (eapply unended; [exact Hw|by rewrite Hwr]).
  destruct (commit_pending_output_views _ _ _ _ Hi Hp Hc) as (v & Hv & Hr & Hover & Hfin & Hopen & Hx).
  pose proof (swp_and _ _ _ _ (commit_pending_output_inv _ _ _ _ Hi Hp Hc) Hx) as Hy.
  apply (swp_run _ (shared (session w))) in Hy. destruct Hy as [[Hi' Hp'] Hres].
  pose proof Hres as [_ Hro _ Ho]. injection Hro as _ Ha _ _ He'.
  pose proof (sd_tracks _ _ _ Hw) as Ht. pose proof (sd_ends _ _ _ Hw) as He.
  pose proof (sd_sendable _ _ _ Hw) as Hs. rewrite app_nil_r in *.
  pose proof (tracks_commit _ _ _ _ _ _ _ Hi Hp Hv Hr Hover Hopen (λ H, proj2 (Hfin H)) Hres Ht) as Ht'.
  eapply writer_sound; rewrite ?app_nil_r; [exact Hw|done|exact Hi'|exact Ho|exact Ha| | | | |by split|].
  - eapply tracks_flow; [|exact Ht']. intros j. unfold flow, ghost, log_ghost. cbn. by rewrite Hwr.
  - apply ends_once_snoc; [done|]. intros j. cbn. intros ->%Z.eqb_eq.
    exact (open_unended _ _ _ _ Ht Hv Hover).
  - apply Forall_app; split; [done|]. constructor; [|constructor].
    destruct (pending_stream _ _ Hi Hp) as (st & Hst & _ & Hl & _). cbn [po_id po_bytes] in *.
    specialize (Ht id). unfold tracked in Ht. rewrite Hv in Ht. cbn [track] in Ht.
    split_and!; [exact (live_id _ _ _ Hi Hst)| |unfold QUANTUM, VARINT_MAX in *; lia].
    pose proof (lo_bytes _ _ _ _ _ Ht) as Hb. rewrite (lo_intact _ _ _ _ _ Ht) in Hb; [|..|done|].
    + apply Forall_app in Hb as [_ Hb]. apply Forall_app in Hb as [Hb _].
      unfold pending_of in Hb. rewrite Hp in Hb. cbn in Hb. by rewrite Z.eqb_refl in Hb.
    + destruct Hopen as [H1 H2 H3]. unfold over_session. by rewrite H1, H2, H3.
    + unfold v_send_over in Hover. by apply orb_false_elim in Hover as [_ ?%is_some_false].
  - by apply messages_wire_snoc; [apply Hw|].
  - intros Hz. by pose proof (eq_trans (eq_sym Hend) (eq_trans (eq_sym He') Hz)).
Qed.

Lemma control_sent_sound w log m wire :
  sound w log [m] → writer (session w) = WriteWait (OBytes wire None) → message_wire m = Ok wire →
  pending_output (world_state w) = None →
  sound (w <| session := (send_data wire (session w)) <| writer := WriteTop |> |>) (log ++ [m]) [].
Proof.
  intros Hw Hwr Hm Hp.
  assert (ended (world_state w) = false) as Hend by (eapply unended; [exact Hw|by rewrite Hwr]).
  eapply writer_sound; rewrite ?app_nil_r; [exact Hw|done|apply Hw|done|done| |apply Hw|apply Hw| |by split|].
  - eapply tracks_flow; [|apply Hw]. intros j. unfold flow, ghost. cbn. by rewrite Hwr.
  - by apply messages_wire_snoc; [apply Hw|].
  - intros Hz. by pose proof (eq_trans (eq_sym Hend) Hz).
Qed.

Lemma close_sent_sound w log wire :
  sound w log [] → writer (session w) = WriteWait (OClose wire) →
  ∃ log', sound (w <| session := (send_data wire (session w)) <| writer := WriteTop |> |>) log' [].
Proof.
  intros Hw Hwr. pose proof (sd_writer _ _ _ Hw) as Hok. rewrite Hwr in Hok.
  destruct Hok as (Hp & _ & (code & reason & Hc & Hsend) & Hf).
  assert (ended (world_state w) = false) as Hend by (eapply unended; [exact Hw|by rewrite Hwr]).
  pose proof (sd_tracks _ _ _ Hw) as Ht. pose proof (sd_ends _ _ _ Hw) as He.
  pose proof (sd_sendable _ _ _ Hw) as Hs. rewrite app_nil_r in *.
  exists (log ++ [MClose code reason]).
  eapply writer_sound; rewrite ?app_nil_r; [exact Hw|done|apply Hw|done|done| | | | |by split|].
  - eapply tracks_flow; [|exact Ht]. intros j.
    transitivity (flow (world_state w) (log_ghost (MClose code reason) (ghost w log)) j).
    { unfold flow, ghost. cbn. by rewrite Hwr. }
    rewrite flow_log. unfold flow. unfold over. cbn. by rewrite !app_nil_r, orb_false_r.
  - by apply ends_once_snoc.
  - apply Forall_app; split; [done|by constructor].
  - by apply messages_wire_snoc; [apply Hw|].
  - intros Hz. by pose proof (eq_trans (eq_sym Hend) Hz).
Qed.

Lemma write_ready_sound w log extra ready accepts o :
  sound w log extra → writer (session w) = WriteWait o →
  ∃ log' extra', sound (w <| session ::= write_ready ready accepts o |>) log' extra'.
Proof.
  intros Hw Hwr.
  change (w <| session ::= write_ready ready accepts o |>)
    with (w <| session := write_ready ready accepts o (session w) |>).
  assert (∀ e, ∃ log' extra', sound (w <| session := write_exit (Err e) (session w) |>) log' extra')
    as Hexit by (intros e; eexists _, _; by eapply write_exit_sound).
  pose proof (sd_writer _ _ _ Hw) as Hok. rewrite Hwr in Hok.
  destruct o as [wire|wire stream|].
  - destruct ready as [[]|e], accepts as [[]|e']; cbn [write_ready]; try apply Hexit.
    destruct Hok as (_ & -> & _). destruct (close_sent_sound _ _ _ Hw Hwr) as [log' ?]. eauto.
  - destruct ready as [[]|e]; cbn [write_ready].
    2: { apply (writer_still_sound _ _ _ (fail (mkFailure 2 "WebTransport carrier send failed"))) in Hw;
           [|apply fail_inv, Hw|apply fail_quiet].
         eexists _, _. exact (write_exit_sound _ _ _ _ Hw). }
    fold (world_state w). destruct (output_is_cancelled (world_state w) stream) eqn:Hc.
    { exists log, []. eapply discard_sound; [exact Hw|by rewrite Hwr|by eapply wait_droppable]. }
    destruct accepts as [[]|e]; [|apply Hexit]. destruct stream as [[id fin]|].
    + destruct Hok as (-> & data & Hp & Hwire).
      pose proof (commit_sound _ _ _ _ _ _ Hw Hwr Hp Hwire Hc) as Hx.
      exists (log ++ [MStream id data fin]), []. cbn [shared send_data over].
      destruct (commit_pending_output id fin (shared (session w))) as [[[]|f] sh].
      * apply (writer_still_sound _ _ _ shared_wake) in Hx; [exact Hx|swp_steps; apply Hx|by swp_steps].
      * exact (write_exit_sound _ _ _ (Err (failure_error f)) Hx).
    + destruct Hok as (Hp & m & -> & Hm & _). pose proof (control_sent_sound _ _ _ _ Hw Hwr Hm Hp) as Hx.
      apply (writer_still_sound _ _ _ shared_wake) in Hx; [|swp_steps; apply Hx|by swp_steps]. eauto.
  - destruct ready as [[]|e], accepts as [[]|e']; cbn [write_ready]; try apply Hexit.
    apply (carrier_sound _ _ _ ((carrier (session w)) <| sent_finish := true |>)) in Hw; [|done].
    eexists _, _. exact (write_exit_sound _ _ _ (Ok tt) Hw).
Qed.

(** ** The start of a session *)

(** Credit that was announced fits a variable-length integer. *)
Definition announced (s s' : State) : Prop :=
  s' = s <| controls := controls s' |> ∧ (queues s → queues s').

#[export] Instance announced_preorder : PreOrder announced.
Proof.
  split; [intros s; split; [by destruct s|done]|]. intros x y z [Hy Hq] [Hz Hq']. split; [|auto].
  rewrite Hz. rewrite Hy at 1. by destruct x.
Qed.

Lemma announce_spec kind value s :
  control_values kind = Some 1 → kind ≠ RESET_STREAM →
  swp (announce kind value) s (λ r s', r = Ok tt → announced s s' ∧ value ≤ VARINT_MAX).
Proof.
  intros Hk Hne. unfold announce.
  destruct (Z.ltb_spec 0 value); swp_steps; [|split; [done|unfold VARINT_MAX; lia]].
  eapply swp_mono; [apply queue_control_spec|].
  intros [[]|e] s'; [|done]. intros (wire & Hw & _ & ->) _.
  assert (value ≤ VARINT_MAX) as Hv.
  { unfold control in Hw. destruct (put_varints [] [value]) eqn:Hp; [|done].
    apply put_varints_bounded in Hp. by inversion_clear Hp. }
  split; [|done]. split; [by destruct s|]. intros [Hc Hcl Hd]. constructor; [|done|done].
  cbn. apply Forall_app; split; [done|]. constructor; [|constructor].
  exists (MControl kind [value]). split_and!; [done| |done].
  apply sendable_one; [done|]. unfold is_varint. lia.
Qed.

Lemma start_announced o peer local sh :
  start_reserved o (Some peer) (Some local) = Ok sh →
  announced (initial_state o peer local) (state sh)
    ∧ receive_max_data (initial_state o peer local) ≤ VARINT_MAX
    ∧ advertised_exceeds o local (initial_state o peer local) = false.
Proof.
  unfold start_reserved. cbn [ok_or mbind result_bind].
  destruct (negb _); [done|]. set (s := initial_state o peer local).
  destruct (advertised_exceeds o local s); [done|].
  set (m := (_ ;; _)).
  assert (swp m s (λ r s', r = Ok tt → announced s s' ∧ receive_max_data s ≤ VARINT_MAX)) as Hm.
  { subst m. apply swp_bind. eapply swp_mono; [by apply (announce_spec MAX_DATA)|].
    intros [[]|e] s1 H1; [|done]. destruct H1 as [H1 Hv]; [done|].
    apply swp_bind. eapply swp_mono; [by apply (announce_spec MAX_STREAMS_BIDI)|].
    intros [[]|e] s2 H2; [|done]. destruct H2 as [H2 _]; [done|].
    eapply swp_mono; [by apply (announce_spec MAX_STREAMS_UNI)|].
    intros r s3 H3 Hr. destruct (H3 Hr) as [H3' _]. split; [|done]. etrans; [done|]. by etrans. }
  specialize (Hm []). unfold wp in Hm. destruct (m (mkShared s [])) as [[[]|e] sh']; cbn; [|done].
  intros [= <-]. destruct Hm; [done|]. by destruct sh'.
Qed.

Lemma initial_credit o peer local :
  options_typed o → settings_typed peer → settings_typed local →
  advertised_exceeds o local (initial_state o peer local) = false →
  receive_max_data (initial_state o peer local) ≤ VARINT_MAX →
  credit (initial_state o peer local).
Proof.
  intros (Hu & Hb & Hsb & Hss & Ht & Hpl) Hp Hl Hadv Hmax.
  unfold settings_typed in Hp, Hl. rewrite !Forall_cons in Hp, Hl.
  destruct Hp as (Hp1 & Hp2 & Hp3 & Hp4 & _), Hl as (_ & Hl2 & Hl3 & Hl4 & _).
  unfold is_u32, is_u64, U32_MAX, U64_MAX in *.
  unfold advertised_exceeds in Hadv. cbn in Hadv.
  rewrite !orb_false_iff, !Z.ltb_ge in Hadv.
  constructor; cbn.
  - done.
  - unfold triple_within. unfold U64_MAX. destruct (peer_stream_limits o) as [[[a b] c]|]; cbn; [|lia].
    destruct (Hpl a b c eq_refl). lia.
  - unfold triple_within, stream_cap. cbn. lia.
  - apply map_Forall_empty.
  - done.
  - unfold session_cap. cbn in *. rewrite !msum_empty.
    constructor; unfold session_cap, U64_MAX; cbn; try done; try lia;
      destruct (receive_application o); lia.
Qed.

Lemma initial_registry o peer local :
  options_typed o → settings_typed peer → registry (initial_state o peer local).
Proof.
  intros (Hu & Hb & _) Hp. unfold settings_typed in Hp. rewrite !Forall_cons in Hp.
  destruct Hp as (_ & _ & _ & _ & Hp5 & Hp6 & _). unfold is_u32, U32_MAX in *.
  assert (∀ own k, population (initial_state o peer local) own k = 0) as Hpop.
  { intros own k. unfold population.
    replace (dom (streams (initial_state o peer local))) with (∅ : gset Z) by set_solver.
    rewrite filter_empty_L; [by rewrite size_empty|apply _]. }
  constructor; unfold peer_limit; cbn.
  - intros id. set_solver.
  - intros k [-> | ->]; by rewrite Hpop.
  - intros k [-> | ->]; by rewrite Hpop.
  - intros k [-> | ->]; cbn; lia.
  - intros k [-> | ->]; cbn; lia.
  - intros k [-> | ->]; destruct (receive_application o); cbn; lia.
  - intros k [-> | ->]; destruct (receive_application o); cbn; lia.
  - by intros k [-> | ->] ->.
Qed.

Lemma start_sound o peer local sh :
  options_typed o → settings_typed peer → settings_typed local →
  start_reserved o (Some peer) (Some local) = Ok sh → config = o → sound (start_world sh) [] [].
Proof.
  intros Ho Hp Hl Hs Hcfg. destruct (start_announced _ _ _ _ Hs) as ([Hst Hq] & Hmax & Hadv).
  set (s := initial_state o peer local) in *. set (l := controls (state sh)) in *.
  constructor; unfold world_state; cbn [session start_world session_start shared carrier writer reader];
    try done.
  - by rewrite Hst, Hcfg.
  - rewrite Hst. assert (inv s) by (split; [by apply initial_credit|by apply initial_registry]).
    inv_frame s.
  - apply Hq. by constructor.
  - rewrite Hst. intros k [-> | ->]; constructor.
  - intros id. unfold tracked. rewrite Hst. unfold views. cbn. rewrite fmap_empty, lookup_empty. cbn.
    assert (at2 ([] : list Z, [] : list Z) (stream_kind id) = []) as Hacc by (unfold at2; by case_match).
    destruct (opened _ _); constructor; cbn; rewrite ?Hacc; try done.
  - intros id [|? ?]; done.
  - by rewrite Hst.
  - by rewrite Hst.
  - split; [apply wf_default|done].
Qed.

(** ** Every reachable world *)

Lemma guard_some b w w' : guard b w = Some w' → b = true ∧ w' = w.
Proof. unfold guard. destruct b; [intros [= <-]|]; done. Qed.

Lemma run_end_sound w log extra r :
  sound w log extra → writer (session w) = WriteDone r → sound (call run_end w) log extra.
Proof. intros Hw Hr. apply finish_session_sound; [done|by exists r]. Qed.

Lemma session_action_sound w log extra a :
  sound w log extra → typed a →
  match a with
  | ASendDatagram payload => sound (call (session_send_datagram payload) w) log extra
  | AReadDatagram => sound (call read_datagram w) log extra
  | AClose code reason => sound (call (session_close code reason) w) log extra
  | ASilentClose => sound (call silent_close w) log extra
  | ADrain => sound (call session_drain w) log extra
  | AClosed => sound (call closed w) log extra
  | APollStopped id cx => sound (call (poll_stopped id cx) w) log extra
  | AFlush id cx => sound (call (poll_flush id cx) w) log extra
  | _ => True
  end.
Proof.
  intros Hw Ha. pose proof (sd_inv _ _ _ Hw) as Hi. destruct a; try done; cbn [typed] in Ha.
  - apply call_still; [done|by apply session_send_datagram_inv|by apply session_send_datagram_quiet].
  - apply call_still; [done|by apply read_datagram_inv|apply read_datagram_quiet].
  - destruct Ha. apply call_still; [done|by apply session_close_inv|by apply session_close_quiet].
  - apply call_still; [done|by apply silent_close_inv|apply fail_quiet].
  - apply call_still; [done|by apply session_drain_inv|apply session_drain_quiet].
  - apply call_still; [done|by apply closed_inv|apply closed_quiet].
  - apply call_still; [done|by apply poll_stopped_inv|apply poll_stopped_quiet].
  - apply call_still; [done|by apply poll_flush_inv|apply poll_flush_quiet].
Qed.

Lemma perform_sound `{GrantPick} a w w' log extra :
  sound w log extra → typed a → perform a w = Some w' → ∃ log' extra', sound w' log' extra'.
Proof.
  intros Hw Ha Hp. pose proof (session_action_sound w log extra a Hw Ha) as Hs.
  assert (∀ log extra, sound w' log extra → ∃ log' extra', sound w' log' extra') as Hex by eauto.
  destruct a; cbn [typed] in Ha; unfold perform in Hp;
    try (apply guard_some in Hp as [Hin%bool_decide_eq_true ->]);
    try (injection Hp as <-); try by eapply Hex.
  - eapply Hex, open_sound, Hw.
  - eapply Hex, accept_sound, Hw.
  - by eapply Hex, reset_sound.
  - by eapply Hex, write_sound.
  - by eapply Hex, shutdown_sound.
  - by eapply Hex, drop_send_sound.
  - by eapply Hex, release_send_sound.
  - by eapply Hex, (stop_sound _ _ _ _ _ false).
  - by eapply Hex, read_sound.
  - by eapply Hex, (stop_sound _ _ _ _ 0 true).
  - by eapply Hex, release_recv_sound.
  - destruct (reader (session w)) eqn:Hr; try done. injection Hp as <-. by eapply Hex, read_top_sound.
  - destruct (reader (session w)) eqn:Hr; try done. injection Hp as <-. by eapply Hex, read_arrival_sound.
  - destruct (reader (session w)) eqn:Hr; try done. injection Hp as <-. by eapply Hex, read_next_sound.
  - destruct (writer (session w)) eqn:Hr; try done. injection Hp as <-.
    exists log. by eapply write_top_sound.
  - destruct (writer (session w)) eqn:Hr; try done. injection Hp as <-.
    exists log. by eapply write_poll_sound.
  - destruct (writer (session w)) eqn:Hr; try done. injection Hp as <-. eapply Hex, discard_sound; [done|by rewrite Hr|].
    eapply dropping_droppable; [apply Hw|apply Hw|cbn; by rewrite Hr].
  - destruct (writer (session w)) eqn:Hr; try done. injection Hp as <-. by eapply write_ready_sound.
  - destruct (writer (session w)) eqn:Hr, (reader (session w)); try done. injection Hp as <-.
    by eapply Hex, run_end_sound.
Qed.

End turns.

Lemma reachable_sound `{GrantPick} o peer local w :
  reachable o peer local w → ∃ log extra, @sound o w log extra.
Proof.
  intros (Ho & Hp & Hl & sh & Hs & Hrun).
  assert (∃ log extra, @sound o (start_world sh) log extra) as Hw
    by (exists [], []; exact (@start_sound o o peer local sh Ho Hp Hl Hs eq_refl)).
  clear Hs. induction Hrun as [|x y z (a & Ha & Hstep) _ IH]; [done|].
  destruct Hw as (log & extra & Hw). apply IH. exact (perform_sound _ _ _ _ _ Hw Ha Hstep).
Qed.
