(* ===== verification/WtTheorems.v ===== *)
(** * What a WebTransport session guarantees

    Theorems about every world a session can reach, whatever its application,
    its peer, the carrier and the scheduler do: bounds on what it holds, what
    the peer can decode from the carrier, what [poll_shutdown] and [poll_read]
    promise, the end of a failed session, and the octets reserved for it. *)

From S2P Require Import Prelude Bytes WtCodec WtCodecSpec WtCodecBounds WtState WtProtocol.
From S2P Require Import WtStreams WtDriver WtLedger WtInvariant WtOutputInvariant WtViews.
From S2P Require Import WtOutputViews WtSystem WtTrack WtWorld WtTasks WtWriter WtTurns.

(** ** What the octets held and sent are *)

Definition buffered_octets (st : StreamState) : Z := len (concat (ss_input st)) + len (ss_input_staging st).
Definition staged_octets (st : StreamState) : Z := len (ss_output_staging st).
Definition selected_octets (s : State) : Z :=
  match pending_output s with Some p => len (po_bytes p) | None => 0 end.

(** The messages on the carrier, as its fragments. *)
Definition on_carrier (w : World) (log : list Message) : Prop :=
  messages_wire log = Ok (sent_data (carrier (session w))).

(** Whatever its fragments, a peer's decoder reads [log] from the carrier. *)
Definition reads_as (w : World) (log : list Message) : Prop :=
  ∀ parts, concat parts = concat (sent_data (carrier (session w))) →
    ∃ es d, decode_fragments Decoder_default parts = Some (es, Ok d) ∧
      tokens es = concat (map message_tokens log) ∧ decoder_finish d = Ok tt.

Lemma reads_as_sound w log : on_carrier w log → Forall sendable log → reads_as w log.
Proof.
  intros Hw Hs parts Hc. destruct (messages_absorb log Hs) as (wires & Hw' & Hb & Ha).
  unfold on_carrier in Hw. rewrite Hw in Hw'. injection Hw' as <-.
  assert (Forall (Forall is_byte) parts) as Hp.
  { apply Forall_concat. rewrite Hc. by apply Forall_concat. }
  destruct (decode_fragments_run parts Decoder_default) as (es & r & He & Hr);
    [apply wf_default|done|done|].
  rewrite Hc, Ha in Hr. injection Hr as Ht <-. by exists es, Decoder_default.
Qed.

Lemma msum_le f g (m : gmap Z StreamState) :
  map_Forall (λ _ st, f st ≤ g st) m → msum f m ≤ msum g m.
Proof.
  induction m as [|id st m Hm IH] using map_ind; intros Hall; [by rewrite !msum_empty|].
  rewrite !msum_insert by done. apply map_Forall_insert in Hall as [? Hall]; [|done].
  specialize (IH Hall). lia.
Qed.

Section facts.
Context `{Config}.

Lemma stream_within s id st :
  inv s → streams s !! id = Some st →
  buffered_octets st = ss_input_bytes st ∧ staged_octets st ≤ ss_output_bytes st ∧
  buffered_octets st ≤ stream_cap s ∧ ss_output_bytes st ≤ stream_cap s.
Proof.
  intros Hi Hst. destruct (credit_lookup _ _ _ (proj1 Hi) Hst).
  assert (0 ≤ pending_len s id) by (unfold pending_len; repeat case_match; try done; apply len_nonneg).
  assert (staged_octets st ≤ ss_output_bytes st).
  { unfold staged_octets. destruct (is_some (ss_reset_requested st)) eqn:Hr; rewrite so_output_bytes; [|lia].
    by rewrite so_discarded. }
  unfold buffered_octets. split_and!; lia.
Qed.

Lemma streams_within s :
  inv s → msum buffered_octets (streams s) = msum ss_input_bytes (streams s)
    ∧ msum staged_octets (streams s) ≤ msum ss_output_bytes (streams s).
Proof.
  intros Hi. split.
  - apply Z.le_antisymm; apply msum_le; intros id st Hst;
      destruct (stream_within _ _ _ Hi Hst); lia.
  - apply msum_le. intros id st Hst. by destruct (stream_within _ _ _ Hi Hst) as (_ & ? & _).
Qed.

Lemma population_within s k own : inv s → is_kind k → population s own k ≤ peer_limit s k.
Proof.
  intros [_ Hr] Hk. pose proof (r_own_cap _ Hr k Hk). pose proof (r_peer_credit _ Hr k Hk).
  pose proof (r_peer_opened _ Hr k Hk).
  destruct own; rewrite <- ?(r_own_active _ Hr k Hk), <- ?(r_peer_active _ Hr k Hk); lia.
Qed.

(** What a session holds. *)
Lemma world_within w log extra :
  sound w log extra →
  msum buffered_octets (streams (world_state w)) ≤ max_session_buffer_bytes (limits config)
    ∧ msum staged_octets (streams (world_state w)) ≤ max_session_buffer_bytes (limits config)
    ∧ selected_octets (world_state w) ≤ QUANTUM.
Proof.
  intros Hw. pose proof (sd_inv _ _ _ Hw) as Hi. pose proof (sd_options _ _ _ Hw) as Ho.
  destruct (streams_within _ Hi) as [Hin Hout].
  pose proof (c_totals _ (proj1 Hi)) as []. unfold session_cap in *. rewrite Ho in *.
  split_and!; [lia|lia|]. unfold selected_octets.
  destruct (pending_output (world_state w)) as [p|] eqn:Hp; [|unfold QUANTUM; lia].
  by destruct (pending_stream _ _ Hi Hp) as (? & _ & _ & ? & _).
Qed.

(** What is recorded of any identifier, live or not. *)
Lemma tracks_facts s g id :
  tracks s g →
  stream_data id (g_log g) `prefix_of` octets_of id (g_written g)
    ∧ (fin_sent id (g_log g) = true → stream_data id (g_log g) = octets_of id (g_written g))
    ∧ Forall (eq (len (stream_data id (g_log g)))) (resets id (g_log g))
    ∧ (resets id (g_log g) ≠ [] → fin_sent id (g_log g) = false)
    ∧ (g_refused g = false → octets_of id (g_got g) `prefix_of` arrived id (g_inbox g)).
Proof.
  intros Ht. specialize (Ht id). unfold tracked, track in Ht.
  destruct (views s !! id) as [v|]; [|destruct (opened s id)]; destruct Ht; cbn in *.
  - split_and!; [done|intros Hf; by destruct (lo_fin Hf)|done|intros Hr; by destruct (lo_reset_sent Hr)|].
    intros _. etrans; [|exact lo_input]. by apply prefix_app_r.
  - split_and!; auto. intros Hf. by rewrite go_fin.
  - destruct uo_sent as (-> & -> & -> & ->), uo_input as [-> _].
    split_and!; try done; try constructor. intros _. apply prefix_nil.
Qed.
Lemma check_running s : swp check s (λ r s', s' = s ∧ (r = Ok tt → over_session s = false)).
Proof.
  unfold check. swp_steps. unfold over_session. destruct (failure s); swp_steps; [done|].
  destruct (ended s), (finish s); cbn; swp_steps; try done. by destruct (is_some (closing s)); swp_steps.
Qed.

(** What a successful flush or shutdown has seen. *)
Lemma poll_flush_done id cx s :
  swp (poll_flush id cx) s (λ r _, r = Ok (Ready tt) →
    over_session s = false ∧ ∃ st, streams s !! id = Some st ∧ ss_send_reset st = None
      ∧ ss_reset_requested st = None ∧ ss_output_bytes st = 0).
Proof.
  unfold poll_flush. apply swp_bind. eapply swp_mono; [apply check_running|].
  intros [[]|e] s' [-> Hc]; [|done]. swp_steps.
  destruct (streams s !! id) as [st|]; cbn [ok_or]; [|done].
  destruct (is_some (ss_send_reset st) || is_some (ss_reset_requested st)) eqn:Hr; [by swp_steps|].
  apply orb_false_elim in Hr as [?%is_some_false ?%is_some_false].
  destruct (Z.eqb_spec (ss_output_bytes st) 0); swp_steps; [|done].
  split; [by apply Hc|]. eauto 6.
Qed.

Lemma poll_shutdown_done id cx s :
  swp (poll_shutdown id cx) s (λ r _, r = Ok (Ready tt) →
    ∃ st, streams s !! id = Some st ∧ ss_send_fin st = true).
Proof.
  unfold poll_shutdown. apply swp_bind. eapply swp_mono; [apply check_running|].
  intros [[]|e] s' [-> Hc]; [|done]. swp_steps.
  destruct (streams s !! id) as [st|]; cbn [ok_or]; [|done].
  destruct (ss_send_fin st) eqn:Hf; [swp_steps; by eauto|].
  by destruct (is_some (ss_send_reset st) || is_some (ss_reset_requested st)); swp_steps.
Qed.
End facts.

Section guarantees.
Context `{GrantPick} (o : SessionOptions) (peer local : WebTransportSettings) (w : World).
Hypothesis Hreach : reachable o peer local w.

(** C8 (bounds).  In every reachable world the octets buffered for the
    application and those staged for sending stay within the session limit,
    and each stream's within the stream limit; the selected output is at most
    one quantum; and no side has more live streams of a kind than the
    configured limit. *)
Theorem session_resources_bounded :
  let s := world_state w in
  msum buffered_octets (streams s) ≤ max_session_buffer_bytes (limits o)
    ∧ msum staged_octets (streams s) ≤ max_session_buffer_bytes (limits o)
    ∧ map_Forall (λ _ st, buffered_octets st ≤ max_stream_buffer_bytes (limits o)
                          ∧ staged_octets st ≤ max_stream_buffer_bytes (limits o)) (streams s)
    ∧ selected_octets s ≤ QUANTUM
    ∧ ∀ own, population s own 0 ≤ max_concurrent_bidi_streams (limits o)
             ∧ population s own 1 ≤ max_concurrent_uni_streams (limits o).
Proof.
  destruct (reachable_sound _ _ _ _ Hreach) as (log & extra & Hw). cbn.
  pose proof (sd_inv _ _ _ Hw) as Hi.
  pose proof (sd_options _ _ _ Hw : options (world_state w) = o) as Ho.
  destruct (world_within _ _ _ Hw) as (Hin & Hout & Hsel). split_and!; [done|done| |done|].
  - intros id st Hst. destruct (stream_within _ _ _ Hi Hst) as (? & ? & ? & ?).
    unfold stream_cap in *. rewrite Ho in *. lia.
  - intros own. pose proof (population_within _ 0 own Hi (or_introl eq_refl)) as H0.
    pose proof (population_within _ 1 own Hi (or_intror eq_refl)) as H1.
    unfold peer_limit in *. by rewrite Ho in *.
Qed.

(** C1 (safety).  What is on the carrier decodes, whatever its fragments, to
    a list of messages in which every stream carries, in order and without
    gaps, a prefix of what the application wrote to it; all of it, if a FIN
    was sent; a RESET_STREAM states exactly the octets sent as final size and
    excludes a FIN; and no STREAM or RESET_STREAM capsule of a stream follows
    its end. *)
Theorem carrier_stream_integrity :
  ∃ log, on_carrier w log ∧ reads_as w log ∧ ends_once log ∧ ∀ id,
    let sent := stream_data id log in
    sent `prefix_of` octets_of id (written w)
      ∧ (fin_sent id log = true → sent = octets_of id (written w))
      ∧ Forall (eq (len sent)) (resets id log)
      ∧ (resets id log ≠ [] → fin_sent id log = false).
Proof.
  destruct (reachable_sound _ _ _ _ Hreach) as (log & extra & Hw).
  destruct (drop_extra _ _ _ Hw) as (Ht & He & Hs). pose proof (sd_wire _ _ _ Hw) as Hwire.
  exists log. split_and!; [done|by apply reads_as_sound|done|].
  intros id. destruct (tracks_facts _ _ id Ht) as (? & ? & ? & ? & _). done.
Qed.

(**  A handle the application holds belongs to a live stream
    that is marked as held, so no operation through it finds its stream
    missing. *)
Theorem held_streams_live id :
  (id ∈ send_handles w →
     ∃ st, streams (world_state w) !! id = Some st ∧ ss_write_handle st = true) ∧
  (id ∈ recv_handles w →
     ∃ st, streams (world_state w) !! id = Some st ∧ ss_read_handle st = true).
Proof.
  destruct (reachable_sound _ _ _ _ Hreach) as (log & extra & Hw). split; intros Hid.
  - destruct (send_handle_live _ _ _ id Hw) as (v & Hv & Hh); [set_solver|].
    rewrite lookup_views in Hv. destruct (streams (world_state w) !! id) as [st|]; [|done].
    injection Hv as <-. eauto.
  - destruct (recv_handle_live _ _ _ id Hw) as (v & Hv & Hh); [set_solver|].
    rewrite lookup_views in Hv. destruct (streams (world_state w) !! id) as [st|]; [|done].
    injection Hv as <-. eauto.
Qed.

(**  When a flush of a held stream reports success,
    everything the application wrote to it is on the carrier. *)
Theorem flush_means_sent id cx sh :
  id ∈ send_handles w → poll_flush id cx (shared (session w)) = (Ok (Ready tt), sh) →
  ∃ log, on_carrier w log ∧ stream_data id log = octets_of id (written w).
Proof.
  intros Hid Hp. destruct (reachable_sound _ _ _ _ Hreach) as (log & extra & Hw).
  destruct (drop_extra _ _ _ Hw) as (Ht & _ & _). pose proof (sd_inv _ _ _ Hw) as Hi.
  pose proof (swp_run _ (shared (session w)) _ (poll_flush_done id cx _)) as Hx. rewrite Hp in Hx.
  destruct Hx as (Hover & st & Hst & Hsr & Hrr & Hob); [done|].
  exists log. split; [apply Hw|]. fold (world_state w) in Hover, Hst.
  pose proof (lookup_views_Some _ _ _ Hst) as Hv. specialize (Ht id). unfold tracked in Ht.
  rewrite Hv in Ht. pose proof (lo_intact _ _ _ _ _ Ht Hover Hrr Hsr) as Hall.
  destruct (credit_lookup _ _ _ (proj1 Hi) Hst). rewrite Hrr in so_output_bytes. cbn in so_output_bytes.
  rewrite Hob in so_output_bytes. pose proof (len_nonneg (ss_output_staging st)).
  pose proof (len_nonneg (pending_of (world_state w) id)).
  assert (pending_len (world_state w) id = len (pending_of (world_state w) id)) as Hpl.
  { unfold pending_len, pending_of. destruct (pending_output (world_state w)); [|done]. by case_match. }
  cbn in Hall. rewrite (len_zero_inv (pending_of _ _)), (len_zero_inv (ss_output_staging st)) in Hall by lia.
  by rewrite !app_nil_r in Hall.
Qed.

(**  When a shutdown of a held stream reports success, its
    FIN is on the carrier, behind everything the application wrote to it. *)
Theorem shutdown_means_finished id cx sh :
  id ∈ send_handles w → poll_shutdown id cx (shared (session w)) = (Ok (Ready tt), sh) →
  ∃ log, on_carrier w log ∧ ends_once log ∧ fin_sent id log = true
    ∧ stream_data id log = octets_of id (written w).
Proof.
  intros Hid Hp. destruct (reachable_sound _ _ _ _ Hreach) as (log & extra & Hw).
  destruct (drop_extra _ _ _ Hw) as (Ht & He & _).
  pose proof (swp_run _ (shared (session w)) _ (poll_shutdown_done id cx _)) as Hx. rewrite Hp in Hx.
  destruct Hx as (st & Hst & Hfin); [done|]. fold (world_state w) in Hst.
  pose proof (lookup_views_Some _ _ _ Hst) as Hv. destruct (tracks_facts _ _ id Ht) as (_ & Hall & _).
  specialize (Ht id). unfold tracked in Ht. rewrite Hv in Ht.
  destruct (send_handle_live _ _ _ id Hw) as (v & Hv' & Hh); [set_solver|].
  rewrite Hv in Hv'. injection Hv' as <-. pose proof (lo_send_fin _ _ _ _ _ Ht Hfin Hh) as Hf.
  exists log. split_and!; [apply Hw|done|done|by apply Hall].
Qed.

(** C24 (safety).  Reads deliver a stream in order and without gaps: until the
    reader fails, what the application got is a prefix of what arrived.  End
    of file is reported on a stream the application has not stopped only when
    the peer's FIN arrived and every octet before it was delivered. *)
Theorem reads_in_order id :
  reader_failed (reader (session w)) = false →
  octets_of id (got w) `prefix_of` arrived id (inbox w)
    ∧ ∀ cx room sh, id ∈ recv_handles w → id ∉ stopped w → 0 < room →
        poll_read id cx room (shared (session w)) = (Ok (Ready []), sh) →
        fin_arrived id (inbox w) = true ∧ octets_of id (got w) = arrived id (inbox w).
Proof.
  intros Hrd. destruct (reachable_sound _ _ _ _ Hreach) as (log & extra & Hw).
  pose proof (sd_tracks _ _ _ Hw) as Ht. split; [by apply (tracks_facts _ _ id Ht)|].
  intros cx room sh Hid Hns Hroom Hp. pose proof (sd_inv _ _ _ Hw) as Hi.
  pose proof (swp_run _ (shared (session w)) _ (poll_read_views id cx room _ ltac:(lia) Hi)) as Hx.
  rewrite Hp in Hx. cbn [fst] in Hx.
  destruct Hx as [[? _]|(v & Hv & [(_ & _ & Hb & Hf & _)|[? _]])]; [lia| |done].
  destruct (recv_handle_live _ _ _ id Hw) as (v' & Hv' & Hh); [set_solver|].
  rewrite Hv in Hv'. injection Hv' as <-. specialize (Ht id). unfold tracked in Ht. rewrite Hv in Ht.
  split; [by apply (lo_eof _ _ _ _ _ Ht)|].
  pose proof (lo_complete _ _ _ _ _ Ht) as Hc. rewrite Hb, app_nil_r in Hc. apply Hc; [|done].
  cbn. by apply bool_decide_eq_false.
Qed.
End guarantees.

(** ** The end of a failed session *)

Fixpoint perform_all `{GrantPick} (acts : list action) (w : World) : option World :=
  match acts with
  | [] => Some w
  | a :: acts => perform a w ≫= perform_all acts
  end.

(** A failure is never taken back, and neither is the end. *)
Definition persists (s s' : State) : Prop :=
  (is_some (failure s) = true → is_some (failure s') = true) ∧ (ended s = true → ended s' = true).

#[export] Instance persists_preorder : PreOrder persists.
Proof. split; [by intros s|]. intros x y z [] []. split; auto. Qed.

Definition lasting {E A} (m : step E A) : Prop := ∀ sh, persists (state sh) (state (exec m sh)).

Lemma lasting_bind {E A B} (m : step E A) (k : A → step E B) : lasting m → (∀ a, lasting (k a)) → lasting (m ≫= k).
Proof.
  intros Hm Hk sh. specialize (Hm sh). unfold exec, mbind, stm_bind in *. destruct (m sh) as [[a|e] sh']; [|done].
  etrans; [exact Hm|apply Hk].
Qed.

Lemma lasting_update {E} (f : State → State) : (∀ s, persists s (f s)) → lasting (E := E) (update f).
Proof. intros Hf sh. apply Hf. Qed.

Lemma lasting_on_error {E F} (m : step E unit) (handler : E → step F unit) :
  lasting m → (∀ e, lasting (handler e)) → lasting (on_error m handler).
Proof.
  intros Hm Hh sh. specialize (Hm sh). unfold exec, on_error in *. destruct (m sh) as [[a|e] sh']; [done|].
  etrans; [exact Hm|apply Hh].
Qed.

Lemma lasting_with_error {E F A} (g : E → F) (m : step E A) : lasting m → lasting (with_error g m).
Proof. intros Hm sh. specialize (Hm sh). unfold exec, with_error in *. by destruct (m sh). Qed.

Lemma mark_ready_persists id s : persists s (mark_ready id s).
Proof. unfold mark_ready. by repeat case_match. Qed.

Lemma open_peer_persists k l s : persists s (foldl (open_peer k) s l).
Proof. revert s. induction l as [|i l IH]; intros s; [done|]. cbn. etrans; [|apply IH]. done. Qed.

Create HintDb lasting.

(** Unfolds an operation down to its updates. *)
Ltac lasting :=
  cbv zeta; repeat first
    [ solve [trivial with lasting nocore]
    | apply lasting_bind; [|intros ?]
    | apply lasting_on_error; [|intros ?]
    | apply lasting_with_error
    | match goal with |- lasting (match ?x with _ => _ end) => destruct x end
    | apply lasting_update; intros ?; first [apply mark_ready_persists|apply open_peer_persists|done|by repeat case_match]
    | done ].

Lemma fail_lasting {E} f : lasting (E := E) (fail f).
Proof. unfold fail, wake_streams. lasting. Qed.
#[export] Hint Resolve fail_lasting : lasting.

Lemma reap_lasting id : lasting (reap id).
Proof. unfold reap. lasting. Qed.
#[export] Hint Resolve reap_lasting : lasting.

Lemma peer_stream_lasting id : lasting (peer_stream id).
Proof. unfold peer_stream. lasting. Qed.
#[export] Hint Resolve peer_stream_lasting : lasting.

Lemma control_received_lasting kind values : lasting (control_received kind values).
Proof.
  unfold control_received, max_data_received, max_streams_received, reset_received, stop_received,
    max_stream_data_received, stream_data_blocked_received, wake_reader, live_stream, wake_streams.
  lasting.
Qed.
#[export] Hint Resolve control_received_lasting : lasting.

Lemma receive_lasting event : lasting (receive event).
Proof.
  unfold receive, stream_received, accept_data, wake_reader, live_stream, wake_streams.
  lasting.
Qed.

#[export] Hint Resolve receive_lasting : lasting.

Lemma deliver_lasting event : lasting (deliver event).
Proof. unfold deliver, wake_streams. lasting. Qed.

Lemma discard_lasting {E} : lasting (E := E) discard_pending_output.
Proof. unfold discard_pending_output, put_stream, ready. lasting. Qed.
#[export] Hint Resolve deliver_lasting discard_lasting : lasting.

(** ** Turns of the other tasks *)

(** A turn of the writer task; only [WReady] waits for the carrier. *)
Definition writer_turn (a : action) : bool :=
  match a with WTop | WPoll | WDiscard | WReady _ _ => true | _ => false end.

(** The writer and its carrier are left alone. *)
Record aside (x x' : Session) : Prop := mkAside {
  as_persists : persists (state (shared x)) (state (shared x'));
  as_writer : writer x' = writer x;
  as_carrier : carrier x' = carrier x;
}.

#[export] Instance aside_preorder : PreOrder aside.
Proof. split; [by intros x|]. intros x y z [] []. split; [by etrans|congruence..]. Qed.

Lemma call_aside {E A} (m : step E A) w : lasting m → aside (session w) (session (call m w)).
Proof. intros Hm. split; [apply Hm|done..]. Qed.

Lemma read_exit_aside r x : aside x (read_exit r x).
Proof. destruct r; [done|]. split; [apply fail_lasting|done..]. Qed.

Lemma read_next_aside released d data x : aside x (read_next released d data x).
Proof.
  unfold read_next. destruct (next d data) as [[[event|e] [d' data']]|]; [|apply read_exit_aside|done].
  destruct released as [[]|e]; [|apply read_exit_aside]. destruct event as [event|]; [|done].
  pose proof (deliver_lasting event (shared x)) as Hd. unfold exec in Hd. destruct (deliver event (shared x)) as [[[]|e] sh]; [done|].
  etrans; [|apply read_exit_aside]. done.
Qed.

Lemma read_arrival_aside data d x : aside x (read_arrival data d x).
Proof.
  unfold read_arrival. destruct data as [[data|e]|]; [done|apply read_exit_aside|].
  destruct (decoder_finish d); [|apply read_exit_aside].
  etrans; [|apply read_exit_aside]. split; [|done..]. 
  match goal with |- persists _ (state (shared (_ <| shared ::= exec ?m |>))) => assert (lasting m) as Hm by (unfold wake_streams; lasting) end.
  apply Hm.
Qed.

Lemma application_lasting uni payload code reason :
  lasting (open uni) ∧ lasting (accept uni) ∧ lasting (session_send_datagram payload) ∧ lasting read_datagram
  ∧ lasting silent_close ∧ lasting (session_close code reason) ∧ lasting session_drain ∧ lasting closed ∧ lasting run_end.
Proof.
  unfold open, accept, session_send_datagram, read_datagram, silent_close, session_close, session_drain, closed, run_end,
    check, ready, queue_control, wake_streams. split_and!; lasting.
Qed.

Lemma handle_lasting id code cx data room :
  lasting (send_reset_stream id code) ∧ lasting (poll_stopped id cx) ∧ lasting (poll_write id cx data)
  ∧ lasting (poll_flush id cx) ∧ lasting (poll_shutdown id cx) ∧ lasting (send_release id)
  ∧ lasting (recv_stop id code) ∧ lasting (poll_read id cx room) ∧ lasting (recv_release id).
Proof.
  unfold send_reset_stream, poll_stopped, poll_write, poll_flush, poll_shutdown, send_release, recv_stop, poll_read, recv_release,
    release_handle, check, ready, put_stream, live_stream, queue_control, wake_streams. split_and!; lasting.
Qed.

Lemma run_aside {E A} (m : step E A) w r sh :
  m (shared (session w)) = (r, sh) → lasting m → aside (session w) (session (put_shared sh w)).
Proof. intros Hr Hm. specialize (Hm (shared (session w))). unfold exec in Hm. by rewrite Hr in Hm. Qed.

Lemma other_turns_aside `{GrantPick} a w w' : perform a w = Some w' → writer_turn a = false → aside (session w) (session w').
Proof.
  pose proof application_lasting as Ha. pose proof handle_lasting as Hh.
  destruct a; try done; cbn [perform]; unfold guard; intros Hp _; repeat case_match; try done; injection Hp as <-.
  30: { cbn [session over]. unfold read_top. case_match; [apply read_exit_aside|done]. }
  30: apply read_arrival_aside.
  30: apply read_next_aside.
  all: first [refine (run_aside _ _ _ _ ltac:(eassumption) _)|refine (call_aside _ w _)];
    unshelve (eapply Ha || eapply Hh); solve [exact true|exact []|exact 0].
Qed.

(** ** Turns of the writer after a failure *)

Inductive failed_turn (a : action) (x x' : Session) : Prop :=
  | ft_reset f :
      a = WTop → writer x = WriteTop → failure (state (shared x)) = Some f →
      writer x' = WriteDone (Err (failure_error f)) → ended (state (shared x')) = true →
      carrier x' = (carrier x) <| sent_reset := Some (reset_reason (reset_code f)) |> → failed_turn a x x'
  | ft_preempted o :
      writer x = WriteWait o → writer x' = WriteTop ∨ writer x' = WritePreempted → carrier x' = carrier x → failed_turn a x x'
  | ft_discarded :
      writer x = WritePreempted → writer x' = WriteTop → carrier x' = carrier x → failed_turn a x x'
  | ft_close wire :
      writer x = WriteWait (OClose wire) → writer x' = WriteTop →
      carrier x' = (carrier x) <| sent_data ::= λ l, l ++ [wire] |> → failed_turn a x x'
  | ft_finish :
      writer x = WriteWait OFinish → writer x' = WriteDone (Ok tt) →
      carrier x' = (carrier x) <| sent_finish := true |> → failed_turn a x x'
  | ft_refused o e :
      writer x = WriteWait o → writer x' = WriteDone (Err (OtherError e)) → carrier x' = carrier x → failed_turn a x x'.

Section failed.
Context `{GrantPick}.

Lemma finish_session_ends sh : persists (state sh) (state (exec finish_session sh)) ∧ ended (state (exec finish_session sh)) = true.
Proof.
  split; [|done]. assert (lasting finish_session) as Hl by (unfold finish_session, wake_streams; lasting). apply Hl.
Qed.

Lemma write_exit_persists r x : persists (state (shared x)) (state (shared (write_exit r x))).
Proof. destruct r; [done|]. apply fail_lasting. Qed.

Lemma write_ready_failed ready accepts o x : is_some (failure (state (shared x))) = true → writer x = WriteWait o →
  persists (state (shared x)) (state (shared (write_ready ready accepts o x)))
  ∧ failed_turn (WReady ready accepts) x (write_ready ready accepts o x).
Proof.
  intros Hf Hw. unfold write_ready, output_is_cancelled. rewrite Hf. cbn [orb].
  assert (∀ e, persists (state (shared x)) (state (shared (write_exit (Err (OtherError e)) x)))
    ∧ failed_turn (WReady ready accepts) x (write_exit (Err (OtherError e)) x)) as Hrefused
    by (intros e; split; [apply write_exit_persists|by eapply ft_refused]).
  destruct o as [wire|wire stream|]; destruct ready as [[]|e].
  - destruct accepts as [[]|e]; [|done]. split; [done|by eapply ft_close].
  - done.
  - split; [apply discard_lasting|]. eapply ft_preempted; [done|by left|done].
  - split; [|by eapply ft_refused]. etrans; [|apply write_exit_persists]. apply fail_lasting.
  - destruct accepts as [[]|e]; [|done]. split; [done|by eapply ft_finish].
  - done.
Qed.

Lemma writer_fails a w w' : is_some (failure (world_state w)) = true → writer_turn a = true → perform a w = Some w' →
  persists (world_state w) (world_state w') ∧ failed_turn a (session w) (session w').
Proof.
  intros Hf Ha Hp. destruct a; try done; cbn [perform] in Hp; destruct (writer (session w)) as [|o| |r] eqn:Hw; try done;
    injection Hp as <-; unfold world_state in *; cbn [session over].
  - unfold write_top. destruct (failure (state (shared (session w)))) as [f|] eqn:Ef; [|done].
    destruct (finish_session_ends (shared (session w))) as [Hpe He]. split; [etrans; [exact Hpe|apply fail_lasting]|].
    eapply ft_reset; [done..| |done]. apply (fail_lasting (E := Failure)). exact He.
  - unfold write_poll, output_is_cancelled. rewrite Hf. cbn [orb].
    destruct o; (split; [done|]); (eapply ft_preempted; [done|by (left + right)|done]).
  - split; [apply discard_lasting|by apply ft_discarded].
  - by apply write_ready_failed.
Qed.

(** How many turns the writer of a failed session has left at most. *)
Definition turns_left (wr : Writer) : nat :=
  match wr with WriteWait _ => 3 | WritePreempted => 2 | WriteTop => 1 | WriteDone _ => 0 end%nat.

Definition writer_turns (acts : list action) : nat := length (List.filter writer_turn acts).

(** What the writer still sends: the CLOSE or the FIN it had selected when the
    session failed, and nothing else but the reset. *)
Definition sends_no_more (w w' : World) : Prop :=
  let c := carrier (session w) in
  let c' := carrier (session w') in
  (sent_data c' = sent_data c ∨ ∃ wire, writer (session w) = WriteWait (OClose wire) ∧ sent_data c' = sent_data c ++ [wire])
  ∧ (sent_finish c' = sent_finish c ∨ writer (session w) = WriteWait OFinish).

(** How it ends: with the reset for the failure that stands at its last turn,
    which marks the session ended; with the FIN it had selected; or because
    the carrier takes no more. *)
Definition ends_as (w : World) (acts : list action) (w' : World) (r : result io_error unit) : Prop :=
  (∃ before after w1 f, acts = before ++ WTop :: after ∧ perform_all before w = Some w1 ∧ failure (world_state w1) = Some f
    ∧ r = Err (failure_error f) ∧ sent_reset (carrier (session w')) = Some (reset_reason (reset_code f))
    ∧ ended (world_state w') = true)
  ∨ (writer (session w) = WriteWait OFinish ∧ r = Ok tt ∧ sent_finish (carrier (session w')) = true)
  ∨ (∃ o e, writer (session w) = WriteWait o ∧ r = Err (OtherError e)).

Lemma done_stays acts w w' r : writer (session w) = WriteDone r → perform_all acts w = Some w' →
  aside (session w) (session w') ∧ writer_turns acts = 0%nat.
Proof.
  revert w. induction acts as [|a acts IH]; intros w Hw; cbn [perform_all]; [by intros [= <-]|].
  destruct (perform a w) as [w1|] eqn:Hp; [|done]. cbn [mbind option_bind]. intros Hall.
  destruct (writer_turn a) eqn:Ha; [destruct a; try done; cbn [perform] in Hp; by rewrite Hw in Hp|].
  pose proof (other_turns_aside _ _ _ Hp Ha) as Has. destruct (IH w1) as [Has' Hn]; [by rewrite (as_writer _ _ Has)|done|].
  split; [by etrans|]. unfold writer_turns. cbn. by rewrite Ha.
Qed.

Lemma ends_as_later a w w1 acts w' r : perform a w = Some w1 →
  writer (session w1) = writer (session w) ∨ (∀ o, writer (session w1) ≠ WriteWait o) →
  ends_as w1 acts w' r → ends_as w (a :: acts) w' r.
Proof.
  intros Hp Hw [(before & after & w2 & f & -> & Hb & Hx)|Hx].
  - left. exists (a :: before), after, w2, f. split; [done|]. split; [|done]. cbn [perform_all]. by rewrite Hp.
  - right. destruct Hw as [<-|Hw]; [done|]. destruct Hx as [[Hx _]|(o & e & Hx & _)]; by destruct (Hw _ Hx).
Qed.

Lemma sends_later w w1 w' : carrier (session w1) = carrier (session w) →
  writer (session w1) = writer (session w) ∨ (∀ o, writer (session w1) ≠ WriteWait o) →
  sends_no_more w1 w' → sends_no_more w w'.
Proof.
  unfold sends_no_more. intros -> [->|Hw]; [done|]. intros [[Hd|(wire & Hx & _)] [Hf|Hx']]; try by destruct (Hw _ Hx).
  - by split; left.
  - by destruct (Hw _ Hx').
Qed.

(** What a run of the tasks from [w] to [w'] comes to. *)
Definition winds_up (w : World) (acts : list action) (w' : World) : Prop :=
  (writer_turns acts + turns_left (writer (session w')) ≤ turns_left (writer (session w)))%nat
  ∧ sends_no_more w w' ∧ ∀ r, writer (session w') = WriteDone r → ends_as w acts w' r.

(** The writer's turn is its last. *)
Lemma last_turn a acts w w1 w' r : perform a w = Some w1 → writer_turn a = true → failed_turn a (session w) (session w1) →
  writer (session w1) = WriteDone r → perform_all acts w1 = Some w' → winds_up w (a :: acts) w'.
Proof.
  intros Hp Ha Hturn Hr Hall. destruct (done_stays _ _ _ _ Hr Hall) as [[[_ He'] Hw' Hc'] Hn].
  unfold winds_up, sends_no_more, writer_turns in *. cbn [List.filter]. rewrite Ha, Hw', Hc', Hr. cbn [length turns_left]. rewrite Hn.
  destruct Hturn as [f -> Hw Hf Hw1 He Hc|o Hw Hw1 Hc|Hw Hw1 Hc|wire Hw Hw1 Hc|Hw Hw1 Hc|o e Hw Hw1 Hc]; rewrite Hw, Hc; cbn [turns_left];
    [| |congruence..| |]; [|by destruct Hw1; congruence| |]; (split; [lia|]); (split; [by split; auto|]); intros r' [= <-];
    rewrite Hw1 in Hr; injection Hr as <-.
  - left. exists [], acts, w, f. split_and!; [done..|by rewrite Hc', Hc|by apply He'].
  - right. left. by rewrite Hc', Hc.
  - right. right. by exists o, e.
Qed.

(** The writer's turn leads back to the top of its loop. *)
Lemma turn_winds_up a acts w w1 w' : perform a w = Some w1 → writer_turn a = true → failed_turn a (session w) (session w1) →
  (∀ r, writer (session w1) ≠ WriteDone r) → winds_up w1 acts w' → winds_up w (a :: acts) w'.
Proof.
  intros Hp Ha Hturn Hn (Ht & Hs & Hr).
  assert ((∀ o, writer (session w1) ≠ WriteWait o) ∧ (turns_left (writer (session w1)) < turns_left (writer (session w)))%nat)
    as [Hw Hlt].
  { destruct Hturn as [f -> Hw Hf Hw1 He Hc|o Hw [Hw1|Hw1] Hc|Hw Hw1 Hc|wire Hw Hw1 Hc|Hw Hw1 Hc|o e Hw Hw1 Hc];
      try (by destruct (Hn _ Hw1)); rewrite Hw, Hw1; (split; [done|cbn; lia]). }
  split; [unfold writer_turns in *; cbn [List.filter]; rewrite Ha; cbn [length]; lia|].
  split; [|intros r Hd; eapply ends_as_later; [done|by right|auto]].
  destruct Hturn as [f -> ? Hf Hw1 He Hc|o ? ? Hc|? Hw1 Hc|wire Hwr Hw1 Hc|? Hw1 Hc|o e ? Hw1 Hc];
    try (by destruct (Hn _ Hw1)); try (apply (sends_later w w1); [done|by right|done]).
  unfold sends_no_more in *. rewrite Hc, Hw1 in Hs. destruct Hs as [[Hd|(? & ? & _)] [Hfin|?]]; try done.
  split; [|by left]. right. by exists wire.
Qed.

Lemma failed_run acts w w' : is_some (failure (world_state w)) = true → (∀ r, writer (session w) ≠ WriteDone r) →
  perform_all acts w = Some w' → winds_up w acts w'.
Proof.
  revert w. induction acts as [|a acts IH]; intros w Hf Hn; cbn [perform_all].
  { intros [= <-]. split; [done|]. split; [by split; left|]. intros r Hr. by destruct (Hn r). }
  destruct (perform a w) as [w1|] eqn:Hp; [|done]. cbn [mbind option_bind]. intros Hall.
  destruct (writer_turn a) eqn:Ha.
  - destruct (writer_fails _ _ _ Hf Ha Hp) as [[Hpe _] Hturn].
    destruct (writer (session w1)) as [| | |r] eqn:Hw1; [..|by eapply last_turn];
      (eapply turn_winds_up; [done..|by rewrite Hw1|apply IH; [auto|by rewrite Hw1|done]]).
  - destruct (other_turns_aside _ _ _ Hp Ha) as [[Hpe _] Hw Hc].
    destruct (IH w1) as (Ht & Hs & Hr); [auto|by rewrite Hw|done|]. rewrite Hw in Ht. split_and!.
    + unfold writer_turns in *. cbn [List.filter]. by rewrite Ha.
    + apply (sends_later w w1); [done|by left|done].
    + intros r Hd. eapply ends_as_later; [done|by left|auto].
Qed.

(** C26 (liveness).  Once a session has failed, its writer task ends, whatever
    the tasks, the application and the carrier do in between: no schedule has
    more than three turns of it, and as long as it has not ended it has a turn
    that does not wait for the carrier.  It sends nothing more than the CLOSE
    or the FIN that it had already selected, if the carrier is ready for it
    first, and the reset.  It ends with the reset, whose code is that of the
    failure, and the session marked ended; or with that FIN; or with an
    error of the carrier. *)
Theorem failed_session_ends w acts w' :
  is_some (failure (world_state w)) = true → (∀ r, writer (session w) ≠ WriteDone r) → perform_all acts w = Some w' →
  (writer_turns acts ≤ 3)%nat ∧ sends_no_more w w'
  ∧ match writer (session w') with
    | WriteDone r => ends_as w acts w' r
    | _ => is_Some (perform WTop w') ∨ is_Some (perform WPoll w') ∨ is_Some (perform WDiscard w')
    end.
Proof.
  intros Hf Hn Hall. destruct (failed_run _ _ _ Hf Hn Hall) as (Ht & Hs & Hr).
  split; [destruct (writer (session w)); cbn in Ht; lia|]. split; [done|]. cbn [perform].
  destruct (writer (session w')) eqn:Hw; [by left; eexists|by right; left; eexists|by right; right; eexists|by apply Hr].
Qed.
End failed.

(** ** Admission of WebTransport sessions

    The process-wide byte budget over any history of reservations and drops,
    what a validated configuration admits, and two behaviours at the edges of
    the control queue and of stream resets. *)

Definition sum (l : list Z) : Z := foldr Z.add 0 l.
#[global] Arguments sum _ : simpl never.

Lemma sum_app l l' : sum (l ++ l') = sum l + sum l'.
Proof. unfold sum. induction l as [|x l IH]; cbn in *; lia. Qed.

Lemma sum_nonneg l : Forall is_u64 l → 0 ≤ sum l.
Proof. unfold sum. induction 1 as [|z l [Hz _] _ IH]; cbn in *; lia. Qed.

(** The budget with the sizes of the reservations that exist. *)
Inductive budget_step : Z * list Z → Z * list Z → Prop :=
  | bs_reserve used held bytes ceiling next :
      is_u64 bytes → budget_reserve used bytes ceiling = Ok next →
      budget_step (used, held) (next, bytes :: held)
  | bs_drop used before bytes after :
      budget_step (used, before ++ bytes :: after)
        (reservation_drop used bytes, before ++ after).

Lemma budget_reserve_spec used bytes ceiling :
  is_u64 used → is_u64 bytes → ceiling ≤ U64_MAX →
  budget_reserve used bytes ceiling =
    if used + bytes <=? ceiling then Ok (used + bytes)
    else Err (OtherError "WebTransport buffer capacity exhausted").
Proof.
  intros Hu Hb Hc. unfold budget_reserve, checked_add64.
  destruct (Z.leb_spec (used + bytes) U64_MAX), (Z.leb_spec (used + bytes) ceiling);
    cbn [filter_opt]; try lia; try done.
  - by rewrite (proj2 (Z.leb_le _ _)).
  - by rewrite (proj2 (Z.leb_gt _ _)).
Qed.

Lemma budget_inv x y :
  budget_step x y → Forall is_u64 x.2 → x.1 = sum x.2 → x.1 ≤ U64_MAX →
  Forall is_u64 y.2 ∧ y.1 = sum y.2 ∧ y.1 ≤ U64_MAX.
Proof.
  intros [used held bytes ceiling next Hb Hr|used before bytes after]; cbn; intros Hall -> Hmax.
  - revert Hr. unfold budget_reserve, checked_add64.
    destruct (Z.leb_spec (sum held + bytes) U64_MAX); cbn [filter_opt]; [|done].
    destruct (sum held + bytes <=? ceiling); [|done]. intros [= <-].
    change (sum (bytes :: held)) with (bytes + sum held).
    split_and!; [by constructor|lia|lia].
  - apply Forall_app in Hall as [H1 [Hb H2]%Forall_cons].
    rewrite !sum_app in *. change (sum (bytes :: after)) with (bytes + sum after) in *.
    pose proof (sum_nonneg _ H1). pose proof (sum_nonneg _ H2). unfold is_u64 in Hb.
    split; [by apply Forall_app|]. unfold reservation_drop. rewrite sub64_small by lia. lia.
Qed.

(** Over every history of reservations, under whatever
    ceilings, and drops, the budget is exactly the octets of the reservations
    that exist, it never wraps around, and the next request is admitted
    exactly when it fits its ceiling together with them. *)
Theorem budget_never_overcommitted used held bytes ceiling :
  rtc budget_step (0, []) (used, held) → is_u64 bytes → ceiling ≤ U64_MAX →
  used = sum held ∧
  budget_reserve used bytes ceiling =
    if sum held + bytes <=? ceiling then Ok (sum held + bytes)
    else Err (OtherError "WebTransport buffer capacity exhausted").
Proof.
  intros Hrun Hb Hc.
  assert (Forall is_u64 (used, held).2 ∧ (used, held).1 = sum (used, held).2
    ∧ (used, held).1 ≤ U64_MAX) as (Hall & Hsum & Hmax).
  { revert Hrun. generalize (used, held). intros x Hrun.
    assert (Forall is_u64 (0, [] : list Z).2 ∧ (0, [] : list Z).1 = sum (0, [] : list Z).2
      ∧ (0, [] : list Z).1 ≤ U64_MAX) as H0 by done.
    induction Hrun as [|a b c Hab _ IH]; [done|]. apply IH. destruct H0 as (? & ? & ?).
    by apply (budget_inv a b). }
  cbn in *. split; [done|]. rewrite <- Hsum. apply budget_reserve_spec; [|done|done].
  split; [|done]. rewrite Hsum. by apply sum_nonneg.
Qed.

Lemma budget_never_overcommitted_witness :
  80 = sum [80] ∧
  budget_reserve 80 1 50 =
    if sum [80] + 1 <=? 50 then Ok (sum [80] + 1)
    else Err (OtherError "WebTransport buffer capacity exhausted").
Proof.
  apply (budget_never_overcommitted 80 [80] 1 50).
  - apply (rtc_l _ _ (80, [80])); [|apply rtc_refl].
    apply (bs_reserve 0 [] 80 100 80); [unfold is_u64, U64_MAX; lia|reflexivity].
  - unfold is_u64, U64_MAX; lia.
  - unfold U64_MAX; lia.
Defined.

(** ** Validated configurations *)

Lemma checked_mul64_Some x y z : checked_mul64 x y = Some z → z = x * y ∧ z ≤ U64_MAX.
Proof. unfold checked_mul64. destruct (Z.leb_spec (x * y) U64_MAX); [|done]. intros [= <-]. lia. Qed.

Lemma reservation_holds c bytes :
  limits_typed c → session_reservation_bytes c = Some bytes →
  2 * max_session_buffer_bytes c + QUANTUM ≤ bytes ≤ U64_MAX.
Proof.
  intros (Hu & Hb & _ & Hs & _) Hr. unfold session_reservation_bytes in Hr.
  repeat (apply bind_Some in Hr as (? & [-> _]%checked_mul64_Some & Hr) ||
          apply bind_Some in Hr as (? & [-> _]%checked_add64_Some & Hr)).
  apply checked_add64_Some in Hr as [-> Hmax]. unfold is_u32, is_u64, U32_MAX, QUANTUM in *. lia.
Qed.

(**  A validated configuration admits a session on an idle
    budget, within the configured total; and whatever then happens, the
    octets that session holds, in buffers, staged and selected, stay within
    the octets reserved for it. *)
Theorem validated_session_fits `{GrantPick} c r :
  limits_typed c → config_validate c = Ok tt →
  ∃ bytes, session_reserve (options_proxy c r) 0 = Ok (bytes, bytes)
    ∧ bytes ≤ max_total_buffer_bytes c
    ∧ ∀ peer local w, reachable (options_proxy c r) peer local w →
        let s := world_state w in
        msum buffered_octets (streams s) + msum staged_octets (streams s) + selected_octets s ≤ bytes.
Proof.
  intros Hc Hv. unfold config_validate in Hv.
  destruct (negb _); [done|]. destruct (negb _); [done|].
  destruct (session_reservation_bytes c) as [bytes|] eqn:Hr; [|done].
  destruct (Z.leb_spec bytes (max_total_buffer_bytes c)); [|done].
  destruct (reservation_holds c bytes Hc Hr) as [Hlo Hhi].
  exists bytes. split_and!; [|done|].
  - unfold session_reserve, reserve_bytes. cbn [options_proxy receive_application negb limits].
    rewrite Hr. cbn [ok_or mbind result_bind]. destruct Hc as (_ & _ & _ & Hs & Ht).
    unfold is_u64 in *. rewrite budget_reserve_spec; [|unfold is_u64, QUANTUM, U64_MAX in *; lia..].
    by rewrite (proj2 (Z.leb_le _ _)) by lia.
  - intros peer local w Hw. destruct (reachable_sound _ _ _ _ Hw) as (log & extra & Hs). cbn.
    destruct (world_within _ _ _ Hs) as (? & ? & ?). cbn in *. lia.
Qed.
