(* ===== verification/WtWitness.v ===== *)
(** * WebTransport sessions that run

    A concrete choice rule for pending grants, concrete sessions driven action
    by action, and the theorems of [WtTheorems] applied to them; and two
    edges of stream cancellation. *)

From S2P Require Import Prelude Bytes WtCodec WtCodecSpec WtCodecBounds WtState WtProtocol.
From S2P Require Import WtStreams WtDriver WtLedger WtInvariant WtOutputInvariant WtViews.
From S2P Require Import WtOutputViews WtSystem WtTrack WtWorld WtTasks WtWriter WtTurns.
From S2P Require Import WtTheorems.

Definition first_grant (m : gmap Z StreamState) : option Z :=
  fst <$> head (filter (λ p : Z * StreamState, ss_grant_pending p.2 = true) (map_to_list m)).

#[export, refine] Instance first_grant_pick : GrantPick := {| grant_pick := first_grant |}.
Proof.
  - intros m id. unfold first_grant. destruct (filter _ (map_to_list m)) as [|[j st] l] eqn:Hf; [done|].
    intros [= <-]. exists st.
    assert ((j, st) ∈ filter (λ p : Z * StreamState, ss_grant_pending p.2 = true) (map_to_list m)) as Hin
      by (rewrite Hf; left).
    apply list_elem_of_filter in Hin as [Hp Hin]. by apply elem_of_map_to_list in Hin.
  - intros m. unfold first_grant. destruct (filter _ (map_to_list m)) as [|p l] eqn:Hf; [|done].
    intros _ id st Hst. destruct (ss_grant_pending st) eqn:Hg; [|done].
    assert ((id, st) ∈ filter (λ p : Z * StreamState, ss_grant_pending p.2 = true) (map_to_list m)) as Hin.
    { apply list_elem_of_filter. split; [done|]. by apply elem_of_map_to_list. }
    rewrite Hf in Hin. by apply elem_of_nil in Hin.
Defined.

(** ** A client session *)

Definition demo_settings : WebTransportSettings :=
  mkSettings true (Some 1000) (Some 100) (Some 100) (Some 100) (Some 4) (Some 4).

Definition demo_options : SessionOptions := options_proxy H2WebTransportConfig_default Client.

Definition demo_start : World :=
  match start_reserved demo_options (Some demo_settings) (Some demo_settings) with
  | Ok sh => start_world sh
  | Err _ => start_world (mkShared (initial_state demo_options demo_settings demo_settings) [])
  end.

Definition demo_run (acts : list action) : World := default demo_start (perform_all acts demo_start).

Lemma perform_all_rtc acts w w' :
  Forall typed acts → perform_all acts w = Some w' → rtc wstep w w'.
Proof.
  intros Hall. revert w. induction Hall as [|a acts Ha _ IH]; intros w Hp; [injection Hp as <-; done|].
  cbn [perform_all] in Hp. apply bind_Some in Hp as (w1 & H1 & Hp).
  apply (rtc_l _ _ w1); [by exists a|by apply IH].
Qed.

Lemma demo_reachable acts w :
  Forall typed acts → perform_all acts demo_start = Some w →
  reachable demo_options demo_settings demo_settings (demo_run acts).
Proof.
  intros Hall Hp. unfold demo_run. rewrite Hp. cbn [default].
  split_and!; [|repeat constructor; cbn; unfold U32_MAX; lia..|].
  - split_and!; cbn; unfold is_u32, is_u64, U32_MAX, U64_MAX; try lia; done.
  - destruct (start_reserved demo_options (Some demo_settings) (Some demo_settings)) as [sh|] eqn:Hs.
    + exists sh. split; [done|]. unfold demo_start in Hp. rewrite Hs in Hp. by eapply perform_all_rtc.
    + by vm_compute in Hs.
Qed.

(** The application opens a stream, writes three octets and asks for its end;
    the writer sends what is queued. *)
Definition sending_acts : list action :=
  [AOpen true; AWrite 2 0 [10; 20; 30]; AShutdown 2 0;
   WTop; WReady (Ok tt) (Ok tt); WTop; WReady (Ok tt) (Ok tt); WTop; WReady (Ok tt) (Ok tt);
   WTop; WPoll; WReady (Ok tt) (Ok tt)].

Definition sending_world : World := demo_run sending_acts.

Example sending_world_carrier :
  messages_wire [MControl MAX_DATA [1048576]; MControl MAX_STREAMS_BIDI [100];
    MControl MAX_STREAMS_UNI [100]; MStream 2 [10; 20; 30] true]
  = Ok (sent_data (carrier (session sending_world))).
Proof. vm_compute. reflexivity. Qed.

(** The peer opens a stream with two octets and its FIN, and the application
    reads them. *)
Definition wire_of (m : Message) : bytes := match message_wire m with Ok wire => wire | Err _ => [] end.

Definition reading_acts : list action :=
  [RArrival (Some (Ok (wire_of (MStream 3 [7; 8] true)))); RNext (Ok tt); RNext (Ok tt);
   AAccept true; ARead 3 0 16].

Definition reading_world : World := demo_run reading_acts.

Example reading_world_got :
  (octets_of 3 (got reading_world), (poll_read 3 0 16 (shared (session reading_world))).1)
  = ([7; 8], Ok (Ready [])).
Proof. vm_compute. reflexivity. Qed.

(** The carrier fails while the application's output waits for it. *)
Definition failing_acts : list action :=
  [AOpen true; WTop; WReady (Ok tt) (Ok tt); WTop; WReady (Ok tt) (Ok tt); WTop; WReady (Ok tt) (Ok tt);
   AWrite 2 0 [1]; WTop; RArrival (Some (Err "reset"%string))].

Definition failing_world : World := demo_run failing_acts.

Lemma sending_typed : Forall typed sending_acts.
Proof. repeat constructor; unfold is_byte; lia. Qed.

Lemma reading_typed : Forall typed reading_acts.
Proof. repeat (apply Forall_cons; split); try done; cbn; lia. Qed.

Lemma session_resources_bounded_witness :
  let s := world_state sending_world in
  msum buffered_octets (streams s) ≤ 1048576 ∧ msum staged_octets (streams s) ≤ 1048576
    ∧ map_Forall (λ _ st, buffered_octets st ≤ 65536 ∧ staged_octets st ≤ 65536) (streams s)
    ∧ selected_octets s ≤ QUANTUM
    ∧ ∀ own, population s own 0 ≤ 100 ∧ population s own 1 ≤ 100.
Proof.
  apply (session_resources_bounded demo_options demo_settings demo_settings).
  eapply demo_reachable; [apply sending_typed|vm_compute; reflexivity].
Defined.

Lemma carrier_stream_integrity_witness :
  ∃ log, on_carrier sending_world log ∧ reads_as sending_world log ∧ ends_once log ∧ ∀ id,
    let sent := stream_data id log in
    sent `prefix_of` octets_of id (written sending_world)
      ∧ (fin_sent id log = true → sent = octets_of id (written sending_world))
      ∧ Forall (eq (len sent)) (resets id log)
      ∧ (resets id log ≠ [] → fin_sent id log = false).
Proof.
  apply (carrier_stream_integrity demo_options demo_settings demo_settings).
  eapply demo_reachable; [apply sending_typed|vm_compute; reflexivity].
Defined.

Lemma held_streams_live_witness :
  ∃ st, streams (world_state sending_world) !! 2 = Some st ∧ ss_write_handle st = true.
Proof.
  apply (held_streams_live demo_options demo_settings demo_settings sending_world); [|vm_compute; reflexivity].
  eapply demo_reachable; [apply sending_typed|vm_compute; reflexivity].
Defined.

Lemma flush_means_sent_witness :
  ∃ log, on_carrier sending_world log ∧ stream_data 2 log = [10; 20; 30].
Proof.
  apply (flush_means_sent demo_options demo_settings demo_settings sending_world) with (cx := 0)
    (sh := (poll_flush 2 0 (shared (session sending_world))).2).
  - eapply demo_reachable; [apply sending_typed|vm_compute; reflexivity].
  - vm_compute. reflexivity.
  - vm_compute. reflexivity.
Defined.

Lemma shutdown_means_finished_witness :
  ∃ log, on_carrier sending_world log ∧ ends_once log ∧ fin_sent 2 log = true
    ∧ stream_data 2 log = [10; 20; 30].
Proof.
  apply (shutdown_means_finished demo_options demo_settings demo_settings sending_world) with (cx := 0)
    (sh := (poll_shutdown 2 0 (shared (session sending_world))).2).
  - eapply demo_reachable; [apply sending_typed|vm_compute; reflexivity].
  - vm_compute. reflexivity.
  - vm_compute. reflexivity.
Defined.

Lemma reads_in_order_witness :
  [7; 8] `prefix_of` arrived 3 (inbox reading_world)
    ∧ fin_arrived 3 (inbox reading_world) = true ∧ [7; 8] = arrived 3 (inbox reading_world).
Proof.
  destruct (reads_in_order demo_options demo_settings demo_settings reading_world) with (id := 3) as [H1 H2].
  - eapply demo_reachable; [apply reading_typed|vm_compute; reflexivity].
  - vm_compute. reflexivity.
  - split; [exact H1|].
    apply (H2 0 16 (poll_read 3 0 16 (shared (session reading_world))).2); [|by vm_compute|lia|].
    + vm_compute. reflexivity.
    + vm_compute. reflexivity.
Defined.

(** The application goes on while the writer finds out and ends. *)
Definition ending_acts : list action := [WPoll; AWrite 2 0 [2]; WDiscard; AFlush 2 0; WTop].

Lemma failed_session_ends_witness :
  ∃ w', perform_all ending_acts failing_world = Some w' ∧ (writer_turns ending_acts ≤ 3)%nat ∧ sends_no_more failing_world w'
    ∧ ∃ r, writer (session w') = WriteDone r ∧ ends_as failing_world ending_acts w' r.
Proof.
  destruct (perform_all ending_acts failing_world) as [w'|] eqn:Hall; [|vm_compute in Hall; discriminate Hall].
  destruct (failed_session_ends failing_world ending_acts w') as (Ht & Hs & Hr).
  - vm_compute. reflexivity.
  - intros r Hr. vm_compute in Hr. discriminate Hr.
  - exact Hall.
  - exists w'. split; [reflexivity|]. split; [exact Ht|]. split; [exact Hs|].
    assert (writer_done : ∃ r, writer (session w') = WriteDone r) by (vm_compute in Hall; injection Hall as <-; eexists; reflexivity).
    destruct writer_done as [r Hw]. exists r. split; [exact Hw|]. rewrite Hw in Hr. exact Hr.
Defined.

Lemma validated_session_fits_witness :
  ∃ bytes, session_reserve demo_options 0 = Ok (bytes, bytes) ∧ bytes ≤ 67108864
    ∧ ∀ peer local w, reachable demo_options peer local w →
        let s := world_state w in
        msum buffered_octets (streams s) + msum staged_octets (streams s) + selected_octets s ≤ bytes.
Proof.
  apply (validated_session_fits H2WebTransportConfig_default Client); [|reflexivity].
  unfold limits_typed, is_u32, is_u64, U32_MAX, U64_MAX. cbn. lia.
Defined.

(** ** Two edges of stream cancellation

    What a stop leaves behind when the control queue is full, and which code
    a queued reset carries when the peer stops the stream meanwhile. *)

(** A stop of a stream that counts as stopped queues nothing. *)
Lemma recv_stop_again id code st s :
  streams s !! id = Some st → ss_stop_sent st = true →
  swp (recv_stop id code) s (λ r s', r = Ok tt ∧ controls s' = controls s).
Proof.
  intros Hst Hstop. unfold recv_stop. swp_steps. rewrite Hst, Hstop.
  cbn [negb]. rewrite andb_false_r. by swp_steps.
Qed.

(** C39 (error).  [RecvStream::stop] marks the stream as stopped before it
    queues STOP_SENDING.  When 256 control capsules are waiting, it reports an
    error, nothing is queued, and the mark stays; a later stop, when there is
    room again, reports success and still queues nothing, so the peer is never
    told. *)
Theorem stop_lost_when_queue_full id code st s sg :
  streams s !! id = Some st → ss_receive_fin st = false → ss_receive_reset st = None →
  ss_stop_sent st = false → 256 ≤ len (controls s) →
  let '(r, sh) := recv_stop id code (mkShared s sg) in
  (∃ e, r = Err e) ∧ controls (state sh) = controls s ∧
  (∃ st', streams (state sh) !! id = Some st' ∧ ss_stop_sent st' = true) ∧
  ∀ s2 st2 code2 sg2, streams s2 !! id = Some st2 → ss_stop_sent st2 = true →
    let '(r2, sh2) := recv_stop id code2 (mkShared s2 sg2) in
    r2 = Ok tt ∧ controls (state sh2) = controls s2.
Proof.
  intros Hst Hf Hr Hs Hfull.
  assert (swp (recv_stop id code) s (λ r s', (∃ e, r = Err e) ∧ controls s' = controls s ∧
    ∃ st', streams s' !! id = Some st' ∧ ss_stop_sent st' = true)) as Hx.
  { unfold recv_stop. swp_steps. rewrite Hst, Hf, Hr, Hs. cbn [negb andb is_some]. swp_steps.
    eapply swp_mono; [apply queue_control_spec|]. intros [[]|e] s'.
    - intros (wire & _ & Hlen & _). cbn in Hlen. lia.
    - intros [-> _]. cbn. split_and!; [by eexists|done|]. eexists. by rewrite lookup_insert_eq. }
  specialize (Hx sg). unfold wp in Hx. destruct (recv_stop id code (mkShared s sg)) as [r sh].
  destruct Hx as (H1 & H2 & H3). split_and!; [done..|]. intros s2 st2 code2 sg2 Hst2 Hs2.
  pose proof (recv_stop_again id code2 st2 s2 Hst2 Hs2 sg2) as Hy. unfold wp in Hy.
  by destruct (recv_stop id code2 (mkShared s2 sg2)).
Qed.

(** Two hundred and fifty-six drain capsules wait; stream 3 is open. *)
Definition full_world : World :=
  demo_run [RArrival (Some (Ok (wire_of (MStream 3 [7] false)))); RNext (Ok tt); AAccept true].

Definition full_state : State :=
  (world_state full_world) <| controls := replicate 256 (wire_of MDrain) |>.

Definition full_stream : StreamState := default (new_stream full_state 3 false) (streams full_state !! 3).

Lemma stop_lost_when_queue_full_witness :
  let '(r, sh) := recv_stop 3 9 (mkShared full_state []) in
  (∃ e, r = Err e) ∧ controls (state sh) = controls full_state ∧
  (∃ st', streams (state sh) !! 3 = Some st' ∧ ss_stop_sent st' = true) ∧
  ∀ s2 st2 code2 sg2, streams s2 !! 3 = Some st2 → ss_stop_sent st2 = true →
    let '(r2, sh2) := recv_stop 3 code2 (mkShared s2 sg2) in
    r2 = Ok tt ∧ controls (state sh2) = controls s2.
Proof.
  apply (stop_lost_when_queue_full 3 9 full_stream full_state []);
    [vm_compute; reflexivity..|vm_compute; discriminate].
Defined.

(** The application resets a stream with code 7; before the capsule leaves,
    the peer's STOP_SENDING with code 9 arrives; then the writer runs. *)
Definition replaced_acts : list action :=
  [WTop; WReady (Ok tt) (Ok tt); WTop; WReady (Ok tt) (Ok tt); WTop; WReady (Ok tt) (Ok tt);
   AOpen true; AWrite 2 0 [1; 2]; WTop; WReady (Ok tt) (Ok tt); AReset 2 7;
   RArrival (Some (Ok (wire_of (MControl STOP_SENDING [2; 9])))); RNext (Ok tt);
   WTop; WReady (Ok tt) (Ok tt)].

Lemma replaced_typed : Forall typed replaced_acts.
Proof.
  assert (Forall is_byte (wire_of (MControl STOP_SENDING [2; 9]))) as Hb.
  { apply (bool_decide_unpack _). vm_compute. exact I. }
  unfold replaced_acts.
  repeat match goal with |- Forall typed (_ :: _) => apply Forall_cons_2 end; cbn [typed];
    try exact I; try exact Hb; [|unfold is_u32, U32_MAX; lia|constructor].
  apply (bool_decide_unpack _). vm_compute. exact I.
Qed.

(** C40 (error).  A queued reset does not keep its application code: an
    application resets its stream with code 7, the peer stops the stream with
    code 9 before the capsule is selected, and the RESET_STREAM on the carrier
    bears 9. *)
Theorem queued_reset_code_replaced :
  ∃ w, perform_all replaced_acts demo_start = Some w
    ∧ reachable demo_options demo_settings demo_settings (demo_run replaced_acts)
    ∧ drop 4 (sent_data (carrier (session w))) = [wire_of (MControl RESET_STREAM [2; 9; 2])].
Proof.
  destruct (perform_all replaced_acts demo_start) as [w|] eqn:Hw; [|vm_compute in Hw; discriminate Hw].
  exists w. split_and!; [done| |].
  - eapply demo_reachable; [apply replaced_typed|exact Hw].
  - replace w with (demo_run replaced_acts) by (unfold demo_run; by rewrite Hw). vm_compute. reflexivity.
Qed.
