(* ===== verification/F64.v ===== *)
(** * Binary64 arithmetic

    The [f64] operations the admission policy uses, on the Standard Library's
    executable specification of IEEE 754 ([SpecFloat]): casts from and to
    [usize], products, quotients and sums rounded to nearest even, [floor],
    [ceil], [clamp] and comparisons. *)

From S2P Require Import Prelude.
From Stdlib Require Import Floats.SpecFloat.

Abbreviation f64 := spec_float.

(** [n as f64] of an unsigned integer. *)
Definition f64_of (n : Z) : f64 := binary_normalize 53 1024 n 0 false.

Definition f64_mul : f64 → f64 → f64 := SFmul 53 1024.
Definition f64_div : f64 → f64 → f64 := SFdiv 53 1024.
Definition f64_add : f64 → f64 → f64 := SFadd 53 1024.
Definition f64_leb : f64 → f64 → bool := SFleb.
Definition f64_ltb : f64 → f64 → bool := SFltb.

Definition is_finite (x : f64) : bool :=
  match x with
  | S754_zero _ | S754_finite _ _ _ => true
  | S754_infinity _ | S754_nan => false
  end.

(** The integer below or equal to [m * 2 ^ e], with its sign. *)
Definition floor_Z (s : bool) (m : positive) (e : Z) : Z :=
  let v := if s then Z.neg m else Z.pos m in
  if 0 <=? e then v * 2 ^ e else v / 2 ^ (- e).

(** [floor] and [ceil]: a number with a non-negative exponent is an integer
    already, and the others have integer parts below [2 ^ 53]. *)
Definition f64_floor (x : f64) : f64 :=
  match x with
  | S754_finite s m e => if 0 <=? e then x else binary_normalize 53 1024 (floor_Z s m e) 0 s
  | _ => x
  end.

Definition f64_ceil (x : f64) : f64 :=
  match x with
  | S754_finite s m e => if 0 <=? e then x else binary_normalize 53 1024 (- floor_Z (negb s) m e) 0 s
  | _ => x
  end.

(** [x.clamp(lo, hi)] *)
Definition f64_clamp (x lo hi : f64) : f64 :=
  let x := if f64_ltb x lo then lo else x in
  if f64_ltb hi x then hi else x.

(** [x as usize]: towards zero, saturating, and zero for NaN. *)
Definition f64_to_usize (x : f64) : Z :=
  match x with
  | S754_finite false m e => Z.min (floor_Z false m e) U64_MAX
  | S754_infinity false => U64_MAX
  | _ => 0
  end.

Definition f64_zero : f64 := S754_zero false.
Definition f64_one : f64 := f64_of 1.

Lemma f64_to_usize_range x : is_u64 (f64_to_usize x).
Proof.
  unfold is_u64. rewrite U64_MAX_val. destruct x as [s|[]| |[] m e]; cbn; rewrite ?U64_MAX_val; try lia.
  unfold floor_Z. destruct (Z.leb_spec 0 e).
  - pose proof (Z.pow_pos_nonneg 2 e). lia.
  - pose proof (Z.div_pos (Z.pos m) (2 ^ (- e))). pose proof (Z.pow_pos_nonneg 2 (- e)). lia.
Qed.
