(* ===== verification/Base64.v ===== *)
(** * Base64

    The [STANDARD] engine of the [base64] crate is a parameter of the
    Certificate Transparency structures that carry octets in text.  They rely
    on its documentation: the alphabet of RFC 4648 with padding, decoding that
    inverts encoding and gives a vector.  [rfc4648] is that encoding, on which
    closed examples evaluate. *)

From S2P Require Import Prelude Bytes.

(** Letters, digits, plus, slash and the padding. *)
Definition base64_char (c : Z) : bool :=
  in_range 65 90 c || in_range 97 122 c || in_range 48 57 c || (c =? 43) || (c =? 47) || (c =? 61).

(** A [Vec<u8>], shorter than [isize::MAX]. *)
Definition vector (l : bytes) : Prop := Forall is_byte l ∧ len l < 2 ^ 63.

Class Base64 := {
  base64_encode : bytes → bytes;
  base64_decode : bytes → option bytes;
  base64_roundtrip l : vector l → base64_decode (base64_encode l) = Some l;
  base64_decode_vector s l : base64_decode s = Some l → vector l;
  base64_alphabet l : Forall is_byte l → forallb base64_char (base64_encode l) = true;
  base64_length l : len (base64_encode l) = 4 * ((len l + 2) / 3);
}.

(** ** The encoding of RFC 4648 *)

Module rfc4648.
Definition digit (n : Z) : Z :=
  if n <? 26 then 65 + n
  else if n <? 52 then 71 + n
  else if n <? 62 then n - 4
  else if n =? 62 then 43 else 47.

Definition undigit (c : Z) : option Z :=
  if in_range 65 90 c then Some (c - 65)
  else if in_range 97 122 c then Some (c - 71)
  else if in_range 48 57 c then Some (c + 4)
  else if c =? 43 then Some 62
  else if c =? 47 then Some 63 else None.

Fixpoint encode (l : bytes) : bytes :=
  match l with
  | [] => []
  | [a] => [digit (a / 4); digit (a mod 4 * 16); 61; 61]
  | [a; b] => [digit (a / 4); digit (a mod 4 * 16 + b / 16); digit (b mod 16 * 4); 61]
  | a :: b :: c :: l =>
      digit (a / 4) :: digit (a mod 4 * 16 + b / 16) :: digit (b mod 16 * 4 + c / 64)
        :: digit (c mod 64) :: encode l
  end.

(** The octets of a last group; the bits it does not use are zero. *)
Definition decode_last (v w : Z) (y z : Z) : option bytes :=
  if negb (z =? 61) then None
  else if y =? 61 then if w mod 16 =? 0 then Some [v * 4 + w / 16] else None
  else
    x ← undigit y;
    if x mod 4 =? 0 then Some [v * 4 + w / 16; w mod 16 * 16 + x / 4] else None.

Fixpoint decode_groups (s : bytes) : option bytes :=
  match s with
  | [] => Some []
  | a :: b :: c :: d :: s =>
      v ← undigit a;
      w ← undigit b;
      match undigit c, undigit d with
      | Some x, Some y =>
          l ← decode_groups s;
          Some (v * 4 + w / 16 :: w mod 16 * 16 + x / 4 :: x mod 4 * 64 + y :: l)
      | _, _ => if is_empty s then decode_last v w c d else None
      end
  | _ => None
  end.

Definition decode (s : bytes) : option bytes :=
  l ← decode_groups s;
  if len l <? 2 ^ 63 then Some l else None.

Lemma undigit_digit n : 0 ≤ n < 64 → undigit (digit n) = Some n.
Proof.
  intros Hn. unfold undigit, digit, in_range.
  repeat match goal with |- context[?x <? ?y] => destruct (Z.ltb_spec x y) end;
  repeat match goal with |- context[?x =? ?y] => destruct (Z.eqb_spec x y) end;
  repeat match goal with |- context[?x <=? ?y] => destruct (Z.leb_spec x y) end;
  cbn [andb]; try lia; f_equal; lia.
Qed.

Lemma digit_char n : 0 ≤ n < 64 → base64_char (digit n) = true.
Proof. intros Hn. unfold digit. repeat case_match; unfold base64_char, in_range; lia. Qed.

Lemma undigit_range c n : undigit c = Some n → 0 ≤ n < 64.
Proof. unfold undigit, in_range. intros. repeat case_match; simplify_eq; lia. Qed.

(** Induction by groups of three octets. *)
Lemma groups_ind (P : bytes → Prop) :
  P [] → (∀ a, P [a]) → (∀ a b, P [a; b]) → (∀ a b c l, P l → P (a :: b :: c :: l)) → ∀ l, P l.
Proof.
  intros H0 H1 H2 H3. fix IH 1. intros [|a [|b [|c l]]]; [done..|]. apply H3, IH.
Qed.

Lemma decode_encode l : Forall is_byte l → decode_groups (encode l) = Some l.
Proof.
  induction l as [|a|a b|a b c l IH] using groups_ind; intros Hl; [done|..];
    rewrite !Forall_cons in Hl; unfold is_byte in Hl; destruct_and!; cbn [encode decode_groups];
    rewrite !undigit_digit by div_lia; cbn [mbind option_bind].
  - cbn. rewrite (proj2 (Z.eqb_eq _ 0)) by div_lia. do 2 f_equal. div_lia.
  - change (undigit 61) with (@None Z). cbn [is_empty]. unfold decode_last.
    assert ((digit (b mod 16 * 4) =? 61) = false) as ->.
    { unfold digit. apply Z.eqb_neq. repeat case_match; div_lia. }
    cbn [Z.eqb negb]. rewrite undigit_digit by div_lia. cbn [mbind option_bind].
    rewrite Z_mod_mult. cbn. do 2 f_equal; [div_lia|]. f_equal. div_lia.
  - rewrite IH by done. cbn. do 2 f_equal; [div_lia|]. f_equal; [div_lia|]. f_equal. div_lia.
Qed.

Lemma decode_groups_bytes s : ∀ l, decode_groups s = Some l → Forall is_byte l.
Proof.
  revert s. fix IH 1. intros [|a [|b [|c [|d s]]]] l; cbn [decode_groups]; try done; [by intros [= <-]|].
  destruct (undigit a) as [v|] eqn:Ha; [|done]. destruct (undigit b) as [w|] eqn:Hb; [|done].
  cbn [mbind option_bind]. apply undigit_range in Ha, Hb.
  assert (∀ l, (if is_empty s then decode_last v w c d else None) = Some l → Forall is_byte l) as Hlast.
  { intros k. destruct (is_empty s); [|done]. unfold decode_last. destruct (negb _); [done|].
    destruct (c =? 61).
    - case_match; [|done]. intros [= <-]. repeat constructor; unfold is_byte; div_lia.
    - destruct (undigit c) as [x|] eqn:Hc; [|done]. apply undigit_range in Hc. cbn. case_match; [|done].
      intros [= <-]. repeat constructor; unfold is_byte; div_lia. }
  destruct (undigit c) as [x|] eqn:Hc; [|apply Hlast]. destruct (undigit d) as [y|] eqn:Hd; [|apply Hlast].
  apply undigit_range in Hc, Hd. destruct (decode_groups s) as [k|] eqn:Hk; [|done]. cbn.
  intros [= <-]. repeat constructor; unfold is_byte; try div_lia. by apply (IH s).
Qed.

Lemma encode_alphabet l : Forall is_byte l → forallb base64_char (encode l) = true.
Proof.
  induction l as [|a|a b|a b c l IH] using groups_ind; intros Hl; [done|..];
    rewrite !Forall_cons in Hl; unfold is_byte in Hl; destruct_and!; cbn [encode forallb];
    rewrite !digit_char by div_lia; [done|done|]. cbn [andb]. by apply IH.
Qed.

Lemma encode_length l : len (encode l) = 4 * ((len l + 2) / 3).
Proof.
  induction l as [|a|a b|a b c l IH] using groups_ind; [done..|]. cbn [encode].
  rewrite !len_cons, IH. replace (1 + (1 + (1 + len l)) + 2) with (len l + 2 + 1 * 3) by lia.
  rewrite Z.div_add by lia. lia.
Qed.

End rfc4648.

#[export, refine] Instance rfc4648_engine : Base64 :=
  {| base64_encode := rfc4648.encode; base64_decode := rfc4648.decode;
     base64_alphabet := rfc4648.encode_alphabet; base64_length := rfc4648.encode_length |}.
Proof.
  - intros l [Hb Hl]. unfold rfc4648.decode. rewrite rfc4648.decode_encode by done. cbn.
    by rewrite (proj2 (Z.ltb_lt _ _)).
  - intros s l. unfold rfc4648.decode. destruct (rfc4648.decode_groups s) as [k|] eqn:Hk; [|done]. cbn.
    case_match eqn:Hl; [|done]. intros [= <-]. apply Z.ltb_lt in Hl.
    split; [by eapply rfc4648.decode_groups_bytes|done].
Defined.
