(* ===== verification/CtCodec.v ===== *)
(** * TLS-presentation vectors of Certificate Transparency

    [src/source/crates/oxibelt-ct/src/codec.rs]: the bounded [Reader] over a
    slice and the [push_*] writers, and the laws that tie them together.  A
    reader is its slice and its offset; a writer appends to the octets it is
    given. *)

From S2P Require Import Prelude Bytes.

(** [CtError] and [Result<T>] of [lib.rs]. *)
Abbreviation CtError := string (only parsing).
Abbreviation ct A := (result CtError A).

Definition U24_MAX : Z := 0x00ffffff.
Definition U16_MAX : Z := 0xffff.
Definition U8_MAX : Z := 0xff.

(** ** Reader *)

Record Reader : Type := mkReader {
  rd_input : bytes;
  rd_offset : Z;
}.

#[export] Instance Reader_eta : Eta Reader := λ r, mkReader (rd_input r) (rd_offset r).

Abbreviation reader A := (stm Reader CtError A).

Definition reader_new (input : bytes) : Reader := mkReader input 0.

Definition reader_remaining (r : Reader) : Z := saturating_sub64 (len (rd_input r)) (rd_offset r).

Definition reader_is_empty (r : Reader) : bool := reader_remaining r =? 0.

Definition reader_finish (r : Reader) : ct unit :=
  if rd_offset r =? len (rd_input r) then Ok tt else Err "trailing CT wire data"%string.

(** [slice.get(start..end)] *)
Definition slice_get (l : bytes) (start end_ : Z) : option bytes :=
  if (start <=? end_) && (end_ <=? len l) then Some (takeZ (end_ - start) (dropZ start l)) else None.

Definition reader_take (length : Z) : reader bytes :=
  r ← get;
  end_ ← lift (ok_or (checked_add64 (rd_offset r) length) "CT length overflow"%string);
  taken ← lift (ok_or (slice_get (rd_input r) (rd_offset r) end_) "truncated CT wire data"%string);
  modify (λ r, r <| rd_offset := end_ |>);;
  mret taken.

(** [try_into] an array of [n] octets. *)
Definition to_array (n : Z) (l : bytes) (e : CtError) : ct bytes :=
  if len l =? n then Ok l else Err e.

Definition nth_byte (l : bytes) (i : nat) : Z := nth i l 0.

Definition reader_u8 : reader Z :=
  taken ← reader_take 1;
  mret (nth_byte taken 0).

Definition reader_u16 : reader Z :=
  taken ← reader_take 2;
  array ← lift (to_array 2 taken "truncated CT u16"%string);
  mret (be_fold 0 array).

Definition reader_u24 : reader Z :=
  b ← reader_take 3;
  mret (Z.lor (Z.lor (Z.shiftl (nth_byte b 0) 16) (Z.shiftl (nth_byte b 1) 8)) (nth_byte b 2)).

Definition reader_u40 : reader Z :=
  b ← reader_take 5;
  mret (Z.lor (Z.lor (Z.lor (Z.lor (Z.shiftl (nth_byte b 0) 32) (Z.shiftl (nth_byte b 1) 24))
    (Z.shiftl (nth_byte b 2) 16)) (Z.shiftl (nth_byte b 3) 8)) (nth_byte b 4)).

Definition reader_u64 : reader Z :=
  taken ← reader_take 8;
  array ← lift (to_array 8 taken "truncated CT u64"%string);
  mret (be_fold 0 array).

Definition bounded_vector (length minimum maximum : Z) : reader bytes :=
  if (maximum <? minimum) || negb ((minimum <=? length) && (length <=? maximum))
  then throw "CT vector length is outside its declared bounds"%string
  else reader_take length.

Definition vector_u8 (minimum maximum : Z) : reader bytes :=
  length ← reader_u8;
  bounded_vector length minimum maximum.

Definition vector_u16 (minimum maximum : Z) : reader bytes :=
  length ← reader_u16;
  bounded_vector length minimum maximum.

Definition vector_u24 (minimum maximum : Z) : reader bytes :=
  length ← reader_u24;
  bounded_vector length minimum (Z.min maximum U24_MAX).

(** ** Inputs read to the end *)

(** [let value = p(&mut reader)?; reader.finish()?; Ok(value)] on a new reader. *)
Definition decode_whole {A} (p : reader A) (input : bytes) : ct A :=
  match p (reader_new input) with
  | (Ok value, r) => _ ← reader_finish r; Ok value
  | (Err e, _) => Err e
  end.

(** [while !contents.is_empty() { items.push(item(contents)?); }], where the
    loop carries a local [p] that each item replaces.  Every item takes at
    least one octet, so the contents' length is fuel enough. *)
Fixpoint while_more {P A} (item : P → reader A) (next : A → P) (fuel : nat) (p : P)
    : reader (list A) :=
  match fuel with
  | O => throw "out of fuel"%string
  | S fuel =>
      contents ← get;
      if reader_is_empty contents then mret []
      else
        a ← item p;
        items ← while_more item next fuel (next a);
        mret (a :: items)
  end.

Definition read_items {P A} (item : P → reader A) (next : A → P) (p : P) (encoded : bytes)
    : ct (list A) :=
  (while_more item next (S (length encoded)) p (reader_new encoded)).1.

(** ** Writers *)

Definition push_u24 (output : bytes) (value : Z) : ct bytes :=
  if U24_MAX <? value then Err "CT u24 value is too large"%string
  else Ok (output ++ [Z.land (Z.shiftr value 16) 0xff; Z.land (Z.shiftr value 8) 0xff;
                      Z.land value 0xff]).

Definition push_u40 (output : bytes) (value : Z) : ct bytes :=
  if Z.shiftl 1 40 <=? value then Err "CT u40 value is too large"%string
  else Ok (output ++ dropZ 3 (be_bytes 8 value)).

Definition push_vector_u8 (output data : bytes) (minimum : Z) : ct bytes :=
  if (len data <? minimum) || (U8_MAX <? len data)
  then Err "CT u8 vector length is outside its declared bounds"%string
  else Ok (output ++ [len data mod 2 ^ 8] ++ data).

Definition push_vector_u16 (output data : bytes) (minimum : Z) : ct bytes :=
  if (len data <? minimum) || (U16_MAX <? len data)
  then Err "CT u16 vector length is outside its declared bounds"%string
  else Ok (output ++ be_bytes 2 (len data mod 2 ^ 16) ++ data).

Definition push_vector_u24 (output data : bytes) (minimum : Z) : ct bytes :=
  if (len data <? minimum) || (U24_MAX <? len data)
  then Err "CT u24 vector length is outside its declared bounds"%string
  else
    output ← push_u24 output (len data);
    Ok (output ++ data).
