(* ===== verification/CtWire.v ===== *)
(** * Readers and writers that agree

    [codec p enc dom]: on the values of [dom], the reader [p] accepts exactly
    what [enc] writes.  Reading back what was written gives the value
    ([c_read]), and whatever is accepted is what writing the value gives
    ([c_write]), so no value has two encodings.  The rules below compose
    codecs field by field. *)

From S2P Require Import Prelude Bytes CtCodec.

(** ** The unread part of a reader *)

Definition rest (r : Reader) : bytes := dropZ (rd_offset r) (rd_input r).
Definition skip (n : Z) (r : Reader) : Reader := r <| rd_offset ::= λ o, o + n |>.

(** A reader over octets; slices are shorter than [isize::MAX]. *)
Record wf_reader (r : Reader) : Prop := {
  wr_offset : 0 ≤ rd_offset r ≤ len (rd_input r);
  wr_small : len (rd_input r) < 2 ^ 63;
  wr_bytes : Forall is_byte (rd_input r);
}.

Lemma rest_len r : wf_reader r → len (rest r) = len (rd_input r) - rd_offset r.
Proof. intros [? _ _]. by apply len_dropZ. Qed.

Lemma rest_bytes r : wf_reader r → Forall is_byte (rest r).
Proof. intros [_ _ Hb]. by apply Forall_drop. Qed.

Lemma skip_add m n r : skip n (skip m r) = skip (m + n) r.
Proof. unfold skip, over. cbn. by rewrite Z.add_assoc. Qed.

Lemma skip_0 r : skip 0 r = r.
Proof. destruct r. unfold skip, over. cbn. by rewrite Z.add_0_r. Qed.

Lemma skip_rest r e k :
  wf_reader r → rest r = e ++ k → wf_reader (skip (len e) r) ∧ rest (skip (len e) r) = k.
Proof.
  intros Hr He. pose proof (rest_len r Hr) as Hl. rewrite He, len_app in Hl.
  pose proof (len_nonneg e). pose proof (len_nonneg k). destruct Hr as [Ho Hs Hb]. split.
  - constructor; cbn; [lia|done|done].
  - unfold rest, skip. cbn [rd_offset rd_input over].
    replace (dropZ (rd_offset r + len e) (rd_input r)) with (dropZ (len e) (rest r)).
    + by rewrite He, dropZ_app_len.
    + unfold rest, dropZ. rewrite drop_drop. f_equal. lia.
Qed.

Lemma finish_rest r : wf_reader r → reader_finish r = Ok tt ↔ rest r = [].
Proof.
  intros Hr. pose proof (rest_len r Hr) as Hl. unfold reader_finish.
  destruct (Z.eqb_spec (rd_offset r) (len (rd_input r))).
  - split; [|done]. intros _. apply len_zero_inv. lia.
  - split; [done|]. intros Hn. rewrite Hn, len_nil in Hl. lia.
Qed.

Lemma is_empty_rest r : wf_reader r → reader_is_empty r = true ↔ rest r = [].
Proof.
  intros Hr. pose proof (rest_len r Hr) as Hl. destruct (wr_offset r Hr).
  unfold reader_is_empty, reader_remaining, saturating_sub64. rewrite Z.eqb_eq. split.
  - intros. apply len_zero_inv. lia.
  - intros Hn. rewrite Hn, len_nil in Hl. lia.
Qed.

Lemma wf_new l : Forall is_byte l → len l < 2 ^ 63 → wf_reader (reader_new l).
Proof. intros. constructor; cbn; [pose proof (len_nonneg l); lia|done|done]. Qed.

Lemma rest_new l : rest (reader_new l) = l.
Proof. done. Qed.

(** ** Codecs *)

Record codec {A} (p : reader A) (enc : A → ct bytes) (dom : A → Prop) : Prop := {
  c_read a r e k :
    dom a → enc a = Ok e → wf_reader r → rest r = e ++ k → p r = (Ok a, skip (len e) r);
  c_write r a r' :
    wf_reader r → p r = (Ok a, r') →
    dom a ∧ ∃ e k, enc a = Ok e ∧ rest r = e ++ k ∧ r' = skip (len e) r;
}.

Lemma codec_ext {A} (p : reader A) enc enc' dom dom' :
  codec p enc dom → (∀ a, dom' a ↔ dom a) → (∀ a, dom a → enc' a = enc a) → codec p enc' dom'.
Proof.
  intros [Hr Hw] Hd He. split.
  - intros a r e k Ha. rewrite He by by apply Hd. by apply Hr, Hd.
  - intros r a r' Hwf Hp. destruct (Hw r a r' Hwf Hp) as (Ha & e & k & Hx). split; [by apply Hd|].
    exists e, k. by rewrite He.
Qed.

(** *** Fields in sequence *)

Fixpoint cat {B} (es : list (B → ct bytes)) (b : B) : ct bytes :=
  match es with
  | [] => Ok []
  | e :: es => x ← e b; y ← cat es b; Ok (x ++ y)
  end.

Lemma codec_ret {B} (b0 : B) dom : (∀ b, dom b ↔ b = b0) → codec (mret b0) (cat []) dom.
Proof.
  intros Hd. split.
  - intros b r e k ->%Hd [= <-] _ _. by rewrite len_nil, skip_0.
  - intros r b r' Hr [= <- <-]. split; [by apply Hd|]. exists [], (rest r).
    by rewrite len_nil, skip_0.
Qed.

Lemma codec_bind {A B} (p : reader A) (q : A → reader B) encA domA (f : B → A) es dom :
  codec p encA domA → (∀ b, dom b → domA (f b)) →
  (∀ a, domA a → codec (q a) (cat es) (λ b, dom b ∧ f b = a)) →
  codec (p ≫= q) (cat ((λ b, encA (f b)) :: es)) dom.
Proof.
  intros [Hr Hw] Hf Hq. split.
  - intros b r e k Hb He Hwf Hrest. cbn in He.
    destruct (encA (f b)) as [x|] eqn:Hx; [|done]. destruct (cat es b) as [y|] eqn:Hy; [|done].
    injection He as <-. rewrite <- app_assoc in Hrest.
    unfold mbind, stm_bind. rewrite (Hr (f b) r x (y ++ k)) by auto.
    destruct (skip_rest _ _ _ Hwf Hrest) as [Hwf' Hrest'].
    rewrite (c_read _ _ _ (Hq (f b) (Hf b Hb)) b _ y k) by done. by rewrite skip_add, len_app.
  - intros r b r' Hwf Hp. unfold mbind, stm_bind in Hp. destruct (p r) as [[a|] r1] eqn:Hpr; [|done].
    destruct (Hw r a r1 Hwf Hpr) as (Ha & x & k & Hx & Hrest & ->).
    destruct (skip_rest _ _ _ Hwf Hrest) as [Hwf' Hrest'].
    destruct (c_write _ _ _ (Hq a Ha) _ _ _ Hwf' Hp) as ([Hb <-] & y & k' & Hy & Hk & ->).
    split; [done|]. exists (x ++ y), k'. cbn. rewrite Hx. cbn. rewrite Hy. cbn.
    rewrite Hrest, <- Hrest', Hk, app_assoc, skip_add, len_app. done.
Qed.

(** A check between two fields. *)
Lemma codec_guard {B} (c : bool) (e : CtError) (q : reader B) enc dom :
  (c = false → codec q enc dom) → (∀ b, dom b → c = false) →
  codec (if c then throw e else q) enc dom.
Proof.
  intros Hq Hd. destruct c; [|by apply Hq]. split; [|done]. intros b r x k Hb. by apply Hd in Hb.
Qed.

(** *** Primitive fields *)

Definition octets (n : Z) (l : bytes) : Prop := len l = n ∧ Forall is_byte l.

Lemma take_spec n r :
  wf_reader r → 0 ≤ n < 2 ^ 63 →
  reader_take n r =
    if n <=? len (rest r) then (Ok (takeZ n (rest r)), skip n r)
    else (Err "truncated CT wire data"%string, r).
Proof.
  intros Hr Hn. pose proof (rest_len r Hr) as Hl. destruct Hr as [Ho Hs _].
  unfold reader_take, mbind, stm_bind, get, lift. cbn [fst snd].
  rewrite checked_add64_small by (unfold U64_MAX; lia). cbn [ok_or].
  unfold slice_get. rewrite (proj2 (Z.leb_le (rd_offset r) _)) by lia. cbn [andb].
  replace (rd_offset r + n <=? len (rd_input r)) with (n <=? len (rest r))
    by (destruct (Z.leb_spec n (len (rest r))); symmetry; [apply Z.leb_le|apply Z.leb_gt]; lia).
  destruct (n <=? len (rest r)); cbn [ok_or]; [|done].
  unfold modify, mret, stm_ret. do 2 f_equal. f_equal. lia.
Qed.

Lemma codec_take n :
  0 ≤ n < 2 ^ 62 → codec (reader_take n) (λ l, Ok l) (octets n).
Proof.
  intros Hn. split.
  - intros a r e k [Ha _] [= <-] Hr Hrest. rewrite take_spec by (done || lia).
    rewrite Hrest, len_app. pose proof (len_nonneg k). rewrite (proj2 (Z.leb_le _ _)) by lia.
    rewrite <- Ha at 1. by rewrite takeZ_app_len, Ha.
  - intros r a r' Hr Hp. rewrite take_spec in Hp by (done || lia).
    destruct (Z.leb_spec n (len (rest r))) as [Hle|]; [|done]. injection Hp as <- <-.
    assert (len (takeZ n (rest r)) = n) as Hl by (apply len_takeZ; lia). split.
    + split; [done|]. by apply Forall_take, rest_bytes.
    + exists (takeZ n (rest r)), (dropZ n (rest r)). by rewrite takeZ_dropZ, Hl.
Qed.

(** A reader that converts what another reads. *)
Lemma codec_map {A B} (p : reader A) enc dom (f : A → B) (g : B → A) (dom' : B → Prop) :
  codec p enc dom → (∀ a, dom a → g (f a) = a ∧ dom' (f a)) →
  (∀ b, dom' b → f (g b) = b ∧ dom (g b)) →
  codec (a ← p; mret (f a)) (λ b, enc (g b)) dom'.
Proof.
  intros [Hr Hw] Hfg Hgf. split.
  - intros b r e k Hb He Hwf Hrest. destruct (Hgf b Hb) as [Heq Hd]. unfold mbind, stm_bind.
    rewrite (Hr (g b) r e k) by done. unfold mret, stm_ret. by rewrite Heq.
  - intros r b r' Hwf Hp. unfold mbind, stm_bind in Hp. destruct (p r) as [[a|] r1] eqn:Hpr; [|done].
    injection Hp as <- <-. destruct (Hw r a r1 Hwf Hpr) as (Ha & e & k & He & Hk).
    destruct (Hfg a Ha) as [-> Hd]. split; [done|]. by exists e, k.
Qed.

(** A reader that puts what another reads under a constructor. *)
Lemma codec_wrap {A B} (p : reader A) enc dom (C : A → B) (enc' : B → ct bytes) (dom' : B → Prop) :
  codec p enc dom → (∀ b, dom' b ↔ ∃ a, b = C a ∧ dom a) → (∀ a, enc' (C a) = enc a) →
  codec (a ← p; mret (C a)) enc' dom'.
Proof.
  intros [Hr Hw] Hd He. split.
  - intros b r e k (a & -> & Ha)%Hd. rewrite He. intros Hx Hwf Hrest. unfold mbind, stm_bind.
    by rewrite (Hr a r e k).
  - intros r b r' Hwf Hp. unfold mbind, stm_bind in Hp. destruct (p r) as [[a|] r1] eqn:Hpr; [|done].
    injection Hp as <- <-. destruct (Hw r a r1 Hwf Hpr) as (Ha & e & k & Hx & Hk).
    split; [apply Hd; eauto|]. exists e, k. by rewrite He.
Qed.

(** A reader that checks what another reads. *)
Lemma codec_check {A} (p : reader A) enc dom (check : A → ct A) (dom' : A → Prop) :
  codec p enc dom → (∀ a b, dom a → check a = Ok b → b = a ∧ dom' a) →
  (∀ a, dom' a → dom a ∧ check a = Ok a) →
  codec (a ← p; lift (check a)) enc dom'.
Proof.
  intros [Hr Hw] Hc Hd. split.
  - intros b r e k Hb He Hwf Hrest. destruct (Hd b Hb) as [Hb' Hok]. unfold mbind, stm_bind.
    rewrite (Hr b r e k) by done. unfold lift. by rewrite Hok.
  - intros r b r' Hwf Hp. unfold mbind, stm_bind in Hp. destruct (p r) as [[a|] r1] eqn:Hpr; [|done].
    unfold lift in Hp. destruct (check a) as [b'|] eqn:Hok; [|done]. injection Hp as <- <-.
    destruct (Hw r a r1 Hwf Hpr) as (Ha & e & k & He & Hk).
    destruct (Hc a b' Ha Hok) as [-> Hd']. split; [done|]. by exists e, k.
Qed.

Definition below (n v : Z) : Prop := 0 ≤ v < n.

Lemma codec_eq {A} (p p' : reader A) enc dom :
  codec p enc dom → (∀ r, wf_reader r → p' r = p r) → codec p' enc dom.
Proof.
  intros [Hr Hw] Hp. split.
  - intros a r e k ? ? Hwf ?. rewrite Hp by done. by eapply Hr.
  - intros r a r' Hwf. rewrite Hp by done. by apply Hw.
Qed.

Lemma codec_be (n : nat) :
  (n ≤ 8)%nat →
  codec (l ← reader_take (Z.of_nat n); mret (be_fold 0 l)) (λ v, Ok (be_bytes n v))
    (below (2 ^ (8 * Z.of_nat n))).
Proof.
  intros Hn.
  apply (codec_map (reader_take (Z.of_nat n)) (λ l, Ok l) (octets (Z.of_nat n)) (be_fold 0) (be_bytes n)).
  - apply codec_take. lia.
  - intros l [Hl Hb]. unfold len in Hl. apply Nat2Z.inj in Hl. split.
    + rewrite <- Hl at 1. by apply be_bytes_be_fold.
    + pose proof (be_fold_bound l 0 Hb ltac:(lia)) as Hx. unfold len in Hx. rewrite Hl in Hx.
      unfold below. lia.
  - intros v Hv. split.
    + rewrite be_fold_be_bytes. cbn. by apply Z.mod_small.
    + split; [unfold len; by rewrite be_bytes_length|apply be_bytes_is_byte].
Qed.

(** Reading with [take], a conversion to an array, and [from_be_bytes]. *)
Lemma take_array n e r :
  wf_reader r → 0 ≤ n < 2 ^ 62 →
  (taken ← reader_take n; array ← lift (to_array n taken e); mret (be_fold 0 array)) r
  = (l ← reader_take n; mret (be_fold 0 l)) r.
Proof.
  intros Hr Hn. unfold mbind, stm_bind. rewrite take_spec by (done || lia).
  destruct (Z.leb_spec n (len (rest r))); [|done]. unfold lift, to_array.
  rewrite len_takeZ, Z.eqb_refl by lia. done.
Qed.

Lemma codec_u16 : codec reader_u16 (λ v, Ok (be_bytes 2 v)) (below (2 ^ 16)).
Proof. eapply codec_eq; [apply (codec_be 2); lia|]. intros r Hr. apply take_array; [done|lia]. Qed.

Lemma codec_u64 : codec reader_u64 (λ v, Ok (be_bytes 8 v)) (below (2 ^ 64)).
Proof. eapply codec_eq; [apply (codec_be 8); lia|]. intros r Hr. apply take_array; [done|lia]. Qed.

Lemma codec_u8 : codec reader_u8 (λ v, Ok (be_bytes 1 v)) (below (2 ^ 8)).
Proof.
  eapply codec_eq; [apply (codec_be 1); lia|]. intros r Hr.
  unfold reader_u8, mbind, stm_bind. change (Z.of_nat 1) with 1.
  rewrite take_spec by (done || lia). destruct (Z.leb_spec 1 (len (rest r))) as [Hl|]; [|done].
  destruct (rest r) as [|b l]; [done|]. reflexivity.
Qed.

Lemma lor_be3 a b c :
  Z.lor (Z.lor (Z.shiftl a 16) (Z.shiftl b 8)) c = be_fold 0 [a; b; c].
Proof.
  cbn. by rewrite !Z.shiftl_lor, !Z.shiftl_shiftl by lia.
Qed.

Lemma lor_be5 a b c d e :
  Z.lor (Z.lor (Z.lor (Z.lor (Z.shiftl a 32) (Z.shiftl b 24)) (Z.shiftl c 16)) (Z.shiftl d 8)) e
  = be_fold 0 [a; b; c; d; e].
Proof. cbn. by rewrite !Z.shiftl_lor, !Z.shiftl_shiftl by lia. Qed.

Lemma codec_u24 : codec reader_u24 (λ v, Ok (be_bytes 3 v)) (below (2 ^ 24)).
Proof.
  eapply codec_eq; [apply (codec_be 3); lia|]. intros r Hr.
  unfold reader_u24, mbind, stm_bind. change (Z.of_nat 3) with 3.
  rewrite take_spec by (done || lia). destruct (Z.leb_spec 3 (len (rest r))) as [Hl|]; [|done].
  destruct (rest r) as [|a [|b [|c l]]]; try done.
  unfold mret, stm_ret. do 3 f_equal. exact (lor_be3 a b c).
Qed.

Lemma codec_u40 : codec reader_u40 (λ v, Ok (be_bytes 5 v)) (below (2 ^ 40)).
Proof.
  eapply codec_eq; [apply (codec_be 5); lia|]. intros r Hr.
  unfold reader_u40, mbind, stm_bind. change (Z.of_nat 5) with 5.
  rewrite take_spec by (done || lia). destruct (Z.leb_spec 5 (len (rest r))) as [Hl|]; [|done].
  destruct (rest r) as [|a [|b [|c [|d [|e l]]]]]; try done.
  unfold mret, stm_ret. do 3 f_equal. exact (lor_be5 a b c d e).
Qed.

(** *** Vectors *)

Definition vec (minimum maximum : Z) (l : bytes) : Prop :=
  Forall is_byte l ∧ minimum ≤ len l ≤ maximum.

Lemma codec_vector (n : nat) (p : reader Z) minimum maximum :
  codec p (λ v, Ok (be_bytes n v)) (below (2 ^ (8 * Z.of_nat n))) → (n ≤ 7)%nat →
  0 ≤ minimum ≤ maximum → maximum < 2 ^ (8 * Z.of_nat n) →
  codec (length ← p; bounded_vector length minimum maximum)
    (λ l, Ok (be_bytes n (len l) ++ l)) (vec minimum maximum).
Proof.
  intros Hp Hn Hm Hmax.
  assert (2 ^ (8 * Z.of_nat n) ≤ 2 ^ 56) by (apply Z.pow_le_mono_r; lia).
  eapply codec_ext; [|intros a; reflexivity|].
  - apply (codec_bind p (λ length, bounded_vector length minimum maximum)
      (λ v, Ok (be_bytes n v)) (below (2 ^ (8 * Z.of_nat n))) len [λ l, Ok l]); [exact Hp| |].
    + intros l [_ Hl]. unfold below. lia.
    + intros v Hv. unfold below in Hv. unfold bounded_vector. apply codec_guard.
      * intros Hc. apply orb_false_elim in Hc as [_ Hc%negb_false_iff].
        apply andb_true_iff in Hc as [Hlo%Z.leb_le Hhi%Z.leb_le].
        eapply codec_ext; [apply (codec_take v); lia| |].
        -- intros l. unfold vec, octets. split; intros; destruct_and?; split_and?; try done; lia.
        -- intros l _. cbn. by rewrite app_nil_r.
      * intros l [[_ Hl] <-]. rewrite (proj2 (Z.ltb_ge _ _)), !(proj2 (Z.leb_le _ _)) by lia. done.
  - intros l [_ Hl]. cbn. by rewrite app_nil_r.
Qed.

Lemma codec_vector_u8 minimum maximum :
  0 ≤ minimum ≤ maximum → maximum ≤ U8_MAX →
  codec (vector_u8 minimum maximum) (λ l, push_vector_u8 [] l minimum) (vec minimum maximum).
Proof.
  intros Hm Hmax. unfold U8_MAX in *.
  eapply codec_ext; [apply (codec_vector 1 reader_u8); [apply codec_u8|lia..]|done|].
  intros l [_ Hl]. unfold push_vector_u8, U8_MAX. rewrite !(proj2 (Z.ltb_ge _ _)) by lia. cbn [orb].
  rewrite Z.mod_small by lia. cbn. by rewrite Z.shiftr_0_r, land_255, Z.mod_small by lia.
Qed.

Lemma codec_vector_u16 minimum maximum :
  0 ≤ minimum ≤ maximum → maximum ≤ U16_MAX →
  codec (vector_u16 minimum maximum) (λ l, push_vector_u16 [] l minimum) (vec minimum maximum).
Proof.
  intros Hm Hmax. unfold U16_MAX in *.
  eapply codec_ext; [apply (codec_vector 2 reader_u16); [apply codec_u16|lia..]|done|].
  intros l [_ Hl]. unfold push_vector_u16, U16_MAX. rewrite !(proj2 (Z.ltb_ge _ _)) by lia. cbn [orb].
  by rewrite Z.mod_small by lia.
Qed.

Lemma codec_vector_u24 minimum maximum :
  0 ≤ minimum ≤ maximum → maximum ≤ U24_MAX →
  codec (vector_u24 minimum maximum) (λ l, push_vector_u24 [] l minimum) (vec minimum maximum).
Proof.
  intros Hm Hmax. unfold vector_u24. rewrite Z.min_l by done. unfold U24_MAX in *.
  eapply codec_ext; [apply (codec_vector 3 reader_u24); [apply codec_u24|lia..]|done|].
  intros l [_ Hl]. unfold push_vector_u24, push_u24, U24_MAX. rewrite !(proj2 (Z.ltb_ge _ _)) by lia.
  cbn. by rewrite Z.shiftr_0_r.
Qed.

Lemma push_vector_u16_Ok out l m e :
  push_vector_u16 out l m = Ok e →
  e = out ++ be_bytes 2 (len l mod 2 ^ 16) ++ l ∧ m ≤ len l ≤ U16_MAX.
Proof.
  unfold push_vector_u16. destruct (Z.ltb_spec (len l) m); [done|].
  destruct (Z.ltb_spec U16_MAX (len l)); [done|]. cbn [orb]. intros Heq. split; [congruence|lia].
Qed.

(** What a writer appends does not depend on what is there. *)
Lemma push_vector_u8_app out l m : push_vector_u8 out l m = (x ← push_vector_u8 [] l m; Ok (out ++ x)).
Proof. unfold push_vector_u8. by destruct (_ || _). Qed.

Lemma push_vector_u16_app out l m : push_vector_u16 out l m = (x ← push_vector_u16 [] l m; Ok (out ++ x)).
Proof. unfold push_vector_u16. by destruct (_ || _). Qed.

Lemma push_vector_u24_app out l m : push_vector_u24 out l m = (x ← push_vector_u24 [] l m; Ok (out ++ x)).
Proof.
  unfold push_vector_u24, push_u24. destruct (_ || _); [done|].
  destruct (_ <? _); [done|]. cbn. by rewrite <- app_assoc.
Qed.

(** *** Readers of everything that is left *)

(** [whole p enc dom]: [p] reads to the end exactly when what is left is an
    encoding. *)
Definition whole {A} (p : reader A) (enc : A → ct bytes) (dom : A → Prop) : Prop :=
  ∀ r a, wf_reader r →
  (∃ r', p r = (Ok a, r') ∧ reader_finish r' = Ok tt) ↔ dom a ∧ enc a = Ok (rest r).

Lemma whole_codec {A} {p : reader A} {enc dom} : codec p enc dom → whole p enc dom.
Proof.
  intros [Hr Hw] r a Hwf. split.
  - intros (r' & Hp & Hf). destruct (Hw _ _ _ Hwf Hp) as (Ha & e & k & He & Hrest & ->).
    destruct (skip_rest _ _ _ Hwf Hrest) as [Hwf' Hrest'].
    apply finish_rest in Hf; [|done]. rewrite Hf in Hrest'. subst k.
    rewrite app_nil_r in Hrest. by subst.
  - intros [Ha He]. assert (rest r = rest r ++ []) as Hnil by by rewrite app_nil_r.
    exists (skip (len (rest r)) r). split; [by apply (Hr a _ (rest r) [])|].
    destruct (skip_rest r (rest r) [] Hwf Hnil) as [Hwf' Hrest']. by apply finish_rest.
Qed.

Lemma whole_bind {A B} (p : reader A) (q : A → reader B) encA domA (f : B → A) (encB : B → ct bytes) dom :
  codec p encA domA → (∀ b, dom b → domA (f b)) →
  (∀ a, domA a → whole (q a) encB (λ b, dom b ∧ f b = a)) →
  whole (p ≫= q) (λ b, x ← encA (f b); y ← encB b; Ok (x ++ y)) dom.
Proof.
  intros [Hr Hw] Hf Hq r b Hwf. unfold mbind at 1, stm_bind. split.
  - intros (r' & Hp & Hfin). destruct (p r) as [[a|] r1] eqn:Hpr; [|done].
    destruct (Hw r a r1 Hwf Hpr) as (Ha & x & k & Hx & Hrest & ->).
    destruct (skip_rest _ _ _ Hwf Hrest) as [Hwf' Hrest'].
    destruct (proj1 (Hq a Ha _ b Hwf')) as [[Hb <-] Hy]; [by eauto|].
    rewrite Hx. cbn. rewrite Hy. cbn. by rewrite Hrest', <- Hrest.
  - intros [Hb He]. destruct (encA (f b)) as [x|] eqn:Hx; [|done]. cbn in He.
    destruct (encB b) as [y|] eqn:Hy; [|done]. injection He as He. symmetry in He.
    rewrite (Hr (f b) r x y) by auto. destruct (skip_rest _ _ _ Hwf He) as [Hwf' Hrest'].
    apply (Hq (f b) (Hf b Hb)); [done|]. by rewrite Hrest'.
Qed.

Lemma whole_ext {A} (p : reader A) enc enc' dom dom' :
  whole p enc dom → (∀ a, dom' a ↔ dom a) → (∀ a, dom a → enc' a = enc a) → whole p enc' dom'.
Proof.
  intros Hw Hd He r a Hwf. rewrite (Hw r a Hwf). rewrite Hd. split; intros [Ha ?]; [by rewrite He|by rewrite <- He].
Qed.

Lemma decode_whole_iff {A} (p : reader A) enc dom l a :
  whole p enc dom → Forall is_byte l → len l < 2 ^ 63 →
  decode_whole p l = Ok a ↔ dom a ∧ enc a = Ok l.
Proof.
  intros Hw Hb Hl. rewrite <- (Hw (reader_new l) a (wf_new l Hb Hl)). unfold decode_whole.
  destruct (p (reader_new l)) as [[v|e] r].
  - split.
    + destruct (reader_finish r) as [[]|] eqn:Hf; [|done]. intros [= <-]. eauto.
    + by intros (r' & [= <- <-] & ->).
  - split; [done|]. by intros (r' & ? & _).
Qed.

(** *** Items up to the end of a vector *)

Fixpoint encode_all {A} (enc : A → ct bytes) (l : list A) : ct bytes :=
  match l with
  | [] => Ok []
  | a :: l => x ← enc a; y ← encode_all enc l; Ok (x ++ y)
  end.

Fixpoint chain {P A} (dom : P → A → Prop) (next : A → P) (p : P) (l : list A) : Prop :=
  match l with
  | [] => True
  | a :: l => dom p a ∧ chain dom next (next a) l
  end.

Lemma while_more_iff {P A} (item : P → reader A) next enc dom :
  (∀ p, codec (item p) enc (dom p)) → (∀ p a, dom p a → enc a ≠ Ok []) →
  ∀ fuel p r l, wf_reader r → (length (rest r) < fuel)%nat →
  (while_more item next fuel p r).1 = Ok l ↔ chain dom next p l ∧ encode_all enc l = Ok (rest r).
Proof.
  intros Hc Hne fuel. induction fuel as [|fuel IH]; intros p r l Hwf Hlen; [lia|]. cbn [while_more].
  unfold mbind at 1, stm_bind at 1, get. pose proof (is_empty_rest r Hwf) as Hempty.
  destruct (reader_is_empty r).
  { rewrite (proj1 Hempty eq_refl). split; [by intros [= <-]|]. destruct l as [|a l]; [done|].
    intros [[Ha _] He]. exfalso. cbn in He. destruct (enc a) as [x|] eqn:Hx; [|done]. cbn in He.
    destruct (encode_all enc l); [|done]. injection He as [-> _]%app_nil. by apply (Hne p a). }
  unfold mbind, stm_bind. split.
  - destruct (item p r) as [[a|] r1] eqn:Hp; [|done].
    destruct (c_write _ _ _ (Hc p) r a r1 Hwf Hp) as (Ha & x & k & Hx & Hrest & ->).
    destruct (skip_rest _ _ _ Hwf Hrest) as [Hwf' Hrest'].
    assert (x ≠ []) by (intros ->; by apply (Hne p a)).
    destruct (while_more item next fuel (next a) _) as [[l'|] r2] eqn:Hw; [|done]. intros [= <-].
    destruct (proj1 (IH (next a) (skip (len x) r) l' Hwf' ltac:(rewrite Hrest'; rewrite Hrest, length_app in Hlen;
      destruct x; [done|cbn in Hlen; lia]))) as [Hch He]; [by rewrite Hw|].
    cbn. rewrite Hx. cbn. rewrite He. cbn. by rewrite Hrest', <- Hrest.
  - intros [Hch He]. destruct l as [|a l].
    { injection He as He. discriminate (proj2 Hempty (eq_sym He)). }
    destruct Hch as [Ha Hch]. cbn in He. destruct (enc a) as [x|] eqn:Hx; [|done]. cbn in He.
    destruct (encode_all enc l) as [y|] eqn:Hy; [|done]. injection He as He. symmetry in He.
    rewrite (c_read _ _ _ (Hc p) a r x y) by done. destruct (skip_rest _ _ _ Hwf He) as [Hwf' Hrest'].
    assert (x ≠ []) by (intros ->; by apply (Hne p a)).
    pose proof (proj2 (IH (next a) (skip (len x) r) l Hwf' ltac:(rewrite Hrest'; rewrite He, length_app in Hlen;
      destruct x; [done|cbn in Hlen; lia]))) as Hw. rewrite Hrest' in Hw. specialize (Hw (conj Hch Hy)).
    destruct (while_more item next fuel (next a) _) as [[l'|] r2]; [|done]. by injection Hw as ->.
Qed.

Lemma read_items_iff {P A} (item : P → reader A) next enc dom p encoded l :
  (∀ p, codec (item p) enc (dom p)) → (∀ p a, dom p a → enc a ≠ Ok []) →
  Forall is_byte encoded → len encoded < 2 ^ 63 →
  read_items item next p encoded = Ok l ↔ chain dom next p l ∧ encode_all enc l = Ok encoded.
Proof.
  intros Hc Hne Hb Hl. unfold read_items.
  rewrite (while_more_iff item next enc dom Hc Hne); [by rewrite rest_new|by apply wf_new|rewrite rest_new; lia].
Qed.

(** *** Loops that look for one item

    A loop over items keeps the value [v] of the only item that is [own] and
    stops with an error at a second one. *)

Section single.
Context {X V : Type} (own : X → bool) (value : X → V → Prop).

Inductive single : option V → list X → option V → Prop :=
  | single_end o : single o [] o
  | single_other x xs o o' : own x = false → single o xs o' → single o (x :: xs) o'
  | single_found x xs v o : own x = true → value x v → single (Some v) xs o → single None (x :: xs) o.

Lemma single_filter o xs v :
  single o xs (Some v) ↔
  match o with
  | Some w => w = v ∧ filter own xs = []
  | None => ∃ x, filter own xs = [x] ∧ value x v
  end.
Proof.
  revert o. induction xs as [|x xs IH]; intros o.
  { split; [intros Ho; by inversion Ho|]. destruct o; [intros [-> _]; constructor|by intros (x & ? & _)]. }
  destruct (own x) eqn:Hx.
  - rewrite filter_cons_True by by rewrite Hx. split.
    + intros Ho. inversion Ho as [|? ? ? ? Hx' |? ? j ? _ Hv Ho']; subst; [congruence|].
      apply IH in Ho' as [-> Hf]. exists x. by rewrite Hf.
    + destruct o as [j|]; [by intros [_ ?]|]. intros (y & [= -> Hf] & Hv).
      eapply single_found; [done..|]. by apply IH.
  - rewrite filter_cons_False by (rewrite Hx; intros []). rewrite <- IH. split; [|by constructor].
    intros Ho. inversion Ho; subst; [done|congruence].
Qed.
End single.

(** A vector whose contents are read by [f]. *)
Lemma codec_nested {A} (f : bytes → ct A) (E : A → ct bytes) (D : A → Prop) m :
  0 ≤ m ≤ U16_MAX →
  (∀ encoded a, Forall is_byte encoded → len encoded < 2 ^ 63 →
     f encoded = Ok a ↔ D a ∧ E a = Ok encoded) →
  codec (encoded ← vector_u16 m U16_MAX; lift (f encoded)) (λ a, x ← E a; push_vector_u16 [] x m) D.
Proof.
  intros Hm Hf. pose proof (codec_vector_u16 m U16_MAX Hm (Z.le_refl _)) as [Hr Hw].
  unfold mbind at 1, stm_bind. split.
  - intros a r e k Ha He Hwf Hrest. destruct (E a) as [x|] eqn:Hx; [|done]. cbn in He.
    pose proof (rest_bytes r Hwf) as Hb. destruct (push_vector_u16_Ok _ _ _ _ He) as [Hex Hl].
    rewrite Hrest, Hex, !Forall_app in Hb. destruct Hb as [(_ & _ & Hb) _].
    rewrite (Hr x r _ k) by (done || by split). unfold lift.
    rewrite (proj2 (Hf x a Hb ltac:(unfold U16_MAX in *; lia)) (conj Ha Hx)). done.
  - intros r a r' Hwf Hp. destruct (vector_u16 m U16_MAX r) as [[x|] r1] eqn:Hv; [|done].
    destruct (Hw r x r1 Hwf Hv) as ([Hb Hl] & e & k & He & Hrest & ->).
    unfold lift in Hp. injection Hp as Hp <-.
    apply Hf in Hp as [Ha Hx]; [|done|unfold U16_MAX in *; lia]. split; [done|]. exists e, k.
    by rewrite Hx.
Qed.

(** *** Bookkeeping for decoders written with several binds *)

Lemma codec_assoc {A B C} (p : reader A) (q : A → reader B) (k : B → reader C) enc dom :
  codec ((p ≫= q) ≫= k) enc dom → codec (p ≫= λ a, q a ≫= k) enc dom.
Proof.
  intros Hc. eapply codec_eq; [exact Hc|]. intros r _. unfold mbind, stm_bind.
  by destruct (p r) as [[a|] r'].
Qed.

Lemma codec_array n e :
  0 ≤ n < 2 ^ 62 → codec (taken ← reader_take n; lift (to_array n taken e)) (λ l, Ok l) (octets n).
Proof.
  intros Hn. eapply codec_check; [by apply codec_take| |].
  - intros a b Ha. unfold to_array. destruct (_ =? _); [|done]. by intros [= <-].
  - intros a [Ha Hb]. unfold to_array. rewrite Ha, Z.eqb_refl. done.
Qed.

#[global] Arguments push_vector_u8 _ _ _ : simpl never.
#[global] Arguments push_vector_u16 _ _ _ : simpl never.
#[global] Arguments push_vector_u24 _ _ _ : simpl never.
#[global] Arguments be_bytes _ _ : simpl never.

(** An encoder is the concatenation of its fields' encodings. *)
Ltac enc_push :=
  repeat (rewrite (push_vector_u8_app (_ :: _)) || rewrite (push_vector_u8_app (_ ++ _)) ||
          rewrite (push_vector_u16_app (_ :: _)) || rewrite (push_vector_u16_app (_ ++ _)) ||
          rewrite (push_vector_u24_app (_ :: _)) || rewrite (push_vector_u24_app (_ ++ _)));
  repeat match goal with
  | |- context [push_vector_u8 [] ?l ?m] => destruct (push_vector_u8 [] l m)
  | |- context [push_vector_u16 [] ?l ?m] => destruct (push_vector_u16 [] l m)
  | |- context [push_vector_u24 [] ?l ?m] => destruct (push_vector_u24 [] l m)
  end; cbn.

Ltac enc_fields := cbn; repeat (progress enc_push); rewrite <- ?app_assoc, ?app_nil_r; cbn; try done.
