(* ===== verification/CtMerkle.v ===== *)
(** * History trees of Certificate Transparency

    [src/source/crates/oxibelt-ct/src/merkle.rs]: Merkle tree hashes, and the
    construction and verification of inclusion and consistency proofs.  SHA-256
    is the [sha2] crate's: a function from octets to 32 octets, the digest of
    everything fed to [update] in order. *)

From S2P Require Import Prelude Bytes CtCodec.

Definition HASH_BYTES : Z := 32.
Abbreviation Hash := bytes (only parsing).

Class Sha256 := {
  sha256 : bytes → Hash;
  sha256_len m : len (sha256 m) = HASH_BYTES;
  sha256_bytes m : Forall is_byte (sha256 m);
}.

(** [value.leading_zeros()] of a [usize]. *)
Definition leading_zeros (value : Z) : Z := if value =? 0 then 64 else 63 - Z.log2 value.

Definition largest_power_of_two_less_than (value : Z) : Z :=
  Z.shiftl 1 (64 - 1 - leading_zeros (value - 1)).

(** Recursion halves the next power of two, so this many levels are enough for
    a tree of [n] leaves. *)
Definition depth (n : Z) : nat := S (Z.to_nat (Z.log2_up n)).

Section merkle.
Context `{Sha256}.

Definition empty_hash : Hash := sha256 [].
Definition leaf_hash (leaf_input : bytes) : Hash := sha256 ([0x00] ++ leaf_input).
Definition node_hash (left right : Hash) : Hash := sha256 ([0x01] ++ left ++ right).

Fixpoint root_fuel (fuel : nat) (leaves : list Hash) : Hash :=
  match fuel, leaves with
  | O, _ => empty_hash
  | S _, [] => empty_hash
  | S _, [leaf] => leaf
  | S fuel, _ =>
      let split := largest_power_of_two_less_than (len leaves) in
      node_hash (root_fuel fuel (takeZ split leaves)) (root_fuel fuel (dropZ split leaves))
  end.

Definition root_from_leaf_hashes (leaves : list Hash) : Hash :=
  root_fuel (depth (len leaves)) leaves.

Definition tree_hash (entries : list bytes) : Hash :=
  root_from_leaf_hashes (map leaf_hash entries).

(** ** Inclusion *)

Fixpoint build_inclusion_proof (fuel : nat) (leaves : list Hash) (leaf_index : Z) (proof : list Hash)
    : list Hash :=
  match fuel with
  | O => proof
  | S fuel =>
      if len leaves =? 1 then proof
      else
        let split := largest_power_of_two_less_than (len leaves) in
        if leaf_index <? split then
          build_inclusion_proof fuel (takeZ split leaves) leaf_index proof
            ++ [root_from_leaf_hashes (dropZ split leaves)]
        else
          build_inclusion_proof fuel (dropZ split leaves) (leaf_index - split) proof
            ++ [root_from_leaf_hashes (takeZ split leaves)]
  end.

Definition inclusion_proof (leaves : list Hash) (leaf_index : Z) : ct (list Hash) :=
  if is_empty leaves || (len leaves <=? leaf_index)
  then Err "CT inclusion proof leaf index is outside the tree"%string
  else Ok (build_inclusion_proof (depth (len leaves)) leaves leaf_index []).

(** The root and the [proof_index] it leaves. *)
Fixpoint inclusion_root (fuel : nat) (leaf : Hash) (leaf_index tree_size : Z) (proof : list Hash)
    (proof_index : Z) : option (Hash * Z) :=
  match fuel with
  | O => None
  | S fuel =>
      if tree_size =? 1 then if leaf_index =? 0 then Some (leaf, proof_index) else None
      else
        let split := largest_power_of_two_less_than tree_size in
        if leaf_index <? split then
          '(left_hash, proof_index) ← inclusion_root fuel leaf leaf_index split proof proof_index;
          right_hash ← proof !! Z.to_nat proof_index;
          Some (node_hash left_hash right_hash, proof_index + 1)
        else
          '(right_hash, proof_index) ←
            inclusion_root fuel leaf (leaf_index - split) (tree_size - split) proof proof_index;
          left_hash ← proof !! Z.to_nat proof_index;
          Some (node_hash left_hash right_hash, proof_index + 1)
  end.

Definition verify_inclusion (leaf : Hash) (leaf_index tree_size : Z) (proof : list Hash)
    (expected_root : Hash) : bool :=
  if (tree_size =? 0) || (tree_size <=? leaf_index) then false
  else
    match inclusion_root (depth tree_size) leaf leaf_index tree_size proof 0 with
    | None => false
    | Some (root, proof_index) => (proof_index =? len proof) && bool_decide (root = expected_root)
    end.

(** ** Consistency *)

Fixpoint build_consistency_subproof (fuel : nat) (old_size : Z) (leaves : list Hash)
    (complete : bool) (proof : list Hash) : list Hash :=
  match fuel with
  | O => proof
  | S fuel =>
      if old_size =? len leaves then
        if negb complete then proof ++ [root_from_leaf_hashes leaves] else proof
      else
        let split := largest_power_of_two_less_than (len leaves) in
        if old_size <=? split then
          build_consistency_subproof fuel old_size (takeZ split leaves) complete proof
            ++ [root_from_leaf_hashes (dropZ split leaves)]
        else
          build_consistency_subproof fuel (old_size - split) (dropZ split leaves) false proof
            ++ [root_from_leaf_hashes (takeZ split leaves)]
  end.

Definition consistency_proof (leaves : list Hash) (old_size : Z) : ct (list Hash) :=
  if len leaves <? old_size
  then Err "CT consistency proof old tree is larger than new tree"%string
  else if (old_size =? 0) || (old_size =? len leaves) then Ok []
  else Ok (build_consistency_subproof (depth (len leaves)) old_size leaves true []).

(** [while first & 1 == 1 { first >>= 1; second >>= 1; }] *)
Fixpoint skip_ones (fuel : nat) (first second : Z) : Z * Z :=
  match fuel with
  | O => (first, second)
  | S fuel =>
      if Z.land first 1 =? 1 then skip_ones fuel (Z.shiftr first 1) (Z.shiftr second 1)
      else (first, second)
  end.

(** [while first != 0 && first & 1 == 0 { first >>= 1; second >>= 1; }] *)
Fixpoint skip_zeros (fuel : nat) (first second : Z) : Z * Z :=
  match fuel with
  | O => (first, second)
  | S fuel =>
      if negb (first =? 0) && (Z.land first 1 =? 0)
      then skip_zeros fuel (Z.shiftr first 1) (Z.shiftr second 1)
      else (first, second)
  end.

(** A number loses its lowest bit in each round. *)
Definition bits (first : Z) : nat := S (Z.to_nat (Z.log2 first)).

(** The loop over [proof[proof_index..]]: [None] when it returns [false]. *)
Fixpoint consistency_loop (nodes : list Hash) (first second : Z) (first_hash second_hash : Hash)
    : option (Z * Hash * Hash) :=
  match nodes with
  | [] => Some (second, first_hash, second_hash)
  | node :: nodes =>
      if second =? 0 then None
      else if (Z.land first 1 =? 1) || (first =? second) then
        let '(first, second) := skip_zeros (bits first) first second in
        consistency_loop nodes (Z.shiftr first 1) (Z.shiftr second 1)
          (node_hash node first_hash) (node_hash node second_hash)
      else
        consistency_loop nodes (Z.shiftr first 1) (Z.shiftr second 1)
          first_hash (node_hash second_hash node)
  end.

Definition verify_consistency (old_size new_size : Z) (old_root new_root : Hash) (proof : list Hash)
    : bool :=
  if new_size <? old_size then false
  else if old_size =? 0 then
    is_empty proof && bool_decide (old_root = empty_hash)
      && (negb (new_size =? 0) || bool_decide (new_root = empty_hash))
  else if old_size =? new_size then is_empty proof && bool_decide (old_root = new_root)
  else
    let '(first, second) := skip_ones (bits (old_size - 1)) (old_size - 1) (new_size - 1) in
    let seed := if first =? 0 then Some (old_root, proof)
                else match proof with
                     | [] => None
                     | seed :: nodes => Some (seed, nodes)
                     end in
    match seed with
    | None => false
    | Some (seed, nodes) =>
        match consistency_loop nodes first second seed seed with
        | None => false
        | Some (second, first_hash, second_hash) =>
            (second =? 0) && bool_decide (first_hash = old_root) && bool_decide (second_hash = new_root)
        end
    end.
End merkle.
