(* ===== verification/CtInclusion.v ===== *)
(** * Inclusion proofs: complete, and sound up to a collision

    The proof a log builds is accepted, and a proof that is accepted is for
    the leaf of the tree, unless the verifier's and the log's hashing exhibit
    two inputs with the same digest. *)

From S2P Require Import Prelude Bytes CtCodec CtMerkle.

(** ** The split point *)

Abbreviation split := largest_power_of_two_less_than.

Lemma split_eq n : 1 < n → split n = 2 ^ Z.log2 (n - 1).
Proof.
  intros. unfold split, leading_zeros. rewrite (proj2 (Z.eqb_neq _ _)) by lia.
  rewrite Z.shiftl_1_l. f_equal. lia.
Qed.

Lemma split_bounds n : 1 < n → 0 < split n < n ∧ n ≤ 2 * split n.
Proof.
  intros. rewrite split_eq by done. pose proof (Z.log2_spec (n - 1) ltac:(lia)) as Hl.
  rewrite Z.pow_succ_r in Hl by apply Z.log2_nonneg. lia.
Qed.

Lemma split_depth n d : 1 < n ≤ 2 ^ Z.of_nat (S d) → split n ≤ 2 ^ Z.of_nat d.
Proof.
  intros [Hn Hd]. rewrite split_eq by done. apply Z.pow_le_mono_r; [lia|].
  assert (Z.log2 (n - 1) < Z.of_nat (S d)); [|lia]. apply Z.log2_lt_pow2; lia.
Qed.

(** Between two powers of two the split is the lower one. *)
Lemma split_same n m : 1 < n → split n < m ≤ n → split m = split n.
Proof.
  intros Hn Hm. pose proof (split_bounds n Hn). rewrite !split_eq in * by lia. f_equal.
  apply Z.log2_unique; [apply Z.log2_nonneg|]. rewrite Z.pow_succ_r by apply Z.log2_nonneg. lia.
Qed.

Lemma split_pow2 d n : 2 ^ Z.of_nat d < n ≤ 2 ^ Z.of_nat (S d) → split n = 2 ^ Z.of_nat d.
Proof.
  intros Hn. assert (0 < 2 ^ Z.of_nat d) by lia. rewrite split_eq by lia. f_equal.
  apply Z.log2_unique; [lia|]. replace (Z.succ (Z.of_nat d)) with (Z.of_nat (S d)) by lia. lia.
Qed.

Lemma depth_enough n : 0 < n → n ≤ 2 ^ Z.of_nat (pred (depth n)).
Proof.
  intros. unfold depth. cbn [pred]. rewrite Z2Nat.id by apply Z.log2_up_nonneg.
  destruct (Z.eq_dec n 1) as [->|]; [done|]. apply Z.log2_up_spec. lia.
Qed.

(** Induction along the splits of a tree. *)
Lemma split_ind (P : Z → Prop) :
  P 1 → (∀ n, 1 < n → P (split n) → P (n - split n) → P n) → ∀ n, 0 < n → P n.
Proof.
  intros H1 Hs n Hn. assert (0 ≤ n) as H0 by lia. revert Hn.
  apply (Zlt_0_ind (λ n, 0 < n → P n)); [|done]. clear n H0. intros n IH _ Hn. destruct (Z.eq_dec n 1) as [->|]; [done|].
  pose proof (split_bounds n ltac:(lia)). apply Hs; [lia|apply IH; lia..].
Qed.

Lemma len_one_inv {A} (l : list A) : len l = 1 → ∃ a, l = [a].
Proof.
  destruct l as [|a [|b l]]; [done|by eauto|]. rewrite !len_cons. pose proof (len_nonneg l). lia.
Qed.

Lemma list_split_ind {A} (P : list A → Prop) :
  (∀ a, P [a]) →
  (∀ l, 1 < len l → P (takeZ (split (len l)) l) → P (dropZ (split (len l)) l) → P l) →
  ∀ l, 0 < len l → P l.
Proof.
  intros H1 Hs l Hl. cut (∀ n, 0 < n → ∀ l, n = len l → P l); [by eauto|]. clear l Hl.
  apply (split_ind (λ n, ∀ l, n = len l → P l)); [intros l Hn|intros n Hlt IH1 IH2 l Hn].
  - destruct (len_one_inv l) as [a ->]; [done|apply H1].
  - pose proof (split_bounds n Hlt). subst n.
    apply Hs; [done|apply IH1|apply IH2]; rewrite ?len_takeZ, ?len_dropZ by lia; lia.
Qed.

Section proofs.
Context `{Sha256}.

Abbreviation root := root_from_leaf_hashes.

(** ** Roots *)

Lemma root_fuel_enough d : ∀ f f' (l : list Hash),
  len l ≤ 2 ^ Z.of_nat d → (d < f)%nat → (d < f')%nat → root_fuel f l = root_fuel f' l.
Proof.
  induction d as [|d IH]; intros [|f] [|f'] l Hl Hf Hf'; try lia;
    destruct l as [|a [|b l]]; try done.
  - rewrite !len_cons in Hl. pose proof (len_nonneg l). change (2 ^ Z.of_nat 0) with 1 in Hl. lia.
  - cbn [root_fuel]. set (k := a :: b :: l) in *.
    assert (1 < len k) as H1 by (unfold k; rewrite !len_cons; pose proof (len_nonneg l); lia).
    pose proof (split_bounds _ H1). pose proof (split_depth (len k) d ltac:(lia)).
    f_equal; apply IH; rewrite ?len_takeZ, ?len_dropZ; lia.
Qed.

Lemma root_fuel_root d f l :
  0 < len l ≤ 2 ^ Z.of_nat d → (d < f)%nat → root_fuel f l = root l.
Proof.
  intros [Hl Hd] Hf. pose proof (depth_enough (len l) Hl).
  apply (root_fuel_enough (d `min` pred (depth (len l)))); [|unfold depth; lia..].
  destruct (Nat.min_spec d (pred (depth (len l)))) as [[? ->] | [? ->]]; lia.
Qed.

Lemma root_split l :
  1 < len l →
  root l = node_hash (root (takeZ (split (len l)) l)) (root (dropZ (split (len l)) l)).
Proof.
  intros H1. pose proof (split_bounds _ H1). unfold root. unfold depth at 1.
  set (d := Z.to_nat (Z.log2_up (len l))). pose proof (depth_enough (len l) ltac:(lia)) as Hd.
  unfold depth in Hd. cbn [pred] in Hd. fold d in Hd.
  destruct l as [|a [|b l]]; [by rewrite len_nil in H1|by rewrite len_cons, len_nil in H1|].
  cbn [root_fuel]. set (k := a :: b :: l) in *.
  assert (d ≠ 0%nat) by (intros Hz; rewrite Hz in Hd; change (2 ^ Z.of_nat 0) with 1 in Hd; lia).
  destruct d as [|d]; [done|]. pose proof (split_depth (len k) d ltac:(lia)).
  by rewrite !(root_fuel_root d) by (rewrite ?len_takeZ, ?len_dropZ; lia).
Qed.

Lemma root_one a : root [a] = a.
Proof. done. Qed.

Lemma node_hash_len l r : len (node_hash l r) = HASH_BYTES.
Proof. apply sha256_len. Qed.

Lemma root_len l : 0 < len l → Forall (λ a, len a = HASH_BYTES) l → len (root l) = HASH_BYTES.
Proof.
  intros Hl Hall. destruct (Z.eq_dec (len l) 1) as [H1|].
  - destruct (len_one_inv l H1) as [a ->]. by apply Forall_cons in Hall as [? _].
  - rewrite root_split by lia. apply node_hash_len.
Qed.

(** ** Collisions *)

(** Two different inputs with one digest, the first hashed by one party and
    the second by the other. *)
Definition collision (xs ys : list bytes) : Prop :=
  ∃ x y, x ∈ xs ∧ y ∈ ys ∧ x ≠ y ∧ sha256 x = sha256 y.

Definition node_input (l r : Hash) : bytes := [0x01] ++ l ++ r.

(** What [root_from_leaf_hashes] hashes. *)
Fixpoint tree_inputs (fuel : nat) (leaves : list Hash) : list bytes :=
  match fuel with
  | O => []
  | S fuel =>
      if len leaves <=? 1 then []
      else
        let l := takeZ (split (len leaves)) leaves in
        let r := dropZ (split (len leaves)) leaves in
        node_input (root l) (root r) :: tree_inputs fuel l ++ tree_inputs fuel r
  end.

(** What [inclusion_root] hashes. *)
Fixpoint inclusion_inputs (fuel : nat) (leaf : Hash) (leaf_index tree_size : Z) (proof : list Hash)
    (proof_index : Z) : list bytes :=
  match fuel with
  | O => []
  | S fuel =>
      if tree_size =? 1 then []
      else
        let k := split tree_size in
        let i := if leaf_index <? k then leaf_index else leaf_index - k in
        let n := if leaf_index <? k then k else tree_size - k in
        inclusion_inputs fuel leaf i n proof proof_index ++
        match inclusion_root fuel leaf i n proof proof_index with
        | Some (x, j) =>
            match proof !! Z.to_nat j with
            | Some y => [if leaf_index <? k then node_input x y else node_input y x]
            | None => []
            end
        | None => []
        end
  end.

Lemma collision_mono xs xs' ys ys' :
  xs ⊆ xs' → ys ⊆ ys' → collision xs ys → collision xs' ys'.
Proof. intros Hx Hy (x & y & Hin & Hiy & Hne). exists x, y. split_and!; [by apply Hx|by apply Hy|apply Hne..]. Qed.

(** Equal digests of two nodes come from equal children. *)
Lemma node_hash_inj xs ys l r l' r' :
  len l = len l' → node_input l r ∈ xs → node_input l' r' ∈ ys →
  node_hash l r = node_hash l' r' → (l = l' ∧ r = r') ∨ collision xs ys.
Proof.
  intros Hl Hx Hy Heq. destruct (decide (node_input l r = node_input l' r')) as [Hi|Hi].
  - left. injection Hi as Hi. apply app_inj_1 in Hi; [done|]. unfold len in Hl. lia.
  - right. by exists (node_input l r), (node_input l' r').
Qed.

Lemma leaf_hash_inj xs ys e e' :
  [0x00] ++ e ∈ xs → [0x00] ++ e' ∈ ys → leaf_hash e = leaf_hash e' → e = e' ∨ collision xs ys.
Proof.
  intros Hx Hy Heq. destruct (decide (e = e')) as [->|Hne]; [by left|right].
  exists ([0x00] ++ e), ([0x00] ++ e'). split_and!; [done|done|by intros [= ?]|done].
Qed.

(** ** Completeness *)

Lemma inclusion_root_build d : ∀ f f' (l : list Hash) i leaf post,
  0 ≤ i < len l → len l ≤ 2 ^ Z.of_nat d → (d < f)%nat → (d < f')%nat → l !! Z.to_nat i = Some leaf →
  let p := build_inclusion_proof f' l i [] in
  inclusion_root f leaf i (len l) (p ++ post) 0 = Some (root l, len p).
Proof.
  induction d as [|d IH]; intros [|f] [|f'] l i leaf post Hi Hl Hf Hf' Hleaf; try lia;
    cbn [inclusion_root build_inclusion_proof].
  all: destruct (Z.eqb_spec (len l) 1) as [H1|H1];
    [destruct (len_one_inv l H1) as [a ->]; replace i with 0 in * by lia; by injection Hleaf as ->|].
  { change (2 ^ Z.of_nat 0) with 1 in Hl. lia. }
  pose proof (split_bounds (len l) ltac:(lia)). pose proof (split_depth (len l) d ltac:(lia)).
  set (k := split (len l)) in *. rewrite (root_split l) by lia. fold k.
  destruct (Z.ltb_spec i k).
  - assert (len (takeZ k l) = k) as Hk by (apply len_takeZ; lia).
    specialize (IH f f' (takeZ k l) i leaf (root (dropZ k l) :: post)). rewrite Hk in IH.
    rewrite <- app_assoc. cbn [app]. rewrite IH; [|try lia..].
    + cbn. unfold len. rewrite Nat2Z.id, list_lookup_middle by done. cbn. rewrite length_app. cbn. do 2 f_equal. lia.
    + unfold takeZ. rewrite lookup_take_lt by lia. done.
  - assert (len (dropZ k l) = len l - k) as Hk by (apply len_dropZ; lia).
    specialize (IH f f' (dropZ k l) (i - k) leaf (root (takeZ k l) :: post)). rewrite Hk in IH.
    rewrite <- app_assoc. cbn [app]. rewrite IH; [|try lia..].
    + cbn. unfold len. rewrite Nat2Z.id, list_lookup_middle by done. cbn. rewrite length_app. cbn. do 2 f_equal. lia.
    + unfold dropZ. rewrite lookup_drop. rewrite <- Hleaf. f_equal. lia.
Qed.

(** ** Soundness *)

Abbreviation hashes := (Forall (λ a : Hash, len a = HASH_BYTES)).

Lemma inclusion_root_len f leaf i n proof j r j' :
  len leaf = HASH_BYTES → inclusion_root f leaf i n proof j = Some (r, j') → len r = HASH_BYTES.
Proof.
  intros Hleaf. destruct f as [|f]; [done|]. cbn [inclusion_root].
  destruct (n =? 1); [destruct (i =? 0); [by intros [= <- _]|done]|].
  destruct (i <? _); intros ([x jx] & _ & (y & _ & [= <- _])%bind_Some)%bind_Some; apply node_hash_len.
Qed.

Lemma inclusion_root_sound d : ∀ f f' (l : list Hash) i leaf proof j0 j,
  0 ≤ i < len l → len l ≤ 2 ^ Z.of_nat d → (d < f)%nat → (d < f')%nat →
  len leaf = HASH_BYTES → hashes proof → hashes l →
  inclusion_root f leaf i (len l) proof j0 = Some (root l, j) →
  l !! Z.to_nat i = Some leaf
  ∨ collision (inclusion_inputs f leaf i (len l) proof j0) (tree_inputs f' l).
Proof.
  induction d as [|d IH]; intros [|f] [|f'] l i leaf proof j0 j Hi Hl Hf Hf' Hleaf Hp Hls; try lia;
    cbn [inclusion_root inclusion_inputs tree_inputs].
  all: destruct (Z.eqb_spec (len l) 1) as [H1|H1];
    [destruct (len_one_inv l H1) as [a ->]; replace i with 0 in * by lia; intros [= -> _]; by left|].
  { change (2 ^ Z.of_nat 0) with 1 in Hl. lia. }
  pose proof (split_bounds (len l) ltac:(lia)). pose proof (split_depth (len l) d ltac:(lia)).
  rewrite (root_split l) by lia. rewrite (proj2 (Z.leb_gt _ _)) by lia. set (k := split (len l)) in *.
  assert (len (takeZ k l) = k) as Ht by (apply len_takeZ; lia).
  assert (len (dropZ k l) = len l - k) as Hd by (apply len_dropZ; lia).
  assert (hashes (takeZ k l) ∧ hashes (dropZ k l)) as [Hht Hhd] by (split; [by apply Forall_take|by apply Forall_drop]).
  destruct (Z.ltb_spec i k); intros ([x jx] & Hx & (y & Hy & [= Heq _])%bind_Some)%bind_Some;
    rewrite Hx; rewrite Hy.
  - eapply node_hash_inj in Heq as [[-> _]|Hc]; [|by right; exact Hc| |set_solver+..].
    + destruct (IH f f' (takeZ k l) i leaf proof j0 jx) as [Hin|Hc]; rewrite ?Ht; try done; try lia.
      * left. rewrite <- Hin. unfold takeZ. by rewrite lookup_take_lt by lia.
      * right. rewrite Ht in Hc. eapply collision_mono; [..|exact Hc]; set_solver+.
    + rewrite (inclusion_root_len _ _ _ _ _ _ _ _ Hleaf Hx), root_len; [done|lia|done].
  - eapply node_hash_inj in Heq as [[_ ->]|Hc]; [|by right; exact Hc| |set_solver+..].
    + destruct (IH f f' (dropZ k l) (i - k) leaf proof j0 jx) as [Hin|Hc]; rewrite ?Hd; try done; try lia.
      * left. rewrite <- Hin. unfold dropZ. rewrite lookup_drop. f_equal. lia.
      * right. rewrite Hd in Hc. eapply collision_mono; [..|exact Hc]; set_solver+.
    + rewrite root_len; [|lia|done]. exact (Forall_lookup_1 _ _ _ _ Hp Hy).
Qed.

(** ** Theorems *)

(** [inclusion_proof] of a leaf of the tree succeeds, and
    [verify_inclusion] accepts what it gives. *)
Theorem inclusion_proof_verifies leaves i leaf :
  0 ≤ i < len leaves → leaves !! Z.to_nat i = Some leaf →
  ∃ p, inclusion_proof leaves i = Ok p ∧ verify_inclusion leaf i (len leaves) p (root leaves) = true.
Proof.
  intros Hi Hleaf. unfold inclusion_proof, verify_inclusion.
  rewrite (proj2 (is_empty_false leaves)), (proj2 (Z.leb_gt _ _)), (proj2 (Z.eqb_neq _ _)) by lia. cbn [orb].
  eexists. split; [reflexivity|]. pose proof (depth_enough (len leaves) ltac:(lia)) as Hd.
  pose proof (inclusion_root_build _ (depth (len leaves)) (depth (len leaves)) leaves i leaf [] Hi Hd
    ltac:(unfold depth; lia) ltac:(unfold depth; lia) Hleaf) as Hb.
  cbn zeta in Hb. rewrite app_nil_r in Hb. rewrite Hb, Z.eqb_refl. by apply bool_decide_eq_true.
Qed.

(** C22 (safety).  An accepted inclusion proof is for the entry at that index
    of the log, whatever the proof holds, unless the verifier and the log have
    hashed two different inputs to one digest. *)
Theorem inclusion_proof_sound entries i e proof :
  hashes proof →
  verify_inclusion (leaf_hash e) i (len entries) proof (tree_hash entries) = true → 0 ≤ i →
  entries !! Z.to_nat i = Some e
  ∨ collision
      (([0x00] ++ e) :: inclusion_inputs (depth (len entries)) (leaf_hash e) i (len entries) proof 0)
      (map (app [0x00]) entries ++ tree_inputs (depth (len entries)) (map leaf_hash entries)).
Proof.
  intros Hp Hv Hi. unfold verify_inclusion, tree_hash in Hv.
  destruct (Z.eqb_spec (len entries) 0); [done|]. cbn [orb] in Hv.
  destruct (Z.leb_spec (len entries) i); [done|].
  destruct (inclusion_root _ _ _ _ _ _) as [[r j]|] eqn:Hr; [|done].
  apply andb_true_iff in Hv as [_ ->%bool_decide_eq_true].
  assert (len (map leaf_hash entries) = len entries) as Hl by (unfold len; by rewrite length_map).
  rewrite <- Hl in Hr.
  eapply (inclusion_root_sound _ _ (depth (len entries))) in Hr as [Hr|Hc]; rewrite ?Hl;
    [..|lia|apply depth_enough; lia|unfold depth; lia|unfold depth; lia|apply sha256_len|done|].
  - change (map leaf_hash entries) with (leaf_hash <$> entries) in Hr.
    rewrite list_lookup_fmap in Hr. apply fmap_Some in Hr as (e' & He & Heq).
    edestruct leaf_hash_inj as [->|Hc]; [| |exact Heq|by left|right; exact Hc]; [set_solver+|].
    apply elem_of_app. left. apply (list_elem_of_fmap_2 (app [0x00])). by eapply list_elem_of_lookup_2.
  - right. rewrite Hl in Hc. eapply collision_mono; [..|exact Hc]; set_solver+.
  - apply Forall_forall. intros x (e' & -> & _)%list_elem_of_fmap. apply sha256_len.
Qed.
End proofs.

(** A digest of the right shape, to evaluate the definitions with. *)
#[refine] Instance toy_sha256 : Sha256 :=
  {| sha256 m := be_bytes 32 (fold_left (λ h b, (h * 1099511628211 + b + 1) mod 2 ^ 256) m 7) |}.
Proof.
  - intros m. unfold len. by rewrite be_bytes_length.
  - intros m. apply be_bytes_is_byte.
Defined.

Definition demo_entries : list bytes := [[1]; [2]; [3]; [4]; [5]].
Definition demo_leaves : list Hash := map leaf_hash demo_entries.

Lemma inclusion_proof_verifies_witness :
  ∃ p, inclusion_proof demo_leaves 4 = Ok p
       ∧ verify_inclusion (leaf_hash [5]) 4 (len demo_leaves) p (root_from_leaf_hashes demo_leaves) = true.
Proof. apply (inclusion_proof_verifies demo_leaves 4); [split; vm_compute; congruence|reflexivity]. Defined.

Lemma inclusion_proof_sound_witness :
  demo_entries !! 2%nat = Some [3]
  ∨ collision
      (([0x00] ++ [3]) :: inclusion_inputs (depth 5) (leaf_hash [3]) 2 5
         (match inclusion_proof demo_leaves 2 with Ok p => p | Err _ => [] end) 0)
      (map (app [0x00]) demo_entries ++ tree_inputs (depth 5) (map leaf_hash demo_entries)).
Proof.
  apply (inclusion_proof_sound demo_entries 2 [3]
           (match inclusion_proof demo_leaves 2 with Ok p => p | Err _ => [] end)).
  - apply (bool_decide_unpack _). vm_compute. exact I.
  - vm_compute. reflexivity.
  - lia.
Defined.
