(* ===== verification/CtConsistency.v ===== *)
(** * Consistency proofs: complete, and sound up to a collision

    [verify_consistency] walks the bits of the two tree sizes from the bottom
    of the tree; [consistency_proof] recurses from the top.  [shape] is the
    recursion's view of a proof: whether it starts with a seed, and on which
    side of the path each following node stands.  The verifier's walk is shown
    to follow the same shape, and both directions are then inductions on it. *)

From S2P Require Import Prelude Bytes CtCodec CtMerkle CtInclusion.

(** ** Bits *)

Lemma land_1 f : Z.land f 1 = f mod 2.
Proof. change 1 with (Z.ones 1) at 1. by rewrite Z.land_ones. Qed.

Lemma shiftr_1 f : Z.shiftr f 1 = f / 2.
Proof. by rewrite Z.shiftr_div_pow2. Qed.

Lemma bits_half f : 2 ≤ f → bits f = S (bits (f / 2)).
Proof.
  intros. unfold bits. f_equal. rewrite <- shiftr_1, Z.log2_shiftr by lia.
  assert (1 ≤ Z.log2 f) by (change 1 with (Z.log2 2); by apply Z.log2_le_mono). lia.
Qed.

Lemma skip_ones_eq f s :
  0 ≤ f →
  skip_ones (bits f) f s =
    if f mod 2 =? 1 then skip_ones (bits (f / 2)) (f / 2) (s / 2) else (f, s).
Proof.
  intros Hf. destruct (Z.le_gt_cases 2 f) as [H2|].
  - rewrite bits_half by done. cbn [skip_ones]. by rewrite land_1, !shiftr_1.
  - assert (f = 0 ∨ f = 1) as [-> | ->] by lia; [done|].
    change ((0, Z.shiftr s 1) = (0, s / 2)). by rewrite shiftr_1.
Qed.

Lemma skip_zeros_eq f s :
  0 ≤ f →
  skip_zeros (bits f) f s =
    if negb (f =? 0) && (f mod 2 =? 0) then skip_zeros (bits (f / 2)) (f / 2) (s / 2) else (f, s).
Proof.
  intros Hf. destruct (Z.le_gt_cases 2 f) as [H2|].
  - rewrite bits_half by done. cbn [skip_zeros]. by rewrite land_1, !shiftr_1.
  - assert (f = 0 ∨ f = 1) as [-> | ->] by lia; done.
Qed.

Lemma pow2_S e : 2 ^ Z.of_nat (S e) = 2 * 2 ^ Z.of_nat e.
Proof. rewrite Nat2Z.inj_succ, Z.pow_succ_r; lia. Qed.

Lemma pow2_pos e : 0 < 2 ^ Z.of_nat e.
Proof. apply Z.pow_pos_nonneg; lia. Qed.

(** ** The verifier's walk *)

(** Where the walk is after a node on the left. *)
Definition climb (f s : Z) : Z * Z :=
  let '(f, s) := skip_zeros (bits f) f s in (f / 2, s / 2).

(** [walk f s ds]: from [first = f] and [second = s] the loop consumes one node
    for each of [ds], [true] for a node on the left, and ends with
    [second = 0]. *)
Inductive walk : Z → Z → list bool → Prop :=
  | walk_done f : walk f 0 []
  | walk_left f s ds :
      s ≠ 0 → (f mod 2 =? 1) || (f =? s) = true → walk (climb f s).1 (climb f s).2 ds →
      walk f s (true :: ds)
  | walk_right f s ds :
      s ≠ 0 → (f mod 2 =? 1) || (f =? s) = false → walk (f / 2) (s / 2) ds → walk f s (false :: ds).

(** The walk from the start, past the trailing ones; the flag says whether the
    proof starts with a seed. *)
Inductive start : Z → Z → bool → list bool → Prop :=
  | start_skip f s b ds : f mod 2 = 1 → start (f / 2) (s / 2) b ds → start f s b ds
  | start_here f s ds : f mod 2 = 0 → walk f s ds → start f s (negb (f =? 0)) ds.

Lemma start_skip_ones f s b ds :
  0 ≤ f → start f s b ds →
  let '(f', s') := skip_ones (bits f) f s in b = negb (f' =? 0) ∧ walk f' s' ds.
Proof.
  intros Hf Hs. revert Hf. induction Hs as [f s b ds Ho Hs IH|f s ds He Hw]; intros Hf.
  - rewrite skip_ones_eq, Ho by done. apply IH. div_lia.
  - by rewrite skip_ones_eq, He by done.
Qed.

Lemma climb_odd f s : 0 ≤ f → f mod 2 = 1 → climb f s = (f / 2, s / 2).
Proof.
  intros Hf Ho. unfold climb. rewrite skip_zeros_eq, Ho by done. by rewrite andb_false_r.
Qed.

Lemma climb_even f s : 0 < f → f mod 2 = 0 → climb f s = climb (f / 2) (s / 2).
Proof.
  intros Hf He. unfold climb. rewrite skip_zeros_eq, He by lia.
  by rewrite (proj2 (Z.eqb_neq _ _)) by lia.
Qed.

(** The step from the whole range below [2 ^ e] to a larger right border. *)
Lemma walk_extend_left e : ∀ f r ds,
  0 ≤ f < 2 ^ Z.of_nat e → 0 ≤ r < 2 ^ Z.of_nat e →
  walk f (2 ^ Z.of_nat e - 1) ds → walk f (2 ^ Z.of_nat e + r) (ds ++ [false]).
Proof.
  induction e as [|e IH]; intros f r ds Hf Hr Hw.
  - change (2 ^ Z.of_nat 0) with 1 in *. assert (f = 0) as -> by lia. assert (r = 0) as -> by lia.
    inversion Hw; subst; try lia. apply walk_right; [lia|done|]. apply walk_done.
  - rewrite pow2_S in *. pose proof (pow2_pos e). set (E := 2 ^ Z.of_nat e) in *.
    inversion Hw as [|? ? ds' Hs Hc Hw'|? ? ds' Hs Hc Hw']; subst; [lia|..].
    + assert (f mod 2 = 1) as Ho.
      { apply orb_true_iff in Hc as [Hc%Z.eqb_eq|Hc%Z.eqb_eq]; [done|div_lia]. }
      rewrite climb_odd in Hw' by (done || lia). cbn [app]. apply walk_left; [lia|by rewrite Ho|].
      rewrite climb_odd by (done || lia). cbn [fst snd] in *.
      replace ((2 * E + r) / 2) with (E + r / 2) by div_lia. apply IH; [div_lia..|].
      by replace (E - 1) with ((2 * E - 1) / 2) by div_lia.
    + apply orb_false_iff in Hc as [Hc _]. cbn [app]. apply walk_right; [lia| |].
      { rewrite Hc. cbn [orb]. apply Z.eqb_neq. lia. }
      replace ((2 * E + r) / 2) with (E + r / 2) by div_lia. apply IH; [div_lia..|].
      by replace (E - 1) with ((2 * E - 1) / 2) by div_lia.
Qed.

Lemma climb_pow2 e : climb (2 ^ Z.of_nat e) (2 ^ Z.of_nat e) = (0, 0).
Proof.
  induction e as [|e IH]; [done|]. rewrite pow2_S. pose proof (pow2_pos e).
  rewrite climb_even by div_lia. by rewrite (Z.mul_comm 2), Z.div_mul by lia.
Qed.

Lemma climb_above e : ∀ f,
  0 < f < 2 ^ Z.of_nat e →
  ∃ e', climb (2 ^ Z.of_nat e + f) (2 ^ Z.of_nat e + f)
        = (2 ^ Z.of_nat e' + (climb f f).1, 2 ^ Z.of_nat e' + (climb f f).2)
        ∧ (e' < e)%nat ∧ 0 ≤ (climb f f).1 < 2 ^ Z.of_nat e' ∧ (climb f f).1 = (climb f f).2.
Proof.
  induction e as [|e IH]; intros f Hf; [change (2 ^ Z.of_nat 0) with 1 in Hf; lia|].
  rewrite pow2_S in *. pose proof (pow2_pos e). set (E := 2 ^ Z.of_nat e) in *.
  destruct (Z.eq_dec (f mod 2) 1) as [Ho|He].
  - exists e. fold E. rewrite !climb_odd by div_lia. cbn [fst snd].
    replace ((2 * E + f) / 2) with (E + f / 2) by div_lia. split_and!; [done|lia|div_lia..|done].
  - rewrite (climb_even (2 * E + f)), (climb_even f) by div_lia.
    replace ((2 * E + f) / 2) with (E + f / 2) by div_lia.
    destruct (IH (f / 2)) as (e' & Heq & ? & ?); [div_lia|]. exists e'. split_and!; [done|lia|tauto..].
Qed.

(** The step from the part above [2 ^ e] to the whole. *)
Lemma walk_extend_right e : ∀ f s ds,
  0 ≤ f ≤ s → s < 2 ^ Z.of_nat e → walk f s ds →
  walk (2 ^ Z.of_nat e + f) (2 ^ Z.of_nat e + s) (ds ++ [true]).
Proof.
  induction e as [e IH] using (well_founded_induction lt_wf); intros f s ds Hf Hs Hw.
  pose proof (pow2_pos e). inversion Hw as [|? ? ds' Hs0 Hc Hw'|? ? ds' Hs0 Hc Hw']; subst.
  - assert (f = 0) as -> by lia. rewrite Z.add_0_r. apply walk_left; [lia| |].
    + rewrite Z.eqb_refl. apply orb_true_r.
    + rewrite climb_pow2. apply walk_done.
  - destruct e as [|e]; [change (2 ^ Z.of_nat 0) with 1 in Hs; lia|].
    rewrite pow2_S in *. pose proof (pow2_pos e).
    destruct (Z.eq_dec (f mod 2) 1) as [Ho|He].
    + rewrite climb_odd in Hw' by (done || lia). apply walk_left; [lia| |].
      { replace ((2 * 2 ^ Z.of_nat e + f) mod 2) with 1 by div_lia. done. }
      rewrite climb_odd by div_lia. cbn [fst snd] in *.
      replace ((2 * 2 ^ Z.of_nat e + f) / 2) with (2 ^ Z.of_nat e + f / 2) by div_lia.
      replace ((2 * 2 ^ Z.of_nat e + s) / 2) with (2 ^ Z.of_nat e + s / 2) by div_lia.
      apply IH; [lia|div_lia..|done].
    + assert (f = s) as <-. { apply orb_true_iff in Hc as [?%Z.eqb_eq|?%Z.eqb_eq]; [done|done]. }
      apply walk_left; [lia|by rewrite Z.eqb_refl, orb_true_r|].
      destruct (climb_above (S e) f) as (e' & Heq & Hlt & Hb & Hsame); [rewrite pow2_S; lia|].
      rewrite pow2_S in Heq. rewrite Heq. cbn [fst snd]. apply IH; [lia|lia|lia|done].
  - destruct e as [|e]; [change (2 ^ Z.of_nat 0) with 1 in Hs; lia|].
    rewrite pow2_S in *. pose proof (pow2_pos e).
    apply orb_false_iff in Hc as [Hc1%Z.eqb_neq Hc2%Z.eqb_neq]. apply walk_right; [lia| |].
    { apply orb_false_iff. split; apply Z.eqb_neq; [div_lia|lia]. }
    replace ((2 * 2 ^ Z.of_nat e + f) / 2) with (2 ^ Z.of_nat e + f / 2) by div_lia.
    replace ((2 * 2 ^ Z.of_nat e + s) / 2) with (2 ^ Z.of_nat e + s / 2) by div_lia.
    apply IH; [lia|div_lia..|done].
Qed.

Lemma start_extend_left e : ∀ f r b ds,
  0 ≤ f < 2 ^ Z.of_nat e → 0 ≤ r < 2 ^ Z.of_nat e →
  start f (2 ^ Z.of_nat e - 1) b ds → start f (2 ^ Z.of_nat e + r) b (ds ++ [false]).
Proof.
  induction e as [|e IH]; intros f r b ds Hf Hr Hs.
  - change (2 ^ Z.of_nat 0) with 1 in *. inversion Hs; subst; [assert (f = 0) as -> by lia; done|].
    by apply start_here, (walk_extend_left 0).
  - inversion Hs as [? ? ? ? Ho Hs'|? ? ? He Hw]; subst; [|by apply start_here, walk_extend_left].
    apply start_skip; [done|]. rewrite pow2_S in *. pose proof (pow2_pos e).
    replace ((2 * 2 ^ Z.of_nat e + r) / 2) with (2 ^ Z.of_nat e + r / 2) by div_lia.
    apply IH; [div_lia..|]. by replace (2 ^ Z.of_nat e - 1) with ((2 * 2 ^ Z.of_nat e - 1) / 2) by div_lia.
Qed.

Lemma start_extend_right e : ∀ f s b ds,
  0 ≤ f < s → s < 2 ^ Z.of_nat e → start f s b ds →
  start (2 ^ Z.of_nat e + f) (2 ^ Z.of_nat e + s) true (ds ++ [true]).
Proof.
  induction e as [|e IH]; intros f s b ds Hf Hlt Hs; [change (2 ^ Z.of_nat 0) with 1 in *; lia|].
  pose proof (pow2_S e) as HS. pose proof (pow2_pos e).
  inversion Hs as [? ? ? ? Ho Hs'|? ? ? He Hw]; subst.
  - apply start_skip; [div_lia|].
    replace ((2 ^ Z.of_nat (S e) + f) / 2) with (2 ^ Z.of_nat e + f / 2) by div_lia.
    replace ((2 ^ Z.of_nat (S e) + s) / 2) with (2 ^ Z.of_nat e + s / 2) by div_lia.
    apply (IH _ _ b); [div_lia..|done].
  - replace true with (negb (2 ^ Z.of_nat (S e) + f =? 0)) at 1
      by (rewrite (proj2 (Z.eqb_neq _ _)) by lia; done).
    apply start_here; [div_lia|]. apply walk_extend_right; [lia|lia|done].
Qed.

(** ** The shape of a proof *)

Inductive shape : Z → Z → bool → list bool → Prop :=
  | shape_whole d : shape (2 ^ Z.of_nat d) (2 ^ Z.of_nat d) false []
  | shape_left m n b ds :
      0 < m ≤ split n → 1 < n → shape m (split n) b ds → shape m n b (ds ++ [false])
  | shape_right m n b ds :
      split n < m < n → 1 < n → shape (m - split n) (n - split n) b ds → shape m n true (ds ++ [true]).

Lemma split_is_pow2 n : 1 < n → ∃ d, split n = 2 ^ Z.of_nat d.
Proof.
  intros. exists (Z.to_nat (Z.log2 (n - 1))). by rewrite split_eq, Z2Nat.id by (done || apply Z.log2_nonneg).
Qed.

Lemma shape_exists n : 0 < n → ∀ m, 0 < m < n → ∃ b ds, shape m n b ds.
Proof.
  apply (split_ind (λ n, ∀ m, 0 < m < n → ∃ b ds, shape m n b ds)); [lia|].
  clear n. intros n Hn IH1 IH2 m Hm. destruct (Z.lt_trichotomy m (split n)) as [Hlt|[->|Hgt]].
  - destruct (IH1 m) as (b & ds & Hs); [lia|]. exists b, (ds ++ [false]). by apply shape_left; [lia..|].
  - destruct (split_is_pow2 n Hn) as [d Hd]. exists false, ([] ++ [false]). pose proof (split_bounds n Hn).
    apply shape_left; [lia|lia|]. rewrite Hd. apply shape_whole.
  - destruct (IH2 (m - split n)) as (b & ds & Hs); [lia|]. exists true, (ds ++ [true]).
    by apply (shape_right _ _ b); [lia..|].
Qed.

Lemma shape_le m n b ds : shape m n b ds → 0 < m ≤ n.
Proof.
  induction 1 as [d|m n b ds Hm Hn|m n b ds Hm Hn Hs IH]; 
    [pose proof (pow2_pos d); lia|pose proof (split_bounds n Hn); lia..].
Qed.

Lemma start_whole d : start (2 ^ Z.of_nat d - 1) (2 ^ Z.of_nat d - 1) false [].
Proof.
  induction d as [|d IH]; [exact (start_here 0 0 [] eq_refl (walk_done 0))|].
  rewrite pow2_S. pose proof (pow2_pos d). apply start_skip; [div_lia|].
  by replace ((2 * 2 ^ Z.of_nat d - 1) / 2) with (2 ^ Z.of_nat d - 1) by div_lia.
Qed.

Lemma shape_start m n b ds : shape m n b ds → start (m - 1) (n - 1) b ds.
Proof.
  induction 1 as [d|m n b ds Hm Hn Hs IH|m n b ds Hm Hn Hs IH]; [apply start_whole|..];
    pose proof (split_bounds n Hn); destruct (split_is_pow2 n Hn) as [e He]; rewrite He in *.
  - replace (n - 1) with (2 ^ Z.of_nat e + (n - 1 - 2 ^ Z.of_nat e)) by lia.
    apply start_extend_left; [lia|lia|done].
  - replace (m - 1) with (2 ^ Z.of_nat e + (m - 2 ^ Z.of_nat e - 1)) by lia.
    replace (n - 1) with (2 ^ Z.of_nat e + (n - 2 ^ Z.of_nat e - 1)) by lia.
    apply (start_extend_right e _ _ b); [lia|lia|done].
Qed.

Section proofs.
Context `{Sha256}.

Abbreviation root := root_from_leaf_hashes.
Abbreviation hashes := (Forall (λ a : Hash, len a = HASH_BYTES)).

(** ** What the loop computes *)

Definition apply_node (h : Hash * Hash) (x : bool * Hash) : Hash * Hash :=
  if x.1 then (node_hash x.2 h.1, node_hash x.2 h.2) else (h.1, node_hash h.2 x.2).

Definition chain_input (h : Hash) (x : bool * Hash) : bytes :=
  if x.1 then node_input x.2 h else node_input h x.2.

Fixpoint chain_inputs (xs : list (bool * Hash)) (h : Hash * Hash) : list bytes :=
  match xs with
  | [] => []
  | x :: xs => chain_input h.2 x :: chain_inputs xs (apply_node h x)
  end.

(** What [consistency_loop] hashes. *)
Fixpoint consistency_inputs (nodes : list Hash) (first second : Z) (first_hash second_hash : Hash)
    : list bytes :=
  match nodes with
  | [] => []
  | node :: nodes =>
      if second =? 0 then []
      else if (Z.land first 1 =? 1) || (first =? second) then
        let '(first, second) := skip_zeros (bits first) first second in
        [node_input node first_hash; node_input node second_hash] ++
        consistency_inputs nodes (Z.shiftr first 1) (Z.shiftr second 1)
          (node_hash node first_hash) (node_hash node second_hash)
      else
        node_input second_hash node ::
        consistency_inputs nodes (Z.shiftr first 1) (Z.shiftr second 1)
          first_hash (node_hash second_hash node)
  end.

Lemma consistency_loop_walk nodes : ∀ f s ds h1 h2,
  walk f s ds → length nodes = length ds →
  consistency_loop nodes f s h1 h2 =
    Some (0, (fold_left apply_node (zip ds nodes) (h1, h2)).1, (fold_left apply_node (zip ds nodes) (h1, h2)).2)
  ∧ chain_inputs (zip ds nodes) (h1, h2) ⊆ consistency_inputs nodes f s h1 h2.
Proof.
  induction nodes as [|x nodes IH]; intros f s ds h1 h2 Hw Hl;
    (inversion Hw as [|? ? ds' Hs Hc Hw'|? ? ds' Hs Hc Hw']; subst; try done);
    cbn [consistency_loop consistency_inputs];
    rewrite (proj2 (Z.eqb_neq _ _)), land_1, Hc by done.
  - unfold climb in Hw'. destruct (skip_zeros _ _ _) as [f' s'].
    cbn [fst snd] in Hw'. rewrite !shiftr_1.
    destruct (IH _ _ _ (node_hash x h1) (node_hash x h2) Hw' ltac:(by injection Hl)) as [-> Hsub].
    split; [done|]. cbn. set_solver +Hsub.
  - rewrite !shiftr_1. destruct (IH _ _ _ h1 (node_hash h2 x) Hw' ltac:(by injection Hl)) as [-> Hsub].
    split; [done|]. cbn. set_solver +Hsub.
Qed.

(** A proof of another length is refused. *)
Lemma consistency_loop_length nodes : ∀ f s ds h1 h2 a b,
  walk f s ds → consistency_loop nodes f s h1 h2 = Some (0, a, b) → length nodes = length ds.
Proof.
  induction nodes as [|x nodes IH]; intros f s ds h1 h2 a b Hw; cbn [consistency_loop].
  - intros [= -> _ _]. by inversion Hw.
  - inversion Hw as [|? ? ds' Hs Hc Hw'|? ? ds' Hs Hc Hw']; subst; [done|..];
      rewrite (proj2 (Z.eqb_neq _ _)), land_1, Hc by done.
    + unfold climb in Hw'. destruct (skip_zeros _ _ _) as [f' s'].
    cbn [fst snd] in Hw'. rewrite !shiftr_1.
      intros Hx. cbn. f_equal. by eapply IH.
    + rewrite !shiftr_1. intros Hx. cbn. f_equal. by eapply IH.
Qed.

(** ** Completeness *)

Lemma takeZ_takeZ {A} i k (l : list A) : 0 ≤ i ≤ k → takeZ i (takeZ k l) = takeZ i l.
Proof. intros. unfold takeZ. rewrite take_take. f_equal. lia. Qed.

(** A prefix longer than the left subtree keeps that subtree. *)
Lemma root_prefix l m :
  1 < len l → split (len l) < m ≤ len l →
  root (takeZ m l)
  = node_hash (root (takeZ (split (len l)) l)) (root (takeZ (m - split (len l)) (dropZ (split (len l)) l))).
Proof.
  intros Hl Hm. pose proof (split_bounds _ Hl). assert (len (takeZ m l) = m) as Hlen by (apply len_takeZ; lia).
  rewrite root_split by lia. rewrite Hlen, (split_same (len l)) by lia. f_equal.
  - by rewrite takeZ_takeZ by lia.
  - f_equal. unfold dropZ, takeZ. rewrite skipn_firstn_comm. f_equal. lia.
Qed.

Lemma fold_snoc ds p d x h :
  length p = length ds →
  fold_left apply_node (zip (ds ++ [d]) (p ++ [x])) h = apply_node (fold_left apply_node (zip ds p) h) (d, x).
Proof. intros Hl. by rewrite zip_with_app, fold_left_app by done. Qed.

Lemma shape_build m n b ds :
  shape m n b ds → ∀ l d f c, len l = n → n ≤ 2 ^ Z.of_nat d → (d < f)%nat →
  ∃ seed p, build_consistency_subproof f m l c [] = (if b || negb c then [seed] else []) ++ p
    ∧ (b || negb c = false → seed = root (takeZ m l)) ∧ length p = length ds
    ∧ fold_left apply_node (zip ds p) (seed, seed) = (root (takeZ m l), root l).
Proof.
  induction 1 as [e|m n b ds Hm Hn Hs IH|m n b ds Hm Hn Hs IH]; intros l d [|f] c Hl Hd Hf; try lia;
    cbn [build_consistency_subproof].
  - exists (root l), []. rewrite <- Hl, Z.eqb_refl, takeZ_all by lia. by destruct c.
  - rewrite Hl. pose proof (split_bounds n Hn). rewrite (proj2 (Z.eqb_neq _ _)), (proj2 (Z.leb_le _ _)) by lia.
    destruct d as [|d]; [change (2 ^ Z.of_nat 0) with 1 in Hd; lia|].
    pose proof (split_depth n d ltac:(lia)).
    destruct (IH (takeZ (split n) l) d f c) as (seed & p & Hb & Hseed & Hlen & Hfold);
      [apply len_takeZ; lia|lia|lia|]. rewrite takeZ_takeZ in Hseed, Hfold by lia.
    exists seed, (p ++ [root (dropZ (split n) l)]). rewrite Hb, fold_snoc, Hfold by done.
    split_and!; [by rewrite app_assoc|done|by rewrite !length_app, Hlen|].
    subst n. by rewrite (root_split l) by lia.
  - rewrite Hl. pose proof (split_bounds n Hn). rewrite (proj2 (Z.eqb_neq _ _)), (proj2 (Z.leb_gt _ _)) by lia.
    destruct d as [|d]; [change (2 ^ Z.of_nat 0) with 1 in Hd; lia|].
    pose proof (split_depth n d ltac:(lia)).
    destruct (IH (dropZ (split n) l) d f false) as (seed & p & Hb & _ & Hlen & Hfold);
      [rewrite len_dropZ; lia|lia|lia|]. rewrite orb_true_r in Hb.
    exists seed, (p ++ [root (takeZ (split n) l)]). rewrite Hb, fold_snoc, Hfold by done.
    split_and!; [done|done|by rewrite !length_app, Hlen|].
    subst n. by rewrite (root_prefix l m), (root_split l) by lia.
Qed.

(** ** Soundness *)

Lemma chain_inputs_app xs ys h :
  chain_inputs (xs ++ ys) h = chain_inputs xs h ++ chain_inputs ys (fold_left apply_node xs h).
Proof. revert h. induction xs as [|x xs IH]; intros h; cbn; by rewrite ?IH. Qed.

Lemma fold_second_len xs h :
  len h.2 = HASH_BYTES → len (fold_left apply_node xs h).2 = HASH_BYTES.
Proof.
  revert h. induction xs as [|[[] x] xs IH]; intros h Hh; cbn; [done|..]; apply IH, node_hash_len.
Qed.

Lemma tree_inputs_split f l :
  1 < len l →
  tree_inputs (S f) l
  = node_input (root (takeZ (split (len l)) l)) (root (dropZ (split (len l)) l))
    :: tree_inputs f (takeZ (split (len l)) l) ++ tree_inputs f (dropZ (split (len l)) l).
Proof. intros Hl. cbn [tree_inputs]. by rewrite (proj2 (Z.leb_gt _ _)) by lia. Qed.

Lemma shape_sound m n b ds :
  shape m n b ds → ∀ l d f seed p h1,
  len l = n → n ≤ 2 ^ Z.of_nat d → (d < f)%nat → length p = length ds →
  hashes l → hashes p → len seed = HASH_BYTES →
  fold_left apply_node (zip ds p) (seed, seed) = (h1, root l) →
  h1 = root (takeZ m l) ∨ collision (chain_inputs (zip ds p) (seed, seed)) (tree_inputs f l).
Proof.
  induction 1 as [e|m n b ds Hm Hn Hs IH|m n b ds Hm Hn Hs IH];
    intros l d [|f] seed p h1 Hl Hd Hf Hlen Hhl Hhp Hseed Hfold; try lia.
  { destruct p; [|done]. injection Hfold as -> ->. left. by rewrite takeZ_all by lia. }
  all: destruct p as [|y p _] using rev_ind; [by rewrite length_app in Hlen; cbn in Hlen; lia|].
  all: rewrite !length_app in Hlen; cbn in Hlen; assert (length p = length ds) as Hlen' by lia.
  all: apply Forall_app in Hhp as [Hhp [Hy _]%Forall_cons].
  all: rewrite fold_snoc in Hfold by done; subst n; rewrite (root_split l) in Hfold by done.
  all: pose proof (split_bounds _ Hn); rewrite tree_inputs_split, zip_with_app, chain_inputs_app by done.
  all: destruct d as [|d]; [change (2 ^ Z.of_nat 0) with 1 in Hd; lia|].
  all: pose proof (split_depth (len l) d ltac:(lia)); set (k := split (len l)) in *.
  all: assert (hashes (takeZ k l) ∧ hashes (dropZ k l)) as [Hht Hhd]
    by (split; [by apply Forall_take|by apply Forall_drop]).
  all: pose proof (fold_second_len (zip ds p) (seed, seed) Hseed) as Hx.
  all: destruct (fold_left apply_node (zip ds p) (seed, seed)) as [x1 x2] eqn:Hf';
    unfold apply_node in Hfold; cbn [fst snd] in Hfold, Hx; cbn [chain_inputs fst snd zip_with].
  - injection Hfold as -> Heq.
    eapply node_hash_inj in Heq as [[-> _]|Hc]; [|right; exact Hc| |set_solver+..].
    + destruct (IH (takeZ k l) d f seed p h1) as [->|Hc]; try done; try lia; [apply len_takeZ; lia|..].
      * left. by rewrite takeZ_takeZ by lia.
      * right. eapply collision_mono; [..|exact Hc]; set_solver+.
    + rewrite root_len; [done|rewrite len_takeZ; lia|done].
  - injection Hfold as <- Heq.
    eapply node_hash_inj in Heq as [[-> ->]|Hc]; [|right; exact Hc| |set_solver+..].
    + destruct (IH (dropZ k l) d f seed p x1) as [->|Hc]; try done; try lia; [apply len_dropZ; lia|..].
      * left. by rewrite (root_prefix l m) by lia.
      * right. eapply collision_mono; [..|exact Hc]; set_solver+.
    + rewrite root_len; [exact Hy|rewrite len_takeZ; lia|done].
Qed.

(** ** Theorems *)

(** The inputs [verify_consistency] hashes. *)
Definition verify_consistency_inputs (old_size new_size : Z) (old_root : Hash) (proof : list Hash)
    : list bytes :=
  let '(first, second) := skip_ones (bits (old_size - 1)) (old_size - 1) (new_size - 1) in
  match (if first =? 0 then Some (old_root, proof)
         else match proof with [] => None | seed :: nodes => Some (seed, nodes) end) with
  | None => []
  | Some (seed, nodes) => consistency_inputs nodes first second seed seed
  end.

(** C17 (functional).  [consistency_proof] succeeds for every earlier size of the
    tree, and [verify_consistency], which walks the sizes bit by bit, accepts
    it for the roots of the two trees. *)
Theorem consistency_proof_verifies leaves m :
  0 ≤ m ≤ len leaves →
  ∃ p, consistency_proof leaves m = Ok p
       ∧ verify_consistency m (len leaves) (root (takeZ m leaves)) (root leaves) p = true.
Proof.
  intros Hm. unfold consistency_proof, verify_consistency. rewrite (proj2 (Z.ltb_ge _ _)) by lia.
  destruct (Z.eqb_spec m 0) as [->|Hm0].
  { eexists. split; [done|]. cbn [is_empty andb]. rewrite bool_decide_eq_true_2 by done. cbn [andb].
    destruct (Z.eqb_spec (len leaves) 0) as [Hz|]; [|done]. rewrite (len_zero_inv _ Hz). by apply bool_decide_eq_true. }
  destruct (Z.eqb_spec m (len leaves)) as [->|Hne].
  { eexists. split; [done|]. rewrite takeZ_all by done. by apply bool_decide_eq_true. }
  cbn [orb]. destruct (shape_exists (len leaves) ltac:(lia) m ltac:(lia)) as (b & ds & Hs).
  destruct (shape_build _ _ _ _ Hs leaves _ (depth (len leaves)) true eq_refl
    (depth_enough (len leaves) ltac:(lia)) ltac:(unfold depth; lia)) as (seed & p & -> & Hseed & Hlen & Hfold).
  eexists. split; [done|]. rewrite orb_false_r in *.
  pose proof (start_skip_ones (m - 1) _ _ _ ltac:(lia) (shape_start _ _ _ _ Hs)) as Hst.
  destruct (skip_ones _ _ _) as [f s]. destruct Hst as [-> Hw].
  destruct (consistency_loop_walk p f s ds seed seed Hw Hlen) as [Hloop _]. rewrite Hfold in Hloop.
  destruct (f =? 0); cbn [negb app] in *; [rewrite <- (Hseed eq_refl)|]; rewrite Hloop;
    cbn [fst snd]; rewrite ?Hseed by done; by rewrite !bool_decide_eq_true_2 by done.
Qed.

(** C2 (safety).  The log is append-only: an accepted consistency proof means
    that the old root is the root of the first [m] entries of the new log,
    unless the verifier and the log have hashed two different inputs to one
    digest. *)
Theorem consistency_proof_sound entries m old_root proof :
  0 ≤ m → len old_root = HASH_BYTES → hashes proof →
  verify_consistency m (len entries) old_root (tree_hash entries) proof = true →
  old_root = tree_hash (takeZ m entries)
  ∨ collision (verify_consistency_inputs m (len entries) old_root proof)
      (tree_inputs (depth (len entries)) (map leaf_hash entries)).
Proof.
  intros Hm Hold Hp Hv. unfold verify_consistency in Hv. unfold verify_consistency_inputs, tree_hash in *.
  set (l := map leaf_hash entries) in *.
  assert (len l = len entries) as Hl by (unfold l, len; by rewrite length_map).
  assert (map leaf_hash (takeZ m entries) = takeZ m l) as -> by (unfold l, takeZ; by rewrite firstn_map).
  assert (hashes l) as Hhl.
  { apply Forall_forall. intros x (e & -> & _)%list_elem_of_fmap. apply sha256_len. }
  destruct (Z.ltb_spec (len entries) m); [done|]. destruct (Z.eqb_spec m 0) as [->|Hm0].
  { apply andb_true_iff in Hv as [[_ ->%bool_decide_eq_true]%andb_true_iff _]. by left. }
  destruct (Z.eqb_spec m (len entries)) as [->|Hne].
  { apply andb_true_iff in Hv as [_ ->%bool_decide_eq_true]. left. by rewrite takeZ_all by lia. }
  rewrite <- Hl in *. destruct (shape_exists (len l) ltac:(lia) m ltac:(lia)) as (b & ds & Hs).
  pose proof (start_skip_ones (m - 1) _ _ _ ltac:(lia) (shape_start _ _ _ _ Hs)) as Hst.
  destruct (skip_ones _ _ _) as [f s]. destruct Hst as [-> Hw].
  destruct (if f =? 0 then _ else _) as [[seed nodes]|] eqn:Hseed; [|done].
  assert (len seed = HASH_BYTES ∧ hashes nodes) as [Hsl Hnl].
  { destruct (f =? 0); [by injection Hseed as <- <-|]. destruct proof; [done|]. injection Hseed as <- <-.
    by apply Forall_cons in Hp. }
  destruct (consistency_loop nodes f s seed seed) as [[[z h1] h2]|] eqn:Hloop; [|done].
  apply andb_true_iff in Hv as [[->%Z.eqb_eq ->%bool_decide_eq_true]%andb_true_iff ->%bool_decide_eq_true].
  pose proof (consistency_loop_length _ _ _ _ _ _ _ _ Hw Hloop) as Hlen.
  destruct (consistency_loop_walk nodes f s ds seed seed Hw Hlen) as [Hfold Hsub].
  rewrite Hloop in Hfold. injection Hfold as H1 H2.
  destruct (shape_sound _ _ _ _ Hs l _ (depth (len l)) seed nodes old_root eq_refl
    (depth_enough (len l) ltac:(lia)) ltac:(unfold depth; lia) Hlen Hhl Hnl Hsl) as [Hx|Hc].
  - rewrite H1 at 1. rewrite H2. by destruct (fold_left _ _ _).
  - by left.
  - right. by eapply collision_mono; [exact Hsub| |exact Hc].
Qed.
End proofs.

Lemma consistency_proof_verifies_witness :
  ∃ p, consistency_proof demo_leaves 3 = Ok p
       ∧ verify_consistency 3 (len demo_leaves) (root_from_leaf_hashes (takeZ 3 demo_leaves))
           (root_from_leaf_hashes demo_leaves) p = true.
Proof. apply (consistency_proof_verifies demo_leaves 3). split; vm_compute; congruence. Defined.

Definition demo_consistency : list Hash :=
  match consistency_proof demo_leaves 3 with Ok p => p | Err _ => [] end.

Lemma consistency_proof_sound_witness :
  let old := tree_hash (takeZ 3 demo_entries) in
  old = tree_hash (takeZ 3 demo_entries)
  ∨ collision (verify_consistency_inputs 3 5 old demo_consistency)
      (tree_inputs (depth 5) (map leaf_hash demo_entries)).
Proof.
  apply (consistency_proof_sound demo_entries 3).
  - lia.
  - vm_compute. reflexivity.
  - apply (bool_decide_unpack _). vm_compute. exact I.
  - vm_compute. reflexivity.
Defined.
