(* ===== verification/Rfc6962.v ===== *)
(** * RFC 6962 Certificate Transparency v1 wire structures

    [src/source/crates/oxibelt-ct/src/rfc6962.rs]: log entries, Merkle leaves,
    signed inputs, signatures, SCTs and the JSON responses that carry them in
    base64. *)

From S2P Require Import Prelude Bytes Base64 CtCodec CtMerkle.

Definition VERSION_V1 : Z := 0.
Definition SIGNATURE_TYPE_CERTIFICATE_TIMESTAMP : Z := 0.
Definition SIGNATURE_TYPE_TREE_HASH : Z := 1.
Definition LOG_ENTRY_X509 : Z := 0.
Definition LOG_ENTRY_PRECERT : Z := 1.
Definition MERKLE_LEAF_TIMESTAMPED_ENTRY : Z := 0.
Definition HASH_ALGORITHM_SHA256 : Z := 4.
Definition SIGNATURE_ALGORITHM_RSA : Z := 1.
Definition SIGNATURE_ALGORITHM_ECDSA : Z := 3.

(** ** Log entries *)

Inductive SignedEntryV1 : Type :=
  | X509 (certificate : bytes)
  | Precertificate (issuer_key_hash : Hash) (tbs_certificate : bytes).

Definition entry_type (e : SignedEntryV1) : Z :=
  match e with
  | X509 _ => LOG_ENTRY_X509
  | Precertificate _ _ => LOG_ENTRY_PRECERT
  end.

Definition signed_entry_encode_to (output : bytes) (e : SignedEntryV1) : ct bytes :=
  match e with
  | X509 certificate => push_vector_u24 output certificate 1
  | Precertificate issuer_key_hash tbs_certificate =>
      push_vector_u24 (output ++ issuer_key_hash) tbs_certificate 1
  end.

Definition signed_entry_decode (type : Z) : reader SignedEntryV1 :=
  if type =? LOG_ENTRY_X509 then
    certificate ← vector_u24 1 U24_MAX;
    mret (X509 certificate)
  else if type =? LOG_ENTRY_PRECERT then
    taken ← reader_take 32;
    issuer_key_hash ← lift (to_array 32 taken "RFC 6962 issuer key hash must be 32 bytes"%string);
    tbs_certificate ← vector_u24 1 U24_MAX;
    mret (Precertificate issuer_key_hash tbs_certificate)
  else throw "unsupported RFC 6962 log entry type"%string.

Record TimestampedEntryV1 : Type := mkTimestampedEntryV1 {
  te_timestamp : Z;
  te_signed_entry : SignedEntryV1;
  te_extensions : bytes;
}.

Definition timestamped_entry_encode (t : TimestampedEntryV1) : ct bytes :=
  let output := [] ++ be_bytes 8 (te_timestamp t) in
  let output := output ++ be_bytes 2 (entry_type (te_signed_entry t)) in
  output ← signed_entry_encode_to output (te_signed_entry t);
  push_vector_u16 output (te_extensions t) 0.

Definition timestamped_entry_decode_from : reader TimestampedEntryV1 :=
  timestamp ← reader_u64;
  type ← reader_u16;
  signed_entry ← signed_entry_decode type;
  extensions ← vector_u16 0 U16_MAX;
  mret (mkTimestampedEntryV1 timestamp signed_entry extensions).

Definition timestamped_entry_decode (input : bytes) : ct TimestampedEntryV1 :=
  decode_whole timestamped_entry_decode_from input.

(** ** Merkle leaves *)

Record MerkleTreeLeafV1 : Type := mkMerkleTreeLeafV1 { leaf_entry : TimestampedEntryV1 }.

Definition merkle_leaf_encode (v : MerkleTreeLeafV1) : ct bytes :=
  body ← timestamped_entry_encode (leaf_entry v);
  Ok ([VERSION_V1] ++ [MERKLE_LEAF_TIMESTAMPED_ENTRY] ++ body).

Definition merkle_leaf_decode_from : reader MerkleTreeLeafV1 :=
  version ← reader_u8;
  if negb (version =? VERSION_V1) then throw "RFC 6962 Merkle leaf is not v1"%string
  else
    type ← reader_u8;
    if negb (type =? MERKLE_LEAF_TIMESTAMPED_ENTRY)
    then throw "unsupported RFC 6962 Merkle leaf type"%string
    else
      value ← timestamped_entry_decode_from;
      mret (mkMerkleTreeLeafV1 value).

Definition merkle_leaf_decode (input : bytes) : ct MerkleTreeLeafV1 :=
  decode_whole merkle_leaf_decode_from input.

(** ** Signed inputs *)

Definition encode_sct_signed_input (entry : TimestampedEntryV1) : ct bytes :=
  let output := [] ++ [VERSION_V1] ++ [SIGNATURE_TYPE_CERTIFICATE_TIMESTAMP] in
  let output := output ++ be_bytes 8 (te_timestamp entry) in
  let output := output ++ be_bytes 2 (entry_type (te_signed_entry entry)) in
  output ← signed_entry_encode_to output (te_signed_entry entry);
  push_vector_u16 output (te_extensions entry) 0.

Definition encode_sth_signed_input (timestamp tree_size : Z) (root_hash : Hash) : bytes :=
  [VERSION_V1] ++ [SIGNATURE_TYPE_TREE_HASH] ++ be_bytes 8 timestamp ++ be_bytes 8 tree_size
    ++ root_hash.

(** ** Signatures *)

Record DigitallySigned : Type := mkDigitallySigned {
  hash_algorithm : Z;
  signature_algorithm : Z;
  ds_signature : bytes;
}.

Definition known_signature_algorithm (a : Z) : bool :=
  (a =? SIGNATURE_ALGORITHM_RSA) || (a =? SIGNATURE_ALGORITHM_ECDSA).

Definition digitally_signed_encode (d : DigitallySigned) : ct bytes :=
  if negb (hash_algorithm d =? HASH_ALGORITHM_SHA256)
  then Err "RFC 6962 v1 requires SHA-256 signatures"%string
  else if negb (known_signature_algorithm (signature_algorithm d))
  then Err "unsupported RFC 6962 v1 signature algorithm"%string
  else push_vector_u16 [hash_algorithm d; signature_algorithm d] (ds_signature d) 1.

Definition digitally_signed_decode_from : reader DigitallySigned :=
  hash_algorithm ← reader_u8;
  if negb (hash_algorithm =? HASH_ALGORITHM_SHA256)
  then throw "RFC 6962 v1 requires SHA-256 signatures"%string
  else
    signature_algorithm ← reader_u8;
    if negb (known_signature_algorithm signature_algorithm)
    then throw "unsupported RFC 6962 v1 signature algorithm"%string
    else
      signature ← vector_u16 1 U16_MAX;
      mret (mkDigitallySigned hash_algorithm signature_algorithm signature).

Definition digitally_signed_decode (input : bytes) : ct DigitallySigned :=
  decode_whole digitally_signed_decode_from input.

(** ** Signed certificate timestamps *)

Record SignedCertificateTimestampV1 : Type := mkSctV1 {
  sct_log_id : Hash;
  sct_timestamp : Z;
  sct_extensions : bytes;
  sct_signature : DigitallySigned;
}.

Definition sct_v1_encode (s : SignedCertificateTimestampV1) : ct bytes :=
  let output := [] ++ [VERSION_V1] in
  let output := output ++ sct_log_id s in
  let output := output ++ be_bytes 8 (sct_timestamp s) in
  output ← push_vector_u16 output (sct_extensions s) 0;
  signature ← digitally_signed_encode (sct_signature s);
  Ok (output ++ signature).

Definition sct_v1_decode_from : reader SignedCertificateTimestampV1 :=
  version ← reader_u8;
  if negb (version =? VERSION_V1) then throw "SCT is not RFC 6962 v1"%string
  else
    taken ← reader_take 32;
    log_id ← lift (to_array 32 taken "RFC 6962 LogID must be 32 bytes"%string);
    timestamp ← reader_u64;
    extensions ← vector_u16 0 U16_MAX;
    signature ← digitally_signed_decode_from;
    mret (mkSctV1 log_id timestamp extensions signature).

Definition sct_v1_decode (input : bytes) : ct SignedCertificateTimestampV1 :=
  decode_whole sct_v1_decode_from input.

(** ** JSON responses

    Their text is base64. *)

Section json.
Context `{Base64}.

Definition decode_base64 (value : bytes) : ct bytes :=
  decoded ← ok_or (base64_decode value) "RFC 6962 JSON field is not base64"%string;
  if negb (bool_decide (base64_encode decoded = value))
  then Err "RFC 6962 JSON field is not canonical base64"%string
  else Ok decoded.

Record AddChainResponseV1 : Type := mkAddChainResponseV1 {
  ac_sct_version : Z;
  ac_id : bytes;
  ac_timestamp : Z;
  ac_extensions : bytes;
  ac_signature : bytes;
}.

Definition add_chain_from_sct (sct : SignedCertificateTimestampV1) : ct AddChainResponseV1 :=
  signature ← digitally_signed_encode (sct_signature sct);
  Ok (mkAddChainResponseV1 VERSION_V1 (base64_encode (sct_log_id sct)) (sct_timestamp sct)
        (base64_encode (sct_extensions sct)) (base64_encode signature)).

Definition add_chain_into_sct (a : AddChainResponseV1) : ct SignedCertificateTimestampV1 :=
  if negb (ac_sct_version a =? VERSION_V1) then Err "add-chain response is not RFC 6962 v1"%string
  else
    id ← decode_base64 (ac_id a);
    log_id ← to_array 32 id "RFC 6962 response LogID must be 32 bytes"%string;
    extensions ← decode_base64 (ac_extensions a);
    signature ← decode_base64 (ac_signature a);
    signature ← digitally_signed_decode signature;
    Ok (mkSctV1 log_id (ac_timestamp a) extensions signature).

Record GetSthResponseV1 : Type := mkGetSthResponseV1 {
  gs_tree_size : Z;
  gs_timestamp : Z;
  gs_sha256_root_hash : bytes;
  gs_tree_head_signature : bytes;
}.

Definition decode_root_and_signature (g : GetSthResponseV1) : ct (Hash * DigitallySigned) :=
  root ← decode_base64 (gs_sha256_root_hash g);
  root ← to_array 32 root "RFC 6962 STH root must be 32 bytes"%string;
  signature ← decode_base64 (gs_tree_head_signature g);
  signature ← digitally_signed_decode signature;
  Ok (root, signature).
End json.
