(* ===== verification/Rfc6962Codec.v ===== *)
(** * RFC 6962 structures have exactly one encoding

    Each decoder of [Rfc6962] accepts exactly the octets its encoder writes. *)

From S2P Require Import Prelude Bytes Base64 CtCodec CtWire CtMerkle Rfc6962.

(** ** Values of the Rust types, within the bounds of their vectors *)

Definition signed_entry_ok (e : SignedEntryV1) : Prop :=
  match e with
  | X509 certificate => vec 1 U24_MAX certificate
  | Precertificate issuer_key_hash tbs => octets 32 issuer_key_hash ∧ vec 1 U24_MAX tbs
  end.

Definition timestamped_entry_ok (t : TimestampedEntryV1) : Prop :=
  below (2 ^ 64) (te_timestamp t) ∧ signed_entry_ok (te_signed_entry t)
    ∧ vec 0 U16_MAX (te_extensions t).

Definition digitally_signed_ok (d : DigitallySigned) : Prop :=
  hash_algorithm d = HASH_ALGORITHM_SHA256 ∧ known_signature_algorithm (signature_algorithm d) = true
    ∧ vec 1 U16_MAX (ds_signature d).

Definition sct_v1_ok (s : SignedCertificateTimestampV1) : Prop :=
  octets 32 (sct_log_id s) ∧ below (2 ^ 64) (sct_timestamp s) ∧ vec 0 U16_MAX (sct_extensions s)
    ∧ digitally_signed_ok (sct_signature s).

(** ** Log entries *)

Definition x509_certificate (e : SignedEntryV1) : bytes :=
  match e with X509 certificate => certificate | _ => [] end.
Definition precert_hash (e : SignedEntryV1) : bytes :=
  match e with Precertificate issuer_key_hash _ => issuer_key_hash | _ => [] end.
Definition precert_tbs (e : SignedEntryV1) : bytes :=
  match e with Precertificate _ tbs => tbs | _ => [] end.

Lemma signed_entry_encode_app out e :
  signed_entry_encode_to out e = (x ← signed_entry_encode_to [] e; Ok (out ++ x)).
Proof.
  destruct e as [c|h t]; cbn; [apply push_vector_u24_app|].
  rewrite push_vector_u24_app, (push_vector_u24_app h). destruct (push_vector_u24 [] t 1); [|done].
  cbn. by rewrite app_assoc.
Qed.

(** What is left of a structure's domain once every field is known. *)
Ltac last_field := apply codec_ret; intros b; split; [|intros ->]; cbn in *.

Lemma signed_entry_codec type :
  codec (signed_entry_decode type) (signed_entry_encode_to [])
    (λ e, signed_entry_ok e ∧ entry_type e = type).
Proof.
  unfold signed_entry_decode. destruct (Z.eqb_spec type LOG_ENTRY_X509) as [->|Hx].
  - eapply (codec_ext _ _ _ (λ e, signed_entry_ok e ∧ entry_type e = LOG_ENTRY_X509)); [|done|].
    + eapply (codec_bind _ _ _ _ x509_certificate); [by apply (codec_vector_u24 1)| |].
      * by intros [c|h t] [He Ht].
      * intros c Hc. last_field; [|by split_and!]. by intros [[He Ht] <-]; destruct b.
    + intros [c|h t] [_ Ht]; [|done]. cbn [signed_entry_encode_to x509_certificate]. enc_fields.
  - destruct (Z.eqb_spec type LOG_ENTRY_PRECERT) as [->|Hp].
    + apply codec_assoc.
      eapply (codec_ext _ _ _ (λ e, signed_entry_ok e ∧ entry_type e = LOG_ENTRY_PRECERT)); [|done|].
      * eapply (codec_bind _ _ _ _ precert_hash); [by apply codec_array| |].
        { intros [c|h t] [He Ht]; [done|]. apply He. }
        intros h Hh. eapply (codec_bind _ _ _ _ precert_tbs); [by apply (codec_vector_u24 1)| |].
        { intros [c|h' t] [[He Ht] _]; [done|]. apply He. }
        intros t Htb. last_field; [|by split_and!]. by intros [[[He Ht] <-] <-]; destruct b.
      * intros [c|h t] [_ Ht]; [done|]. cbn [signed_entry_encode_to precert_hash precert_tbs].
        rewrite push_vector_u24_app. enc_fields.
    + split; [|done]. intros e r x k [_ Ht]. by destruct e.
Qed.

Lemma timestamped_entry_codec :
  codec timestamped_entry_decode_from timestamped_entry_encode timestamped_entry_ok.
Proof.
  unfold timestamped_entry_decode_from.
  eapply (codec_ext _ _ _ timestamped_entry_ok); [|done|].
  - eapply (codec_bind _ _ _ _ te_timestamp); [apply codec_u64|by intros t (? & ? & ?)|].
    intros timestamp Ht. eapply (codec_bind _ _ _ _ (λ t, entry_type (te_signed_entry t))); [apply codec_u16| |].
    { intros t _. by destruct (te_signed_entry t). }
    intros type _. eapply (codec_bind _ _ _ _ te_signed_entry); [apply signed_entry_codec| |].
    { by intros t [[(? & ? & ?) ?] ?]. }
    intros e [He Hty]. eapply (codec_bind _ _ _ _ te_extensions); [by apply codec_vector_u16| |].
    { by intros t [[[(? & ? & ?) ?] ?] ?]. }
    intros x Hx. last_field.
    + intros [[[[_ <-] _] <-] <-]. by destruct b.
    + unfold timestamped_entry_ok. by split_and!.
  - intros t _. unfold timestamped_entry_encode. rewrite signed_entry_encode_app.
    cbn [cat mbind result_bind]. destruct (signed_entry_encode_to [] (te_signed_entry t)); [|done].
    enc_fields.
Qed.

(** ** Leaves, signatures, SCTs *)

Lemma merkle_leaf_codec :
  codec merkle_leaf_decode_from merkle_leaf_encode (λ v, timestamped_entry_ok (leaf_entry v)).
Proof.
  unfold merkle_leaf_decode_from.
  eapply (codec_ext _ _ _ (λ v, timestamped_entry_ok (leaf_entry v))); [|done|].
  - eapply (codec_bind _ _ _ _ (λ _, VERSION_V1)); [apply codec_u8|done|].
    intros version _. apply codec_guard; [|by intros v [_ <-]]. intros Hv.
    eapply (codec_bind _ _ _ _ (λ _, MERKLE_LEAF_TIMESTAMPED_ENTRY)); [apply codec_u8|done|].
    intros type _. apply codec_guard; [|by intros v [_ <-]]. intros Hty.
    eapply (codec_bind _ _ _ _ leaf_entry); [apply timestamped_entry_codec|by intros v [[? _] _]|].
    intros e He. last_field.
    + intros [_ <-]. by destruct b.
    + apply negb_false_iff, Z.eqb_eq in Hv, Hty. by subst.
  - intros v _. unfold merkle_leaf_encode. cbn.
    destruct (timestamped_entry_encode (leaf_entry v)); cbn; by rewrite ?app_nil_r.
Qed.

Lemma digitally_signed_codec :
  codec digitally_signed_decode_from digitally_signed_encode digitally_signed_ok.
Proof.
  unfold digitally_signed_decode_from.
  eapply (codec_ext _ _ _ digitally_signed_ok); [|done|].
  - eapply (codec_bind _ _ _ _ hash_algorithm); [apply codec_u8|by intros d (-> & _)|].
    intros h _. apply codec_guard; [|by intros d [(-> & _) <-]]. intros Hh.
    eapply (codec_bind _ _ _ _ signature_algorithm); [apply codec_u8| |].
    { intros d [(_ & Hk & _) _]. unfold known_signature_algorithm in Hk.
      apply orb_true_iff in Hk as [->%Z.eqb_eq | ->%Z.eqb_eq]; done. }
    intros a _. apply codec_guard; [|by intros d [[(_ & Hk & _) _] <-]; rewrite Hk]. intros Ha.
    eapply (codec_bind _ _ _ _ ds_signature); [by apply codec_vector_u16|by intros d [[(_ & _ & ?) _] _]|].
    intros x Hx. last_field.
    + intros [[[_ <-] <-] <-]. by destruct b.
    + apply negb_false_iff in Hh, Ha. apply Z.eqb_eq in Hh. by subst.
  - intros d (Hh & Hk & _). unfold digitally_signed_encode. cbn [cat].
    rewrite Hh, Hk, Z.eqb_refl. cbn [negb].
    unfold known_signature_algorithm in Hk.
    apply orb_true_iff in Hk as [->%Z.eqb_eq | ->%Z.eqb_eq]; enc_fields.
Qed.

Lemma sct_v1_codec : codec sct_v1_decode_from sct_v1_encode sct_v1_ok.
Proof.
  unfold sct_v1_decode_from. eapply (codec_ext _ _ _ sct_v1_ok); [|done|].
  - eapply (codec_bind _ _ _ _ (λ _, VERSION_V1)); [apply codec_u8|done|].
    intros version _. apply codec_guard; [|by intros v [_ <-]]. intros Hv. apply codec_assoc.
    eapply (codec_bind _ _ _ _ sct_log_id); [by apply codec_array|by intros s [(? & _) _]|].
    intros id Hid. eapply (codec_bind _ _ _ _ sct_timestamp); [apply codec_u64|by intros s [[(_ & ? & _) _] _]|].
    intros t Ht. eapply (codec_bind _ _ _ _ sct_extensions);
      [by apply codec_vector_u16|by intros s [[[(_ & _ & ? & _) _] _] _]|].
    intros x Hx. eapply (codec_bind _ _ _ _ sct_signature);
      [apply digitally_signed_codec|by intros s [[[[(_ & _ & _ & ?) _] _] _] _]|].
    intros d Hd. last_field.
    + intros [[[[_ <-] <-] <-] <-]. by destruct b.
    + apply negb_false_iff, Z.eqb_eq in Hv. by subst.
  - intros s _. unfold sct_v1_encode. enc_fields.
    destruct (digitally_signed_encode (sct_signature s)); [|done]. cbn. enc_fields.
Qed.

(** ** Whole inputs *)

(** [MerkleTreeLeafV1::decode] accepts exactly what
    [MerkleTreeLeafV1::encode] writes: a leaf within its bounds decodes from
    its encoding to itself, and an accepted input is the only encoding of the
    leaf it decodes to. *)
Theorem merkle_leaf_v1_canonical l v :
  Forall is_byte l → len l < 2 ^ 63 →
  merkle_leaf_decode l = Ok v ↔ timestamped_entry_ok (leaf_entry v) ∧ merkle_leaf_encode v = Ok l.
Proof. intros Hb Hl. exact (decode_whole_iff _ _ _ _ _ (whole_codec merkle_leaf_codec) Hb Hl). Qed.

Definition demo_leaf : MerkleTreeLeafV1 :=
  mkMerkleTreeLeafV1 (mkTimestampedEntryV1 7 (X509 [1; 2; 3]) [9]).

Lemma merkle_leaf_v1_canonical_witness :
  merkle_leaf_decode [0; 0; 0; 0; 0; 0; 0; 0; 0; 7; 0; 0; 0; 0; 3; 1; 2; 3; 0; 1; 9] = Ok demo_leaf.
Proof.
  apply merkle_leaf_v1_canonical; [apply (bool_decide_unpack _); vm_compute; exact I|vm_compute; reflexivity|].
  split; [|vm_compute; reflexivity].
  unfold timestamped_entry_ok, below, signed_entry_ok, vec. cbn.
  split_and!; try (apply (bool_decide_unpack _); vm_compute; exact I); vm_compute; congruence.
Defined.

(** [SignedCertificateTimestampV1::decode] accepts exactly
    what [encode] writes, SHA-256 signatures with RSA or ECDSA only, and
    nothing after it. *)
Theorem sct_v1_canonical l v :
  Forall is_byte l → len l < 2 ^ 63 →
  sct_v1_decode l = Ok v ↔ sct_v1_ok v ∧ sct_v1_encode v = Ok l.
Proof. intros Hb Hl. exact (decode_whole_iff _ _ _ _ _ (whole_codec sct_v1_codec) Hb Hl). Qed.

Definition demo_sct : SignedCertificateTimestampV1 :=
  mkSctV1 (replicate 32 4) 11 [1; 0; 0] (mkDigitallySigned HASH_ALGORITHM_SHA256 SIGNATURE_ALGORITHM_ECDSA [0x30; 0]).

Definition demo_sct_wire : bytes :=
  [0] ++ replicate 32 4 ++ [0; 0; 0; 0; 0; 0; 0; 11; 0; 3; 1; 0; 0; 4; 3; 0; 2; 0x30; 0].

Lemma demo_sct_ok : sct_v1_ok demo_sct.
Proof.
  unfold sct_v1_ok, digitally_signed_ok, octets, vec, below, demo_sct, is_byte. cbn [sct_log_id sct_timestamp sct_extensions sct_signature hash_algorithm signature_algorithm ds_signature].
  split_and!; try (apply (bool_decide_unpack _); vm_compute; exact I); vm_compute; congruence.
Qed.

Lemma sct_v1_canonical_witness : sct_v1_decode demo_sct_wire = Ok demo_sct.
Proof.
  apply sct_v1_canonical; [apply (bool_decide_unpack _); vm_compute; exact I|vm_compute; reflexivity|].
  split; [apply demo_sct_ok|vm_compute; reflexivity].
Defined.

(** ** JSON responses *)

Section json.
Context `{Base64}.

Lemma decode_base64_iff s l : decode_base64 s = Ok l ↔ vector l ∧ s = base64_encode l.
Proof.
  unfold decode_base64. split.
  - destruct (base64_decode s) as [d|] eqn:Hd; cbn; [|done].
    case_bool_decide as He; cbn; [|done]. intros [= <-]. split; [by eapply base64_decode_vector|done].
  - intros [Hv ->]. rewrite base64_roundtrip by done. cbn. by rewrite bool_decide_eq_true_2.
Qed.

Lemma decode_base64_ok l : vector l → decode_base64 (base64_encode l) = Ok l.
Proof. intros. by apply decode_base64_iff. Qed.

(** A signature's encoding is a short vector. *)
Lemma digitally_signed_encode_vector d x :
  digitally_signed_ok d → digitally_signed_encode d = Ok x → vector x.
Proof.
  intros (Hh & Hk & [Hb Hl]). unfold digitally_signed_encode. rewrite Hh, Hk, Z.eqb_refl. cbn [negb].
  intros [-> _]%push_vector_u16_Ok. split.
  - rewrite !Forall_app. split_and!; [|apply be_bytes_is_byte|done].
    unfold known_signature_algorithm in Hk.
    apply orb_true_iff in Hk as [Hk%Z.eqb_eq | Hk%Z.eqb_eq]; rewrite Hk;
      apply (bool_decide_unpack _); vm_compute; exact I.
  - rewrite !len_app. unfold len at 1 2. rewrite be_bytes_length. cbn. unfold U16_MAX in *. lia.
Qed.

(** The SCTs a JSON response can carry. *)
Definition response_sct_ok (s : SignedCertificateTimestampV1) : Prop :=
  octets 32 (sct_log_id s) ∧ vector (sct_extensions s) ∧ digitally_signed_ok (sct_signature s).

(** [AddChainResponseV1::into_sct] accepts exactly the
    responses [from_sct] builds: an SCT survives the JSON form, and a response
    that is accepted is the only one for its SCT (the base64 is canonical and
    the signature well formed). *)
Theorem add_chain_response_canonical a s :
  add_chain_into_sct a = Ok s ↔ response_sct_ok s ∧ add_chain_from_sct s = Ok a.
Proof.
  unfold add_chain_into_sct, add_chain_from_sct. split.
  - destruct (Z.eqb_spec (ac_sct_version a) VERSION_V1) as [Hv|]; [|done]. cbn [negb].
    destruct (decode_base64 (ac_id a)) as [id|] eqn:Hid; cbn; [|done].
    apply decode_base64_iff in Hid as [[Hidb _] Hid]. unfold to_array.
    destruct (Z.eqb_spec (len id) 32); cbn; [|done].
    destruct (decode_base64 (ac_extensions a)) as [x|] eqn:Hx; cbn; [|done].
    apply decode_base64_iff in Hx as [Hxb Hx].
    destruct (decode_base64 (ac_signature a)) as [y|] eqn:Hy; cbn; [|done].
    apply decode_base64_iff in Hy as [[Hyb Hyl] Hy].
    destruct (digitally_signed_decode y) as [d|] eqn:Hd; cbn; [|done].
    apply (decode_whole_iff _ _ _ _ _ (whole_codec digitally_signed_codec) Hyb Hyl) in Hd as [Hd He].
    intros [= <-]. cbn. rewrite He. cbn. split; [by split_and!|]. rewrite <- Hid, <- Hx, <- Hy, <- Hv. by destruct a.
  - intros [([Hl Hb] & Hx & Hd) Ha].
    destruct (digitally_signed_encode (sct_signature s)) as [y|] eqn:Hy; [|done]. injection Ha as <-. cbn.
    pose proof (digitally_signed_encode_vector _ _ Hd Hy) as Hyv.
    rewrite (decode_base64_ok (sct_log_id s)) by (split; [done|lia]). cbn. unfold to_array. rewrite Hl. cbn.
    rewrite (decode_base64_ok (sct_extensions s)) by done. cbn. rewrite (decode_base64_ok y) by done. cbn.
    unfold digitally_signed_decode. rewrite (proj2 (decode_whole_iff _ _ _ _ _ (whole_codec digitally_signed_codec) (proj1 Hyv) (proj2 Hyv)) (conj Hd Hy)).
    cbn. by destruct s.
Qed.
End json.

Lemma add_chain_response_canonical_witness :
  ∃ a, add_chain_from_sct demo_sct = Ok a ∧ add_chain_into_sct a = Ok demo_sct.
Proof.
  destruct (add_chain_from_sct demo_sct) as [a|] eqn:Ha; [|vm_compute in Ha; discriminate Ha].
  exists a. split; [done|]. apply add_chain_response_canonical. split; [|done].
  destruct demo_sct_ok as (? & _ & [? ?] & ?). split_and!; [done| |done].
  split; [done|]. unfold U16_MAX in *. lia.
Defined.

(** ** Signed inputs *)

Lemma be_bytes_inj n v v' :
  below (2 ^ (8 * Z.of_nat n)) v → below (2 ^ (8 * Z.of_nat n)) v' → be_bytes n v = be_bytes n v' → v = v'.
Proof.
  intros Hv Hv' Heq. apply (f_equal (be_fold 0)) in Heq. rewrite !be_fold_be_bytes in Heq.
  rewrite !Z.mod_small in Heq by done. lia.
Qed.

Lemma be_bytes_app_inj n v v' l l' :
  below (2 ^ (8 * Z.of_nat n)) v → below (2 ^ (8 * Z.of_nat n)) v' →
  be_bytes n v ++ l = be_bytes n v' ++ l' → v = v' ∧ l = l'.
Proof.
  intros Hv Hv' Heq. apply app_inj_1 in Heq as [Heq ->]; [|by rewrite !be_bytes_length].
  split; [|done]. by apply (be_bytes_inj n).
Qed.

(**  What is signed is unambiguous: the input for an SCT is the
    Merkle leaf of its entry, no SCT input is a tree-head input, and a
    tree-head input determines its timestamp, tree size and root. *)
Theorem signed_inputs_unambiguous e x t n h t' n' h' :
  encode_sct_signed_input e = Ok x → below (2 ^ 64) t → below (2 ^ 64) t' →
  below (2 ^ 64) n → below (2 ^ 64) n' →
  merkle_leaf_encode (mkMerkleTreeLeafV1 e) = Ok x
    ∧ x ≠ encode_sth_signed_input t n h
    ∧ (encode_sth_signed_input t n h = encode_sth_signed_input t' n' h' → t = t' ∧ n = n' ∧ h = h').
Proof.
  intros Hx Ht Ht' Hn Hn'.
  assert (encode_sct_signed_input e = merkle_leaf_encode (mkMerkleTreeLeafV1 e)) as Hsame.
  { unfold encode_sct_signed_input, merkle_leaf_encode, timestamped_entry_encode. cbn [leaf_entry].
    rewrite !(signed_entry_encode_app (_ ++ _)).
    destruct (signed_entry_encode_to [] (te_signed_entry e)); [|done]. enc_fields. }
  rewrite Hsame in Hx. split_and!; [done| |].
  - unfold merkle_leaf_encode in Hx. destruct (timestamped_entry_encode _); [|done].
    injection Hx as <-. discriminate.
  - unfold encode_sth_signed_input. intros Heq. do 2 (apply app_inj_1 in Heq as [_ Heq]; [|done]).
    apply (be_bytes_app_inj 8) in Heq as [-> Heq]; [|done..].
    apply (be_bytes_app_inj 8) in Heq as [-> ->]; done.
Qed.

Lemma signed_inputs_unambiguous_witness :
  merkle_leaf_encode demo_leaf
    = Ok [0; 0; 0; 0; 0; 0; 0; 0; 0; 7; 0; 0; 0; 0; 3; 1; 2; 3; 0; 1; 9]
    ∧ [0; 0; 0; 0; 0; 0; 0; 0; 0; 7; 0; 0; 0; 0; 3; 1; 2; 3; 0; 1; 9]
      ≠ encode_sth_signed_input 1 2 (replicate 32 3)
    ∧ (encode_sth_signed_input 1 2 (replicate 32 3) = encode_sth_signed_input 1 2 (replicate 32 3)
       → 1 = 1 ∧ 2 = 2 ∧ replicate 32 3 = replicate 32 3).
Proof.
  apply (signed_inputs_unambiguous (leaf_entry demo_leaf)); [vm_compute; reflexivity|unfold below; lia..].
Defined.
