(* ===== verification/Rfc9162.v ===== *)
(** * RFC 9162 Certificate Transparency v2 wire structures

    [src/source/crates/oxibelt-ct/src/rfc9162.rs]: log ids, extensions,
    entries, SCTs, tree heads, proofs, the [TransItem] that carries each of
    them, lists of items, Merkle leaves, and the JSON of a submission. *)

From S2P Require Import Prelude Bytes Base64 CtCodec CtMerkle Rfc6962.

Definition X509_ENTRY_V2 : Z := 0x0100.
Definition PRECERT_ENTRY_V2 : Z := 0x0101.
Definition X509_SCT_V2 : Z := 0x0102.
Definition PRECERT_SCT_V2 : Z := 0x0103.
Definition SIGNED_TREE_HEAD_V2 : Z := 0x0104.
Definition CONSISTENCY_PROOF_V2 : Z := 0x0105.
Definition INCLUSION_PROOF_V2 : Z := 0x0106.

Definition SUBMISSION_TYPE_X509 : Z := 1.
Definition SUBMISSION_TYPE_PRECERT : Z := 2.

(** ** Log ids *)

Record LogIdV2 : Type := mkLogIdV2 { log_id_value : bytes }.

#[export] Instance LogIdV2_eq_dec : EqDecision LogIdV2.
Proof. solve_decision. Defined.

(** The loop over the octets, returning [at_subidentifier_start]. *)
Fixpoint validate_oid_loop (at_subidentifier_start : bool) (value : bytes) : ct bool :=
  match value with
  | [] => Ok at_subidentifier_start
  | byte :: value =>
      if at_subidentifier_start && (byte =? 0x80)
      then Err "RFC 9162 LogID is not a canonical DER OID value"%string
      else validate_oid_loop (Z.land byte 0x80 =? 0) value
  end.

Definition validate_oid_value (value : bytes) : ct unit :=
  if negb ((2 <=? len value) && (len value <=? 127))
  then Err "RFC 9162 LogID OID value must be 2..127 bytes"%string
  else
    at_subidentifier_start ← validate_oid_loop true value;
    if negb at_subidentifier_start
    then Err "RFC 9162 LogID has an unterminated OID subidentifier"%string
    else Ok tt.

Definition log_id_new (oid_value : bytes) : ct LogIdV2 :=
  _ ← validate_oid_value oid_value;
  Ok (mkLogIdV2 oid_value).

Definition log_id_encode_to (output : bytes) (i : LogIdV2) : ct bytes :=
  _ ← validate_oid_value (log_id_value i);
  push_vector_u8 output (log_id_value i) 2.

Definition log_id_decode_from : reader LogIdV2 :=
  value ← vector_u8 2 127;
  lift (log_id_new value).

(** ** Extensions *)

Record ExtensionV2 : Type := mkExtensionV2 {
  extension_type : Z;
  extension_data : bytes;
}.

(** [previous.is_some_and(|value| extension_type <= value)] *)
Definition out_of_order (previous : option Z) (type : Z) : bool :=
  match previous with
  | Some value => type <=? value
  | None => false
  end.

Definition unsorted : CtError := "RFC 9162 extensions must be strictly sorted without duplicates".

Fixpoint encode_extensions_loop (contents : bytes) (previous : option Z) (extensions : list ExtensionV2)
    : ct bytes :=
  match extensions with
  | [] => Ok contents
  | extension :: extensions =>
      if out_of_order previous (extension_type extension) then Err unsorted
      else
        let contents := contents ++ be_bytes 2 (extension_type extension) in
        contents ← push_vector_u16 contents (extension_data extension) 0;
        encode_extensions_loop contents (Some (extension_type extension)) extensions
  end.

Definition encode_extensions (output : bytes) (extensions : list ExtensionV2) : ct bytes :=
  contents ← encode_extensions_loop [] None extensions;
  push_vector_u16 output contents 0.

Definition decode_extension (previous : option Z) : reader ExtensionV2 :=
  type ← reader_u16;
  if out_of_order previous type then throw unsorted
  else
    data ← vector_u16 0 U16_MAX;
    mret (mkExtensionV2 type data).

Definition decode_extensions : reader (list ExtensionV2) :=
  encoded ← vector_u16 0 U16_MAX;
  lift (read_items decode_extension (λ e, Some (extension_type e)) None encoded).

(** ** Entries, SCTs and tree heads *)

Record TimestampedCertificateEntryV2 : Type := mkEntryV2 {
  e2_timestamp : Z;
  e2_issuer_key_hash : bytes;
  e2_tbs_certificate : bytes;
  e2_extensions : list ExtensionV2;
}.

Definition entry_v2_encode (e : TimestampedCertificateEntryV2) : ct bytes :=
  let output := [] ++ be_bytes 8 (e2_timestamp e) in
  output ← push_vector_u8 output (e2_issuer_key_hash e) 32;
  output ← push_vector_u24 output (e2_tbs_certificate e) 1;
  encode_extensions output (e2_extensions e).

Definition entry_v2_decode_from : reader TimestampedCertificateEntryV2 :=
  timestamp ← reader_u64;
  issuer_key_hash ← vector_u8 32 U8_MAX;
  tbs_certificate ← vector_u24 1 U24_MAX;
  extensions ← decode_extensions;
  mret (mkEntryV2 timestamp issuer_key_hash tbs_certificate extensions).

Record SignedCertificateTimestampV2 : Type := mkSctV2 {
  s2_log_id : LogIdV2;
  s2_timestamp : Z;
  s2_extensions : list ExtensionV2;
  s2_signature : bytes;
}.

Definition sct_v2_encode (s : SignedCertificateTimestampV2) : ct bytes :=
  output ← log_id_encode_to [] (s2_log_id s);
  let output := output ++ be_bytes 8 (s2_timestamp s) in
  output ← encode_extensions output (s2_extensions s);
  push_vector_u16 output (s2_signature s) 1.

Definition sct_v2_decode_from : reader SignedCertificateTimestampV2 :=
  log_id ← log_id_decode_from;
  timestamp ← reader_u64;
  extensions ← decode_extensions;
  signature ← vector_u16 1 U16_MAX;
  mret (mkSctV2 log_id timestamp extensions signature).

Record TreeHeadV2 : Type := mkTreeHeadV2 {
  th_timestamp : Z;
  th_tree_size : Z;
  th_root_hash : bytes;
  th_extensions : list ExtensionV2;
}.

Definition tree_head_encode_signed_input (t : TreeHeadV2) : ct bytes :=
  let output := [] ++ be_bytes 8 (th_timestamp t) in
  let output := output ++ be_bytes 8 (th_tree_size t) in
  output ← push_vector_u8 output (th_root_hash t) 32;
  encode_extensions output (th_extensions t).

Definition tree_head_decode_from : reader TreeHeadV2 :=
  timestamp ← reader_u64;
  tree_size ← reader_u64;
  root_hash ← vector_u8 32 U8_MAX;
  extensions ← decode_extensions;
  mret (mkTreeHeadV2 timestamp tree_size root_hash extensions).

Record SignedTreeHeadV2 : Type := mkSthV2 {
  sth_log_id : LogIdV2;
  sth_tree_head : TreeHeadV2;
  sth_signature : bytes;
}.

Definition sth_v2_encode (s : SignedTreeHeadV2) : ct bytes :=
  output ← log_id_encode_to [] (sth_log_id s);
  input ← tree_head_encode_signed_input (sth_tree_head s);
  push_vector_u16 (output ++ input) (sth_signature s) 1.

Definition sth_v2_decode_from : reader SignedTreeHeadV2 :=
  log_id ← log_id_decode_from;
  tree_head ← tree_head_decode_from;
  signature ← vector_u16 1 U16_MAX;
  mret (mkSthV2 log_id tree_head signature).

(** ** Proofs *)

Record ConsistencyProofV2 : Type := mkConsistencyProofV2 {
  cp_log_id : LogIdV2;
  cp_tree_size_1 : Z;
  cp_tree_size_2 : Z;
  cp_path : list bytes;
}.

Record InclusionProofV2 : Type := mkInclusionProofV2 {
  ip_log_id : LogIdV2;
  ip_tree_size : Z;
  ip_leaf_index : Z;
  ip_path : list bytes;
}.

Fixpoint encode_node_path_loop (contents : bytes) (path : list bytes) : ct bytes :=
  match path with
  | [] => Ok contents
  | hash :: path =>
      contents ← push_vector_u8 contents hash 32;
      encode_node_path_loop contents path
  end.

Definition encode_node_path (output : bytes) (path : list bytes) : ct bytes :=
  contents ← encode_node_path_loop [] path;
  push_vector_u16 output contents 0.

Definition decode_node_path : reader (list bytes) :=
  encoded ← vector_u16 0 U16_MAX;
  lift (read_items (λ _, vector_u8 32 U8_MAX) (λ _, tt) tt encoded).

Definition consistency_v2_encode (p : ConsistencyProofV2) : ct bytes :=
  if cp_tree_size_2 p <? cp_tree_size_1 p
  then Err "RFC 9162 consistency proof sizes are reversed"%string
  else
    output ← log_id_encode_to [] (cp_log_id p);
    let output := output ++ be_bytes 8 (cp_tree_size_1 p) in
    let output := output ++ be_bytes 8 (cp_tree_size_2 p) in
    encode_node_path output (cp_path p).

Definition consistency_v2_decode_from : reader ConsistencyProofV2 :=
  log_id ← log_id_decode_from;
  tree_size_1 ← reader_u64;
  tree_size_2 ← reader_u64;
  if tree_size_2 <? tree_size_1 then throw "RFC 9162 consistency proof sizes are reversed"%string
  else
    path ← decode_node_path;
    mret (mkConsistencyProofV2 log_id tree_size_1 tree_size_2 path).

Definition inclusion_v2_encode (p : InclusionProofV2) : ct bytes :=
  if ip_tree_size p <=? ip_leaf_index p
  then Err "RFC 9162 inclusion proof leaf index is outside the tree"%string
  else
    output ← log_id_encode_to [] (ip_log_id p);
    let output := output ++ be_bytes 8 (ip_tree_size p) in
    let output := output ++ be_bytes 8 (ip_leaf_index p) in
    encode_node_path output (ip_path p).

Definition inclusion_v2_decode_from : reader InclusionProofV2 :=
  log_id ← log_id_decode_from;
  tree_size ← reader_u64;
  leaf_index ← reader_u64;
  if tree_size <=? leaf_index then throw "RFC 9162 inclusion proof leaf index is outside the tree"%string
  else
    path ← decode_node_path;
    mret (mkInclusionProofV2 log_id tree_size leaf_index path).

(** ** Items *)

Inductive TransItemV2 : Type :=
  | X509Entry (value : TimestampedCertificateEntryV2)
  | PrecertificateEntry (value : TimestampedCertificateEntryV2)
  | X509Sct (value : SignedCertificateTimestampV2)
  | PrecertificateSct (value : SignedCertificateTimestampV2)
  | SignedTreeHead (value : SignedTreeHeadV2)
  | ConsistencyProof (value : ConsistencyProofV2)
  | InclusionProof (value : InclusionProofV2)
  | Opaque (trans_type : Z) (data : bytes).

Definition trans_type (item : TransItemV2) : Z :=
  match item with
  | X509Entry _ => X509_ENTRY_V2
  | PrecertificateEntry _ => PRECERT_ENTRY_V2
  | X509Sct _ => X509_SCT_V2
  | PrecertificateSct _ => PRECERT_SCT_V2
  | SignedTreeHead _ => SIGNED_TREE_HEAD_V2
  | ConsistencyProof _ => CONSISTENCY_PROOF_V2
  | InclusionProof _ => INCLUSION_PROOF_V2
  | Opaque trans_type _ => trans_type
  end.

Definition item_payload (item : TransItemV2) : ct bytes :=
  match item with
  | X509Entry value | PrecertificateEntry value => entry_v2_encode value
  | X509Sct value | PrecertificateSct value => sct_v2_encode value
  | SignedTreeHead value => sth_v2_encode value
  | ConsistencyProof value => consistency_v2_encode value
  | InclusionProof value => inclusion_v2_encode value
  | Opaque _ data => Ok data
  end.

Definition trans_item_encode (item : TransItemV2) : ct bytes :=
  let output := [] ++ be_bytes 2 (trans_type item) in
  payload ← item_payload item;
  Ok (output ++ payload).

Definition decode_payload (type : Z) : reader TransItemV2 :=
  if type =? X509_ENTRY_V2 then value ← entry_v2_decode_from; mret (X509Entry value)
  else if type =? PRECERT_ENTRY_V2 then value ← entry_v2_decode_from; mret (PrecertificateEntry value)
  else if type =? X509_SCT_V2 then value ← sct_v2_decode_from; mret (X509Sct value)
  else if type =? PRECERT_SCT_V2 then value ← sct_v2_decode_from; mret (PrecertificateSct value)
  else if type =? SIGNED_TREE_HEAD_V2 then value ← sth_v2_decode_from; mret (SignedTreeHead value)
  else if type =? CONSISTENCY_PROOF_V2 then value ← consistency_v2_decode_from; mret (ConsistencyProof value)
  else if type =? INCLUSION_PROOF_V2 then value ← inclusion_v2_decode_from; mret (InclusionProof value)
  else if (0x0000 <=? type) && (type <=? 0x00ff)
  then throw "RFC 6962 v1 type is not an RFC 9162 TransItem"%string
  else
    r ← get;
    data ← reader_take (reader_remaining r);
    mret (Opaque type data).

Definition trans_item_decode_from : reader TransItemV2 :=
  type ← reader_u16;
  decode_payload type.

Definition trans_item_decode (input : bytes) : ct TransItemV2 :=
  decode_whole trans_item_decode_from input.

Definition sct_signed_input (entry : TransItemV2) : ct bytes :=
  match entry with
  | X509Entry _ | PrecertificateEntry _ => trans_item_encode entry
  | _ => Err "RFC 9162 SCT input must be an entry TransItem"%string
  end.

Fixpoint encode_trans_item_loop (contents : bytes) (items : list TransItemV2) : ct bytes :=
  match items with
  | [] => Ok contents
  | item :: items =>
      serialized ← trans_item_encode item;
      contents ← push_vector_u16 contents serialized 1;
      encode_trans_item_loop contents items
  end.

Definition encode_trans_item_list (items : list TransItemV2) : ct bytes :=
  if is_empty items then Err "RFC 9162 TransItemList must not be empty"%string
  else
    contents ← encode_trans_item_loop [] items;
    push_vector_u16 [] contents 1.

Definition decode_list_item : reader TransItemV2 :=
  serialized ← vector_u16 1 U16_MAX;
  lift (trans_item_decode serialized).

Definition decode_trans_item_list (input : bytes) : ct (list TransItemV2) :=
  contents ← decode_whole (vector_u16 1 U16_MAX) input;
  read_items (λ _, decode_list_item) (λ _, tt) tt contents.

Record FinalSthV2 : Type := mkFinalSthV2 { final_sth : SignedTreeHeadV2 }.

Definition final_sth_encode (f : FinalSthV2) : ct bytes :=
  trans_item_encode (SignedTreeHead (final_sth f)).

Definition final_sth_decode (input : bytes) : ct FinalSthV2 :=
  item ← trans_item_decode input;
  match item with
  | SignedTreeHead value => Ok (mkFinalSthV2 value)
  | _ => Err "RFC 9162 final STH is not a signed_tree_head_v2 TransItem"%string
  end.

(** ** Merkle leaves *)

Section leaves.
Context `{Sha256}.

Definition bad_issuer_hash (entry : TransItemV2) : bool :=
  match entry with
  | X509Entry value | PrecertificateEntry value => negb (len (e2_issuer_key_hash value) =? 32)
  | _ => false
  end.

Definition merkle_leaf_hash (entry : TransItemV2) : ct Hash :=
  if bad_issuer_hash entry
  then Err "RFC 9162 SHA-256 Merkle helper requires a 32-byte issuer hash"%string
  else
    input ← sct_signed_input entry;
    Ok (leaf_hash input).

Definition merkle_leaf_hash_serialized (entry : bytes) : ct Hash :=
  type ← (reader_u16 (reader_new entry)).1;
  if type <=? 0x00ff then Err "RFC 6962 v1 item is not an RFC 9162 Merkle leaf"%string
  else Ok (leaf_hash entry).

Definition merkle_tree_hash (entries : list TransItemV2) : ct Hash :=
  hashes ← mapM merkle_leaf_hash entries;
  Ok (root_from_leaf_hashes hashes).
End leaves.

(** ** Submissions *)

Section submission.
Context `{Base64}.

Definition decode_base64_v2 (value : bytes) : ct bytes :=
  decoded ← ok_or (base64_decode value) "RFC 9162 JSON field is not base64"%string;
  if negb (bool_decide (base64_encode decoded = value))
  then Err "RFC 9162 JSON field is not canonical base64"%string
  else Ok decoded.

Record SubmitEntryRequestV2 : Type := mkSubmitEntryRequestV2 {
  rq_submission : bytes;
  rq_type : Z;
  rq_chain : list bytes;
}.

Definition decode_der (r : SubmitEntryRequestV2) : ct (bytes * list bytes) :=
  if negb ((rq_type r =? SUBMISSION_TYPE_X509) || (rq_type r =? SUBMISSION_TYPE_PRECERT))
  then Err "unsupported RFC 9162 submission type"%string
  else
    submission ← decode_base64_v2 (rq_submission r);
    if is_empty submission then Err "RFC 9162 submission must not be empty"%string
    else
      chain ← mapM decode_base64_v2 (rq_chain r);
      if existsb is_empty chain then Err "RFC 9162 chain certificates must not be empty"%string
      else Ok (submission, chain).

Record SubmitEntryResponseV2 : Type := mkSubmitEntryResponseV2 {
  rs_sct : bytes;
  rs_sth : option bytes;
  rs_inclusion : option bytes;
}.

(** [value.map(f).transpose()] *)
Definition transpose_map {A B} (f : A → ct B) (value : option A) : ct (option B) :=
  match value with
  | None => Ok None
  | Some a => b ← f a; Ok (Some b)
  end.

(** The [LogID] of an SCT item. *)
Definition sct_item_log_id (sct : TransItemV2) (e : CtError) : ct LogIdV2 :=
  match sct with
  | X509Sct value | PrecertificateSct value => Ok (s2_log_id value)
  | _ => Err e
  end.

(** The checks that tie the items of a receipt together. *)
Definition check_receipt (log_id : LogIdV2) (sth : option SignedTreeHeadV2)
    (inclusion : option InclusionProofV2) : ct unit :=
  if match sth with Some value => negb (bool_decide (sth_log_id value = log_id)) | None => false end
     || match inclusion with Some value => negb (bool_decide (ip_log_id value = log_id)) | None => false end
  then Err "RFC 9162 receipt items have different LogIDs"%string
  else if match sth, inclusion with
          | Some sth, Some inclusion => negb (th_tree_size (sth_tree_head sth) =? ip_tree_size inclusion)
          | _, _ => false
          end
  then Err "RFC 9162 receipt STH and inclusion tree sizes differ"%string
  else Ok tt.

Definition from_items (sct : TransItemV2) (sth : option SignedTreeHeadV2)
    (inclusion : option InclusionProofV2) : ct SubmitEntryResponseV2 :=
  log_id ← sct_item_log_id sct "RFC 9162 submission response requires an SCT TransItem"%string;
  _ ← check_receipt log_id sth inclusion;
  encoded ← trans_item_encode sct;
  sth ← transpose_map (λ value, trans_item_encode (SignedTreeHead value)) sth;
  inclusion ← transpose_map (λ value, trans_item_encode (InclusionProof value)) inclusion;
  Ok (mkSubmitEntryResponseV2 (base64_encode encoded) (base64_encode <$> sth) (base64_encode <$> inclusion)).

Definition decode_sth_item (text : bytes) : ct SignedTreeHeadV2 :=
  bytes ← decode_base64_v2 text;
  item ← trans_item_decode bytes;
  match item with
  | SignedTreeHead value => Ok value
  | _ => Err "RFC 9162 receipt sth has the wrong TransItem type"%string
  end.

Definition decode_inclusion_item (text : bytes) : ct InclusionProofV2 :=
  bytes ← decode_base64_v2 text;
  item ← trans_item_decode bytes;
  match item with
  | InclusionProof value => Ok value
  | _ => Err "RFC 9162 receipt inclusion has the wrong TransItem type"%string
  end.

Definition decode_items (r : SubmitEntryResponseV2)
    : ct (TransItemV2 * option SignedTreeHeadV2 * option InclusionProofV2) :=
  bytes ← decode_base64_v2 (rs_sct r);
  sct ← trans_item_decode bytes;
  log_id ← sct_item_log_id sct "RFC 9162 submission response contains a non-SCT item"%string;
  sth ← transpose_map decode_sth_item (rs_sth r);
  inclusion ← transpose_map decode_inclusion_item (rs_inclusion r);
  _ ← check_receipt log_id sth inclusion;
  Ok (sct, sth, inclusion).
End submission.
