(* ===== verification/Rfc9162Codec.v ===== *)
(** * RFC 9162 items have exactly one encoding

    Each decoder of [Rfc9162] accepts exactly the octets its encoder writes,
    from a log id up to lists of items and submission receipts. *)

From S2P Require Import Prelude Bytes Base64 CtCodec CtWire CtMerkle CtInclusion Rfc6962 Rfc6962Codec.
From S2P Require Import Rfc9162.

(** ** Values of the Rust types, within the bounds of their vectors *)

Definition log_id_ok (i : LogIdV2) : Prop :=
  Forall is_byte (log_id_value i) ∧ validate_oid_value (log_id_value i) = Ok tt.

Definition extension_ok (previous : option Z) (e : ExtensionV2) : Prop :=
  below (2 ^ 16) (extension_type e) ∧ out_of_order previous (extension_type e) = false
    ∧ vec 0 U16_MAX (extension_data e).

Definition extensions_ok (l : list ExtensionV2) : Prop :=
  chain extension_ok (λ e, Some (extension_type e)) None l.

Definition entry_v2_ok (e : TimestampedCertificateEntryV2) : Prop :=
  below (2 ^ 64) (e2_timestamp e) ∧ vec 32 U8_MAX (e2_issuer_key_hash e)
    ∧ vec 1 U24_MAX (e2_tbs_certificate e) ∧ extensions_ok (e2_extensions e).

Definition sct_v2_ok (s : SignedCertificateTimestampV2) : Prop :=
  log_id_ok (s2_log_id s) ∧ below (2 ^ 64) (s2_timestamp s) ∧ extensions_ok (s2_extensions s)
    ∧ vec 1 U16_MAX (s2_signature s).

Definition tree_head_ok (t : TreeHeadV2) : Prop :=
  below (2 ^ 64) (th_timestamp t) ∧ below (2 ^ 64) (th_tree_size t) ∧ vec 32 U8_MAX (th_root_hash t)
    ∧ extensions_ok (th_extensions t).

Definition sth_v2_ok (s : SignedTreeHeadV2) : Prop :=
  log_id_ok (sth_log_id s) ∧ tree_head_ok (sth_tree_head s) ∧ vec 1 U16_MAX (sth_signature s).

Definition path_ok (path : list bytes) : Prop :=
  chain (λ _, vec 32 U8_MAX) (λ _, tt) tt path.

Definition consistency_v2_ok (p : ConsistencyProofV2) : Prop :=
  log_id_ok (cp_log_id p) ∧ below (2 ^ 64) (cp_tree_size_1 p) ∧ below (2 ^ 64) (cp_tree_size_2 p)
    ∧ cp_tree_size_1 p ≤ cp_tree_size_2 p ∧ path_ok (cp_path p).

Definition inclusion_v2_ok (p : InclusionProofV2) : Prop :=
  log_id_ok (ip_log_id p) ∧ below (2 ^ 64) (ip_tree_size p) ∧ below (2 ^ 64) (ip_leaf_index p)
    ∧ ip_leaf_index p < ip_tree_size p ∧ path_ok (ip_path p).

(** An opaque item has a type of its own. *)
Definition item_ok (item : TransItemV2) : Prop :=
  match item with
  | X509Entry value | PrecertificateEntry value => entry_v2_ok value
  | X509Sct value | PrecertificateSct value => sct_v2_ok value
  | SignedTreeHead value => sth_v2_ok value
  | ConsistencyProof value => consistency_v2_ok value
  | InclusionProof value => inclusion_v2_ok value
  | Opaque type data => INCLUSION_PROOF_V2 < type < 2 ^ 16 ∧ vector data
  end.

(** ** Log ids *)

Lemma validate_oid_len v : validate_oid_value v = Ok tt → 2 ≤ len v ≤ 127.
Proof.
  unfold validate_oid_value. destruct (Z.leb_spec 2 (len v)); [|done].
  destruct (Z.leb_spec (len v) 127); done.
Qed.

Lemma log_id_codec : codec log_id_decode_from (log_id_encode_to []) log_id_ok.
Proof.
  unfold log_id_decode_from. eapply (codec_ext _ _ _ log_id_ok); [|done|].
  - eapply (codec_bind _ _ _ _ log_id_value); [by apply (codec_vector_u8 2 127)| |].
    { intros i [Hb Hv]. split; [done|by apply validate_oid_len]. }
    intros v [Hb Hl]. unfold log_id_new. destruct (validate_oid_value v) as [[]|e] eqn:Hv; cbn.
    + apply codec_ret. intros i. split; [|by intros ->]. intros [_ <-]. by destruct i.
    + split; [|done]. intros i r x k [[_ Hok] <-]. congruence.
  - intros i [_ Hv]. unfold log_id_encode_to. rewrite Hv. cbn. enc_fields.
Qed.

(** ** Extensions *)

Definition encode_extension (e : ExtensionV2) : ct bytes :=
  push_vector_u16 (be_bytes 2 (extension_type e)) (extension_data e) 0.

Lemma extension_codec previous :
  codec (decode_extension previous) encode_extension (extension_ok previous).
Proof.
  unfold decode_extension. eapply (codec_ext _ _ _ (extension_ok previous)); [|done|].
  - eapply (codec_bind _ _ _ _ extension_type); [apply codec_u16|by intros e (? & _)|].
    intros t Ht. apply codec_guard; [|by intros e [(_ & ? & _) <-]]. intros Ho.
    eapply (codec_bind _ _ _ _ extension_data); [by apply codec_vector_u16|by intros e [(_ & _ & ?) _]|].
    intros d Hd. last_field; [|unfold extension_ok; by split_and!].
    intros [[_ <-] <-]. by destruct b.
  - intros e _. unfold encode_extension. rewrite push_vector_u16_app. enc_fields.
Qed.

(** What a [push_vector] writes is not empty. *)
Lemma push_vector_u8_cons out l m : push_vector_u8 out l m ≠ Ok [].
Proof. unfold push_vector_u8. destruct (_ || _); [done|]. intros [= [_ ?]%app_nil]. done. Qed.

Lemma push_vector_u16_cons out l m : push_vector_u16 out l m ≠ Ok [].
Proof. unfold push_vector_u16. destruct (_ || _); [done|]. by intros [= [_ ?]%app_nil]. Qed.

Lemma encode_extensions_loop_all l : ∀ out previous,
  chain extension_ok (λ e, Some (extension_type e)) previous l →
  encode_extensions_loop out previous l = (x ← encode_all encode_extension l; Ok (out ++ x)).
Proof.
  induction l as [|e l IH]; intros out previous Hc; cbn; [by rewrite app_nil_r|].
  destruct Hc as [(_ & -> & _) Hc]. assert (encode_extension e =
    (x ← push_vector_u16 [] (extension_data e) 0; Ok (be_bytes 2 (extension_type e) ++ x))) as ->
    by apply push_vector_u16_app.
  rewrite push_vector_u16_app.
  destruct (push_vector_u16 [] (extension_data e) 0) as [x|]; [|done]. cbn. rewrite IH by done.
  destruct (encode_all encode_extension l); [|done]. cbn. by rewrite <- !app_assoc.
Qed.

Lemma encode_extensions_app out l :
  encode_extensions out l = (x ← encode_extensions [] l; Ok (out ++ x)).
Proof.
  unfold encode_extensions. destruct (encode_extensions_loop [] None l); [|done]. apply push_vector_u16_app.
Qed.

Lemma extensions_codec : codec decode_extensions (encode_extensions []) extensions_ok.
Proof.
  eapply codec_ext; [| |].
  - apply (codec_nested _ (encode_all encode_extension) extensions_ok 0); [done|].
    intros encoded l Hb Hl. apply read_items_iff; [apply extension_codec| |done|done].
    intros p e _. apply push_vector_u16_cons.
  - done.
  - intros l Hl. unfold encode_extensions. rewrite encode_extensions_loop_all by done.
    by destruct (encode_all encode_extension l).
Qed.

(** ** Node paths *)

Lemma encode_node_path_loop_all l : ∀ out,
  encode_node_path_loop out l = (x ← encode_all (λ h, push_vector_u8 [] h 32) l; Ok (out ++ x)).
Proof.
  induction l as [|h l IH]; intros out; cbn; [by rewrite app_nil_r|].
  rewrite push_vector_u8_app. destruct (push_vector_u8 [] h 32) as [x|]; [|done]. cbn. rewrite IH.
  destruct (encode_all _ l); [|done]. cbn. by rewrite <- !app_assoc.
Qed.

Lemma encode_node_path_app out l :
  encode_node_path out l = (x ← encode_node_path [] l; Ok (out ++ x)).
Proof.
  unfold encode_node_path. destruct (encode_node_path_loop [] l); [|done]. apply push_vector_u16_app.
Qed.

Lemma node_path_codec : codec decode_node_path (encode_node_path []) path_ok.
Proof.
  eapply codec_ext; [| |].
  - apply (codec_nested _ (encode_all (λ h, push_vector_u8 [] h 32)) path_ok 0); [done|].
    intros encoded l Hb Hl.
    apply (read_items_iff _ _ (λ h, push_vector_u8 [] h 32) (λ _, vec 32 U8_MAX)); [| |done|done].
    + intros _. by apply codec_vector_u8.
    + intros p h _. apply push_vector_u8_cons.
  - done.
  - intros l Hl. unfold encode_node_path. rewrite encode_node_path_loop_all.
    by destruct (encode_all _ l).
Qed.

#[local] Arguments encode_extensions _ _ : simpl never.
#[local] Arguments encode_node_path _ _ : simpl never.
#[local] Arguments log_id_encode_to _ _ : simpl never.

Ltac prefixed x := lazymatch x with [] => fail | _ => idtac end.

(** An encoder whose nested fields are written first is the concatenation of
    its fields. *)
Ltac enc_step :=
  match goal with
  | |- context [push_vector_u8 ?x ?l ?m] => prefixed x; rewrite (push_vector_u8_app x l m)
  | |- context [push_vector_u16 ?x ?l ?m] => prefixed x; rewrite (push_vector_u16_app x l m)
  | |- context [push_vector_u24 ?x ?l ?m] => prefixed x; rewrite (push_vector_u24_app x l m)
  | |- context [encode_extensions ?x ?l] => prefixed x; rewrite (encode_extensions_app x l)
  | |- context [encode_node_path ?x ?l] => prefixed x; rewrite (encode_node_path_app x l)
  | |- ?lhs = _ =>
      match lhs with
      | context [push_vector_u8 [] ?l ?m] => destruct (push_vector_u8 [] l m)
      | context [push_vector_u16 [] ?l ?m] => destruct (push_vector_u16 [] l m)
      | context [push_vector_u24 [] ?l ?m] => destruct (push_vector_u24 [] l m)
      | context [encode_extensions [] ?l] => destruct (encode_extensions [] l)
      | context [encode_node_path [] ?l] => destruct (encode_node_path [] l)
      | context [log_id_encode_to [] ?i] => destruct (log_id_encode_to [] i)
      end
  end.

Ltac enc_nested := cbn; repeat (enc_step; cbn); rewrite <- ?app_assoc, ?app_nil_r; try done.

(** ** Structures *)

Lemma entry_v2_codec : codec entry_v2_decode_from entry_v2_encode entry_v2_ok.
Proof.
  unfold entry_v2_decode_from. eapply (codec_ext _ _ _ entry_v2_ok); [|done|].
  - eapply (codec_bind _ _ _ _ e2_timestamp); [apply codec_u64|by intros e (? & _)|].
    intros t Ht. eapply (codec_bind _ _ _ _ e2_issuer_key_hash);
      [by apply codec_vector_u8|by intros e [(_ & ? & _) _]|].
    intros h Hh. eapply (codec_bind _ _ _ _ e2_tbs_certificate);
      [by apply codec_vector_u24|by intros e [[(_ & _ & ? & _) _] _]|].
    intros c Hc. eapply (codec_bind _ _ _ _ e2_extensions);
      [apply extensions_codec|by intros e [[[(_ & _ & _ & ?) _] _] _]|].
    intros x Hx. last_field; [|by split_and!]. intros [[[[_ <-] <-] <-] <-]. by destruct b.
  - intros e _. unfold entry_v2_encode. enc_nested.
Qed.

Lemma sct_v2_codec : codec sct_v2_decode_from sct_v2_encode sct_v2_ok.
Proof.
  unfold sct_v2_decode_from. eapply (codec_ext _ _ _ sct_v2_ok); [|done|].
  - eapply (codec_bind _ _ _ _ s2_log_id); [apply log_id_codec|by intros e (? & _)|].
    intros i Hi. eapply (codec_bind _ _ _ _ s2_timestamp); [apply codec_u64|by intros e [(_ & ? & _) _]|].
    intros t Ht. eapply (codec_bind _ _ _ _ s2_extensions);
      [apply extensions_codec|by intros e [[(_ & _ & ? & _) _] _]|].
    intros x Hx. eapply (codec_bind _ _ _ _ s2_signature);
      [by apply codec_vector_u16|by intros e [[[(_ & _ & _ & ?) _] _] _]|].
    intros g Hg. last_field; [|by split_and!]. intros [[[[_ <-] <-] <-] <-]. by destruct b.
  - intros s _. unfold sct_v2_encode. enc_nested.
Qed.

Lemma tree_head_codec : codec tree_head_decode_from tree_head_encode_signed_input tree_head_ok.
Proof.
  unfold tree_head_decode_from. eapply (codec_ext _ _ _ tree_head_ok); [|done|].
  - eapply (codec_bind _ _ _ _ th_timestamp); [apply codec_u64|by intros e (? & _)|].
    intros t Ht. eapply (codec_bind _ _ _ _ th_tree_size); [apply codec_u64|by intros e [(_ & ? & _) _]|].
    intros n Hn. eapply (codec_bind _ _ _ _ th_root_hash);
      [by apply codec_vector_u8|by intros e [[(_ & _ & ? & _) _] _]|].
    intros h Hh. eapply (codec_bind _ _ _ _ th_extensions);
      [apply extensions_codec|by intros e [[[(_ & _ & _ & ?) _] _] _]|].
    intros x Hx. last_field; [|by split_and!]. intros [[[[_ <-] <-] <-] <-]. by destruct b.
  - intros t _. unfold tree_head_encode_signed_input. enc_nested.
Qed.

Lemma sth_v2_codec : codec sth_v2_decode_from sth_v2_encode sth_v2_ok.
Proof.
  unfold sth_v2_decode_from. eapply (codec_ext _ _ _ sth_v2_ok); [|done|].
  - eapply (codec_bind _ _ _ _ sth_log_id); [apply log_id_codec|by intros e (? & _)|].
    intros i Hi. eapply (codec_bind _ _ _ _ sth_tree_head); [apply tree_head_codec|by intros e [(_ & ? & _) _]|].
    intros t Ht. eapply (codec_bind _ _ _ _ sth_signature);
      [by apply codec_vector_u16|by intros e [[(_ & _ & ?) _] _]|].
    intros g Hg. last_field; [|by split_and!]. intros [[[_ <-] <-] <-]. by destruct b.
  - intros s _. unfold sth_v2_encode. cbn [cat]. destruct (log_id_encode_to [] (sth_log_id s)); [|done].
    cbn. destruct (tree_head_encode_signed_input (sth_tree_head s)); [|done]. enc_nested.
Qed.

Lemma consistency_v2_codec : codec consistency_v2_decode_from consistency_v2_encode consistency_v2_ok.
Proof.
  unfold consistency_v2_decode_from. eapply (codec_ext _ _ _ consistency_v2_ok); [|done|].
  - eapply (codec_bind _ _ _ _ cp_log_id); [apply log_id_codec|by intros e (? & _)|].
    intros i Hi. eapply (codec_bind _ _ _ _ cp_tree_size_1); [apply codec_u64|by intros e [(_ & ? & _) _]|].
    intros m Hm. eapply (codec_bind _ _ _ _ cp_tree_size_2); [apply codec_u64|by intros e [[(_ & _ & ? & _) _] _]|].
    intros n Hn. apply codec_guard; [|intros e [[[(_ & _ & _ & ? & _) <-] <-] <-]; by apply Z.ltb_ge].
    intros Hle%Z.ltb_ge. eapply (codec_bind _ _ _ _ cp_path);
      [apply node_path_codec|by intros e [[[(_ & _ & _ & _ & ?) _] _] _]|].
    intros p Hp. last_field; [|by split_and!]. intros [[[[_ <-] <-] <-] <-]. by destruct b.
  - intros p (_ & _ & _ & Hle & _). unfold consistency_v2_encode. rewrite (proj2 (Z.ltb_ge _ _)) by done.
    enc_nested.
Qed.

Lemma inclusion_v2_codec : codec inclusion_v2_decode_from inclusion_v2_encode inclusion_v2_ok.
Proof.
  unfold inclusion_v2_decode_from. eapply (codec_ext _ _ _ inclusion_v2_ok); [|done|].
  - eapply (codec_bind _ _ _ _ ip_log_id); [apply log_id_codec|by intros e (? & _)|].
    intros i Hi. eapply (codec_bind _ _ _ _ ip_tree_size); [apply codec_u64|by intros e [(_ & ? & _) _]|].
    intros m Hm. eapply (codec_bind _ _ _ _ ip_leaf_index); [apply codec_u64|by intros e [[(_ & _ & ? & _) _] _]|].
    intros n Hn. apply codec_guard; [|intros e [[[(_ & _ & _ & ? & _) <-] <-] <-]; by apply Z.leb_gt].
    intros Hlt%Z.leb_gt. eapply (codec_bind _ _ _ _ ip_path);
      [apply node_path_codec|by intros e [[[(_ & _ & _ & _ & ?) _] _] _]|].
    intros p Hp. last_field; [|by split_and!]. intros [[[[_ <-] <-] <-] <-]. by destruct b.
  - intros p (_ & _ & _ & Hlt & _). unfold inclusion_v2_encode. rewrite (proj2 (Z.leb_gt _ _)) by done.
    enc_nested.
Qed.

(** ** Items *)

Lemma opaque_whole type :
  INCLUSION_PROOF_V2 < type < 2 ^ 16 →
  whole (r ← get; data ← reader_take (reader_remaining r); mret (Opaque type data)) item_payload
    (λ item, item_ok item ∧ trans_type item = type).
Proof.
  intros Ht r item Hwf. pose proof (rest_len r Hwf) as Hl. pose proof (rest_bytes r Hwf) as Hb.
  pose proof (wr_offset r Hwf). pose proof (wr_small r Hwf). pose proof (len_nonneg (rest r)).
  unfold mbind, stm_bind, get, mret, stm_ret.
  assert (reader_remaining r = len (rest r)) as -> by (unfold reader_remaining, saturating_sub64; lia).
  rewrite take_spec, Z.leb_refl, takeZ_all by (done || lia). split.
  - intros (r' & [= <- _] & _). cbn. unfold vector. split_and!; (done || lia).
  - intros [[Hok Hty] He].
    assert (item = Opaque type (rest r)) as ->.
    { destruct item; try (cbn in Hty; subst type; by destruct Ht). cbn in Hty, He. congruence. }
    eexists. split; [done|]. apply finish_rest;
      destruct (skip_rest r (rest r) [] Hwf ltac:(by rewrite app_nil_r)) as [? ?]; done.
Qed.

(** Arithmetic on the types of items. *)
Ltac item_types :=
  unfold X509_ENTRY_V2, PRECERT_ENTRY_V2, X509_SCT_V2, PRECERT_SCT_V2,
    SIGNED_TREE_HEAD_V2, CONSISTENCY_PROOF_V2, INCLUSION_PROOF_V2 in *; lia.

(** A constructor and the items of its type. *)
Ltac known_item :=
  let b := fresh "b" in
  intros b; split;
  [ destruct b; intros [Hok Hty]; cbn in Hok, Hty;
    first [by eauto | exfalso; item_types]
  | by intros (a & -> & Ha) ].

Lemma decode_payload_whole type :
  below (2 ^ 16) type →
  whole (decode_payload type) item_payload (λ item, item_ok item ∧ trans_type item = type).
Proof.
  intros Ht. unfold decode_payload.
  repeat match goal with
  | |- whole (if ?t =? ?n then _ else _) _ _ => destruct (Z.eqb_spec t n) as [->|]
  end.
  - eapply whole_codec, (codec_wrap _ _ _ X509Entry); [apply entry_v2_codec|known_item|done].
  - eapply whole_codec, (codec_wrap _ _ _ PrecertificateEntry); [apply entry_v2_codec|known_item|done].
  - eapply whole_codec, (codec_wrap _ _ _ X509Sct); [apply sct_v2_codec|known_item|done].
  - eapply whole_codec, (codec_wrap _ _ _ PrecertificateSct); [apply sct_v2_codec|known_item|done].
  - eapply whole_codec, (codec_wrap _ _ _ SignedTreeHead); [apply sth_v2_codec|known_item|done].
  - eapply whole_codec, (codec_wrap _ _ _ ConsistencyProof); [apply consistency_v2_codec|known_item|done].
  - eapply whole_codec, (codec_wrap _ _ _ InclusionProof); [apply inclusion_v2_codec|known_item|done].
  - destruct Ht as [Ht0 Ht]. rewrite (proj2 (Z.leb_le _ _)) by done. cbn [andb].
    destruct (Z.leb_spec type 0x00ff); [|apply opaque_whole;
      item_types].
    intros r item _. split; [by intros (r' & ? & _)|]. intros [[Hok Hty] _]. exfalso.
    destruct item; cbn in Hok, Hty; item_types.
Qed.

Lemma item_type_below item : item_ok item → below (2 ^ 16) (trans_type item).
Proof. by destruct item; cbn; [..|intros [[H1 H2] _]; unfold INCLUSION_PROOF_V2, below in *; lia]. Qed.

Lemma trans_item_whole : whole trans_item_decode_from trans_item_encode item_ok.
Proof.
  eapply whole_ext.
  - apply (whole_bind _ _ _ _ trans_type item_payload item_ok codec_u16 item_type_below).
    exact decode_payload_whole.
  - done.
  - intros item _. unfold trans_item_encode. cbn. by destruct (item_payload item).
Qed.

(** C12 (round trip).  [TransItemV2::decode] accepts exactly what
    [TransItemV2::encode] writes, for every kind of item: the LogID is a
    canonical OID, the extensions are strictly sorted, the sizes and the index
    of a proof are in order, and types of later versions are kept as they
    are. *)
Theorem trans_item_canonical l item :
  Forall is_byte l → len l < 2 ^ 63 →
  trans_item_decode l = Ok item ↔ item_ok item ∧ trans_item_encode item = Ok l.
Proof. intros Hb Hl. exact (decode_whole_iff _ _ _ _ _ trans_item_whole Hb Hl). Qed.

(** ** Lists of items *)

Lemma chain_const {A} (P : A → Prop) l : chain (λ _ : unit, P) (λ _, tt) tt l ↔ Forall P l.
Proof. induction l as [|a l IH]; cbn; [by split|]. by rewrite IH, Forall_cons. Qed.

Definition encode_list_item (item : TransItemV2) : ct bytes :=
  serialized ← trans_item_encode item; push_vector_u16 [] serialized 1.

Lemma list_item_codec : codec decode_list_item encode_list_item item_ok.
Proof.
  apply (codec_nested trans_item_decode trans_item_encode item_ok 1); [done|].
  intros encoded item Hb Hl. exact (decode_whole_iff _ _ _ _ _ trans_item_whole Hb Hl).
Qed.

Lemma encode_trans_item_loop_all l : ∀ out,
  encode_trans_item_loop out l = (x ← encode_all encode_list_item l; Ok (out ++ x)).
Proof.
  induction l as [|i l IH]; intros out; cbn; [by rewrite app_nil_r|]. unfold encode_list_item at 2.
  destruct (trans_item_encode i) as [s|]; [|done]. cbn. rewrite push_vector_u16_app.
  destruct (push_vector_u16 [] s 1) as [x|]; [|done]. cbn. rewrite IH.
  destruct (encode_all encode_list_item l); [|done]. cbn. by rewrite <- !app_assoc.
Qed.

Lemma vector_input_iff l c :
  Forall is_byte l → len l < 2 ^ 63 →
  decode_whole (vector_u16 1 U16_MAX) l = Ok c ↔ vec 1 U16_MAX c ∧ push_vector_u16 [] c 1 = Ok l.
Proof.
  intros Hb Hl. apply (decode_whole_iff _ (λ c, push_vector_u16 [] c 1) _ l c); [|done..].
  by apply whole_codec, codec_vector_u16.
Qed.

(** [decode_trans_item_list] accepts exactly what
    [encode_trans_item_list] writes: a non-empty list of well-formed items,
    each filling its own vector. *)
Theorem trans_item_list_canonical l items :
  Forall is_byte l → len l < 2 ^ 63 →
  decode_trans_item_list l = Ok items ↔ Forall item_ok items ∧ encode_trans_item_list items = Ok l.
Proof.
  intros Hb Hl. unfold decode_trans_item_list, encode_trans_item_list.
  rewrite encode_trans_item_loop_all, <- (chain_const item_ok).
  assert (∀ c, Forall is_byte c → len c ≤ U16_MAX →
    read_items (λ _, decode_list_item) (λ _, tt) tt c = Ok items ↔
    chain (λ _, item_ok) (λ _, tt) tt items ∧ encode_all encode_list_item items = Ok c) as Hr.
  { intros c Hcb Hcl. apply read_items_iff; [by intros _; apply list_item_codec| |done|unfold U16_MAX in *; lia].
    intros _ i _. unfold encode_list_item. destruct (trans_item_encode i); [|done]. apply push_vector_u16_cons. }
  split.
  - destruct (decode_whole _ l) as [c|] eqn:Hc; [|done]. cbn.
    apply vector_input_iff in Hc as [[Hcb Hcl] Hp]; [|done..]. intros [Hch He]%Hr; [|done|lia]. split; [done|].
    rewrite He. cbn. destruct items as [|i items]; [|done]. injection He as <-. rewrite len_nil in Hcl. lia.
  - intros [Hch He]. destruct (is_empty items); [done|].
    destruct (encode_all encode_list_item items) as [c|] eqn:Hc; [|done]. cbn in He.
    assert (vec 1 U16_MAX c) as [Hcb Hcl].
    { destruct (push_vector_u16_Ok _ _ _ _ He) as [Hex ?]. rewrite Hex, !Forall_app in Hb.
      by split; [apply Hb|]. }
    rewrite (proj2 (vector_input_iff l c Hb Hl) (conj (conj Hcb Hcl) He)). cbn. apply Hr; [done|lia|done].
Qed.

(** ** Versions *)

(** The two versions of the protocol never share a leaf: a v1
    Merkle leaf is no v2 item, is refused as a v2 leaf, and no v2 entry is
    hashed or signed as the octets of a v1 leaf. *)
Theorem versions_disjoint `{Sha256} v x entry y :
  merkle_leaf_encode v = Ok x → len x < 2 ^ 63 → Forall is_byte x → item_ok entry →
  sct_signed_input entry = Ok y →
  (∃ e, trans_item_decode x = Err e) ∧ (∃ e, merkle_leaf_hash_serialized x = Err e) ∧ x ≠ y.
Proof.
  intros Hx Hl Hb Hok Hy. assert (∃ b, x = be_bytes 2 0 ++ b) as [b ->].
  { unfold merkle_leaf_encode in Hx. destruct (timestamped_entry_encode _) as [b|]; [|done].
    exists b. injection Hx as <-. done. }
  assert (reader_u16 (reader_new (be_bytes 2 0 ++ b)) = (Ok 0, skip 2 (reader_new (be_bytes 2 0 ++ b)))) as Hr.
  { apply (c_read _ _ _ codec_u16 0 _ (be_bytes 2 0) b); [done|done|by apply wf_new|done]. }
  split_and!.
  - unfold trans_item_decode, decode_whole, trans_item_decode_from, mbind, stm_bind. rewrite Hr. by eexists.
  - unfold merkle_leaf_hash_serialized. rewrite Hr. by eexists.
  - intros <-. assert (∃ p, be_bytes 2 (trans_type entry) ++ p = be_bytes 2 0 ++ b) as [p Hp].
    { destruct entry; try done; unfold sct_signed_input, trans_item_encode in Hy; cbn [app] in Hy;
        (destruct (item_payload _) as [q|]; [|done]); injection Hy as Hy; by exists q. }
    apply (be_bytes_app_inj 2) in Hp as [Ht _]; [|by apply item_type_below|done]. by destruct entry.
Qed.

(** ** Receipts *)

Section receipts.
Context `{Base64}.

(** An item whose encoding is a vector. *)
Definition carried (item : TransItemV2) : Prop :=
  item_ok item ∧ ∀ e, trans_item_encode item = Ok e → vector e.

Definition text_of {A} (encode : A → ct bytes) (a : A) : ct bytes :=
  e ← encode a; Ok (base64_encode e).

Definition texts_of {A} (encode : A → ct bytes) (o : option A) : ct (option bytes) :=
  x ← transpose_map encode o; Ok (fmap (M := option) base64_encode x).

Lemma decode_text_iff s item :
  (b ← decode_base64_v2 s; trans_item_decode b) = Ok item ↔ carried item ∧ text_of trans_item_encode item = Ok s.
Proof.
  unfold decode_base64_v2, text_of, carried. split.
  - destruct (base64_decode s) as [d|] eqn:Hd; cbn; [|done].
    case_bool_decide as Heq; cbn; [|done]. subst s.
    destruct (base64_decode_vector _ _ Hd) as [Hb Hl].
    intros [Hok He]%(decode_whole_iff _ _ _ _ _ trans_item_whole Hb Hl). rewrite He.
    split; [|done]. split; [done|]. by intros e [= <-].
  - intros [[Hok Hv] He]. destruct (trans_item_encode item) as [e|] eqn:Hitem; [|done].
    injection He as <-. destruct (Hv e eq_refl) as [Hb Hl]. rewrite base64_roundtrip by done. cbn.
    rewrite bool_decide_eq_true_2 by done. cbn. by apply (decode_whole_iff _ _ _ _ _ trans_item_whole Hb Hl).
Qed.

Lemma decode_sth_item_iff s v :
  decode_sth_item s = Ok v ↔ carried (SignedTreeHead v) ∧ text_of (λ v, trans_item_encode (SignedTreeHead v)) v = Ok s.
Proof.
  etransitivity; [|exact (decode_text_iff s (SignedTreeHead v))]. unfold decode_sth_item. destruct (decode_base64_v2 s) as [b|]; [|done]. cbn.
  destruct (trans_item_decode b) as [[]|]; cbn; try done; split; by intros [= <-].
Qed.

Lemma decode_inclusion_item_iff s v :
  decode_inclusion_item s = Ok v ↔ carried (InclusionProof v) ∧ text_of (λ v, trans_item_encode (InclusionProof v)) v = Ok s.
Proof.
  etransitivity; [|exact (decode_text_iff s (InclusionProof v))]. unfold decode_inclusion_item. destruct (decode_base64_v2 s) as [b|]; [|done]. cbn.
  destruct (trans_item_decode b) as [[]|]; cbn; try done; split; by intros [= <-].
Qed.

Lemma transpose_map_iff {A} (f : bytes → ct A) (g : A → ct bytes) (C : A → Prop) o o' :
  (∀ s a, f s = Ok a ↔ C a ∧ text_of g a = Ok s) →
  transpose_map f o = Ok o' ↔
  (∀ a, o' = Some a → C a) ∧ texts_of g o' = Ok o.
Proof.
  intros Hf. unfold text_of, texts_of in *. destruct o as [s|], o' as [a|]; cbn.
  - split.
    + destruct (f s) as [a'|] eqn:Hs; [|done]. cbn. intros [= <-]. apply Hf in Hs as [HC Hs].
      destruct (g a'); [|done]. injection Hs as <-. split; [by intros ? [= <-]|done].
    + intros [HC Hs]. destruct (g a) as [e|] eqn:Hg; [|done]. injection Hs as <-.
      by rewrite (proj2 (Hf (base64_encode e) a)) by (split; [by apply HC|by rewrite Hg]).
  - split; [by destruct (f s)|by intros [_ ?]].
  - split; [done|]. by destruct (g a); intros [_ ?].
  - by split.
Qed.

Lemma sct_item_log_id_Ok sct e e' log : sct_item_log_id sct e = Ok log → sct_item_log_id sct e' = Ok log.
Proof. by destruct sct. Qed.

Lemma decode_items_iff r sct sth inclusion :
  decode_items r = Ok (sct, sth, inclusion) ↔
  carried sct ∧ (∀ v, sth = Some v → carried (SignedTreeHead v))
    ∧ (∀ v, inclusion = Some v → carried (InclusionProof v)) ∧ from_items sct sth inclusion = Ok r.
Proof.
  pose proof (decode_text_iff (rs_sct r) sct) as Hsct.
  pose proof (transpose_map_iff _ _ _ (rs_sth r) sth decode_sth_item_iff) as Hsth.
  pose proof (transpose_map_iff _ _ _ (rs_inclusion r) inclusion decode_inclusion_item_iff) as Hinc.
  unfold texts_of, text_of in *. unfold decode_items, from_items. split.
  - destruct (decode_base64_v2 (rs_sct r)) as [b|]; [|done]. cbn in *.
    destruct (trans_item_decode b) as [i|]; [|done]. cbn in *.
    destruct (sct_item_log_id i _) as [log|] eqn:Hlog; [|done]. cbn in *.
    destruct (transpose_map decode_sth_item _) as [h|]; [|done]. cbn in *.
    destruct (transpose_map decode_inclusion_item _) as [p|]; [|done]. cbn in *.
    destruct (check_receipt log h p) as [[]|] eqn:Hcheck; [|done]. intros [= -> -> ->].
    destruct (proj1 Hsct eq_refl) as [Hc1 Ht1], (proj1 Hsth eq_refl) as [Hc2 Ht2], (proj1 Hinc eq_refl) as [Hc3 Ht3].
    split_and!; [done..|]. unfold text_of in Ht1.
    rewrite (sct_item_log_id_Ok _ _ _ _ Hlog). cbn. rewrite Hcheck. cbn. destruct (trans_item_encode sct); [|done]. cbn in *.
    destruct (transpose_map _ sth); [|done]. cbn in *. destruct (transpose_map _ inclusion); [|done]. cbn in *.
    destruct r. cbn in *. congruence.
  - intros (Hc1 & Hc2 & Hc3 & Hr). destruct (sct_item_log_id sct _) as [log|] eqn:Hlog; [|done]. cbn in Hr.
    destruct (check_receipt log sth inclusion) as [[]|] eqn:Hcheck; [|done]. cbn in Hr.
    unfold text_of in Hsct. destruct (trans_item_encode sct); [|done]. cbn in *.
    destruct (transpose_map _ sth); [|done]. cbn in *. destruct (transpose_map _ inclusion); [|done].
    injection Hr as <-. cbn in *.
    pose proof (proj2 Hsct (conj Hc1 eq_refl)) as Hs.
    destruct (decode_base64_v2 _) as [b|]; [|done]. cbn in *. rewrite Hs. cbn.
    rewrite (sct_item_log_id_Ok _ _ _ _ Hlog). cbn. rewrite (proj2 Hsth), (proj2 Hinc) by done. cbn.
    by rewrite Hcheck.
Qed.

(** [SubmitEntryResponseV2::decode_items] accepts exactly
    the responses [from_items] builds from the same items. *)
Theorem receipt_canonical r sct sth inclusion :
  decode_items r = Ok (sct, sth, inclusion) ↔
  carried sct ∧ (∀ v, sth = Some v → carried (SignedTreeHead v))
    ∧ (∀ v, inclusion = Some v → carried (InclusionProof v)) ∧ from_items sct sth inclusion = Ok r.
Proof. apply decode_items_iff. Qed.

Lemma check_receipt_Ok log sth inclusion :
  check_receipt log sth inclusion = Ok tt →
  (∀ h, sth = Some h → sth_log_id h = log) ∧ (∀ p, inclusion = Some p → ip_log_id p = log)
  ∧ (∀ h p, sth = Some h → inclusion = Some p → th_tree_size (sth_tree_head h) = ip_tree_size p).
Proof.
  unfold check_receipt. intros Hc. split_and!.
  - intros h ->. case_bool_decide; [done|]. by destruct inclusion.
  - intros p ->. case_bool_decide; [done|]. rewrite orb_true_r in Hc. done.
  - intros h p -> ->. destruct (_ || _); [done|]. by destruct (Z.eqb_spec (th_tree_size (sth_tree_head h)) (ip_tree_size p)).
Qed.

(**  The parts of an accepted receipt belong together: they name
    the log of the SCT, the inclusion proof is for the size of the signed tree
    head, and its index lies in that tree. *)
Theorem receipt_coherent r sct sth inclusion :
  decode_items r = Ok (sct, sth, inclusion) →
  ∃ s, (sct = X509Sct s ∨ sct = PrecertificateSct s)
    ∧ (∀ h, sth = Some h → sth_log_id h = s2_log_id s)
    ∧ (∀ p, inclusion = Some p → ip_log_id p = s2_log_id s ∧ ip_leaf_index p < ip_tree_size p)
    ∧ (∀ h p, sth = Some h → inclusion = Some p → th_tree_size (sth_tree_head h) = ip_tree_size p).
Proof.
  intros Hd. pose proof (proj1 (decode_items_iff r sct sth inclusion) Hd) as (_ & _ & Hc & Hr).
  unfold from_items in Hr. destruct (sct_item_log_id sct _) as [log|] eqn:Hlog; [|done]. cbn in Hr.
  assert (∃ s, (sct = X509Sct s ∨ sct = PrecertificateSct s) ∧ log = s2_log_id s) as (s & Hs & ->).
  { destruct sct; try done; injection Hlog as <-; eauto. }
  destruct (check_receipt _ sth inclusion) as [[]|] eqn:Hcheck; [|done].
  apply check_receipt_Ok in Hcheck as (H1 & H2 & H3). exists s. split_and!; [done..| |done].
  intros p Hp. split; [by apply H2|]. destruct (Hc p Hp) as [(_ & _ & _ & ? & _) _]. done.
Qed.
End receipts.

(** ** Concrete items *)

Definition demo_log : LogIdV2 := mkLogIdV2 [0x2a; 0x86; 0x48; 0xce; 0x3d; 4; 3; 2].

Definition demo_sct_item : TransItemV2 :=
  X509Sct (mkSctV2 demo_log 5 [mkExtensionV2 1 [7]; mkExtensionV2 2 []] [1; 2; 3]).
Definition demo_sth : SignedTreeHeadV2 :=
  mkSthV2 demo_log (mkTreeHeadV2 6 9 (replicate 32 1) []) [4].
Definition demo_inclusion : InclusionProofV2 := mkInclusionProofV2 demo_log 9 8 [replicate 32 2].

Definition wire (r : ct bytes) : bytes := match r with Ok l => l | Err _ => [] end.

Ltac closed_ok :=
  repeat match goal with
  | |- _ ∧ _ => split
  | |- True => exact I
  | |- Forall _ _ => apply (bool_decide_unpack _); vm_compute; exact I
  end; try reflexivity; try (vm_compute; congruence).

Lemma demo_sct_item_ok : item_ok demo_sct_item.
Proof. cbv -[U16_MAX len is_byte validate_oid_value]. closed_ok. Qed.

Lemma demo_sth_ok : item_ok (SignedTreeHead demo_sth).
Proof. cbv -[U16_MAX len is_byte validate_oid_value]. closed_ok. Qed.

Lemma demo_inclusion_ok : item_ok (InclusionProof demo_inclusion).
Proof. cbv -[U16_MAX len is_byte validate_oid_value]. closed_ok. Qed.

Lemma trans_item_canonical_witness :
  trans_item_decode (wire (trans_item_encode demo_sct_item)) = Ok demo_sct_item.
Proof.
  apply trans_item_canonical; [closed_ok|vm_compute; reflexivity|].
  split; [exact demo_sct_item_ok|vm_compute; reflexivity].
Defined.

Definition demo_items : list TransItemV2 := [demo_sct_item; InclusionProof demo_inclusion].

Lemma trans_item_list_canonical_witness :
  decode_trans_item_list (wire (encode_trans_item_list demo_items)) = Ok demo_items.
Proof.
  apply trans_item_list_canonical; [closed_ok|vm_compute; reflexivity|].
  split; [|vm_compute; reflexivity].
  apply Forall_cons; split; [exact demo_sct_item_ok|apply Forall_cons; split; [exact demo_inclusion_ok|done]].
Defined.

Definition demo_entry : TransItemV2 := X509Entry (mkEntryV2 3 (replicate 32 5) [1] []).

Lemma versions_disjoint_witness :
  let _ := toy_sha256 in
  let x := wire (merkle_leaf_encode demo_leaf) in
  (∃ e, trans_item_decode x = Err e) ∧ (∃ e, merkle_leaf_hash_serialized x = Err e)
    ∧ x ≠ wire (sct_signed_input demo_entry).
Proof.
  cbv zeta. apply (@versions_disjoint toy_sha256 demo_leaf _ demo_entry);
    [vm_compute; reflexivity|vm_compute; reflexivity|closed_ok| |vm_compute; reflexivity].
  cbv -[U8_MAX U24_MAX len is_byte Z.le Z.lt]. closed_ok.
Defined.

Lemma receipt_coherent_witness :
  ∃ r s, from_items demo_sct_item (Some demo_sth) (Some demo_inclusion) = Ok r
    ∧ demo_sct_item = X509Sct s ∧ sth_log_id demo_sth = s2_log_id s
    ∧ ip_leaf_index demo_inclusion < ip_tree_size demo_inclusion.
Proof.
  destruct (from_items demo_sct_item (Some demo_sth) (Some demo_inclusion)) as [r|] eqn:Hr;
    [|vm_compute in Hr; discriminate Hr].
  assert (decode_items r = Ok (demo_sct_item, Some demo_sth, Some demo_inclusion)) as Hd.
  { vm_compute in Hr. injection Hr as <-. vm_compute. reflexivity. }
  destruct (receipt_coherent r _ _ _ Hd) as (s & [Hs|Hs] & Hh & Hp & _); [|discriminate Hs].
  exists r, s. split; [reflexivity|]. split; [exact Hs|]. split; [by apply Hh|]. by apply (Hp demo_inclusion).
Defined.
