(* ===== verification/StaticCt.v ===== *)
(** * Static Certificate Transparency API

    [src/source/crates/oxibelt-ct/src/static_ct.rs]: tile paths, hash and
    data tiles, the leaf index extension and checkpoints in the signed note
    format. *)

From S2P Require Import Prelude Bytes Text Base64 CtCodec CtMerkle Rfc6962.

Definition TILE_WIDTH : Z := 256.
Definition MAX_TILE_LEVEL : Z := 5.
Definition LEAF_INDEX_EXTENSION_TYPE : Z := 0.
Definition RFC6962_NOTE_SIGNATURE_TYPE : Z := 0x05.

(** An em dash and a space. *)
Definition SIGNATURE_LINE_PREFIX : bytes := [0xE2; 0x80; 0x94; 0x20].

(** ** Tile paths *)

Inductive TileKind : Type :=
  | Hashes (level : Z)
  | Data.

#[export] Instance TileKind_eq_dec : EqDecision TileKind.
Proof. solve_decision. Defined.

Record TilePath : Type := mkTilePath {
  tp_kind : TileKind;
  tp_index : Z;
  tp_partial_width : option Z;
}.

(** Three octets at a time: [&padded[start..start + 3]] for [start] in steps
    of three. *)
Fixpoint groups_of_3 (l : bytes) : list bytes :=
  match l with
  | a :: b :: c :: l => [a; b; c] :: groups_of_3 l
  | _ => []
  end.

(** Every group but the last has the prefix [x]. *)
Fixpoint mark_groups (groups : list bytes) : list bytes :=
  match groups with
  | [] => []
  | [group] => [group]
  | group :: groups => (ascii "x" ++ group) :: mark_groups groups
  end.

Definition render_tile_index (index : Z) : bytes :=
  let padded_length := (len (decimal index) + 2) / 3 * 3 in
  let padded := zero_padded padded_length index in
  join_with 47 (mark_groups (groups_of_3 padded)).

(** The digits of the groups, the last without its prefix. *)
Fixpoint tile_index_digits (groups : list bytes) (decimal : bytes) : ct bytes :=
  match groups with
  | [] => Ok decimal
  | group :: groups =>
      digits ← (if is_empty groups then Ok group
                else ok_or (strip_prefix (ascii "x") group) "Static CT tile index prefix is missing"%string);
      if negb (len digits =? 3) || negb (forallb is_ascii_digit digits)
      then Err "Static CT tile index group is not three decimal digits"%string
      else tile_index_digits groups (decimal ++ digits)
  end.

Definition parse_tile_index (groups : list bytes) : ct Z :=
  if is_empty groups then Err "Static CT tile index is missing"%string
  else
    decimal ← tile_index_digits groups [];
    ok_or (parse_unsigned U64_MAX decimal) "Static CT tile index overflows u64"%string.

Definition parse_canonical_decimal_u8 (value : bytes) : ct Z :=
  if is_empty value || ((1 <? len value) && starts_with (ascii "0") value)
     || negb (forallb is_ascii_digit value)
  then Err "Static CT decimal value is not canonical"%string
  else ok_or (parse_unsigned U8_MAX value) "Static CT decimal value overflows u8"%string.

Definition tile_path_render (t : TilePath) : ct bytes :=
  if match tp_kind t with Hashes level => MAX_TILE_LEVEL <? level | Data => false end
  then Err "Static CT tile level exceeds 5"%string
  else if bool_decide (tp_partial_width t = Some 0)
  then Err "Static CT partial tile width must be positive"%string
  else
    let index := render_tile_index (tp_index t) in
    let kind := match tp_kind t with Hashes level => decimal level | Data => ascii "data" end in
    let suffix := match tp_partial_width t with
                  | Some width => ascii ".p/" ++ decimal width
                  | None => []
                  end in
    Ok (ascii "tile/" ++ kind ++ ascii "/" ++ index ++ suffix).

(** [components.iter().position(..)] *)
Fixpoint position (p : bytes → bool) (l : list bytes) : option nat :=
  match l with
  | [] => None
  | x :: l => if p x then Some O else S <$> position p l
  end.

Definition parse_tile_kind (component : bytes) : ct TileKind :=
  if bool_decide (component = ascii "data") then Ok Data
  else
    level ← parse_canonical_decimal_u8 component;
    if MAX_TILE_LEVEL <? level then Err "Static CT tile level exceeds 5"%string
    else Ok (Hashes level).

(** The components of the index and the partial width, from all components. *)
Definition split_partial (components : list bytes) : ct (list bytes * option Z) :=
  match position (ends_with (ascii ".p")) components with
  | None => Ok (drop 2 components, None)
  | Some position =>
      if (position <? 2)%nat || negb (position + 2 =? length components)%nat
      then Err "invalid Static CT partial tile suffix"%string
      else
        let marker := default [] (components !! position) in
        if bool_decide (marker = ascii ".p") || negb (ends_with (ascii ".p") marker)
        then Err "invalid Static CT partial tile marker"%string
        else
          base ← ok_or (strip_suffix (ascii ".p") marker) "invalid Static CT partial tile marker"%string;
          let index := take (position - 2) (drop 2 components) ++ [base] in
          width ← parse_canonical_decimal_u8 (default [] (components !! S position));
          if width =? 0 then Err "Static CT partial tile width must be positive"%string
          else Ok (index, Some width)
  end.

Definition tile_path_parse (path : bytes) : ct TilePath :=
  if starts_with (ascii "/") path || ends_with (ascii "/") path
  then Err "Static CT tile path must be relative and canonical"%string
  else
    let components := split_on 47 path in
    if (length components <? 3)%nat || negb (bool_decide (components !! 0%nat = Some (ascii "tile")))
    then Err "invalid Static CT tile path"%string
    else
      kind ← parse_tile_kind (default [] (components !! 1%nat));
      '(index_components, partial_width) ← split_partial components;
      index ← parse_tile_index index_components;
      let value := mkTilePath kind index partial_width in
      rendered ← tile_path_render value;
      if negb (bool_decide (rendered = path)) then Err "Static CT tile path is not canonical"%string
      else Ok value.

(** ** Tiles *)

(** [slice.chunks_exact(HASH_BYTES)], each taken as an array.  A slice has
    fewer chunks than octets. *)
Fixpoint chunks_exact (fuel : nat) (e : CtError) (l : bytes) : ct (list Hash) :=
  match fuel with
  | O => Ok []
  | S fuel =>
      if len l <? HASH_BYTES then Ok []
      else
        hash ← to_array 32 (takeZ HASH_BYTES l) e;
        hashes ← chunks_exact fuel e (dropZ HASH_BYTES l);
        Ok (hash :: hashes)
  end.

Definition encode_hash_tile (hashes : list Hash) : ct bytes :=
  if is_empty hashes || (TILE_WIDTH <? len hashes)
  then Err "Static CT hash tile width must be between 1 and 256"%string
  else Ok (concat hashes).

Definition decode_hash_tile (input : bytes) (expected_width : Z) : ct (list Hash) :=
  if negb ((1 <=? expected_width) && (expected_width <=? TILE_WIDTH))
     || negb (len input =? saturating_mul64 expected_width HASH_BYTES)
  then Err "Static CT hash tile has the wrong width"%string
  else chunks_exact (length input) "Static CT tile hash must be 32 bytes"%string input.

Record StaticTileLeaf : Type := mkStaticTileLeaf {
  sl_timestamped_entry : TimestampedEntryV1;
  sl_pre_certificate : option bytes;
  sl_certificate_chain : list Hash;
}.

Definition is_precertificate (e : SignedEntryV1) : bool :=
  match e with
  | Precertificate _ _ => true
  | X509 _ => false
  end.

Definition static_leaf_encode (l : StaticTileLeaf) : ct bytes :=
  if negb (Bool.eqb (is_precertificate (te_signed_entry (sl_timestamped_entry l)))
             (is_some (sl_pre_certificate l)))
  then Err "Static CT pre_certificate presence does not match entry type"%string
  else
    output ← timestamped_entry_encode (sl_timestamped_entry l);
    output ← match sl_pre_certificate l with
             | Some pre_certificate => push_vector_u24 output pre_certificate 1
             | None => Ok output
             end;
    push_vector_u16 output (concat (sl_certificate_chain l)) 0.

Definition static_leaf_decode_from : reader StaticTileLeaf :=
  timestamped_entry ← timestamped_entry_decode_from;
  pre_certificate ← (if is_precertificate (te_signed_entry timestamped_entry)
                     then (pre_certificate ← vector_u24 1 U24_MAX; mret (Some pre_certificate))
                     else mret None);
  fingerprints ← vector_u16 0 U16_MAX;
  if negb (len fingerprints mod HASH_BYTES =? 0)
  then throw "Static CT certificate chain fingerprint vector is misaligned"%string
  else
    certificate_chain ← lift (chunks_exact (length fingerprints)
      "Static CT issuer fingerprint must be 32 bytes"%string fingerprints);
    mret (mkStaticTileLeaf timestamped_entry pre_certificate certificate_chain).

(** [for leaf in leaves { output.extend_from_slice(&leaf.encode()?); }] *)
Fixpoint encode_leaves (leaves : list StaticTileLeaf) (output : bytes) : ct bytes :=
  match leaves with
  | [] => Ok output
  | leaf :: leaves =>
      encoded ← static_leaf_encode leaf;
      encode_leaves leaves (output ++ encoded)
  end.

Definition encode_data_tile (leaves : list StaticTileLeaf) : ct bytes :=
  if is_empty leaves || (TILE_WIDTH <? len leaves)
  then Err "Static CT data tile width must be between 1 and 256"%string
  else encode_leaves leaves [].

(** [for _ in 0..count { leaves.push(StaticTileLeaf::decode_from(reader)?); }] *)
Fixpoint decode_leaves (count : nat) : reader (list StaticTileLeaf) :=
  match count with
  | O => mret []
  | S count =>
      leaf ← static_leaf_decode_from;
      leaves ← decode_leaves count;
      mret (leaf :: leaves)
  end.

Definition decode_data_tile (input : bytes) (expected_width : Z) : ct (list StaticTileLeaf) :=
  if negb ((1 <=? expected_width) && (expected_width <=? TILE_WIDTH))
  then Err "Static CT data tile expected width is invalid"%string
  else decode_whole (decode_leaves (Z.to_nat expected_width)) input.

(** ** Leaf index extension *)

Definition leaf_index_extension (leaf_index : Z) : ct bytes :=
  push_u40 [LEAF_INDEX_EXTENSION_TYPE; 0; 5] leaf_index.

(** Every extension takes at least three octets, so the length of the input
    is fuel enough. *)
Fixpoint leaf_index_loop (fuel : nat) (leaf_index : option Z) : reader (option Z) :=
  match fuel with
  | O => throw "out of fuel"%string
  | S fuel =>
      r ← get;
      if reader_is_empty r then mret leaf_index
      else
        extension_type ← reader_u8;
        data ← vector_u16 0 U16_MAX;
        if extension_type =? LEAF_INDEX_EXTENSION_TYPE then
          if is_some leaf_index || negb (len data =? 5)
          then throw "invalid or duplicate Static CT leaf_index extension"%string
          else
            index ← lift (decode_whole reader_u40 data);
            leaf_index_loop fuel (Some index)
        else leaf_index_loop fuel leaf_index
  end.

Definition parse_leaf_index_extension (extensions : bytes) : ct Z :=
  leaf_index ← (leaf_index_loop (S (length extensions)) None (reader_new extensions)).1;
  ok_or leaf_index "Static CT SCT is missing leaf_index extension"%string.

(** ** Issuer fingerprints *)

Section fingerprint.
Context `{Sha256}.

Definition issuer_fingerprint (certificate_der : bytes) : Hash := sha256 certificate_der.

Definition hex_digit (n : Z) : Z := default 0 (ascii "0123456789abcdef" !! Z.to_nat n).

Definition issuer_fingerprint_hex (certificate_der : bytes) : bytes :=
  concat (map (λ byte, [hex_digit (Z.shiftr byte 4); hex_digit (Z.land byte 0x0f)])
    (issuer_fingerprint certificate_der)).
End fingerprint.

(** ** Checkpoints *)

Record StaticCheckpoint : Type := mkStaticCheckpoint {
  cp_origin : bytes;
  cp_tree_size : Z;
  cp_root_hash : Hash;
  cp_timestamp : Z;
  cp_tree_head_signature : DigitallySigned;
}.

(** The characters neither an origin nor a key name holds. *)
Definition note_forbidden (c : Z) : bool := is_control c || is_whitespace c || (c =? 43).

Definition validate_origin (origin : bytes) : ct unit :=
  if is_empty origin || (2048 <? len origin) || is_some (first_occurrence (ascii "://") origin)
     || starts_with (ascii "/") origin || ends_with (ascii "/") origin
     || existsb note_forbidden (utf8_chars origin)
  then Err "Static CT checkpoint origin is not a schema-less URL"%string
  else Ok tt.

Definition validate_key_name (key_name : bytes) : ct unit :=
  if is_empty key_name || existsb note_forbidden (utf8_chars key_name)
  then Err "Static CT signed-note key name is invalid"%string
  else Ok tt.

Definition parse_canonical_u64 (value : bytes) : ct Z :=
  if is_empty value || ((1 <? len value) && starts_with (ascii "0") value)
     || negb (forallb is_ascii_digit value)
  then Err "Static CT checkpoint size is not canonical decimal"%string
  else ok_or (parse_unsigned U64_MAX value) "Static CT checkpoint size overflows u64"%string.

Section checkpoint.
Context `{Sha256, Base64}.

Definition checkpoint_text (origin : bytes) (tree_size : Z) (root_hash : Hash) : bytes :=
  origin ++ [10] ++ decimal tree_size ++ [10] ++ base64_encode root_hash ++ [10].

Definition checkpoint_key_id (origin : bytes) (log_id : Hash) : bytes :=
  takeZ 4 (sha256 (origin ++ [10] ++ [RFC6962_NOTE_SIGNATURE_TYPE] ++ log_id)).

Definition checkpoint_render (c : StaticCheckpoint) (log_id : Hash) : ct bytes :=
  _ ← validate_origin (cp_origin c);
  let text := checkpoint_text (cp_origin c) (cp_tree_size c) (cp_root_hash c) in
  let key_id := checkpoint_key_id (cp_origin c) log_id in
  tree_head_signature ← digitally_signed_encode (cp_tree_head_signature c);
  let signature := key_id ++ be_bytes 8 (cp_timestamp c) ++ tree_head_signature in
  Ok (text ++ [10] ++ SIGNATURE_LINE_PREFIX ++ cp_origin c ++ ascii " " ++ base64_encode signature
        ++ [10]).

(** What follows the key id in the log's signature. *)
Definition note_signature_decode_from : reader (Z * DigitallySigned) :=
  timestamp ← reader_u64;
  tree_head_signature ← digitally_signed_decode_from;
  mret (timestamp, tree_head_signature).

(** The loop over the lines of the signature block. *)
Fixpoint signature_lines (origin expected_key_id : bytes) (lines : list bytes)
    (matching : option (Z * DigitallySigned)) (signature_count : Z)
    : ct (option (Z * DigitallySigned)) :=
  match lines with
  | [] => Ok matching
  | line :: lines =>
      let signature_count := signature_count + 1 in
      if 16 <? signature_count then Err "Static CT checkpoint has too many signatures"%string
      else
        rest ← ok_or (strip_prefix SIGNATURE_LINE_PREFIX line)
                 "invalid Static CT checkpoint signature line"%string;
        '(key_name, encoded) ← ok_or (split_once 32 rest)
                                 "invalid Static CT checkpoint signature fields"%string;
        if is_empty encoded then Err "empty Static CT checkpoint signature field"%string
        else
          _ ← validate_key_name key_name;
          decoded ← ok_or (base64_decode encoded) "Static CT checkpoint signature is not base64"%string;
          if negb (bool_decide (base64_encode decoded = encoded))
          then Err "Static CT checkpoint signature is not canonical base64"%string
          else if negb (bool_decide (key_name = origin))
                  || negb (bool_decide (slice_get decoded 0 4 = Some expected_key_id))
          then signature_lines origin expected_key_id lines matching signature_count
          else if is_some matching
          then Err "duplicate Static CT RFC 6962 checkpoint signature"%string
          else
            value ← decode_whole note_signature_decode_from (dropZ 4 decoded);
            signature_lines origin expected_key_id lines (Some value) signature_count
  end.

Definition checkpoint_parse (input : bytes) (log_id : Hash) : ct StaticCheckpoint :=
  if (128 * 1024 <? len input) || negb (ends_with [10] input)
  then Err "Static CT checkpoint is too large or lacks final newline"%string
  else if existsb (λ c, (c <? 32) && negb (c =? 10)) (utf8_chars input)
  then Err "Static CT checkpoint contains forbidden control characters"%string
  else
    separator ← ok_or (last_occurrence [10; 10] input)
                  "Static CT checkpoint lacks signed-note separator"%string;
    let text := takeZ (separator + 1) input in
    let signature_block := dropZ (separator + 2) input in
    match split_on 10 (takeZ (len text - 1) text) with
    | [origin; size; encoded_root] =>
        _ ← validate_origin origin;
        tree_size ← parse_canonical_u64 size;
        root ← ok_or (base64_decode encoded_root) "Static CT checkpoint root is not base64"%string;
        root_hash ← to_array 32 root "Static CT checkpoint root must be 32 bytes"%string;
        if negb (bool_decide (checkpoint_text origin tree_size root_hash = text))
        then Err "Static CT checkpoint text is not canonical"%string
        else
          matching ← signature_lines origin (checkpoint_key_id origin log_id) (lines signature_block)
                       None 0;
          '(timestamp, tree_head_signature) ←
            ok_or matching "Static CT checkpoint lacks the expected log signature"%string;
          Ok (mkStaticCheckpoint origin tree_size root_hash timestamp tree_head_signature)
    | _ => Err "Static CT checkpoint text must have exactly three lines"%string
    end.

Definition signed_tree_head_input (c : StaticCheckpoint) : bytes :=
  encode_sth_signed_input (cp_timestamp c) (cp_tree_size c) (cp_root_hash c).
End checkpoint.
