(* ===== verification/StaticCtCodec.v ===== *)
(** * Tile paths, tiles and leaf indices have one form

    Each parser of [StaticCt] accepts exactly what its writer gives. *)

From S2P Require Import Prelude Bytes Text Base64 CtCodec CtWire CtMerkle Rfc6962.
From S2P Require Import Rfc6962Codec StaticCt.

(** ** Tile paths *)

(** Values of the Rust type: [u8], [u64] and [Option<u8>]. *)
Definition tile_path_ok (t : TilePath) : Prop :=
  match tp_kind t with Hashes level => below 256 level | Data => True end
    ∧ is_u64 (tp_index t)
    ∧ match tp_partial_width t with Some width => below 256 width | None => True end.

(** The parsers of [u8] and [u64] decimals are one, at two widths. *)
Lemma canonical_decimal_back max n e1 e2 :
  is_u64 n → n ≤ max →
  (if is_empty (decimal n) || ((1 <? len (decimal n)) && starts_with (ascii "0") (decimal n))
      || negb (forallb is_ascii_digit (decimal n))
   then Err e1 else ok_or (parse_unsigned max (decimal n)) e2) = Ok (E := CtError) n.
Proof.
  intros Hn Hm. destruct (decimal_spec n Hn) as (Hl & Hd & _). change (ascii "0") with [48].
  rewrite decimal_canonical, Hd, (proj2 (is_empty_false _)) by (done || lia). cbn [orb negb].
  by rewrite parse_decimal_back.
Qed.

Lemma below_256_u64 n : below 256 n → is_u64 n.
Proof. unfold below, is_u64. rewrite U64_MAX_val. lia. Qed.

Lemma parse_canonical_decimal_u8_back n : below 256 n → parse_canonical_decimal_u8 (decimal n) = Ok n.
Proof.
  intros Hn. apply canonical_decimal_back; [by apply below_256_u64|]. unfold below in Hn. unfold U8_MAX. lia.
Qed.

Lemma parse_canonical_decimal_u8_range l v : parse_canonical_decimal_u8 l = Ok v → below 256 v.
Proof.
  unfold parse_canonical_decimal_u8. case_match; [done|].
  destruct (parse_unsigned U8_MAX l) eqn:Hp; [|done]. intros [= <-].
  apply parse_unsigned_range in Hp; [|done]. unfold below, U8_MAX in *. lia.
Qed.

(** *** The groups of an index *)

Lemma threes_ind {A} (P : list A → Prop) :
  P [] → (∀ a b c l, P l → P (a :: b :: c :: l)) → ∀ l, len l mod 3 = 0 → P l.
Proof.
  intros H0 H3. fix IH 1. intros [|a [|b [|c l]]] Hl; [done|discriminate Hl..|].
  apply H3, IH. rewrite !len_cons in Hl. revert Hl. generalize (len l). intros. div_lia.
Qed.

(** A group: three digits. *)
Definition group (g : bytes) : Prop := len g = 3 ∧ forallb is_ascii_digit g = true.

Lemma groups_of_3_spec l :
  len l mod 3 = 0 → forallb is_ascii_digit l = true →
  concat (groups_of_3 l) = l ∧ Forall group (groups_of_3 l).
Proof.
  intros Hl. pattern l. revert l Hl. apply threes_ind; [done|].
  intros a b c l IH. cbn [forallb]. rewrite !andb_true_iff. intros (Ha & Hb & Hc & Hl).
  destruct (IH Hl) as [IH1 IH2]. cbn. rewrite IH1. split; [done|]. constructor; [|done].
  split; [done|]. cbn. by rewrite Ha, Hb, Hc.
Qed.

Lemma mark_groups_cons g gs : gs ≠ [] → mark_groups (g :: gs) = (ascii "x" ++ g) :: mark_groups gs.
Proof. by destruct gs. Qed.

Lemma mark_groups_nonempty gs : gs ≠ [] → mark_groups gs ≠ [].
Proof. destruct gs as [|g [|h gs]]; done. Qed.

Lemma tile_index_digits_back gs acc :
  Forall group gs → tile_index_digits (mark_groups gs) acc = Ok (acc ++ concat gs).
Proof.
  intros Hgs. revert acc. induction Hgs as [|g gs [Hl Hd] Hgs IH]; intros acc; [by rewrite app_nil_r|].
  destruct (decide (gs = [])) as [->|Hne].
  - cbn. rewrite Hd, (proj2 (Z.eqb_eq _ _) Hl). cbn. by rewrite app_nil_r.
  - rewrite mark_groups_cons by done. cbn [tile_index_digits].
    assert (is_empty (mark_groups gs) = false) as ->.
    { apply mark_groups_nonempty in Hne. by destruct (mark_groups gs). }
    rewrite (proj2 (strip_prefix_spec _ _ g)) by done. cbn [ok_or mbind result_bind].
    rewrite Hd, (proj2 (Z.eqb_eq _ _) Hl). cbn [negb orb]. rewrite IH. cbn. by rewrite <- app_assoc.
Qed.

(** The groups of the padded index. *)
Definition index_groups (index : Z) : list bytes :=
  groups_of_3 (zero_padded ((len (decimal index) + 2) / 3 * 3) index).

Lemma index_groups_spec index :
  is_u64 index →
  index_groups index ≠ [] ∧ Forall group (index_groups index)
    ∧ parse_unsigned U64_MAX (concat (index_groups index)) = Some index.
Proof.
  intros Hi. destruct (decimal_spec index Hi) as (Hl & _ & _). unfold index_groups.
  set (width := (len (decimal index) + 2) / 3 * 3). assert (len (decimal index) ≤ width) as Hw by (unfold width; div_lia).
  destruct (zero_padded_spec width index Hi Hw) as (Hlen & Hd & Hv).
  destruct (groups_of_3_spec (zero_padded width index)) as [Hc Hg]; [rewrite Hlen; unfold width; div_lia|done|].
  assert (zero_padded width index ≠ []) as Hne by (intros He; rewrite He, len_nil in Hlen; lia).
  split_and!; [|done|].
  - intros He. rewrite He in Hc. by rewrite <- Hc in Hne.
  - rewrite Hc. rewrite parse_unsigned_value; [by rewrite Hv|done|done|]. rewrite Hv. apply Hi.
Qed.

Lemma parse_tile_index_back index :
  is_u64 index → parse_tile_index (mark_groups (index_groups index)) = Ok index.
Proof.
  intros Hi. destruct (index_groups_spec index Hi) as (Hne & Hg & Hv). unfold parse_tile_index.
  apply mark_groups_nonempty in Hne. destruct (mark_groups _) eqn:Hm; [done|]. cbn [is_empty].
  rewrite <- Hm, tile_index_digits_back by done. cbn. by rewrite Hv.
Qed.

(** *** The components of a path *)

Lemma join_with_app sep a b : a ≠ [] → b ≠ [] → join_with sep (a ++ b) = join_with sep a ++ sep :: join_with sep b.
Proof.
  intros Ha Hb. induction a as [|x [|y a] IH]; [done|by destruct b|].
  change (join_with sep ((x :: y :: a) ++ b)) with (x ++ sep :: join_with sep ((y :: a) ++ b)).
  rewrite IH by done. change (join_with sep (x :: y :: a)) with (x ++ sep :: join_with sep (y :: a)).
  by rewrite <- app_assoc.
Qed.

Lemma join_with_snoc sep a x y : join_with sep (a ++ [x]) ++ y = join_with sep (a ++ [x ++ y]).
Proof.
  destruct (decide (a = [])) as [->|Ha]; [done|]. rewrite !join_with_app by done. by rewrite <- app_assoc.
Qed.

Definition kind_component (k : TileKind) : bytes :=
  match k with Hashes level => decimal level | Data => ascii "data" end.

(** The components after the kind, the index given without its last group. *)
Definition index_components (init : list bytes) (last : bytes) (width : option Z) : list bytes :=
  match width with
  | None => init ++ [last]
  | Some width => init ++ [last ++ ascii ".p"; decimal width]
  end.

Lemma render_components t path init last :
  tile_path_render t = Ok path → mark_groups (index_groups (tp_index t)) = init ++ [last] →
  path = join_with 47 ([ascii "tile"; kind_component (tp_kind t)]
                         ++ index_components init last (tp_partial_width t))
    ∧ tp_partial_width t ≠ Some 0
    ∧ match tp_kind t with Hashes level => level ≤ MAX_TILE_LEVEL | Data => True end.
Proof.
  intros Hr Hm. unfold tile_path_render in Hr. case_match eqn:Hk; [done|]. case_bool_decide as Hw; [done|].
  assert (render_tile_index (tp_index t) = join_with 47 (init ++ [last])) as Hi by by rewrite <- Hm.
  rewrite Hi in Hr. injection Hr as <-. split_and!; [|done|by destruct (tp_kind t); [apply Z.ltb_ge|]].
  assert (index_components init last (tp_partial_width t) ≠ []) as Hne.
  { unfold index_components. destruct (tp_partial_width t); by destruct init. }
  change ([ascii "tile"; kind_component (tp_kind t)] ++ index_components init last (tp_partial_width t))
    with ([ascii "tile"] ++ [kind_component (tp_kind t)] ++ index_components init last (tp_partial_width t)).
  rewrite (join_with_app _ [ascii _]), (join_with_app _ [kind_component _]) by done.
  unfold index_components. destruct (tp_partial_width t) as [w|].
  - replace (init ++ [last ++ ascii ".p"; decimal w]) with ((init ++ [last ++ ascii ".p"]) ++ [decimal w])
      by by rewrite <- app_assoc.
    rewrite (join_with_app _ (init ++ [last ++ _])), <- join_with_snoc by (done || by destruct init).
    cbn [join_with]. rewrite <- !app_assoc. by destruct (tp_kind t).
  - cbn [join_with]. rewrite app_nil_r. by destruct (tp_kind t).
Qed.

(** A component of a rendered path; all but the partial marker are plain. *)
Definition component (c : bytes) : Prop := without 47 c ∧ c ≠ [].
Definition plain (c : bytes) : Prop := component c ∧ without 112 c.

Lemma digits_plain l : forallb is_ascii_digit l = true → l ≠ [] → plain l.
Proof. intros Hd Hne. unfold plain, component. split_and!; [by apply digits_without|done|by apply digits_without]. Qed.

Lemma decimal_plain n : is_u64 n → plain (decimal n).
Proof.
  intros Hn. destruct (decimal_spec n Hn) as (Hl & Hd & _). apply digits_plain; [done|].
  intros He. rewrite He, len_nil in Hl. lia.
Qed.

Lemma plain_unmarked c : plain c → ends_with (ascii ".p") c = false.
Proof.
  intros (_ & Hp). apply not_true_is_false. intros [k ->]%ends_with_spec.
  apply without_app in Hp as [_ Hp]. by apply Hp, list_elem_of_In; right; left.
Qed.

Lemma mark_groups_plain gs : Forall group gs → Forall plain (mark_groups gs).
Proof.
  assert (∀ g, group g → plain g) as Hg.
  { intros g [Hl Hd]. apply digits_plain; [done|]. by intros ->. }
  induction 1 as [|g gs Hgg Hgs IH]; [done|]. destruct (decide (gs = [])) as [->|Hne].
  { constructor; [by apply Hg|done]. }
  rewrite mark_groups_cons by done. constructor; [|done]. destruct (Hg g Hgg) as [[? ?] ?].
  split; [split; [|done]|]; by apply without_cons.
Qed.

Lemma position_none p l : Forall (λ c, p c = false) l → position p l = None.
Proof. induction 1 as [|c l Hc Hl IH]; [done|]. cbn. by rewrite Hc, IH. Qed.

Lemma position_at p a x b :
  Forall (λ c, p c = false) a → p x = true → position p (a ++ x :: b) = Some (length a).
Proof. induction 1 as [|c a Hc Ha IH]; intros Hx; cbn; [by rewrite Hx|]. by rewrite Hc, IH. Qed.

Lemma split_on_snoc sep l : ∃ parts, split_on sep (l ++ [sep]) = parts ++ [[]].
Proof.
  induction l as [|b l [parts IH]]; cbn; [rewrite Z.eqb_refl; by exists [[]]|]. rewrite IH.
  destruct (b =? sep); [by exists ([] :: parts)|]. destruct parts as [|p parts]; [|by exists ((b :: p) :: parts)].
  cbn in *. exfalso. pose proof (join_split sep (l ++ [sep])) as Hj. rewrite IH in Hj. by destruct l.
Qed.

Lemma split_partial_back kind init last width :
  Forall plain [ascii "tile"; kind] → Forall plain (init ++ [last]) →
  match width with Some w => below 256 w ∧ w ≠ 0 | None => True end →
  split_partial ([ascii "tile"; kind] ++ index_components init last width) = Ok (init ++ [last], width).
Proof.
  intros Hk Hi Hw. assert (∀ l, Forall plain l → Forall (λ c, ends_with (ascii ".p") c = false) l) as Hun.
  { intros l Hl. eapply Forall_impl; [exact Hl|]. apply plain_unmarked. }
  unfold split_partial, index_components. destruct width as [w|].
  - apply Forall_app in Hi as [Hi [Hl _]%Forall_cons]. destruct Hw as [Hw Hw0].
    rewrite app_assoc, (position_at _ ([ascii "tile"; kind] ++ init)).
    2: { apply Hun, Forall_app. by split. }
    2: { apply ends_with_spec. by exists last. }
    set (pre := [ascii "tile"; kind] ++ init).
    assert (length pre = 2 + length init)%nat as Hpre by done.
    rewrite length_app, Hpre. cbn [length Nat.add].
    rewrite (proj2 (Nat.eqb_eq _ _)) by lia. cbn [Nat.ltb Nat.leb orb negb].
    rewrite lookup_app_r, Hpre, Nat.sub_diag by lia. cbn [lookup list_lookup from_option id].
    destruct Hl as [[_ Hne] _]. rewrite bool_decide_eq_false_2 by by intros ?%(app_inv_tail _ last []).
    rewrite (proj2 (ends_with_spec _ _)) by by exists last. cbn [negb orb].
    rewrite (proj2 (strip_suffix_spec _ _ last)) by done. cbn [ok_or mbind result_bind].
    rewrite lookup_app_r, Hpre by lia. replace (S (S (S (length init))) - (2 + length init))%nat with 1%nat by lia.
    cbn [lookup list_lookup from_option id]. rewrite parse_canonical_decimal_u8_back by done. cbn [mbind result_bind].
    rewrite (proj2 (Z.eqb_neq _ _)) by done. replace (S (S (length init)) - 2)%nat with (length init) by lia.
    change (drop 2 (pre ++ ?k)) with (init ++ k). by rewrite take_app_length.
  - rewrite position_none; [done|]. apply Hun, Forall_app. by split.
Qed.

Lemma parse_tile_kind_back k :
  match k with Hashes level => below 256 level ∧ level ≤ MAX_TILE_LEVEL | Data => True end →
  parse_tile_kind (kind_component k) = Ok k.
Proof.
  destruct k as [level|]; [|done]. intros [Hl Hm]. unfold parse_tile_kind. cbn [kind_component].
  destruct (decimal_spec level (below_256_u64 _ Hl)) as (_ & Hd & _).
  rewrite bool_decide_eq_false_2 by (intros He; by rewrite He in Hd).
  rewrite parse_canonical_decimal_u8_back by done. cbn. by rewrite (proj2 (Z.ltb_ge _ _)).
Qed.

Lemma kind_component_plain k :
  match k with Hashes level => below 256 level | Data => True end → plain (kind_component k).
Proof.
  destruct k as [level|]; intros Hk; [by apply decimal_plain, below_256_u64|].
  unfold plain, component. split_and!; by apply (bool_decide_unpack _).
Qed.

(** What a successful parse gives is of the Rust type. *)
Lemma parse_tile_kind_ok c k :
  parse_tile_kind c = Ok k → match k with Hashes level => below 256 level | Data => True end.
Proof.
  unfold parse_tile_kind. case_bool_decide; [by intros [= <-]|].
  destruct (parse_canonical_decimal_u8 c) as [v|] eqn:Hv; [|done]. cbn. case_match; [done|].
  intros [= <-]. by eapply parse_canonical_decimal_u8_range.
Qed.

Lemma parse_tile_index_ok groups n : parse_tile_index groups = Ok n → is_u64 n.
Proof.
  unfold parse_tile_index. case_match; [done|]. destruct (tile_index_digits groups []) as [d|]; [|done]. cbn.
  destruct (parse_unsigned U64_MAX d) eqn:Hp; [|done]. intros [= <-]. by eapply parse_unsigned_range.
Qed.

Lemma split_partial_ok components index width :
  split_partial components = Ok (index, width) → match width with Some w => below 256 w | None => True end.
Proof.
  unfold split_partial. destruct (position _ _) as [i|]; [|by intros [= _ <-]]. case_match; [done|].
  case_match; [done|]. destruct (strip_suffix _ _); [|done]. cbn [ok_or mbind result_bind].
  destruct (parse_canonical_decimal_u8 _) as [w|] eqn:Hw; [|done]. cbn [mbind result_bind].
  case_match; [done|]. intros [= _ <-]. by eapply parse_canonical_decimal_u8_range.
Qed.

(** A path of components has no slash at either end. *)
Lemma join_ends parts :
  parts ≠ [] → Forall component parts → let path := join_with 47 parts in
  starts_with (ascii "/") path || ends_with (ascii "/") path = false ∧ split_on 47 path = parts.
Proof.
  intros Hne Hparts. cbn zeta. assert (split_on 47 (join_with 47 parts) = parts) as Hs.
  { apply split_join; [done|]. eapply Forall_impl; [exact Hparts|]. by intros c [? _]. }
  assert ([] ∉ parts) as Hnil by (intros Hin; by apply (proj1 (Forall_forall _ _) Hparts) in Hin as [_ ?]).
  split; [|done]. apply orb_false_iff. split; apply not_true_is_false.
  - intros [k Hk]%starts_with_spec. rewrite Hk in Hs. cbn in Hs. apply Hnil. rewrite <- Hs. by left.
  - intros [k Hk]%ends_with_spec. rewrite Hk in Hs. destruct (split_on_snoc 47 k) as [ps Hps].
    change (ascii "/") with [47] in Hs. apply Hnil. rewrite <- Hs, Hps. apply elem_of_app. right. by left.
Qed.

Lemma index_components_ok init last width :
  Forall plain (init ++ [last]) → match width with Some w => below 256 w | None => True end →
  Forall component (index_components init last width) ∧ (0 < length (index_components init last width))%nat.
Proof.
  intros Hi Hw. assert (Forall component (init ++ [last])) as Hc by (eapply Forall_impl; [exact Hi|]; by intros c [? _]).
  unfold index_components. destruct width as [w|]; [|split; [done|]; rewrite length_app; cbn; lia].
  apply Forall_app in Hc as [Hc [[Hl Hne] _]%Forall_cons]. split; [|rewrite length_app; cbn; lia].
  apply Forall_app. split; [done|]. repeat constructor; [|by destruct last| |].
  - apply without_app. split; [done|]. by apply (bool_decide_unpack _).
  - by apply decimal_plain, below_256_u64.
  - by apply decimal_plain, below_256_u64.
Qed.

(** [TilePath::parse] accepts exactly what [render] gives: a
    path has one spelling, and every path of the Rust type that renders is
    parsed back. *)
Theorem tile_path_canonical path t :
  tile_path_parse path = Ok t ↔ tile_path_ok t ∧ tile_path_render t = Ok path.
Proof.
  split.
  - unfold tile_path_parse. case_match; [done|]. case_match; [done|].
    set (components := split_on 47 path).
    destruct (parse_tile_kind _) as [kind|] eqn:Hk; [|done]. cbn [mbind result_bind].
    destruct (split_partial components) as [[index width]|] eqn:Hs; [|done]. cbn [mbind result_bind].
    destruct (parse_tile_index index) as [n|] eqn:Hn; [|done]. cbn [mbind result_bind].
    destruct (tile_path_render _) as [r|] eqn:Hr; [|done]. cbn [mbind result_bind].
    destruct (bool_decide_reflect (r = path)) as [->|]; [|done]. intros [= <-]. split; [|done]. split_and!; cbn.
    + by eapply parse_tile_kind_ok.
    + by eapply parse_tile_index_ok.
    + by eapply split_partial_ok.
  - intros [(Hk & Hi & Hw) Hr]. destruct (index_groups_spec (tp_index t) Hi) as (Hne & Hg & _).
    apply mark_groups_nonempty in Hne. pose proof (mark_groups_plain _ Hg) as Hpl.
    pose proof (parse_tile_index_back (tp_index t) Hi) as Hback.
    destruct (mark_groups (index_groups (tp_index t))) as [|last init _] eqn:Hm using rev_ind; [done|].
    destruct (render_components t path init last Hr Hm) as (Hpath & Hw0 & Hlevel).
    destruct (index_components_ok init last _ Hpl Hw) as [Hcomp Hlen].
    assert (Forall plain [ascii "tile"; kind_component (tp_kind t)]) as Hkind.
    { constructor; [|constructor; [by apply kind_component_plain|done]].
      unfold plain, component. split_and!; by apply (bool_decide_unpack _). }
    destruct (join_ends ([ascii "tile"; kind_component (tp_kind t)]
      ++ index_components init last (tp_partial_width t))) as [Hends Hsplit]; [done| |].
    { apply Forall_app. split; [|done]. eapply Forall_impl; [exact Hkind|]. by intros c [? _]. }
    rewrite <- Hpath in Hends, Hsplit. unfold tile_path_parse. rewrite Hends, Hsplit.
    rewrite length_app. cbn [length app lookup list_lookup from_option id].
    rewrite (proj2 (Nat.ltb_ge _ _)) by lia. rewrite bool_decide_eq_true_2 by done. cbn [negb orb].
    rewrite parse_tile_kind_back by by destruct (tp_kind t). cbn [mbind result_bind].
    pose proof (split_partial_back _ init last (tp_partial_width t) Hkind Hpl) as Hsp. cbn [app] in Hsp.
    rewrite Hsp by (destruct (tp_partial_width t); [split; [done|]; by intros ->|done]).
    cbn [mbind result_bind]. rewrite Hback. cbn [mbind result_bind].
    replace (mkTilePath _ _ _) with t by by destruct t. rewrite Hr. cbn [mbind result_bind].
    by rewrite bool_decide_eq_true_2.
Qed.

Lemma tile_path_canonical_witness :
  tile_path_parse (ascii "tile/1/x001/x234/067.p/17") = Ok (mkTilePath (Hashes 1) 1234067 (Some 17)).
Proof.
  apply tile_path_canonical. split; [|vm_compute; reflexivity].
  split_and!; cbn; unfold below, is_u64; rewrite ?U64_MAX_val; lia.
Defined.

(** ** Hash tiles *)

Lemma chunks_exact_iff fuel e l hs :
  (length l ≤ fuel)%nat → len l mod HASH_BYTES = 0 →
  chunks_exact fuel e l = Ok hs ↔ concat hs = l ∧ Forall (λ h, len h = HASH_BYTES) hs.
Proof.
  revert l hs. unfold HASH_BYTES. induction fuel as [|fuel IH]; intros l hs Hf Hl.
  { destruct l; [|cbn in Hf; lia]. cbn. split; [by intros [= <-]|].
    intros [Hc Hh]. destruct Hh as [|h hs Hh _]; [done|]. by destruct h. }
  cbn [chunks_exact]. unfold HASH_BYTES. destruct (Z.ltb_spec (len l) 32).
  { assert (l = []) as -> by (apply len_zero_inv; pose proof (len_nonneg l); div_lia).
    split; [by intros [= <-]|]. intros [Hc Hh]. destruct Hh as [|h hs Hh _]; [done|]. by destruct h. }
  pose proof (len_takeZ 32 l ltac:(lia)) as Ht. unfold to_array. rewrite Ht. cbn [Z.eqb mbind result_bind].
  pose proof (len_dropZ 32 l ltac:(lia)) as Hd. pose proof (takeZ_dropZ 32 l) as Hl'.
  assert ((length (dropZ 32 l) ≤ fuel)%nat) as Hf' by (unfold len in Hd; lia).
  assert (len (dropZ 32 l) mod 32 = 0) as Hm by (rewrite Hd; revert Hl; generalize (len l); intros; div_lia).
  split.
  - destruct (chunks_exact fuel e (dropZ 32 l)) as [ks|] eqn:Hk; [|done]. intros [= <-].
    apply IH in Hk as [Hc Hh]; [|done..]. cbn. rewrite Hc. split; [done|]. by constructor.
  - intros [Hc Hh]. destruct Hh as [|h hs Hh Hhs]; [cbn in Hc; subst l; rewrite len_nil in *; lia|].
    cbn in Hc. subst l. rewrite <- Hh, takeZ_app_len, dropZ_app_len in *.
    by rewrite (proj2 (IH (concat hs) hs Hf' Hm)).
Qed.

(** Chunks of a vector of octets are hashes. *)
Lemma concat_hashes hs :
  Forall is_byte (concat hs) → Forall (λ h, len h = HASH_BYTES) hs ↔ Forall (octets 32) hs.
Proof.
  intros Hb. split; intros Hh; [|eapply Forall_impl; [exact Hh|]; by intros h [? _]].
  induction Hh as [|h hs Hh Hhs IH]; constructor; apply Forall_app in Hb as [? ?]; [by split|by apply IH].
Qed.

Lemma concat_len (hs : list Hash) : Forall (λ h : Hash, len h = HASH_BYTES) hs → len (concat hs) = HASH_BYTES * len hs.
Proof.
  induction 1 as [|h hs Hh Hhs IH]; [done|]. cbn. rewrite len_app, len_cons, IH, Hh. unfold HASH_BYTES. lia.
Qed.

Lemma hash_tile_canonical input width hashes :
  Forall is_byte input →
  decode_hash_tile input width = Ok hashes
    ↔ (len hashes = width ∧ Forall (octets 32) hashes) ∧ encode_hash_tile hashes = Ok input.
Proof.
  intros Hb. unfold decode_hash_tile, encode_hash_tile, TILE_WIDTH, saturating_mul64. split.
  - case_match eqn:Hw; [done|]. apply orb_false_iff in Hw as [Hw Hl]. apply negb_false_iff in Hw, Hl.
    apply andb_true_iff in Hw as [Hw1 Hw2]. apply Z.leb_le in Hw1, Hw2. apply Z.eqb_eq in Hl.
    rewrite U64_MAX_val in Hl. unfold HASH_BYTES in Hl.
    assert (len input = 32 * width) as Hlen by lia. intros Hc.
    apply chunks_exact_iff in Hc as [Hc Hh]; [|done|unfold HASH_BYTES; rewrite Hlen; div_lia].
    pose proof (concat_len _ Hh) as Hcl. rewrite Hc in Hcl. unfold HASH_BYTES in Hcl.
    assert (len hashes = width) as Hn by lia. split; [split; [done|apply concat_hashes; [by rewrite Hc|done]]|].
    rewrite (proj2 (is_empty_false _)), (proj2 (Z.ltb_ge _ _)) by lia. cbn. by rewrite Hc.
  - intros [[Hn Hh] He]. destruct (is_empty hashes) eqn:Hne; [done|]. apply is_empty_false in Hne.
    destruct (Z.ltb_spec 256 (len hashes)); [done|]. injection He as He.
    assert (Forall (λ h : Hash, len h = HASH_BYTES) hashes) as Hh' by (apply concat_hashes; [by rewrite He|done]).
    pose proof (concat_len _ Hh') as Hcl. rewrite He in Hcl. unfold HASH_BYTES in *.
    rewrite (proj2 (Z.leb_le 1 width)), (proj2 (Z.leb_le width 256)), U64_MAX_val by lia. cbn [andb negb orb].
    rewrite (proj2 (Z.eqb_eq _ _)) by lia. cbn [negb].
    apply chunks_exact_iff; [done|unfold HASH_BYTES; rewrite Hcl; div_lia|done].
Qed.

(** ** Data tiles *)

Definition static_leaf_ok (l : StaticTileLeaf) : Prop :=
  timestamped_entry_ok (sl_timestamped_entry l)
    ∧ (is_some (sl_pre_certificate l) = is_precertificate (te_signed_entry (sl_timestamped_entry l))
       ∧ ∀ p, sl_pre_certificate l = Some p → vec 1 U24_MAX p)
    ∧ Forall (octets 32) (sl_certificate_chain l).

Lemma pre_certificate_codec (b : bool) :
  codec (if b then (pre_certificate ← vector_u24 1 U24_MAX; mret (Some pre_certificate)) else mret None)
    (λ o, match o with Some p => push_vector_u24 [] p 1 | None => Ok [] end)
    (λ o, is_some o = b ∧ ∀ p, o = Some p → vec 1 U24_MAX p).
Proof.
  destruct b.
  - eapply codec_wrap; [by apply (codec_vector_u24 1)| |done]. intros [p|]; split.
    + intros [_ Hp]. eauto.
    + intros (a & [= <-] & Ha). split; [done|]. by intros p' [= <-].
    + by intros [? _].
    + by intros (a & ? & _).
  - eapply codec_ext; [apply (codec_ret None (λ o, o = None)); done| |by intros o ->].
    intros [p|]; split; [by intros [? _]|done|done|by split].
Qed.

Definition chain_decode (fingerprints : bytes) : ct (list Hash) :=
  if negb (len fingerprints mod HASH_BYTES =? 0)
  then Err "Static CT certificate chain fingerprint vector is misaligned"%string
  else chunks_exact (length fingerprints) "Static CT issuer fingerprint must be 32 bytes"%string fingerprints.

Lemma chain_decode_iff encoded hs :
  Forall is_byte encoded → chain_decode encoded = Ok hs ↔ Forall (octets 32) hs ∧ Ok (concat hs) = Ok (E := CtError) encoded.
Proof.
  intros Hb. unfold chain_decode. split.
  - destruct (Z.eqb_spec (len encoded mod HASH_BYTES) 0); [|done]. cbn [negb].
    intros [Hc Hh]%chunks_exact_iff; [|done..]. subst encoded. split; [by apply concat_hashes|done].
  - intros [Hh [= Hc]]. subst encoded. apply concat_hashes in Hh; [|done].
    assert (len (concat hs) mod HASH_BYTES = 0) as Hm by (rewrite concat_len by done; unfold HASH_BYTES; div_lia).
    rewrite (proj2 (Z.eqb_eq _ _) Hm). cbn [negb]. by apply chunks_exact_iff.
Qed.

Lemma chain_codec :
  codec (encoded ← vector_u16 0 U16_MAX; lift (chain_decode encoded))
    (λ hs, push_vector_u16 [] (concat hs) 0) (Forall (octets 32)).
Proof.
  eapply codec_ext; [apply (codec_nested chain_decode (λ hs, Ok (concat hs)) (Forall (octets 32)) 0)|done|done].
  - unfold U16_MAX. lia.
  - intros encoded hs Hb _. by apply chain_decode_iff.
Qed.

Lemma static_leaf_codec : codec static_leaf_decode_from static_leaf_encode static_leaf_ok.
Proof.
  eapply codec_eq with (p := entry ← timestamped_entry_decode_from;
    pre ← (if is_precertificate (te_signed_entry entry)
           then (pre_certificate ← vector_u24 1 U24_MAX; mret (Some pre_certificate)) else mret None);
    chain ← (encoded ← vector_u16 0 U16_MAX; lift (chain_decode encoded));
    mret (mkStaticTileLeaf entry pre chain)).
  2: { intros r _. unfold static_leaf_decode_from, chain_decode, mbind, stm_bind, lift.
       repeat case_match; simplify_eq; done. }
  eapply (codec_ext _ _ _ static_leaf_ok); [|done|].
  - eapply (codec_bind _ _ _ _ sl_timestamped_entry); [apply timestamped_entry_codec|by intros l (? & _)|].
    intros entry He. eapply (codec_bind _ _ _ _ sl_pre_certificate); [apply pre_certificate_codec| |].
    { by intros l [(_ & Hp & _) <-]. }
    intros pre Hp. eapply (codec_bind _ _ _ _ sl_certificate_chain); [apply chain_codec| |].
    { by intros l [[(_ & _ & ?) _] _]. }
    intros chain Hc. last_field.
    + intros [[[_ <-] <-] <-]. by destruct b.
    + destruct Hp. unfold static_leaf_ok. by split_and!.
  - intros l (_ & [Hp _] & _). unfold static_leaf_encode. rewrite Hp, eqb_reflx. cbn [negb cat].
    destruct (timestamped_entry_encode _) as [x|]; [|done]. cbn [mbind result_bind].
    destruct (sl_pre_certificate l) as [p|]; [rewrite push_vector_u24_app|cbn [mbind result_bind]];
      [destruct (push_vector_u24 [] p 1) as [y|]; [|done]|]; cbn [mbind result_bind];
      rewrite push_vector_u16_app; destruct (push_vector_u16 [] _ 0); cbn; by rewrite <- ?app_assoc, ?app_nil_r.
Qed.

Lemma encode_leaves_all leaves output :
  encode_leaves leaves output = (x ← encode_all static_leaf_encode leaves; Ok (output ++ x)).
Proof.
  revert output. induction leaves as [|leaf leaves IH]; intros output; cbn; [by rewrite app_nil_r|].
  destruct (static_leaf_encode leaf); [|done]. cbn. rewrite IH.
  destruct (encode_all static_leaf_encode leaves); [|done]. cbn. by rewrite <- app_assoc.
Qed.

Lemma decode_leaves_codec n :
  codec (decode_leaves n) (encode_all static_leaf_encode)
    (λ leaves, length leaves = n ∧ Forall static_leaf_ok leaves).
Proof.
  destruct static_leaf_codec as [Hr Hw]. induction n as [|n [IHr IHw]]; cbn [decode_leaves].
  { eapply codec_ext; [apply (codec_ret [] (λ l, l = [])); done| |by intros l ->].
    intros [|l ls]; split; naive_solver. }
  unfold mbind, stm_bind. split.
  - intros leaves r e k [Hlen Hok] He Hwf Hrest. destruct Hok as [|leaf leaves Hl Hls]; [done|].
    cbn in He. destruct (static_leaf_encode leaf) as [x|] eqn:Hx; [|done]. cbn in He.
    destruct (encode_all static_leaf_encode leaves) as [y|] eqn:Hy; [|done]. injection He as <-.
    rewrite <- app_assoc in Hrest. rewrite (Hr leaf r x (y ++ k)) by done.
    destruct (skip_rest _ _ _ Hwf Hrest) as [Hwf' Hrest']. injection Hlen as Hlen.
    rewrite (IHr leaves _ y k) by done. by rewrite skip_add, len_app.
  - intros r leaves r' Hwf Hp. destruct (static_leaf_decode_from r) as [[leaf|] r1] eqn:Hd; [|done].
    destruct (Hw r leaf r1 Hwf Hd) as (Hl & x & k & Hx & Hrest & ->).
    destruct (skip_rest _ _ _ Hwf Hrest) as [Hwf' Hrest'].
    destruct (decode_leaves n _) as [[ls|] r2] eqn:Hls; [|done]. injection Hp as <- <-.
    destruct (IHw _ _ _ Hwf' Hls) as ([Hlen Hok] & y & k' & Hy & Hk & ->).
    split; [split; [cbn; congruence|by constructor]|]. exists (x ++ y), k'. cbn. rewrite Hx. cbn. rewrite Hy. cbn.
    by rewrite Hrest, <- Hrest', Hk, app_assoc, skip_add, len_app.
Qed.

(** A tile has one encoding: [decode_hash_tile] and
    [decode_data_tile] with an expected width accept exactly what the encoders
    write for that many well-formed hashes or leaves; a leaf carries its
    precertificate exactly when its entry is one. *)
Theorem tiles_canonical input width :
  vector input →
  (∀ hashes, decode_hash_tile input width = Ok hashes
     ↔ (len hashes = width ∧ Forall (octets 32) hashes) ∧ encode_hash_tile hashes = Ok input)
  ∧ (∀ leaves, decode_data_tile input width = Ok leaves
     ↔ (len leaves = width ∧ Forall static_leaf_ok leaves) ∧ encode_data_tile leaves = Ok input).
Proof.
  intros [Hb Hl]. split; [intros; by apply hash_tile_canonical|]. intros leaves.
  unfold decode_data_tile, encode_data_tile, TILE_WIDTH.
  pose proof (decode_whole_iff _ _ _ input leaves
    (whole_codec (decode_leaves_codec (Z.to_nat width))) Hb Hl) as Hiff.
  split.
  - case_match eqn:Hw; [done|]. apply negb_false_iff, andb_true_iff in Hw as [Hw1 Hw2].
    apply Z.leb_le in Hw1, Hw2. intros [[Hlen Hok] He]%Hiff.
    assert (len leaves = width) as Hn by (unfold len; lia). split; [done|].
    rewrite (proj2 (is_empty_false _)), (proj2 (Z.ltb_ge _ _)) by lia. cbn [orb].
    rewrite encode_leaves_all, He. done.
  - intros [[Hn Hok] He]. destruct (is_empty leaves) eqn:Hne; [done|]. apply is_empty_false in Hne.
    destruct (Z.ltb_spec 256 (len leaves)); [done|]. cbn [orb] in He. rewrite encode_leaves_all in He.
    destruct (encode_all static_leaf_encode leaves) as [x|]; [|done]. injection He as ->.
    rewrite (proj2 (Z.leb_le 1 width)), (proj2 (Z.leb_le width 256)) by lia. cbn [andb negb].
    apply Hiff. split; [|done]. split; [unfold len in Hn; lia|done].
Qed.

Definition demo_tile_leaf (n : Z) : StaticTileLeaf :=
  mkStaticTileLeaf (mkTimestampedEntryV1 n (X509 [0x30; n]) []) None [replicate 32 n].

Lemma demo_tile_leaf_ok n : is_byte n → static_leaf_ok (demo_tile_leaf n).
Proof.
  intros Hn. assert (Forall is_byte (replicate 32 n)) as Hr by by apply Forall_replicate.
  unfold static_leaf_ok, timestamped_entry_ok, signed_entry_ok, vec, below, U24_MAX, U16_MAX, is_byte in *.
  cbn -[replicate]. split_and!; try done; try lia; repeat constructor; try done; lia.
Qed.

Lemma tiles_canonical_witness :
  ∃ tile, encode_data_tile [demo_tile_leaf 1; demo_tile_leaf 2] = Ok tile
    ∧ decode_data_tile tile 2 = Ok [demo_tile_leaf 1; demo_tile_leaf 2].
Proof.
  destruct (encode_data_tile [demo_tile_leaf 1; demo_tile_leaf 2]) as [tile|] eqn:Ht;
    [|vm_compute in Ht; discriminate Ht].
  exists tile. split; [done|]. apply (tiles_canonical tile 2).
  - vm_compute in Ht. injection Ht as <-. split; [by apply (bool_decide_unpack _)|done].
  - split; [split; [done|]|done]. by repeat apply Forall_cons_2; [apply demo_tile_leaf_ok..|].
Defined.

(** ** Leaf index extension *)

(** The extensions of an SCT: types and data. *)
Abbreviation extension := (Z * bytes)%type.

Definition extension_encode (x : extension) : ct bytes :=
  data ← push_vector_u16 [] x.2 0; Ok (be_bytes 1 x.1 ++ data).

Definition extension_ok (x : extension) : Prop := below 256 x.1 ∧ vec 0 U16_MAX x.2.

Definition is_leaf_index (x : extension) : bool := x.1 =? LEAF_INDEX_EXTENSION_TYPE.

Definition leaf_index_value (x : extension) (i : Z) : Prop := x.2 = be_bytes 5 i ∧ below (2 ^ 40) i.

Abbreviation leaf_index_of := (single is_leaf_index leaf_index_value).

Definition read_extension : reader extension :=
  extension_type ← reader_u8;
  data ← vector_u16 0 U16_MAX;
  mret (extension_type, data).

Lemma entry_extension_codec : codec read_extension extension_encode extension_ok.
Proof.
  unfold read_extension. eapply (codec_ext _ _ _ extension_ok); [|done|].
  - eapply (codec_bind _ _ _ _ fst); [apply codec_u8|by intros x [? _]|].
    intros t Ht. eapply (codec_bind _ _ _ _ snd); [by apply codec_vector_u16|by intros x [[_ ?] _]|].
    intros d Hd. last_field; [|by split_and!]. by intros [[_ <-] <-]; destruct b.
  - intros x _. unfold extension_encode. enc_fields.
Qed.

(** The loop reads one extension and treats it. *)
Definition treat_extension (fuel : nat) (leaf_index : option Z) (x : extension) : reader (option Z) :=
  if is_leaf_index x then
    if is_some leaf_index || negb (len x.2 =? 5)
    then throw "invalid or duplicate Static CT leaf_index extension"%string
    else
      index ← lift (decode_whole reader_u40 x.2);
      leaf_index_loop fuel (Some index)
  else leaf_index_loop fuel leaf_index.

Lemma leaf_index_loop_step fuel o r :
  leaf_index_loop (S fuel) o r
  = if reader_is_empty r then (Ok o, r) else (x ← read_extension; treat_extension fuel o x) r.
Proof.
  cbn [leaf_index_loop]. unfold read_extension, treat_extension, is_leaf_index, mbind, stm_bind, get.
  destruct (reader_is_empty r); [done|]. destruct (reader_u8 r) as [[t|] r1]; [|done].
  by destruct (vector_u16 0 U16_MAX r1) as [[d|] r2].
Qed.

Lemma decode_u40 l i : Forall is_byte l → len l = 5 → decode_whole reader_u40 l = Ok i ↔ l = be_bytes 5 i ∧ below (2 ^ 40) i.
Proof.
  intros Hb Hl. rewrite (decode_whole_iff _ _ _ _ _ (whole_codec codec_u40) Hb) by lia.
  split; [by intros [? [= ->]]|by intros [-> ?]].
Qed.

Section leaf_index_loop.
Context (fuel : nat).

Definition loop_exact (fuel : nat) : Prop :=
  ∀ o r o', wf_reader r → (length (rest r) < fuel)%nat →
  (leaf_index_loop fuel o r).1 = Ok o'
    ↔ ∃ xs, Forall extension_ok xs ∧ encode_all extension_encode xs = Ok (rest r) ∧ leaf_index_of o xs o'.

Lemma treat_extension_iff o x r o' :
  loop_exact fuel → wf_reader r → (length (rest r) < fuel)%nat → extension_ok x →
  (treat_extension fuel o x r).1 = Ok o'
    ↔ ∃ xs, Forall extension_ok xs ∧ encode_all extension_encode xs = Ok (rest r) ∧ leaf_index_of o (x :: xs) o'.
Proof.
  intros IH Hwf Hlen [_ [Hb _]]. unfold treat_extension. destruct (is_leaf_index x) eqn:Hx.
  - split.
    + destruct o as [j|]; [done|]. cbn [is_some orb]. destruct (Z.eqb_spec (len x.2) 5) as [H5|]; [|done].
      cbn [negb]. unfold mbind, stm_bind, lift. destruct (decode_whole reader_u40 x.2) as [i|] eqn:Hi; [|done].
      apply decode_u40 in Hi as [Hd Hi]; [|done..].
      intros (xs & ? & ? & ?)%(IH _ _ _ Hwf Hlen). exists xs. split_and!; [done..|]. by eapply single_found.
    + intros (xs & Hxs & He & Ho). inversion Ho as [|? ? ? ? Hx' |? ? i ? Hx' [Hd Hi] Ho']; subst; [congruence|].
      assert (len x.2 = 5) as H5 by (rewrite Hd; unfold len; by rewrite be_bytes_length). rewrite H5. cbn [is_some orb Z.eqb negb].
      unfold mbind, stm_bind, lift. rewrite (proj2 (decode_u40 x.2 i Hb H5)) by done.
      apply IH; [done..|]. by exists xs.
  - rewrite (IH o r o' Hwf Hlen). split; intros (xs & Hxs & He & Ho); exists xs; split_and!; try done.
    + by constructor.
    + inversion Ho; subst; [done|congruence].
Qed.
End leaf_index_loop.

Lemma leaf_index_loop_iff fuel : loop_exact fuel.
Proof.
  induction fuel as [|fuel IH]; intros o r o' Hwf Hlen; [lia|]. rewrite leaf_index_loop_step.
  pose proof (is_empty_rest r Hwf) as Hempty. assert (∀ x, extension_encode x ≠ Ok []) as Hne.
  { intros x. unfold extension_encode. by destruct (push_vector_u16 [] x.2 0). }
  destruct (reader_is_empty r).
  { rewrite (proj1 Hempty eq_refl). cbn. split; [intros [= <-]; exists []; by split_and!; [..|constructor]|].
    intros (xs & _ & He & Hx). destruct xs as [|x xs]; [by inversion Hx|]. exfalso. cbn in He.
    destruct (extension_encode x) eqn:Hx'; [|done]. cbn in He. destruct (encode_all extension_encode xs); [|done].
    injection He as [-> _]%app_nil. by apply (Hne x). }
  destruct entry_extension_codec as [Hr Hw]. unfold mbind, stm_bind.
  assert (∀ x e k, extension_ok x → extension_encode x = Ok e → rest r = e ++ k →
    (treat_extension fuel o x (skip (len e) r)).1 = Ok o'
    ↔ ∃ xs, Forall extension_ok xs ∧ encode_all extension_encode xs = Ok k ∧ leaf_index_of o (x :: xs) o') as Hstep.
  { intros x e k Hx He Hrest. destruct (skip_rest _ _ _ Hwf Hrest) as [Hwf' Hrest'].
    rewrite (treat_extension_iff fuel o x _ o' IH Hwf'); [by rewrite Hrest'| |done].
    rewrite Hrest'. rewrite Hrest, length_app in Hlen. specialize (Hne x). rewrite He in Hne.
    destruct e; [done|]. cbn in Hlen. lia. }
  split.
  - destruct (read_extension r) as [[x|] r1] eqn:Hp; [|done].
    destruct (Hw r x r1 Hwf Hp) as (Hx & e & k & He & Hrest & ->).
    intros (xs & Hxs & Hk & Ho)%(Hstep x e k Hx He Hrest). exists (x :: xs). cbn. rewrite He. cbn. rewrite Hk. cbn.
    rewrite <- Hrest. split_and!; [by constructor|done|done].
  - intros (xs & Hxs & Hk & Ho). destruct xs as [|x xs].
    { injection Hk as Hk. discriminate (proj2 Hempty (eq_sym Hk)). }
    cbn in Hk. destruct (extension_encode x) as [e|] eqn:He; [|done]. cbn in Hk.
    destruct (encode_all extension_encode xs) as [k|] eqn:Hk'; [|done]. injection Hk as Hrest. symmetry in Hrest.
    apply Forall_cons in Hxs as [Hx Hxs]. rewrite (Hr x r e k) by done. apply (Hstep x e k); [done..|].
    by exists xs.
Qed.

Lemma leaf_index_of_filter xs i :
  leaf_index_of None xs (Some i)
    ↔ below (2 ^ 40) i ∧ filter is_leaf_index xs = [(LEAF_INDEX_EXTENSION_TYPE, be_bytes 5 i)].
Proof.
  rewrite (single_filter is_leaf_index leaf_index_value None). split.
  - intros ([t d] & Hf & Hd & Hi). split; [done|]. cbn in Hd. subst d.
    assert ((t, be_bytes 5 i) ∈ filter is_leaf_index xs) as [Ht _]%list_elem_of_filter by (rewrite Hf; by left).
    apply Is_true_true, Z.eqb_eq in Ht. cbn in Ht. by rewrite Hf, Ht.
  - intros [Hi Hf]. by exists (LEAF_INDEX_EXTENSION_TYPE, be_bytes 5 i).
Qed.

(** [parse_leaf_index_extension] gives [i] exactly when the
    extensions hold one leaf index extension, whose five octets are [i],
    among any others of other types; and [leaf_index_extension] writes such
    extensions, up to 40 bits. *)
Theorem leaf_index_exact extensions i :
  vector extensions →
  (parse_leaf_index_extension extensions = Ok i
     ↔ below (2 ^ 40) i ∧ ∃ xs, Forall extension_ok xs ∧ encode_all extension_encode xs = Ok extensions
         ∧ filter is_leaf_index xs = [(LEAF_INDEX_EXTENSION_TYPE, be_bytes 5 i)])
  ∧ (leaf_index_extension i = Ok extensions ∧ 0 ≤ i → parse_leaf_index_extension extensions = Ok i).
Proof.
  intros [Hb Hl].
  assert (parse_leaf_index_extension extensions = Ok i
     ↔ below (2 ^ 40) i ∧ ∃ xs, Forall extension_ok xs ∧ encode_all extension_encode xs = Ok extensions
         ∧ filter is_leaf_index xs = [(LEAF_INDEX_EXTENSION_TYPE, be_bytes 5 i)]) as Hiff.
  { pose proof (leaf_index_loop_iff (S (length extensions)) None (reader_new extensions) (Some i)
      (wf_new _ Hb Hl) ltac:(rewrite rest_new; lia)) as Hloop. rewrite rest_new in Hloop.
    unfold parse_leaf_index_extension. transitivity ((leaf_index_loop (S (length extensions)) None (reader_new extensions)).1 = Ok (Some i)).
    - destruct (leaf_index_loop _ _ _).1 as [[j|]|]; cbn; split; by intros [= ->].
    - rewrite Hloop. split.
      + intros (xs & ? & ? & [? ?]%leaf_index_of_filter). eauto.
      + intros (Hi & xs & ? & ? & ?). exists xs. split_and!; [done..|]. by apply leaf_index_of_filter. }
  split; [done|]. intros [He Hi]. apply Hiff. unfold leaf_index_extension, push_u40 in He.
  destruct (Z.leb_spec (Z.shiftl 1 40) i) as [|Hi40]; [done|]. injection He as <-.
  change (Z.shiftl 1 40) with (2 ^ 40) in Hi40. split; [done|].
  exists [(LEAF_INDEX_EXTENSION_TYPE, be_bytes 5 i)]. split_and!; [|done|done].
  constructor; [|done]. split; [done|]. split; [apply be_bytes_is_byte|]. cbn [snd]. unfold len. rewrite be_bytes_length. done.
Qed.

Lemma leaf_index_exact_witness :
  parse_leaf_index_extension [1; 0; 1; 7; 0; 0; 5; 0; 0; 0; 1; 2] = Ok 258.
Proof.
  refine (proj2 (proj1 (leaf_index_exact _ 258 _)) _); [split; [by apply (bool_decide_unpack _)|done]|].
  split; [done|]. exists [(1, [7]); (0, [0; 0; 0; 1; 2])]. split_and!; [|done|done].
  repeat apply Forall_cons_2; [..|done]; (split; [done|split; [by apply (bool_decide_unpack _)|done]]).
Defined.

(** ** Issuer fingerprints *)

Lemma hex_digit_value n : 0 ≤ n < 16 → hex_digit n = if n <? 10 then 48 + n else 87 + n.
Proof.
  intros Hn. assert (forallb (λ n, hex_digit n =? if n <? 10 then 48 + n else 87 + n) (seqZ 0 16) = true) as Hall
    by (vm_compute; reflexivity).
  apply Z.eqb_eq. apply (proj1 (forallb_forall _ _) Hall). apply list_elem_of_In, elem_of_seqZ. lia.
Qed.

Lemma hex_octet_inj x y :
  is_byte x → is_byte y → hex_digit (Z.shiftr x 4) = hex_digit (Z.shiftr y 4) →
  hex_digit (Z.land x 0x0f) = hex_digit (Z.land y 0x0f) → x = y.
Proof.
  unfold is_byte. intros Hx Hy. change 0x0f with (Z.ones 4). rewrite !Z.land_ones, !Z.shiftr_div_pow2 by lia.
  change (2 ^ 4) with 16. rewrite !hex_digit_value by div_lia. intros. repeat case_match; div_lia.
Qed.

(** The name of an issuer determines its fingerprint. *)
Lemma issuer_fingerprint_hex_inj `{Sha256} a b :
  issuer_fingerprint_hex a = issuer_fingerprint_hex b → issuer_fingerprint a = issuer_fingerprint b.
Proof.
  unfold issuer_fingerprint_hex, issuer_fingerprint. pose proof (sha256_bytes a) as Ha. pose proof (sha256_bytes b) as Hb.
  revert Hb. generalize (sha256 b). induction Ha as [|x l Hx Hl IH]; intros [|y k] Hk; try done.
  apply Forall_cons in Hk as [Hy Hk]. cbn [map concat app]. intros [= H1 H2 Heq].
  by rewrite (hex_octet_inj x y), (IH k).
Qed.
