(* ===== verification/StaticCtNote.v ===== *)
(** * Checkpoints are canonical signed notes

    [StaticCheckpoint::parse] accepts exactly the text of its checkpoint
    followed by at most sixteen well-formed signature lines, one of which is
    the log's; what [render] writes is such a note. *)

From S2P Require Import Prelude Bytes Text Base64 CtCodec CtWire CtMerkle CtInclusion.
From S2P Require Import Rfc6962 Rfc6962Codec StaticCt StaticCtCodec.

(** The octets of a [str]. *)
Definition rust_str (l : bytes) : Prop := Forall is_byte l ∧ utf8_valid l = true.

(** ** Text without control characters *)

(** The characters a checkpoint may hold. *)
Definition allowed (c : Z) : bool := negb ((c <? 32) && negb (c =? 10)).

Definition clean (l : bytes) : Prop := utf8_valid l = true ∧ forallb allowed (utf8_chars l) = true.

Lemma clean_app a b : clean a → clean b → clean (a ++ b).
Proof.
  intros [Ha Hca] [Hb Hcb]. destruct (utf8_app a b Ha) as [Hc Hv]. split; [by rewrite Hv|].
  by rewrite Hc, forallb_app, Hca, Hcb.
Qed.

Lemma clean_ascii l : forallb (λ b, allowed b && (b <? 0x80)) l = true → clean l.
Proof.
  intros Hl. assert (Forall (λ b, b < 0x80) l ∧ forallb allowed l = true) as [Hlow Hall].
  { induction l as [|b l IH]; [done|]. cbn in Hl. rewrite !andb_true_iff in Hl. destruct Hl as [[Ha Hb] Hl].
    destruct (IH Hl). split; [constructor; [by apply Z.ltb_lt|done]|]. cbn. by rewrite Ha. }
  destruct (utf8_ascii l Hlow) as [Hc Hv]. split; [done|]. by rewrite Hc.
Qed.

Lemma forallb_mono {A} (p q : A → bool) l : (∀ x, p x = true → q x = true) → forallb p l = true → forallb q l = true.
Proof. rewrite !forallb_forall. eauto. Qed.

Lemma digits_clean l : forallb is_ascii_digit l = true → clean l.
Proof.
  intros Hl. apply clean_ascii. eapply forallb_mono; [|exact Hl]. intros b.
  unfold is_ascii_digit, allowed, in_range. lia.
Qed.

Lemma base64_clean l : forallb base64_char l = true → clean l.
Proof.
  intros Hl. apply clean_ascii. eapply forallb_mono; [|exact Hl]. intros b.
  unfold base64_char, allowed, in_range. lia.
Qed.

Lemma base64_without sep l : forallb base64_char l = true → base64_char sep = false → without sep l.
Proof.
  intros Hl Hs Hin. apply list_elem_of_In in Hin. rewrite forallb_forall in Hl. apply Hl in Hin. congruence.
Qed.

(** *** Names *)

(** A key name or an origin: its characters are not forbidden. *)
Definition name_ok (name : bytes) : Prop :=
  rust_str name ∧ name ≠ [] ∧ existsb note_forbidden (utf8_chars name) = false.

Lemma existsb_false {A} (p : A → bool) l : existsb p l = false ↔ forallb (λ x, negb (p x)) l = true.
Proof.
  induction l as [|x l IH]; [done|]. cbn. rewrite orb_false_iff, andb_true_iff, negb_true_iff. naive_solver.
Qed.

Lemma name_without sep name : name_ok name → sep < 0x80 → note_forbidden sep = true → without sep name.
Proof.
  intros ((_ & Hv) & _ & Hf) Hs Hsep Hin. apply existsb_false in Hf. rewrite forallb_forall in Hf.
  specialize (Hf sep). rewrite Hsep in Hf. discriminate Hf. by apply list_elem_of_In, utf8_low_char.
Qed.

Lemma name_clean name : name_ok name → clean name.
Proof.
  intros ((Hb & Hv) & _ & Hf). split; [done|]. apply existsb_false in Hf. rewrite forallb_forall in Hf.
  apply utf8_chars_nonneg in Hb. rewrite Forall_forall in Hb. apply forallb_forall. intros c Hc.
  specialize (Hb c (proj2 (list_elem_of_In _ _) Hc)). specialize (Hf c Hc).
  unfold note_forbidden, is_control, allowed, in_range in *. lia.
Qed.

Lemma validate_key_name_iff name : rust_str name → validate_key_name name = Ok tt ↔ name_ok name.
Proof.
  intros Hv. unfold validate_key_name, name_ok. destruct (existsb note_forbidden _).
  - rewrite orb_true_r. split; [done|by intros (_ & _ & ?)].
  - destruct name; split; [done|by intros (_ & ? & _)|intros _; by split_and!|done].
Qed.

Lemma validate_origin_name origin :
  rust_str origin → validate_origin origin = Ok tt → name_ok origin ∧ len origin ≤ 2048.
Proof.
  intros Hv. unfold validate_origin, name_ok. destruct (existsb note_forbidden _); [by rewrite orb_true_r|].
  destruct (Z.ltb_spec 2048 (len origin)); [by rewrite orb_true_r|]. destruct origin; [done|]. intros _. by split_and!.
Qed.

Lemma newline_ended_clean ls : Forall clean ls → clean (newline_ended ls).
Proof.
  induction 1 as [|l ls Hl Hls IH]; [done|]. rewrite newline_ended_cons.
  apply clean_app; [done|]. by apply (clean_app [10]).
Qed.

Lemma rust_str_app a c b : rust_str (a ++ c :: b) → c < 0x80 → rust_str a ∧ rust_str b.
Proof.
  intros [[Hba [_ Hbb]%Forall_cons]%Forall_app Hv] Hc. pose proof (utf8_before _ _ _ Hv Hc) as Ha.
  rewrite (proj2 (utf8_app a _ Ha)) in Hv. cbn in Hv. by rewrite (proj2 (Z.ltb_lt c 128)) in Hv.
Qed.

Lemma newline_ended_str ls : rust_str (newline_ended ls) → Forall rust_str ls.
Proof.
  induction ls as [|l ls IH]; [done|]. rewrite newline_ended_cons.
  intros [Hl Hls]%rust_str_app; [|lia]. constructor; [done|by apply IH].
Qed.

Lemma newline_ended_ends ls : ls ≠ [] → ∃ k, newline_ended ls = k ++ [10].
Proof.
  intros Hne. destruct ls as [|l ls _] using rev_ind; [done|]. exists (newline_ended ls ++ l).
  unfold newline_ended. rewrite map_app, concat_app. cbn. by rewrite app_nil_r, app_assoc.
Qed.

(** ** Signature lines *)

Section note.
Context `{Sha256, Base64}.

(** A line: a key name and the octets of the signature. *)
Abbreviation note_line := (bytes * bytes)%type.

Definition line_text (x : note_line) : bytes :=
  SIGNATURE_LINE_PREFIX ++ x.1 ++ 32 :: base64_encode x.2.

Definition line_ok (x : note_line) : Prop := name_ok x.1 ∧ vector x.2 ∧ x.2 ≠ [].

(** The log's line: its origin and its key id. *)
Definition own_line (origin key_id : bytes) (x : note_line) : bool :=
  bool_decide (x.1 = origin) && bool_decide (slice_get x.2 0 4 = Some key_id).

Definition parse_line (line : bytes) : ct note_line :=
  rest ← ok_or (strip_prefix SIGNATURE_LINE_PREFIX line)
           "invalid Static CT checkpoint signature line"%string;
  '(key_name, encoded) ← ok_or (split_once 32 rest)
                           "invalid Static CT checkpoint signature fields"%string;
  if is_empty encoded then Err "empty Static CT checkpoint signature field"%string
  else
    _ ← validate_key_name key_name;
    decoded ← ok_or (base64_decode encoded) "Static CT checkpoint signature is not base64"%string;
    if negb (bool_decide (base64_encode decoded = encoded))
    then Err "Static CT checkpoint signature is not canonical base64"%string
    else Ok (key_name, decoded).

(** The loop reads one line and treats it. *)
Lemma signature_lines_step origin key_id line lines matching count :
  signature_lines origin key_id (line :: lines) matching count
  = if 16 <? count + 1 then Err "Static CT checkpoint has too many signatures"%string
    else
      x ← parse_line line;
      if negb (own_line origin key_id x) then signature_lines origin key_id lines matching (count + 1)
      else if is_some matching then Err "duplicate Static CT RFC 6962 checkpoint signature"%string
      else
        value ← decode_whole note_signature_decode_from (dropZ 4 x.2);
        signature_lines origin key_id lines (Some value) (count + 1).
Proof.
  cbn [signature_lines]. unfold parse_line, own_line. destruct (16 <? count + 1); [done|].
  destruct (strip_prefix _ line) as [rest|]; [|done]. cbn [ok_or mbind result_bind].
  destruct (split_once 32 rest) as [[key_name encoded]|]; [|done]. cbn [ok_or mbind result_bind].
  destruct (is_empty encoded); [done|]. destruct (validate_key_name key_name); [|done]. cbn [mbind result_bind].
  destruct (base64_decode encoded) as [decoded|]; [|done]. cbn [ok_or mbind result_bind].
  destruct (bool_decide (base64_encode decoded = encoded)); [|done]. cbn [negb mbind result_bind fst snd].
  by rewrite negb_andb.
Qed.

Lemma base64_empty l : base64_encode l = [] ↔ l = [].
Proof.
  pose proof (base64_length l) as Hl. split.
  - intros He. rewrite He, len_nil in Hl. apply len_zero_inv. pose proof (len_nonneg l). div_lia.
  - intros ->. apply len_zero_inv. by rewrite Hl.
Qed.

Lemma parse_line_iff line x : rust_str line → parse_line line = Ok x ↔ line = line_text x ∧ line_ok x.
Proof.
  intros Hline. unfold parse_line, line_ok, line_text. split.
  - destruct (strip_prefix _ line) as [rest|] eqn:Hp; [|done]. cbn [ok_or mbind result_bind].
    apply strip_prefix_spec in Hp. destruct (split_once 32 rest) as [[name encoded]|] eqn:Hs; [|done].
    cbn [ok_or mbind result_bind]. apply split_once_spec in Hs as [Hrest _].
    destruct (is_empty encoded) eqn:He; [done|].
    destruct (validate_key_name name) as [[]|] eqn:Hn; [|done]. cbn [mbind result_bind].
    destruct (base64_decode encoded) as [blob|] eqn:Hd; [|done]. cbn [ok_or mbind result_bind].
    destruct (bool_decide_reflect (base64_encode blob = encoded)) as [<-|]; [|done]. intros [= <-]. cbn [fst snd].
    subst rest line. split; [done|]. apply (rust_str_app [_; _; _]) in Hline as Hr; [|lia].
    destruct Hr as [_ [Hname _]%rust_str_app]; [|lia].
    split_and!; [by apply validate_key_name_iff|by eapply base64_decode_vector|].
    intros ->. by rewrite (proj2 (base64_empty [])) in He.
  - intros (-> & Hn & Hv & Hne). destruct x as [name blob]. cbn [fst snd] in *.
    rewrite (proj2 (strip_prefix_spec _ _ (name ++ 32 :: base64_encode blob))) by done. cbn [ok_or mbind result_bind].
    rewrite (proj2 (split_once_spec _ _ name (base64_encode blob))); [|split; [done|apply name_without; [done|lia|done]]].
    cbn [ok_or mbind result_bind]. destruct (base64_encode blob) as [|b l] eqn:He; [by destruct Hne; apply base64_empty|].
    cbn [is_empty]. rewrite (proj2 (validate_key_name_iff name (proj1 Hn))) by done. rewrite <- He. cbn [mbind result_bind].
    rewrite base64_roundtrip by done. cbn [ok_or mbind result_bind]. by rewrite bool_decide_eq_true_2.
Qed.

(** What follows the key id of the log's own signature. *)
Definition note_signature_encode (v : Z * DigitallySigned) : ct bytes :=
  tree_head_signature ← digitally_signed_encode v.2; Ok (be_bytes 8 v.1 ++ tree_head_signature).

Definition note_signature_ok (v : Z * DigitallySigned) : Prop := below (2 ^ 64) v.1 ∧ digitally_signed_ok v.2.

Lemma note_signature_codec : codec note_signature_decode_from note_signature_encode note_signature_ok.
Proof.
  unfold note_signature_decode_from. eapply (codec_ext _ _ _ note_signature_ok); [|done|].
  - eapply (codec_bind _ _ _ _ fst); [apply codec_u64|by intros v [? _]|]. intros t Ht.
    eapply (codec_bind _ _ _ _ snd); [apply digitally_signed_codec|by intros v [[_ ?] _]|].
    intros d Hd. last_field; [|by split_and!]. by intros [[_ <-] <-]; destruct b.
  - intros v _. unfold note_signature_encode. cbn. destruct (digitally_signed_encode v.2); cbn; by rewrite ?app_nil_r.
Qed.

Definition line_value (x : note_line) (v : Z * DigitallySigned) : Prop :=
  decode_whole note_signature_decode_from (dropZ 4 x.2) = Ok v.

Lemma signature_lines_iff origin key_id lines : ∀ matching count res,
  Forall rust_str lines → 0 ≤ count ≤ 16 →
  signature_lines origin key_id lines matching count = Ok res
    ↔ count + len lines ≤ 16 ∧ ∃ xs, lines = map line_text xs ∧ Forall line_ok xs
        ∧ single (own_line origin key_id) line_value matching xs res.
Proof.
  induction lines as [|line lines IH]; intros matching count res Hs Hc.
  { rewrite len_nil. split.
    - intros [= <-]. split; [lia|]. exists []. by split_and!; [..|constructor].
    - intros (_ & xs & Hxs & _ & Ho). destruct xs; [|done]. by inversion Ho. }
  apply Forall_cons in Hs as [Hline Hs]. rewrite signature_lines_step, len_cons. pose proof (len_nonneg lines).
  destruct (Z.ltb_spec 16 (count + 1)); [split; [done|lia]|].
  pose proof (λ m r, IH m (count + 1) r Hs ltac:(lia)) as IH'. pose proof (parse_line_iff line) as Hpl. split.
  - destruct (parse_line line) as [x|] eqn:Hx; [|done]. destruct (proj1 (Hpl x Hline) eq_refl) as [-> Hok].
    cbn [mbind result_bind]. destruct (own_line origin key_id x) eqn:Hown; cbn [negb].
    + destruct matching; [done|]. cbn [is_some].
      destruct (decode_whole _ _) as [v|] eqn:Hv; [|done]. cbn [mbind result_bind].
      intros (? & xs & -> & Hxs & Ho)%IH'. split; [lia|]. exists (x :: xs).
      split_and!; [done|by constructor|]. by eapply single_found.
    + intros (? & xs & -> & Hxs & Ho)%IH'. split; [lia|]. exists (x :: xs).
      split_and!; [done|by constructor|]. by apply single_other.
  - intros (? & xs & Heq & Hxs & Ho). destruct xs as [|x xs]; [done|]. injection Heq as -> ->.
    apply Forall_cons in Hxs as [Hx Hxs]. rewrite (proj2 (Hpl x Hline)) by done. cbn [mbind result_bind].
    inversion Ho as [|? ? ? ? Hown Ho'|? ? v ? Hown Hv Ho']; subst; rewrite Hown; cbn [negb is_some].
    + apply IH'. split; [lia|]. by exists xs.
    + rewrite Hv. cbn [mbind result_bind]. apply IH'. split; [lia|]. by exists xs.
Qed.

(** The octets of the log's signature line. *)
Definition note_blob (key_id : bytes) (v : Z * DigitallySigned) : ct bytes :=
  signature ← note_signature_encode v; Ok (key_id ++ signature).

Lemma own_line_value origin key_id x v :
  vector x.2 → len key_id = 4 →
  own_line origin key_id x = true ∧ line_value x v
    ↔ note_signature_ok v ∧ x.1 = origin ∧ note_blob key_id v = Ok x.2.
Proof.
  intros [Hb Hl] Hk. unfold own_line, line_value, note_blob, slice_get.
  assert (vector (dropZ 4 x.2)) as [Hb4 Hl4].
  { split; [by apply Forall_drop|]. unfold dropZ, len in *. rewrite length_drop. lia. }
  pose proof (decode_whole_iff _ _ _ (dropZ 4 x.2) v (whole_codec note_signature_codec) Hb4 Hl4) as Hd.
  change (dropZ 0 x.2) with x.2. rewrite andb_true_iff, !bool_decide_eq_true.
  change (0 <=? 4) with true. cbn [andb]. split.
  - intros ([Hx Hs] & [Hv He]%Hd). destruct (Z.leb_spec 4 (len x.2)); [|done]. injection Hs as Hs.
    rewrite He. cbn. split_and!; [done|done|]. f_equal. rewrite <- Hs. apply takeZ_dropZ.
  - intros (Hv & Hx & He). destruct (note_signature_encode v) as [y|] eqn:Hy; [|done]. injection He as He.
    rewrite <- He in Hd |- *. rewrite <- Hk in Hd |- * at 1. rewrite dropZ_app_len in Hd.
    pose proof (len_nonneg y). rewrite len_app, (proj2 (Z.leb_le _ _)) by lia.
    split; [split; [done|]|].
    + rewrite <- Hk, Z.sub_0_r, takeZ_app_len. done.
    + rewrite <- Hk, dropZ_app_len. by apply Hd.
Qed.

(** ** Whole checkpoints *)

Definition checkpoint_ok (c : StaticCheckpoint) : Prop :=
  rust_str (cp_origin c) ∧ validate_origin (cp_origin c) = Ok tt ∧ is_u64 (cp_tree_size c)
    ∧ octets 32 (cp_root_hash c) ∧ below (2 ^ 64) (cp_timestamp c)
    ∧ digitally_signed_ok (cp_tree_head_signature c).

Definition cp_text (c : StaticCheckpoint) : bytes :=
  checkpoint_text (cp_origin c) (cp_tree_size c) (cp_root_hash c).

Definition cp_blob (c : StaticCheckpoint) (log_id : Hash) : ct bytes :=
  note_blob (checkpoint_key_id (cp_origin c) log_id) (cp_timestamp c, cp_tree_head_signature c).

(** A signed note of a checkpoint: its text, an empty line and at most sixteen
    lines, of which one is the log's. *)
Definition note_of (c : StaticCheckpoint) (log_id : Hash) (xs : list note_line) (input : bytes) : Prop :=
  input = cp_text c ++ 10 :: newline_ended (map line_text xs)
    ∧ len input ≤ 128 * 1024 ∧ len xs ≤ 16 ∧ Forall line_ok xs
    ∧ ∃ blob, cp_blob c log_id = Ok blob
        ∧ filter (own_line (cp_origin c) (checkpoint_key_id (cp_origin c) log_id)) xs = [(cp_origin c, blob)].

Lemma key_id_len origin log_id : len (checkpoint_key_id origin log_id) = 4.
Proof. unfold checkpoint_key_id. rewrite len_takeZ; [done|]. rewrite sha256_len. unfold HASH_BYTES. lia. Qed.

Lemma found_iff origin key_id xs v :
  Forall line_ok xs → len key_id = 4 →
  single (own_line origin key_id) line_value None xs (Some v)
    ↔ note_signature_ok v ∧ ∃ blob, note_blob key_id v = Ok blob
        ∧ filter (own_line origin key_id) xs = [(origin, blob)].
Proof.
  intros Hxs Hk. rewrite (single_filter _ _ None).
  assert (∀ x, filter (own_line origin key_id) xs = [x] → own_line origin key_id x = true ∧ vector x.2) as Hin.
  { intros x Hf. assert (x ∈ filter (own_line origin key_id) xs) as [Ho Hx]%list_elem_of_filter
      by (rewrite Hf; by left).
    split; [by apply Is_true_true|]. rewrite Forall_forall in Hxs. by apply Hxs in Hx as (_ & ? & _). }
  split.
  - intros (x & Hf & Hv). destruct (Hin x Hf) as [Ho Hx].
    destruct (proj1 (own_line_value origin key_id x v Hx Hk) (conj Ho Hv)) as (Hok & Hor & Hb). split; [done|].
    exists x.2. split; [done|]. rewrite Hf, <- Hor. by destruct x.
  - intros (Hok & blob & Hb & Hf). exists (origin, blob). split; [done|]. destruct (Hin _ Hf) as [_ Hx].
    by apply (own_line_value origin key_id (origin, blob) v Hx Hk).
Qed.

Lemma checkpoint_text_lines origin n root :
  checkpoint_text origin n root = join_with 10 [origin; decimal n; base64_encode root] ++ [10].
Proof. unfold checkpoint_text. cbn [join_with app]. do 2 (rewrite <- app_assoc; cbn [app]). done. Qed.

Lemma split_text origin n root :
  without 10 origin → is_u64 n → Forall is_byte root →
  split_on 10 (join_with 10 [origin; decimal n; base64_encode root]) = [origin; decimal n; base64_encode root].
Proof.
  intros Ho Hn Hr. destruct (decimal_spec n Hn) as (_ & Hd & _). apply split_join; [done|].
  apply Forall_cons_2; [done|]. apply Forall_cons_2; [exact (digits_without 10 _ Hd eq_refl)|].
  apply Forall_cons_2; [|done]. apply base64_without; [by apply base64_alphabet|done].
Qed.

Lemma parse_canonical_u64_back n : is_u64 n → parse_canonical_u64 (decimal n) = Ok n.
Proof. intros Hn. apply canonical_decimal_back; [done|]. apply Hn. Qed.

Lemma parse_canonical_u64_range l n : parse_canonical_u64 l = Ok n → is_u64 n.
Proof.
  unfold parse_canonical_u64. case_match; [done|]. destruct (parse_unsigned U64_MAX l) eqn:Hp; [|done].
  intros [= <-]. by eapply parse_unsigned_range.
Qed.

(** What [checkpoint_parse] checks after the text and the block are cut. *)
Lemma checkpoint_parse_cut a block log_id :
  len (a ++ 10 :: 10 :: block) ≤ 128 * 1024 → ends_with [10] (a ++ 10 :: 10 :: block) = true →
  forallb allowed (utf8_chars (a ++ 10 :: 10 :: block)) = true →
  last_occurrence [10; 10] (a ++ 10 :: 10 :: block) = Some (len a) →
  ∀ c, checkpoint_parse (a ++ 10 :: 10 :: block) log_id = Ok c
    ↔ split_on 10 a = [cp_origin c; decimal (cp_tree_size c); base64_encode (cp_root_hash c)]
      ∧ validate_origin (cp_origin c) = Ok tt ∧ is_u64 (cp_tree_size c) ∧ octets 32 (cp_root_hash c)
      ∧ signature_lines (cp_origin c) (checkpoint_key_id (cp_origin c) log_id) (lines block) None 0
        = Ok (Some (cp_timestamp c, cp_tree_head_signature c)).
Proof.
  intros Hlen Hend Hall Hsep c. unfold checkpoint_parse.
  rewrite (proj2 (Z.ltb_ge _ _)), Hend by done. cbn [negb orb].
  assert (existsb (λ c, (c <? 32) && negb (c =? 10)) (utf8_chars (a ++ 10 :: 10 :: block)) = false) as ->
    by by apply existsb_false.
  rewrite Hsep. cbn [ok_or mbind result_bind].
  assert (takeZ (len a + 1) (a ++ 10 :: 10 :: block) = a ++ [10]) as ->.
  { replace (len a + 1) with (len (a ++ [10])) by (by rewrite len_app).
    replace (a ++ 10 :: 10 :: block) with ((a ++ [10]) ++ 10 :: block) by (by rewrite <- app_assoc). apply takeZ_app_len. }
  assert (dropZ (len a + 2) (a ++ 10 :: 10 :: block) = block) as ->.
  { replace (len a + 2) with (len (a ++ [10; 10])) by (by rewrite len_app).
    replace (a ++ 10 :: 10 :: block) with ((a ++ [10; 10]) ++ block) by (by rewrite <- app_assoc). apply dropZ_app_len. }
  rewrite len_app. change (len [10]) with 1. rewrite Z.add_simpl_r, takeZ_app_len. split.
  - destruct (split_on 10 a) as [|origin [|size [|root64 [|]]]] eqn:Hs; try done.
    destruct (validate_origin origin) as [[]|] eqn:Ho; [|done]. cbn [mbind result_bind].
    destruct (parse_canonical_u64 size) as [n|] eqn:Hn; [|done]. cbn [mbind result_bind].
    destruct (base64_decode root64) as [root|] eqn:Hr; [|done]. cbn [ok_or mbind result_bind].
    unfold to_array. destruct (Z.eqb_spec (len root) 32) as [Hr32|]; [|done]. cbn [mbind result_bind].
    destruct (bool_decide_reflect (checkpoint_text origin n root = a ++ [10])) as [Ht|]; [|done]. cbn [negb].
    destruct (signature_lines _ _ _ _ _) as [[[t d]|]|] eqn:Hl; [|done..]. intros [= <-]. cbn.
    rewrite checkpoint_text_lines in Ht. apply app_inv_tail in Ht.
    pose proof (split_on_parts 10 a) as Hp. rewrite Hs in Hp. apply Forall_cons in Hp as [Hp _].
    apply base64_decode_vector in Hr as [Hr _]. apply parse_canonical_u64_range in Hn.
    rewrite <- Hs, <- Ht, split_text by done. by split_and!.
  - intros (Hs & Ho & Hn & [Hr32 Hr] & Hl). rewrite Hs, Ho. cbn [mbind result_bind].
    rewrite parse_canonical_u64_back by done. cbn [mbind result_bind].
    rewrite base64_roundtrip by (split; [done|lia]). cbn [ok_or mbind result_bind].
    unfold to_array. rewrite Hr32, Z.eqb_refl. cbn [mbind result_bind].
    rewrite checkpoint_text_lines, <- Hs, join_split, bool_decide_eq_true_2 by done. cbn [negb].
    rewrite Hl. cbn. by destruct c.
Qed.

Lemma line_text_facts x :
  line_ok x →
  line_text x ≠ [] ∧ without 10 (line_text x) ∧ without 13 (line_text x) ∧ clean (line_text x)
    ∧ Forall is_byte (line_text x).
Proof.
  intros (Hn & [Hb _] & _). pose proof (base64_alphabet x.2 Hb) as Ha. unfold line_text.
  assert (∀ sep, sep < 0x80 → without sep SIGNATURE_LINE_PREFIX → note_forbidden sep = true → base64_char sep = false →
    sep ≠ 32 → without sep (SIGNATURE_LINE_PREFIX ++ x.1 ++ 32 :: base64_encode x.2)) as Hw.
  { intros sep Hs Hp Hf Hc H32. rewrite !without_app, without_cons. split_and!; [done|by apply name_without|done|].
    by apply base64_without. }
  split_and!; [done|..].
  - apply Hw; [lia|by apply (bool_decide_unpack _)|done..].
  - apply Hw; [lia|by apply (bool_decide_unpack _)|done..].
  - apply clean_app; [done|]. apply clean_app; [by apply name_clean|]. apply (clean_app [32]); [done|].
    by apply base64_clean.
  - apply Forall_app. split; [by apply (bool_decide_unpack _)|]. apply Forall_app. split; [apply Hn|].
    constructor; [done|]. apply Forall_forall. intros b Hin%list_elem_of_In.
    rewrite forallb_forall in Ha. specialize (Ha b Hin). unfold base64_char, in_range, is_byte in *. lia.
Qed.

(** Every part of a note is free of control characters and of empty lines. *)
Lemma note_cut c log_id xs input :
  checkpoint_ok c → note_of c log_id xs input →
  let a := join_with 10 [cp_origin c; decimal (cp_tree_size c); base64_encode (cp_root_hash c)] in
  input = a ++ 10 :: 10 :: newline_ended (map line_text xs)
    ∧ clean input ∧ ends_with [10] input = true ∧ last_occurrence [10; 10] input = Some (len a)
    ∧ lines (newline_ended (map line_text xs)) = map line_text xs ∧ Forall rust_str (map line_text xs).
Proof.
  intros (Hos & Ho & Hn & [_ Hr] & _) (Hinput & _ & _ & Hxs & blob & _ & Hf). cbn zeta.
  destruct (validate_origin_name _ Hos Ho) as [Hname _]. destruct (decimal_spec _ Hn) as (_ & Hd & _).
  set (a := join_with 10 _).
  assert (input = a ++ 10 :: 10 :: newline_ended (map line_text xs)) as Heq.
  { unfold cp_text in Hinput. rewrite checkpoint_text_lines in Hinput. fold a in Hinput.
    by rewrite Hinput, <- app_assoc. }
  assert (Forall (λ l, l ≠ [] ∧ without 10 l ∧ without 13 l ∧ clean l ∧ Forall is_byte l) (map line_text xs)) as Hls.
  { apply Forall_map. eapply Forall_impl; [exact Hxs|]. intros x Hx. by apply line_text_facts. }
  assert (clean a) as Ha.
  { unfold a. cbn [join_with]. apply clean_app; [by apply name_clean|].
    apply (clean_app [10]); [done|]. apply clean_app; [by apply digits_clean|].
    apply (clean_app [10]); [done|]. by apply base64_clean, base64_alphabet. }
  split_and!; [done|..].
  - rewrite Heq. apply clean_app; [done|]. apply (clean_app [10; 10]); [done|]. apply newline_ended_clean.
    eapply Forall_impl; [exact Hls|]. by intros l (_ & _ & _ & ? & _).
  - destruct (newline_ended_ends (map line_text xs)) as [k Hk]; [by destruct xs|].
    apply ends_with_spec. exists (a ++ 10 :: 10 :: k). by rewrite Heq, Hk, <- app_assoc.
  - rewrite Heq. apply (last_occurrence_at [10; 10] a _ 10 (10 :: newline_ended (map line_text xs))); [done|].
    apply last_occurrence_newlines. eapply Forall_impl; [exact Hls|]. by intros l (? & ? & _).
  - apply lines_newline_ended; (eapply Forall_impl; [exact Hls|]); by intros l (_ & ? & ? & _).
  - eapply Forall_impl; [exact Hls|]. by intros l (_ & _ & _ & [? _] & ?).
Qed.

(** What an accepted input looks like before its text is read. *)
Lemma parse_cuts input log_id c :
  checkpoint_parse input log_id = Ok c →
  ∃ a block, input = a ++ 10 :: 10 :: block ∧ len input ≤ 128 * 1024 ∧ ends_with [10] input = true
    ∧ forallb allowed (utf8_chars input) = true ∧ last_occurrence [10; 10] input = Some (len a).
Proof.
  unfold checkpoint_parse. destruct (Z.ltb_spec (128 * 1024) (len input)); [done|].
  destruct (ends_with [10] input); [|done]. cbn [negb orb]. destruct (existsb _ _) eqn:Hall; [done|].
  apply existsb_false in Hall. destruct (last_occurrence [10; 10] input) as [i|] eqn:Hi; [|done]. intros _.
  destruct (last_occurrence_Some _ _ _ Hi) as (a & block & Heq & ->). by exists a, block.
Qed.

Lemma block_lines a block :
  ends_with [10] (a ++ 10 :: 10 :: block) = true →
  forallb allowed (utf8_chars (a ++ 10 :: 10 :: block)) = true → rust_str (a ++ 10 :: 10 :: block) →
  block = newline_ended (lines block).
Proof.
  intros [k Hk]%ends_with_spec Hall [_ Hv]. apply newline_ended_lines.
  - destruct block as [|x block _] using rev_ind; [by left|]. right. exists block.
    rewrite !app_comm_cons, app_assoc in Hk. by apply app_inj_tail in Hk as [_ ->].
  - intros Hin. rewrite forallb_forall in Hall. discriminate (Hall 13).
    apply list_elem_of_In, utf8_low_char; [done| |lia]. apply elem_of_app. right. by do 2 right.
Qed.

Lemma note_parses c log_id xs input :
  checkpoint_ok c → note_of c log_id xs input → checkpoint_parse input log_id = Ok c.
Proof.
  intros Hok Hnote. pose proof (note_cut _ _ _ _ Hok Hnote) as (Heq & [_ Hall] & Hend & Hsep & Hlines & Hstrs).
  destruct Hnote as (_ & Hlen & Hcount & Hxs & Hfound). destruct Hok as (Hos & Ho & Hn & Hr & Ht & Hd).
  rewrite Heq in *. apply checkpoint_parse_cut; [done..|].
  destruct (validate_origin_name _ Hos Ho) as [Hname _].
  split_and!; [|done|done|done|].
  - apply split_text; [apply name_without; [done|lia|done]|done|apply Hr].
  - rewrite Hlines. apply signature_lines_iff; [done|lia|]. split; [unfold len; rewrite length_map; unfold len in Hcount; lia|].
    exists xs. split_and!; [done|done|]. apply found_iff; [done|apply key_id_len|]. by split.
Qed.

(** C29 (functional).  [StaticCheckpoint::parse] accepts exactly the signed
    notes of its checkpoint: the canonical text, an empty line and at most
    sixteen well-formed signature lines, of which one, and only one, bears
    the log's origin and key id, and holds the checkpoint's timestamp and
    signature. *)
Theorem checkpoint_parse_exact input log_id c :
  rust_str input →
  checkpoint_parse input log_id = Ok c ↔ checkpoint_ok c ∧ ∃ xs, note_of c log_id xs input.
Proof.
  intros Hstr. split.
  - intros Hp. destruct (parse_cuts _ _ _ Hp) as (a & block & -> & Hlen & Hend & Hall & Hsep).
    apply checkpoint_parse_cut in Hp as (Hs & Ho & Hn & Hr & Hl); [|done..].
    pose proof (block_lines _ _ Hend Hall Hstr) as Hb.
    apply rust_str_app in Hstr as [Ha Hblock]; [|lia]. apply (rust_str_app []) in Hblock as [_ Hblock]; [|lia].
    rewrite Hb in Hblock. apply newline_ended_str in Hblock.
    apply signature_lines_iff in Hl as (Hcount & xs & Hxs & Hok & Hsingle); [|done|lia].
    apply found_iff in Hsingle as [[Ht Hd] Hfound]; [|done|apply key_id_len].
    pose proof (join_split 10 a) as Hja. rewrite Hs in Hja. split.
    + split_and!; try done. rewrite <- Hja in Ha. by apply rust_str_app in Ha as [? _]; [|lia].
    + exists xs. unfold note_of, cp_text. rewrite checkpoint_text_lines, Hja, <- app_assoc, <- Hxs, <- Hb.
      rewrite Hxs in Hcount. unfold len in Hcount. rewrite length_map in Hcount.
      split_and!; [done|done|unfold len; lia|done|done].
  - intros (Hok & xs & Hnote). by eapply note_parses.
Qed.

(** The log's own line, for a checkpoint of the Rust type. *)
Lemma own_blob c log_id :
  checkpoint_ok c →
  ∃ blob, cp_blob c log_id = Ok blob ∧ vector blob ∧ 4 ≤ len blob ≤ 65551
    ∧ own_line (cp_origin c) (checkpoint_key_id (cp_origin c) log_id) (cp_origin c, blob) = true.
Proof.
  intros (_ & _ & _ & _ & Ht & Hd).
  assert (∃ e, digitally_signed_encode (cp_tree_head_signature c) = Ok e) as [e He].
  { destruct Hd as (Hh & Hk & _ & Hl). unfold digitally_signed_encode, push_vector_u16.
    rewrite Hh, Hk, Z.eqb_refl. cbn [negb]. rewrite (proj2 (Z.ltb_ge _ _)), (proj2 (Z.ltb_ge _ _)) by lia. by eexists. }
  pose proof (digitally_signed_encode_vector _ _ Hd He) as [Heb _].
  assert (len e ≤ 65539) as Hel.
  { unfold digitally_signed_encode in He. repeat (case_match; [done|]). apply push_vector_u16_Ok in He as [-> Hl].
    rewrite !len_app. unfold len at 1 2. rewrite be_bytes_length. cbn. unfold U16_MAX in Hl. lia. }
  unfold cp_blob, note_blob, note_signature_encode. cbn [fst snd]. rewrite He. cbn [mbind result_bind].
  eexists. split; [done|]. pose proof (key_id_len (cp_origin c) log_id) as Hk.
  assert (len (be_bytes 8 (cp_timestamp c)) = 8) as H8 by (unfold len; by rewrite be_bytes_length).
  set (blob := _ ++ _). assert (vector blob) as Hv.
  { unfold blob. split; [|rewrite !len_app; lia]. rewrite !Forall_app. split_and!; [|apply be_bytes_is_byte|done].
    unfold checkpoint_key_id. apply Forall_take, sha256_bytes. }
  split_and!; [done|unfold blob; rewrite !len_app; pose proof (len_nonneg e); lia|unfold blob; rewrite !len_app; lia|].
  apply (own_line_value _ _ (cp_origin c, blob) (cp_timestamp c, cp_tree_head_signature c) Hv Hk).
  split_and!; [by split|done|]. unfold note_blob, note_signature_encode. cbn [fst snd]. by rewrite He.
Qed.

(** Every checkpoint of the Rust type with a valid origin
    renders, the note stays within the size [parse] admits, and [parse] gives
    the checkpoint back. *)
Theorem checkpoint_roundtrip c log_id :
  checkpoint_ok c → ∃ text, checkpoint_render c log_id = Ok text ∧ checkpoint_parse text log_id = Ok c.
Proof.
  intros Hok. pose proof Hok as (Hos & Ho & Hn & [Hr32 Hr] & Ht & Hd).
  destruct (own_blob c log_id Hok) as (blob & Hblob & Hv & Hbl & Hown).
  destruct (validate_origin_name _ Hos Ho) as [Hname Hol]. destruct (decimal_spec _ Hn) as (Hdl & _ & _).
  set (text := cp_text c ++ 10 :: newline_ended (map line_text [(cp_origin c, blob)])).
  assert (checkpoint_render c log_id = Ok text) as Hrender.
  { unfold checkpoint_render. rewrite Ho. cbn [mbind result_bind].
    unfold cp_blob, note_blob, note_signature_encode in Hblob. cbn [fst snd] in Hblob.
    destruct (digitally_signed_encode (cp_tree_head_signature c)) as [e|]; [|done]. injection Hblob as <-.
    cbn [mbind result_bind]. f_equal. unfold text, newline_ended, line_text. cbn [map concat fst snd].
    rewrite app_nil_r, <- !app_assoc. done. }
  assert (note_of c log_id [(cp_origin c, blob)] text) as Hnote.
  { split_and!; [done| |done| |].
    - unfold text, newline_ended, line_text, cp_text, checkpoint_text. cbn [map concat fst snd].
      repeat rewrite ?len_app, ?len_cons, ?len_nil. rewrite !base64_length, Hr32.
      change (len SIGNATURE_LINE_PREFIX) with 4. change (len []) with 0. revert Hbl. generalize (len blob). intros.  div_lia.
    - apply Forall_singleton. split_and!; [done|done|]. cbn [snd]. intros ->. rewrite len_nil in Hbl. lia.
    - exists blob. split; [done|]. rewrite filter_cons_True by by rewrite Hown. done. }
  exists text. split; [done|]. by eapply note_parses.
Qed.
End note.

(** ** A note of two lines *)

Definition demo_checkpoint : StaticCheckpoint :=
  mkStaticCheckpoint (ascii "ct.example/2026h1") 42 (replicate 32 3) 99
    (mkDigitallySigned HASH_ALGORITHM_SHA256 SIGNATURE_ALGORITHM_ECDSA [0x30; 0]).

Definition demo_log_id : Hash := replicate 32 4.

Lemma demo_checkpoint_ok : checkpoint_ok demo_checkpoint.
Proof.
  unfold checkpoint_ok, rust_str, octets, below, is_u64, digitally_signed_ok, vec, demo_checkpoint.
  cbn [cp_origin cp_tree_size cp_root_hash cp_timestamp cp_tree_head_signature hash_algorithm signature_algorithm ds_signature].
  split_and!; try (apply (bool_decide_unpack _); vm_compute; exact I); vm_compute; congruence.
Qed.

Lemma checkpoint_roundtrip_witness :
  ∃ text, checkpoint_render demo_checkpoint demo_log_id = Ok text
    ∧ checkpoint_parse text demo_log_id = Ok demo_checkpoint.
Proof. apply checkpoint_roundtrip. exact demo_checkpoint_ok. Defined.

(** A witness's signature before the log's. *)
Definition demo_note : bytes :=
  cp_text demo_checkpoint
    ++ 10 :: newline_ended (map line_text
         [(ascii "witness.example", [1; 2; 3; 4; 5]);
          (cp_origin demo_checkpoint,
           match cp_blob demo_checkpoint demo_log_id with Ok blob => blob | Err _ => [] end)]).

Lemma checkpoint_parse_exact_witness :
  checkpoint_ok demo_checkpoint ∧ ∃ xs, note_of demo_checkpoint demo_log_id xs demo_note.
Proof.
  apply checkpoint_parse_exact; [|vm_compute; reflexivity].
  split; [apply (bool_decide_unpack _); vm_compute; exact I|vm_compute; reflexivity].
Defined.
