(* ===== verification/CbConfig.v ===== *)
(** * Admission policy

    [src/source/crates/oxibelt-admission-policy/src/circuit_breakers.rs] and
    [circuit_breakers/priority.rs]: capacities, scopes, retry budget, failure
    circuit and priority classes, with their validation.  A [bail!] is an
    error with the field it names. *)

From S2P Require Import Prelude F64.
From Stdlib Require Import Floats.SpecFloat.

(** ** Capacities and scopes *)

Inductive CapacitySetting : Type :=
  | Auto
  | Fixed (value : Z).

#[export] Instance CapacitySetting_eq_dec : EqDecision CapacitySetting.
Proof. solve_decision. Defined.

Definition fixed (c : CapacitySetting) : option Z :=
  match c with
  | Auto => None
  | Fixed value => Some value
  end.

Definition capacity_validate (c : CapacitySetting) (field : string) (allow_zero : bool) : result string unit :=
  if negb allow_zero && bool_decide (fixed c = Some 0) then Err field else Ok tt.

Record CircuitBreakerScopeConfig : Type := mkScopeConfig {
  max_active_requests : CapacitySetting;
  max_pending_requests : CapacitySetting;
  pending_queue_timeout_ms : Z;
  max_connections : CapacitySetting;
  max_streams : CapacitySetting;
  max_body_inspection_jobs : CapacitySetting;
  max_decompression_jobs : CapacitySetting;
}.

Definition default_pending_queue_timeout_ms : Z := 50.

Definition scope_config_default : CircuitBreakerScopeConfig :=
  mkScopeConfig Auto Auto default_pending_queue_timeout_ms Auto Auto Auto Auto.

Definition scope_config_validate (c : CircuitBreakerScopeConfig) : result string unit :=
  capacity_validate (max_active_requests c) "max_active_requests" false;;
  capacity_validate (max_pending_requests c) "max_pending_requests" true;;
  capacity_validate (max_connections c) "max_connections" false;;
  capacity_validate (max_streams c) "max_streams" false;;
  capacity_validate (max_body_inspection_jobs c) "max_body_inspection_jobs" false;;
  capacity_validate (max_decompression_jobs c) "max_decompression_jobs" false;;
  if pending_queue_timeout_ms c =? 0 then Err "pending_queue_timeout_ms"%string else Ok tt.

Record CircuitBreakerScopeOverride : Type := mkScopeOverride {
  so_max_active_requests : option CapacitySetting;
  so_max_pending_requests : option CapacitySetting;
  so_pending_queue_timeout_ms : option Z;
  so_max_connections : option CapacitySetting;
  so_max_streams : option CapacitySetting;
  so_max_body_inspection_jobs : option CapacitySetting;
  so_max_decompression_jobs : option CapacitySetting;
}.

Definition merged_with (o : CircuitBreakerScopeOverride) (defaults : CircuitBreakerScopeConfig)
    : CircuitBreakerScopeConfig :=
  mkScopeConfig
    (default (max_active_requests defaults) (so_max_active_requests o))
    (default (max_pending_requests defaults) (so_max_pending_requests o))
    (default (pending_queue_timeout_ms defaults) (so_pending_queue_timeout_ms o))
    (default (max_connections defaults) (so_max_connections o))
    (default (max_streams defaults) (so_max_streams o))
    (default (max_body_inspection_jobs defaults) (so_max_body_inspection_jobs o))
    (default (max_decompression_jobs defaults) (so_max_decompression_jobs o)).

(** The loop over the fields of an override. *)
Fixpoint override_fields_validate (fields : list (string * option CapacitySetting * bool)) : result string unit :=
  match fields with
  | [] => Ok tt
  | (field, value, allow_zero) :: fields =>
      (match value with
       | Some value => capacity_validate value field allow_zero
       | None => Ok tt
       end);;
      override_fields_validate fields
  end.

Definition scope_override_validate (o : CircuitBreakerScopeOverride) : result string unit :=
  override_fields_validate
    [("max_active_requests"%string, so_max_active_requests o, false);
     ("max_pending_requests"%string, so_max_pending_requests o, true);
     ("max_connections"%string, so_max_connections o, false);
     ("max_streams"%string, so_max_streams o, false);
     ("max_body_inspection_jobs"%string, so_max_body_inspection_jobs o, false);
     ("max_decompression_jobs"%string, so_max_decompression_jobs o, false)];;
  if bool_decide (so_pending_queue_timeout_ms o = Some 0) then Err "pending_queue_timeout_ms"%string
  else Ok tt.

(** ** Retry budget *)

Record CircuitBreakerRetryBudgetConfig : Type := mkRetryBudgetConfig {
  rb_percent : f64;
  rb_min_concurrency : Z;
  rb_max_concurrency : CapacitySetting;
  rb_max_queue : CapacitySetting;
  rb_queue_timeout_ms : Z;
}.

(** [!x.is_finite() || !(0.0..=1.0).contains(&x)], negated. *)
Definition in_unit_interval (x : f64) : bool := is_finite x && (f64_leb f64_zero x && f64_leb x f64_one).

Definition retry_budget_validate (r : CircuitBreakerRetryBudgetConfig) : result string unit :=
  if negb (in_unit_interval (rb_percent r)) then Err "retry_budget.percent"%string
  else if rb_min_concurrency r =? 0 then Err "retry_budget.min_concurrency"%string
  else
    capacity_validate (rb_max_concurrency r) "retry_budget.max_concurrency" false;;
    capacity_validate (rb_max_queue r) "retry_budget.max_queue" true;;
    if rb_queue_timeout_ms r =? 0 then Err "retry_budget.queue_timeout_ms"%string else Ok tt.

(** ** Failure circuit *)

Inductive CircuitFailureCondition : Type :=
  | OnConnectError
  | OnFirstByteTimeout
  | OnResponseReadTimeout
  | OnProtocolError
  | OnStatus502
  | OnStatus503
  | OnStatus504.

Record CircuitBreakerFailureConfig : Type := mkFailureConfig {
  fl_enabled : bool;
  fl_on : list CircuitFailureCondition;
  fl_consecutive_failures : Z;
  fl_minimum_requests : Z;
  fl_failure_ratio : f64;
  fl_window_ms : Z;
  fl_open_timeout_ms : Z;
  fl_max_open_timeout_ms : Z;
  fl_half_open_max_probes : Z;
  fl_half_open_successes : Z;
}.

Definition failure_validate (f : CircuitBreakerFailureConfig) : result string unit :=
  if is_empty (fl_on f) then Err "failure.on"%string
  else if (fl_consecutive_failures f =? 0) || (fl_minimum_requests f =? 0)
  then Err "failure thresholds"%string
  else if negb (in_unit_interval (fl_failure_ratio f)) then Err "failure.failure_ratio"%string
  else if (fl_window_ms f =? 0) || (fl_open_timeout_ms f =? 0) || (fl_max_open_timeout_ms f =? 0)
  then Err "failure durations"%string
  else if fl_max_open_timeout_ms f <? fl_open_timeout_ms f then Err "failure.max_open_timeout_ms"%string
  else if (fl_half_open_max_probes f =? 0) || (fl_half_open_successes f =? 0)
  then Err "failure half-open limits"%string
  else Ok tt.

(** ** Priority classes *)

(** [PriorityClass] of [overload.rs]. *)
Inductive PriorityClass : Type :=
  | Admin
  | Health
  | SecurityCallback
  | Interactive
  | DefaultClass
  | Background
  | Crawler.

#[export] Instance PriorityClass_eq_dec : EqDecision PriorityClass.
Proof. solve_decision. Defined.

Definition PriorityClass_ALL : list PriorityClass :=
  [Admin; Health; SecurityCallback; Interactive; DefaultClass; Background; Crawler].

Inductive PriorityRejectionPolicy : Type :=
  | QueuePolicy
  | RejectPolicy.

#[export] Instance PriorityRejectionPolicy_eq_dec : EqDecision PriorityRejectionPolicy.
Proof. solve_decision. Defined.

Record CircuitBreakerPriorityClassConfig : Type := mkClassConfig {
  pc_name : PriorityClass;
  pc_reserved_requests : option Z;
  pc_max_share : option f64;
  pc_max_pending_requests : option CapacitySetting;
  pc_pending_queue_timeout_ms : option Z;
  pc_rejection_policy : option PriorityRejectionPolicy;
}.

Record CircuitBreakerPriorityConfig : Type := mkPriorityConfig {
  pr_enabled : bool;
  pr_classes : list CircuitBreakerPriorityClassConfig;
}.

Record PriorityClassPolicy : Type := mkClassPolicy {
  po_reserved_requests : Z;
  po_max_share : f64;
  po_max_pending_requests : option CapacitySetting;
  po_pending_queue_timeout_ms : option Z;
  po_rejection_policy : PriorityRejectionPolicy;
}.

Definition f64_half : f64 := f64_div f64_one (f64_of 2).
Definition f64_quarter : f64 := f64_div f64_one (f64_of 4).

Definition default_for (class : PriorityClass) : PriorityClassPolicy :=
  match class with
  | Background => mkClassPolicy 0 f64_half (Some (Fixed 0)) None RejectPolicy
  | Crawler => mkClassPolicy 0 f64_quarter (Some (Fixed 0)) None RejectPolicy
  | _ => mkClassPolicy 0 f64_one None None QueuePolicy
  end.

(** The [Some] of an override, or what was there. *)
Definition or_some {A} (new old : option A) : option A :=
  match new with
  | Some a => Some a
  | None => old
  end.

Definition policy_apply (p : PriorityClassPolicy) (o : CircuitBreakerPriorityClassConfig) : PriorityClassPolicy :=
  mkClassPolicy
    (default (po_reserved_requests p) (pc_reserved_requests o))
    (default (po_max_share p) (pc_max_share o))
    (or_some (pc_max_pending_requests o) (po_max_pending_requests p))
    (or_some (pc_pending_queue_timeout_ms o) (po_pending_queue_timeout_ms p))
    (default (po_rejection_policy p) (pc_rejection_policy o)).

Definition resolved_for_validation (c : CircuitBreakerPriorityConfig) (class : PriorityClass)
    : PriorityClassPolicy :=
  let policy := default_for class in
  match find (λ candidate, bool_decide (pc_name candidate = class)) (pr_classes c) with
  | Some override_config => policy_apply policy override_config
  | None => policy
  end.

Definition max_class_requests (global_capacity : Z) (max_share : f64) : Z :=
  if f64_leb f64_one max_share then global_capacity
  else f64_to_usize (f64_floor (f64_mul (f64_of global_capacity) max_share)).

(** One class of the first validation loop, with the classes seen before. *)
Definition class_validate (seen : list PriorityClass) (c : CircuitBreakerPriorityClassConfig) : result string unit :=
  if bool_decide (pc_name c ∈ seen) then Err "duplicate class"%string
  else if match pc_name c with Admin | Health => true | _ => false end
          && (0 <? default 0 (pc_reserved_requests c))
  then Err "reserved public capacity"%string
  else if match pc_max_share c with
          | Some share => negb (is_finite share && f64_ltb f64_zero share && f64_leb share f64_one)
          | None => false
          end
  then Err "max_share"%string
  else if bool_decide (pc_pending_queue_timeout_ms c = Some 0) then Err "pending_queue_timeout_ms"%string
  else
    (match pc_max_pending_requests c with
     | Some value => capacity_validate value "max_pending_requests" true
     | None => Ok tt
     end);;
    if bool_decide (pc_rejection_policy c = Some RejectPolicy)
       && match pc_max_pending_requests c with
          | Some value => match fixed value with Some value => 0 <? value | None => false end
          | None => false
          end
    then Err "reject with a queue"%string
    else Ok tt.

Fixpoint classes_validate (seen : list PriorityClass) (classes : list CircuitBreakerPriorityClassConfig)
    : result string unit :=
  match classes with
  | [] => Ok tt
  | c :: classes => class_validate seen c;; classes_validate (pc_name c :: seen) classes
  end.

(** The last loop: no class reserves more than its share allows. *)
Fixpoint shares_validate (c : CircuitBreakerPriorityConfig) (global_capacity : Z) (classes : list PriorityClass)
    : result string unit :=
  match classes with
  | [] => Ok tt
  | class :: classes =>
      let policy := resolved_for_validation c class in
      if max_class_requests global_capacity (po_max_share policy) <? po_reserved_requests policy
      then Err "reserves more than its share"%string
      else shares_validate c global_capacity classes
  end.

(** [iter().map(..).sum::<usize>()] *)
Definition sum_usize (l : list Z) : Z := foldl add64 0 l.

Definition priority_validate (c : CircuitBreakerPriorityConfig) (fixed_global_capacity : option Z)
    : result string unit :=
  classes_validate [] (pr_classes c);;
  let background := resolved_for_validation c Background in
  let crawler := resolved_for_validation c Crawler in
  if f64_leb f64_one (f64_add (po_max_share background) (po_max_share crawler))
  then Err "background and crawler shares"%string
  else
    let global_capacity := default 64 fixed_global_capacity in
    let reservations :=
      sum_usize (map (λ class, po_reserved_requests (resolved_for_validation c class)) PriorityClass_ALL) in
    if global_capacity <=? reservations then Err "no shared request slot"%string
    else shares_validate c global_capacity PriorityClass_ALL.

(** ** The whole policy *)

Record CircuitBreakersConfig : Type := mkBreakersConfig {
  br_enabled : bool;
  br_response_status : Z;
  br_capacity_retry_after_ms : Z;
  br_global : CircuitBreakerScopeConfig;
  br_route_defaults : CircuitBreakerScopeConfig;
  br_pool_defaults : CircuitBreakerScopeConfig;
  br_retry_budget : CircuitBreakerRetryBudgetConfig;
  br_failure : CircuitBreakerFailureConfig;
  br_priority : CircuitBreakerPriorityConfig;
}.

Definition breakers_validate (b : CircuitBreakersConfig) : result string unit :=
  if negb ((500 <=? br_response_status b) && (br_response_status b <=? 599)) then Err "response_status"%string
  else if br_capacity_retry_after_ms b =? 0 then Err "capacity_retry_after_ms"%string
  else
    scope_config_validate (br_global b);;
    scope_config_validate (br_route_defaults b);;
    scope_config_validate (br_pool_defaults b);;
    retry_budget_validate (br_retry_budget b);;
    failure_validate (br_failure b);;
    priority_validate (br_priority b) (fixed (max_active_requests (br_global b))).
