(* ===== verification/CbResources.v ===== *)
(** * Automatic limits

    [src/source/src/circuit_breakers/resources.rs]: the limits an [auto]
    setting resolves to from the process's resources, and the budget of the
    Compio direct-H1 transport.  The discovered resources are an argument:
    they come from the operating system. *)

From S2P Require Import Prelude F64 CbConfig.
From Stdlib Require Import Floats.SpecFloat.

Definition USIZE_MAX : Z := U64_MAX.

Definition MAX_COMPIO_DIRECT_H1_WORKERS : Z := 256.
Definition MAX_COMPIO_DIRECT_H1_QUEUE_ENTRIES : Z := 4096.
Definition MAX_COMPIO_DIRECT_H1_CONNECTIONS : Z := 4096.
Definition COMPIO_DIRECT_H1_WORKER_MEMORY_RESERVATION_BYTES : Z := 8 * 1024 * 1024.
Definition COMPIO_DIRECT_H1_QUEUE_ENTRY_MEMORY_BYTES : Z := 64 * 1024.
Definition COMPIO_DIRECT_H1_CONNECTION_MEMORY_BYTES : Z := 32 * 1024.
Definition COMPIO_DIRECT_H1_MAX_OVERLAPPING_FLEETS : Z := 2.
Definition COMPIO_DIRECT_H1_WORKER_MEMORY_PARTITION : Z := 2.
Definition COMPIO_DIRECT_H1_QUEUE_MEMORY_PARTITION : Z := 8.
Definition COMPIO_DIRECT_H1_CONNECTION_MEMORY_PARTITION : Z := 4.

Record RuntimeResources : Type := mkResources {
  cpu : f64;
  memory_bytes : Z;
  usable_file_descriptors : Z;
  buffering_bytes : Z;
  decoded_body_bytes : Z;
}.

(** The part of [discover] that decides what the readings mean. *)
Definition effective_memory_bytes (cgroup kubernetes_request host : option Z) : Z :=
  default (512 * 1024 * 1024)
    (match cgroup with
     | Some bytes => Some bytes
     | None =>
         match kubernetes_request, host with
         | Some request, Some host => Some (Z.min request host)
         | Some request, None => Some request
         | None, host => host
         end
     end).

Definition effective_usable_file_descriptors (discovered : option Z) (reserved : Z) : Z :=
  saturating_sub64 (default 1024 discovered) reserved.

(** ** Automatic limits of a scope *)

Inductive AutoScope : Type :=
  | GlobalScope
  | RouteScope
  | PoolScope.

Definition clamp_ceil (value : f64) (min max : Z) : Z :=
  f64_to_usize (f64_clamp (f64_ceil value) (f64_of min) (f64_of max)).

Section automatic.
Variable r : RuntimeResources.

(** [k.0 * self.cpu] *)
Definition cpus (k : Z) : f64 := f64_mul (f64_of k) (cpu r).

Definition active_requests (scope : AutoScope) (global : Z) : Z :=
  match scope with
  | GlobalScope =>
      let cpu_bound := clamp_ceil (cpus 256) 64 8192 in
      let memory_bound := Z.max (memory_bytes r / saturating_mul64 (buffering_bytes r) 8) 32 in
      Z.min cpu_bound memory_bound
  | RouteScope => Z.min global (clamp_ceil (cpus 128) 32 4096)
  | PoolScope => Z.min global (clamp_ceil (cpus 128) 32 4096)
  end.

Definition pending_requests (scope : AutoScope) (global : Z) : Z :=
  match scope with
  | GlobalScope =>
      let cpu_bound := clamp_ceil (cpus 32) 8 1024 in
      let memory_bound := Z.max (memory_bytes r / saturating_mul64 (buffering_bytes r) 32) 4 in
      Z.min cpu_bound memory_bound
  | RouteScope => Z.min global (clamp_ceil (cpus 16) 4 256)
  | PoolScope => Z.min global (clamp_ceil (cpus 16) 4 256)
  end.

Definition connections (scope : AutoScope) (global : Z) : Z :=
  match scope with
  | GlobalScope => Z.min (clamp_ceil (cpus 64) 16 2048) (usable_file_descriptors r / 4)
  | RouteScope => Z.min global (clamp_ceil (cpus 16) 4 512)
  | PoolScope => Z.min global (clamp_ceil (cpus 16) 4 512)
  end.

Definition streams (scope : AutoScope) (global_active global : Z) : Z :=
  match scope with
  | GlobalScope => Z.min global_active (clamp_ceil (cpus 256) 64 8192)
  | RouteScope => Z.min global (clamp_ceil (cpus 128) 32 4096)
  | PoolScope => Z.min global (clamp_ceil (cpus 128) 32 4096)
  end.

Definition inspection_jobs (scope : AutoScope) (global : Z) : Z :=
  match scope with
  | GlobalScope =>
      Z.min (clamp_ceil (cpus 2) 1 64)
        (Z.max (memory_bytes r / saturating_mul64 (decoded_body_bytes r) 4) 1)
  | RouteScope | PoolScope => Z.min global (clamp_ceil (cpu r) 1 32)
  end.

Definition retry_concurrency : Z := clamp_ceil (cpus 4) 1 128.
End automatic.

Definition retry_queue (retry_concurrency : Z) : Z := Z.min (saturating_mul64 retry_concurrency 2) 256.

Definition configured_capacity (setting : CapacitySetting) (automatic : Z) : Z :=
  Z.max (default automatic (fixed setting)) 1.

Definition configured_queue_capacity (setting : CapacitySetting) (automatic : Z) : Z :=
  default automatic (fixed setting).

Definition configured_connection_capacity (setting : CapacitySetting) (automatic : Z) : Z :=
  default automatic (fixed setting).

Record ResolvedAutoScope : Type := mkAutoScope {
  ra_active_requests : Z;
  ra_pending_requests : Z;
  ra_connections : Z;
  ra_streams : Z;
  ra_inspection_jobs : Z;
  ra_decompression_jobs : Z;
}.

#[export] Instance eta_ResolvedAutoScope : Eta ResolvedAutoScope :=
  λ x, mkAutoScope (ra_active_requests x) (ra_pending_requests x) (ra_connections x) (ra_streams x)
         (ra_inspection_jobs x) (ra_decompression_jobs x).

Definition scope_defaults (r : RuntimeResources) (scope : AutoScope) (config : CircuitBreakerScopeConfig)
    (global : option ResolvedAutoScope) : ResolvedAutoScope :=
  let or_global field automatic :=
    match global with
    | Some value => field value
    | None => automatic
    end in
  let global_active := or_global ra_active_requests (active_requests r GlobalScope USIZE_MAX) in
  let global_pending := or_global ra_pending_requests (pending_requests r GlobalScope USIZE_MAX) in
  let global_connections := or_global ra_connections (connections r GlobalScope USIZE_MAX) in
  let global_streams := or_global ra_streams (streams r GlobalScope global_active USIZE_MAX) in
  let global_inspection := or_global ra_inspection_jobs (inspection_jobs r GlobalScope USIZE_MAX) in
  let active_automatic := active_requests r scope global_active in
  let pending_automatic := pending_requests r scope global_pending in
  let connection_automatic := connections r scope global_connections in
  let stream_automatic := streams r scope global_active global_streams in
  let inspection_automatic := inspection_jobs r scope global_inspection in
  mkAutoScope
    (configured_capacity (max_active_requests config) active_automatic)
    (configured_queue_capacity (max_pending_requests config) pending_automatic)
    (configured_connection_capacity (max_connections config) connection_automatic)
    (configured_capacity (max_streams config) stream_automatic)
    (configured_capacity (max_body_inspection_jobs config) inspection_automatic)
    (configured_capacity (max_decompression_jobs config) inspection_automatic).

(** ** The budget of the Compio direct-H1 transport *)

Definition compio_worker_memory_limit (memory_bytes : Z) : Z :=
  Z.min
    (memory_bytes / COMPIO_DIRECT_H1_WORKER_MEMORY_PARTITION / COMPIO_DIRECT_H1_MAX_OVERLAPPING_FLEETS
       / COMPIO_DIRECT_H1_WORKER_MEMORY_RESERVATION_BYTES)
    MAX_COMPIO_DIRECT_H1_WORKERS.

Definition compio_queue_memory_limit (memory_bytes : Z) : Z :=
  Z.min
    (memory_bytes / COMPIO_DIRECT_H1_QUEUE_MEMORY_PARTITION / COMPIO_DIRECT_H1_MAX_OVERLAPPING_FLEETS
       / COMPIO_DIRECT_H1_QUEUE_ENTRY_MEMORY_BYTES)
    MAX_COMPIO_DIRECT_H1_QUEUE_ENTRIES.

Definition compio_connection_memory_limit (memory_bytes : Z) : Z :=
  memory_bytes / COMPIO_DIRECT_H1_CONNECTION_MEMORY_PARTITION / COMPIO_DIRECT_H1_MAX_OVERLAPPING_FLEETS
    / COMPIO_DIRECT_H1_CONNECTION_MEMORY_BYTES.

Definition compio_connection_capacity (setting : CapacitySetting) (candidate safe_limit : Z) : result string Z :=
  match setting with
  | Auto => Ok (Z.min candidate safe_limit)
  | Fixed value => if value <=? safe_limit then Ok value else Err "connection capacity"%string
  end.

(** [a.div_ceil(b)] *)
Definition div_ceil (a b : Z) : Z := a / b + (if 0 <? a mod b then 1 else 0).

Definition queue_projection (worker_count connections pending : Z) : option (Z * Z) :=
  let queue_capacity_per_worker :=
    Z.max (Z.max (div_ceil pending worker_count) (div_ceil connections worker_count)) 1 in
  match checked_mul64 worker_count queue_capacity_per_worker with
  | Some physical =>
      match checked_add64 physical pending with
      | Some combined => Some (queue_capacity_per_worker, combined)
      | None => None
      end
  | None => None
  end.

(** [projection.is_some_and(|(_, combined)| combined <= safe)] *)
Definition queue_fits (worker_count connections pending safe_queue_capacity : Z) : bool :=
  match queue_projection worker_count connections pending with
  | Some (_, combined) => combined <=? safe_queue_capacity
  | None => false
  end.

(** The search loop; the interval halves at each turn, so 65 turns search any
    [usize] interval. *)
Fixpoint search_waiters (fuel : nat) (worker_count connections lower upper safe_queue_capacity : Z) : option Z :=
  match fuel with
  | O => None
  | S fuel =>
      if lower <? upper then
        let midpoint := lower + (upper - lower) / 2 + 1 in
        if queue_fits worker_count connections midpoint safe_queue_capacity
        then search_waiters fuel worker_count connections midpoint upper safe_queue_capacity
        else search_waiters fuel worker_count connections lower (midpoint - 1) safe_queue_capacity
      else Some lower
  end.

Definition maximum_auto_waiters (worker_count connections candidate safe_queue_capacity : Z) : option Z :=
  search_waiters 65 worker_count connections 0 candidate safe_queue_capacity.

(** [a.checked_sub(b)] *)
Definition checked_sub64 (a b : Z) : option Z := if b <=? a then Some (a - b) else None.

(** The waiter capacity and the connections it leaves room for, when the
    waiter capacity is fixed. *)
Definition fixed_pending_capacities (worker_count connections : Z) (connection_setting : CapacitySetting)
    (value safe_queue_capacity : Z) : result string (Z * Z) :=
  match checked_sub64 safe_queue_capacity value with
  | None => Err "fixed waiter capacity"%string
  | Some available_for_physical =>
      let maximum_queue_per_worker := available_for_physical / worker_count in
      let required_pending_queue := Z.max (div_ceil value worker_count) 1 in
      if negb (required_pending_queue <=? maximum_queue_per_worker) then Err "fixed waiter capacity"%string
      else
        match checked_mul64 worker_count maximum_queue_per_worker with
        | None => Err "queue connection capacity"%string
        | Some queue_connection_limit =>
            match connection_setting with
            | Auto => Ok (Z.min connections queue_connection_limit, value)
            | Fixed _ =>
                if connections <=? queue_connection_limit then Ok (connections, value)
                else Err "fixed connection capacity"%string
            end
        end
  end.

(** The same when the waiter capacity is automatic. *)
Definition auto_pending_capacities (worker_count connections : Z) (connection_setting : CapacitySetting)
    (pending_candidate safe_queue_capacity : Z) : result string (Z * Z) :=
  connections ←
    (if negb (queue_fits worker_count connections 0 safe_queue_capacity) then
       if bool_decide (connection_setting = Auto) then
         let maximum_queue_per_worker := safe_queue_capacity / worker_count in
         match checked_mul64 worker_count maximum_queue_per_worker with
         | None => Err "queue connection capacity"%string
         | Some limit => Ok (Z.min connections limit)
         end
       else Err "fixed connection capacity"%string
     else Ok connections);
  match maximum_auto_waiters worker_count connections pending_candidate safe_queue_capacity with
  | Some pending => Ok (connections, pending)
  | None => Err "out of fuel"%string
  end.

Definition compio_queue_capacities (worker_count connection_candidate : Z) (connection_setting : CapacitySetting)
    (pending_candidate : Z) (pending_setting : CapacitySetting) (safe_queue_capacity : Z)
    : result string (Z * Z * Z) :=
  if negb (0 <? worker_count) then Err "worker count is zero"%string
  else
    capacities ←
      match pending_setting with
      | Fixed value =>
          fixed_pending_capacities worker_count connection_candidate connection_setting value safe_queue_capacity
      | Auto =>
          auto_pending_capacities worker_count connection_candidate connection_setting pending_candidate
            safe_queue_capacity
      end;
    let '(connections, pending) := capacities in
    if negb (0 <? connections) then Err "connection capacity is zero"%string
    else
      match queue_projection worker_count connections pending with
      | None => Err "queue capacity is too large"%string
      | Some (queue_capacity_per_worker, combined_queue_capacity) =>
          match checked_mul64 worker_count queue_capacity_per_worker with
          | None => Err "submission capacity is too large"%string
          | Some _ =>
              if combined_queue_capacity <=? safe_queue_capacity
              then Ok (connections, pending, queue_capacity_per_worker)
              else Err "combined queue capacity"%string
          end
      end.

Record CompioDirectH1Budget : Type := mkBudget {
  bu_worker_count : Z;
  bu_queue_capacity_per_worker : Z;
  bu_max_waiters : Z;
  bu_queue_wait_timeout_ms : Z;
  bu_max_connections_global : Z;
  bu_max_connections_per_origin : Z;
}.

(** The worker count and the two scopes of the configuration it reads. *)
Definition compio_direct_h1_budget_with_resources (worker_count : Z)
    (global_config pool_defaults : CircuitBreakerScopeConfig) (r : RuntimeResources)
    : result string CompioDirectH1Budget :=
  if negb (0 <? worker_count) then Err "worker count is zero"%string
  else
    let safe_worker_count := compio_worker_memory_limit (memory_bytes r) in
    if negb (worker_count <=? safe_worker_count) then Err "worker count"%string
    else
      let global := scope_defaults r GlobalScope global_config None in
      let memory_connection_limit := compio_connection_memory_limit (memory_bytes r) in
      let file_descriptor_connection_limit :=
        usable_file_descriptors r / 4 / COMPIO_DIRECT_H1_MAX_OVERLAPPING_FLEETS in
      let safe_connection_limit :=
        Z.min (Z.min memory_connection_limit file_descriptor_connection_limit) MAX_COMPIO_DIRECT_H1_CONNECTIONS in
      candidate ← compio_connection_capacity (max_connections global_config) (ra_connections global)
                    safe_connection_limit;
      let safe_queue_capacity := compio_queue_memory_limit (memory_bytes r) in
      capacities ← compio_queue_capacities worker_count candidate (max_connections global_config)
                     (ra_pending_requests global) (max_pending_requests global_config) safe_queue_capacity;
      let '(connections, pending, queue_capacity_per_worker) := capacities in
      let global := global <| ra_connections := connections |> <| ra_pending_requests := pending |> in
      let per_origin := scope_defaults r PoolScope pool_defaults (Some global) in
      let max_connections_per_origin := Z.min (ra_connections per_origin) (ra_connections global) in
      if negb ((0 <? ra_connections global) && (0 <? max_connections_per_origin))
      then Err "connection capacity is zero"%string
      else Ok (mkBudget worker_count queue_capacity_per_worker (ra_pending_requests global)
                 (pending_queue_timeout_ms global_config) (ra_connections global) max_connections_per_origin).
