(* ===== verification/CbBudget.v ===== *)
(** * The transport budget is safe and as large as it can be

    Theorems about [CbResources]: two fleets of the Compio direct-H1
    transport stay within their share of the memory and of the descriptors,
    every admitted connection and waiter has a queue slot, the automatic
    waiter capacity is the largest that fits, and automatic settings always
    resolve. *)

From S2P Require Import Prelude F64 CbConfig CbResources.
From Stdlib Require Import Floats.SpecFloat.

(** ** Rounded division and the projection *)

Lemma div_ceil_spec a w : 0 < w → 0 ≤ a → a ≤ w * div_ceil a w < a + w.
Proof.
  intros Hw Ha. unfold div_ceil. pose proof (Z.div_mod a w ltac:(lia)).
  pose proof (Z.mod_pos_bound a w Hw). destruct (Z.ltb_spec 0 (a mod w)); lia.
Qed.

Lemma div_ceil_le a w k : 0 < w → 0 ≤ a → (div_ceil a w ≤ k ↔ a ≤ w * k).
Proof. intros Hw Ha. pose proof (div_ceil_spec a w Hw Ha). split; intros; nia. Qed.

(** The slots per worker. *)
Definition per_worker (w c p : Z) : Z := Z.max (Z.max (div_ceil p w) (div_ceil c w)) 1.

Lemma per_worker_le w c p k : 0 < w → 0 ≤ c → 0 ≤ p → (per_worker w c p ≤ k ↔ p ≤ w * k ∧ c ≤ w * k ∧ 1 ≤ k).
Proof.
  intros Hw Hc Hp. unfold per_worker.
  rewrite <-(div_ceil_le p w k), <-(div_ceil_le c w k) by done. lia.
Qed.

Lemma per_worker_covers w c p : 0 < w → 0 ≤ c → 0 ≤ p →
  p ≤ w * per_worker w c p ∧ c ≤ w * per_worker w c p ∧ 1 ≤ per_worker w c p.
Proof. intros. by apply per_worker_le. Qed.

Lemma queue_projection_inv w c p q combined :
  queue_projection w c p = Some (q, combined) → q = per_worker w c p ∧ combined = w * q + p.
Proof.
  unfold queue_projection, checked_mul64, checked_add64. fold (per_worker w c p).
  case_match eqn:E; [|done]. intros H. repeat case_match; simplify_eq. done.
Qed.

Lemma queue_fits_spec w c p safe : 0 < w → 0 ≤ c → 0 ≤ p → safe ≤ U64_MAX →
  (queue_fits w c p safe = true ↔ w * per_worker w c p + p ≤ safe).
Proof.
  intros Hw Hc Hp Hs. unfold queue_fits.
  destruct (queue_projection w c p) as [[q combined]|] eqn:E.
  - apply queue_projection_inv in E as [-> ->]. apply Z.leb_le.
  - split; [done|]. intros Hle. exfalso. revert E.
    unfold queue_projection, checked_mul64, checked_add64. fold (per_worker w c p).
    pose proof (per_worker_covers w c p Hw Hc Hp).
    rewrite (proj2 (Z.leb_le (w * per_worker w c p) _)) by lia.
    by rewrite (proj2 (Z.leb_le (w * per_worker w c p + p) _)) by lia.
Qed.

Lemma queue_fits_mono w c p p' safe : 0 < w → 0 ≤ c → 0 ≤ p' ≤ p → safe ≤ U64_MAX →
  queue_fits w c p safe = true → queue_fits w c p' safe = true.
Proof.
  intros Hw Hc Hp Hs. rewrite !queue_fits_spec by lia. intros Hle.
  pose proof (per_worker_covers w c p Hw Hc ltac:(lia)).
  assert (per_worker w c p' ≤ per_worker w c p) by (apply per_worker_le; lia). nia.
Qed.

(** ** The search *)

(** [m] is the largest capacity of [lower..=upper] that fits, [lower] aside. *)
Definition largest_fitting (w c lower upper safe m : Z) : Prop :=
  lower ≤ m ≤ upper ∧ (m = lower ∨ queue_fits w c m safe = true) ∧
  ∀ p, m < p ≤ upper → queue_fits w c p safe = false.

Lemma search_waiters_spec w c safe fuel : 0 < w → 0 ≤ c → safe ≤ U64_MAX → ∀ lower upper,
  0 ≤ lower ≤ upper → upper - lower < 2 ^ Z.of_nat fuel →
  ∃ m, search_waiters (S fuel) w c lower upper safe = Some m ∧ largest_fitting w c lower upper safe m.
Proof.
  intros Hw Hc Hs. induction fuel as [|fuel IH]; intros lower upper Hl Hd; cbn [search_waiters];
    destruct (Z.ltb_spec lower upper) as [Hlt|Hge];
    try (exists lower; split; [done|]; split_and!; [lia|lia|by left|intros; lia]).
  { cbn in Hd. lia. }
  rewrite Nat2Z.inj_succ, Z.pow_succ_r in Hd by lia.
  set (mid := lower + (upper - lower) / 2 + 1).
  assert (lower < mid ≤ upper ∧ upper - mid < 2 ^ Z.of_nat fuel ∧ mid - 1 - lower < 2 ^ Z.of_nat fuel)
    as (Hm & Hu & Hlo) by (subst mid; div_lia).
  destruct (queue_fits w c mid safe) eqn:Ef.
  - destruct (IH mid upper) as (m & Hm' & [Hr [Hf Hn]]); [lia..|]. exists m. split; [exact Hm'|].
    split_and!; [lia|lia| |done]. right. destruct Hf as [->|]; done.
  - destruct (IH lower (mid - 1)) as (m & Hm' & [Hr [Hf Hn]]); [lia..|]. exists m. split; [exact Hm'|].
    split_and!; [lia|lia|done|]. intros p Hp. destruct (decide (p ≤ mid - 1)); [apply Hn; lia|].
    apply not_true_is_false. intros Hfit.
    rewrite (queue_fits_mono w c p mid safe) in Ef by (done || lia). done.
Qed.

Lemma maximum_auto_waiters_spec w c candidate safe : 0 < w → 0 ≤ c → is_u64 candidate → safe ≤ U64_MAX →
  ∃ m, maximum_auto_waiters w c candidate safe = Some m ∧ largest_fitting w c 0 candidate safe m.
Proof.
  intros Hw Hc [? Hcand] Hs. apply (search_waiters_spec w c safe 64); [done..|lia|].
  rewrite U64_MAX_val in Hcand. change (2 ^ Z.of_nat 64) with 18446744073709551616. lia.
Qed.

(** ** Queue capacities *)

Lemma auto_pending_inv w cand cs pc safe c p :
  auto_pending_capacities w cand cs pc safe = Ok (c, p) → c ≤ cand ∧ maximum_auto_waiters w c pc safe = Some p.
Proof.
  unfold auto_pending_capacities. destruct (queue_fits w cand 0 safe); cbn [negb mbind result_bind].
  - case_match eqn:Hm; [|done]. intros [= -> ->]. done.
  - destruct (bool_decide (cs = Auto)); [|done]. cbn [mbind result_bind].
    destruct (checked_mul64 _ _) as [limit|]; [|done]. cbn [mbind result_bind].
    case_match eqn:Hm; [|done]. intros [= <- ->]. split; [lia|done].
Qed.

Lemma compio_queue_capacities_inv w cand cs pc ps safe c p q : 0 ≤ cand → is_u64 pc → safe ≤ U64_MAX →
  (∀ v, ps = Fixed v → 0 ≤ v) →
  compio_queue_capacities w cand cs pc ps safe = Ok (c, p, q) →
  0 < w ∧ 0 < c ≤ cand ∧ 0 ≤ p ∧ q = per_worker w c p ∧ w * q + p ≤ safe.
Proof.
  intros Hcand Hpc Hsafe Hps. unfold compio_queue_capacities.
  destruct (Z.ltb_spec 0 w) as [Hw|]; [|done]. cbn [negb]. intros H.
  assert (Hcap : ∃ c' p', c' ≤ cand ∧ (0 < c' → 0 ≤ p') ∧
    match ps with
    | Fixed value => fixed_pending_capacities w cand cs value safe
    | Auto => auto_pending_capacities w cand cs pc safe
    end = Ok (c', p')).
  { destruct ps as [|v].
    - destruct (auto_pending_capacities _ _ _ _ _) as [[c' p']|] eqn:E; [|done].
      exists c', p'. apply auto_pending_inv in E as [Hc Hm]. split_and!; [done| |done]. intros.
      destruct (maximum_auto_waiters_spec w c' pc safe) as (m & Hm2 & [[? ?] _]); [done|lia|done..|].
      rewrite Hm in Hm2. simplify_eq. lia.
    - destruct (fixed_pending_capacities _ _ _ _ _) as [[c' p']|] eqn:E; [|done].
      exists c', p'. specialize (Hps v eq_refl). revert E. unfold fixed_pending_capacities. intros E.
      repeat (case_match; try done); simplify_eq; (split_and!; [lia|lia|done]). }
  destruct Hcap as (c' & p' & Hle & Hp' & Hcap). rewrite Hcap in H. cbn [mbind result_bind] in H.
  destruct (Z.ltb_spec 0 c') as [Hc|]; [|done]. cbn [negb] in H.
  destruct (queue_projection w c' p') as [[q' combined]|] eqn:E; [|done].
  apply queue_projection_inv in E as [-> ->].
  destruct (checked_mul64 _ _); [|done]. destruct (Z.leb_spec (w * per_worker w c' p' + p') safe); simplify_eq. lia.
Qed.

(** Automatic settings resolve as soon as every worker can have a slot, and
    the waiter capacity is then the largest one that fits. *)
Lemma compio_queue_capacities_auto w cand pc safe : 0 < w ≤ safe → 0 < cand → is_u64 pc → safe ≤ U64_MAX →
  ∃ c p q, compio_queue_capacities w cand Auto pc Auto safe = Ok (c, p, q) ∧
    0 < c ∧ largest_fitting w c 0 pc safe p ∧ (queue_fits w cand 0 safe = true → c = cand).
Proof.
  intros [Hw Hws] Hcand Hpc Hsafe.
  assert (1 ≤ safe / w ∧ w * (safe / w) ≤ safe) as [Hq Hqs] by (split; [apply Z.div_le_lower_bound; lia|div_lia]).
  set (c := if queue_fits w cand 0 safe then cand else Z.min cand (w * (safe / w))).
  assert (0 < c) by (subst c; case_match; nia).
  assert (queue_fits w c 0 safe = true) as Hfit0.
  { subst c. case_match; [done|]. apply queue_fits_spec; [lia..|].
    assert (per_worker w (Z.min cand (w * (safe / w))) 0 ≤ safe / w) by (apply per_worker_le; lia). nia. }
  destruct (maximum_auto_waiters_spec w c pc safe) as (p & Hmax & Hlarge); [lia..|done|done|].
  assert (queue_fits w c p safe = true) as Hfit.
  { destruct Hlarge as (_ & [->|] & _); done. }
  exists c, p, (per_worker w c p). split; [|split; [done|split; [done|subst c; by intros ->]]].
  unfold compio_queue_capacities, auto_pending_capacities.
  rewrite (proj2 (Z.ltb_lt 0 w)) by done. cbn [negb].
  assert (checked_mul64 w (safe / w) = Some (w * (safe / w))) as ->
    by (unfold checked_mul64; by rewrite (proj2 (Z.leb_le _ _)) by lia).
  replace (if negb (queue_fits w cand 0 safe) then
       if bool_decide (Auto = Auto) then Ok (Z.min cand (w * (safe / w)))
       else Err "fixed connection capacity"%string else Ok cand) with (@Ok string Z c)
    by (subst c; by destruct (queue_fits w cand 0 safe)).
  cbn [mbind result_bind]. rewrite Hmax. cbn [mbind result_bind].
  rewrite (proj2 (Z.ltb_lt 0 c)) by done. cbn [negb].
  revert Hfit. unfold queue_fits. destruct (queue_projection w c p) as [[q' combined]|] eqn:E; [|done].
  apply queue_projection_inv in E as [-> ->]. intros Hle. pose proof (proj1 (Z.leb_le _ _) Hle).
  unfold checked_mul64. pose proof (proj1 Hlarge).
  rewrite (proj2 (Z.leb_le (w * per_worker w c p) U64_MAX)) by lia. by rewrite Hle.
Qed.

(** ** The budget *)

(** A configured capacity is a [usize]. *)
Definition capacity_usize (c : CapacitySetting) : Prop :=
  match c with
  | Auto => True
  | Fixed value => is_u64 value
  end.

(** The memory of one fleet of the transport. *)
Definition fleet_memory (b : CompioDirectH1Budget) : Z :=
  bu_worker_count b * COMPIO_DIRECT_H1_WORKER_MEMORY_RESERVATION_BYTES
  + (bu_worker_count b * bu_queue_capacity_per_worker b + bu_max_waiters b)
    * COMPIO_DIRECT_H1_QUEUE_ENTRY_MEMORY_BYTES
  + bu_max_connections_global b * COMPIO_DIRECT_H1_CONNECTION_MEMORY_BYTES.

Lemma clamp_ceil_usize v lo hi : is_u64 (clamp_ceil v lo hi).
Proof. apply f64_to_usize_range. Qed.

Lemma global_pending_usize r config : 0 ≤ memory_bytes r → 0 ≤ buffering_bytes r →
  capacity_usize (max_pending_requests config) →
  is_u64 (ra_pending_requests (scope_defaults r GlobalScope config None)).
Proof.
  intros Hm Hb Hc. cbn [scope_defaults ra_pending_requests]. unfold configured_queue_capacity.
  destruct (max_pending_requests config); cbn [fixed from_option id]; [|done].
  cbn [pending_requests]. pose proof (clamp_ceil_usize (cpus r 32) 8 1024) as [? ?]. split; lia.
Qed.

Lemma connection_capacity_bounds setting candidate limit c : 0 ≤ candidate → 0 ≤ limit → capacity_usize setting →
  compio_connection_capacity setting candidate limit = Ok c → 0 ≤ c ≤ limit.
Proof.
  intros Hc Hl Hs. destruct setting as [|v]; cbn.
  - intros [= <-]. lia.
  - destruct (Z.leb_spec v limit); [|done]. intros [= <-]. destruct Hs. lia.
Qed.

Lemma global_connections_nonneg r config : 0 ≤ usable_file_descriptors r → capacity_usize (max_connections config) →
  0 ≤ ra_connections (scope_defaults r GlobalScope config None).
Proof.
  intros Hf Hc. cbn [scope_defaults ra_connections]. unfold configured_connection_capacity.
  destruct (max_connections config); cbn [fixed from_option id]; [|apply Hc].
  cbn [connections]. pose proof (clamp_ceil_usize (cpus r 64) 16 2048) as [? ?].
  pose proof (Z.div_pos (usable_file_descriptors r) 4). lia.
Qed.

(** The resources [discover] reports. *)
Definition resources_wf (r : RuntimeResources) : Prop :=
  is_u64 (memory_bytes r) ∧ is_u64 (usable_file_descriptors r) ∧ 0 ≤ buffering_bytes r.

(** A resolved transport budget keeps two overlapping fleets
    within their partitions of the process: workers within half of the
    memory, queue slots and waiters within an eighth, connections within a
    quarter, all of it within seven eighths, and the connections within a
    quarter of the usable descriptors.  Every connection and every waiter has
    a physical queue slot, and no origin is allowed more than the whole. *)
Theorem transport_budget_safe w global_config pool_defaults r b :
  resources_wf r →
  capacity_usize (max_connections global_config) →
  capacity_usize (max_pending_requests global_config) →
  compio_direct_h1_budget_with_resources w global_config pool_defaults r = Ok b →
  bu_worker_count b = w ∧ 0 < w ≤ MAX_COMPIO_DIRECT_H1_WORKERS ∧
  8 * (2 * fleet_memory b) ≤ 7 * memory_bytes r ∧
  4 * (2 * bu_max_connections_global b) ≤ usable_file_descriptors r ∧
  bu_max_connections_global b ≤ w * bu_queue_capacity_per_worker b ∧
  0 ≤ bu_max_waiters b ≤ w * bu_queue_capacity_per_worker b ∧
  0 < bu_max_connections_per_origin b ≤ bu_max_connections_global b.
Proof.
  intros ([Hm0 Hm] & [Hf0 Hf] & Hbuf) Hcs Hps. unfold compio_direct_h1_budget_with_resources.
  destruct (Z.ltb_spec 0 w) as [Hw|]; [|done].
  destruct (Z.leb_spec w (compio_worker_memory_limit (memory_bytes r))) as [Hwl|]; [|done]. cbn [negb].
  set (limit := Z.min (Z.min _ _) _).
  assert (0 ≤ limit ∧ 262144 * limit ≤ memory_bytes r ∧ 8 * limit ≤ usable_file_descriptors r)
    as (Hl0 & Hl1 & Hl2).
  { subst limit. unfold compio_connection_memory_limit, COMPIO_DIRECT_H1_CONNECTION_MEMORY_PARTITION,
      COMPIO_DIRECT_H1_MAX_OVERLAPPING_FLEETS, COMPIO_DIRECT_H1_CONNECTION_MEMORY_BYTES,
      MAX_COMPIO_DIRECT_H1_CONNECTIONS. div_lia. }
  destruct (compio_connection_capacity _ _ _) as [candidate|] eqn:Ec; [|done]. cbn [mbind result_bind].
  apply connection_capacity_bounds in Ec; [|by apply global_connections_nonneg|done..].
  destruct (compio_queue_capacities _ _ _ _ _ _) as [[[c p] q]|] eqn:Eq; [|done]. cbn [mbind result_bind].
  assert (compio_queue_memory_limit (memory_bytes r) ≤ U64_MAX) as Hql
    by (unfold compio_queue_memory_limit, MAX_COMPIO_DIRECT_H1_QUEUE_ENTRIES; rewrite U64_MAX_val; lia).
  apply compio_queue_capacities_inv in Eq as (_ & Hc & Hp & -> & Hsafe);
    [|lia|by apply global_pending_usize|done|intros v Hv; rewrite Hv in Hps; apply Hps].
  case_match eqn:Eo; [done|]. apply negb_false_iff, andb_prop in Eo as [_ Ho%Z.ltb_lt].
  pose proof (per_worker_covers w c p Hw ltac:(lia) Hp) as (Hcov1 & Hcov2 & _).
  intros [= <-]. cbn [bu_worker_count bu_queue_capacity_per_worker bu_max_waiters bu_max_connections_global
    bu_max_connections_per_origin fleet_memory].
  set (o := ra_connections (scope_defaults r PoolScope pool_defaults _)) in *. cbn in Ho |- *.
  revert Hwl Hsafe. unfold compio_worker_memory_limit, compio_queue_memory_limit, fleet_memory,
    COMPIO_DIRECT_H1_WORKER_MEMORY_PARTITION, COMPIO_DIRECT_H1_WORKER_MEMORY_RESERVATION_BYTES,
    COMPIO_DIRECT_H1_QUEUE_MEMORY_PARTITION, COMPIO_DIRECT_H1_MAX_OVERLAPPING_FLEETS,
    COMPIO_DIRECT_H1_QUEUE_ENTRY_MEMORY_BYTES, COMPIO_DIRECT_H1_CONNECTION_MEMORY_BYTES.
  cbn [bu_worker_count bu_queue_capacity_per_worker bu_max_waiters bu_max_connections_global].
  generalize dependent (per_worker w c p). intros k ? ? Hwl Hsafe. split_and!; try lia; div_lia.
Qed.

(** With automatic settings the budget resolves for every
    worker count the memory allows, as soon as eight descriptors are usable
    and the processor count gives some connection, and the waiter capacity it
    grants is the largest one, up to the automatic limit, that fits in the
    queue memory next to the granted connections. *)
Theorem automatic_budget_resolves w global_config pool_defaults r :
  resources_wf r →
  max_connections global_config = Auto →
  max_pending_requests global_config = Auto →
  max_connections pool_defaults = Auto →
  0 < w ≤ compio_worker_memory_limit (memory_bytes r) →
  8 ≤ usable_file_descriptors r →
  0 < clamp_ceil (cpus r 64) 16 2048 → 0 < clamp_ceil (cpus r 16) 4 512 →
  ∃ b, compio_direct_h1_budget_with_resources w global_config pool_defaults r = Ok b ∧
    largest_fitting w (bu_max_connections_global b) 0 (pending_requests r GlobalScope USIZE_MAX)
      (compio_queue_memory_limit (memory_bytes r)) (bu_max_waiters b).
Proof.
  intros ([Hm0 Hm] & [Hf0 Hf] & Hbuf) Hgc Hgp Hpc [Hw Hwl] Hfd H64 H16.
  unfold compio_direct_h1_budget_with_resources.
  rewrite (proj2 (Z.ltb_lt 0 w)), (proj2 (Z.leb_le w _)), Hgc, Hgp by done. cbn [negb].
  cbn [compio_connection_capacity mbind result_bind].
  assert (ra_connections (scope_defaults r GlobalScope global_config None) =
          Z.min (clamp_ceil (cpus r 64) 16 2048) (usable_file_descriptors r / 4)) as ->
    by (cbn [scope_defaults ra_connections]; by rewrite Hgc).
  assert (ra_pending_requests (scope_defaults r GlobalScope global_config None) =
          pending_requests r GlobalScope USIZE_MAX) as Hpend
    by (cbn [scope_defaults ra_pending_requests]; by rewrite Hgp).
  pose proof (global_pending_usize r global_config Hm0 Hbuf ltac:(by rewrite Hgp)) as Hpu.
  rewrite Hpend in Hpu. rewrite Hpend.
  revert Hwl. unfold compio_worker_memory_limit, COMPIO_DIRECT_H1_WORKER_MEMORY_PARTITION,
    COMPIO_DIRECT_H1_MAX_OVERLAPPING_FLEETS, COMPIO_DIRECT_H1_WORKER_MEMORY_RESERVATION_BYTES,
    MAX_COMPIO_DIRECT_H1_WORKERS. intros Hwl.
  set (cand := Z.min (Z.min _ (usable_file_descriptors r / 4)) _).
  set (safe := compio_queue_memory_limit (memory_bytes r)).
  assert (0 < cand) as Hcand.
  { subst cand. unfold compio_connection_memory_limit, COMPIO_DIRECT_H1_CONNECTION_MEMORY_PARTITION,
      COMPIO_DIRECT_H1_MAX_OVERLAPPING_FLEETS, COMPIO_DIRECT_H1_CONNECTION_MEMORY_BYTES,
      MAX_COMPIO_DIRECT_H1_CONNECTIONS. div_lia. }
  assert (w ≤ safe ≤ U64_MAX) as [Hws Hsu].
  { subst safe. rewrite U64_MAX_val. unfold compio_queue_memory_limit, COMPIO_DIRECT_H1_QUEUE_MEMORY_PARTITION,
      COMPIO_DIRECT_H1_MAX_OVERLAPPING_FLEETS, COMPIO_DIRECT_H1_QUEUE_ENTRY_MEMORY_BYTES,
      MAX_COMPIO_DIRECT_H1_QUEUE_ENTRIES. div_lia. }
  destruct (compio_queue_capacities_auto w cand _ safe (conj Hw Hws) Hcand Hpu Hsu)
    as (c & p & q & -> & Hc & Hlarge & _).
  cbn [mbind result_bind].
  set (global' := (_ <| ra_connections := c |> <| ra_pending_requests := p |>)).
  assert (ra_connections global' = c) as Hgc' by done. rewrite Hgc'.
  cbn [scope_defaults ra_connections]. rewrite Hpc, Hgc'.
  cbn [configured_connection_capacity fixed from_option id connections].
  rewrite (proj2 (Z.ltb_lt 0 c)), (proj2 (Z.ltb_lt 0 (Z.min _ c))) by lia. cbn [negb andb].
  by eexists.
Qed.

(** A four-processor machine with a gibibyte of memory. *)
Definition demo_resources : RuntimeResources := mkResources (f64_of 4) (2 ^ 30) 1000 (64 * 1024) (64 * 1024).

Definition demo_budget : CompioDirectH1Budget := mkBudget 4 32 128 50 125 64.

Lemma transport_budget_safe_witness :
  compio_direct_h1_budget_with_resources 4 scope_config_default scope_config_default demo_resources
    = Ok demo_budget ∧
  8 * (2 * fleet_memory demo_budget) ≤ 7 * 2 ^ 30.
Proof.
  split; [by vm_compute|].
  apply (transport_budget_safe 4 scope_config_default scope_config_default demo_resources demo_budget);
    [|exact I|exact I|by vm_compute].
  split_and!; apply (bool_decide_unpack _); by vm_compute.
Defined.

Lemma automatic_budget_resolves_witness :
  ∃ b, compio_direct_h1_budget_with_resources 4 scope_config_default scope_config_default demo_resources = Ok b ∧
    largest_fitting 4 (bu_max_connections_global b) 0 (pending_requests demo_resources GlobalScope USIZE_MAX)
      (compio_queue_memory_limit (memory_bytes demo_resources)) (bu_max_waiters b).
Proof.
  apply (automatic_budget_resolves 4 scope_config_default scope_config_default demo_resources);
    done.
Defined.
