(* ===== verification/CbCircuit.v ===== *)
(** * The failure circuit

    [src/source/src/circuit_breakers/circuit.rs]: the rolling state machine
    that stops sending requests to a failing upstream.  Instants and
    durations are counted in nanoseconds. *)

From S2P Require Import Prelude F64 CbConfig.
From Stdlib Require Import Floats.SpecFloat.

(** ** Time *)

Definition NANOS_PER_MILLI : Z := 1000000.

(** [Duration::MAX]: [u64::MAX] seconds and 999,999,999 nanoseconds. *)
Definition DURATION_MAX : Z := U64_MAX * 1000000000 + 999999999.

(** The last [Instant] of the platform: a signed 64-bit number of seconds. *)
Definition INSTANT_MAX : Z := (2 ^ 63 - 1) * 1000000000 + 999999999.

Definition from_millis (ms : Z) : Z := ms * NANOS_PER_MILLI.
Definition as_millis (d : Z) : Z := d / NANOS_PER_MILLI.
Definition saturating_duration_since (a b : Z) : Z := Z.max (a - b) 0.
Definition duration_saturating_add (a b : Z) : Z := Z.min (a + b) DURATION_MAX.
Definition duration_saturating_sub (a b : Z) : Z := Z.max (a - b) 0.
Definition duration_checked_mul (d k : Z) : option Z := if d * k <=? DURATION_MAX then Some (d * k) else None.
Definition instant_checked_add (at_ d : Z) : option Z := if at_ + d <=? INSTANT_MAX then Some (at_ + d) else None.

(** ** Data *)

Inductive CircuitState : Type :=
  | Closed
  | Open
  | HalfOpen.

#[export] Instance CircuitState_eq_dec : EqDecision CircuitState.
Proof. solve_decision. Defined.

Inductive CircuitOutcomeFailure : Type :=
  | ConnectError
  | FirstByteTimeout
  | ResponseReadTimeout
  | ProtocolError
  | Status (code : Z).

Inductive CircuitOutcome : Type :=
  | Success
  | Failure (failure : CircuitOutcomeFailure)
  | Neutral.

#[export] Instance CircuitOutcomeFailure_eq_dec : EqDecision CircuitOutcomeFailure.
Proof. solve_decision. Defined.
#[export] Instance CircuitOutcome_eq_dec : EqDecision CircuitOutcome.
Proof. solve_decision. Defined.

Record FailureCircuit : Type := mkCircuit {
  fc_state : CircuitState;
  fc_open_until : option Z;
  fc_open_timeout : Z;
  fc_probes : Z;
  fc_successes : Z;
  fc_consecutive_failures : Z;
  fc_samples : list (Z * bool);
}.

#[export] Instance eta_FailureCircuit : Eta FailureCircuit :=
  λ x, mkCircuit (fc_state x) (fc_open_until x) (fc_open_timeout x) (fc_probes x) (fc_successes x)
         (fc_consecutive_failures x) (fc_samples x).

Definition circuit_default : FailureCircuit := mkCircuit Closed None 0 0 0 0 [].

(** ** Operations *)

Definition failure_matches (policy : CircuitBreakerFailureConfig) (failure : CircuitOutcomeFailure) : bool :=
  existsb (λ condition,
    match condition, failure with
    | OnConnectError, ConnectError
    | OnFirstByteTimeout, FirstByteTimeout
    | OnResponseReadTimeout, ResponseReadTimeout
    | OnProtocolError, ProtocolError => true
    | OnStatus502, Status code => code =? 502
    | OnStatus503, Status code => code =? 503
    | OnStatus504, Status code => code =? 504
    | _, _ => false
    end) (fl_on policy).

Definition doubled_capped (value : Z) (policy : CircuitBreakerFailureConfig) : Z :=
  Z.min (default (from_millis (fl_max_open_timeout_ms policy)) (duration_checked_mul value 2))
    (from_millis (fl_max_open_timeout_ms policy)).

Definition jittered (value sequence : Z) : Z :=
  let half := value / 2 in
  let spread_ms := Z.min (as_millis half) U64_MAX in
  duration_saturating_add half (from_millis (sequence mod saturating_add64 spread_ms 1)).

Definition available (c : FailureCircuit) (now : Z) (policy : CircuitBreakerFailureConfig) : result Z bool :=
  match fc_state c with
  | Closed => Ok false
  | Open =>
      let remaining :=
        match fc_open_until c with
        | Some until => saturating_duration_since until now
        | None => 0
        end in
      if remaining =? 0 then Ok true else Err remaining
  | HalfOpen =>
      if fc_probes c <? fl_half_open_max_probes policy then Ok true else Err (fc_open_timeout c)
  end.

Definition begin_probe (c : FailureCircuit) (now : Z) (policy : CircuitBreakerFailureConfig)
    : FailureCircuit * option (CircuitState * CircuitState) :=
  match fc_state c with
  | Closed => (c, None)
  | Open =>
      if match fc_open_until c with
         | Some until => negb (saturating_duration_since until now =? 0)
         | None => false
         end
      then (c, None)
      else
        let c := c <| fc_state := HalfOpen |> <| fc_probes := 1 |> <| fc_successes := 0 |> in
        let c :=
          if fc_open_timeout c =? 0
          then c <| fc_open_timeout := from_millis (fl_open_timeout_ms policy) |>
          else c in
        (c, Some (Open, HalfOpen))
  | HalfOpen =>
      if fc_probes c <? fl_half_open_max_probes policy then (c <| fc_probes ::= λ n, add64 n 1 |>, None)
      else (c, None)
  end.

Definition close (c : FailureCircuit) : FailureCircuit := mkCircuit Closed None 0 0 0 0 [].

(** The samples the window has left behind are at the front. *)
Fixpoint expire_samples (now window : Z) (samples : list (Z * bool)) : list (Z * bool) :=
  match samples with
  | [] => []
  | (at_, failed) :: rest =>
      if window <? saturating_duration_since now at_ then expire_samples now window rest else samples
  end.

Definition record_sample (c : FailureCircuit) (now : Z) (failed : bool) (policy : CircuitBreakerFailureConfig)
    : FailureCircuit :=
  c <| fc_samples := expire_samples now (from_millis (fl_window_ms policy)) (fc_samples c) ++ [(now, failed)] |>.

Definition open (c : FailureCircuit) (now : Z) (policy : CircuitBreakerFailureConfig) (sequence : Z)
    : FailureCircuit :=
  let base :=
    if fc_open_timeout c =? 0 then from_millis (fl_open_timeout_ms policy) else fc_open_timeout c in
  let open_timeout := jittered (Z.min base (from_millis (fl_max_open_timeout_ms policy))) sequence in
  c <| fc_open_timeout := open_timeout |>
    <| fc_open_until := instant_checked_add now open_timeout |>
    <| fc_state := Open |>
    <| fc_probes := 0 |>
    <| fc_successes := 0 |>.

(** [probe && self.state == HalfOpen] gives the probe's slot back. *)
Definition abandon_probe (c : FailureCircuit) (probe : bool) : FailureCircuit :=
  if probe && bool_decide (fc_state c = HalfOpen)
  then c <| fc_probes ::= λ n, saturating_sub64 n 1 |>
  else c.

Definition outcome_failed (policy : CircuitBreakerFailureConfig) (outcome : CircuitOutcome) : bool :=
  match outcome with
  | Failure failure => failure_matches policy failure
  | Success | Neutral => false
  end.

Definition ratio_open (samples : list (Z * bool)) (policy : CircuitBreakerFailureConfig) : bool :=
  let failures := len (filter (λ s, s.2 = true) samples) in
  let requests := len samples in
  (fl_minimum_requests policy <=? requests)
  && f64_leb (fl_failure_ratio policy) (f64_div (f64_of failures) (f64_of requests)).

Definition finish (c : FailureCircuit) (probe : bool) (outcome : CircuitOutcome) (now : Z)
    (policy : CircuitBreakerFailureConfig) (sequence : Z)
    : FailureCircuit * option (CircuitState * CircuitState) :=
  let c := abandon_probe c probe in
  if bool_decide (outcome = Neutral) then (c, None)
  else
    let failed := outcome_failed policy outcome in
    match fc_state c with
    | Closed =>
        let c := record_sample c now failed policy in
        let c := c <| fc_consecutive_failures := if failed then saturating_add64 (fc_consecutive_failures c) 1 else 0 |> in
        if failed
           && ((fl_consecutive_failures policy <=? fc_consecutive_failures c) || ratio_open (fc_samples c) policy)
        then (open c now policy sequence, Some (Closed, Open))
        else (c, None)
    | HalfOpen =>
        if failed then
          let c := c <| fc_open_timeout := doubled_capped (fc_open_timeout c) policy |> in
          (open c now policy sequence, Some (HalfOpen, Open))
        else
          let c := c <| fc_successes ::= λ n, saturating_add64 n 1 |> in
          if fl_half_open_successes policy <=? fc_successes c
          then (close c, Some (HalfOpen, Closed))
          else (c, None)
    | Open => (c, None)
    end.
