(* ===== verification/CbCircuitSpec.v ===== *)
(** * What the failure circuit guarantees

    The invariant of the states a circuit can reach under a validated policy,
    the window in which an open circuit refuses, and the runs of outcomes
    that open and close it. *)

From S2P Require Import Prelude F64 CbConfig CbCircuit.
From Stdlib Require Import Floats.SpecFloat.

(** ** Reachable circuits *)

Inductive circuit_event : Type :=
  | EvBegin (now : Z)
  | EvFinish (probe : bool) (outcome : CircuitOutcome) (now sequence : Z)
  | EvAbandon (probe : bool)
  | EvClose.

Definition circuit_step (policy : CircuitBreakerFailureConfig) (c : FailureCircuit) (e : circuit_event)
    : FailureCircuit :=
  match e with
  | EvBegin now => (begin_probe c now policy).1
  | EvFinish probe outcome now sequence => (finish c probe outcome now policy sequence).1
  | EvAbandon probe => abandon_probe c probe
  | EvClose => close c
  end.

(** Sequence numbers are [u64]. *)
Definition event_ok (e : circuit_event) : Prop :=
  match e with
  | EvFinish _ _ _ sequence => is_u64 sequence
  | _ => True
  end.

Definition policy_ok (policy : CircuitBreakerFailureConfig) : Prop :=
  failure_validate policy = Ok tt ∧
  is_u64 (fl_consecutive_failures policy) ∧ is_u64 (fl_open_timeout_ms policy) ∧
  is_u64 (fl_max_open_timeout_ms policy) ∧ is_u64 (fl_half_open_max_probes policy) ∧
  is_u64 (fl_half_open_successes policy).

(** An open or probing circuit's timeout is between half of the configured
    timeout and the configured maximum. *)
Definition timeout_ok (policy : CircuitBreakerFailureConfig) (timeout : Z) : Prop :=
  from_millis (fl_open_timeout_ms policy) ≤ 2 * timeout ∧ timeout ≤ from_millis (fl_max_open_timeout_ms policy).

Definition circuit_inv (policy : CircuitBreakerFailureConfig) (c : FailureCircuit) : Prop :=
  match fc_state c with
  | Closed =>
      fc_open_until c = None ∧ fc_open_timeout c = 0 ∧ fc_probes c = 0 ∧ fc_successes c = 0 ∧
      0 ≤ fc_consecutive_failures c < fl_consecutive_failures policy
  | Open => timeout_ok policy (fc_open_timeout c) ∧ fc_probes c = 0 ∧ fc_successes c = 0
  | HalfOpen =>
      timeout_ok policy (fc_open_timeout c) ∧ 0 ≤ fc_probes c ≤ fl_half_open_max_probes policy ∧
      0 ≤ fc_successes c < fl_half_open_successes policy
  end.

(** ** Timeouts *)

Section policy.
Variable policy : CircuitBreakerFailureConfig.
Hypothesis Hpolicy : policy_ok policy.

Lemma policy_facts :
  0 < fl_consecutive_failures policy ∧ 0 < fl_open_timeout_ms policy ≤ fl_max_open_timeout_ms policy ∧
  fl_max_open_timeout_ms policy ≤ U64_MAX ∧ 0 < fl_half_open_max_probes policy ≤ U64_MAX ∧
  0 < fl_half_open_successes policy ≤ U64_MAX ∧ fl_consecutive_failures policy ≤ U64_MAX.
Proof using Hpolicy.
  destruct Hpolicy as (Hv & [? ?] & [? ?] & [? ?] & [? ?] & [? ?]). revert Hv. unfold failure_validate.
  repeat match goal with |- (if ?b then _ else _) = _ → _ => destruct b eqn:? end; try done.
  intros _. repeat match goal with H : _ || _ = false |- _ => apply orb_false_elim in H as [? ?] end.
  lia.
Qed.

(** Jitter keeps at least half of a timeout and never exceeds it. *)
Lemma jittered_bounds value sequence : 0 ≤ value ≤ DURATION_MAX → 0 ≤ sequence →
  value / 2 ≤ jittered value sequence ≤ value.
Proof using.
  intros Hv Hs. unfold jittered, duration_saturating_add, saturating_add64, from_millis, as_millis, NANOS_PER_MILLI.
  set (half := value / 2). assert (0 ≤ half ∧ 2 * half ≤ value ∧ half ≤ value) as (H0 & H1 & H2)
    by (subst half; div_lia).
  assert (0 ≤ half / 1000000 ∧ 1000000 * (half / 1000000) ≤ half) as [Hd0 Hd] by div_lia.
  set (spread := Z.min (half / 1000000) U64_MAX).
  assert (0 ≤ spread ≤ half / 1000000 ∧ spread ≤ U64_MAX) as [Hsp Hsu]
    by (subst spread; rewrite U64_MAX_val; lia).
  pose proof (Z.mod_pos_bound sequence (Z.min (spread + 1) U64_MAX)) as Hmod.
  rewrite U64_MAX_val in *. lia.
Qed.

Lemma from_millis_duration ms : 0 ≤ ms ≤ U64_MAX → 0 ≤ from_millis ms ≤ DURATION_MAX.
Proof using. unfold from_millis, DURATION_MAX, NANOS_PER_MILLI. rewrite U64_MAX_val. lia. Qed.

(** Opening with the timeout of a closed circuit, or with one of the
    previous period. *)
Lemma open_timeout_ok c now sequence : 0 ≤ sequence →
  fc_open_timeout c = 0 ∨
    (from_millis (fl_open_timeout_ms policy) ≤ fc_open_timeout c) →
  timeout_ok policy (fc_open_timeout (open c now policy sequence)).
Proof using Hpolicy.
  intros Hs Ht. destruct policy_facts as (_ & Hp & Hm & _).
  pose proof (from_millis_duration (fl_max_open_timeout_ms policy)).
  assert (from_millis (fl_open_timeout_ms policy) ≤ from_millis (fl_max_open_timeout_ms policy))
    by (unfold from_millis, NANOS_PER_MILLI; lia).
  assert (Heven : from_millis (fl_open_timeout_ms policy) = 2 * (fl_open_timeout_ms policy * 500000))
    by (unfold from_millis, NANOS_PER_MILLI; lia).
  change (fc_open_timeout (open c now policy sequence)) with
    (jittered (Z.min (if fc_open_timeout c =? 0 then from_millis (fl_open_timeout_ms policy)
                      else fc_open_timeout c) (from_millis (fl_max_open_timeout_ms policy))) sequence).
  set (base := Z.min _ _).
  assert (from_millis (fl_open_timeout_ms policy) ≤ base ≤ from_millis (fl_max_open_timeout_ms policy)) as Hb
    by (subst base; destruct (Z.eqb_spec (fc_open_timeout c) 0); lia).
  pose proof (jittered_bounds base sequence ltac:(lia) Hs) as Hj. split; [|lia].
  assert (fl_open_timeout_ms policy * 500000 ≤ base / 2) by (apply Z.div_le_lower_bound; lia). lia.
Qed.

Lemma doubled_capped_ge timeout : timeout_ok policy timeout →
  from_millis (fl_open_timeout_ms policy) ≤ doubled_capped timeout policy.
Proof using Hpolicy.
  intros [Hl Hu]. destruct policy_facts as (_ & Hp & Hm & _).
  unfold doubled_capped, duration_checked_mul.
  assert (from_millis (fl_open_timeout_ms policy) ≤ from_millis (fl_max_open_timeout_ms policy))
    by (unfold from_millis, NANOS_PER_MILLI; lia).
  case_match; cbn [from_option id]; lia.
Qed.

(** ** Preservation *)

Lemma open_circuit_inv c now sequence : 0 ≤ sequence →
  fc_open_timeout c = 0 ∨ from_millis (fl_open_timeout_ms policy) ≤ fc_open_timeout c →
  circuit_inv policy (open c now policy sequence).
Proof using Hpolicy. intros Hs Ht. split; [by apply open_timeout_ok|done]. Qed.

Lemma close_inv c : circuit_inv policy (close c).
Proof using Hpolicy. destruct policy_facts as (? & _). cbn. split_and!; lia || done. Qed.

Lemma abandon_probe_inv c probe : circuit_inv policy c → circuit_inv policy (abandon_probe c probe).
Proof using.
  intros Hc. unfold abandon_probe. case_match eqn:E; [|done].
  apply andb_prop in E as [_ E%bool_decide_eq_true]. unfold circuit_inv in *. rewrite E in Hc. cbn. rewrite E.
  unfold saturating_sub64. split_and!; try apply Hc; lia.
Qed.

Lemma begin_probe_inv c now : circuit_inv policy c → circuit_inv policy (begin_probe c now policy).1.
Proof using Hpolicy.
  destruct policy_facts as (? & Ho & Hm & Hp & ? & ?). unfold circuit_inv, begin_probe.
  destruct (fc_state c) eqn:Es; cbn.
  - by rewrite Es.
  - intros (Ht & ? & ?).
    match goal with |- context [if ?b then (c, None) else _] => destruct b end; [cbn; by rewrite Es|]. cbn.
    assert ((fc_open_timeout c =? 0) = false) as ->.
    { destruct Ht as [Ht _]. revert Ht. unfold from_millis, NANOS_PER_MILLI. lia. }
    cbn. split_and!; [apply Ht..|lia|lia|lia|lia].
  - intros (Ht & Hpr & Hsu). destruct (Z.ltb_spec (fc_probes c) (fl_half_open_max_probes policy)); cbn;
      rewrite Es; [|done]. unfold add64. rewrite wrap64_small by lia. split_and!; try apply Ht; lia.
Qed.

Lemma finish_inv c probe outcome now sequence : is_u64 sequence →
  circuit_inv policy c → circuit_inv policy (finish c probe outcome now policy sequence).1.
Proof using Hpolicy.
  intros [Hs _] Hc%(abandon_probe_inv _ probe). destruct policy_facts as (? & ? & ? & ? & ? & ?).
  unfold finish. set (c1 := abandon_probe c probe) in *. case_bool_decide; [done|].
  destruct (fc_state c1) eqn:Es; [| |].
  - unfold circuit_inv in Hc. rewrite Es in Hc. destruct Hc as (Hu & Ht & Hp & Hsu & Hcf).
    destruct (outcome_failed policy outcome) eqn:Ef; cbn [andb].
    + case_match eqn:Eo; [apply open_circuit_inv; [done|by left]|]. apply orb_false_elim in Eo as [Eo _].
      cbn in Eo |- *. unfold circuit_inv. cbn. rewrite Es. unfold saturating_add64 in *. split_and!; lia || done.
    + unfold circuit_inv. cbn. rewrite Es. split_and!; lia || done.
  - done.
  - unfold circuit_inv in Hc. rewrite Es in Hc. destruct Hc as (Ht & Hp & Hsu).
    destruct (outcome_failed policy outcome) eqn:Ef.
    + apply open_circuit_inv; [done|]. right. by apply doubled_capped_ge.
    + case_match eqn:Eo; [apply close_inv|]. unfold circuit_inv. cbn in Eo |- *. rewrite Es.
      unfold saturating_add64 in *. split_and!; try apply Ht; lia.
Qed.

Lemma circuit_step_inv c e : event_ok e → circuit_inv policy c → circuit_inv policy (circuit_step policy c e).
Proof using Hpolicy.
  destruct e; cbn [circuit_step event_ok]; intros He Hc.
  - by apply begin_probe_inv.
  - by apply finish_inv.
  - by apply abandon_probe_inv.
  - apply close_inv.
Qed.

Lemma circuit_steps_inv events c : Forall event_ok events → circuit_inv policy c →
  circuit_inv policy (foldl (circuit_step policy) c events).
Proof using Hpolicy.
  intros He. revert c. induction He as [|e events He _ IH]; intros c Hc; [done|].
  apply IH. by apply circuit_step_inv.
Qed.
End policy.

(** ** Runs of outcomes *)

(** An outcome as it is reported: whether the lease was a probe, the outcome,
    the time and the sequence number. *)
Definition report : Type := bool * CircuitOutcome * Z * Z.

Definition finish_report (policy : CircuitBreakerFailureConfig) (c : FailureCircuit) (r : report) : FailureCircuit :=
  let '(probe, outcome, now, sequence) := r in (finish c probe outcome now policy sequence).1.

Definition report_failed (policy : CircuitBreakerFailureConfig) (r : report) : Prop :=
  outcome_failed policy r.1.1.2 = true.
Definition report_succeeded (policy : CircuitBreakerFailureConfig) (r : report) : Prop :=
  r.1.1.2 ≠ Neutral ∧ outcome_failed policy r.1.1.2 = false.

Lemma abandon_probe_state c probe : fc_state (abandon_probe c probe) = fc_state c.
Proof. unfold abandon_probe. by case_match. Qed.

Lemma abandon_probe_not_half c probe : fc_state c ≠ HalfOpen → abandon_probe c probe = c.
Proof.
  intros Hs. unfold abandon_probe. rewrite (bool_decide_eq_false_2 _ Hs). by destruct probe.
Qed.

Lemma finish_report_open policy c r : fc_state c = Open → fc_state (finish_report policy c r) = Open.
Proof.
  destruct r as [[[probe outcome] now] sequence]. intros Hs. unfold finish_report, finish.
  rewrite abandon_probe_not_half by (by rewrite Hs). case_bool_decide; [done|]. by rewrite Hs.
Qed.

Lemma finish_report_failed_closed policy c r : fc_state c = Closed → report_failed policy r →
  fc_state (finish_report policy c r) = Open ∨
  (fc_state (finish_report policy c r) = Closed ∧
   saturating_add64 (fc_consecutive_failures c) 1 < fl_consecutive_failures policy ∧
   fc_consecutive_failures (finish_report policy c r) = saturating_add64 (fc_consecutive_failures c) 1).
Proof.
  destruct r as [[[probe outcome] now] sequence]. unfold report_failed, finish_report, finish. cbn [fst snd].
  intros Hs Hf. rewrite abandon_probe_not_half by (by rewrite Hs).
  rewrite bool_decide_eq_false_2 by (by intros ->). rewrite Hs, Hf. cbn [andb].
  case_match eqn:E; [by left|right]. apply orb_false_elim in E as [E%Z.leb_gt _]. cbn in *. done.
Qed.

Lemma failures_open policy rs : Forall (report_failed policy) rs → ∀ c,
  fc_state c = Open ∨ (fc_state c = Closed ∧ 0 ≤ fc_consecutive_failures c ∧
    fl_consecutive_failures policy ≤ fc_consecutive_failures c + len rs ∧
    fc_consecutive_failures c < fl_consecutive_failures policy ≤ U64_MAX) →
  fc_state (foldl (finish_report policy) c rs) = Open.
Proof.
  induction 1 as [|r rs Hr _ IH]; intros c Hc; cbn [foldl].
  { destruct Hc as [|(_ & _ & Hle & Hlt)]; [done|]. change (len []) with 0 in Hle. lia. }
  apply IH. destruct Hc as [Ho|(Hs & H0 & Hle & Hlt & Hmax)]; [left; by apply finish_report_open|].
  destruct (finish_report_failed_closed policy c r Hs Hr) as [|(Hs' & Hn & Hcf)]; [by left|right].
  rewrite Hcf. unfold saturating_add64 in *. rewrite len_cons in Hle. split_and!; [done|lia..].
Qed.

Lemma finish_report_succeeded_closed policy c r : fc_state c = Closed → report_succeeded policy r →
  fc_state (finish_report policy c r) = Closed.
Proof.
  destruct r as [[[probe outcome] now] sequence]. unfold report_succeeded, finish_report, finish. cbn [fst snd].
  intros Hs [Hn Hf]. rewrite abandon_probe_not_half by (by rewrite Hs).
  rewrite bool_decide_eq_false_2 by done. by rewrite Hs, Hf.
Qed.

Lemma finish_report_succeeded_half policy c r : fc_state c = HalfOpen → report_succeeded policy r →
  fc_state (finish_report policy c r) = Closed ∨
  (fc_state (finish_report policy c r) = HalfOpen ∧
   saturating_add64 (fc_successes c) 1 < fl_half_open_successes policy ∧
   fc_successes (finish_report policy c r) = saturating_add64 (fc_successes c) 1).
Proof.
  destruct r as [[[probe outcome] now] sequence]. unfold report_succeeded, finish_report, finish. cbn [fst snd].
  intros Hs [Hn Hf]. rewrite bool_decide_eq_false_2 by done. rewrite abandon_probe_state, Hs, Hf.
  assert (fc_successes (abandon_probe c probe) = fc_successes c) as Hsu
    by (unfold abandon_probe; by case_match).
  case_match eqn:E; [by left|right]. apply Z.leb_gt in E. cbn in *. rewrite abandon_probe_state. by rewrite Hsu in *.
Qed.

Lemma successes_close policy rs : Forall (report_succeeded policy) rs → ∀ c,
  fc_state c = Closed ∨ (fc_state c = HalfOpen ∧ 0 ≤ fc_successes c ∧
    fl_half_open_successes policy ≤ fc_successes c + len rs ∧
    fc_successes c < fl_half_open_successes policy ≤ U64_MAX) →
  fc_state (foldl (finish_report policy) c rs) = Closed.
Proof.
  induction 1 as [|r rs Hr _ IH]; intros c Hc; cbn [foldl].
  { destruct Hc as [|(_ & _ & Hle & Hlt)]; [done|]. change (len []) with 0 in Hle. lia. }
  apply IH. destruct Hc as [Ho|(Hs & H0 & Hle & Hlt & Hmax)]; [left; by apply finish_report_succeeded_closed|].
  destruct (finish_report_succeeded_half policy c r Hs Hr) as [|(Hs' & Hn & Hcf)]; [by left|right].
  rewrite Hcf. unfold saturating_add64 in *. rewrite len_cons in Hle. split_and!; [done|lia..].
Qed.

(** ** Theorems *)

(** C30 (type). Under a validated policy, whatever sequence of probes,
    outcomes, cancellations and resets a circuit goes through: a closed
    circuit is below its consecutive failure threshold and holds nothing of
    an earlier period; an open or probing one has a timeout between half of
    the configured timeout and the configured maximum; at most
    [half_open_max_probes] probes are counted, and a probing circuit has seen
    fewer successes than close it. *)
Theorem circuit_invariant policy events :
  policy_ok policy → Forall event_ok events →
  circuit_inv policy (foldl (circuit_step policy) circuit_default events).
Proof.
  intros Hp He. apply circuit_steps_inv; [done..|]. destruct (policy_facts policy Hp) as (? & _).
  cbn. split_and!; lia || done.
Qed.

(** A run of [consecutive_failures] matching failures opens
    any closed circuit, and a run of [half_open_successes] successes closes
    any probing one, whatever their times, probe flags and other requests of
    the run after that. *)
Theorem runs_open_and_close policy events rs :
  policy_ok policy → Forall event_ok events →
  let c := foldl (circuit_step policy) circuit_default events in
  (fc_state c = Closed → fl_consecutive_failures policy ≤ len rs → Forall (report_failed policy) rs →
   fc_state (foldl (finish_report policy) c rs) = Open) ∧
  (fc_state c = HalfOpen → fl_half_open_successes policy ≤ len rs → Forall (report_succeeded policy) rs →
   fc_state (foldl (finish_report policy) c rs) = Closed).
Proof.
  intros Hp He c. destruct (policy_facts policy Hp) as (? & ? & ? & ? & ? & ?).
  assert (circuit_inv policy c) as Hc.
  { apply circuit_steps_inv; [done..|]. cbn. split_and!; lia || done. }
  split; intros Hs Hl Hrs; unfold circuit_inv in Hc; rewrite Hs in Hc.
  - destruct Hc as (_ & _ & _ & _ & Hcf). apply failures_open; [done|]. right. split_and!; [done|lia..].
  - destruct Hc as (_ & _ & Hsu). apply successes_close; [done|]. right. split_and!; [done|lia..].
Qed.

(** When an outcome opens a circuit, the circuit refuses every
    request for at least half of the configured timeout, with a retry hint
    that is exactly the time left, and from the configured maximum on it lets
    a probe through. *)
Theorem open_window policy events probe outcome now sequence c' from :
  policy_ok policy → Forall event_ok events → is_u64 sequence →
  0 ≤ now → now + from_millis (fl_max_open_timeout_ms policy) ≤ INSTANT_MAX →
  finish (foldl (circuit_step policy) circuit_default events) probe outcome now policy sequence
    = (c', Some (from, Open)) →
  ∃ until,
    now + from_millis (fl_open_timeout_ms policy) ≤ 2 * until - now ∧
    until ≤ now + from_millis (fl_max_open_timeout_ms policy) ∧
    (∀ t, t < until → available c' t policy = Err (until - t)) ∧
    (∀ t, until ≤ t → available c' t policy = Ok true ∧
       ∃ c'', begin_probe c' t policy = (c'', Some (Open, HalfOpen)) ∧ fc_probes c'' = 1).
Proof.
  intros Hp He Hseq Hnow Hmax Hfin.
  assert (circuit_inv policy c') as Hc'.
  { change c' with ((c', Some (from, Open)).1). rewrite <-Hfin. apply finish_inv; [done..|].
    apply circuit_steps_inv; [done..|]. destruct (policy_facts policy Hp) as (? & _). cbn. split_and!; lia || done. }
  assert (fc_state c' = Open ∧ fc_open_until c' = instant_checked_add now (fc_open_timeout c')) as [Hs Hu].
  { revert Hfin. generalize (foldl (circuit_step policy) circuit_default events). intros c. unfold finish.
    case_bool_decide; [done|]. repeat (case_match; try done); intros [= <- _]; done. }
  unfold circuit_inv in Hc'. rewrite Hs in Hc'. destruct Hc' as ([Hlo Hhi] & _).
  assert (fc_open_until c' = Some (now + fc_open_timeout c')) as Hu'
    by (rewrite Hu; unfold instant_checked_add; by rewrite (proj2 (Z.leb_le _ _)) by lia).
  exists (now + fc_open_timeout c'). split_and!; [lia..| |]; intros t Ht; unfold available, begin_probe;
    rewrite Hs, Hu'; unfold saturating_duration_since.
  - destruct (Z.eqb_spec (Z.max (now + fc_open_timeout c' - t) 0) 0); [lia|]. f_equal. lia.
  - destruct (Z.eqb_spec (Z.max (now + fc_open_timeout c' - t) 0) 0); [|lia]. split; [done|]. cbn [negb].
    eexists. split; [done|]. by case_match.
Qed.

(** ** Witnesses *)

(** Three consecutive gateway errors open the circuit for one second, up to
    eight; two probes at a time, two successes to close. *)
Definition demo_policy : CircuitBreakerFailureConfig :=
  mkFailureConfig true [OnConnectError; OnStatus502] 3 20 f64_half 10000 1000 8000 2 2.

Lemma demo_policy_ok : policy_ok demo_policy.
Proof. split_and!; done. Qed.

Definition demo_failures : list circuit_event :=
  [EvFinish false (Failure (Status 502)) 10 1; EvFinish false (Failure ConnectError) 20 2].

Lemma demo_failures_ok : Forall event_ok demo_failures.
Proof. apply Forall_cons_2; [done|]. apply Forall_cons_2; done. Qed.

Lemma circuit_invariant_witness :
  circuit_inv demo_policy (foldl (circuit_step demo_policy) circuit_default demo_failures).
Proof. apply (circuit_invariant demo_policy demo_failures demo_policy_ok demo_failures_ok). Defined.

Lemma runs_open_and_close_witness :
  fc_state (foldl (finish_report demo_policy) circuit_default (replicate 3 (false, Failure ConnectError, 5, 7))) = Open.
Proof.
  apply (runs_open_and_close demo_policy [] (replicate 3 (false, Failure ConnectError, 5, 7)) demo_policy_ok);
    [done..|by vm_compute|]. apply Forall_replicate. by vm_compute.
Defined.

Lemma open_window_witness :
  ∃ c' until,
    finish (foldl (circuit_step demo_policy) circuit_default demo_failures) false (Failure (Status 502)) 30
      demo_policy 3 = (c', Some (Closed, Open)) ∧
    ∀ t, t < until → available c' t demo_policy = Err (until - t).
Proof.
  destruct (open_window demo_policy demo_failures false (Failure (Status 502)) 30 3 _ Closed
    demo_policy_ok demo_failures_ok ltac:(done) ltac:(done) ltac:(done) eq_refl) as (until & _ & _ & Hr & _).
  by eexists _, until.
Defined.
