(* ===== verification/CbTypes.v ===== *)
(** * Admission state

    The types of [src/source/src/circuit_breakers/types.rs] and the scope
    resolution of [configuration.rs].  A [String] is its octets; an array
    indexed by an enumeration is a function of it. *)

From stdpp Require Import countable gmap functions.
From S2P Require Import Prelude Bytes Text F64 CbConfig CbResources CbCircuit.
From Stdlib Require Import Floats.SpecFloat.

(** ** Resources and scopes *)

Inductive ResourceKind : Type :=
  | Request
  | UpstreamRequest
  | Retry
  | Connection
  | Stream
  | BodyInspection
  | Decompression.

#[export] Instance ResourceKind_eq_dec : EqDecision ResourceKind.
Proof. solve_decision. Defined.

(** [self as u8] *)
Definition resource_index (r : ResourceKind) : Z :=
  match r with
  | Request => 0
  | UpstreamRequest => 1
  | Retry => 2
  | Connection => 3
  | Stream => 4
  | BodyInspection => 5
  | Decompression => 6
  end.

Definition resource_of_index (i : Z) : option ResourceKind :=
  find (λ r, resource_index r =? i)
    [Request; UpstreamRequest; Retry; Connection; Stream; BodyInspection; Decompression].

#[export, program] Instance ResourceKind_countable : Countable ResourceKind :=
  inj_countable resource_index resource_of_index _.
Next Obligation. by intros []. Qed.

Inductive ScopeKey : Type :=
  | Global
  | Route (name : bytes)
  | Pool (name : bytes).

#[export] Instance ScopeKey_eq_dec : EqDecision ScopeKey.
Proof. solve_decision. Defined.

#[export, program] Instance ScopeKey_countable : Countable ScopeKey :=
  inj_countable
    (λ s, match s with Global => inl () | Route n => inr (inl n) | Pool n => inr (inr n) end)
    (λ s, Some (match s with inl _ => Global | inr (inl n) => Route n | inr (inr n) => Pool n end)) _.
Next Obligation. by intros []. Qed.

(** [kind], as its rank: ["global" < "pool" < "route"]. *)
Definition scope_kind (s : ScopeKey) : Z :=
  match s with
  | Global => 0
  | Pool _ => 1
  | Route _ => 2
  end.

Definition scope_label (s : ScopeKey) : bytes :=
  match s with
  | Global => ascii "global"
  | Route name | Pool name => name
  end.

Record ResourceLimit : Type := mkLimit {
  rl_active : Z;
  rl_queue : Z;
  rl_timeout : Z;
}.

Definition ScopeLimits : Type := ResourceKind → ResourceLimit.

Definition for_scope (config : CircuitBreakerScopeConfig) (resolved : ResolvedAutoScope) : ScopeLimits :=
  let with_active n := mkLimit n (ra_pending_requests resolved) (from_millis (pending_queue_timeout_ms config)) in
  λ r, match r with
       | Request | UpstreamRequest | Retry => with_active (ra_active_requests resolved)
       | Connection => with_active (ra_connections resolved)
       | Stream => with_active (ra_streams resolved)
       | BodyInspection => with_active (ra_inspection_jobs resolved)
       | Decompression => with_active (ra_decompression_jobs resolved)
       end.

Record ScopeState : Type := mkScope {
  ss_limits : ScopeLimits;
  ss_failure_enabled : bool;
  ss_active : ResourceKind → Z;
  ss_queued : ResourceKind → Z;
  ss_circuit : FailureCircuit;
}.

#[export] Instance eta_ScopeState : Eta ScopeState :=
  λ x, mkScope (ss_limits x) (ss_failure_enabled x) (ss_active x) (ss_queued x) (ss_circuit x).

Definition scope_new (limits : ScopeLimits) (failure_enabled : bool) : ScopeState :=
  mkScope limits failure_enabled (λ _, 0) (λ _, 0) circuit_default.

(** ** Allocations *)

Record Allocation : Type := mkAllocation {
  al_scope : ScopeKey;
  al_resource : ResourceKind;
  al_limit : option ResourceLimit;
}.

Definition effective_limit (a : Allocation) (s : ScopeState) : ResourceLimit :=
  match al_limit a with
  | Some limit => limit
  | None => ss_limits s (al_resource a)
  end.

(** What an allocation counts against. *)
Definition al_slot (a : Allocation) : ScopeKey * ResourceKind := (al_scope a, al_resource a).

Definition scoped_allocations (route pool : option bytes) (resource : ResourceKind) : list Allocation :=
  mkAllocation Global resource None ::
  match route with
  | Some route => [mkAllocation (Route route) resource None]
  | None => []
  end ++
  match pool with
  | Some pool => [mkAllocation (Pool pool) resource None]
  | None => []
  end.

(** The first entry with the slot of [a] takes [a]'s limit, if it has one;
    [None] when there is no such entry. *)
Fixpoint absorb (unique : list Allocation) (a : Allocation) : option (list Allocation) :=
  match unique with
  | [] => None
  | existing :: unique =>
      if bool_decide (al_slot existing = al_slot a)
      then Some (match al_limit a with
                 | Some limit => mkAllocation (al_scope existing) (al_resource existing) (Some limit)
                 | None => existing
                 end :: unique)
      else
        match absorb unique a with
        | Some unique => Some (existing :: unique)
        | None => None
        end
  end.

Definition deduplicate_allocations (allocations : list Allocation) : list Allocation :=
  foldl (λ unique a, match absorb unique a with
                     | Some unique => unique
                     | None => unique ++ [a]
                     end) [] allocations.

Record Waiter : Type := mkWaiter {
  wt_id : Z;
  wt_allocations : list Allocation;
  wt_queued_at : Z;
}.

(** ** Rejections *)

Inductive AdmissionRejectionReason : Type :=
  | ActiveLimit
  | QueueFull
  | QueueTimeout
  | CircuitOpen
  | RetryBudgetExhausted
  | InternalStateUnavailable.

#[export] Instance AdmissionRejectionReason_eq_dec : EqDecision AdmissionRejectionReason.
Proof. solve_decision. Defined.

Record AdmissionRejection : Type := mkRejection {
  re_reason : AdmissionRejectionReason;
  re_retry_after : Z;
}.

(** ** Scope resolution *)

Record RetryBudget : Type := mkRetryBudget {
  rt_percent : f64;
  rt_min : Z;
  rt_max : Z;
  rt_queue : Z;
  rt_timeout : Z;
}.

(** What the runtime reads of a configuration snapshot, with the resources
    discovered for it. *)
Record Config : Type := mkConfig {
  cf_breakers : CircuitBreakersConfig;
  cf_routes : list (bytes * option CircuitBreakerScopeOverride);
  cf_pools : list (bytes * option CircuitBreakerScopeOverride);
  cf_resources : RuntimeResources;
}.

Definition resolve_retry_budget (r : RuntimeResources) (config : CircuitBreakerRetryBudgetConfig) : RetryBudget :=
  let automatic := retry_concurrency r in
  let max := configured_capacity (rb_max_concurrency config) automatic in
  mkRetryBudget (rb_percent config) (rb_min_concurrency config)
    (Z.max max (rb_min_concurrency config))
    (configured_queue_capacity (rb_max_queue config) (retry_queue max))
    (from_millis (rb_queue_timeout_ms config)).

(** The loop over the routes, or the pools. *)
Definition insert_scopes (r : RuntimeResources) (scope : AutoScope) (key : bytes → ScopeKey)
    (defaults : CircuitBreakerScopeConfig) (global_auto : ResolvedAutoScope) (failure_enabled : bool)
    (entries : list (bytes * option CircuitBreakerScopeOverride)) (scopes : gmap ScopeKey ScopeState)
    : gmap ScopeKey ScopeState :=
  foldl (λ scopes entry,
    let effective :=
      match entry.2 with
      | Some override_config => merged_with override_config defaults
      | None => defaults
      end in
    let automatic := scope_defaults r scope effective (Some global_auto) in
    <[key entry.1 := scope_new (for_scope effective automatic) failure_enabled]> scopes) scopes entries.

Definition resolve_scopes (config : Config) : gmap ScopeKey ScopeState * RetryBudget :=
  let breaker := cf_breakers config in
  let resources := cf_resources config in
  let global_auto := scope_defaults resources GlobalScope (br_global breaker) None in
  let scopes := {[Global := scope_new (for_scope (br_global breaker) global_auto) false]} in
  let scopes := insert_scopes resources RouteScope Route (br_route_defaults breaker) global_auto
                  (fl_enabled (br_failure breaker)) (cf_routes config) scopes in
  let scopes := insert_scopes resources PoolScope Pool (br_pool_defaults breaker) global_auto
                  (fl_enabled (br_failure breaker)) (cf_pools config) scopes in
  (scopes, resolve_retry_budget resources (br_retry_budget breaker)).
