(* ===== verification/CbPriority.v ===== *)
(** * Priority admission

    [src/source/src/circuit_breakers/priority.rs]: the state that shares the
    global request slots between the priority classes. *)

From stdpp Require Import functions.
From S2P Require Import Prelude F64 CbConfig CbCircuit CbTypes.
From Stdlib Require Import Floats.SpecFloat.

Definition ELIGIBLE_LANE : Z := 0.
Definition SHARED_LANE : Z := 1.

Definition lane (reservation_eligible : bool) : Z := if reservation_eligible then ELIGIBLE_LANE else SHARED_LANE.

Inductive PriorityLeaseKind : Type :=
  | Reserved
  | Shared.

#[export] Instance PriorityLeaseKind_eq_dec : EqDecision PriorityLeaseKind.
Proof. solve_decision. Defined.

Record PriorityLease : Type := mkPriorityLease {
  pl_class : PriorityClass;
  pl_kind : PriorityLeaseKind;
}.

Inductive PriorityRejectionReason : Type :=
  | ShareLimit
  | PriorityQueueFull
  | Policy
  | PriorityQueueTimeout.

#[export] Instance PriorityRejectionReason_eq_dec : EqDecision PriorityRejectionReason.
Proof. solve_decision. Defined.

(** ** Resolved policies *)

Record ResolvedPriorityPolicy : Type := mkResolvedPolicy {
  rp_reserved_requests : Z;
  rp_max_requests : Z;
  rp_max_pending_requests : Z;
  rp_queue_timeout : Z;
  rp_rejection_policy : PriorityRejectionPolicy;
}.

Definition policy_from_config (policy : PriorityClassPolicy) (global : ResourceLimit) : ResolvedPriorityPolicy :=
  let automatic_queue :=
    if bool_decide (po_rejection_policy policy = QueuePolicy)
    then Z.max (f64_to_usize (f64_ceil (f64_mul (f64_of (rl_queue global)) (po_max_share policy)))) 1
    else 0 in
  let max_pending_requests :=
    match po_max_pending_requests policy with
    | Some value => default automatic_queue (fixed value)
    | None => automatic_queue
    end in
  mkResolvedPolicy
    (po_reserved_requests policy)
    (max_class_requests (rl_active global) (po_max_share policy))
    (if bool_decide (po_rejection_policy policy = RejectPolicy) then 0 else max_pending_requests)
    (from_millis (default (Z.min (as_millis (rl_timeout global)) U64_MAX) (po_pending_queue_timeout_ms policy)))
    (po_rejection_policy policy).

Definition max_shared_requests (p : ResolvedPriorityPolicy) : Z :=
  saturating_sub64 (rp_max_requests p) (rp_reserved_requests p).

Record PriorityActive : Type := mkPriorityActive {
  act_reserved : Z;
  act_shared : Z;
}.

#[export] Instance eta_PriorityActive : Eta PriorityActive := λ x, mkPriorityActive (act_reserved x) (act_shared x).

Definition act_total (a : PriorityActive) : Z := saturating_add64 (act_reserved a) (act_shared a).

Record PriorityTicket : Type := mkPriorityTicket {
  pt_id : Z;
  pt_class : PriorityClass;
  pt_lane : Z;
  pt_queued_at : Z;
}.

(** ** The state *)

Record PriorityAdmissionState : Type := mkPriorityState {
  ps_enabled : bool;
  ps_policies : PriorityClass → ResolvedPriorityPolicy;
  ps_shared_capacity : Z;
  ps_shared_active : Z;
  ps_active : PriorityClass → PriorityActive;
  ps_queued : PriorityClass → Z;
  ps_queues : PriorityClass → Z → list PriorityTicket;
  ps_rejections : PriorityClass → PriorityRejectionReason → Z;
  ps_queue_waits : PriorityClass → Z;
  ps_queue_wait_ms : PriorityClass → Z;
  ps_next_waiter : Z;
}.

#[export] Instance eta_PriorityAdmissionState : Eta PriorityAdmissionState :=
  λ x, mkPriorityState (ps_enabled x) (ps_policies x) (ps_shared_capacity x) (ps_shared_active x) (ps_active x)
         (ps_queued x) (ps_queues x) (ps_rejections x) (ps_queue_waits x) (ps_queue_wait_ms x) (ps_next_waiter x).

Definition priority_from_config (config : CircuitBreakerPriorityConfig) (global : ResourceLimit)
    : PriorityAdmissionState :=
  let policies class := policy_from_config (resolved_for_validation config class) global in
  let reserved := sum_usize (map (λ class, rp_reserved_requests (policies class)) PriorityClass_ALL) in
  mkPriorityState (pr_enabled config) policies (saturating_sub64 (rl_active global) reserved) 0
    (λ _, mkPriorityActive 0 0) (λ _, 0) (λ _ _, []) (λ _ _, 0) (λ _, 0) (λ _, 0) 1.

Definition priority_configure (s : PriorityAdmissionState) (config : CircuitBreakerPriorityConfig)
    (global : ResourceLimit) : PriorityAdmissionState :=
  let replacement := priority_from_config config global in
  s <| ps_enabled := ps_enabled replacement |>
    <| ps_policies := ps_policies replacement |>
    <| ps_shared_capacity := ps_shared_capacity replacement |>.

Definition lane_empty (s : PriorityAdmissionState) (class : PriorityClass) (reservation_eligible : bool) : bool :=
  is_empty (ps_queues s class (lane reservation_eligible)).

Definition total_active (s : PriorityAdmissionState) : Z :=
  sum_usize (map (λ class, act_total (ps_active s class)) PriorityClass_ALL).

Definition priority_can_admit (s : PriorityAdmissionState) (class : PriorityClass) (reservation_eligible : bool)
    (global_active global_capacity : Z) : option PriorityLeaseKind :=
  if global_capacity <=? global_active then None
  else
    let policy := ps_policies s class in
    if rp_max_requests policy <=? act_total (ps_active s class) then None
    else if reservation_eligible && (act_reserved (ps_active s class) <? rp_reserved_requests policy)
    then Some Reserved
    else if max_shared_requests policy <=? act_shared (ps_active s class) then None
    else
      let untracked_active := saturating_sub64 global_active (total_active s) in
      if saturating_add64 (ps_shared_active s) untracked_active <? ps_shared_capacity s
      then Some Shared else None.

Definition choose_oldest (candidate : option PriorityTicket) (next : PriorityTicket) : option PriorityTicket :=
  match candidate with
  | Some current => if pt_queued_at next <? pt_queued_at current then Some next else candidate
  | None => Some next
  end.

(** The first loop: eligible heads that would take a reserved slot. *)
Definition oldest_reserved (s : PriorityAdmissionState) (global_active global_capacity : Z) : option PriorityTicket :=
  foldl (λ reserved class,
    match head (ps_queues s class ELIGIBLE_LANE) with
    | None => reserved
    | Some waiter =>
        if bool_decide (priority_can_admit s class true global_active global_capacity = Some Reserved)
        then choose_oldest reserved waiter else reserved
    end) None PriorityClass_ALL.

(** The second loop: every head that can be admitted. *)
Definition oldest_admissible (s : PriorityAdmissionState) (global_active global_capacity : Z)
    : option PriorityTicket :=
  foldl (λ shared class,
    foldl (λ shared l,
      match head (ps_queues s class l) with
      | None => shared
      | Some waiter =>
          if bool_decide (is_Some (priority_can_admit s class (l =? ELIGIBLE_LANE) global_active global_capacity))
          then choose_oldest shared waiter else shared
      end) shared [ELIGIBLE_LANE; SHARED_LANE]) None PriorityClass_ALL.

Definition selected_waiter (s : PriorityAdmissionState) (global_active global_capacity : Z) : option PriorityTicket :=
  match oldest_reserved s global_active global_capacity with
  | Some ticket => Some ticket
  | None => oldest_admissible s global_active global_capacity
  end.

Definition is_selected (s : PriorityAdmissionState) (ticket : PriorityTicket) (global_active global_capacity : Z)
    : bool :=
  match selected_waiter s global_active global_capacity with
  | Some selected => pt_id selected =? pt_id ticket
  | None => false
  end.

Definition priority_queue_rejection_reason (s : PriorityAdmissionState) (class : PriorityClass)
    : option PriorityRejectionReason :=
  let policy := ps_policies s class in
  if bool_decide (rp_rejection_policy policy = RejectPolicy) then
    let active := ps_active s class in
    Some (if (rp_max_requests policy <=? act_total active) || (max_shared_requests policy <=? act_shared active)
          then ShareLimit else Policy)
  else if rp_max_pending_requests policy <=? ps_queued s class then Some PriorityQueueFull
  else None.

Definition priority_queue_timeout (s : PriorityAdmissionState) (class : PriorityClass) : Z :=
  rp_queue_timeout (ps_policies s class).

(** [id.wrapping_add(1).max(1)] *)
Definition next_id (id : Z) : Z := Z.max (add64 id 1) 1.

Definition set_queue (s : PriorityAdmissionState) (class : PriorityClass) (l : Z) (q : list PriorityTicket)
    : PriorityAdmissionState :=
  s <| ps_queues := <[class := <[l := q]> (ps_queues s class)]> (ps_queues s) |>.

Definition priority_enqueue (s : PriorityAdmissionState) (class : PriorityClass) (reservation_eligible : bool)
    (now : Z) : PriorityAdmissionState * PriorityTicket :=
  let ticket := mkPriorityTicket (ps_next_waiter s) class (lane reservation_eligible) now in
  let s := s <| ps_next_waiter ::= next_id |> in
  let s := set_queue s class (pt_lane ticket) (ps_queues s class (pt_lane ticket) ++ [ticket]) in
  let s := s <| ps_queued ::= λ q, <[class := saturating_add64 (q class) 1]> q |> in
  (s, ticket).

(** [position] then [remove]: the first element that satisfies [p], and the
    others. *)
Fixpoint remove_first {A} (p : A → bool) (l : list A) : option (A * list A) :=
  match l with
  | [] => None
  | x :: l =>
      if p x then Some (x, l)
      else
        match remove_first p l with
        | Some (y, l) => Some (y, x :: l)
        | None => None
        end
  end.

Definition priority_remove (s : PriorityAdmissionState) (ticket : PriorityTicket)
    : PriorityAdmissionState * option PriorityTicket :=
  let queue := ps_queues s (pt_class ticket) (pt_lane ticket) in
  match remove_first (λ candidate, pt_id candidate =? pt_id ticket) queue with
  | None => (s, None)
  | Some (waiter, rest) =>
      let s := set_queue s (pt_class ticket) (pt_lane ticket) rest in
      let s := s <| ps_queued ::= λ q, <[pt_class ticket := saturating_sub64 (q (pt_class ticket)) 1]> q |> in
      (s, Some waiter)
  end.

Definition priority_admit (s : PriorityAdmissionState) (class : PriorityClass) (kind : PriorityLeaseKind)
    : PriorityAdmissionState * PriorityLease :=
  let active := ps_active s class in
  let s :=
    match kind with
    | Reserved =>
        s <| ps_active ::= <[class := active <| act_reserved ::= λ n, saturating_add64 n 1 |>]> |>
    | Shared =>
        s <| ps_active ::= <[class := active <| act_shared ::= λ n, saturating_add64 n 1 |>]> |>
          <| ps_shared_active ::= λ n, saturating_add64 n 1 |>
    end in
  (s, mkPriorityLease class kind).

Definition priority_release (s : PriorityAdmissionState) (lease : PriorityLease) : PriorityAdmissionState :=
  let active := ps_active s (pl_class lease) in
  match pl_kind lease with
  | Reserved =>
      s <| ps_active ::= <[pl_class lease := active <| act_reserved ::= λ n, saturating_sub64 n 1 |>]> |>
  | Shared =>
      s <| ps_active ::= <[pl_class lease := active <| act_shared ::= λ n, saturating_sub64 n 1 |>]> |>
        <| ps_shared_active ::= λ n, saturating_sub64 n 1 |>
  end.

Definition record_rejection (s : PriorityAdmissionState) (class : PriorityClass) (reason : PriorityRejectionReason)
    : PriorityAdmissionState :=
  s <| ps_rejections ::= λ r, <[class := <[reason := saturating_add64 (r class reason) 1]> (r class)]> r |>.

Definition record_queue_wait (s : PriorityAdmissionState) (class : PriorityClass) (queued_at now : Z)
    : PriorityAdmissionState :=
  s <| ps_queue_waits ::= λ q, <[class := saturating_add64 (q class) 1]> q |>
    <| ps_queue_wait_ms ::= λ q,
         <[class := saturating_add64 (q class) (Z.min (as_millis (saturating_duration_since now queued_at)) U64_MAX)]> q |>.
