(* ===== verification/CbQueue.v ===== *)
(** * Waiting lanes

    [src/source/src/circuit_breakers/queue.rs]: first-in first-out lanes of
    waiters, one for each set of slots a caller can ask for. *)

From stdpp Require Import countable gmap functions.
From S2P Require Import Prelude Bytes CbTypes CbPriority.

(** ** Orders *)

Fixpoint bytes_compare (a b : bytes) : comparison :=
  match a, b with
  | [], [] => Eq
  | [], _ :: _ => Lt
  | _ :: _, [] => Gt
  | x :: a, y :: b =>
      match Z.compare x y with
      | Eq => bytes_compare a b
      | c => c
      end
  end.

(** [left.kind().cmp(right.kind()).then(left.label().cmp(right.label()))] *)
Definition scope_compare (left right : ScopeKey) : comparison :=
  match Z.compare (scope_kind left) (scope_kind right) with
  | Eq => bytes_compare (scope_label left) (scope_label right)
  | c => c
  end.

Definition slot_compare (left right : ScopeKey * ResourceKind) : comparison :=
  match scope_compare left.1 right.1 with
  | Eq => Z.compare (resource_index left.2) (resource_index right.2)
  | c => c
  end.

(** ** Keys and tickets *)

Definition QueueKey : Type := list (ScopeKey * ResourceKind).

Definition from_allocations (allocations : list Allocation) : QueueKey :=
  sort_by slot_compare (map al_slot allocations).

Definition overlaps (key other : QueueKey) : bool := existsb (λ slot, bool_decide (slot ∈ other)) key.

Record WaiterTicket : Type := mkTicket {
  tk_id : Z;
  tk_key : QueueKey;
  tk_queued_at : Z;
}.

(** ** Lanes *)

Abbreviation AdmissionQueues := (gmap QueueKey (list Waiter)).

(** The lane of a key, empty when the key has none. *)
Definition lane_of (q : AdmissionQueues) (key : QueueKey) : list Waiter := default [] (q !! key).

Definition queue_is_empty (q : AdmissionQueues) (key : QueueKey) : bool := is_empty (lane_of q key).

Definition is_head (q : AdmissionQueues) (ticket : WaiterTicket) : bool :=
  match head (lane_of q (tk_key ticket)) with
  | Some waiter => wt_id waiter =? tk_id ticket
  | None => false
  end.

(** [(left.queued_at, left.id) < (right.queued_at, right.id)] *)
Definition waiter_before (left right : Waiter) : bool :=
  (wt_queued_at left <? wt_queued_at right)
  || ((wt_queued_at left =? wt_queued_at right) && (wt_id left <? wt_id right)).

(** [min_by_key] over a sequence of waiters: the first of the least. *)
Definition oldest (ws : list Waiter) : option Waiter :=
  foldl (λ best w,
    match best with
    | Some b => if waiter_before w b then Some w else best
    | None => Some w
    end) None ws.

(** The front waiters of the lanes that share a slot with [key]. *)
Definition overlapping_heads (q : AdmissionQueues) (key : QueueKey) : list Waiter :=
  omap (λ '(candidate_key, l), if overlaps key candidate_key then head l else None) (map_to_list q).

Definition oldest_admissible_overlap (q : AdmissionQueues) (key : QueueKey) (admissible : list Allocation → bool)
    : option Z :=
  wt_id <$> oldest (filter (λ w, admissible (wt_allocations w) = true) (overlapping_heads q key)).

Definition queue_push (q : AdmissionQueues) (ticket : WaiterTicket) (waiter : Waiter) : AdmissionQueues :=
  <[tk_key ticket := lane_of q (tk_key ticket) ++ [waiter]]> q.

Definition queue_remove (q : AdmissionQueues) (ticket : WaiterTicket) : AdmissionQueues * option Waiter :=
  match remove_first (λ waiter, wt_id waiter =? tk_id ticket) (lane_of q (tk_key ticket)) with
  | None => (q, None)
  | Some (waiter, rest) =>
      (if is_empty rest then delete (tk_key ticket) q else <[tk_key ticket := rest]> q, Some waiter)
  end.

(** ** The oldest waiter *)

Lemma waiter_before_total a b : waiter_before a b = false → wt_id a ≠ wt_id b → waiter_before b a = true.
Proof. unfold waiter_before. intros H Hne. destruct (Z.ltb_spec (wt_queued_at a) (wt_queued_at b)); cbn in H; lia. Qed.

Lemma waiter_before_trans a b c : waiter_before b a = false → waiter_before b c = true → waiter_before a c = true.
Proof. unfold waiter_before. intros. lia. Qed.

Lemma waiter_before_irrefl a : waiter_before a a = false.
Proof. unfold waiter_before. lia. Qed.

Lemma oldest_spec ws :
  match oldest ws with
  | Some w => w ∈ ws ∧ ∀ x, x ∈ ws → waiter_before x w = false
  | None => ws = []
  end.
Proof.
  unfold oldest. set (step := λ best w, _). 
  assert (∀ ws seen best, best ∈ seen → (∀ x, x ∈ seen → waiter_before x best = false) →
    ∃ w, foldl step (Some best) ws = Some w ∧ w ∈ seen ++ ws ∧ ∀ x, x ∈ seen ++ ws → waiter_before x w = false) as H.
  { clear ws. induction ws as [|y ws IH]; intros seen best Hb Hmin; cbn [foldl].
    - exists best. by rewrite app_nil_r.
    - rewrite (cons_middle y), (assoc_L (++)). unfold step at 2. destruct (waiter_before y best) eqn:E; apply IH.
      + rewrite elem_of_app. right. by left.
      + intros x [Hx| ->%list_elem_of_singleton]%elem_of_app; [|apply waiter_before_irrefl].
        specialize (Hmin x Hx). unfold waiter_before in *. lia.
      + rewrite elem_of_app. by left.
      + intros x [Hx| ->%list_elem_of_singleton]%elem_of_app; [by apply Hmin|done]. }
  destruct ws as [|w ws]; [done|]. cbn [foldl]. change (step None w) with (Some w).
  destruct (H ws [w] w) as (w' & -> & Hin & Hmin); [by left| |by split].
  intros x ->%list_elem_of_singleton. apply waiter_before_irrefl.
Qed.

Lemma overlapping_heads_spec q key w :
  w ∈ overlapping_heads q key ↔ ∃ key', overlaps key key' = true ∧ head (lane_of q key') = Some w.
Proof.
  unfold overlapping_heads. rewrite list_elem_of_omap. split.
  - intros ([key' l] & Hin%elem_of_map_to_list & Hw). exists key'. unfold lane_of. rewrite Hin. cbn.
    by destruct (overlaps key key').
  - intros (key' & Ho & Hw). unfold lane_of in Hw. destruct (q !! key') as [l|] eqn:E; [|done].
    exists (key', l). split; [by apply elem_of_map_to_list|]. by rewrite Ho.
Qed.

(** Who is selected among the heads that share a slot. *)
Lemma oldest_overlap_spec q key admissible :
  match oldest_admissible_overlap q key admissible with
  | Some id => ∃ key' w, overlaps key key' = true ∧ head (lane_of q key') = Some w ∧
      admissible (wt_allocations w) = true ∧ wt_id w = id ∧
      ∀ key' x, overlaps key key' = true → head (lane_of q key') = Some x → admissible (wt_allocations x) = true →
        waiter_before x w = false
  | None => ∀ key' x, overlaps key key' = true → head (lane_of q key') = Some x → admissible (wt_allocations x) = false
  end.
Proof.
  unfold oldest_admissible_overlap. pose proof (oldest_spec (filter (λ w, admissible (wt_allocations w) = true)
    (overlapping_heads q key))) as H. destruct (oldest _) as [w|]; cbn.
  - destruct H as [[Ha (key' & Ho & Hw)%overlapping_heads_spec]%list_elem_of_filter Hmin]. exists key', w. split_and!; [done..|].
    intros key'' x Hx Hh Hax. apply Hmin, list_elem_of_filter. split; [done|]. apply overlapping_heads_spec. by exists key''.
  - intros key' x Ho Hh. apply not_true_is_false. intros Ha. apply (not_elem_of_nil x). rewrite <-H.
    apply list_elem_of_filter. split; [done|]. apply overlapping_heads_spec. by exists key'.
Qed.
