(* ===== verification/CbRuntime.v ===== *)
(** * The admission runtime's state

    [RuntimeState] of [src/source/src/circuit_breakers/runtime.rs], with the
    operations a caller runs while it holds the state's mutex. *)

From stdpp Require Import countable gmap functions.
From S2P Require Import Prelude Bytes F64 CbConfig CbCircuit CbTypes CbPriority CbQueue.
From Stdlib Require Import Floats.SpecFloat.

Record RuntimeState : Type := mkState {
  rs_scopes : gmap ScopeKey ScopeState;
  rs_waiters : AdmissionQueues;
  rs_next_waiter : Z;
  rs_retry : RetryBudget;
  rs_failure : CircuitBreakerFailureConfig;
  rs_response_status : Z;
  rs_capacity_retry_after : Z;
  rs_rejections : AdmissionRejectionReason → Z;
  rs_transitions : CircuitState → CircuitState → Z;
  rs_queue_waits : Z;
  rs_queue_wait_ms : Z;
  rs_attempts : Z → Z;
  rs_transition_sequence : Z;
  rs_priority : PriorityAdmissionState;
}.

#[export] Instance eta_RuntimeState : Eta RuntimeState :=
  λ x, mkState (rs_scopes x) (rs_waiters x) (rs_next_waiter x) (rs_retry x) (rs_failure x) (rs_response_status x)
         (rs_capacity_retry_after x) (rs_rejections x) (rs_transitions x) (rs_queue_waits x) (rs_queue_wait_ms x)
         (rs_attempts x) (rs_transition_sequence x) (rs_priority x).

(** ** Configuration *)

Definition global_request_limit (scopes : gmap ScopeKey ScopeState) : ResourceLimit :=
  match scopes !! Global with
  | Some scope => ss_limits scope Request
  | None => mkLimit 0 0 0
  end.

Definition state_from_config (config : Config) : RuntimeState :=
  let '(scopes, retry) := resolve_scopes config in
  let breaker := cf_breakers config in
  mkState scopes ∅ 1 retry (br_failure breaker) (br_response_status breaker)
    (from_millis (br_capacity_retry_after_ms breaker)) (λ _, 0) (λ _ _, 0) 0 0 (λ _, 0) 0
    (priority_from_config (br_priority breaker) (global_request_limit scopes)).

(** A scope that is configured takes its new limits and keeps its counters;
    one that is not configured any more stays as it is. *)
Definition reconfigure_scope (current replacement : option ScopeState) : option ScopeState :=
  match replacement with
  | None => current
  | Some replacement =>
      let state := default (scope_new (ss_limits replacement) (ss_failure_enabled replacement)) current in
      let state := state <| ss_limits := ss_limits replacement |>
                         <| ss_failure_enabled := ss_failure_enabled replacement |> in
      Some (if negb (ss_failure_enabled state) then state <| ss_circuit ::= close |> else state)
  end.

Definition state_configure (s : RuntimeState) (config : Config) : RuntimeState :=
  let '(configured, retry) := resolve_scopes config in
  let s := s <| rs_scopes := merge reconfigure_scope (rs_scopes s) configured |> in
  let breaker := cf_breakers config in
  let s := s <| rs_retry := retry |>
             <| rs_failure := br_failure breaker |>
             <| rs_response_status := br_response_status breaker |>
             <| rs_capacity_retry_after := from_millis (br_capacity_retry_after_ms breaker) |> in
  let s := s <| rs_priority ::= λ p, priority_configure p (br_priority breaker) (global_request_limit (rs_scopes s)) |> in
  if negb (br_enabled breaker) || negb (fl_enabled (br_failure breaker))
  then s <| rs_scopes ::= fmap (λ scope : ScopeState, scope <| ss_circuit ::= close |>) |>
  else s.

(** ** Slots *)

(** [self.scopes.get(&allocation.scope).is_some_and(|scope| ..)] *)
Definition scope_is_some_and (s : RuntimeState) (key : ScopeKey) (p : ScopeState → bool) : bool :=
  match rs_scopes s !! key with
  | Some scope => p scope
  | None => false
  end.

Definition can_admit (s : RuntimeState) (allocations : list Allocation) : bool :=
  forallb (λ a, scope_is_some_and s (al_scope a) (λ scope,
    ss_active scope (al_resource a) <? rl_active (effective_limit a scope))) allocations.

Definition can_queue (s : RuntimeState) (allocations : list Allocation) : bool :=
  forallb (λ a, scope_is_some_and s (al_scope a) (λ scope,
    ss_queued scope (al_resource a) <? rl_queue (effective_limit a scope))) allocations.

Definition queue_rejection_reason (s : RuntimeState) (allocations : list Allocation) : AdmissionRejectionReason :=
  if existsb (λ a, scope_is_some_and s (al_scope a) (λ scope,
       (rl_queue (effective_limit a scope) =? 0)
       && (rl_active (effective_limit a scope) <=? ss_active scope (al_resource a)))) allocations
  then ActiveLimit else QueueFull.

(** [scope.active[resource] = f(scope.active[resource])], and for [queued]. *)
Definition over_active (f : Z → Z) (r : ResourceKind) (scope : ScopeState) : ScopeState :=
  scope <| ss_active ::= λ active, <[r := f (active r)]> active |>.
Definition over_queued (f : Z → Z) (r : ResourceKind) (scope : ScopeState) : ScopeState :=
  scope <| ss_queued ::= λ queued, <[r := f (queued r)]> queued |>.

(** The loop of a composite update. *)
Definition over_slots (over_slot : ResourceKind → ScopeState → ScopeState) (allocations : list Allocation)
    (s : RuntimeState) : RuntimeState :=
  s <| rs_scopes ::= λ scopes,
    foldl (λ scopes a, alter (over_slot (al_resource a)) (al_scope a) scopes) scopes allocations |>.

Definition increment_active (s : RuntimeState) (allocations : list Allocation) : RuntimeState :=
  over_slots (over_active (λ n, add64 n 1)) allocations s.
Definition decrement_active (s : RuntimeState) (allocations : list Allocation) : RuntimeState :=
  over_slots (over_active (λ n, saturating_sub64 n 1)) allocations s.

Definition record_attempt (s : RuntimeState) (allocations : list Allocation) : RuntimeState :=
  let has r := existsb (λ a, bool_decide (al_resource a = r)) allocations in
  if negb (has UpstreamRequest) then s
  else
    let kind := if has Retry then 1 else 0 in
    s <| rs_attempts ::= λ attempts, <[kind := saturating_add64 (attempts kind) 1]> attempts |>.

Definition record_transition (s : RuntimeState) (from to : CircuitState) : RuntimeState :=
  s <| rs_transitions ::= λ t, <[from := <[to := saturating_add64 (t from to) 1]> (t from)]> t |>.

Definition reject (s : RuntimeState) (reason : AdmissionRejectionReason) : RuntimeState :=
  s <| rs_rejections ::= λ r, <[reason := saturating_add64 (r reason) 1]> r |>.

(** ** Circuits *)

(** [Vec::dedup] *)
Fixpoint dedup {A} `{EqDecision A} (l : list A) : list A :=
  match l with
  | [] => []
  | x :: l =>
      match dedup l with
      | (y :: _) as l => if bool_decide (x = y) then l else x :: l
      | [] => [x]
      end
  end.

(** The scopes of the upstream requests among the allocations. *)
Definition upstream_scopes (allocations : list Allocation) : list ScopeKey :=
  map al_scope (filter (λ a, al_resource a = UpstreamRequest) allocations).

Fixpoint circuits_available (s : RuntimeState) (now : Z) (keys : list ScopeKey) : result Z unit :=
  match keys with
  | [] => Ok tt
  | key :: keys =>
      match rs_scopes s !! key with
      | None => Err 0
      | Some scope =>
          if ss_failure_enabled scope then
            available (ss_circuit scope) now (rs_failure s);; circuits_available s now keys
          else circuits_available s now keys
      end
  end.

Definition circuit_available (s : RuntimeState) (allocations : list Allocation) (now : Z) : result Z unit :=
  if negb (fl_enabled (rs_failure s)) then Ok tt
  else circuits_available s now (dedup (sort_by scope_compare (upstream_scopes allocations))).

(** The second loop of [circuit_admission]. *)
Fixpoint begin_probes (s : RuntimeState) (now : Z) (keys probes : list ScopeKey)
    : RuntimeState * result Z (list ScopeKey) :=
  match keys with
  | [] => (s, Ok probes)
  | key :: keys =>
      match rs_scopes s !! key with
      | None => (s, Err 0)
      | Some scope =>
          if negb (ss_failure_enabled scope) then begin_probes s now keys probes
          else
            let '(circuit, transition) := begin_probe (ss_circuit scope) now (rs_failure s) in
            let s := s <| rs_scopes ::= insert key (scope <| ss_circuit := circuit |>) |> in
            match transition with
            | Some (from, to) => begin_probes (record_transition s from to) now keys (probes ++ [key])
            | None =>
                begin_probes s now keys
                  (if bool_decide (fc_state circuit = HalfOpen) then probes ++ [key] else probes)
            end
      end
  end.

Definition circuit_admission (s : RuntimeState) (allocations : list Allocation) (now : Z)
    : RuntimeState * result Z (list ScopeKey) :=
  if negb (fl_enabled (rs_failure s)) then (s, Ok [])
  else
    let scopes := dedup (sort_by scope_compare (upstream_scopes allocations)) in
    match circuits_available s now scopes with
    | Err retry_after => (s, Err retry_after)
    | Ok _ => begin_probes s now scopes []
    end.

(** One scope of [finish_circuits]. *)
Definition finish_circuit (probes : list ScopeKey) (outcome : CircuitOutcome) (now : Z) (s : RuntimeState)
    (key : ScopeKey) : RuntimeState :=
  let probe := bool_decide (key ∈ probes) in
  match rs_scopes s !! key with
  | None => s
  | Some scope =>
      if negb (ss_failure_enabled scope) then s
      else
        let s := s <| rs_transition_sequence ::= λ n, add64 n 1 |> in
        let '(circuit, transition) :=
          finish (ss_circuit scope) probe outcome now (rs_failure s) (rs_transition_sequence s) in
        let s := s <| rs_scopes ::= insert key (scope <| ss_circuit := circuit |>) |> in
        match transition with
        | Some (from, to) => record_transition s from to
        | None => s
        end
  end.

Definition finish_circuits (s : RuntimeState) (probes : list ScopeKey) (allocations : list Allocation)
    (outcome : CircuitOutcome) (now : Z) : RuntimeState :=
  if negb (fl_enabled (rs_failure s)) then s
  else foldl (finish_circuit probes outcome now) s (upstream_scopes allocations).

Definition abandon_circuits (s : RuntimeState) (probes : list ScopeKey) : RuntimeState :=
  s <| rs_scopes ::= λ scopes,
    foldl (λ scopes key,
      alter (λ scope : ScopeState, scope <| ss_circuit ::= λ c, abandon_probe c true |>) key scopes) scopes probes |>.

(** ** Queues *)

Definition enqueue (s : RuntimeState) (ticket : WaiterTicket) (waiter : Waiter) : RuntimeState :=
  let s := over_slots (over_queued (λ n, add64 n 1)) (wt_allocations waiter) s in
  s <| rs_waiters ::= λ q, queue_push q ticket waiter |>.

Definition remove_waiter (s : RuntimeState) (ticket : WaiterTicket) : RuntimeState * option Waiter :=
  let '(waiters, removed) := queue_remove (rs_waiters s) ticket in
  match removed with
  | None => (s, None)
  | Some waiter =>
      (over_slots (over_queued (λ n, saturating_sub64 n 1)) (wt_allocations waiter) (s <| rs_waiters := waiters |>),
       Some waiter)
  end.

(** [remove_priority_waiter] of [priority.rs]. *)
Definition remove_priority_waiter (s : RuntimeState) (ticket : PriorityTicket)
    : RuntimeState * option PriorityTicket :=
  let '(priority, removed) := priority_remove (rs_priority s) ticket in
  match removed with
  | None => (s, None)
  | Some removed =>
      (s <| rs_priority := priority |>
         <| rs_scopes ::= alter (over_queued (λ n, saturating_sub64 n 1) Request) Global |>,
       Some removed)
  end.

(** The part of [CircuitBreakerRuntime::release] under the mutex. *)
Definition release_state (s : RuntimeState) (allocations : list Allocation) (probes : list ScopeKey)
    (priority : option PriorityLease) (outcome : CircuitOutcome) (now : Z) : RuntimeState :=
  let s := decrement_active s allocations in
  let s :=
    match priority with
    | Some priority => s <| rs_priority ::= λ p, priority_release p priority |>
    | None => s
    end in
  if bool_decide (outcome = Neutral) then abandon_circuits s probes
  else finish_circuits s probes allocations outcome now.

(** ** The budget of retries *)

Definition retry_limit (s : RuntimeState) (overload_multiplier : f64) : ResourceLimit :=
  let originals :=
    match rs_scopes s !! Global with
    | Some scope => ss_active scope Request
    | None => 0
    end in
  let proportional := f64_to_usize (f64_floor (f64_mul (f64_of originals) (rt_percent (rs_retry s)))) in
  let allowance := Z.min (Z.max proportional (rt_min (rs_retry s))) (rt_max (rs_retry s)) in
  let adjusted :=
    f64_to_usize (f64_floor (f64_mul (f64_of allowance) (f64_clamp overload_multiplier f64_zero f64_one))) in
  mkLimit (Z.max adjusted 1) (rt_queue (rs_retry s)) (rt_timeout (rs_retry s)).

(** The time a queued caller has left. *)
Definition queue_timeout (s : RuntimeState) (allocations : list Allocation) (deadline : option Z) (queued_at now : Z)
    : Z :=
  let timeouts :=
    omap (λ a, (λ scope, rl_timeout (effective_limit a scope)) <$> rs_scopes s !! al_scope a) allocations in
  let configured :=
    match timeouts with
    | [] => 0
    | t :: ts => foldl Z.min t ts
    end in
  let remaining := duration_saturating_sub configured (saturating_duration_since now queued_at) in
  match deadline with
  | Some deadline => Z.min remaining (saturating_duration_since deadline now)
  | None => remaining
  end.
