(* ===== verification/CbTasks.v ===== *)
(** * Admission as it runs

    The callers of [CircuitBreakerRuntime] ([runtime.rs], [priority.rs]) as
    tasks that share the state, the flag [enabled] and the [Notify].  A step
    of a task is a stretch of code between two points where another task can
    run: the creation of [notified], each critical section, and the wait.  A
    [Notify] is the number of calls of [notify_waiters]: a [Notified] future
    completes when one was made after its creation, as [tokio] documents. *)

From stdpp Require Import countable gmap functions.
From S2P Require Import Prelude Bytes F64 CbConfig CbCircuit CbTypes CbPriority CbQueue CbRuntime.
From Stdlib Require Import Floats.SpecFloat.

(** ** Leases *)

(** An enabled lease; a disabled one releases nothing. *)
Record AdmissionLease : Type := mkLease {
  ls_allocations : list Allocation;
  ls_probes : list ScopeKey;
  ls_priority : option PriorityLease;
}.

(** What an admission returns: a lease, [None] when it is disabled, or the
    rejection. *)
Definition Admission : Type := result AdmissionRejection (option AdmissionLease).

Definition is_ok {E A} (r : result E A) : bool :=
  match r with
  | Ok _ => true
  | Err _ => false
  end.

(** ** [admit]: critical sections *)

(** [waiter.take()] and [remove_waiter]. *)
Definition withdraw (s : RuntimeState) (ticket : option WaiterTicket) : RuntimeState * option Waiter :=
  match ticket with
  | Some ticket => remove_waiter s ticket
  | None => (s, None)
  end.

(** The closure passed to [oldest_admissible_overlap]. *)
Definition admissible (s : RuntimeState) (now : Z) (candidate : list Allocation) : bool :=
  is_ok (circuit_available s candidate now) && can_admit s candidate.

(** A rejection by an open circuit. *)
Definition circuit_rejection (s : RuntimeState) (ticket : option WaiterTicket) (retry_after : Z)
    : RuntimeState * bool * option Admission :=
  let '(s, removed) := withdraw s ticket in
  (reject s CircuitOpen, bool_decide (is_Some removed), Some (Err (mkRejection CircuitOpen retry_after))).

(** The first critical section of the loop: the state, whether the waiters
    are to be woken, and the result if there is one. *)
Definition admit_attempt (s : RuntimeState) (enabled : bool) (now : Z) (allocations : list Allocation)
    (queue_key : QueueKey) (ticket : option WaiterTicket) : RuntimeState * bool * option Admission :=
  if negb enabled then ((withdraw s ticket).1, false, Some (Ok None))
  else
    let head_of_lane :=
      match ticket with
      | Some ticket => is_head (rs_waiters s) ticket
      | None => queue_is_empty (rs_waiters s) queue_key
      end in
    if negb head_of_lane then (s, false, None)
    else
      match circuit_available s allocations now with
      | Err retry_after => circuit_rejection s ticket retry_after
      | Ok _ =>
          let selected := oldest_admissible_overlap (rs_waiters s) queue_key (admissible s now) in
          let selected_for_caller :=
            match ticket with
            | Some ticket => bool_decide (selected = Some (tk_id ticket))
            | None => bool_decide (selected = None)
            end in
          if negb (selected_for_caller && can_admit s allocations) then (s, false, None)
          else
            match circuit_admission s allocations now with
            | (s, Err retry_after) => circuit_rejection s ticket retry_after
            | (s, Ok probes) =>
                let '(s, queued) := withdraw s ticket in
                let s :=
                  match queued with
                  | Some queued =>
                      s <| rs_queue_waits ::= λ n, saturating_add64 n 1 |>
                        <| rs_queue_wait_ms ::= λ n, saturating_add64 n
                             (Z.min (as_millis (saturating_duration_since now (wt_queued_at queued))) U64_MAX) |>
                  | None => s
                  end in
                let s := increment_active (record_attempt s allocations) allocations in
                (s, bool_decide (is_Some queued), Some (Ok (Some (mkLease allocations probes None))))
            end
      end.

(** The second: a caller without a ticket takes one or is rejected. *)
Definition admit_queue (s : RuntimeState) (now : Z) (allocations : list Allocation) (queue_key : QueueKey)
    (exhausted_reason : option AdmissionRejectionReason) : RuntimeState * result AdmissionRejection WaiterTicket :=
  if negb (can_queue s allocations) then
    let reason := default (queue_rejection_reason s allocations) exhausted_reason in
    (reject s reason, Err (mkRejection reason (rs_capacity_retry_after s)))
  else
    let id := rs_next_waiter s in
    let s := s <| rs_next_waiter ::= next_id |> in
    let ticket := mkTicket id queue_key now in
    (enqueue s ticket (mkWaiter id allocations now), Ok ticket).

(** [waiter.remove()] and [timeout_rejection]. *)
Definition admit_expire (s : RuntimeState) (ticket : option WaiterTicket)
    (exhausted_reason : option AdmissionRejectionReason) : RuntimeState * bool * Admission :=
  let '(s, removed) := withdraw s ticket in
  let reason := default QueueTimeout exhausted_reason in
  (reject s reason, bool_decide (is_Some removed), Err (mkRejection reason (rs_capacity_retry_after s))).

(** ** [admit_priority_global_request]: critical sections *)

Definition global_request : list Allocation := [mkAllocation Global Request None].

Definition priority_withdraw (s : RuntimeState) (ticket : option PriorityTicket)
    : RuntimeState * option PriorityTicket :=
  match ticket with
  | Some ticket => remove_priority_waiter s ticket
  | None => (s, None)
  end.

(** What a section of the priority loop decides. *)
Inductive priority_outcome : Type :=
  | PrReturn (r : Admission)
  | PrFallback
  | PrContinue.

Definition unavailable_rejection : AdmissionRejection := mkRejection InternalStateUnavailable 0.

(** The first critical section.  A return drops the ticket that is left, which
    wakes the waiters. *)
Definition priority_attempt (s : RuntimeState) (enabled : bool) (now : Z) (class : PriorityClass)
    (reservation_eligible : bool) (ticket : option PriorityTicket) : RuntimeState * bool * priority_outcome :=
  if negb enabled then ((priority_withdraw s ticket).1, false, PrReturn (Ok None))
  else if negb (ps_enabled (rs_priority s)) then ((priority_withdraw s ticket).1, false, PrFallback)
  else
    match rs_scopes s !! Global with
    | None =>
        let '(s, removed) := priority_withdraw s ticket in
        (s, bool_decide (is_Some removed), PrReturn (Err unavailable_rejection))
    | Some global =>
        let global_limit := ss_limits global Request in
        let global_active := ss_active global Request in
        let selected := selected_waiter (rs_priority s) global_active (rl_active global_limit) in
        let allocation_kind :=
          priority_can_admit (rs_priority s) class reservation_eligible global_active (rl_active global_limit) in
        let direct_lane_is_empty := lane_empty (rs_priority s) class reservation_eligible in
        let may_admit :=
          match ticket with
          | Some ticket => is_selected (rs_priority s) ticket global_active (rl_active global_limit)
          | None =>
              direct_lane_is_empty
              && (bool_decide (selected = None) || bool_decide (allocation_kind = Some Reserved))
          end in
        match may_admit, allocation_kind with
        | true, Some allocation_kind =>
            let '(s, queued) := priority_withdraw s ticket in
            let s :=
              match queued with
              | Some queued => s <| rs_priority ::= λ p, record_queue_wait p class (pt_queued_at queued) now |>
              | None => s
              end in
            let s := increment_active s global_request in
            let '(priority, lease) := priority_admit (rs_priority s) class allocation_kind in
            (s <| rs_priority := priority |>, false, PrReturn (Ok (Some (mkLease global_request [] (Some lease)))))
        | _, _ => (s, false, PrContinue)
        end
    end.

(** A caller without a ticket takes one, falls back or is rejected. *)
Definition priority_queue (s : RuntimeState) (now : Z) (class : PriorityClass) (reservation_eligible : bool)
    : RuntimeState * (priority_outcome + PriorityTicket) :=
  if negb (ps_enabled (rs_priority s)) then (s, inl PrFallback)
  else
    match priority_queue_rejection_reason (rs_priority s) class with
    | Some reason =>
        let s := s <| rs_priority ::= λ p, record_rejection p class reason |> in
        let s := reject s ActiveLimit in
        (s, inl (PrReturn (Err (mkRejection ActiveLimit (rs_capacity_retry_after s)))))
    | None =>
        if negb (can_queue s global_request) then
          let s := s <| rs_priority ::= λ p, record_rejection p class PriorityQueueFull |> in
          let reason := queue_rejection_reason s global_request in
          let s := reject s reason in
          (s, inl (PrReturn (Err (mkRejection reason (rs_capacity_retry_after s)))))
        else
          let '(priority, ticket) := priority_enqueue (rs_priority s) class reservation_eligible now in
          let s := s <| rs_priority := priority |> in
          (s <| rs_scopes ::= alter (over_queued (λ n, saturating_add64 n 1) Request) Global |>, inr ticket)
    end.

(** The time a queued priority caller has left; [None] without the scope. *)
Definition priority_timeout (s : RuntimeState) (class : PriorityClass) (deadline : option Z)
    (ticket : PriorityTicket) (now : Z) : option Z :=
  match rs_scopes s !! Global with
  | None => None
  | Some global_scope =>
      let global := rl_timeout (ss_limits global_scope Request) in
      let configured := Z.min global (priority_queue_timeout (rs_priority s) class) in
      let remaining :=
        duration_saturating_sub configured (saturating_duration_since now (pt_queued_at ticket)) in
      Some (match deadline with
            | Some deadline => Z.min remaining (saturating_duration_since deadline now)
            | None => remaining
            end)
  end.

(** [waiter.remove()] and [priority_timeout_rejection]. *)
Definition priority_expire (s : RuntimeState) (class : PriorityClass) (ticket : option PriorityTicket)
    : RuntimeState * bool * Admission :=
  let '(s, removed) := priority_withdraw s ticket in
  let s := s <| rs_priority ::= λ p, record_rejection p class PriorityQueueTimeout |> in
  let s := reject s QueueTimeout in
  (s, bool_decide (is_Some removed), Err (mkRejection QueueTimeout (rs_capacity_retry_after s))).

(** ** Tasks *)

(** Where a caller is in its loop, with the value of the notification counter
    its [notified] was created at, and the end of its wait. *)
Inductive Stage : Type :=
  | AtTop
  | AtAttempt (seen : Z)
  | AtQueue (seen : Z)
  | AtTimeout (seen : Z)
  | AtWait (seen until : Z).

Record AdmitTask : Type := mkAdmit {
  ad_allocations : list Allocation;
  ad_key : QueueKey;
  ad_deadline : option Z;
  ad_exhausted : option AdmissionRejectionReason;
  ad_ticket : option WaiterTicket;
  ad_stage : Stage;
}.

Record PriorityTask : Type := mkPriorityTask {
  pk_class : PriorityClass;
  pk_eligible : bool;
  pk_deadline : option Z;
  pk_ticket : option PriorityTicket;
  pk_stage : Stage;
}.

#[export] Instance eta_AdmitTask : Eta AdmitTask :=
  λ x, mkAdmit (ad_allocations x) (ad_key x) (ad_deadline x) (ad_exhausted x) (ad_ticket x) (ad_stage x).
#[export] Instance eta_PriorityTask : Eta PriorityTask :=
  λ x, mkPriorityTask (pk_class x) (pk_eligible x) (pk_deadline x) (pk_ticket x) (pk_stage x).

Inductive Task : Type :=
  | GenericTask (t : AdmitTask)
  | ClassTask (t : PriorityTask).

(** The arguments of [admit], up to its loop. *)
Definition start_admit (allocations : list Allocation) (deadline : option Z)
    (exhausted_reason : option AdmissionRejectionReason) : AdmitTask :=
  let allocations := deduplicate_allocations allocations in
  mkAdmit allocations (from_allocations allocations) deadline exhausted_reason None AtTop.

(** [admit_global_request_unprioritized] *)
Definition unprioritized (deadline : option Z) : AdmitTask := start_admit global_request deadline None.

(** The public entry points. *)
Inductive AdmissionCall : Type :=
  | RouteRequest (route : bytes)
  | PriorityGlobalRequest (class : PriorityClass) (reservation_eligible : bool)
  | GlobalRequest
  | RouteScopeRequest (route : bytes)
  | UpstreamAttempt (route : bytes) (pool : option bytes)
  | RetryAttempt (route : bytes) (pool : option bytes) (overload_multiplier : f64)
  | UpstreamConnection (pool : option bytes)
  | UpstreamStream (route : bytes) (pool : option bytes)
  | BodyInspectionJob (route : bytes)
  | DecompressionJob (route : bytes).

Definition start_task (s : RuntimeState) (call : AdmissionCall) (deadline : option Z) : Task :=
  match call with
  | RouteRequest route => GenericTask (start_admit (scoped_allocations (Some route) None Request) deadline None)
  | PriorityGlobalRequest class eligible => ClassTask (mkPriorityTask class eligible deadline None AtTop)
  | GlobalRequest => ClassTask (mkPriorityTask DefaultClass false deadline None AtTop)
  | RouteScopeRequest route => GenericTask (start_admit [mkAllocation (Route route) Request None] deadline None)
  | UpstreamAttempt route pool =>
      GenericTask (start_admit (scoped_allocations (Some route) pool UpstreamRequest) deadline None)
  | RetryAttempt route pool overload_multiplier =>
      GenericTask (start_admit
        (scoped_allocations (Some route) pool UpstreamRequest
           ++ [mkAllocation Global Retry (Some (retry_limit s overload_multiplier))])
        deadline (Some RetryBudgetExhausted))
  | UpstreamConnection pool => GenericTask (start_admit (scoped_allocations None pool Connection) deadline None)
  | UpstreamStream route pool =>
      GenericTask (start_admit (scoped_allocations (Some route) pool Stream) deadline None)
  | BodyInspectionJob route =>
      GenericTask (start_admit (scoped_allocations (Some route) None BodyInspection) deadline None)
  | DecompressionJob route =>
      GenericTask (start_admit (scoped_allocations (Some route) None Decompression) deadline None)
  end.

(** ** The system *)

Record World : Type := mkWorld {
  w_enabled : bool;
  w_state : RuntimeState;
  w_generation : Z;
  w_now : Z;
  w_tasks : gmap Z Task;
  w_leases : gmap Z AdmissionLease;
  w_configuring : option Config;
}.

#[export] Instance eta_World : Eta World :=
  λ x, mkWorld (w_enabled x) (w_state x) (w_generation x) (w_now x) (w_tasks x) (w_leases x) (w_configuring x).

Definition world_new (config : Config) (now : Z) : World :=
  mkWorld (br_enabled (cf_breakers config)) (state_from_config config) 0 now ∅ ∅ None.

Definition wake (b : bool) (w : World) : World := if b then w <| w_generation ::= λ n, n + 1 |> else w.

(** A task returns: its lease, if any, is held under the task's name. *)
Definition finish_task (tid : Z) (r : Admission) (w : World) : World :=
  let w := w <| w_tasks ::= delete tid |> in
  match r with
  | Ok (Some lease) => w <| w_leases ::= insert tid lease |>
  | Ok None | Err _ => w
  end.

Definition set_task (tid : Z) (t : Task) (w : World) : World := w <| w_tasks ::= insert tid t |>.

(** The next step of [admit]; [None] while it waits. *)
Definition admit_turn (tid : Z) (t : AdmitTask) (w : World) : option World :=
  match ad_stage t with
  | AtTop => Some (set_task tid (GenericTask (t <| ad_stage := AtAttempt (w_generation w) |>)) w)
  | AtAttempt seen =>
      let '(s, woken, admission) :=
        admit_attempt (w_state w) (w_enabled w) (w_now w) (ad_allocations t) (ad_key t) (ad_ticket t) in
      let w := wake woken (w <| w_state := s |>) in
      Some (match admission with
            | Some r => finish_task tid r w
            | None =>
                let next := match ad_ticket t with None => AtQueue seen | Some _ => AtTimeout seen end in
                set_task tid (GenericTask (t <| ad_stage := next |>)) w
            end)
  | AtQueue seen =>
      let '(s, r) := admit_queue (w_state w) (w_now w) (ad_allocations t) (ad_key t) (ad_exhausted t) in
      let w := w <| w_state := s |> in
      Some (match r with
            | Ok ticket =>
                set_task tid (GenericTask (t <| ad_ticket := Some ticket |> <| ad_stage := AtTimeout seen |>)) w
            | Err rejection => finish_task tid (Err rejection) w
            end)
  | AtTimeout seen =>
      match ad_ticket t with
      | None => Some (finish_task tid (Err unavailable_rejection) w)
      | Some ticket =>
          let timeout := queue_timeout (w_state w) (ad_allocations t) (ad_deadline t) (tk_queued_at ticket) (w_now w) in
          if timeout =? 0 then
            let '(s, woken, r) := admit_expire (w_state w) (ad_ticket t) (ad_exhausted t) in
            Some (finish_task tid r (wake woken (w <| w_state := s |>)))
          else Some (set_task tid (GenericTask (t <| ad_stage := AtWait seen (w_now w + timeout) |>)) w)
      end
  | AtWait seen until =>
      if seen <? w_generation w then Some (set_task tid (GenericTask (t <| ad_stage := AtTop |>)) w) else None
  end.

(** The next step of [admit_priority_global_request]. *)
Definition class_turn (tid : Z) (t : PriorityTask) (w : World) : option World :=
  match pk_stage t with
  | AtTop => Some (set_task tid (ClassTask (t <| pk_stage := AtAttempt (w_generation w) |>)) w)
  | AtAttempt seen =>
      let '(s, woken, outcome) :=
        priority_attempt (w_state w) (w_enabled w) (w_now w) (pk_class t) (pk_eligible t) (pk_ticket t) in
      let w := wake woken (w <| w_state := s |>) in
      Some (match outcome with
            | PrReturn r => finish_task tid r w
            | PrFallback => set_task tid (GenericTask (unprioritized (pk_deadline t))) w
            | PrContinue =>
                let next := match pk_ticket t with None => AtQueue seen | Some _ => AtTimeout seen end in
                set_task tid (ClassTask (t <| pk_stage := next |>)) w
            end)
  | AtQueue seen =>
      let '(s, r) := priority_queue (w_state w) (w_now w) (pk_class t) (pk_eligible t) in
      let w := w <| w_state := s |> in
      Some (match r with
            | inr ticket =>
                set_task tid (ClassTask (t <| pk_ticket := Some ticket |> <| pk_stage := AtTimeout seen |>)) w
            | inl (PrReturn r) => finish_task tid r w
            | inl _ => set_task tid (GenericTask (unprioritized (pk_deadline t))) w
            end)
  | AtTimeout seen =>
      match pk_ticket t with
      | None => Some (finish_task tid (Err unavailable_rejection) w)
      | Some ticket =>
          match priority_timeout (w_state w) (pk_class t) (pk_deadline t) ticket (w_now w) with
          | None =>
              let '(s, removed) := priority_withdraw (w_state w) (pk_ticket t) in
              Some (finish_task tid (Err unavailable_rejection)
                      (wake (bool_decide (is_Some removed)) (w <| w_state := s |>)))
          | Some timeout =>
              if timeout =? 0 then
                let '(s, woken, r) := priority_expire (w_state w) (pk_class t) (pk_ticket t) in
                Some (finish_task tid r (wake woken (w <| w_state := s |>)))
              else Some (set_task tid (ClassTask (t <| pk_stage := AtWait seen (w_now w + timeout) |>)) w)
          end
      end
  | AtWait seen until =>
      if seen <? w_generation w then Some (set_task tid (ClassTask (t <| pk_stage := AtTop |>)) w) else None
  end.

(** [tokio::time::timeout] elapsed before the notification. *)
Definition wait_elapsed (stage : Stage) (w : World) : bool :=
  match stage with
  | AtWait seen until => (w_generation w <=? seen) && (until <=? w_now w)
  | _ => false
  end.

Definition expire_turn (tid : Z) (t : Task) (w : World) : option World :=
  match t with
  | GenericTask t =>
      if wait_elapsed (ad_stage t) w then
        let '(s, woken, r) := admit_expire (w_state w) (ad_ticket t) (ad_exhausted t) in
        Some (finish_task tid r (wake woken (w <| w_state := s |>)))
      else None
  | ClassTask t =>
      if wait_elapsed (pk_stage t) w then
        let '(s, woken, r) := priority_expire (w_state w) (pk_class t) (pk_ticket t) in
        Some (finish_task tid r (wake woken (w <| w_state := s |>)))
      else None
  end.

(** A future can be dropped where it awaits, and before it is first polled. *)
Definition droppable {A} (stage : Stage) (ticket : option A) : bool :=
  match stage, ticket with
  | AtWait _ _, _ => true
  | AtTop, None => true
  | _, _ => false
  end.

(** [Drop] of [QueuedWaiter] and of [PriorityQueuedWaiter]. *)
Definition cancel_turn (tid : Z) (t : Task) (w : World) : option World :=
  match t with
  | GenericTask t =>
      if droppable (ad_stage t) (ad_ticket t) then
        let '(s, removed) := withdraw (w_state w) (ad_ticket t) in
        Some ((wake (bool_decide (is_Some removed)) (w <| w_state := s |>)) <| w_tasks ::= delete tid |>)
      else None
  | ClassTask t =>
      if droppable (pk_stage t) (pk_ticket t) then
        let '(s, removed) := priority_withdraw (w_state w) (pk_ticket t) in
        Some ((wake (bool_decide (is_Some removed)) (w <| w_state := s |>)) <| w_tasks ::= delete tid |>)
      else None
  end.

(** [release] *)
Definition release (lid : Z) (lease : AdmissionLease) (outcome : CircuitOutcome) (w : World) : World :=
  let s := release_state (w_state w) (ls_allocations lease) (ls_probes lease) (ls_priority lease) outcome (w_now w) in
  wake true (w <| w_state := s |> <| w_leases ::= delete lid |>).

Inductive Action : Type :=
  | Tick (elapsed : Z)
  | Call (tid : Z) (call : AdmissionCall) (deadline : option Z)
  | Turn (tid : Z)
  | Expire (tid : Z)
  | Cancel (tid : Z)
  | DropLease (lid : Z) (outcome : CircuitOutcome)
  | StoreEnabled (config : Config)
  | ApplyConfig.

(** One action, or [None] when it is not possible.  [configure] stores the
    flag first and takes the mutex after; one runs at a time. *)
Definition perform (a : Action) (w : World) : option World :=
  match a with
  | Tick elapsed => if 0 <=? elapsed then Some (w <| w_now ::= λ n, n + elapsed |>) else None
  | Call tid call deadline =>
      match w_tasks w !! tid, w_leases w !! tid with
      | None, None =>
          if negb (w_enabled w) then Some w
          else Some (set_task tid (start_task (w_state w) call deadline) w)
      | _, _ => None
      end
  | Turn tid =>
      match w_tasks w !! tid with
      | Some (GenericTask t) => admit_turn tid t w
      | Some (ClassTask t) => class_turn tid t w
      | None => None
      end
  | Expire tid =>
      match w_tasks w !! tid with
      | Some t => expire_turn tid t w
      | None => None
      end
  | Cancel tid =>
      match w_tasks w !! tid with
      | Some t => cancel_turn tid t w
      | None => None
      end
  | DropLease lid outcome =>
      match w_leases w !! lid with
      | Some lease => Some (release lid lease outcome w)
      | None => None
      end
  | StoreEnabled config =>
      match w_configuring w with
      | None =>
          Some (w <| w_enabled := br_enabled (cf_breakers config) |> <| w_configuring := Some config |>)
      | Some _ => None
      end
  | ApplyConfig =>
      match w_configuring w with
      | Some config => Some (wake true (w <| w_state ::= λ s, state_configure s config |> <| w_configuring := None |>))
      | None => None
      end
  end.

Fixpoint perform_all (actions : list Action) (w : World) : option World :=
  match actions with
  | [] => Some w
  | a :: actions =>
      match perform a w with
      | Some w => perform_all actions w
      | None => None
      end
  end.
