(* ===== verification/CbViews.v ===== *)
(** * What the operations of the admission state do

    The books of the admission runtime: the counters of each slot, the lanes
    and the identifiers.  Circuits, limits, statistics and configuration are
    outside of them.  Every operation of [CbRuntime] gets its effect on the
    books. *)

From stdpp Require Import countable gmap functions.
From S2P Require Import Prelude Bytes F64 CbConfig CbCircuit CbTypes CbPriority CbQueue CbRuntime CbTasks.

(** ** Counting the values of a map *)

Section count.
Context {V : Type} (P : V → bool).
Implicit Types (m : gmap Z V) (k : Z) (v : V).

Definition count (m : gmap Z V) : Z := Z.of_nat (size (filter (λ kv, P kv.2 = true) m)).

Lemma count_empty : count ∅ = 0.
Proof. unfold count. by rewrite map_filter_empty, map_size_empty. Qed.

Lemma count_insert_new m k v : m !! k = None → count (<[k:=v]> m) = count m + Z.b2z (P v).
Proof.
  intros Hk. unfold count. destruct (P v) eqn:Ep; cbn [Z.b2z].
  - rewrite map_filter_insert_True by done. rewrite map_size_insert_None; [lia|].
    apply map_lookup_filter_None. by left.
  - rewrite map_filter_insert_False by (cbn; by rewrite Ep). rewrite delete_id by done. lia.
Qed.

Lemma count_delete m k v : m !! k = Some v → count (delete k m) = count m - Z.b2z (P v).
Proof.
  intros Hk. rewrite <-(insert_delete_id m k v Hk) at 2.
  rewrite count_insert_new by apply lookup_delete_eq. lia.
Qed.

Lemma count_replace m k v v' : m !! k = Some v → count (<[k:=v']> m) = count m - Z.b2z (P v) + Z.b2z (P v').
Proof.
  intros Hk. rewrite <-insert_delete_eq, count_insert_new by apply lookup_delete_eq.
  by rewrite (count_delete m k v Hk).
Qed.

Lemma count_range m : 0 ≤ count m ≤ Z.of_nat (size m).
Proof.
  unfold count. split; [lia|]. apply inj_le, map_subseteq_size, map_filter_subseteq.
Qed.

Lemma count_pos m k v : m !! k = Some v → P v = true → 0 < count m.
Proof.
  intros Hk Hp. pose proof (count_delete m k v Hk). pose proof (count_range (delete k m)).
  rewrite Hp in *. cbn in *. lia.
Qed.
End count.

(** ** Removing the first match *)

Section remove_first.
Context {A : Type} (p : A → bool).
Implicit Types (l : list A) (x : A).

Lemma remove_first_Some l x rest : remove_first p l = Some (x, rest) → p x = true ∧ l ≡ₚ x :: rest.
Proof.
  revert rest. induction l as [|y l IH]; intros rest; cbn; [done|].
  destruct (p y) eqn:Ep; [by intros [= <- <-]|].
  destruct (remove_first p l) as [[z r]|]; [|done]. intros [= -> <-].
  destruct (IH r eq_refl) as [Hp Hl]. split; [done|]. rewrite Hl. apply perm_swap.
Qed.

Lemma remove_first_head l x rest y : remove_first p l = Some (x, rest) → head l = Some y → p y = false →
  head rest = Some y.
Proof.
  destruct l as [|z l]; cbn; [done|]. intros H [= ->] Hp. rewrite Hp in H.
  by destruct (remove_first p l) as [[? ?]|]; simplify_eq.
Qed.

Lemma remove_first_elem l x : x ∈ l → p x = true → (∀ y, y ∈ l → p y = true → y = x) →
  ∃ rest, remove_first p l = Some (x, rest).
Proof.
  intros Hin Hp Hu. destruct (remove_first p l) as [[y rest]|] eqn:E.
  - destruct (remove_first_Some _ _ _ E) as [Hy Hl]. exists rest.
    rewrite (Hu y); [done| |done]. rewrite Hl. by left.
  - exfalso. clear Hu. induction l as [|y l IH]; [by apply elem_of_nil in Hin|]. cbn in E.
    destruct (p y) eqn:Ep; [done|]. apply elem_of_cons in Hin as [->|Hin]; [congruence|].
    apply IH; [done|]. by destruct (remove_first p l) as [[? ?]|].
Qed.
End remove_first.

(** ** The counters of a slot *)

Definition active_of (s : RuntimeState) (slot : ScopeKey * ResourceKind) : option Z :=
  (λ sc, ss_active sc slot.2) <$> rs_scopes s !! slot.1.
Definition queued_of (s : RuntimeState) (slot : ScopeKey * ResourceKind) : option Z :=
  (λ sc, ss_queued sc slot.2) <$> rs_scopes s !! slot.1.

Definition slots (allocations : list Allocation) : list (ScopeKey * ResourceKind) := map al_slot allocations.

(** [f] on the slots of [allocations]. *)
Definition on_slots (allocations : list Allocation) (f : Z → Z) (slot : ScopeKey * ResourceKind) (n : Z) : Z :=
  if bool_decide (slot ∈ slots allocations) then f n else n.

(** A composite update leaves alone what the update of a slot leaves alone. *)
Lemma over_slots_frame {B} (π : ScopeState → B) g allocations s key :
  (∀ r sc, π (g r sc) = π sc) →
  π <$> rs_scopes (over_slots g allocations s) !! key = π <$> rs_scopes s !! key.
Proof.
  intros Hg. unfold over_slots. cbn [rs_scopes over]. generalize (rs_scopes s).
  induction allocations as [|a allocations IH]; intros scopes; cbn [foldl]; [done|]. rewrite IH.
  destruct (decide (al_scope a = key)) as [->|Hne].
  - rewrite lookup_alter_eq. destruct (scopes !! key); cbn; [by rewrite Hg|done].
  - by rewrite lookup_alter_ne.
Qed.

Lemma on_slots_nil f slot n : on_slots [] f slot n = n.
Proof. unfold on_slots. by rewrite bool_decide_eq_false_2 by apply not_elem_of_nil. Qed.

(** The head's slot is updated once, the others by the rest. *)
Lemma on_slots_cons a allocations f slot n : al_slot a ∉ slots allocations →
  on_slots (a :: allocations) f slot n =
  on_slots allocations f slot (if bool_decide (slot = al_slot a) then f n else n).
Proof.
  intros Hni. unfold on_slots, slots. cbn [map]. destruct (bool_decide_reflect (slot = al_slot a)) as [->|Hne].
  - rewrite bool_decide_eq_true_2 by (by left). by rewrite bool_decide_eq_false_2.
  - erewrite bool_decide_ext; [done|]. rewrite elem_of_cons. split; [by intros [?|?]|by right].
Qed.

Lemma over_slots_count (π : ScopeState → ResourceKind → Z) g f allocations s slot :
  (∀ r sc r', π (g r sc) r' = if bool_decide (r' = r) then f (π sc r') else π sc r') →
  NoDup (slots allocations) →
  (λ sc, π sc slot.2) <$> rs_scopes (over_slots g allocations s) !! slot.1
    = on_slots allocations f slot <$> ((λ sc, π sc slot.2) <$> rs_scopes s !! slot.1).
Proof.
  intros Hg. unfold over_slots. cbn [rs_scopes over]. generalize (rs_scopes s). destruct slot as [key r].
  cbn [fst snd]. induction allocations as [|a allocations IH]; intros scopes Hnd; cbn [foldl].
  - destruct (scopes !! key); [|done]. cbn. by rewrite on_slots_nil.
  - apply NoDup_cons in Hnd as [Hni Hnd]. rewrite IH by done.
    destruct (decide (al_scope a = key)) as [<-|Hne].
    + rewrite lookup_alter_eq. destruct (scopes !! al_scope a) as [sc|]; [|done]. cbn. f_equal.
      rewrite on_slots_cons, Hg by done. f_equal. erewrite bool_decide_ext; [done|].
      unfold al_slot. naive_solver.
    + rewrite lookup_alter_ne by done. destruct (scopes !! key) as [sc|]; [|done]. cbn. f_equal.
      rewrite on_slots_cons by done. by rewrite bool_decide_eq_false_2 by (unfold al_slot; naive_solver).
Qed.

Lemma over_active_spec f r sc r' :
  ss_active (over_active f r sc) r' = if bool_decide (r' = r) then f (ss_active sc r') else ss_active sc r'.
Proof.
  cbn. destruct (bool_decide_reflect (r' = r)) as [->|]; [apply fn_lookup_insert|by apply fn_lookup_insert_ne].
Qed.

Lemma over_queued_spec f r sc r' :
  ss_queued (over_queued f r sc) r' = if bool_decide (r' = r) then f (ss_queued sc r') else ss_queued sc r'.
Proof.
  cbn. destruct (bool_decide_reflect (r' = r)) as [->|]; [apply fn_lookup_insert|by apply fn_lookup_insert_ne].
Qed.

Lemma over_active_active f allocations s slot : NoDup (slots allocations) →
  active_of (over_slots (over_active f) allocations s) slot = on_slots allocations f slot <$> active_of s slot.
Proof. apply (over_slots_count ss_active). intros. apply over_active_spec. Qed.

Lemma over_queued_queued f allocations s slot : NoDup (slots allocations) →
  queued_of (over_slots (over_queued f) allocations s) slot = on_slots allocations f slot <$> queued_of s slot.
Proof. apply (over_slots_count ss_queued). intros. apply over_queued_spec. Qed.

Lemma over_active_queued f allocations s slot :
  queued_of (over_slots (over_active f) allocations s) slot = queued_of s slot.
Proof. unfold queued_of. by apply (over_slots_frame (λ sc, ss_queued sc slot.2)). Qed.

Lemma over_queued_active f allocations s slot :
  active_of (over_slots (over_queued f) allocations s) slot = active_of s slot.
Proof. unfold active_of. by apply (over_slots_frame (λ sc, ss_active sc slot.2)). Qed.

(** ** Operations outside of the books *)

(** The books of the priority classes. *)
Record same_classes (p p' : PriorityAdmissionState) : Prop := {
  sc_shared : ps_shared_active p' = ps_shared_active p;
  sc_active : ∀ c, ps_active p' c = ps_active p c;
  sc_queued : ∀ c, ps_queued p' c = ps_queued p c;
  sc_queues : ∀ c l, ps_queues p' c l = ps_queues p c l;
  sc_next : ps_next_waiter p' = ps_next_waiter p;
}.

Record same_books (s s' : RuntimeState) : Prop := {
  sb_active : ∀ slot, active_of s' slot = active_of s slot;
  sb_queued : ∀ slot, queued_of s' slot = queued_of s slot;
  sb_waiters : rs_waiters s' = rs_waiters s;
  sb_next : rs_next_waiter s' = rs_next_waiter s;
  sb_classes : same_classes (rs_priority s) (rs_priority s');
}.

#[export] Instance same_classes_preorder : PreOrder same_classes.
Proof.
  split; [done|]. intros p1 p2 p3 [] []. split; intros; etrans; eauto.
Qed.

#[export] Instance same_books_preorder : PreOrder same_books.
Proof.
  split; [done|]. intros s1 s2 s3 [] []. split; intros; etrans; eauto.
Qed.

(** Operations on statistics only. *)
Lemma same_books_reject s reason : same_books s (reject s reason).
Proof. done. Qed.

Lemma same_books_transition s from to : same_books s (record_transition s from to).
Proof. done. Qed.

Lemma same_books_attempt s allocations : same_books s (record_attempt s allocations).
Proof. unfold record_attempt. by case_match. Qed.

(** A circuit that is replaced. *)
Lemma same_books_circuit s key sc c : rs_scopes s !! key = Some sc →
  same_books s (s <| rs_scopes ::= insert key (sc <| ss_circuit := c |>) |>).
Proof.
  intros Hk. split; [intros [k r]..|done|done|done]; unfold active_of, queued_of; cbn;
    (destruct (decide (k = key)) as [->|]; [by rewrite lookup_insert_eq, Hk|by rewrite lookup_insert_ne]).
Qed.

Lemma same_books_begin s now keys probes : same_books s (begin_probes s now keys probes).1.
Proof.
  revert s probes. induction keys as [|key keys IH]; intros s probes; cbn [begin_probes]; [done|].
  destruct (rs_scopes s !! key) as [sc|] eqn:Hk; [|done]. destruct (ss_failure_enabled sc); cbn [negb]; [|apply IH].
  destruct (begin_probe _ _ _) as [c [[from to]|]]; (etrans; [|apply IH]).
  - etrans; [by apply (same_books_circuit s key sc c)|apply same_books_transition].
  - by apply (same_books_circuit s key sc c).
Qed.

Lemma same_books_admission s allocations now : same_books s (circuit_admission s allocations now).1.
Proof. unfold circuit_admission. case_match; [done|]. case_match; [apply same_books_begin|done]. Qed.

Lemma same_books_finish probes outcome now s keys : same_books s (foldl (finish_circuit probes outcome now) s keys).
Proof.
  revert s. induction keys as [|key keys IH]; intros s; cbn [foldl]; [done|]. etrans; [|apply IH].
  unfold finish_circuit. destruct (rs_scopes s !! key) as [sc|] eqn:Hk; [|done]. case_match; [done|].
  set (s1 := s <| rs_transition_sequence ::= _ |>). assert (same_books s s1) as H1 by done.
  destruct (finish _ _ _ _ _ _) as [c t].
  assert (same_books s (s1 <| rs_scopes ::= insert key (sc <| ss_circuit := c |>) |>)) as H2
    by (etrans; [exact H1|]; by apply same_books_circuit).
  destruct t as [[from to]|]; [|done]. etrans; [exact H2|]. apply same_books_transition.
Qed.

Lemma same_books_abandon s probes : same_books s (abandon_circuits s probes).
Proof.
  split; [intros [k r]..|done|done|done]; unfold active_of, queued_of, abandon_circuits; cbn [rs_scopes over];
    generalize (rs_scopes s); induction probes as [|key probes IH]; intros scopes; cbn [foldl]; try done;
    rewrite IH; cbn [fst snd];
    (destruct (decide (k = key)) as [->|]; [rewrite lookup_alter_eq; by destruct (scopes !! key)
                                           |by rewrite lookup_alter_ne]).
Qed.

(** The circuits after a lease ends. *)
Lemma same_books_outcome s probes allocations outcome now :
  same_books s (if bool_decide (outcome = Neutral) then abandon_circuits s probes
                else finish_circuits s probes allocations outcome now).
Proof.
  case_bool_decide; [apply same_books_abandon|]. unfold finish_circuits. case_match; [done|].
  apply same_books_finish.
Qed.
