(* ===== verification/CbInvariant.v ===== *)
(** * The books of admission balance

    The invariant that ties the counters and lanes of the admission state to
    the callers that wait and the leases that are held, and the rules by which
    the operations keep it. *)

From stdpp Require Import countable gmap functions.
From S2P Require Import Prelude Bytes F64 CbConfig CbCircuit CbTypes CbPriority CbQueue CbRuntime CbTasks CbViews.

(** ** Who holds and who waits *)

Definition holds (slot : ScopeKey * ResourceKind) (l : AdmissionLease) : bool :=
  bool_decide (slot ∈ slots (ls_allocations l)).

(** The places of a caller in the queues. *)
Definition ticket_of (t : Task) : option WaiterTicket :=
  match t with
  | GenericTask t => ad_ticket t
  | ClassTask _ => None
  end.

Definition class_ticket_of (t : Task) : option PriorityTicket :=
  match t with
  | GenericTask _ => None
  | ClassTask t => pk_ticket t
  end.

Definition allocations_of (t : Task) : list Allocation :=
  match t with
  | GenericTask t => ad_allocations t
  | ClassTask _ => global_request
  end.

Definition waits_for (slot : ScopeKey * ResourceKind) (t : Task) : bool :=
  (bool_decide (is_Some (ticket_of t)) || bool_decide (is_Some (class_ticket_of t)))
  && bool_decide (slot ∈ slots (allocations_of t)).

Definition holds_kind (c : PriorityClass) (k : PriorityLeaseKind) (l : AdmissionLease) : bool :=
  match ls_priority l with
  | Some p => bool_decide (pl_class p = c) && bool_decide (pl_kind p = k)
  | None => false
  end.

Definition holds_shared (l : AdmissionLease) : bool :=
  match ls_priority l with
  | Some p => bool_decide (pl_kind p = Shared)
  | None => false
  end.

Definition waits_in_class (c : PriorityClass) (t : Task) : bool :=
  match class_ticket_of t with
  | Some k => bool_decide (pt_class k = c)
  | None => false
  end.

Definition no_ticket (t : Task) : Prop := ticket_of t = None ∧ class_ticket_of t = None.

(** ** Well-formed callers and leases *)

Definition known (s : RuntimeState) (allocations : list Allocation) : Prop :=
  ∀ slot, slot ∈ slots allocations → is_Some (active_of s slot).

Definition task_ok (s : RuntimeState) (now : Z) (t : Task) : Prop :=
  match t with
  | GenericTask t =>
      NoDup (slots (ad_allocations t)) ∧ ad_key t = from_allocations (ad_allocations t) ∧
      ∀ k, ad_ticket t = Some k →
        tk_key k = ad_key t ∧ tk_id k < rs_next_waiter s ∧ tk_queued_at k ≤ now ∧ known s (ad_allocations t)
  | ClassTask t =>
      ∀ k, pk_ticket t = Some k →
        pt_class k = pk_class t ∧ pt_lane k = lane (pk_eligible t) ∧ pt_id k < ps_next_waiter (rs_priority s) ∧
        pt_queued_at k ≤ now
  end.

Definition lease_ok (s : RuntimeState) (l : AdmissionLease) : Prop :=
  NoDup (slots (ls_allocations l)) ∧ known s (ls_allocations l) ∧
  ∀ p, ls_priority l = Some p → ls_allocations l = global_request.

(** The waiter of a lane and the caller that waits. *)
Definition waiter_of (key : QueueKey) (w : Waiter) (t : Task) : Prop :=
  ticket_of t = Some (mkTicket (wt_id w) key (wt_queued_at w)) ∧ allocations_of t = wt_allocations w.

Definition class_waiter_of (c : PriorityClass) (l : Z) (k : PriorityTicket) (t : Task) : Prop :=
  class_ticket_of t = Some k ∧ pt_class k = c ∧ pt_lane k = l.

(** Some caller satisfies [Q]. *)
Definition some_task (T : gmap Z Task) (Q : Task → Prop) : Prop := ∃ tid t, T !! tid = Some t ∧ Q t.

(** No two callers have tickets with the same identifier. *)
Definition distinct_ids {K} (ticket : Task → option K) (id : K → Z) (T : gmap Z Task) : Prop :=
  ∀ tid t k tid' t' k', T !! tid = Some t → ticket t = Some k → T !! tid' = Some t' → ticket t' = Some k' →
    id k = id k' → tid = tid'.

(** ** The invariant *)

(** [n] bounds what has been issued so far. *)
Record books (n : Z) (s : RuntimeState) (now : Z) (T : gmap Z Task) (L : gmap Z AdmissionLease) : Prop := {
  b_active : ∀ slot k, active_of s slot = Some k → k = count (holds slot) L;
  b_queued : ∀ slot k, queued_of s slot = Some k → k = count (waits_for slot) T;
  b_tasks : ∀ tid t, T !! tid = Some t → task_ok s now t;
  b_leases : ∀ lid l, L !! lid = Some l → lease_ok s l;
  b_apart : ∀ tid t, T !! tid = Some t → L !! tid = None;
  b_lanes : ∀ key w, w ∈ lane_of (rs_waiters s) key ↔ some_task T (waiter_of key w);
  b_ids : distinct_ids ticket_of tk_id T;
  b_nodup : ∀ key, NoDup (map wt_id (lane_of (rs_waiters s) key));
  b_next : 0 < rs_next_waiter s ≤ n;
  b_size : Z.of_nat (size T) + Z.of_nat (size L) < n;
  b_max : n ≤ U64_MAX;
  b_global : is_Some (rs_scopes s !! Global);
  b_reserved : ∀ c, act_reserved (ps_active (rs_priority s) c) = count (holds_kind c Reserved) L;
  b_shared : ∀ c, act_shared (ps_active (rs_priority s) c) = count (holds_kind c Shared) L;
  b_shared_active : ps_shared_active (rs_priority s) = count holds_shared L;
  b_class_queued : ∀ c, ps_queued (rs_priority s) c = count (waits_in_class c) T;
  b_class_lanes : ∀ c l k, k ∈ ps_queues (rs_priority s) c l ↔ some_task T (class_waiter_of c l k);
  b_class_ids : distinct_ids class_ticket_of pt_id T;
  b_class_nodup : ∀ c l, NoDup (map pt_id (ps_queues (rs_priority s) c l));
  b_class_next : 0 < ps_next_waiter (rs_priority s) ≤ n;
}.

(** ** Steps that leave the books alone *)

Lemma known_mono s s' allocations : (∀ slot, is_Some (active_of s slot) → is_Some (active_of s' slot)) →
  known s allocations → known s' allocations.
Proof. intros Hs Hk slot Hin. by apply Hs, Hk. Qed.

Lemma task_ok_mono s s' now now' t : (∀ slot, is_Some (active_of s slot) → is_Some (active_of s' slot)) →
  rs_next_waiter s ≤ rs_next_waiter s' → ps_next_waiter (rs_priority s) ≤ ps_next_waiter (rs_priority s') →
  now ≤ now' → task_ok s now t → task_ok s' now' t.
Proof.
  intros Hs Hn Hp Ht. destruct t as [t|t]; cbn.
  - intros (Hnd & Hk & Hold). split_and!; [done..|]. intros k Hkt.
    destruct (Hold k Hkt) as (? & ? & ? & ?). split_and!; [done|lia|lia|by eapply known_mono].
  - intros Hold k Hkt. destruct (Hold k Hkt) as (? & ? & ? & ?). split_and!; [done|done|lia|lia].
Qed.

Lemma lease_ok_mono s s' l : (∀ slot, is_Some (active_of s slot) → is_Some (active_of s' slot)) →
  lease_ok s l → lease_ok s' l.
Proof. intros Hs (Hnd & Hk & Hp). split_and!; [done|by eapply known_mono|done]. Qed.

Lemma same_books_known s s' : same_books s s' → ∀ slot, is_Some (active_of s slot) → is_Some (active_of s' slot).
Proof. intros Hs slot. by rewrite (sb_active _ _ Hs). Qed.

Lemma known_scope s key r : is_Some (active_of s (key, r)) ↔ is_Some (rs_scopes s !! key).
Proof. unfold active_of. by rewrite fmap_is_Some. Qed.

Lemma books_same n s s' now T L : same_books s s' → books n s now T L → books n s' now T L.
Proof.
  intros Hs B. pose proof (same_books_known _ _ Hs) as Hk.
  destruct Hs as [Ha Hq Hw Hn [Hsh Hac Hqu Hqs Hnx]]. destruct B. split; try done.
  - intros slot k. rewrite Ha. eauto.
  - intros slot k. rewrite Hq. eauto.
  - intros tid t Ht. eapply task_ok_mono; [exact Hk|rewrite Hn; lia|rewrite Hnx; lia|reflexivity|eauto].
  - intros. eapply lease_ok_mono; eauto.
  - intros. rewrite Hw. eauto.
  - intros. rewrite Hw. eauto.
  - by rewrite Hn.
  - apply (known_scope s' Global Request). apply Hk. by apply known_scope.
  - intros. rewrite Hac. eauto.
  - intros. rewrite Hac. eauto.
  - by rewrite Hsh.
  - intros. rewrite Hqu. eauto.
  - intros. rewrite Hqs. eauto.
  - intros. rewrite Hqs. eauto.
  - by rewrite Hnx.
Qed.

Lemma books_later n n' s now now' T L : n ≤ n' ≤ U64_MAX → now ≤ now' → books n s now T L → books n' s now' T L.
Proof.
  intros Hn Ht B. destruct B. split; try done; try lia.
  intros tid t Htt. eapply task_ok_mono; [| | |exact Ht|eauto]; done || lia.
Qed.

(** ** Callers that come, go and move on *)

(** A caller that changes nothing of what the books say of it. *)
Definition same_ticket (t t' : Task) : Prop :=
  ticket_of t' = ticket_of t ∧ class_ticket_of t' = class_ticket_of t ∧
  (no_ticket t ∨ allocations_of t' = allocations_of t).

Lemma no_ticket_waits t : no_ticket t → (∀ slot, waits_for slot t = false) ∧ (∀ c, waits_in_class c t = false).
Proof. intros [H1 H2]. unfold waits_for, waits_in_class. rewrite H1, H2. by split. Qed.

Lemma same_ticket_waits t t' : same_ticket t t' →
  (∀ slot, waits_for slot t' = waits_for slot t) ∧ (∀ c, waits_in_class c t' = waits_in_class c t).
Proof.
  intros (H1 & H2 & Ha). unfold waits_for, waits_in_class. rewrite H1, H2. split; [|done].
  destruct Ha as [[-> ->]| -> ]; done.
Qed.

Lemma some_task_insert T tid t t' Q : T !! tid = Some t → (Q t ↔ Q t') → some_task (<[tid:=t']> T) Q ↔ some_task T Q.
Proof.
  intros Ht HQ. unfold some_task. split; intros (i & x & Hi & Hx); destruct (decide (i = tid)) as [->|Hne].
  - rewrite lookup_insert_eq in Hi. simplify_eq. exists tid, t. split; [done|by apply HQ].
  - rewrite lookup_insert_ne in Hi by done. eauto.
  - simplify_eq. exists tid, t'. rewrite lookup_insert_eq. split; [done|by apply HQ].
  - exists i, x. by rewrite lookup_insert_ne.
Qed.

Lemma some_task_delete T tid t Q : T !! tid = Some t → ¬ Q t → some_task (delete tid T) Q ↔ some_task T Q.
Proof.
  intros Ht HQ. unfold some_task. split; intros (i & x & Hi & Hx).
  - apply lookup_delete_Some in Hi as [_ Hi]. eauto.
  - exists i, x. rewrite lookup_delete_ne; [done|]. naive_solver.
Qed.

Lemma some_task_spawn T tid t Q : T !! tid = None → ¬ Q t → some_task (<[tid:=t]> T) Q ↔ some_task T Q.
Proof.
  intros Ht HQ. unfold some_task. split; intros (i & x & Hi & Hx).
  - apply lookup_insert_Some in Hi as [[_ ->]|[_ Hi]]; [done|eauto].
  - exists i, x. rewrite lookup_insert_ne; [done|]. naive_solver.
Qed.

Lemma distinct_ids_insert {K} (ticket : Task → option K) id T tid t t' : T !! tid = Some t → ticket t' = ticket t →
  distinct_ids ticket id T → distinct_ids ticket id (<[tid:=t']> T).
Proof.
  intros Ht He Hd i x k i' x' k' Hi Hx Hi' Hx' Hid.
  assert (∀ j y k, <[tid:=t']> T !! j = Some y → ticket y = Some k → ∃ z, T !! j = Some z ∧ ticket z = Some k) as Hl.
  { intros j y k0 [[<- <-]|[_ Hj]]%lookup_insert_Some Hy; [|eauto]. exists t. by rewrite <-He. }
  destruct (Hl _ _ _ Hi Hx) as (z & ? & ?), (Hl _ _ _ Hi' Hx') as (z' & ? & ?). by eapply Hd.
Qed.

Lemma distinct_ids_delete {K} (ticket : Task → option K) id T tid :
  distinct_ids ticket id T → distinct_ids ticket id (delete tid T).
Proof.
  intros Hd i x k i' x' k' [_ Hi]%lookup_delete_Some Hx [_ Hi']%lookup_delete_Some Hx' Hid. by eapply Hd.
Qed.

Lemma distinct_ids_spawn {K} (ticket : Task → option K) id T tid t : ticket t = None →
  distinct_ids ticket id T → distinct_ids ticket id (<[tid:=t]> T).
Proof.
  intros Ht Hd i x k i' x' k' [[_ <-]|[_ Hi]]%lookup_insert_Some Hx [[_ <-]|[_ Hi']]%lookup_insert_Some Hx' Hid;
    try congruence. by eapply Hd.
Qed.

Section callers.
Context (n : Z) (s : RuntimeState) (now : Z) (T : gmap Z Task) (L : gmap Z AdmissionLease).
Hypothesis B : books n s now T L.

Lemma books_move tid t t' : T !! tid = Some t → same_ticket t t' → task_ok s now t' →
  books n s now (<[tid:=t']> T) L.
Proof using B.
  intros Ht Hs Hok. pose proof (same_ticket_waits t t' Hs) as [Hw Hc]. destruct Hs as (H1 & H2 & Ha).
  destruct B. split; try done.
  - intros slot k Hk. rewrite (count_replace _ _ _ t) by done. rewrite Hw. rewrite (b_queued0 _ _ Hk). lia.
  - intros i x [[<- <-]|[_ Hi]]%lookup_insert_Some; eauto.
  - intros i x [[<- <-]|[_ Hi]]%lookup_insert_Some; eauto.
  - intros key w. rewrite b_lanes0. symmetry. apply (some_task_insert _ _ t); [done|]. unfold waiter_of.
    rewrite H1. destruct Ha as [[-> _]| -> ]; [by split; intros [? _]|done].
  - by apply (distinct_ids_insert _ _ _ _ t).
  - rewrite map_size_insert_Some by done. done.
  - intros c. rewrite (count_replace _ _ _ t) by done. rewrite Hc, b_class_queued0. lia.
  - intros c l k. rewrite b_class_lanes0. symmetry. apply (some_task_insert _ _ t); [done|].
    unfold class_waiter_of. by rewrite H2.
  - by apply (distinct_ids_insert _ _ _ _ t).
Qed.

Lemma books_leave tid t : T !! tid = Some t → no_ticket t → books n s now (delete tid T) L.
Proof using B.
  intros Ht Hn. pose proof (no_ticket_waits t Hn) as [Hw Hc]. destruct Hn as [H1 H2].
  destruct B. split; try done.
  - intros slot k Hk. rewrite (count_delete _ _ _ t) by done. rewrite Hw. rewrite (b_queued0 _ _ Hk). cbn. lia.
  - intros i x [_ Hi]%lookup_delete_Some; eauto.
  - intros i x [_ Hi]%lookup_delete_Some; eauto.
  - intros key w. rewrite b_lanes0. symmetry. apply (some_task_delete _ _ t); [done|]. intros [Hx _]. congruence.
  - by apply distinct_ids_delete.
  - rewrite map_size_delete, Ht. lia.
  - intros c. rewrite (count_delete _ _ _ t) by done. rewrite Hc, b_class_queued0. cbn. lia.
  - intros c l k. rewrite b_class_lanes0. symmetry. apply (some_task_delete _ _ t); [done|].
    intros [Hx _]. congruence.
  - by apply distinct_ids_delete.
Qed.

Lemma books_arrive tid t : T !! tid = None → L !! tid = None → no_ticket t → task_ok s now t → n + 1 ≤ U64_MAX →
  books (n + 1) s now (<[tid:=t]> T) L.
Proof using B.
  intros Ht HL Hn Hok Hmax. pose proof (no_ticket_waits t Hn) as [Hw Hc]. destruct Hn as [H1 H2].
  destruct B. split; try done; try lia.
  - intros slot k Hk. rewrite count_insert_new by done. rewrite Hw. rewrite (b_queued0 _ _ Hk). cbn. lia.
  - intros i x [[<- <-]|[_ Hi]]%lookup_insert_Some; eauto.
  - intros i x [[<- <-]|[_ Hi]]%lookup_insert_Some; eauto.
  - intros key w. rewrite b_lanes0. symmetry. apply some_task_spawn; [done|]. intros [Hx _]. congruence.
  - by apply distinct_ids_spawn.
  - rewrite map_size_insert_None by done. lia.
  - intros c. rewrite count_insert_new by done. rewrite Hc, b_class_queued0. cbn. lia.
  - intros c l k. rewrite b_class_lanes0. symmetry. apply some_task_spawn; [done|]. intros [Hx _]. congruence.
  - by apply distinct_ids_spawn.
Qed.
End callers.

(** ** Leaving a lane *)

Lemma lane_of_remove q k w rest key : remove_first (λ w, wt_id w =? tk_id k) (lane_of q (tk_key k)) = Some (w, rest) →
  lane_of (queue_remove q k).1 key = (if bool_decide (key = tk_key k) then rest else lane_of q key) ∧
  (queue_remove q k).2 = Some w.
Proof.
  intros E. unfold queue_remove. rewrite E. cbn [fst snd]. split; [|done]. unfold lane_of.
  destruct (bool_decide_reflect (key = tk_key k)) as [->|Hne].
  - destruct rest; cbn [is_empty]; [by rewrite lookup_delete_eq|by rewrite lookup_insert_eq].
  - destruct rest; cbn [is_empty]; [by rewrite lookup_delete_ne|by rewrite lookup_insert_ne].
Qed.

(** What is left of a sequence without repeated keys. *)
Lemma remove_first_rest {A} (p : A → bool) (f : A → Z) l x rest : remove_first p l = Some (x, rest) →
  NoDup (map f l) → NoDup (map f rest) ∧ ∀ y, y ∈ rest ↔ y ∈ l ∧ f y ≠ f x.
Proof.
  intros E Hnd. apply remove_first_Some in E as [_ Hl].
  assert (NoDup (f x :: map f rest)) as [Hx Hr]%NoDup_cons by (by rewrite Hl in Hnd).
  split; [done|]. intros y. rewrite Hl, elem_of_cons. split.
  - intros Hy. split; [by right|]. intros Heq. apply Hx. rewrite <-Heq. by apply list_elem_of_fmap_2.
  - intros [[->|Hy] Hne]; done.
Qed.

(** A saturating decrement of what is counted. *)
Lemma count_withdraw {V} (P : V → bool) m tid v : m !! tid = Some v → P v = true →
  saturating_sub64 (count P m) 1 = count P (delete tid m).
Proof.
  intros Hv Hp. rewrite (count_delete P m tid v Hv), Hp. pose proof (count_pos P m tid v Hv Hp).
  unfold saturating_sub64. cbn. lia.
Qed.

Lemma on_slots_withdraw {V} (P : ScopeKey * ResourceKind → V → bool) m tid v allocations :
  m !! tid = Some v → (∀ slot, P slot v = bool_decide (slot ∈ slots allocations)) → ∀ slot,
  on_slots allocations (λ n, saturating_sub64 n 1) slot (count (P slot) m) = count (P slot) (delete tid m).
Proof.
  intros Hv HP slot. unfold on_slots. destruct (bool_decide (slot ∈ slots allocations)) eqn:E.
  - by rewrite (count_withdraw _ _ _ v) by (rewrite ?HP; done).
  - rewrite (count_delete _ _ _ v) by done. rewrite HP, E. cbn. lia.
Qed.

Lemma books_find n s now T L tid t k : books n s now T L → T !! tid = Some t → ticket_of t = Some k →
  ∃ w rest, remove_first (λ w, wt_id w =? tk_id k) (lane_of (rs_waiters s) (tk_key k)) = Some (w, rest) ∧
    w = mkWaiter (tk_id k) (allocations_of t) (tk_queued_at k).
Proof.
  intros B Ht Hk. set (w := mkWaiter (tk_id k) (allocations_of t) (tk_queued_at k)).
  destruct (remove_first_elem (λ w, wt_id w =? tk_id k) (lane_of (rs_waiters s) (tk_key k)) w) as [rest Hr].
  - apply (b_lanes _ _ _ _ _ B). exists tid, t. split; [done|]. by destruct k.
  - apply Z.eqb_refl.
  - intros y Hy Hid%Z.eqb_eq. apply (b_lanes _ _ _ _ _ B) in Hy as (tid' & t' & Ht' & Hk' & Ha).
    assert (tid = tid') as <- by (by eapply (b_ids _ _ _ _ _ B)). assert (t' = t) as -> by congruence. rewrite Hk in Hk'. subst w.
    destruct y, k. cbn in *. by simplify_eq.
  - by exists w, rest.
Qed.

(** The waiters of the others are those with another identifier. *)
Lemma some_task_leave T tid t k y : T !! tid = Some t → ticket_of t = Some k → distinct_ids ticket_of tk_id T →
  some_task T (waiter_of (tk_key k) y) ∧ wt_id y ≠ tk_id k ↔ some_task (delete tid T) (waiter_of (tk_key k) y).
Proof.
  intros Ht Hk Hd. split.
  - intros [(i & x & Hi & Hx) Hne]. exists i, x. rewrite lookup_delete_ne; [done|].
    intros <-. destruct Hx as [Hx _]. assert (x = t) as -> by congruence. rewrite Hk in Hx.
    apply Hne. by injection Hx as ->.
  - intros (i & x & [Hne Hi]%lookup_delete_Some & Hx). split; [by exists i, x|]. intros Hid. destruct Hx as [Hx _].
    apply Hne. by apply (Hd tid t k i x _ Ht Hk Hi Hx).
Qed.

(** A caller that leaves with its ticket, if it has one. *)
Lemma books_withdraw n s now T L tid t : books n s now T L → T !! tid = Some t → class_ticket_of t = None →
  books n (withdraw s (ticket_of t)).1 now (delete tid T) L.
Proof.
  intros B Ht Hc. destruct (ticket_of t) as [k|] eqn:Hk; [|by apply (books_leave n s now T L B tid t)].
  destruct (books_find n s now T L tid t k B Ht Hk) as (w & rest & Hr & Hw).
  cbn [withdraw]. unfold remove_waiter.
  destruct (queue_remove (rs_waiters s) k) as [q removed] eqn:Eq.
  assert (Hl : ∀ key, lane_of q key = (if bool_decide (key = tk_key k) then rest else lane_of (rs_waiters s) key) ∧
      removed = Some w).
  { intros key. pose proof (lane_of_remove _ _ _ _ key Hr) as Hl. by rewrite Eq in Hl. }
  destruct (Hl []) as [_ ->]. cbn [fst].
  assert (Hal : wt_allocations w = allocations_of t) by (by rewrite Hw). rewrite Hal.
  assert (NoDup (slots (allocations_of t))) as Hnd.
  { pose proof (b_tasks _ _ _ _ _ B tid t Ht) as Hok. destruct t as [t|t]; [apply Hok|done]. }
  assert (∀ slot, waits_for slot t = bool_decide (slot ∈ slots (allocations_of t))) as Hwf
    by (intros; unfold waits_for; by rewrite Hk).
  set (s1 := s <| rs_waiters := q |>).
  assert (Hact : ∀ slot, active_of (over_slots (over_queued (λ n, saturating_sub64 n 1)) (allocations_of t) s1) slot
    = active_of s slot) by (intros; by rewrite over_queued_active).
  destruct B. split; try done.
  - intros slot m. rewrite Hact. eauto.
  - intros slot m. rewrite over_queued_queued by done.
    intros (m0 & Hm & ->)%fmap_Some. rewrite (b_queued0 slot m0 Hm).
    by apply (on_slots_withdraw waits_for T tid t).
  - intros i x [_ Hi]%lookup_delete_Some. apply (task_ok_mono s _ now now); [|done..|by eapply b_tasks0].
    intros slot. by rewrite Hact.
  - intros i x Hi. apply (lease_ok_mono s); [|by eapply b_leases0]. intros slot. by rewrite Hact.
  - intros i x [_ Hi]%lookup_delete_Some; eauto.
  - intros key y. cbn [rs_waiters over_slots over s1]. destruct (Hl key) as [-> _].
    case_bool_decide as Hkey.
    + subst key. rewrite (proj2 (remove_first_rest _ wt_id _ _ _ Hr (b_nodup0 _))), b_lanes0.
      rewrite Hw. by apply (some_task_leave _ _ t).
    + rewrite b_lanes0. symmetry. apply (some_task_delete _ _ t); [done|]. intros [Hx _]. rewrite Hk in Hx.
      simplify_eq.
  - by apply distinct_ids_delete.
  - intros key. cbn. destruct (Hl key) as [-> _]. case_bool_decide; [|done]. subst key.
    by eapply remove_first_rest.
  - rewrite map_size_delete, Ht. lia.
  - apply (known_scope _ Global Request). rewrite Hact. by apply known_scope.
  - intros c. rewrite (count_delete _ _ _ t) by done. cbn. rewrite b_class_queued0.
    unfold waits_in_class. rewrite Hc. cbn. lia.
  - intros c l y. cbn. rewrite b_class_lanes0. symmetry. apply (some_task_delete _ _ t); [done|].
    intros [Hx _]. congruence.
  - by apply distinct_ids_delete.
Qed.

(** ** Entering a lane *)

Lemma lane_of_push q k w key :
  lane_of (queue_push q k w) key = if bool_decide (key = tk_key k) then lane_of q key ++ [w] else lane_of q key.
Proof.
  unfold queue_push, lane_of. destruct (bool_decide_reflect (key = tk_key k)) as [->|Hne].
  - by rewrite lookup_insert_eq.
  - by rewrite lookup_insert_ne.
Qed.

Lemma some_task_enter T tid t t' Q : T !! tid = Some t → ¬ Q t →
  some_task (<[tid:=t']> T) Q ↔ some_task T Q ∨ Q t'.
Proof.
  intros Ht HQ. unfold some_task. split.
  - intros (i & x & [[<- <-]|[_ Hi]]%lookup_insert_Some & Hx); eauto.
  - intros [(i & x & Hi & Hx)|Hx].
    + exists i, x. rewrite lookup_insert_ne; [done|]. intros <-. by simplify_eq.
    + exists tid, t'. by rewrite lookup_insert_eq.
Qed.

Lemma distinct_ids_enter {K} (ticket : Task → option K) id T tid t' k : ticket t' = Some k →
  (∀ i x k', T !! i = Some x → ticket x = Some k' → id k' < id k) →
  distinct_ids ticket id T → distinct_ids ticket id (<[tid:=t']> T).
Proof.
  intros Hk Hlt Hd i x k1 i' x' k2 [[<- <-]|[_ Hi]]%lookup_insert_Some Hx [[<- <-]|[_ Hi']]%lookup_insert_Some Hx' Hid;
    [done|..|by eapply Hd].
  - pose proof (Hlt _ _ _ Hi' Hx'). simplify_eq. lia.
  - pose proof (Hlt _ _ _ Hi Hx). simplify_eq. lia.
Qed.

Lemma waiter_of_ticket key w t k : ticket_of t = Some k →
  waiter_of key w t ↔ key = tk_key k ∧ w = mkWaiter (tk_id k) (allocations_of t) (tk_queued_at k).
Proof.
  intros Hk. unfold waiter_of. rewrite Hk. destruct k, w. cbn. split.
  - intros [[= -> -> ->] ->]. done.
  - intros [-> [= -> -> ->]]. done.
Qed.

(** An increment of what is counted. *)
Lemma on_slots_enter {V} (P : ScopeKey * ResourceKind → V → bool) m m' allocations f : 
  (∀ k, 0 ≤ k < U64_MAX → f k = k + 1) → Z.of_nat (size m) < U64_MAX →
  (∀ slot, count (P slot) m' = count (P slot) m + Z.b2z (bool_decide (slot ∈ slots allocations))) → ∀ slot,
  on_slots allocations f slot (count (P slot) m) = count (P slot) m'.
Proof.
  intros Hf Hm HP slot. rewrite HP. unfold on_slots. pose proof (count_range (P slot) m).
  case_bool_decide; cbn; [|lia]. rewrite Hf by lia. lia.
Qed.

Lemma can_queue_known s allocations : can_queue s allocations = true → known s allocations.
Proof.
  unfold can_queue. rewrite forallb_forall. intros H slot (a & -> & Ha)%list_elem_of_fmap_1.
  specialize (H a (proj1 (list_elem_of_In _ _) Ha)). unfold scope_is_some_and in H. apply known_scope.
  by destruct (rs_scopes s !! al_scope a).
Qed.

Lemma can_admit_known s allocations : can_admit s allocations = true → known s allocations.
Proof.
  unfold can_admit. rewrite forallb_forall. intros H slot (a & -> & Ha)%list_elem_of_fmap_1.
  specialize (H a (proj1 (list_elem_of_In _ _) Ha)). unfold scope_is_some_and in H. apply known_scope.
  by destruct (rs_scopes s !! al_scope a).
Qed.

Lemma add64_count k : 0 ≤ k < U64_MAX → add64 k 1 = k + 1.
Proof. intros. apply add64_small. lia. Qed.

Lemma saturating_count k : 0 ≤ k < U64_MAX → saturating_add64 k 1 = k + 1.
Proof. intros. unfold saturating_add64. lia. Qed.

Lemma next_id_count k : 0 < k < U64_MAX → next_id k = k + 1.
Proof. intros. unfold next_id. rewrite add64_count by lia. lia. Qed.

Lemma books_enqueue n s now T L tid t t' : books n s now T L → T !! tid = Some (GenericTask t) → ad_ticket t = None →
  ad_allocations t' = ad_allocations t → ad_key t' = ad_key t →
  let k := mkTicket (rs_next_waiter s) (ad_key t) now in
  ad_ticket t' = Some k → can_queue s (ad_allocations t) = true → n + 1 ≤ U64_MAX →
  books (n + 1)
    (enqueue (s <| rs_next_waiter ::= next_id |>) k (mkWaiter (rs_next_waiter s) (ad_allocations t) now))
    now (<[tid:=GenericTask t']> T) L.
Proof.
  intros B Ht Hnt Hal Hky k Hk Hq Hmax. pose proof (can_queue_known _ _ Hq) as Hkn.
  pose proof (b_tasks _ _ _ _ _ B _ _ Ht) as (Hnd & Hkey & _).
  pose proof (b_next _ _ _ _ _ B) as Hn. pose proof (b_size _ _ _ _ _ B) as Hsz.
  set (w := mkWaiter (rs_next_waiter s) (ad_allocations t) now).
  assert (Hlt : ∀ i x k', T !! i = Some x → ticket_of x = Some k' → tk_id k' < rs_next_waiter s).
  { intros i x k' Hi Hx. pose proof (b_tasks _ _ _ _ _ B _ _ Hi) as Hok. destruct x as [x|x]; [|done].
    destruct Hok as (_ & _ & Hok). by apply Hok. }
  set (s' := enqueue _ k w).
  assert (Hnx : rs_next_waiter s' = rs_next_waiter s + 1) by (apply next_id_count; lia).
  assert (Hact : ∀ slot, active_of s' slot = active_of s slot)
    by exact (over_queued_active (λ n, add64 n 1) (ad_allocations t) (s <| rs_next_waiter ::= next_id |>)).
  assert (Hcount : ∀ slot, count (waits_for slot) (<[tid:=GenericTask t']> T)
    = count (waits_for slot) T + Z.b2z (bool_decide (slot ∈ slots (ad_allocations t)))).
  { intros slot. rewrite (count_replace _ _ _ (GenericTask t)) by done.
    unfold waits_for. cbn [ticket_of class_ticket_of allocations_of]. rewrite Hnt, Hk, Hal. cbn. lia. }
  assert (Hmono : ∀ i x, T !! i = Some x → task_ok s' now x).
  { intros i x Hi. apply (task_ok_mono s _ now now); [|rewrite Hnx; lia|done..|by eapply (b_tasks _ _ _ _ _ B)].
    intros slot. by rewrite Hact. }
  destruct B. split; try done; try lia.
  - intros slot m. rewrite Hact. eauto.
  - intros slot m. subst s'. unfold enqueue. cbn [wt_allocations w].
    intros (m0 & Hm & ->)%(eq_trans (eq_sym (over_queued_queued _ _ _ _ Hnd)))%fmap_Some.
    rewrite (b_queued0 slot m0 Hm). apply (on_slots_enter waits_for T); [apply add64_count|lia|done].
  - intros i x [[<- <-]|[_ Hi]]%lookup_insert_Some; [|by eapply Hmono].
    cbn [task_ok]. rewrite Hal, Hky. split_and!; [done..|].
    intros k0 Hk0. rewrite Hk in Hk0. simplify_eq.
    split_and!; [done|rewrite Hnx; cbn; lia|done|].
    apply (known_mono s); [|done]. intros slot. by rewrite Hact.
  - intros i x Hi. apply (lease_ok_mono s); [|by eapply b_leases0]. intros slot. by rewrite Hact.
  - intros i x [[<- _]|[_ Hi]]%lookup_insert_Some; eauto.
  - intros key y. change (rs_waiters s') with (queue_push (rs_waiters s) k w). rewrite lane_of_push.
    rewrite (some_task_enter _ _ (GenericTask t)); [|done|by intros [Hx _]; cbn in Hx; congruence].
    rewrite <-b_lanes0, (waiter_of_ticket _ _ _ k) by done. cbn [allocations_of]. rewrite Hal. fold w.
    case_bool_decide as Hkk; [rewrite elem_of_app, list_elem_of_singleton|]; clear -Hkk; tauto.
  - by apply (distinct_ids_enter _ _ _ _ _ k).
  - intros key. change (rs_waiters s') with (queue_push (rs_waiters s) k w). rewrite lane_of_push.
    case_bool_decide; [|done]. rewrite map_app. apply NoDup_app. split_and!; [done| |apply NoDup_singleton].
    intros id (y & -> & Hy)%list_elem_of_fmap_1 Hid%list_elem_of_singleton.
    apply b_lanes0 in Hy as (i & x & Hi & Hx & _). pose proof (Hlt _ _ _ Hi Hx). cbn in *. lia.
  - rewrite map_size_insert_Some by done. lia.
  - apply (known_scope _ Global Request). rewrite Hact. by apply known_scope.
  - intros c. rewrite (count_replace _ _ _ (GenericTask t)) by done. cbn. rewrite b_class_queued0. lia.
  - intros c l y. change (rs_priority s') with (rs_priority s). rewrite b_class_lanes0. symmetry.
    by apply (some_task_insert _ _ (GenericTask t)).
  - by apply (distinct_ids_insert _ _ _ _ (GenericTask t)).
  - change (rs_priority s') with (rs_priority s). lia.
Qed.

(** ** Leases *)

(** Which counter of a class a lease is in. *)
Lemma priority_admit_reserved q c k c' :
  act_reserved (ps_active (priority_admit q c k).1 c') =
  if bool_decide (c' = c) && bool_decide (k = Reserved) then saturating_add64 (act_reserved (ps_active q c')) 1
  else act_reserved (ps_active q c').
Proof.
  destruct (decide (c' = c)) as [->|Hne]; [rewrite bool_decide_eq_true_2 by done|rewrite bool_decide_eq_false_2 by done];
    destruct k; cbn; rewrite ?fn_lookup_insert, ?fn_lookup_insert_ne by done; done.
Qed.

Lemma priority_admit_shared q c k c' :
  act_shared (ps_active (priority_admit q c k).1 c') =
  if bool_decide (c' = c) && bool_decide (k = Shared) then saturating_add64 (act_shared (ps_active q c')) 1
  else act_shared (ps_active q c').
Proof.
  destruct (decide (c' = c)) as [->|Hne]; [rewrite bool_decide_eq_true_2 by done|rewrite bool_decide_eq_false_2 by done];
    destruct k; cbn; rewrite ?fn_lookup_insert, ?fn_lookup_insert_ne by done; done.
Qed.

Lemma priority_release_reserved q p c' :
  act_reserved (ps_active (priority_release q p) c') =
  if bool_decide (c' = pl_class p) && bool_decide (pl_kind p = Reserved)
  then saturating_sub64 (act_reserved (ps_active q c')) 1 else act_reserved (ps_active q c').
Proof.
  destruct p as [c k]. cbn [pl_class pl_kind].
  destruct (decide (c' = c)) as [->|Hne]; [rewrite bool_decide_eq_true_2 by done|rewrite bool_decide_eq_false_2 by done];
    destruct k; cbn; rewrite ?fn_lookup_insert, ?fn_lookup_insert_ne by done; done.
Qed.

Lemma priority_release_shared q p c' :
  act_shared (ps_active (priority_release q p) c') =
  if bool_decide (c' = pl_class p) && bool_decide (pl_kind p = Shared)
  then saturating_sub64 (act_shared (ps_active q c')) 1 else act_shared (ps_active q c').
Proof.
  destruct p as [c k]. cbn [pl_class pl_kind].
  destruct (decide (c' = c)) as [->|Hne]; [rewrite bool_decide_eq_true_2 by done|rewrite bool_decide_eq_false_2 by done];
    destruct k; cbn; rewrite ?fn_lookup_insert, ?fn_lookup_insert_ne by done; done.
Qed.

(** The state after a lease is granted, circuits and statistics aside. *)
Definition grant (s : RuntimeState) (l : AdmissionLease) : RuntimeState :=
  let s := increment_active s (ls_allocations l) in
  match ls_priority l with
  | Some p => s <| rs_priority ::= λ q, (priority_admit q (pl_class p) (pl_kind p)).1 |>
  | None => s
  end.

(** What granting does not touch. *)
Lemma grant_frame s l :
  (∀ slot, active_of (grant s l) slot = active_of (increment_active s (ls_allocations l)) slot) ∧
  (∀ slot, queued_of (grant s l) slot = queued_of s slot) ∧
  rs_waiters (grant s l) = rs_waiters s ∧ rs_next_waiter (grant s l) = rs_next_waiter s ∧
  ps_queued (rs_priority (grant s l)) = ps_queued (rs_priority s) ∧
  ps_queues (rs_priority (grant s l)) = ps_queues (rs_priority s) ∧
  ps_next_waiter (rs_priority (grant s l)) = ps_next_waiter (rs_priority s).
Proof.
  unfold grant. destruct (ls_priority l) as [[c []]|]; split_and!; try done;
    intros slot; apply (over_active_queued (λ n, add64 n 1) (ls_allocations l) s slot).
Qed.

Lemma grant_active s l slot : NoDup (slots (ls_allocations l)) →
  active_of (grant s l) slot = on_slots (ls_allocations l) (λ n, add64 n 1) slot <$> active_of s slot.
Proof. intros Hnd. destruct (grant_frame s l) as [-> _]. by apply over_active_active. Qed.

Lemma grant_priority s l :
  rs_priority (grant s l) =
  match ls_priority l with
  | Some p => (priority_admit (rs_priority s) (pl_class p) (pl_kind p)).1
  | None => rs_priority s
  end.
Proof. unfold grant. by destruct (ls_priority l). Qed.

Lemma is_Some_fmap_on {A B} (f : A → B) (o : option A) : is_Some o → is_Some (f <$> o).
Proof. by rewrite fmap_is_Some. Qed.

Lemma books_grant n s now T L lid l : books n s now T L → T !! lid = None → L !! lid = None → lease_ok s l →
  n + 1 ≤ U64_MAX → books (n + 1) (grant s l) now T (<[lid:=l]> L).
Proof.
  intros B HT HL Hok Hmax. pose proof (grant_frame s l) as (_ & Hq & Hw & Hn & Hcq & Hcl & Hcn).
  assert (Hmono : ∀ slot, is_Some (active_of s slot) → is_Some (active_of (grant s l) slot))
    by (intros; rewrite grant_active by apply Hok; by apply is_Some_fmap_on).
  pose proof (b_size _ _ _ _ _ B) as Hsz.
  assert (Hcount : ∀ P : AdmissionLease → bool, 0 ≤ count P L < U64_MAX)
    by (intros P; pose proof (count_range P L); lia).
  destruct B. split; rewrite ?Hw, ?Hn, ?Hcn; try done; try lia.
  - intros slot k. rewrite grant_active by apply Hok. intros (m & Hm & ->)%fmap_Some.
    rewrite (b_active0 _ _ Hm). apply (on_slots_enter holds L); [apply add64_count|lia|].
    intros. by rewrite count_insert_new.
  - intros slot k. rewrite Hq. eauto.
  - intros tid t Ht. apply (task_ok_mono s _ now now); rewrite ?Hn, ?Hcn; [done..|by eapply b_tasks0].
  - intros i x [[<- <-]|[_ Hi]]%lookup_insert_Some; apply (lease_ok_mono s); try done. by eapply b_leases0.
  - intros tid t Ht. rewrite lookup_insert_ne; [by eapply b_apart0|]. intros <-. congruence.
  - rewrite map_size_insert_None by done. lia.
  - apply (known_scope _ Global Request), Hmono. by apply known_scope.
  - intros c. rewrite count_insert_new, <-b_reserved0, grant_priority by done. unfold holds_kind.
    destruct (ls_priority l) as [[c' k]|]; [|cbn; lia]. cbn [pl_class pl_kind]. rewrite priority_admit_reserved.
    rewrite (bool_decide_ext (c' = c) (c = c')) by done.
    destruct (bool_decide (c = c') && _); cbn; [rewrite saturating_count|]; rewrite ?b_reserved0; done || lia.
  - intros c. rewrite count_insert_new, <-b_shared0, grant_priority by done. unfold holds_kind.
    destruct (ls_priority l) as [[c' k]|]; [|cbn; lia]. cbn [pl_class pl_kind]. rewrite priority_admit_shared.
    rewrite (bool_decide_ext (c' = c) (c = c')) by done.
    destruct (bool_decide (c = c') && _); cbn; [rewrite saturating_count|]; rewrite ?b_shared0; done || lia.
  - rewrite count_insert_new, <-b_shared_active0, grant_priority by done. unfold holds_shared.
    destruct (ls_priority l) as [[c' []]|]; cbn [pl_kind Z.b2z]; [| |lia].
    + rewrite bool_decide_eq_false_2 by done. cbn. lia.
    + rewrite bool_decide_eq_true_2 by done. cbn. rewrite saturating_count; rewrite ?b_shared_active0; done || lia.
  - intros c. rewrite Hcq. eauto.
  - intros c l0 k. rewrite Hcl. eauto.
  - intros c l0. rewrite Hcl. eauto.
Qed.

(** The state after a lease is given back, circuits aside. *)
Definition give_back (s : RuntimeState) (l : AdmissionLease) : RuntimeState :=
  let s := decrement_active s (ls_allocations l) in
  match ls_priority l with
  | Some p => s <| rs_priority ::= λ q, priority_release q p |>
  | None => s
  end.

Lemma give_back_frame s l :
  (∀ slot, active_of (give_back s l) slot = active_of (decrement_active s (ls_allocations l)) slot) ∧
  (∀ slot, queued_of (give_back s l) slot = queued_of s slot) ∧
  rs_waiters (give_back s l) = rs_waiters s ∧ rs_next_waiter (give_back s l) = rs_next_waiter s ∧
  ps_queued (rs_priority (give_back s l)) = ps_queued (rs_priority s) ∧
  ps_queues (rs_priority (give_back s l)) = ps_queues (rs_priority s) ∧
  ps_next_waiter (rs_priority (give_back s l)) = ps_next_waiter (rs_priority s).
Proof.
  unfold give_back. destruct (ls_priority l) as [[c []]|]; split_and!; try done;
    intros slot; apply (over_active_queued (λ n, saturating_sub64 n 1) (ls_allocations l) s slot).
Qed.

Lemma give_back_active s l slot : NoDup (slots (ls_allocations l)) →
  active_of (give_back s l) slot = on_slots (ls_allocations l) (λ n, saturating_sub64 n 1) slot <$> active_of s slot.
Proof. intros Hnd. destruct (give_back_frame s l) as [-> _]. by apply over_active_active. Qed.

Lemma give_back_priority s l :
  rs_priority (give_back s l) =
  match ls_priority l with
  | Some p => priority_release (rs_priority s) p
  | None => rs_priority s
  end.
Proof. unfold give_back. by destruct (ls_priority l). Qed.

Lemma books_give_back n s now T L lid l : books n s now T L → L !! lid = Some l →
  books n (give_back s l) now T (delete lid L).
Proof.
  intros B HL. pose proof (give_back_frame s l) as (_ & Hq & Hw & Hn & Hcq & Hcl & Hcn).
  pose proof (b_leases _ _ _ _ _ B _ _ HL) as Hok.
  assert (Hmono : ∀ slot, is_Some (active_of s slot) → is_Some (active_of (give_back s l) slot))
    by (intros; rewrite give_back_active by apply Hok; by apply is_Some_fmap_on).
  assert (Hkind : ∀ (P : AdmissionLease → bool) m, m = count P L →
    (if P l then saturating_sub64 m 1 else m) = count P (delete lid L)).
  { intros P m ->. destruct (P l) eqn:E; [by apply (count_withdraw _ _ _ l)|].
    rewrite (count_delete _ _ _ l), E by done. cbn. lia. }
  destruct B. split; rewrite ?Hw, ?Hn, ?Hcn; try done; try lia.
  - intros slot k. rewrite give_back_active by apply Hok. intros (m & Hm & ->)%fmap_Some.
    rewrite (b_active0 _ _ Hm). by apply (on_slots_withdraw holds L lid l).
  - intros slot k. rewrite Hq. eauto.
  - intros tid t Ht. apply (task_ok_mono s _ now now); rewrite ?Hn, ?Hcn; [done..|by eapply b_tasks0].
  - intros i x [_ Hi]%lookup_delete_Some; apply (lease_ok_mono s); [done|]. by eapply b_leases0.
  - intros tid t Ht. rewrite lookup_delete_None. right. by eapply b_apart0.
  - rewrite map_size_delete, HL. lia.
  - apply (known_scope _ Global Request), Hmono. by apply known_scope.
  - intros c. rewrite <-(Hkind _ _ (b_reserved0 c)), give_back_priority. unfold holds_kind.
    destruct (ls_priority l) as [p|]; [|done]. rewrite priority_release_reserved.
    by rewrite (bool_decide_ext (pl_class p = c) (c = pl_class p)).
  - intros c. rewrite <-(Hkind _ _ (b_shared0 c)), give_back_priority. unfold holds_kind.
    destruct (ls_priority l) as [p|]; [|done]. rewrite priority_release_shared.
    by rewrite (bool_decide_ext (pl_class p = c) (c = pl_class p)).
  - rewrite <-(Hkind _ _ b_shared_active0), give_back_priority. unfold holds_shared.
    by destruct (ls_priority l) as [[c' []]|].
  - intros c. rewrite Hcq. eauto.
  - intros c l0 k. rewrite Hcl. eauto.
  - intros c l0. rewrite Hcl. eauto.
Qed.

(** A lease that ends, with its outcome. *)
Lemma books_release n s now T L lid l outcome : books n s now T L → L !! lid = Some l →
  books n (release_state s (ls_allocations l) (ls_probes l) (ls_priority l) outcome now) now T (delete lid L).
Proof.
  intros B HL. eapply books_same; [|by eapply books_give_back]. unfold release_state, give_back.
  destruct (ls_priority l); apply same_books_outcome.
Qed.

(** ** Configuration *)

(** A scope keeps its counters; a new one starts at zero. *)
Definition kept {A} (z : A) (old new : option A) : Prop := new = old ∨ old = None ∧ new = Some z.

Lemma reconfigure_counts s config slot :
  kept 0 (active_of s slot) (active_of (state_configure s config) slot) ∧
  kept 0 (queued_of s slot) (queued_of (state_configure s config) slot).
Proof.
  unfold state_configure, active_of, queued_of, kept. destruct slot as [key r]. cbn [fst snd].
  destruct (resolve_scopes config) as [configured retry].
  assert (Hm : let m := merge reconfigure_scope (rs_scopes s) configured !! key in
    let a := λ sc, ss_active sc r in let q := λ sc, ss_queued sc r in
    kept 0 (a <$> rs_scopes s !! key) (a <$> m) ∧ kept 0 (q <$> rs_scopes s !! key) (q <$> m)).
  { cbn zeta. rewrite lookup_merge. unfold reconfigure_scope, kept.
    destruct (rs_scopes s !! key) as [sc|], (configured !! key) as [sc'|]; cbn; try (by split; left);
      (case_match; cbn; split; first [by left | by right]). }
  case_match; cbn; [rewrite lookup_fmap, <-!option_fmap_compose|]; exact Hm.
Qed.

Lemma kept_count {A} (old new : option Z) (k : Z) (P : A → bool) (m : gmap Z A) : kept 0 old new →
  (∀ k, old = Some k → k = count P m) → (old = None → count P m = 0) → new = Some k → k = count P m.
Proof. intros [->|[Ho ->]] H1 H0; [apply H1|]. intros [= <-]. symmetry. by apply H0. Qed.

Lemma count_none {V} (P : V → bool) (m : gmap Z V) : (∀ k v, m !! k = Some v → P v = false) → count P m = 0.
Proof.
  intros H. unfold count. replace (filter _ m) with (∅ : gmap Z V); [by rewrite map_size_empty|].
  symmetry. apply map_empty. intros k. apply map_lookup_filter_None. right. intros v Hk. cbn. by rewrite (H k v Hk).
Qed.

Lemma books_configure n s now T L config : books n s now T L → books n (state_configure s config) now T L.
Proof.
  intros B. pose proof (reconfigure_counts s config) as Hc.
  assert (Hmono : ∀ slot, is_Some (active_of s slot) → is_Some (active_of (state_configure s config) slot)).
  { intros slot [k Hk]. destruct (proj1 (Hc slot)) as [->|[? _]]; [by exists k|congruence]. }
  assert (Hrest : rs_waiters (state_configure s config) = rs_waiters s ∧
    rs_next_waiter (state_configure s config) = rs_next_waiter s ∧
    same_classes (rs_priority s) (rs_priority (state_configure s config))).
  { unfold state_configure. destruct (resolve_scopes config). by case_match. }
  destruct Hrest as (Hw & Hn & [Hsh Hac Hqu Hqs Hnx]).
  destruct B. split; rewrite ?Hw, ?Hn, ?Hsh, ?Hnx; try done.
  - intros slot k. apply (kept_count _ _ _ _ _ (proj1 (Hc slot))); [by apply b_active0|].
    intros Hno. apply count_none. intros lid l Hl. unfold holds. apply bool_decide_eq_false. intros Hin.
    destruct (b_leases0 _ _ Hl) as (_ & Hk & _). destruct (Hk _ Hin). congruence.
  - intros slot k. apply (kept_count _ _ _ _ _ (proj2 (Hc slot))); [by apply b_queued0|].
    intros Hno. apply count_none. intros tid t Ht. apply not_true_is_false. intros Hwt.
    assert (is_Some (active_of s slot)) as [? Hs].
    { unfold waits_for in Hwt. apply andb_prop in Hwt as [Htk Hin%bool_decide_eq_true].
      pose proof (b_tasks0 _ _ Ht) as Hok. destruct t as [t|t]; cbn in *.
      - destruct Hok as (_ & _ & Hok). destruct (ad_ticket t) as [k0|]; [|done]. by apply (Hok k0).
      - apply list_elem_of_singleton in Hin as ->. by apply known_scope. }
    revert Hs Hno. unfold active_of, queued_of. by destruct (rs_scopes s !! slot.1).
  - intros tid t Ht. apply (task_ok_mono s _ now now); rewrite ?Hn, ?Hnx; [done..|by eapply b_tasks0].
  - intros i x Hi. apply (lease_ok_mono s); [done|]. by eapply b_leases0.
  - apply (known_scope _ Global Request), Hmono. by apply known_scope.
  - intros. rewrite Hac. eauto.
  - intros. rewrite Hac. eauto.
  - intros. rewrite Hqu. eauto.
  - intros. rewrite Hqs. eauto.
  - intros. rewrite Hqs. eauto.
Qed.
