(* ===== verification/CbSystem.v ===== *)
(** * Every step of admission keeps the books

    The invariant of [CbInvariant] over the transition system of [CbTasks]:
    the sections of the two admission loops, cancellation, expiry, release
    and configuration. *)

From stdpp Require Import countable gmap functions.
From S2P Require Import Prelude Bytes F64 CbConfig CbCircuit CbTypes CbPriority CbQueue CbRuntime CbTasks CbViews.
From S2P Require Import CbInvariant.

(** ** The books of the priority queues

    Entering and leaving the lanes of the priority classes keeps the
    invariant of [CbInvariant]. *)

Lemma set_queue_queues q c l x c' l' :
  ps_queues (set_queue q c l x) c' l' =
  if bool_decide (c' = c) && bool_decide (l' = l) then x else ps_queues q c' l'.
Proof.
  cbn. destruct (decide (c' = c)) as [->|Hc].
  - rewrite fn_lookup_insert, (bool_decide_eq_true_2 (c = c)) by done. cbn [andb].
    case_bool_decide as Hl; [subst; apply fn_lookup_insert|by apply fn_lookup_insert_ne].
  - rewrite fn_lookup_insert_ne by done. by rewrite bool_decide_eq_false_2.
Qed.

Lemma global_request_nodup : NoDup (slots global_request).
Proof. apply NoDup_singleton. Qed.

(** ** Leaving *)

Lemma some_class_leave T tid t k y : T !! tid = Some t → class_ticket_of t = Some k →
  distinct_ids class_ticket_of pt_id T →
  let Q := class_waiter_of (pt_class k) (pt_lane k) y in
  some_task T Q ∧ pt_id y ≠ pt_id k ↔ some_task (delete tid T) Q.
Proof.
  intros Ht Hk Hd Q. split.
  - intros [(i & x & Hi & Hx) Hne]. exists i, x. rewrite lookup_delete_ne; [done|].
    intros <-. destruct Hx as [Hx _]. assert (x = t) as -> by congruence. rewrite Hk in Hx.
    apply Hne. by injection Hx as ->.
  - intros (i & x & [Hne Hi]%lookup_delete_Some & Hx). split; [by exists i, x|]. intros Hid. destruct Hx as [Hx _].
    apply Hne. by apply (Hd tid t k i x y Ht Hk Hi Hx).
Qed.

Lemma books_class_find n s now T L tid t k : books n s now T L → T !! tid = Some t → class_ticket_of t = Some k →
  ∃ rest, remove_first (λ x, pt_id x =? pt_id k) (ps_queues (rs_priority s) (pt_class k) (pt_lane k)) = Some (k, rest).
Proof.
  intros B Ht Hk. apply remove_first_elem.
  - apply (b_class_lanes _ _ _ _ _ B). by exists tid, t.
  - apply Z.eqb_refl.
  - intros y Hy Hid%Z.eqb_eq. apply (b_class_lanes _ _ _ _ _ B) in Hy as (tid' & t' & Ht' & Hk' & _).
    assert (tid' = tid) as -> by (by eapply (b_class_ids _ _ _ _ _ B)). congruence.
Qed.

(** The priority state without a waiter. *)
Lemma priority_remove_spec q k rest :
  remove_first (λ x, pt_id x =? pt_id k) (ps_queues q (pt_class k) (pt_lane k)) = Some (k, rest) →
  ∃ q', priority_remove q k = (q', Some k) ∧ ps_shared_active q' = ps_shared_active q ∧ ps_active q' = ps_active q ∧
    ps_next_waiter q' = ps_next_waiter q ∧
    (∀ c, ps_queued q' c = if bool_decide (c = pt_class k) then saturating_sub64 (ps_queued q c) 1 else ps_queued q c) ∧
    ∀ c l, ps_queues q' c l =
      if bool_decide (c = pt_class k) && bool_decide (l = pt_lane k) then rest else ps_queues q c l.
Proof.
  intros E. unfold priority_remove. rewrite E. eexists. split_and!; [done..| |].
  - intros c. cbn. case_bool_decide as Hc; [subst; apply fn_lookup_insert|by apply fn_lookup_insert_ne].
  - intros c l. apply set_queue_queues.
Qed.

Lemma books_class_withdraw n s now T L tid t : books n s now T L → T !! tid = Some t → ticket_of t = None →
  books n (priority_withdraw s (class_ticket_of t)).1 now (delete tid T) L.
Proof.
  intros B Ht Hg. destruct (class_ticket_of t) as [k|] eqn:Hk; [|by apply (books_leave n s now T L B tid t)].
  destruct (books_class_find n s now T L tid t k B Ht Hk) as [rest Hr].
  destruct (priority_remove_spec _ _ _ Hr) as (q' & Hq' & Hsh & Hac & Hnx & Hqu & Hqs).
  cbn [priority_withdraw]. unfold remove_priority_waiter. rewrite Hq'. cbn [fst].
  set (s1 := s <| rs_priority := q' |>).
  change (s1 <| rs_scopes ::= _ |>) with (over_slots (over_queued (λ n, saturating_sub64 n 1)) global_request s1).
  assert (Hal : allocations_of t = global_request) by (by destruct t).
  set (s' := over_slots _ global_request s1).
  assert (Hact : ∀ slot, active_of s' slot = active_of s slot)
    by exact (over_queued_active (λ n, saturating_sub64 n 1) global_request s1).
  assert (Hpr : rs_priority s' = q') by done.
  assert (Hwf : ∀ slot, waits_for slot t = bool_decide (slot ∈ slots global_request))
    by (intros; unfold waits_for; rewrite Hk, Hal; by rewrite orb_true_r).
  assert (Hwc : ∀ c, waits_in_class c t = bool_decide (c = pt_class k))
    by (intros; unfold waits_in_class; rewrite Hk; by apply bool_decide_ext).
  destruct B. split; rewrite ?Hpr, ?Hsh, ?Hnx; try done.
  - intros slot m. rewrite Hact. eauto.
  - intros slot m (m0 & Hm & ->)%(eq_trans (eq_sym (over_queued_queued _ _ _ _ global_request_nodup)))%fmap_Some.
    rewrite (b_queued slot m0 Hm). by apply (on_slots_withdraw waits_for T tid t).
  - intros i x [_ Hi]%lookup_delete_Some.
    apply (task_ok_mono s _ now now); rewrite ?Hpr, ?Hnx; [|done..|by eapply b_tasks]. intros slot. by rewrite Hact.
  - intros i x Hi. apply (lease_ok_mono s); [|by eapply b_leases]. intros slot. by rewrite Hact.
  - intros i x [_ Hi]%lookup_delete_Some; eauto.
  - intros key y. change (rs_waiters s') with (rs_waiters s). rewrite b_lanes. symmetry.
    apply (some_task_delete _ _ t); [done|]. intros [Hx _]. congruence.
  - by apply distinct_ids_delete.
  - rewrite map_size_delete, Ht. lia.
  - apply (known_scope _ Global Request). rewrite Hact. by apply known_scope.
  - by rewrite Hac.
  - by rewrite Hac.
  - intros c. rewrite Hqu, b_class_queued. case_bool_decide as Hc.
    + apply (count_withdraw _ _ _ t); [done|]. rewrite Hwc. by apply bool_decide_eq_true_2.
    + rewrite (count_delete _ _ _ t), Hwc, bool_decide_eq_false_2 by done. cbn. lia.
  - intros c l y. rewrite Hqs. destruct (bool_decide (c = pt_class k) && bool_decide (l = pt_lane k)) eqn:E.
    + apply andb_prop in E as [->%bool_decide_eq_true ->%bool_decide_eq_true].
      rewrite (proj2 (remove_first_rest _ pt_id _ _ _ Hr (b_class_nodup _ _))), b_class_lanes.
      by apply (some_class_leave _ _ t).
    + rewrite b_class_lanes. symmetry. apply (some_task_delete _ _ t); [done|]. intros (Hx & <- & <-).
      rewrite Hk in Hx. simplify_eq. rewrite !bool_decide_eq_true_2 in E by done. done.
  - by apply distinct_ids_delete.
  - intros c l. rewrite Hqs. destruct (bool_decide (c = pt_class k) && bool_decide (l = pt_lane k)) eqn:E; [|done].
    apply andb_prop in E as [->%bool_decide_eq_true ->%bool_decide_eq_true]. by eapply remove_first_rest.
Qed.

(** ** Entering *)

Lemma class_waiter_of_ticket c l y t k : class_ticket_of t = Some k →
  class_waiter_of c l y t ↔ c = pt_class k ∧ l = pt_lane k ∧ y = k.
Proof.
  intros Hk. unfold class_waiter_of. rewrite Hk. split.
  - by intros ([= ->] & -> & ->).
  - by intros (-> & -> & ->).
Qed.

Lemma priority_enqueue_spec q c eligible now : 0 < ps_next_waiter q < U64_MAX →
  let k := mkPriorityTicket (ps_next_waiter q) c (lane eligible) now in
  ∃ q', priority_enqueue q c eligible now = (q', k) ∧ ps_shared_active q' = ps_shared_active q ∧
    ps_active q' = ps_active q ∧ ps_next_waiter q' = ps_next_waiter q + 1 ∧
    (∀ c', ps_queued q' c' = if bool_decide (c' = c) then saturating_add64 (ps_queued q c') 1 else ps_queued q c') ∧
    ∀ c' l, ps_queues q' c' l =
      if bool_decide (c' = c) && bool_decide (l = lane eligible) then ps_queues q c' l ++ [k] else ps_queues q c' l.
Proof.
  intros Hn k. unfold priority_enqueue. eexists. split_and!; [done..| | |].
  - by apply next_id_count.
  - intros c'. cbn. case_bool_decide as Hc; [subst; apply fn_lookup_insert|by apply fn_lookup_insert_ne].
  - intros c' l. etrans; [apply set_queue_queues|]. cbn [pt_lane].
    destruct (bool_decide (c' = c) && bool_decide (l = lane eligible)) eqn:E; [|done].
    by apply andb_prop in E as [->%bool_decide_eq_true ->%bool_decide_eq_true].
Qed.

Lemma books_class_enqueue n s now T L tid t t' : books n s now T L → T !! tid = Some (ClassTask t) →
  pk_ticket t = None → pk_class t' = pk_class t → pk_eligible t' = pk_eligible t → n + 1 ≤ U64_MAX →
  let '(q', k) := priority_enqueue (rs_priority s) (pk_class t) (pk_eligible t) now in
  pk_ticket t' = Some k →
  books (n + 1)
    (s <| rs_priority := q' |> <| rs_scopes ::= alter (over_queued (λ n, saturating_add64 n 1) Request) Global |>)
    now (<[tid:=ClassTask t']> T) L.
Proof.
  intros B Ht Hnt Hcl Hel Hmax.
  pose proof (b_class_next _ _ _ _ _ B) as Hn. pose proof (b_size _ _ _ _ _ B) as Hsz.
  destruct (priority_enqueue_spec (rs_priority s) (pk_class t) (pk_eligible t) now ltac:(lia))
    as (q' & -> & Hsh & Hac & Hnx & Hqu & Hqs).
  set (k := mkPriorityTicket _ _ _ _) in *. intros Hk.
  set (s1 := s <| rs_priority := q' |>).
  change (s1 <| rs_scopes ::= _ |>) with (over_slots (over_queued (λ n, saturating_add64 n 1)) global_request s1).
  set (s' := over_slots _ global_request s1).
  assert (Hact : ∀ slot, active_of s' slot = active_of s slot)
    by exact (over_queued_active (λ n, saturating_add64 n 1) global_request s1).
  assert (Hpr : rs_priority s' = q') by done.
  assert (Hlt : ∀ i x k', T !! i = Some x → class_ticket_of x = Some k' → pt_id k' < ps_next_waiter (rs_priority s)).
  { intros i x k' Hi Hx. pose proof (b_tasks _ _ _ _ _ B _ _ Hi) as Hok. destruct x as [x|x]; [done|]. by apply Hok. }
  assert (Hcount : ∀ slot, count (waits_for slot) (<[tid:=ClassTask t']> T)
    = count (waits_for slot) T + Z.b2z (bool_decide (slot ∈ slots global_request))).
  { intros slot. rewrite (count_replace _ _ _ (ClassTask t)) by done.
    unfold waits_for. cbn [ticket_of class_ticket_of allocations_of]. rewrite Hnt, Hk. cbn. lia. }
  assert (Hnw : ∀ c l y, ¬ class_waiter_of c l y (ClassTask t)) by (intros c l y [Hx _]; cbn in Hx; congruence).
  assert (Hmono : ∀ i x, T !! i = Some x → task_ok s' now x).
  { intros i x Hi. apply (task_ok_mono s _ now now); rewrite ?Hpr, ?Hnx; [|done|lia|done|by eapply (b_tasks _ _ _ _ _ B)].
    intros slot. by rewrite Hact. }
  destruct B. split; rewrite ?Hpr, ?Hsh, ?Hnx; try done; try lia.
  - intros slot m. rewrite Hact. eauto.
  - intros slot m (m0 & Hm & ->)%(eq_trans (eq_sym (over_queued_queued _ _ _ _ global_request_nodup)))%fmap_Some.
    rewrite (b_queued slot m0 Hm). apply (on_slots_enter waits_for T); [apply saturating_count|lia|done].
  - intros i x [[<- <-]|[_ Hi]]%lookup_insert_Some; [|by eapply Hmono].
    cbn [task_ok]. intros k0 Hk0. rewrite Hk in Hk0. injection Hk0 as <-. rewrite Hcl, Hel, Hpr, Hnx.
    cbn [pt_class pt_lane pt_id pt_queued_at k]. split_and!; done || lia.
  - intros i x Hi. apply (lease_ok_mono s); [|by eapply b_leases]. intros slot. by rewrite Hact.
  - intros i x [[<- _]|[_ Hi]]%lookup_insert_Some; eauto.
  - intros key y. change (rs_waiters s') with (rs_waiters s). rewrite b_lanes. symmetry.
    by apply (some_task_insert _ _ (ClassTask t)).
  - by apply (distinct_ids_insert _ _ _ _ (ClassTask t)).
  - change (rs_next_waiter s') with (rs_next_waiter s). lia.
  - rewrite map_size_insert_Some by done. lia.
  - apply (known_scope _ Global Request). rewrite Hact. by apply known_scope.
  - by rewrite Hac.
  - by rewrite Hac.
  - intros c. rewrite Hqu, b_class_queued, (count_replace _ _ _ (ClassTask t)) by done.
    unfold waits_in_class. cbn [class_ticket_of]. rewrite Hnt, Hk. fold (waits_in_class c). cbn [pt_class k].
    rewrite (bool_decide_ext (pk_class t = c) (c = pk_class t)) by done. pose proof (count_range (waits_in_class c) T).
    case_bool_decide; cbn; [rewrite saturating_count|]; lia.
  - intros c l y. rewrite Hqs, (some_task_enter _ _ (ClassTask t)), (class_waiter_of_ticket _ _ _ _ k), <-b_class_lanes by done.
    cbn [pt_class pt_lane k]. destruct (bool_decide _ && bool_decide _) eqn:E.
    + apply andb_prop in E as [->%bool_decide_eq_true ->%bool_decide_eq_true].
      rewrite elem_of_app, list_elem_of_singleton. clear. tauto.
    + apply andb_false_iff in E as [E%bool_decide_eq_false|E%bool_decide_eq_false]; clear -E; tauto.
  - by apply (distinct_ids_enter _ _ _ _ _ k).
  - intros c l. rewrite Hqs. destruct (bool_decide _ && bool_decide _) eqn:E; [|done].
    rewrite map_app. apply NoDup_app. split_and!; [done| |apply NoDup_singleton].
    intros id (y & -> & Hy)%list_elem_of_fmap_1 Hid%list_elem_of_singleton.
    apply b_class_lanes in Hy as (i & x & Hi & Hx & _). pose proof (Hlt _ _ _ Hi Hx). cbn in *. lia.
Qed.

(** ** Deduplication *)

Lemma absorb_slots unique a unique' : absorb unique a = Some unique' → slots unique' = slots unique.
Proof.
  revert unique'. induction unique as [|x unique IH]; intros unique'; cbn; [done|].
  case_bool_decide as Hx.
  - intros [= <-]. cbn. f_equal. unfold al_slot in *. by destruct (al_limit a).
  - destruct (absorb unique a) as [u|]; [|done]. intros [= <-]. cbn. f_equal. by apply IH.
Qed.

Lemma absorb_none unique a : absorb unique a = None → al_slot a ∉ slots unique.
Proof.
  induction unique as [|x unique IH]; cbn; [intros _; apply not_elem_of_nil|].
  case_bool_decide as Hx; [done|]. destruct (absorb unique a); [done|]. intros _.
  apply not_elem_of_cons. split; [congruence|by apply IH].
Qed.

Lemma deduplicate_nodup allocations : NoDup (slots (deduplicate_allocations allocations)).
Proof.
  unfold deduplicate_allocations. set (step := λ unique a, _).
  assert (∀ acc, NoDup (slots acc) → NoDup (slots (foldl step acc allocations))) as H; [|apply H, NoDup_nil_2].
  induction allocations as [|a allocations IH]; intros acc Hacc; cbn [foldl]; [done|].
  apply IH. subst step. cbn beta. destruct (absorb acc a) as [u|] eqn:E; [by rewrite (absorb_slots _ _ _ E)|].
  unfold slots. rewrite map_app. apply NoDup_app. split_and!; [done| |apply NoDup_singleton].
  intros slot Hs Hs'%list_elem_of_singleton. subst slot. by apply (absorb_none _ _ E).
Qed.

Lemma start_task_ok s s' now call deadline : no_ticket (start_task s call deadline) ∧
  task_ok s' now (start_task s call deadline).
Proof.
  destruct call; (split; [done|]); cbn [start_task task_ok start_admit ad_allocations ad_key ad_ticket]; try done;
    (split_and!; [apply deduplicate_nodup|done..]).
Qed.

Lemma unprioritized_ok s now deadline : no_ticket (GenericTask (unprioritized deadline)) ∧
  task_ok s now (GenericTask (unprioritized deadline)).
Proof. split; [done|]. split_and!; [apply deduplicate_nodup|done..]. Qed.

(** ** The sections of [admit] *)

Lemma withdraw_active s ticket slot : active_of (withdraw s ticket).1 slot = active_of s slot.
Proof.
  destruct ticket as [k|]; [|done]. cbn. unfold remove_waiter. destruct (queue_remove _ _) as [q [w|]]; [|done].
  exact (over_queued_active (λ n, saturating_sub64 n 1) (wt_allocations w) (s <| rs_waiters := q |>) slot).
Qed.

(** What a section leaves behind when the caller returns [r]. *)
Definition books_after (n : Z) (s : RuntimeState) (now : Z) (T : gmap Z Task) (L : gmap Z AdmissionLease)
    (tid : Z) (r : Admission) : Prop :=
  books (n + 1) s now (delete tid T)
    (match r with
     | Ok (Some l) => <[tid:=l]> L
     | _ => L
     end).

Lemma books_next n s now T L : n + 1 ≤ U64_MAX → books n s now T L → books (n + 1) s now T L.
Proof. intros. apply (books_later n _ _ now); [lia|done|done]. Qed.

Section callers.
Context (n : Z) (s : RuntimeState) (now : Z) (T : gmap Z Task) (L : gmap Z AdmissionLease) (tid : Z).
Hypothesis B : books n s now T L.
Hypothesis Hmax : n + 1 ≤ U64_MAX.

(** Without a lease, only the place in the queue is given up. *)
Lemma books_return_err t s1 s2 e : T !! tid = Some t → class_ticket_of t = None →
  same_books s s1 → same_books (withdraw s1 (ticket_of t)).1 s2 → books_after n s2 now T L tid (Err e).
Proof using B Hmax.
  intros Ht Hc H1 H2. apply books_next; [done|]. eapply books_same; [exact H2|].
  apply books_withdraw; [|done..]. by eapply books_same.
Qed.

Lemma circuit_rejection_books t s1 retry_after s2 woken r : T !! tid = Some (GenericTask t) → same_books s s1 →
  circuit_rejection s1 (ad_ticket t) retry_after = (s2, woken, Some r) → books_after n s2 now T L tid r.
Proof using B Hmax.
  intros Ht H1. unfold circuit_rejection. destruct (withdraw s1 (ad_ticket t)) as [s3 removed] eqn:E.
  intros [= <- _ <-]. apply (books_return_err _ s1 _ _ Ht); [done..|]. cbn [ticket_of]. by rewrite E.
Qed.

Lemma admit_attempt_books t enabled s2 woken adm : T !! tid = Some (GenericTask t) →
  admit_attempt s enabled now (ad_allocations t) (ad_key t) (ad_ticket t) = (s2, woken, adm) →
  match adm with
  | None => s2 = s
  | Some r => books_after n s2 now T L tid r
  end.
Proof using B Hmax.
  intros Ht. unfold admit_attempt. destruct enabled; cbn [negb].
  2:{ intros [= <- _ <-]. by apply (books_return_err _ s _ (mkRejection ActiveLimit 0) Ht). }
  match goal with |- context [if negb ?b then _ else _] => destruct b end; cbn [negb]; [|by intros [= <- _ <-]].
  destruct (circuit_available s (ad_allocations t) now) as [[]|ra].
  2:{ intros E. unfold circuit_rejection in E. destruct adm as [r|].
      - by eapply circuit_rejection_books.
      - by destruct (withdraw s (ad_ticket t)). }
  match goal with |- context [if negb (?b && _) then _ else _] => destruct b end; cbn [negb andb];
    [|by intros [= <- _ <-]].
  destruct (can_admit s (ad_allocations t)) eqn:Hca; cbn [negb]; [|by intros [= <- _ <-]].
  pose proof (same_books_admission s (ad_allocations t) now) as Hs1.
  destruct (circuit_admission s (ad_allocations t) now) as [s1 [probes|ra]]; cbn [fst] in Hs1.
  2:{ intros E. unfold circuit_rejection in E. destruct adm as [r|].
      - by eapply circuit_rejection_books.
      - by destruct (withdraw s1 (ad_ticket t)). }
  assert (books n (withdraw s1 (ad_ticket t)).1 now (delete tid T) L) as B2
    by (apply (books_withdraw n s1 now T L tid (GenericTask t)); [by eapply books_same|done..]).
  assert (Hact : ∀ slot, active_of (withdraw s1 (ad_ticket t)).1 slot = active_of s slot)
    by (intros; by rewrite withdraw_active, (sb_active _ _ Hs1)).
  destruct (withdraw s1 (ad_ticket t)) as [s3 queued]. cbn [fst] in B2, Hact.
  set (s4 := match queued with Some _ => _ | None => _ end).
  assert (same_books s3 (record_attempt s4 (ad_allocations t))) as H4
    by (etrans; [|apply same_books_attempt]; subst s4; by destruct queued).
  intros [= <- _ <-]. unfold books_after.
  apply (books_grant _ (record_attempt s4 (ad_allocations t)) _ _ _ _ (mkLease (ad_allocations t) probes None));
    [by eapply books_same|apply lookup_delete_eq|by eapply (b_apart _ _ _ _ _ B)| |done].
  split_and!; [by apply (b_tasks _ _ _ _ _ B _ _ Ht)| |done].
  intros slot Hin. rewrite (sb_active _ _ H4), Hact. by apply (can_admit_known _ _ Hca).
Qed.

Lemma admit_expire_books t s2 woken r : T !! tid = Some (GenericTask t) →
  admit_expire s (ad_ticket t) (ad_exhausted t) = (s2, woken, r) → books_after n s2 now T L tid r.
Proof using B Hmax.
  intros Ht. unfold admit_expire. destruct (withdraw s (ad_ticket t)) as [s3 removed] eqn:E.
  intros [= <- _ <-]. apply (books_return_err _ s _ _ Ht); [done..|]. cbn [ticket_of]. by rewrite E.
Qed.

(** ** The sections of [admit_priority_global_request] *)

Lemma books_class_return t s1 s2 e : T !! tid = Some t → ticket_of t = None →
  same_books s s1 → same_books (priority_withdraw s1 (class_ticket_of t)).1 s2 → books_after n s2 now T L tid (Err e).
Proof using B Hmax.
  intros Ht Hc H1 H2. apply books_next; [done|]. eapply books_same; [exact H2|].
  apply books_class_withdraw; [|done..]. by eapply books_same.
Qed.

Lemma books_fallback t s1 deadline : T !! tid = Some t → books n s1 now (delete tid T) L →
  books (n + 1) s1 now (<[tid:=GenericTask (unprioritized deadline)]> T) L.
Proof using B Hmax.
  intros Ht B1. rewrite <-insert_delete_eq. destruct (unprioritized_ok s1 now deadline).
  apply books_arrive; [done|apply lookup_delete_eq|by eapply (b_apart _ _ _ _ _ B)|done..].
Qed.

Lemma priority_withdraw_active s0 ticket slot : active_of (priority_withdraw s0 ticket).1 slot = active_of s0 slot.
Proof using.
  destruct ticket as [k|]; [|done]. cbn. unfold remove_priority_waiter.
  destruct (priority_remove _ _) as [q [w|]]; [|done].
  exact (over_queued_active (λ n, saturating_sub64 n 1) global_request (s0 <| rs_priority := q |>) slot).
Qed.

Lemma same_books_wait s0 class queued_at : 
  same_books s0 (s0 <| rs_priority ::= λ p, record_queue_wait p class queued_at now |>).
Proof using. done. Qed.

Lemma priority_attempt_books t enabled s2 woken outcome : T !! tid = Some (ClassTask t) →
  priority_attempt s enabled now (pk_class t) (pk_eligible t) (pk_ticket t) = (s2, woken, outcome) →
  match outcome with
  | PrReturn r => books_after n s2 now T L tid r
  | PrFallback => books n s2 now (delete tid T) L
  | PrContinue => s2 = s
  end.
Proof using B Hmax.
  intros Ht. unfold priority_attempt.
  assert (books n (priority_withdraw s (pk_ticket t)).1 now (delete tid T) L) as B2
    by (by apply (books_class_withdraw n s now T L tid (ClassTask t))).
  destruct enabled; cbn [negb]; [|intros [= <- _ <-]; by apply books_next].
  destruct (ps_enabled (rs_priority s)); cbn [negb]; [|by intros [= <- _ <-]].
  destruct (rs_scopes s !! Global) as [global|].
  2:{ destruct (priority_withdraw s (pk_ticket t)) as [s3 removed]. intros [= <- _ <-].
      by apply books_next. }
  match goal with |- context [match ?b with true => _ | false => _ end] => destruct b end; [|by intros [= <- _ <-]].
  destruct (priority_can_admit _ _ _ _ _) as [kind|]; [|by intros [= <- _ <-]].
  assert (Hact : ∀ slot, active_of (priority_withdraw s (pk_ticket t)).1 slot = active_of s slot)
    by (intros; apply priority_withdraw_active).
  destruct (priority_withdraw s (pk_ticket t)) as [s3 queued]. cbn [fst] in B2, Hact.
  set (s4 := match queued with Some _ => _ | None => _ end).
  assert (same_books s3 s4) as H4 by (subst s4; by destruct queued).
  assert (books n s4 now (delete tid T) L) as B4 by (by eapply books_same).
  set (l := mkLease global_request [] (Some (mkPriorityLease (pk_class t) kind))).
  assert (lease_ok s4 l) as Hok.
  { split_and!; [apply global_request_nodup| |by intros p [= <-]].
    intros slot ->%list_elem_of_singleton. apply known_scope. apply (b_global _ _ _ _ _ B4). }
  pose proof (books_grant _ s4 _ _ _ tid l B4 (lookup_delete_eq _ _) (b_apart _ _ _ _ _ B _ _ Ht) Hok Hmax) as B5.
  destruct kind; intros [= <- _ <-]; exact B5.
Qed.

Lemma priority_queue_books t s2 r : T !! tid = Some (ClassTask t) → pk_ticket t = None →
  priority_queue s now (pk_class t) (pk_eligible t) = (s2, r) →
  match r with
  | inl (PrReturn r) => books_after n s2 now T L tid r
  | inl _ => s2 = s
  | inr k => ∀ t', pk_class t' = pk_class t → pk_eligible t' = pk_eligible t → pk_ticket t' = Some k →
      books (n + 1) s2 now (<[tid:=ClassTask t']> T) L
  end.
Proof using B Hmax.
  intros Ht Hnt. unfold priority_queue. destruct (ps_enabled (rs_priority s)); cbn [negb]; [|by intros [= <- <-]].
  assert (Herr : ∀ s0 e, same_books s s0 → books_after n s0 now T L tid (Err e)).
  { intros s0 e Hs0. apply (books_class_return _ s _ _ Ht); [done..|]. cbn [class_ticket_of]. by rewrite Hnt. }
  destruct (priority_queue_rejection_reason _ _) as [reason|]; [intros [= <- <-]; by apply Herr|].
  destruct (can_queue s global_request); cbn [negb]; [|intros [= <- <-]; by apply Herr].
  pose proof (books_class_enqueue n s now T L tid t) as He.
  destruct (priority_enqueue _ _ _ _) as [q k]. intros [= <- <-] t' Hc Hel Hk. by apply He.
Qed.

Lemma priority_expire_books t s2 woken r : T !! tid = Some (ClassTask t) →
  priority_expire s (pk_class t) (pk_ticket t) = (s2, woken, r) → books_after n s2 now T L tid r.
Proof using B Hmax.
  intros Ht. unfold priority_expire. destruct (priority_withdraw s (pk_ticket t)) as [s3 removed] eqn:E.
  intros [= <- _ <-]. apply (books_class_return _ s _ _ Ht); [done..|]. cbn [class_ticket_of]. by rewrite E.
Qed.
End callers.

(** ** Stages *)

Definition stage_has_ticket {K} (stage : Stage) (ticket : option K) : Prop :=
  match stage with
  | AtQueue _ => ticket = None
  | AtTimeout _ | AtWait _ _ => is_Some ticket
  | AtTop | AtAttempt _ => True
  end.

(** The notifications a caller has seen. *)
Definition stage_seen (stage : Stage) : option Z :=
  match stage with
  | AtTop => None
  | AtAttempt seen | AtQueue seen | AtTimeout seen | AtWait seen _ => Some seen
  end.

Definition stage_of (t : Task) : Stage :=
  match t with
  | GenericTask t => ad_stage t
  | ClassTask t => pk_stage t
  end.

Definition stage_ok (generation : Z) (t : Task) : Prop :=
  match t with
  | GenericTask t => stage_has_ticket (ad_stage t) (ad_ticket t)
  | ClassTask t => stage_has_ticket (pk_stage t) (pk_ticket t)
  end ∧
  ∀ seen, stage_seen (stage_of t) = Some seen → seen ≤ generation.

Definition stages_ok (generation : Z) (T : gmap Z Task) : Prop := ∀ tid t, T !! tid = Some t → stage_ok generation t.

Lemma stage_ok_mono g g' t : g ≤ g' → stage_ok g t → stage_ok g' t.
Proof. intros Hg [H1 H2]. split; [done|]. intros seen Hs. specialize (H2 _ Hs). lia. Qed.

Lemma stages_ok_mono g g' T : g ≤ g' → stages_ok g T → stages_ok g' T.
Proof. intros Hg HT tid t Ht. eapply stage_ok_mono; [done|by eapply HT]. Qed.

Lemma stages_ok_insert g T tid t : stages_ok g T → stage_ok g t → stages_ok g (<[tid:=t]> T).
Proof. intros HT Ht i x [[<- <-]|[_ Hi]]%lookup_insert_Some; [done|by eapply HT]. Qed.

Lemma stages_ok_delete g T tid : stages_ok g T → stages_ok g (delete tid T).
Proof. intros HT i x [_ Hi]%lookup_delete_Some. by eapply HT. Qed.

(** ** The invariant of the system *)

Record world_ok (n : Z) (w : World) : Prop := {
  wo_books : books n (w_state w) (w_now w) (w_tasks w) (w_leases w);
  wo_stages : stages_ok (w_generation w) (w_tasks w);
}.

Lemma wake_fields b w : w_state (wake b w) = w_state w ∧ w_now (wake b w) = w_now w ∧ w_tasks (wake b w) = w_tasks w ∧
  w_leases (wake b w) = w_leases w ∧ w_enabled (wake b w) = w_enabled w ∧ w_configuring (wake b w) = w_configuring w ∧
  w_generation w ≤ w_generation (wake b w).
Proof. destruct b; cbn; split_and!; done || lia. Qed.

Lemma world_ok_wake n b w : world_ok n w → world_ok n (wake b w).
Proof.
  intros [HB HS]. destruct (wake_fields b w) as (Hs & Hn & Ht & Hl & _ & _ & Hg).
  split; [by rewrite Hs, Hn, Ht, Hl|]. rewrite Ht. by eapply stages_ok_mono.
Qed.

(** A caller that returns. *)
Lemma world_ok_finish n w s tid r b : stages_ok (w_generation w) (w_tasks w) →
  books_after n s (w_now w) (w_tasks w) (w_leases w) tid r →
  world_ok (n + 1) (finish_task tid r (wake b (w <| w_state := s |>))).
Proof.
  intros HS HB. set (w1 := wake b (w <| w_state := s |>)).
  destruct (wake_fields b (w <| w_state := s |>)) as (Hs & Hn & Ht & Hl & _ & _ & Hg). fold w1 in Hs, Hn, Ht, Hl, Hg.
  cbn in Hs, Hn, Ht, Hl, Hg. split.
  - unfold finish_task. unfold books_after in HB. destruct r as [[l|]|e]; cbn; by rewrite Hs, Hn, Ht, Hl.
  - assert (stages_ok (w_generation w1) (delete tid (w_tasks w1))) as H
      by (rewrite Ht; apply stages_ok_delete; by eapply stages_ok_mono).
    unfold finish_task. by destruct r as [[l|]|e].
Qed.

Lemma world_ok_return n w s tid r : stages_ok (w_generation w) (w_tasks w) →
  books_after n s (w_now w) (w_tasks w) (w_leases w) tid r →
  world_ok (n + 1) (finish_task tid r (w <| w_state := s |>)).
Proof. apply (world_ok_finish n w s tid r false). Qed.

(** A caller that moves on. *)
Lemma world_ok_set n w s tid t : stages_ok (w_generation w) (w_tasks w) → stage_ok (w_generation w) t →
  books n s (w_now w) (<[tid:=t]> (w_tasks w)) (w_leases w) → world_ok n (set_task tid t (w <| w_state := s |>)).
Proof. intros HS Ht HB. split; [exact HB|by apply stages_ok_insert]. Qed.

Lemma world_ok_move n w tid t t' : world_ok n w → n + 1 ≤ U64_MAX → w_tasks w !! tid = Some t → same_ticket t t' →
  (∀ s now, task_ok s now t → task_ok s now t') → stage_ok (w_generation w) t' →
  world_ok (n + 1) (set_task tid t' w).
Proof.
  intros [HB HS] Hmax Ht Hs Hok Hst. apply (world_ok_set _ w (w_state w)); [done..|].
  apply books_next; [done|]. eapply books_move; [done..|]. apply Hok. by eapply (b_tasks _ _ _ _ _ HB).
Qed.

(** The section of an attempt that decides nothing. *)
Lemma world_ok_pass n w tid t t' woken : world_ok n w → n + 1 ≤ U64_MAX → w_tasks w !! tid = Some t →
  same_ticket t t' → (∀ s now, task_ok s now t → task_ok s now t') → stage_ok (w_generation w) t' →
  world_ok (n + 1) (set_task tid t' (wake woken (w <| w_state := w_state w |>))).
Proof.
  intros Hw Hmax Ht Hs Hok Hst. replace (w <| w_state := w_state w |>) with w by (by destruct w).
  destruct (wake_fields woken w) as (_ & _ & Htk & _ & _ & _ & Hg).
  apply (world_ok_move n _ tid t); [by apply world_ok_wake|done|by rewrite Htk|done..|by eapply stage_ok_mono].
Qed.

Lemma admit_turn_ok n w w' tid t : world_ok n w → n + 1 ≤ U64_MAX → w_tasks w !! tid = Some (GenericTask t) →
  admit_turn tid t w = Some w' → world_ok (n + 1) w'.
Proof.
  intros Hw Hmax Ht. pose proof Hw as [HB HS]. pose proof (HS _ _ Ht) as [Hst Hseen]. unfold admit_turn.
  cbn [stage_of] in Hseen. destruct (ad_stage t) as [|seen|seen|seen|seen until] eqn:Es; cbn in Hst, Hseen.
  - intros [= <-]. apply (world_ok_move n w tid (GenericTask t)); [done..| |done|by split; [|intros ? [= <-]]].
    split_and!; [done..|by right].
  - destruct (admit_attempt _ _ _ _ _ _) as [[s2 woken] adm] eqn:Ea. intros [= <-].
    pose proof (admit_attempt_books _ _ _ _ _ _ HB Hmax _ _ _ _ _ Ht Ea) as H2.
    destruct adm as [r|]; [by apply world_ok_finish|]. subst s2.
    apply (world_ok_pass n w tid (GenericTask t)); [done..|by split_and!; [..|right]|done|].
    split; cbn; destruct (ad_ticket t); first [done | by eexists | by intros ? [= <-]; apply Hseen].
  - destruct (admit_queue _ _ _ _ _) as [s2 r] eqn:Ea. intros [= <-]. unfold admit_queue in Ea.
    destruct (can_queue (w_state w) (ad_allocations t)) eqn:Hq; cbn [negb] in Ea; simplify_eq.
    + apply world_ok_set; [done|by split; [eexists|intros ? [= <-]; apply Hseen]|].
      by apply (books_enqueue n _ _ _ _ _ t).
    + apply (world_ok_return n w _ tid (Err unavailable_rejection)); [done|].
      apply (books_return_err _ _ _ _ _ _ HB Hmax _ (w_state w) _ _ Ht); [done..|]. cbn [ticket_of]. by rewrite Hst.
  - destruct (ad_ticket t) as [k|] eqn:Hk; [|by destruct Hst]. case_match.
    + destruct (admit_expire _ _ _) as [[s2 woken] r] eqn:Ea. intros [= <-]. apply world_ok_finish; [done|].
      rewrite <-Hk in Ea. by eapply admit_expire_books.
    + intros [= <-]. apply (world_ok_move n w tid (GenericTask t)); [done..| |done|].
      * split_and!; [done..|by right].
      * split; [cbn; rewrite Hk; by eexists|intros ? [= <-]; by apply Hseen].
  - case_match; [|done]. intros [= <-]. apply (world_ok_move n w tid (GenericTask t)); [done..| |done|done].
    split_and!; [done..|by right].
Qed.

Lemma class_turn_ok n w w' tid t : world_ok n w → n + 1 ≤ U64_MAX → w_tasks w !! tid = Some (ClassTask t) →
  class_turn tid t w = Some w' → world_ok (n + 1) w'.
Proof.
  intros Hw Hmax Ht. pose proof Hw as [HB HS]. pose proof (HS _ _ Ht) as [Hst Hseen]. unfold class_turn.
  cbn [stage_of] in Hseen. destruct (pk_stage t) as [|seen|seen|seen|seen until] eqn:Es; cbn in Hst, Hseen.
  - intros [= <-]. apply (world_ok_move n w tid (ClassTask t)); [done..| |done|by split; [|intros ? [= <-]]].
    split_and!; [done..|by right].
  - destruct (priority_attempt _ _ _ _ _ _) as [[s2 woken] out] eqn:Ea. intros [= <-].
    pose proof (priority_attempt_books _ _ _ _ _ _ HB Hmax _ _ _ _ _ Ht Ea) as H2.
    destruct out as [r| |]; [by apply world_ok_finish| |].
    + assert (world_ok (n + 1) (set_task tid (GenericTask (unprioritized (pk_deadline t))) (w <| w_state := s2 |>)))
        as H3 by (apply world_ok_set; [done|done|by eapply (books_fallback n (w_state w))]).
      by destruct woken; [apply (world_ok_wake _ true) in H3|].
    + subst s2. apply (world_ok_pass n w tid (ClassTask t)); [done..|by split_and!; [..|right]|done|].
      split; cbn; destruct (pk_ticket t); first [done | by eexists | by intros ? [= <-]; apply Hseen].
  - destruct (priority_queue _ _ _ _) as [s2 r] eqn:Ea. intros [= <-].
    pose proof (priority_queue_books _ _ _ _ _ _ HB Hmax _ _ _ Ht Hst Ea) as H2.
    destruct r as [[r| |]|k]; [by apply world_ok_return| | |].
    1-2: subst s2; apply world_ok_set; [done|done|]; eapply (books_fallback n (w_state w)); [done..|];
      eapply books_leave; [done..|by split].
    apply world_ok_set; [done|by split; [eexists|intros ? [= <-]; apply Hseen]|by apply H2].
  - destruct (pk_ticket t) as [k|] eqn:Hk; [|by destruct Hst].
    destruct (priority_timeout _ _ _ _ _) as [timeout|].
    + case_match.
      * destruct (priority_expire _ _ _) as [[s2 woken] r] eqn:Ea. intros [= <-]. apply world_ok_finish; [done|].
        rewrite <-Hk in Ea. by eapply priority_expire_books.
      * intros [= <-]. apply (world_ok_move n w tid (ClassTask t)); [done..| |done|].
        -- split_and!; [done..|by right].
        -- split; [cbn; rewrite Hk; by eexists|intros ? [= <-]; by apply Hseen].
    + destruct (priority_withdraw _ _) as [s2 removed] eqn:Ea. intros [= <-].
      apply (world_ok_finish n w s2 tid (Err unavailable_rejection)); [done|].
      apply (books_class_return _ _ _ _ _ _ HB Hmax _ (w_state w) _ _ Ht); [done..|]. cbn [class_ticket_of].
      by rewrite Hk, Ea.
  - case_match; [|done]. intros [= <-]. apply (world_ok_move n w tid (ClassTask t)); [done..| |done|done].
    split_and!; [done..|by right].
Qed.

Lemma expire_turn_ok n w w' tid t : world_ok n w → n + 1 ≤ U64_MAX → w_tasks w !! tid = Some t →
  expire_turn tid t w = Some w' → world_ok (n + 1) w'.
Proof.
  intros [HB HS] Hmax Ht. destruct t as [t|t]; cbn; (case_match; [|done]).
  - destruct (admit_expire _ _ _) as [[s2 woken] r] eqn:Ea. intros [= <-]. apply world_ok_finish; [done|].
    by eapply admit_expire_books.
  - destruct (priority_expire _ _ _) as [[s2 woken] r] eqn:Ea. intros [= <-]. apply world_ok_finish; [done|].
    by eapply priority_expire_books.
Qed.

Lemma cancel_turn_ok n w w' tid t : world_ok n w → n + 1 ≤ U64_MAX → w_tasks w !! tid = Some t →
  cancel_turn tid t w = Some w' → world_ok (n + 1) w'.
Proof.
  intros [HB HS] Hmax Ht. pose (e := mkRejection ActiveLimit 0). destruct t as [t|t]; cbn; (case_match; [|done]).
  - destruct (withdraw _ _) as [s2 removed] eqn:Ea. intros [= <-].
    apply (world_ok_finish n w s2 tid (Err e)); [done|].
    apply (books_return_err _ _ _ _ _ _ HB Hmax _ (w_state w) _ _ Ht); [done..|]. cbn [ticket_of]. by rewrite Ea.
  - destruct (priority_withdraw _ _) as [s2 removed] eqn:Ea. intros [= <-].
    apply (world_ok_finish n w s2 tid (Err e)); [done|].
    apply (books_class_return _ _ _ _ _ _ HB Hmax _ (w_state w) _ _ Ht); [done..|]. cbn [class_ticket_of]. by rewrite Ea.
Qed.

Lemma perform_ok n w w' a : world_ok n w → n + 1 ≤ U64_MAX → perform a w = Some w' → world_ok (n + 1) w'.
Proof.
  intros Hw Hmax. pose proof Hw as [HB HS]. destruct a; cbn [perform].
  - destruct (Z.leb_spec 0 elapsed); [|done]. intros [= <-]. split; [|done].
    eapply (books_later n _ _ (w_now w)); [lia|cbn; lia|done].
  - destruct (w_tasks w !! tid) eqn:Ht; [done|]. destruct (w_leases w !! tid) eqn:Hl; [done|].
    destruct (w_enabled w); cbn [negb]; intros [= <-]; [|split; [by apply books_next|done]].
    destruct (start_task_ok (w_state w) (w_state w) (w_now w) call deadline) as [Hn Hok].
    apply (world_ok_set _ w (w_state w)); [done|by destruct call|]. by apply books_arrive.
  - destruct (w_tasks w !! tid) as [[t|t]|] eqn:Ht; [by apply admit_turn_ok|by apply class_turn_ok|done].
  - destruct (w_tasks w !! tid) as [t|] eqn:Ht; [by apply expire_turn_ok|done].
  - destruct (w_tasks w !! tid) as [t|] eqn:Ht; [by apply cancel_turn_ok|done].
  - destruct (w_leases w !! lid) as [l|] eqn:Hl; [|done]. intros [= <-]. apply (world_ok_wake _ true).
    split; [|done]. apply books_next; [done|]. by apply books_release.
  - destruct (w_configuring w); [done|]. intros [= <-]. split; [by apply books_next|done].
  - destruct (w_configuring w) as [config|]; [|done]. intros [= <-]. apply (world_ok_wake _ true).
    split; [|done]. apply books_next; [done|]. by apply books_configure.
Qed.
