(* ===== verification/CbAdmission.v ===== *)
(** * What admission guarantees about slots

    Theorems about every world the admission system can reach: its counters
    are what is held and what waits, a lease is granted only within the
    limits, and never past an older caller that could be admitted. *)

From stdpp Require Import countable gmap functions.
From S2P Require Import Prelude Bytes Text F64 CbConfig CbResources CbCircuit CbTypes CbPriority CbQueue CbRuntime CbTasks.
From S2P Require Import CbViews CbInvariant CbSystem.
From Stdlib Require Import Floats.SpecFloat.

(** ** The start *)

(** Scopes nobody has used yet. *)
Definition unused (scopes : gmap ScopeKey ScopeState) : Prop :=
  map_Forall (λ _ sc, ∃ limits failure_enabled, sc = scope_new limits failure_enabled) scopes.

Lemma insert_scopes_unused r scope key defaults global_auto failure_enabled entries scopes : unused scopes →
  unused (insert_scopes r scope key defaults global_auto failure_enabled entries scopes) ∧
  (is_Some (scopes !! Global) →
   is_Some (insert_scopes r scope key defaults global_auto failure_enabled entries scopes !! Global)).
Proof.
  unfold insert_scopes. revert scopes. induction entries as [|e entries IH]; intros scopes Hs; cbn [foldl]; [done|].
  set (m := <[_:=_]> scopes). assert (unused m) as Hm by (apply map_Forall_insert_2; [by eexists _, _|done]).
  destruct (IH m Hm) as [Hu Hg]. split; [done|]. intros Hsome. apply Hg. subst m.
  destruct (decide (key e.1 = Global)) as [->|]; [by rewrite lookup_insert_eq|by rewrite lookup_insert_ne].
Qed.

Lemma resolve_scopes_unused config : unused (resolve_scopes config).1 ∧ is_Some ((resolve_scopes config).1 !! Global).
Proof.
  unfold resolve_scopes. cbn [fst]. set (m0 := {[Global := _]}).
  assert (unused m0) as H0 by (apply map_Forall_singleton; by eexists _, _).
  match goal with |- context [insert_scopes ?r PoolScope ?k ?d ?g ?f ?e ?m] => set (m1 := m) end.
  destruct (insert_scopes_unused (cf_resources config) RouteScope Route (br_route_defaults (cf_breakers config))
    (scope_defaults (cf_resources config) GlobalScope (br_global (cf_breakers config)) None)
    (fl_enabled (br_failure (cf_breakers config))) (cf_routes config) m0 H0) as [H1 G1].
  fold m1 in H1, G1. destruct (insert_scopes_unused (cf_resources config) PoolScope Pool
    (br_pool_defaults (cf_breakers config))
    (scope_defaults (cf_resources config) GlobalScope (br_global (cf_breakers config)) None)
    (fl_enabled (br_failure (cf_breakers config))) (cf_pools config) m1 H1) as [H2 G2].
  split; [done|]. apply G2, G1. unfold m0. by rewrite lookup_singleton_eq.
Qed.

Lemma state_from_config_scopes config : rs_scopes (state_from_config config) = (resolve_scopes config).1.
Proof. unfold state_from_config. by destruct (resolve_scopes config). Qed.

Lemma unused_counts s slot k : unused (rs_scopes s) →
  (active_of s slot = Some k → k = 0) ∧ (queued_of s slot = Some k → k = 0).
Proof.
  intros Hu. unfold active_of, queued_of. destruct (rs_scopes s !! slot.1) as [sc|] eqn:E; [|done].
  destruct (Hu _ _ E) as (l & f & ->). cbn. by split; intros [= <-].
Qed.

Lemma world_new_ok config now : world_ok 1 (world_new config now).
Proof.
  pose proof (resolve_scopes_unused config) as [Hu Hg]. rewrite <-state_from_config_scopes in Hu, Hg.
  assert (Hrest : rs_waiters (state_from_config config) = ∅ ∧ rs_next_waiter (state_from_config config) = 1 ∧
    ∃ cfg l, rs_priority (state_from_config config) = priority_from_config cfg l).
  { unfold state_from_config. destruct (resolve_scopes config). split_and!; [done..|]. by eexists _, _. }
  destruct Hrest as (Hw & Hn & cfg & l & Hp).
  split; cbn; [|by intros tid t Ht%lookup_empty_Some]. split; rewrite ?Hw, ?Hn, ?Hp; try done.
  - intros slot k Hk. rewrite count_empty. exact (proj1 (unused_counts _ slot k Hu) Hk).
  - intros slot k Hk. rewrite count_empty. exact (proj2 (unused_counts _ slot k Hu) Hk).
  - intros key w. split; [by intros Hx%elem_of_nil|by intros (tid & t & Ht%lookup_empty_Some & _)].
  - intros key. apply NoDup_nil_2.
  - intros c l' k. split; [by intros Hx%elem_of_nil|by intros (tid & t & Ht%lookup_empty_Some & _)].
  - intros c l'. apply NoDup_nil_2.
Qed.

Lemma perform_all_ok acts n w w' : world_ok n w → n + len acts ≤ U64_MAX → perform_all acts w = Some w' →
  world_ok (n + len acts) w'.
Proof.
  revert n w. induction acts as [|a acts IH]; intros n w Hw Hmax; cbn [perform_all].
  - intros [= <-]. change (len []) with 0. by rewrite Z.add_0_r.
  - rewrite len_cons in *. pose proof (len_nonneg acts). destruct (perform a w) as [w1|] eqn:E; [|done]. intros Hp.
    replace (n + (1 + len acts)) with (n + 1 + len acts) by lia.
    eapply (IH (n + 1) w1); [by eapply perform_ok; [|lia|]|lia|done].
Qed.

(** What the system reaches from its start, as long as identifiers last. *)
Definition reachable (config : Config) (start : Z) (actions : list Action) (w : World) : Prop :=
  perform_all actions (world_new config start) = Some w ∧ len actions < U64_MAX.

Lemma reachable_ok config start actions w : reachable config start actions w → ∃ n, world_ok n w.
Proof.
  intros [Hp Hl]. exists (1 + len actions). eapply perform_all_ok; [apply world_new_ok|lia|done].
Qed.

(** ** Theorems *)

(** C6 (invariant). Whatever callers, cancellations, timeouts, releases and
    reconfigurations happened: the active counter of every slot is the number
    of leases that hold it, its queued counter is the number of callers that
    wait for it, the counters of every priority class are its leases, and the
    lanes contain exactly the callers that are waiting, so that nothing leaks. *)
Theorem admission_books_balance config start actions w :
  reachable config start actions w →
  (∀ key scope r, rs_scopes (w_state w) !! key = Some scope →
     ss_active scope r = count (holds (key, r)) (w_leases w) ∧
     ss_queued scope r = count (waits_for (key, r)) (w_tasks w)) ∧
  (∀ c, act_reserved (ps_active (rs_priority (w_state w)) c) = count (holds_kind c Reserved) (w_leases w) ∧
        act_shared (ps_active (rs_priority (w_state w)) c) = count (holds_kind c Shared) (w_leases w) ∧
        ps_queued (rs_priority (w_state w)) c = count (waits_in_class c) (w_tasks w)) ∧
  (∀ key wt, wt ∈ lane_of (rs_waiters (w_state w)) key ↔ some_task (w_tasks w) (waiter_of key wt)) ∧
  (∀ c l k, k ∈ ps_queues (rs_priority (w_state w)) c l ↔ some_task (w_tasks w) (class_waiter_of c l k)).
Proof.
  intros [n [B _]]%reachable_ok. destruct B. split_and!; try done.
  intros key scope r Hk. split; [apply b_active|apply b_queued]; unfold active_of, queued_of; cbn; by rewrite Hk.
Qed.

(** ** Grants *)

(** The attempt by which a caller gets its lease. *)
Definition grants (w : World) (tid : Z) (l : AdmissionLease) : Prop :=
  (∃ t s woken, w_tasks w !! tid = Some (GenericTask t) ∧
     admit_attempt (w_state w) (w_enabled w) (w_now w) (ad_allocations t) (ad_key t) (ad_ticket t)
       = (s, woken, Some (Ok (Some l)))) ∨
  (∃ t s woken, w_tasks w !! tid = Some (ClassTask t) ∧
     priority_attempt (w_state w) (w_enabled w) (w_now w) (pk_class t) (pk_eligible t) (pk_ticket t)
       = (s, woken, PrReturn (Ok (Some l)))).

Lemma finish_task_leases tid r b w s : w_leases (finish_task tid r (wake b (w <| w_state := s |>))) =
  match r with
  | Ok (Some l) => <[tid:=l]> (w_leases w)
  | _ => w_leases w
  end.
Proof. by destruct r as [[l|]|e], b. Qed.

(** The leases of a turn that does not attempt. *)
Lemma admit_expire_err s ticket reason : is_ok (admit_expire s ticket reason).2 = false.
Proof. unfold admit_expire. by destruct (withdraw s ticket). Qed.

Lemma priority_expire_err s class ticket : is_ok (priority_expire s class ticket).2 = false.
Proof. unfold priority_expire. by destruct (priority_withdraw s ticket). Qed.

Lemma admit_turn_leases tid t w w' : w_tasks w !! tid = Some (GenericTask t) → admit_turn tid t w = Some w' →
  w_leases w' = w_leases w ∨ ∃ l, grants w tid l ∧ w_leases w' = <[tid:=l]> (w_leases w).
Proof.
  intros Ht. unfold admit_turn. destruct (ad_stage t).
  - intros [= <-]. by left.
  - destruct (admit_attempt _ _ _ _ _ _) as [[s woken] [r|]] eqn:E; intros [= <-].
    + rewrite finish_task_leases. destruct r as [[l|]|e]; [|by left..]. right. exists l. split; [|done].
      left. by eexists _, _, _.
    + left. by destruct woken.
  - destruct (admit_queue _ _ _ _ _) as [s [k|e]]; intros [= <-]; by left.
  - destruct (ad_ticket t) as [k|]; [|intros [= <-]; by left]. case_match; [|intros [= <-]; by left].
    pose proof (admit_expire_err (w_state w) (Some k) (ad_exhausted t)) as He.
    destruct (admit_expire _ _ _) as [[s woken] r]. intros [= <-]. rewrite finish_task_leases.
    destruct r as [[l|]|e]; done || by left.
  - case_match; [|done]. intros [= <-]. by left.
Qed.

Lemma class_turn_leases tid t w w' : w_tasks w !! tid = Some (ClassTask t) → class_turn tid t w = Some w' →
  w_leases w' = w_leases w ∨ ∃ l, grants w tid l ∧ w_leases w' = <[tid:=l]> (w_leases w).
Proof.
  intros Ht. unfold class_turn. destruct (pk_stage t).
  - intros [= <-]. by left.
  - destruct (priority_attempt _ _ _ _ _ _) as [[s woken] [r| |]] eqn:E; intros [= <-].
    + rewrite finish_task_leases. destruct r as [[l|]|e]; [|by left..]. right. exists l. split; [|done].
      right. by eexists _, _, _.
    + left. by destruct woken.
    + left. by destruct woken.
  - destruct (priority_queue _ _ _ _) as [s [[r| |]|k]] eqn:E; intros [= <-]; try by left.
    assert (is_ok r = false) as Hr.
    { revert E. unfold priority_queue. repeat (case_match; try done); by intros [= _ <-]. }
    left. by destruct r as [[l|]|e].
  - destruct (pk_ticket t) as [k|]; [|intros [= <-]; by left]. destruct (priority_timeout _ _ _ _ _).
    + case_match; [|intros [= <-]; by left].
      pose proof (priority_expire_err (w_state w) (pk_class t) (Some k)) as He.
      destruct (priority_expire _ _ _) as [[s woken] r]. intros [= <-]. rewrite finish_task_leases.
      destruct r as [[l|]|e]; done || by left.
    + destruct (priority_withdraw _ _) as [s removed]. intros [= <-]. left.
      exact (finish_task_leases tid (Err unavailable_rejection) _ w s).
  - case_match; [|done]. intros [= <-]. by left.
Qed.

(** How the leases change. *)
Lemma perform_leases a w w' : perform a w = Some w' →
  w_leases w' = w_leases w ∨ (∃ tid l, grants w tid l ∧ w_leases w' = <[tid:=l]> (w_leases w)) ∨
  ∃ lid, w_leases w' = delete lid (w_leases w).
Proof.
  destruct a; cbn [perform].
  - case_match; [|done]. intros [= <-]. by left.
  - destruct (w_tasks w !! tid); [done|]. destruct (w_leases w !! tid); [done|].
    case_match; intros [= <-]; by left.
  - destruct (w_tasks w !! tid) as [[t|t]|] eqn:Ht; [..|done]; intros Hp.
    + destruct (admit_turn_leases _ _ _ _ Ht Hp) as [|(l & Hg)]; [by left|right; left; by exists tid, l].
    + destruct (class_turn_leases _ _ _ _ Ht Hp) as [|(l & Hg)]; [by left|right; left; by exists tid, l].
  - destruct (w_tasks w !! tid) as [[t|t]|]; [..|done]; cbn; (case_match; [|done]); left.
    + pose proof (admit_expire_err (w_state w) (ad_ticket t) (ad_exhausted t)) as He.
      destruct (admit_expire _ _ _) as [[s woken] r]. simplify_eq. rewrite finish_task_leases.
      by destruct r as [[l'|]|e].
    + pose proof (priority_expire_err (w_state w) (pk_class t) (pk_ticket t)) as He.
      destruct (priority_expire _ _ _) as [[s woken] r]. simplify_eq. rewrite finish_task_leases.
      by destruct r as [[l'|]|e].
  - destruct (w_tasks w !! tid) as [[t|t]|]; [..|done]; cbn; (case_match; [|done]); left.
    + destruct (withdraw _ _) as [s removed]. simplify_eq. by destruct (bool_decide _).
    + destruct (priority_withdraw _ _) as [s removed]. simplify_eq. by destruct (bool_decide _).
  - destruct (w_leases w !! lid) as [l0|]; [|done]. intros [= <-]. right. right. by exists lid.
  - destruct (w_configuring w); [done|]. intros [= <-]. by left.
  - destruct (w_configuring w); [|done]. intros [= <-]. by left.
Qed.

Lemma perform_grants a w w' tid l : perform a w = Some w' → w_leases w !! tid = None → w_leases w' !! tid = Some l →
  grants w tid l ∧ w_leases w' = <[tid:=l]> (w_leases w).
Proof.
  intros [He|[(tid' & l' & Hg & Hl)|[lid Hl]]]%perform_leases Hn Hs.
  - congruence.
  - rewrite Hl in Hs. apply lookup_insert_Some in Hs as [[<- <-]|[_ Hs]]; [done|congruence].
  - rewrite Hl in Hs. apply lookup_delete_Some in Hs as [_ Hs]. congruence.
Qed.

(** A granted generic lease passed every check of the attempt. *)
Lemma admit_attempt_lease s enabled now allocations key ticket s' woken l :
  admit_attempt s enabled now allocations key ticket = (s', woken, Some (Ok (Some l))) →
  (ls_allocations l = allocations ∧ ls_priority l = None) ∧ can_admit s allocations = true ∧
  match ticket with
  | Some k => is_head (rs_waiters s) k = true ∧
      oldest_admissible_overlap (rs_waiters s) key (admissible s now) = Some (tk_id k)
  | None => queue_is_empty (rs_waiters s) key = true ∧
      oldest_admissible_overlap (rs_waiters s) key (admissible s now) = None
  end.
Proof.
  unfold admit_attempt. destruct enabled; cbn [negb]; [|done].
  destruct (match ticket with Some k => is_head (rs_waiters s) k | None => queue_is_empty (rs_waiters s) key end) eqn:Eh;
    cbn [negb]; [|done].
  destruct (circuit_available s allocations now); [|unfold circuit_rejection; by destruct (withdraw s ticket)].
  set (sel := match ticket with Some k => bool_decide (_ = Some (tk_id k)) | None => bool_decide (_ = None) end).
  destruct sel eqn:Es; cbn [andb negb]; [|done]. destruct (can_admit s allocations); cbn [negb]; [|done].
  destruct (circuit_admission s allocations now) as [s1 [probes|ra]];
    [|unfold circuit_rejection; by destruct (withdraw s1 ticket)].
  destruct (withdraw s1 ticket) as [s2 queued]. intros [= _ _ <-]. split_and!; [done..|].
  subst sel. destruct ticket; apply bool_decide_eq_true in Es; by split.
Qed.

Lemma priority_attempt_lease s enabled now class eligible ticket s' woken l :
  priority_attempt s enabled now class eligible ticket = (s', woken, PrReturn (Ok (Some l))) →
  ∃ global kind, rs_scopes s !! Global = Some global ∧ ss_active global Request < rl_active (ss_limits global Request) ∧
    priority_can_admit (rs_priority s) class eligible (ss_active global Request) (rl_active (ss_limits global Request))
      = Some kind ∧
    l = mkLease global_request [] (Some (mkPriorityLease class kind)).
Proof.
  unfold priority_attempt. destruct enabled; cbn [negb]; [|done].
  destruct (ps_enabled (rs_priority s)); cbn [negb]; [|done].
  destruct (rs_scopes s !! Global) as [global|]; [|by destruct (priority_withdraw s ticket)].
  match goal with |- context [match ?b with true => _ | false => _ end] => destruct b end; [|done].
  destruct (priority_can_admit _ _ _ _ _) as [kind|] eqn:Ek; [|done].
  assert (ss_active global Request < rl_active (ss_limits global Request)) as Hlt.
  { revert Ek. unfold priority_can_admit. destruct (Z.leb_spec (rl_active (ss_limits global Request)) (ss_active global Request)); [done|].
    intros _. done. }
  destruct (priority_withdraw s ticket) as [s1 queued]. unfold priority_admit. intros [= _ _ <-].
  by exists global, kind.
Qed.

(** C20 (safety). A lease is granted only when every slot it takes has room:
    the number of leases that hold the slot, the new one included, is at most
    the limit that applied when it was granted. *)
Theorem granted_within_limits config start actions w a w' tid l :
  reachable config start actions w → perform a w = Some w' →
  w_leases w !! tid = None → w_leases w' !! tid = Some l →
  ∀ al, al ∈ ls_allocations l →
    ∃ scope, rs_scopes (w_state w) !! al_scope al = Some scope ∧
      count (holds (al_slot al)) (w_leases w') ≤ rl_active (effective_limit al scope).
Proof.
  intros [n [B _]]%reachable_ok Hp Hn Hl al Hal.
  destruct (perform_grants _ _ _ _ _ Hp Hn Hl) as [Hg ->]. rewrite count_insert_new by done.
  assert (Hlt : ∃ scope, rs_scopes (w_state w) !! al_scope al = Some scope ∧
    ss_active scope (al_resource al) < rl_active (effective_limit al scope)).
  { destruct Hg as [(t & s & woken & Ht & Ea)|(t & s & woken & Ht & Ea)].
    - apply admit_attempt_lease in Ea as ([Hls _] & Hc & _). rewrite Hls in Hal. unfold can_admit in Hc.
      rewrite forallb_forall in Hc. specialize (Hc al (proj1 (list_elem_of_In _ _) Hal)). unfold scope_is_some_and in Hc.
      destruct (rs_scopes (w_state w) !! al_scope al) as [scope|]; [|done]. exists scope. split; [done|lia].
    - apply priority_attempt_lease in Ea as (global & kind & Hgl & Hc & _ & ->).
      apply list_elem_of_singleton in Hal as ->. exists global. split; [done|]. exact Hc. }
  destruct Hlt as (scope & Hs & Hlt). exists scope. split; [done|].
  rewrite (b_active _ _ _ _ _ B (al_slot al) (ss_active scope (al_resource al))) in Hlt.
  - unfold holds at 2. rewrite bool_decide_eq_true_2; [cbn; lia|]. by apply list_elem_of_fmap_2.
  - unfold active_of. cbn. by rewrite Hs.
Qed.

(** The waiter with the identifier of a ticket is its caller's. *)
Lemma own_waiter n s now T L tid t k key wt : books n s now T L → T !! tid = Some (GenericTask t) →
  ad_ticket t = Some k → wt ∈ lane_of (rs_waiters s) key → wt_id wt = tk_id k →
  wt = mkWaiter (tk_id k) (ad_allocations t) (tk_queued_at k) ∧ key = tk_key k.
Proof.
  intros B Ht Hk (tid0 & t0 & Ht0 & Hk0 & Hal0)%(b_lanes _ _ _ _ _ B) Hid.
  assert (tid0 = tid) as -> by (by eapply (b_ids _ _ _ _ _ B)). simplify_eq. cbn in Hk0, Hal0. rewrite Hk in Hk0.
  injection Hk0 as ->. destruct wt. cbn in *. by subst.
Qed.

Lemma head_elem {A} (l : list A) x : head l = Some x → x ∈ l.
Proof. destruct l; [done|]. intros [= ->]. by left. Qed.

(** Where a caller that gets a lease stood: first in its lane, or before an
    empty one. *)
Definition at_front (q : AdmissionQueues) (t : AdmitTask) : Prop :=
  match ad_ticket t with
  | Some k => head (lane_of q (ad_key t)) = Some (mkWaiter (tk_id k) (ad_allocations t) (tk_queued_at k))
  | None => lane_of q (ad_key t) = []
  end.

Lemma head_at_front n s now T L tid t : books n s now T L → T !! tid = Some (GenericTask t) →
  match ad_ticket t with
  | Some k => is_head (rs_waiters s) k = true
  | None => queue_is_empty (rs_waiters s) (ad_key t) = true
  end → at_front (rs_waiters s) t.
Proof.
  intros B Ht. unfold at_front. destruct (ad_ticket t) as [k|] eqn:Hk; [|by intros H%is_empty_true].
  destruct (b_tasks _ _ _ _ _ B _ _ Ht) as (_ & _ & Hold). destruct (Hold k Hk) as (<- & _).
  unfold is_head. destruct (head _) as [wt|] eqn:Eh; [|done]. intros Hid%Z.eqb_eq.
  by destruct (own_waiter _ _ _ _ _ _ _ _ _ _ B Ht Hk (head_elem _ _ Eh) Hid) as [-> _].
Qed.

(** C21 (safety). No lease overtakes an older caller: when a generic caller
    gets a lease it is the first of its lane, or its lane is empty when it has
    not queued; and every caller at the front of a lane that shares one of its
    slots and could be admitted at that moment is the caller itself or queued
    later than it; a caller that did not queue finds no such caller at all. *)
Theorem no_overtaking config start actions w a w' tid l t :
  reachable config start actions w → perform a w = Some w' →
  w_leases w !! tid = None → w_leases w' !! tid = Some l → w_tasks w !! tid = Some (GenericTask t) →
  at_front (rs_waiters (w_state w)) t ∧
  ∀ key wt, head (lane_of (rs_waiters (w_state w)) key) = Some wt → overlaps (ad_key t) key = true →
    admissible (w_state w) (w_now w) (wt_allocations wt) = true →
    ∃ k, ad_ticket t = Some k ∧
      (wt_id wt = tk_id k ∨
       waiter_before (mkWaiter (tk_id k) (ad_allocations t) (tk_queued_at k)) wt = true).
Proof.
  intros [n [B _]]%reachable_ok Hp Hn Hl Ht.
  destruct (perform_grants _ _ _ _ _ Hp Hn Hl) as [[(t' & s & woken & Ht' & Ea)|(t' & s & woken & Ht' & _)] _];
    simplify_eq. apply admit_attempt_lease in Ea as (_ & _ & Hsel).
  split. { apply (head_at_front _ _ _ _ _ _ _ B Ht). destruct (ad_ticket t); by destruct Hsel. }
  intros key wt Hh Ho Ha.
  pose proof (oldest_overlap_spec (rs_waiters (w_state w)) (ad_key t) (admissible (w_state w) (w_now w))) as Hold.
  destruct (ad_ticket t) as [k|] eqn:Hk; destruct Hsel as [Hhead Hsel]; rewrite Hsel in Hold.
  2:{ specialize (Hold key wt Ho Hh). congruence. }
  exists k. split; [done|]. destruct Hold as (key' & w0 & _ & Hh0 & _ & Hid & Hmin).
  destruct (decide (wt_id wt = tk_id k)) as [|Hne]; [by left|right].
  destruct (own_waiter _ _ _ _ _ _ _ _ _ _ B Ht Hk (head_elem _ _ Hh0) Hid) as [-> _].
  apply waiter_before_total; [by eapply Hmin|done].
Qed.
