(* ===== verification/CbWakeups.v ===== *)
(** * No wake-up is lost in the generic queues

    A generic caller that sleeps would not be admitted if it ran: whatever
    could make it admissible comes with a [notify_waiters] after the caller
    created its [notified].  The entry point [admit_route_request], which
    takes the global and the route slot at once and which the proxy does not
    use, is left out. *)

From stdpp Require Import countable gmap functions.
From S2P Require Import Prelude Bytes F64 CbConfig CbCircuit CbTypes CbPriority CbQueue CbRuntime CbTasks CbViews.
From S2P Require Import CbInvariant CbSystem CbAdmission.

(** ** What an admission depends on *)

(** The part of the state that decides about a slot. *)
Definition slot_view (s : RuntimeState) (slot : ScopeKey * ResourceKind)
    : option (Z * ResourceLimit * option (bool * FailureCircuit)) :=
  (λ sc, (ss_active sc slot.2, ss_limits sc slot.2,
          if bool_decide (slot.2 = UpstreamRequest) then Some (ss_failure_enabled sc, ss_circuit sc) else None))
    <$> rs_scopes s !! slot.1.

(** Without the circuit, and with more leases. *)
Definition fuller (s s' : RuntimeState) (slot : ScopeKey * ResourceKind) : Prop :=
  match slot_view s slot, slot_view s' slot with
  | Some (n, limit, _), Some (n', limit', _) => n ≤ n' ∧ limit' = limit
  | None, None => True
  | _, _ => False
  end.

Lemma can_admit_slots s allocations : can_admit s allocations = true ↔
  ∀ a, a ∈ allocations → ∃ n limit c, slot_view s (al_slot a) = Some (n, limit, c) ∧
    n < rl_active (default limit (al_limit a)).
Proof.
  unfold can_admit. rewrite forallb_forall. apply forall_proper. intros a. rewrite list_elem_of_In.
  apply imp_iff_compat_l. unfold scope_is_some_and, slot_view, effective_limit. cbn.
  destruct (rs_scopes s !! al_scope a) as [sc|]; cbn.
  - rewrite Z.ltb_lt. split.
    + intros Hlt. eexists _, _, _. split; [done|]. by destruct (al_limit a).
    + intros (n & limit & c & [= <- <- _] & Hlt). by destruct (al_limit a).
  - split; [done|]. by intros (n & limit & c & ? & _).
Qed.

Lemma can_admit_fuller s s' allocations : (∀ slot, slot ∈ slots allocations → fuller s s' slot) →
  can_admit s allocations = false → can_admit s' allocations = false.
Proof.
  intros Hf Hc. apply not_true_is_false. intros Hc'. apply not_true_iff_false in Hc. apply Hc.
  rewrite can_admit_slots in *. intros a Ha. destruct (Hc' a Ha) as (n & limit & c & Hv & Hlt).
  specialize (Hf (al_slot a) (list_elem_of_fmap_2 _ _ _ Ha)). unfold fuller in Hf. rewrite Hv in Hf.
  destruct (slot_view s (al_slot a)) as [[[n0 limit0] c0]|]; [|done]. destruct Hf as [Hle ->].
  eexists _, _, _. split; [done|]. lia.
Qed.

Lemma upstream_scopes_slot allocations key : key ∈ upstream_scopes allocations ↔ (key, UpstreamRequest) ∈ slots allocations.
Proof.
  unfold upstream_scopes, slots. rewrite !list_elem_of_fmap. split.
  - intros (a & -> & [Ha Hin]%list_elem_of_filter). exists a. split; [|done]. unfold al_slot. by rewrite Ha.
  - intros (a & [= -> Hr] & Hin). exists a. split; [done|]. by apply list_elem_of_filter.
Qed.

Lemma dedup_elem {A} `{EqDecision A} (l : list A) x : x ∈ dedup l ↔ x ∈ l.
Proof.
  induction l as [|y l IH]; [done|]. cbn. destruct (dedup l) as [|z l'] eqn:E.
  - rewrite !elem_of_cons, <-IH. done.
  - case_bool_decide as Hy; rewrite !elem_of_cons, <-IH, ?elem_of_cons; [subst|]; clear; tauto.
Qed.

(** The scopes whose circuits a caller asks. *)
Definition circuit_keys (allocations : list Allocation) : list ScopeKey :=
  dedup (sort_by scope_compare (upstream_scopes allocations)).

Lemma circuit_keys_slot allocations key :
  key ∈ circuit_keys allocations ↔ (key, UpstreamRequest) ∈ slots allocations.
Proof. unfold circuit_keys. rewrite dedup_elem, sort_by_perm. apply upstream_scopes_slot. Qed.

(** The circuit of a scope as an upstream request sees it. *)
Definition circuit_view (s : RuntimeState) (key : ScopeKey) : option (bool * FailureCircuit) :=
  (λ sc, (ss_failure_enabled sc, ss_circuit sc)) <$> rs_scopes s !! key.

Lemma slot_circuit_view s s' key : slot_view s' (key, UpstreamRequest) = slot_view s (key, UpstreamRequest) →
  circuit_view s' key = circuit_view s key.
Proof.
  unfold slot_view, circuit_view. cbn. destruct (rs_scopes s' !! key), (rs_scopes s !! key); cbn; try done.
  rewrite bool_decide_eq_true_2 by done. by intros [= _ _ -> ->].
Qed.

Lemma available_later c t t' p : t ≤ t' → is_ok (available c t p) = true → is_ok (available c t' p) = true.
Proof.
  intros Ht. unfold available. destruct (fc_state c); [done| |by case_match].
  destruct (fc_open_until c) as [u|]; [|done]. unfold saturating_duration_since.
  destruct (Z.eqb_spec (Z.max (u - t) 0) 0); [|done]. intros _. by rewrite (proj2 (Z.eqb_eq _ _)) by lia.
Qed.

Lemma circuits_available_mono s s' t t' keys : t ≤ t' → rs_failure s' = rs_failure s →
  (∀ key, key ∈ keys → circuit_view s' key = circuit_view s key) →
  is_ok (circuits_available s t keys) = true → is_ok (circuits_available s' t' keys) = true.
Proof.
  intros Ht Hf. induction keys as [|key keys IH]; intros Hv; cbn [circuits_available]; [done|].
  specialize (IH (λ k Hk, Hv k (proj2 (elem_of_cons _ _ _) (or_intror Hk)))). specialize (Hv key (proj2 (elem_of_cons _ _ _) (or_introl eq_refl))).
  unfold circuit_view in Hv. destruct (rs_scopes s !! key) as [sc|]; [|done].
  destruct (rs_scopes s' !! key) as [sc'|]; [|done]. injection Hv as -> ->. destruct (ss_failure_enabled sc); [|done].
  rewrite Hf. pose proof (available_later (ss_circuit sc) t t' (rs_failure s) Ht) as Ha.
  destruct (available (ss_circuit sc) t (rs_failure s)); [|done]. specialize (Ha eq_refl).
  by destruct (available (ss_circuit sc) t' (rs_failure s)).
Qed.

(** What could be admitted still can, when its slots look the same. *)
Lemma admissible_mono s s' t t' allocations : t ≤ t' → rs_failure s' = rs_failure s →
  (∀ slot, slot ∈ slots allocations → slot_view s' slot = slot_view s slot) →
  admissible s t allocations = true → admissible s' t' allocations = true.
Proof.
  intros Ht Hf Hv. unfold admissible. intros [Hc Ha]%andb_prop. apply andb_true_intro. split.
  - revert Hc. unfold circuit_available. rewrite Hf. case_match; [done|]. apply circuits_available_mono; [done..|].
    intros key Hk%circuit_keys_slot. by apply slot_circuit_view, Hv.
  - rewrite can_admit_slots in *. intros a Hin. rewrite Hv; [by apply Ha|]. by apply list_elem_of_fmap_2.
Qed.

(** ** Steps that only fill slots *)

(** [s'] differs from [s] in the slots of [touched], which are at least as
    full. *)
Record fills (touched : list (ScopeKey * ResourceKind)) (s s' : RuntimeState) : Prop := {
  fi_failure : rs_failure s' = rs_failure s;
  fi_waiters : rs_waiters s' = rs_waiters s;
  fi_view : ∀ slot, slot ∉ touched → slot_view s' slot = slot_view s slot;
  fi_fuller : ∀ slot, fuller s s' slot;
}.

Lemma fuller_refl s slot : fuller s s slot.
Proof. unfold fuller. by destruct (slot_view s slot) as [[[n l] c]|]. Qed.

Lemma fuller_trans s1 s2 s3 slot : fuller s1 s2 slot → fuller s2 s3 slot → fuller s1 s3 slot.
Proof.
  unfold fuller. destruct (slot_view s1 slot) as [[[n1 l1] c1]|], (slot_view s2 slot) as [[[n2 l2] c2]|],
    (slot_view s3 slot) as [[[n3 l3] c3]|]; try done. intros [? ->] [? ->]. split; [lia|done].
Qed.

#[export] Instance fills_preorder touched : PreOrder (fills touched).
Proof.
  split; [intros s; split; try done; intros; apply fuller_refl|].
  intros s1 s2 s3 [] []. split; [congruence..| |].
  - intros slot Hs. by rewrite fi_view1, fi_view0.
  - intros slot. by eapply fuller_trans.
Qed.

(** The same scopes, lanes and policy. *)
Lemma fills_same touched s s' : rs_failure s' = rs_failure s → rs_waiters s' = rs_waiters s →
  rs_scopes s' = rs_scopes s → fills touched s s'.
Proof.
  intros Hf Hw Hs. assert (∀ slot, slot_view s' slot = slot_view s slot) as Hv
    by (intros; unfold slot_view; by rewrite Hs).
  split; [done..|]. intros slot. unfold fuller. rewrite Hv. apply fuller_refl.
Qed.

(** The limits and the circuit of a slot. *)
Definition rest_of (s : RuntimeState) (slot : ScopeKey * ResourceKind)
    : option (ResourceLimit * option (bool * FailureCircuit)) :=
  (λ sc, (ss_limits sc slot.2,
          if bool_decide (slot.2 = UpstreamRequest) then Some (ss_failure_enabled sc, ss_circuit sc) else None))
    <$> rs_scopes s !! slot.1.

Lemma slot_view_eq s s' slot : active_of s' slot = active_of s slot → rest_of s' slot = rest_of s slot →
  slot_view s' slot = slot_view s slot.
Proof.
  unfold active_of, rest_of, slot_view. destruct (rs_scopes s' !! slot.1), (rs_scopes s !! slot.1); cbn; congruence.
Qed.

Lemma fuller_eq s s' slot : slot_view s' slot = slot_view s slot → fuller s s' slot.
Proof. intros Hv. unfold fuller. rewrite Hv. apply fuller_refl. Qed.

Lemma rest_of_over_active f allocations s slot :
  rest_of (over_slots (over_active f) allocations s) slot = rest_of s slot.
Proof. unfold rest_of. by apply (over_slots_frame (λ sc, (ss_limits sc slot.2, if bool_decide _ then Some (_, _) else None))). Qed.

Lemma rest_of_over_queued f allocations s slot :
  rest_of (over_slots (over_queued f) allocations s) slot = rest_of s slot.
Proof. unfold rest_of. by apply (over_slots_frame (λ sc, (ss_limits sc slot.2, if bool_decide _ then Some (_, _) else None))). Qed.

(** Counters that cannot wrap. *)
Definition counts_fit (s : RuntimeState) : Prop := ∀ slot k, active_of s slot = Some k → 0 ≤ k < U64_MAX.

Lemma books_fit n s now T L : books n s now T L → counts_fit s.
Proof.
  intros B slot k ->%(b_active _ _ _ _ _ B). pose proof (count_range (holds slot) L). pose proof (b_size _ _ _ _ _ B).
  pose proof (b_max _ _ _ _ _ B). lia.
Qed.

Lemma fills_increment allocations s : NoDup (slots allocations) → counts_fit s →
  fills (slots allocations) s (increment_active s allocations).
Proof.
  intros Hnd Hfit. split; [done..| |].
  - intros slot Hs. apply slot_view_eq; [|apply rest_of_over_active]. unfold increment_active.
    rewrite over_active_active by done. unfold on_slots. rewrite bool_decide_eq_false_2 by done.
    by destruct (active_of s slot).
  - intros slot. pose proof (rest_of_over_active (λ n, add64 n 1) allocations s slot) as Hr.
    pose proof (over_active_active (λ n, add64 n 1) allocations s slot Hnd) as Ha. specialize (Hfit slot).
    fold (increment_active s allocations) in Hr, Ha. revert Hr Ha Hfit. unfold rest_of, active_of, fuller, slot_view.
    destruct (rs_scopes s !! slot.1) as [sc|], (rs_scopes (increment_active s allocations) !! slot.1) as [sc'|];
      cbn; try done.
    intros [= Hl _] [= Ha] Hfit. split; [|done]. rewrite Ha. specialize (Hfit _ eq_refl). unfold on_slots.
    case_bool_decide; [|lia]. rewrite add64_small; unfold U64_MAX in *; lia.
Qed.

Lemma fills_over_queued touched f allocations s : fills touched s (over_slots (over_queued f) allocations s).
Proof.
  assert (∀ slot, slot_view (over_slots (over_queued f) allocations s) slot = slot_view s slot) as Hv
    by (intros; apply slot_view_eq; [apply over_queued_active|apply rest_of_over_queued]).
  split; [done..|]. intros. by apply fuller_eq.
Qed.

(** A circuit that changes touches the upstream slot of its scope only. *)
Lemma fills_circuit key sc c s : rs_scopes s !! key = Some sc →
  fills [(key, UpstreamRequest)] s (s <| rs_scopes ::= insert key (sc <| ss_circuit := c |>) |>).
Proof.
  intros Hk. split; [done..| |].
  - intros [k r] Hne%not_elem_of_cons. destruct Hne as [Hne _]. unfold slot_view. cbn.
    destruct (decide (k = key)) as [->|]; [|by rewrite lookup_insert_ne].
    rewrite lookup_insert_eq, Hk. cbn. by rewrite bool_decide_eq_false_2 by congruence.
  - intros [k r]. unfold fuller, slot_view. cbn.
    destruct (decide (k = key)) as [->|]; [rewrite lookup_insert_eq, Hk; cbn; split; [lia|done]|].
    rewrite lookup_insert_ne by done. destruct (rs_scopes s !! k); cbn; [split; [lia|done]|done].
Qed.

Lemma fills_weaken touched touched' s s' : touched ⊆ touched' → fills touched s s' → fills touched' s s'.
Proof. intros Ht []. split; try done. intros slot Hs. apply fi_view0. set_solver. Qed.

Lemma fills_begin touched now keys s probes : (∀ key, key ∈ keys → (key, UpstreamRequest) ∈ touched) →
  fills touched s (begin_probes s now keys probes).1.
Proof.
  revert s probes. induction keys as [|key keys IH]; intros s probes Hkeys; cbn [begin_probes]; [done|].
  assert (∀ key, key ∈ keys → (key, UpstreamRequest) ∈ touched) as Hk' by (intros; apply Hkeys; by right).
  destruct (rs_scopes s !! key) as [sc|] eqn:Hk; [|done]. destruct (ss_failure_enabled sc); cbn [negb]; [|by apply IH].
  assert (∀ c, fills touched s (s <| rs_scopes ::= insert key (sc <| ss_circuit := c |>) |>)) as Hc.
  { intros c. eapply fills_weaken; [|by apply fills_circuit]. intros x ->%list_elem_of_singleton. apply Hkeys. by left. }
  destruct (begin_probe _ _ _) as [c [[from to]|]]; (etrans; [|by apply IH]).
  - etrans; [apply Hc|]. by apply fills_same.
  - apply Hc.
Qed.

Lemma fills_admission allocations s now : fills (slots allocations) s (circuit_admission s allocations now).1.
Proof.
  unfold circuit_admission. case_match; [done|]. case_match; [|done]. apply fills_begin.
  intros key. apply (circuit_keys_slot allocations).
Qed.

Lemma fills_attempt touched allocations s : fills touched s (record_attempt s allocations).
Proof. unfold record_attempt. case_match; [done|]. by apply fills_same. Qed.

(** A caller that does not queue. *)
Lemma fills_direct s now t s2 woken r : NoDup (slots (ad_allocations t)) → counts_fit s → ad_ticket t = None →
  admit_attempt s true now (ad_allocations t) (ad_key t) None = (s2, woken, Some r) →
  woken = false ∧ (fills [] s s2 ∨ fills (slots (ad_allocations t)) s s2 ∧
    oldest_admissible_overlap (rs_waiters s) (ad_key t) (admissible s now) = None).
Proof.
  intros Hnd Hfit Hnt. unfold admit_attempt. cbn [negb]. case_match; [done|].
  destruct (circuit_available s (ad_allocations t) now); [|intros [= <- <- _]; split; [done|left; by apply fills_same]].
  case_bool_decide as Hsel; cbn [andb]; [|done]. destruct (can_admit _ _); cbn [negb]; [|done].
  pose proof (fills_admission (ad_allocations t) s now) as H1.
  pose proof (same_books_admission s (ad_allocations t) now) as Hb.
  destruct (circuit_admission _ _ _) as [s1 [probes|ra]]; cbn in H1, Hb; intros [= <- <- _]; (split; [done|right; split; [|done]]).
  - etrans; [exact H1|]. etrans; [apply (fills_attempt _ (ad_allocations t))|]. apply fills_increment; [done|].
    intros slot k. rewrite (sb_active _ _ (same_books_attempt _ _)), (sb_active _ _ Hb). apply Hfit.
  - etrans; [exact H1|]. by apply fills_same.
Qed.

(** A priority caller touches the global request slot only. *)
Lemma fills_class_withdraw touched s ticket : fills touched s (priority_withdraw s ticket).1.
Proof.
  destruct ticket as [k|]; [|done]. cbn. unfold remove_priority_waiter. destruct (priority_remove _ _) as [p [w|]]; [|done].
  cbn. etrans; [|apply (fills_over_queued _ (λ n, saturating_sub64 n 1) global_request)]. by apply fills_same.
Qed.

Lemma fills_class_attempt s enabled now class eligible ticket s2 woken out : counts_fit s →
  priority_attempt s enabled now class eligible ticket = (s2, woken, out) → fills [(Global, Request)] s s2.
Proof.
  intros Hfit. pose proof (fills_class_withdraw [(Global, Request)] s ticket) as Hw. unfold priority_attempt.
  destruct enabled; cbn [negb]; [|by intros [= <- _ _]]. case_match; [by intros [= <- _ _]|].
  destruct (rs_scopes s !! Global) as [global|];
    [|destruct (priority_withdraw s ticket) as [s1 removed]; by intros [= <- _ _]].
  match goal with |- context [match ?b with true => _ | false => _ end] => destruct b end; [|by intros [= <- _ _]].
  destruct (priority_can_admit _ _ _ _ _) as [kind|]; [|by intros [= <- _ _]].
  assert (counts_fit (priority_withdraw s ticket).1) as Hfit1
    by (intros slot k; rewrite priority_withdraw_active; apply Hfit).
  destruct (priority_withdraw s ticket) as [s1 queued]. cbn in Hw, Hfit1.
  set (s3 := match queued with Some _ => _ | None => _ end).
  assert (fills [(Global, Request)] s s3) as H3 by (etrans; [exact Hw|]; subst s3; destruct queued; by apply fills_same).
  assert (counts_fit s3) as Hfit3 by (subst s3; by destruct queued).
  pose proof (fills_increment global_request s3 global_request_nodup Hfit3) as H4.
  destruct (priority_admit _ _ _) as [p lease]. intros [= <- _ _].
  etrans; [exact H3|]. etrans; [exact H4|]. by apply fills_same.
Qed.

Lemma fills_class_queue s now class eligible s2 r : priority_queue s now class eligible = (s2, r) → fills [] s s2.
Proof.
  unfold priority_queue. case_match; [by intros [= <- _]|]. case_match; [intros [= <- _]; by apply fills_same|].
  case_match; [intros [= <- _]; by apply fills_same|]. destruct (priority_enqueue _ _ _ _) as [p k]. intros [= <- _].
  etrans; [|apply (fills_over_queued _ (λ n, saturating_add64 n 1) global_request)]. by apply fills_same.
Qed.

Lemma fills_class_expire s class ticket s2 woken r : priority_expire s class ticket = (s2, woken, r) → fills [] s s2.
Proof.
  unfold priority_expire. pose proof (fills_class_withdraw [] s ticket) as H.
  destruct (priority_withdraw s ticket) as [s1 removed]. intros [= <- _ _]. etrans; [exact H|]. by apply fills_same.
Qed.

(** ** Callers that cannot be admitted *)

(** Another caller is first in the lane, a slot is full, or an older caller
    that can be admitted shares a slot. *)
Definition blocked (s : RuntimeState) (now : Z) (t : AdmitTask) : Prop :=
  match ad_ticket t with
  | Some k => is_head (rs_waiters s) k = false
  | None => queue_is_empty (rs_waiters s) (ad_key t) = false
  end ∨
  can_admit s (ad_allocations t) = false ∨
  ∃ key wt, key ≠ ad_key t ∧ head (lane_of (rs_waiters s) key) = Some wt ∧ overlaps (ad_key t) key = true ∧
    admissible s now (wt_allocations wt) = true ∧
    ∀ k, ad_ticket t = Some k →
      waiter_before wt (mkWaiter (tk_id k) (ad_allocations t) (tk_queued_at k)) = true.

Definition plain (t : Task) : Prop :=
  match t with
  | GenericTask t => ad_allocations t ≠ [] ∧
      ((Global, Request) ∈ slots (ad_allocations t) → slots (ad_allocations t) = [(Global, Request)])
  | ClassTask _ => True
  end.

Lemma overlaps_elem key other : overlaps key other = true ↔ ∃ slot, slot ∈ key ∧ slot ∈ other.
Proof.
  unfold overlaps. rewrite existsb_exists. apply exist_proper. intros slot.
  by rewrite bool_decide_eq_true, <-list_elem_of_In.
Qed.

Lemma from_allocations_elem allocations slot : slot ∈ from_allocations allocations ↔ slot ∈ slots allocations.
Proof. unfold from_allocations. by rewrite sort_by_perm. Qed.

Lemma overlaps_self allocations : allocations ≠ [] →
  overlaps (from_allocations allocations) (from_allocations allocations) = true.
Proof.
  intros Hne. apply overlaps_elem. destruct allocations as [|a allocations]; [done|]. exists (al_slot a).
  assert (al_slot a ∈ from_allocations (a :: allocations)) by (apply from_allocations_elem; by left). done.
Qed.

Section blocked.
Context (n : Z) (s : RuntimeState) (now : Z) (T : gmap Z Task) (L : gmap Z AdmissionLease).
Hypothesis B : books n s now T L.
Hypothesis HP : ∀ tid t, T !! tid = Some t → plain t.

(** The caller of a lane. *)
Lemma lane_caller key wt : wt ∈ lane_of (rs_waiters s) key → ∃ tid t,
  T !! tid = Some (GenericTask t) ∧ ad_allocations t = wt_allocations wt ∧ ad_key t = key ∧
  key = from_allocations (wt_allocations wt) ∧ wt_id wt < rs_next_waiter s ∧ wt_queued_at wt ≤ now ∧
  plain (GenericTask t).
Proof using B HP.
  intros (tid & t & Ht & Hk & Ha)%(b_lanes _ _ _ _ _ B). destruct t as [t|t]; [|done]. cbn in Hk, Ha.
  destruct (b_tasks _ _ _ _ _ B _ _ Ht) as (_ & Hkey & Hold). destruct (Hold _ Hk) as (Hk1 & Hid & Hq & _).
  cbn in Hk1, Hid, Hq. exists tid, t. split_and!; try done; [by rewrite Hk1, Hkey, Ha|by eapply HP].
Qed.

Lemma ticket_in_lane tid t k : T !! tid = Some (GenericTask t) → ad_ticket t = Some k →
  tk_key k = ad_key t ∧ mkWaiter (tk_id k) (ad_allocations t) (tk_queued_at k) ∈ lane_of (rs_waiters s) (ad_key t).
Proof using B.
  intros Ht Hk. destruct (b_tasks _ _ _ _ _ B _ _ Ht) as (_ & _ & Hold). destruct (Hold _ Hk) as (Hkey & _).
  split; [done|]. apply (b_lanes _ _ _ _ _ B). exists tid, (GenericTask t). split; [done|]. split; [|done].
  cbn. rewrite <-Hkey, Hk. by destruct k.
Qed.

(** An attempt that decides nothing. *)
Lemma attempt_blocked tid t s2 woken : T !! tid = Some (GenericTask t) →
  admit_attempt s true now (ad_allocations t) (ad_key t) (ad_ticket t) = (s2, woken, None) → blocked s now t.
Proof using B HP.
  intros Ht. unfold admit_attempt, blocked. cbn [negb].
  set (front := match ad_ticket t with Some k => is_head (rs_waiters s) k | None => _ end).
  destruct front eqn:Ef; cbn [negb]; [|intros _; left; subst front; by destruct (ad_ticket t)].
  destruct (circuit_available s (ad_allocations t) now) as [[]|ra] eqn:Ec;
    [|unfold circuit_rejection; by destruct (withdraw s (ad_ticket t))].
  destruct (can_admit s (ad_allocations t)) eqn:Ea; [|intros _; right; by left].
  rewrite andb_true_r. set (sel := match ad_ticket t with Some k => bool_decide (_ = _) | None => _ end).
  destruct sel eqn:Es; cbn [negb].
  { destruct (circuit_admission _ _ _) as [s1 [probes|ra]].
    - by destruct (withdraw s1 (ad_ticket t)).
    - unfold circuit_rejection. by destruct (withdraw s1 (ad_ticket t)). }
  intros _. right. right. subst front sel.
  pose proof (oldest_overlap_spec (rs_waiters s) (ad_key t) (admissible s now)) as Hold.
  destruct (ad_ticket t) as [k|] eqn:Hk; apply bool_decide_eq_false in Es.
  - destruct (ticket_in_lane _ _ _ Ht Hk) as [Hkey _]. unfold is_head in Ef. rewrite Hkey in Ef.
    destruct (head (lane_of (rs_waiters s) (ad_key t))) as [w0|] eqn:Hh; [|done]. apply Z.eqb_eq in Ef.
    destruct (own_waiter _ _ _ _ _ _ _ _ _ _ B Ht Hk (head_elem _ _ Hh) Ef) as [-> _].
    destruct (b_tasks _ _ _ _ _ B _ _ Ht) as (_ & Hkt & _). destruct (HP _ _ Ht) as [Hne _].
    assert (admissible s now (ad_allocations t) = true) as Hadm by (unfold admissible; by rewrite Ec, Ea).
    assert (overlaps (ad_key t) (ad_key t) = true) as Ho by (rewrite Hkt; by apply overlaps_self).
    destruct (oldest_admissible_overlap _ _ _) as [id|]; [|specialize (Hold _ _ Ho Hh); cbn in Hold; congruence].
    destruct Hold as (key & wt & Ho1 & Hh1 & Ha1 & <- & Hmin). exists key, wt. split_and!; [|done..|].
    + intros ->. rewrite Hh in Hh1. by simplify_eq.
    + intros k' [= <-]. apply waiter_before_total; [by eapply Hmin|]. cbn. congruence.
  - destruct (oldest_admissible_overlap _ _ _) as [id|]; [|done].
    destruct Hold as (key & wt & Ho1 & Hh1 & Ha1 & _ & _). exists key, wt. split_and!; [|done..].
    intros ->. unfold queue_is_empty in Ef. by destruct (lane_of _ (ad_key t)).
Qed.

(** What blocks a caller keeps the attempt from granting. *)
Lemma blocked_no_grant tid t s2 woken l : T !! tid = Some (GenericTask t) → blocked s now t →
  admit_attempt s true now (ad_allocations t) (ad_key t) (ad_ticket t) ≠ (s2, woken, Some (Ok (Some l))).
Proof using B.
  intros Ht Hb (_ & Hc & Hsel)%admit_attempt_lease. unfold blocked in Hb.
  pose proof (oldest_overlap_spec (rs_waiters s) (ad_key t) (admissible s now)) as Hold.
  destruct (ad_ticket t) as [k|] eqn:Hk; destruct Hsel as [Hhead Hsel]; rewrite Hsel in Hold;
    (destruct Hb as [Hb|[Hb|(key & wt & _ & Hh & Ho & Ha & Hbefore)]]; [congruence..|]).
  - destruct Hold as (key' & w0 & _ & Hh0 & _ & Hid & Hmin).
    destruct (own_waiter _ _ _ _ _ _ _ _ _ _ B Ht Hk (head_elem _ _ Hh0) Hid) as [-> _].
    specialize (Hmin _ _ Ho Hh Ha). specialize (Hbefore _ eq_refl). congruence.
  - specialize (Hold _ _ Ho Hh). congruence.
Qed.

(** Lanes that grow at their ends, slots that fill up outside of what blocks. *)
Lemma blocked_mono s' now' tid t : T !! tid = Some (GenericTask t) → now ≤ now' → rs_failure s' = rs_failure s →
  (∀ slot, fuller s s' slot) →
  (∀ key wt, head (lane_of (rs_waiters s) key) = Some wt → head (lane_of (rs_waiters s') key) = Some wt) →
  (∀ key wt, key ≠ ad_key t → head (lane_of (rs_waiters s) key) = Some wt → overlaps (ad_key t) key = true →
     admissible s now (wt_allocations wt) = true →
     ∀ slot, slot ∈ slots (wt_allocations wt) → slot_view s' slot = slot_view s slot) →
  blocked s now t → blocked s' now' t.
Proof using B.
  intros Ht Hnow Hf Hfull Hheads Hview [Hb|[Hb|(key & wt & Hne & Hh & Ho & Ha & Hbefore)]]; unfold blocked.
  - left. destruct (ad_ticket t) as [k|] eqn:Hk.
    + destruct (ticket_in_lane _ _ _ Ht Hk) as [Hkey Hin]. unfold is_head in *. rewrite Hkey in *.
      destruct (lane_of (rs_waiters s) (ad_key t)) as [|w0 l] eqn:El; [by apply elem_of_nil in Hin|].
      rewrite (Hheads (ad_key t) w0); [done|by rewrite El].
    + unfold queue_is_empty in *. destruct (lane_of (rs_waiters s) (ad_key t)) as [|w0 l] eqn:El; [done|].
      specialize (Hheads (ad_key t) w0). rewrite El in Hheads. specialize (Hheads eq_refl).
      by destruct (lane_of (rs_waiters s') (ad_key t)).
  - right. left. by eapply can_admit_fuller.
  - right. right. exists key, wt. split_and!; [done|by apply Hheads|done| |done].
    eapply admissible_mono; [exact Hnow|exact Hf| |exact Ha]. by eapply Hview.
Qed.

(** Steps without effect on the slots that decide. *)
Lemma fills_blocked touched s' tid t : T !! tid = Some (GenericTask t) → fills touched s s' →
  (∀ key wt, key ≠ ad_key t → head (lane_of (rs_waiters s) key) = Some wt → overlaps (ad_key t) key = true →
     admissible s now (wt_allocations wt) = true → ∀ slot, slot ∈ slots (wt_allocations wt) → slot ∉ touched) →
  blocked s now t → blocked s' now t.
Proof using B.
  intros Ht [Hf Hw Hv Hful] Hdis. apply (blocked_mono s' now tid); [done..| |].
  - intros key wt. by rewrite Hw.
  - intros key wt Hne Hh Ho Ha slot Hs. by eapply Hv, Hdis.
Qed.

(** A direct admission takes no slot of a caller that could be admitted. *)
Lemma direct_blocked key0 allocations s' tid t : key0 = from_allocations allocations →
  T !! tid = Some (GenericTask t) → fills (slots allocations) s s' →
  oldest_admissible_overlap (rs_waiters s) key0 (admissible s now) = None → blocked s now t → blocked s' now t.
Proof using B HP.
  intros -> Ht Hfi Hnone. eapply fills_blocked; [done..|]. intros key wt Hne Hh Ho Ha slot Hs Hin.
  pose proof (oldest_overlap_spec (rs_waiters s) (from_allocations allocations) (admissible s now)) as Hold.
  rewrite Hnone in Hold. rewrite (Hold key wt) in Ha; [done| |done]. apply overlaps_elem. exists slot.
  rewrite from_allocations_elem. split; [done|].
  destruct (lane_caller key wt (head_elem _ _ Hh)) as (? & ? & _ & _ & _ & -> & _). by apply from_allocations_elem.
Qed.

(** The global request slot alone. *)
Lemma class_blocked s' tid t : T !! tid = Some (GenericTask t) → fills [(Global, Request)] s s' →
  blocked s now t → blocked s' now t.
Proof using B HP.
  intros Ht Hfi. eapply fills_blocked; [done..|].
  intros key wt Hne Hh Ho Ha slot Hs ->%list_elem_of_singleton. apply Hne.
  destruct (lane_caller key wt (head_elem _ _ Hh)) as (i & t' & Ht' & Hal & _ & -> & _ & _ & [_ Hplain]).
  rewrite Hal in Hplain. specialize (Hplain Hs).
  destruct (b_tasks _ _ _ _ _ B _ _ Ht) as (_ & Hkt & _). destruct (HP _ _ Ht) as [_ Hpt].
  apply overlaps_elem in Ho as (x & Hx & Hx'). rewrite Hkt, from_allocations_elem in Hx.
  rewrite from_allocations_elem, Hplain, list_elem_of_singleton in Hx'. subst x.
  unfold from_allocations. fold (slots (wt_allocations wt)). rewrite Hkt, Hplain. unfold from_allocations.
  fold (slots (ad_allocations t)). by rewrite (Hpt Hx).
Qed.

Lemma head_push q ticket waiter key wt : head (lane_of q key) = Some wt →
  head (lane_of (queue_push q ticket waiter) key) = Some wt.
Proof using.
  unfold queue_push, lane_of. destruct (decide (key = tk_key ticket)) as [->|Hne].
  - rewrite lookup_insert_eq. cbn. by destruct (default [] (q !! tk_key ticket)).
  - by rewrite lookup_insert_ne.
Qed.

(** What a caller that queues changes. *)
Lemma enqueue_effect allocations key0 exhausted s' r : admit_queue s now allocations key0 exhausted = (s', r) →
  rs_failure s' = rs_failure s ∧ (∀ slot, slot_view s' slot = slot_view s slot) ∧
  (∀ key wt, head (lane_of (rs_waiters s) key) = Some wt → head (lane_of (rs_waiters s') key) = Some wt) ∧
  ∀ k, r = Ok k → k = mkTicket (rs_next_waiter s) key0 now.
Proof using.
  unfold admit_queue. case_match; intros [= <- <-]; [done|].
  set (s1 := s <| rs_next_waiter ::= next_id |>). split_and!; [done| | |by intros k [= <-]].
  - intros slot. transitivity (slot_view s1 slot); [|done].
    apply (fi_view [] s1 _ (fills_over_queued [] (λ n, add64 n 1) allocations s1)), not_elem_of_nil.
  - intros key wt Hh. exact (head_push (rs_waiters s) _ _ _ _ Hh).
Qed.

Lemma enqueue_blocked allocations key0 exhausted s' r tid t : admit_queue s now allocations key0 exhausted = (s', r) →
  T !! tid = Some (GenericTask t) → blocked s now t → blocked s' now t.
Proof using B.
  intros (Hf & Hv & Hh & _)%enqueue_effect Ht. apply (blocked_mono _ now tid); [done..| |done|].
  - intros slot. by apply fuller_eq.
  - by intros.
Qed.

Lemma queued_blocked s' tid t k t' : T !! tid = Some (GenericTask t) → ad_ticket t = None →
  admit_queue s now (ad_allocations t) (ad_key t) (ad_exhausted t) = (s', Ok k) →
  ad_allocations t' = ad_allocations t → ad_key t' = ad_key t → ad_ticket t' = Some k →
  blocked s now t → blocked s' now t'.
Proof using B HP.
  intros Ht Hnt (Hf & Hv & Hh & Hk)%enqueue_effect Hal Hkey Hk'. rewrite (Hk _ eq_refl) in Hk'. clear Hk.
  unfold blocked. rewrite Hnt, Hk', Hal, Hkey. intros [Hb|[Hb|(key & wt & Hne & Hhd & Ho & Ha & _)]].
  - left. unfold is_head, queue_is_empty in *. cbn.
    destruct (lane_of (rs_waiters s) (ad_key t)) as [|w0 l] eqn:El; [done|].
    assert (head (lane_of (rs_waiters s) (ad_key t)) = Some w0) as H0 by (by rewrite El). rewrite (Hh _ _ H0).
    destruct (lane_caller _ _ (head_elem _ _ H0)) as (? & ? & _ & _ & _ & _ & Hlt & _). apply Z.eqb_neq. lia.
  - right. left. eapply can_admit_fuller; [|done]. intros. by apply fuller_eq.
  - right. right. exists key, wt. split_and!; [done|by apply Hh|done| |].
    + by eapply admissible_mono.
    + intros k0 [= <-]. destruct (lane_caller _ _ (head_elem _ _ Hhd)) as (? & ? & _ & _ & _ & _ & Hlt & Hq & _).
      unfold waiter_before. cbn. lia.
Qed.
End blocked.

(** ** Callers with a ticket wake the others when they leave *)

Lemma withdraw_some n s now T L tid t k s1 : books n s now T L → T !! tid = Some (GenericTask t) →
  ad_ticket t = Some k → same_books s s1 → is_Some (withdraw s1 (Some k)).2.
Proof.
  intros B Ht Hk Hs. destruct (books_find _ _ _ _ _ _ _ _ (books_same _ _ _ _ _ _ Hs B) Ht Hk) as (w & rest & Hr & _).
  cbn. unfold remove_waiter, queue_remove. by rewrite Hr.
Qed.

Lemma queued_attempt_wakes n s now T L tid t k s2 woken r : books n s now T L → T !! tid = Some (GenericTask t) →
  ad_ticket t = Some k → admit_attempt s true now (ad_allocations t) (ad_key t) (ad_ticket t) = (s2, woken, Some r) →
  woken = true.
Proof.
  intros B Ht Hk. rewrite Hk. unfold admit_attempt. cbn [negb]. case_match; [done|].
  assert (Hw : ∀ s1, same_books s s1 → is_Some (withdraw s1 (Some k)).2) by (intros; by eapply withdraw_some).
  pose proof (Hw _ (same_books_admission s (ad_allocations t) now)) as H1. specialize (Hw s ltac:(done)).
  destruct (circuit_available _ _ _).
  - case_match; [done|]. destruct (circuit_admission _ _ _) as [s1 [probes|ra]]; cbn [fst] in H1;
      unfold circuit_rejection; destruct (withdraw s1 (Some k)) as [s3 queued];
      intros [= _ <- _]; by apply bool_decide_eq_true.
  - unfold circuit_rejection. destruct (withdraw s (Some k)) as [s3 queued]. intros [= _ <- _].
    by apply bool_decide_eq_true.
Qed.

Lemma attempt_none s enabled now allocations key ticket s2 woken :
  admit_attempt s enabled now allocations key ticket = (s2, woken, None) → s2 = s ∧ woken = false ∧ enabled = true.
Proof.
  unfold admit_attempt. destruct enabled; cbn [negb]; [|done].
  match goal with |- context [if negb ?b then _ else _] => destruct b end; cbn [negb]; [|by intros [= <- <-]].
  assert (∀ s0 ra, circuit_rejection s0 ticket ra ≠ (s2, woken, None)) as Hr
    by (intros s0 ra; unfold circuit_rejection; by destruct (withdraw s0 ticket)).
  destruct (circuit_available _ _ _); [|by intros ?%Hr].
  match goal with |- context [if negb ?b then _ else _] => destruct b end; cbn [negb]; [|by intros [= <- <-]].
  destruct (circuit_admission _ _ _) as [s1 [probes|ra]]; [by destruct (withdraw s1 ticket)|by intros ?%Hr].
Qed.

Lemma expire_wakes n s now T L tid t k exhausted s2 woken r : books n s now T L → T !! tid = Some (GenericTask t) →
  ad_ticket t = Some k → admit_expire s (Some k) exhausted = (s2, woken, r) → woken = true.
Proof.
  intros B Ht Hk. unfold admit_expire. pose proof (withdraw_some _ _ _ _ _ _ _ _ s B Ht Hk ltac:(done)) as H.
  destruct (withdraw s (Some k)) as [s3 removed]. intros [= _ <- _]. by apply bool_decide_eq_true.
Qed.

(** A priority attempt that does not return wakes nobody. *)
Lemma class_attempt_quiet s enabled now class eligible ticket s2 woken out :
  priority_attempt s enabled now class eligible ticket = (s2, woken, out) → (∀ r, out ≠ PrReturn r) → woken = false.
Proof.
  unfold priority_attempt. destruct enabled; cbn [negb]; [|by intros [= _ <- _]].
  case_match; [by intros [= _ <- _]|]. destruct (rs_scopes s !! Global) as [global|].
  - match goal with |- context [match ?b with true => _ | false => _ end] => destruct b end; [|by intros [= _ <- _]].
    destruct (priority_can_admit _ _ _ _ _); [|by intros [= _ <- _]].
    destruct (priority_withdraw s ticket), (priority_admit _ _ _). by intros [= _ <- _].
  - destruct (priority_withdraw s ticket). intros [= _ _ <-] Hr. by destruct (Hr (Err unavailable_rejection)).
Qed.

(** ** The invariant of sleeping callers *)

(** The notifications counted when a caller that found no slot created its
    [notified]. *)
Definition waiting_since (stage : Stage) : option Z :=
  match stage with
  | AtQueue seen | AtTimeout seen | AtWait seen _ => Some seen
  | AtTop | AtAttempt _ => None
  end.

Record watchful (w : World) : Prop := {
  wa_plain : ∀ tid t, w_tasks w !! tid = Some t → plain t;
  wa_blocked : w_enabled w = true → w_configuring w = None →
    ∀ tid t seen, w_tasks w !! tid = Some (GenericTask t) → waiting_since (ad_stage t) = Some seen →
      w_generation w ≤ seen → blocked (w_state w) (w_now w) t;
}.

Lemma waiting_seen stage seen : waiting_since stage = Some seen → stage_seen stage = Some seen.
Proof. by destruct stage. Qed.

(** A step of one caller: either everybody is woken, or the others stay
    blocked. *)
Lemma watchful_step w w' tid : stages_ok (w_generation w) (w_tasks w) → watchful w →
  w_enabled w' = w_enabled w → w_configuring w' = w_configuring w → w_generation w ≤ w_generation w' →
  (∀ i, i ≠ tid → w_tasks w' !! i = w_tasks w !! i) →
  (∀ t, w_tasks w' !! tid = Some t → plain t) →
  (w_generation w' = w_generation w → w_enabled w = true →
     ∀ i t, w_tasks w !! i = Some (GenericTask t) → blocked (w_state w) (w_now w) t → blocked (w_state w') (w_now w') t) →
  (w_enabled w = true → w_configuring w = None → ∀ t seen, w_tasks w' !! tid = Some (GenericTask t) →
     waiting_since (ad_stage t) = Some seen → w_generation w' ≤ seen → blocked (w_state w') (w_now w') t) →
  watchful w'.
Proof.
  intros HS [HP HB] He Hc Hg Ht Hp Hothers Hself. split.
  - intros i t Hi. destruct (decide (i = tid)) as [->|Hne]; [by apply Hp|]. rewrite Ht in Hi by done. by eapply HP.
  - rewrite He, Hc. intros Hen Hco i t seen Hi Hw Hseen.
    destruct (decide (i = tid)) as [->|Hne]; [by eapply Hself|]. rewrite Ht in Hi by done.
    pose proof (proj2 (HS _ _ Hi) seen (waiting_seen _ _ Hw)) as Hle.
    apply (Hothers ltac:(lia) Hen i t Hi). eapply HB; [done..|lia].
Qed.

Section steps.
Context (n : Z) (w : World).
Hypothesis Hok : world_ok n w.
Hypothesis Hwa : watchful w.

Definition keeps (s : RuntimeState) : Prop :=
  w_enabled w = true → ∀ i t, w_tasks w !! i = Some (GenericTask t) →
    blocked (w_state w) (w_now w) t → blocked s (w_now w) t.

Lemma watchful_finish s tid r woken : (woken = false → keeps s) →
  watchful (finish_task tid r (wake woken (w <| w_state := s |>))).
Proof using Hok Hwa.
  intros Hk. set (w1 := wake woken (w <| w_state := s |>)).
  destruct (wake_fields woken (w <| w_state := s |>)) as (Es & En & Et & _ & Ee & Ec & Eg). fold w1 in Es, En, Et, Ee, Ec, Eg.
  cbn in Es, En, Et, Ee, Ec, Eg. assert (Hf : w_tasks (finish_task tid r w1) = delete tid (w_tasks w) ∧
    w_state (finish_task tid r w1) = s ∧ w_now (finish_task tid r w1) = w_now w ∧
    w_enabled (finish_task tid r w1) = w_enabled w ∧ w_configuring (finish_task tid r w1) = w_configuring w ∧
    w_generation (finish_task tid r w1) = w_generation w1)
    by (unfold finish_task; rewrite <-Et; destruct r as [[l|]|e]; done).
  destruct Hf as (F1 & F2 & F3 & F4 & F5 & F6).
  apply (watchful_step w _ tid); rewrite ?F1, ?F2, ?F3, ?F6; [apply Hok|done..| | | |].
  - intros i Hne. by rewrite lookup_delete_ne.
  - intros t. by rewrite lookup_delete_eq.
  - intros Hgen. apply Hk. destruct woken; [|done]. cbn in Hgen. lia.
  - intros _ _ t seen. by rewrite lookup_delete_eq.
Qed.

Lemma watchful_set s tid t' : keeps s → plain t' →
  (w_enabled w = true → w_configuring w = None → ∀ t seen, t' = GenericTask t → waiting_since (ad_stage t) = Some seen →
     w_generation w ≤ seen → blocked s (w_now w) t) →
  watchful (set_task tid t' (w <| w_state := s |>)).
Proof using Hok Hwa.
  intros Hk Hp Hself. apply (watchful_step w _ tid); [apply Hok|done..|cbn; lia| | | |].
  - intros i Hne. cbn. by rewrite lookup_insert_ne.
  - intros t. cbn. rewrite lookup_insert_eq. by intros [= <-].
  - by intros _.
  - cbn. rewrite lookup_insert_eq. intros He Hc t seen [= ->]. by apply Hself.
Qed.

Lemma keeps_same : keeps (w_state w).
Proof using. by intros _ i t _ Hb. Qed.

Lemma keeps_fills s : fills [] (w_state w) s → keeps s.
Proof using Hok.
  intros Hfi _ i t Hi. eapply fills_blocked; [apply Hok|done..|]. intros. apply not_elem_of_nil.
Qed.

Lemma keeps_class s : fills [(Global, Request)] (w_state w) s → keeps s.
Proof using Hok Hwa. intros Hfi _ i t Hi. eapply class_blocked; [apply Hok|apply Hwa|done..]. Qed.

Lemma watchful_move tid t' : plain t' →
  (∀ t, t' = GenericTask t → waiting_since (ad_stage t) = None) → watchful (set_task tid t' w).
Proof using Hok Hwa.
  intros Hp Hn. replace w with (w <| w_state := w_state w |>) by (by destruct w).
  apply watchful_set; [apply keeps_same|done|]. intros _ _ t seen Ht. by rewrite (Hn _ Ht).
Qed.

Lemma keeps_direct t tid s2 woken r : w_tasks w !! tid = Some (GenericTask t) →
  admit_attempt (w_state w) (w_enabled w) (w_now w) (ad_allocations t) (ad_key t) (ad_ticket t) = (s2, woken, Some r) →
  woken = false → keeps s2.
Proof using Hok Hwa.
  intros Ht Ea -> He i t' Hi Hb. rewrite He in Ea. pose proof (wo_books _ _ Hok) as B.
  destruct (ad_ticket t) as [k|] eqn:Hk.
  - rewrite <-Hk in Ea. by pose proof (queued_attempt_wakes _ _ _ _ _ _ _ _ _ _ _ B Ht Hk Ea).
  - destruct (b_tasks _ _ _ _ _ B _ _ Ht) as (Hnd & Hkey & _).
    destruct (fills_direct _ _ t _ _ _ Hnd (books_fit _ _ _ _ _ B) Hk Ea) as [_ [Hfi|[Hfi Hnone]]].
    + by eapply keeps_fills.
    + eapply direct_blocked; [apply Hok|apply Hwa|done..].
Qed.

Lemma admit_turn_watchful tid t w' : w_tasks w !! tid = Some (GenericTask t) → admit_turn tid t w = Some w' → watchful w'.
Proof using Hok Hwa.
  intros Ht. pose proof Hok as [B HS]. pose proof (HS _ _ Ht) as [Hst _]. pose proof (wa_plain _ Hwa _ _ Ht) as Hp.
  pose proof (λ He Hc, wa_blocked _ Hwa He Hc tid t) as Hbl. unfold admit_turn.
  destruct (ad_stage t) as [|seen|seen|seen|seen until] eqn:Es; cbn in Hst.
  - intros [= <-]. apply watchful_move; [done|]. by intros ? [= <-].
  - destruct (admit_attempt _ _ _ _ _ _) as [[s2 woken] [r|]] eqn:Ea; intros [= <-].
    + apply watchful_finish. by eapply keeps_direct.
    + destruct (attempt_none _ _ _ _ _ _ _ _ Ea) as (-> & -> & He). rewrite He in Ea.
      apply watchful_set; [apply keeps_same|done|]. intros _ _ t0 s0 [= <-] _ _.
      pose proof (attempt_blocked _ _ _ _ _ B (wa_plain _ Hwa) _ _ _ _ Ht Ea) as Hb. exact Hb.
  - destruct (admit_queue _ _ _ _ _) as [s2 r] eqn:Ea. intros [= <-].
    assert (keeps s2) as Hk by (intros _ i t' Hi; by eapply enqueue_blocked).
    destruct r as [k|e]; [|by apply (watchful_finish s2 tid (Err e) false)].
    apply watchful_set; [done..|]. intros He Hc t0 s0 [= <-] [= <-] Hseen.
    eapply queued_blocked; [apply Hok|apply Hwa|exact Ht|done|exact Ea|done..|]. by eapply Hbl.
  - destruct (ad_ticket t) as [k|] eqn:Hk; [|by destruct Hst]. case_match.
    + destruct (admit_expire _ _ _) as [[s2 woken] r] eqn:Ea. intros [= <-]. apply watchful_finish.
      by rewrite (expire_wakes _ _ _ _ _ _ _ _ _ _ _ _ B Ht Hk Ea).
    + intros [= <-]. replace w with (w <| w_state := w_state w |>) at 2 by (by destruct w).
      apply watchful_set; [apply keeps_same|done|]. intros He Hc t0 s0 [= <-] [= <-] Hseen. by eapply Hbl.
  - case_match; [|done]. intros [= <-]. apply watchful_move; [done|]. by intros ? [= <-].
Qed.

Lemma unprioritized_plain deadline : plain (GenericTask (unprioritized deadline)).
Proof using. done. Qed.

Lemma class_turn_watchful tid t w' : w_tasks w !! tid = Some (ClassTask t) → class_turn tid t w = Some w' → watchful w'.
Proof using Hok Hwa.
  intros Ht. pose proof Hok as [B HS]. unfold class_turn. destruct (pk_stage t) as [|seen|seen|seen|seen until].
  - intros [= <-]. by apply watchful_move.
  - destruct (priority_attempt _ _ _ _ _ _) as [[s2 woken] out] eqn:Ea. intros [= <-].
    pose proof (keeps_class _ (fills_class_attempt _ _ _ _ _ _ _ _ _ (books_fit _ _ _ _ _ B) Ea)) as Hk.
    destruct out as [r| |]; [by apply watchful_finish|..].
    + assert (woken = false) as -> by (by eapply class_attempt_quiet). apply watchful_set; [done|apply unprioritized_plain|]. by intros _ _ ? ? [= <-].
    + assert (woken = false) as -> by (by eapply class_attempt_quiet). by apply watchful_set.
  - destruct (priority_queue _ _ _ _) as [s2 r] eqn:Ea. intros [= <-].
    pose proof (keeps_fills _ (fills_class_queue _ _ _ _ _ _ Ea)) as Hk. destruct r as [[r| |]|k].
    + by apply (watchful_finish s2 tid r false).
    + apply watchful_set; [done|apply unprioritized_plain|]. by intros _ _ ? ? [= <-].
    + apply watchful_set; [done|apply unprioritized_plain|]. by intros _ _ ? ? [= <-].
    + by apply watchful_set.
  - destruct (pk_ticket t) as [k|]; [|intros [= <-]].
    2:{ replace w with (w <| w_state := w_state w |>) by (by destruct w).
        apply (watchful_finish (w_state w) tid (Err unavailable_rejection) false). intros _. apply keeps_same. }
    destruct (priority_timeout _ _ _ _ _) as [timeout|].
    + case_match; [|intros [= <-]; by apply watchful_move].
      destruct (priority_expire _ _ _) as [[s2 woken] r] eqn:Ea. intros [= <-]. apply watchful_finish. intros _.
      by eapply keeps_fills, fills_class_expire.
    + pose proof (fills_class_withdraw [] (w_state w) (Some k)) as Hf.
      destruct (priority_withdraw _ _) as [s2 removed]. intros [= <-].
      apply (watchful_finish s2 tid (Err unavailable_rejection)). intros _. by apply keeps_fills.
  - case_match; [|done]. intros [= <-]. by apply watchful_move.
Qed.

Lemma expire_turn_watchful tid t w' : w_tasks w !! tid = Some t → expire_turn tid t w = Some w' → watchful w'.
Proof using Hok Hwa.
  intros Ht. pose proof Hok as [B HS]. destruct t as [t|t]; cbn.
  - destruct (wait_elapsed (ad_stage t) w) eqn:Ew; [|done]. pose proof (proj1 (HS _ _ Ht)) as Hst. cbn in Hst.
    destruct (ad_stage t); try done. destruct Hst as [k Hk]. rewrite Hk.
    destruct (admit_expire _ _ _) as [[s2 woken] r] eqn:Ea. intros [= <-]. apply watchful_finish.
    by rewrite (expire_wakes _ _ _ _ _ _ _ _ _ _ _ _ B Ht Hk Ea).
  - case_match; [|done]. destruct (priority_expire _ _ _) as [[s2 woken] r] eqn:Ea. intros [= <-].
    apply watchful_finish. intros _. by eapply keeps_fills, fills_class_expire.
Qed.

Lemma cancel_turn_watchful tid t w' : w_tasks w !! tid = Some t → cancel_turn tid t w = Some w' → watchful w'.
Proof using Hok Hwa.
  intros Ht. pose proof Hok as [B HS]. pose (e := mkRejection ActiveLimit 0).
  destruct t as [t|t]; cbn; (case_match; [|done]).
  - destruct (ad_ticket t) as [k|] eqn:Hk.
    + pose proof (withdraw_some _ _ _ _ _ _ _ _ (w_state w) B Ht Hk ltac:(done)) as H1.
      destruct (withdraw _ _) as [s2 removed]. intros [= <-]. apply (watchful_finish s2 tid (Err e)).
      by rewrite bool_decide_eq_true_2.
    + intros [= <-]. apply (watchful_finish (w_state w) tid (Err e) false). intros _. apply keeps_same.
  - pose proof (fills_class_withdraw [] (w_state w) (pk_ticket t)) as Hf.
    destruct (priority_withdraw _ _) as [s2 removed]. intros [= <-].
    apply (watchful_finish s2 tid (Err e)). intros _. by apply keeps_fills.
Qed.
End steps.

(** ** Every step *)

(** The entry point that takes the global and a route's slot at once. *)
Definition is_route_request (a : Action) : bool :=
  match a with
  | Call _ (RouteRequest _) _ => true
  | _ => false
  end.

Lemma absorb_in unique a unique' : absorb unique a = Some unique' → al_slot a ∈ slots unique.
Proof.
  revert unique'. induction unique as [|x unique IH]; intros unique'; cbn; [done|]. case_bool_decide as Hx.
  - intros _. rewrite Hx. by left.
  - destruct (absorb unique a) as [u|]; [|done]. intros _. right. by eapply IH.
Qed.

(** Deduplication keeps the slots. *)
Lemma deduplicate_slots allocations slot :
  slot ∈ slots (deduplicate_allocations allocations) ↔ slot ∈ slots allocations.
Proof.
  unfold deduplicate_allocations. set (step := λ unique a, _).
  assert (∀ acc, slot ∈ slots (foldl step acc allocations) ↔ slot ∈ slots acc ∨ slot ∈ slots allocations) as H.
  { induction allocations as [|a allocations IH]; intros acc; cbn [foldl]; [cbn; rewrite elem_of_nil; tauto|].
    rewrite IH. subst step. cbn beta. change (slots (a :: allocations)) with (al_slot a :: slots allocations).
    rewrite elem_of_cons.
    destruct (absorb acc a) as [u|] eqn:E.
    - rewrite (absorb_slots _ _ _ E). split; [tauto|]. intros [|[->|]]; [tauto| |tauto]. left. by eapply absorb_in.
    - unfold slots at 1. rewrite map_app, elem_of_app. cbn. rewrite list_elem_of_singleton. fold (slots acc). tauto. }
  rewrite H. cbn. rewrite elem_of_nil. tauto.
Qed.

Lemma start_task_plain s call deadline : is_route_request (Call 0 call deadline) = false → plain (start_task s call deadline).
Proof.
  assert (∀ allocations d e, allocations ≠ [] →
    ((Global, Request) ∈ slots allocations → False) → plain (GenericTask (start_admit allocations d e))) as H.
  { intros allocations d e Hne Hg. split; cbn.
    - destruct allocations as [|a allocations]; [done|]. intros Hd.
      assert (al_slot a ∈ slots (deduplicate_allocations (a :: allocations))) as Hin
        by (apply deduplicate_slots; by left).
      rewrite Hd in Hin. by apply elem_of_nil in Hin.
    - rewrite deduplicate_slots. intros Hin. by destruct (Hg Hin). }
  destruct call as [route|class e| |route|route pool|route pool m|pool|route pool|route|route];
    cbn [start_task is_route_request]; try done; intros _;
    (apply H; [done|]); try destruct pool; unfold slots, al_slot; cbn; rewrite !elem_of_cons, elem_of_nil; intuition congruence.
Qed.

Lemma perform_watchful n w a w' : world_ok n w → watchful w → is_route_request a = false → perform a w = Some w' →
  watchful w'.
Proof.
  intros Hok Hwa Hr. pose proof Hok as [B HS]. destruct a; cbn [perform].
  - destruct (Z.leb_spec 0 elapsed); [|done]. intros [= <-]. split; [apply Hwa|]. cbn. intros He Hc i t seen Hi Hw Hs.
    eapply (blocked_mono _ _ _ _ _ B); [exact Hi|lia|done|intros; apply fuller_refl|done|done|].
    by eapply (wa_blocked _ Hwa).
  - destruct (w_tasks w !! tid) eqn:Ht; [done|]. destruct (w_leases w !! tid); [done|].
    destruct (w_enabled w); cbn [negb]; intros [= <-]; [|done].
    eapply watchful_move; [done..|by apply start_task_plain|].
    destruct call; intros ? [= <-]; done.
  - destruct (w_tasks w !! tid) as [[t|t]|] eqn:Ht; [by eapply admit_turn_watchful|by eapply class_turn_watchful|done].
  - destruct (w_tasks w !! tid) as [t|] eqn:Ht; [by eapply expire_turn_watchful|done].
  - destruct (w_tasks w !! tid) as [t|] eqn:Ht; [by eapply cancel_turn_watchful|done].
  - destruct (w_leases w !! lid) as [l|]; [|done]. intros [= <-]. split; [apply Hwa|]. cbn. intros _ _ i t seen Hi Hw Hs.
    pose proof (proj2 (HS _ _ Hi) seen (waiting_seen _ _ Hw)). lia.
  - destruct (w_configuring w); [done|]. intros [= <-]. split; [apply Hwa|done].
  - destruct (w_configuring w); [|done]. intros [= <-]. split; [apply Hwa|]. cbn. intros _ _ i t seen Hi Hw Hs.
    pose proof (proj2 (HS _ _ Hi) seen (waiting_seen _ _ Hw)). lia.
Qed.

Lemma perform_all_watchful actions n w w' : world_ok n w → n + len actions ≤ U64_MAX → watchful w →
  forallb (negb ∘ is_route_request) actions = true → perform_all actions w = Some w' → watchful w'.
Proof.
  revert n w. induction actions as [|a actions IH]; intros n w Hok Hmax Hwa; cbn [perform_all forallb].
  - by intros _ [= <-].
  - rewrite len_cons in Hmax. pose proof (len_nonneg actions). intros [Ha Hr]%andb_prop.
    destruct (perform a w) as [w1|] eqn:E; [|done].
    apply (IH (n + 1) w1); [by eapply perform_ok; [|lia|]|lia| |done].
    eapply perform_watchful; [done..| |done]. by apply negb_true_iff.
Qed.

(** C11 (safety). No wake-up is lost: as long as [admit_route_request] is not
    used, a generic caller that sleeps while no reconfiguration is under way,
    and that no notification has reached since it registered, could not be
    admitted if it ran now. *)
Theorem no_lost_wakeup config start actions w tid t seen until s woken l :
  reachable config start actions w → forallb (negb ∘ is_route_request) actions = true →
  w_enabled w = true → w_configuring w = None →
  w_tasks w !! tid = Some (GenericTask t) → ad_stage t = AtWait seen until → w_generation w ≤ seen →
  admit_attempt (w_state w) (w_enabled w) (w_now w) (ad_allocations t) (ad_key t) (ad_ticket t)
    ≠ (s, woken, Some (Ok (Some l))).
Proof.
  intros Hreach Hr He Hc Ht Hst Hseen. destruct (reachable_ok _ _ _ _ Hreach) as [n [B _]]. rewrite He.
  eapply (blocked_no_grant _ _ _ _ _ B); [done|]. destruct Hreach as [Hp Hl].
  assert (watchful w) as Hwa.
  { apply (perform_all_watchful actions 1 (world_new config start)); [apply world_new_ok|lia| |done|done].
    split; cbn; [by intros i x Hi%lookup_empty_Some|by intros _ _ i x sn Hi%lookup_empty_Some]. }
  eapply (wa_blocked _ Hwa); [done..| |done]. by rewrite Hst.
Qed.
