(* ===== verification/CbReserved.v ===== *)
(** * Reserved capacity stays available

    Under a validated configuration with a fixed global capacity, and with
    the entry points the proxy uses, a class that has not used up its reserved
    requests is admitted, whatever the others hold. *)

From stdpp Require Import countable gmap functions.
From S2P Require Import Prelude Bytes F64 CbConfig CbResources CbCircuit CbTypes CbPriority CbQueue CbRuntime CbTasks.
From S2P Require Import CbViews CbInvariant CbSystem CbAdmission CbWakeups.

(** ** What only configuration changes *)

Record same_setup (s s' : RuntimeState) : Prop := {
  su_limits : ss_limits <$> rs_scopes s' !! Global = ss_limits <$> rs_scopes s !! Global;
  su_enabled : ps_enabled (rs_priority s') = ps_enabled (rs_priority s);
  su_policies : ps_policies (rs_priority s') = ps_policies (rs_priority s);
  su_capacity : ps_shared_capacity (rs_priority s') = ps_shared_capacity (rs_priority s);
}.

#[export] Instance same_setup_preorder : PreOrder same_setup.
Proof. split; [done|]. intros s1 s2 s3 [] []. split; congruence. Qed.

Lemma setup_slots g allocations s : (∀ r sc, ss_limits (g r sc) = ss_limits sc) →
  same_setup s (over_slots g allocations s).
Proof. intros Hg. split; [|done..]. by apply over_slots_frame. Qed.

Lemma setup_circuit key sc c s : rs_scopes s !! key = Some sc →
  same_setup s (s <| rs_scopes ::= insert key (sc <| ss_circuit := c |>) |>).
Proof.
  intros Hk. split; [|done..]. cbn. destruct (decide (key = Global)) as [->|]; [|by rewrite lookup_insert_ne].
  by rewrite lookup_insert_eq, Hk.
Qed.

Lemma setup_begin now keys s probes : same_setup s (begin_probes s now keys probes).1.
Proof.
  revert s probes. induction keys as [|key keys IH]; intros s probes; cbn [begin_probes]; [done|].
  destruct (rs_scopes s !! key) as [sc|] eqn:Hk; [|done]. destruct (ss_failure_enabled sc); cbn [negb]; [|apply IH].
  destruct (begin_probe _ _ _) as [c [[from to]|]]; (etrans; [by apply (setup_circuit key sc c)|]); [|apply IH].
  etrans; [|apply IH]. done.
Qed.

Lemma setup_admission allocations s now : same_setup s (circuit_admission s allocations now).1.
Proof. unfold circuit_admission. case_match; [done|]. case_match; [apply setup_begin|done]. Qed.

Lemma setup_finish probes outcome now s keys : same_setup s (foldl (finish_circuit probes outcome now) s keys).
Proof.
  revert s. induction keys as [|key keys IH]; intros s; cbn [foldl]; [done|]. etrans; [|apply IH].
  unfold finish_circuit. destruct (rs_scopes s !! key) as [sc|] eqn:Hk; [|done]. case_match; [done|].
  set (s1 := s <| rs_transition_sequence ::= _ |>). assert (same_setup s s1) as H1 by done.
  destruct (finish _ _ _ _ _ _) as [c t].
  assert (same_setup s (s1 <| rs_scopes ::= insert key (sc <| ss_circuit := c |>) |>)) as H2
    by (etrans; [exact H1|]; by apply setup_circuit).
  destruct t as [[from to]|]; [|done]. etrans; [exact H2|]. done.
Qed.

Lemma setup_abandon s probes : same_setup s (abandon_circuits s probes).
Proof.
  split; [|done..]. unfold abandon_circuits. cbn [rs_scopes over]. generalize (rs_scopes s).
  induction probes as [|key probes IH]; intros scopes; cbn [foldl]; [done|]. rewrite IH.
  destruct (decide (key = Global)) as [->|]; [rewrite lookup_alter_eq; by destruct (scopes !! Global)|].
  by rewrite lookup_alter_ne.
Qed.

Lemma setup_release s allocations probes priority outcome now :
  same_setup s (release_state s allocations probes priority outcome now).
Proof.
  unfold release_state. set (s1 := decrement_active s allocations).
  assert (same_setup s s1) as H1 by (by apply setup_slots). etrans; [exact H1|].
  set (s2 := match priority with Some _ => _ | None => _ end).
  assert (same_setup s1 s2) as H2
    by (subst s2; destruct priority as [p|]; [|done]; split; [done|..]; cbn; unfold priority_release; by case_match).
  etrans; [exact H2|]. case_bool_decide; [apply setup_abandon|]. unfold finish_circuits. case_match; [done|].
  apply setup_finish.
Qed.

Lemma setup_withdraw s ticket : same_setup s (withdraw s ticket).1.
Proof.
  destruct ticket as [k|]; [|done]. cbn. unfold remove_waiter. destruct (queue_remove _ _) as [q [w|]]; [|done]. cbn.
  transitivity (s <| rs_waiters := q |>); [done|]. by apply setup_slots.
Qed.

Lemma setup_class_withdraw s ticket : same_setup s (priority_withdraw s ticket).1.
Proof.
  destruct ticket as [k|]; [|done]. cbn. unfold remove_priority_waiter, priority_remove.
  destruct (remove_first _ _) as [[w rest]|]; [|done]. cbn [fst]. set (s1 := s <| rs_priority := _ |>).
  transitivity s1; [done|]. exact (setup_slots (over_queued (λ n, saturating_sub64 n 1)) global_request s1 (λ _ _, eq_refl)).
Qed.

Lemma setup_attempt allocations s : same_setup s (record_attempt s allocations).
Proof. unfold record_attempt. by case_match. Qed.

(** ** The sections *)

Lemma setup_admit_attempt s enabled now allocations key ticket s2 woken r :
  admit_attempt s enabled now allocations key ticket = (s2, woken, r) → same_setup s s2.
Proof.
  assert (∀ s0 ra, same_setup s s0 → circuit_rejection s0 ticket ra = (s2, woken, r) → same_setup s s2) as Hrej.
  { intros s0 ra H0. unfold circuit_rejection. pose proof (setup_withdraw s0 ticket) as H.
    destruct (withdraw s0 ticket) as [s1 removed]. intros [= <- _ _]. etrans; [exact H0|]. by etrans; [exact H|]. }
  unfold admit_attempt. destruct enabled; cbn [negb]; [|intros [= <- _ _]; apply setup_withdraw].
  match goal with |- context [if negb ?b then _ else _] => destruct b end; cbn [negb]; [|by intros [= <- _ _]].
  destruct (circuit_available _ _ _); [|by apply Hrej].
  match goal with |- context [if negb ?b then _ else _] => destruct b end; cbn [negb]; [|by intros [= <- _ _]].
  pose proof (setup_admission allocations s now) as H1.
  destruct (circuit_admission _ _ _) as [s1 [probes|ra]]; cbn in H1; [|by apply Hrej].
  pose proof (setup_withdraw s1 ticket) as H2. destruct (withdraw s1 ticket) as [s3 queued]. cbn in H2.
  set (s4 := match queued with Some _ => _ | None => _ end). assert (same_setup s3 s4) as H4 by (subst s4; by destruct queued).
  intros [= <- _ _]. etrans; [exact H1|]. etrans; [exact H2|]. etrans; [exact H4|].
  etrans; [apply (setup_attempt allocations)|]. by apply setup_slots.
Qed.

Lemma setup_admit_queue s now allocations key exhausted s2 r :
  admit_queue s now allocations key exhausted = (s2, r) → same_setup s s2.
Proof.
  unfold admit_queue. case_match; intros [= <- _]; [done|].
  transitivity (s <| rs_next_waiter ::= next_id |>); [done|].
  unfold enqueue. set (s2 := over_slots _ _ _). transitivity s2; [by apply setup_slots|done].
Qed.

Lemma setup_admit_expire s ticket exhausted s2 woken r :
  admit_expire s ticket exhausted = (s2, woken, r) → same_setup s s2.
Proof.
  unfold admit_expire. pose proof (setup_withdraw s ticket) as H. destruct (withdraw s ticket) as [s1 removed].
  intros [= <- _ _]. by etrans; [exact H|].
Qed.

Lemma setup_class_attempt s enabled now class eligible ticket s2 woken out :
  priority_attempt s enabled now class eligible ticket = (s2, woken, out) → same_setup s s2.
Proof.
  pose proof (setup_class_withdraw s ticket) as Hw. unfold priority_attempt.
  destruct enabled; cbn [negb]; [|by intros [= <- _ _]]. case_match; [by intros [= <- _ _]|].
  destruct (rs_scopes s !! Global) as [global|];
    [|destruct (priority_withdraw s ticket); by intros [= <- _ _]].
  match goal with |- context [match ?b with true => _ | false => _ end] => destruct b end; [|by intros [= <- _ _]].
  destruct (priority_can_admit _ _ _ _ _) as [kind|]; [|by intros [= <- _ _]].
  destruct (priority_withdraw s ticket) as [s1 queued]. cbn in Hw.
  set (s3 := match queued with Some _ => _ | None => _ end).
  assert (same_setup s1 s3) as H3 by (subst s3; by destruct queued).
  assert (same_setup s3 (increment_active s3 global_request)) as H4 by (by apply setup_slots).
  unfold priority_admit. intros [= <- _ _]. etrans; [exact Hw|]. etrans; [exact H3|]. etrans; [exact H4|].
  by destruct kind.
Qed.

Lemma setup_class_queue s now class eligible s2 r : priority_queue s now class eligible = (s2, r) → same_setup s s2.
Proof.
  unfold priority_queue. case_match; [by intros [= <- _]|]. case_match; [by intros [= <- _]|].
  case_match; [by intros [= <- _]|]. unfold priority_enqueue. intros [= <- _]. set (s1 := s <| rs_priority := _ |>).
  transitivity s1; [done|]. exact (setup_slots (over_queued (λ n, saturating_add64 n 1)) global_request s1 (λ _ _, eq_refl)).
Qed.

Lemma setup_class_expire s class ticket s2 woken r : priority_expire s class ticket = (s2, woken, r) → same_setup s s2.
Proof.
  unfold priority_expire. pose proof (setup_class_withdraw s ticket) as H. 
  destruct (priority_withdraw s ticket) as [s1 removed]. intros [= <- _ _]. by etrans; [exact H|].
Qed.

(** ** The system between reconfigurations *)

Definition reconfigures (a : Action) : bool :=
  match a with
  | StoreEnabled _ | ApplyConfig => true
  | _ => false
  end.

(** A step of one caller [tid] with the setup untouched. *)
Record caller_step (tid : Z) (w w' : World) : Prop := {
  cs_setup : same_setup (w_state w) (w_state w');
  cs_enabled : w_enabled w' = w_enabled w;
  cs_configuring : w_configuring w' = w_configuring w;
  cs_others : ∀ i, i ≠ tid → w_tasks w' !! i = w_tasks w !! i;
}.

Lemma step_finish tid r b w s : same_setup (w_state w) s →
  caller_step tid w (finish_task tid r (wake b (w <| w_state := s |>))) ∧
  w_tasks (finish_task tid r (wake b (w <| w_state := s |>))) !! tid = None.
Proof.
  intros Hs. destruct b, r as [[l|]|e]; (split; [split; cbn; try done; intros; by rewrite lookup_delete_ne|]);
    cbn; apply lookup_delete_eq.
Qed.

Lemma step_set tid t b w s : same_setup (w_state w) s →
  caller_step tid w (set_task tid t (wake b (w <| w_state := s |>))) ∧
  w_tasks (set_task tid t (wake b (w <| w_state := s |>))) !! tid = Some t.
Proof.
  intros Hs. destruct b; (split; [split; cbn; try done; intros; by rewrite lookup_insert_ne|]);
    cbn; apply lookup_insert_eq.
Qed.

(** What a caller is after its step. *)
Definition same_caller (s : RuntimeState) (t : Task) (t' : option Task) : Prop :=
  match t, t' with
  | _, None => True
  | GenericTask t, Some (GenericTask t') => ad_allocations t' = ad_allocations t
  | ClassTask _, Some (ClassTask _) => True
  | ClassTask _, Some (GenericTask _) => ps_enabled (rs_priority s) = false
  | GenericTask _, Some (ClassTask _) => False
  end.

Definition caller_steps (tid : Z) (t : Task) (w w' : World) : Prop :=
  caller_step tid w w' ∧ same_caller (w_state w) t (w_tasks w' !! tid).

Lemma steps_finish tid t r b w s : same_setup (w_state w) s →
  caller_steps tid t w (finish_task tid r (wake b (w <| w_state := s |>))).
Proof. intros [H Hn]%(step_finish tid r b w s). split; [done|]. rewrite Hn. by destruct t. Qed.

Lemma steps_set tid t t' b w s : same_setup (w_state w) s → same_caller (w_state w) t (Some t') →
  caller_steps tid t w (set_task tid t' (wake b (w <| w_state := s |>))).
Proof. intros [H Hn]%(step_set tid t' b w s) Ht. split; [done|]. by rewrite Hn. Qed.

Lemma steps_move tid t t' w : same_caller (w_state w) t (Some t') → caller_steps tid t w (set_task tid t' w).
Proof. intros Ht. replace w with (w <| w_state := w_state w |>) at 2 by (by destruct w). by apply (steps_set _ _ _ false). Qed.

Lemma steps_return tid t r w : caller_steps tid t w (finish_task tid r w).
Proof. replace w with (w <| w_state := w_state w |>) at 2 by (by destruct w). by apply (steps_finish _ _ _ false). Qed.

Lemma admit_turn_steps tid t w w' : admit_turn tid t w = Some w' → caller_steps tid (GenericTask t) w w'.
Proof.
  unfold admit_turn. destruct (ad_stage t).
  - intros [= <-]. by apply steps_move.
  - destruct (admit_attempt _ _ _ _ _ _) as [[s woken] [r|]] eqn:E; intros [= <-]; apply setup_admit_attempt in E;
      [by apply steps_finish|by apply steps_set].
  - destruct (admit_queue _ _ _ _ _) as [s [k|e]] eqn:E; intros [= <-]; apply setup_admit_queue in E;
      [by apply (steps_set _ _ _ false)|by apply (steps_finish tid (GenericTask t) (Err e) false w s)].
  - destruct (ad_ticket t) as [k|]; [|intros [= <-]; apply (steps_return tid (GenericTask t) (Err unavailable_rejection))]. case_match; [|intros [= <-]; by apply steps_move].
    destruct (admit_expire _ _ _) as [[s woken] r] eqn:E. intros [= <-]. apply setup_admit_expire in E.
    by apply steps_finish.
  - case_match; [|done]. intros [= <-]. by apply steps_move.
Qed.

Lemma class_attempt_fallback s enabled now class eligible ticket s2 woken :
  priority_attempt s enabled now class eligible ticket = (s2, woken, PrFallback) → ps_enabled (rs_priority s) = false.
Proof.
  unfold priority_attempt. destruct enabled; cbn [negb]; [|done]. destruct (ps_enabled _); cbn [negb]; [|done].
  destruct (rs_scopes s !! Global) as [global|]; [|by destruct (priority_withdraw s ticket)].
  match goal with |- context [match ?b with true => _ | false => _ end] => destruct b end; [|done].
  destruct (priority_can_admit _ _ _ _ _); [|done]. by destruct (priority_withdraw s ticket), (priority_admit _ _ _).
Qed.

Lemma class_queue_fallback s now class eligible s2 o :
  priority_queue s now class eligible = (s2, inl o) → (∀ r, o ≠ PrReturn r) → ps_enabled (rs_priority s) = false.
Proof.
  unfold priority_queue. destruct (ps_enabled _); cbn [negb]; [|done].
  destruct (priority_queue_rejection_reason _ _); [intros [= _ <-] Hr; by destruct (Hr _ eq_refl)|].
  destruct (can_queue _ _); cbn [negb]; [by destruct (priority_enqueue _ _ _ _)|].
  intros [= _ <-] Hr; by destruct (Hr _ eq_refl).
Qed.

Lemma class_turn_steps tid t w w' : class_turn tid t w = Some w' → caller_steps tid (ClassTask t) w w'.
Proof.
  unfold class_turn. destruct (pk_stage t).
  - intros [= <-]. by apply steps_move.
  - destruct (priority_attempt _ _ _ _ _ _) as [[s woken] out] eqn:E. intros [= <-]. pose proof (setup_class_attempt _ _ _ _ _ _ _ _ _ E).
    destruct out as [r| |]; [by apply steps_finish| |by apply steps_set].
    apply steps_set; [done|]. by eapply class_attempt_fallback.
  - destruct (priority_queue _ _ _ _) as [s r] eqn:E. intros [= <-]. pose proof (setup_class_queue _ _ _ _ _ _ E).
    destruct r as [[r| |]|k]; [by apply (steps_finish tid (ClassTask t) r false w s)| | |by apply (steps_set _ _ _ false)];
      (apply (steps_set _ _ _ false); [done|]; by eapply class_queue_fallback).
  - destruct (pk_ticket t) as [k|]; [|intros [= <-]; apply (steps_return tid (ClassTask t) (Err unavailable_rejection))]. destruct (priority_timeout _ _ _ _ _).
    + case_match; [|intros [= <-]; by apply steps_move].
      destruct (priority_expire _ _ _) as [[s woken] r] eqn:E. intros [= <-]. apply setup_class_expire in E.
      by apply steps_finish.
    + pose proof (setup_class_withdraw (w_state w) (Some k)) as H. destruct (priority_withdraw _ _) as [s removed].
      intros [= <-]. by apply (steps_finish tid (ClassTask t) (Err unavailable_rejection)).
  - case_match; [|done]. intros [= <-]. by apply steps_move.
Qed.

Lemma expire_turn_steps tid t w w' : expire_turn tid t w = Some w' → caller_steps tid t w w'.
Proof.
  destruct t as [t|t]; cbn; (case_match; [|done]).
  - destruct (admit_expire _ _ _) as [[s woken] r] eqn:E. intros [= <-]. apply setup_admit_expire in E.
    by apply steps_finish.
  - destruct (priority_expire _ _ _) as [[s woken] r] eqn:E. intros [= <-]. apply setup_class_expire in E.
    by apply steps_finish.
Qed.

Lemma cancel_turn_steps tid t w w' : cancel_turn tid t w = Some w' → caller_steps tid t w w'.
Proof.
  pose (e := Err (mkRejection ActiveLimit 0) : Admission). destruct t as [t|t]; cbn; (case_match; [|done]).
  - pose proof (setup_withdraw (w_state w) (ad_ticket t)) as Hsu. destruct (withdraw _ _) as [s removed].
    intros [= <-]. by apply (steps_finish tid _ e).
  - pose proof (setup_class_withdraw (w_state w) (pk_ticket t)) as Hsu. destruct (priority_withdraw _ _) as [s removed].
    intros [= <-]. by apply (steps_finish tid _ e).
Qed.

(** ** Leases within the reservations *)

Definition global_slot : ScopeKey * ResourceKind := (Global, Request).

(** No reservation and no share is exceeded, and the global request slot is
    held by the classes alone. *)
Record within (p : PriorityAdmissionState) (L : gmap Z AdmissionLease) : Prop := {
  wi_holders : ∀ lid l, L !! lid = Some l → holds global_slot l = true → is_Some (ls_priority l);
  wi_reserved : ∀ c, count (holds_kind c Reserved) L ≤ Z.max (rp_reserved_requests (ps_policies p c)) 0;
  wi_class_shared : ∀ c, count (holds_kind c Shared) L ≤ max_shared_requests (ps_policies p c);
  wi_shared : count holds_shared L ≤ ps_shared_capacity p;
}.

Lemma count_delete_le {V} (P : V → bool) (m : gmap Z V) k : count P (delete k m) ≤ count P m.
Proof.
  destruct (m !! k) as [v|] eqn:E; [|by rewrite delete_id]. rewrite (count_delete _ _ _ _ E). destruct (P v); cbn; lia.
Qed.

Lemma within_delete p L lid : within p L → within p (delete lid L).
Proof.
  intros [H1 H2 H3 H4]. split.
  - intros i l [_ Hi]%lookup_delete_Some. by apply (H1 i).
  - intros c. etrans; [apply count_delete_le|done].
  - intros c. etrans; [apply count_delete_le|done].
  - etrans; [apply count_delete_le|done].
Qed.

(** A lease of another kind of slot. *)
Lemma within_plain p L tid l : L !! tid = None → ls_priority l = None → global_slot ∉ slots (ls_allocations l) →
  within p L → within p (<[tid:=l]> L).
Proof.
  intros Hn Hp Hs [H1 H2 H3 H4].
  assert (∀ c k, holds_kind c k l = false) as Hk by (intros; unfold holds_kind; by rewrite Hp).
  assert (holds_shared l = false) as Hsh by (unfold holds_shared; by rewrite Hp). split.
  - intros i l' [[<- <-]|[_ Hi]]%lookup_insert_Some; [|by eapply H1]. unfold holds. by rewrite bool_decide_eq_false_2.
  - intros c. rewrite count_insert_new, Hk by done. cbn. by rewrite Z.add_0_r.
  - intros c. rewrite count_insert_new, Hk by done. cbn. by rewrite Z.add_0_r.
  - rewrite count_insert_new, Hsh by done. cbn. by rewrite Z.add_0_r.
Qed.

Lemma within_class p0 p L tid class eligible active capacity kind : L !! tid = None →
  ps_policies p = ps_policies p0 → ps_shared_capacity p = ps_shared_capacity p0 →
  (∀ c, act_reserved (ps_active p c) = count (holds_kind c Reserved) L) →
  (∀ c, act_shared (ps_active p c) = count (holds_kind c Shared) L) →
  ps_shared_active p = count holds_shared L → count holds_shared L ≤ U64_MAX →
  priority_can_admit p class eligible active capacity = Some kind → within p0 L →
  within p0 (<[tid:=mkLease global_request [] (Some (mkPriorityLease class kind))]> L).
Proof.
  intros Hn Hpol Hcap Hr Hs Hsh Hmax Hadm [H1 H2 H3 H4].
  assert (Hlim : match kind with
    | Reserved => count (holds_kind class Reserved) L < rp_reserved_requests (ps_policies p0 class)
    | Shared => count (holds_kind class Shared) L < max_shared_requests (ps_policies p0 class) ∧
        count holds_shared L < ps_shared_capacity p0
    end).
  { revert Hadm. unfold priority_can_admit. rewrite Hpol, Hcap, Hr, Hs, Hsh. case_match; [done|]. case_match; [done|].
    destruct (eligible && _) eqn:E; [intros [= <-]; lia|]. case_match; [done|].
    unfold saturating_add64, saturating_sub64. case_match; [intros [= <-]; lia|done]. }
  set (l := mkLease _ _ _).
  assert (∀ c k, holds_kind c k l = bool_decide (class = c) && bool_decide (kind = k)) as Hk by done.
  assert (holds_shared l = bool_decide (kind = Shared)) as Hsl by done. split.
  - intros i l' [[<- <-]|[_ Hi]]%lookup_insert_Some; [by eexists|by eapply H1].
  - intros c. rewrite count_insert_new, Hk by done. specialize (H2 c).
    destruct kind; repeat case_bool_decide; subst; try done; cbn; lia.
  - intros c. rewrite count_insert_new, Hk by done. specialize (H3 c).
    destruct kind; repeat case_bool_decide; subst; try done; cbn; lia.
  - rewrite count_insert_new, Hsl by done. destruct kind; case_bool_decide; try done; cbn; lia.
Qed.

(** ** The invariant *)

Record guarded (s0 : RuntimeState) (w : World) : Prop := {
  gd_setup : same_setup s0 (w_state w);
  gd_enabled : w_enabled w = true;
  gd_configuring : w_configuring w = None;
  gd_tasks : ∀ tid t, w_tasks w !! tid = Some (GenericTask t) → global_slot ∉ slots (ad_allocations t);
  gd_leases : within (rs_priority s0) (w_leases w);
}.

Lemma guarded_leases n s0 a w w' : world_ok n w → guarded s0 w → perform a w = Some w' →
  within (rs_priority s0) (w_leases w').
Proof.
  intros [B _] [[Hl He Hp Hc] _ _ Hta Hle] [->|[(tid & l & Hg & ->)|[lid ->]]]%perform_leases;
    [done| |by apply within_delete].
  destruct Hg as [(t & s & woken & Ht & Ea)|(t & s & woken & Ht & Ea)]; pose proof (b_apart _ _ _ _ _ B _ _ Ht) as Hn.
  - apply admit_attempt_lease in Ea as ([Hal Hpr] & _). apply within_plain; [done..| |done]. rewrite Hal. by eapply Hta.
  - apply priority_attempt_lease in Ea as (global & kind & _ & _ & Hadm & ->).
    eapply within_class; [done..|apply B|apply B|apply B| |exact Hadm|done].
    pose proof (count_range holds_shared (w_leases w)). pose proof (b_size _ _ _ _ _ B). pose proof (b_max _ _ _ _ _ B). lia.
Qed.

(** The callers of the entry points the proxy uses. *)
Lemma start_task_apart s call deadline t : is_route_request (Call 0 call deadline) = false →
  start_task s call deadline = GenericTask t → global_slot ∉ slots (ad_allocations t).
Proof.
  destruct call as [route|class e| |route|route pool|route pool m|pool|route pool|route|route];
    cbn [start_task is_route_request]; try done; intros _ [= <-]; cbn [start_admit ad_allocations];
    rewrite deduplicate_slots; try destruct pool; unfold slots, al_slot, global_slot; cbn;
    rewrite !elem_of_cons, elem_of_nil; intuition congruence.
Qed.

Lemma guarded_steps s0 tid t w w' : ps_enabled (rs_priority s0) = true → guarded s0 w → w_tasks w !! tid = Some t →
  caller_steps tid t w w' → within (rs_priority s0) (w_leases w') → guarded s0 w'.
Proof.
  intros Hen [Hs He Hc Hta _] Ht [[H1 H2 H3 H4] Hself] Hle.
  split; [by etrans|congruence|congruence| |done]. intros i t' Hi.
  destruct (decide (i = tid)) as [->|]; [|rewrite H4 in Hi by done; by eapply Hta].
  rewrite Hi in Hself. destruct t as [t|t]; cbn in Hself; [rewrite Hself; by eapply Hta|].
  pose proof (su_enabled _ _ Hs). congruence.
Qed.

Lemma perform_guarded n s0 a w w' : ps_enabled (rs_priority s0) = true → world_ok n w → guarded s0 w →
  is_route_request a || reconfigures a = false → perform a w = Some w' → guarded s0 w'.
Proof.
  intros Hen Hok Hg [Hr Hc]%orb_false_iff Hp. pose proof (guarded_leases _ _ _ _ _ Hok Hg Hp) as Hle.
  pose proof Hg as [Hs He Hco Hta _]. destruct a; cbn [perform] in Hp; try done.
  - case_match; [|done]. simplify_eq. by split.
  - destruct (w_tasks w !! tid) eqn:Ht; [done|]. destruct (w_leases w !! tid); [done|].
    rewrite He in Hp. cbn in Hp. simplify_eq. split; try done. cbn.
    intros i t [[<- Hst]|[_ Hi]]%lookup_insert_Some; [by eapply start_task_apart|by eapply Hta].
  - destruct (w_tasks w !! tid) as [[t|t]|] eqn:Ht; [..|done].
    + eapply guarded_steps; [done..|by apply admit_turn_steps|done].
    + eapply guarded_steps; [done..|by apply class_turn_steps|done].
  - destruct (w_tasks w !! tid) as [t|] eqn:Ht; [|done]. eapply guarded_steps; [done..|by apply expire_turn_steps|done].
  - destruct (w_tasks w !! tid) as [t|] eqn:Ht; [|done]. eapply guarded_steps; [done..|by apply cancel_turn_steps|done].
  - destruct (w_leases w !! lid) as [l|]; [|done]. simplify_eq. split; try done. cbn. etrans; [done|]. apply setup_release.
Qed.

Lemma perform_all_guarded s0 actions n w w' : ps_enabled (rs_priority s0) = true →
  world_ok n w → n + len actions ≤ U64_MAX → guarded s0 w →
  forallb (λ a, negb (is_route_request a || reconfigures a)) actions = true → perform_all actions w = Some w' →
  guarded s0 w'.
Proof.
  intros Hen. revert n w. induction actions as [|a actions IH]; intros n w Hok Hmax Hg; cbn [perform_all forallb].
  - by intros _ [= <-].
  - rewrite len_cons in Hmax. pose proof (len_nonneg actions). intros [Ha Hr]%andb_prop.
    destruct (perform a w) as [w1|] eqn:E; [|done].
    apply (IH (n + 1) w1); [by eapply perform_ok; [|lia|]|lia| |done].
    eapply perform_guarded; [done..| |done]. by apply negb_true_iff.
Qed.

(** ** What the reservations leave *)

(** A count by cases. *)
Lemma count_cases {V} (P : V → bool) (Qs : list (V → bool)) (m : gmap Z V) :
  (∀ k v, m !! k = Some v → Z.b2z (P v) = foldr (λ Q z, Z.b2z (Q v) + z) 0 Qs) →
  count P m = foldr (λ Q z, count Q m + z) 0 Qs.
Proof.
  induction m as [|k v m Hk IH] using map_ind; intros Hv.
  - rewrite count_empty. clear Hv. induction Qs; cbn; [done|]. by rewrite count_empty, <-IHQs.
  - rewrite count_insert_new, IH by (done || intros k' v' Hk'; apply (Hv k'); rewrite lookup_insert_ne by congruence; done).
    rewrite (Hv k v) by apply lookup_insert_eq. clear Hv IH.
    induction Qs as [|Q Qs IH]; cbn; [done|]. rewrite count_insert_new by done. lia.
Qed.

Definition class_leases (kind : PriorityLeaseKind) : list (AdmissionLease → bool) :=
  map (λ c, holds_kind c kind) PriorityClass_ALL.

(** The leases of the global request slot, by class and kind. *)
Lemma global_leases p L : within p L → (∀ lid l, L !! lid = Some l → ∀ q, ls_priority l = Some q → ls_allocations l = global_request) →
  count (holds global_slot) L = foldr (λ Q z, count Q L + z) 0 (class_leases Reserved) + count holds_shared L.
Proof.
  intros [H1 _ _ _] Hpr. rewrite (count_cases holds_shared (class_leases Shared)).
  - rewrite (count_cases (holds global_slot) (class_leases Reserved ++ class_leases Shared)).
    + cbn. lia.
    + intros lid l Hl. specialize (H1 _ _ Hl). specialize (Hpr _ _ Hl). unfold holds in *.
      destruct (ls_priority l) as [[c k]|] eqn:E.
      * rewrite (Hpr _ eq_refl). rewrite bool_decide_eq_true_2 by (by left). cbn. unfold holds_kind. rewrite E.
        by destruct c, k.
      * assert (bool_decide (global_slot ∈ slots (ls_allocations l)) = false) as ->
          by (apply not_true_is_false; intros Hx; by destruct (H1 Hx)).
        cbn. unfold holds_kind. by rewrite E.
  - intros lid l Hl. unfold holds_shared. cbn. unfold holds_kind.
    destruct (ls_priority l) as [[c k]|]; [|done]. by destruct c, k.
Qed.

(** ** Validated reservations *)

Section validated.
Context (config : Config) (n : Z).
Let breakers := cf_breakers config.
Let priority := br_priority breakers.

Definition reserved_for (class : PriorityClass) : Z := po_reserved_requests (resolved_for_validation priority class).

Definition total_reserved : Z := foldr (λ c z, reserved_for c + z) 0 PriorityClass_ALL.

Hypothesis Hvalid : breakers_validate breakers = Ok tt.
Hypothesis Hfixed : max_active_requests (br_global breakers) = Fixed n.
Hypothesis Hn : n ≤ U64_MAX.
Hypothesis Hres : ∀ class, 0 ≤ reserved_for class.
Hypothesis Htotal : total_reserved ≤ U64_MAX.

Lemma sum_usize_exact : sum_usize (map reserved_for PriorityClass_ALL) = total_reserved.
Proof using Hres Htotal.
  assert (∀ l acc, 0 ≤ acc → acc + foldr (λ c z, reserved_for c + z) 0 l ≤ U64_MAX →
    foldl add64 acc (map reserved_for l) = acc + foldr (λ c z, reserved_for c + z) 0 l) as H;
    [|unfold sum_usize; by rewrite H].
  induction l as [|c l IH]; intros acc Ha Hl; cbn in *; [lia|]. pose proof (Hres c).
  assert (0 ≤ foldr (λ c z, reserved_for c + z) 0 l) as Hpos
    by (clear - Hres; induction l as [|x l IH]; cbn; [done|]; pose proof (Hres x); lia).
  rewrite add64_small by (unfold U64_MAX in *; lia). rewrite IH; lia.
Qed.

Lemma shares_validate_ok classes : shares_validate priority n classes = Ok tt →
  ∀ c, c ∈ classes → reserved_for c ≤ max_class_requests n (po_max_share (resolved_for_validation priority c)).
Proof using.
  induction classes as [|c classes IH]; cbn; intros H x Hx; [by apply elem_of_nil in Hx|].
  case_match eqn:E; [done|]. apply Z.ltb_ge in E. apply elem_of_cons in Hx as [->|Hx]; [done|by apply IH].
Qed.

Lemma priority_validated : total_reserved < n ∧
  ∀ c, reserved_for c ≤ max_class_requests n (po_max_share (resolved_for_validation priority c)).
Proof using Hvalid Hfixed Hres Htotal.
  revert Hvalid. unfold breakers_validate. case_match; [done|]. case_match; [done|]. rewrite Hfixed. cbn [fixed].
  destruct (scope_config_validate (br_global breakers)); [|done].
  destruct (scope_config_validate (br_route_defaults breakers)); [|done].
  destruct (scope_config_validate (br_pool_defaults breakers)); [|done].
  destruct (retry_budget_validate _); [|done]. destruct (failure_validate _); [|done]. fold priority.
  unfold priority_validate. destruct (classes_validate _ _); [|done]. cbn [mbind result_bind]. case_match; [done|].
  rewrite <-sum_usize_exact. unfold reserved_for. cbn [default]. case_match eqn:E; [done|]. intros Hs.
  apply Z.leb_gt in E. split; [exact E|]. intros c. apply (shares_validate_ok PriorityClass_ALL); [exact Hs|].
  apply list_elem_of_In. destruct c; cbn; tauto.
Qed.
End validated.

(** ** The start *)

Section start.
Context (config : Config) (n : Z).
Hypothesis Hvalid : breakers_validate (cf_breakers config) = Ok tt.
Hypothesis Hfixed : max_active_requests (br_global (cf_breakers config)) = Fixed n.
Hypothesis Hn : n ≤ U64_MAX.
Hypothesis Hres : ∀ class, 0 ≤ reserved_for config class.
Hypothesis Htotal : total_reserved config ≤ U64_MAX.

Lemma insert_scopes_global r scope key defaults global_auto failure_enabled entries scopes :
  (∀ b, key b ≠ Global) →
  insert_scopes r scope key defaults global_auto failure_enabled entries scopes !! Global = scopes !! Global.
Proof using.
  intros Hk. unfold insert_scopes. revert scopes. induction entries as [|e entries IH]; intros scopes; cbn [foldl]; [done|].
  rewrite IH. by rewrite lookup_insert_ne.
Qed.

(** The global limit is the configured one. *)
Lemma start_limit : ∃ limits, ss_limits <$> rs_scopes (state_from_config config) !! Global = Some limits ∧
  rl_active (limits Request) = n ∧ global_request_limit (rs_scopes (state_from_config config)) = limits Request.
Proof using Hvalid Hfixed Hres Htotal.
  destruct (priority_validated config n Hvalid Hfixed Hres Htotal) as [Hlt _].
  assert (0 ≤ total_reserved config) as Hpos.
  { unfold total_reserved. generalize PriorityClass_ALL. intros l. induction l as [|c l IH]; cbn; [done|].
    pose proof (Hres c). lia. }
  unfold global_request_limit. rewrite state_from_config_scopes. unfold resolve_scopes. cbn [fst].
  rewrite !insert_scopes_global by done. rewrite lookup_singleton_eq. eexists. split; [done|]. split; [|done].
  cbn. unfold configured_capacity. rewrite Hfixed. cbn. lia.
Qed.

(** What is left to share, and how much of its share a class reserves. *)
Lemma start_policies : let p := rs_priority (state_from_config config) in
  ps_shared_capacity p = n - total_reserved config ∧
  ∀ c, rp_reserved_requests (ps_policies p c) = reserved_for config c ∧
    reserved_for config c ≤ rp_max_requests (ps_policies p c).
Proof using Hvalid Hfixed Hn Hres Htotal.
  cbn zeta. destruct start_limit as (limits & _ & Hl & Hg).
  assert (rs_priority (state_from_config config) = priority_from_config (br_priority (cf_breakers config)) (limits Request)) as ->
    by (rewrite <-Hg, state_from_config_scopes; unfold state_from_config; by destruct (resolve_scopes config)).
  destruct (priority_validated config n Hvalid Hfixed Hres Htotal) as [Hlt Hmax]. split.
  - cbn [ps_shared_capacity priority_from_config]. rewrite Hl. unfold saturating_sub64.
    change (sum_usize _) with (sum_usize (map (reserved_for config) PriorityClass_ALL)).
    rewrite (sum_usize_exact config) by done. lia.
  - intros c. split; [done|]. cbn. rewrite Hl. apply Hmax.
Qed.

Lemma guarded_new start : br_enabled (cf_breakers config) = true →
  guarded (state_from_config config) (world_new config start).
Proof using Hvalid Hfixed Hn Hres Htotal.
  intros He. destruct start_policies as [Hc Hp]. destruct (priority_validated config n Hvalid Hfixed Hres Htotal) as [Hlt _].
  split; [done|done|done|cbn; by intros tid t Ht%lookup_empty_Some|]. cbn [world_new w_leases].
  split; intros; rewrite ?count_empty; [by apply lookup_empty_Some in H|lia| |lia].
  unfold max_shared_requests, saturating_sub64. lia.
Qed.

(** The classes that use all they reserve, and all that is shared, leave the
    reserved slots of the others. *)
Lemma reserved_admits m s now T L class a : books m s now T L → within (rs_priority (state_from_config config)) L →
  ps_policies (rs_priority s) = ps_policies (rs_priority (state_from_config config)) →
  active_of s global_slot = Some a → act_reserved (ps_active (rs_priority s) class) < reserved_for config class →
  priority_can_admit (rs_priority s) class true a n = Some Reserved.
Proof using Hvalid Hfixed Hn Hres Htotal.
  intros B W Hpo Ha%(b_active _ _ _ _ _ B) Hfree. destruct start_policies as [Hcap Hpol].
  pose proof (global_leases _ _ W (λ lid l Hl, proj2 (proj2 (b_leases _ _ _ _ _ B lid l Hl)))) as Hsum.
  pose proof (wi_shared _ _ W) as Hsh. rewrite Hcap in Hsh. pose proof (b_reserved _ _ _ _ _ B) as Hbr.
  pose proof (b_shared _ _ _ _ _ B class) as Hbs. pose proof (wi_class_shared _ _ W class) as Hcs.
  assert (Hle : ∀ c, count (holds_kind c Reserved) L ≤ reserved_for config c)
    by (intros c; pose proof (wi_reserved _ _ W c); destruct (Hpol c) as [Hp _]; rewrite Hp in *; pose proof (Hres c); lia).
  assert (a < n) as Hlt.
  { rewrite Hbr in Hfree. unfold total_reserved in Hsh. cbn in Hsum, Hsh.
    pose proof (Hle Admin). pose proof (Hle Health). pose proof (Hle SecurityCallback). pose proof (Hle Interactive).
    pose proof (Hle DefaultClass). pose proof (Hle Background). pose proof (Hle Crawler). destruct class; lia. }
  destruct (Hpol class) as [Hp Hmax]. unfold priority_can_admit. rewrite (proj2 (Z.leb_gt _ _)) by done.
  rewrite Hpo, Hp. unfold act_total, saturating_add64. unfold max_shared_requests, saturating_sub64 in Hcs. rewrite Hp in Hcs.
  rewrite (proj2 (Z.leb_gt _ _)) by lia. by rewrite (proj2 (Z.ltb_lt _ _)).
Qed.
End start.

(** C16 (safety). Reserved requests stay available: under a validated policy
    with a fixed global capacity whose reservations do not overflow, without
    [admit_route_request] and without reconfiguration, a class that uses fewer
    requests than it reserved has a reserved slot, however many requests the
    other classes hold, and an eligible caller of the class is admitted at
    once when no other one waits. *)
Theorem reserved_capacity_kept config n start actions w class :
  reachable config start actions w →
  forallb (λ a, negb (is_route_request a || reconfigures a)) actions = true →
  br_enabled (cf_breakers config) = true → pr_enabled (br_priority (cf_breakers config)) = true →
  breakers_validate (cf_breakers config) = Ok tt → max_active_requests (br_global (cf_breakers config)) = Fixed n →
  n ≤ U64_MAX → (∀ c, 0 ≤ reserved_for config c) → total_reserved config ≤ U64_MAX →
  act_reserved (ps_active (rs_priority (w_state w)) class) < reserved_for config class →
  (∃ global, rs_scopes (w_state w) !! Global = Some global ∧
     priority_can_admit (rs_priority (w_state w)) class true (ss_active global Request)
       (rl_active (ss_limits global Request)) = Some Reserved) ∧
  (lane_empty (rs_priority (w_state w)) class true = true →
   ∃ s lease, priority_attempt (w_state w) (w_enabled w) (w_now w) class true None
     = (s, false, PrReturn (Ok (Some lease)))).
Proof.
  intros Hreach Hacts Hen Hpe Hvalid Hfixed Hn Hres Htotal Hfree.
  destruct (reachable_ok _ _ _ _ Hreach) as [m [B _]]. destruct Hreach as [Hp Hl].
  assert (ps_enabled (rs_priority (state_from_config config)) = true) as Hpe0
    by (unfold state_from_config; by destruct (resolve_scopes config)).
  assert (guarded (state_from_config config) w) as [[Sl Se Sp Sc] Gen Gc Gt Gl].
  { apply (perform_all_guarded _ actions 1 (world_new config start)); [done|apply world_new_ok|lia| |done|done].
    by apply (guarded_new config n). }
  destruct (start_limit config n) as (limits & Hlim & Hact & _); [done..|].
  destruct (start_policies config n) as [Hcap Hpol]; [done..|].
  rewrite Hlim in Sl. destruct (rs_scopes (w_state w) !! Global) as [global|] eqn:Hg; [|done]. injection Sl as Sl.
  assert (priority_can_admit (rs_priority (w_state w)) class true (ss_active global Request)
       (rl_active (ss_limits global Request)) = Some Reserved) as Hadm.
  { rewrite Sl, Hact. eapply (reserved_admits config n); try done. unfold active_of. cbn. by rewrite Hg. }
  split; [by exists global|]. intros Hlane. unfold priority_attempt. rewrite Gen, Se, Hpe0, Hg, Hadm, Hlane. cbn [negb andb].
  rewrite (bool_decide_eq_true_2 (Some Reserved = _)) by done. rewrite orb_true_r. by eexists _, _.
Qed.
