(* ===== verification/CbWitness.v ===== *)
(** * Concrete runs of admission

    Instances of the theorems of [CbAdmission], [CbWakeups] and [CbReserved]
    at runs in which callers queue, wait and are admitted; and three edges of
    admission. *)

From stdpp Require Import countable gmap functions.
From S2P Require Import Prelude Bytes Text F64 CbConfig CbResources CbCircuit CbTypes CbPriority CbQueue CbRuntime CbTasks.
From S2P Require Import CbViews CbInvariant CbSystem CbAdmission CbWakeups CbReserved.
From S2P Require Import CbCircuitSpec.
From Stdlib Require Import Floats.SpecFloat.

(** ** Three edges of admission

    Concrete runs of the admission system: probes of an earlier period free
    the slots of a later one, a queued priority request that could be
    admitted is not woken, and reservations that validate leave ordinary
    requests no slot. *)

(** A test of the world a run ends in. *)
Definition after (actions : list Action) (w : World) (test : World → bool) : bool :=
  match perform_all actions w with
  | Some w => test w
  | None => false
  end.

Lemma after_run actions w r test : after actions w test = true → perform_all actions w = r →
  match r with
  | Some w => test w = true
  | None => False
  end.
Proof. unfold after. intros Ht <-. by destruct (perform_all actions w). Qed.

(** ** Configurations *)

(** One failure opens the circuit for at most a second; one probe at a time. *)
Definition probe_policy : CircuitBreakerFailureConfig :=
  mkFailureConfig true [OnConnectError] 1 20 f64_half 10000 1000 1000 1 2.

Definition edge_retry_budget : CircuitBreakerRetryBudgetConfig := mkRetryBudgetConfig f64_half 1 Auto Auto 50.

(** [active] global requests at a time, the rest automatic. *)
Definition edge_breakers (active : CapacitySetting) (classes : list CircuitBreakerPriorityClassConfig)
    : CircuitBreakersConfig :=
  mkBreakersConfig true 503 1000
    (mkScopeConfig active Auto 50 Auto Auto Auto Auto) scope_config_default scope_config_default
    edge_retry_budget probe_policy (mkPriorityConfig true classes).

Definition edge_resources (memory buffering : Z) : RuntimeResources :=
  mkResources (f64_of 4) memory 1000 buffering (64 * 1024).

Definition edge_config (active : CapacitySetting) (classes : list CircuitBreakerPriorityClassConfig)
    (r : RuntimeResources) : Config :=
  mkConfig (edge_breakers active classes) [(ascii "r", None)] [] r.

(** A second, in nanoseconds. *)
Definition second : Z := 1000000000.

(** A caller that is admitted at once: its call, [notified] and the attempt. *)
Definition admitted_at_once (tid : Z) (call : AdmissionCall) : list Action := [Call tid call None; Turn tid; Turn tid].

(** ** Probes of an earlier period *)

Definition stale_probe_run : list Action :=
  (* two requests start while the circuit is closed; the second fails *)
  admitted_at_once 1 (UpstreamAttempt (ascii "r") None) ++
  admitted_at_once 2 (UpstreamAttempt (ascii "r") None) ++
  [DropLease 2 (Failure ConnectError); Tick second] ++
  (* a probe starts; the first request fails and opens the circuit again *)
  admitted_at_once 3 (UpstreamAttempt (ascii "r") None) ++
  [DropLease 1 (Failure ConnectError); Tick second] ++
  (* a probe of the new period, the end of the old one, and one more probe *)
  admitted_at_once 4 (UpstreamAttempt (ascii "r") None) ++
  [DropLease 3 Neutral] ++
  admitted_at_once 5 (UpstreamAttempt (ascii "r") None).

(** The leases that probe a scope. *)
Definition probing (w : World) (key : ScopeKey) : list Z :=
  map fst (filter (λ l, key ∈ ls_probes l.2) (map_to_list (w_leases w))).

Definition stale_probe_test (w : World) : bool := (length (probing w (Route (ascii "r"))) =? 2)%nat.

Definition probe_config : Config := edge_config Auto [] (edge_resources (2 ^ 30) (64 * 1024)).

Lemma stale_probe_run_test : after stale_probe_run (world_new probe_config 0) stale_probe_test = true.
Proof. vm_compute. reflexivity. Qed.

(** C36 (error). A probe that outlives its half-open period gives its slot back
    to whatever period runs when it ends: under a validated policy of one
    probe at a time, two requests probe the same upstream. *)
Theorem stale_probe_exceeds_limit :
  ∃ config w,
    breakers_validate (cf_breakers config) = Ok tt ∧
    fl_half_open_max_probes (br_failure (cf_breakers config)) = 1 ∧
    perform_all stale_probe_run (world_new config 0) = Some w ∧
    length (probing w (Route (ascii "r"))) = 2%nat.
Proof.
  pose proof (after_run _ _ _ _ stale_probe_run_test eq_refl) as Ht. exists probe_config.
  destruct (perform_all stale_probe_run (world_new probe_config 0)) as [w|]; [|done].
  exists w. split_and!; [by vm_compute|done|done|]. by apply Nat.eqb_eq.
Qed.

(** ** A wake-up that is missing *)

Definition lost_wakeup_run : list Action :=
  (* two requests fill the two slots, two more wait *)
  admitted_at_once 1 GlobalRequest ++
  admitted_at_once 2 GlobalRequest ++
  [Call 3 GlobalRequest None; Turn 3; Turn 3; Turn 3; Turn 3] ++
  [Call 4 GlobalRequest None; Turn 4; Turn 4; Turn 4; Turn 4] ++
  (* both slots become free and both waiters are woken *)
  [DropLease 1 Neutral; DropLease 2 Neutral] ++
  (* the younger runs first and waits again; the older is admitted *)
  [Turn 4; Turn 4; Turn 4; Turn 4] ++
  [Turn 3; Turn 3; Turn 3].

(** The fourth request sleeps, would be admitted, and is rejected in the end. *)
Definition lost_wakeup_test (w : World) : bool :=
  match w_tasks w !! 4 with
  | Some (ClassTask t) =>
      match pk_stage t with
      | AtWait seen until =>
          (seen =? w_generation w)
          && match priority_attempt (w_state w) (w_enabled w) (w_now w) (pk_class t) (pk_eligible t) (pk_ticket t) with
             | (_, false, PrReturn (Ok (Some _))) => true
             | _ => false
             end
          && match perform_all [Tick (until - w_now w); Expire 4] w with
             | Some w' => match w_leases w' !! 4 with None => true | Some _ => false end
             | None => false
             end
      | _ => false
      end
  | _ => false
  end.

Definition two_slots_config : Config := edge_config (Fixed 2) [] (edge_resources (2 ^ 30) (64 * 1024)).

Lemma lost_wakeup_run_test : after lost_wakeup_run (world_new two_slots_config 0) lost_wakeup_test = true.
Proof. vm_compute. reflexivity. Qed.

(** C37 (error). A priority request that is admitted from the queue does not
    wake the others: with one slot of two free and an empty queue before it,
    the next request stays asleep, although an attempt would admit it now,
    and it is rejected when its wait elapses. *)
Theorem priority_wakeup_lost :
  ∃ config w t seen until,
    breakers_validate (cf_breakers config) = Ok tt ∧
    perform_all lost_wakeup_run (world_new config 0) = Some w ∧
    w_tasks w !! 4 = Some (ClassTask t) ∧ pk_stage t = AtWait seen until ∧ seen = w_generation w ∧
    (∃ s' lease, priority_attempt (w_state w) (w_enabled w) (w_now w) (pk_class t) (pk_eligible t) (pk_ticket t)
       = (s', false, PrReturn (Ok (Some lease)))) ∧
    ∃ w', perform_all [Tick (until - w_now w); Expire 4] w = Some w' ∧ w_leases w' !! 4 = None.
Proof.
  pose proof (after_run _ _ _ _ lost_wakeup_run_test eq_refl) as Ht. exists two_slots_config.
  destruct (perform_all lost_wakeup_run (world_new two_slots_config 0)) as [w|]; [|done].
  revert Ht. unfold lost_wakeup_test.
  destruct (w_tasks w !! 4) as [[t|t]|] eqn:Et; [done| |done].
  destruct (pk_stage t) as [| | | |seen until] eqn:Es; try done.
  intros [[Hseen%Z.eqb_eq Ha]%andb_prop Hx]%andb_prop.
  exists w, t, seen, until. split_and!; [by vm_compute|done..| |].
  - destruct (priority_attempt _ _ _ _ _ _) as [[s' []] [[[lease|]|]| |]]; try done. by eexists _, _.
  - destruct (perform_all _ w) as [w'|]; [|done]. exists w'. split; [done|]. by destruct (w_leases w' !! 4).
Qed.

(** ** Reservations that leave nothing *)

Definition callback_reservation : CircuitBreakerPriorityClassConfig :=
  mkClassConfig SecurityCallback (Some 40) None None None None.

Definition reserving_config : Config :=
  edge_config Auto [callback_reservation] (edge_resources (64 * 2 ^ 20) (2 ^ 20)).

Lemma reserving_config_test :
  match rs_scopes (state_from_config reserving_config) !! Global with
  | Some global => (rl_active (ss_limits global Request) =? 32) && (ss_active global Request =? 0)
  | None => false
  end = true.
Proof. vm_compute. reflexivity. Qed.

(** C38 (error). Validation checks reservations against an automatic capacity
    of at least 64 requests, but with little memory the automatic capacity is
    32: a validated configuration then has no shared slot, and an idle runtime
    admits no ordinary request. *)
Theorem reservations_leave_no_shared_slot :
  ∃ config global,
    breakers_validate (cf_breakers config) = Ok tt ∧
    rs_scopes (state_from_config config) !! Global = Some global ∧
    rl_active (ss_limits global Request) = 32 ∧ ss_active global Request = 0 ∧
    ps_shared_capacity (rs_priority (state_from_config config)) = 0 ∧
    ∀ class, class ≠ SecurityCallback → ∀ eligible,
      priority_can_admit (rs_priority (state_from_config config)) class eligible 0 32 = None.
Proof.
  exists reserving_config.
  destruct (rs_scopes (state_from_config reserving_config) !! Global) as [global|] eqn:E; [|by vm_compute in E].
  exists global. pose proof reserving_config_test as Ht. rewrite E in Ht.
  apply andb_prop in Ht as [Hl%Z.eqb_eq Ha%Z.eqb_eq].
  split_and!; [by vm_compute|done..|by vm_compute|].
  intros [] Hc []; try done; vm_compute; reflexivity.
Qed.

(** A caller that queues: its call, [notified], the attempt, the ticket and
    the wait. *)
Definition queues_up (tid : Z) (call : AdmissionCall) : list Action :=
  [Call tid call None; Turn tid; Turn tid; Turn tid; Turn tid].

(** The world a tested run reaches. *)
Lemma run_reaches config start actions test : after actions (world_new config start) test = true →
  (len actions <? U64_MAX) = true → ∃ w, reachable config start actions w ∧ test w = true.
Proof.
  unfold after, reachable. destruct (perform_all actions (world_new config start)) as [w|]; [|done].
  intros Ht Hl%Z.ltb_lt. by exists w.
Qed.

(** ** The books *)

Definition books_test (w : World) : bool :=
  match rs_scopes (w_state w) !! Global with
  | Some scope => (ss_active scope Request =? 1) && (ss_queued scope Request =? 1)
  | None => false
  end.

Lemma books_run_test : after lost_wakeup_run (world_new two_slots_config 0) books_test = true.
Proof. vm_compute. reflexivity. Qed.

Lemma admission_books_balance_witness :
  ∃ w, reachable two_slots_config 0 lost_wakeup_run w ∧
    count (holds (Global, Request)) (w_leases w) = 1 ∧ count (waits_for (Global, Request)) (w_tasks w) = 1.
Proof.
  destruct (run_reaches _ _ _ _ books_run_test eq_refl) as (w & Hr & Ht).
  exists w. split; [done|]. destruct (admission_books_balance _ _ _ _ Hr) as [Hb _].
  revert Ht. unfold books_test. destruct (rs_scopes (w_state w) !! Global) as [scope|] eqn:Es; [|done].
  intros [H1%Z.eqb_eq H2%Z.eqb_eq]%andb_prop. destruct (Hb _ _ Request Es) as [<- <-]. by split.
Defined.

(** ** Grants *)

Definition grant_run : list Action := [Call 1 GlobalRequest None; Turn 1].

Definition grant_test (w : World) : bool :=
  match w_leases w !! 1, perform (Turn 1) w with
  | None, Some w' =>
      match w_leases w' !! 1 with
      | Some (mkLease [mkAllocation Global Request None] _ _) => true
      | _ => false
      end
  | _, _ => false
  end.

Lemma grant_run_test : after grant_run (world_new two_slots_config 0) grant_test = true.
Proof. vm_compute. reflexivity. Qed.

Lemma granted_within_limits_witness :
  ∃ w w' scope, reachable two_slots_config 0 grant_run w ∧ perform (Turn 1) w = Some w' ∧
    rs_scopes (w_state w) !! Global = Some scope ∧
    count (holds (Global, Request)) (w_leases w') ≤ rl_active (ss_limits scope Request).
Proof.
  destruct (run_reaches _ _ _ _ grant_run_test eq_refl) as (w & Hr & Ht). revert Ht. unfold grant_test.
  destruct (w_leases w !! 1) eqn:E1; [done|]. destruct (perform (Turn 1) w) as [w'|] eqn:Ep; [|done].
  destruct (w_leases w' !! 1) as [[[|[[] [] []] []] probes priority]|] eqn:E2; try done. intros _.
  assert (mkAllocation Global Request None ∈ [mkAllocation Global Request None]) as Hin by (by left).
  destruct (granted_within_limits _ _ _ _ _ _ _ _ Hr Ep E1 E2 _ Hin) as (scope & Hs & Hle).
  by exists w, w', scope.
Defined.

(** ** Order *)

(** Two upstream requests fill the slots; a request and a retry wait. *)
Definition waiting_run : list Action :=
  admitted_at_once 1 (UpstreamAttempt (ascii "r") None) ++
  admitted_at_once 2 (UpstreamAttempt (ascii "r") None) ++
  queues_up 3 (UpstreamAttempt (ascii "r") None) ++
  [Tick second] ++
  queues_up 4 (RetryAttempt (ascii "r") None f64_one).

(** A slot becomes free and the request runs again. *)
Definition overtaking_run : list Action := waiting_run ++ [DropLease 1 Neutral; Turn 3; Turn 3].

(** The request is next to be admitted, and the retry could be. *)
Definition overtaking_test (w : World) : bool :=
  match w_leases w !! 3, w_tasks w !! 3, w_tasks w !! 4, perform (Turn 3) w with
  | None, Some (GenericTask t), Some (GenericTask t'), Some w' =>
      match w_leases w' !! 3, head (lane_of (rs_waiters (w_state w)) (ad_key t')) with
      | Some _, Some wt =>
          overlaps (ad_key t) (ad_key t') && admissible (w_state w) (w_now w) (wt_allocations wt)
          && (wt_queued_at wt =? second)
      | _, _ => false
      end
  | _, _, _, _ => false
  end.

Lemma overtaking_run_test : after overtaking_run (world_new two_slots_config 0) overtaking_test = true.
Proof. vm_compute. reflexivity. Qed.

Lemma no_overtaking_witness :
  ∃ w t k wt, reachable two_slots_config 0 overtaking_run w ∧ w_tasks w !! 3 = Some (GenericTask t) ∧
    at_front (rs_waiters (w_state w)) t ∧ ad_ticket t = Some k ∧ wt_queued_at wt = second ∧
    (wt_id wt = tk_id k ∨ waiter_before (mkWaiter (tk_id k) (ad_allocations t) (tk_queued_at k)) wt = true).
Proof.
  destruct (run_reaches _ _ _ _ overtaking_run_test eq_refl) as (w & Hr & Ht). revert Ht. unfold overtaking_test.
  destruct (w_leases w !! 3) eqn:E1; [done|]. destruct (w_tasks w !! 3) as [[t|]|] eqn:E2; [|done..].
  destruct (w_tasks w !! 4) as [[t'|]|]; [|done..]. destruct (perform (Turn 3) w) as [w'|] eqn:Ep; [|done].
  destruct (w_leases w' !! 3) as [l|] eqn:E3; [|done]. destruct (head _) as [wt|] eqn:Eh; [|done].
  intros [[Ho Ha]%andb_prop Hq%Z.eqb_eq]%andb_prop.
  destruct (no_overtaking _ _ _ _ _ _ _ _ _ Hr Ep E1 E3 E2) as [Hfront Hold].
  destruct (Hold _ _ Eh Ho Ha) as (k & Hk & Hbefore).
  by exists w, t, k, wt.
Defined.

(** ** Sleep *)

Definition waiting_test (w : World) : bool :=
  w_enabled w && match w_configuring w with None => true | Some _ => false end
  && match w_tasks w !! 3 with
     | Some (GenericTask t) => match ad_stage t with AtWait seen _ => w_generation w <=? seen | _ => false end
     | _ => false
     end.

Lemma waiting_run_test : after waiting_run (world_new two_slots_config 0) waiting_test = true.
Proof. vm_compute. reflexivity. Qed.

Lemma no_lost_wakeup_witness :
  ∃ w t, reachable two_slots_config 0 waiting_run w ∧ w_tasks w !! 3 = Some (GenericTask t) ∧
    ∀ s woken l, admit_attempt (w_state w) (w_enabled w) (w_now w) (ad_allocations t) (ad_key t) (ad_ticket t)
      ≠ (s, woken, Some (Ok (Some l))).
Proof.
  destruct (run_reaches _ _ _ _ waiting_run_test eq_refl) as (w & Hr & Ht). revert Ht. unfold waiting_test.
  intros [[He Hc]%andb_prop Ht]%andb_prop. destruct (w_configuring w) eqn:Ec; [done|].
  destruct (w_tasks w !! 3) as [[t|]|] eqn:E2; [|done..].
  destruct (ad_stage t) as [| | | |seen until] eqn:Es; try done. apply Z.leb_le in Ht.
  exists w, t. split_and!; [done..|]. intros s woken l.
  exact (no_lost_wakeup _ _ _ _ _ _ _ _ s woken l Hr eq_refl He Ec E2 Es Ht).
Defined.

(** ** Reservations *)

(** Four slots, two of them reserved for callbacks. *)
Definition four_slots_config : Config :=
  edge_config (Fixed 4) [mkClassConfig SecurityCallback (Some 2) None None None None]
    (edge_resources (2 ^ 30) (64 * 1024)).

(** Ordinary requests take what is shared; the third waits. *)
Definition shared_run : list Action :=
  admitted_at_once 1 GlobalRequest ++ admitted_at_once 2 GlobalRequest ++ queues_up 3 GlobalRequest.

Definition shared_test (w : World) : bool :=
  (act_reserved (ps_active (rs_priority (w_state w)) SecurityCallback) =? 0)
  && lane_empty (rs_priority (w_state w)) SecurityCallback true
  && match w_tasks w !! 3 with Some _ => true | None => false end.

Lemma shared_run_test : after shared_run (world_new four_slots_config 0) shared_test = true.
Proof. vm_compute. reflexivity. Qed.

Lemma reserved_capacity_kept_witness :
  ∃ w s lease, reachable four_slots_config 0 shared_run w ∧ is_Some (w_tasks w !! 3) ∧
    priority_attempt (w_state w) (w_enabled w) (w_now w) SecurityCallback true None
      = (s, false, PrReturn (Ok (Some lease))).
Proof.
  destruct (run_reaches _ _ _ _ shared_run_test eq_refl) as (w & Hr & Ht). revert Ht. unfold shared_test.
  intros [[Hz%Z.eqb_eq Hlane]%andb_prop Ht]%andb_prop. destruct (w_tasks w !! 3) eqn:E3; [|done].
  destruct (reserved_capacity_kept four_slots_config 4 0 shared_run w SecurityCallback Hr) as [_ Ha];
    [done|done|done|by vm_compute|done|done|by intros []|by vm_compute|by rewrite Hz|].
  destruct (Ha Hlane) as (s & lease & Hat). by exists w, s, lease.
Defined.
